(* ===== verification/_CoqProject ===== *)
-Q . S2P
Prelude.v
Bytes.v
Identity.v
Bounded.v
Value.v
Collection.v
Series.v
Registry.v
Admission.v
Layout.v
Wire.v
Fields.v
Crc.v
Journal.v
Generation.v
Commit.v
Retry.v
RetryCodec.v
Latest.v
Queue.v
Ingress.v
Runtime.v
Drain.v
Recovery.v
Disk.v
Active.v
Slots.v
Scan.v
Effects.v
Crash.v
Reopen.v
Handle.v
Restart.v
Root.v
Resume.v
Segment.v
SegmentWire.v
SegmentHistory.v
SegmentParse.v
SegmentBuild.v
SegmentWrite.v
SegmentQuery.v
Manifest.v
RegistryReplay.v
RegistryCodec.v
Directory.v
Publish.v
Roots.v
Store.v
Committed.v
Custody.v
RetryRoot.v
Commitment.v
Barrier.v
Inventory.v
Genesis.v
Sealed.v
Rotation.v
OpenStore.v
Looks.v
Reload.v
Reopening.v
StoreRuns.v
Worker.v
WorkerRuns.v
Interrupted.v
