(* ===== verification/Prelude.v ===== *)
(** * OpenControl Historian: a verification development

    The historian admits collection envelopes of industrial observations, issues each
    of them a place in one append-only journal, acknowledges them when a barrier has
    made them durable, and keeps everything a store needs to be opened again behind
    one committed root. Three crates carry that logic: [och-core] (the canonical
    model), [och-store] (files and formats) and [och-runtime] (bounded ingress and
    latest values). This development models them as Rocq definitions that follow the
    Rust code function by function, and proves what makes them correct.

    ** Conventions

    A fallible function answers a [result] and is written with [let!]; an operation
    that changes an object takes it and returns it, in the monad [M] of [Disk] where
    effects and errors are threaded through many calls. Integers are [Z] with the
    checks and the wrap-around of their Rust width written out; [usize] has 64 bits.
    Bytes are [Byte.byte], strings their bytes. Conditions are decidable propositions
    under [decide], so that everything evaluates. A slice index that could be out of
    range answers [Panicked] in the segment code, and theorems show that it never does.
    Definitions keep the names of the code; [wf] is the class of the well-formedness
    of a value, which the constructors of the code establish.

    ** The canonical model ([och-core])

    - [Bytes]: big-endian integers, UTF-8 ([to_be_bytes], [str::from_utf8]).
    - [Identity] ([error.rs], [identity.rs]), [Bounded] ([bounded.rs], [compact.rs]),
      [Value] ([time.rs], [position.rs], [value.rs], [quality.rs], [observation.rs]):
      the values and their validating constructors.
    - [Collection] ([collection.rs]): gaps and envelopes. The validation accepts exactly
      the declarative contract, and its single-pass scan of observations against gaps
      agrees with the quadratic definition it optimises.
    - [Series], [Registry] ([series.rs]): the declaration registry. Its invariant is
      preserved by register, revise and retire; it refines one append-only log per
      series; what is resolved stays resolvable; [bind] is exact.
    - [Admission] ([source.rs], [retry.rs]): [CanonicalAdmission], with the exact
      characterization of its construction.

    ** Formats ([och-store], pure)

    - [Wire], [Fields], [Layout]: the encoder, the cursor, one codec per field type
      through the class [Codec], and the fixed layouts of buffers.
    - [Crc], [Journal] ([codec.rs], [decoded.rs]): frames decode exactly from their
      encodings; what is issued round-trips; a run of at most four corrupted bytes is
      always detected.
    - [Generation] ([generation.rs]), [Commit], [Retry] and [RetryCodec] ([retry.rs]),
      [Recovery] ([recovery.rs]): the generation catalog as a gap-free chain; the retry
      projection as a window over the committed history, so that no scope is admitted
      twice within the horizon; their file codecs.
    - [Segment], [SegmentWire], [SegmentHistory], [SegmentParse], [SegmentBuild],
      [SegmentWrite], [SegmentQuery] ([segment.rs]): hostile bytes never make the parser
      panic and are accepted exactly when they are the artifact of a history; the
      builder makes exactly that artifact; a query answers the most recent matching
      observations of the history.
    - [Manifest], [RegistryReplay], [RegistryCodec] ([manifest.rs]): the manifest record
      and the registry snapshot, each decoded exactly from its canonical encoding, the
      latter by replaying it through the registry's own operations.

    ** The active journal ([och-store/src/active.rs], [pressure.rs])

    [Disk] has the files, and [Active] the operations over them. [Slots] and [Scan] show
    what checkpoint slots and a cut journal are read as, [Effects] the rules for effects
    that may fail, [Crash] what a crash leaves. [Reopen], [Handle] and [Restart] build up
    to [Restart.crash_recovery]: in any run, with any failing effect, kill and power
    loss, an open recovers a prefix of what was issued that contains everything
    acknowledged. [Root] and [Resume] treat the opens that a committed root directs.

    ** The manifest store ([och-store/src/manifest.rs])

    - [Directory]: the slots beside the journal; [Publish]: publication and removal.
    - [Roots]: selecting the root and checking everything an open checks; [Inventory]:
      the listing, the preflight and the format marker.
    - [Store]: the handle and its methods; [Genesis]: [initialize_genesis]; [Sealed],
      [Rotation]: sealing, segment access and [rotate]; [OpenStore]: [open].
    - [Committed], [Custody], [RetryRoot], [Commitment], [Barrier]: the invariant of a
      handle over its directory, and what every registry operation, append and barrier
      does to it when effects fail: it commits, it changes nothing, or it stops the
      handle over a directory that every crash reads back as the old or the new root.
    - [Looks], [Reload], [Reopening]: what an open of a settled directory answers.
    - [StoreRuns] composes all of it in one step relation [store_run]:
      [store_crash_safe] (crash atomicity of any run) and [store_reopen_serves] (an open
      after a power loss serves what was acknowledged, or leaves it intact).
      [Interrupted] has runs on which an open does not converge what a call left.

    ** The runtime ([och-runtime])

    - [Queue], [Ingress] ([ingress.rs]): the ring, the slots, the byte reservation, the
      receipts, and every critical section of the shared state as one function.
    - [Runtime], [Drain]: the interleavings of submitters and writer as a step relation,
      its invariant, and what follows: receipts are settled once and never lost,
      durable batches are all or nothing, a closed runtime drains.
    - [Latest] ([latest.rs]): a publication in three steps is one atomic update.

    ** Failures

    Every file operation first takes an event of a list that the environment supplies:
    it happens, or it fails, a write after any part of its bytes, a renaming or a removal
    having happened or not. The theorems quantify over the lists. A power loss keeps a
    prefix of the unsynchronized end of the journal, possibly torn, and each checkpoint
    slot whole, old or new ([Crash.power_loss]); in the slot directory every name falls
    back, independently, to any entry since the directory was synchronized, and a file
    that was not synchronized holds any bytes ([Directory.dir_survives]). The lock of
    another owner is part of the disk. That a path names a directory, and the types of
    its entries, are assumed. [store_reopen_serves] is about opens that nothing disturbs,
    of stores without an interrupted rotation; everything before the power loss may fail.

    ** Bounds

    Definitions by fuel take it from what they consume: a journal scan has room for the
    frames that fit its record limit or the expected count, a binary search for the
    length of its list, the loops over a file for its length in blocks of 64 KiB and one
    more; each is shown, or used in a theorem that shows it, to be enough.

    ** Not modelled

    - [och-runtime/src/lib.rs] and [store_worker.rs]: threads, channels, timers, async
      waiting and the shutdown of the process around the operations modelled here.
    - [typed_value_block.rs], which is compiled for tests only, the fault injection and
      harness hooks of tests, and [__m03_pr03e_native_harness.rs].
    - [tools/]: repository policy and evidence generation.
    - [compact_string] and the like only change allocation, and are the identity. *)

From stdpp Require Export prelude list gmap sorting.
From Stdlib Require Export Strings.Byte ZArith Lia.
From Stdlib Require Export Init.Byte.

#[export] Set Default Goal Selector "!".
Open Scope Z_scope.

(** ** Results: Rust's [Result<A, E>] and the [?] operator *)

Inductive result (E A : Type) : Type :=
| Ok (a : A)
| Err (e : E).
Arguments Ok {E A} a.
Arguments Err {E A} e.

Declare Scope result_scope.
Delimit Scope result_scope with result.
Open Scope result_scope.

Notation "'let!' x ':=' m 'in' k" :=
  (match m with Ok x => k | Err e => Err e end)
  (at level 10, x name, m at level 100, k at level 200) : result_scope.
Notation "'let!' ' p ':=' m 'in' k" :=
  (match m with Ok p => k | Err e => Err e end)
  (at level 10, p pattern, m at level 100, k at level 200) : result_scope.

(** [Result::map_err]. *)
Definition map_err {E F A : Type} (f : E → F) (r : result E A) : result F A :=
  match r with Ok a => Ok a | Err e => Err (f e) end.

(** [Option::ok_or]. *)
Definition ok_or {E A : Type} (o : option A) (e : E) : result E A :=
  match o with Some a => Ok a | None => Err e end.

(** [Option::is_some_and]. *)
Definition is_some_and {A : Type} (f : A → bool) (o : option A) : bool :=
  match o with Some a => f a | None => false end.

Definition is_ok {E A : Type} (r : result E A) : bool :=
  match r with Ok _ => true | Err _ => false end.

#[export] Instance result_eq_dec {E A} `{EqDecision E, EqDecision A} : EqDecision (result E A).
Proof. solve_decision. Defined.

(** ** Machine integers as ranges of [Z] *)

Definition u8_max : Z := 255.
Definition u16_max : Z := 65535.
Definition u32_max : Z := 4294967295.
Definition u64_max : Z := 18446744073709551615.
Definition u128_max : Z := 340282366920938463463374607431768211455.
Definition i64_min : Z := -9223372036854775808.
Definition i64_max : Z := 9223372036854775807.
(** The crates target 64-bit platforms: [usize] is a 64-bit word. *)
Definition usize_max : Z := u64_max.

Definition in_range (lo hi z : Z) : bool := bool_decide (lo ≤ z ≤ hi).
Abbreviation is_u8 := (in_range 0 u8_max).
Abbreviation is_u32 := (in_range 0 u32_max).
Abbreviation is_u64 := (in_range 0 u64_max).
Abbreviation is_u128 := (in_range 0 u128_max).
Abbreviation is_i64 := (in_range i64_min i64_max).

(** [checked_add] and [checked_sub] at an unsigned width with maximum [m];
    [saturating_add] likewise. *)
Definition checked_add (m a b : Z) : option Z :=
  if decide (a + b ≤ m) then Some (a + b) else None.
Definition checked_mul (m a b : Z) : option Z :=
  if decide (a * b ≤ m) then Some (a * b) else None.
Definition checked_sub (a b : Z) : option Z :=
  if decide (b ≤ a) then Some (a - b) else None.
Definition saturating_add (m a b : Z) : Z := Z.min (a + b) m.

(** [len] of a slice or vector, as the [usize] the code compares. *)
Definition len {A : Type} (l : list A) : Z := Z.of_nat (length l).

(** ** Type invariants

    [wf x] is what Rust's type system and the private constructors of the
    type guarantee of every value [x]: integer ranges, array lengths, UTF-8
    validity and the checks of the constructor. *)
Class Wf (A : Type) := wf : A → bool.
#[export] Hint Mode Wf ! : typeclass_instances.
#[export] Instance wf_option {A} `{Wf A} : Wf (option A) :=
  λ o, match o with Some x => wf x | None => true end.
#[export] Instance wf_list {A} `{Wf A} : Wf (list A) := forallb wf.

Lemma len_app {A} (l k : list A) : len (l ++ k) = len l + len k.
Proof. unfold len. rewrite length_app. lia. Qed.
Lemma len_nil {A} : len (@nil A) = 0.
Proof. done. Qed.
Lemma len_cons {A} (x : A) l : len (x :: l) = 1 + len l.
Proof. unfold len. cbn [length]. lia. Qed.
Lemma len_nonneg {A} (l : list A) : 0 ≤ len l.
Proof. unfold len. lia. Qed.

Lemma wf_list_Forall {A} `{Wf A} (l : list A) : wf l ↔ Forall (λ x : A, Is_true (wf x)) l.
Proof.
  change (wf l) with (forallb wf l). induction l as [|x l IH]; cbn [forallb].
  - split; [constructor | done].
  - by rewrite andb_True, Forall_cons, <-IH.
Qed.

Lemma wf_cons {A} `{Wf A} (x : A) l : wf (x :: l) ↔ wf x ∧ wf l.
Proof. by rewrite !wf_list_Forall, Forall_cons. Qed.

Lemma in_range_spec lo hi z : in_range lo hi z ↔ lo ≤ z ≤ hi.
Proof. apply bool_decide_spec. Qed.

(** ** Results, guards and options *)

Lemma let_ok_iff {E A} (r : result E ()) (k : result E A) x :
  (let! _ := r in k) = Ok x ↔ r = Ok tt ∧ k = Ok x.
Proof. destruct r as [[]|]; naive_solver. Qed.

Lemma let_err_iff {E A} (r : result E ()) (k : result E A) e :
  (let! _ := r in k) = Err e ↔ r = Err e ∨ (r = Ok tt ∧ k = Err e).
Proof. destruct r as [[]|]; naive_solver. Qed.

Lemma is_some_and_false {A} (f : A → bool) o :
  is_some_and f o = false ↔ ∀ a, o = Some a → f a = false.
Proof. destruct o; cbn; naive_solver. Qed.

Lemma guard_Ok {E A} P `{Decision P} (e : E) (k : result E A) x :
  (if decide P then Err e else k) = Ok x ↔ ¬ P ∧ k = Ok x.
Proof. destruct (decide P); naive_solver. Qed.

Lemma guardb_Ok {E A} (b : bool) (e : E) (k : result E A) x :
  (if b then Err e else k) = Ok x ↔ b = false ∧ k = Ok x.
Proof. destruct b; naive_solver. Qed.

Lemma ok_or_Ok {E A B} (o : option A) (e : E) (k : A → result E B) x :
  (let! y := ok_or o e in k y) = Ok x ↔ ∃ y, o = Some y ∧ k y = Ok x.
Proof. destruct o; naive_solver. Qed.

Lemma refused_or P Q `{Decision P} : ¬ (¬ P ∨ Q) ↔ P ∧ ¬ Q.
Proof. destruct (decide P); naive_solver. Qed.
Lemma not_refused_eq P `{Decision P} : ¬ ¬ P ↔ P.
Proof. destruct (decide P); naive_solver. Qed.

Lemma checked_add_ok m a b : a + b ≤ m → checked_add m a b = Some (a + b).
Proof. intros H. unfold checked_add. by rewrite decide_True. Qed.

Lemma checked_add_Some m a b c : checked_add m a b = Some c ↔ a + b ≤ m ∧ c = a + b.
Proof. unfold checked_add. case_decide; naive_solver. Qed.
Lemma checked_mul_Some m a b c : checked_mul m a b = Some c ↔ a * b ≤ m ∧ c = a * b.
Proof. unfold checked_mul. case_decide; naive_solver. Qed.
Lemma checked_sub_Some a b c : checked_sub a b = Some c ↔ b ≤ a ∧ c = a - b.
Proof. unfold checked_sub. case_decide; naive_solver. Qed.
Lemma checked_mul_ok m a b : a * b ≤ m → checked_mul m a b = Some (a * b).
Proof. intros H. unfold checked_mul. by rewrite decide_True. Qed.

(** An injective image decides equality of members. *)
Lemma NoDup_fmap_eq {A B} (f : A → B) l x y : NoDup (f <$> l) → x ∈ l → y ∈ l → f x = f y → x = y.
Proof.
  induction l as [|a l IH]; [by intros _ ?%elem_of_nil|]. rewrite fmap_cons, NoDup_cons.
  intros [Ha Hl] [->|Hx]%elem_of_cons [->|Hy]%elem_of_cons E; [done| | |by apply IH].
  - destruct Ha. rewrite E. by apply list_elem_of_fmap_2.
  - destruct Ha. rewrite <-E. by apply list_elem_of_fmap_2.
Qed.

(** An equation whose negation is one of the refused disjuncts. *)
Ltac not_refused := apply dec_stable; tauto.

Create HintDb och discriminated.
Create Rewrite HintDb len.
#[export] Hint Rewrite @len_app @len_nil @len_cons : len.
