(* ===== verification/Bytes.v ===== *)
(** * Bytes, big-endian integers and UTF-8

    The parts of Rust's standard library that every codec of the historian
    rests on: [u8] as [Byte.byte], [to_be_bytes]/[from_be_bytes] at any width,
    and [core::str::from_utf8] with [str::chars]. *)

From S2P Require Import Prelude.

(** ** Bytes *)

Definition Z_of_byte (b : byte) : Z := Z.of_N (Byte.to_N b).

Definition byte_of_Z (z : Z) : byte :=
  match Byte.of_N (Z.to_N (z mod 256)) with Some b => b | None => x00 end.

#[export] Instance byte_eq_dec : EqDecision byte := Byte.byte_eq_dec.
#[export] Program Instance byte_countable : Countable byte :=
  inj_countable Byte.to_N Byte.of_N _.
Next Obligation. intros b. apply Byte.of_to_N. Qed.

Lemma Z_of_byte_range b : 0 ≤ Z_of_byte b < 256.
Proof. unfold Z_of_byte. pose proof (Byte.to_N_bounded b). lia. Qed.

Lemma byte_of_Z_of_byte b : byte_of_Z (Z_of_byte b) = b.
Proof.
  unfold byte_of_Z. pose proof (Z_of_byte_range b) as Hr.
  rewrite Z.mod_small by done. unfold Z_of_byte.
  by rewrite N2Z.id, Byte.of_to_N.
Qed.

Lemma Z_of_byte_of_Z z : Z_of_byte (byte_of_Z z) = z mod 256.
Proof.
  unfold byte_of_Z. pose proof (Z.mod_pos_bound z 256 eq_refl) as Hr.
  destruct (Byte.of_N _) as [b|] eqn:E.
  - apply Byte.to_of_N in E. unfold Z_of_byte. rewrite E. lia.
  - apply Byte.of_N_None_iff in E. lia.
Qed.

#[export] Instance Z_of_byte_inj : Inj (=) (=) Z_of_byte.
Proof.
  intros a b E. rewrite <-(byte_of_Z_of_byte a), <-(byte_of_Z_of_byte b). by rewrite E.
Qed.

(** Zero-filled padding is checked by the decoders with [byte != 0]. *)
Definition zeros (n : nat) : list byte := replicate n x00.

(** ** Big-endian integers *)

(** The [n] bytes of [z]: [to_be_bytes] of an [8n]-bit integer, signed or not. *)
Fixpoint be_bytes (n : nat) (z : Z) : list byte :=
  match n with
  | O => []
  | S m => be_bytes m (z / 256) ++ [byte_of_Z z]
  end.

(** [from_be_bytes] of an unsigned integer. *)
Definition from_be (l : list byte) : Z := foldl (λ acc b, acc * 256 + Z_of_byte b) 0 l.

(** [i64::from_be_bytes]. *)
Definition i64_from_be (l : list byte) : Z :=
  let u := from_be l in if decide (u ≤ i64_max) then u else u - 2 ^ 64.

Lemma length_be_bytes n z : length (be_bytes n z) = n.
Proof. revert z. induction n as [|n IH]; intros z; cbn; [done|]. rewrite length_app, IH. cbn. lia. Qed.

Lemma len_be_bytes n z : len (be_bytes n z) = Z.of_nat n.
Proof. unfold len. by rewrite length_be_bytes. Qed.

Lemma from_be_snoc l b : from_be (l ++ [b]) = from_be l * 256 + Z_of_byte b.
Proof. unfold from_be. by rewrite foldl_snoc. Qed.

Lemma from_be_range l : 0 ≤ from_be l < 256 ^ len l.
Proof.
  induction l as [|b l IH] using rev_ind; [done|].
  rewrite from_be_snoc, len_app. pose proof (Z_of_byte_range b).
  change (len [b]) with 1. pose proof (len_nonneg l).
  rewrite Z.pow_add_r by lia. lia.
Qed.

Lemma from_be_bytes n z : from_be (be_bytes n z) = z mod 256 ^ Z.of_nat n.
Proof.
  revert z. induction n as [|n IH]; intros z; [by rewrite Z.mod_1_r|].
  cbn [be_bytes]. rewrite from_be_snoc, IH, Z_of_byte_of_Z, Nat2Z.inj_succ, Z.pow_succ_r by lia.
  pose proof (Z.pow_pos_nonneg 256 (Z.of_nat n)).
  rewrite Z.rem_mul_r by lia. lia.
Qed.

Lemma from_be_bytes_small n z : 0 ≤ z < 256 ^ Z.of_nat n → from_be (be_bytes n z) = z.
Proof. intros H. by rewrite from_be_bytes, Z.mod_small. Qed.

Lemma be_bytes_from_be l : be_bytes (length l) (from_be l) = l.
Proof.
  induction l as [|b l IH] using rev_ind; [done|].
  rewrite length_app, Nat.add_comm. cbn [length Nat.add be_bytes].
  pose proof (Z_of_byte_range b). rewrite from_be_snoc.
  rewrite Z.div_add_l by lia. rewrite Z.div_small, Z.add_0_r, IH by lia.
  do 2 f_equal. apply (inj Z_of_byte). rewrite Z_of_byte_of_Z.
  rewrite Z.add_comm, Z.mod_add, Z.mod_small; lia.
Qed.

Lemma be_bytes_from_be' n l : length l = n → be_bytes n (from_be l) = l.
Proof. intros <-. apply be_bytes_from_be. Qed.

Lemma be_bytes_mod n z : be_bytes n (z mod 256 ^ Z.of_nat n) = be_bytes n z.
Proof.
  rewrite <-from_be_bytes. apply be_bytes_from_be'. apply length_be_bytes.
Qed.

Lemma i64_from_be_bytes z : is_i64 z → i64_from_be (be_bytes 8 z) = z.
Proof.
  rewrite in_range_spec. unfold i64_min, i64_max, i64_from_be. intros H.
  rewrite from_be_bytes. change (256 ^ Z.of_nat 8) with 18446744073709551616.
  unfold i64_max. destruct (decide (0 ≤ z)).
  - rewrite Z.mod_small by lia. rewrite decide_True by lia. done.
  - replace (z mod 18446744073709551616) with (z + 18446744073709551616).
    + rewrite decide_False by lia. lia.
    + rewrite <-(Z.mod_add z 1) by lia. rewrite Z.mod_small; lia.
Qed.

Lemma be_bytes_i64_from_be l : length l = 8%nat → be_bytes 8 (i64_from_be l) = l.
Proof.
  intros Hl. unfold i64_from_be. case_decide; [by apply be_bytes_from_be'|].
  rewrite <-be_bytes_mod.
  replace ((from_be l - 2 ^ 64) mod 256 ^ Z.of_nat 8) with (from_be l).
  - by apply be_bytes_from_be'.
  - change (256 ^ Z.of_nat 8) with (2 ^ 64). pose proof (from_be_range l) as Hr.
    unfold len in Hr. rewrite Hl in Hr. change (256 ^ Z.of_nat 8) with (2 ^ 64) in Hr.
    rewrite <-(Z.mod_add _ 1) by lia. rewrite Z.mod_small; lia.
Qed.

Lemma i64_from_be_range l : length l = 8%nat → is_i64 (i64_from_be l).
Proof.
  intros Hl. rewrite in_range_spec. unfold i64_from_be, i64_min.
  pose proof (from_be_range l) as Hr. unfold len in Hr. rewrite Hl in Hr.
  change (256 ^ Z.of_nat 8) with 18446744073709551616 in Hr.
  unfold i64_max in *. case_decide; lia.
Qed.

(** ** UTF-8 *)

(** Rust's [String] and [&str] are UTF-8 byte sequences. *)
Abbreviation rstring := (list byte).

Definition cont (x : Z) : bool := bool_decide (128 ≤ x ≤ 191).

(** Admissible second bytes after a three-byte lead: no overlong form and no
    surrogate. *)
Definition second3 (x0 x1 : Z) : bool :=
  bool_decide ((x0 = 224 ∧ 160 ≤ x1 ≤ 191) ∨ (225 ≤ x0 ≤ 236 ∧ 128 ≤ x1 ≤ 191) ∨
               (x0 = 237 ∧ 128 ≤ x1 ≤ 159) ∨ (238 ≤ x0 ≤ 239 ∧ 128 ≤ x1 ≤ 191)).

(** Admissible second bytes after a four-byte lead: at most U+10FFFF. *)
Definition second4 (x0 x1 : Z) : bool :=
  bool_decide ((x0 = 240 ∧ 144 ≤ x1 ≤ 191) ∨ (241 ≤ x0 ≤ 243 ∧ 128 ≤ x1 ≤ 191) ∨
               (x0 = 244 ∧ 128 ≤ x1 ≤ 143)).

(** The Unicode scalar values of a byte sequence; [None] when
    [core::str::from_utf8] refuses it. *)
Fixpoint utf8_decode (l : list byte) : option (list Z) :=
  match l with
  | [] => Some []
  | b0 :: l1 =>
    let x0 := Z_of_byte b0 in
    if decide (x0 < 128) then cons x0 <$> utf8_decode l1
    else match l1 with
    | [] => None
    | b1 :: l2 =>
      let x1 := Z_of_byte b1 in
      if decide (194 ≤ x0 ≤ 223) then
        if cont x1 then cons ((x0 - 192) * 64 + (x1 - 128)) <$> utf8_decode l2 else None
      else match l2 with
      | [] => None
      | b2 :: l3 =>
        let x2 := Z_of_byte b2 in
        if second3 x0 x1 && cont x2 then
          cons ((x0 - 224) * 4096 + (x1 - 128) * 64 + (x2 - 128)) <$> utf8_decode l3
        else match l3 with
        | [] => None
        | b3 :: l4 =>
          let x3 := Z_of_byte b3 in
          if second4 x0 x1 && cont x2 && cont x3 then
            cons ((x0 - 240) * 262144 + (x1 - 128) * 4096 + (x2 - 128) * 64 + (x3 - 128))
              <$> utf8_decode l4
          else None
        end
      end
    end
  end.

(** The type invariant of [String]. *)
Definition utf8_ok (s : rstring) : bool := bool_decide (is_Some (utf8_decode s)).

(** [core::str::from_utf8]. *)
Definition from_utf8 (l : list byte) : option rstring := if utf8_ok l then Some l else None.

(** [str::chars]. *)
Definition chars (s : rstring) : list Z := default [] (utf8_decode s).

(** A successful decode consumes one to four bytes per scalar. *)
Lemma utf8_decode_step l cs :
  utf8_decode l = Some cs →
  (l = [] ∧ cs = []) ∨
  ∃ p r c cs', l = p ++ r ∧ 1 ≤ len p ≤ 4 ∧ cs = c :: cs' ∧ utf8_decode r = Some cs'.
Proof.
  destruct l as [|b0 l1]; [left; by simplify_eq/=|]. cbn. right. case_decide.
  { destruct (utf8_decode l1) as [t|] eqn:E; simplify_eq/=. by eexists [b0], l1, _, t. }
  destruct l1 as [|b1 l2]; [done|]. case_decide.
  { destruct (cont _); [|done].
    destruct (utf8_decode l2) as [t|] eqn:E; simplify_eq/=. by eexists [b0; b1], l2, _, t. }
  destruct l2 as [|b2 l3]; [done|]. destruct (second3 _ _ && _).
  { destruct (utf8_decode l3) as [t|] eqn:E; simplify_eq/=. by eexists [b0; b1; b2], l3, _, t. }
  destruct l3 as [|b3 l4]; [done|]. destruct (second4 _ _ && _ && _); [|done].
  destruct (utf8_decode l4) as [t|] eqn:E; simplify_eq/=. by eexists [b0; b1; b2; b3], l4, _, t.
Qed.

(** At most four bytes per Unicode scalar. *)
Lemma utf8_decode_len l cs : utf8_decode l = Some cs → len cs ≤ len l ≤ 4 * len cs.
Proof.
  revert l. induction cs as [|c cs IH]; intros l H;
    destruct (utf8_decode_step _ _ H) as [[-> ?]|(p & r & c' & cs' & -> & Hp & ? & Hr)];
    simplify_eq; try done.
  apply IH in Hr. rewrite len_app, len_cons. lia.
Qed.

Lemma utf8_ok_chars s : utf8_ok s → utf8_decode s = Some (chars s).
Proof. intros [cs E]%bool_decide_spec. unfold chars. by rewrite E. Qed.

Lemma utf8_ok_len s : utf8_ok s → len s ≤ 4 * len (chars s).
Proof. intros H%utf8_ok_chars%utf8_decode_len. lia. Qed.

(** ASCII bytes are their own scalars. *)
Lemma utf8_decode_ascii s :
  Forall (λ b, Z_of_byte b < 128) s → utf8_decode s = Some (Z_of_byte <$> s).
Proof.
  induction 1 as [|b s Hb _ IH]; [done|]. cbn. rewrite decide_True by done.
  by rewrite IH.
Qed.

Lemma utf8_ok_ascii s : Forall (λ b, Z_of_byte b < 128) s → utf8_ok s.
Proof. intros H. apply bool_decide_spec. rewrite utf8_decode_ascii by done. by eexists. Qed.

Lemma from_utf8_Some l s : from_utf8 l = Some s ↔ s = l ∧ utf8_ok l.
Proof. unfold from_utf8. destruct (utf8_ok l); naive_solver. Qed.

#[global] Arguments be_bytes : simpl never.
