(* ===== verification/Identity.v ===== *)
(** * Sanitized model errors and nominal UUIDv7 identities

    [och-core/src/error.rs] and [och-core/src/identity.rs]: the closed error
    enumeration of the canonical model, and the six nominal identity families
    generated by the [identity_type!] macro, here one record indexed by the
    family so that identities of different families have different types. *)

From S2P Require Import Prelude Bytes.

(** ** Model errors *)

Inductive ModelError : Set :=
| InvalidIdentity
| InvalidExactText
| InvalidPortableToken
| InvalidContentFormat
| InvalidRetryKey
| InvalidCanonicalDecimal
| InvalidNanosecond
| InexactUnixMilliseconds
| UnixMillisecondsOverflow
| EmptyTimeInterval
| EmptyGap
| TooManyNativeStatusTokens
| TooManyObservations
| TooManyGaps
| EmptyObservedEvidence
| DuplicateObservationId
| MixedProducerPositions
| MisorderedProducerPositions
| MisorderedGaps
| OverlappingGaps
| ObservationInsideGap
| MissingObservationInterval
| UnexpectedObservationInterval
| InvalidNoChangeMode
| InvalidDeclarationReference
| InvalidDeclarationRevision
| RegistrySeriesCapacityExceeded
| RegistryRevisionCapacityExceeded
| SeriesAlreadyRegistered
| SeriesNotFound
| SeriesRetired
| StaleDeclarationRevision
| DeclarationUnchanged
| SeriesMetadataMismatch
| ObservationValueFamilyMismatch
| InvalidSourceSchemaVersion
| CaptureRunTimeOrder
| SourceEndpointSystemMismatch
| CaptureRunEndpointMismatch
| SourceSnapshotRunMismatch
| SourceProjectionRequired
| SourceIntervalMismatch
| SourceLifecycleBindingMismatch
| AdmissionRetryScopeMismatch
| TooManySourceObservationContexts
| SourceObservationCountMismatch
| SourceObservationAssociationMismatch
| TooManySourceGapContexts
| SourceGapCountMismatch
| MisorderedSourceRecordOrdinals
| DuplicateSourceEvidenceId
| SourceRawSnapshotMismatch
| SourceNormalizedRawMismatch
| SourceNormalizedObservationMismatch
| SourceRawIdempotencyMismatch
| SourceInterpretationMismatch
| SourceGapMismatch.

#[export] Instance ModelError_eq_dec : EqDecision ModelError.
Proof. solve_decision. Defined.

(** ** Identity families *)

Inductive id_family : Set :=
| StoreFamily | SeriesFamily | ProducerFamily | ObservationFamily | ArtifactFamily | EvidenceFamily.

Record Identity (F : id_family) := mkIdentity { into_bytes : list byte }.
Arguments mkIdentity {F} into_bytes.
Arguments into_bytes {F} i.

Abbreviation StoreId := (Identity StoreFamily).
Abbreviation SeriesId := (Identity SeriesFamily).
Abbreviation ProducerId := (Identity ProducerFamily).
Abbreviation ObservationId := (Identity ObservationFamily).
Abbreviation ArtifactId := (Identity ArtifactFamily).
Abbreviation EvidenceId := (Identity EvidenceFamily).

#[export] Instance Identity_eq_dec F : EqDecision (Identity F).
Proof. solve_decision. Defined.
#[export] Program Instance Identity_countable F : Countable (Identity F) :=
  inj_countable' into_bytes mkIdentity _.
Next Obligation. by intros F []. Qed.

(** ** Parsing and validation *)

Definition is_separator (i : nat) : bool :=
  bool_decide (i = 8%nat ∨ i = 13%nat ∨ i = 18%nat ∨ i = 23%nat).

(** [source[i]]; every index used below is guarded by the length check. *)
Definition at_ (source : list byte) (i : nat) : Z := Z_of_byte (nth i source x00).

Definition decode_lower_hex (value : Z) : result ModelError Z :=
  if decide (48 ≤ value ≤ 57) then Ok (value - 48)
  else if decide (97 ≤ value ≤ 102) then Ok (value - 97 + 10)
  else Err InvalidIdentity.

Definition validate_uuid_v7 (bytes : list byte) : result ModelError (list byte) :=
  if decide (Z.shiftr (at_ bytes 6) 4 ≠ 7 ∨ Z.land (at_ bytes 8) 192 ≠ 128)
  then Err InvalidIdentity else Ok bytes.

(** The destination loop of [parse_uuid_v7]. Its inner [while] advances past a
    separator; two separators are never adjacent ([separator_isolated]), so the
    [while] runs at most once. *)
Fixpoint parse_bytes (remaining : nat) (source : list byte) (source_index : nat)
  : result ModelError (list byte) :=
  match remaining with
  | O => Ok []
  | S remaining =>
    let source_index := if is_separator source_index then S source_index else source_index in
    let! high := decode_lower_hex (at_ source source_index) in
    let! low := decode_lower_hex (at_ source (S source_index)) in
    let destination := byte_of_Z (Z.lor (Z.shiftl high 4) low) in
    let! rest := parse_bytes remaining source (S (S source_index)) in
    Ok (destination :: rest)
  end.

Definition parse_uuid_v7 (text : rstring) : result ModelError (list byte) :=
  if decide (len text ≠ 36 ∨ at_ text 8 ≠ 45 ∨ at_ text 13 ≠ 45 ∨ at_ text 18 ≠ 45 ∨ at_ text 23 ≠ 45)
  then Err InvalidIdentity
  else
    let! bytes := parse_bytes 16 text 0 in
    validate_uuid_v7 bytes.

(** [{byte:02x}]. *)
Definition hex_digit (d : Z) : byte := byte_of_Z (if decide (d < 10) then 48 + d else 87 + d).
Definition fmt_02x (b : byte) : rstring :=
  [hex_digit (Z_of_byte b / 16); hex_digit (Z_of_byte b mod 16)].

Fixpoint display_bytes (index : nat) (bytes : list byte) : rstring :=
  match bytes with
  | [] => []
  | b :: rest =>
    (if bool_decide (index = 4%nat ∨ index = 6%nat ∨ index = 8%nat ∨ index = 10%nat) then ["-"%byte] else [])
      ++ fmt_02x b ++ display_bytes (S index) rest
  end.
Definition display_uuid (bytes : list byte) : rstring := display_bytes 0 bytes.

(** The methods the [identity_type!] macro generates. *)
Section identity_type.
Context {F : id_family}.

Definition parse (text : rstring) : result ModelError (Identity F) :=
  let! bytes := parse_uuid_v7 text in Ok (mkIdentity bytes).

Definition from_bytes (bytes : list byte) : result ModelError (Identity F) :=
  let! bytes := validate_uuid_v7 bytes in Ok (mkIdentity bytes).

Definition display (id : Identity F) : rstring := display_uuid (into_bytes id).
End identity_type.

(** The derived [Ord] of a byte array: lexicographic. *)
Fixpoint bytes_lt (a b : list byte) : bool :=
  match a, b with
  | [], [] => false
  | [], _ :: _ => true
  | _ :: _, [] => false
  | x :: a, y :: b =>
    bool_decide (Z_of_byte x < Z_of_byte y) || (bool_decide (x = y) && bytes_lt a b)
  end.
Definition id_lt {F} (a b : Identity F) : Prop := bytes_lt (into_bytes a) (into_bytes b).
#[export] Instance id_lt_dec F : RelDecision (@id_lt F).
Proof. intros a b. unfold id_lt. apply _. Defined.

(** Every identity is a 16-byte array that passed [validate_uuid_v7]. *)
#[export] Instance wf_identity F : Wf (Identity F) := λ id,
  bool_decide (length (into_bytes id) = 16%nat) && is_ok (validate_uuid_v7 (into_bytes id)).

(** Concrete identities for the witnesses of this development: the test suite's
    [01941f29-7c00-7000-8000-0000000000NN]. *)
Definition sample_id {F} (n : Z) : Identity F :=
  mkIdentity (be_bytes 6 0x01941f297c00 ++ be_bytes 2 0x7000 ++ be_bytes 8 (0x8000000000000000 + n)).

(** ** Lemmas *)

Lemma bytes_lt_irrefl a : ¬ bytes_lt a a.
Proof.
  induction a as [|x a IH]; cbn; [tauto|].
  rewrite orb_True, andb_True, !bool_decide_spec. intros [?|[_ ?]]; [lia|tauto].
Qed.

Lemma bytes_lt_trans a b c : bytes_lt a b → bytes_lt b c → bytes_lt a c.
Proof.
  revert b c. induction a as [|x a IH]; intros [|y b] [|z c]; cbn; try done.
  rewrite !orb_True, !andb_True, !bool_decide_spec.
  intros [?|[-> ?]] [?|[-> ?]]; [left; lia|by left|by left|]. right. eauto.
Qed.

Lemma bytes_lt_total a b : bytes_lt a b ∨ a = b ∨ bytes_lt b a.
Proof.
  revert b. induction a as [|x a IH]; intros [|y b]; cbn; [tauto..|].
  rewrite !orb_True, !andb_True, !bool_decide_spec.
  destruct (Z.lt_trichotomy (Z_of_byte x) (Z_of_byte y)) as [?|[?%(inj Z_of_byte)|?]]; [tauto| |tauto].
  subst y. destruct (IH b) as [?|[->|?]]; tauto.
Qed.

#[export] Instance id_lt_strict F : StrictOrder (@id_lt F).
Proof.
  split.
  - intros a. apply bytes_lt_irrefl.
  - intros a b c. apply bytes_lt_trans.
Qed.

Lemma id_lt_total {F} (a b : Identity F) : id_lt a b ∨ a = b ∨ id_lt b a.
Proof.
  destruct a as [a], b as [b]. unfold id_lt. cbn.
  destruct (bytes_lt_total a b) as [?|[->|?]]; tauto.
Qed.

Lemma separator_isolated i : is_separator i → ¬ is_separator (S i).
Proof. unfold is_separator. rewrite !bool_decide_spec. lia. Qed.

Lemma validate_uuid_v7_Ok bytes bytes' : validate_uuid_v7 bytes = Ok bytes' → bytes' = bytes.
Proof. unfold validate_uuid_v7. case_decide; naive_solver. Qed.

Lemma from_bytes_into {F} (id : Identity F) : wf id → from_bytes (into_bytes id) = Ok id.
Proof.
  unfold wf, wf_identity, from_bytes. rewrite andb_True. intros [_ Hv].
  destruct (validate_uuid_v7 _) as [b|] eqn:E; [|done].
  apply validate_uuid_v7_Ok in E as ->. by destruct id.
Qed.

Lemma from_bytes_wf {F} bytes (id : Identity F) :
  length bytes = 16%nat → from_bytes bytes = Ok id → wf id ∧ into_bytes id = bytes.
Proof.
  unfold from_bytes, wf, wf_identity. intros Hl.
  destruct (validate_uuid_v7 bytes) as [b|] eqn:E; [|done].
  pose proof (validate_uuid_v7_Ok _ _ E) as ->. intros [= <-]. cbn.
  rewrite Hl, E. done.
Qed.

Lemma wf_identity_length {F} (id : Identity F) : wf id → length (into_bytes id) = 16%nat.
Proof. unfold wf, wf_identity. rewrite andb_True, bool_decide_spec. tauto. Qed.

Lemma hex_digit_decode d : 0 ≤ d < 16 → decode_lower_hex (Z_of_byte (hex_digit d)) = Ok d.
Proof.
  intros Hd. unfold hex_digit. destruct (decide (d < 10)); rewrite Z_of_byte_of_Z; unfold decode_lower_hex;
    rewrite Z.mod_small by lia.
  - rewrite decide_True by lia. f_equal. lia.
  - rewrite decide_False by lia. rewrite decide_True by lia. f_equal. lia.
Qed.

Lemma decode_lower_hex_Ok v d :
  decode_lower_hex v = Ok d → 0 ≤ d < 16 ∧ Z_of_byte (hex_digit d) = v.
Proof.
  unfold decode_lower_hex, hex_digit. intros H.
  repeat case_decide; simplify_eq; (split; [lia|]); rewrite Z_of_byte_of_Z, Z.mod_small; lia.
Qed.

Lemma hex_join h l : 0 ≤ h < 16 → 0 ≤ l < 16 → Z.lor (Z.shiftl h 4) l = 16 * h + l.
Proof.
  intros Hh Hl. rewrite Z.shiftl_mul_pow2 by lia. change (2 ^ 4) with 16.
  pose proof (Z.add_lor_land (h * 16) l) as Hs.
  assert (Z.land (h * 16) l = 0) as E; [|lia]. clear Hs.
  apply Z.bits_inj'. intros n Hn. rewrite Z.land_spec, Z.bits_0.
  destruct (decide (n < 4)).
  - change 16 with (2 ^ 4). rewrite (Z.mul_pow2_bits_low h 4 n) by lia. done.
  - rewrite (Z.bits_above_log2 l n); [by rewrite andb_false_r|lia|].
    destruct (decide (l = 0)) as [->|]; [cbn; lia|].
    apply Z.log2_lt_pow2; [lia|]. apply Z.lt_le_trans with (2 ^ 4); [lia|].
    apply Z.pow_le_mono_r; lia.
Qed.

Lemma fmt_02x_join h l :
  0 ≤ h < 16 → 0 ≤ l < 16 →
  fmt_02x (byte_of_Z (Z.lor (Z.shiftl h 4) l)) = [hex_digit h; hex_digit l].
Proof.
  intros Hh Hl. rewrite hex_join by done. unfold fmt_02x. rewrite Z_of_byte_of_Z.
  rewrite (Z.mod_small (16 * h + l)) by lia.
  replace ((16 * h + l) / 16) with h by (apply Z.div_unique with l; lia).
  by replace ((16 * h + l) mod 16) with l by (apply Z.mod_unique with h; lia).
Qed.

Lemma hex_join_byte b :
  byte_of_Z (Z.lor (Z.shiftl (Z_of_byte b / 16) 4) (Z_of_byte b mod 16)) = b.
Proof.
  pose proof (Z_of_byte_range b). pose proof (Z.mod_pos_bound (Z_of_byte b) 16 eq_refl).
  assert (0 ≤ Z_of_byte b / 16 < 16).
  { split; [apply Z.div_pos; lia | apply Z.div_lt_upper_bound; lia]. }
  rewrite hex_join by lia. rewrite <-Z.div_mod by lia. apply byte_of_Z_of_byte.
Qed.

Lemma hex_byte_decode b :
  decode_lower_hex (Z_of_byte (hex_digit (Z_of_byte b / 16))) = Ok (Z_of_byte b / 16) ∧
  decode_lower_hex (Z_of_byte (hex_digit (Z_of_byte b mod 16))) = Ok (Z_of_byte b mod 16).
Proof.
  pose proof (Z_of_byte_range b). pose proof (Z.mod_pos_bound (Z_of_byte b) 16 eq_refl).
  split; apply hex_digit_decode; [|done].
  split; [apply Z.div_pos; lia | apply Z.div_lt_upper_bound; lia].
Qed.

(** The loop of [parse_uuid_v7], one destination byte at a time. *)
Lemma parse_bytes_step k source i h l :
  let j := if is_separator i then S i else i in
  decode_lower_hex (at_ source j) = Ok h →
  decode_lower_hex (at_ source (S j)) = Ok l →
  parse_bytes (S k) source i =
    let! rest := parse_bytes k source (S (S j)) in
    Ok (byte_of_Z (Z.lor (Z.shiftl h 4) l) :: rest).
Proof. cbn zeta. intros H1 H2. cbn [parse_bytes]. by rewrite H1, H2. Qed.

(** Exactly sixteen bytes. *)
Ltac explicit_bytes l Hl :=
  repeat (destruct l as [|? l]; [discriminate Hl | cbn [length] in Hl; apply Nat.succ_inj in Hl]);
  destruct l; [clear Hl | discriminate Hl].

Lemma parse_display_bytes bytes :
  length bytes = 16%nat → parse_bytes 16 (display_uuid bytes) 0 = Ok bytes.
Proof.
  intros Hl. explicit_bytes bytes Hl.
  cbv -[decode_lower_hex hex_digit Z_of_byte byte_of_Z Z.lor Z.shiftl Z.div Z.modulo].
  repeat (rewrite (proj1 (hex_byte_decode _)), (proj2 (hex_byte_decode _))).
  by rewrite !hex_join_byte.
Qed.

(** Sixteen steps of the loop, each inverted. *)
Lemma display_parse_bytes text bytes :
  length text = 36%nat →
  at_ text 8 = 45 → at_ text 13 = 45 → at_ text 18 = 45 → at_ text 23 = 45 →
  parse_bytes 16 text 0 = Ok bytes →
  length bytes = 16%nat ∧ display_uuid bytes = text.
Proof.
  intros Hl. explicit_bytes text Hl.
  cbv -[decode_lower_hex hex_digit Z_of_byte byte_of_Z Z.lor Z.shiftl Z.div Z.modulo length display_uuid].
  intros H1 H2 H3 H4 H.
  repeat match type of H with
  | context [decode_lower_hex ?v] =>
      let E := fresh "E" in
      destruct (decode_lower_hex v) eqn:E; [apply decode_lower_hex_Ok in E as [? ?]|discriminate H]
  end.
  injection H as <-. split; [done|].
  cbv -[fmt_02x hex_digit Z_of_byte byte_of_Z Z.lor Z.shiftl Z.div Z.modulo app].
  rewrite !fmt_02x_join by done. cbn [app].
  repeat f_equal; apply (inj Z_of_byte); done.
Qed.

Lemma display_uuid_shape bytes :
  length bytes = 16%nat →
  len (display_uuid bytes) = 36 ∧ at_ (display_uuid bytes) 8 = 45 ∧ at_ (display_uuid bytes) 13 = 45 ∧
  at_ (display_uuid bytes) 18 = 45 ∧ at_ (display_uuid bytes) 23 = 45.
Proof. intros Hl. by explicit_bytes bytes Hl. Qed.

Lemma parse_display {F} (id : Identity F) : wf id → parse (display id) = Ok id.
Proof.
  intros Hw. pose proof (wf_identity_length id Hw) as Hl.
  destruct (display_uuid_shape _ Hl) as (?&?&?&?&?).
  unfold parse, parse_uuid_v7, display. rewrite decide_False by tauto.
  rewrite parse_display_bytes by done. by apply from_bytes_into.
Qed.

Lemma parse_Ok {F} text (id : Identity F) : parse text = Ok id → wf id ∧ display id = text.
Proof.
  unfold parse, parse_uuid_v7, display. case_decide as Hc; [done|]. intros H.
  destruct (parse_bytes 16 text 0) as [bytes|] eqn:E; [|done].
  apply display_parse_bytes in E as [Hl Hd]; [|unfold len in *; lia..].
  apply (from_bytes_wf bytes) in H as [Hw <-]; done.
Qed.

(** Parsing canonical identity text and displaying an identity are inverse:
    [parse] accepts exactly the texts [display] produces of valid UUIDv7
    identities, and yields the identity whose text it is. Every other text
    (uppercase, missing hyphens, other version or variant) is refused. *)
Theorem identity_text_canonical {F} (text : rstring) (id : Identity F) :
  parse text = Ok id ↔ wf id ∧ text = display id.
Proof.
  split.
  - intros [Hw Hd]%parse_Ok. by split.
  - intros [Hw ->]. by apply parse_display.
Qed.
