(* ===== verification/Bounded.v ===== *)
(** * Bounded exact text and portable tokens

    [och-core/src/bounded.rs]: printable-ASCII tokens (one record per family
    of the [portable_token!] macro), exact text, content formats and retry
    keys. [compact_string] only drops spare allocation capacity, so the model
    keeps the text itself. *)

From S2P Require Import Prelude Bytes Identity.

Definition MAX_TEXT_SCALARS : Z := 4096.
Definition MAX_PORTABLE_TOKEN_BYTES : Z := 256.
Definition MAX_CONTENT_FORMAT_BYTES : Z := 64.
Definition MAX_RETRY_KEY_BYTES : Z := 128.

(** [compact_string] and [compact_vec]: the value is unchanged. *)
Definition compact_string (value : rstring) : rstring := value.
Definition compact_vec {T} (value : list T) : list T := value.

Definition printable_ascii (b : byte) : bool := bool_decide (32 ≤ Z_of_byte b ≤ 126).

Definition validate_printable_ascii (value : rstring) (maximum : Z) : bool :=
  bool_decide (value ≠ []) && bool_decide (len value ≤ maximum) && forallb printable_ascii value.

(** ** Portable tokens *)

Inductive token_family : Set :=
| StateClassToken | StateMemberToken | NativeStatusFamily | UnavailableReasonToken.

Record Token (F : token_family) := mkToken { token_str : rstring }.
Arguments mkToken {F} token_str.
Arguments token_str {F} t.

Abbreviation StateClass := (Token StateClassToken).
Abbreviation StateMember := (Token StateMemberToken).
Abbreviation NativeStatusToken := (Token NativeStatusFamily).
Abbreviation UnavailableReason := (Token UnavailableReasonToken).

#[export] Instance Token_eq_dec F : EqDecision (Token F).
Proof. solve_decision. Defined.

Definition token_new {F} (value : rstring) : result ModelError (Token F) :=
  if validate_printable_ascii value MAX_PORTABLE_TOKEN_BYTES
  then Ok (mkToken (compact_string value))
  else Err InvalidPortableToken.

(** ** Exact text *)

Record ExactText := mkExactText { text_str : rstring }.
#[export] Instance ExactText_eq_dec : EqDecision ExactText.
Proof. solve_decision. Defined.

(** [value.chars().take(MAX_TEXT_SCALARS + 1).count() > MAX_TEXT_SCALARS]. *)
Definition exact_text_new (value : rstring) : result ModelError ExactText :=
  if decide (len (take (Z.to_nat (MAX_TEXT_SCALARS + 1)) (chars value)) > MAX_TEXT_SCALARS)
  then Err InvalidExactText
  else Ok (mkExactText (compact_string value)).

(** ** Content formats *)

Record ContentFormat := mkContentFormat { format_str : rstring }.
#[export] Instance ContentFormat_eq_dec : EqDecision ContentFormat.
Proof. solve_decision. Defined.

Definition is_ascii_uppercase (b : byte) : bool := bool_decide (65 ≤ Z_of_byte b ≤ 90).

Definition content_format_new (value : rstring) : result ModelError ContentFormat :=
  let valid := bool_decide (value ≠ []) && bool_decide (len value ≤ MAX_CONTENT_FORMAT_BYTES)
    && forallb (λ byte, bool_decide (33 ≤ Z_of_byte byte ≤ 126) && negb (is_ascii_uppercase byte)) value in
  if negb valid then Err InvalidContentFormat else Ok (mkContentFormat (compact_string value)).

(** ** Retry keys *)

Record RetryKey := mkRetryKey { key_str : rstring }.
#[export] Instance RetryKey_eq_dec : EqDecision RetryKey.
Proof. solve_decision. Defined.

Definition retry_key_new (value : rstring) : result ModelError RetryKey :=
  if negb (validate_printable_ascii value MAX_RETRY_KEY_BYTES) then Err InvalidRetryKey
  else Ok (mkRetryKey (compact_string value)).

(** ** Type invariants

    A value of each type holds valid UTF-8 and passed its constructor. *)

#[export] Instance wf_token F : Wf (Token F) := λ t, is_ok (@token_new F (token_str t)).
#[export] Instance wf_exact_text : Wf ExactText := λ t,
  utf8_ok (text_str t) && is_ok (exact_text_new (text_str t)).
#[export] Instance wf_content_format : Wf ContentFormat := λ f, is_ok (content_format_new (format_str f)).
#[export] Instance wf_retry_key : Wf RetryKey := λ k, is_ok (retry_key_new (key_str k)).

(** ** Lemmas *)

Lemma forallb_ascii_utf8 (p : byte → bool) s :
  (∀ b, p b → Z_of_byte b < 128) → forallb p s → utf8_ok s.
Proof.
  intros Hp Hs. apply utf8_ok_ascii. induction s as [|b s IH]; [constructor|].
  cbn in Hs. apply andb_True in Hs as [Hb Hs]. constructor; [by apply Hp | by apply IH].
Qed.

Lemma validate_printable_ascii_spec value maximum :
  validate_printable_ascii value maximum →
  len value ≤ maximum ∧ utf8_ok value ∧ value ≠ [].
Proof.
  unfold validate_printable_ascii. intros H. destruct_and? H. split_and!; [done| |done].
  eapply forallb_ascii_utf8; [|done]. intros b Hb%bool_decide_spec. lia.
Qed.

Section token.
Context {F : token_family}.
Implicit Types t : Token F.

Lemma token_new_str t : wf t → token_new (token_str t) = Ok t.
Proof. unfold wf, wf_token, token_new. destruct t; cbn. by destruct validate_printable_ascii. Qed.

Lemma token_new_Ok value t : token_new value = Ok t → wf t ∧ token_str t = value.
Proof.
  unfold wf, wf_token, token_new. intros H.
  destruct (validate_printable_ascii value _) eqn:E; simplify_eq/=; unfold compact_string in *; by rewrite E.
Qed.

Lemma wf_token_bound t : wf t → len (token_str t) ≤ MAX_PORTABLE_TOKEN_BYTES ∧ utf8_ok (token_str t).
Proof.
  unfold wf, wf_token, token_new. destruct (validate_printable_ascii _ _) eqn:E; [|done].
  apply Is_true_true in E. apply validate_printable_ascii_spec in E. tauto.
Qed.
End token.

Lemma exact_text_new_str t : wf t → exact_text_new (text_str t) = Ok t.
Proof.
  unfold wf, wf_exact_text, exact_text_new. rewrite andb_True. destruct t; cbn.
  case_decide; naive_solver.
Qed.

Lemma exact_text_new_Ok value t :
  utf8_ok value → exact_text_new value = Ok t → wf t ∧ text_str t = value.
Proof.
  unfold wf, wf_exact_text, exact_text_new. intros Hu H. case_decide as Hc; simplify_eq/=; unfold compact_string in *.
  rewrite decide_False by done. by rewrite andb_True.
Qed.

Lemma wf_exact_text_bound t :
  wf t → len (text_str t) ≤ 4 * MAX_TEXT_SCALARS ∧ utf8_ok (text_str t).
Proof.
  unfold wf, wf_exact_text, exact_text_new. rewrite andb_True. intros [Hu Hc]. split; [|done].
  case_decide as Hd; [done|]. pose proof (utf8_ok_len _ Hu) as Hl.
  unfold len in Hd. rewrite length_take in Hd. unfold len, MAX_TEXT_SCALARS in *. lia.
Qed.

Lemma content_format_new_str f : wf f → content_format_new (format_str f) = Ok f.
Proof.
  unfold wf, wf_content_format, content_format_new. destruct f; cbn.
  by destruct (negb _).
Qed.

Lemma content_format_new_Ok value f :
  content_format_new value = Ok f → wf f ∧ format_str f = value.
Proof.
  unfold wf, wf_content_format, content_format_new. intros H.
  destruct (negb _) eqn:E; simplify_eq/=; unfold compact_string in *; by rewrite E.
Qed.

Lemma wf_content_format_bound f :
  wf f → len (format_str f) ≤ MAX_CONTENT_FORMAT_BYTES ∧ utf8_ok (format_str f).
Proof.
  unfold wf, wf_content_format, content_format_new. destruct (negb _) eqn:E; [done|]. intros _.
  apply negb_false_iff, Is_true_true in E. destruct_and? E. split; [done|].
  eapply forallb_ascii_utf8; [|done]. intros b Hb. cbv beta in Hb. destruct_and? Hb. lia.
Qed.

Lemma retry_key_new_str k : wf k → retry_key_new (key_str k) = Ok k.
Proof. unfold wf, wf_retry_key, retry_key_new. destruct k; cbn. by destruct validate_printable_ascii. Qed.

Lemma retry_key_new_Ok value k : retry_key_new value = Ok k → wf k ∧ key_str k = value.
Proof.
  unfold wf, wf_retry_key, retry_key_new. intros H.
  destruct (validate_printable_ascii value _) eqn:E; simplify_eq/=; unfold compact_string in *; by rewrite E.
Qed.

Lemma wf_retry_key_bound k : wf k → len (key_str k) ≤ MAX_RETRY_KEY_BYTES ∧ utf8_ok (key_str k).
Proof.
  unfold wf, wf_retry_key, retry_key_new. destruct (validate_printable_ascii _ _) eqn:E; [|done].
  apply Is_true_true in E. apply validate_printable_ascii_spec in E. tauto.
Qed.
