(* ===== verification/Value.v ===== *)
(** * Times, producer positions, values, quality and observations

    [och-core/src/time.rs], [position.rs], [value.rs], [quality.rs] and
    [observation.rs]. *)

From S2P Require Import Prelude Bytes Identity Bounded.

(** ** Timestamps *)

Record Timestamp := mkTimestamp { unix_seconds : Z; nanosecond : Z }.
#[export] Instance Timestamp_eq_dec : EqDecision Timestamp.
Proof. solve_decision. Defined.

Definition NANOS_PER_SECOND : Z := 1000000000.

Definition timestamp_new (unix_seconds nanosecond : Z) : result ModelError Timestamp :=
  if decide (nanosecond >= NANOS_PER_SECOND) then Err InvalidNanosecond
  else Ok (mkTimestamp unix_seconds nanosecond).

(** [div_euclid] and [rem_euclid] by a positive divisor are [Z.div] and
    [Z.modulo]; [u32::try_from(..).unwrap_or_default()] is 0 out of range. *)
Definition u32_try_from_or_default (z : Z) : Z := if is_u32 z then z else 0.

Definition from_unix_milliseconds (milliseconds : Z) : Timestamp :=
  let unix_seconds := milliseconds / 1000 in
  let millisecond_fraction := milliseconds mod 1000 in
  mkTimestamp unix_seconds (u32_try_from_or_default millisecond_fraction * 1000000).

Definition to_unix_milliseconds (t : Timestamp) : result ModelError Z :=
  if decide (nanosecond t mod 1000000 ≠ 0) then Err InexactUnixMilliseconds
  else
    let milliseconds := unix_seconds t * 1000 + nanosecond t / 1000000 in
    if is_i64 milliseconds then Ok milliseconds else Err UnixMillisecondsOverflow.

#[export] Instance wf_timestamp : Wf Timestamp := λ t,
  is_i64 (unix_seconds t) && bool_decide (0 ≤ nanosecond t < NANOS_PER_SECOND).

(** The derived [Ord]: seconds first, then nanoseconds. *)
Definition ts_lt (a b : Timestamp) : Prop :=
  unix_seconds a < unix_seconds b ∨ (unix_seconds a = unix_seconds b ∧ nanosecond a < nanosecond b).
#[export] Instance ts_lt_dec : RelDecision ts_lt.
Proof. intros a b. unfold ts_lt. apply _. Defined.

(** The instant a normalized timestamp denotes, in nanoseconds. *)
Definition instant (t : Timestamp) : Z := unix_seconds t * NANOS_PER_SECOND + nanosecond t.

Record ObservationTimes := mkObservationTimes {
  times_source : option Timestamp;
  times_receive : Timestamp;
  times_effective : Timestamp }.
#[export] Instance ObservationTimes_eq_dec : EqDecision ObservationTimes.
Proof. solve_decision. Defined.
#[export] Instance wf_times : Wf ObservationTimes := λ t,
  wf (times_source t) && wf (times_receive t) && wf (times_effective t).

Record TimeInterval := mkTimeInterval { interval_start : Timestamp; interval_end : Timestamp }.
#[export] Instance TimeInterval_eq_dec : EqDecision TimeInterval.
Proof. solve_decision. Defined.

(** [start >= end] of the derived total order is [¬ start < end]. *)
Definition time_interval_new (start end_ : Timestamp) : result ModelError TimeInterval :=
  if decide (¬ ts_lt start end_) then Err EmptyTimeInterval else Ok (mkTimeInterval start end_).

Definition interval_contains (i : TimeInterval) (timestamp : Timestamp) : bool :=
  bool_decide (¬ ts_lt timestamp (interval_start i)) && bool_decide (ts_lt timestamp (interval_end i)).

#[export] Instance wf_interval : Wf TimeInterval := λ i,
  wf (interval_start i) && wf (interval_end i) && is_ok (time_interval_new (interval_start i) (interval_end i)).

(** ** Producer numbers and positions *)

Definition is_ascii_digit (b : byte) : bool := bool_decide (48 ≤ Z_of_byte b ≤ 57).

(** [checked_mul(10)] then [checked_add(digit - b'0')], one digit at a time. *)
Fixpoint u128_digits (value : Z) (bytes : list byte) : result ModelError Z :=
  match bytes with
  | [] => Ok value
  | digit :: rest =>
    if decide (value * 10 ≤ u128_max) then
      match checked_add u128_max (value * 10) (Z_of_byte digit - 48) with
      | Some current => u128_digits current rest
      | None => Err InvalidCanonicalDecimal
      end
    else Err InvalidCanonicalDecimal
  end.

Definition parse_canonical_u128 (text : rstring) : result ModelError Z :=
  if decide (text = [] ∨ len text > 39 ∨ (len text > 1 ∧ at_ text 0 = 48) ∨ ¬ forallb is_ascii_digit text)
  then Err InvalidCanonicalDecimal
  else u128_digits 0 text.

(** Decimal [Display] of an unsigned integer; 39 digits hold every [u128]. *)
Definition dec_digit (d : Z) : byte := byte_of_Z (48 + d).
Fixpoint display_decimal (fuel : nat) (v : Z) : rstring :=
  match fuel with
  | O => []
  | S fuel =>
    if decide (v < 10) then [dec_digit v]
    else display_decimal fuel (v / 10) ++ [dec_digit (v mod 10)]
  end.
Definition display_u128 (v : Z) : rstring := display_decimal 39 v.

Inductive number_family : Set := EpochNumber | SequenceNumber.
Record ProducerNumber (F : number_family) := mkNumber { number_get : Z }.
Arguments mkNumber {F} number_get.
Arguments number_get {F} p.
Abbreviation ProducerEpoch := (ProducerNumber EpochNumber).
Abbreviation ProducerSequence := (ProducerNumber SequenceNumber).
#[export] Instance ProducerNumber_eq_dec F : EqDecision (ProducerNumber F).
Proof. solve_decision. Defined.
#[export] Instance wf_number F : Wf (ProducerNumber F) := λ n, is_u128 (number_get n).

Definition number_parse {F} (text : rstring) : result ModelError (ProducerNumber F) :=
  let! v := parse_canonical_u128 text in Ok (mkNumber v).
Definition number_display {F} (n : ProducerNumber F) : rstring := display_u128 (number_get n).

Definition number_lt {F} (a b : ProducerNumber F) : Prop := number_get a < number_get b.
#[export] Instance number_lt_dec F : RelDecision (@number_lt F).
Proof. intros a b. unfold number_lt. apply _. Defined.

Record ProducerPosition := mkPosition { pos_epoch : ProducerEpoch; pos_sequence : ProducerSequence }.
#[export] Instance ProducerPosition_eq_dec : EqDecision ProducerPosition.
Proof. solve_decision. Defined.
#[export] Instance wf_position : Wf ProducerPosition := λ p, wf (pos_epoch p) && wf (pos_sequence p).

(** The derived [Ord]: epoch first, then sequence. *)
Definition pos_lt (a b : ProducerPosition) : Prop :=
  number_lt (pos_epoch a) (pos_epoch b) ∨
  (pos_epoch a = pos_epoch b ∧ number_lt (pos_sequence a) (pos_sequence b)).
#[export] Instance pos_lt_dec : RelDecision pos_lt.
Proof. intros a b. unfold pos_lt. apply _. Defined.

(** ** Exact values and content identity *)

(** IEEE 754 binary64 bits, retained as a [u64]. *)
Record RealBits := mkRealBits { to_bits : Z }.
#[export] Instance RealBits_eq_dec : EqDecision RealBits.
Proof. solve_decision. Defined.
#[export] Instance wf_real : Wf RealBits := λ r, is_u64 (to_bits r).

Record ContentVersion := mkContentVersion { version_get : Z }.
#[export] Instance ContentVersion_eq_dec : EqDecision ContentVersion.
Proof. solve_decision. Defined.
#[export] Instance wf_version : Wf ContentVersion := λ v, is_u128 (version_get v).
Definition version_parse (text : rstring) : result ModelError ContentVersion :=
  let! v := parse_canonical_u128 text in Ok (mkContentVersion v).

Record ContentIdentity := mkContentIdentity {
  content_format : ContentFormat;
  content_version : ContentVersion;
  content_sha256 : list byte }.
#[export] Instance ContentIdentity_eq_dec : EqDecision ContentIdentity.
Proof. solve_decision. Defined.
#[export] Instance wf_content : Wf ContentIdentity := λ c,
  wf (content_format c) && wf (content_version c) && bool_decide (length (content_sha256 c) = 32%nat).

Record ArtifactReference := mkArtifactReference {
  artifact_id : ArtifactId;
  artifact_content : ContentIdentity }.
#[export] Instance ArtifactReference_eq_dec : EqDecision ArtifactReference.
Proof. solve_decision. Defined.
#[export] Instance wf_artifact : Wf ArtifactReference := λ a, wf (artifact_id a) && wf (artifact_content a).

Record StateValue := mkStateValue { state_class : StateClass; state_member : StateMember }.
#[export] Instance StateValue_eq_dec : EqDecision StateValue.
Proof. solve_decision. Defined.
#[export] Instance wf_state_value : Wf StateValue := λ s, wf (state_class s) && wf (state_member s).

Record Unavailable := mkUnavailable { unavailable_reason : option UnavailableReason }.
#[export] Instance Unavailable_eq_dec : EqDecision Unavailable.
Proof. solve_decision. Defined.
#[export] Instance wf_unavailable : Wf Unavailable := λ u, wf (unavailable_reason u).

Inductive ExactValue :=
| VReal (bits : RealBits)
| VSigned (v : Z)
| VUnsigned (v : Z)
| VBoolean (b : bool)
| VState (s : StateValue)
| VText (t : ExactText)
| VArtifact (a : ArtifactReference)
| VUnavailable (u : Unavailable).
#[export] Instance ExactValue_eq_dec : EqDecision ExactValue.
Proof. solve_decision. Defined.
#[export] Instance wf_exact_value : Wf ExactValue := λ v,
  match v with
  | VReal r => wf r
  | VSigned z => is_i64 z
  | VUnsigned z => is_u64 z
  | VBoolean _ => true
  | VState s => wf s
  | VText t => wf t
  | VArtifact a => wf a
  | VUnavailable u => wf u
  end.

(** ** Quality *)

Inductive QualityLevel : Set := QUnknown | QGood | QUncertain | QBad | QNotEvaluated.
#[export] Instance QualityLevel_eq_dec : EqDecision QualityLevel.
Proof. solve_decision. Defined.

Record QualityFlags := mkQualityFlags { flag_bits : Z }.
#[export] Instance QualityFlags_eq_dec : EqDecision QualityFlags.
Proof. solve_decision. Defined.

Definition STALE : Z := Z.shiftl 1 0.
Definition INVALID : Z := Z.shiftl 1 1.
Definition SUBSTITUTED : Z := Z.shiftl 1 2.
Definition OVERRIDDEN : Z := Z.shiftl 1 3.
Definition OUT_OF_SERVICE : Z := Z.shiftl 1 4.
Definition COMMUNICATION_FAILURE : Z := Z.shiftl 1 5.

Definition flags_none : QualityFlags := mkQualityFlags 0.

(** [self.0 |= flag] or [self.0 &= !flag], where [!] is the 8-bit complement. *)
Definition flags_set (flags : QualityFlags) (flag : Z) (enabled : bool) : QualityFlags :=
  mkQualityFlags (if enabled then Z.lor (flag_bits flags) flag
                  else Z.land (flag_bits flags) (Z.lxor flag u8_max)).
Definition flags_get (flags : QualityFlags) (flag : Z) : bool :=
  bool_decide (Z.land (flag_bits flags) flag ≠ 0).

Definition with_stale (f : QualityFlags) (enabled : bool) := flags_set f STALE enabled.
Definition with_invalid (f : QualityFlags) (enabled : bool) := flags_set f INVALID enabled.
Definition with_substituted (f : QualityFlags) (enabled : bool) := flags_set f SUBSTITUTED enabled.
Definition with_overridden (f : QualityFlags) (enabled : bool) := flags_set f OVERRIDDEN enabled.
Definition with_out_of_service (f : QualityFlags) (enabled : bool) := flags_set f OUT_OF_SERVICE enabled.
Definition with_communication_failure (f : QualityFlags) (enabled : bool) :=
  flags_set f COMMUNICATION_FAILURE enabled.
Definition stale (f : QualityFlags) : bool := flags_get f STALE.
Definition invalid (f : QualityFlags) : bool := flags_get f INVALID.
Definition substituted (f : QualityFlags) : bool := flags_get f SUBSTITUTED.
Definition overridden (f : QualityFlags) : bool := flags_get f OVERRIDDEN.
Definition out_of_service (f : QualityFlags) : bool := flags_get f OUT_OF_SERVICE.
Definition communication_failure (f : QualityFlags) : bool := flags_get f COMMUNICATION_FAILURE.

(** Only the six setters reach the private byte. *)
#[export] Instance wf_flags : Wf QualityFlags := λ f, bool_decide (0 ≤ flag_bits f < 64).

Record Quality := mkQuality { quality_level : QualityLevel; quality_flags : QualityFlags }.
#[export] Instance Quality_eq_dec : EqDecision Quality.
Proof. solve_decision. Defined.
#[export] Instance wf_quality : Wf Quality := λ q, wf (quality_flags q).

Definition MAX_NATIVE_STATUS_TOKENS : Z := 16.
Record NativeStatus := mkNativeStatus { status_tokens : list NativeStatusToken }.
#[export] Instance NativeStatus_eq_dec : EqDecision NativeStatus.
Proof. solve_decision. Defined.
Definition native_status_new (tokens : list NativeStatusToken) : result ModelError NativeStatus :=
  if decide (len tokens > MAX_NATIVE_STATUS_TOKENS) then Err TooManyNativeStatusTokens
  else Ok (mkNativeStatus (compact_vec tokens)).
Definition native_status_absent : NativeStatus := mkNativeStatus [].
Definition is_absent (s : NativeStatus) : bool := bool_decide (status_tokens s = []).
#[export] Instance wf_native_status : Wf NativeStatus := λ s,
  wf (status_tokens s) && bool_decide (len (status_tokens s) ≤ MAX_NATIVE_STATUS_TOKENS).

(** ** Series metadata and observations *)

Inductive CollectionMode : Set := Sampled | ChangeOnly | Cumulative | Interval | Event.
#[export] Instance CollectionMode_eq_dec : EqDecision CollectionMode.
Proof. solve_decision. Defined.

Record SeriesMetadata := mkSeriesMetadata {
  meta_series_id : SeriesId;
  meta_producer_id : ProducerId;
  meta_mode : CollectionMode }.
#[export] Instance SeriesMetadata_eq_dec : EqDecision SeriesMetadata.
Proof. solve_decision. Defined.
#[export] Instance wf_metadata : Wf SeriesMetadata := λ m, wf (meta_series_id m) && wf (meta_producer_id m).

Record Observation := mkObservation {
  observation_id : ObservationId;
  obs_value : ExactValue;
  obs_times : ObservationTimes;
  obs_quality : Quality;
  obs_native_status : NativeStatus;
  obs_position : option ProducerPosition;
  obs_interval : option TimeInterval }.
#[export] Instance Observation_eq_dec : EqDecision Observation.
Proof. solve_decision. Defined.
#[export] Instance wf_observation : Wf Observation := λ o,
  wf (observation_id o) && wf (obs_value o) && wf (obs_times o) && wf (obs_quality o) &&
  wf (obs_native_status o) && wf (obs_position o) && wf (obs_interval o).

Record RawObservationOrderKey := mkOrderKey {
  key_effective : Timestamp;
  key_receive : Timestamp;
  key_observation_id : ObservationId }.
#[export] Instance RawObservationOrderKey_eq_dec : EqDecision RawObservationOrderKey.
Proof. solve_decision. Defined.
Definition raw_order_key (o : Observation) : RawObservationOrderKey :=
  mkOrderKey (times_effective (obs_times o)) (times_receive (obs_times o)) (observation_id o).

(** The derived [Ord] of the raw order key: effective time, receive time, then
    observation identity. *)
Definition key_lt (a b : RawObservationOrderKey) : Prop :=
  ts_lt (key_effective a) (key_effective b) ∨
  (key_effective a = key_effective b ∧
   (ts_lt (key_receive a) (key_receive b) ∨
    (key_receive a = key_receive b ∧ id_lt (key_observation_id a) (key_observation_id b)))).
#[export] Instance key_lt_dec : RelDecision key_lt.
Proof. intros a b. unfold key_lt. apply _. Defined.

(** A concrete observation for the witnesses: a Boolean with bad-free defaults. *)
Definition sample_observation (n : Z) (position : option ProducerPosition) (interval : option TimeInterval)
  : Observation :=
  mkObservation (sample_id n) (VBoolean true)
    (mkObservationTimes None (mkTimestamp 10 0) (mkTimestamp 10 n))
    (mkQuality QGood flags_none) native_status_absent position interval.
Definition sample_position (epoch sequence : Z) : ProducerPosition :=
  mkPosition (mkNumber epoch) (mkNumber sequence).

(** ** Lemmas: timestamps *)

Lemma wf_timestamp_spec t :
  wf t ↔ i64_min ≤ unix_seconds t ≤ i64_max ∧ 0 ≤ nanosecond t < NANOS_PER_SECOND.
Proof. unfold wf, wf_timestamp. by rewrite andb_True, in_range_spec, bool_decide_spec. Qed.

Lemma timestamp_new_wf t : wf t → timestamp_new (unix_seconds t) (nanosecond t) = Ok t.
Proof.
  rewrite wf_timestamp_spec. intros [_ H]. unfold timestamp_new.
  rewrite decide_False by lia. by destruct t.
Qed.

Lemma timestamp_new_Ok s n t :
  is_i64 s → 0 ≤ n → timestamp_new s n = Ok t → wf t ∧ unix_seconds t = s ∧ nanosecond t = n.
Proof.
  rewrite in_range_spec, wf_timestamp_spec. unfold timestamp_new. intros ?? H.
  case_decide; simplify_eq/=. split_and!; lia.
Qed.

Lemma ts_lt_instant a b : wf a → wf b → ts_lt a b ↔ instant a < instant b.
Proof.
  rewrite !wf_timestamp_spec. unfold ts_lt, instant, NANOS_PER_SECOND. intros [_ Ha] [_ Hb]. lia.
Qed.

Lemma instant_inj a b : wf a → wf b → instant a = instant b → a = b.
Proof.
  rewrite !wf_timestamp_spec. unfold instant, NANOS_PER_SECOND. intros [_ Ha] [_ Hb] E.
  destruct a, b; cbn in *. f_equal; lia.
Qed.

#[export] Instance ts_lt_strict : StrictOrder ts_lt.
Proof. split; [intros a|intros a b c]; unfold ts_lt, complement; lia. Qed.

Lemma ts_lt_total a b : ts_lt a b ∨ a = b ∨ ts_lt b a.
Proof.
  destruct a as [s n], b as [s' n']. unfold ts_lt. cbn.
  destruct (Z.lt_trichotomy s s') as [?|[->|?]]; [tauto| |tauto].
  destruct (Z.lt_trichotomy n n') as [?|[->|?]]; tauto.
Qed.

#[export] Instance key_lt_strict : StrictOrder key_lt.
Proof.
  split.
  - intros a [H|[_ [H|[_ H]]]]; by apply (irreflexivity _) in H.
  - intros [e r i] [e' r' i'] [e'' r'' i'']. unfold key_lt. cbn.
    intros [H|[-> [H|[-> H]]]] [K|[-> [K|[-> K]]]];
      solve [ left; done | left; by etrans
            | right; split; [done|]; left; done | right; split; [done|]; left; by etrans
            | right; split; [done|]; right; split; [done|]; by etrans ].
Qed.

Lemma key_lt_total a b : key_lt a b ∨ a = b ∨ key_lt b a.
Proof.
  destruct a as [e r i], b as [e' r' i']. unfold key_lt. cbn.
  destruct (ts_lt_total e e') as [?|[->|?]]; [tauto| |tauto].
  destruct (ts_lt_total r r') as [?|[->|?]]; [tauto| |tauto].
  destruct (id_lt_total i i') as [?|[->|?]]; tauto.
Qed.

Lemma from_unix_milliseconds_spec ms :
  nanosecond (from_unix_milliseconds ms) = ms mod 1000 * 1000000 ∧
  instant (from_unix_milliseconds ms) = ms * 1000000.
Proof.
  pose proof (Z.mod_pos_bound ms 1000 eq_refl). pose proof (Z.div_mod ms 1000).
  unfold from_unix_milliseconds, u32_try_from_or_default, instant, NANOS_PER_SECOND. cbn [nanosecond unix_seconds].
  assert (is_u32 (ms mod 1000)) as ->%Is_true_true by (rewrite in_range_spec; unfold u32_max; lia).
  split; lia.
Qed.

Lemma from_unix_milliseconds_wf ms : is_i64 ms → wf (from_unix_milliseconds ms).
Proof.
  rewrite in_range_spec, wf_timestamp_spec. intros H.
  rewrite (proj1 (from_unix_milliseconds_spec ms)). unfold from_unix_milliseconds. cbn [unix_seconds].
  pose proof (Z.mod_pos_bound ms 1000 eq_refl). unfold i64_min, i64_max, NANOS_PER_SECOND in *.
  split; [|lia]. split; [apply Z.div_le_lower_bound | apply Z.div_le_upper_bound]; lia.
Qed.

Lemma to_unix_milliseconds_spec t :
  wf t →
  to_unix_milliseconds t =
    if decide (instant t mod 1000000 ≠ 0) then Err InexactUnixMilliseconds
    else if is_i64 (instant t / 1000000) then Ok (instant t / 1000000)
    else Err UnixMillisecondsOverflow.
Proof.
  rewrite wf_timestamp_spec. intros [_ H]. unfold to_unix_milliseconds, instant, NANOS_PER_SECOND in *.
  replace (unix_seconds t * 1000000000 + nanosecond t)
    with (nanosecond t + unix_seconds t * 1000 * 1000000) by lia.
  rewrite Z.mod_add, Z.div_add by lia.
  by rewrite (Z.add_comm (nanosecond t / 1000000)).
Qed.

(** Unix-millisecond conversion is exact in both directions: a normalized
    timestamp converts to [ms] exactly when it is [from_unix_milliseconds ms]
    of an [i64], so negative milliseconds and the [i64] extremes lose nothing
    and no other timestamp converts. *)
Theorem unix_milliseconds_exact t ms (Ht : wf t) :
  to_unix_milliseconds t = Ok ms ↔ is_i64 ms ∧ t = from_unix_milliseconds ms.
Proof.
  rewrite to_unix_milliseconds_spec by done.
  pose proof (from_unix_milliseconds_spec ms) as [_ Hi]. split.
  - case_decide as Hd; [done|]. destruct (is_i64 _) eqn:E; [|done]. intros [= <-].
    split; [by apply Is_true_true|]. apply instant_inj; [done| |].
    + by apply from_unix_milliseconds_wf, Is_true_true.
    + rewrite (proj2 (from_unix_milliseconds_spec _)). pose proof (Z.div_mod (instant t) 1000000). lia.
  - intros [Hms ->]. rewrite Hi, Z.mod_mul, decide_False, Z.div_mul by lia.
    by apply Is_true_true in Hms as ->.
Qed.

Lemma unix_milliseconds_exact_witness :
  wf (mkTimestamp (-1) 999000000) ∧
  (to_unix_milliseconds (mkTimestamp (-1) 999000000) = Ok (-1) ↔
   is_i64 (-1) ∧ mkTimestamp (-1) 999000000 = from_unix_milliseconds (-1)).
Proof. split; [done|]. apply (unix_milliseconds_exact (mkTimestamp (-1) 999000000) (-1)). done. Defined.

Lemma time_interval_new_spec s e i :
  time_interval_new s e = Ok i ↔ i = mkTimeInterval s e ∧ ts_lt s e.
Proof. unfold time_interval_new. case_decide; naive_solver. Qed.

Lemma wf_interval_spec i :
  wf i ↔ wf (interval_start i) ∧ wf (interval_end i) ∧ ts_lt (interval_start i) (interval_end i).
Proof.
  unfold wf at 1, wf_interval, time_interval_new. rewrite !andb_True.
  case_decide; cbn; naive_solver.
Qed.

(** A constructible interval is non-empty and half-open in real time:
    construction succeeds exactly when the start instant precedes the end
    instant, and a timestamp is contained exactly when its instant lies in
    [[start, end)]. *)
Theorem interval_half_open s e t (Hs : wf s) (He : wf e) (Ht : wf t) :
  (is_ok (time_interval_new s e) ↔ instant s < instant e) ∧
  (interval_contains (mkTimeInterval s e) t ↔ instant s ≤ instant t < instant e).
Proof.
  unfold time_interval_new, interval_contains. cbn [interval_start interval_end].
  split.
  - case_decide as H; rewrite ts_lt_instant in H by done; cbn; lia.
  - rewrite andb_True, !bool_decide_spec, !ts_lt_instant by done. lia.
Qed.

Lemma interval_half_open_witness :
  let s := mkTimestamp (-1) 999999999 in let e := mkTimestamp 0 0 in
  (is_ok (time_interval_new s e) ↔ instant s < instant e) ∧
  (interval_contains (mkTimeInterval s e) s ↔ instant s ≤ instant s < instant e).
Proof. cbv zeta. apply interval_half_open; vm_compute; exact I. Defined.

(** ** Lemmas: canonical decimals *)

Definition dec_value (acc : Z) (l : list byte) : Z := foldl (λ a b, a * 10 + (Z_of_byte b - 48)) acc l.

Lemma dec_value_cons acc b l :
  dec_value acc (b :: l) = dec_value (acc * 10 + (Z_of_byte b - 48)) l.
Proof. done. Qed.

Lemma digits_cons b l : forallb is_ascii_digit (b :: l) ↔ 48 ≤ Z_of_byte b ≤ 57 ∧ forallb is_ascii_digit l.
Proof. cbn. unfold is_ascii_digit at 1. by rewrite andb_True, bool_decide_spec. Qed.

Lemma dec_value_mono acc l :
  0 ≤ acc → forallb is_ascii_digit l → acc ≤ dec_value acc l ∧ (l ≠ [] → acc * 10 ≤ dec_value acc l).
Proof.
  revert acc. induction l as [|b l IH]; intros acc Ha Hl; [by cbn|].
  apply digits_cons in Hl as [Hb Hl]. rewrite dec_value_cons.
  destruct (IH (acc * 10 + (Z_of_byte b - 48))) as [H1 _]; [lia|done|]. split; [lia|]. intros _. lia.
Qed.

Lemma u128_digits_spec acc l :
  0 ≤ acc ≤ u128_max → forallb is_ascii_digit l →
  u128_digits acc l =
    if decide (dec_value acc l ≤ u128_max) then Ok (dec_value acc l) else Err InvalidCanonicalDecimal.
Proof.
  revert acc. induction l as [|b l IH]; intros acc Ha Hl.
  { cbn. by rewrite decide_True by lia. }
  apply digits_cons in Hl as [Hb Hl]. rewrite dec_value_cons. cbn [u128_digits].
  pose proof (dec_value_mono (acc * 10 + (Z_of_byte b - 48)) l) as Hm.
  unfold checked_add. case_decide; [case_decide|].
  - apply IH; [lia|done].
  - rewrite decide_False by (destruct Hm; [lia|done|lia]). done.
  - rewrite decide_False by (destruct Hm; [lia|done|lia]). done.
Qed.

(** A canonical digit string: non-empty, all digits, no leading zero unless it
    is a single digit. *)
Definition canonical_digits (l : list byte) : Prop :=
  l ≠ [] ∧ forallb is_ascii_digit l ∧ ¬ (len l > 1 ∧ at_ l 0 = 48).

Lemma dec_value_snoc l b : dec_value 0 (l ++ [b]) = dec_value 0 l * 10 + (Z_of_byte b - 48).
Proof. unfold dec_value. by rewrite foldl_snoc. Qed.

Lemma forallb_snoc {A} (p : A → bool) l x : forallb p (l ++ [x]) ↔ forallb p l ∧ p x.
Proof. rewrite forallb_app. cbn. by rewrite andb_true_r, andb_True. Qed.

Lemma at_app_l l k i : (i < length l)%nat → at_ (l ++ k) i = at_ l i.
Proof. intros H. unfold at_. by rewrite app_nth1. Qed.

Lemma canonical_snoc_inv l b :
  canonical_digits (l ++ [b]) →
  l = [] ∨ (canonical_digits l ∧ 1 ≤ dec_value 0 l ∧ at_ l 0 ≠ 48).
Proof.
  intros (_ & Hd & Hz). apply forallb_snoc in Hd as [Hd _].
  destruct l as [|c l]; [by left|right].
  rewrite at_app_l in Hz by (cbn; lia). rewrite len_app, len_cons in Hz.
  pose proof (len_nonneg l). change (len [b]) with 1 in Hz.
  assert (at_ (c :: l) 0 ≠ 48) as Hc by lia. split; [|split; [|done]].
  - split; [done|]. split; [done|]. by intros [_ ?].
  - apply digits_cons in Hd as [Hcd Hl]. unfold at_ in Hc. cbn in Hc. rewrite dec_value_cons.
    pose proof (dec_value_mono (0 * 10 + (Z_of_byte c - 48)) l) as [Hm _]; [lia|done|]. lia.
Qed.

Lemma display_decimal_canonical fuel l :
  canonical_digits l → (length l ≤ fuel)%nat → display_decimal fuel (dec_value 0 l) = l.
Proof.
  revert fuel. induction l as [|b l IH] using rev_ind; intros fuel Hc Hf; [by destruct Hc|].
  rewrite length_app in Hf. cbn [length] in Hf. destruct fuel as [|fuel]; [lia|].
  pose proof (proj1 (proj2 Hc)) as [_ Hb%bool_decide_spec]%forallb_snoc.
  assert (dec_digit (Z_of_byte b - 48) = b) as Hdb.
  { unfold dec_digit. apply (inj Z_of_byte). rewrite Z_of_byte_of_Z, Z.mod_small; lia. }
  rewrite dec_value_snoc. cbn [display_decimal].
  destruct (canonical_snoc_inv _ _ Hc) as [->|(Hl & H1 & _)].
  - cbn [dec_value foldl app]. rewrite decide_True by lia. by rewrite Z.add_0_l, Hdb.
  - rewrite decide_False by lia.
    rewrite Z.div_add_l by lia. rewrite Z.div_small, Z.add_0_r, IH by (done || lia).
    do 2 f_equal. rewrite Z.add_comm, Z.mod_add by lia. rewrite Z.mod_small by lia. done.
Qed.

Lemma display_decimal_spec fuel v :
  0 ≤ v < 10 ^ Z.of_nat fuel → (fuel ≠ 0)%nat →
  canonical_digits (display_decimal fuel v) ∧ dec_value 0 (display_decimal fuel v) = v ∧
  (length (display_decimal fuel v) ≤ fuel)%nat ∧ (v ≠ 0 → at_ (display_decimal fuel v) 0 ≠ 48).
Proof.
  revert v. induction fuel as [|fuel IH]; intros v Hv Hf; [done|]. cbn [display_decimal].
  assert (∀ d, 0 ≤ d < 10 → Z_of_byte (dec_digit d) = 48 + d) as Hd.
  { intros d ?. unfold dec_digit. rewrite Z_of_byte_of_Z, Z.mod_small; lia. }
  case_decide as Hc.
  - unfold canonical_digits, at_, is_ascii_digit. cbn. rewrite Hd by lia.
    rewrite bool_decide_true by lia. split_and!; try done; try lia. change (len [dec_digit v]) with 1. lia.
  - rewrite Nat2Z.inj_succ, Z.pow_succ_r in Hv by lia.
    destruct (decide (fuel = 0)%nat) as [->|Hf']; [cbn in Hv; lia|].
    destruct (IH (v / 10)) as ((Hne & Hdig & Hz) & Hval & Hlen & Hlead); [|done|].
    { split; [apply Z.div_pos; lia | apply Z.div_lt_upper_bound; lia]. }
    pose proof (Z.mod_pos_bound v 10 eq_refl).
    assert (0 < length (display_decimal fuel (v / 10)))%nat.
    { destruct (display_decimal fuel (v / 10)); [done|cbn; lia]. }
    assert (v / 10 ≠ 0). { pose proof (Z.div_mod v 10). lia. }
    unfold canonical_digits. rewrite at_app_l by done. rewrite dec_value_snoc, Hval, Hd, length_app by lia.
    split_and!; [by destruct (display_decimal fuel (v / 10))| | | | |].
    + apply forallb_snoc. split; [done|]. unfold is_ascii_digit. rewrite Hd by lia.
      apply bool_decide_spec. lia.
    + intros [_ ?]. by apply Hlead.
    + pose proof (Z.div_mod v 10). lia.
    + cbn. lia.
    + intros _. by apply Hlead.
Qed.

Lemma u128_max_digits : u128_max < 10 ^ Z.of_nat 39.
Proof. done. Qed.

Lemma parse_canonical_u128_Ok text v :
  parse_canonical_u128 text = Ok v ↔
  canonical_digits text ∧ (length text ≤ 39)%nat ∧ v = dec_value 0 text ∧ v ≤ u128_max.
Proof.
  unfold parse_canonical_u128, canonical_digits, len.
  case_decide as Hc.
  - split; [done|]. intros ((?&?&?)&?&_). exfalso.
    destruct Hc as [?|[?|[?|?]]]; [done|lia|tauto|done].
  - assert (forallb is_ascii_digit text) by (apply dec_stable; tauto).
    rewrite u128_digits_spec by (done || lia). split.
    + case_decide; [|done]. intros [= <-]. split_and!; try done; try tauto; lia.
    + intros (_&_&->&?). by rewrite decide_True.
Qed.

(** Producer epochs, sequences and content versions have one text each:
    [parse_canonical_u128] accepts exactly the decimal display of a [u128], so
    signs, leading zeros and every value from 2^128 up are refused. *)
Theorem u128_text_canonical text v :
  parse_canonical_u128 text = Ok v ↔ 0 ≤ v ≤ u128_max ∧ text = display_u128 v.
Proof.
  rewrite parse_canonical_u128_Ok. unfold display_u128. split.
  - intros (Hc & Hl & -> & Hm). split.
    + destruct Hc as (?&?&?). split; [|done]. apply (dec_value_mono 0 text); done.
    + symmetry. by apply display_decimal_canonical.
  - intros [Hv ->]. destruct (display_decimal_spec 39 v) as (?&?&?&?); [|done|].
    + split; [lia|]. eapply Z.le_lt_trans; [apply Hv|apply u128_max_digits].
    + split; [done|]. split; [done|]. split; [done|apply Hv].
Qed.

(** ** Lemmas: quality flags *)

Definition all_flags : list Z :=
  [STALE; INVALID; SUBSTITUTED; OVERRIDDEN; OUT_OF_SERVICE; COMMUNICATION_FAILURE].

(** Every well-formed flag byte. *)
Lemma wf_flags_cases (P : QualityFlags → Prop) :
  Forall (λ n, P (mkQualityFlags (Z.of_nat n))) (seq 0 64) → ∀ f, wf f → P f.
Proof.
  rewrite Forall_forall. intros HP [b] Hb%bool_decide_spec. cbn in Hb.
  rewrite <-(Z2Nat.id b) by lia. apply HP, elem_of_seq. lia.
Qed.

Definition flags_independent_at (f : QualityFlags) : bool :=
  forallb (λ i, forallb (λ j, forallb (λ e,
    Bool.eqb (flags_get (flags_set f i e) j) (if decide (i = j) then e else flags_get f j) &&
    wf (flags_set f i e)) [true; false]) all_flags) all_flags.

Lemma flags_independent_all f : wf f → flags_independent_at f.
Proof.
  revert f. apply (wf_flags_cases (λ f, Is_true (flags_independent_at f))). cbn [seq]. repeat (constructor; [vm_compute; exact I|]). constructor.
Qed.

(** The six quality flags are independent: setting one flag changes what its
    own accessor reports and no other, and never leaves the six-bit range. *)
Theorem quality_flags_independent f i j e (Hf : wf f) (Hi : i ∈ all_flags) (Hj : j ∈ all_flags) :
  flags_get (flags_set f i e) j = (if decide (i = j) then e else flags_get f j) ∧ wf (flags_set f i e).
Proof.
  pose proof (flags_independent_all f Hf) as H. unfold flags_independent_at in H.
  apply forallb_True in H. rewrite Forall_forall in H. specialize (H i Hi).
  apply forallb_True in H. rewrite Forall_forall in H. specialize (H j Hj).
  apply forallb_True in H. rewrite Forall_forall in H. specialize (H e).
  rewrite andb_True in H. destruct H as [H ?]; [destruct e; set_solver|].
  split; [|done]. by apply Bool.eqb_prop, Is_true_true.
Qed.

Lemma quality_flags_independent_witness :
  flags_get (flags_set (mkQualityFlags 9) STALE false) OVERRIDDEN =
    (if decide (STALE = OVERRIDDEN) then false else flags_get (mkQualityFlags 9) OVERRIDDEN) ∧
  wf (flags_set (mkQualityFlags 9) STALE false).
Proof.
  apply (quality_flags_independent (mkQualityFlags 9) STALE OVERRIDDEN false); [vm_compute; exact I| |].
  - unfold all_flags. set_solver.
  - unfold all_flags. set_solver.
Defined.
