(* ===== verification/Collection.v ===== *)
(** * Atomic bounded collection envelopes

    [och-core/src/collection.rs]: producer-sequence gaps, no-change evidence,
    and the validation that makes an envelope atomic. The single-pass scan of
    observations against gaps is proved equivalent to the declarative
    condition it optimises. *)

From S2P Require Import Prelude Bytes Identity Bounded Value.

Definition MAX_OBSERVATIONS : Z := 256.
Definition MAX_GAPS : Z := 64.

(** ** Gaps *)

Inductive GapReason : Set :=
| GapUnknown | ProducerRestart | BufferOverflow | GapCommunicationFailure | SourceDataLoss
| AdministrativeExclusion.
#[export] Instance GapReason_eq_dec : EqDecision GapReason.
Proof. solve_decision. Defined.

Record Gap := mkGap {
  gap_epoch : ProducerEpoch;
  gap_start : ProducerSequence;
  gap_end : ProducerSequence;
  gap_reason : GapReason }.
#[export] Instance Gap_eq_dec : EqDecision Gap.
Proof. solve_decision. Defined.

Definition gap_new (epoch : ProducerEpoch) (start end_ : ProducerSequence) (reason : GapReason)
  : result ModelError Gap :=
  if decide (¬ number_lt start end_) then Err EmptyGap else Ok (mkGap epoch start end_ reason).

Definition gap_contains (g : Gap) (epoch : ProducerEpoch) (sequence : ProducerSequence) : bool :=
  bool_decide (gap_epoch g = epoch) && bool_decide (¬ number_lt sequence (gap_start g)) &&
  bool_decide (number_lt sequence (gap_end g)).

#[export] Instance wf_gap : Wf Gap := λ g,
  wf (gap_epoch g) && wf (gap_start g) && wf (gap_end g) &&
  is_ok (gap_new (gap_epoch g) (gap_start g) (gap_end g) (gap_reason g)).

(** ** Envelopes *)

Record NoChange := mkNoChange { no_change_interval : TimeInterval }.
#[export] Instance NoChange_eq_dec : EqDecision NoChange.
Proof. solve_decision. Defined.

Inductive EvidenceKind : Set := KObserved | KNoChange.
#[export] Instance EvidenceKind_eq_dec : EqDecision EvidenceKind.
Proof. solve_decision. Defined.

Inductive Evidence :=
| Observed (observations : list Observation) (gaps : list Gap)
| NoChangeEvidence (no_change : NoChange).
#[export] Instance Evidence_eq_dec : EqDecision Evidence.
Proof. solve_decision. Defined.

Record CollectionEnvelope := mkEnvelope { env_series : SeriesMetadata; env_evidence : Evidence }.
#[export] Instance CollectionEnvelope_eq_dec : EqDecision CollectionEnvelope.
Proof. solve_decision. Defined.

Definition evidence_kind (e : CollectionEnvelope) : EvidenceKind :=
  match env_evidence e with Observed _ _ => KObserved | NoChangeEvidence _ => KNoChange end.
Definition observations (e : CollectionEnvelope) : list Observation :=
  match env_evidence e with Observed os _ => os | NoChangeEvidence _ => [] end.
Definition gaps (e : CollectionEnvelope) : list Gap :=
  match env_evidence e with Observed _ gs => gs | NoChangeEvidence _ => [] end.
Definition no_change_evidence (e : CollectionEnvelope) : option NoChange :=
  match env_evidence e with Observed _ _ => None | NoChangeEvidence n => Some n end.

(** ** Validation of observed evidence *)

(** The first loop: interval metadata and duplicate identities, per observation. *)
Fixpoint check_observations (mode : CollectionMode) (identities : gset ObservationId)
    (os : list Observation) : result ModelError () :=
  match os with
  | [] => Ok tt
  | o :: rest =>
    match mode, obs_interval o with
    | Interval, None => Err MissingObservationInterval
    | Interval, Some _ | _, None =>
      if decide (observation_id o ∈ identities) then Err DuplicateObservationId
      else check_observations mode ({[observation_id o]} ∪ identities) rest
    | _, Some _ => Err UnexpectedObservationInterval
    end
  end.

Definition has_position (o : Observation) : bool := bool_decide (is_Some (obs_position o)).

(** [observations.windows(2)]: strictly increasing positions. *)
Fixpoint check_positions (os : list Observation) : result ModelError () :=
  match os with
  | previous :: ((current :: _) as rest) =>
    match obs_position previous, obs_position current with
    | Some p, Some c =>
      if decide (¬ pos_lt p c) then Err MisorderedProducerPositions else check_positions rest
    | _, _ => Err MixedProducerPositions
    end
  | _ => Ok tt
  end.

(** [gaps.windows(2)]: ordered, non-overlapping gaps. *)
Fixpoint check_gaps (gs : list Gap) : result ModelError () :=
  match gs with
  | previous :: ((current :: _) as rest) =>
    if decide (number_lt (gap_epoch current) (gap_epoch previous) ∨
               (gap_epoch current = gap_epoch previous ∧ number_lt (gap_start current) (gap_start previous)))
    then Err MisorderedGaps
    else if decide (gap_epoch current = gap_epoch previous ∧ number_lt (gap_start current) (gap_end previous))
    then Err OverlappingGaps
    else check_gaps rest
  | _ => Ok tt
  end.

(** A gap that ends at or before a position, in an earlier or the same epoch. *)
Definition gap_passed (g : Gap) (p : ProducerPosition) : Prop :=
  number_lt (gap_epoch g) (pos_epoch p) ∨
  (gap_epoch g = pos_epoch p ∧ ¬ number_lt (pos_sequence p) (gap_end g)).
#[export] Instance gap_passed_dec : RelDecision gap_passed.
Proof. intros g p. unfold gap_passed. apply _. Defined.

(** [while let Some(gap) = gaps.get(gap_index)]: [suffix] is [gaps[gap_index..]]. *)
Fixpoint advance_gap (suffix : list Gap) (gap_index : nat) (p : ProducerPosition) : nat :=
  match suffix with
  | [] => gap_index
  | g :: suffix => if decide (gap_passed g p) then advance_gap suffix (S gap_index) p else gap_index
  end.

Fixpoint scan_outside_gaps (gs : list Gap) (gap_index : nat) (os : list Observation)
  : result ModelError () :=
  match os with
  | [] => Ok tt
  | o :: rest =>
    match obs_position o with
    | None => Err MixedProducerPositions
    | Some p =>
      let gap_index := advance_gap (drop gap_index gs) gap_index p in
      match gs !! gap_index with
      | Some g =>
        if gap_contains g (pos_epoch p) (pos_sequence p) then Err ObservationInsideGap
        else scan_outside_gaps gs gap_index rest
      | None => scan_outside_gaps gs gap_index rest
      end
    end
  end.

Definition validate_observations_outside_gaps (os : list Observation) (gs : list Gap)
  : result ModelError () := scan_outside_gaps gs 0 os.

Definition validate_observed (mode : CollectionMode) (os : list Observation) (gs : list Gap)
  : result ModelError () :=
  if decide (len os > MAX_OBSERVATIONS) then Err TooManyObservations
  else if decide (len gs > MAX_GAPS) then Err TooManyGaps
  else if decide (os = [] ∧ gs = []) then Err EmptyObservedEvidence
  else
    let! _ := check_observations mode ∅ os in
    let first_position_presence := has_position <$> head os in
    if match first_position_presence with
       | Some presence => existsb (λ o, negb (Bool.eqb (has_position o) presence)) os
       | None => false
       end
    then Err MixedProducerPositions
    else
      let! _ := if decide (first_position_presence = Some true) then check_positions os else Ok tt in
      let! _ := check_gaps gs in
      if decide (first_position_presence = Some true)
      then validate_observations_outside_gaps os gs else Ok tt.

(** [CollectionEnvelope::observed] and [CollectionEnvelope::no_change]. *)
Definition envelope_observed (series : SeriesMetadata) (os : list Observation) (gs : list Gap)
  : result ModelError CollectionEnvelope :=
  let! _ := validate_observed (meta_mode series) os gs in
  Ok (mkEnvelope series (Observed (compact_vec os) (compact_vec gs))).

Definition envelope_no_change (series : SeriesMetadata) (no_change : NoChange)
  : result ModelError CollectionEnvelope :=
  if decide (meta_mode series ≠ ChangeOnly) then Err InvalidNoChangeMode
  else Ok (mkEnvelope series (NoChangeEvidence no_change)).

#[export] Instance wf_envelope : Wf CollectionEnvelope := λ e,
  wf (env_series e) &&
  match env_evidence e with
  | Observed os gs =>
    wf os && wf gs && is_ok (validate_observed (meta_mode (env_series e)) os gs)
  | NoChangeEvidence n =>
    wf (no_change_interval n) && bool_decide (meta_mode (env_series e) = ChangeOnly)
  end.

(** ** The declarative contract of observed evidence *)

Definition gap_before (a b : Gap) : Prop :=
  number_lt (gap_epoch a) (gap_epoch b) ∨
  (gap_epoch a = gap_epoch b ∧ ¬ number_lt (gap_start b) (gap_end a)).

Definition intervals_match (mode : CollectionMode) (os : list Observation) : Prop :=
  Forall (λ o, is_Some (obs_interval o) ↔ mode = Interval) os.

(** Either no observation is positioned, or all are, in strictly increasing order. *)
Definition positions_ordered (os : list Observation) : Prop :=
  Forall (λ o, obs_position o = None) os ∨
  ∃ ps, obs_position <$> os = Some <$> ps ∧ StronglySorted pos_lt ps.

Definition outside_gaps (os : list Observation) (gs : list Gap) : Prop :=
  ∀ o g p, o ∈ os → g ∈ gs → obs_position o = Some p →
    ¬ gap_contains g (pos_epoch p) (pos_sequence p).

Record observed_contract (mode : CollectionMode) (os : list Observation) (gs : list Gap) : Prop := {
  contract_bounds : len os ≤ MAX_OBSERVATIONS ∧ len gs ≤ MAX_GAPS;
  contract_nonempty : os ≠ [] ∨ gs ≠ [];
  contract_intervals : intervals_match mode os;
  contract_unique : NoDup (observation_id <$> os);
  contract_positions : positions_ordered os;
  contract_gaps : StronglySorted gap_before gs;
  contract_outside : outside_gaps os gs }.

(** ** Lemmas *)

Lemma gap_new_Ok e s n r g : gap_new e s n r = Ok g ↔ g = mkGap e s n r ∧ number_lt s n.
Proof. unfold gap_new. case_decide; naive_solver. Qed.

Lemma wf_gap_spec g :
  wf g ↔ wf (gap_epoch g) ∧ wf (gap_start g) ∧ wf (gap_end g) ∧ number_lt (gap_start g) (gap_end g).
Proof.
  unfold wf at 1, wf_gap, gap_new. rewrite !andb_True. case_decide; cbn; naive_solver.
Qed.

#[export] Instance pos_lt_trans : Transitive pos_lt.
Proof.
  intros [[e] [s]] [[e'] [s']] [[e''] [s'']]. unfold pos_lt, number_lt. cbn.
  intros [?|[[= ->] ?]] [?|[[= ->] ?]]; [left; lia..|right; split; [done|lia]].
Qed.

Lemma gap_before_trans a b c :
  number_lt (gap_start b) (gap_end b) → gap_before a b → gap_before b c → gap_before a c.
Proof.
  unfold gap_before, number_lt. intros Hb [?|[-> ?]] [?|[E ?]].
  - left; lia.
  - left; by rewrite <-E.
  - by left.
  - right. split; [done|lia].
Qed.

Lemma check_observations_spec mode ids os :
  check_observations mode ids os = Ok tt ↔
  intervals_match mode os ∧ NoDup (observation_id <$> os) ∧
  ∀ o, o ∈ os → observation_id o ∉ ids.
Proof.
  revert ids. induction os as [|o os IH]; intros ids; cbn [check_observations fmap list_fmap].
  { split; [|done]. intros _. split_and!; [constructor|constructor|set_solver]. }
  unfold intervals_match. rewrite Forall_cons, NoDup_cons. fold (intervals_match mode os).
  assert (∀ r : result ModelError (),
    match mode, obs_interval o with
    | Interval, None => Err MissingObservationInterval
    | Interval, Some _ | _, None => r
    | _, Some _ => Err UnexpectedObservationInterval
    end = Ok tt ↔ (is_Some (obs_interval o) ↔ mode = Interval) ∧ r = Ok tt) as ->.
  { intros r. rewrite is_Some_alt. destruct mode, (obs_interval o); naive_solver. }
  case_decide as Hin.
  - split; [naive_solver|]. intros (_ & _ & Hn). destruct (Hn o); [left|done].
  - rewrite IH. split.
    + intros (? & ? & ? & Hn). split_and!; try done.
      * rewrite list_elem_of_fmap. intros (o' & E & Ho'). specialize (Hn o' Ho'). set_solver.
      * intros o' [->|Ho']%elem_of_cons; [done|]. specialize (Hn o' Ho'). set_solver.
    + intros ([? ?] & [Hn ?] & Hids). split_and!; try done. intros o' Ho'.
      rewrite list_elem_of_fmap in Hn. specialize (Hids o' ltac:(set_solver)).
      assert (observation_id o ≠ observation_id o') by naive_solver. set_solver.
Qed.

Lemma positions_mixed_spec os :
  (match has_position <$> head os with
   | Some presence => existsb (λ o, negb (Bool.eqb (has_position o) presence)) os
   | None => false
   end = false) ↔
  Forall (λ o, obs_position o = None) os ∨ ∃ ps, obs_position <$> os = Some <$> ps.
Proof.
  destruct os as [|o os]; [split; [intros _; left; constructor|done]|].
  change (has_position <$> head (o :: os)) with (Some (has_position o)). cbv iota beta.
  rewrite <-not_true_iff_false, existsb_exists. split.
  - intros Hn. assert (∀ o', o' ∈ o :: os → has_position o' = has_position o) as Hall.
    { intros o' Ho'%list_elem_of_In. destruct (Bool.eqb (has_position o') (has_position o)) eqn:E.
      - by apply Bool.eqb_prop.
      - exfalso. apply Hn. exists o'. rewrite E. by split. }
    unfold has_position in Hall. destruct (obs_position o) as [p|] eqn:Ep.
    + right. clear Hn Ep. induction (o :: os) as [|o' l IH]; [by exists []|].
      destruct IH as [ps Hps]; [intros; apply Hall; by right|].
      specialize (Hall o' ltac:(left)). rewrite (bool_decide_true (is_Some (Some p))) in Hall by done.
      apply bool_decide_eq_true in Hall as [p' Hp']. exists (p' :: ps). cbn. by rewrite Hp', Hps.
    + left. apply Forall_forall. intros o' Ho'. specialize (Hall o' Ho').
      rewrite (bool_decide_false (is_Some None)) in Hall by (by intros [? ?]).
      apply bool_decide_eq_false, eq_None_not_Some in Hall. done.
  - intros Hs (o' & Ho'%list_elem_of_In & Hne). unfold has_position in Hne.
    assert (bool_decide (is_Some (obs_position o')) = bool_decide (is_Some (obs_position o))) as E;
      [|by rewrite E, Bool.eqb_reflx in Hne].
    destruct Hs as [Hs|[ps Hs]].
    + rewrite Forall_forall in Hs. by rewrite (Hs o' Ho'), (Hs o ltac:(left)).
    + assert (∀ x, x ∈ o :: os → is_Some (obs_position x)) as Hsome.
      { intros x Hx. assert (obs_position x ∈ obs_position <$> o :: os) as H by (by apply list_elem_of_fmap_2).
        rewrite Hs in H. apply list_elem_of_fmap in H as (p & -> & _). done. }
      rewrite !bool_decide_true; [done|apply Hsome; left|by apply Hsome].
Qed.

Lemma check_positions_cons o o' os p p' :
  obs_position o = Some p → obs_position o' = Some p' →
  check_positions (o :: o' :: os) =
    if decide (¬ pos_lt p p') then Err MisorderedProducerPositions else check_positions (o' :: os).
Proof. cbn. by intros -> ->. Qed.

Lemma check_positions_spec os ps :
  obs_position <$> os = Some <$> ps → check_positions os = Ok tt ↔ StronglySorted pos_lt ps.
Proof.
  intros H. assert (check_positions os = Ok tt ↔ Sorted pos_lt ps) as ->.
  2:{ split; [apply Sorted_StronglySorted, pos_lt_trans | apply StronglySorted_Sorted]. }
  revert os H. induction ps as [|p ps IH]; intros [|o os] H; try discriminate H.
  { split; [constructor|done]. }
  destruct os as [|o' os], ps as [|p' ps]; try discriminate H.
  { split; [repeat constructor|done]. }
  injection H as H1 H2 H3. rewrite (check_positions_cons _ _ _ _ _ H1 H2).
  case_decide as Hlt.
  - split; [done|]. intros Hs. apply Sorted_inv in Hs as [_ Hs]. by inversion Hs.
  - rewrite (IH (o' :: os)) by (rewrite !fmap_cons, H2; f_equal; exact H3). split.
    + intros. constructor; [done|]. by constructor.
    + intros Hs. by apply Sorted_inv in Hs as [? _].
Qed.

(** One window of two gaps passes exactly when the first precedes the second. *)
Lemma gap_window_spec a b :
  number_lt (gap_start a) (gap_end a) →
  ¬ (number_lt (gap_epoch b) (gap_epoch a) ∨
     (gap_epoch b = gap_epoch a ∧ number_lt (gap_start b) (gap_start a))) ∧
  ¬ (gap_epoch b = gap_epoch a ∧ number_lt (gap_start b) (gap_end a)) ↔ gap_before a b.
Proof.
  unfold gap_before, number_lt. destruct a as [[x] [s] [e] ?], b as [[y] [s'] [e'] ?]. cbn.
  intros Hse. split.
  - intros [H1 H2]. destruct (Z.lt_trichotomy x y) as [?|[->|?]]; [by left| |tauto].
    right. split; [done|]. tauto.
  - intros Hb; split; intros Hn; destruct_or?; destruct_and?; simplify_eq; lia.
Qed.

Lemma check_gaps_cons a b gs :
  number_lt (gap_start a) (gap_end a) →
  check_gaps (a :: b :: gs) = Ok tt ↔ gap_before a b ∧ check_gaps (b :: gs) = Ok tt.
Proof.
  intros Ha. rewrite <-gap_window_spec by done.
  change (check_gaps (a :: b :: gs)) with
    (if decide (number_lt (gap_epoch b) (gap_epoch a) ∨
                (gap_epoch b = gap_epoch a ∧ number_lt (gap_start b) (gap_start a)))
     then Err MisorderedGaps
     else if decide (gap_epoch b = gap_epoch a ∧ number_lt (gap_start b) (gap_end a))
     then Err OverlappingGaps else check_gaps (b :: gs)).
  repeat case_decide; naive_solver.
Qed.

Lemma check_gaps_spec gs : wf gs → check_gaps gs = Ok tt ↔ StronglySorted gap_before gs.
Proof.
  induction gs as [|a [|b gs] IH]; intros Hw.
  { split; [constructor|done]. }
  { split; [repeat constructor|done]. }
  apply wf_cons in Hw as [(_&_&_&Ha)%wf_gap_spec Hw].
  pose proof Hw as [(_&_&_&Hb)%wf_gap_spec _]%wf_cons.
  rewrite check_gaps_cons, IH by done. split.
  - intros [Hab Hs]. constructor; [done|].
    apply StronglySorted_inv in Hs as [_ Hf]. constructor; [done|].
    eapply Forall_impl; [exact Hf|]. intros c. by apply gap_before_trans.
  - intros [Hs Hf]%StronglySorted_inv. apply Forall_cons in Hf as [? _]. by split.
Qed.

(** ** The single-pass scan *)

Lemma gap_contains_spec g p :
  gap_contains g (pos_epoch p) (pos_sequence p) ↔
  gap_epoch g = pos_epoch p ∧ ¬ number_lt (pos_sequence p) (gap_start g) ∧
  number_lt (pos_sequence p) (gap_end g).
Proof. unfold gap_contains. rewrite !andb_True, !bool_decide_spec. tauto. Qed.

Lemma gap_passed_not_contains g p :
  gap_passed g p → ¬ gap_contains g (pos_epoch p) (pos_sequence p).
Proof.
  rewrite gap_contains_spec. destruct g as [[x] [s] [e] ?], p as [[y] [t]].
  unfold gap_passed, number_lt. cbn. intros H Hc. destruct_or?; destruct_and?; simplify_eq; lia.
Qed.

Lemma gap_passed_mono g p q : pos_lt p q → gap_passed g p → gap_passed g q.
Proof.
  destruct g as [[x] [s] [e] ?], p as [[y] [t]], q as [[z] [u]].
  unfold gap_passed, pos_lt, number_lt. cbn.
  intros [?|[[= ->] ?]] [?|[[= ->] ?]]; [left; lia..|right; split; [done|lia]].
Qed.

(** A gap that neither passed nor contains a position lies after it, and so do
    all gaps after that gap. *)
Lemma gap_ahead g h p :
  ¬ gap_passed g p → ¬ gap_contains g (pos_epoch p) (pos_sequence p) →
  number_lt (gap_start g) (gap_end g) → gap_before g h →
  ¬ gap_contains h (pos_epoch p) (pos_sequence p).
Proof.
  rewrite !gap_contains_spec. destruct g as [[x] [s] [e] ?], h as [[y] [t] [f] ?], p as [[z] [u]].
  unfold gap_passed, gap_before, number_lt. cbn. intros Hp Hc Hse Hb ([= ->] & Hs & He).
  destruct (Z.lt_trichotomy x z) as [?|[->|?]]; [tauto| |].
  - destruct Hb as [?|[_ ?]]; [lia|]. apply Hc. split; [done|]. split; [|].
    + intros ?. lia.
    + apply dec_stable. intros ?. apply Hp. right. done.
  - destruct Hb as [?|[[= ->] _]]; lia.
Qed.

(** Where [advance_gap] stops: everything before is passed, the gap it stops at
    is not. *)
Lemma advance_gap_spec suffix i p :
  let j := advance_gap suffix i p in
  (i ≤ j)%nat ∧
  Forall (λ g, gap_passed g p) (take (j - i) suffix) ∧
  match drop (j - i) suffix with g :: _ => ¬ gap_passed g p | [] => True end.
Proof.
  cbn zeta. revert i. induction suffix as [|g suffix IH]; intros i; cbn [advance_gap].
  { rewrite Nat.sub_diag. split_and!; [lia|constructor|done]. }
  case_decide as Hg.
  - destruct (IH (S i)) as (Hi & Ht & Hd).
    replace (advance_gap suffix (S i) p - i)%nat
      with (S (advance_gap suffix (S i) p - S i)) by lia.
    split_and!; [lia| |done]. cbn. by constructor.
  - rewrite Nat.sub_diag. split_and!; [lia|constructor|done].
Qed.

(** After advancing for [p], one lookup decides whether any gap contains [p]. *)
Lemma scan_step_spec gs i p :
  wf gs → StronglySorted gap_before gs → Forall (λ g, gap_passed g p) (take i gs) →
  let j := advance_gap (drop i gs) i p in
  Forall (λ g, gap_passed g p) (take j gs) ∧
  ((∀ g, g ∈ gs → ¬ gap_contains g (pos_epoch p) (pos_sequence p)) ↔
   (∀ g, gs !! j = Some g → ¬ gap_contains g (pos_epoch p) (pos_sequence p))).
Proof.
  intros Hw Hs Hi. cbn zeta. destruct (advance_gap_spec (drop i gs) i p) as (Hij & Ht & Hd).
  cbn zeta in *. set (j := advance_gap (drop i gs) i p) in *.
  rewrite drop_drop in Hd. replace (i + (j - i))%nat with j in Hd by lia.
  assert (Forall (λ g, gap_passed g p) (take j gs)) as Hj.
  { replace j with (i + (j - i))%nat by lia. rewrite <-take_take_drop.
    by apply Forall_app. }
  split; [done|]. split; [intros H g Hg; apply H; by apply list_elem_of_lookup_2 in Hg|].
  intros H g Hg. rewrite <-(take_drop j gs) in Hg. apply elem_of_app in Hg as [Hg|Hg].
  { rewrite Forall_forall in Hj. by apply gap_passed_not_contains, Hj. }
  destruct (drop j gs) as [|h rest] eqn:E; [by apply elem_of_nil in Hg|].
  assert (gs !! j = Some h) as Hh.
  { rewrite <-(Nat.add_0_r j), <-lookup_drop, E. done. }
  specialize (H h Hh). apply elem_of_cons in Hg as [->|Hg]; [done|].
  apply (gap_ahead h g p); [done|done| |].
  - rewrite wf_list_Forall, Forall_forall in Hw.
    apply list_elem_of_lookup_2, Hw, wf_gap_spec in Hh. tauto.
  - rewrite <-(take_drop j gs), E in Hs. apply StronglySorted_app_1_r in Hs.
    apply StronglySorted_inv in Hs as [_ Hf]. rewrite Forall_forall in Hf. by apply Hf.
Qed.

Lemma outside_gaps_cons o os gs p :
  obs_position o = Some p →
  outside_gaps (o :: os) gs ↔
  (∀ g, g ∈ gs → ¬ gap_contains g (pos_epoch p) (pos_sequence p)) ∧ outside_gaps os gs.
Proof.
  intros Ho. unfold outside_gaps. split.
  - intros H. split.
    + intros g Hg. eapply H; [by left|done|done].
    + intros o' g q Ho'. apply H. by right.
  - intros [H1 H2] o' g q [->|Ho']%elem_of_cons Hg Hq; [|by eapply H2].
    rewrite Ho in Hq. simplify_eq. by apply H1.
Qed.

Lemma scan_outside_gaps_spec gs i os ps :
  wf gs → StronglySorted gap_before gs →
  obs_position <$> os = Some <$> ps → StronglySorted pos_lt ps →
  (∀ p, p ∈ ps → Forall (λ g, gap_passed g p) (take i gs)) →
  scan_outside_gaps gs i os = Ok tt ↔ outside_gaps os gs.
Proof.
  intros Hw Hs. revert i ps. induction os as [|o os IH]; intros i [|p ps] H Hps Hi; try discriminate H.
  { split; [|done]. intros _ ? ? ? Ho. by apply elem_of_nil in Ho. }
  injection H as Ho Hos. apply StronglySorted_inv in Hps as [Hps Hlt].
  destruct (scan_step_spec gs i p Hw Hs) as [Hj Hiff]; [apply Hi; left|].
  rewrite (outside_gaps_cons _ _ _ _ Ho), Hiff. cbn [scan_outside_gaps]. rewrite Ho. cbn zeta.
  set (j := advance_gap (drop i gs) i p) in *.
  assert (scan_outside_gaps gs j os = Ok tt ↔ outside_gaps os gs) as Hrest.
  { apply (IH j ps Hos Hps). intros q Hq. rewrite Forall_forall in Hlt.
    eapply Forall_impl; [exact Hj|]. intros g. apply gap_passed_mono. by apply Hlt. }
  destruct (gs !! j) as [g|].
  - destruct (gap_contains g _ _) eqn:Hg.
    + split; [done|]. intros [Hn _]. destruct (Hn g eq_refl). by rewrite Hg.
    + rewrite Hrest. split; [|tauto]. intros ?. split; [|done]. intros g' [= <-]. by apply Is_true_false.
  - rewrite Hrest. split; [|tauto]. intros ?. by split.
Qed.

(** [validate_observed] decides the contract. *)
Lemma positions_head os ps :
  obs_position <$> os = Some <$> ps → os ≠ [] → has_position <$> head os = Some true.
Proof.
  destruct os as [|o os], ps as [|p ps]; intros H ?; try done.
  injection H as Ho _. cbn. unfold has_position. by rewrite Ho, bool_decide_true.
Qed.

Lemma unpositioned_head os :
  Forall (λ o, obs_position o = None) os → has_position <$> head os ≠ Some true.
Proof.
  destruct 1 as [|o os Ho _]; [done|]. cbn. unfold has_position. rewrite Ho.
  by rewrite bool_decide_false by (by intros [? ?]).
Qed.

Lemma unpositioned_outside os gs : Forall (λ o, obs_position o = None) os → outside_gaps os gs.
Proof. rewrite Forall_forall. intros H o g p Ho _ Hp. by rewrite (H o Ho) in Hp. Qed.

Lemma validate_observed_spec mode os gs :
  wf gs → validate_observed mode os gs = Ok tt ↔ observed_contract mode os gs.
Proof.
  intros Hw. unfold validate_observed. split.
  - do 3 (case_decide; [done|]). rewrite let_ok_iff, check_observations_spec.
    intros [(Hi & Hu & _) Hk]. pose proof (positions_mixed_spec os) as Hmix.
    destruct (match _ with Some _ => _ | None => _ end); [done|].
    destruct Hmix as [Hmix _]. specialize (Hmix eq_refl).
    rewrite !let_ok_iff, check_gaps_spec in Hk by done. destruct Hk as (Hp & Hg & Ho).
    assert (positions_ordered os ∧ outside_gaps os gs) as [? ?].
    { destruct (decide (os = [])) as [->|Hne]; [split; [by left|by apply unpositioned_outside]|].
      destruct Hmix as [Hnone|[ps Hps]].
      - split; [by left|by apply unpositioned_outside].
      - rewrite (positions_head os ps) in Hp, Ho by done. cbn in Hp, Ho.
        apply (check_positions_spec _ _ Hps) in Hp. split; [right; by exists ps|].
        by apply (scan_outside_gaps_spec gs 0 os ps). }
    split; try done. destruct (decide (os = [])); [right; naive_solver|by left].
  - intros [[Hb1 Hb2] Hne Hi Hu Hp Hg Ho].
    rewrite !decide_False by (lia || naive_solver).
    rewrite let_ok_iff, check_observations_spec. split; [split_and!; [done|done|set_solver]|].
    pose proof (positions_mixed_spec os) as [_ ->].
    2:{ destruct Hp as [?|(ps & ? & _)]; [by left|right; by exists ps]. }
    rewrite !let_ok_iff, check_gaps_spec by done.
    destruct Hp as [Hnone|(ps & Hps & Hsorted)].
    + rewrite !decide_False by (by apply unpositioned_head). done.
    + case_decide; [|done]. split; [by apply (check_positions_spec _ _ Hps)|]. split; [done|].
      by apply (scan_outside_gaps_spec gs 0 os ps).
Qed.

(** ** Refusals *)

(** What each refusal of [validate_observed] asserts about the evidence. *)
Definition refusal_reason (mode : CollectionMode) (os : list Observation) (gs : list Gap)
    (e : ModelError) : Prop :=
  match e with
  | TooManyObservations => len os > MAX_OBSERVATIONS
  | TooManyGaps => len gs > MAX_GAPS
  | EmptyObservedEvidence => os = [] ∧ gs = []
  | MissingObservationInterval => mode = Interval ∧ Exists (λ o, obs_interval o = None) os
  | UnexpectedObservationInterval => mode ≠ Interval ∧ Exists (λ o, is_Some (obs_interval o)) os
  | DuplicateObservationId => ¬ NoDup (observation_id <$> os)
  | MixedProducerPositions =>
    Exists (λ o, obs_position o = None) os ∧ Exists (λ o, is_Some (obs_position o)) os
  | MisorderedProducerPositions =>
    ∃ ps, obs_position <$> os = Some <$> ps ∧ ¬ StronglySorted pos_lt ps
  | MisorderedGaps | OverlappingGaps => ¬ StronglySorted gap_before gs
  | ObservationInsideGap => ¬ outside_gaps os gs
  | _ => False
  end.

Lemma check_observations_err mode ids os e :
  check_observations mode ids os = Err e →
  (e = MissingObservationInterval ∧ mode = Interval ∧ Exists (λ o, obs_interval o = None) os) ∨
  (e = UnexpectedObservationInterval ∧ mode ≠ Interval ∧ Exists (λ o, is_Some (obs_interval o)) os) ∨
  (e = DuplicateObservationId ∧
   ¬ (NoDup (observation_id <$> os) ∧ ∀ o, o ∈ os → observation_id o ∉ ids)).
Proof.
  revert ids. induction os as [|o os IH]; intros ids; cbn [check_observations]; [done|].
  rewrite !Exists_cons, fmap_cons, NoDup_cons. intros H.
  assert ((obs_interval o = None ∧ mode = Interval ∧ e = MissingObservationInterval) ∨
          (is_Some (obs_interval o) ∧ mode ≠ Interval ∧ e = UnexpectedObservationInterval) ∨
          (if decide (observation_id o ∈ ids) then Err DuplicateObservationId
           else check_observations mode ({[observation_id o]} ∪ ids) os) = Err e) as [Hm|[Hm|Hm]].
  { destruct mode, (obs_interval o); naive_solver. }
  - naive_solver.
  - naive_solver.
  - case_decide as Hin.
    + right. right. split; [naive_solver|]. intros [_ Hn]. apply (Hn o); [left|done].
    + apply IH in Hm as [Hm|[Hm|[-> Hm]]]; [naive_solver..|]. right. right. split; [done|].
      intros [[Ho Hu] Hn]. apply Hm. split; [done|]. intros o' Ho'.
      rewrite list_elem_of_fmap in Ho. specialize (Hn o' ltac:(set_solver)).
      assert (observation_id o ≠ observation_id o') by naive_solver. set_solver.
Qed.

Lemma check_positions_err os ps e :
  obs_position <$> os = Some <$> ps → check_positions os = Err e → e = MisorderedProducerPositions.
Proof.
  revert ps. induction os as [|o [|o' os] IH]; intros [|p [|p' ps]] H; try discriminate H; try done.
  injection H as H1 H2 H3. rewrite (check_positions_cons _ _ _ _ _ H1 H2).
  case_decide; [by intros [= <-]|]. apply (IH (p' :: ps)).
  rewrite !fmap_cons, H2. f_equal. exact H3.
Qed.

Lemma check_gaps_err gs e : check_gaps gs = Err e → e = MisorderedGaps ∨ e = OverlappingGaps.
Proof.
  induction gs as [|a [|b gs] IH]; [done..|]. intros H. cbn in H.
  repeat case_decide; [naive_solver..|]. by apply IH.
Qed.

Lemma check_gaps_refusal mode os gs e :
  wf gs → check_gaps gs = Err e → refusal_reason mode os gs e.
Proof.
  intros Hw Hg. pose proof (check_gaps_spec gs Hw) as Hs.
  destruct (check_gaps_err gs e Hg) as [-> | ->]; cbn; by rewrite <-Hs, Hg.
Qed.

Lemma scan_outside_gaps_err gs i os ps e :
  obs_position <$> os = Some <$> ps → scan_outside_gaps gs i os = Err e → e = ObservationInsideGap.
Proof.
  revert i ps. induction os as [|o os IH]; intros i [|p ps] H; try discriminate H; [done|].
  injection H as Ho Hos. cbn [scan_outside_gaps]. rewrite Ho. cbn zeta.
  destruct (gs !! _) as [g|]; [|by apply IH with ps].
  destruct (gap_contains g _ _); [naive_solver|by apply IH with ps].
Qed.

Lemma mixed_positions_spec os :
  match has_position <$> head os with
  | Some presence => existsb (λ o, negb (Bool.eqb (has_position o) presence)) os
  | None => false
  end = true →
  Exists (λ o, obs_position o = None) os ∧ Exists (λ o, is_Some (obs_position o)) os.
Proof.
  destruct os as [|o os]; [done|].
  change (has_position <$> head (o :: os)) with (Some (has_position o)). cbv iota beta.
  rewrite existsb_exists. intros (o' & Ho'%list_elem_of_In & Hne).
  unfold has_position in Hne. rewrite !Exists_exists.
  destruct (obs_position o) as [p|] eqn:Ep, (obs_position o') as [p'|] eqn:Ep'.
  - by rewrite !bool_decide_true in Hne.
  - split; [by exists o'|]. exists o. rewrite Ep. split; [left|done].
  - split; [exists o; split; [left|done]|]. exists o'. by rewrite Ep'.
  - done.
Qed.

Lemma validate_observed_err mode os gs e :
  wf gs → validate_observed mode os gs = Err e → refusal_reason mode os gs e.
Proof.
  intros Hw. unfold validate_observed. case_decide; [by intros [= <-]|].
  case_decide; [by intros [= <-]|]. case_decide; [by intros [= <-]|].
  rewrite let_err_iff, check_observations_spec. intros [Herr|[(_ & _ & _) Hk]].
  { apply check_observations_err in Herr as [(->&?&?)|[(->&?&?)|[-> Hn]]]; [done..|].
    intros Hu. apply Hn. split; [done|set_solver]. }
  pose proof (positions_mixed_spec os) as [Hmix _]. pose proof (mixed_positions_spec os) as Hmixed.
  destruct (match _ with Some _ => _ | None => _ end); [by simplify_eq; apply Hmixed|].
  specialize (Hmix eq_refl). clear Hmixed.
  rewrite !let_err_iff, check_gaps_spec in Hk by done.
  destruct Hmix as [Hnone|[ps Hps]].
  { rewrite !decide_False in Hk by (by apply unpositioned_head).
    destruct Hk as [?|[_ [Hg|[_ ?]]]]; [done| |done].
    by eapply check_gaps_refusal. }
  destruct (decide (has_position <$> head os = Some true)).
  2:{ destruct Hk as [?|[_ [Hg|[_ ?]]]]; [done| |done].
    by eapply check_gaps_refusal. }
  pose proof (check_positions_spec _ _ Hps) as Hcp. destruct Hk as [Hp|[Hp [Hg|[Hg Ho]]]].
  - rewrite (check_positions_err _ _ _ Hps Hp). exists ps. split; [done|].
    rewrite <-Hcp. by rewrite Hp.
  - by eapply check_gaps_refusal.
  - pose proof (scan_outside_gaps_err _ _ _ _ _ Hps Ho) as ->. cbn. intros Hout.
    assert (scan_outside_gaps gs 0 os = Ok tt) as E.
    { apply (scan_outside_gaps_spec gs 0 os ps); try done. by apply Hcp. }
    unfold validate_observations_outside_gaps in Ho. by rewrite E in Ho.
Qed.

(** ** Properties *)

(** C25: Envelope construction is exact: [CollectionEnvelope::observed] succeeds
    exactly when the evidence meets the declarative contract (bounds,
    non-emptiness, interval metadata for interval mode only, distinct
    identities, all-or-none strictly increasing positions, ordered disjoint
    gaps, no positioned observation inside a gap), and keeps it unchanged. *)
Theorem envelope_observed_exact series os gs e (Hw : wf gs) :
  envelope_observed series os gs = Ok e ↔
  e = mkEnvelope series (Observed os gs) ∧ observed_contract (meta_mode series) os gs.
Proof.
  unfold envelope_observed, compact_vec. rewrite let_ok_iff, validate_observed_spec by done. naive_solver.
Qed.

(** C27: The single-pass scan that advances one gap index over the observations
    accepts exactly when no observation lies in any gap, for every pair of
    strictly increasing positions and ordered gaps. *)
Theorem gap_scan_equivalence os ps gs
    (Hw : wf gs) (Hg : StronglySorted gap_before gs)
    (Hp : obs_position <$> os = Some <$> ps) (Hs : StronglySorted pos_lt ps) :
  validate_observations_outside_gaps os gs = Ok tt ↔
  ∀ p g, p ∈ ps → g ∈ gs → ¬ gap_contains g (pos_epoch p) (pos_sequence p).
Proof.
  unfold validate_observations_outside_gaps.
  rewrite (scan_outside_gaps_spec gs 0 os ps) by (try done; intros; constructor).
  unfold outside_gaps. split.
  - intros H p g Hin Hgin.
    assert (Some p ∈ obs_position <$> os) as Ho by (rewrite Hp; by apply list_elem_of_fmap_2).
    apply list_elem_of_fmap in Ho as (o & E & Ho). by eapply H.
  - intros H o g p Ho Hgin E. apply H; [|done].
    assert (Some p ∈ Some <$> ps) as Hin by (rewrite <-Hp, <-E; by apply list_elem_of_fmap_2).
    apply list_elem_of_fmap in Hin as (q & [= <-] & ?). done.
Qed.

(** Every refusal of observed evidence names a defect the evidence really
    has, whatever order the checks run in. *)
Theorem observed_refusal_justified mode os gs e (Hw : wf gs)
    (He : validate_observed mode os gs = Err e) : refusal_reason mode os gs e.
Proof. by apply validate_observed_err. Qed.

(** Two positioned samples around the gap [5, 7) of epoch 0. *)
Definition sample_gap : Gap := mkGap (mkNumber 0) (mkNumber 5) (mkNumber 7) GapUnknown.
Definition sample_positioned (sequence : Z) : Observation :=
  sample_observation sequence (Some (sample_position 0 sequence)) None.

Lemma envelope_observed_exact_witness :
  let series := mkSeriesMetadata (sample_id 1) (sample_id 2) Sampled in
  let os := [sample_positioned 4; sample_positioned 7] in
  wf [sample_gap] ∧
  (envelope_observed series os [sample_gap] = Ok (mkEnvelope series (Observed os [sample_gap])) ↔
   mkEnvelope series (Observed os [sample_gap]) = mkEnvelope series (Observed os [sample_gap]) ∧
   observed_contract Sampled os [sample_gap]).
Proof.
  cbv zeta. split; [vm_compute; exact I|].
  apply (envelope_observed_exact (mkSeriesMetadata (sample_id 1) (sample_id 2) Sampled)).
  vm_compute. exact I.
Defined.

Lemma gap_scan_equivalence_witness :
  validate_observations_outside_gaps [sample_positioned 4; sample_positioned 7] [sample_gap] = Ok tt ↔
  ∀ p g, p ∈ [sample_position 0 4; sample_position 0 7] → g ∈ [sample_gap] →
    ¬ gap_contains g (pos_epoch p) (pos_sequence p).
Proof.
  apply gap_scan_equivalence.
  - vm_compute. exact I.
  - repeat constructor.
  - reflexivity.
  - constructor; [constructor; constructor|]. constructor; [|constructor].
    right. split; [reflexivity|]. unfold number_lt. cbn. lia.
Defined.

Lemma observed_refusal_justified_witness :
  refusal_reason Sampled [sample_positioned 4; sample_positioned 6] [sample_gap] ObservationInsideGap.
Proof. apply observed_refusal_justified; [vm_compute; exact I|vm_compute; reflexivity]. Defined.
