(* ===== verification/Series.v ===== *)
(** * Series declarations

    [och-core/src/series.rs], the declaration data: bounded references, source
    bindings, value families, payloads, revisions and per-series histories. The
    registry that issues them is in [Registry]. *)

From S2P Require Import Prelude Bytes Identity Bounded Value Collection.

(** ** Declaration references *)

Definition MAX_DECLARATION_REFERENCE_SCALARS : Z := 1024.

(** [char::is_control]: general category Cc. *)
Definition is_control (scalar : Z) : bool := bool_decide (0 ≤ scalar ≤ 31 ∨ 127 ≤ scalar ≤ 159).

Record DeclarationReference := mkReference { ref_str : rstring }.
#[export] Instance DeclarationReference_eq_dec : EqDecision DeclarationReference.
Proof. solve_decision. Defined.

(** The loop over [value.chars().take(MAX + 1)]: the scalar count and the
    accumulated validity. *)
Definition reference_scan (value : rstring) : Z * bool :=
  foldl (λ '(scalar_count, valid) scalar, (scalar_count + 1, valid && negb (is_control scalar)))
    (0, bool_decide (value ≠ [])) (take (Z.to_nat (MAX_DECLARATION_REFERENCE_SCALARS + 1)) (chars value)).

Definition reference_new (value : rstring) : result ModelError DeclarationReference :=
  let '(scalar_count, valid) := reference_scan value in
  let valid := valid && bool_decide (scalar_count ≤ MAX_DECLARATION_REFERENCE_SCALARS) in
  if negb valid then Err InvalidDeclarationReference else Ok (mkReference (compact_string value)).

#[export] Instance wf_reference : Wf DeclarationReference := λ r,
  utf8_ok (ref_str r) && is_ok (reference_new (ref_str r)).

Record SourceProjection := mkProjection { as_reference : DeclarationReference }.
#[export] Instance SourceProjection_eq_dec : EqDecision SourceProjection.
Proof. solve_decision. Defined.
#[export] Instance wf_projection : Wf SourceProjection := λ p, wf (as_reference p).
Definition projection_new (value : rstring) : result ModelError SourceProjection :=
  let! r := reference_new value in Ok (mkProjection r).

(** ** Bindings, families and payloads *)

Record SourceReference := mkSource {
  provider : DeclarationReference;
  projection : option SourceProjection;
  locator : DeclarationReference }.
#[export] Instance SourceReference_eq_dec : EqDecision SourceReference.
Proof. solve_decision. Defined.
#[export] Instance wf_source : Wf SourceReference := λ s,
  wf (provider s) && wf (projection s) && wf (locator s).
(** [SourceReference::new] omits the projection. *)
Definition source_new (provider locator : DeclarationReference) : SourceReference :=
  mkSource provider None locator.
Definition source_with_projection (provider : DeclarationReference) (projection : SourceProjection)
    (locator : DeclarationReference) : SourceReference := mkSource provider (Some projection) locator.

Record SeriesBinding := mkBinding { binding_source : SourceReference }.
#[export] Instance SeriesBinding_eq_dec : EqDecision SeriesBinding.
Proof. solve_decision. Defined.
#[export] Instance wf_binding : Wf SeriesBinding := λ b, wf (binding_source b).

Inductive ValueFamily : Set := FReal | FSigned | FUnsigned | FBoolean | FState | FText | FArtifact.
#[export] Instance ValueFamily_eq_dec : EqDecision ValueFamily.
Proof. solve_decision. Defined.

Definition admits (family : ValueFamily) (value : ExactValue) : bool :=
  match value with
  | VUnavailable _ => true
  | _ =>
    match family, value with
    | FReal, VReal _ | FSigned, VSigned _ | FUnsigned, VUnsigned _ | FBoolean, VBoolean _
    | FState, VState _ | FText, VText _ | FArtifact, VArtifact _ => true
    | _, _ => false
    end
  end.

Inductive QuantityEvidence :=
| QuantityAbsent | QuantityResolved (r : DeclarationReference) | QuantityUnresolved (r : DeclarationReference).
#[export] Instance QuantityEvidence_eq_dec : EqDecision QuantityEvidence.
Proof. solve_decision. Defined.
#[export] Instance wf_quantity : Wf QuantityEvidence := λ q,
  match q with QuantityAbsent => true | QuantityResolved r | QuantityUnresolved r => wf r end.

Inductive UnitEvidence :=
| UnitAbsent | UnitResolved (r : DeclarationReference) | UnitUnresolved (r : DeclarationReference).
#[export] Instance UnitEvidence_eq_dec : EqDecision UnitEvidence.
Proof. solve_decision. Defined.
#[export] Instance wf_unit : Wf UnitEvidence := λ u,
  match u with UnitAbsent => true | UnitResolved r | UnitUnresolved r => wf r end.

Record SeriesDeclarationPayload := mkPayload {
  payload_producer_id : ProducerId;
  payload_mode : CollectionMode;
  payload_family : ValueFamily;
  payload_quantity : QuantityEvidence;
  payload_unit : UnitEvidence;
  payload_application : option DeclarationReference }.
#[export] Instance SeriesDeclarationPayload_eq_dec : EqDecision SeriesDeclarationPayload.
Proof. solve_decision. Defined.
#[export] Instance wf_payload : Wf SeriesDeclarationPayload := λ p,
  wf (payload_producer_id p) && wf (payload_quantity p) && wf (payload_unit p) && wf (payload_application p).
Definition series_metadata (p : SeriesDeclarationPayload) (series_id : SeriesId) : SeriesMetadata :=
  mkSeriesMetadata series_id (payload_producer_id p) (payload_mode p).

Record DeclarationEvidence := mkDeclEvidence {
  effective_at : Timestamp;
  evidence_artifact : option ArtifactReference }.
#[export] Instance DeclarationEvidence_eq_dec : EqDecision DeclarationEvidence.
Proof. solve_decision. Defined.
#[export] Instance wf_decl_evidence : Wf DeclarationEvidence := λ e,
  wf (effective_at e) && wf (evidence_artifact e).

(** ** Revisions and declarations *)

Record DeclarationRevision := mkRevision { revision_get : Z }.
#[export] Instance DeclarationRevision_eq_dec : EqDecision DeclarationRevision.
Proof. solve_decision. Defined.
#[export] Instance wf_revision : Wf DeclarationRevision := λ r, in_range 1 u128_max (revision_get r).
Definition FIRST : DeclarationRevision := mkRevision 1.
Definition revision_new (value : Z) : result ModelError DeclarationRevision :=
  if decide (value = 0) then Err InvalidDeclarationRevision else Ok (mkRevision value).
(** [Self(self.0 + 1)]: an unchecked [u128] addition; [registry_ok_revision]
    shows it never wraps. *)
Definition revision_next (r : DeclarationRevision) : DeclarationRevision :=
  mkRevision ((revision_get r + 1) mod 2 ^ 128).

Record SeriesDeclaration := mkDeclaration {
  decl_store_id : StoreId;
  decl_series_id : SeriesId;
  decl_revision : DeclarationRevision;
  decl_previous : option DeclarationRevision;
  decl_binding : SeriesBinding;
  decl_payload : SeriesDeclarationPayload;
  decl_evidence : DeclarationEvidence }.
#[export] Instance SeriesDeclaration_eq_dec : EqDecision SeriesDeclaration.
Proof. solve_decision. Defined.
#[export] Instance wf_declaration : Wf SeriesDeclaration := λ d,
  wf (decl_store_id d) && wf (decl_series_id d) && wf (decl_revision d) && wf (decl_previous d) &&
  wf (decl_binding d) && wf (decl_payload d) && wf (decl_evidence d).

Record SeriesRetirement := mkRetirement {
  retirement_revision : DeclarationRevision;
  retirement_evidence : DeclarationEvidence }.
#[export] Instance SeriesRetirement_eq_dec : EqDecision SeriesRetirement.
Proof. solve_decision. Defined.

Inductive SeriesLifecycle : Set := Active | Retired.
#[export] Instance SeriesLifecycle_eq_dec : EqDecision SeriesLifecycle.
Proof. solve_decision. Defined.

Record SeriesHistory := mkHistory {
  history_series_id : SeriesId;
  history_binding : SeriesBinding;
  declarations : list SeriesDeclaration;
  retirement : option SeriesRetirement }.
#[export] Instance SeriesHistory_eq_dec : EqDecision SeriesHistory.
Proof. solve_decision. Defined.

Definition latest_declaration (h : SeriesHistory) : option SeriesDeclaration := last (declarations h).
Definition creation_evidence (h : SeriesHistory) : option DeclarationEvidence :=
  decl_evidence <$> head (declarations h).
Definition lifecycle (h : SeriesHistory) : SeriesLifecycle :=
  match retirement h with Some _ => Retired | None => Active end.
Definition compact_clone (h : SeriesHistory) : SeriesHistory :=
  mkHistory (history_series_id h) (history_binding h) (compact_vec (declarations h)) (retirement h).

(** ** Lemmas: declaration references *)

Lemma reference_scan_spec value :
  reference_scan value =
  (len (take (Z.to_nat (MAX_DECLARATION_REFERENCE_SCALARS + 1)) (chars value)),
   bool_decide (value ≠ []) &&
   forallb (λ scalar, negb (is_control scalar))
     (take (Z.to_nat (MAX_DECLARATION_REFERENCE_SCALARS + 1)) (chars value))).
Proof.
  unfold reference_scan. generalize (take (Z.to_nat (MAX_DECLARATION_REFERENCE_SCALARS + 1)) (chars value)) as l.
  intros l. assert (∀ n b, foldl (λ '(scalar_count, valid) scalar,
    (scalar_count + 1, valid && negb (is_control scalar))) (n, b) l =
    (n + len l, b && forallb (λ scalar, negb (is_control scalar)) l)) as H.
  { induction l as [|x l IH]; intros n b; cbn [foldl forallb].
    - rewrite len_nil, Z.add_0_r, andb_true_r. done.
    - rewrite IH, len_cons, andb_assoc. f_equal. lia. }
  by rewrite H.
Qed.

(** A reference is non-empty text of at most 1,024 scalars, none a control. *)
Lemma reference_new_Ok value r :
  reference_new value = Ok r ↔
  r = mkReference value ∧ value ≠ [] ∧ len (chars value) ≤ MAX_DECLARATION_REFERENCE_SCALARS ∧
  Forall (λ scalar, ¬ is_control scalar) (chars value).
Proof.
  unfold reference_new. rewrite reference_scan_spec. unfold compact_string.
  set (n := Z.to_nat (MAX_DECLARATION_REFERENCE_SCALARS + 1)).
  assert (len (take n (chars value)) ≤ MAX_DECLARATION_REFERENCE_SCALARS ↔
          len (chars value) ≤ MAX_DECLARATION_REFERENCE_SCALARS) as Hlen.
  { unfold len, n, MAX_DECLARATION_REFERENCE_SCALARS. rewrite length_take. lia. }
  assert (∀ l, forallb (λ scalar, negb (is_control scalar)) l ↔ Forall (λ scalar, ¬ is_control scalar) l) as Hall.
  { induction l as [|x l IH]; cbn [forallb]; [split; [constructor|done]|].
    rewrite andb_True, Forall_cons, IH, negb_True. done. }
  destruct (_ && _ && _) eqn:E; cbn [negb].
  - apply Is_true_true in E. rewrite !andb_True, !bool_decide_spec, Hlen, Hall in E.
    destruct E as [[? Hf] Hl]. rewrite (take_ge (chars value)) in Hf
      by (unfold len, n, MAX_DECLARATION_REFERENCE_SCALARS in *; lia). naive_solver.
  - split; [done|]. intros (-> & Hne & Hl & Hf). exfalso. apply Is_true_false in E. apply E.
    rewrite !andb_True, !bool_decide_spec, Hlen, Hall. split_and!; [done| |done].
    by apply Forall_take.
Qed.

Lemma wf_reference_spec r :
  wf r ↔ utf8_ok (ref_str r) ∧ reference_new (ref_str r) = Ok r.
Proof.
  unfold wf, wf_reference. rewrite andb_True. destruct r as [s]. cbn [ref_str].
  destruct (reference_new s) as [r|e] eqn:E; cbn [is_ok].
  - pose proof E as [-> _]%reference_new_Ok. naive_solver.
  - naive_solver.
Qed.

Lemma wf_reference_bound r : wf r → 1 ≤ len (ref_str r) ≤ 4096.
Proof.
  rewrite wf_reference_spec, reference_new_Ok. intros (Hu & _ & Hne & Hl & _). split.
  - destruct (ref_str r); [done|]. rewrite len_cons. pose proof (len_nonneg l). lia.
  - pose proof (utf8_ok_len _ Hu). unfold MAX_DECLARATION_REFERENCE_SCALARS in Hl. lia.
Qed.

(** A constructor's success makes a well-formed value. *)
Lemma reference_new_wf value r : utf8_ok value → reference_new value = Ok r → wf r ∧ ref_str r = value.
Proof.
  intros Hu H. pose proof H as [-> _]%reference_new_Ok. split; [|done]. by apply wf_reference_spec.
Qed.
