(* ===== verification/Registry.v ===== *)
(** * The bounded declaration registry

    [och-core/src/series.rs], [SeriesRegistry]: the one authority that issues
    declaration revisions, retires series and binds envelopes to the active
    revision. A mutating method takes the registry and returns its result with
    the registry after the call; reachable registries are runs of operations
    from [registry_new]. *)

From S2P Require Import Prelude Bytes Identity Bounded Value Collection Series.

(** ** The registry *)

Record SeriesRegistryLimits := mkLimits { max_series : Z; max_declaration_revisions : Z }.
#[export] Instance SeriesRegistryLimits_eq_dec : EqDecision SeriesRegistryLimits.
Proof. solve_decision. Defined.
#[export] Instance wf_limits : Wf SeriesRegistryLimits := λ l,
  in_range 0 usize_max (max_series l) && in_range 0 usize_max (max_declaration_revisions l).

(** [BTreeMap<SeriesId, SeriesHistory>] as a finite map; only iteration
    ([series_ids], [snapshot]) depends on the key order. *)
Record SeriesRegistry := mkRegistry {
  reg_store_id : StoreId;
  reg_limits : SeriesRegistryLimits;
  reg_revision_count : Z;
  reg_series : gmap SeriesId SeriesHistory }.
#[export] Instance SeriesRegistry_eq_dec : EqDecision SeriesRegistry.
Proof. solve_decision. Defined.

Definition registry_new (store_id : StoreId) (limits : SeriesRegistryLimits) : SeriesRegistry :=
  mkRegistry store_id limits 0 ∅.

Definition series_count (r : SeriesRegistry) : Z := Z.of_nat (size (reg_series r)).
Definition history (r : SeriesRegistry) (series_id : SeriesId) : option SeriesHistory :=
  reg_series r !! series_id.

Definition find_revision (revision : DeclarationRevision) (ds : list SeriesDeclaration)
  : option SeriesDeclaration :=
  List.find (λ d, bool_decide (decl_revision d = revision)) ds.

Definition resolve (r : SeriesRegistry) (series_id : SeriesId) (revision : DeclarationRevision)
  : option SeriesDeclaration :=
  history r series_id ≫= λ h, find_revision revision (declarations h).

(** Iteration of the ordered map: entries by ascending identity. *)
Definition entry_le (a b : SeriesId * SeriesHistory) : Prop := ¬ id_lt b.1 a.1.
#[export] Instance entry_le_dec : RelDecision entry_le.
Proof. intros a b. unfold entry_le. apply _. Defined.
Definition ordered_entries (r : SeriesRegistry) : list (SeriesId * SeriesHistory) :=
  merge_sort entry_le (map_to_list (reg_series r)).
Definition series_ids (r : SeriesRegistry) : list SeriesId := (ordered_entries r).*1.

Record SeriesRegistrySnapshot := mkSnapshot {
  snap_store_id : StoreId;
  snap_limits : SeriesRegistryLimits;
  snap_revision_count : Z;
  snap_series : list SeriesHistory }.
Definition snapshot (r : SeriesRegistry) : SeriesRegistrySnapshot :=
  mkSnapshot (reg_store_id r) (reg_limits r) (reg_revision_count r)
    (compact_vec (compact_clone <$> (ordered_entries r).*2)).

(** [self.series.insert] or a write through [get_mut], and the counter. *)
Definition with_history (r : SeriesRegistry) (series_id : SeriesId) (h : SeriesHistory) (count : Z)
  : SeriesRegistry :=
  mkRegistry (reg_store_id r) (reg_limits r) count (<[series_id := h]> (reg_series r)).

Definition register (r : SeriesRegistry) (series_id : SeriesId) (binding : SeriesBinding)
    (payload : SeriesDeclarationPayload) (evidence : DeclarationEvidence)
  : result ModelError SeriesDeclaration * SeriesRegistry :=
  match reg_series r !! series_id with
  | Some history =>
    match retirement history with
    | Some _ => (Err SeriesRetired, r)
    | None =>
      match head (declarations history) with
      | None => (Err SeriesNotFound, r)
      | Some initial =>
        if decide (len (declarations history) = 1 ∧ history_binding history = binding ∧
                   decl_payload initial = payload ∧ decl_evidence initial = evidence)
        then (Ok initial, r)
        else (Err SeriesAlreadyRegistered, r)
      end
    end
  | None =>
    if decide (series_count r >= max_series (reg_limits r))
    then (Err RegistrySeriesCapacityExceeded, r)
    else if decide (reg_revision_count r >= max_declaration_revisions (reg_limits r))
    then (Err RegistryRevisionCapacityExceeded, r)
    else
      let declaration :=
        mkDeclaration (reg_store_id r) series_id FIRST None binding payload evidence in
      let history := mkHistory series_id binding [declaration] None in
      (Ok declaration, with_history r series_id history (reg_revision_count r + 1))
  end.

Definition revise (r : SeriesRegistry) (series_id : SeriesId) (expected_revision : DeclarationRevision)
    (payload : SeriesDeclarationPayload) (evidence : DeclarationEvidence)
  : result ModelError SeriesDeclaration * SeriesRegistry :=
  match reg_series r !! series_id with
  | None => (Err SeriesNotFound, r)
  | Some history =>
    match retirement history with
    | Some _ => (Err SeriesRetired, r)
    | None =>
      match latest_declaration history with
      | None => (Err SeriesNotFound, r)
      | Some current =>
        if decide (decl_previous current = Some expected_revision ∧
                   decl_payload current = payload ∧ decl_evidence current = evidence)
        then (Ok current, r)
        else if decide (decl_revision current ≠ expected_revision)
        then (Err StaleDeclarationRevision, r)
        else if decide (decl_payload current = payload)
        then (Err DeclarationUnchanged, r)
        else if decide (reg_revision_count r >= max_declaration_revisions (reg_limits r))
        then (Err RegistryRevisionCapacityExceeded, r)
        else
          let declaration :=
            mkDeclaration (reg_store_id r) series_id (revision_next (decl_revision current))
              (Some expected_revision) (history_binding history) payload evidence in
          let history :=
            mkHistory (history_series_id history) (history_binding history)
              (declarations history ++ [declaration]) (retirement history) in
          (Ok declaration, with_history r series_id history (reg_revision_count r + 1))
      end
    end
  end.

Definition retire (r : SeriesRegistry) (series_id : SeriesId) (expected_revision : DeclarationRevision)
    (evidence : DeclarationEvidence)
  : result ModelError SeriesRetirement * SeriesRegistry :=
  match reg_series r !! series_id with
  | None => (Err SeriesNotFound, r)
  | Some history =>
    match retirement history with
    | Some retirement =>
      if decide (retirement_revision retirement = expected_revision ∧
                 retirement_evidence retirement = evidence)
      then (Ok retirement, r)
      else (Err SeriesRetired, r)
    | None =>
      match latest_declaration history with
      | None => (Err SeriesNotFound, r)
      | Some latest =>
        if decide (decl_revision latest ≠ expected_revision)
        then (Err StaleDeclarationRevision, r)
        else
          let retirement := mkRetirement expected_revision evidence in
          let history :=
            mkHistory (history_series_id history) (history_binding history)
              (declarations history) (Some retirement) in
          (Ok retirement, with_history r series_id history (reg_revision_count r))
      end
    end
  end.

(** A registry-issued binding: no other function constructs one. *)
Record DeclaredCollectionEnvelope := mkDeclared {
  declared_store_id : StoreId;
  declared_declaration : SeriesDeclaration;
  declared_envelope : CollectionEnvelope }.
#[export] Instance DeclaredCollectionEnvelope_eq_dec : EqDecision DeclaredCollectionEnvelope.
Proof. solve_decision. Defined.

Definition bind (r : SeriesRegistry) (envelope : CollectionEnvelope)
  : result ModelError DeclaredCollectionEnvelope :=
  let series_id := meta_series_id (env_series envelope) in
  let! history := ok_or (reg_series r !! series_id) SeriesNotFound in
  match retirement history with
  | Some _ => Err SeriesRetired
  | None =>
    let! declaration := ok_or (latest_declaration history) SeriesNotFound in
    if decide (env_series envelope ≠ series_metadata (decl_payload declaration) series_id)
    then Err SeriesMetadataMismatch
    else if existsb (λ o, negb (admits (payload_family (decl_payload declaration)) (obs_value o)))
              (observations envelope)
    then Err ObservationValueFamilyMismatch
    else Ok (mkDeclared (reg_store_id r) declaration envelope)
  end.

(** ** Operations, steps and reachable registries *)

Inductive registry_op :=
| ORegister (series_id : SeriesId) (binding : SeriesBinding) (payload : SeriesDeclarationPayload)
    (evidence : DeclarationEvidence)
| ORevise (series_id : SeriesId) (expected : DeclarationRevision) (payload : SeriesDeclarationPayload)
    (evidence : DeclarationEvidence)
| ORetire (series_id : SeriesId) (expected : DeclarationRevision) (evidence : DeclarationEvidence).

#[export] Instance wf_op : Wf registry_op := λ op,
  match op with
  | ORegister i b p e => wf i && wf b && wf p && wf e
  | ORevise i n p e => wf i && wf n && wf p && wf e
  | ORetire i n e => wf i && wf n && wf e
  end.

Inductive registry_outcome :=
| Declared (declaration : SeriesDeclaration)
| Tombstoned (retirement : SeriesRetirement).

Definition outcome {A} (f : A → registry_outcome) (call : result ModelError A * SeriesRegistry)
  : result ModelError registry_outcome * SeriesRegistry :=
  ((let! a := call.1 in Ok (f a)), call.2).

Definition apply_op (op : registry_op) (r : SeriesRegistry)
  : result ModelError registry_outcome * SeriesRegistry :=
  match op with
  | ORegister i b p e => outcome Declared (register r i b p e)
  | ORevise i n p e => outcome Declared (revise r i n p e)
  | ORetire i n e => outcome Tombstoned (retire r i n e)
  end.

Definition run (ops : list registry_op) (r : SeriesRegistry) : SeriesRegistry :=
  foldl (λ r op, (apply_op op r).2) r ops.

(** The transitions a registry can make, each under the guards of the method
    that makes it. *)
Inductive registry_step (r : SeriesRegistry) : SeriesRegistry → Prop :=
| step_register i b p e :
    wf i → wf b → wf p → wf e →
    reg_series r !! i = None →
    series_count r < max_series (reg_limits r) →
    reg_revision_count r < max_declaration_revisions (reg_limits r) →
    registry_step r (with_history r i
      (mkHistory i b [mkDeclaration (reg_store_id r) i FIRST None b p e] None)
      (reg_revision_count r + 1))
| step_revise i h current p e :
    wf p → wf e →
    reg_series r !! i = Some h → retirement h = None → latest_declaration h = Some current →
    decl_payload current ≠ p →
    reg_revision_count r < max_declaration_revisions (reg_limits r) →
    registry_step r (with_history r i
      (mkHistory (history_series_id h) (history_binding h)
        (declarations h ++ [mkDeclaration (reg_store_id r) i (revision_next (decl_revision current))
          (Some (decl_revision current)) (history_binding h) p e]) (retirement h))
      (reg_revision_count r + 1))
| step_retire i h current e :
    wf e →
    reg_series r !! i = Some h → retirement h = None → latest_declaration h = Some current →
    registry_step r (with_history r i
      (mkHistory (history_series_id h) (history_binding h) (declarations h)
        (Some (mkRetirement (decl_revision current) e)))
      (reg_revision_count r)).

(** A reachable registry: any finite run of operations from an empty one. *)
Definition reachable (r : SeriesRegistry) : Prop :=
  ∃ store_id limits ops, wf store_id ∧ wf limits ∧ Forall (λ op : registry_op, Is_true (wf op)) ops ∧
    r = run ops (registry_new store_id limits).

(** ** The invariant *)

Definition total_declarations (m : gmap SeriesId SeriesHistory) : Z :=
  map_fold (λ _ h acc, len (declarations h) + acc) 0 m.

(** One history: revisions 1, 2, ..., n in order, each naming its predecessor,
    the history's own binding, and a payload that differs from the predecessor's;
    a retirement names the last revision. *)
Record history_ok (store : StoreId) (i : SeriesId) (h : SeriesHistory) : Prop := {
  ho_series_id : history_series_id h = i;
  ho_wf : wf i ∧ wf (history_binding h);
  ho_nonempty : declarations h ≠ [];
  ho_declaration : ∀ k d, declarations h !! k = Some d →
    d = mkDeclaration store i (mkRevision (Z.of_nat k + 1))
          (if decide (k = 0%nat) then None else Some (mkRevision (Z.of_nat k)))
          (history_binding h) (decl_payload d) (decl_evidence d) ∧
    wf (decl_payload d) ∧ wf (decl_evidence d);
  ho_changed : ∀ k d d', declarations h !! k = Some d → declarations h !! S k = Some d' →
    decl_payload d ≠ decl_payload d';
  ho_retirement : ∀ t, retirement h = Some t →
    retirement_revision t = mkRevision (len (declarations h)) ∧ wf (retirement_evidence t) }.

Record registry_ok (r : SeriesRegistry) : Prop := {
  ok_store : wf (reg_store_id r);
  ok_limits : wf (reg_limits r);
  ok_count : reg_revision_count r = total_declarations (reg_series r);
  ok_series_bound : series_count r ≤ max_series (reg_limits r);
  ok_revision_bound : reg_revision_count r ≤ max_declaration_revisions (reg_limits r);
  ok_histories : map_Forall (history_ok (reg_store_id r)) (reg_series r) }.

(** ** Abstract specification: one append-only log per series *)

Record series_log := mkLog {
  log_binding : SeriesBinding;
  log_entries : list (SeriesDeclarationPayload * DeclarationEvidence);
  log_retired : option DeclarationEvidence }.
#[export] Instance series_log_eq_dec : EqDecision series_log.
Proof. solve_decision. Defined.

Abbreviation log_store := (gmap SeriesId series_log).
Definition log_total (m : log_store) : Z := map_fold (λ _ s acc, len (log_entries s) + acc) 0 m.

(** What each operation promises: the revision number it answers, or the
    refusal, and the logs afterwards. *)
Definition spec_op (limits : SeriesRegistryLimits) (op : registry_op) (m : log_store)
  : result ModelError Z * log_store :=
  match op with
  | ORegister i b p e =>
    match m !! i with
    | Some s =>
      if decide (is_Some (log_retired s)) then (Err SeriesRetired, m)
      else if decide (s = mkLog b [(p, e)] None) then (Ok 1, m)
      else (Err SeriesAlreadyRegistered, m)
    | None =>
      if decide (Z.of_nat (size m) >= max_series limits) then (Err RegistrySeriesCapacityExceeded, m)
      else if decide (log_total m >= max_declaration_revisions limits)
      then (Err RegistryRevisionCapacityExceeded, m)
      else (Ok 1, <[i := mkLog b [(p, e)] None]> m)
    end
  | ORevise i n p e =>
    match m !! i with
    | None => (Err SeriesNotFound, m)
    | Some s =>
      let k := len (log_entries s) in
      if decide (is_Some (log_retired s)) then (Err SeriesRetired, m)
      else if decide (k = revision_get n + 1 ∧ last (log_entries s) = Some (p, e)) then (Ok k, m)
      else if decide (k ≠ revision_get n) then (Err StaleDeclarationRevision, m)
      else if decide (fst <$> last (log_entries s) = Some p) then (Err DeclarationUnchanged, m)
      else if decide (log_total m >= max_declaration_revisions limits)
      then (Err RegistryRevisionCapacityExceeded, m)
      else (Ok (k + 1), <[i := mkLog (log_binding s) (log_entries s ++ [(p, e)]) None]> m)
    end
  | ORetire i n e =>
    match m !! i with
    | None => (Err SeriesNotFound, m)
    | Some s =>
      let k := len (log_entries s) in
      match log_retired s with
      | Some e' => ((if decide (k = revision_get n ∧ e' = e) then Ok k else Err SeriesRetired), m)
      | None =>
        if decide (k ≠ revision_get n) then (Err StaleDeclarationRevision, m)
        else (Ok k, <[i := mkLog (log_binding s) (log_entries s) (Some e)]> m)
      end
    end
  end.

Definition log_entry (d : SeriesDeclaration) := (decl_payload d, decl_evidence d).
Definition log_of (h : SeriesHistory) : series_log :=
  mkLog (history_binding h) (log_entry <$> declarations h) (retirement_evidence <$> retirement h).
Definition logs (r : SeriesRegistry) : log_store := log_of <$> reg_series r.
Definition outcome_revision (o : registry_outcome) : Z :=
  match o with
  | Declared d => revision_get (decl_revision d)
  | Tombstoned t => revision_get (retirement_revision t)
  end.
Definition answer (res : result ModelError registry_outcome) : result ModelError Z :=
  let! o := res in Ok (outcome_revision o).

(** ** Lemmas: counting declarations *)

Lemma total_insert_fresh m i h :
  m !! i = None →
  total_declarations (<[i := h]> m) = total_declarations m + len (declarations h).
Proof.
  intros Hi. unfold total_declarations. rewrite map_fold_insert_L; [lia| |done].
  intros. lia.
Qed.

Lemma total_insert_update m i h h' :
  m !! i = Some h →
  total_declarations (<[i := h']> m) =
  total_declarations m - len (declarations h) + len (declarations h').
Proof.
  intros Hi. rewrite <-(insert_delete_eq m), total_insert_fresh by apply lookup_delete_eq.
  enough (total_declarations m = total_declarations (delete i m) + len (declarations h)) by lia.
  rewrite <-(insert_delete_id m i h Hi) at 1. apply total_insert_fresh, lookup_delete_eq.
Qed.

Lemma total_nonneg m : 0 ≤ total_declarations m.
Proof.
  induction m as [|i h m Hi IH] using map_ind; [done|].
  rewrite total_insert_fresh by done. pose proof (len_nonneg (declarations h)). lia.
Qed.

Lemma total_lookup m i h : m !! i = Some h → len (declarations h) ≤ total_declarations m.
Proof.
  intros Hi. rewrite <-(insert_delete_id m i h Hi), total_insert_fresh by apply lookup_delete_eq.
  pose proof (total_nonneg (delete i m)). lia.
Qed.

Lemma log_total_logs m : log_total (log_of <$> m) = total_declarations m.
Proof.
  unfold log_total, total_declarations.
  induction m as [|i h m Hi IH] using map_ind; [by rewrite fmap_empty|].
  rewrite fmap_insert, !map_fold_insert_L by (done || (intros; lia) || by rewrite lookup_fmap, Hi).
  rewrite IH. f_equal. unfold len. cbn. by rewrite length_fmap.
Qed.

(** ** Lemmas: the transitions of each method *)

(** Every call leaves the registry alone or makes one guarded transition. *)
Lemma apply_op_step op r :
  wf op → (apply_op op r).2 = r ∨ registry_step r (apply_op op r).2.
Proof.
  destruct op as [i b p e|i n p e|i n e]; unfold wf, wf_op;
    cbn [apply_op outcome snd]; intros Hw; destruct_and? Hw.
  - unfold register. destruct (reg_series r !! i) as [h|] eqn:Ei.
    + repeat case_match; by left.
    + repeat case_decide; try (by left). right. constructor; try done; lia.
  - unfold revise. destruct (reg_series r !! i) as [h|] eqn:Ei; [|by left].
    destruct (retirement h) eqn:Er; [by left|].
    destruct (latest_declaration h) as [current|] eqn:Ec; [|by left].
    repeat case_decide; try (by left). right.
    assert (n = decl_revision current) as -> by done.
    rewrite <-Er. apply step_revise; try done. lia.
  - unfold retire. destruct (reg_series r !! i) as [h|] eqn:Ei; [|by left].
    destruct (retirement h) eqn:Er; [case_decide; by left|].
    destruct (latest_declaration h) as [current|] eqn:Ec; [|by left].
    case_decide; [by left|]. right.
    assert (n = decl_revision current) as -> by done.
    by apply step_retire.
Qed.

Lemma run_steps ops r :
  Forall (λ op : registry_op, Is_true (wf op)) ops → rtc registry_step r (run ops r).
Proof.
  intros H. revert r. induction H as [|op ops Hop _ IH]; intros r; [apply rtc_refl|].
  cbn [run foldl]. destruct (apply_op_step op r Hop) as [E|Hs].
  - rewrite <-E at 1. apply IH.
  - eapply rtc_l; [exact Hs|apply IH].
Qed.

Lemma apply_op_refused op r e : (apply_op op r).1 = Err e → (apply_op op r).2 = r.
Proof.
  destruct op as [i b p ev|i n p ev|i n ev]; cbn [apply_op outcome fst snd];
    unfold register, revise, retire; repeat case_match; naive_solver.
Qed.

(** ** Lemmas: the invariant *)

Lemma history_last store i h :
  history_ok store i h →
  ∃ pre current, declarations h = pre ++ [current] ∧ latest_declaration h = Some current ∧
    decl_revision current = mkRevision (len (declarations h)) ∧
    decl_previous current =
      (if decide (pre = []) then None else Some (mkRevision (len (declarations h) - 1))) ∧
    wf (decl_payload current) ∧ wf (decl_evidence current).
Proof.
  intros Hok. destruct (declarations h) as [|d ds _] eqn:E using rev_ind.
  { by destruct (ho_nonempty _ _ _ Hok). }
  exists ds, d. unfold latest_declaration. rewrite E, last_snoc.
  destruct (ho_declaration _ _ _ Hok (length ds) d) as (Hd & Hp & He).
  { by rewrite E, lookup_app_r, Nat.sub_diag. }
  split_and!; try done; rewrite Hd; cbn [decl_revision decl_previous]; autorewrite with len.
  - f_equal; unfold len; lia.
  - destruct ds as [|x ds]; [done|]. rewrite !decide_False by done. do 2 f_equal; unfold len;
    cbn [length]; lia.
Qed.

Lemma history_latest_revision store i h current :
  history_ok store i h → latest_declaration h = Some current →
  decl_revision current = mkRevision (len (declarations h)).
Proof. intros (pre & c & _ & Hl & Hr & _)%history_last. by intros [= <-]%(eq_trans (eq_sym Hl)). Qed.

Lemma latest_lookup h current :
  latest_declaration h = Some current → declarations h !! pred (length (declarations h)) = Some current.
Proof. unfold latest_declaration. by rewrite last_lookup. Qed.

Lemma history_ok_new store i b p e :
  wf i → wf b → wf p → wf e →
  history_ok store i (mkHistory i b [mkDeclaration store i FIRST None b p e] None).
Proof.
  intros. split; cbn [history_series_id history_binding declarations retirement]; try done.
  by intros [|k] d; [intros [= <-]|].
Qed.

Lemma history_ok_revise store i h current p e :
  history_ok store i h → retirement h = None → latest_declaration h = Some current →
  decl_payload current ≠ p → wf p → wf e → len (declarations h) < usize_max →
  history_ok store i (mkHistory (history_series_id h) (history_binding h)
    (declarations h ++ [mkDeclaration store i (revision_next (decl_revision current))
      (Some (decl_revision current)) (history_binding h) p e]) (retirement h)).
Proof.
  intros Hok Hr Hl Hne Hp He Hlen.
  rewrite (history_latest_revision _ _ _ _ Hok Hl). unfold revision_next. cbn [revision_get].
  rewrite Z.mod_small by (unfold usize_max, u64_max, len in *; lia).
  split; cbn [history_series_id history_binding declarations retirement].
  - apply Hok.
  - apply Hok.
  - by destruct (declarations h).
  - intros k d [Hk|[Hk Hd]]%lookup_app_Some; [by apply Hok|].
    destruct (k - length (declarations h))%nat as [|j] eqn:Ek; [|done]. injection Hd as <-.
    assert (k = length (declarations h)) as -> by lia. cbn.
    assert (length (declarations h) ≠ 0%nat) as Hn.
    { intros Hn%nil_length_inv. by apply (ho_nonempty _ _ _ Hok). }
    by rewrite decide_False by done.
  - intros k d d' Hd Hd'. pose proof (lookup_lt_Some _ _ _ Hd') as Hk. rewrite length_app in Hk. cbn in Hk.
    destruct (decide (S k < length (declarations h))%nat) as [?|?].
    + rewrite lookup_app_l in Hd, Hd' by lia. by apply (ho_changed _ _ _ Hok k).
    + rewrite lookup_app_l in Hd by lia.
      assert (S k = length (declarations h)) as E by lia. rewrite E in Hd'.
      rewrite lookup_app_r, Nat.sub_diag in Hd' by lia. injection Hd' as <-. cbn.
      apply latest_lookup in Hl. rewrite <-E in Hl. cbn in Hl. by simplify_eq.
  - rewrite Hr. done.
Qed.

Lemma history_ok_retire store i h current e :
  history_ok store i h → latest_declaration h = Some current → wf e →
  history_ok store i (mkHistory (history_series_id h) (history_binding h) (declarations h)
    (Some (mkRetirement (decl_revision current) e))).
Proof.
  intros Hok Hl He. split; cbn [history_series_id history_binding declarations retirement]; try apply Hok.
  intros t [= <-]. split; [|done]. by apply (history_latest_revision _ _ _ _ Hok).
Qed.

Lemma series_count_insert_fresh r i h c :
  reg_series r !! i = None → series_count (with_history r i h c) = series_count r + 1.
Proof. intros H. unfold series_count. cbn. rewrite map_size_insert_None by done. lia. Qed.

Lemma series_count_insert_update r i h h' c :
  reg_series r !! i = Some h → series_count (with_history r i h' c) = series_count r.
Proof. intros H. unfold series_count. cbn. by rewrite map_size_insert_Some. Qed.

Lemma registry_ok_new store_id limits :
  wf store_id → wf limits → registry_ok (registry_new store_id limits).
Proof.
  intros Hs Hl. split; cbn; try done.
  - pose proof Hl as Hl'. unfold wf, wf_limits in Hl'. destruct_and? Hl'.
    rewrite !in_range_spec in *. unfold series_count. cbn. rewrite map_size_empty. lia.
  - pose proof Hl as Hl'. unfold wf, wf_limits in Hl'. destruct_and? Hl'.
    rewrite !in_range_spec in *. lia.
Qed.

(** A registry whose revisions are counted within a [usize] never wraps one. *)
Lemma registry_ok_revision r i h :
  registry_ok r → reg_series r !! i = Some h → len (declarations h) ≤ reg_revision_count r ≤ usize_max.
Proof.
  intros Hok Hi. rewrite (ok_count _ Hok). split; [by apply (total_lookup _ i)|].
  rewrite <-(ok_count _ Hok). pose proof (ok_revision_bound _ Hok). pose proof (ok_limits _ Hok) as Hl.
  unfold wf, wf_limits in Hl. destruct_and? Hl. rewrite in_range_spec in *. lia.
Qed.

Lemma registry_step_ok r r' : registry_step r r' → registry_ok r → registry_ok r'.
Proof.
  intros [i b p e ???? Hi Hc Hn|i h current p e ?? Hi Hr Hl Hne Hn|i h current e ? Hi Hr Hl] Hok;
    pose proof (ok_histories _ Hok) as Hh; [|pose proof (Hh i h Hi) as Hih..]; split; cbn; try apply Hok.
  - rewrite total_insert_fresh, (ok_count _ Hok) by done. done.
  - rewrite series_count_insert_fresh by done. lia.
  - lia.
  - apply map_Forall_insert_2; [|done]. by apply history_ok_new.
  - rewrite (total_insert_update _ _ h), (ok_count _ Hok) by done. cbn. autorewrite with len. lia.
  - rewrite (series_count_insert_update _ _ h) by done. apply Hok.
  - lia.
  - apply map_Forall_insert_2; [|done]. apply history_ok_revise; try done.
    pose proof (registry_ok_revision _ _ _ Hok Hi). pose proof (ok_limits _ Hok) as Hw.
    unfold wf, wf_limits in Hw. destruct_and? Hw. rewrite in_range_spec in *. lia.
  - rewrite (total_insert_update _ _ h), (ok_count _ Hok) by done. cbn. lia.
  - rewrite (series_count_insert_update _ _ h) by done. apply Hok.
  - apply map_Forall_insert_2; [|done]. by apply history_ok_retire.
Qed.

Lemma reachable_ok r : reachable r → registry_ok r.
Proof.
  intros (s & l & ops & Hs & Hl & Hops & ->).
  pose proof (run_steps ops (registry_new s l) Hops) as Hrun.
  pose proof (registry_ok_new s l Hs Hl) as Hok.
  induction Hrun as [|x y z Hxy _ IH]; [done|]. eapply IH, registry_step_ok; done.
Qed.

(** ** Lemmas: refinement of the log specification *)

Lemma logs_lookup r i : logs r !! i = log_of <$> reg_series r !! i.
Proof. apply lookup_fmap. Qed.

Lemma logs_with_history r i h c : logs (with_history r i h c) = <[i := log_of h]> (logs r).
Proof. unfold logs. cbn. apply fmap_insert. Qed.

Lemma logs_size r : Z.of_nat (size (logs r)) = series_count r.
Proof. unfold logs, series_count. by rewrite map_size_fmap. Qed.

Lemma logs_total r : registry_ok r → log_total (logs r) = reg_revision_count r.
Proof. intros Hok. unfold logs. by rewrite log_total_logs, (ok_count _ Hok). Qed.

Lemma mkRevision_eq (r : DeclarationRevision) z : r = mkRevision z ↔ revision_get r = z.
Proof. destruct r. cbn. naive_solver. Qed.

Lemma refines_register r i b p e :
  registry_ok r → reg_series r !! i = None →
  spec_op (reg_limits r) (ORegister i b p e) (logs r) =
    (answer (apply_op (ORegister i b p e) r).1, logs (apply_op (ORegister i b p e) r).2).
Proof.
  intros Hok Hi. cbn [spec_op apply_op outcome fst snd]. unfold register.
  rewrite logs_lookup, Hi, logs_size, (logs_total _ Hok). cbn [fmap option_fmap option_map].
  repeat case_decide; try done. cbn [fst snd]. by rewrite logs_with_history.
Qed.

Lemma refines_register_again r i h b p e :
  registry_ok r → reg_series r !! i = Some h →
  spec_op (reg_limits r) (ORegister i b p e) (logs r) =
    (answer (apply_op (ORegister i b p e) r).1, logs (apply_op (ORegister i b p e) r).2).
Proof.
  intros Hok Hi. cbn [spec_op apply_op outcome fst snd]. unfold register.
  rewrite logs_lookup, Hi. cbn [fmap option_fmap option_map log_of log_retired].
  pose proof (ok_histories _ Hok i h Hi) as Hh.
  destruct (retirement h) as [t|] eqn:Er; cbn.
  { by rewrite decide_True by done. }
  rewrite decide_False by (by intros [? ?]).
  destruct (declarations h) as [|d ds] eqn:Ed; [by destruct (ho_nonempty _ _ _ Hh)|]. cbn [head].
  destruct (ho_declaration _ _ _ Hh 0%nat d) as [Hd _]; [by rewrite Ed|].
  rewrite (decide_ext (log_of h = mkLog b [(p, e)] None)
    (len (d :: ds) = 1 ∧ history_binding h = b ∧ decl_payload d = p ∧ decl_evidence d = e)).
  - assert (revision_get (decl_revision d) = 1) as Hrev by (by rewrite Hd).
    repeat case_decide; try done; cbn; by rewrite ?Hrev.
  - unfold log_of. rewrite Er, Ed. autorewrite with len. split.
    + intros [= ? ? ? Hds]. destruct ds; [|done]. done.
    + intros (Hl & <- & <- & <-). destruct ds as [|d' ds]; [done|].
      autorewrite with len in Hl. pose proof (len_nonneg ds). lia.
Qed.

Lemma refines_revise r i h n p e :
  registry_ok r → reg_series r !! i = Some h → wf n →
  spec_op (reg_limits r) (ORevise i n p e) (logs r) =
    (answer (apply_op (ORevise i n p e) r).1, logs (apply_op (ORevise i n p e) r).2).
Proof.
  intros Hok Hi Hn%in_range_spec. cbn [spec_op apply_op outcome fst snd]. unfold revise.
  rewrite logs_lookup, Hi, (logs_total _ Hok). cbn [fmap option_fmap option_map log_of log_retired].
  pose proof (ok_histories _ Hok i h Hi) as Hh.
  destruct (retirement h) as [t|] eqn:Er; cbn.
  { by rewrite decide_True by done. }
  rewrite decide_False by (by intros [? ?]).
  destruct (history_last _ _ _ Hh) as (pre & c & Ed & -> & Hr & Hp & _).
  assert (len (log_entry <$> declarations h) = len (declarations h)) as Hlen
    by (unfold len; by rewrite length_fmap).
  assert (last (log_entry <$> declarations h) = Some (log_entry c)) as Hlast
    by (rewrite fmap_last; unfold latest_declaration in *; by rewrite Ed, last_snoc).
  cbn [log_entries]. rewrite Hlen, Hlast. cbn [fmap option_fmap option_map].
  rewrite (decide_ext (len (declarations h) = revision_get n + 1 ∧ Some (log_entry c) = Some (p, e))
    (decl_previous c = Some n ∧ decl_payload c = p ∧ decl_evidence c = e)).
  2:{ rewrite Hp. destruct n as [n]. cbn [revision_get] in *. unfold log_entry. case_decide as Hpre.
      - rewrite Ed, Hpre. autorewrite with len. split; [lia|naive_solver].
      - split; [intros [-> [= -> ->]]; split; [do 2 f_equal; lia|done]|].
        intros ([= <-] & -> & ->). split; [lia|done]. }
  rewrite (decide_ext (decl_revision c ≠ n) (len (declarations h) ≠ revision_get n)).
  2:{ rewrite Hr. destruct n. cbn. naive_solver. }
  rewrite (decide_ext (Some (log_entry c).1 = Some p) (decl_payload c = p)).
  2:{ cbn. naive_solver. }
  pose proof (registry_ok_revision _ _ _ Hok Hi) as Hb.
  assert (logs (with_history r i
      (mkHistory (history_series_id h) (history_binding h)
        (declarations h ++ [mkDeclaration (reg_store_id r) i (revision_next (decl_revision c)) (Some n)
          (history_binding h) p e]) None) (reg_revision_count r + 1)) =
    <[i := mkLog (history_binding h) ((log_entry <$> declarations h) ++ [(p, e)]) None]> (logs r)) as Hlogs.
  { rewrite logs_with_history. unfold log_of. cbn. by rewrite fmap_app. }
  assert (revision_get (revision_next (decl_revision c)) = len (declarations h) + 1) as Hnext.
  { rewrite Hr. unfold revision_next. cbn. rewrite Z.mod_small; [done|].
    unfold usize_max, u64_max, len in *; lia. }
  repeat case_decide; try done; cbn [fst snd answer outcome_revision decl_revision];
    by rewrite ?Hlogs, ?Hnext, ?Hr.
Qed.

Lemma refines_retire r i h n e :
  registry_ok r → reg_series r !! i = Some h →
  spec_op (reg_limits r) (ORetire i n e) (logs r) =
    (answer (apply_op (ORetire i n e) r).1, logs (apply_op (ORetire i n e) r).2).
Proof.
  intros Hok Hi. cbn [spec_op apply_op outcome fst snd]. unfold retire.
  rewrite logs_lookup, Hi. cbn [fmap option_fmap option_map log_of log_retired log_entries].
  pose proof (ok_histories _ Hok i h Hi) as Hh.
  assert (len (log_entry <$> declarations h) = len (declarations h)) as Hlen
    by (unfold len; by rewrite length_fmap).
  rewrite Hlen. destruct n as [n]. cbn [revision_get].
  destruct (retirement h) as [t|] eqn:Er; cbn [option_fmap option_map].
  - destruct (ho_retirement _ _ _ Hh t Er) as [Ht _].
    rewrite (decide_ext (retirement_revision t = mkRevision n ∧ retirement_evidence t = e)
      (len (declarations h) = n ∧ retirement_evidence t = e)) by (rewrite Ht; naive_solver).
    change (retirement_evidence <$> Some t) with (Some (retirement_evidence t)). cbv iota.
    repeat case_decide; try done; cbn; by rewrite ?Ht.
  - destruct (history_last _ _ _ Hh) as (pre & c & Ed & -> & Hr & _).
    rewrite (decide_ext (decl_revision c ≠ mkRevision n) (len (declarations h) ≠ n))
      by (rewrite Hr; naive_solver).
    change (retirement_evidence <$> None) with (@None DeclarationEvidence). cbv iota.
    case_decide as Hn; [done|]. cbn [fst snd]. rewrite logs_with_history. cbn.
    by rewrite Hn.
Qed.

(** ** Lemmas: retained history *)

(** [h'] retains [h]: same identity and binding, all declarations of [h] in
    place, and a retired history unchanged. *)
Record retains (h h' : SeriesHistory) : Prop := {
  retains_id : history_series_id h' = history_series_id h ∧ history_binding h' = history_binding h;
  retains_declarations : declarations h `prefix_of` declarations h';
  retains_retired : is_Some (retirement h) → h' = h }.

#[export] Instance retains_preorder : PreOrder retains.
Proof.
  split; [by split|]. intros a b c [[? ?] Hp Hr] [[? ?] Hp' Hr']. split.
  - split; congruence.
  - by etrans.
  - intros Ha. rewrite <-(Hr Ha) in Ha |- * at 1. by apply Hr'.
Qed.

Lemma registry_step_retains r r' i h :
  registry_step r r' → reg_series r !! i = Some h → ∃ h', reg_series r' !! i = Some h' ∧ retains h h'.
Proof.
  intros [j b p e ???? Hj|j g current p e ?? Hj Hr|j g current e ? Hj Hr] Hi; cbn;
    (destruct (decide (j = i)) as [->|Hne];
      [|exists h; rewrite lookup_insert_ne by done; by split]); simplify_eq;
    eexists; (split; [apply lookup_insert_eq|]); split; cbn; try done; try (by rewrite Hr; intros [? ?]).
  by eexists.
Qed.

Lemma steps_retain r r' i h :
  rtc registry_step r r' → reg_series r !! i = Some h →
  ∃ h', reg_series r' !! i = Some h' ∧ retains h h'.
Proof.
  intros Hs. revert h. induction Hs as [r|r r1 r2 H1 _ IH]; intros h Hi; [by exists h|].
  destruct (registry_step_retains _ _ _ _ H1 Hi) as (h1 & Hi1 & ?).
  destruct (IH h1 Hi1) as (h2 & ? & ?). exists h2. split; [done|]. by etrans.
Qed.

Lemma find_revision_app n ds k d :
  find_revision n ds = Some d → find_revision n (ds ++ k) = Some d.
Proof.
  unfold find_revision. induction ds as [|x ds IH]; cbn; [done|]. by destruct (bool_decide _).
Qed.

Lemma find_revision_Some n ds d :
  find_revision n ds = Some d → d ∈ ds ∧ decl_revision d = n.
Proof.
  intros H%find_some. destruct H as [?%list_elem_of_In ?%bool_decide_eq_true]. done.
Qed.

(** In an accepted history a revision is found exactly at its position. *)
Lemma find_revision_lookup store i h k d :
  history_ok store i h → declarations h !! k = Some d →
  find_revision (decl_revision d) (declarations h) = Some d.
Proof.
  intros Hok Hk. destruct (find_revision _ _) as [d'|] eqn:E.
  - apply find_revision_Some in E as [(k' & Hk')%list_elem_of_lookup_1 E].
    destruct (ho_declaration _ _ _ Hok k d Hk) as [Hd _], (ho_declaration _ _ _ Hok k' d' Hk') as [Hd' _].
    assert (k' = k) as -> by (rewrite Hd, Hd' in E; cbn in E; injection E; lia). congruence.
  - unfold find_revision in E. apply (find_none _ _) with (x := d) in E.
    + by apply bool_decide_eq_false in E.
    + by apply list_elem_of_In, (list_elem_of_lookup_2 _ k).
Qed.

(** ** Lemmas: ordered iteration *)

#[export] Instance entry_le_total : Total entry_le.
Proof. intros a b. unfold entry_le. destruct (id_lt_total a.1 b.1) as [?|[->|?]]; [left|left|right];
  intros ?; (eapply (irreflexivity id_lt)); by try etrans. Qed.
#[export] Instance entry_le_trans : Transitive entry_le.
Proof.
  intros a b c Hab Hbc Hca. unfold entry_le in *.
  destruct (id_lt_total a.1 b.1) as [H|[E|H]]; [| |done].
  - apply Hbc. by etrans.
  - apply Hbc. by rewrite <-E.
Qed.

Lemma ordered_entries_perm r : ordered_entries r ≡ₚ map_to_list (reg_series r).
Proof. apply merge_sort_Permutation. Qed.

Lemma series_ids_sorted r : StronglySorted id_lt (series_ids r).
Proof.
  unfold series_ids. pose proof (StronglySorted_merge_sort entry_le (map_to_list (reg_series r))) as Hs.
  fold (ordered_entries r) in Hs.
  assert (NoDup (ordered_entries r).*1) as Hn.
  { rewrite ordered_entries_perm. apply NoDup_fst_map_to_list. }
  induction (ordered_entries r) as [|x l IH]; [constructor|].
  apply StronglySorted_inv in Hs as [Hs Hx]. cbn in Hn |- *. apply NoDup_cons in Hn as [Hx' Hn].
  constructor; [by apply IH|]. apply Forall_fmap. rewrite Forall_forall in Hx |- *.
  intros y Hy. specialize (Hx y Hy). unfold entry_le in Hx. cbn.
  destruct (id_lt_total x.1 y.1) as [?|[E|?]]; [done| |done].
  exfalso. apply Hx'. rewrite E. by apply list_elem_of_fmap_2.
Qed.

(** ** Lemmas: replays and binding *)

Lemma register_replay r i b p e : register (register r i b p e).2 i b p e = register r i b p e.
Proof.
  destruct (register r i b p e) as [res r'] eqn:E. cbn [snd]. revert E. unfold register at 1.
  destruct (reg_series r !! i) as [h|] eqn:Hi.
  - intros E. assert (r' = r) as -> by (repeat case_match; by simplify_eq).
    unfold register. rewrite Hi. exact E.
  - repeat case_decide; intros [= <- <-]; unfold register; cbn [with_history reg_series].
    1,2: rewrite Hi; by repeat case_decide.
    rewrite lookup_insert_eq. cbn. by rewrite decide_True by done.
Qed.

Lemma revise_replay r i n p e : revise (revise r i n p e).2 i n p e = revise r i n p e.
Proof.
  destruct (revise r i n p e) as [res r'] eqn:E. cbn [snd].
  destruct (decide (r' = r)) as [->|Hne]; [done|]. revert E. unfold revise at 1.
  destruct (reg_series r !! i) as [h|] eqn:Hi; [|naive_solver].
  destruct (retirement h) eqn:Hr; [naive_solver|].
  destruct (latest_declaration h) as [c|]; [|naive_solver].
  repeat case_decide; intros [= <- <-]; try done.
  unfold revise. cbn [with_history reg_series]. rewrite lookup_insert_eq. cbn [retirement].
  unfold latest_declaration. cbn [declarations]. rewrite last_snoc. cbn. by rewrite decide_True by done.
Qed.

Lemma retire_replay r i n e : retire (retire r i n e).2 i n e = retire r i n e.
Proof.
  destruct (retire r i n e) as [res r'] eqn:E. cbn [snd].
  destruct (decide (r' = r)) as [->|Hne]; [done|]. revert E. unfold retire at 1.
  destruct (reg_series r !! i) as [h|] eqn:Hi; [|naive_solver].
  destruct (retirement h) eqn:Hr; [case_decide; naive_solver|].
  destruct (latest_declaration h) as [c|]; [|naive_solver].
  repeat case_decide; intros [= <- <-]; try done.
  unfold retire. cbn [with_history reg_series]. rewrite lookup_insert_eq. cbn. by rewrite decide_True by done.
Qed.

Lemma bind_Ok r e d :
  bind r e = Ok d ↔
  ∃ h c, reg_series r !! meta_series_id (env_series e) = Some h ∧ retirement h = None ∧
    latest_declaration h = Some c ∧ d = mkDeclared (reg_store_id r) c e ∧
    env_series e = series_metadata (decl_payload c) (meta_series_id (env_series e)) ∧
    Forall (λ o, admits (payload_family (decl_payload c)) (obs_value o)) (observations e).
Proof.
  unfold bind. destruct (reg_series r !! _) as [h|] eqn:Hi; cbn [ok_or]; [|naive_solver].
  destruct (retirement h) eqn:Hr; [naive_solver|].
  destruct (latest_declaration h) as [c|] eqn:Hl; cbn [ok_or]; [|naive_solver].
  case_decide as Hm; [naive_solver|].
  assert (existsb (λ o, negb (admits (payload_family (decl_payload c)) (obs_value o))) (observations e) = true ↔
    ¬ Forall (λ o, admits (payload_family (decl_payload c)) (obs_value o)) (observations e)) as Hex.
  { rewrite existsb_exists. split.
    - intros (o & Ho%list_elem_of_In & Hn) Hf. rewrite Forall_forall in Hf. specialize (Hf o Ho).
      by destruct (admits _ _).
    - intros Hn. apply not_Forall_Exists in Hn; [|intros ?; apply _].
      apply Exists_exists in Hn as (o & Ho & Hn). exists o. split; [by apply list_elem_of_In|].
      cbn in Hn. destruct (admits _ _); [by destruct Hn|done]. }
  destruct (existsb _ _).
  - split; [done|]. intros (h' & c' & ? & ? & ? & ? & ? & ?). simplify_eq. by destruct Hex as [[] _].
  - assert (Forall (λ o, admits (payload_family (decl_payload c)) (obs_value o)) (observations e)).
    { apply dec_stable. by intros ?%Hex. }
    split; [|naive_solver]. intros [= <-]. exists h, c. split_and!; done.
Qed.

(** The entries of an accepted registry are determined by its histories. *)
Lemma ordered_entries_histories r :
  registry_ok r → ordered_entries r = (λ h, (history_series_id h, h)) <$> (ordered_entries r).*2.
Proof.
  intros Hok. rewrite <-list_fmap_compose. rewrite <-(list_fmap_id (ordered_entries r)) at 1.
  apply list_fmap_ext. intros k [i h] Hk. cbn. f_equal.
  apply list_elem_of_lookup_2 in Hk. rewrite ordered_entries_perm in Hk.
  apply elem_of_map_to_list in Hk. by rewrite (ho_series_id _ _ _ (ok_histories _ Hok i h Hk)).
Qed.

Lemma ordered_entries_inj r r' : ordered_entries r = ordered_entries r' → reg_series r = reg_series r'.
Proof.
  intros E. apply map_to_list_inj. by rewrite <-(ordered_entries_perm r), <-(ordered_entries_perm r'), E.
Qed.

(** ** A concrete registry *)

Definition sample_reference (s : rstring) : DeclarationReference := mkReference s.
Definition sample_binding : SeriesBinding :=
  mkBinding (mkSource (sample_reference [x70]) (Some (mkProjection (sample_reference [x61])))
    (sample_reference [x6c])).
Definition sample_payload (family : ValueFamily) : SeriesDeclarationPayload :=
  mkPayload (sample_id 2) Sampled family QuantityAbsent UnitAbsent None.
Definition sample_decl_evidence (n : Z) : DeclarationEvidence := mkDeclEvidence (mkTimestamp n 0) None.
Definition sample_ops : list registry_op :=
  [ORegister (sample_id 1) sample_binding (sample_payload FReal) (sample_decl_evidence 1);
   ORevise (sample_id 1) FIRST (sample_payload FBoolean) (sample_decl_evidence 2);
   ORegister (sample_id 3) sample_binding (sample_payload FReal) (sample_decl_evidence 3);
   ORetire (sample_id 3) FIRST (sample_decl_evidence 4)].
Definition sample_registry : SeriesRegistry := run sample_ops (registry_new (sample_id 0) (mkLimits 2 4)).
Definition sample_envelope : CollectionEnvelope :=
  mkEnvelope (mkSeriesMetadata (sample_id 1) (sample_id 2) Sampled)
    (Observed [sample_observation 7 None None] []).

Lemma sample_reachable : reachable sample_registry.
Proof.
  exists (sample_id 0), (mkLimits 2 4), sample_ops.
  split_and!; [by vm_compute|by vm_compute| |done]. by repeat constructor; vm_compute.
Qed.

(** The answers and final state of a sequence of operations, and those the
    specification promises. *)
Fixpoint trace (ops : list registry_op) (r : SeriesRegistry)
  : list (result ModelError Z) * SeriesRegistry :=
  match ops with
  | [] => ([], r)
  | op :: ops =>
    let '(res, r) := apply_op op r in
    let '(answers, r) := trace ops r in (answer res :: answers, r)
  end.
Fixpoint spec_trace (limits : SeriesRegistryLimits) (ops : list registry_op) (m : log_store)
  : list (result ModelError Z) * log_store :=
  match ops with
  | [] => ([], m)
  | op :: ops =>
    let '(res, m) := spec_op limits op m in
    let '(answers, m) := spec_trace limits ops m in (res :: answers, m)
  end.

Lemma refines_op op r :
  registry_ok r → wf op →
  spec_op (reg_limits r) op (logs r) = (answer (apply_op op r).1, logs (apply_op op r).2).
Proof.
  intros Hok Hw. destruct op as [i b p e|i n p e|i n e]; destruct (reg_series r !! i) as [h|] eqn:Hi.
  - by apply (refines_register_again _ _ h).
  - by apply refines_register.
  - unfold wf, wf_op in Hw. destruct_and? Hw. by apply (refines_revise _ _ h).
  - cbn [spec_op apply_op outcome fst snd]. unfold revise. by rewrite logs_lookup, Hi.
  - by apply (refines_retire _ _ h).
  - cbn [spec_op apply_op outcome fst snd]. unfold retire. by rewrite logs_lookup, Hi.
Qed.

Lemma apply_op_limits op r : reg_limits (apply_op op r).2 = reg_limits r.
Proof.
  destruct op as [i b p ev|i n p ev|i n ev]; cbn [apply_op outcome fst snd];
    unfold register, revise, retire; repeat case_match; done.
Qed.

Lemma apply_op_ok op r : wf op → registry_ok r → registry_ok (apply_op op r).2.
Proof. intros Hw Hok. destruct (apply_op_step op r Hw) as [->|?]; [done|by eapply registry_step_ok]. Qed.

(** ** Properties *)

(** C4: Every registry reachable by any operations, accepted or refused, keeps
    its invariant: the counter is the number of retained declarations, both
    capacity bounds hold, and each history carries revisions 1, 2, ..., n (the
    unchecked [u128] increment never wraps), each naming its predecessor, with
    the history's one binding, with consecutive payloads distinct, and with a
    retirement anchored to the last revision. *)
Theorem registry_invariant r (Hr : reachable r) : registry_ok r.
Proof. by apply reachable_ok. Qed.

Lemma registry_invariant_witness : registry_ok sample_registry ∧ series_count sample_registry = 2.
Proof. split; [apply (registry_invariant _ sample_reachable)|by vm_compute]. Defined.

(** C22: The registry refines one append-only log per series: for every sequence
    of operations, the revision number or refusal each call answers is the one
    the log specification answers, and the retained history is the final log. *)
Theorem registry_refines_logs ops r (Hr : reachable r) (Ho : Forall (λ op : registry_op, Is_true (wf op)) ops) :
  spec_trace (reg_limits r) ops (logs r) = ((trace ops r).1, logs (trace ops r).2).
Proof.
  apply reachable_ok in Hr. revert r Hr.
  induction Ho as [|op ops Hop _ IH]; intros r Hr; cbn [spec_trace trace]; [done|].
  rewrite refines_op by done. pose proof (apply_op_limits op r) as Hlim. pose proof (apply_op_ok op r Hop Hr).
  destruct (apply_op op r) as [res r']. cbn [fst snd] in *. rewrite <-Hlim, IH by done.
  by destruct (trace ops r').
Qed.

Lemma registry_refines_logs_witness :
  (trace sample_ops (registry_new (sample_id 0) (mkLimits 2 4))).1 = [Ok 1; Ok 2; Ok 1; Ok 1] ∧
  spec_trace (mkLimits 2 4) sample_ops (logs sample_registry) =
    ((trace sample_ops sample_registry).1, logs (trace sample_ops sample_registry).2).
Proof.
  split; [by vm_compute|].
  apply (registry_refines_logs sample_ops sample_registry sample_reachable).
  by repeat constructor; vm_compute.
Defined.

(** Operations are safe to retry: repeating a call answers the same result
    and changes nothing, and a refused call changes nothing. *)
Theorem registry_retry_safe op r :
  apply_op op (apply_op op r).2 = apply_op op r ∧
  (is_ok (apply_op op r).1 = false → (apply_op op r).2 = r).
Proof.
  split.
  - destruct op; cbn [apply_op]; unfold outcome; cbn [snd]; f_equal;
      by rewrite ?register_replay, ?revise_replay, ?retire_replay.
  - destruct (apply_op op r).1 as [|e] eqn:E; [done|]. intros _. by eapply apply_op_refused.
Qed.

(** C29: Accepted history is permanent: through any further operations a
    resolved declaration stays resolvable and unchanged, and a retired series
    keeps exactly the history it had when it was retired. *)
Theorem registry_history_permanent r ops i n d
    (Ho : Forall (λ op : registry_op, Is_true (wf op)) ops) (Hd : resolve r i n = Some d) :
  resolve (run ops r) i n = Some d ∧
  ((lifecycle <$> history r i) = Some Retired → history (run ops r) i = history r i).
Proof.
  unfold resolve, history in *. destruct (reg_series r !! i) as [h|] eqn:Hi; [|done].
  destruct (steps_retain _ _ i h (run_steps ops r Ho) Hi) as (h' & -> & [_ [k Hk] Hret]). cbn in *. split.
  - rewrite Hk. by apply find_revision_app.
  - intros [= Hl]. f_equal. apply Hret. unfold lifecycle in Hl. by destruct (retirement h).
Qed.

Lemma registry_history_permanent_witness :
  resolve sample_registry (sample_id 1) FIRST =
    Some (mkDeclaration (sample_id 0) (sample_id 1) FIRST None sample_binding (sample_payload FReal)
      (sample_decl_evidence 1)).
Proof.
  assert (resolve (run (drop 1 sample_ops) (run (take 1 sample_ops) (registry_new (sample_id 0) (mkLimits 2 4))))
    (sample_id 1) FIRST = resolve sample_registry (sample_id 1) FIRST) as <- by (by vm_compute).
  apply (registry_history_permanent _ (drop 1 sample_ops));
    [by repeat constructor; vm_compute|by vm_compute].
Defined.

(** C28: Binding authorises exactly the evidence the current declaration
    covers: [bind] succeeds exactly when the series is registered and not
    retired, the envelope's producer and mode are the last revision's, and every
    usable value is of its family; the binding then names the registry's store,
    that last revision and the unchanged envelope. *)
Theorem bind_exact r e d (Hr : reachable r) :
  bind r e = Ok d ↔
  ∃ h, history r (meta_series_id (env_series e)) = Some h ∧ lifecycle h = Active ∧
    resolve r (meta_series_id (env_series e)) (mkRevision (len (declarations h))) =
      Some (declared_declaration d) ∧
    declared_store_id d = reg_store_id r ∧ declared_envelope d = e ∧
    env_series e = series_metadata (decl_payload (declared_declaration d)) (meta_series_id (env_series e)) ∧
    Forall (λ o, admits (payload_family (decl_payload (declared_declaration d))) (obs_value o))
      (observations e).
Proof.
  apply reachable_ok in Hr. rewrite bind_Ok. unfold resolve, history.
  set (i := meta_series_id (env_series e)). split.
  - intros (h & c & Hi & Hret & Hl & -> & Hm & Ha). exists h. cbn. rewrite Hi. cbn.
    pose proof (ok_histories _ Hr i h Hi) as Hh. unfold lifecycle. rewrite Hret.
    rewrite <-(history_latest_revision _ _ _ _ Hh Hl).
    split_and!; try done. eapply find_revision_lookup; [done|by apply latest_lookup].
  - intros (h & Hi & Hret & Hres & Hs & He & Hm & Ha). rewrite Hi in Hres. cbn in Hres.
    pose proof (ok_histories _ Hr i h Hi) as Hh.
    destruct (history_last _ _ _ Hh) as (_ & c & _ & Hl & Hc & _).
    rewrite <-Hc, (find_revision_lookup _ _ _ _ c Hh (latest_lookup _ _ Hl)) in Hres.
    injection Hres as ->. exists h, (declared_declaration d). unfold lifecycle in Hret.
    destruct d. cbn in *. subst. split_and!; try done. by destruct (retirement h).
Qed.

Lemma bind_exact_witness :
  bind sample_registry sample_envelope =
    Ok (mkDeclared (sample_id 0)
      (mkDeclaration (sample_id 0) (sample_id 1) (mkRevision 2) (Some FIRST) sample_binding
        (sample_payload FBoolean) (sample_decl_evidence 2)) sample_envelope).
Proof.
  apply (bind_exact sample_registry); [apply sample_reachable|].
  exists (mkHistory (sample_id 1) sample_binding
    [mkDeclaration (sample_id 0) (sample_id 1) FIRST None sample_binding (sample_payload FReal)
      (sample_decl_evidence 1);
     mkDeclaration (sample_id 0) (sample_id 1) (mkRevision 2) (Some FIRST) sample_binding
      (sample_payload FBoolean) (sample_decl_evidence 2)] None).
  split_and!; try by vm_compute. by repeat constructor.
Defined.

(** Snapshots are deterministic and lose nothing: their histories are in
    strictly increasing identity order, and two reachable registries have equal
    snapshots exactly when they are equal. *)
Theorem snapshot_faithful r r' (Hr : reachable r) (Hr' : reachable r') :
  StronglySorted id_lt (history_series_id <$> snap_series (snapshot r)) ∧
  (snapshot r = snapshot r' ↔ r = r').
Proof.
  apply reachable_ok in Hr, Hr'.
  assert (∀ x, snap_series (snapshot x) = (ordered_entries x).*2) as Hs.
  { intros x. cbn. unfold compact_vec. rewrite <-(list_fmap_id ((ordered_entries x).*2)) at 2.
    apply list_fmap_ext. by intros ? [] ?. }
  split.
  - rewrite Hs. pose proof (series_ids_sorted r) as Hsort. unfold series_ids in Hsort.
    rewrite (ordered_entries_histories r Hr), <-list_fmap_compose in Hsort. exact Hsort.
  - split; [|by intros ->]. intros E.
    assert (ordered_entries r = ordered_entries r') as He.
    { rewrite (ordered_entries_histories r Hr), (ordered_entries_histories r' Hr'), <-!Hs. by rewrite E. }
    apply ordered_entries_inj in He. destruct r, r'. cbn in *. unfold snapshot in E. cbn in E. congruence.
Qed.

Lemma snapshot_faithful_witness :
  StronglySorted id_lt (history_series_id <$> snap_series (snapshot sample_registry)) ∧
  (snapshot sample_registry = snapshot sample_registry ↔ sample_registry = sample_registry).
Proof. apply snapshot_faithful; apply sample_reachable. Defined.
