(* ===== verification/Admission.v ===== *)
(** * Source provenance and canonical admission

    [och-core/src/source.rs] and [och-core/src/retry.rs]: the capture lifecycle,
    per-observation lineage, retry qualifications, and the construction of a
    [CanonicalAdmission] from a registry-issued binding. Construction is proved
    to accept exactly the declarative admission contract. *)

From S2P Require Import Prelude Bytes Identity Bounded Value Collection Series Registry.

(** ** Retry qualification *)

Inductive RetryClassification : Set := Distinct | Equivalent | Conflict.
#[export] Instance RetryClassification_eq_dec : EqDecision RetryClassification.
Proof. solve_decision. Defined.

Record RetryQualification := mkRetry {
  retry_series_id : SeriesId;
  retry_producer_id : ProducerId;
  retry_key : RetryKey;
  retry_content : ContentIdentity }.
#[export] Instance RetryQualification_eq_dec : EqDecision RetryQualification.
Proof. solve_decision. Defined.
#[export] Instance wf_retry : Wf RetryQualification := λ r,
  wf (retry_series_id r) && wf (retry_producer_id r) && wf (retry_key r) && wf (retry_content r).

Definition classify (self other : RetryQualification) : RetryClassification :=
  if decide (retry_series_id self ≠ retry_series_id other ∨
             retry_producer_id self ≠ retry_producer_id other ∨ retry_key self ≠ retry_key other)
  then Distinct
  else if decide (retry_content self = retry_content other) then Equivalent
  else Conflict.

(** ** Source batches *)

Definition MAX_SOURCE_OBSERVATION_CONTEXTS : Z := MAX_OBSERVATIONS.
Definition MAX_SOURCE_GAP_CONTEXTS : Z := MAX_GAPS.

Record SourceSchemaIdentity := mkSchemaIdentity { schema_reference : DeclarationReference }.
#[export] Instance SourceSchemaIdentity_eq_dec : EqDecision SourceSchemaIdentity.
Proof. solve_decision. Defined.
#[export] Instance wf_schema_identity : Wf SourceSchemaIdentity := λ s, wf (schema_reference s).
Definition schema_identity_new (value : rstring) : result ModelError SourceSchemaIdentity :=
  let! r := reference_new value in Ok (mkSchemaIdentity r).

Record SourceSchemaVersion := mkSchemaVersion { schema_version_get : Z }.
#[export] Instance SourceSchemaVersion_eq_dec : EqDecision SourceSchemaVersion.
Proof. solve_decision. Defined.
#[export] Instance wf_schema_version : Wf SourceSchemaVersion := λ v, in_range 1 u128_max (schema_version_get v).
Definition schema_version_new (value : Z) : result ModelError SourceSchemaVersion :=
  if decide (value = 0) then Err InvalidSourceSchemaVersion else Ok (mkSchemaVersion value).

Inductive SourceIntervalKind : Set := SourceObserved | SourceNoChange.
#[export] Instance SourceIntervalKind_eq_dec : EqDecision SourceIntervalKind.
Proof. solve_decision. Defined.

Record SourceBatchMetadata := mkBatch {
  batch_schema : SourceSchemaIdentity;
  batch_version : SourceSchemaVersion;
  batch_interval : SourceIntervalKind }.
#[export] Instance SourceBatchMetadata_eq_dec : EqDecision SourceBatchMetadata.
Proof. solve_decision. Defined.
#[export] Instance wf_batch : Wf SourceBatchMetadata := λ b, wf (batch_schema b) && wf (batch_version b).

(** ** The capture lifecycle *)

Record SourceSystemEvidence := mkSystem {
  system_evidence_id : EvidenceId;
  system_provider : DeclarationReference;
  system_projection : SourceProjection }.
#[export] Instance SourceSystemEvidence_eq_dec : EqDecision SourceSystemEvidence.
Proof. solve_decision. Defined.
#[export] Instance wf_system : Wf SourceSystemEvidence := λ s,
  wf (system_evidence_id s) && wf (system_provider s) && wf (system_projection s).

Record SourceEndpointEvidence := mkEndpoint {
  endpoint_evidence_id : EvidenceId;
  endpoint_system_id : EvidenceId;
  endpoint_locator : DeclarationReference }.
#[export] Instance SourceEndpointEvidence_eq_dec : EqDecision SourceEndpointEvidence.
Proof. solve_decision. Defined.
#[export] Instance wf_endpoint : Wf SourceEndpointEvidence := λ e,
  wf (endpoint_evidence_id e) && wf (endpoint_system_id e) && wf (endpoint_locator e).

Record CaptureRunEvidence := mkRun {
  run_evidence_id : EvidenceId;
  run_endpoint_id : EvidenceId;
  run_started_at : Timestamp;
  run_completed_at : option Timestamp }.
#[export] Instance CaptureRunEvidence_eq_dec : EqDecision CaptureRunEvidence.
Proof. solve_decision. Defined.

Definition capture_run_new (evidence_id endpoint_id : EvidenceId) (started_at : Timestamp)
    (completed_at : option Timestamp) : result ModelError CaptureRunEvidence :=
  match completed_at with
  | Some completed =>
    if decide (ts_lt completed started_at) then Err CaptureRunTimeOrder
    else Ok (mkRun evidence_id endpoint_id started_at completed_at)
  | None => Ok (mkRun evidence_id endpoint_id started_at completed_at)
  end.
#[export] Instance wf_run : Wf CaptureRunEvidence := λ r,
  wf (run_evidence_id r) && wf (run_endpoint_id r) && wf (run_started_at r) && wf (run_completed_at r) &&
  is_ok (capture_run_new (run_evidence_id r) (run_endpoint_id r) (run_started_at r) (run_completed_at r)).

Record SourceSnapshotEvidence := mkSourceSnapshot {
  snapshot_evidence_id : EvidenceId;
  snapshot_run_id : EvidenceId;
  snapshot_artifact : ArtifactReference }.
#[export] Instance SourceSnapshotEvidence_eq_dec : EqDecision SourceSnapshotEvidence.
Proof. solve_decision. Defined.
#[export] Instance wf_source_snapshot : Wf SourceSnapshotEvidence := λ s,
  wf (snapshot_evidence_id s) && wf (snapshot_run_id s) && wf (snapshot_artifact s).

Record CaptureLifecycle := mkLifecycle {
  lc_system : SourceSystemEvidence;
  lc_endpoint : SourceEndpointEvidence;
  lc_run : CaptureRunEvidence;
  lc_snapshot : SourceSnapshotEvidence }.
#[export] Instance CaptureLifecycle_eq_dec : EqDecision CaptureLifecycle.
Proof. solve_decision. Defined.

Definition capture_lifecycle_new (system : SourceSystemEvidence) (endpoint : SourceEndpointEvidence)
    (run : CaptureRunEvidence) (snapshot : SourceSnapshotEvidence) : result ModelError CaptureLifecycle :=
  if decide (endpoint_system_id endpoint ≠ system_evidence_id system) then Err SourceEndpointSystemMismatch
  else if decide (run_endpoint_id run ≠ endpoint_evidence_id endpoint) then Err CaptureRunEndpointMismatch
  else if decide (snapshot_run_id snapshot ≠ run_evidence_id run) then Err SourceSnapshotRunMismatch
  else Ok (mkLifecycle system endpoint run snapshot).
#[export] Instance wf_lifecycle : Wf CaptureLifecycle := λ l,
  wf (lc_system l) && wf (lc_endpoint l) && wf (lc_run l) && wf (lc_snapshot l) &&
  is_ok (capture_lifecycle_new (lc_system l) (lc_endpoint l) (lc_run l) (lc_snapshot l)).

(** ** Per-observation evidence *)

Record SourceIdempotency := mkIdempotency { idem_key : RetryKey; idem_content : ContentIdentity }.
#[export] Instance SourceIdempotency_eq_dec : EqDecision SourceIdempotency.
Proof. solve_decision. Defined.
#[export] Instance wf_idempotency : Wf SourceIdempotency := λ i, wf (idem_key i) && wf (idem_content i).

Inductive SourceTransport : Set := TransportNew | TransportRedelivered.
#[export] Instance SourceTransport_eq_dec : EqDecision SourceTransport.
Proof. solve_decision. Defined.

Record SourceInterpretation := mkInterpretation {
  interp_source : SourceReference;
  interp_application : option DeclarationReference;
  interp_quantity : QuantityEvidence;
  interp_unit : UnitEvidence }.
#[export] Instance SourceInterpretation_eq_dec : EqDecision SourceInterpretation.
Proof. solve_decision. Defined.
#[export] Instance wf_interpretation : Wf SourceInterpretation := λ i,
  wf (interp_source i) && wf (interp_application i) && wf (interp_quantity i) && wf (interp_unit i).

Record SourceObservationEvidence := mkObsEvidence {
  oe_evidence_id : EvidenceId;
  oe_provenance : option ArtifactReference;
  oe_transport : SourceTransport;
  oe_idempotency : option SourceIdempotency }.
#[export] Instance SourceObservationEvidence_eq_dec : EqDecision SourceObservationEvidence.
Proof. solve_decision. Defined.
#[export] Instance wf_obs_evidence : Wf SourceObservationEvidence := λ o,
  wf (oe_evidence_id o) && wf (oe_provenance o) && wf (oe_idempotency o).

Record RawRecordEvidence := mkRaw {
  raw_evidence_id : EvidenceId;
  raw_snapshot_id : EvidenceId;
  raw_artifact : ArtifactReference;
  raw_idempotency : option SourceIdempotency }.
#[export] Instance RawRecordEvidence_eq_dec : EqDecision RawRecordEvidence.
Proof. solve_decision. Defined.
#[export] Instance wf_raw : Wf RawRecordEvidence := λ r,
  wf (raw_evidence_id r) && wf (raw_snapshot_id r) && wf (raw_artifact r) && wf (raw_idempotency r).

Record NormalizedRecordEvidence := mkNormalized {
  norm_evidence_id : EvidenceId;
  norm_raw_record_id : EvidenceId;
  norm_content : ContentIdentity;
  norm_observation_id : EvidenceId }.
#[export] Instance NormalizedRecordEvidence_eq_dec : EqDecision NormalizedRecordEvidence.
Proof. solve_decision. Defined.
#[export] Instance wf_normalized : Wf NormalizedRecordEvidence := λ n,
  wf (norm_evidence_id n) && wf (norm_raw_record_id n) && wf (norm_content n) && wf (norm_observation_id n).

Record SourceObservationContext := mkContext {
  ctx_ordinal : Z;
  ctx_canonical_id : ObservationId;
  ctx_interpretation : SourceInterpretation;
  ctx_observation : SourceObservationEvidence;
  ctx_raw : RawRecordEvidence;
  ctx_normalized : NormalizedRecordEvidence }.
#[export] Instance SourceObservationContext_eq_dec : EqDecision SourceObservationContext.
Proof. solve_decision. Defined.
#[export] Instance wf_context : Wf SourceObservationContext := λ c,
  is_u8 (ctx_ordinal c) && wf (ctx_canonical_id c) && wf (ctx_interpretation c) &&
  wf (ctx_observation c) && wf (ctx_raw c) && wf (ctx_normalized c).

Record SourceObservationLineage := mkLineage {
  lin_ordinal : Z;
  lin_canonical_id : ObservationId;
  lin_observation : SourceObservationEvidence;
  lin_raw : RawRecordEvidence;
  lin_normalized : NormalizedRecordEvidence }.
#[export] Instance SourceObservationLineage_eq_dec : EqDecision SourceObservationLineage.
Proof. solve_decision. Defined.
#[export] Instance wf_lineage : Wf SourceObservationLineage := λ l,
  is_u8 (lin_ordinal l) && wf (lin_canonical_id l) && wf (lin_observation l) && wf (lin_raw l) &&
  wf (lin_normalized l).

Inductive SourceGapReason : Set :=
| SgCommunicationFailure | SgSourceUnavailable | SgProducerReset | SgFiltered | SgUnknown.
#[export] Instance SourceGapReason_eq_dec : EqDecision SourceGapReason.
Proof. solve_decision. Defined.

Record SourceGapEvidence := mkSourceGap {
  sgap_epoch : ProducerEpoch;
  sgap_start : ProducerSequence;
  sgap_end : ProducerSequence;
  sgap_reason : SourceGapReason }.
#[export] Instance SourceGapEvidence_eq_dec : EqDecision SourceGapEvidence.
Proof. solve_decision. Defined.

Definition source_gap_new (epoch : ProducerEpoch) (start end_ : ProducerSequence) (reason : SourceGapReason)
  : result ModelError SourceGapEvidence :=
  if decide (¬ number_lt start end_) then Err EmptyGap else Ok (mkSourceGap epoch start end_ reason).
#[export] Instance wf_source_gap : Wf SourceGapEvidence := λ g,
  wf (sgap_epoch g) && wf (sgap_start g) && wf (sgap_end g) &&
  is_ok (source_gap_new (sgap_epoch g) (sgap_start g) (sgap_end g) (sgap_reason g)).

(** ** Canonical admission *)

Inductive AdmissionEvidence :=
| AdmObserved (observations : list SourceObservationLineage) (gaps : list SourceGapEvidence)
| AdmNoChange.
#[export] Instance AdmissionEvidence_eq_dec : EqDecision AdmissionEvidence.
Proof. solve_decision. Defined.

Record CanonicalAdmission := mkAdmission {
  adm_store_id : StoreId;
  adm_declaration : SeriesDeclaration;
  adm_envelope : CollectionEnvelope;
  adm_retry : RetryQualification;
  adm_batch : SourceBatchMetadata;
  adm_lifecycle : CaptureLifecycle;
  adm_evidence : AdmissionEvidence }.
#[export] Instance CanonicalAdmission_eq_dec : EqDecision CanonicalAdmission.
Proof. solve_decision. Defined.

Definition adm_evidence_kind (a : CanonicalAdmission) : SourceIntervalKind :=
  match adm_evidence a with AdmObserved _ _ => SourceObserved | AdmNoChange => SourceNoChange end.
Definition adm_observations (a : CanonicalAdmission) : list SourceObservationLineage :=
  match adm_evidence a with AdmObserved os _ => os | AdmNoChange => [] end.
Definition adm_gaps (a : CanonicalAdmission) : list SourceGapEvidence :=
  match adm_evidence a with AdmObserved _ gs => gs | AdmNoChange => [] end.

Definition interval_kind (k : EvidenceKind) : SourceIntervalKind :=
  match k with KObserved => SourceObserved | KNoChange => SourceNoChange end.

Definition validate_common (declared : DeclaredCollectionEnvelope) (retry : RetryQualification)
    (batch : SourceBatchMetadata) (lifecycle : CaptureLifecycle) (expected_interval : SourceIntervalKind)
  : result ModelError () :=
  let declaration := declared_declaration declared in
  let envelope := declared_envelope declared in
  if decide (retry_series_id retry ≠ meta_series_id (env_series envelope) ∨
             retry_producer_id retry ≠ meta_producer_id (env_series envelope))
  then Err AdmissionRetryScopeMismatch
  else
    let envelope_interval := interval_kind (evidence_kind envelope) in
    if decide (batch_interval batch ≠ expected_interval ∨ envelope_interval ≠ expected_interval)
    then Err SourceIntervalMismatch
    else
      let source := binding_source (decl_binding declaration) in
      let! projection := ok_or (projection source) SourceProjectionRequired in
      if decide (system_provider (lc_system lifecycle) ≠ provider source ∨
                 system_projection (lc_system lifecycle) ≠ projection ∨
                 endpoint_locator (lc_endpoint lifecycle) ≠ locator source)
      then Err SourceLifecycleBindingMismatch
      else Ok tt.

(** [for evidence_id in [...] { if !identities.insert(evidence_id) {...} }]. *)
Fixpoint insert_evidence_ids (ids : list EvidenceId) (identities : gset EvidenceId)
  : result ModelError (gset EvidenceId) :=
  match ids with
  | [] => Ok identities
  | i :: ids =>
    if decide (i ∈ identities) then Err DuplicateSourceEvidenceId
    else insert_evidence_ids ids ({[i]} ∪ identities)
  end.

Definition lifecycle_ids (l : CaptureLifecycle) : list EvidenceId :=
  [system_evidence_id (lc_system l); endpoint_evidence_id (lc_endpoint l);
   run_evidence_id (lc_run l); snapshot_evidence_id (lc_snapshot l)].
Definition lifecycle_evidence_ids (l : CaptureLifecycle) : result ModelError (gset EvidenceId) :=
  insert_evidence_ids (lifecycle_ids l) ∅.

Definition context_ids (c : SourceObservationContext) : list EvidenceId :=
  [oe_evidence_id (ctx_observation c); raw_evidence_id (ctx_raw c); norm_evidence_id (ctx_normalized c)].

(** [observations.iter().zip(canonical_observations)]. *)
Fixpoint validate_observations (declaration : SeriesDeclaration) (lifecycle : CaptureLifecycle)
    (canonical_observations : list Observation) (contexts : list SourceObservationContext)
    (previous_ordinal : option Z) (evidence_ids : gset EvidenceId) : result ModelError () :=
  match contexts, canonical_observations with
  | context :: contexts, canonical :: canonical_observations =>
    let payload := decl_payload declaration in
    let interpretation := ctx_interpretation context in
    if decide (ctx_canonical_id context ≠ observation_id canonical)
    then Err SourceObservationAssociationMismatch
    else if is_some_and (λ previous, bool_decide (previous >= ctx_ordinal context)) previous_ordinal
    then Err MisorderedSourceRecordOrdinals
    else if decide (interp_source interpretation ≠ binding_source (decl_binding declaration) ∨
                    interp_application interpretation ≠ payload_application payload ∨
                    interp_quantity interpretation ≠ payload_quantity payload ∨
                    interp_unit interpretation ≠ payload_unit payload)
    then Err SourceInterpretationMismatch
    else
      let! evidence_ids := insert_evidence_ids (context_ids context) evidence_ids in
      if decide (raw_snapshot_id (ctx_raw context) ≠ snapshot_evidence_id (lc_snapshot lifecycle))
      then Err SourceRawSnapshotMismatch
      else if decide (norm_raw_record_id (ctx_normalized context) ≠ raw_evidence_id (ctx_raw context))
      then Err SourceNormalizedRawMismatch
      else if decide (norm_observation_id (ctx_normalized context) ≠ oe_evidence_id (ctx_observation context))
      then Err SourceNormalizedObservationMismatch
      else if is_some_and (λ idempotency, bool_decide (idem_content idempotency ≠
                artifact_content (raw_artifact (ctx_raw context)))) (raw_idempotency (ctx_raw context))
      then Err SourceRawIdempotencyMismatch
      else validate_observations declaration lifecycle canonical_observations contexts
             (Some (ctx_ordinal context)) evidence_ids
  | _, _ => Ok tt
  end.

Definition gap_matches (canonical : Gap) (source : SourceGapEvidence) : Prop :=
  gap_epoch canonical = sgap_epoch source ∧ gap_start canonical = sgap_start source ∧
  gap_end canonical = sgap_end source.
#[export] Instance gap_matches_dec : RelDecision gap_matches.
Proof. intros a b. unfold gap_matches. apply _. Defined.

Definition validate_gaps (envelope : CollectionEnvelope) (gs : list SourceGapEvidence)
  : result ModelError () :=
  if existsb (λ '(canonical, source), bool_decide (¬ gap_matches canonical source)) (zip (gaps envelope) gs)
  then Err SourceGapMismatch else Ok tt.

Definition retain (c : SourceObservationContext) : SourceObservationLineage :=
  mkLineage (ctx_ordinal c) (ctx_canonical_id c) (ctx_observation c) (ctx_raw c) (ctx_normalized c).

(** [CanonicalAdmission::observed] and [CanonicalAdmission::no_change]. *)
Definition admission_observed (declared : DeclaredCollectionEnvelope) (retry : RetryQualification)
    (batch : SourceBatchMetadata) (lifecycle : CaptureLifecycle)
    (contexts : list SourceObservationContext) (gs : list SourceGapEvidence)
  : result ModelError CanonicalAdmission :=
  let! _ := validate_common declared retry batch lifecycle SourceObserved in
  let envelope := declared_envelope declared in
  if decide (len contexts > MAX_SOURCE_OBSERVATION_CONTEXTS) then Err TooManySourceObservationContexts
  else if decide (len contexts ≠ len (observations envelope)) then Err SourceObservationCountMismatch
  else if decide (len gs > MAX_SOURCE_GAP_CONTEXTS) then Err TooManySourceGapContexts
  else if decide (len gs ≠ len (gaps envelope)) then Err SourceGapCountMismatch
  else
    let! evidence_ids := lifecycle_evidence_ids lifecycle in
    let! _ := validate_observations (declared_declaration declared) lifecycle (observations envelope)
                contexts None evidence_ids in
    let! _ := validate_gaps envelope gs in
    Ok (mkAdmission (declared_store_id declared) (declared_declaration declared) envelope retry batch
          lifecycle (AdmObserved (compact_vec (retain <$> contexts)) (compact_vec gs))).

Definition admission_no_change (declared : DeclaredCollectionEnvelope) (retry : RetryQualification)
    (batch : SourceBatchMetadata) (lifecycle : CaptureLifecycle) : result ModelError CanonicalAdmission :=
  let! _ := validate_common declared retry batch lifecycle SourceNoChange in
  let! _ := lifecycle_evidence_ids lifecycle in
  Ok (mkAdmission (declared_store_id declared) (declared_declaration declared)
        (declared_envelope declared) retry batch lifecycle AdmNoChange).

(** ** The declarative admission contract *)

Definition source_of (l : CaptureLifecycle) : SourceReference :=
  mkSource (system_provider (lc_system l)) (Some (system_projection (lc_system l)))
    (endpoint_locator (lc_endpoint l)).
Definition interpretation_of (d : SeriesDeclaration) : SourceInterpretation :=
  mkInterpretation (binding_source (decl_binding d)) (payload_application (decl_payload d))
    (payload_quantity (decl_payload d)) (payload_unit (decl_payload d)).

(** What any admission needs: retry scope and interval kind agree with the
    envelope, and the capture lifecycle names the declared source. *)
Record common_contract (declared : DeclaredCollectionEnvelope) (retry : RetryQualification)
    (batch : SourceBatchMetadata) (lifecycle : CaptureLifecycle) (kind : SourceIntervalKind) : Prop := {
  cc_scope :
    retry_series_id retry = meta_series_id (env_series (declared_envelope declared)) ∧
    retry_producer_id retry = meta_producer_id (env_series (declared_envelope declared));
  cc_interval :
    batch_interval batch = kind ∧ interval_kind (evidence_kind (declared_envelope declared)) = kind;
  cc_source :
    binding_source (decl_binding (declared_declaration declared)) = source_of lifecycle }.

(** One chain from snapshot to raw record to normalized record to observation. *)
Definition chained (l : CaptureLifecycle) (c : SourceObservationContext) : Prop :=
  raw_snapshot_id (ctx_raw c) = snapshot_evidence_id (lc_snapshot l) ∧
  norm_raw_record_id (ctx_normalized c) = raw_evidence_id (ctx_raw c) ∧
  norm_observation_id (ctx_normalized c) = oe_evidence_id (ctx_observation c) ∧
  ∀ i, raw_idempotency (ctx_raw c) = Some i → idem_content i = artifact_content (raw_artifact (ctx_raw c)).

Record admission_contract (declared : DeclaredCollectionEnvelope) (lifecycle : CaptureLifecycle)
    (contexts : list SourceObservationContext) (gs : list SourceGapEvidence) : Prop := {
  ac_bounds : len contexts ≤ MAX_SOURCE_OBSERVATION_CONTEXTS ∧ len gs ≤ MAX_SOURCE_GAP_CONTEXTS;
  ac_associated : ctx_canonical_id <$> contexts = observation_id <$> observations (declared_envelope declared);
  ac_ordinals : StronglySorted Z.lt (ctx_ordinal <$> contexts);
  ac_interpreted : Forall (λ c, ctx_interpretation c = interpretation_of (declared_declaration declared)) contexts;
  ac_distinct : NoDup (lifecycle_ids lifecycle ++ concat (context_ids <$> contexts));
  ac_chained : Forall (chained lifecycle) contexts;
  ac_gaps : Forall2 gap_matches (gaps (declared_envelope declared)) gs }.

(** ** Lemmas *)

Lemma insert_evidence_ids_Ok l s s' :
  insert_evidence_ids l s = Ok s' ↔
  NoDup l ∧ (∀ i, i ∈ l → i ∉ s) ∧ s' = list_to_set l ∪ s.
Proof.
  revert s. induction l as [|i l IH]; intros s; cbn [insert_evidence_ids list_to_set].
  - split; [intros [= <-]|intros (_ & _ & ->)].
    + split_and!; [constructor|set_solver|set_solver].
    + f_equal. set_solver.
  - rewrite NoDup_cons. case_decide as Hi.
    + split; [done|]. intros (_ & Hn & _). by destruct (Hn i); [left|].
    + rewrite IH. split.
      * intros (? & Hn & ->). split_and!; [|done| |set_solver].
        -- intros Hil. specialize (Hn i Hil). set_solver.
        -- intros j [->|Hj]%elem_of_cons; [done|]. specialize (Hn j Hj). set_solver.
      * intros ([Hil ?] & Hn & ->). split_and!; [done| |set_solver].
        intros j Hj. specialize (Hn j ltac:(by right)). assert (j ≠ i) by (by intros ->). set_solver.
Qed.

Lemma validate_common_Ok declared retry batch lifecycle kind :
  validate_common declared retry batch lifecycle kind = Ok tt ↔
  common_contract declared retry batch lifecycle kind.
Proof.
  unfold validate_common, ok_or. split.
  - case_decide as Hs; [done|]. case_decide as Hk; [done|].
    destruct (projection _) as [p|] eqn:Ep; [|done]. case_decide as Hb; [done|]. intros _.
    split; [split; not_refused|split; not_refused|]. unfold source_of.
    assert (system_provider (lc_system lifecycle) = provider (binding_source (decl_binding (declared_declaration declared)))) as ->
      by not_refused.
    assert (system_projection (lc_system lifecycle) = p) as -> by not_refused.
    assert (endpoint_locator (lc_endpoint lifecycle) = locator (binding_source (decl_binding (declared_declaration declared)))) as ->
      by not_refused.
    rewrite <-Ep. by destruct (binding_source _).
  - intros [[Hs1 Hs2] [Hk1 Hk2] Hb]. rewrite decide_False by tauto. rewrite decide_False by tauto.
    rewrite Hb. cbn. rewrite decide_False; [done|]. tauto.
Qed.

Lemma validate_gaps_Ok e gs :
  len gs = len (gaps e) → validate_gaps e gs = Ok tt ↔ Forall2 gap_matches (gaps e) gs.
Proof.
  unfold validate_gaps, len. intros Hl%Nat2Z.inj.
  assert (existsb (λ '(canonical, source), bool_decide (¬ gap_matches canonical source)) (zip (gaps e) gs) = false
    ↔ Forall2 gap_matches (gaps e) gs) as H; [|destruct (existsb _ _); naive_solver].
  revert Hl. generalize (gaps e) as cs. clear. induction gs as [|g gs IH]; intros [|c cs] Hl; try discriminate Hl.
  - split; [constructor|done].
  - cbn. rewrite orb_false_iff, Forall2_cons, IH, bool_decide_eq_false by (by injection Hl).
    split; intros [? ?]; (split; [|done]); [by apply dec_stable|tauto].
Qed.

Lemma validate_observations_cons d l o os c cs prev ids :
  validate_observations d l (o :: os) (c :: cs) prev ids = Ok tt ↔
  ctx_canonical_id c = observation_id o ∧ (∀ p, prev = Some p → p < ctx_ordinal c) ∧
  ctx_interpretation c = interpretation_of d ∧
  NoDup (context_ids c) ∧ (∀ i, i ∈ context_ids c → i ∉ ids) ∧ chained l c ∧
  validate_observations d l os cs (Some (ctx_ordinal c)) (list_to_set (context_ids c) ∪ ids) = Ok tt.
Proof.
  cbn [validate_observations]. unfold chained, interpretation_of.
  case_decide as H1; [naive_solver|].
  destruct (is_some_and _ prev) eqn:H2.
  { split; [done|]. intros (_ & Hp & _). destruct prev as [p|]; [|done]. specialize (Hp p eq_refl).
    apply bool_decide_eq_true in H2. lia. }
  rewrite is_some_and_false in H2.
  assert (∀ p, prev = Some p → p < ctx_ordinal c) as H2'.
  { intros p Hp. specialize (H2 p Hp). apply bool_decide_eq_false in H2. lia. }
  case_decide as H3.
  { split; [done|]. intros (_ & _ & E & _). rewrite E in H3. cbn in H3. tauto. }
  assert (ctx_interpretation c = mkInterpretation (binding_source (decl_binding d))
    (payload_application (decl_payload d)) (payload_quantity (decl_payload d)) (payload_unit (decl_payload d))) as H3'.
  { destruct (ctx_interpretation c) as [a b q u]. cbn in H3. f_equal; not_refused. }
  destruct (insert_evidence_ids (context_ids c) ids) as [ids'|e] eqn:H4.
  - apply insert_evidence_ids_Ok in H4 as (? & ? & ->).
    repeat case_decide; try naive_solver.
    destruct (is_some_and _ (raw_idempotency (ctx_raw c))) eqn:Hidem.
    + split; [done|]. intros (_&_&_&_&_&(_&_&_&Hi)&_).
      destruct (raw_idempotency (ctx_raw c)) as [i|]; [|done]. cbn in Hidem.
      apply bool_decide_eq_true in Hidem. by destruct Hidem; apply Hi.
    + rewrite is_some_and_false in Hidem.
      assert (∀ i, raw_idempotency (ctx_raw c) = Some i → idem_content i = artifact_content (raw_artifact (ctx_raw c))).
      { intros i Hi. specialize (Hidem i Hi). apply bool_decide_eq_false in Hidem. by apply dec_stable. }
      split; [intros Hr; split_and!; done|tauto].
  - split; [done|]. intros (_&_&_&?&?&_).
    assert (insert_evidence_ids (context_ids c) ids = Ok (list_to_set (context_ids c) ∪ ids)) as E
      by (by apply insert_evidence_ids_Ok). congruence.
Qed.

Lemma validate_observations_Ok d l os cs prev ids :
  length cs = length os →
  validate_observations d l os cs prev ids = Ok tt ↔
  ctx_canonical_id <$> cs = observation_id <$> os ∧
  (∀ p, prev = Some p → HdRel Z.lt p (ctx_ordinal <$> cs)) ∧ Sorted Z.lt (ctx_ordinal <$> cs) ∧
  Forall (λ c, ctx_interpretation c = interpretation_of d) cs ∧
  NoDup (concat (context_ids <$> cs)) ∧ (∀ i, i ∈ concat (context_ids <$> cs) → i ∉ ids) ∧
  Forall (chained l) cs.
Proof.
  revert os prev ids. induction cs as [|c cs IH]; intros [|o os] prev ids Hl; try discriminate Hl.
  - cbn. split; [|done]. intros _. split_and!; try done; try by constructor. set_solver.
  - rewrite validate_observations_cons, IH by (by injection Hl). rewrite !fmap_cons. cbn [concat].
    rewrite NoDup_app, !Forall_cons. setoid_rewrite elem_of_app. split.
    + intros (E & Hp & Ei & Hn & Hd & Hc & Es & Hs & Hs' & Hi & Hn' & Hd' & Hc').
      split_and!; try done.
      * by rewrite E, Es.
      * intros p Hp'. constructor. by apply Hp.
      * constructor; [done|]. by apply Hs.
      * intros x Hx Hx'. specialize (Hd' x Hx'). set_solver.
      * intros i [Hi'|Hi']; [by apply Hd|]. specialize (Hd' i Hi'). set_solver.
    + intros ([= E Es] & Hp & Hs & [Ei Hi] & (Hn & Hx & Hn') & Hd & [Hc Hc']).
      apply Sorted_inv in Hs as [Hs Hh]. split_and!; try done.
      * intros p Hp'. specialize (Hp p Hp'). by inversion Hp.
      * intros i Hi'. apply Hd. by left.
      * by intros p [= <-].
      * intros i Hi'. specialize (Hd i ltac:(by right)). specialize (Hx i).
        rewrite not_elem_of_union, elem_of_list_to_set. tauto.
Qed.

Lemma lifecycle_and_context_ids l cs :
  NoDup (lifecycle_ids l ++ concat (context_ids <$> cs)) ↔
  ∃ s, lifecycle_evidence_ids l = Ok s ∧ NoDup (concat (context_ids <$> cs)) ∧
    ∀ i, i ∈ concat (context_ids <$> cs) → i ∉ s.
Proof.
  unfold lifecycle_evidence_ids. rewrite NoDup_app. split.
  - intros (Hl & Hx & Hn). exists (list_to_set (lifecycle_ids l) ∪ ∅).
    split; [by apply insert_evidence_ids_Ok; split_and!; [|set_solver|]|]. split; [done|].
    intros i Hi. rewrite not_elem_of_union, elem_of_list_to_set. split; [|set_solver].
    intros Hi'. by apply (Hx i).
  - intros (s & (Hl & _ & ->)%insert_evidence_ids_Ok & Hn & Hx). split_and!; [done| |done].
    intros i Hi Hi'. specialize (Hx i Hi'). rewrite not_elem_of_union, elem_of_list_to_set in Hx. tauto.
Qed.

Lemma Sorted_Z_lt l : Sorted Z.lt l ↔ StronglySorted Z.lt l.
Proof. split; [apply Sorted_StronglySorted; intros x y z; lia|apply StronglySorted_Sorted]. Qed.

(** Two lists of equal length are associated position by position. *)
Lemma associated_length cs os :
  ctx_canonical_id <$> cs = observation_id <$> os → length cs = length os.
Proof. intros H%(f_equal length). by rewrite !length_fmap in H. Qed.

(** The checks of [observed] after the common ones. *)
Lemma observed_checks_Ok declared l cs gs (a : CanonicalAdmission) :
  ((if decide (len cs > MAX_SOURCE_OBSERVATION_CONTEXTS) then Err TooManySourceObservationContexts
    else if decide (len cs ≠ len (observations (declared_envelope declared))) then Err SourceObservationCountMismatch
    else if decide (len gs > MAX_SOURCE_GAP_CONTEXTS) then Err TooManySourceGapContexts
    else if decide (len gs ≠ len (gaps (declared_envelope declared))) then Err SourceGapCountMismatch
    else
      let! ids := lifecycle_evidence_ids l in
      let! _ := validate_observations (declared_declaration declared) l
                  (observations (declared_envelope declared)) cs None ids in
      let! _ := validate_gaps (declared_envelope declared) gs in Ok a) = Ok a) ↔
  admission_contract declared l cs gs.
Proof.
  assert (∀ o : option Z, o = None → ∀ p, o = Some p → HdRel Z.lt p (ctx_ordinal <$> cs)) as Hnone
    by naive_solver.
  split.
  - repeat (case_decide; [done|]). intros Hr.
    destruct (lifecycle_evidence_ids l) as [ids|] eqn:El; [|done].
    rewrite !let_ok_iff, validate_gaps_Ok, validate_observations_Ok in Hr
      by (unfold len in *; lia).
    destruct Hr as ((? & _ & Hs & ? & ? & ? & ?) & ? & _).
    split; try done; [by apply Sorted_Z_lt|]. apply lifecycle_and_context_ids. by exists ids.
  - intros [[Hb Hb'] Ha Ho Hi Hd Hc Hg].
    pose proof (associated_length _ _ Ha) as Hl. pose proof (Forall2_length _ _ _ Hg) as Hl'.
    apply lifecycle_and_context_ids in Hd as (ids & -> & Hn & Hx).
    rewrite !decide_False by (unfold len in *; lia).
    rewrite !let_ok_iff, validate_gaps_Ok, validate_observations_Ok by (unfold len in *; lia).
    rewrite Sorted_Z_lt. split_and!; try done.
Qed.

(** What an accepted admission is, and what it was checked for. *)
Lemma admission_observed_inv declared retry batch lifecycle contexts gs a :
  admission_observed declared retry batch lifecycle contexts gs = Ok a →
  a = mkAdmission (declared_store_id declared) (declared_declaration declared) (declared_envelope declared)
        retry batch lifecycle (AdmObserved (retain <$> contexts) gs) ∧
  common_contract declared retry batch lifecycle SourceObserved ∧
  admission_contract declared lifecycle contexts gs.
Proof.
  unfold admission_observed. rewrite let_ok_iff, validate_common_Ok. unfold compact_vec. cbv zeta.
  set (b := mkAdmission _ _ _ _ _ _ _). intros [Hc H].
  assert (a = b) as ->; [|by split_and!; [| |apply (observed_checks_Ok _ _ _ _ b)]].
  revert H. repeat (case_decide; [done|]). destruct (lifecycle_evidence_ids lifecycle); [|done].
  rewrite !let_ok_iff. naive_solver.
Qed.

Lemma admission_no_change_inv declared retry batch lifecycle a :
  admission_no_change declared retry batch lifecycle = Ok a →
  a = mkAdmission (declared_store_id declared) (declared_declaration declared) (declared_envelope declared)
        retry batch lifecycle AdmNoChange ∧
  common_contract declared retry batch lifecycle SourceNoChange ∧ NoDup (lifecycle_ids lifecycle).
Proof.
  unfold admission_no_change. rewrite let_ok_iff, validate_common_Ok. unfold lifecycle_evidence_ids.
  intros [Hc H]. destruct (insert_evidence_ids _ _) as [s|] eqn:E; [|done].
  apply insert_evidence_ids_Ok in E as [? _]. by injection H as <-.
Qed.

(** ** Concrete admissions *)

Definition sample_key : RetryKey := mkRetryKey [x6b].
Definition sample_content (n : Z) : ContentIdentity :=
  mkContentIdentity (mkContentFormat [x6a]) (mkContentVersion n) (be_bytes 32 n).
Definition sample_artifact (n : Z) : ArtifactReference := mkArtifactReference (sample_id n) (sample_content n).
Definition sample_retry : RetryQualification := mkRetry (sample_id 1) (sample_id 2) sample_key (sample_content 9).
Definition sample_batch (kind : SourceIntervalKind) : SourceBatchMetadata :=
  mkBatch (mkSchemaIdentity (sample_reference [x73])) (mkSchemaVersion 1) kind.
Definition sample_lifecycle : CaptureLifecycle :=
  mkLifecycle
    (mkSystem (sample_id 20) (sample_reference [x70]) (mkProjection (sample_reference [x61])))
    (mkEndpoint (sample_id 21) (sample_id 20) (sample_reference [x6c]))
    (mkRun (sample_id 22) (sample_id 21) (mkTimestamp 5 0) (Some (mkTimestamp 6 0)))
    (mkSourceSnapshot (sample_id 23) (sample_id 22) (sample_artifact 30)).
Definition sample_declared : DeclaredCollectionEnvelope :=
  mkDeclared (sample_id 0)
    (mkDeclaration (sample_id 0) (sample_id 1) (mkRevision 2) (Some FIRST) sample_binding
      (sample_payload FBoolean) (sample_decl_evidence 2)) sample_envelope.
Definition sample_context : SourceObservationContext :=
  mkContext 0 (sample_id 7) (interpretation_of (declared_declaration sample_declared))
    (mkObsEvidence (sample_id 24) None TransportNew None)
    (mkRaw (sample_id 25) (sample_id 23) (sample_artifact 31) None)
    (mkNormalized (sample_id 26) (sample_id 25) (sample_content 8) (sample_id 24)).
Definition sample_admission : CanonicalAdmission :=
  mkAdmission (sample_id 0) (declared_declaration sample_declared) sample_envelope sample_retry
    (sample_batch SourceObserved) sample_lifecycle (AdmObserved [retain sample_context] []).

(** ** Properties *)

(** C23: Canonical admission is exact: [CanonicalAdmission::observed] succeeds
    exactly when the retry scope, interval kind and capture lifecycle agree with
    the binding and the per-observation evidence meets the declarative contract
    (bounds, association in order, increasing ordinals, the declared
    interpretation, pairwise distinct evidence identities, unbroken raw to
    normalized to observation chains, matching gaps); it then keeps the binding,
    envelope and lineage unchanged. *)
Theorem admission_observed_exact declared retry batch lifecycle contexts gs a :
  admission_observed declared retry batch lifecycle contexts gs = Ok a ↔
  a = mkAdmission (declared_store_id declared) (declared_declaration declared) (declared_envelope declared)
        retry batch lifecycle (AdmObserved (retain <$> contexts) gs) ∧
  common_contract declared retry batch lifecycle SourceObserved ∧
  admission_contract declared lifecycle contexts gs.
Proof.
  split; [apply admission_observed_inv|]. intros (-> & ? & ?).
  unfold admission_observed. rewrite let_ok_iff, validate_common_Ok. unfold compact_vec. cbv zeta.
  split; [done|]. by apply observed_checks_Ok.
Qed.

(** No-change admission is exact as well: it succeeds exactly when the common
    agreement holds for a no-change interval and the four lifecycle evidence
    identities are pairwise distinct. *)
Theorem admission_no_change_exact declared retry batch lifecycle a :
  admission_no_change declared retry batch lifecycle = Ok a ↔
  a = mkAdmission (declared_store_id declared) (declared_declaration declared) (declared_envelope declared)
        retry batch lifecycle AdmNoChange ∧
  common_contract declared retry batch lifecycle SourceNoChange ∧ NoDup (lifecycle_ids lifecycle).
Proof.
  split; [apply admission_no_change_inv|]. intros (-> & Hc & Hn).
  unfold admission_no_change. rewrite let_ok_iff, validate_common_Ok. split; [done|]. unfold lifecycle_evidence_ids.
  assert (insert_evidence_ids (lifecycle_ids lifecycle) ∅ = Ok (list_to_set (lifecycle_ids lifecycle) ∪ ∅)) as ->;
    [|done]. apply insert_evidence_ids_Ok. split_and!; [done|set_solver|done].
Qed.

Example sample_admission_accepted :
  admission_observed sample_declared sample_retry (sample_batch SourceObserved) sample_lifecycle
    [sample_context] [] = Ok sample_admission.
Proof. by vm_compute. Qed.
