(* ===== verification/Layout.v ===== *)
(** * Fixed layouts of byte buffers

    The buffer idioms of [och-store/src/codec.rs], [generation.rs], [retry.rs]
    and [recovery.rs]: reading [bytes[a..b]], overwriting a range with
    [copy_from_slice], and filling a zeroed buffer field by field. *)

From S2P Require Import Prelude Bytes.

(** ** Slices *)

(** [bytes[start..end]], within bounds at every use below. *)
Definition slice (start end_ : Z) (bytes : list byte) : list byte :=
  take (Z.to_nat (end_ - start)) (drop (Z.to_nat start) bytes).
(** [bytes[start..start + data.len()].copy_from_slice(data)]. *)
Definition copy_at (start : Z) (data bytes : list byte) : list byte :=
  take (Z.to_nat start) bytes ++ data ++ drop (Z.to_nat (start + len data)) bytes.

(** ** Lemmas: slices of a layout *)

Lemma slice_app a b pre mid post :
  len pre = a → len mid = b - a → slice a b (pre ++ mid ++ post) = mid.
Proof.
  intros <- Hm. unfold slice. rewrite <-Hm. unfold len. rewrite !Nat2Z.id, drop_app_length.
  apply take_app_length.
Qed.

Lemma slice_app_0 n mid post : len mid = n → slice 0 n (mid ++ post) = mid.
Proof. intros H. by apply (slice_app 0 n []); [|lia]. Qed.

Lemma slice_app_end a b pre mid : len pre = a → len mid = b - a → slice a b (pre ++ mid) = mid.
Proof. intros. rewrite <-(app_nil_r mid) at 1. by apply slice_app. Qed.

Lemma copy_at_app a data pre old post :
  len pre = a → len old = len data → copy_at a data (pre ++ old ++ post) = pre ++ data ++ post.
Proof.
  intros <- Ho. unfold copy_at. rewrite <-Ho, <-len_app. unfold len. rewrite !Nat2Z.id, take_app_length.
  do 2 f_equal. by rewrite app_assoc, drop_app_length.
Qed.

Lemma copy_at_app_0 data old post : len old = len data → copy_at 0 data (old ++ post) = data ++ post.
Proof. by apply (copy_at_app 0 data []). Qed.

Lemma split_at n (l : list byte) : 0 ≤ n ≤ len l → ∃ a b, l = a ++ b ∧ len a = n.
Proof.
  intros Hn. exists (take (Z.to_nat n) l), (drop (Z.to_nat n) l).
  rewrite take_drop. split; [done|]. unfold len in *. rewrite length_take. lia.
Qed.

Lemma len_zeros n : len (zeros n) = Z.of_nat n.
Proof. unfold zeros, len. by rewrite length_replicate. Qed.

Lemma from_be_eq n l v : len l = Z.of_nat n → from_be l = v → l = be_bytes n v.
Proof. intros Hl <-. symmetry. apply be_bytes_from_be'. unfold len in Hl. lia. Qed.

Lemma app_inj_len (a b c d : list byte) : a ++ b = c ++ d → len b = len d → a = c ∧ b = d.
Proof. unfold len. intros E H. apply app_inj_2; [lia|done]. Qed.


(** ** Filling a zeroed buffer in increasing order *)

Lemma zeros_add m n : zeros (m + n) = zeros m ++ zeros n.
Proof. apply replicate_add. Qed.

(** Writing at or after the end of what is written extends it, with the bytes
    skipped left zero. *)
Lemma copy_at_zeros a data pre n :
  len pre ≤ a → a + len data ≤ len pre + n →
  copy_at a data (pre ++ zeros (Z.to_nat n)) =
    (pre ++ zeros (Z.to_nat (a - len pre)) ++ data) ++ zeros (Z.to_nat (len pre + n - a - len data)).
Proof.
  intros Ha Hn. pose proof (len_nonneg pre). pose proof (len_nonneg data).
  replace (Z.to_nat n) with (Z.to_nat (a - len pre) + (length data + Z.to_nat (len pre + n - a - len data)))%nat
    by (unfold len in *; lia).
  rewrite !zeros_add, app_assoc, copy_at_app; [by rewrite <-!app_assoc| |].
  - rewrite len_app, len_zeros. lia.
  - rewrite len_zeros. done.
Qed.

(** ** Reading consecutive ranges *)

Lemma slice_join a b c l : 0 ≤ a ≤ b → b ≤ c → slice a b l ++ slice b c l = slice a c l.
Proof.
  intros Ha Hb. unfold slice.
  replace (Z.to_nat (c - a)) with (Z.to_nat (b - a) + Z.to_nat (c - b))%nat by lia.
  rewrite <-take_take_drop, drop_drop. do 3 f_equal. lia.
Qed.

Lemma slice_all n l : len l = n → slice 0 n l = l.
Proof. intros <-. unfold slice, len. by rewrite drop_0, Z.sub_0_r, Nat2Z.id, firstn_all. Qed.

Lemma len_slice a b l : 0 ≤ a ≤ b → b ≤ len l → len (slice a b l) = b - a.
Proof. intros Ha Hb. unfold slice, len in *. rewrite length_take, length_drop. lia. Qed.

(** [bytes[a..b].iter().any(|byte| *byte != 0)] is false. *)
Definition all_zero (l : list byte) : bool := forallb (λ b, bool_decide (b = x00)) l.
Lemma all_zero_spec l : all_zero l ↔ l = zeros (length l).
Proof.
  unfold all_zero. induction l as [|b l IH]; [done|]. cbn. rewrite andb_True, bool_decide_spec, IH.
  split; [intros [-> E]; cbn; by f_equal|]. intros [= -> E]. by split.
Qed.
Lemma all_zero_zeros n : all_zero (zeros n).
Proof. induction n; [done|]. cbn. rewrite andb_True. by split; [apply bool_decide_spec|]. Qed.

(** A range holding the [n] bytes of a number, and a reserved range. *)
Lemma slice_be a b n v l :
  0 ≤ a → b = a + Z.of_nat n → b ≤ len l → from_be (slice a b l) = v → slice a b l = be_bytes n v.
Proof. intros Ha -> Hl E. apply from_be_eq; [rewrite len_slice; lia|done]. Qed.
Lemma slice_zero a b l : 0 ≤ a ≤ b → b ≤ len l → all_zero (slice a b l) → slice a b l = zeros (Z.to_nat (b - a)).
Proof.
  intros Ha Hl Hz. apply all_zero_spec in Hz. rewrite Hz at 1. f_equal.
  pose proof (len_slice a b l Ha Hl) as Hs. unfold len in Hs. lia.
Qed.

(** The field at a known offset of a concatenation. *)
Definition fields_len (fs : list (list byte)) : Z := len (concat fs).
Lemma slice_field fs k f a b :
  fs !! k = Some f → a = fields_len (take k fs) → b = a + len f → slice a b (concat fs) = f.
Proof.
  intros Hk -> ->. unfold fields_len. pose proof (take_drop_middle fs k f Hk) as E.
  replace (concat fs) with (concat (take k fs ++ f :: drop (S k) fs)) by (by rewrite E).
  rewrite concat_app. cbn [concat]. apply slice_app; [done|lia].
Qed.
Lemma fields_len_nil : fields_len [] = 0.
Proof. done. Qed.
Lemma fields_len_cons f fs : fields_len (f :: fs) = len f + fields_len fs.
Proof. unfold fields_len. cbn [concat]. apply len_app. Qed.

#[export] Hint Rewrite len_be_bytes len_zeros : len.

Lemma copy_at_next a data pre n :
  len pre = a → len data ≤ n →
  copy_at a data (pre ++ zeros (Z.to_nat n)) = (pre ++ data) ++ zeros (Z.to_nat (n - len data)).
Proof.
  intros <- Hn. rewrite copy_at_zeros by lia. rewrite Z.sub_diag. cbn [Z.to_nat zeros replicate app].
  do 2 f_equal. lia.
Qed.

Lemma zeros_split m n : 0 ≤ m → 0 ≤ n → zeros (Z.to_nat (m + n)) = zeros (Z.to_nat m) ++ zeros (Z.to_nat n).
Proof. intros. by rewrite Z2Nat.inj_add, zeros_add. Qed.

(** A range inside one part of a concatenation. *)
Lemma slice_within off a b pre mid post :
  len pre = off → 0 ≤ a ≤ b → b ≤ len mid → slice (off + a) (off + b) (pre ++ mid ++ post) = slice a b mid.
Proof.
  intros <- Ha Hb. unfold slice. replace (len pre + b - (len pre + a)) with (b - a) by lia.
  unfold len in *. rewrite drop_app_ge by lia.
  replace (Z.to_nat (Z.of_nat (length pre) + a) - length pre)%nat with (Z.to_nat a) by lia.
  rewrite drop_app_le by lia. rewrite take_app_le; [done|]. rewrite length_drop. lia.
Qed.

(** [len_solve]: lengths of known layouts. *)
Ltac len_solve := autorewrite with len; lia.
(** One more [copy_at] at the end of what is written. *)
Ltac fill := rewrite copy_at_next by len_solve; rewrite ?len_be_bytes.

Lemma slice_field_at fs k f off a n pre post :
  len pre = off → fs !! k = Some f → a = fields_len (take k fs) → n = len f →
  slice (off + a) (off + a + n) (pre ++ concat fs ++ post) = f.
Proof.
  intros Hp Hk Ha ->. rewrite <-Z.add_assoc. pose proof (len_nonneg (concat (take k fs))).
  assert (len (concat fs) = a + len f + len (concat (drop (S k) fs))) as Hl.
  { pose proof (take_drop_middle fs k f Hk) as E. rewrite <-E at 1. rewrite concat_app, len_app. cbn [concat].
    rewrite len_app. unfold fields_len in Ha. lia. }
  pose proof (len_nonneg f). pose proof (len_nonneg (concat (drop (S k) fs))).
  rewrite slice_within by (unfold fields_len in *; done || lia).
  by eapply slice_field.
Qed.

(** A buffer that ends in [n] trailing bytes. *)
Lemma slice_trailer covered trailer n :
  len trailer = n →
  let bytes := covered ++ trailer in
  slice 0 (len bytes - n) bytes = covered ∧ slice (len bytes - n) (len bytes) bytes = trailer.
Proof.
  intros <- bytes. unfold bytes. rewrite len_app. replace (len covered + len trailer - len trailer) with (len covered) by lia.
  split; [by apply slice_app_0|]. apply slice_app_end; [done|lia].
Qed.
