(* ===== verification/Wire.v ===== *)
(** * The journal wire: encoder, cursor and codecs

    [och-store/src/codec.rs]: the byte-or-count [Encoder], the bounds-checked
    [Cursor], and the [Codec] interface the field codecs implement: encoding
    appends a wire image in either mode, decoding consumes exactly that image
    from any position, and whatever decoding accepts is the wire image of a
    well-formed value. *)

From S2P Require Import Prelude Bytes Identity Bounded.

(** [och-store/src/error.rs]. *)
Inductive JournalV1Error : Set :=
| InvalidHeaderMagic | UnsupportedHeaderVersion | InvalidHeaderLength | InvalidFrameMagic
| UnsupportedFrameVersion | UnsupportedFrameKind | InvalidFrameFlags | InvalidAppendSequence
| NonMonotonicAppendSequence | AppendSequenceOverflow | PayloadTooLarge | Truncated | TrailingBytes
| ChecksumMismatch | UnknownTag | InvalidCount | InvalidLength | InvalidUtf8
| JournalInvalidIdentity | InvalidCanonicalData.
#[export] Instance JournalV1Error_eq_dec : EqDecision JournalV1Error.
Proof. solve_decision. Defined.

(** ** The encoder *)

Inductive EncoderOutput := OutBytes (bytes : list byte) | OutCount (length : Z).
Record Encoder := mkEncoder { output : EncoderOutput }.

Definition encoder_new : Encoder := mkEncoder (OutBytes []).
Definition encoder_counting : Encoder := mkEncoder (OutCount 0).
Definition encoder_len (e : Encoder) : Z :=
  match output e with OutBytes bytes => len bytes | OutCount length => length end.
Definition encoder_finish (e : Encoder) : list byte :=
  match output e with OutBytes bytes => bytes | OutCount _ => [] end.

Definition put_bytes (bytes : list byte) (e : Encoder) : Encoder :=
  mkEncoder match output e with
            | OutBytes out => OutBytes (out ++ bytes)
            | OutCount length => OutCount (saturating_add usize_max length (len bytes))
            end.
Definition put_u8 (value : Z) : Encoder → Encoder := put_bytes (be_bytes 1 value).
Definition put_u32 (value : Z) : Encoder → Encoder := put_bytes (be_bytes 4 value).
Definition put_u64 (value : Z) : Encoder → Encoder := put_bytes (be_bytes 8 value).
Definition put_u128 (value : Z) : Encoder → Encoder := put_bytes (be_bytes 16 value).
(** [i64::to_be_bytes]: two's complement. *)
Definition put_i64 (value : Z) : Encoder → Encoder := put_bytes (be_bytes 8 (value mod 2 ^ 64)).

(** A fallible encoding step; on an error the encoder is dropped by every caller. *)
Abbreviation Put := (Encoder → result JournalV1Error Encoder).
Definition put_ok (f : Encoder → Encoder) : Put := λ e, Ok (f e).
Definition put_then (f g : Put) : Put := λ e, let! e := f e in g e.

Declare Scope encoder_scope.
Delimit Scope encoder_scope with encoder.
Notation "f ;> g" := (put_then f g) (at level 60, right associativity) : encoder_scope.
Open Scope encoder_scope.

Definition put_string (value : rstring) : Put := λ e,
  if decide (len value ≤ u32_max) then Ok (put_bytes value (put_u32 (len value) e)) else Err InvalidLength.
Definition put_count (value : Z) : Put := λ e,
  if decide (value ≤ u32_max) then Ok (put_u32 value e) else Err InvalidCount.
(** [for item in items { encode(encoder, item)?; }]. *)
Fixpoint put_all {A} (put : A → Put) (items : list A) : Put :=
  match items with
  | [] => put_ok id
  | a :: items => put a ;> put_all put items
  end.

(** ** The cursor *)

Record Cursor := mkCursor { cur_bytes : list byte; cur_offset : Z }.
Definition cursor_new (bytes : list byte) : Cursor := mkCursor bytes 0.

(** A decoding step: the value read and the advanced cursor, or a refusal. *)
Abbreviation Decoder A := (Cursor → result JournalV1Error (A * Cursor)).
Definition ret {A} (a : A) : Decoder A := λ c, Ok (a, c).
Definition fail {A} (e : JournalV1Error) : Decoder A := λ _, Err e.
Definition and_then {A B} (d : Decoder A) (k : A → Decoder B) : Decoder B := λ c,
  let! ' (a, c) := d c in k a c.
(** [result.map_err(...)?] in the middle of a decoder. *)
Definition lift {A} (r : result JournalV1Error A) : Decoder A :=
  match r with Ok a => ret a | Err e => fail e end.

Declare Scope decoder_scope.
Delimit Scope decoder_scope with decoder.
Notation "'let*' x ':=' d 'in' k" := (and_then d (λ x, k))
  (at level 10, x name, d at level 100, k at level 200) : decoder_scope.
Open Scope decoder_scope.

Definition take_bytes (length : Z) : Decoder (list byte) := λ c,
  match checked_add usize_max (cur_offset c) length with
  | None => Err InvalidLength
  | Some end_ =>
    if decide (end_ ≤ len (cur_bytes c))
    then Ok (take (Z.to_nat length) (drop (Z.to_nat (cur_offset c)) (cur_bytes c)),
             mkCursor (cur_bytes c) end_)
    else Err Truncated
  end.
(** [Cursor::array::<N>]: [take(N)] and the infallible conversion. *)
Definition get_array (n : Z) : Decoder (list byte) := take_bytes n.
Definition get_u8 : Decoder Z := let* b := get_array 1 in ret (from_be b).
Definition get_u32 : Decoder Z := let* b := get_array 4 in ret (from_be b).
Definition get_u64 : Decoder Z := let* b := get_array 8 in ret (from_be b).
Definition get_u128 : Decoder Z := let* b := get_array 16 in ret (from_be b).
Definition get_i64 : Decoder Z := let* b := get_array 8 in ret (i64_from_be b).

Definition get_string (maximum : Z) : Decoder rstring :=
  let* length := get_u32 in
  if decide (length > maximum) then fail InvalidLength
  else let* bytes := take_bytes length in lift (ok_or (from_utf8 bytes) InvalidUtf8).
Definition get_count (maximum : Z) : Decoder Z :=
  let* count := get_u32 in if decide (count > maximum) then fail InvalidCount else ret count.
Definition get_option : Decoder bool :=
  let* tag := get_u8 in
  match tag with 0 => ret false | 1 => ret true | _ => fail UnknownTag end.
Definition cursor_finish (c : Cursor) : result JournalV1Error () :=
  if decide (cur_offset c = len (cur_bytes c)) then Ok tt else Err TrailingBytes.

(** [for _ in 0..count { items.push(decode(cursor)?); }]. *)
Fixpoint get_times {A} (count : nat) (d : Decoder A) : Decoder (list A) :=
  match count with
  | O => ret []
  | S count => let* a := d in let* l := get_times count d in ret (a :: l)
  end.
(** [let count = cursor.count(maximum)?] followed by that loop. *)
Definition get_list {A} (maximum : Z) (d : Decoder A) : Decoder (list A) :=
  let* count := get_count maximum in get_times (Z.to_nat count) d.
(** [if cursor.option()? { Some(decode(cursor)?) } else { None }]. *)
Definition get_opt {A} (d : Decoder A) : Decoder (option A) :=
  let* present := get_option in
  if present then let* a := d in ret (Some a) else ret None.
Definition put_opt {A} (put : A → Put) (o : option A) : Put :=
  match o with
  | Some a => put_ok (put_u8 1) ;> put a
  | None => put_ok (put_u8 0)
  end.
Definition put_list {A} (put : A → Put) (items : list A) : Put :=
  put_count (len items) ;> put_all put items.

(** ** What encoders and decoders promise *)

(** A counter is a [usize]. *)
Definition encoder_ok (e : Encoder) : Prop :=
  match output e with OutBytes _ => True | OutCount n => n ≤ usize_max end.

(** [put] appends exactly [w], in both modes. *)
Definition writes (put : Put) (w : list byte) : Prop := ∀ e, encoder_ok e → put e = Ok (put_bytes w e).

(** [d] reads [w] as [a] wherever it stands in a slice that fits memory. *)
Definition reads {A} (d : Decoder A) (a : A) (w : list byte) : Prop := ∀ pre post,
  len (pre ++ w ++ post) ≤ usize_max →
  d (mkCursor (pre ++ w ++ post) (len pre)) = Ok (a, mkCursor (pre ++ w ++ post) (len pre + len w)).

(** Whatever [d] accepts, it consumed bytes [w] related to the value by [Q]. *)
Definition accepts {A} (d : Decoder A) (Q : A → list byte → Prop) : Prop := ∀ pre rest a c,
  d (mkCursor (pre ++ rest) (len pre)) = Ok (a, c) →
  ∃ w post, rest = w ++ post ∧ c = mkCursor (pre ++ rest) (len pre + len w) ∧ Q a w.

(** The interface of a field codec: [enc] appends the wire image [w a], [dec]
    reads it back at any position, whatever [dec] accepts is the image of a
    well-formed value, and images are bounded. *)
Class IsCodec {A} `{Wf A} (enc : A → Put) (dec : Decoder A) (w : A → list byte) (bound : Z) : Prop := {
  codec_writes : ∀ a : A, wf a → writes (enc a) (w a);
  codec_reads : ∀ a : A, wf a → reads dec a (w a);
  codec_accepts : accepts dec (λ (a : A) v, wf a ∧ v = w a);
  codec_len : ∀ a : A, wf a → len (w a) ≤ bound;
  codec_bound : 0 ≤ bound }.

(** ** Lemmas: encoding *)

Lemma put_bytes_app a b e : put_bytes b (put_bytes a e) = put_bytes (a ++ b) e.
Proof.
  unfold put_bytes. f_equal. destruct (output e) as [out|n]; cbn; f_equal.
  - by rewrite app_assoc.
  - unfold saturating_add. autorewrite with len. pose proof (len_nonneg a). pose proof (len_nonneg b). lia.
Qed.

Lemma put_bytes_nil_new w : put_bytes w encoder_new = mkEncoder (OutBytes w).
Proof. done. Qed.

Lemma put_bytes_counting w : len w ≤ usize_max → encoder_len (put_bytes w encoder_counting) = len w.
Proof. intros H. cbn. unfold saturating_add. lia. Qed.

Lemma put_bytes_ok w e : encoder_ok (put_bytes w e).
Proof. unfold encoder_ok, put_bytes. destruct (output e); cbn; [done|]. unfold saturating_add. lia. Qed.

Lemma put_bytes_nil e : encoder_ok e → put_bytes [] e = e.
Proof.
  unfold encoder_ok, put_bytes. destruct e as [[out|n]]; cbn; intros He.
  - by rewrite app_nil_r.
  - unfold saturating_add. rewrite len_nil. do 2 f_equal. lia.
Qed.

Lemma writes_then f g v w : writes f v → writes g w → writes (put_then f g) (v ++ w).
Proof.
  intros Hf Hg e He. unfold put_then. rewrite Hf by done.
  by rewrite Hg, put_bytes_app by (by apply put_bytes_ok).
Qed.
Lemma writes_eq f v w : writes f v → v = w → writes f w.
Proof. by intros ? <-. Qed.
Lemma writes_put f w : (∀ e, f e = put_bytes w e) → writes (put_ok f) w.
Proof. intros H e _. unfold put_ok. by rewrite H. Qed.
Lemma writes_u8 v : writes (put_ok (put_u8 v)) (be_bytes 1 v).
Proof. by apply writes_put. Qed.
Lemma writes_u32 v : writes (put_ok (put_u32 v)) (be_bytes 4 v).
Proof. by apply writes_put. Qed.
Lemma writes_u64 v : writes (put_ok (put_u64 v)) (be_bytes 8 v).
Proof. by apply writes_put. Qed.
Lemma writes_u128 v : writes (put_ok (put_u128 v)) (be_bytes 16 v).
Proof. by apply writes_put. Qed.
Lemma writes_i64 v : writes (put_ok (put_i64 v)) (be_bytes 8 v).
Proof. apply writes_put. intros e. unfold put_i64. f_equal. apply (be_bytes_mod 8 v). Qed.
Lemma writes_bytes b : writes (put_ok (put_bytes b)) b.
Proof. by apply writes_put. Qed.

(** A length-prefixed string, a count, and a tagged option on the wire. *)
Definition string_wire (s : rstring) : list byte := be_bytes 4 (len s) ++ s.
Definition count_wire (n : Z) : list byte := be_bytes 4 n.
Definition opt_wire {A} (w : A → list byte) (o : option A) : list byte :=
  match o with Some a => be_bytes 1 1 ++ w a | None => be_bytes 1 0 end.
Definition list_wire {A} (w : A → list byte) (l : list A) : list byte :=
  count_wire (len l) ++ concat (w <$> l).

Lemma writes_string s : len s ≤ u32_max → writes (put_string s) (string_wire s).
Proof.
  intros H e He. unfold put_string. rewrite decide_True by done. unfold put_u32.
  by rewrite put_bytes_app.
Qed.
Lemma writes_count n : n ≤ u32_max → writes (put_count n) (count_wire n).
Proof. intros H e He. unfold put_count. by rewrite decide_True by done. Qed.
Lemma writes_opt {A} (put : A → Put) w o :
  (∀ a, o = Some a → writes (put a) (w a)) → writes (put_opt put o) (opt_wire w o).
Proof.
  intros H. destruct o as [a|]; cbn [put_opt opt_wire]; [|apply writes_u8].
  apply writes_then; [apply writes_u8|by apply H].
Qed.
Lemma writes_all {A} (put : A → Put) w l :
  Forall (λ a, writes (put a) (w a)) l → writes (put_all put l) (concat (w <$> l)).
Proof.
  induction 1 as [|a l Ha _ IH]; cbn [put_all fmap list_fmap concat].
  - intros e He. by rewrite put_bytes_nil.
  - by apply writes_then.
Qed.
Lemma writes_list {A} (put : A → Put) w l :
  len l ≤ u32_max → Forall (λ a, writes (put a) (w a)) l → writes (put_list put l) (list_wire w l).
Proof. intros Hl Hf. apply writes_then; [by apply writes_count|by apply writes_all]. Qed.

(** ** Lemmas: decoding what was written *)

Section reads.
Context {A B : Type}.
Implicit Types (d : Decoder A) (k : A → Decoder B).

Lemma reads_ret (a : A) : reads (ret a) a [].
Proof. intros pre post _. unfold ret. rewrite len_nil, Z.add_0_r. done. Qed.

Lemma reads_and_then d k a b v w :
  reads d a v → reads (k a) b w → reads (and_then d k) b (v ++ w).
Proof.
  intros Hd Hk pre post Hl. unfold and_then. specialize (Hd pre (w ++ post)).
  rewrite <-app_assoc in Hl |- *. rewrite Hd by done. specialize (Hk (pre ++ v) post).
  rewrite <-!app_assoc, (len_app pre v) in Hk. rewrite Hk by done. do 3 f_equal. rewrite len_app. lia.
Qed.

Lemma reads_eq d a v w : reads d a v → v = w → reads d a w.
Proof. by intros ? <-. Qed.

Lemma reads_lift (r : result JournalV1Error A) a : r = Ok a → reads (lift r) a [].
Proof. intros ->. apply reads_ret. Qed.
End reads.

Lemma reads_take w : reads (take_bytes (len w)) w w.
Proof.
  intros pre post Hl. unfold take_bytes, checked_add. cbn [cur_offset cur_bytes].
  revert Hl. autorewrite with len. intros Hl. pose proof (len_nonneg post).
  rewrite decide_True by lia. rewrite decide_True by lia. do 2 f_equal.
  unfold len. rewrite !Nat2Z.id, drop_app_length. apply take_app_length.
Qed.

Lemma reads_bytes n w : len w = n → reads (get_array n) w w.
Proof. intros <-. apply reads_take. Qed.

Lemma reads_be n (m : Z) v f :
  Z.of_nat n = m → f (be_bytes n v) = v →
  reads (let* b := get_array m in ret (f b)) v (be_bytes n v).
Proof.
  intros <- Hf. rewrite <-(app_nil_r (be_bytes n v)).
  eapply reads_and_then; [apply reads_bytes, len_be_bytes|]. rewrite Hf. apply reads_ret.
Qed.
Lemma reads_u8 v : is_u8 v → reads get_u8 v (be_bytes 1 v).
Proof. intros Hv%in_range_spec. apply reads_be; [done|]. by apply from_be_bytes_small; unfold u8_max in *; lia. Qed.
Lemma reads_u32 v : is_u32 v → reads get_u32 v (be_bytes 4 v).
Proof. intros Hv%in_range_spec. apply reads_be; [done|]. by apply from_be_bytes_small; unfold u32_max in *; lia. Qed.
Lemma reads_u64 v : is_u64 v → reads get_u64 v (be_bytes 8 v).
Proof. intros Hv%in_range_spec. apply reads_be; [done|]. by apply from_be_bytes_small; unfold u64_max in *; lia. Qed.
Lemma reads_u128 v : is_u128 v → reads get_u128 v (be_bytes 16 v).
Proof. intros Hv%in_range_spec. apply reads_be; [done|]. by apply from_be_bytes_small; unfold u128_max in *; lia. Qed.
Lemma reads_i64 v : is_i64 v → reads get_i64 v (be_bytes 8 v).
Proof. intros Hv. apply reads_be; [done|]. by apply i64_from_be_bytes. Qed.

Lemma reads_string maximum s :
  utf8_ok s → len s ≤ maximum → maximum ≤ u32_max → reads (get_string maximum) s (string_wire s).
Proof.
  intros Hu Hl Hm. unfold get_string, string_wire. pose proof (len_nonneg s).
  eapply reads_and_then; [apply reads_u32, in_range_spec; lia|].
  rewrite decide_False by lia. rewrite <-(app_nil_r s) at 3.
  eapply reads_and_then; [apply reads_take|]. apply reads_lift. unfold from_utf8. by destruct (utf8_ok s).
Qed.

Lemma reads_count maximum n : 0 ≤ n ≤ maximum → maximum ≤ u32_max → reads (get_count maximum) n (count_wire n).
Proof.
  intros Hn Hm. unfold get_count, count_wire. rewrite <-(app_nil_r (be_bytes 4 n)).
  eapply reads_and_then; [apply reads_u32, in_range_spec; lia|]. rewrite decide_False by lia. apply reads_ret.
Qed.

Lemma reads_option (b : bool) : reads get_option b (be_bytes 1 (if b then 1 else 0)).
Proof.
  rewrite <-(app_nil_r (be_bytes _ _)). unfold get_option.
  eapply reads_and_then; [apply reads_u8; by destruct b|]. destruct b; apply reads_ret.
Qed.

Lemma reads_opt {A} (d : Decoder A) w o :
  (∀ a, o = Some a → reads d a (w a)) → reads (get_opt d) o (opt_wire w o).
Proof.
  intros H. unfold get_opt. destruct o as [a|]; cbn [opt_wire].
  - apply (reads_and_then _ _ _ _ _ _ (reads_option true)). rewrite <-(app_nil_r (w a)).
    eapply reads_and_then; [by apply H|]. apply reads_ret.
  - rewrite <-(app_nil_r (be_bytes 1 0)).
    apply (reads_and_then _ _ _ _ _ _ (reads_option false)). apply reads_ret.
Qed.

Lemma reads_times {A} (d : Decoder A) w l :
  Forall (λ a, reads d a (w a)) l → reads (get_times (length l) d) l (concat (w <$> l)).
Proof.
  induction 1 as [|a l Ha _ IH]; cbn [length get_times fmap list_fmap concat]; [apply reads_ret|].
  eapply reads_and_then; [exact Ha|]. rewrite <-(app_nil_r (concat _)).
  eapply reads_and_then; [exact IH|]. apply reads_ret.
Qed.

Lemma reads_list {A} maximum (d : Decoder A) w l :
  len l ≤ maximum → maximum ≤ u32_max → Forall (λ a, reads d a (w a)) l →
  reads (get_list maximum d) l (list_wire w l).
Proof.
  intros Hl Hm Hf. unfold get_list, list_wire. pose proof (len_nonneg l).
  eapply reads_and_then; [apply reads_count; lia|]. unfold len. rewrite Nat2Z.id. by apply reads_times.
Qed.

(** ** Lemmas: what a decoder accepts *)

Section accepts.
Context {A B : Type}.
Implicit Types (d : Decoder A) (k : A → Decoder B).

Lemma accepts_ret (Q : A → list byte → Prop) a : Q a [] → accepts (ret a) Q.
Proof.
  intros HQ pre rest a' c [= <- <-]. exists [], rest. split_and!; [done| |done].
  by rewrite len_nil, Z.add_0_r.
Qed.

Lemma accepts_fail (Q : A → list byte → Prop) e : accepts (fail e) Q.
Proof. by intros pre rest a c. Qed.

Lemma accepts_and_then d k (P : A → list byte → Prop) (Q : B → list byte → Prop) :
  accepts d P → (∀ a v, P a v → accepts (k a) (λ b w, Q b (v ++ w))) → accepts (and_then d k) Q.
Proof.
  intros Hd Hk pre rest b c. unfold and_then.
  destruct (d (mkCursor (pre ++ rest) (len pre))) as [[a c']|] eqn:E; [|done]. intros H.
  destruct (Hd _ _ _ _ E) as (v & post & -> & -> & Hp).
  specialize (Hk a v Hp (pre ++ v) post b c). rewrite <-app_assoc, len_app in Hk.
  destruct (Hk H) as (w & post' & -> & -> & Hq).
  exists (v ++ w), post'. rewrite app_assoc. split_and!; [done| |done].
  by rewrite len_app, Z.add_assoc, <-!app_assoc.
Qed.

Lemma accepts_mono d (P Q : A → list byte → Prop) :
  accepts d P → (∀ a w, P a w → Q a w) → accepts d Q.
Proof.
  intros Hd HPQ pre rest a c H. destruct (Hd _ _ _ _ H) as (w & post & ? & ? & ?).
  exists w, post. auto.
Qed.

Lemma accepts_lift (r : result JournalV1Error A) (Q : A → list byte → Prop) :
  (∀ a, r = Ok a → Q a []) → accepts (lift r) Q.
Proof. intros H. destruct r as [a|e]; [by apply accepts_ret, H|apply accepts_fail]. Qed.
End accepts.

Lemma accepts_take n : 0 ≤ n → accepts (take_bytes n) (λ b w, b = w ∧ len w = n).
Proof.
  intros Hn pre rest b c. unfold take_bytes, checked_add. cbn [cur_offset cur_bytes].
  case_decide as Hm; [|done]. rewrite len_app. case_decide as Hl; [|done].
  intros [= <- <-]. replace (Z.to_nat (len pre)) with (length pre) by (unfold len; lia).
  rewrite drop_app_length. exists (take (Z.to_nat n) rest), (drop (Z.to_nat n) rest).
  assert (len (take (Z.to_nat n) rest) = n) as E.
  { unfold len in *. rewrite length_take. lia. }
  rewrite take_drop. split_and!; [done| |done|done]. by rewrite E.
Qed.

Lemma accepts_be n (m : Z) (f : list byte → Z) :
  Z.of_nat n = m → (∀ w, length w = n → be_bytes n (f w) = w) →
  accepts (let* b := get_array m in ret (f b)) (λ v w, v = f w ∧ length w = n ∧ w = be_bytes n v).
Proof.
  intros <- Hf. eapply accepts_and_then; [apply accepts_take; lia|].
  intros b w [-> Hw]. apply accepts_ret. rewrite app_nil_r.
  assert (length w = n) as Hn by (unfold len in Hw; lia). by rewrite Hf.
Qed.

Section primitives.
Let in_width (n : nat) (m : Z) (get : Decoder Z) :=
  accepts get (λ v w, in_range 0 m v ∧ w = be_bytes n v).

Lemma accepts_be_unsigned n m :
  m = 256 ^ Z.of_nat n - 1 → in_width n m (let* b := get_array (Z.of_nat n) in ret (from_be b)).
Proof.
  intros ->. eapply accepts_mono; [apply accepts_be; [done|]; intros w; apply be_bytes_from_be'|].
  intros v w (-> & Hw & ?). split; [|done]. rewrite in_range_spec.
  pose proof (from_be_range w) as Hr. unfold len in Hr. rewrite Hw in Hr. lia.
Qed.
Lemma accepts_u8 : accepts get_u8 (λ v w, is_u8 v ∧ w = be_bytes 1 v).
Proof. by apply (accepts_be_unsigned 1). Qed.
Lemma accepts_u32 : accepts get_u32 (λ v w, is_u32 v ∧ w = be_bytes 4 v).
Proof. by apply (accepts_be_unsigned 4). Qed.
Lemma accepts_u64 : accepts get_u64 (λ v w, is_u64 v ∧ w = be_bytes 8 v).
Proof. by apply (accepts_be_unsigned 8). Qed.
Lemma accepts_u128 : accepts get_u128 (λ v w, is_u128 v ∧ w = be_bytes 16 v).
Proof. by apply (accepts_be_unsigned 16). Qed.
Lemma accepts_i64 : accepts get_i64 (λ v w, is_i64 v ∧ w = be_bytes 8 v).
Proof.
  eapply accepts_mono; [apply (accepts_be 8); [done|]; intros w; apply be_bytes_i64_from_be|].
  intros v w (-> & Hw & ?). split; [by apply i64_from_be_range|done].
Qed.
End primitives.

Lemma accepts_string maximum :
  accepts (get_string maximum) (λ s w, utf8_ok s ∧ len s ≤ maximum ∧ w = string_wire s).
Proof.
  eapply accepts_and_then; [apply accepts_u32|]. intros n v [Hn%in_range_spec ->].
  case_decide; [apply accepts_fail|]. eapply accepts_and_then; [apply accepts_take; lia|].
  intros b w [-> Hw]. apply accepts_lift. intros s Hs. unfold ok_or in Hs.
  destruct (from_utf8 w) as [s'|] eqn:E; [|done]. injection Hs as ->.
  apply from_utf8_Some in E as [-> Hu]. rewrite app_nil_r. unfold string_wire.
  split_and!; [done|lia|by rewrite Hw].
Qed.

Lemma accepts_count maximum :
  accepts (get_count maximum) (λ n w, 0 ≤ n ≤ maximum ∧ w = count_wire n).
Proof.
  eapply accepts_and_then; [apply accepts_u32|]. intros n v [Hn%in_range_spec ->].
  case_decide; [apply accepts_fail|]. apply accepts_ret. rewrite app_nil_r. split; [lia|done].
Qed.

Lemma accepts_option : accepts get_option (λ b w, w = be_bytes 1 (if b then 1 else 0)).
Proof.
  eapply accepts_and_then; [apply accepts_u8|]. intros n v [_ ->].
  repeat case_match; try apply accepts_fail; apply accepts_ret; by rewrite app_nil_r.
Qed.

Lemma accepts_opt {A} (d : Decoder A) (P : A → Prop) w :
  accepts d (λ a v, P a ∧ v = w a) →
  accepts (get_opt d) (λ o v, (∀ a, o = Some a → P a) ∧ v = opt_wire w o).
Proof.
  intros Hd. eapply accepts_and_then; [apply accepts_option|]. intros [] v ->.
  - eapply accepts_and_then; [exact Hd|]. intros a v [Ha ->]. apply accepts_ret. cbn [opt_wire].
    rewrite app_nil_r. naive_solver.
  - apply accepts_ret. by rewrite app_nil_r.
Qed.

Lemma accepts_times {A} (d : Decoder A) (P : A → Prop) w n :
  accepts d (λ a v, P a ∧ v = w a) →
  accepts (get_times n d) (λ l v, length l = n ∧ Forall P l ∧ v = concat (w <$> l)).
Proof.
  intros Hd. induction n as [|n IH]; cbn [get_times]; [by apply accepts_ret|].
  eapply accepts_and_then; [exact Hd|]. intros a v [Ha ->].
  eapply accepts_and_then; [exact IH|]. intros l v (Hl & Hf & ->). apply accepts_ret.
  rewrite app_nil_r. cbn. split_and!; [lia|by constructor|done].
Qed.

Lemma accepts_list {A} maximum (d : Decoder A) (P : A → Prop) w :
  accepts d (λ a v, P a ∧ v = w a) →
  accepts (get_list maximum d) (λ l v, len l ≤ maximum ∧ Forall P l ∧ v = list_wire w l).
Proof.
  intros Hd. eapply accepts_and_then; [apply accepts_count|]. intros n v [Hn ->].
  eapply accepts_mono; [by apply (accepts_times _ P w)|]. intros l v (Hl & Hf & ->).
  assert (len l = n) as E by (unfold len; lia). unfold list_wire. rewrite E. split_and!; [lia|done|done].
Qed.

(** ** Lemmas: lengths on the wire *)

Lemma len_string_wire s : len (string_wire s) = 4 + len s.
Proof. unfold string_wire. by rewrite len_app, len_be_bytes. Qed.
Lemma len_count_wire n : len (count_wire n) = 4.
Proof. apply len_be_bytes. Qed.
Lemma len_opt_wire {A} (w : A → list byte) o n :
  0 ≤ n → (∀ a, o = Some a → len (w a) ≤ n) → len (opt_wire w o) ≤ 1 + n.
Proof.
  intros Hn H. destruct o as [a|]; cbn [opt_wire]; rewrite ?len_app, len_be_bytes; [|lia].
  specialize (H a eq_refl). lia.
Qed.
Lemma len_list_wire {A} (w : A → list byte) l n m :
  0 ≤ n → len l ≤ m → Forall (λ a, len (w a) ≤ n) l → len (list_wire w l) ≤ 4 + m * n.
Proof.
  intros Hn Hl Hf. unfold list_wire. rewrite len_app, len_count_wire.
  enough (len (concat (w <$> l)) ≤ len l * n) by nia. clear Hl.
  induction Hf as [|a l Ha _ IH]; [done|].
  cbn [fmap list_fmap concat]. rewrite len_app, len_cons. change (list_fmap _ _ w l) with (w <$> l) in *. lia.
Qed.

(** ** Automation and generic codecs *)

(** The last step of a decoder, whose image is not followed by another one. *)
Lemma reads_last {A B} (d : Decoder A) (k : A → Decoder B) a b v :
  reads d a v → reads (k a) b [] → reads (and_then d k) b v.
Proof. intros Hd Hk. rewrite <-(app_nil_r v). by eapply reads_and_then. Qed.

Lemma reads_ret_eq {A} (a b : A) : a = b → reads (ret a) b [].
Proof. intros ->. apply reads_ret. Qed.

(** [wf_split H] splits the invariant of a record into those of its fields. *)
Ltac wf_head i := lazymatch i with ?f _ _ => f | ?f _ => f | ?f => f end.
Ltac wf_split H :=
  lazymatch type of H with
  | Is_true (@wf _ ?i ?x) =>
    let h := wf_head i in change (Is_true (i x)) in H; unfold h in H; cbv beta in H; destruct_and? H
  end.
Ltac wf_intro :=
  lazymatch goal with
  | |- Is_true (@wf _ ?i ?x) =>
    let h := wf_head i in change (Is_true (i x)); unfold h; cbv beta; rewrite ?andb_True; split_and?
  end.

Ltac writes_atom :=
  lazymatch goal with
  | |- writes (put_ok (put_u8 _)) _ => apply writes_u8
  | |- writes (put_ok (put_u32 _)) _ => apply writes_u32
  | |- writes (put_ok (put_u64 _)) _ => apply writes_u64
  | |- writes (put_ok (put_u128 _)) _ => apply writes_u128
  | |- writes (put_ok (put_i64 _)) _ => apply writes_i64
  | |- writes (put_ok (put_bytes _)) _ => apply writes_bytes
  | |- writes _ _ => eapply codec_writes; [assumption || done]
  end.
Ltac reads_atom :=
  lazymatch goal with
  | |- reads get_u8 _ _ => apply reads_u8
  | |- reads get_u32 _ _ => apply reads_u32
  | |- reads get_u64 _ _ => apply reads_u64
  | |- reads get_u128 _ _ => apply reads_u128
  | |- reads get_i64 _ _ => apply reads_i64
  | |- reads (get_array _) _ _ => apply reads_bytes
  | |- reads (lift _) _ _ => apply reads_lift
  | |- reads _ _ _ => eapply codec_reads
  end; try assumption; try done.
Ltac accepts_atom :=
  lazymatch goal with
  | |- accepts get_u8 _ => apply accepts_u8
  | |- accepts get_u32 _ => apply accepts_u32
  | |- accepts get_u64 _ => apply accepts_u64
  | |- accepts get_u128 _ => apply accepts_u128
  | |- accepts get_i64 _ => apply accepts_i64
  | |- accepts (get_array _) _ => apply accepts_take; done
  | |- accepts (get_string _) _ => apply accepts_string
  | |- accepts (get_count _) _ => apply accepts_count
  | |- accepts _ _ => apply codec_accepts
  end.

Ltac solve_writes :=
  cbv beta;
  lazymatch goal with
  | |- writes (put_then _ _) _ => apply writes_then; solve_writes
  | |- writes _ _ => writes_atom
  end.
Ltac solve_reads :=
  cbv beta iota;
  lazymatch goal with
  | |- reads (and_then _ _) _ (_ ++ _) => eapply reads_and_then; [reads_atom|solve_reads]
  | |- reads (and_then _ _) _ _ => eapply reads_last; [reads_atom|solve_reads]
  | |- reads (ret _) _ [] => apply reads_ret_eq; try done
  | |- reads (lift _) _ [] => apply reads_lift
  | |- _ => idtac
  end.
Ltac solve_accepts :=
  cbv beta;
  lazymatch goal with
  | |- accepts (and_then _ _) _ =>
    eapply accepts_and_then; [accepts_atom|];
    let a := fresh "a" in let v := fresh "v" in let H := fresh "Hacc" in
    intros a v H; cbv beta in H; destruct_and? H; subst v; solve_accepts
  | |- accepts (ret _) _ => apply accepts_ret
  | |- accepts (fail _) _ => apply accepts_fail
  | |- accepts (lift _) _ => apply accepts_lift; let a := fresh "a" in let H := fresh "Hnew" in intros a H
  | |- accepts _ _ => first [case_decide | case_match]; solve_accepts
  end.
(** A record that was accepted field by field. *)
Ltac accepted := split; [wf_intro; try assumption|by rewrite ?app_nil_r].

#[export] Instance opt_codec {A} `{Wf A} (enc : A → Put) dec w b :
  IsCodec enc dec w b → IsCodec (put_opt enc) (get_opt dec) (opt_wire w) (1 + b).
Proof.
  intros Hc. split.
  - intros o Ho. apply writes_opt. intros a ->. by apply codec_writes.
  - intros o Ho. apply reads_opt. intros a ->. by apply codec_reads.
  - eapply accepts_mono; [apply (accepts_opt _ (λ a : A, Is_true (wf a)) w), codec_accepts|].
    intros o v [Ho ->]. split; [|done]. destruct o; [by apply Ho|done].
  - intros o Ho. apply len_opt_wire; [by apply codec_bound|]. intros a ->. by apply codec_len.
  - pose proof (codec_bound (IsCodec := Hc)). lia.
Qed.

(** A bounded list of well-formed items. *)
Section lists.
Context {A} `{Wf A} (enc : A → Put) (dec : Decoder A) (w : A → list byte) (b : Z) (Hc : IsCodec enc dec w b).
Context (maximum : Z) (Hm : 0 ≤ maximum ≤ u32_max).

Lemma codec_writes_list l : len l ≤ maximum → wf l → writes (put_list enc l) (list_wire w l).
Proof.
  intros Hl Hw%wf_list_Forall. apply writes_list; [lia|].
  eapply Forall_impl; [exact Hw|]. apply codec_writes.
Qed.
Lemma codec_reads_list l : len l ≤ maximum → wf l → reads (get_list maximum dec) l (list_wire w l).
Proof.
  intros Hl Hw%wf_list_Forall. apply reads_list; [done|lia|].
  eapply Forall_impl; [exact Hw|]. apply codec_reads.
Qed.
Lemma codec_accepts_list :
  accepts (get_list maximum dec) (λ l v, (len l ≤ maximum ∧ wf l) ∧ v = list_wire w l).
Proof.
  eapply accepts_mono; [apply (accepts_list _ _ (λ a : A, Is_true (wf a)) w), codec_accepts|].
  intros l v (? & ? & ->). by rewrite wf_list_Forall.
Qed.
Lemma codec_len_list l : len l ≤ maximum → wf l → len (list_wire w l) ≤ 4 + maximum * b.
Proof.
  intros Hl Hw%wf_list_Forall. apply len_list_wire; [apply (codec_bound (IsCodec := Hc))|done|].
  eapply Forall_impl; [exact Hw|]. apply codec_len.
Qed.
End lists.

(** ** Record codecs

    [record_codec] proves the codec of a record that is written, read and
    bounded field by field; what remains are the constructor's own checks. *)

(** [mk (f1 x) ... (fn x) = x]. *)
Ltac solve_eta :=
  try done;
  try match goal with
  | x : _ |- _ = ?x => destruct x; cbn; f_equal; match goal with |- _ = ?y => by destruct y end
  end.
Ltac solve_len :=
  rewrite ?len_app, ?len_be_bytes;
  repeat match goal with
  | |- context [len (?w ?a)] =>
    let H := fresh "Hlen" in
    eassert (H : len (w a) ≤ _) by (eapply (codec_len (w := w)); assumption || done);
    revert H; generalize (len (w a)); intros ? H
  end; lia.
Ltac record_codec :=
  lazymatch goal with
  | |- IsCodec ?e ?d ?w _ =>
    split;
    [ let x := fresh "x" in let Hw := fresh "Hw" in intros x Hw; wf_split Hw; unfold e, w; solve_writes
    | let x := fresh "x" in let Hw := fresh "Hw" in intros x Hw; wf_split Hw; unfold d, w; solve_reads; solve_eta
    | unfold d, w; solve_accepts; try accepted
    | let x := fresh "x" in let Hw := fresh "Hw" in intros x Hw; wf_split Hw; unfold w; try solve_len
    | try done ]
  end.
