(* ===== verification/Fields.v ===== *)
(** * Journal field codecs

    [och-store/src/codec.rs], the field encoders and decoders: one [encode_x],
    [decode_x] and wire image per type of the canonical model, each shown to
    implement the codec interface of [Wire]. *)

From S2P Require Import Prelude Bytes Identity Bounded Value Collection Series Registry Admission Wire.

Definition MAX_DECLARATION_REFERENCE_BYTES : Z := 4 * 1024.
Definition MAX_EXACT_TEXT_BYTES : Z := 4 * 4096.

Definition invalid_model (_ : ModelError) : JournalV1Error := InvalidCanonicalData.
Definition invalid_identity (_ : ModelError) : JournalV1Error := JournalInvalidIdentity.

(** ** Identities and strings *)

Definition encode_id {F} (id : Identity F) : Put := put_ok (put_bytes (into_bytes id)).
Definition decode_id {F} : Decoder (Identity F) :=
  let* bytes := get_array 16 in lift (map_err invalid_identity (from_bytes bytes)).

Definition encode_reference (r : DeclarationReference) : Put := put_string (ref_str r).
Definition decode_reference : Decoder DeclarationReference :=
  let* s := get_string MAX_DECLARATION_REFERENCE_BYTES in lift (map_err invalid_model (reference_new s)).
Definition encode_projection (p : SourceProjection) : Put := put_string (ref_str (as_reference p)).
Definition decode_projection : Decoder SourceProjection :=
  let* s := get_string MAX_DECLARATION_REFERENCE_BYTES in lift (map_err invalid_model (projection_new s)).
Definition schema_wire (x : SourceSchemaIdentity) : list byte := string_wire (ref_str (schema_reference x)).
Definition encode_schema (s : SourceSchemaIdentity) : Put := put_string (ref_str (schema_reference s)).
Definition decode_schema : Decoder SourceSchemaIdentity :=
  let* s := get_string MAX_DECLARATION_REFERENCE_BYTES in lift (map_err invalid_model (schema_identity_new s)).
Definition reference_wire (r : DeclarationReference) : list byte := string_wire (ref_str r).
Definition projection_wire (p : SourceProjection) : list byte := string_wire (ref_str (as_reference p)).
Definition encode_token {F} (t : Token F) : Put := put_string (token_str t).
Definition decode_token {F} : Decoder (Token F) :=
  let* s := get_string MAX_PORTABLE_TOKEN_BYTES in lift (map_err invalid_model (token_new s)).
Definition token_wire {F} (t : Token F) : list byte := string_wire (token_str t).
Definition text_wire (x : ExactText) : list byte := string_wire (text_str x).
Definition encode_text (t : ExactText) : Put := put_string (text_str t).
Definition decode_text : Decoder ExactText :=
  let* s := get_string MAX_EXACT_TEXT_BYTES in lift (map_err invalid_model (exact_text_new s)).
Definition format_wire (x : ContentFormat) : list byte := string_wire (format_str x).
Definition encode_format (f : ContentFormat) : Put := put_string (format_str f).
Definition decode_format : Decoder ContentFormat :=
  let* s := get_string MAX_CONTENT_FORMAT_BYTES in lift (map_err invalid_model (content_format_new s)).
Definition key_wire (x : RetryKey) : list byte := string_wire (key_str x).
Definition encode_key (k : RetryKey) : Put := put_string (key_str k).
Definition decode_key : Decoder RetryKey :=
  let* s := get_string MAX_RETRY_KEY_BYTES in lift (map_err invalid_model (retry_key_new s)).

(** ** Content and artifacts *)

Definition encode_content (c : ContentIdentity) : Put :=
  encode_format (content_format c) ;> put_ok (put_u128 (version_get (content_version c))) ;>
  put_ok (put_bytes (content_sha256 c)).
Definition decode_content : Decoder ContentIdentity :=
  let* format := decode_format in let* version := get_u128 in let* sha256 := get_array 32 in
  ret (mkContentIdentity format (mkContentVersion version) sha256).
Definition content_wire (c : ContentIdentity) : list byte :=
  format_wire (content_format c) ++ be_bytes 16 (version_get (content_version c)) ++
  content_sha256 c.

Definition encode_artifact (a : ArtifactReference) : Put :=
  encode_id (artifact_id a) ;> encode_content (artifact_content a).
Definition decode_artifact : Decoder ArtifactReference :=
  let* id := decode_id in let* content := decode_content in ret (mkArtifactReference id content).
Definition artifact_wire (a : ArtifactReference) : list byte :=
  into_bytes (artifact_id a) ++ content_wire (artifact_content a).

(** ** Time *)

Definition encode_timestamp (t : Timestamp) : Put :=
  put_ok (put_i64 (unix_seconds t)) ;> put_ok (put_u32 (nanosecond t)).
Definition decode_timestamp : Decoder Timestamp :=
  let* seconds := get_i64 in let* nanosecond := get_u32 in
  lift (map_err invalid_model (timestamp_new seconds nanosecond)).
Definition timestamp_wire (t : Timestamp) : list byte :=
  be_bytes 8 (unix_seconds t) ++ be_bytes 4 (nanosecond t).

Definition encode_time_interval (i : TimeInterval) : Put :=
  encode_timestamp (interval_start i) ;> encode_timestamp (interval_end i).
Definition decode_time_interval : Decoder TimeInterval :=
  let* start := decode_timestamp in let* end_ := decode_timestamp in
  lift (map_err invalid_model (time_interval_new start end_)).
Definition time_interval_wire (i : TimeInterval) : list byte :=
  timestamp_wire (interval_start i) ++ timestamp_wire (interval_end i).

Definition encode_observation_times (t : ObservationTimes) : Put :=
  put_opt encode_timestamp (times_source t) ;> encode_timestamp (times_receive t) ;>
  encode_timestamp (times_effective t).
Definition decode_observation_times : Decoder ObservationTimes :=
  let* source := get_opt decode_timestamp in let* receive := decode_timestamp in
  let* effective := decode_timestamp in ret (mkObservationTimes source receive effective).
Definition observation_times_wire (t : ObservationTimes) : list byte :=
  opt_wire timestamp_wire (times_source t) ++ timestamp_wire (times_receive t) ++
  timestamp_wire (times_effective t).

(** ** Tagged enumerations *)

Definition mode_tag (m : CollectionMode) : Z :=
  match m with Sampled => 1 | ChangeOnly => 2 | Cumulative => 3 | Interval => 4 | Event => 5 end.
Definition mode_wire (x : CollectionMode) : list byte := be_bytes 1 (mode_tag x).
Definition encode_collection_mode (m : CollectionMode) : Put := put_ok (put_u8 (mode_tag m)).
Definition decode_collection_mode : Decoder CollectionMode :=
  let* tag := get_u8 in
  match tag with
  | 1 => ret Sampled | 2 => ret ChangeOnly | 3 => ret Cumulative | 4 => ret Interval | 5 => ret Event
  | _ => fail UnknownTag
  end.

Definition family_tag (f : ValueFamily) : Z :=
  match f with
  | FReal => 1 | FSigned => 2 | FUnsigned => 3 | FBoolean => 4 | FState => 5 | FText => 6 | FArtifact => 7
  end.
Definition family_wire (x : ValueFamily) : list byte := be_bytes 1 (family_tag x).
Definition encode_value_family (f : ValueFamily) : Put := put_ok (put_u8 (family_tag f)).
Definition decode_value_family : Decoder ValueFamily :=
  let* tag := get_u8 in
  match tag with
  | 1 => ret FReal | 2 => ret FSigned | 3 => ret FUnsigned | 4 => ret FBoolean | 5 => ret FState
  | 6 => ret FText | 7 => ret FArtifact | _ => fail UnknownTag
  end.

Definition interval_kind_tag (k : SourceIntervalKind) : Z :=
  match k with SourceObserved => 1 | SourceNoChange => 2 end.
Definition interval_kind_wire (x : SourceIntervalKind) : list byte := be_bytes 1 (interval_kind_tag x).
Definition encode_source_interval_kind (k : SourceIntervalKind) : Put := put_ok (put_u8 (interval_kind_tag k)).
Definition decode_source_interval_kind : Decoder SourceIntervalKind :=
  let* tag := get_u8 in
  match tag with 1 => ret SourceObserved | 2 => ret SourceNoChange | _ => fail UnknownTag end.

Definition transport_tag (t : SourceTransport) : Z :=
  match t with TransportNew => 1 | TransportRedelivered => 2 end.
Definition transport_wire (x : SourceTransport) : list byte := be_bytes 1 (transport_tag x).
Definition encode_transport (t : SourceTransport) : Put := put_ok (put_u8 (transport_tag t)).
Definition decode_transport : Decoder SourceTransport :=
  let* tag := get_u8 in
  match tag with 1 => ret TransportNew | 2 => ret TransportRedelivered | _ => fail UnknownTag end.

Definition gap_reason_tag (r : GapReason) : Z :=
  match r with
  | GapUnknown => 1 | ProducerRestart => 2 | BufferOverflow => 3 | GapCommunicationFailure => 4
  | SourceDataLoss => 5 | AdministrativeExclusion => 6
  end.
Definition gap_reason_wire (x : GapReason) : list byte := be_bytes 1 (gap_reason_tag x).
Definition encode_gap_reason (r : GapReason) : Put := put_ok (put_u8 (gap_reason_tag r)).
Definition decode_gap_reason : Decoder GapReason :=
  let* tag := get_u8 in
  match tag with
  | 1 => ret GapUnknown | 2 => ret ProducerRestart | 3 => ret BufferOverflow
  | 4 => ret GapCommunicationFailure | 5 => ret SourceDataLoss | 6 => ret AdministrativeExclusion
  | _ => fail UnknownTag
  end.

Definition source_gap_reason_tag (r : SourceGapReason) : Z :=
  match r with
  | SgCommunicationFailure => 1 | SgSourceUnavailable => 2 | SgProducerReset => 3 | SgFiltered => 4
  | SgUnknown => 5
  end.
Definition source_gap_reason_wire (x : SourceGapReason) : list byte := be_bytes 1 (source_gap_reason_tag x).
Definition encode_source_gap_reason (r : SourceGapReason) : Put := put_ok (put_u8 (source_gap_reason_tag r)).
Definition decode_source_gap_reason : Decoder SourceGapReason :=
  let* tag := get_u8 in
  match tag with
  | 1 => ret SgCommunicationFailure | 2 => ret SgSourceUnavailable | 3 => ret SgProducerReset
  | 4 => ret SgFiltered | 5 => ret SgUnknown | _ => fail UnknownTag
  end.

Definition level_tag (l : QualityLevel) : Z :=
  match l with QUnknown => 1 | QGood => 2 | QUncertain => 3 | QBad => 4 | QNotEvaluated => 5 end.
Definition level_wire (x : QualityLevel) : list byte := be_bytes 1 (level_tag x).
Definition encode_quality_level (l : QualityLevel) : Put := put_ok (put_u8 (level_tag l)).
Definition decode_quality_level : Decoder QualityLevel :=
  let* tag := get_u8 in
  match tag with
  | 1 => ret QUnknown | 2 => ret QGood | 3 => ret QUncertain | 4 => ret QBad | 5 => ret QNotEvaluated
  | _ => fail UnknownTag
  end.

(** [match cursor.u8()? { 0 => false, 1 => true, _ => UnknownTag }]. *)
Definition boolean_wire (b : bool) : list byte := be_bytes 1 (Z.b2z b).
Definition encode_boolean (b : bool) : Put := put_ok (put_u8 (Z.b2z b)).
Definition decode_boolean : Decoder bool :=
  let* tag := get_u8 in match tag with 0 => ret false | 1 => ret true | _ => fail UnknownTag end.

Section tags.
#[export] Instance wf_mode : Wf CollectionMode := λ _, true.
#[export] Instance wf_family : Wf ValueFamily := λ _, true.
#[export] Instance wf_interval_kind : Wf SourceIntervalKind := λ _, true.
#[export] Instance wf_transport : Wf SourceTransport := λ _, true.
#[export] Instance wf_gap_reason : Wf GapReason := λ _, true.
#[export] Instance wf_source_gap_reason : Wf SourceGapReason := λ _, true.
#[export] Instance wf_level : Wf QualityLevel := λ _, true.
#[export] Instance wf_bool : Wf bool := λ _, true.
End tags.

(** ** Quality *)

Definition quality_bits (flags : QualityFlags) : Z :=
  Z.lor (Z.lor (Z.lor (Z.lor (Z.lor (Z.b2z (stale flags)) (Z.shiftl (Z.b2z (invalid flags)) 1))
    (Z.shiftl (Z.b2z (substituted flags)) 2)) (Z.shiftl (Z.b2z (overridden flags)) 3))
    (Z.shiftl (Z.b2z (out_of_service flags)) 4)) (Z.shiftl (Z.b2z (communication_failure flags)) 5).
Definition encode_quality (q : Quality) : Put :=
  encode_quality_level (quality_level q) ;> put_ok (put_u8 (quality_bits (quality_flags q))).
Definition bit_set (bits mask : Z) : bool := bool_decide (Z.land bits mask ≠ 0).
Definition flags_of_bits (bits : Z) : QualityFlags :=
  with_communication_failure (with_out_of_service (with_overridden (with_substituted (with_invalid
    (with_stale flags_none (bit_set bits 1)) (bit_set bits 2)) (bit_set bits 4)) (bit_set bits 8))
    (bit_set bits 16)) (bit_set bits 32).
(** [bits & !0x3f != 0], with the 8-bit complement. *)
Definition decode_quality : Decoder Quality :=
  let* level := decode_quality_level in let* bits := get_u8 in
  if decide (Z.land bits (Z.lxor 0x3f u8_max) ≠ 0) then fail UnknownTag
  else ret (mkQuality level (flags_of_bits bits)).
Definition quality_wire (q : Quality) : list byte :=
  level_wire (quality_level q) ++ be_bytes 1 (quality_bits (quality_flags q)).

Definition encode_native_status (s : NativeStatus) : Put := put_list encode_token (status_tokens s).
Definition decode_native_status : Decoder NativeStatus :=
  let* tokens := get_list MAX_NATIVE_STATUS_TOKENS decode_token in
  lift (map_err invalid_model (native_status_new tokens)).
Definition native_status_wire (s : NativeStatus) : list byte :=
  list_wire token_wire (status_tokens s).

(** ** Positions, gaps and values *)

Definition encode_position (p : ProducerPosition) : Put :=
  put_ok (put_u128 (number_get (pos_epoch p))) ;> put_ok (put_u128 (number_get (pos_sequence p))).
Definition decode_position : Decoder ProducerPosition :=
  let* epoch := get_u128 in let* sequence := get_u128 in
  ret (mkPosition (mkNumber epoch) (mkNumber sequence)).
Definition position_wire (p : ProducerPosition) : list byte :=
  be_bytes 16 (number_get (pos_epoch p)) ++ be_bytes 16 (number_get (pos_sequence p)).

Definition encode_gap (g : Gap) : Put :=
  put_ok (put_u128 (number_get (gap_epoch g))) ;> put_ok (put_u128 (number_get (gap_start g))) ;>
  put_ok (put_u128 (number_get (gap_end g))) ;> encode_gap_reason (gap_reason g).
Definition decode_gap : Decoder Gap :=
  let* epoch := get_u128 in let* start := get_u128 in let* end_ := get_u128 in
  let* reason := decode_gap_reason in
  lift (map_err invalid_model (gap_new (mkNumber epoch) (mkNumber start) (mkNumber end_) reason)).
Definition gap_wire (g : Gap) : list byte :=
  be_bytes 16 (number_get (gap_epoch g)) ++ be_bytes 16 (number_get (gap_start g)) ++
  be_bytes 16 (number_get (gap_end g)) ++ gap_reason_wire (gap_reason g).

Definition encode_source_gap (g : SourceGapEvidence) : Put :=
  put_ok (put_u128 (number_get (sgap_epoch g))) ;> put_ok (put_u128 (number_get (sgap_start g))) ;>
  put_ok (put_u128 (number_get (sgap_end g))) ;> encode_source_gap_reason (sgap_reason g).
Definition decode_source_gap : Decoder SourceGapEvidence :=
  let* epoch := get_u128 in let* start := get_u128 in let* end_ := get_u128 in
  let* reason := decode_source_gap_reason in
  lift (map_err invalid_model (source_gap_new (mkNumber epoch) (mkNumber start) (mkNumber end_) reason)).
Definition source_gap_wire (g : SourceGapEvidence) : list byte :=
  be_bytes 16 (number_get (sgap_epoch g)) ++ be_bytes 16 (number_get (sgap_start g)) ++
  be_bytes 16 (number_get (sgap_end g)) ++ source_gap_reason_wire (sgap_reason g).

Definition encode_exact_value (v : ExactValue) : Put :=
  match v with
  | VReal r => put_ok (put_u8 1) ;> put_ok (put_u64 (to_bits r))
  | VSigned z => put_ok (put_u8 2) ;> put_ok (put_i64 z)
  | VUnsigned z => put_ok (put_u8 3) ;> put_ok (put_u64 z)
  | VBoolean b => put_ok (put_u8 4) ;> encode_boolean b
  | VState s => put_ok (put_u8 5) ;> encode_token (state_class s) ;> encode_token (state_member s)
  | VText t => put_ok (put_u8 6) ;> encode_text t
  | VArtifact a => put_ok (put_u8 7) ;> encode_artifact a
  | VUnavailable u => put_ok (put_u8 8) ;> put_opt encode_token (unavailable_reason u)
  end.
Definition decode_exact_value : Decoder ExactValue :=
  let* tag := get_u8 in
  match tag with
  | 1 => let* bits := get_u64 in ret (VReal (mkRealBits bits))
  | 2 => let* z := get_i64 in ret (VSigned z)
  | 3 => let* z := get_u64 in ret (VUnsigned z)
  | 4 => let* b := decode_boolean in ret (VBoolean b)
  | 5 => let* class := decode_token in let* member := decode_token in ret (VState (mkStateValue class member))
  | 6 => let* t := decode_text in ret (VText t)
  | 7 => let* a := decode_artifact in ret (VArtifact a)
  | 8 => let* reason := get_opt decode_token in ret (VUnavailable (mkUnavailable reason))
  | _ => fail UnknownTag
  end.
Definition exact_value_wire (v : ExactValue) : list byte :=
  match v with
  | VReal r => be_bytes 1 1 ++ be_bytes 8 (to_bits r)
  | VSigned z => be_bytes 1 2 ++ be_bytes 8 z
  | VUnsigned z => be_bytes 1 3 ++ be_bytes 8 z
  | VBoolean b => be_bytes 1 4 ++ boolean_wire b
  | VState s => be_bytes 1 5 ++ token_wire (state_class s) ++ token_wire (state_member s)
  | VText t => be_bytes 1 6 ++ text_wire t
  | VArtifact a => be_bytes 1 7 ++ artifact_wire a
  | VUnavailable u => be_bytes 1 8 ++ opt_wire token_wire (unavailable_reason u)
  end.

(** ** Observations and envelopes *)

Definition encode_observation (o : Observation) : Put :=
  encode_id (observation_id o) ;> encode_exact_value (obs_value o) ;>
  encode_observation_times (obs_times o) ;> encode_quality (obs_quality o) ;>
  encode_native_status (obs_native_status o) ;> put_opt encode_position (obs_position o) ;>
  put_opt encode_time_interval (obs_interval o).
Definition decode_observation : Decoder Observation :=
  let* id := decode_id in let* value := decode_exact_value in let* times := decode_observation_times in
  let* quality := decode_quality in let* status := decode_native_status in
  let* position := get_opt decode_position in let* interval := get_opt decode_time_interval in
  ret (mkObservation id value times quality status position interval).
Definition observation_wire (o : Observation) : list byte :=
  into_bytes (observation_id o) ++ exact_value_wire (obs_value o) ++ observation_times_wire (obs_times o) ++
  quality_wire (obs_quality o) ++ native_status_wire (obs_native_status o) ++
  opt_wire position_wire (obs_position o) ++ opt_wire time_interval_wire (obs_interval o).

Definition encode_series_metadata (m : SeriesMetadata) : Put :=
  encode_id (meta_series_id m) ;> encode_id (meta_producer_id m) ;> encode_collection_mode (meta_mode m).
Definition decode_series_metadata : Decoder SeriesMetadata :=
  let* series := decode_id in let* producer := decode_id in let* mode := decode_collection_mode in
  ret (mkSeriesMetadata series producer mode).
Definition series_metadata_wire (m : SeriesMetadata) : list byte :=
  into_bytes (meta_series_id m) ++ into_bytes (meta_producer_id m) ++ mode_wire (meta_mode m).

(** The [None] case of [no_change_evidence] for a no-change envelope is the
    code's [InvalidCanonicalData]; the evidence kind rules it out. *)
Definition encode_envelope (e : CollectionEnvelope) : Put :=
  encode_series_metadata (env_series e) ;>
  match evidence_kind e with
  | KObserved =>
    put_ok (put_u8 1) ;> put_list encode_observation (observations e) ;> put_list encode_gap (gaps e)
  | KNoChange =>
    put_ok (put_u8 2) ;>
    match no_change_evidence e with
    | Some n => encode_time_interval (no_change_interval n)
    | None => λ _, Err InvalidCanonicalData
    end
  end.
Definition decode_envelope : Decoder CollectionEnvelope :=
  let* metadata := decode_series_metadata in
  let* tag := get_u8 in
  match tag with
  | 1 =>
    let* os := get_list MAX_OBSERVATIONS decode_observation in
    let* gs := get_list MAX_GAPS decode_gap in
    lift (map_err invalid_model (envelope_observed metadata os gs))
  | 2 =>
    let* interval := decode_time_interval in
    lift (map_err invalid_model (envelope_no_change metadata (mkNoChange interval)))
  | _ => fail UnknownTag
  end.
Definition envelope_wire (e : CollectionEnvelope) : list byte :=
  series_metadata_wire (env_series e) ++
  match env_evidence e with
  | Observed os gs => be_bytes 1 1 ++ list_wire observation_wire os ++ list_wire gap_wire gs
  | NoChangeEvidence n => be_bytes 1 2 ++ time_interval_wire (no_change_interval n)
  end.

(** ** Declarations *)

Definition encode_source_reference (s : SourceReference) : Put :=
  encode_reference (provider s) ;> put_opt encode_projection (projection s) ;> encode_reference (locator s).
Definition decode_source_reference : Decoder SourceReference :=
  let* provider := decode_reference in let* projection := get_opt decode_projection in
  let* locator := decode_reference in
  ret match projection with
      | Some projection => source_with_projection provider projection locator
      | None => source_new provider locator
      end.
Definition source_reference_wire (s : SourceReference) : list byte :=
  reference_wire (provider s) ++ opt_wire projection_wire (projection s) ++ reference_wire (locator s).

Definition encode_binding (b : SeriesBinding) : Put := encode_source_reference (binding_source b).
Definition decode_binding : Decoder SeriesBinding :=
  let* source := decode_source_reference in ret (mkBinding source).
Definition binding_wire (b : SeriesBinding) : list byte := source_reference_wire (binding_source b).

Definition encode_quantity (q : QuantityEvidence) : Put :=
  match q with
  | QuantityAbsent => put_ok (put_u8 0)
  | QuantityResolved r => put_ok (put_u8 1) ;> encode_reference r
  | QuantityUnresolved r => put_ok (put_u8 2) ;> encode_reference r
  end.
Definition decode_quantity : Decoder QuantityEvidence :=
  let* tag := get_u8 in
  match tag with
  | 0 => ret QuantityAbsent
  | 1 => let* r := decode_reference in ret (QuantityResolved r)
  | 2 => let* r := decode_reference in ret (QuantityUnresolved r)
  | _ => fail UnknownTag
  end.
Definition quantity_wire (q : QuantityEvidence) : list byte :=
  match q with
  | QuantityAbsent => be_bytes 1 0
  | QuantityResolved r => be_bytes 1 1 ++ reference_wire r
  | QuantityUnresolved r => be_bytes 1 2 ++ reference_wire r
  end.

Definition encode_unit (u : UnitEvidence) : Put :=
  match u with
  | UnitAbsent => put_ok (put_u8 0)
  | UnitResolved r => put_ok (put_u8 1) ;> encode_reference r
  | UnitUnresolved r => put_ok (put_u8 2) ;> encode_reference r
  end.
Definition decode_unit : Decoder UnitEvidence :=
  let* tag := get_u8 in
  match tag with
  | 0 => ret UnitAbsent
  | 1 => let* r := decode_reference in ret (UnitResolved r)
  | 2 => let* r := decode_reference in ret (UnitUnresolved r)
  | _ => fail UnknownTag
  end.
Definition unit_wire (u : UnitEvidence) : list byte :=
  match u with
  | UnitAbsent => be_bytes 1 0
  | UnitResolved r => be_bytes 1 1 ++ reference_wire r
  | UnitUnresolved r => be_bytes 1 2 ++ reference_wire r
  end.

Definition encode_declaration_payload (p : SeriesDeclarationPayload) : Put :=
  encode_id (payload_producer_id p) ;> encode_collection_mode (payload_mode p) ;>
  encode_value_family (payload_family p) ;> encode_quantity (payload_quantity p) ;>
  encode_unit (payload_unit p) ;> put_opt encode_reference (payload_application p).
Definition decode_declaration_payload : Decoder SeriesDeclarationPayload :=
  let* producer := decode_id in let* mode := decode_collection_mode in let* family := decode_value_family in
  let* quantity := decode_quantity in let* unit_ := decode_unit in
  let* application := get_opt decode_reference in
  ret (mkPayload producer mode family quantity unit_ application).
Definition declaration_payload_wire (p : SeriesDeclarationPayload) : list byte :=
  into_bytes (payload_producer_id p) ++ mode_wire (payload_mode p) ++
  family_wire (payload_family p) ++ quantity_wire (payload_quantity p) ++
  unit_wire (payload_unit p) ++ opt_wire reference_wire (payload_application p).

Definition encode_declaration_evidence (e : DeclarationEvidence) : Put :=
  encode_timestamp (effective_at e) ;> put_opt encode_artifact (evidence_artifact e).
Definition decode_declaration_evidence : Decoder DeclarationEvidence :=
  let* at_ := decode_timestamp in let* artifact := get_opt decode_artifact in
  ret (mkDeclEvidence at_ artifact).
Definition declaration_evidence_wire (e : DeclarationEvidence) : list byte :=
  timestamp_wire (effective_at e) ++ opt_wire artifact_wire (evidence_artifact e).

Definition encode_revision (r : DeclarationRevision) : Put := put_ok (put_u128 (revision_get r)).
Definition decode_revision : Decoder DeclarationRevision :=
  let* v := get_u128 in lift (map_err invalid_model (revision_new v)).
Definition revision_wire (r : DeclarationRevision) : list byte := be_bytes 16 (revision_get r).

(** ** Retry, batch and lifecycle evidence *)

Definition encode_retry (r : RetryQualification) : Put :=
  encode_id (retry_series_id r) ;> encode_id (retry_producer_id r) ;> encode_key (retry_key r) ;>
  encode_content (retry_content r).
Definition decode_retry : Decoder RetryQualification :=
  let* series := decode_id in let* producer := decode_id in let* key := decode_key in
  let* content := decode_content in ret (mkRetry series producer key content).
Definition retry_wire (r : RetryQualification) : list byte :=
  into_bytes (retry_series_id r) ++ into_bytes (retry_producer_id r) ++ key_wire (retry_key r) ++
  content_wire (retry_content r).

Definition encode_batch (b : SourceBatchMetadata) : Put :=
  encode_schema (batch_schema b) ;> put_ok (put_u128 (schema_version_get (batch_version b))) ;>
  encode_source_interval_kind (batch_interval b).
Definition decode_batch : Decoder SourceBatchMetadata :=
  let* schema := decode_schema in let* v := get_u128 in
  let* version := lift (map_err invalid_model (schema_version_new v)) in
  let* interval := decode_source_interval_kind in ret (mkBatch schema version interval).
Definition batch_wire (b : SourceBatchMetadata) : list byte :=
  schema_wire (batch_schema b) ++ be_bytes 16 (schema_version_get (batch_version b)) ++
  interval_kind_wire (batch_interval b).

Definition encode_system (s : SourceSystemEvidence) : Put :=
  encode_id (system_evidence_id s) ;> encode_reference (system_provider s) ;>
  encode_projection (system_projection s).
Definition decode_system : Decoder SourceSystemEvidence :=
  let* id := decode_id in let* provider := decode_reference in let* projection := decode_projection in
  ret (mkSystem id provider projection).
Definition system_wire (s : SourceSystemEvidence) : list byte :=
  into_bytes (system_evidence_id s) ++ reference_wire (system_provider s) ++
  projection_wire (system_projection s).

Definition encode_endpoint (e : SourceEndpointEvidence) : Put :=
  encode_id (endpoint_evidence_id e) ;> encode_id (endpoint_system_id e) ;>
  encode_reference (endpoint_locator e).
Definition decode_endpoint : Decoder SourceEndpointEvidence :=
  let* id := decode_id in let* system := decode_id in let* locator := decode_reference in
  ret (mkEndpoint id system locator).
Definition endpoint_wire (e : SourceEndpointEvidence) : list byte :=
  into_bytes (endpoint_evidence_id e) ++ into_bytes (endpoint_system_id e) ++
  reference_wire (endpoint_locator e).

Definition encode_run (r : CaptureRunEvidence) : Put :=
  encode_id (run_evidence_id r) ;> encode_id (run_endpoint_id r) ;> encode_timestamp (run_started_at r) ;>
  put_opt encode_timestamp (run_completed_at r).
Definition decode_run : Decoder CaptureRunEvidence :=
  let* id := decode_id in let* endpoint := decode_id in let* started := decode_timestamp in
  let* completed := get_opt decode_timestamp in
  lift (map_err invalid_model (capture_run_new id endpoint started completed)).
Definition run_wire (r : CaptureRunEvidence) : list byte :=
  into_bytes (run_evidence_id r) ++ into_bytes (run_endpoint_id r) ++ timestamp_wire (run_started_at r) ++
  opt_wire timestamp_wire (run_completed_at r).

Definition encode_snapshot (s : SourceSnapshotEvidence) : Put :=
  encode_id (snapshot_evidence_id s) ;> encode_id (snapshot_run_id s) ;> encode_artifact (snapshot_artifact s).
Definition decode_snapshot : Decoder SourceSnapshotEvidence :=
  let* id := decode_id in let* run := decode_id in let* artifact := decode_artifact in
  ret (mkSourceSnapshot id run artifact).
Definition snapshot_wire (s : SourceSnapshotEvidence) : list byte :=
  into_bytes (snapshot_evidence_id s) ++ into_bytes (snapshot_run_id s) ++ artifact_wire (snapshot_artifact s).

Definition encode_lifecycle (l : CaptureLifecycle) : Put :=
  encode_system (lc_system l) ;> encode_endpoint (lc_endpoint l) ;> encode_run (lc_run l) ;>
  encode_snapshot (lc_snapshot l).
Definition decode_lifecycle : Decoder CaptureLifecycle :=
  let* system := decode_system in let* endpoint := decode_endpoint in let* run := decode_run in
  let* snapshot := decode_snapshot in
  lift (map_err invalid_model (capture_lifecycle_new system endpoint run snapshot)).
Definition lifecycle_wire (l : CaptureLifecycle) : list byte :=
  system_wire (lc_system l) ++ endpoint_wire (lc_endpoint l) ++ run_wire (lc_run l) ++
  snapshot_wire (lc_snapshot l).

(** ** Observation lineage *)

Definition encode_idempotency (i : SourceIdempotency) : Put :=
  encode_key (idem_key i) ;> encode_content (idem_content i).
Definition decode_idempotency : Decoder SourceIdempotency :=
  let* key := decode_key in let* content := decode_content in ret (mkIdempotency key content).
Definition idempotency_wire (i : SourceIdempotency) : list byte :=
  key_wire (idem_key i) ++ content_wire (idem_content i).

Definition encode_source_observation (o : SourceObservationEvidence) : Put :=
  encode_id (oe_evidence_id o) ;> put_opt encode_artifact (oe_provenance o) ;>
  encode_transport (oe_transport o) ;> put_opt encode_idempotency (oe_idempotency o).
Definition decode_source_observation : Decoder SourceObservationEvidence :=
  let* id := decode_id in let* provenance := get_opt decode_artifact in
  let* transport := decode_transport in let* idempotency := get_opt decode_idempotency in
  ret (mkObsEvidence id provenance transport idempotency).
Definition source_observation_wire (o : SourceObservationEvidence) : list byte :=
  into_bytes (oe_evidence_id o) ++ opt_wire artifact_wire (oe_provenance o) ++
  transport_wire (oe_transport o) ++ opt_wire idempotency_wire (oe_idempotency o).

Definition encode_raw_record (r : RawRecordEvidence) : Put :=
  encode_id (raw_evidence_id r) ;> encode_id (raw_snapshot_id r) ;> encode_artifact (raw_artifact r) ;>
  put_opt encode_idempotency (raw_idempotency r).
Definition decode_raw_record : Decoder RawRecordEvidence :=
  let* id := decode_id in let* snapshot := decode_id in let* artifact := decode_artifact in
  let* idempotency := get_opt decode_idempotency in ret (mkRaw id snapshot artifact idempotency).
Definition raw_record_wire (r : RawRecordEvidence) : list byte :=
  into_bytes (raw_evidence_id r) ++ into_bytes (raw_snapshot_id r) ++ artifact_wire (raw_artifact r) ++
  opt_wire idempotency_wire (raw_idempotency r).

Definition encode_normalized_record (n : NormalizedRecordEvidence) : Put :=
  encode_id (norm_evidence_id n) ;> encode_id (norm_raw_record_id n) ;> encode_content (norm_content n) ;>
  encode_id (norm_observation_id n).
Definition decode_normalized_record : Decoder NormalizedRecordEvidence :=
  let* id := decode_id in let* raw := decode_id in let* content := decode_content in
  let* observation := decode_id in ret (mkNormalized id raw content observation).
Definition normalized_record_wire (n : NormalizedRecordEvidence) : list byte :=
  into_bytes (norm_evidence_id n) ++ into_bytes (norm_raw_record_id n) ++ content_wire (norm_content n) ++
  into_bytes (norm_observation_id n).

(** ** Codec instances: identities and strings *)

#[export] Instance id_codec F : IsCodec (@encode_id F) decode_id into_bytes 16.
Proof.
  split.
  - intros id _. apply writes_bytes.
  - intros id Hw. eapply reads_last; [apply reads_bytes; unfold len; by rewrite (wf_identity_length _ Hw)|].
    apply reads_lift. by rewrite from_bytes_into.
  - eapply accepts_and_then; [by apply accepts_take|]. intros b w [-> Hl]. apply accepts_lift.
    intros id Hid. rewrite app_nil_r. destruct (from_bytes w) as [id'|] eqn:E; [|done].
    injection Hid as ->. apply from_bytes_wf in E as [? ->]; [done|]. unfold len in Hl. lia.
  - intros id Hw. unfold len. rewrite (wf_identity_length _ Hw). done.
  - done.
Qed.

(** A type that wraps one checked string. *)
Lemma string_codec {A} `{Wf A} (str : A → rstring) (new : rstring → result ModelError A) maximum :
  maximum ≤ u32_max → 0 ≤ maximum →
  (∀ a, wf a → new (str a) = Ok a) → (∀ a, wf a → len (str a) ≤ maximum ∧ utf8_ok (str a)) →
  (∀ v a, utf8_ok v → new v = Ok a → wf a ∧ str a = v) →
  IsCodec (λ a, put_string (str a))
    (let* s := get_string maximum in lift (map_err invalid_model (new s)))
    (λ a, string_wire (str a)) (4 + maximum).
Proof.
  intros Hm Hm0 Hnew Hb Hsound. split.
  - intros a Ha. apply writes_string. pose proof (Hb a Ha). lia.
  - intros a Ha. pose proof (Hb a Ha) as [? ?]. eapply reads_last; [by apply reads_string|].
    apply reads_lift. by rewrite Hnew.
  - eapply accepts_and_then; [apply accepts_string|]. intros s v (Hu & Hl & ->).
    apply accepts_lift. intros a Ha. rewrite app_nil_r. destruct (new s) as [a'|] eqn:E; [|done].
    injection Ha as ->. apply Hsound in E as [? ->]; done.
  - intros a Ha. rewrite len_string_wire. pose proof (Hb a Ha). lia.
  - lia.
Qed.

#[export] Instance reference_codec : IsCodec encode_reference decode_reference reference_wire 4100.
Proof.
  apply (string_codec ref_str reference_new); try done.
  - intros r [_ Hr]%wf_reference_spec. done.
  - intros r Hr. pose proof (wf_reference_bound r Hr). apply wf_reference_spec in Hr as [? _].
    unfold MAX_DECLARATION_REFERENCE_BYTES. split; [lia|done].
  - intros v r. apply reference_new_wf.
Qed.

(** Projections and schema identities are references by another name. *)
Lemma renamed_reference_codec {A} `{Wf A} (str : A → DeclarationReference) (mk : DeclarationReference → A) :
  (∀ a, mk (str a) = a) → (∀ r, str (mk r) = r) → (∀ a, wf a ↔ wf (str a)) →
  IsCodec (λ a, put_string (ref_str (str a)))
    (let* s := get_string MAX_DECLARATION_REFERENCE_BYTES in
     lift (map_err invalid_model (let! r := reference_new s in Ok (mk r))))
    (λ a, string_wire (ref_str (str a))) 4100.
Proof.
  intros Hms Hsm Hwf. apply (string_codec (λ a, ref_str (str a)) (λ s, let! r := reference_new s in Ok (mk r)));
    try done.
  - intros a [_ ->]%Hwf%wf_reference_spec. by rewrite Hms.
  - intros a Ha%Hwf. pose proof (wf_reference_bound _ Ha). apply wf_reference_spec in Ha as [? _].
    unfold MAX_DECLARATION_REFERENCE_BYTES. split; [lia|done].
  - intros v a Hu Hn. destruct (reference_new v) as [r|] eqn:E; [|done]. injection Hn as <-.
    rewrite Hwf, Hsm. by apply reference_new_wf.
Qed.
#[export] Instance projection_codec : IsCodec encode_projection decode_projection projection_wire 4100.
Proof. by apply (renamed_reference_codec as_reference mkProjection); intros []. Qed.
#[export] Instance schema_codec : IsCodec encode_schema decode_schema schema_wire 4100.
Proof. by apply (renamed_reference_codec schema_reference mkSchemaIdentity); intros []. Qed.

#[export] Instance token_codec F : IsCodec (@encode_token F) decode_token token_wire 260.
Proof.
  apply (string_codec token_str token_new); try done.
  - apply token_new_str.
  - apply wf_token_bound.
  - intros v t _. apply token_new_Ok.
Qed.
#[export] Instance text_codec : IsCodec encode_text decode_text text_wire 16388.
Proof.
  apply (string_codec text_str exact_text_new); try done.
  - apply exact_text_new_str.
  - apply wf_exact_text_bound.
  - apply exact_text_new_Ok.
Qed.
#[export] Instance format_codec : IsCodec encode_format decode_format format_wire 68.
Proof.
  apply (string_codec format_str content_format_new); try done.
  - apply content_format_new_str.
  - apply wf_content_format_bound.
  - intros v f _. apply content_format_new_Ok.
Qed.
#[export] Instance key_codec : IsCodec encode_key decode_key key_wire 132.
Proof.
  apply (string_codec key_str retry_key_new); try done.
  - apply retry_key_new_str.
  - apply wf_retry_key_bound.
  - intros v k _. apply retry_key_new_Ok.
Qed.

(** ** Codec instances: enumerations *)

Ltac tag_codec :=
  split;
  [ intros ? _; apply writes_u8
  | intros [] _; (eapply reads_last; [by apply reads_u8|apply reads_ret])
  | eapply accepts_and_then; [apply accepts_u8|]; intros tag v [_ ->];
    repeat (case_match; try apply accepts_fail); by apply accepts_ret
  | intros ? _; apply Z.eq_le_incl, len_be_bytes
  | done ].

#[export] Instance mode_codec : IsCodec encode_collection_mode decode_collection_mode mode_wire 1.
Proof. tag_codec. Qed.
#[export] Instance family_codec : IsCodec encode_value_family decode_value_family family_wire 1.
Proof. tag_codec. Qed.
#[export] Instance interval_kind_codec :
  IsCodec encode_source_interval_kind decode_source_interval_kind interval_kind_wire 1.
Proof. tag_codec. Qed.
#[export] Instance transport_codec : IsCodec encode_transport decode_transport transport_wire 1.
Proof. tag_codec. Qed.
#[export] Instance gap_reason_codec : IsCodec encode_gap_reason decode_gap_reason gap_reason_wire 1.
Proof. tag_codec. Qed.
#[export] Instance source_gap_reason_codec :
  IsCodec encode_source_gap_reason decode_source_gap_reason source_gap_reason_wire 1.
Proof. tag_codec. Qed.
#[export] Instance level_codec : IsCodec encode_quality_level decode_quality_level level_wire 1.
Proof. tag_codec. Qed.
#[export] Instance boolean_codec : IsCodec encode_boolean decode_boolean boolean_wire 1.
Proof. tag_codec. Qed.

(** ** Codec instances: content, time, positions *)

#[export] Instance content_codec : IsCodec encode_content decode_content content_wire 116.
Proof.
  record_codec.
  - unfold len. lia.
  - cbn. apply bool_decide_spec. unfold len in *. lia.
  - assert (len (content_sha256 x) = 32) as E by (unfold len; lia). rewrite !len_app, E. solve_len.
Qed.
#[export] Instance artifact_codec : IsCodec encode_artifact decode_artifact artifact_wire 132.
Proof. record_codec. Qed.

#[export] Instance timestamp_codec : IsCodec encode_timestamp decode_timestamp timestamp_wire 12.
Proof.
  split.
  - intros t _. unfold encode_timestamp, timestamp_wire. solve_writes.
  - intros t Hw. pose proof (timestamp_new_wf _ Hw) as Hn. apply wf_timestamp_spec in Hw as [? ?].
    unfold decode_timestamp, timestamp_wire. solve_reads.
    + by apply in_range_spec.
    + apply in_range_spec. unfold u32_max, NANOS_PER_SECOND in *. lia.
    + by rewrite Hn.
  - unfold decode_timestamp, timestamp_wire. solve_accepts.
    destruct (timestamp_new _ _) as [t|] eqn:E; [|done]. injection Hnew as ->.
    rewrite in_range_spec in *. apply timestamp_new_Ok in E as (? & <- & <-); [|by apply in_range_spec|lia].
    by rewrite app_nil_r.
  - intros t _. unfold timestamp_wire. solve_len.
  - done.
Qed.
#[export] Instance time_interval_codec :
  IsCodec encode_time_interval decode_time_interval time_interval_wire 24.
Proof.
  split.
  - intros i (? & ? & _)%wf_interval_spec. unfold encode_time_interval, time_interval_wire. solve_writes.
  - intros i (? & ? & Hlt)%wf_interval_spec. unfold decode_time_interval, time_interval_wire. solve_reads.
    assert (time_interval_new (interval_start i) (interval_end i) = Ok i) as ->; [|done].
    apply time_interval_new_spec. split; [by destruct i|done].
  - unfold decode_time_interval, time_interval_wire. solve_accepts.
    destruct (time_interval_new _ _) as [i|] eqn:E; [|done]. injection Hnew as ->.
    apply time_interval_new_spec in E as [-> ?]. rewrite app_nil_r, wf_interval_spec. done.
  - intros i (? & ? & _)%wf_interval_spec. unfold time_interval_wire. solve_len.
  - done.
Qed.
#[export] Instance observation_times_codec :
  IsCodec encode_observation_times decode_observation_times observation_times_wire 37.
Proof. record_codec. Qed.
#[export] Instance position_codec : IsCodec encode_position decode_position position_wire 32.
Proof. record_codec. Qed.

(** ** Codec instances: quality and native status *)

(** The six bits on the wire are the private byte itself. *)
Lemma quality_bits_flags f : wf f → quality_bits f = flag_bits f ∧ flags_of_bits (flag_bits f) = f.
Proof.
  revert f. apply wf_flags_cases. repeat constructor; by vm_compute.
Qed.

Lemma high_bits_clear bits : is_u8 bits → Z.land bits (Z.lxor 0x3f u8_max) = 0 ↔ 0 ≤ bits < 64.
Proof.
  intros Hb%in_range_spec. change (Z.lxor 0x3f u8_max) with 192.
  assert (Z.land bits 192 = 64 * Z.land (bits / 64) 3) as ->.
  { change 192 with (Z.shiftl 3 6). change 64 with (2 ^ 6). rewrite <-Z.shiftr_div_pow2 by lia.
    rewrite Z.mul_comm, <-Z.shiftl_mul_pow2 by lia. apply Z.bits_inj'. intros n Hn.
    rewrite Z.land_spec, !Z.shiftl_spec by lia. destruct (decide (n < 6)).
    - rewrite !(Z.testbit_neg_r _ (n - 6)) by lia. by rewrite andb_false_r.
    - rewrite Z.land_spec, Z.shiftr_spec by lia. do 2 f_equal. lia. }
  unfold u8_max in Hb. assert (0 ≤ bits / 64 < 4) as Hq.
  { split; [apply Z.div_pos; lia|apply Z.div_lt_upper_bound; lia]. }
  assert (Z.land (bits / 64) 3 = bits / 64) as ->.
  { change 3 with (Z.ones 2). rewrite Z.land_ones by lia. by apply Z.mod_small. }
  pose proof (Z.div_mod bits 64 ltac:(lia)). pose proof (Z.mod_pos_bound bits 64 ltac:(lia)). lia.
Qed.

#[export] Instance quality_codec : IsCodec encode_quality decode_quality quality_wire 2.
Proof.
  split.
  - intros q _. unfold encode_quality, quality_wire. solve_writes.
  - intros [l f] Hw. pose proof (quality_bits_flags f Hw) as [Hq Hf].
    apply bool_decide_spec in Hw. cbn in Hw. unfold decode_quality, quality_wire. cbn [quality_level quality_flags].
    rewrite Hq. assert (is_u8 (flag_bits f)) by (apply in_range_spec; unfold u8_max; lia). solve_reads.
    rewrite decide_False by (intros Hn; by apply Hn, high_bits_clear).
    rewrite Hf. apply reads_ret.
  - unfold decode_quality, quality_wire. solve_accepts.
    match goal with H : Z.land _ _ = 0 |- _ => apply high_bits_clear in H; [|done] end.
    set (f := mkQualityFlags a0). assert (wf f) as Hf by (by apply bool_decide_spec).
    destruct (quality_bits_flags f Hf) as [Hq Hf']. cbn [quality_level quality_flags].
    change (flags_of_bits a0) with (flags_of_bits (flag_bits f)). rewrite Hf', Hq, app_nil_r. done.
  - intros q _. unfold quality_wire. solve_len.
  - done.
Qed.

#[export] Instance native_status_codec :
  IsCodec encode_native_status decode_native_status native_status_wire 4164.
Proof.
  assert (0 ≤ MAX_NATIVE_STATUS_TOKENS ≤ u32_max) as Hm by done. split.
  - intros s Hw. wf_split Hw. apply (codec_writes_list _ _ _ _ (token_codec NativeStatusFamily) _ Hm); assumption.
  - intros s Hw. wf_split Hw. unfold decode_native_status. eapply reads_last.
    + apply (codec_reads_list _ _ _ _ (token_codec NativeStatusFamily) _ Hm); assumption.
    + apply reads_lift. unfold native_status_new. rewrite decide_False by lia. by destruct s.
  - eapply accepts_and_then; [eapply codec_accepts_list, token_codec|]. intros l v [[Hl Hw] ->].
    apply accepts_lift. intros s Hs. unfold native_status_new in Hs. rewrite decide_False in Hs by lia.
    injection Hs as <-. rewrite app_nil_r. split; [|done]. wf_intro; [done|by apply bool_decide_spec].
  - intros s Hw. wf_split Hw. etrans; [apply (codec_len_list _ _ _ _ (token_codec NativeStatusFamily) MAX_NATIVE_STATUS_TOKENS); assumption|done].
  - done.
Qed.

(** ** Codec instances: gaps, values, observations *)

#[export] Instance gap_codec : IsCodec encode_gap decode_gap gap_wire 49.
Proof.
  split.
  - intros g _. unfold encode_gap, gap_wire. solve_writes.
  - intros g (? & ? & ? & Hlt)%wf_gap_spec. unfold decode_gap, gap_wire. solve_reads.
    destruct g as [[] [] [] r]. assert (∀ e s n, number_lt s n → gap_new e s n r = Ok (mkGap e s n r)) as ->; [|done..].
    intros. by apply gap_new_Ok.
  - unfold decode_gap, gap_wire. solve_accepts.
    destruct (gap_new _ _ _ _) as [g|] eqn:E; [|done]. injection Hnew as ->.
    apply gap_new_Ok in E as [-> ?]. rewrite app_nil_r, wf_gap_spec. done.
  - intros g _. unfold gap_wire. solve_len.
  - done.
Qed.

Lemma source_gap_new_Ok e s n r g : source_gap_new e s n r = Ok g ↔ g = mkSourceGap e s n r ∧ number_lt s n.
Proof. unfold source_gap_new. case_decide; naive_solver. Qed.
Lemma wf_source_gap_spec g :
  wf g ↔ wf (sgap_epoch g) ∧ wf (sgap_start g) ∧ wf (sgap_end g) ∧ number_lt (sgap_start g) (sgap_end g).
Proof. unfold wf at 1, wf_source_gap, source_gap_new. rewrite !andb_True. case_decide; cbn; naive_solver. Qed.

#[export] Instance source_gap_codec : IsCodec encode_source_gap decode_source_gap source_gap_wire 49.
Proof.
  split.
  - intros g _. unfold encode_source_gap, source_gap_wire. solve_writes.
  - intros g (? & ? & ? & Hlt)%wf_source_gap_spec. unfold decode_source_gap, source_gap_wire. solve_reads.
    destruct g as [[] [] [] r].
    assert (∀ e s n, number_lt s n → source_gap_new e s n r = Ok (mkSourceGap e s n r)) as ->; [|done..].
    intros. by apply source_gap_new_Ok.
  - unfold decode_source_gap, source_gap_wire. solve_accepts.
    destruct (source_gap_new _ _ _ _) as [g|] eqn:E; [|done]. injection Hnew as ->.
    apply source_gap_new_Ok in E as [-> ?]. rewrite app_nil_r, wf_source_gap_spec. done.
  - intros g _. unfold source_gap_wire. solve_len.
  - done.
Qed.

#[export] Instance exact_value_codec : IsCodec encode_exact_value decode_exact_value exact_value_wire 16389.
Proof.
  split.
  - intros v Hw. unfold encode_exact_value, exact_value_wire.
    destruct v; try solve [solve_writes].
    change (Is_true (wf s)) in Hw. wf_split Hw. solve_writes.
  - intros v Hw. unfold decode_exact_value, exact_value_wire.
    destruct v as [[]| | | |[class member]| | |[]]; try solve [solve_reads].
    change (Is_true (wf (mkStateValue class member))) in Hw. wf_split Hw. solve_reads.
  - unfold decode_exact_value. solve_accepts; (split; [|by rewrite ?app_nil_r]); try assumption; try done.
    lazymatch goal with |- Is_true (wf (VState ?s)) => change (Is_true (wf s)) end. wf_intro; assumption.
  - intros v Hw. unfold exact_value_wire. destruct v; try solve [solve_len].
    change (Is_true (wf s)) in Hw. wf_split Hw. solve_len.
  - done.
Qed.

#[export] Instance observation_codec : IsCodec encode_observation decode_observation observation_wire 20668.
Proof. record_codec. Qed.
#[export] Instance series_metadata_codec :
  IsCodec encode_series_metadata decode_series_metadata series_metadata_wire 33.
Proof. record_codec. Qed.

(** ** Codec instances: envelopes *)

Lemma limits_ok : 0 ≤ MAX_OBSERVATIONS ≤ u32_max ∧ 0 ≤ MAX_GAPS ≤ u32_max.
Proof. done. Qed.

(** What the invariant of an envelope says of its two kinds. *)
Lemma wf_envelope_observed m os gs :
  wf (mkEnvelope m (Observed os gs)) ↔
  wf m ∧ wf os ∧ wf gs ∧ envelope_observed m os gs = Ok (mkEnvelope m (Observed os gs)).
Proof.
  unfold wf at 1, wf_envelope. cbn [env_series env_evidence]. unfold envelope_observed.
  rewrite !andb_True. destruct (validate_observed _ os gs) as [[]|]; cbn; naive_solver.
Qed.
Lemma wf_envelope_no_change m n :
  wf (mkEnvelope m (NoChangeEvidence n)) ↔
  wf m ∧ wf (no_change_interval n) ∧ envelope_no_change m n = Ok (mkEnvelope m (NoChangeEvidence n)).
Proof.
  unfold wf at 1, wf_envelope. cbn [env_series env_evidence]. unfold envelope_no_change.
  rewrite !andb_True, bool_decide_spec. case_decide; naive_solver.
Qed.
Lemma wf_envelope_limits m os gs :
  wf (mkEnvelope m (Observed os gs)) → len os ≤ MAX_OBSERVATIONS ∧ len gs ≤ MAX_GAPS.
Proof.
  intros (_ & _ & Hg & Ho)%wf_envelope_observed. unfold envelope_observed in Ho.
  destruct (validate_observed _ os gs) as [[]|] eqn:E; [|done].
  apply validate_observed_spec in E; [|done]. apply E.
Qed.

#[export] Instance envelope_codec : IsCodec encode_envelope decode_envelope envelope_wire 5294186.
Proof.
  destruct limits_ok as [Ho Hg]. split.
  - intros [m [os gs|n]] Hw; unfold encode_envelope, envelope_wire; cbn [env_series env_evidence evidence_kind
      observations gaps no_change_evidence].
    + pose proof (wf_envelope_limits _ _ _ Hw) as [? ?]. apply wf_envelope_observed in Hw as (? & ? & ? & _).
      apply writes_then; [writes_atom|]. apply writes_then; [writes_atom|]. apply writes_then.
      * apply (codec_writes_list _ _ _ _ observation_codec _ Ho); assumption.
      * apply (codec_writes_list _ _ _ _ gap_codec _ Hg); assumption.
    + apply wf_envelope_no_change in Hw as (? & ? & _). solve_writes.
  - intros [m [os gs|n]] Hw; unfold decode_envelope, envelope_wire; cbn [env_series env_evidence].
    + pose proof (wf_envelope_limits _ _ _ Hw) as [? ?]. apply wf_envelope_observed in Hw as (? & ? & ? & Hnew).
      eapply reads_and_then; [by eapply codec_reads|]. eapply reads_and_then; [by apply reads_u8|]. cbv iota.
      eapply reads_and_then; [apply (codec_reads_list _ _ _ _ observation_codec _ Ho); assumption|].
      eapply reads_last; [apply (codec_reads_list _ _ _ _ gap_codec _ Hg); assumption|].
      apply reads_lift. by rewrite Hnew.
    + apply wf_envelope_no_change in Hw as (? & ? & Hnew). solve_reads.
      assert (mkNoChange (no_change_interval n) = n) as -> by (by destruct n). by rewrite Hnew.
  - eapply accepts_and_then; [apply codec_accepts|]. intros m v [Hm ->].
    eapply accepts_and_then; [apply accepts_u8|]. intros tag v [_ ->].
    repeat (case_match; try apply accepts_fail); subst.
    + solve_accepts. destruct (envelope_no_change _ _) as [e|] eqn:E; [|done]. injection Hnew as <-.
      assert (e = mkEnvelope m (NoChangeEvidence (mkNoChange a))) as ->
        by (unfold envelope_no_change in E; case_decide; naive_solver).
      split; [by apply wf_envelope_no_change|by rewrite app_nil_r].
    + eapply accepts_and_then; [apply (codec_accepts_list _ _ _ _ observation_codec)|]. intros os v [[_ ?] ->].
      eapply accepts_and_then; [apply (codec_accepts_list _ _ _ _ gap_codec)|]. intros gs v [[_ ?] ->].
      apply accepts_lift. intros e He. destruct (envelope_observed _ _ _) as [e'|] eqn:E; [|done].
      injection He as <-.
      assert (e' = mkEnvelope m (Observed os gs)) as ->
        by (unfold envelope_observed in E; destruct (validate_observed _ _ _); naive_solver).
      split; [by apply wf_envelope_observed|by rewrite app_nil_r].
  - intros [m [os gs|n]] Hw; unfold envelope_wire; cbn [env_series env_evidence].
    + pose proof (wf_envelope_limits _ _ _ Hw) as [? ?]. apply wf_envelope_observed in Hw as (? & ? & ? & _).
      assert (len (list_wire observation_wire os) ≤ 4 + MAX_OBSERVATIONS * 20668) as Hlo
        by (apply (codec_len_list _ _ _ _ observation_codec); assumption).
      assert (len (list_wire gap_wire gs) ≤ 4 + MAX_GAPS * 49) as Hlg
        by (apply (codec_len_list _ _ _ _ gap_codec); assumption).
      assert (len (series_metadata_wire m) ≤ 33) as Hlm by (eapply codec_len; assumption).
      rewrite !len_app, len_be_bytes. unfold MAX_OBSERVATIONS, MAX_GAPS in *. lia.
    + apply wf_envelope_no_change in Hw as (? & ? & _). solve_len.
  - done.
Qed.

(** ** Codec instances: declarations *)

#[export] Instance source_reference_codec :
  IsCodec encode_source_reference decode_source_reference source_reference_wire 12301.
Proof.
  record_codec.
  - destruct x as [p [j|] l]; done.
  - destruct a0; accepted.
Qed.
#[export] Instance binding_codec : IsCodec encode_binding decode_binding binding_wire 12301.
Proof.
  split.
  - intros b Hw. unfold encode_binding, binding_wire. change (Is_true (wf (binding_source b))) in Hw. solve_writes.
  - intros b Hw. unfold decode_binding, binding_wire. change (Is_true (wf (binding_source b))) in Hw. solve_reads.
    by destruct b.
  - unfold decode_binding, binding_wire. solve_accepts. by rewrite app_nil_r.
  - intros b Hw. unfold binding_wire. change (Is_true (wf (binding_source b))) in Hw. solve_len.
  - done.
Qed.

(** A quantity or unit is a tag and, unless absent, a reference. *)
Ltac evidence_codec :=
  lazymatch goal with
  | |- IsCodec ?e ?d ?w _ =>
    split;
    [ intros [|r|r] Hw; [apply writes_u8|..]; change (Is_true (wf r)) in Hw; unfold e, w; solve_writes
    | intros [|r|r] Hw; unfold d, w; [solve_reads|..]; change (Is_true (wf r)) in Hw; solve_reads
    | unfold d; solve_accepts; (split; [done|by rewrite ?app_nil_r])
    | intros [|r|r] Hw; unfold w; [solve_len|..]; change (Is_true (wf r)) in Hw; solve_len
    | done ]
  end.
#[export] Instance quantity_codec : IsCodec encode_quantity decode_quantity quantity_wire 4101.
Proof. evidence_codec. Qed.
#[export] Instance unit_codec : IsCodec encode_unit decode_unit unit_wire 4101.
Proof. evidence_codec. Qed.

#[export] Instance declaration_payload_codec :
  IsCodec encode_declaration_payload decode_declaration_payload declaration_payload_wire 12321.
Proof. record_codec. Qed.
#[export] Instance declaration_evidence_codec :
  IsCodec encode_declaration_evidence decode_declaration_evidence declaration_evidence_wire 145.
Proof. record_codec. Qed.

#[export] Instance revision_codec : IsCodec encode_revision decode_revision revision_wire 16.
Proof.
  split.
  - intros r _. unfold encode_revision, revision_wire. solve_writes.
  - intros [v] Hw%in_range_spec. unfold decode_revision, revision_wire. cbn [revision_get] in *.
    eapply reads_last; [apply reads_u128, in_range_spec; lia|]. apply reads_lift. unfold revision_new.
    by rewrite decide_False by lia.
  - unfold decode_revision, revision_wire. solve_accepts. unfold revision_new in Hnew.
    rewrite in_range_spec in *. case_decide; [done|]. injection Hnew as <-. rewrite app_nil_r. split; [|done].
    apply in_range_spec. cbn. lia.
  - intros r _. unfold revision_wire. solve_len.
  - done.
Qed.

(** ** Codec instances: retry, batch, lifecycle *)

#[export] Instance retry_codec : IsCodec encode_retry decode_retry retry_wire 280.
Proof. record_codec. Qed.

#[export] Instance batch_codec : IsCodec encode_batch decode_batch batch_wire 4117.
Proof.
  split.
  - intros b Hw. wf_split Hw. unfold encode_batch, batch_wire. solve_writes.
  - intros [s [v] k] Hw. wf_split Hw. unfold decode_batch, batch_wire. cbn [batch_schema batch_version batch_interval
      schema_version_get] in *. match goal with H : Is_true (wf (mkSchemaVersion v)) |- _ => apply in_range_spec in H end.
    eapply reads_and_then; [by eapply codec_reads|]. eapply reads_and_then; [apply reads_u128, in_range_spec; cbn in *; lia|].
    rewrite <-(app_nil_l (interval_kind_wire k)). eapply reads_and_then.
    + apply reads_lift. unfold schema_version_new. cbn in *. by rewrite decide_False by lia.
    + solve_reads.
  - eapply accepts_and_then; [apply codec_accepts|]. intros s v [Hs ->].
    eapply accepts_and_then; [apply accepts_u128|]. intros n v [Hn%in_range_spec ->].
    eapply (accepts_and_then _ _ (λ r w, schema_version_new n = Ok r ∧ w = [])).
    { apply accepts_lift. intros r Hr. destruct (schema_version_new n); [|done]. by injection Hr as ->. }
    intros r v [Hr ->]. unfold schema_version_new in Hr. case_decide; [done|]. injection Hr as <-.
    solve_accepts. split; [|by rewrite ?app_nil_r].
    wf_intro; [assumption|]. apply in_range_spec. cbn. lia.
  - intros b Hw. wf_split Hw. unfold batch_wire. solve_len.
  - done.
Qed.

#[export] Instance system_codec : IsCodec encode_system decode_system system_wire 8216.
Proof. record_codec. Qed.
#[export] Instance endpoint_codec : IsCodec encode_endpoint decode_endpoint endpoint_wire 4132.
Proof. record_codec. Qed.

Lemma capture_run_new_Ok i e s c r :
  capture_run_new i e s c = Ok r ↔ r = mkRun i e s c ∧ ∀ t, c = Some t → ¬ ts_lt t s.
Proof. unfold capture_run_new. destruct c; [case_decide|]; naive_solver. Qed.
Lemma wf_run_spec r :
  wf r ↔ wf (run_evidence_id r) ∧ wf (run_endpoint_id r) ∧ wf (run_started_at r) ∧ wf (run_completed_at r) ∧
    capture_run_new (run_evidence_id r) (run_endpoint_id r) (run_started_at r) (run_completed_at r) = Ok r.
Proof.
  unfold wf at 1, wf_run. rewrite !andb_True.
  destruct (capture_run_new _ _ _ _) as [r'|] eqn:E; [|naive_solver].
  apply capture_run_new_Ok in E as [-> _]. destruct r. naive_solver.
Qed.
#[export] Instance run_codec : IsCodec encode_run decode_run run_wire 57.
Proof.
  split.
  - intros r (? & ? & ? & ? & _)%wf_run_spec. unfold encode_run, run_wire. solve_writes.
  - intros r (? & ? & ? & ? & Hr)%wf_run_spec. unfold decode_run, run_wire. solve_reads. by rewrite Hr.
  - unfold decode_run, run_wire. solve_accepts. destruct (capture_run_new _ _ _ _) as [r|] eqn:E; [|done].
    injection Hnew as <-. pose proof E as [-> _]%capture_run_new_Ok. rewrite ?app_nil_r, wf_run_spec. done.
  - intros r (? & ? & ? & ? & _)%wf_run_spec. unfold run_wire. solve_len.
  - done.
Qed.
#[export] Instance snapshot_codec : IsCodec encode_snapshot decode_snapshot snapshot_wire 164.
Proof. record_codec. Qed.

Lemma wf_lifecycle_spec l :
  wf l ↔ wf (lc_system l) ∧ wf (lc_endpoint l) ∧ wf (lc_run l) ∧ wf (lc_snapshot l) ∧
    capture_lifecycle_new (lc_system l) (lc_endpoint l) (lc_run l) (lc_snapshot l) = Ok l.
Proof.
  unfold wf at 1, wf_lifecycle. rewrite !andb_True. destruct l as [a b c d]. cbn.
  unfold capture_lifecycle_new. repeat case_decide; naive_solver.
Qed.
#[export] Instance lifecycle_codec : IsCodec encode_lifecycle decode_lifecycle lifecycle_wire 12569.
Proof.
  split.
  - intros l (? & ? & ? & ? & _)%wf_lifecycle_spec. unfold encode_lifecycle, lifecycle_wire. solve_writes.
  - intros l (? & ? & ? & ? & Hl)%wf_lifecycle_spec. unfold decode_lifecycle, lifecycle_wire. solve_reads.
    by rewrite Hl.
  - unfold decode_lifecycle, lifecycle_wire. solve_accepts.
    destruct (capture_lifecycle_new _ _ _ _) as [l|] eqn:E; [|done]. injection Hnew as <-.
    assert (l = mkLifecycle a a0 a1 a2) as -> by (unfold capture_lifecycle_new in E; repeat case_decide; naive_solver).
    rewrite ?app_nil_r, wf_lifecycle_spec. done.
  - intros l (? & ? & ? & ? & _)%wf_lifecycle_spec. unfold lifecycle_wire. solve_len.
  - done.
Qed.

(** ** Codec instances: lineage *)

#[export] Instance idempotency_codec : IsCodec encode_idempotency decode_idempotency idempotency_wire 248.
Proof. record_codec. Qed.
#[export] Instance source_observation_codec :
  IsCodec encode_source_observation decode_source_observation source_observation_wire 399.
Proof. record_codec. Qed.
#[export] Instance raw_record_codec : IsCodec encode_raw_record decode_raw_record raw_record_wire 413.
Proof. record_codec. Qed.
#[export] Instance normalized_record_codec :
  IsCodec encode_normalized_record decode_normalized_record normalized_record_wire 164.
Proof. record_codec. Qed.
