(* ===== verification/Crc.v ===== *)
(** * CRC-32C

    [och-store/src/codec.rs], [crc32c]: the bitwise Castagnoli checksum, and
    why it catches every corruption confined to four consecutive bytes: one
    step is linear and injective on 32-bit registers. *)

From S2P Require Import Prelude Bytes.

(** [0x82f6_3b78]: the reflected Castagnoli polynomial. *)
Definition POLYNOMIAL : Z := 0x82f63b78.

(** One step of the inner loop: [mask = 0_u32.wrapping_sub(crc & 1)]. *)
Definition crc_bit (crc : Z) : Z :=
  let mask := (0 - Z.land crc 1) mod 2 ^ 32 in
  Z.lxor (Z.shiftr crc 1) (Z.land POLYNOMIAL mask).
Definition crc_byte (crc : Z) (b : byte) : Z := Nat.iter 8 crc_bit (Z.lxor crc (Z_of_byte b)).
(** [!crc] on 32 bits. *)
Definition crc32c (bytes : list byte) : Z := Z.lxor (foldl crc_byte u32_max bytes) u32_max.

(** The unit test's vectors. *)
Example crc32c_empty : crc32c [] = 0.
Proof. done. Qed.
Example crc32c_check : crc32c [x31; x32; x33; x34; x35; x36; x37; x38; x39] = 0xe3069283.
Proof. by vm_compute. Qed.

(** ** The step, by parity *)

Lemma crc_bit_parity x : crc_bit x = Z.lxor (Z.div2 x) (if Z.odd x then POLYNOMIAL else 0).
Proof.
  unfold crc_bit. rewrite <-Z.div2_spec. f_equal.
  assert (Z.land x 1 = Z.b2z (Z.odd x)) as ->.
  { change 1 with (Z.ones 1). rewrite Z.land_ones by lia. rewrite Zmod_odd. by destruct (Z.odd x). }
  by destruct (Z.odd x).
Qed.

Lemma odd_lxor a b : Z.odd (Z.lxor a b) = xorb (Z.odd a) (Z.odd b).
Proof. by rewrite <-!Z.bit0_odd, Z.lxor_spec. Qed.
Lemma div2_lxor a b : Z.div2 (Z.lxor a b) = Z.lxor (Z.div2 a) (Z.div2 b).
Proof. by rewrite !Z.div2_spec, Z.shiftr_lxor. Qed.

Lemma lxor_shuffle a b c d : Z.lxor (Z.lxor a b) (Z.lxor c d) = Z.lxor (Z.lxor a c) (Z.lxor b d).
Proof. rewrite !Z.lxor_assoc. f_equal. rewrite <-!Z.lxor_assoc. f_equal. apply Z.lxor_comm. Qed.

Lemma crc_bit_linear a b : crc_bit (Z.lxor a b) = Z.lxor (crc_bit a) (crc_bit b).
Proof.
  rewrite !crc_bit_parity, odd_lxor, div2_lxor, lxor_shuffle. f_equal.
  by destruct (Z.odd a), (Z.odd b).
Qed.

Lemma crc_bit_double a b : crc_bit (Z.lxor a (2 * b)) = Z.lxor (crc_bit a) b.
Proof.
  rewrite crc_bit_linear. f_equal. rewrite crc_bit_parity, Z.odd_mul. cbn.
  rewrite Z.lxor_0_r. rewrite Z.div2_div, Z.mul_comm. by apply Z.div_mul.
Qed.

Definition is_register (x : Z) : Prop := 0 ≤ x < 2 ^ 32.

Lemma testbit_bound n x : 0 ≤ n → 0 ≤ x → (∀ i, n ≤ i → Z.testbit x i = false) → x < 2 ^ n.
Proof.
  intros Hn Hx Hb. destruct (decide (x < 2 ^ n)) as [|Hge]; [done|]. exfalso.
  assert (0 < x) as Hp by (pose proof (Z.pow_pos_nonneg 2 n); lia).
  pose proof (Z.bit_log2 x Hp) as Hlog. rewrite Hb in Hlog; [done|].
  apply Z.log2_le_pow2; lia.
Qed.

Lemma lxor_register n a b : 0 ≤ n → 0 ≤ a < 2 ^ n → 0 ≤ b < 2 ^ n → 0 ≤ Z.lxor a b < 2 ^ n.
Proof.
  intros Hn Ha Hb. split; [apply Z.lxor_nonneg; lia|]. apply testbit_bound; [done|apply Z.lxor_nonneg; lia|].
  intros i Hi. rewrite Z.lxor_spec.
  assert (∀ c, 0 ≤ c < 2 ^ n → Z.testbit c i = false) as Hhi.
  { intros c Hc. destruct (decide (c = 0)) as [->|]; [apply Z.bits_0|].
    apply Z.bits_above_log2; [lia|]. apply Z.log2_lt_pow2; [lia|].
    pose proof (Z.pow_le_mono_r 2 n i). lia. }
  by rewrite !Hhi by done.
Qed.

Lemma div2_register x : is_register x → 0 ≤ Z.div2 x < 2 ^ 31.
Proof.
  unfold is_register. intros Hx. rewrite Z.div2_div. split; [apply Z.div_pos; lia|].
  apply Z.div_lt_upper_bound; lia.
Qed.

Lemma crc_bit_register x : is_register x → is_register (crc_bit x).
Proof.
  intros Hx. rewrite crc_bit_parity. apply (lxor_register 32); [lia| |].
  - pose proof (div2_register x Hx). lia.
  - by destruct (Z.odd x).
Qed.

(** The top bit of the stepped register is the bit shifted out. *)
Lemma crc_bit_top x : is_register x → Z.testbit (crc_bit x) 31 = Z.odd x.
Proof.
  intros Hx. pose proof (div2_register x Hx) as Hd. rewrite crc_bit_parity, Z.lxor_spec.
  assert (Z.testbit (Z.div2 x) 31 = false) as ->; [|by destruct (Z.odd x)].
  destruct (decide (Z.div2 x = 0)) as [->|]; [done|].
  apply Z.bits_above_log2; [lia|]. apply Z.log2_lt_pow2; lia.
Qed.

Lemma crc_bit_inj x y : is_register x → is_register y → crc_bit x = crc_bit y → x = y.
Proof.
  intros Hx Hy E. assert (Z.odd x = Z.odd y) as Ho by (rewrite <-!crc_bit_top by done; by rewrite E).
  rewrite !crc_bit_parity, Ho in E. apply (f_equal (λ z, Z.lxor z (if Z.odd y then POLYNOMIAL else 0))) in E.
  rewrite !Z.lxor_assoc, !Z.lxor_nilpotent, !Z.lxor_0_r in E.
  rewrite (Z.div2_odd x), (Z.div2_odd y), E, Ho. done.
Qed.

(** ** Feeding bytes *)

Definition crc_steps (n : nat) (x : Z) : Z := Nat.iter n crc_bit x.

Lemma crc_byte_steps s b : crc_byte s b = crc_steps 8 (Z.lxor s (Z_of_byte b)).
Proof. unfold crc_byte, crc_steps. reflexivity. Qed.

Lemma crc_steps_register n x : is_register x → is_register (crc_steps n x).
Proof. intros Hx. induction n as [|n IH]; [done|]. by apply crc_bit_register. Qed.

Lemma crc_steps_inj n x y : is_register x → is_register y → crc_steps n x = crc_steps n y → x = y.
Proof.
  intros Hx Hy. induction n as [|n IH]; [done|]. intros E.
  apply IH, crc_bit_inj; [by apply crc_steps_register..|exact E].
Qed.

Lemma crc_steps_add m n x : crc_steps (m + n) x = crc_steps m (crc_steps n x).
Proof. unfold crc_steps. apply Nat.iter_add. Qed.

Lemma crc_steps_shift n a b : crc_steps n (Z.lxor a (2 ^ Z.of_nat n * b)) = Z.lxor (crc_steps n a) b.
Proof.
  revert b. induction n as [|n IH]; intros b; [by rewrite Z.mul_1_l|].
  change (crc_steps (S n) ?x) with (crc_bit (crc_steps n x)).
  rewrite Nat2Z.inj_succ, Z.pow_succ_r by lia.
  replace (2 * 2 ^ Z.of_nat n * b) with (2 ^ Z.of_nat n * (2 * b)) by lia.
  by rewrite IH, crc_bit_double.
Qed.

(** The little-endian integer of a byte list. *)
Fixpoint from_le (l : list byte) : Z :=
  match l with [] => 0 | b :: l => Z_of_byte b + 256 * from_le l end.

Lemma from_le_range l : 0 ≤ from_le l < 256 ^ len l.
Proof.
  induction l as [|b l IH]; [done|]. cbn [from_le]. rewrite len_cons.
  pose proof (Z_of_byte_range b). pose proof (len_nonneg l).
  rewrite Z.pow_add_r, Z.pow_1_r by lia. lia.
Qed.

Lemma from_le_inj l k : length l = length k → from_le l = from_le k → l = k.
Proof.
  revert k. induction l as [|b l IH]; intros [|c k] Hl E; try discriminate Hl; [done|]. cbn in E.
  pose proof (Z_of_byte_range b). pose proof (Z_of_byte_range c).
  assert (Z_of_byte b = Z_of_byte c) as Eb%(inj Z_of_byte) by lia. subst c. f_equal.
  apply IH; [by injection Hl|lia].
Qed.

(** Adding a byte below a multiple of 256 is exclusive or. *)
Lemma add_lxor_byte b x : 0 ≤ b < 256 → 0 ≤ x → b + 256 * x = Z.lxor b (256 * x).
Proof.
  intros Hb Hx. change 256 with (2 ^ 8) in *. rewrite (Z.mul_comm (2 ^ 8)), <-Z.shiftl_mul_pow2 by lia.
  apply Z.add_nocarry_lxor. apply Z.bits_inj'. intros n Hn.
  rewrite Z.land_spec, Z.bits_0, Z.shiftl_spec by lia. destruct (decide (n < 8)).
  - rewrite (Z.testbit_neg_r _ (n - 8)) by lia. apply andb_false_r.
  - assert (Z.testbit b n = false) as ->; [|done]. destruct (decide (b = 0)) as [->|]; [apply Z.bits_0|].
    apply Z.bits_above_log2; [lia|]. apply Z.log2_lt_pow2; [lia|].
    pose proof (Z.pow_le_mono_r 2 8 n). lia.
Qed.

(** Feeding a block is stepping the register mixed with the block's integer. *)
Lemma feed_block s w : foldl crc_byte s w = crc_steps (8 * length w) (Z.lxor s (from_le w)).
Proof.
  revert s. induction w as [|b w IH]; intros s; cbn [foldl from_le].
  - by rewrite Z.lxor_0_r.
  - pose proof (from_le_range w). rewrite IH.
    replace (8 * length (b :: w))%nat with (8 * length w + 8)%nat by (cbn [length]; lia).
    rewrite crc_steps_add. f_equal. rewrite add_lxor_byte, <-Z.lxor_assoc by (apply Z_of_byte_range || lia).
    rewrite crc_byte_steps. symmetry. exact (crc_steps_shift 8 (Z.lxor s (Z_of_byte b)) (from_le w)).
Qed.

Lemma crc_byte_register s b : is_register s → is_register (crc_byte s b).
Proof.
  intros Hs. rewrite crc_byte_steps. apply crc_steps_register, (lxor_register 32); [lia|done|].
  pose proof (Z_of_byte_range b). lia.
Qed.
Lemma feed_register s w : is_register s → is_register (foldl crc_byte s w).
Proof. revert s. induction w; intros s Hs; [done|]. by apply IHw, crc_byte_register. Qed.

(** A fixed suffix keeps registers apart; a short block separates its contents. *)
Lemma feed_suffix_inj s t w :
  is_register s → is_register t → foldl crc_byte s w = foldl crc_byte t w → s = t.
Proof.
  revert s t. induction w as [|b w IH]; intros s t Hs Ht E; [done|].
  apply IH in E; [|by apply crc_byte_register..]. rewrite !crc_byte_steps in E.
  assert (∀ x, is_register x → is_register (Z.lxor x (Z_of_byte b))) as Hx.
  { intros x Hx. apply (lxor_register 32); [lia|done|]. pose proof (Z_of_byte_range b). lia. }
  apply crc_steps_inj in E; [|by apply Hx..].
  apply (f_equal (λ z, Z.lxor z (Z_of_byte b))) in E.
  by rewrite !Z.lxor_assoc, !Z.lxor_nilpotent, !Z.lxor_0_r in E.
Qed.

Lemma feed_block_inj s w w' :
  is_register s → length w = length w' → len w ≤ 4 →
  foldl crc_byte s w = foldl crc_byte s w' → w = w'.
Proof.
  intros Hs Hl H4 E. rewrite !feed_block, <-Hl in E.
  assert (∀ x, length x = length w → is_register (Z.lxor s (from_le x))) as Hx.
  { intros x Hx. apply (lxor_register 32); [lia|done|]. pose proof (from_le_range x) as Hr.
    assert (len x = len w) as Hlx by (unfold len; lia). rewrite Hlx in Hr.
    pose proof (len_nonneg w). pose proof (Z.pow_le_mono_r 256 (len w) 4). lia. }
  apply crc_steps_inj in E; [|by apply Hx..].
  apply (f_equal (Z.lxor s)) in E. rewrite <-!Z.lxor_assoc, !Z.lxor_nilpotent, !Z.lxor_0_l in E.
  by apply from_le_inj.
Qed.

Lemma crc32c_burst p w w' q :
  length w = length w' → len w ≤ 4 → crc32c (p ++ w ++ q) = crc32c (p ++ w' ++ q) → w = w'.
Proof.
  intros Hl H4 E. unfold crc32c in E. apply (f_equal (λ z, Z.lxor z u32_max)) in E.
  rewrite !Z.lxor_assoc, !Z.lxor_nilpotent, !Z.lxor_0_r, !foldl_app in E.
  assert (is_register (foldl crc_byte u32_max p)) as Hp by (apply feed_register; by vm_compute).
  apply feed_suffix_inj in E; [|by apply feed_register..]. by apply feed_block_inj in E.
Qed.

Lemma crc32c_range bytes : is_u32 (crc32c bytes).
Proof.
  apply in_range_spec. unfold crc32c.
  assert (is_register (foldl crc_byte u32_max bytes)) as Hr by (apply feed_register; by vm_compute).
  pose proof (lxor_register 32 _ u32_max ltac:(lia) Hr ltac:(by vm_compute)). unfold u32_max in *. lia.
Qed.
