(* ===== verification/Journal.v ===== *)
(** * Journal V1 frames

    [och-store/src/codec.rs] and [och-store/src/decoded.rs]: the admission
    payload, its decoded form and cross-field validation, the store header, and
    the checksummed frame around a payload, with its writer-side preparation. *)

From S2P Require Import Prelude Bytes Identity Bounded Value Collection Series Registry Admission.
From S2P Require Import Layout Wire Fields Crc.

(** ** Constants (och-store/src/lib.rs) *)

Definition JOURNAL_V1_VERSION : Z := 1.
Definition JOURNAL_V1_HEADER_LEN : Z := 28.
Definition JOURNAL_V1_FRAME_PREFIX_LEN : Z := 20.
Definition JOURNAL_V1_FRAME_CRC_LEN : Z := 4.
Definition MAX_ADMISSION_PAYLOAD_V1 : Z := 8 * 1024 * 1024.
(** [OCHJNL01] and [OCHF]. *)
Definition JOURNAL_V1_HEADER_MAGIC : list byte := [x4f; x43; x48; x4a; x4e; x4c; x30; x31].
Definition JOURNAL_V1_FRAME_MAGIC : list byte := [x4f; x43; x48; x46].
Definition FRAME_KIND_ADMISSION : Z := 1.
Definition FRAME_FLAGS_NONE : Z := 0.

(** ** Decoded admissions *)

Record DecodedDeclarationV1 := mkDecodedDeclaration {
  dd_store_id : StoreId;
  dd_series_id : SeriesId;
  dd_revision : DeclarationRevision;
  dd_previous : option DeclarationRevision;
  dd_binding : SeriesBinding;
  dd_payload : SeriesDeclarationPayload;
  dd_evidence : DeclarationEvidence }.
#[export] Instance DecodedDeclarationV1_eq_dec : EqDecision DecodedDeclarationV1.
Proof. solve_decision. Defined.
#[export] Instance wf_decoded_declaration : Wf DecodedDeclarationV1 := λ d,
  wf (dd_store_id d) && wf (dd_series_id d) && wf (dd_revision d) && wf (dd_previous d) &&
  wf (dd_binding d) && wf (dd_payload d) && wf (dd_evidence d).

Record DecodedObservationLineageV1 := mkDecodedLineage {
  dl_ordinal : Z;
  dl_canonical_id : ObservationId;
  dl_observation : SourceObservationEvidence;
  dl_raw : RawRecordEvidence;
  dl_normalized : NormalizedRecordEvidence }.
#[export] Instance DecodedObservationLineageV1_eq_dec : EqDecision DecodedObservationLineageV1.
Proof. solve_decision. Defined.
#[export] Instance wf_decoded_lineage : Wf DecodedObservationLineageV1 := λ l,
  is_u8 (dl_ordinal l) && wf (dl_canonical_id l) && wf (dl_observation l) && wf (dl_raw l) &&
  wf (dl_normalized l).

Inductive DecodedEvidenceV1 :=
| DecObserved (observations : list DecodedObservationLineageV1) (gaps : list SourceGapEvidence)
| DecNoChange.
#[export] Instance DecodedEvidenceV1_eq_dec : EqDecision DecodedEvidenceV1.
Proof. solve_decision. Defined.
#[export] Instance wf_decoded_evidence : Wf DecodedEvidenceV1 := λ e,
  match e with
  | DecObserved os gs =>
    bool_decide (len os ≤ MAX_OBSERVATIONS) && wf os && bool_decide (len gs ≤ MAX_GAPS) && wf gs
  | DecNoChange => true
  end.

Record DecodedAdmissionV1 := mkDecoded {
  dec_append_sequence : Z;
  dec_store_id : StoreId;
  dec_declaration : DecodedDeclarationV1;
  dec_envelope : CollectionEnvelope;
  dec_retry : RetryQualification;
  dec_batch : SourceBatchMetadata;
  dec_lifecycle : CaptureLifecycle;
  dec_evidence : DecodedEvidenceV1 }.
#[export] Instance DecodedAdmissionV1_eq_dec : EqDecision DecodedAdmissionV1.
Proof. solve_decision. Defined.

Definition dec_evidence_kind (a : DecodedAdmissionV1) : SourceIntervalKind :=
  match dec_evidence a with DecObserved _ _ => SourceObserved | DecNoChange => SourceNoChange end.
Definition dec_observations (a : DecodedAdmissionV1) : list DecodedObservationLineageV1 :=
  match dec_evidence a with DecObserved os _ => os | DecNoChange => [] end.
Definition all_evidence_ids (a : DecodedAdmissionV1) : list EvidenceId :=
  lifecycle_ids (dec_lifecycle a) ++
  concat ((λ l, [oe_evidence_id (dl_observation l); raw_evidence_id (dl_raw l); norm_evidence_id (dl_normalized l)])
    <$> dec_observations a).

(** ** Payload encoding *)

Definition encode_declaration (d : SeriesDeclaration) : Put :=
  encode_id (decl_store_id d) ;> encode_id (decl_series_id d) ;> encode_revision (decl_revision d) ;>
  put_opt encode_revision (decl_previous d) ;> encode_binding (decl_binding d) ;>
  encode_declaration_payload (decl_payload d) ;> encode_declaration_evidence (decl_evidence d).
Definition encode_decoded_declaration (d : DecodedDeclarationV1) : Put :=
  encode_id (dd_store_id d) ;> encode_id (dd_series_id d) ;> encode_revision (dd_revision d) ;>
  put_opt encode_revision (dd_previous d) ;> encode_binding (dd_binding d) ;>
  encode_declaration_payload (dd_payload d) ;> encode_declaration_evidence (dd_evidence d).
Definition decode_declaration : Decoder DecodedDeclarationV1 :=
  let* store := decode_id in let* series := decode_id in let* revision := decode_revision in
  let* previous := get_opt decode_revision in let* binding := decode_binding in
  let* payload := decode_declaration_payload in let* evidence := decode_declaration_evidence in
  ret (mkDecodedDeclaration store series revision previous binding payload evidence).
Definition decoded_declaration_wire (d : DecodedDeclarationV1) : list byte :=
  into_bytes (dd_store_id d) ++ into_bytes (dd_series_id d) ++ revision_wire (dd_revision d) ++
  opt_wire revision_wire (dd_previous d) ++ binding_wire (dd_binding d) ++
  declaration_payload_wire (dd_payload d) ++ declaration_evidence_wire (dd_evidence d).

Definition encode_lineage (l : SourceObservationLineage) : Put :=
  put_ok (put_u8 (lin_ordinal l)) ;> encode_id (lin_canonical_id l) ;>
  encode_source_observation (lin_observation l) ;> encode_raw_record (lin_raw l) ;>
  encode_normalized_record (lin_normalized l).
Definition encode_decoded_lineage (l : DecodedObservationLineageV1) : Put :=
  put_ok (put_u8 (dl_ordinal l)) ;> encode_id (dl_canonical_id l) ;>
  encode_source_observation (dl_observation l) ;> encode_raw_record (dl_raw l) ;>
  encode_normalized_record (dl_normalized l).
Definition decode_lineage : Decoder DecodedObservationLineageV1 :=
  let* ordinal := get_u8 in let* id := decode_id in let* observation := decode_source_observation in
  let* raw := decode_raw_record in let* normalized := decode_normalized_record in
  ret (mkDecodedLineage ordinal id observation raw normalized).
Definition decoded_lineage_wire (l : DecodedObservationLineageV1) : list byte :=
  be_bytes 1 (dl_ordinal l) ++ into_bytes (dl_canonical_id l) ++ source_observation_wire (dl_observation l) ++
  raw_record_wire (dl_raw l) ++ normalized_record_wire (dl_normalized l).

Definition encode_canonical_payload (a : CanonicalAdmission) : Put :=
  encode_id (adm_store_id a) ;> encode_declaration (adm_declaration a) ;> encode_envelope (adm_envelope a) ;>
  encode_retry (adm_retry a) ;> encode_batch (adm_batch a) ;> encode_lifecycle (adm_lifecycle a) ;>
  encode_source_interval_kind (adm_evidence_kind a) ;>
  match adm_evidence_kind a with
  | SourceObserved => put_list encode_lineage (adm_observations a) ;> put_list encode_source_gap (adm_gaps a)
  | SourceNoChange => put_ok id
  end.
Definition encode_decoded_payload (a : DecodedAdmissionV1) : Put :=
  encode_id (dec_store_id a) ;> encode_decoded_declaration (dec_declaration a) ;>
  encode_envelope (dec_envelope a) ;> encode_retry (dec_retry a) ;> encode_batch (dec_batch a) ;>
  encode_lifecycle (dec_lifecycle a) ;> encode_source_interval_kind (dec_evidence_kind a) ;>
  match dec_evidence a with
  | DecObserved os gs => put_list encode_decoded_lineage os ;> put_list encode_source_gap gs
  | DecNoChange => put_ok id
  end.



(** ** Append sequences and limits *)

Record AppendSequenceV1 := mkSequence { sequence_get : Z }.
#[export] Instance AppendSequenceV1_eq_dec : EqDecision AppendSequenceV1.
Proof. solve_decision. Defined.
#[export] Instance wf_sequence : Wf AppendSequenceV1 := λ s, in_range 1 u64_max (sequence_get s).
Definition sequence_new (value : Z) : result JournalV1Error AppendSequenceV1 :=
  if decide (value = 0) then Err InvalidAppendSequence else Ok (mkSequence value).
Definition successor (s : AppendSequenceV1) : result JournalV1Error AppendSequenceV1 :=
  let! next := ok_or (checked_add u64_max (sequence_get s) 1) AppendSequenceOverflow in Ok (mkSequence next).

Record DecodeLimitsV1 := mkDecodeLimits { max_payload_len : Z }.
Definition decode_limits_new (maximum : Z) : result JournalV1Error DecodeLimitsV1 :=
  if decide (maximum > MAX_ADMISSION_PAYLOAD_V1) then Err PayloadTooLarge else Ok (mkDecodeLimits maximum).
Definition decode_limits_maximum : DecodeLimitsV1 := mkDecodeLimits MAX_ADMISSION_PAYLOAD_V1.

Definition decode_evidence : Decoder DecodedEvidenceV1 :=
  let* kind := decode_source_interval_kind in
  match kind with
  | SourceObserved =>
    let* os := get_list MAX_OBSERVATIONS decode_lineage in
    let* gs := get_list MAX_GAPS decode_source_gap in ret (DecObserved os gs)
  | SourceNoChange => ret DecNoChange
  end.
Definition decode_payload (append_sequence : AppendSequenceV1) : Decoder DecodedAdmissionV1 :=
  let* store := decode_id in let* declaration := decode_declaration in let* envelope := decode_envelope in
  let* retry := decode_retry in let* batch := decode_batch in let* lifecycle := decode_lifecycle in
  let* evidence := decode_evidence in
  ret (mkDecoded (sequence_get append_sequence) store declaration envelope retry batch lifecycle evidence).

(** ** Cross-field validation *)

(** The loop over [observations.iter().zip(envelope.observations())]. *)
Fixpoint check_lineage (snapshot_id : EvidenceId) (ls : list DecodedObservationLineageV1)
    (os : list Observation) (previous_ordinal : option Z) : result JournalV1Error () :=
  match ls, os with
  | l :: ls, o :: os =>
    if decide (dl_canonical_id l ≠ observation_id o) then Err InvalidCanonicalData
    else if is_some_and (λ previous, bool_decide (previous >= dl_ordinal l)) previous_ordinal
    then Err InvalidCanonicalData
    else if decide (raw_snapshot_id (dl_raw l) ≠ snapshot_id) then Err InvalidCanonicalData
    else if decide (norm_raw_record_id (dl_normalized l) ≠ raw_evidence_id (dl_raw l))
    then Err InvalidCanonicalData
    else if decide (norm_observation_id (dl_normalized l) ≠ oe_evidence_id (dl_observation l))
    then Err InvalidCanonicalData
    else if is_some_and (λ idempotency, bool_decide (idem_content idempotency ≠
              artifact_content (raw_artifact (dl_raw l)))) (raw_idempotency (dl_raw l))
    then Err InvalidCanonicalData
    else check_lineage snapshot_id ls os (Some (dl_ordinal l))
  | _, _ => Ok tt
  end.

(** [evidence_ids[..index].contains(evidence_id)], for each index. *)
Fixpoint check_distinct (seen ids : list EvidenceId) : result JournalV1Error () :=
  match ids with
  | [] => Ok tt
  | i :: ids =>
    if decide (i ∈ seen) then Err InvalidCanonicalData else check_distinct (seen ++ [i]) ids
  end.

Definition expected_previous (revision : Z) : result JournalV1Error (option DeclarationRevision) :=
  if decide (revision = revision_get FIRST) then Ok None
  else let! r := map_err invalid_model (revision_new (revision - 1)) in Ok (Some r).

Definition check_evidence (a : DecodedAdmissionV1) : result JournalV1Error () :=
  match dec_evidence a with
  | DecObserved ls gs =>
    if decide (len ls ≠ len (observations (dec_envelope a)) ∨ len gs ≠ len (gaps (dec_envelope a)))
    then Err InvalidCanonicalData
    else
      let! _ := check_lineage (snapshot_evidence_id (lc_snapshot (dec_lifecycle a))) ls
                  (observations (dec_envelope a)) None in
      if existsb (λ '(source, canonical), bool_decide (¬ gap_matches canonical source))
           (zip gs (gaps (dec_envelope a)))
      then Err InvalidCanonicalData else Ok tt
  | DecNoChange => Ok tt
  end.

Definition validate_decoded (a : DecodedAdmissionV1) : result JournalV1Error () :=
  let declaration := dec_declaration a in
  let envelope := dec_envelope a in
  let metadata := env_series envelope in
  let payload := dd_payload declaration in
  if decide (dec_store_id a ≠ dd_store_id declaration ∨ dd_series_id declaration ≠ meta_series_id metadata ∨
             payload_producer_id payload ≠ meta_producer_id metadata ∨
             payload_mode payload ≠ meta_mode metadata ∨
             retry_series_id (dec_retry a) ≠ meta_series_id metadata ∨
             retry_producer_id (dec_retry a) ≠ meta_producer_id metadata)
  then Err InvalidCanonicalData
  else
    let! expected := expected_previous (revision_get (dd_revision declaration)) in
    if decide (dd_previous declaration ≠ expected) then Err InvalidCanonicalData
    else
      let expected_interval := interval_kind (evidence_kind envelope) in
      if decide (batch_interval (dec_batch a) ≠ expected_interval ∨ dec_evidence_kind a ≠ expected_interval)
      then Err InvalidCanonicalData
      else
        let source := binding_source (dd_binding declaration) in
        let! projection := ok_or (projection source) InvalidCanonicalData in
        if decide (system_provider (lc_system (dec_lifecycle a)) ≠ provider source ∨
                   system_projection (lc_system (dec_lifecycle a)) ≠ projection ∨
                   endpoint_locator (lc_endpoint (dec_lifecycle a)) ≠ locator source)
        then Err InvalidCanonicalData
        else if existsb (λ o, negb (admits (payload_family payload) (obs_value o))) (observations envelope)
        then Err InvalidCanonicalData
        else let! _ := check_evidence a in check_distinct [] (all_evidence_ids a).

(** ** The store header *)

Record JournalHeaderV1 := mkHeader { header_store_id : StoreId }.
#[export] Instance JournalHeaderV1_eq_dec : EqDecision JournalHeaderV1.
Proof. solve_decision. Defined.

Definition encode_header (store_id : StoreId) : list byte :=
  let bytes := zeros (Z.to_nat JOURNAL_V1_HEADER_LEN) in
  let bytes := copy_at 0 JOURNAL_V1_HEADER_MAGIC bytes in
  let bytes := copy_at 8 (be_bytes 2 JOURNAL_V1_VERSION) bytes in
  let bytes := copy_at 10 (be_bytes 2 28) bytes in
  copy_at 12 (into_bytes store_id) bytes.
Definition header_encode (h : JournalHeaderV1) : list byte := encode_header (header_store_id h).

Definition decode_header (bytes : list byte) : result JournalV1Error StoreId :=
  if decide (len bytes < JOURNAL_V1_HEADER_LEN) then Err Truncated
  else if decide (len bytes > JOURNAL_V1_HEADER_LEN) then Err TrailingBytes
  else if decide (slice 0 8 bytes ≠ JOURNAL_V1_HEADER_MAGIC) then Err InvalidHeaderMagic
  else if decide (from_be (slice 8 10 bytes) ≠ JOURNAL_V1_VERSION) then Err UnsupportedHeaderVersion
  else if decide (from_be (slice 10 12 bytes) ≠ JOURNAL_V1_HEADER_LEN) then Err InvalidHeaderLength
  else map_err invalid_identity (from_bytes (slice 12 28 bytes)).
Definition header_decode (bytes : list byte) : result JournalV1Error JournalHeaderV1 :=
  let! store_id := decode_header bytes in Ok (mkHeader store_id).

(** ** Frames *)

(** The buffer is grown in place: the payload is moved behind the prefix, then
    the prefix and the checksum are written around it. *)
Definition frame_bytes (append_sequence : AppendSequenceV1) (payload : list byte)
  : result JournalV1Error (list byte) :=
  if decide (len payload > MAX_ADMISSION_PAYLOAD_V1) then Err PayloadTooLarge
  else if decide (len payload > u32_max) then Err PayloadTooLarge
  else
    let! capacity := ok_or (match checked_add usize_max JOURNAL_V1_FRAME_PREFIX_LEN (len payload) with
                            | Some value => checked_add usize_max value JOURNAL_V1_FRAME_CRC_LEN
                            | None => None
                            end) PayloadTooLarge in
    let original_len := len payload in
    let buffer := payload ++ zeros (Z.to_nat (capacity - original_len)) in
    let buffer := copy_at JOURNAL_V1_FRAME_PREFIX_LEN (slice 0 original_len buffer) buffer in
    let buffer := copy_at 0 JOURNAL_V1_FRAME_MAGIC buffer in
    let buffer := copy_at 4 (be_bytes 2 JOURNAL_V1_VERSION) buffer in
    let buffer := copy_at 6 (be_bytes 1 FRAME_KIND_ADMISSION) buffer in
    let buffer := copy_at 7 (be_bytes 1 FRAME_FLAGS_NONE) buffer in
    let buffer := copy_at 8 (be_bytes 8 (sequence_get append_sequence)) buffer in
    let buffer := copy_at 16 (be_bytes 4 original_len) buffer in
    let checksum_offset := JOURNAL_V1_FRAME_PREFIX_LEN + original_len in
    Ok (copy_at checksum_offset (be_bytes 4 (crc32c (slice 0 checksum_offset buffer))) buffer).

Definition encode_admission_frame_v1 (append_sequence : AppendSequenceV1) (a : CanonicalAdmission)
  : result JournalV1Error (list byte) :=
  let! encoder := encode_canonical_payload a encoder_new in
  frame_bytes append_sequence (encoder_finish encoder).

Definition encode_decoded_admission_frame_v1 (a : DecodedAdmissionV1) : result JournalV1Error (list byte) :=
  let! encoder := encode_decoded_payload a encoder_new in
  frame_bytes (mkSequence (dec_append_sequence a)) (encoder_finish encoder).

Definition admission_frame_len_v1 (a : CanonicalAdmission) : result JournalV1Error Z :=
  let! encoder := encode_canonical_payload a encoder_counting in
  let payload_len := encoder_len encoder in
  if decide (payload_len > MAX_ADMISSION_PAYLOAD_V1) then Err PayloadTooLarge
  else ok_or (match checked_add usize_max JOURNAL_V1_FRAME_PREFIX_LEN payload_len with
              | Some length => checked_add usize_max length JOURNAL_V1_FRAME_CRC_LEN
              | None => None
              end) PayloadTooLarge.

Definition decode_admission_frame_v1 (bytes : list byte) (limits : DecodeLimitsV1)
    (previous_append_sequence : option AppendSequenceV1) : result JournalV1Error DecodedAdmissionV1 :=
  if decide (len bytes < JOURNAL_V1_FRAME_PREFIX_LEN + JOURNAL_V1_FRAME_CRC_LEN) then Err Truncated
  else if decide (slice 0 4 bytes ≠ JOURNAL_V1_FRAME_MAGIC) then Err InvalidFrameMagic
  else if decide (from_be (slice 4 6 bytes) ≠ JOURNAL_V1_VERSION) then Err UnsupportedFrameVersion
  else if decide (from_be (slice 6 7 bytes) ≠ FRAME_KIND_ADMISSION) then Err UnsupportedFrameKind
  else if decide (from_be (slice 7 8 bytes) ≠ FRAME_FLAGS_NONE) then Err InvalidFrameFlags
  else
    let! append_sequence := sequence_new (from_be (slice 8 16 bytes)) in
    let! _ := match previous_append_sequence with
              | Some previous =>
                let! next := successor previous in
                if decide (append_sequence ≠ next) then Err NonMonotonicAppendSequence else Ok tt
              | None => Ok tt
              end in
    let payload_len := from_be (slice 16 20 bytes) in
    if decide (payload_len > MAX_ADMISSION_PAYLOAD_V1 ∨ payload_len > max_payload_len limits)
    then Err PayloadTooLarge
    else
      let! checksum_offset := ok_or (checked_add usize_max JOURNAL_V1_FRAME_PREFIX_LEN payload_len) InvalidLength in
      let! expected_len := ok_or (checked_add usize_max checksum_offset JOURNAL_V1_FRAME_CRC_LEN) InvalidLength in
      if decide (len bytes < expected_len) then Err Truncated
      else if decide (len bytes > expected_len) then Err TrailingBytes
      else
        let expected_crc := from_be (slice checksum_offset expected_len bytes) in
        if decide (crc32c (slice 0 checksum_offset bytes) ≠ expected_crc) then Err ChecksumMismatch
        else
          let! ' (decoded, cursor) := decode_payload append_sequence
            (cursor_new (slice JOURNAL_V1_FRAME_PREFIX_LEN checksum_offset bytes)) in
          let! _ := cursor_finish cursor in
          let! _ := validate_decoded decoded in Ok decoded.

Definition frame_len_from_prefix_v1 (prefix : list byte) (limits : DecodeLimitsV1)
  : result JournalV1Error Z :=
  if decide (len prefix ≠ JOURNAL_V1_FRAME_PREFIX_LEN) then Err Truncated
  else if decide (slice 0 4 prefix ≠ JOURNAL_V1_FRAME_MAGIC) then Err InvalidFrameMagic
  else if decide (from_be (slice 4 6 prefix) ≠ JOURNAL_V1_VERSION) then Err UnsupportedFrameVersion
  else if decide (from_be (slice 6 7 prefix) ≠ FRAME_KIND_ADMISSION) then Err UnsupportedFrameKind
  else if decide (from_be (slice 7 8 prefix) ≠ FRAME_FLAGS_NONE) then Err InvalidFrameFlags
  else
    let! _ := sequence_new (from_be (slice 8 16 prefix)) in
    let payload_len := from_be (slice 16 20 prefix) in
    if decide (payload_len > MAX_ADMISSION_PAYLOAD_V1 ∨ payload_len > max_payload_len limits)
    then Err PayloadTooLarge
    else ok_or (match checked_add usize_max JOURNAL_V1_FRAME_PREFIX_LEN payload_len with
                | Some length => checked_add usize_max length JOURNAL_V1_FRAME_CRC_LEN
                | None => None
                end) InvalidLength.

(** ** Writer-side preparation *)

Record PreparedAdmissionV1 := mkPrepared {
  prep_admission : CanonicalAdmission;
  prep_payload : list byte;
  prep_frame_len : Z }.
Record PrepareAdmissionError := mkPrepareError {
  prepare_error : JournalV1Error;
  prepare_admission : CanonicalAdmission }.
Record PreparedFrameV1 := mkPreparedFrame {
  frame_admission : CanonicalAdmission;
  frame_append_sequence : AppendSequenceV1;
  frame_content : list byte }.

Definition prepared_new (a : CanonicalAdmission) : result PrepareAdmissionError PreparedAdmissionV1 :=
  match admission_frame_len_v1 a with
  | Err error => Err (mkPrepareError error a)
  | Ok frame_len =>
    match encode_canonical_payload a encoder_new with
    | Err error => Err (mkPrepareError error a)
    | Ok encoder =>
      let payload := encoder_finish encoder in
      let actual := JOURNAL_V1_FRAME_PREFIX_LEN + len payload + JOURNAL_V1_FRAME_CRC_LEN in
      if decide (actual ≠ frame_len) then Err (mkPrepareError InvalidCanonicalData a)
      else Ok (mkPrepared a payload frame_len)
    end
  end.

Definition into_frame (p : PreparedAdmissionV1) (append_sequence : AppendSequenceV1)
  : result PrepareAdmissionError PreparedFrameV1 :=
  match frame_bytes append_sequence (prep_payload p) with
  | Ok bytes =>
    if decide (len bytes = prep_frame_len p) then Ok (mkPreparedFrame (prep_admission p) append_sequence bytes)
    else Err (mkPrepareError InvalidCanonicalData (prep_admission p))
  | Err error => Err (mkPrepareError error (prep_admission p))
  end.

(** ** Codec instances *)

#[export] Instance decoded_declaration_codec :
  IsCodec encode_decoded_declaration decode_declaration decoded_declaration_wire 24832.
Proof. record_codec. Qed.
#[export] Instance decoded_lineage_codec :
  IsCodec encode_decoded_lineage decode_lineage decoded_lineage_wire 993.
Proof. record_codec. Qed.

Definition encode_evidence (e : DecodedEvidenceV1) : Put :=
  encode_source_interval_kind match e with DecObserved _ _ => SourceObserved | DecNoChange => SourceNoChange end ;>
  match e with
  | DecObserved os gs => put_list encode_decoded_lineage os ;> put_list encode_source_gap gs
  | DecNoChange => put_ok id
  end.
Definition evidence_wire (e : DecodedEvidenceV1) : list byte :=
  match e with
  | DecObserved os gs =>
    interval_kind_wire SourceObserved ++ list_wire decoded_lineage_wire os ++ list_wire source_gap_wire gs
  | DecNoChange => interval_kind_wire SourceNoChange
  end.

#[export] Instance evidence_codec : IsCodec encode_evidence decode_evidence evidence_wire 257353.
Proof.
  destruct limits_ok as [Ho Hg]. split.
  - intros [os gs|] Hw; unfold encode_evidence, evidence_wire.
    + wf_split Hw. apply writes_then; [writes_atom|]. apply writes_then.
      * apply (codec_writes_list _ _ _ _ decoded_lineage_codec _ Ho); assumption.
      * apply (codec_writes_list _ _ _ _ source_gap_codec _ Hg); assumption.
    + rewrite <-(app_nil_r (interval_kind_wire _)). apply writes_then; [writes_atom|].
      intros e He. by rewrite put_bytes_nil.
  - intros [os gs|] Hw; unfold decode_evidence, evidence_wire.
    + wf_split Hw. eapply reads_and_then; [by eapply codec_reads|]. cbv iota.
      eapply reads_and_then; [apply (codec_reads_list _ _ _ _ decoded_lineage_codec _ Ho); assumption|].
      eapply reads_last; [apply (codec_reads_list _ _ _ _ source_gap_codec _ Hg); assumption|]. apply reads_ret.
    + eapply reads_last; [by eapply codec_reads|]. apply reads_ret.
  - eapply accepts_and_then; [apply codec_accepts|]. intros [|] v [_ ->].
    + eapply accepts_and_then; [apply (codec_accepts_list _ _ _ _ decoded_lineage_codec)|]. intros os v [[? ?] ->].
      eapply accepts_and_then; [apply (codec_accepts_list _ _ _ _ source_gap_codec)|]. intros gs v [[? ?] ->].
      apply accepts_ret. split; [|by rewrite app_nil_r]. wf_intro; try assumption; by apply bool_decide_spec.
    + apply accepts_ret. by rewrite app_nil_r.
  - intros [os gs|] Hw; unfold evidence_wire.
    + wf_split Hw.
      assert (len (list_wire decoded_lineage_wire os) ≤ 4 + MAX_OBSERVATIONS * 993) as Hlo
        by (apply (codec_len_list _ _ _ _ decoded_lineage_codec); assumption).
      assert (len (list_wire source_gap_wire gs) ≤ 4 + MAX_GAPS * 49) as Hlg
        by (apply (codec_len_list _ _ _ _ source_gap_codec); assumption).
      rewrite !len_app. unfold interval_kind_wire. rewrite len_be_bytes.
      unfold MAX_OBSERVATIONS, MAX_GAPS in *. lia.
    + unfold interval_kind_wire. rewrite len_be_bytes. lia.
  - done.
Qed.

(** ** Payloads *)

(** Every field of a decoded admission satisfies its type's invariant. *)
#[export] Instance wf_decoded : Wf DecodedAdmissionV1 := λ a,
  wf (dec_store_id a) && wf (dec_declaration a) && wf (dec_envelope a) && wf (dec_retry a) &&
  wf (dec_batch a) && wf (dec_lifecycle a) && wf (dec_evidence a).

Definition payload_wire (a : DecodedAdmissionV1) : list byte :=
  into_bytes (dec_store_id a) ++ decoded_declaration_wire (dec_declaration a) ++
  envelope_wire (dec_envelope a) ++ retry_wire (dec_retry a) ++ batch_wire (dec_batch a) ++
  lifecycle_wire (dec_lifecycle a) ++ evidence_wire (dec_evidence a).

Lemma payload_writes a : wf a → writes (encode_decoded_payload a) (payload_wire a).
Proof.
  intros Hw. wf_split Hw. unfold encode_decoded_payload, payload_wire.
  do 6 (apply writes_then; [writes_atom|]).
  change (writes (encode_evidence (dec_evidence a)) (evidence_wire (dec_evidence a))). writes_atom.
Qed.

Lemma payload_reads s a :
  wf a → dec_append_sequence a = sequence_get s → reads (decode_payload s) a (payload_wire a).
Proof.
  intros Hw Hs. wf_split Hw. unfold decode_payload, payload_wire. solve_reads. rewrite <-Hs. by destruct a.
Qed.

Lemma payload_accepts s :
  accepts (decode_payload s) (λ a w, (wf a ∧ dec_append_sequence a = sequence_get s) ∧ w = payload_wire a).
Proof.
  unfold decode_payload. solve_accepts. split; [split; [wf_intro; assumption|done]|].
  unfold payload_wire. cbn. by rewrite app_nil_r.
Qed.

Lemma payload_len a : wf a → len (payload_wire a) ≤ 5593353.
Proof. intros Hw. wf_split Hw. unfold payload_wire. solve_len. Qed.

Lemma payload_fits a : wf a → len (payload_wire a) ≤ MAX_ADMISSION_PAYLOAD_V1.
Proof. intros Hw%payload_len. unfold MAX_ADMISSION_PAYLOAD_V1. lia. Qed.

(** The decoded form of a canonical admission. *)
Definition decoded_declaration_of (d : SeriesDeclaration) : DecodedDeclarationV1 :=
  mkDecodedDeclaration (decl_store_id d) (decl_series_id d) (decl_revision d) (decl_previous d)
    (decl_binding d) (decl_payload d) (decl_evidence d).
Definition decoded_lineage_of (l : SourceObservationLineage) : DecodedObservationLineageV1 :=
  mkDecodedLineage (lin_ordinal l) (lin_canonical_id l) (lin_observation l) (lin_raw l) (lin_normalized l).
Definition decoded_evidence_of (e : AdmissionEvidence) : DecodedEvidenceV1 :=
  match e with
  | AdmObserved os gs => DecObserved (decoded_lineage_of <$> os) gs
  | AdmNoChange => DecNoChange
  end.
Definition decoded_of (s : AppendSequenceV1) (a : CanonicalAdmission) : DecodedAdmissionV1 :=
  mkDecoded (sequence_get s) (adm_store_id a) (decoded_declaration_of (adm_declaration a)) (adm_envelope a)
    (adm_retry a) (adm_batch a) (adm_lifecycle a) (decoded_evidence_of (adm_evidence a)).

Lemma put_all_fmap {A B} (f : A → B) (put : B → Put) l : put_all put (f <$> l) = put_all (λ a, put (f a)) l.
Proof. induction l as [|a l IH]; [done|]. rewrite fmap_cons. cbn [put_all]. by rewrite IH. Qed.

Lemma encode_canonical_decoded s a : encode_canonical_payload a = encode_decoded_payload (decoded_of s a).
Proof.
  unfold encode_canonical_payload, encode_decoded_payload. destruct a as [? ? ? ? ? ? [os gs|]]; [|done].
  cbn [decoded_of adm_evidence decoded_evidence_of dec_evidence dec_evidence_kind adm_evidence_kind
    adm_observations adm_gaps]. unfold put_list at 1 3. rewrite put_all_fmap.
  unfold len. by rewrite length_fmap.
Qed.

(** ** Frame layouts *)

(** The fixed 20-byte prefix, and the whole frame. *)
Definition frame_prefix (sequence n : Z) : list byte :=
  JOURNAL_V1_FRAME_MAGIC ++ be_bytes 2 JOURNAL_V1_VERSION ++ be_bytes 1 FRAME_KIND_ADMISSION ++
  be_bytes 1 FRAME_FLAGS_NONE ++ be_bytes 8 sequence ++ be_bytes 4 n.
Definition frame_layout (sequence : Z) (payload : list byte) : list byte :=
  let covered := frame_prefix sequence (len payload) ++ payload in
  covered ++ be_bytes 4 (crc32c covered).

Lemma len_frame_prefix s n : len (frame_prefix s n) = 20.
Proof. unfold frame_prefix. rewrite !len_app, !len_be_bytes. done. Qed.
Lemma len_frame_layout s p : len (frame_layout s p) = 24 + len p.
Proof. unfold frame_layout. rewrite !len_app, len_be_bytes, len_frame_prefix. lia. Qed.
(** The in-place construction writes exactly the layout. *)
Lemma frame_bytes_layout s payload :
  frame_bytes s payload =
    if decide (len payload ≤ MAX_ADMISSION_PAYLOAD_V1) then Ok (frame_layout (sequence_get s) payload)
    else Err PayloadTooLarge.
Proof.
  unfold frame_bytes. destruct (decide (len payload ≤ MAX_ADMISSION_PAYLOAD_V1)) as [Hl|Hl];
    [|by rewrite decide_True by lia]. rewrite decide_False by lia.
  unfold MAX_ADMISSION_PAYLOAD_V1 in Hl. pose proof (len_nonneg payload).
  rewrite decide_False by (unfold u32_max; lia).
  unfold checked_add, JOURNAL_V1_FRAME_PREFIX_LEN, JOURNAL_V1_FRAME_CRC_LEN.
  do 2 rewrite decide_True by (unfold usize_max, u64_max; lia). cbn [ok_or].
  replace (Z.to_nat (20 + len payload + 4 - len payload)) with 24%nat by lia.
  rewrite slice_app_0 by done.
  destruct (split_at 20 (payload ++ zeros 24)) as (h & r & E & Hh).
  { rewrite len_app, len_zeros. lia. }
  assert (len r = len payload + 4) as Hr.
  { apply (f_equal len) in E. rewrite !len_app, len_zeros in E. lia. }
  destruct (split_at (len payload) r) as (old & tail & -> & Ho); [lia|]. rewrite len_app in Hr.
  rewrite E, copy_at_app by (done || lia).
  destruct (split_at 4 h) as (h0 & h' & -> & H0); [lia|]. rewrite len_app in Hh.
  destruct (split_at 2 h') as (h1 & h'' & -> & H1); [lia|]. rewrite len_app in Hh.
  destruct (split_at 1 h'') as (h2 & h3' & -> & H2); [lia|]. rewrite len_app in Hh.
  destruct (split_at 1 h3') as (h3 & h4' & -> & H3); [lia|]. rewrite len_app in Hh.
  destruct (split_at 8 h4') as (h4 & h5 & -> & H4); [lia|]. rewrite len_app in Hh.
  rewrite <-!app_assoc. rewrite copy_at_app_0 by done.
  rewrite (copy_at_app 4 _ JOURNAL_V1_FRAME_MAGIC h1) by (rewrite ?len_be_bytes; done).
  rewrite (app_assoc JOURNAL_V1_FRAME_MAGIC), (copy_at_app 6 _ _ h2)
    by (rewrite ?len_app, ?len_be_bytes; done).
  rewrite (app_assoc (_ ++ _) (be_bytes 1 _)), (copy_at_app 7 _ _ h3)
    by (rewrite ?len_app, ?len_be_bytes; done).
  rewrite (app_assoc ((_ ++ _) ++ _) (be_bytes 1 _)), (copy_at_app 8 _ _ h4)
    by (rewrite ?len_app, ?len_be_bytes; done).
  rewrite (app_assoc (((_ ++ _) ++ _) ++ _) (be_bytes 8 _)), (copy_at_app 16 _ _ h5)
    by (rewrite ?len_app, ?len_be_bytes; done || lia).
  rewrite <-!app_assoc.
  assert (∀ t, JOURNAL_V1_FRAME_MAGIC ++ be_bytes 2 JOURNAL_V1_VERSION ++ be_bytes 1 FRAME_KIND_ADMISSION ++
    be_bytes 1 FRAME_FLAGS_NONE ++ be_bytes 8 (sequence_get s) ++ be_bytes 4 (len payload) ++ payload ++ t =
    (frame_prefix (sequence_get s) (len payload) ++ payload) ++ t) as ->.
  { intros t. unfold frame_prefix. by rewrite <-!app_assoc. }
  assert (len (frame_prefix (sequence_get s) (len payload) ++ payload) = 20 + len payload) as Hc
    by (by rewrite len_app, len_frame_prefix).
  rewrite slice_app_0 by done.
  rewrite <-(app_nil_r tail). rewrite (copy_at_app (20 + len payload)) by (rewrite ?len_be_bytes; done || lia).
  by rewrite app_nil_r.
Qed.

(** ** Frames as layouts *)

(** The slices the decoders read, of a split prefix. *)
Lemma prefix_slices b0 b1 b2 b3 b4 b5 r :
  len b0 = 4 → len b1 = 2 → len b2 = 1 → len b3 = 1 → len b4 = 8 → len b5 = 4 →
  let bytes := b0 ++ b1 ++ b2 ++ b3 ++ b4 ++ b5 ++ r in
  slice 0 4 bytes = b0 ∧ slice 4 6 bytes = b1 ∧ slice 6 7 bytes = b2 ∧ slice 7 8 bytes = b3 ∧
  slice 8 16 bytes = b4 ∧ slice 16 20 bytes = b5.
Proof.
  intros ?????? bytes. unfold bytes. split_and!.
  - by apply slice_app_0.
  - by apply slice_app.
  - rewrite (app_assoc b0). apply slice_app; rewrite ?len_app; lia.
  - rewrite (app_assoc b0), (app_assoc (_ ++ _) b2). apply slice_app; rewrite ?len_app; lia.
  - rewrite (app_assoc b0), (app_assoc (_ ++ _) b2), (app_assoc ((_ ++ _) ++ _) b3).
    apply slice_app; rewrite ?len_app; lia.
  - rewrite (app_assoc b0), (app_assoc (_ ++ _) b2), (app_assoc ((_ ++ _) ++ _) b3),
      (app_assoc (((_ ++ _) ++ _) ++ _) b4). apply slice_app; rewrite ?len_app; lia.
Qed.

Lemma prefix_split bytes :
  20 ≤ len bytes →
  ∃ b0 b1 b2 b3 b4 b5 r : list byte, bytes = b0 ++ b1 ++ b2 ++ b3 ++ b4 ++ b5 ++ r ∧
    len b0 = 4 ∧ len b1 = 2 ∧ len b2 = 1 ∧ len b3 = 1 ∧ len b4 = 8 ∧ len b5 = 4.
Proof.
  intros Hl.
  destruct (split_at 4 bytes) as (b0 & r0 & -> & H0); [lia|]. rewrite len_app in Hl.
  destruct (split_at 2 r0) as (b1 & r1 & -> & H1); [lia|]. rewrite len_app in Hl.
  destruct (split_at 1 r1) as (b2 & r2 & -> & H2); [lia|]. rewrite len_app in Hl.
  destruct (split_at 1 r2) as (b3 & r3 & -> & H3); [lia|]. rewrite len_app in Hl.
  destruct (split_at 8 r3) as (b4 & r4 & -> & H4); [lia|]. rewrite len_app in Hl.
  destruct (split_at 4 r4) as (b5 & r & -> & H5); [lia|].
  by exists b0, b1, b2, b3, b4, b5, r.
Qed.

Lemma sequence_new_Ok v s : sequence_new v = Ok s ↔ s = mkSequence v ∧ v ≠ 0.
Proof. unfold sequence_new. case_decide; naive_solver. Qed.

(** What both frame readers accept of a prefix. *)
Definition prefix_ok (prefix : list byte) (s : AppendSequenceV1) (n : Z) : Prop :=
  prefix = frame_prefix (sequence_get s) n ∧ wf s ∧ is_u32 n.

Lemma frame_prefix_checks bytes s n :
  20 ≤ len bytes →
  (slice 0 4 bytes = JOURNAL_V1_FRAME_MAGIC ∧ from_be (slice 4 6 bytes) = JOURNAL_V1_VERSION ∧
   from_be (slice 6 7 bytes) = FRAME_KIND_ADMISSION ∧ from_be (slice 7 8 bytes) = FRAME_FLAGS_NONE ∧
   sequence_new (from_be (slice 8 16 bytes)) = Ok s ∧ from_be (slice 16 20 bytes) = n) ↔
  ∃ r, bytes = frame_prefix (sequence_get s) n ++ r ∧ wf s ∧ is_u32 n.
Proof.
  intros Hl. split.
  - destruct (prefix_split bytes Hl) as (b0 & b1 & b2 & b3 & b4 & b5 & r & -> & ? & ? & ? & ? & Hl4 & Hl5).
    destruct (prefix_slices b0 b1 b2 b3 b4 b5 r) as (-> & -> & -> & -> & -> & ->); try done.
    rewrite sequence_new_Ok. intros (-> & Hv & Hk & Hf & [-> Hs] & Hn). exists r.
    pose proof (from_be_range b4) as Hr4. pose proof (from_be_range b5) as Hr5.
    rewrite (from_be_eq 2 b1 _ ltac:(done) Hv), (from_be_eq 1 b2 _ ltac:(done) Hk),
      (from_be_eq 1 b3 _ ltac:(done) Hf).
    assert (be_bytes 8 (from_be b4) = b4) as E4 by (symmetry; by apply from_be_eq).
    assert (be_bytes 4 n = b5) as E5 by (symmetry; by apply from_be_eq).
    unfold frame_prefix. cbn [sequence_get]. rewrite E4, E5, <-!app_assoc.
    split_and!; [done|apply in_range_spec; cbn [sequence_get]; unfold u64_max|apply in_range_spec; unfold u32_max].
    + rewrite Hl4 in Hr4. lia.
    + rewrite Hl5 in Hr5. lia.
  - intros (r & -> & Hs%in_range_spec & Hn%in_range_spec). unfold frame_prefix. rewrite <-!app_assoc.
    destruct (prefix_slices JOURNAL_V1_FRAME_MAGIC (be_bytes 2 JOURNAL_V1_VERSION)
      (be_bytes 1 FRAME_KIND_ADMISSION) (be_bytes 1 FRAME_FLAGS_NONE) (be_bytes 8 (sequence_get s))
      (be_bytes 4 n) r) as (-> & -> & -> & -> & -> & ->); try apply len_be_bytes; [done|].
    unfold u64_max, u32_max in *. rewrite !from_be_bytes_small by (done || lia).
    split_and!; try done. apply sequence_new_Ok. split; [by destruct s|lia].
Qed.

Definition predecessor_ok (prev : option AppendSequenceV1) (s : AppendSequenceV1) : Prop :=
  ∀ p, prev = Some p → sequence_get s = sequence_get p + 1.

Lemma successor_Ok p s : wf s → successor p = Ok s ↔ sequence_get s = sequence_get p + 1.
Proof.
  intros Hs%in_range_spec. unfold successor, checked_add, ok_or. destruct s as [n]. cbn [sequence_get] in *.
  case_decide; [naive_solver|]. split; [done|lia].
Qed.

Lemma predecessor_check prev s :
  wf s →
  (match prev with
   | Some p => let! next := successor p in if decide (s ≠ next) then Err NonMonotonicAppendSequence else Ok tt
   | None => Ok tt
   end = Ok tt) ↔ predecessor_ok prev s.
Proof.
  intros Hs. unfold predecessor_ok. destruct prev as [p|]; [|naive_solver].
  transitivity (successor p = Ok s).
  - destruct (successor p) as [n|e]; [|done]. case_decide; naive_solver.
  - rewrite successor_Ok by done. naive_solver.
Qed.

(** A decoded frame is the layout of a sequence and a payload the decoder reads
    to its end. *)
Lemma decode_frame_spec bytes limits prev a :
  decode_admission_frame_v1 bytes limits prev = Ok a ↔
  ∃ s payload cursor,
    bytes = frame_layout (sequence_get s) payload ∧ wf s ∧ predecessor_ok prev s ∧
    len payload ≤ MAX_ADMISSION_PAYLOAD_V1 ∧ len payload ≤ max_payload_len limits ∧
    decode_payload s (cursor_new payload) = Ok (a, cursor) ∧ cursor_finish cursor = Ok tt ∧
    validate_decoded a = Ok tt.
Proof.
  unfold decode_admission_frame_v1, JOURNAL_V1_FRAME_PREFIX_LEN, JOURNAL_V1_FRAME_CRC_LEN. split.
  - repeat (case_decide; [done|]).
    destruct (sequence_new _) as [s|] eqn:Es; [|done].
    set (n := from_be (slice 16 20 bytes)) in *.
    destruct (frame_prefix_checks bytes s n) as [Hpre _]; [lia|].
    destruct Hpre as (r & E & Hs & Hn%in_range_spec); [by split_and!|]. clearbody n. subst bytes.
    intros [Hp Hrest]%let_ok_iff. apply predecessor_check in Hp; [|done].
    case_decide as Hmax; [done|]. unfold MAX_ADMISSION_PAYLOAD_V1 in *.
    rewrite checked_add_ok in Hrest by (unfold usize_max, u64_max; lia). cbn [ok_or] in Hrest.
    rewrite checked_add_ok in Hrest by (unfold usize_max, u64_max; lia). cbn [ok_or] in Hrest.
    rewrite len_app, len_frame_prefix in Hrest.
    destruct (decide (20 + len r < 20 + n + 4)) as [|Hlo]; [done|].
    destruct (decide (20 + len r > 20 + n + 4)) as [|Hhi]; [done|].
    destruct (split_at n r) as (payload & crc & -> & Hpl); [lia|]. rewrite len_app in Hlo, Hhi.
    rewrite app_assoc in Hrest. rewrite (slice_app_0 (20 + n)) in Hrest by (rewrite len_app, len_frame_prefix; lia).
    rewrite (slice_app_end (20 + n) (20 + n + 4)) in Hrest by (rewrite ?len_app, ?len_frame_prefix; lia).
    rewrite <-app_assoc, (slice_app 20 (20 + n)) in Hrest by (rewrite ?len_frame_prefix; lia).
    case_decide as Hcrc; [done|]. symmetry in Hcrc.
    destruct (decode_payload s (cursor_new payload)) as [[a' cursor]|] eqn:Ed; [|done].
    apply let_ok_iff in Hrest as [Hf Hrest]. apply let_ok_iff in Hrest as [Hv Ha]. injection Ha as ->.
    exists s, payload, cursor. split_and!; try done; try lia.
    unfold frame_layout. rewrite Hpl, <-app_assoc. do 2 f_equal. apply (from_be_eq 4); [lia|done].
  - intros (s & payload & cursor & -> & Hs & Hp & Hmax & Hlim & Hd & Hf & Hv).
    pose proof (len_nonneg payload). unfold MAX_ADMISSION_PAYLOAD_V1 in *.
    rewrite decide_False by (rewrite len_frame_layout; lia).
    destruct (frame_prefix_checks (frame_layout (sequence_get s) payload) s (len payload)) as [_ Hpre];
      [rewrite len_frame_layout; lia|].
    destruct Hpre as (-> & -> & -> & -> & -> & ->).
    { unfold frame_layout. eexists. rewrite <-app_assoc. split_and!; [done|done|].
      apply in_range_spec. unfold u32_max. lia. }
    rewrite !decide_False by tauto. cbv beta iota. rewrite let_ok_iff. split; [by apply predecessor_check|].
    rewrite decide_False by lia.
    do 2 (rewrite checked_add_ok by (unfold usize_max, u64_max; lia); cbn [ok_or]).
    rewrite !decide_False by (rewrite len_frame_layout; lia).
    unfold frame_layout. cbv zeta.
    rewrite (slice_app_0 (20 + len payload)) by (rewrite len_app, len_frame_prefix; lia).
    rewrite (slice_app_end (20 + len payload) (20 + len payload + 4))
      by (rewrite ?len_app, ?len_frame_prefix, ?len_be_bytes; lia).
    rewrite <-app_assoc, (slice_app 20) by (rewrite ?len_frame_prefix; lia).
    pose proof (crc32c_range (frame_prefix (sequence_get s) (len payload) ++ payload)) as Hr%in_range_spec.
    rewrite from_be_bytes_small by (unfold u32_max in Hr; lia). rewrite decide_False by tauto.
    rewrite Hd, !let_ok_iff. done.
Qed.

(** ** The contract of decoded admissions *)

Definition lineage_ids (l : DecodedObservationLineageV1) : list EvidenceId :=
  [oe_evidence_id (dl_observation l); raw_evidence_id (dl_raw l); norm_evidence_id (dl_normalized l)].
Definition lineage_chained (snapshot : EvidenceId) (l : DecodedObservationLineageV1) : Prop :=
  raw_snapshot_id (dl_raw l) = snapshot ∧ norm_raw_record_id (dl_normalized l) = raw_evidence_id (dl_raw l) ∧
  norm_observation_id (dl_normalized l) = oe_evidence_id (dl_observation l) ∧
  ∀ i, raw_idempotency (dl_raw l) = Some i → idem_content i = artifact_content (raw_artifact (dl_raw l)).

(** Everything an admission promises that its frame can still show. *)
Record decoded_contract (a : DecodedAdmissionV1) : Prop := {
  dc_store : dec_store_id a = dd_store_id (dec_declaration a);
  dc_metadata : env_series (dec_envelope a) =
    series_metadata (dd_payload (dec_declaration a)) (dd_series_id (dec_declaration a));
  dc_retry : retry_series_id (dec_retry a) = dd_series_id (dec_declaration a) ∧
    retry_producer_id (dec_retry a) = payload_producer_id (dd_payload (dec_declaration a));
  dc_previous : dd_previous (dec_declaration a) =
    if decide (dd_revision (dec_declaration a) = FIRST) then None
    else Some (mkRevision (revision_get (dd_revision (dec_declaration a)) - 1));
  dc_interval : batch_interval (dec_batch a) = interval_kind (evidence_kind (dec_envelope a)) ∧
    dec_evidence_kind a = interval_kind (evidence_kind (dec_envelope a));
  dc_source : binding_source (dd_binding (dec_declaration a)) = source_of (dec_lifecycle a);
  dc_values : Forall (λ o, admits (payload_family (dd_payload (dec_declaration a))) (obs_value o))
    (observations (dec_envelope a));
  dc_associated : dl_canonical_id <$> dec_observations a = observation_id <$> observations (dec_envelope a);
  dc_ordinals : StronglySorted Z.lt (dl_ordinal <$> dec_observations a);
  dc_chained : Forall (lineage_chained (snapshot_evidence_id (lc_snapshot (dec_lifecycle a)))) (dec_observations a);
  dc_gaps : ∀ os gs, dec_evidence a = DecObserved os gs → Forall2 gap_matches (gaps (dec_envelope a)) gs;
  dc_distinct : NoDup (all_evidence_ids a) }.

Lemma check_distinct_Ok seen ids :
  check_distinct seen ids = Ok tt ↔ NoDup ids ∧ ∀ i, i ∈ ids → i ∉ seen.
Proof.
  revert seen. induction ids as [|i ids IH]; intros seen; cbn [check_distinct].
  - split; [|done]. intros _. split; [constructor|set_solver].
  - rewrite NoDup_cons. case_decide as Hi.
    + split; [done|]. intros [_ Hn]. by destruct (Hn i); [left|].
    + rewrite IH. split.
      * intros [? Hn]. split_and!; [|done|].
        -- intros Hii. specialize (Hn i Hii). set_solver.
        -- intros j [->|Hj]%elem_of_cons; [done|]. specialize (Hn j Hj). set_solver.
      * intros [[Hii ?] Hn]. split; [done|]. intros j Hj. specialize (Hn j ltac:(by right)).
        rewrite elem_of_app, list_elem_of_singleton. intros [?| ->]; done.
Qed.

Lemma check_lineage_cons snap l ls o os prev :
  check_lineage snap (l :: ls) (o :: os) prev = Ok tt ↔
  dl_canonical_id l = observation_id o ∧ (∀ p, prev = Some p → p < dl_ordinal l) ∧ lineage_chained snap l ∧
  check_lineage snap ls os (Some (dl_ordinal l)) = Ok tt.
Proof.
  cbn [check_lineage]. unfold lineage_chained. case_decide; [naive_solver|].
  destruct (is_some_and _ prev) eqn:Hp.
  { split; [done|]. intros (_ & Hlt & _). destruct prev as [p|]; [|done]. specialize (Hlt p eq_refl).
    apply bool_decide_eq_true in Hp. lia. }
  rewrite is_some_and_false in Hp.
  assert (∀ p, prev = Some p → p < dl_ordinal l).
  { intros p E. specialize (Hp p E). apply bool_decide_eq_false in Hp. lia. }
  do 3 (case_decide; [naive_solver|]).
  destruct (is_some_and _ (raw_idempotency (dl_raw l))) eqn:Hidem.
  - split; [done|]. intros (_&_&(_&_&_&Hi)&_). destruct (raw_idempotency (dl_raw l)) as [i|]; [|done].
    cbn in Hidem. apply bool_decide_eq_true in Hidem. destruct Hidem. by apply Hi.
  - rewrite is_some_and_false in Hidem.
    assert (∀ i, raw_idempotency (dl_raw l) = Some i → idem_content i = artifact_content (raw_artifact (dl_raw l))).
    { intros i Hi. specialize (Hidem i Hi). apply bool_decide_eq_false in Hidem. by apply dec_stable. }
    split; [intros; split_and!; done|tauto].
Qed.

Lemma check_lineage_Ok snap ls os prev :
  length ls = length os →
  check_lineage snap ls os prev = Ok tt ↔
  dl_canonical_id <$> ls = observation_id <$> os ∧
  (∀ p, prev = Some p → HdRel Z.lt p (dl_ordinal <$> ls)) ∧ Sorted Z.lt (dl_ordinal <$> ls) ∧
  Forall (lineage_chained snap) ls.
Proof.
  revert os prev. induction ls as [|l ls IH]; intros [|o os] prev Hl; try discriminate Hl.
  - cbn. split; [|done]. intros _. split_and!; try done; by constructor.
  - rewrite check_lineage_cons, IH by (by injection Hl). rewrite !fmap_cons, Forall_cons. split.
    + intros (E & Hp & Hc & Es & Hs & Hs' & Hc'). split_and!; try done.
      * by rewrite E, Es.
      * intros p Hp'. constructor. by apply Hp.
      * constructor; [done|]. by apply Hs.
    + intros ([= E Es] & Hp & Hs & Hc & Hc'). apply Sorted_inv in Hs as [Hs Hh]. split_and!; try done.
      * intros p Hp'. specialize (Hp p Hp'). by inversion Hp.
      * by intros p [= <-].
Qed.

(** The zip in the other order of the same gaps. *)
Lemma gaps_match_Ok (cs : list Gap) gs :
  len gs = len cs →
  existsb (λ '(source, canonical), bool_decide (¬ gap_matches canonical source)) (zip gs cs) = false ↔
  Forall2 gap_matches cs gs.
Proof.
  unfold len. intros Hl%Nat2Z.inj. revert cs Hl.
  induction gs as [|g gs IH]; intros [|c cs] Hl; try discriminate Hl.
  - split; [constructor|done].
  - cbn. rewrite orb_false_iff, Forall2_cons, IH, bool_decide_eq_false by (by injection Hl).
    split; intros [? ?]; (split; [|done]); [by apply dec_stable|tauto].
Qed.

Lemma check_evidence_Ok a :
  dec_evidence_kind a = interval_kind (evidence_kind (dec_envelope a)) →
  check_evidence a = Ok tt ↔
  dl_canonical_id <$> dec_observations a = observation_id <$> observations (dec_envelope a) ∧
  StronglySorted Z.lt (dl_ordinal <$> dec_observations a) ∧
  Forall (lineage_chained (snapshot_evidence_id (lc_snapshot (dec_lifecycle a)))) (dec_observations a) ∧
  ∀ os gs, dec_evidence a = DecObserved os gs → Forall2 gap_matches (gaps (dec_envelope a)) gs.
Proof.
  unfold check_evidence, dec_evidence_kind, dec_observations. destruct (dec_evidence a) as [ls gs|]; intros Hk.
  - split.
    + case_decide as Hlen; [done|]. rewrite let_ok_iff, check_lineage_Ok by (unfold len in Hlen; lia).
      rewrite Sorted_Z_lt. intros [(? & _ & ? & ?) Hg]. split_and!; try done.
      intros ? ? [= <- <-]. apply gaps_match_Ok; [lia|]. by destruct (existsb _ _).
    + intros (Ha & Ho & Hc & Hg). specialize (Hg ls gs eq_refl).
      pose proof (f_equal length Ha) as Hl. rewrite !length_fmap in Hl. pose proof (Forall2_length _ _ _ Hg).
      rewrite decide_False by (unfold len; lia). rewrite let_ok_iff, check_lineage_Ok, Sorted_Z_lt by done.
      split; [by split_and!|]. apply gaps_match_Ok in Hg; [by rewrite Hg|unfold len; lia].
  - destruct (evidence_kind (dec_envelope a)) eqn:Ek; [done|]. unfold evidence_kind, observations in *.
    destruct (env_evidence (dec_envelope a)); [done|]. split; [|done]. intros _. split_and!; done || constructor.
Qed.

Lemma expected_previous_Ok r :
  wf r → expected_previous (revision_get r) =
    Ok (if decide (r = FIRST) then None else Some (mkRevision (revision_get r - 1))).
Proof.
  intros Hr%in_range_spec. destruct r as [n]. unfold expected_previous. cbn [revision_get FIRST] in *.
  case_decide as Hn.
  - subst. by rewrite decide_True.
  - rewrite decide_False by (by intros [= ?]). unfold revision_new. by rewrite decide_False by lia.
Qed.

Lemma existsb_admits f os :
  existsb (λ o, negb (admits f (obs_value o))) os = false ↔ Forall (λ o, admits f (obs_value o)) os.
Proof.
  induction os as [|o os IH]; [split; [constructor|done]|]. cbn.
  rewrite orb_false_iff, IH, Forall_cons, negb_false_iff. by rewrite <-Is_true_true.
Qed.

(** The guards of [validate_decoded], in their order. *)
Lemma validate_decoded_guards a :
  wf (dd_revision (dec_declaration a)) →
  let d := dec_declaration a in let m := env_series (dec_envelope a) in
  let interval := interval_kind (evidence_kind (dec_envelope a)) in
  let lc := dec_lifecycle a in let source := binding_source (dd_binding d) in
  validate_decoded a = Ok tt ↔
  (dec_store_id a = dd_store_id d ∧ dd_series_id d = meta_series_id m ∧
   payload_producer_id (dd_payload d) = meta_producer_id m ∧ payload_mode (dd_payload d) = meta_mode m ∧
   retry_series_id (dec_retry a) = meta_series_id m ∧ retry_producer_id (dec_retry a) = meta_producer_id m) ∧
  dd_previous d = (if decide (dd_revision d = FIRST) then None
                   else Some (mkRevision (revision_get (dd_revision d) - 1))) ∧
  (batch_interval (dec_batch a) = interval ∧ dec_evidence_kind a = interval) ∧
  ∃ p, projection source = Some p ∧
    (system_provider (lc_system lc) = provider source ∧ system_projection (lc_system lc) = p ∧
     endpoint_locator (lc_endpoint lc) = locator source) ∧
    Forall (λ o, admits (payload_family (dd_payload d)) (obs_value o)) (observations (dec_envelope a)) ∧
    check_evidence a = Ok tt ∧ check_distinct [] (all_evidence_ids a) = Ok tt.
Proof.
  intros Hrev. cbv zeta. unfold validate_decoded. rewrite expected_previous_Ok by done. cbv zeta.
  generalize (check_distinct [] (all_evidence_ids a)) (check_evidence a). intros distinct evidence.
  rewrite guard_Ok. cbv beta iota. rewrite !guard_Ok, ok_or_Ok. setoid_rewrite guard_Ok.
  setoid_rewrite <-existsb_admits.
  destruct (existsb _ _); [by split; [naive_solver|naive_solver]|]. setoid_rewrite let_ok_iff.
  rewrite !refused_or, !not_refused_eq by apply _.
  split; [intros (?&?&?&p&?&Hsys&?&?)|intros (?&?&?&p&?&?&_&?&?)]; split_and!; try tauto; exists p.
  - rewrite !refused_or, !not_refused_eq in Hsys by apply _. naive_solver.
  - rewrite !refused_or, !not_refused_eq by apply _. naive_solver.
Qed.

Lemma validate_decoded_Ok a :
  wf (dd_revision (dec_declaration a)) → validate_decoded a = Ok tt ↔ decoded_contract a.
Proof.
  intros Hrev. rewrite validate_decoded_guards by done. split.
  - intros ((?&Hser&Hprod&Hmode&?&?)&?&[? Hkind]&p&Hp&(Hs1&Hs2&Hs3)&?&Hev&Hd).
    apply check_evidence_Ok in Hev as (?&?&?&?); [|done]. apply check_distinct_Ok in Hd as [? _].
    split; try done.
    + unfold series_metadata. rewrite Hser, Hprod, Hmode. by destruct (env_series _).
    + rewrite Hser, Hprod. done.
    + unfold source_of. rewrite Hs1, Hs2, Hs3, <-Hp. by destruct (binding_source _).
  - intros [Hst Hm [Hr1 Hr2] Hp [Hk1 Hk2] Hs Hv Ha Ho Hc Hg Hd].
    rewrite Hm, Hs. split_and!; try done. eexists. split_and!; try done.
    + by apply check_evidence_Ok.
    + apply check_distinct_Ok. set_solver.
Qed.


(** ** Issued admissions *)

(** The admissions a registry's clients can construct: an envelope bound by the
    registry, with well-formed evidence, accepted by one of the two
    constructors. *)
Inductive issued (r : SeriesRegistry) : CanonicalAdmission → Prop :=
| issued_observed e d retry batch lifecycle contexts gs a :
    wf e → wf retry → wf batch → wf lifecycle → wf contexts → wf gs →
    bind r e = Ok d → admission_observed d retry batch lifecycle contexts gs = Ok a → issued r a
| issued_no_change e d retry batch lifecycle a :
    wf e → wf retry → wf batch → wf lifecycle →
    bind r e = Ok d → admission_no_change d retry batch lifecycle = Ok a → issued r a.

(** What a binding of a well-formed registry carries. *)
Lemma bind_declared r e d :
  registry_ok r → bind r e = Ok d →
  wf (declared_store_id d) ∧ wf (decoded_declaration_of (declared_declaration d)) ∧
  declared_envelope d = e ∧ decl_store_id (declared_declaration d) = declared_store_id d ∧
  env_series e = series_metadata (decl_payload (declared_declaration d)) (decl_series_id (declared_declaration d)) ∧
  decl_previous (declared_declaration d) =
    (if decide (decl_revision (declared_declaration d) = FIRST) then None
     else Some (mkRevision (revision_get (decl_revision (declared_declaration d)) - 1))) ∧
  Forall (λ o, admits (payload_family (decl_payload (declared_declaration d))) (obs_value o)) (observations e).
Proof.
  intros Hok (h & c & Hi & _ & Hl & -> & Hm & Ha)%bind_Ok. cbn [declared_store_id declared_declaration declared_envelope].
  pose proof (ok_histories _ Hok _ h Hi) as Hh. pose proof (registry_ok_revision _ _ _ Hok Hi) as Hb.
  pose proof (latest_lookup _ _ Hl) as Hk. pose proof (lookup_lt_Some _ _ _ Hk) as Hlt.
  destruct (ho_declaration _ _ _ Hh _ _ Hk) as (Hc & Hwp & Hwe). destruct (ho_wf _ _ _ Hh) as [Hwi Hwb].
  set (k := pred (length (declarations h))) in *. rewrite Hc. rewrite Hc in Hm. cbn in Hm |- *.
  assert (∀ z, 1 ≤ z ≤ Z.of_nat k + 1 → wf (mkRevision z)) as Hrev.
  { intros z Hz. apply in_range_spec. cbn [revision_get]. unfold usize_max, u64_max, u128_max, len in *. lia. }
  split_and!; try done.
  - apply Hok.
  - wf_intro; try done; [apply Hok|apply Hrev; lia|]. cbn. case_decide; [done|]. apply Hrev. lia.
  - case_decide as Hk0.
    + rewrite Hk0. done.
    + rewrite decide_False; [do 2 f_equal; lia|]. intros [= ?]. lia.
Qed.

Lemma retained_lineage_ids cs :
  concat (lineage_ids <$> (decoded_lineage_of <$> (retain <$> cs))) = concat (context_ids <$> cs).
Proof. induction cs as [|c cs IH]; [done|]. rewrite !fmap_cons. cbn [concat]. by rewrite IH. Qed.

Lemma retained_wf (cs : list SourceObservationContext) : wf cs → wf (decoded_lineage_of <$> (retain <$> cs)).
Proof.
  rewrite !wf_list_Forall, !Forall_fmap. intros Hw. eapply Forall_impl; [exact Hw|]. intros c Hc.
  cbv beta in Hc. wf_split Hc. unfold compose. cbv beta. wf_intro; assumption.
Qed.

(** What the admission constructors share: a well-formed declared envelope and
    the common contract, with the evidence's own clauses left to each. *)
Lemma declared_decoded r s e d retry batch lc ev :
  let a := decoded_of s (mkAdmission (declared_store_id d) (declared_declaration d) (declared_envelope d)
                           retry batch lc ev) in
  registry_ok r → bind r e = Ok d → wf e → wf retry → wf batch → wf lc → wf (decoded_evidence_of ev) →
  common_contract d retry batch lc (dec_evidence_kind a) →
  dl_canonical_id <$> dec_observations a = observation_id <$> observations (declared_envelope d) →
  StronglySorted Z.lt (dl_ordinal <$> dec_observations a) →
  Forall (lineage_chained (snapshot_evidence_id (lc_snapshot lc))) (dec_observations a) →
  (∀ os gs, dec_evidence a = DecObserved os gs → Forall2 gap_matches (gaps (declared_envelope d)) gs) →
  NoDup (all_evidence_ids a) → wf a ∧ decoded_contract a.
Proof.
  intros a Hok Hd He Hr Hb Hlc Hev [[Hsc1 Hsc2] [Hi1 Hi2] Hsrc] Ha Ho Hc Hg Hn.
  apply (bind_declared _ _ _ Hok) in Hd as (?&?&Eenv&Est&Hm&?&?). subst e. split.
  - wf_intro; assumption.
  - split; try done.
    + cbn. rewrite Hsc1, Hsc2, Hm. done.
    + cbn. by rewrite Hi1, Hi2.
Qed.

Lemma issued_decoded r a s :
  registry_ok r → issued r a → wf s → wf (decoded_of s a) ∧ decoded_contract (decoded_of s a).
Proof.
  intros Hok Ha Hs.
  destruct Ha as [e d retry batch lc cs gs a He Hr Hb Hlc Hcs Hgs Hd Ha|e d retry batch lc a He Hr Hb Hlc Hd Ha].
  - apply admission_observed_inv in Ha as (-> & Hc & [[? ?] ? ? ? ? Hch ?]).
    eapply declared_decoded; try done.
    + pose proof (retained_wf _ Hcs). cbn [decoded_evidence_of]. wf_intro; try assumption; apply bool_decide_spec; [|done].
      unfold len in *. by rewrite !length_fmap.
    + cbn. by rewrite <-!list_fmap_compose.
    + cbn. by rewrite <-!list_fmap_compose.
    + cbn. rewrite !Forall_fmap. exact Hch.
    + by intros ? ? [= <- <-].
    + unfold all_evidence_ids. cbn. by rewrite retained_lineage_ids.
  - apply admission_no_change_inv in Ha as (-> & Hc & Hn).
    eapply declared_decoded; try done; cbn.
    + destruct Hc as [_ [_ Hk] _]. unfold evidence_kind, observations in *.
      by destruct (env_evidence (declared_envelope d)).
    + constructor.
Qed.

(** ** Whole frames *)

Lemma put_bytes_payload a mode :
  wf a → encoder_ok (mkEncoder mode) →
  encode_decoded_payload a (mkEncoder mode) = Ok (put_bytes (payload_wire a) (mkEncoder mode)).
Proof. intros Hw Hm. by apply payload_writes. Qed.

Lemma encode_decoded_layout a :
  wf a → encode_decoded_admission_frame_v1 a = Ok (frame_layout (dec_append_sequence a) (payload_wire a)).
Proof.
  intros Hw. unfold encode_decoded_admission_frame_v1, encoder_new. rewrite put_bytes_payload by done.
  rewrite frame_bytes_layout. cbn [encoder_finish put_bytes output app].
  rewrite decide_True by (by apply payload_fits). done.
Qed.

Lemma encode_canonical_layout s a :
  wf (decoded_of s a) →
  encode_admission_frame_v1 s a = Ok (frame_layout (sequence_get s) (payload_wire (decoded_of s a))).
Proof. intros Hw%encode_decoded_layout. unfold encode_admission_frame_v1. by rewrite (encode_canonical_decoded s). Qed.

(** The payload decoder, run over a whole payload. *)
Lemma decode_payload_exact s payload a :
  len payload ≤ usize_max →
  (∃ cursor, decode_payload s (cursor_new payload) = Ok (a, cursor) ∧ cursor_finish cursor = Ok tt) ↔
  wf a ∧ dec_append_sequence a = sequence_get s ∧ payload = payload_wire a.
Proof.
  intros Hl. split.
  - intros (c & Hd & Hf). destruct (payload_accepts s [] payload a c Hd) as (w & post & -> & -> & [[? ?] ->]).
    unfold cursor_finish in Hf. cbn [cur_offset cur_bytes] in Hf. case_decide as He; [|done].
    split_and!; [done|done|].
    rewrite len_nil, app_nil_l, len_app in He. destruct post as [|b post]; [by rewrite app_nil_r|].
    rewrite len_cons in He. pose proof (len_nonneg post). lia.
  - intros (Hw & Hs & ->). pose proof (payload_reads s a Hw Hs [] []) as Hr. rewrite app_nil_r in Hr.
    eexists. split; [by apply Hr|]. unfold cursor_finish. cbn [cur_offset cur_bytes]. by rewrite decide_True.
Qed.

Lemma decode_frame_exact bytes limits prev a :
  decode_admission_frame_v1 bytes limits prev = Ok a ↔
  wf a ∧ wf (mkSequence (dec_append_sequence a)) ∧ predecessor_ok prev (mkSequence (dec_append_sequence a)) ∧
  decoded_contract a ∧ len (payload_wire a) ≤ max_payload_len limits ∧
  bytes = frame_layout (dec_append_sequence a) (payload_wire a).
Proof.
  rewrite decode_frame_spec. split.
  - intros (s & payload & cursor & -> & Hs & Hp & Hmax & Hlim & Hd & Hf & Hv).
    assert (wf a ∧ dec_append_sequence a = sequence_get s ∧ payload = payload_wire a) as (Hw & E & ->).
    { apply decode_payload_exact; [unfold MAX_ADMISSION_PAYLOAD_V1, usize_max, u64_max in *; lia|by exists cursor]. }
    rewrite E. destruct s as [n]. split_and!; try done.
    apply validate_decoded_Ok; [|done]. wf_split Hw.
    match goal with H : Is_true (wf (dec_declaration a)) |- _ => by wf_split H end.
  - intros (Hw & Hs & Hp & Hc & Hlim & ->). pose proof (payload_fits a Hw) as Hfit.
    destruct (decode_payload_exact (mkSequence (dec_append_sequence a)) (payload_wire a) a) as [_ Hx];
      [unfold MAX_ADMISSION_PAYLOAD_V1, usize_max, u64_max in *; lia|].
    destruct Hx as (cursor & Hd & Hf); [done|].
    eexists (mkSequence _), _, cursor. split_and!; try done.
    apply validate_decoded_Ok; [|done]. wf_split Hw.
    match goal with H : Is_true (wf (dec_declaration a)) |- _ => by wf_split H end.
Qed.

Lemma crc_inj c c' : be_bytes 4 (crc32c c) = be_bytes 4 (crc32c c') → crc32c c = crc32c c'.
Proof.
  intros E%(f_equal from_be). pose proof (crc32c_range c) as H%in_range_spec.
  pose proof (crc32c_range c') as H'%in_range_spec. unfold u32_max in *.
  rewrite !from_be_bytes_small in E by lia. done.
Qed.

(** An accepted frame is covered bytes followed by their checksum. *)
Lemma decode_frame_covered bytes limits prev a :
  decode_admission_frame_v1 bytes limits prev = Ok a → ∃ c, bytes = c ++ be_bytes 4 (crc32c c).
Proof. intros (_ & _ & _ & _ & _ & ->)%decode_frame_exact. unfold frame_layout. eauto. Qed.

Lemma header_layout s :
  len (into_bytes s) = 16 →
  encode_header s = JOURNAL_V1_HEADER_MAGIC ++ be_bytes 2 JOURNAL_V1_VERSION ++ be_bytes 2 28 ++ into_bytes s.
Proof.
  intros Hl. unfold encode_header. cbv zeta. set (b := copy_at 10 _ _). unfold copy_at. rewrite Hl.
  assert (drop (Z.to_nat (12 + 16)) b = []) as -> by (by vm_compute).
  assert (take (Z.to_nat 12) b = JOURNAL_V1_HEADER_MAGIC ++ be_bytes 2 JOURNAL_V1_VERSION ++ be_bytes 2 28) as ->
    by (by vm_compute). by rewrite app_nil_r, <-!app_assoc.
Qed.

(** The slices [decode_header] reads. *)
Lemma header_slices b0 b1 b2 b3 :
  len b0 = 8 → len b1 = 2 → len b2 = 2 → len b3 = 16 →
  let bytes := b0 ++ b1 ++ b2 ++ b3 in
  slice 0 8 bytes = b0 ∧ slice 8 10 bytes = b1 ∧ slice 10 12 bytes = b2 ∧ slice 12 28 bytes = b3.
Proof.
  intros ???? bytes. unfold bytes. split_and!.
  - by apply slice_app_0.
  - by apply slice_app.
  - rewrite (app_assoc b0). apply slice_app; rewrite ?len_app; lia.
  - rewrite (app_assoc b0), (app_assoc (_ ++ _) b2). apply slice_app_end; rewrite ?len_app; lia.
Qed.

Lemma header_split bytes :
  len bytes = 28 → ∃ b0 b1 b2 b3 : list byte,
    bytes = b0 ++ b1 ++ b2 ++ b3 ∧ len b0 = 8 ∧ len b1 = 2 ∧ len b2 = 2 ∧ len b3 = 16.
Proof.
  intros Hl.
  destruct (split_at 8 bytes) as (b0 & r0 & -> & H0); [lia|]. rewrite len_app in Hl.
  destruct (split_at 2 r0) as (b1 & r1 & -> & H1); [lia|]. rewrite len_app in Hl.
  destruct (split_at 2 r1) as (b2 & b3 & -> & H2); [lia|]. rewrite len_app in Hl.
  exists b0, b1, b2, b3. split_and!; try done. lia.
Qed.

Lemma decode_encoded_header id : wf id → header_decode (encode_header id) = Ok (mkHeader id).
Proof.
  intros Hw. unfold header_decode, decode_header, JOURNAL_V1_HEADER_LEN. pose proof (wf_identity_length _ Hw) as Hl.
  assert (len (into_bytes id) = 16) as Hi by (unfold len; lia). rewrite header_layout by done.
  destruct (header_slices JOURNAL_V1_HEADER_MAGIC (be_bytes 2 JOURNAL_V1_VERSION) (be_bytes 2 28) (into_bytes id))
    as (-> & -> & -> & ->); try done.
  rewrite !from_be_bytes_small by (unfold JOURNAL_V1_VERSION; lia).
  assert (len (JOURNAL_V1_HEADER_MAGIC ++ be_bytes 2 JOURNAL_V1_VERSION ++ be_bytes 2 28 ++ into_bytes id) = 28)
    as -> by (by rewrite !len_app, !len_be_bytes, Hi).
  rewrite !decide_False by (lia || tauto). by rewrite from_bytes_into.
Qed.

(** ** Concrete frames *)

Lemma sample_issued : issued sample_registry sample_admission.
Proof.
  by eapply (issued_observed _ sample_envelope sample_declared sample_retry (sample_batch SourceObserved)
    sample_lifecycle [sample_context] []); vm_compute.
Qed.

Definition sample_frame : list byte :=
  match encode_admission_frame_v1 (mkSequence 1) sample_admission with Ok bytes => bytes | Err _ => [] end.

(** ** Properties *)

(** The store header codec is exact: the 28 bytes a header encodes to are the
    only ones that decode to it, so every other byte string is refused. *)
Theorem header_decode_exact bytes h :
  header_decode bytes = Ok h ↔ wf (header_store_id h) ∧ bytes = header_encode h.
Proof.
  unfold header_decode, decode_header, JOURNAL_V1_HEADER_LEN, header_encode. destruct h as [id].
  cbn [header_store_id]. split.
  - repeat (case_decide; [done|]).
    destruct (header_split bytes) as (b0 & b1 & b2 & b3 & -> & Hl0 & Hl1 & Hl2 & Hl3); [lia|].
    destruct (header_slices b0 b1 b2 b3) as (E0 & E1 & E2 & E3); try done.
    destruct (from_bytes _) as [id'|] eqn:Ef; [|done]. intros [= <-].
    rewrite E3 in Ef. apply from_bytes_wf in Ef as [Hw Hi]; [|unfold len in Hl3; lia].
    split; [done|]. rewrite header_layout by (by rewrite Hi). rewrite Hi. f_equal; [by rewrite <-E0|].
    rewrite (from_be_eq 2 b1 JOURNAL_V1_VERSION), (from_be_eq 2 b2 28); try done; [by rewrite <-E2|by rewrite <-E1].
  - intros [Hw ->]. by apply decode_encoded_header.
Qed.

(** C3: Frame decoding is exact: bytes decode to an admission exactly when they are
    the encoding of that admission, every field satisfies its type's invariant,
    the sequence number is positive and follows the caller's predecessor, the
    payload is within the caller's limit, and the cross-field contract holds.
    There is no second encoding and no accepted garbage. *)
Theorem frame_decode_exact bytes limits prev a :
  decode_admission_frame_v1 bytes limits prev = Ok a ↔
  wf a ∧ wf (mkSequence (dec_append_sequence a)) ∧ predecessor_ok prev (mkSequence (dec_append_sequence a)) ∧
  decoded_contract a ∧
  encode_decoded_admission_frame_v1 a = Ok bytes ∧
  len bytes ≤ JOURNAL_V1_FRAME_PREFIX_LEN + max_payload_len limits + JOURNAL_V1_FRAME_CRC_LEN.
Proof.
  rewrite decode_frame_exact. unfold JOURNAL_V1_FRAME_PREFIX_LEN, JOURNAL_V1_FRAME_CRC_LEN. split.
  - intros (Hw & ? & ? & ? & ? & ->). rewrite encode_decoded_layout by done. rewrite len_frame_layout.
    split_and!; done || lia.
  - intros (Hw & ? & ? & ? & E & Hl). rewrite encode_decoded_layout in E by done. injection E as <-.
    rewrite len_frame_layout in Hl. split_and!; done || lia.
Qed.

(** C5: What a registry's clients admit can always be journaled and read back:
    every admission issued against a reachable registry encodes at any positive
    sequence number, and the frame decodes, at the maximum limits, to the same
    data. *)
Theorem issued_frame_roundtrip r a s (Hr : reachable r) (Ha : issued r a) (Hs : wf s) :
  ∃ bytes, encode_admission_frame_v1 s a = Ok bytes ∧
    decode_admission_frame_v1 bytes decode_limits_maximum None = Ok (decoded_of s a).
Proof.
  destruct (issued_decoded r a s) as [Hw Hc]; [by apply reachable_ok|done..|].
  eexists. split; [by apply encode_canonical_layout|]. apply decode_frame_exact.
  pose proof (payload_fits _ Hw). split_and!; try done.
Qed.

Lemma issued_frame_roundtrip_witness :
  encode_admission_frame_v1 (mkSequence 1) sample_admission = Ok sample_frame ∧
  ∃ bytes, encode_admission_frame_v1 (mkSequence 1) sample_admission = Ok bytes ∧
    decode_admission_frame_v1 bytes decode_limits_maximum None = Ok (decoded_of (mkSequence 1) sample_admission).
Proof.
  split; [by vm_compute|].
  apply (issued_frame_roundtrip sample_registry); [apply sample_reachable|apply sample_issued|by vm_compute].
Defined.

(** C24: Corruption of up to 32 contiguous bits is always detected: once a frame is
    accepted, no other frame that differs from it in one run of at most four
    bytes, within the covered bytes or within the checksum, is accepted under
    any limits and any predecessor. *)
Theorem frame_corruption_detected p w w' q limits prev a limits' prev' a'
  (Hd : decode_admission_frame_v1 (p ++ w ++ q) limits prev = Ok a)
  (Hl : length w = length w') (H4 : len w ≤ 4) (Hq : 4 ≤ len q ∨ len w + len q ≤ 4) (Hw : w ≠ w') :
  decode_admission_frame_v1 (p ++ w' ++ q) limits' prev' ≠ Ok a'.
Proof.
  intros Hd'. destruct (decode_frame_covered _ _ _ _ Hd) as [c E]. destruct (decode_frame_covered _ _ _ _ Hd') as [c' E'].
  apply Hw. destruct Hq as [Hq|Hq].
  - destruct (split_at (len q - 4) q) as (q0 & crc & -> & Hq0); [lia|]. rewrite len_app in Hq0, Hq.
    rewrite !app_assoc in E, E'.
    apply app_inj_len in E as [<- Ec]; [|rewrite len_be_bytes; lia].
    apply app_inj_len in E' as [<- Ec']; [|rewrite len_be_bytes; lia].
    rewrite <-!app_assoc in Ec, Ec'. rewrite Ec in Ec'. apply crc_inj in Ec'. by apply crc32c_burst in Ec'.
  - assert (len c = len c') as Hcc.
    { apply (f_equal len) in E, E'. rewrite !len_app, len_be_bytes in E, E'. unfold len in *. lia. }
    assert (len p + len w + len q = len c + 4) as Hp.
    { apply (f_equal len) in E. rewrite !len_app, len_be_bytes in E. lia. }
    destruct (split_at (len c) p) as (p0 & p1 & -> & Hp0); [pose proof (len_nonneg c); lia|]. rewrite <-!app_assoc in E, E'.
    rewrite len_app in Hp.
    apply app_inj_len in E as [-> Ec]; [|rewrite !len_app, len_be_bytes; lia].
    apply app_inj_len in E' as [-> Ec']; [|rewrite !len_app, len_be_bytes; unfold len in *; lia].
    rewrite <-Ec' in Ec. apply app_inv_head in Ec. apply app_inj_len in Ec as [-> _]; done.
Qed.

(** One flipped payload bit of the sample frame. *)
Lemma frame_corruption_detected_witness :
  take 1 (drop 40 sample_frame) ≠ [xfe] ∧
  decode_admission_frame_v1 (take 40 sample_frame ++ [xfe] ++ drop 41 sample_frame) decode_limits_maximum None ≠
    Ok (decoded_of (mkSequence 1) sample_admission).
Proof.
  split; [by vm_compute|].
  apply (frame_corruption_detected _ (take 1 (drop 40 sample_frame)) _ _ decode_limits_maximum None
    (decoded_of (mkSequence 1) sample_admission)).
  - by vm_compute.
  - by vm_compute.
  - by vm_compute.
  - left. by vm_compute.
  - by vm_compute.
Defined.

(** C26: The writer's two paths agree: preparing an issued admission succeeds, with
    the frame length the counting pass announces, and turning the prepared
    payload into a frame at any positive sequence number yields the bytes of the
    direct encoder, of exactly that length. *)
Theorem prepared_frame_exact r a s (Hr : reachable r) (Ha : issued r a) (Hs : wf s) :
  ∃ p f, prepared_new a = Ok p ∧ into_frame p s = Ok f ∧ frame_admission f = a ∧ frame_append_sequence f = s ∧
    encode_admission_frame_v1 s a = Ok (frame_content f) ∧
    admission_frame_len_v1 a = Ok (len (frame_content f)).
Proof.
  destruct (issued_decoded r a s) as [Hw _]; [by apply reachable_ok|done..|].
  pose proof (payload_fits _ Hw) as Hfit. pose proof (len_nonneg (payload_wire (decoded_of s a))).
  assert (admission_frame_len_v1 a = Ok (20 + len (payload_wire (decoded_of s a)) + 4)) as El.
  { unfold admission_frame_len_v1, encoder_counting. rewrite (encode_canonical_decoded s), put_bytes_payload by done.
    unfold encoder_len, put_bytes, saturating_add. cbn [output].
    unfold MAX_ADMISSION_PAYLOAD_V1, usize_max, u64_max in *.
    rewrite Z.add_0_l, Z.min_l by lia. rewrite decide_False by lia.
    unfold JOURNAL_V1_FRAME_PREFIX_LEN, JOURNAL_V1_FRAME_CRC_LEN.
    by do 2 (rewrite checked_add_ok by lia). }
  unfold prepared_new, into_frame. rewrite El, (encode_canonical_decoded s). unfold encoder_new at 1.
  rewrite put_bytes_payload by done. cbn [encoder_finish put_bytes output app].
  unfold JOURNAL_V1_FRAME_PREFIX_LEN, JOURNAL_V1_FRAME_CRC_LEN. rewrite decide_False by tauto.
  do 2 eexists. split; [done|]. cbn [prep_payload prep_frame_len prep_admission].
  rewrite frame_bytes_layout, decide_True by done. rewrite decide_True by (rewrite len_frame_layout; lia).
  split; [done|]. cbn [frame_content frame_admission frame_append_sequence].
  rewrite len_frame_layout. split_and!; try done; [by apply encode_canonical_layout|f_equal; lia].
Qed.

Lemma prepared_frame_exact_witness :
  ∃ p f, prepared_new sample_admission = Ok p ∧ into_frame p (mkSequence 7) = Ok f ∧
    frame_admission f = sample_admission ∧ frame_append_sequence f = mkSequence 7 ∧
    encode_admission_frame_v1 (mkSequence 7) sample_admission = Ok (frame_content f) ∧
    admission_frame_len_v1 sample_admission = Ok (len (frame_content f)).
Proof.
  apply (prepared_frame_exact sample_registry); [apply sample_reachable|apply sample_issued|by vm_compute].
Defined.

(** What the prefix reader returns for a prefix of the right shape. *)
Lemma frame_len_from_prefix_Ok prefix limits n :
  frame_len_from_prefix_v1 prefix limits = Ok n ↔
  ∃ s, wf s ∧ prefix = frame_prefix (sequence_get s) (n - 24) ∧
    0 ≤ n - 24 ≤ MAX_ADMISSION_PAYLOAD_V1 ∧ n - 24 ≤ max_payload_len limits.
Proof.
  unfold frame_len_from_prefix_v1, JOURNAL_V1_FRAME_PREFIX_LEN, JOURNAL_V1_FRAME_CRC_LEN.
  unfold MAX_ADMISSION_PAYLOAD_V1. split.
  - repeat (case_decide; [done|]). destruct (sequence_new _) as [s|] eqn:Es; [|done].
    set (k := from_be (slice 16 20 prefix)) in *.
    destruct (frame_prefix_checks prefix s k) as [Hpre _]; [lia|].
    destruct Hpre as (r & E & Hs & Hk%in_range_spec); [by split_and!|]. clearbody k.
    case_decide as Hmax; [done|].
    do 2 (rewrite checked_add_ok by (unfold usize_max, u64_max; lia)). intros [= <-]. exists s.
    replace (20 + k + 4 - 24) with k by lia. split_and!; try done; try lia.
    assert (len prefix = 20) as Hl by lia. rewrite E, len_app, len_frame_prefix in Hl.
    destruct r as [|b r]; [by rewrite E, app_nil_r|].
    rewrite len_cons in Hl. pose proof (len_nonneg r). lia.
  - intros (s & Hs & E & Hn & Hlim). set (k := n - 24) in *. subst prefix.
    rewrite len_frame_prefix. rewrite decide_False by lia.
    destruct (frame_prefix_checks (frame_prefix (sequence_get s) k) s k) as [_ Hpre];
      [by rewrite len_frame_prefix|].
    destruct Hpre as (-> & -> & -> & -> & -> & ->).
    { exists []. rewrite app_nil_r. split_and!; [done..|]. apply in_range_spec. unfold u32_max. lia. }
    rewrite !decide_False by tauto. rewrite decide_False by lia.
    do 2 (rewrite checked_add_ok by (unfold usize_max, u64_max; lia)). cbn [ok_or]. f_equal. lia.
Qed.

(** The prefix reader agrees with the frame decoder: it accepts exactly the
    20-byte prefixes of some positive sequence and some payload length within
    both limits and returns the length of the whole frame, which is the length
    of every frame the decoder accepts with that prefix. *)
Theorem frame_len_from_prefix_exact prefix limits n :
  (frame_len_from_prefix_v1 prefix limits = Ok n ↔
    ∃ s, wf s ∧ prefix = frame_prefix (sequence_get s) (n - 24) ∧
      0 ≤ n - 24 ≤ MAX_ADMISSION_PAYLOAD_V1 ∧ n - 24 ≤ max_payload_len limits) ∧
  (∀ rest prev a, decode_admission_frame_v1 (prefix ++ rest) limits prev = Ok a → len prefix = 20 →
    frame_len_from_prefix_v1 prefix limits = Ok (len (prefix ++ rest))).
Proof.
  split; [apply frame_len_from_prefix_Ok|]. intros rest prev a (Hw & Hs & _ & _ & Hlim & E)%decode_frame_exact Hl.
  pose proof (payload_fits a Hw). pose proof (len_nonneg (payload_wire a)).
  rewrite E, len_frame_layout. apply frame_len_from_prefix_Ok.
  exists (mkSequence (dec_append_sequence a)). replace (24 + len (payload_wire a) - 24) with (len (payload_wire a)) by lia.
  split_and!; try done. unfold frame_layout in E. rewrite <-app_assoc in E.
  apply app_inj_1 in E as [-> _]; [done|]. pose proof (len_frame_prefix (dec_append_sequence a) (len (payload_wire a))).
  unfold len in *. lia.
Qed.
