(* ===== verification/Generation.v ===== *)
(** * The generation catalog

    [och-store/src/generation.rs]: sealed Journal V1 generations, the bounded
    catalog that chains them, its file codec, the rotation intent, generation
    file names and the streaming checksum. A catalog grows by [advance] from
    [catalog_empty]; its entries always partition the sealed sequence range. *)

From Stdlib Require Import Strings.String.
From S2P Require Import Prelude Bytes Identity Bounded Value Wire Layout Crc Fields Journal.

(** ** Constants *)

Definition MAX_SEALED_GENERATIONS : Z := 64.
Definition MAX_ACTIVE_JOURNAL_BYTES : Z := 512 * 1024 * 1024.
(** [OCHCAT01] and [OCHROT01]. *)
Definition CATALOG_MAGIC : list byte := list_byte_of_string "OCHCAT01".
Definition ROTATION_INTENT_MAGIC : list byte := list_byte_of_string "OCHROT01".
Definition CATALOG_VERSION : Z := 1.
Definition CATALOG_HEADER_LEN : Z := 64.
Definition CATALOG_ENTRY_LEN : Z := 64.
Definition MAX_GENERATION_CATALOG_BYTES : Z :=
  CATALOG_HEADER_LEN + CATALOG_ENTRY_LEN * MAX_SEALED_GENERATIONS + 4.
Definition SEALED_FORMAT_RAW_JOURNAL_V1 : Z := 1.
Definition ROTATION_INTENT_VERSION : Z := 1.
Definition ROTATION_INTENT_LEN : Z := 96.

(** ** Data *)

Record GenerationCatalogReference := mkCatalogReference {
  cat_slot : Z;
  cat_generation : Z;
  cat_length : Z;
  cat_checksum : Z }.
#[export] Instance GenerationCatalogReference_eq_dec : EqDecision GenerationCatalogReference.
Proof. solve_decision. Defined.
#[export] Instance wf_catalog_reference : Wf GenerationCatalogReference := λ r,
  is_u8 (cat_slot r) && is_u64 (cat_generation r) && is_u64 (cat_length r) && is_u32 (cat_checksum r).

Record SealedGeneration := mkSealed {
  sg_journal_generation : Z;
  sg_sequence_floor : Z;
  sg_sequence_cutoff : Z;
  sg_end_offset : Z;
  sg_registry_generation : Z;
  sg_artifact_length : Z;
  sg_artifact_checksum : Z }.
#[export] Instance SealedGeneration_eq_dec : EqDecision SealedGeneration.
Proof. solve_decision. Defined.
#[export] Instance wf_sealed : Wf SealedGeneration := λ e,
  is_u64 (sg_journal_generation e) && is_u64 (sg_sequence_floor e) && is_u64 (sg_sequence_cutoff e) &&
  is_u64 (sg_end_offset e) && is_u64 (sg_registry_generation e) && is_u64 (sg_artifact_length e) &&
  is_u32 (sg_artifact_checksum e).

Record GenerationCatalogSnapshot := mkCatalog {
  cs_store_id : StoreId;
  cs_reference : option GenerationCatalogReference;
  cs_entries : list SealedGeneration }.
#[export] Instance GenerationCatalogSnapshot_eq_dec : EqDecision GenerationCatalogSnapshot.
Proof. solve_decision. Defined.

Record GenerationInventory := mkInventory {
  inv_active_generation : Z;
  inv_sealed_count : Z;
  inv_covered_sequence_floor : Z;
  inv_covered_sequence_cutoff : Z;
  inv_sealed_bytes : Z }.

(** [GenerationCodecError::{Invalid, StoreMismatch}]. *)
Inductive GenerationCodecError : Set := GenInvalid | GenStoreMismatch.

Record RotationIntent := mkIntent {
  ri_store_id : StoreId;
  ri_source_generation : Z;
  ri_successor_generation : Z;
  ri_sequence_cutoff : Z;
  ri_source_end_offset : Z;
  ri_registry_generation : Z;
  ri_catalog_generation : Z;
  ri_source_checkpoint_generation : Z }.
#[export] Instance RotationIntent_eq_dec : EqDecision RotationIntent.
Proof. solve_decision. Defined.
#[export] Instance wf_intent : Wf RotationIntent := λ i,
  wf (ri_store_id i) && is_u64 (ri_source_generation i) && is_u64 (ri_successor_generation i) &&
  is_u64 (ri_sequence_cutoff i) && is_u64 (ri_source_end_offset i) && is_u64 (ri_registry_generation i) &&
  is_u64 (ri_catalog_generation i) && is_u64 (ri_source_checkpoint_generation i).

(** ** Catalog operations *)

Definition catalog_empty (store_id : StoreId) : GenerationCatalogSnapshot := mkCatalog store_id None [].

(** The entry checks [advance] and [decode_catalog] share, against the entries
    already kept. *)
Definition refuses_entry (entries : list SealedGeneration) (entry : SealedGeneration) : bool :=
  is_some_and (λ prior, bool_decide (
    checked_add u64_max (sg_journal_generation prior) 1 ≠ Some (sg_journal_generation entry) ∨
    sg_sequence_cutoff prior ≠ sg_sequence_floor entry)) (last entries) ||
  bool_decide (
    (entries = [] ∧ (sg_journal_generation entry ≠ 1 ∨ sg_sequence_floor entry ≠ 0)) ∨
    sg_sequence_cutoff entry ≤ sg_sequence_floor entry ∨
    sg_end_offset entry ≤ JOURNAL_V1_HEADER_LEN ∨
    sg_artifact_length entry ≠ sg_end_offset entry ∨
    sg_artifact_length entry > MAX_ACTIVE_JOURNAL_BYTES ∨
    sg_registry_generation entry = 0).

Definition catalog_advance (c : GenerationCatalogSnapshot) (reference : GenerationCatalogReference)
    (entry : SealedGeneration) : result GenerationCodecError GenerationCatalogSnapshot :=
  let expected_generation := match cs_reference c with
                             | Some prior => checked_add u64_max (cat_generation prior) 1
                             | None => Some 1
                             end in
  if decide (len (cs_entries c) >= MAX_SEALED_GENERATIONS ∨ cat_slot reference >= 3 ∨
             cat_generation reference = 0 ∨ Some (cat_generation reference) ≠ expected_generation)
  then Err GenInvalid
  else if is_some_and (λ prior, bool_decide (cat_slot prior = cat_slot reference)) (cs_reference c)
  then Err GenInvalid
  else if refuses_entry (cs_entries c) entry then Err GenInvalid
  else Ok (mkCatalog (cs_store_id c) (Some reference) (cs_entries c ++ [entry])).

Definition with_reference (c : GenerationCatalogSnapshot) (reference : GenerationCatalogReference)
  : result GenerationCodecError GenerationCatalogSnapshot :=
  if match cs_reference c with
     | None => true
     | Some current => bool_decide (cat_slot current ≠ cat_slot reference ∨
                                    cat_generation current ≠ cat_generation reference)
     end
  then Err GenInvalid
  else if decide (cat_slot reference >= 3 ∨ cat_generation reference = 0 ∨ cat_length reference = 0)
  then Err GenInvalid
  else Ok (mkCatalog (cs_store_id c) (Some reference) (cs_entries c)).

Definition covers_commit (c : GenerationCatalogSnapshot) (journal_generation sequence end_offset : Z) : bool :=
  existsb (λ entry, bool_decide (
    sg_journal_generation entry = journal_generation ∧ sequence > sg_sequence_floor entry ∧
    sequence ≤ sg_sequence_cutoff entry ∧ end_offset > JOURNAL_V1_HEADER_LEN ∧
    end_offset ≤ sg_end_offset entry)) (cs_entries c).

Definition from_catalog (active_generation : Z) (c : GenerationCatalogSnapshot) : GenerationInventory :=
  mkInventory active_generation (len (cs_entries c))
    (match head (cs_entries c) with Some entry => sg_sequence_floor entry | None => 0 end)
    (match last (cs_entries c) with Some entry => sg_sequence_cutoff entry | None => 0 end)
    (foldl (λ total entry, saturating_add u64_max total (sg_artifact_length entry)) 0 (cs_entries c)).

(** ** The catalog file *)

(** One pass of the loop over [snapshot.entries.iter().enumerate()]. *)
Definition write_entry (offset : Z) (e : SealedGeneration) (bytes : list byte) : list byte :=
  let bytes := copy_at offset (be_bytes 8 (sg_journal_generation e)) bytes in
  let bytes := copy_at (offset + 8) (be_bytes 8 (sg_sequence_floor e)) bytes in
  let bytes := copy_at (offset + 16) (be_bytes 8 (sg_sequence_cutoff e)) bytes in
  let bytes := copy_at (offset + 24) (be_bytes 8 (sg_end_offset e)) bytes in
  let bytes := copy_at (offset + 32) (be_bytes 8 (sg_registry_generation e)) bytes in
  let bytes := copy_at (offset + 40) (be_bytes 8 (sg_artifact_length e)) bytes in
  let bytes := copy_at (offset + 48) (be_bytes 4 (sg_artifact_checksum e)) bytes in
  copy_at (offset + 52) (be_bytes 2 SEALED_FORMAT_RAW_JOURNAL_V1) bytes.
Fixpoint write_entries (index : Z) (entries : list SealedGeneration) (bytes : list byte) : list byte :=
  match entries with
  | [] => bytes
  | e :: entries =>
    write_entries (index + 1) entries (write_entry (CATALOG_HEADER_LEN + index * CATALOG_ENTRY_LEN) e bytes)
  end.

Definition encode_catalog (c : GenerationCatalogSnapshot) : result GenerationCodecError (list byte) :=
  let! reference := ok_or (cs_reference c) GenInvalid in
  if decide (cat_slot reference >= 3 ∨ cat_generation reference = 0 ∨ cs_entries c = [] ∨
             len (cs_entries c) > MAX_SEALED_GENERATIONS)
  then Err GenInvalid
  else
    let! payload_len := ok_or (checked_mul usize_max (len (cs_entries c)) CATALOG_ENTRY_LEN) GenInvalid in
    let! total := ok_or (match checked_add usize_max CATALOG_HEADER_LEN payload_len with
                         | Some length => checked_add usize_max length 4
                         | None => None
                         end) GenInvalid in
    if decide (total > MAX_GENERATION_CATALOG_BYTES) then Err GenInvalid
    else
      let bytes := zeros (Z.to_nat total) in
      let bytes := copy_at 0 CATALOG_MAGIC bytes in
      let bytes := copy_at 8 (be_bytes 2 CATALOG_VERSION) bytes in
      let bytes := copy_at 10 (be_bytes 2 64) bytes in
      let bytes := copy_at 12 (into_bytes (cs_store_id c)) bytes in
      let bytes := copy_at 28 (be_bytes 8 (cat_generation reference)) bytes in
      if decide (len (cs_entries c) > u32_max) then Err GenInvalid
      else
        let bytes := copy_at 36 (be_bytes 4 (len (cs_entries c))) bytes in
        let bytes := copy_at 40 (be_bytes 8 payload_len) bytes in
        let bytes := write_entries 0 (cs_entries c) bytes in
        let checksum_offset := len bytes - 4 in
        Ok (copy_at checksum_offset (be_bytes 4 (crc32c (slice 0 checksum_offset bytes))) bytes).

(** [u64::from_be_bytes(bytes[start..start + 8])] and likewise. *)
Definition u64_at (start : Z) (bytes : list byte) : Z := from_be (slice start (start + 8) bytes).
Definition u32_at (start : Z) (bytes : list byte) : Z := from_be (slice start (start + 4) bytes).
Definition u16_at (start : Z) (bytes : list byte) : Z := from_be (slice start (start + 2) bytes).

Definition read_entry (offset : Z) (bytes : list byte) : SealedGeneration :=
  mkSealed (u64_at offset bytes) (u64_at (offset + 8) bytes) (u64_at (offset + 16) bytes)
    (u64_at (offset + 24) bytes) (u64_at (offset + 32) bytes) (u64_at (offset + 40) bytes)
    (u32_at (offset + 48) bytes).
(** [for index in 0..count]. *)
Fixpoint decode_entries (count : nat) (index : Z) (bytes : list byte) (entries : list SealedGeneration)
  : result GenerationCodecError (list SealedGeneration) :=
  match count with
  | O => Ok entries
  | S count =>
    let offset := CATALOG_HEADER_LEN + index * CATALOG_ENTRY_LEN in
    if decide (¬ all_zero (slice (offset + 54) (offset + 64) bytes) ∨
               u16_at (offset + 52) bytes ≠ SEALED_FORMAT_RAW_JOURNAL_V1)
    then Err GenInvalid
    else
      let entry := read_entry offset bytes in
      if refuses_entry entries entry then Err GenInvalid
      else decode_entries count (index + 1) bytes (entries ++ [entry])
  end.

Definition decode_catalog (bytes : list byte) (slot : Z) (expected_store : StoreId)
  : result GenerationCodecError GenerationCatalogSnapshot :=
  if decide (slot >= 3 ∨ len bytes < CATALOG_HEADER_LEN + CATALOG_ENTRY_LEN + 4 ∨
             len bytes > MAX_GENERATION_CATALOG_BYTES ∨ slice 0 8 bytes ≠ CATALOG_MAGIC ∨
             u16_at 8 bytes ≠ CATALOG_VERSION ∨ u16_at 10 bytes ≠ CATALOG_HEADER_LEN ∨
             ¬ all_zero (slice 48 64 bytes))
  then Err GenInvalid
  else
    let checksum_offset := len bytes - 4 in
    if decide (crc32c (slice 0 checksum_offset bytes) ≠ from_be (slice checksum_offset (len bytes) bytes))
    then Err GenInvalid
    else
      let! store_id := map_err (λ _, GenInvalid) (from_bytes (slice 12 28 bytes)) in
      if decide (store_id ≠ expected_store) then Err GenStoreMismatch
      else
        let generation := u64_at 28 bytes in
        let count := u32_at 36 bytes in
        let payload_len := u64_at 40 bytes in
        if decide (generation = 0 ∨ count = 0 ∨ count > MAX_SEALED_GENERATIONS ∨
                   checked_mul usize_max count CATALOG_ENTRY_LEN ≠ Some payload_len ∨
                   checked_add usize_max CATALOG_HEADER_LEN payload_len ≠ Some checksum_offset)
        then Err GenInvalid
        else
          let! entries := decode_entries (Z.to_nat count) 0 bytes [] in
          if decide (generation ≠ count) then Err GenInvalid
          else
            let snapshot := mkCatalog store_id
              (Some (mkCatalogReference slot generation (len bytes) (crc32c bytes))) entries in
            let! encoded := encode_catalog snapshot in
            if decide (encoded ≠ bytes) then Err GenInvalid else Ok snapshot.

(** ** The rotation intent *)

Definition encode_rotation_intent (i : RotationIntent) : list byte :=
  let bytes := zeros (Z.to_nat ROTATION_INTENT_LEN) in
  let bytes := copy_at 0 ROTATION_INTENT_MAGIC bytes in
  let bytes := copy_at 8 (be_bytes 2 ROTATION_INTENT_VERSION) bytes in
  let bytes := copy_at 10 (be_bytes 2 96) bytes in
  let bytes := copy_at 12 (into_bytes (ri_store_id i)) bytes in
  let bytes := copy_at 28 (be_bytes 8 (ri_source_generation i)) bytes in
  let bytes := copy_at 36 (be_bytes 8 (ri_successor_generation i)) bytes in
  let bytes := copy_at 44 (be_bytes 8 (ri_sequence_cutoff i)) bytes in
  let bytes := copy_at 52 (be_bytes 8 (ri_source_end_offset i)) bytes in
  let bytes := copy_at 60 (be_bytes 8 (ri_registry_generation i)) bytes in
  let bytes := copy_at 68 (be_bytes 8 (ri_catalog_generation i)) bytes in
  let bytes := copy_at 76 (be_bytes 8 (ri_source_checkpoint_generation i)) bytes in
  copy_at 92 (be_bytes 4 (crc32c (slice 0 92 bytes))) bytes.

Definition decode_rotation_intent (bytes : list byte) (expected_store : StoreId)
  : result GenerationCodecError RotationIntent :=
  if decide (len bytes ≠ ROTATION_INTENT_LEN ∨ slice 0 8 bytes ≠ ROTATION_INTENT_MAGIC ∨
             u16_at 8 bytes ≠ ROTATION_INTENT_VERSION ∨ u16_at 10 bytes ≠ ROTATION_INTENT_LEN ∨
             ¬ all_zero (slice 84 92 bytes) ∨ crc32c (slice 0 92 bytes) ≠ from_be (slice 92 96 bytes))
  then Err GenInvalid
  else
    let! store_id := map_err (λ _, GenInvalid) (from_bytes (slice 12 28 bytes)) in
    if decide (store_id ≠ expected_store) then Err GenStoreMismatch
    else
      let intent := mkIntent store_id (u64_at 28 bytes) (u64_at 36 bytes) (u64_at 44 bytes) (u64_at 52 bytes)
        (u64_at 60 bytes) (u64_at 68 bytes) (u64_at 76 bytes) in
      if decide (ri_source_generation intent = 0 ∨
                 checked_add u64_max (ri_source_generation intent) 1 ≠ Some (ri_successor_generation intent) ∨
                 ri_sequence_cutoff intent = 0 ∨ ri_source_end_offset intent ≤ JOURNAL_V1_HEADER_LEN ∨
                 ri_registry_generation intent = 0 ∨ ri_catalog_generation intent = 0 ∨
                 ri_source_checkpoint_generation intent = 0)
      then Err GenInvalid
      else Ok intent.

(** ** Generation file names *)

(** [format!("{generation:020}")]. *)
Definition pad_020 (generation : Z) : rstring :=
  let digits := display_u128 generation in replicate (20 - length digits) x30 ++ digits.
Definition sealed_journal_file_name (generation : Z) : rstring :=
  list_byte_of_string "sealed-journal-v1-g" ++ pad_020 generation ++ list_byte_of_string ".och".

(** [str::strip_prefix] and [str::strip_suffix]. *)
Fixpoint strip_prefix (prefix s : rstring) : option rstring :=
  match prefix, s with
  | [], _ => Some s
  | p :: prefix, c :: s => if decide (p = c) then strip_prefix prefix s else None
  | _ :: _, [] => None
  end.
Definition strip_suffix (suffix s : rstring) : option rstring :=
  match strip_prefix (reverse suffix) (reverse s) with Some r => Some (reverse r) | None => None end.

(** [str::parse::<u64>] of a non-empty string of ASCII digits. *)
Fixpoint u64_digits (value : Z) (digits : rstring) : option Z :=
  match digits with
  | [] => Some value
  | d :: digits =>
    match checked_mul u64_max value 10 with
    | Some scaled =>
      match checked_add u64_max scaled (Z_of_byte d - 48) with
      | Some value => u64_digits value digits
      | None => None
      end
    | None => None
    end
  end.

Definition parse_generation_name (name prefix suffix : rstring) (minimum : Z) : option Z :=
  match strip_prefix prefix name with
  | Some rest =>
    match strip_suffix suffix rest with
    | Some digits =>
      if decide (len digits ≠ 20 ∨ ¬ forallb is_ascii_digit digits) then None
      else
        match u64_digits 0 digits with
        | Some generation =>
          if decide (generation >= minimum ∧ pad_020 generation = digits) then Some generation else None
        | None => None
        end
    | None => None
    end
  | None => None
  end.
Definition parse_active_journal_generation_name (name : rstring) : option Z :=
  parse_generation_name name (list_byte_of_string "active-journal-v1-g") (list_byte_of_string ".och") 2.
Definition parse_active_checkpoint_generation_name (name : rstring) : option Z :=
  parse_generation_name name (list_byte_of_string "active-journal-v1-g") (list_byte_of_string ".checkpoint") 2.
Definition parse_sealed_generation_name (name : rstring) : option Z :=
  parse_generation_name name (list_byte_of_string "sealed-journal-v1-g") (list_byte_of_string ".och") 1.

(** ** Streaming CRC-32C *)

Record StreamingCrc32c := mkStreaming { stream_state : Z }.
Definition stream_new : StreamingCrc32c := mkStreaming u32_max.
Definition stream_update (s : StreamingCrc32c) (bytes : list byte) : StreamingCrc32c :=
  mkStreaming (foldl crc_byte (stream_state s) bytes).
Definition stream_finish (s : StreamingCrc32c) : Z := Z.lxor (stream_state s) u32_max.

(** ** The catalog invariant *)

Definition entry_ok (e : SealedGeneration) : Prop :=
  sg_sequence_floor e < sg_sequence_cutoff e ∧ JOURNAL_V1_HEADER_LEN < sg_end_offset e ∧
  sg_artifact_length e = sg_end_offset e ∧ sg_artifact_length e ≤ MAX_ACTIVE_JOURNAL_BYTES ∧
  sg_registry_generation e ≠ 0.

(** Consecutive generations from [g] whose sequence ranges meet, from [floor]. *)
Fixpoint sealed_chain (g floor : Z) (es : list SealedGeneration) : Prop :=
  match es with
  | [] => True
  | e :: es =>
    sg_journal_generation e = g ∧ sg_sequence_floor e = floor ∧ entry_ok e ∧
    sealed_chain (g + 1) (sg_sequence_cutoff e) es
  end.
Definition chain_cutoff (floor : Z) (es : list SealedGeneration) : Z :=
  match last es with Some e => sg_sequence_cutoff e | None => floor end.

Record catalog_ok (c : GenerationCatalogSnapshot) : Prop := {
  co_store : wf (cs_store_id c);
  co_entries : wf (cs_entries c);
  co_bound : len (cs_entries c) ≤ MAX_SEALED_GENERATIONS;
  co_chain : sealed_chain 1 0 (cs_entries c);
  co_reference : match cs_reference c with
                 | None => cs_entries c = []
                 | Some r => cat_slot r < 3 ∧ cat_generation r = len (cs_entries c) ∧ cs_entries c ≠ []
                 end }.

Inductive catalog_step (c : GenerationCatalogSnapshot) : GenerationCatalogSnapshot → Prop :=
| step_advance r e c' : wf e → catalog_advance c r e = Ok c' → catalog_step c c'
| step_reference r c' : with_reference c r = Ok c' → catalog_step c c'.
Inductive catalog_reachable : GenerationCatalogSnapshot → Prop :=
| catalog_initial s : wf s → catalog_reachable (catalog_empty s)
| catalog_next c c' : catalog_reachable c → catalog_step c c' → catalog_reachable c'.

Lemma chain_cutoff_cons floor e es : chain_cutoff floor (e :: es) = chain_cutoff (sg_sequence_cutoff e) es.
Proof. unfold chain_cutoff. rewrite last_cons. by destruct (last es). Qed.

Lemma sealed_chain_snoc g floor es e :
  sealed_chain g floor (es ++ [e]) ↔
  sealed_chain g floor es ∧ sg_journal_generation e = g + len es ∧
  sg_sequence_floor e = chain_cutoff floor es ∧ entry_ok e.
Proof.
  revert g floor. induction es as [|a es IH]; intros g floor; cbn [sealed_chain app].
  - rewrite len_nil, Z.add_0_r. unfold chain_cutoff. cbn. tauto.
  - rewrite IH, chain_cutoff_cons, len_cons. rewrite (Z.add_assoc g). tauto.
Qed.

Lemma sealed_chain_last g floor es e :
  sealed_chain g floor es → last es = Some e →
  sg_journal_generation e = g + len es - 1 ∧ sg_sequence_cutoff e = chain_cutoff floor es.
Proof.
  intros Hc He. unfold chain_cutoff. rewrite He. apply last_Some in He as [es' ->].
  apply sealed_chain_snoc in Hc as (_ & -> & _). split; [rewrite len_app, len_cons, len_nil; lia|done].
Qed.

(** The shared entry check extends the chain by one. *)
Lemma refuses_entry_spec es e :
  sealed_chain 1 0 es → len es ≤ MAX_SEALED_GENERATIONS →
  refuses_entry es e = false ↔
  sg_journal_generation e = 1 + len es ∧ sg_sequence_floor e = chain_cutoff 0 es ∧ entry_ok e.
Proof.
  intros Hc Hb. unfold refuses_entry, entry_ok. rewrite orb_false_iff, bool_decide_eq_false.
  destruct (last es) as [p|] eqn:El.
  - pose proof (sealed_chain_last _ _ _ _ Hc El) as [Hg Hs].
    assert (es ≠ []) as Hne by (by intros ->). cbn [is_some_and]. rewrite bool_decide_eq_false, Hs, Hg.
    unfold MAX_SEALED_GENERATIONS in Hb. rewrite checked_add_ok by (unfold u64_max; lia).
    replace (1 + len es - 1 + 1) with (1 + len es) by lia.
    split.
    + intros [H1 H2]. assert (sg_journal_generation e = 1 + len es) by (apply dec_stable; intros ?; apply H1; left; congruence).
      split_and!; try lia; apply dec_stable; tauto.
    + intros (-> & -> & ? & ? & ? & ? & ?). split; [intros [?|?]; congruence|]. intros [[? _]|?]; [done|]. lia.
  - apply last_None in El as ->. change (len (@nil SealedGeneration)) with 0. unfold chain_cutoff. cbn. split.
    + intros [_ H]. split_and!; try lia; apply dec_stable; tauto.
    + intros (? & ? & ? & ? & ? & ? & ?). split; [done|]. intros [[_ ?]|?]; lia.
Qed.

(** What [advance] accepts of a well-formed catalog. *)
Definition can_seal (c : GenerationCatalogSnapshot) (r : GenerationCatalogReference) (e : SealedGeneration) : Prop :=
  len (cs_entries c) < MAX_SEALED_GENERATIONS ∧ cat_slot r < 3 ∧
  (∀ prior, cs_reference c = Some prior → cat_slot prior ≠ cat_slot r) ∧
  cat_generation r = 1 + len (cs_entries c) ∧ sg_journal_generation e = 1 + len (cs_entries c) ∧
  sg_sequence_floor e = chain_cutoff 0 (cs_entries c) ∧ entry_ok e.

Lemma catalog_advance_Ok c r e c' :
  catalog_ok c →
  catalog_advance c r e = Ok c' ↔
  can_seal c r e ∧ c' = mkCatalog (cs_store_id c) (Some r) (cs_entries c ++ [e]).
Proof.
  intros [_ _ Hb Hc Hr]. unfold catalog_advance, can_seal. unfold MAX_SEALED_GENERATIONS in *.
  pose proof (len_nonneg (cs_entries c)).
  assert (match cs_reference c with Some p => checked_add u64_max (cat_generation p) 1 | None => Some 1 end
    = Some (1 + len (cs_entries c))) as ->.
  { destruct (cs_reference c) as [p|]; [destruct Hr as (_ & -> & _)|rewrite Hr; done].
    rewrite checked_add_ok by (unfold u64_max; lia). f_equal. lia. }
  rewrite guard_Ok. destruct (is_some_and _ (cs_reference c)) eqn:Hs.
  { split; [by intros [_ ?]|]. intros [(_ & _ & Hd & _) _]. destruct (cs_reference c) as [p|]; [|done].
    cbn in Hs. apply bool_decide_eq_true in Hs. by destruct (Hd p). }
  rewrite is_some_and_false in Hs. pose proof (refuses_entry_spec _ e Hc Hb) as Hre.
  destruct (refuses_entry _ e).
  { split; [by intros [_ ?]|]. intros [(_ & _ & _ & _ & ? & ? & ?) _]. assert (true = false) by (by apply Hre). done. }
  destruct Hre as [Hre _]. specialize (Hre eq_refl). split.
  - intros [Hn [= <-]]. split; [|done]. split_and!; try apply Hre; try lia.
    + intros p Hp. specialize (Hs p Hp). by apply bool_decide_eq_false in Hs.
    + assert (Some (cat_generation r) = Some (1 + len (cs_entries c))) as [=] by (apply dec_stable; tauto). done.
  - intros [(? & ? & _ & Hg & _) ->]. split; [|done]. rewrite Hg. intros [?|[?|[?|?]]]; try lia. congruence.
Qed.

Lemma catalog_step_ok c c' : catalog_step c c' → catalog_ok c → catalog_ok c'.
Proof.
  intros Hst Hok. destruct Hst as [r e c' He Ha|r c' Hr].
  - apply (catalog_advance_Ok _ _ _ _ Hok) in Ha as [(Hl & Hs & _ & Hg & Hj & Hf & Hent) ->].
    destruct Hok as [Hst Hw Hb Hc Hr]. assert (len (cs_entries c ++ [e]) = 1 + len (cs_entries c)) as El by (rewrite len_app, len_cons, len_nil; lia).
    split; cbn [cs_store_id cs_entries cs_reference]; rewrite ?El.
    + done.
    + rewrite wf_list_Forall in *. apply Forall_app. split; [done|]. by constructor.
    + lia.
    + by apply sealed_chain_snoc.
    + split_and!; [done|lia|]. by destruct (cs_entries c).
  - unfold with_reference in Hr. destruct Hok as [Hst Hw Hb Hc Hr'].
    destruct (cs_reference c) as [p|] eqn:Ep; [|done].
    case_bool_decide as Hne; [done|]. case_decide as Hs; [done|]. injection Hr as <-.
    split; cbn [cs_store_id cs_entries cs_reference]; try done. split_and!; [lia| |apply Hr'].
    destruct Hr' as (_ & Hg & _). rewrite <-Hg. symmetry. apply dec_stable. tauto.
Qed.

Lemma catalog_reachable_ok c : catalog_reachable c → catalog_ok c.
Proof.
  induction 1 as [s Hs|c c' _ IH Hst]; [|by eapply catalog_step_ok]. by split.
Qed.

(** ** Coverage of the sealed range *)

Definition sealed_total (es : list SealedGeneration) : Z := foldr (λ e t, sg_artifact_length e + t) 0 es.
Definition covers (e : SealedGeneration) (s : Z) : Prop := sg_sequence_floor e < s ≤ sg_sequence_cutoff e.

Lemma sealed_chain_range g floor es :
  sealed_chain g floor es →
  floor ≤ chain_cutoff floor es ∧
  Forall (λ e, floor ≤ sg_sequence_floor e ∧ sg_sequence_cutoff e ≤ chain_cutoff floor es) es.
Proof.
  revert g floor. induction es as [|e es IH]; intros g floor; [split; [done|constructor]|].
  intros (_ & <- & (Hlt & _) & Hc). apply IH in Hc as [Hle Hf]. rewrite chain_cutoff_cons. split; [lia|].
  constructor; [lia|]. eapply Forall_impl; [exact Hf|]. cbn. lia.
Qed.

(** Every sequence of the sealed range lies in exactly one generation. *)
Lemma sealed_chain_covers g floor es s :
  sealed_chain g floor es → floor < s ≤ chain_cutoff floor es ↔ ∃ e, e ∈ es ∧ covers e s.
Proof.
  intros Hc. split.
  - revert g floor Hc. induction es as [|e es IH]; intros g floor; [cbn; unfold chain_cutoff; cbn; lia|].
    intros (_ & <- & _ & Hc) Hs. rewrite chain_cutoff_cons in Hs.
    destruct (decide (s ≤ sg_sequence_cutoff e)).
    + exists e. unfold covers. split; [by left|lia].
    + destruct (IH _ _ Hc) as (e' & ? & ?); [lia|]. exists e'. by split; [right|].
  - intros (e & He & Hs). apply sealed_chain_range in Hc as [_ Hf].
    rewrite Forall_forall in Hf. apply Hf in He. unfold covers in Hs. lia.
Qed.

Lemma sealed_chain_unique g floor es e e' s :
  sealed_chain g floor es → e ∈ es → e' ∈ es → covers e s → covers e' s → e = e'.
Proof.
  unfold covers. revert g floor. induction es as [|a es IH]; intros g floor; [by intros _ ?%elem_of_nil|].
  intros (_ & _ & _ & Hc) He He' Hs Hs'. pose proof (sealed_chain_range _ _ _ Hc) as [_ Hf].
  rewrite Forall_forall in Hf.
  apply elem_of_cons in He as [->|He]; apply elem_of_cons in He' as [->|He']; [done| | |by eapply IH].
  - apply Hf in He'. lia.
  - apply Hf in He. lia.
Qed.

Lemma covers_commit_spec c g s off :
  covers_commit c g s off ↔
  ∃ e, e ∈ cs_entries c ∧ sg_journal_generation e = g ∧ covers e s ∧
    JOURNAL_V1_HEADER_LEN < off ≤ sg_end_offset e.
Proof.
  unfold covers_commit, covers. rewrite Is_true_true, existsb_exists. setoid_rewrite <-list_elem_of_In. split.
  - intros (e & He & Hb%bool_decide_eq_true). exists e. split_and!; try done; lia.
  - intros (e & He & ? & ? & ?). exists e. split; [done|]. apply bool_decide_eq_true. lia.
Qed.

Lemma sealed_chain_entry_ok g floor es e : sealed_chain g floor es → e ∈ es → entry_ok e.
Proof.
  revert g floor. induction es as [|a es IH]; intros g floor; [by intros _ ?%elem_of_nil|].
  intros (_ & _ & Ha & Hc) [->|He]%elem_of_cons; [done|]. by eapply IH.
Qed.

Lemma sealed_total_bound g floor es :
  sealed_chain g floor es → 0 ≤ sealed_total es ≤ len es * MAX_ACTIVE_JOURNAL_BYTES.
Proof.
  revert g floor. induction es as [|e es IH]; intros g floor Hc; [done|].
  destruct Hc as (_ & _ & (_ & He & Hl & Hm & _) & Hc). apply IH in Hc.
  cbn [sealed_total foldr]. fold (sealed_total es). rewrite len_cons. unfold JOURNAL_V1_HEADER_LEN in He. lia.
Qed.

Lemma saturating_fold es t m :
  Forall (λ e, 0 ≤ sg_artifact_length e) es → 0 ≤ t → t + sealed_total es ≤ m →
  foldl (λ total entry, saturating_add m total (sg_artifact_length entry)) t es = t + sealed_total es.
Proof.
  revert t. induction es as [|e es IH]; intros t Hf Ht Hm; [cbn; lia|].
  apply Forall_cons in Hf as [He Hf]. cbn [foldl sealed_total foldr] in *. fold (sealed_total es) in *.
  assert (0 ≤ sealed_total es).
  { clear -Hf. induction es as [|a es IH]; [done|]. apply Forall_cons in Hf as [Ha Hf]. apply IH in Hf.
    cbn [sealed_total foldr]. fold (sealed_total es). lia. }
  unfold saturating_add at 2. rewrite Z.min_l by lia. rewrite IH by (done || lia). lia.
Qed.

(** ** Lemmas: the catalog layout *)

Definition entry_fields (e : SealedGeneration) : list (list byte) :=
  [be_bytes 8 (sg_journal_generation e); be_bytes 8 (sg_sequence_floor e); be_bytes 8 (sg_sequence_cutoff e);
   be_bytes 8 (sg_end_offset e); be_bytes 8 (sg_registry_generation e); be_bytes 8 (sg_artifact_length e);
   be_bytes 4 (sg_artifact_checksum e); be_bytes 2 SEALED_FORMAT_RAW_JOURNAL_V1; zeros 10].
Definition entry_wire (e : SealedGeneration) : list byte := concat (entry_fields e).

Lemma len_entry_wire e : len (entry_wire e) = 64.
Proof. unfold entry_wire, entry_fields. cbn [concat]. len_solve. Qed.

Lemma write_entry_layout off e pre m :
  len pre = off → 0 ≤ m →
  write_entry off e (pre ++ zeros (Z.to_nat (64 + m))) = (pre ++ entry_wire e) ++ zeros (Z.to_nat m).
Proof.
  intros Hp Hm. unfold write_entry. cbv zeta. do 8 fill.
  replace (64 + m - Z.of_nat 8 - Z.of_nat 8 - Z.of_nat 8 - Z.of_nat 8 - Z.of_nat 8 - Z.of_nat 8 - Z.of_nat 4 -
    Z.of_nat 2) with (10 + m) by lia.
  rewrite zeros_split by lia. unfold entry_wire, entry_fields. cbn [concat]. by rewrite app_nil_r, <-!app_assoc.
Qed.

Lemma write_entries_layout index es pre m :
  len pre = 64 + index * 64 → 0 ≤ m →
  write_entries index es (pre ++ zeros (Z.to_nat (len es * 64 + m))) =
    (pre ++ concat (entry_wire <$> es)) ++ zeros (Z.to_nat m).
Proof.
  revert index pre. induction es as [|e es IH]; intros index pre Hp Hm.
  - cbn. by rewrite app_nil_r.
  - cbn [write_entries]. rewrite len_cons. pose proof (len_nonneg es).
    replace ((1 + len es) * 64 + m) with (64 + (len es * 64 + m)) by lia.
    rewrite write_entry_layout by (unfold CATALOG_HEADER_LEN, CATALOG_ENTRY_LEN; lia).
    rewrite IH; [|rewrite len_app, len_entry_wire; lia|done].
    rewrite fmap_cons. cbn [concat]. by rewrite <-!app_assoc.
Qed.

Definition catalog_header_fields (store : StoreId) (generation count : Z) : list (list byte) :=
  [CATALOG_MAGIC; be_bytes 2 CATALOG_VERSION; be_bytes 2 64; into_bytes store; be_bytes 8 generation;
   be_bytes 4 count; be_bytes 8 (count * 64); zeros 16].
Definition catalog_wire (store : StoreId) (generation : Z) (es : list SealedGeneration) : list byte :=
  let covered := concat (catalog_header_fields store generation (len es)) ++ concat (entry_wire <$> es) in
  covered ++ be_bytes 4 (crc32c covered).

Lemma len_into_bytes {F} (i : Identity F) : wf i → len (into_bytes i) = 16.
Proof. intros H%wf_identity_length. unfold len. lia. Qed.

Lemma len_catalog_header store g n :
  wf store → len (concat (catalog_header_fields store g n)) = 64.
Proof.
  intros Hs%len_into_bytes. unfold catalog_header_fields. cbn [concat].
  change (len (A := byte)) with (@len byte). autorewrite with len. rewrite Hs.
  change (len CATALOG_MAGIC) with 8. lia.
Qed.

Lemma len_entries es : len (concat (entry_wire <$> es)) = 64 * len es.
Proof.
  induction es as [|e es IH]; [done|]. rewrite fmap_cons. cbn [concat].
  rewrite len_app, IH, len_entry_wire, len_cons. lia.
Qed.

Lemma len_catalog_magic : len CATALOG_MAGIC = 8.
Proof. done. Qed.
#[local] Hint Rewrite len_catalog_magic : len.

(** The header and the entries are written into a zeroed buffer in order. *)
Lemma catalog_body_layout store g es :
  wf store →
  let n := len es in
  let bytes := copy_at 0 CATALOG_MAGIC (zeros (Z.to_nat (64 + n * 64 + 4))) in
  let bytes := copy_at 8 (be_bytes 2 CATALOG_VERSION) bytes in
  let bytes := copy_at 10 (be_bytes 2 64) bytes in
  let bytes := copy_at 12 (into_bytes store) bytes in
  let bytes := copy_at 28 (be_bytes 8 g) bytes in
  let bytes := copy_at 36 (be_bytes 4 n) bytes in
  let bytes := copy_at 40 (be_bytes 8 (n * 64)) bytes in
  write_entries 0 es bytes =
    (concat (catalog_header_fields store g n) ++ concat (entry_wire <$> es)) ++ zeros (Z.to_nat 4).
Proof.
  intros Hs n. cbv zeta. pose proof (len_nonneg es). fold n in H. apply len_into_bytes in Hs.
  rewrite <-(app_nil_l (zeros (Z.to_nat (64 + n * 64 + 4)))).
  rewrite copy_at_next by (rewrite ?len_catalog_magic; done || lia). rewrite app_nil_l, len_catalog_magic.
  do 2 fill. rewrite copy_at_next by (autorewrite with len; lia). rewrite Hs.
  do 3 (rewrite copy_at_next by (autorewrite with len; lia); rewrite len_be_bytes).
  replace (64 + n * 64 + 4 - 8 - Z.of_nat 2 - Z.of_nat 2 - 16 - Z.of_nat 8 - Z.of_nat 4 - Z.of_nat 8)
    with (16 + (n * 64 + 4)) by lia.
  rewrite zeros_split, app_assoc by lia.
  rewrite write_entries_layout by (autorewrite with len; lia).
  f_equal. f_equal. unfold catalog_header_fields. cbn [concat]. by rewrite app_nil_r, <-!app_assoc.
Qed.

(** The encoder writes exactly the layout. *)
Lemma encode_catalog_Ok c bytes :
  wf (cs_store_id c) →
  encode_catalog c = Ok bytes ↔
  ∃ r, cs_reference c = Some r ∧ cat_slot r < 3 ∧ cat_generation r ≠ 0 ∧ cs_entries c ≠ [] ∧
    len (cs_entries c) ≤ MAX_SEALED_GENERATIONS ∧
    bytes = catalog_wire (cs_store_id c) (cat_generation r) (cs_entries c).
Proof.
  intros Hs. unfold encode_catalog. rewrite ok_or_Ok.
  unfold MAX_SEALED_GENERATIONS, CATALOG_ENTRY_LEN, CATALOG_HEADER_LEN.
  pose proof (len_nonneg (cs_entries c)) as Hn.
  f_equiv. intros r. f_equiv. rewrite guard_Ok.
  destruct (decide (len (cs_entries c) ≤ 64)) as [Hle|Hgt]; [|naive_solver lia].
  rewrite checked_mul_ok by (unfold usize_max, u64_max; lia). cbn [ok_or].
  do 2 rewrite checked_add_ok by (unfold usize_max, u64_max; lia). cbn [ok_or].
  assert (MAX_GENERATION_CATALOG_BYTES = 4164) as -> by done.
  rewrite guard_Ok. cbv zeta. rewrite guard_Ok, catalog_body_layout by done.
  rewrite len_app, len_zeros. change (Z.of_nat (Z.to_nat 4)) with 4.
  set (covered := concat (catalog_header_fields _ _ _) ++ _).
  replace (len covered + 4 - 4) with (len covered) by lia. rewrite slice_app_0 by done.
  rewrite copy_at_next by (rewrite ?len_be_bytes; lia). rewrite len_be_bytes, app_nil_r.
  unfold catalog_wire. fold covered. unfold u32_max. split.
  - intros (Hg & _ & _ & [= <-]). split_and!; try done; lia || tauto.
  - intros (? & ? & ? & _ & ->). split_and!; try done; try lia. naive_solver lia.
Qed.

(** ** Lemmas: reading the catalog back *)

Ltac wf_fields H := wf_split H; rewrite ?in_range_spec in *.

Lemma read_entry_layout off e pre post :
  len pre = off → wf e →
  let bytes := pre ++ entry_wire e ++ post in
  read_entry off bytes = e ∧ all_zero (slice (off + 54) (off + 64) bytes) ∧
  u16_at (off + 52) bytes = SEALED_FORMAT_RAW_JOURNAL_V1.
Proof.
  intros Hp He bytes. unfold bytes, entry_wire. wf_fields He. unfold u64_max, u32_max in *.
  assert (∀ k f a n, entry_fields e !! k = Some f → a = fields_len (take k (entry_fields e)) → n = len f →
    slice (off + a) (off + a + n) (pre ++ concat (entry_fields e) ++ post) = f) as Hf
    by (intros; by apply (slice_field_at _ k)).
  unfold read_entry, u64_at, u32_at, u16_at. split_and!.
  - rewrite <-(Z.add_0_r off) at 1 2.
    rewrite (Hf 0%nat (be_bytes 8 (sg_journal_generation e))), (Hf 1%nat (be_bytes 8 (sg_sequence_floor e))),
      (Hf 2%nat (be_bytes 8 (sg_sequence_cutoff e))), (Hf 3%nat (be_bytes 8 (sg_end_offset e))),
      (Hf 4%nat (be_bytes 8 (sg_registry_generation e))), (Hf 5%nat (be_bytes 8 (sg_artifact_length e))),
      (Hf 6%nat (be_bytes 4 (sg_artifact_checksum e)))
      by (done || unfold entry_fields, fields_len; cbn [take concat]; autorewrite with len; lia).
    rewrite !from_be_bytes_small by lia. by destruct e.
  - replace (off + 64) with (off + 54 + 10) by lia.
    rewrite (Hf 8%nat (zeros 10))
      by (done || unfold entry_fields, fields_len; cbn [take concat]; autorewrite with len; lia).
    apply all_zero_zeros.
  - rewrite (Hf 7%nat (be_bytes 2 SEALED_FORMAT_RAW_JOURNAL_V1))
      by (done || unfold entry_fields, fields_len; cbn [take concat]; autorewrite with len; lia). done.
Qed.

Lemma decode_entries_layout es acc index pre post :
  index = len acc → len pre = 64 + len acc * 64 → wf es →
  sealed_chain 1 0 (acc ++ es) → len (acc ++ es) ≤ MAX_SEALED_GENERATIONS →
  decode_entries (length es) index (pre ++ concat (entry_wire <$> es) ++ post) acc = Ok (acc ++ es).
Proof.
  revert acc index pre. induction es as [|e es IH]; intros acc index pre Hi Hp Hw Hc Hb.
  - by rewrite app_nil_r.
  - apply wf_cons in Hw as [He Hw]. cbn [decode_entries length].
    rewrite fmap_cons. cbn [concat]. rewrite <-app_assoc.
    destruct (read_entry_layout (CATALOG_HEADER_LEN + index * CATALOG_ENTRY_LEN) e pre
      (concat (entry_wire <$> es) ++ post)) as (-> & Hz & Hf);
      [unfold CATALOG_HEADER_LEN, CATALOG_ENTRY_LEN; lia|done|].
    rewrite decide_False by tauto.
    rewrite len_app, len_cons in Hb. pose proof (len_nonneg es).
    replace (acc ++ e :: es) with ((acc ++ [e]) ++ es) in Hc |- * by (by rewrite <-app_assoc).
    assert (sealed_chain 1 0 (acc ++ [e])) as Hce by (clear -Hc; revert Hc; generalize 1, 0;
      induction (acc ++ [e]) as [|a l IHl]; intros g f; cbn [sealed_chain app]; [done|naive_solver]).
    apply sealed_chain_snoc in Hce as (Hca & Hg & Hfl & Hok).
    assert (refuses_entry acc e = false) as -> by (apply refuses_entry_spec; try done; lia).
    rewrite app_assoc. apply IH; try done.
    + rewrite len_app, len_cons, len_nil. lia.
    + rewrite !len_app, len_entry_wire, len_cons, len_nil. lia.
    + rewrite !len_app, len_cons, len_nil. lia.
Qed.

Lemma read_entry_wf off bytes : 0 ≤ off → off + 64 ≤ len bytes → wf (read_entry off bytes).
Proof.
  intros Ho Hl. unfold read_entry, u64_at, u32_at.
  assert (∀ a n, 0 ≤ a → 0 ≤ n → a + n ≤ len bytes → 0 ≤ from_be (slice a (a + n) bytes) < 256 ^ n) as Hr.
  { intros a n Ha Hn Han. pose proof (from_be_range (slice a (a + n) bytes)) as Hr.
    rewrite len_slice in Hr by lia. by replace (a + n - a) with n in Hr by lia. }
  wf_intro; cbn; apply in_range_spec; unfold u64_max, u32_max.
  all: match goal with |- context [from_be (slice ?a (?a + ?n) _)] => pose proof (Hr a n) end; lia.
Qed.

Lemma decode_entries_Ok count index bytes acc es :
  index = len acc → 64 + (len acc + Z.of_nat count) * 64 ≤ len bytes →
  len acc + Z.of_nat count ≤ MAX_SEALED_GENERATIONS → wf acc → sealed_chain 1 0 acc →
  decode_entries count index bytes acc = Ok es →
  len es = len acc + Z.of_nat count ∧ wf es ∧ sealed_chain 1 0 es.
Proof.
  revert index acc. induction count as [|count IH]; intros index acc Hi Hl Hb Hw Hc; cbn [decode_entries].
  - intros [= <-]. split_and!; [lia|done..].
  - set (off := CATALOG_HEADER_LEN + index * CATALOG_ENTRY_LEN). case_decide; [done|].
    destruct (refuses_entry acc _) eqn:Hr; [done|].
    apply refuses_entry_spec in Hr; [|done|lia]. pose proof (len_nonneg acc).
    assert (len (acc ++ [read_entry off bytes]) = len acc + 1) as Hla by (rewrite len_app, len_cons, len_nil; lia).
    intros Hd. apply IH in Hd as (? & ? & ?); rewrite ?Hla; try lia; [by split_and!; [lia| |]| |].
    + rewrite wf_list_Forall in *. apply Forall_app. split; [done|]. constructor; [|done].
      apply read_entry_wf; unfold off, CATALOG_HEADER_LEN, CATALOG_ENTRY_LEN; lia.
    + apply sealed_chain_snoc. by split.
Qed.

(** The slices of the catalog header that [decode_catalog] reads. *)
Lemma catalog_header_slices store g n post :
  wf store →
  let bytes := concat (catalog_header_fields store g n) ++ post in
  slice 0 8 bytes = CATALOG_MAGIC ∧ slice 8 (8 + 2) bytes = be_bytes 2 CATALOG_VERSION ∧
  slice 10 (10 + 2) bytes = be_bytes 2 64 ∧ slice 12 28 bytes = into_bytes store ∧
  slice 28 (28 + 8) bytes = be_bytes 8 g ∧ slice 36 (36 + 4) bytes = be_bytes 4 n ∧
  slice 40 (40 + 8) bytes = be_bytes 8 (n * 64) ∧ slice 48 64 bytes = zeros 16.
Proof.
  intros Hs%len_into_bytes bytes.
  assert (∀ k f a b, catalog_header_fields store g n !! k = Some f →
    a = fields_len (take k (catalog_header_fields store g n)) → b = a + len f → slice a b bytes = f) as Hf.
  { intros k f a b Hk Ha ->. unfold bytes. rewrite <-(app_nil_l (concat _ ++ post)), <-(Z.add_0_l a).
    by apply (slice_field_at _ k). }
  unfold catalog_header_fields, fields_len in Hf.
  split_and!; [apply (Hf 0%nat)|apply (Hf 1%nat)|apply (Hf 2%nat)|apply (Hf 3%nat)|apply (Hf 4%nat)
    |apply (Hf 5%nat)|apply (Hf 6%nat)|apply (Hf 7%nat)]; try done;
    cbn [take concat]; autorewrite with len; rewrite ?Hs; done.
Qed.

Lemma map_err_Ok {E F A B} (f : E → F) (r : result E A) (k : A → result F B) x :
  (let! y := map_err f r in k y) = Ok x ↔ ∃ y, r = Ok y ∧ k y = Ok x.
Proof. destruct r; naive_solver. Qed.

Lemma let_Ok {E A B} (r : result E A) (k : A → result E B) x :
  (let! y := r in k y) = Ok x ↔ ∃ y, r = Ok y ∧ k y = Ok x.
Proof. destruct r; naive_solver. Qed.

(** What decoding a catalog file amounts to. *)
Definition decoded_catalog (bytes : list byte) (slot : Z) (store : StoreId) (c : GenerationCatalogSnapshot) : Prop :=
  catalog_ok c ∧ cs_store_id c = store ∧
  cs_reference c = Some (mkCatalogReference slot (len (cs_entries c)) (len bytes) (crc32c bytes)) ∧
  encode_catalog c = Ok bytes.

Lemma decode_catalog_sound bytes slot store c :
  decode_catalog bytes slot store = Ok c → decoded_catalog bytes slot store c.
Proof.
  unfold decode_catalog. cbv zeta. rewrite !guard_Ok, map_err_Ok. intros (Hpre & Hcrc & sid & Hid & Hr).
  rewrite !guard_Ok, let_Ok in Hr. destruct Hr as (Hst & Hcnt & es & Hes & Hr).
  rewrite guard_Ok, let_Ok in Hr. destruct Hr as (Hgen & enc & Henc & Hr).
  rewrite guard_Ok in Hr. destruct Hr as [Hb [= <-]].
  assert (sid = store) as -> by not_refused. assert (enc = bytes) as -> by not_refused.
  set (count := u32_at 36 bytes) in *. assert (u64_at 28 bytes = count) as Hg by not_refused.
  assert (0 ≤ count) as Hc0 by apply from_be_range.
  assert (count ≤ MAX_SEALED_GENERATIONS ∧ count ≠ 0) as [Hmax Hne] by lia.
  assert (checked_mul usize_max count CATALOG_ENTRY_LEN = Some (u64_at 40 bytes)) as Hpl by not_refused.
  assert (checked_add usize_max CATALOG_HEADER_LEN (u64_at 40 bytes) = Some (len bytes - 4)) as Hlen by not_refused.
  unfold MAX_SEALED_GENERATIONS, CATALOG_ENTRY_LEN, CATALOG_HEADER_LEN in *.
  rewrite checked_mul_ok in Hpl by (unfold usize_max, u64_max; lia). injection Hpl as Hpl.
  rewrite <-Hpl in Hlen. rewrite checked_add_ok in Hlen by (unfold usize_max, u64_max; lia). injection Hlen as Hlen.
  apply decode_entries_Ok in Hes as (Hl & Hw & Hch); rewrite ?len_nil; try done; unfold MAX_SEALED_GENERATIONS; try lia.
  rewrite len_nil, Z2Nat.id in Hl by done.
  assert (slot < 3) as Hslot by lia.
  apply from_bytes_wf in Hid as [Hs _]; [|pose proof (len_slice 12 28 bytes); unfold len in *; lia].
  split; [|split_and!; cbn [cs_store_id cs_reference cs_entries]; [done| |done]].
  - split; cbn [cs_store_id cs_reference cs_entries]; try done; [unfold MAX_SEALED_GENERATIONS; lia|].
    split_and!; [done|cbn; lia|]. intros ->. rewrite len_nil in Hl. lia.
  - do 2 f_equal. lia.
Qed.

Lemma decode_catalog_complete bytes slot store c :
  decoded_catalog bytes slot store c → decode_catalog bytes slot store = Ok c.
Proof.
  intros ([Hs Hw Hb Hc Hrk] & Est & Hr & Henc). pose proof Henc as Hwire.
  apply encode_catalog_Ok in Hwire as (r & Hr' & Hslot & Hg & Hne & _ & E); [|done].
  rewrite Hr in Hr'. injection Hr' as <-. cbn [cat_generation cat_slot] in *. subst store.
  set (n := len (cs_entries c)) in *. set (s := cs_store_id c) in *.
  pose proof (len_nonneg (cs_entries c)) as Hn0. fold n in Hn0.
  assert (n ≠ 0) as Hn. { unfold n, len. by destruct (cs_entries c). }
  unfold MAX_SEALED_GENERATIONS in Hb.
  assert (len bytes = 64 + n * 64 + 4) as Hlen.
  { rewrite E. unfold catalog_wire. rewrite !len_app, len_catalog_header, len_entries, len_be_bytes by done. fold n. lia. }
  set (covered := concat (catalog_header_fields s n n) ++ concat (entry_wire <$> cs_entries c)).
  assert (bytes = covered ++ be_bytes 4 (crc32c covered)) as Ecov by exact E.
  assert (len covered = 64 + n * 64) as Hcov.
  { unfold covered. rewrite len_app, len_catalog_header, len_entries by done. fold n. lia. }
  assert (bytes = concat (catalog_header_fields s n n) ++ concat (entry_wire <$> cs_entries c) ++
    be_bytes 4 (crc32c covered)) as Ebytes by (rewrite Ecov; unfold covered; by rewrite <-app_assoc).
  destruct (catalog_header_slices s n n (concat (entry_wire <$> cs_entries c) ++ be_bytes 4 (crc32c covered)) Hs)
    as (H0 & H8 & H10 & H12 & H28 & H36 & H40 & H48). rewrite <-Ebytes in *.
  unfold decode_catalog, u16_at, u32_at, u64_at. rewrite H0, H8, H10, H12, H28, H36, H40, H48. cbv zeta.
  unfold MAX_SEALED_GENERATIONS, CATALOG_ENTRY_LEN, CATALOG_HEADER_LEN, CATALOG_VERSION.
  rewrite !from_be_bytes_small by lia.
  pose proof (all_zero_zeros 16) as Hz16.
  assert (MAX_GENERATION_CATALOG_BYTES = 4164) as -> by done.
  rewrite decide_False by (intros [?|[?|[?|[?|[?|[?|?]]]]]]; try done; lia).
  replace (len bytes - 4) with (len covered) by lia.
  assert (slice 0 (len covered) bytes = covered) as -> by (rewrite Ecov; by apply slice_app_0).
  assert (slice (len covered) (len bytes) bytes = be_bytes 4 (crc32c covered)) as ->.
  { rewrite Ecov at 2. apply slice_app_end; [done|]. rewrite len_be_bytes. lia. }
  pose proof (crc32c_range covered) as Hcr%in_range_spec. unfold u32_max in Hcr.
  rewrite from_be_bytes_small by lia. rewrite decide_False by tauto.
  rewrite from_bytes_into by done. cbn [map_err]. rewrite decide_False by tauto.
  rewrite checked_mul_ok, checked_add_ok by (unfold usize_max, u64_max; lia).
  rewrite decide_False by (intros [?|[?|[?|[?|?]]]]; try lia; congruence).
  replace (Z.to_nat n) with (length (cs_entries c)) by (unfold n, len; lia).
  rewrite Ebytes at 1. rewrite decode_entries_layout;
    [|done|rewrite len_catalog_header by done; done|done|done|done].
  rewrite decide_False by tauto. rewrite app_nil_l.
  assert (mkCatalog s (Some (mkCatalogReference slot n (len bytes) (crc32c bytes))) (cs_entries c) = c) as ->.
  { rewrite <-Hr; unfold s. by destruct c. }
  rewrite Henc. by rewrite decide_False by tauto.
Qed.

(** ** Lemmas: the rotation intent *)

(** What a rotation intent promises besides the ranges of its fields. *)
Record intent_ok (i : RotationIntent) : Prop := {
  io_source : ri_source_generation i ≠ 0;
  io_successor : ri_successor_generation i = ri_source_generation i + 1;
  io_cutoff : ri_sequence_cutoff i ≠ 0;
  io_end : JOURNAL_V1_HEADER_LEN < ri_source_end_offset i;
  io_registry : ri_registry_generation i ≠ 0;
  io_catalog : ri_catalog_generation i ≠ 0;
  io_checkpoint : ri_source_checkpoint_generation i ≠ 0 }.

Definition intent_fields (i : RotationIntent) : list (list byte) :=
  [ROTATION_INTENT_MAGIC; be_bytes 2 ROTATION_INTENT_VERSION; be_bytes 2 96; into_bytes (ri_store_id i);
   be_bytes 8 (ri_source_generation i); be_bytes 8 (ri_successor_generation i); be_bytes 8 (ri_sequence_cutoff i);
   be_bytes 8 (ri_source_end_offset i); be_bytes 8 (ri_registry_generation i); be_bytes 8 (ri_catalog_generation i);
   be_bytes 8 (ri_source_checkpoint_generation i); zeros 8].
Definition intent_wire (i : RotationIntent) : list byte :=
  concat (intent_fields i) ++ be_bytes 4 (crc32c (concat (intent_fields i))).

Lemma len_intent_magic : len ROTATION_INTENT_MAGIC = 8.
Proof. done. Qed.
#[local] Hint Rewrite len_intent_magic : len.

Lemma len_intent_fields i : wf (ri_store_id i) → len (concat (intent_fields i)) = 92.
Proof.
  intros Hs%len_into_bytes. unfold intent_fields. cbn [concat]. autorewrite with len. rewrite Hs. lia.
Qed.

Lemma encode_rotation_intent_layout i : wf (ri_store_id i) → encode_rotation_intent i = intent_wire i.
Proof.
  intros Hw. pose proof (len_into_bytes _ Hw) as Hs. pose proof (len_intent_fields i Hw) as Hc.
  unfold encode_rotation_intent, ROTATION_INTENT_LEN. cbv zeta.
  rewrite <-(app_nil_l (zeros (Z.to_nat 96))).
  rewrite copy_at_next by (rewrite ?len_intent_magic; done || lia). rewrite app_nil_l, len_intent_magic.
  do 2 fill. rewrite copy_at_next by (autorewrite with len; lia). rewrite Hs.
  do 7 (rewrite copy_at_next by (autorewrite with len; lia); rewrite len_be_bytes).
  replace (96 - 8 - Z.of_nat 2 - Z.of_nat 2 - 16 - Z.of_nat 8 - Z.of_nat 8 - Z.of_nat 8 - Z.of_nat 8 - Z.of_nat 8 -
    Z.of_nat 8 - Z.of_nat 8) with (8 + 4) by lia.
  rewrite zeros_split, app_assoc by lia.
  set (covered := _ ++ zeros (Z.to_nat 8)).
  assert (covered = concat (intent_fields i)) as ->
    by (unfold covered, intent_fields; cbn [concat]; by rewrite app_nil_r, <-!app_assoc).
  rewrite slice_app_0, copy_at_next by (rewrite ?len_be_bytes; done || lia).
  by rewrite len_be_bytes, app_nil_r.
Qed.

Lemma intent_slices i :
  wf (ri_store_id i) →
  let bytes := intent_wire i in
  slice 0 8 bytes = ROTATION_INTENT_MAGIC ∧ slice 8 (8 + 2) bytes = be_bytes 2 ROTATION_INTENT_VERSION ∧
  slice 10 (10 + 2) bytes = be_bytes 2 96 ∧ slice 12 28 bytes = into_bytes (ri_store_id i) ∧
  slice 28 (28 + 8) bytes = be_bytes 8 (ri_source_generation i) ∧
  slice 36 (36 + 8) bytes = be_bytes 8 (ri_successor_generation i) ∧
  slice 44 (44 + 8) bytes = be_bytes 8 (ri_sequence_cutoff i) ∧
  slice 52 (52 + 8) bytes = be_bytes 8 (ri_source_end_offset i) ∧
  slice 60 (60 + 8) bytes = be_bytes 8 (ri_registry_generation i) ∧
  slice 68 (68 + 8) bytes = be_bytes 8 (ri_catalog_generation i) ∧
  slice 76 (76 + 8) bytes = be_bytes 8 (ri_source_checkpoint_generation i) ∧ slice 84 92 bytes = zeros 8 ∧
  slice 0 92 bytes = concat (intent_fields i) ∧ slice 92 96 bytes = be_bytes 4 (crc32c (concat (intent_fields i))).
Proof.
  intros Hw bytes. pose proof (len_into_bytes _ Hw) as Hs. pose proof (len_intent_fields i Hw) as Hc.
  assert (∀ k f a b, intent_fields i !! k = Some f →
    a = fields_len (take k (intent_fields i)) → b = a + len f → slice a b bytes = f) as Hf.
  { intros k f a b Hk Ha ->. unfold bytes, intent_wire. rewrite <-(app_nil_l (concat _ ++ _)), <-(Z.add_0_l a).
    by apply (slice_field_at _ k). }
  unfold intent_fields at 1 2, fields_len in Hf.
  split_and!; [apply (Hf 0%nat)|apply (Hf 1%nat)|apply (Hf 2%nat)|apply (Hf 3%nat)|apply (Hf 4%nat)
    |apply (Hf 5%nat)|apply (Hf 6%nat)|apply (Hf 7%nat)|apply (Hf 8%nat)|apply (Hf 9%nat)|apply (Hf 10%nat)
    |apply (Hf 11%nat)|by apply slice_app_0|apply slice_app_end; [done|by rewrite len_be_bytes]]; try done;
    cbn [take concat]; autorewrite with len; rewrite ?Hs; done.
Qed.

Lemma decode_rotation_intent_complete i :
  wf i → intent_ok i → decode_rotation_intent (intent_wire i) (ri_store_id i) = Ok i.
Proof.
  intros Hw [H1 H2 H3 H4 H5 H6 H7]. wf_fields Hw. unfold u64_max in *.
  assert (wf (ri_store_id i)) as Hs by assumption. pose proof (len_intent_fields i Hs) as Hc.
  assert (len (intent_wire i) = 96) as Hlen by (unfold intent_wire; rewrite len_app, len_be_bytes; lia).
  destruct (intent_slices i Hs) as (E0 & E8 & E10 & E12 & E28 & E36 & E44 & E52 & E60 & E68 & E76 & E84 & Ec & E92).
  unfold decode_rotation_intent, u16_at, u64_at. rewrite E0, E8, E10, E12, E28, E36, E44, E52, E60, E68, E76, E84, Ec, E92.
  pose proof (crc32c_range (concat (intent_fields i))) as Hcr%in_range_spec. unfold u32_max in Hcr.
  unfold ROTATION_INTENT_LEN, ROTATION_INTENT_VERSION, JOURNAL_V1_HEADER_LEN in *.
  rewrite !from_be_bytes_small by lia. pose proof (all_zero_zeros 8).
  rewrite decide_False by tauto. rewrite from_bytes_into by done. cbn [map_err].
  rewrite decide_False by tauto. cbv zeta. cbn [ri_source_generation ri_successor_generation ri_sequence_cutoff
    ri_source_end_offset ri_registry_generation ri_catalog_generation ri_source_checkpoint_generation].
  rewrite checked_add_ok by (unfold u64_max; lia). rewrite decide_False; [by destruct i|].
  rewrite H2. intros [?|[?|[?|[?|[?|[?|?]]]]]]; try lia; congruence.
Qed.

Lemma decode_rotation_intent_sound bytes store i :
  decode_rotation_intent bytes store = Ok i → wf i ∧ intent_ok i ∧ ri_store_id i = store ∧ bytes = intent_wire i.
Proof.
  unfold decode_rotation_intent. rewrite guard_Ok, map_err_Ok. intros (Hpre & sid & Hid & Hr).
  rewrite guard_Ok in Hr. cbv zeta in Hr. rewrite guard_Ok in Hr. destruct Hr as (Hst & Hok & [= <-]).
  cbn [ri_source_generation ri_successor_generation ri_sequence_cutoff ri_source_end_offset
    ri_registry_generation ri_catalog_generation ri_source_checkpoint_generation] in Hok.
  assert (sid = store) as -> by not_refused. clear Hst.
  assert (len bytes = 96) as Hlen by not_refused.
  assert (∀ a, 0 ≤ a → a + 8 ≤ 96 → is_u64 (u64_at a bytes)) as Hu.
  { intros a Ha Hb. unfold u64_at. pose proof (from_be_range (slice a (a + 8) bytes)) as Hr.
    rewrite len_slice in Hr by lia. replace (a + 8 - a) with 8 in Hr by lia. apply in_range_spec. unfold u64_max. lia. }
  apply from_bytes_wf in Hid as [Hs Eid]; [|pose proof (len_slice 12 28 bytes); unfold len in *; lia].
  assert (wf (mkIntent store (u64_at 28 bytes) (u64_at 36 bytes) (u64_at 44 bytes) (u64_at 52 bytes)
    (u64_at 60 bytes) (u64_at 68 bytes) (u64_at 76 bytes))) as Hw.
  { wf_intro; cbn; try apply Hu; try lia. exact Hs. }
  split; [exact Hw|]. split; [|split; [done|]].
  - assert (checked_add u64_max (u64_at 28 bytes) 1 = Some (u64_at 36 bytes)) as Hsucc by not_refused.
    unfold checked_add in Hsucc. case_decide; [|done]. injection Hsucc as Hsucc.
    split; cbn; lia.
  - assert (slice 0 8 bytes = ROTATION_INTENT_MAGIC) as E0 by not_refused.
    assert (u16_at 8 bytes = 1) as E8 by not_refused. assert (u16_at 10 bytes = 96) as E10 by not_refused.
    assert (all_zero (slice 84 92 bytes)) as E84 by not_refused.
    assert (from_be (slice 92 96 bytes) = crc32c (slice 0 92 bytes)) as E92 by (symmetry; not_refused).
    assert (∀ a, 0 ≤ a → a + 8 ≤ 96 → slice a (a + 8) bytes = be_bytes 8 (u64_at a bytes)) as E64
      by (intros a Ha Hb; apply slice_be; done || lia).
    set (i := mkIntent _ _ _ _ _ _ _ _).
    assert (slice 0 92 bytes = concat (intent_fields i)) as Ecov.
    { unfold intent_fields. cbn [concat ri_store_id ri_source_generation ri_successor_generation ri_sequence_cutoff
        ri_source_end_offset ri_registry_generation ri_catalog_generation ri_source_checkpoint_generation i].
      rewrite <-!E64 by lia. rewrite <-E0, Eid, app_nil_r.
      unfold ROTATION_INTENT_VERSION. rewrite <-(slice_be 8 10 2 1 bytes), <-(slice_be 10 12 2 96 bytes) by (done || lia).
      change (zeros 8) with (zeros (Z.to_nat (92 - 84))). rewrite <-(slice_zero 84 92 bytes) by (done || lia).
      by rewrite !slice_join by lia. }
    unfold intent_wire. rewrite <-Ecov. rewrite <-E92.
    rewrite <-(slice_be 92 96 4 _ bytes) by (done || lia). rewrite slice_join by lia. by rewrite slice_all.
Qed.

(** ** Lemmas: generation file names *)

Lemma strip_prefix_Some p s r : strip_prefix p s = Some r ↔ s = p ++ r.
Proof.
  revert s. induction p as [|b p IH]; intros s; cbn [strip_prefix app]; [naive_solver|].
  destruct s as [|c s]; [done|]. case_decide as Hb; [subst; rewrite IH|]; naive_solver.
Qed.

Lemma strip_suffix_Some p s r : strip_suffix p s = Some r ↔ s = r ++ p.
Proof.
  unfold strip_suffix. destruct (strip_prefix _ _) as [t|] eqn:E.
  - apply strip_prefix_Some in E. apply (f_equal reverse) in E. rewrite reverse_involutive, reverse_app, reverse_involutive in E.
    subst s. split; [by intros [= <-]|]. intros [= H]%app_inv_tail. by f_equal.
  - split; [done|]. intros ->. rewrite reverse_app in E.
    assert (strip_prefix (reverse p) (reverse p ++ reverse r) = Some (reverse r)) as E' by (by apply strip_prefix_Some).
    congruence.
Qed.

Lemma u64_digits_spec acc l :
  0 ≤ acc ≤ u64_max → forallb is_ascii_digit l →
  u64_digits acc l = if decide (dec_value acc l ≤ u64_max) then Some (dec_value acc l) else None.
Proof.
  revert acc. induction l as [|b l IH]; intros acc Ha Hl; cbn [u64_digits].
  - cbn. by rewrite decide_True by lia.
  - apply digits_cons in Hl as [Hb Hl]. rewrite dec_value_cons.
    pose proof (dec_value_mono (acc * 10 + (Z_of_byte b - 48)) l) as Hm.
    unfold checked_mul, checked_add. case_decide; [case_decide; [by apply IH; [lia|]|]|].
    all: rewrite decide_False; [done|]; destruct Hm as [? _]; [lia|done|lia].
Qed.

Lemma dec_value_zeros n l : dec_value 0 (replicate n x30 ++ l) = dec_value 0 l.
Proof. induction n as [|n IH]; [done|]. cbn [replicate app]. rewrite dec_value_cons. exact IH. Qed.

(** Twenty decimal digits hold every [u64]. *)
Lemma pad_020_spec g :
  0 ≤ g ≤ u64_max → len (pad_020 g) = 20 ∧ forallb is_ascii_digit (pad_020 g) ∧ dec_value 0 (pad_020 g) = g.
Proof.
  intros Hg. unfold u64_max in Hg.
  destruct (display_decimal_spec 20 g) as (Hc & Hv & Hl & _); [|done|]; [change (Z.of_nat 20) with 20; lia|].
  assert (display_u128 g = display_decimal 20 g) as E.
  { unfold display_u128. rewrite <-Hv at 1. apply display_decimal_canonical; [done|lia]. }
  unfold pad_020. rewrite E. cbv zeta. split_and!.
  - unfold len. rewrite length_app, length_replicate. lia.
  - rewrite forallb_app, andb_True. split; [|apply Hc]. generalize (20 - length (display_decimal 20 g))%nat as k.
    intros k. induction k; [done|]. cbn. exact IHk.
  - by rewrite dec_value_zeros.
Qed.

Lemma parse_generation_name_Some name prefix suffix minimum g :
  0 ≤ minimum →
  parse_generation_name name prefix suffix minimum = Some g ↔
  minimum ≤ g ≤ u64_max ∧ name = prefix ++ pad_020 g ++ suffix.
Proof.
  intros Hm. unfold parse_generation_name. split.
  - destruct (strip_prefix _ _) as [rest|] eqn:Ep; [|done]. apply strip_prefix_Some in Ep as ->.
    destruct (strip_suffix _ _) as [digits|] eqn:Es; [|done]. apply strip_suffix_Some in Es as ->.
    case_decide as Hd; [done|].
    assert (forallb is_ascii_digit digits) as Hdig by (apply dec_stable; tauto).
    rewrite u64_digits_spec by (done || unfold u64_max; lia). case_decide as Hv; [|done].
    case_decide as Hg; [|done]. intros [= <-]. destruct Hg as [? E]. rewrite E. split; [lia|done].
  - intros [Hg ->]. destruct (pad_020_spec g) as (Hl & Hd & Hv); [lia|].
    assert (strip_prefix prefix (prefix ++ pad_020 g ++ suffix) = Some (pad_020 g ++ suffix)) as ->
      by (by apply strip_prefix_Some).
    assert (strip_suffix suffix (pad_020 g ++ suffix) = Some (pad_020 g)) as -> by (by apply strip_suffix_Some).
    rewrite decide_False by (intros [?|?]; done || lia).
    rewrite u64_digits_spec by (done || unfold u64_max; lia). rewrite Hv, decide_True by lia.
    by rewrite decide_True by (split; [lia|done]).
Qed.

(** ** Concrete catalogs *)

Definition sample_sealed (n : Z) : SealedGeneration := mkSealed n ((n - 1) * 10) (n * 10) 500 1 500 (7 * n).
Definition sample_catalog_reference (slot n : Z) : GenerationCatalogReference := mkCatalogReference slot n 0 0.
Definition sample_catalog : GenerationCatalogSnapshot :=
  mkCatalog (sample_id 0) (Some (sample_catalog_reference 1 2)) [sample_sealed 1; sample_sealed 2].
Definition sample_catalog_bytes : list byte :=
  match encode_catalog sample_catalog with Ok bytes => bytes | Err _ => [] end.
Definition sample_catalog_read : GenerationCatalogSnapshot :=
  mkCatalog (sample_id 0) (Some (mkCatalogReference 1 2 (len sample_catalog_bytes) (crc32c sample_catalog_bytes)))
    [sample_sealed 1; sample_sealed 2].
Definition sample_intent : RotationIntent := mkIntent (sample_id 0) 2 3 20 500 1 2 4.

Lemma sample_catalog_reachable : catalog_reachable sample_catalog.
Proof.
  apply (catalog_next (mkCatalog (sample_id 0) (Some (sample_catalog_reference 0 1)) [sample_sealed 1])).
  - apply (catalog_next (catalog_empty (sample_id 0))); [by apply catalog_initial; vm_compute|].
    by apply (step_advance _ (sample_catalog_reference 0 1) (sample_sealed 1)); vm_compute.
  - by apply (step_advance _ (sample_catalog_reference 1 2) (sample_sealed 2)); vm_compute.
Qed.

(** ** Properties *)

(** C32: Every catalog reached by sealing and re-referencing from the empty one is
    well formed: at most 64 entries, generations numbered from one, each range
    starting where the previous ended, the catalog generation equal to the
    number of entries. Sealing accepts exactly the next generation under a new
    slot. *)
Theorem catalog_invariant c r e c' (Hr : catalog_reachable c) :
  catalog_ok c ∧
  (catalog_advance c r e = Ok c' ↔
   can_seal c r e ∧ c' = mkCatalog (cs_store_id c) (Some r) (cs_entries c ++ [e])).
Proof. pose proof (catalog_reachable_ok c Hr). split; [done|]. by apply catalog_advance_Ok. Qed.

Lemma catalog_invariant_witness :
  catalog_ok sample_catalog ∧
  (catalog_advance sample_catalog (sample_catalog_reference 2 3) (sample_sealed 3) = Ok sample_catalog ↔
   can_seal sample_catalog (sample_catalog_reference 2 3) (sample_sealed 3) ∧
   sample_catalog = mkCatalog (sample_id 0) (Some (sample_catalog_reference 2 3))
                      [sample_sealed 1; sample_sealed 2; sample_sealed 3]).
Proof. apply (catalog_invariant sample_catalog). apply sample_catalog_reachable. Defined.

(** The catalog partitions the sealed sequence range: no commit is covered by
    two generations, the covered sequences are exactly those from one to the
    inventory's cutoff, the inventory's floor is zero, and its byte total is
    exact (it never saturates). *)
Theorem catalog_partition c active (Hr : catalog_reachable c) :
  (∀ s off off' g g', covers_commit c g s off → covers_commit c g' s off' → g = g') ∧
  (∀ s, (∃ g off, covers_commit c g s off) ↔ 0 < s ≤ inv_covered_sequence_cutoff (from_catalog active c)) ∧
  inv_covered_sequence_floor (from_catalog active c) = 0 ∧
  inv_sealed_bytes (from_catalog active c) = sealed_total (cs_entries c).
Proof.
  destruct (catalog_reachable_ok c Hr) as [_ _ Hb Hc _]. cbn [from_catalog inv_covered_sequence_cutoff
    inv_covered_sequence_floor inv_sealed_bytes]. split_and!.
  - intros s off off' g g' (e & He & <- & Hs & _)%covers_commit_spec (e' & He' & <- & Hs' & _)%covers_commit_spec.
    by rewrite (sealed_chain_unique _ _ _ e e' s Hc).
  - intros s. change (match last (cs_entries c) with Some e => sg_sequence_cutoff e | None => 0 end)
      with (chain_cutoff 0 (cs_entries c)). rewrite (sealed_chain_covers _ _ _ _ Hc). split.
    + intros (g & off & (e & ? & _ & ? & _)%covers_commit_spec). by exists e.
    + intros (e & He & Hs). exists (sg_journal_generation e), (sg_end_offset e). apply covers_commit_spec.
      exists e. destruct (sealed_chain_entry_ok _ _ _ _ Hc He) as (_ & ? & _). split_and!; done || lia.
  - destruct (cs_entries c) as [|e es]; [done|]. by destruct Hc as (_ & E & _).
  - pose proof (sealed_total_bound _ _ _ Hc). rewrite saturating_fold; [lia| |lia|].
    + apply Forall_forall. intros e He. destruct (sealed_chain_entry_ok _ _ _ _ Hc He) as (_ & ? & -> & _).
      unfold JOURNAL_V1_HEADER_LEN in *. lia.
    + unfold MAX_SEALED_GENERATIONS, MAX_ACTIVE_JOURNAL_BYTES, u64_max in *. lia.
Qed.

Lemma catalog_partition_witness :
  inv_covered_sequence_cutoff (from_catalog 3 sample_catalog) = 20 ∧
  ((∀ s off off' g g', covers_commit sample_catalog g s off → covers_commit sample_catalog g' s off' → g = g') ∧
   (∀ s, (∃ g off, covers_commit sample_catalog g s off) ↔
     0 < s ≤ inv_covered_sequence_cutoff (from_catalog 3 sample_catalog)) ∧
   inv_covered_sequence_floor (from_catalog 3 sample_catalog) = 0 ∧
   inv_sealed_bytes (from_catalog 3 sample_catalog) = sealed_total (cs_entries sample_catalog)).
Proof. split; [done|]. apply (catalog_partition sample_catalog 3). apply sample_catalog_reachable. Defined.

(** C37: The catalog file codec is exact: bytes decode to a snapshot exactly when the
    snapshot is well formed, belongs to the expected store, carries the slot,
    length and checksum of these bytes, and encodes to them. *)
Theorem catalog_codec_exact bytes slot store c :
  decode_catalog bytes slot store = Ok c ↔
  catalog_ok c ∧ cs_store_id c = store ∧
  cs_reference c = Some (mkCatalogReference slot (len (cs_entries c)) (len bytes) (crc32c bytes)) ∧
  encode_catalog c = Ok bytes.
Proof. split; [apply decode_catalog_sound|apply decode_catalog_complete]. Qed.

Example sample_catalog_decodes :
  decode_catalog sample_catalog_bytes 1 (sample_id 0) = Ok sample_catalog_read.
Proof. by vm_compute. Qed.

(** The rotation intent codec is exact: the only bytes that decode for a store
    are the encodings of the well-formed intents of that store, whose successor
    generation follows the source. *)
Theorem rotation_intent_exact bytes store i :
  decode_rotation_intent bytes store = Ok i ↔
  wf i ∧ intent_ok i ∧ ri_store_id i = store ∧ bytes = encode_rotation_intent i.
Proof.
  split.
  - intros (Hw & ? & ? & ->)%decode_rotation_intent_sound. split_and!; try done.
    symmetry. apply encode_rotation_intent_layout. by wf_split Hw.
  - intros (Hw & Hok & <- & ->). rewrite encode_rotation_intent_layout by (by wf_split Hw).
    by apply decode_rotation_intent_complete.
Qed.

(** Generation file names are canonical: a name parses as sealed generation [g]
    exactly when it is the file name of [g], and the two active-journal parsers
    accept exactly their own names from generation two. *)
Theorem generation_names_canonical name g :
  (parse_sealed_generation_name name = Some g ↔ 1 ≤ g ≤ u64_max ∧ name = sealed_journal_file_name g) ∧
  (parse_active_journal_generation_name name = Some g ↔
   2 ≤ g ≤ u64_max ∧ name = list_byte_of_string "active-journal-v1-g" ++ pad_020 g ++ list_byte_of_string ".och") ∧
  (parse_active_checkpoint_generation_name name = Some g ↔
   2 ≤ g ≤ u64_max ∧
   name = list_byte_of_string "active-journal-v1-g" ++ pad_020 g ++ list_byte_of_string ".checkpoint").
Proof. split_and!; by apply parse_generation_name_Some. Qed.

(** The streaming checksum is chunk-independent: feeding any split of a byte
    string into pieces gives its CRC-32C. *)
Theorem streaming_crc_exact chunks :
  stream_finish (foldl stream_update stream_new chunks) = crc32c (concat chunks).
Proof.
  unfold stream_finish, crc32c. f_equal.
  assert (∀ s, stream_state (foldl stream_update s chunks) = foldl crc_byte (stream_state s) (concat chunks)) as H.
  { induction chunks as [|c chunks IH]; intros s; [done|]. cbn [foldl concat]. by rewrite IH, foldl_app. }
  apply H.
Qed.
