(* ===== verification/Commit.v ===== *)
(** * Committed store identities

    The identities that a committed manifest carries: [RetryStateReference]
    ([och-store/src/retry.rs]), [JournalIdentity] and [DurableCutoff]
    ([active.rs]), and [ManifestCommit] ([manifest.rs]). *)

From S2P Require Import Prelude Bytes Identity Generation.

(** The generation of the first journal ([active.rs]). *)
Definition ACTIVE_JOURNAL_GENERATION : Z := 1.

Record RetryStateReference := mkRetryReference { rs_slot : Z; rs_generation : Z }.
#[export] Instance RetryStateReference_eq_dec : EqDecision RetryStateReference.
Proof. solve_decision. Defined.
#[export] Instance wf_retry_reference : Wf RetryStateReference := λ r,
  is_u8 (rs_slot r) && is_u64 (rs_generation r).

Record JournalIdentity := mkJournalIdentity { journal_store_id : StoreId; journal_generation : Z }.
#[export] Instance JournalIdentity_eq_dec : EqDecision JournalIdentity.
Proof. solve_decision. Defined.
#[export] Instance wf_journal_identity : Wf JournalIdentity := λ j,
  wf (journal_store_id j) && is_u64 (journal_generation j).

Record DurableCutoff := mkCutoff {
  cut_journal : JournalIdentity;
  cut_checkpoint_generation : Z;
  cut_append_sequence : Z;
  cut_end_offset : Z }.
#[export] Instance DurableCutoff_eq_dec : EqDecision DurableCutoff.
Proof. solve_decision. Defined.
#[export] Instance wf_cutoff : Wf DurableCutoff := λ c,
  wf (cut_journal c) && is_u64 (cut_checkpoint_generation c) && is_u64 (cut_append_sequence c) &&
  is_u64 (cut_end_offset c).

Record ManifestCommit := mkCommit {
  mc_manifest_generation : Z;
  mc_registry_generation : Z;
  mc_registry_slot : Z;
  mc_durable_cutoff : DurableCutoff;
  mc_retry_state : RetryStateReference;
  mc_sequence_floor : Z;
  mc_catalog : option GenerationCatalogReference }.
#[export] Instance ManifestCommit_eq_dec : EqDecision ManifestCommit.
Proof. solve_decision. Defined.
#[export] Instance wf_commit : Wf ManifestCommit := λ m,
  is_u64 (mc_manifest_generation m) && is_u64 (mc_registry_generation m) && is_u8 (mc_registry_slot m) &&
  wf (mc_durable_cutoff m) && wf (mc_retry_state m) && is_u64 (mc_sequence_floor m) && wf (mc_catalog m).

(** The generation of the journal a commit's cutoff lies in. *)
Definition commit_journal (m : ManifestCommit) : Z := journal_generation (cut_journal (mc_durable_cutoff m)).
Definition commit_sequence (m : ManifestCommit) : Z := cut_append_sequence (mc_durable_cutoff m).
Definition commit_end (m : ManifestCommit) : Z := cut_end_offset (mc_durable_cutoff m).
Definition commit_checkpoint (m : ManifestCommit) : Z := cut_checkpoint_generation (mc_durable_cutoff m).
Definition commit_retry (m : ManifestCommit) : Z := rs_generation (mc_retry_state m).
