(* ===== verification/Retry.v ===== *)
(** * The durable retry projection

    [och-store/src/retry.rs]: the bounded two-tier memory of committed
    admissions (replayable outcomes, then guards), its classification of
    incoming qualifications and the transition that advances it with a durable
    batch. The two tiers are proved to be a window over the
    whole committed history. *)

From S2P Require Import Prelude Bytes Identity Bounded Admission Layout Wire Generation Commit.

(** ** Options *)

Definition MAX_PERSISTED_RETRY_ENTRIES : Z := 4096.

Record RetryPersistenceOptions := mkOptions { replay_capacity : Z; guard_capacity : Z }.
#[export] Instance RetryPersistenceOptions_eq_dec : EqDecision RetryPersistenceOptions.
Proof. solve_decision. Defined.
Inductive RetryOptionsError : Set := InvalidRetryOptions.
Definition options_new (replay guard : Z) : result RetryOptionsError RetryPersistenceOptions :=
  if decide (replay = 0 ∨ guard = 0 ∨ replay > MAX_PERSISTED_RETRY_ENTRIES ∨
             guard > MAX_PERSISTED_RETRY_ENTRIES - replay)
  then Err InvalidRetryOptions
  else Ok (mkOptions replay guard).
Definition options_default : RetryPersistenceOptions := mkOptions 256 256.
#[export] Instance wf_options : Wf RetryPersistenceOptions := λ o,
  in_range 0 usize_max (replay_capacity o) && in_range 0 usize_max (guard_capacity o) &&
  is_ok (options_new (replay_capacity o) (guard_capacity o)).

(** ** The projection *)

Record PendingRetryOutcome := mkPending {
  po_qualification : RetryQualification;
  po_append_sequence : Z;
  po_end_offset : Z }.

Record RetryReplayOutcome := mkReplay {
  ro_qualification : RetryQualification;
  ro_append_sequence : Z;
  ro_end_offset : Z;
  ro_committed : ManifestCommit }.
#[export] Instance RetryReplayOutcome_eq_dec : EqDecision RetryReplayOutcome.
Proof. solve_decision. Defined.

Record RetryGuardEntry := mkGuard {
  ge_qualification : RetryQualification;
  ge_append_sequence : Z }.
#[export] Instance RetryGuardEntry_eq_dec : EqDecision RetryGuardEntry.
Proof. solve_decision. Defined.

(** [RetryStateMatch::{Replay, Expired, Conflict, Fresh}]. *)
Inductive RetryStateMatch :=
| MatchReplay (outcome : RetryReplayOutcome)
| MatchExpired
| MatchConflict
| MatchFresh.
#[export] Instance RetryStateMatch_eq_dec : EqDecision RetryStateMatch.
Proof. solve_decision. Defined.

Record RetryStateSnapshot := mkRetryState {
  st_store_id : StoreId;
  st_options : RetryPersistenceOptions;
  st_reference : option RetryStateReference;
  st_replay : list RetryReplayOutcome;
  st_guard : list RetryGuardEntry }.
#[export] Instance RetryStateSnapshot_eq_dec : EqDecision RetryStateSnapshot.
Proof. solve_decision. Defined.

Definition state_empty (store_id : StoreId) (options : RetryPersistenceOptions) : RetryStateSnapshot :=
  mkRetryState store_id options None [] [].
Definition empty_persisted (store_id : StoreId) (options : RetryPersistenceOptions)
    (reference : RetryStateReference) : RetryStateSnapshot :=
  mkRetryState store_id options (Some reference) [] [].

(** The two loops of [RetryStateSnapshot::classify]. *)
Fixpoint classify_guard (guard : list RetryGuardEntry) (q : RetryQualification) : RetryStateMatch :=
  match guard with
  | [] => MatchFresh
  | entry :: guard =>
    match classify (ge_qualification entry) q with
    | Equivalent => MatchExpired
    | Conflict => MatchConflict
    | Distinct => classify_guard guard q
    end
  end.
Fixpoint classify_replay (replay : list RetryReplayOutcome) (guard : list RetryGuardEntry)
    (q : RetryQualification) : RetryStateMatch :=
  match replay with
  | [] => classify_guard guard q
  | outcome :: replay =>
    match classify (ro_qualification outcome) q with
    | Equivalent => MatchReplay outcome
    | Conflict => MatchConflict
    | Distinct => classify_replay replay guard q
    end
  end.
Definition state_classify (s : RetryStateSnapshot) (q : RetryQualification) : RetryStateMatch :=
  classify_replay (st_replay s) (st_guard s) q.

(** ** Validation *)

(** [RetryStateCodecError::{Invalid, StoreMismatch, OptionsMismatch}]. *)
Inductive RetryStateCodecError : Set := RetryInvalid | RetryStoreMismatch | RetryOptionsMismatch.

Fixpoint check_guards (previous : Z) (guard : list RetryGuardEntry) : result RetryStateCodecError Z :=
  match guard with
  | [] => Ok previous
  | entry :: guard =>
    if decide (ge_append_sequence entry = 0 ∨ ge_append_sequence entry ≤ previous) then Err RetryInvalid
    else check_guards (ge_append_sequence entry) guard
  end.

(** The [previous_*] variables of the loop over the replay tier. *)
Record ReplayCursor := mkReplayCursor {
  previous : Z;
  previous_end : Z;
  previous_journal : Z;
  previous_manifest : Z;
  previous_registry : Z;
  previous_checkpoint : Z;
  previous_cutoff_sequence : Z;
  previous_retry_generation : Z }.

Fixpoint check_outcomes (store_id : StoreId) (reference : option RetryStateReference) (p : ReplayCursor)
    (replay : list RetryReplayOutcome) : result RetryStateCodecError () :=
  match replay with
  | [] => Ok tt
  | outcome :: replay =>
    let committed := ro_committed outcome in
    if decide (ro_append_sequence outcome = 0 ∨ ro_append_sequence outcome ≤ previous p ∨
               ro_end_offset outcome = 0 ∨ mc_manifest_generation committed = 0 ∨
               mc_registry_generation committed = 0 ∨ mc_registry_slot committed >= 3)
    then Err RetryInvalid
    else
      let cutoff := mc_durable_cutoff committed in
      let retry := mc_retry_state committed in
      let journal := journal_generation (cut_journal cutoff) in
      if decide (journal_store_id (cut_journal cutoff) ≠ store_id ∨ journal = 0 ∨
                 cut_checkpoint_generation cutoff = 0 ∨ cut_append_sequence cutoff = 0 ∨ cut_end_offset cutoff = 0 ∨
                 ro_append_sequence outcome > cut_append_sequence cutoff ∨
                 ro_end_offset outcome > cut_end_offset cutoff ∨
                 (ro_append_sequence outcome = cut_append_sequence cutoff ∧
                  ro_end_offset outcome ≠ cut_end_offset cutoff) ∨
                 (ro_append_sequence outcome < cut_append_sequence cutoff ∧
                  ro_end_offset outcome >= cut_end_offset cutoff) ∨
                 rs_slot retry >= 3 ∨ rs_generation retry = 0 ∨
                 mc_manifest_generation committed < mc_registry_generation committed ∨
                 mc_manifest_generation committed < rs_generation retry ∨
                 (journal = previous_journal p ∧ ro_end_offset outcome ≤ previous_end p) ∨
                 journal < previous_journal p ∨ mc_manifest_generation committed < previous_manifest p ∨
                 mc_registry_generation committed < previous_registry p ∨
                 (journal = previous_journal p ∧ cut_checkpoint_generation cutoff < previous_checkpoint p) ∨
                 cut_append_sequence cutoff < previous_cutoff_sequence p ∨
                 rs_generation retry < previous_retry_generation p)
      then Err RetryInvalid
      else if is_some_and (λ current, bool_decide (rs_generation retry > rs_generation current)) reference
      then Err RetryInvalid
      else if decide (journal = ACTIVE_JOURNAL_GENERATION ∧
                      (mc_sequence_floor committed ≠ 0 ∨ is_Some (mc_catalog committed)))
      then Err RetryInvalid
      else if decide (journal ≠ ACTIVE_JOURNAL_GENERATION ∧
                      (mc_sequence_floor committed = 0 ∨ mc_catalog committed = None ∨
                       cut_append_sequence cutoff < mc_sequence_floor committed))
      then Err RetryInvalid
      else check_outcomes store_id reference
             (mkReplayCursor (ro_append_sequence outcome) (ro_end_offset outcome) journal
                (mc_manifest_generation committed) (mc_registry_generation committed)
                (cut_checkpoint_generation cutoff) (cut_append_sequence cutoff) (rs_generation retry)) replay
  end.

Definition retained_qualifications (s : RetryStateSnapshot) : list RetryQualification :=
  (ro_qualification <$> st_replay s) ++ (ge_qualification <$> st_guard s).
Fixpoint check_retained (retained qs : list RetryQualification) : result RetryStateCodecError () :=
  match qs with
  | [] => Ok tt
  | q :: qs =>
    if existsb (λ prior, bool_decide (classify prior q ≠ Distinct)) retained then Err RetryInvalid
    else check_retained (retained ++ [q]) qs
  end.

Definition validate_state (s : RetryStateSnapshot) : result RetryStateCodecError () :=
  if decide (len (st_replay s) > replay_capacity (st_options s) ∨ len (st_guard s) > guard_capacity (st_options s) ∨
             saturating_add usize_max (len (st_replay s)) (len (st_guard s)) > MAX_PERSISTED_RETRY_ENTRIES)
  then Err RetryInvalid
  else if is_some_and (λ reference, bool_decide (rs_slot reference >= 3 ∨ rs_generation reference = 0)) (st_reference s)
  then Err RetryInvalid
  else
    let! previous := check_guards 0 (st_guard s) in
    let! _ := check_outcomes (st_store_id s) (st_reference s) (mkReplayCursor previous 0 0 0 0 0 0 0) (st_replay s) in
    check_retained [] (retained_qualifications s).

(** [validate_commit_progression]: from one committed batch to the next. *)
Definition validate_commit_progression (prior current : ManifestCommit) : result RetryStateCodecError () :=
  let prior_reference := mc_retry_state prior in
  let current_reference := mc_retry_state current in
  if decide (rs_generation current_reference = rs_generation prior_reference)
  then if decide (current = prior) then Ok tt else Err RetryInvalid
  else
    let prior_cutoff := mc_durable_cutoff prior in
    let current_cutoff := mc_durable_cutoff current in
    let crosses_generation :=
      journal_generation (cut_journal current_cutoff) ≠ journal_generation (cut_journal prior_cutoff) in
    if decide (checked_add u64_max (rs_generation prior_reference) 1 ≠ Some (rs_generation current_reference) ∨
               rs_slot current_reference = rs_slot prior_reference ∨
               mc_manifest_generation current ≤ mc_manifest_generation prior ∨
               cut_append_sequence current_cutoff ≤ cut_append_sequence prior_cutoff ∨
               (¬ crosses_generation ∧
                (checked_add u64_max (cut_checkpoint_generation prior_cutoff) 1 ≠
                   Some (cut_checkpoint_generation current_cutoff) ∨
                 cut_end_offset current_cutoff ≤ cut_end_offset prior_cutoff)) ∨
               (crosses_generation ∧
                (checked_add u64_max (journal_generation (cut_journal prior_cutoff)) 1 ≠
                   Some (journal_generation (cut_journal current_cutoff)) ∨
                 mc_sequence_floor current ≠ cut_append_sequence prior_cutoff ∨ mc_catalog current = None)) ∨
               mc_registry_generation current < mc_registry_generation prior ∨
               (mc_registry_generation current = mc_registry_generation prior ∧
                mc_registry_slot current ≠ mc_registry_slot prior))
    then Err RetryInvalid else Ok tt.

(** The chronological scan: consecutive sequences up to the root cutoff. *)
Fixpoint check_chronology (cutoff previous_sequence : Z) (sequences : list Z) : result RetryStateCodecError () :=
  match sequences with
  | [] => Ok tt
  | sequence :: sequences =>
    if decide (checked_add u64_max previous_sequence 1 ≠ Some sequence ∨ sequence > cutoff) then Err RetryInvalid
    else check_chronology cutoff sequence sequences
  end.

(** The final loop of [validate_root]; [rest] is what follows an outcome. *)
Fixpoint check_commits (root : ManifestCommit) (catalog : option GenerationCatalogSnapshot)
    (prior_commit : option ManifestCommit) (replay : list RetryReplayOutcome) : result RetryStateCodecError () :=
  match replay with
  | [] => Ok tt
  | outcome :: rest =>
    let commit := ro_committed outcome in
    let cutoff := mc_durable_cutoff commit in
    let reference := mc_retry_state commit in
    let root_cutoff := mc_durable_cutoff root in
    let journal := journal_generation (cut_journal cutoff) in
    let root_journal := journal_generation (cut_journal root_cutoff) in
    let uncovered :=
      match catalog with
      | None => bool_decide (mc_catalog root = None)
      | Some catalog => negb (covers_commit catalog journal (ro_append_sequence outcome) (ro_end_offset outcome))
      end in
    if decide (mc_manifest_generation commit > mc_manifest_generation root ∨
               mc_registry_generation commit > mc_registry_generation root ∨
               (mc_registry_generation commit = mc_registry_generation root ∧
                mc_registry_slot commit ≠ mc_registry_slot root) ∨
               journal_store_id (cut_journal cutoff) ≠ journal_store_id (cut_journal root_cutoff) ∨
               journal > root_journal ∨
               (journal = root_journal ∧
                cut_checkpoint_generation cutoff > cut_checkpoint_generation root_cutoff) ∨
               cut_append_sequence cutoff > cut_append_sequence root_cutoff ∨
               (journal = root_journal ∧ cut_end_offset cutoff > cut_end_offset root_cutoff) ∨
               (journal < root_journal ∧ uncovered) ∨
               rs_generation reference > rs_generation (mc_retry_state root) ∨
               (mc_manifest_generation commit = mc_manifest_generation root ∧ commit ≠ root))
    then Err RetryInvalid
    else
      let! _ := match prior_commit with
                | Some prior => validate_commit_progression prior commit
                | None => Ok tt
                end in
      let group_ends :=
        match rest with
        | [] => true
        | next :: _ => bool_decide (mc_retry_state (ro_committed next) ≠ reference)
        end in
      if decide (group_ends ∧ (ro_append_sequence outcome ≠ cut_append_sequence cutoff ∨
                               ro_end_offset outcome ≠ cut_end_offset cutoff))
      then Err RetryInvalid
      else check_commits root catalog (Some commit) rest
  end.

Definition chronological (s : RetryStateSnapshot) : list Z :=
  (ge_append_sequence <$> st_guard s) ++ (ro_append_sequence <$> st_replay s).

Definition validate_root (s : RetryStateSnapshot) (root : ManifestCommit)
    (catalog : option GenerationCatalogSnapshot) : result RetryStateCodecError () :=
  let! _ := validate_state s in
  let root_reference := mc_retry_state root in
  let root_cutoff := mc_durable_cutoff root in
  let root_journal := journal_generation (cut_journal root_cutoff) in
  if decide (st_reference s ≠ Some root_reference ∨ st_store_id s ≠ journal_store_id (cut_journal root_cutoff) ∨
             (root_journal = ACTIVE_JOURNAL_GENERATION ∧
              (mc_sequence_floor root ≠ 0 ∨ is_Some (mc_catalog root))) ∨
             (root_journal > ACTIVE_JOURNAL_GENERATION ∧
              (mc_sequence_floor root = 0 ∨ mc_catalog root = None ∨
               cut_append_sequence root_cutoff < mc_sequence_floor root)))
  then Err RetryInvalid
  else if is_some_and (λ catalog, bool_decide (cs_reference catalog ≠ mc_catalog root)) catalog
  then Err RetryInvalid
  else
    match last (st_replay s) with
    | None =>
      if decide (st_guard s = [] ∧ rs_generation root_reference = 1) then Ok tt else Err RetryInvalid
    | Some newest =>
      let newest_generation := journal_generation (cut_journal (mc_durable_cutoff (ro_committed newest))) in
      let newest_covered :=
        if decide (newest_generation = root_journal)
        then bool_decide (ro_end_offset newest = cut_end_offset root_cutoff)
        else bool_decide (cut_append_sequence root_cutoff = mc_sequence_floor root ∧ newest_generation < root_journal) &&
             match catalog with
             | None => bool_decide (is_Some (mc_catalog root))
             | Some catalog =>
               covers_commit catalog newest_generation (ro_append_sequence newest) (ro_end_offset newest)
             end in
      if decide ((st_guard s ≠ [] ∧ len (st_replay s) ≠ replay_capacity (st_options s)) ∨
                 ro_append_sequence newest ≠ cut_append_sequence root_cutoff ∨ ¬ newest_covered ∨
                 mc_retry_state (ro_committed newest) ≠ root_reference)
      then Err RetryInvalid
      else
        match chronological s with
        | [] => Err RetryInvalid
        | first :: sequences =>
          if decide (first > cut_append_sequence root_cutoff) then Err RetryInvalid
          else
            let! _ := check_chronology (cut_append_sequence root_cutoff) first sequences in
            check_commits root catalog None (st_replay s)
        end
    end.

Definition validates_root_with_catalog (s : RetryStateSnapshot) (root : ManifestCommit)
    (catalog : GenerationCatalogSnapshot) : bool := is_ok (validate_root s root (Some catalog)).

(** ** The durable transition *)

Definition validate_transition_preflight (s : RetryStateSnapshot) (reference : RetryStateReference)
    (pending : list PendingRetryOutcome) (committed : ManifestCommit) : result RetryStateCodecError () :=
  let cutoff := mc_durable_cutoff committed in
  let pending_len := len pending in
  let! first := ok_or (head pending) RetryInvalid in
  let! last := ok_or (last pending) RetryInvalid in
  let! less := ok_or (checked_sub pending_len 1) RetryInvalid in
  let! expected_first := ok_or (checked_sub (cut_append_sequence cutoff) less) RetryInvalid in
  if decide (mc_retry_state committed ≠ reference ∨ pending_len > MAX_PERSISTED_RETRY_ENTRIES ∨
             journal_store_id (cut_journal cutoff) ≠ st_store_id s ∨
             po_append_sequence first ≠ expected_first ∨
             po_append_sequence last ≠ cut_append_sequence cutoff ∨ po_end_offset last ≠ cut_end_offset cutoff)
  then Err RetryInvalid
  else
    match list.last (st_replay s) with
    | Some prior =>
      let prior_cutoff := mc_durable_cutoff (ro_committed prior) in
      if decide (checked_sub (cut_append_sequence cutoff) (cut_append_sequence prior_cutoff) ≠ Some pending_len)
      then Err RetryInvalid else Ok tt
    | None => Ok tt
    end.

(** One pending entry: pushed to the replay tier, whose oldest outcome is
    demoted to a guard when the tier is over capacity, which in turn drops the
    oldest guard. *)
Definition push_outcome (options : RetryPersistenceOptions) (o : RetryReplayOutcome)
    (tiers : list RetryReplayOutcome * list RetryGuardEntry) : list RetryReplayOutcome * list RetryGuardEntry :=
  let '(replay, guard) := tiers in
  let replay := replay ++ [o] in
  if decide (len replay > replay_capacity options) then
    match replay with
    | promoted :: replay =>
      let guard := guard ++ [mkGuard (ro_qualification promoted) (ro_append_sequence promoted)] in
      (replay, if decide (len guard > guard_capacity options) then tail guard else guard)
    | [] => (replay, guard)
    end
  else (replay, guard).

Fixpoint advance_loop (s : RetryStateSnapshot) (committed : ManifestCommit) (pending : list PendingRetryOutcome)
    (tiers : list RetryReplayOutcome * list RetryGuardEntry) (previous : Z)
  : result RetryStateCodecError (list RetryReplayOutcome * list RetryGuardEntry) :=
  match pending with
  | [] => Ok tiers
  | entry :: pending =>
    let q := po_qualification entry in
    if decide (po_append_sequence entry = 0 ∨ po_append_sequence entry ≤ previous ∨ po_end_offset entry = 0 ∨
               state_classify s q ≠ MatchFresh)
    then Err RetryInvalid
    else if existsb (λ retained, bool_decide (classify (ro_qualification retained) q ≠ Distinct)) tiers.1
    then Err RetryInvalid
    else if existsb (λ retained, bool_decide (classify (ge_qualification retained) q ≠ Distinct)) tiers.2
    then Err RetryInvalid
    else advance_loop s committed pending
           (push_outcome (st_options s)
              (mkReplay q (po_append_sequence entry) (po_end_offset entry) committed) tiers)
           (po_append_sequence entry)
  end.

Definition advance (s : RetryStateSnapshot) (reference : RetryStateReference) (pending : list PendingRetryOutcome)
    (committed : ManifestCommit) : result RetryStateCodecError RetryStateSnapshot :=
  let! _ := validate_transition_preflight s reference pending committed in
  let previous := match last (st_replay s) with
                  | Some outcome => ro_append_sequence outcome
                  | None => match last (st_guard s) with
                            | Some entry => ge_append_sequence entry
                            | None => 0
                            end
                  end in
  let! tiers := advance_loop s committed pending (st_replay s, st_guard s) previous in
  let candidate := mkRetryState (st_store_id s) (st_options s) (Some reference) tiers.1 tiers.2 in
  let! _ := validate_state candidate in
  let! _ := validate_root candidate committed None in
  Ok candidate.

Definition verifies_transition (s candidate : RetryStateSnapshot) (pending : list PendingRetryOutcome)
    (committed : ManifestCommit) : bool :=
  match st_reference candidate with
  | None => false
  | Some reference =>
    match advance s reference pending committed with
    | Ok expected => bool_decide (expected = candidate)
    | Err _ => false
    end
  end.

(** ** The window over the committed history *)

Definition lastn {A} (n : nat) (l : list A) : list A := drop (length l - n) l.
Definition guard_of (o : RetryReplayOutcome) : RetryGuardEntry :=
  mkGuard (ro_qualification o) (ro_append_sequence o).
Definition outcome_of (committed : ManifestCommit) (p : PendingRetryOutcome) : RetryReplayOutcome :=
  mkReplay (po_qualification p) (po_append_sequence p) (po_end_offset p) committed.

(** The last outcomes of a history, and the ones just before them. *)
Definition replayable (o : RetryPersistenceOptions) (H : list RetryReplayOutcome) : list RetryReplayOutcome :=
  lastn (Z.to_nat (replay_capacity o)) H.
Definition guarded (o : RetryPersistenceOptions) (H : list RetryReplayOutcome) : list RetryReplayOutcome :=
  lastn (Z.to_nat (guard_capacity o)) (take (length H - Z.to_nat (replay_capacity o)) H).
Definition window (o : RetryPersistenceOptions) (H : list RetryReplayOutcome)
  : list RetryReplayOutcome * list RetryGuardEntry := (replayable o H, guard_of <$> guarded o H).

Lemma lastn_all {A} n (l : list A) : (length l ≤ n)%nat → lastn n l = l.
Proof. intros H. unfold lastn. by replace (length l - n)%nat with 0%nat by lia. Qed.
Lemma lastn_app {A} n (a b : list A) : length b = n → lastn n (a ++ b) = b.
Proof. intros <-. unfold lastn. rewrite length_app, Nat.add_sub. apply drop_app_length. Qed.
Lemma lastn_split {A} n (l : list A) : l = take (length l - n) l ++ lastn n l.
Proof. unfold lastn. by rewrite take_drop. Qed.
Lemma length_lastn {A} n (l : list A) : length (lastn n l) = (length l `min` n)%nat.
Proof. unfold lastn. rewrite length_drop. lia. Qed.
Lemma lastn_snoc {A} n (l : list A) x :
  (0 < n)%nat → lastn n (l ++ [x]) = if decide (length l < n)%nat then l ++ [x] else tail (lastn n l) ++ [x].
Proof.
  intros Hn. case_decide as Hl; [apply lastn_all; rewrite length_app; cbn; lia|].
  unfold lastn. rewrite length_app. cbn [length]. rewrite drop_app_le by lia. f_equal.
  assert (∀ k (l' : list A), tail (drop k l') = drop (S k) l') as ->.
  { induction k as [|k IHk]; intros [|y l']; try done. cbn [drop]. apply IHk. }
  f_equal. lia.
Qed.

Lemma window_short o H : len H ≤ replay_capacity o → window o H = (H, []).
Proof.
  unfold len, window, replayable, guarded. intros Hl. rewrite lastn_all by lia.
  by replace (length H - Z.to_nat (replay_capacity o))%nat with 0%nat by lia.
Qed.
Lemma window_split o A B :
  len B = replay_capacity o →
  window o (A ++ B) = (B, guard_of <$> lastn (Z.to_nat (guard_capacity o)) A).
Proof.
  unfold len, window, replayable, guarded. intros Hl. rewrite lastn_app by lia.
  rewrite length_app. by rewrite take_app_length' by lia.
Qed.

(** Options that the constructor accepts. *)
Lemma wf_options_spec o :
  wf o ↔ 0 < replay_capacity o ∧ 0 < guard_capacity o ∧
         replay_capacity o + guard_capacity o ≤ MAX_PERSISTED_RETRY_ENTRIES.
Proof.
  unfold wf, wf_options, options_new, MAX_PERSISTED_RETRY_ENTRIES.
  rewrite !andb_True, !in_range_spec. unfold usize_max, u64_max. case_decide; cbn; split; try lia.
Qed.

(** Pushing an outcome moves the window by one. *)
Lemma push_window o H x : wf o → push_outcome o x (window o H) = window o (H ++ [x]).
Proof.
  intros (Hr & Hg & _)%wf_options_spec. destruct (decide (len H < replay_capacity o)) as [Hs|Hs].
  - rewrite !window_short by (rewrite ?len_app, ?len_cons, ?len_nil; lia). unfold push_outcome. cbv zeta.
    rewrite decide_False; [done|]. rewrite len_app, len_cons, len_nil. lia.
  - rewrite (lastn_split (Z.to_nat (replay_capacity o)) H).
    pose proof (length_lastn (Z.to_nat (replay_capacity o)) H) as Hl.
    set (A := take _ _). set (B := lastn _ H) in *. clearbody A. unfold len in Hs.
    destruct B as [|b B]; cbn [length] in Hl; [lia|]. rewrite window_split by (unfold len; cbn [length]; lia).
    unfold push_outcome. cbn [app]. cbv zeta.
    rewrite decide_True by (rewrite len_cons, len_app, len_cons, len_nil; unfold len; lia).
    replace ((A ++ b :: B) ++ [x]) with ((A ++ [b]) ++ (B ++ [x])) by (by rewrite <-!app_assoc).
    rewrite window_split by (rewrite len_app, len_cons, len_nil; unfold len; lia). f_equal.
    rewrite lastn_snoc by lia.
    change (mkGuard (ro_qualification b) (ro_append_sequence b)) with (guard_of b).
    destruct (decide (length A < Z.to_nat (guard_capacity o))%nat).
    + rewrite lastn_all by lia. rewrite decide_False; [by rewrite fmap_app|].
      rewrite len_app, len_cons, len_nil. unfold len. rewrite length_fmap. lia.
    + pose proof (length_lastn (Z.to_nat (guard_capacity o)) A) as HlA.
      rewrite decide_True by (rewrite len_app, len_cons, len_nil; unfold len; rewrite length_fmap; lia).
      rewrite fmap_app. destruct (lastn _ A); [cbn in HlA; lia|done].
Qed.

(** Histories: what a store has durably admitted since its retry state was
    created, batch by batch. *)
Inductive retry_run (store : StoreId) (options : RetryPersistenceOptions)
  : RetryStateSnapshot → list RetryReplayOutcome → Prop :=
| run_created reference :
    rs_slot reference < 3 → rs_generation reference ≠ 0 →
    retry_run store options (empty_persisted store options reference) []
| run_advanced s H reference pending committed s' :
    retry_run store options s H → advance s reference pending committed = Ok s' →
    retry_run store options s' (H ++ (outcome_of committed <$> pending)).

Lemma advance_inv s reference pending committed s' :
  advance s reference pending committed = Ok s' →
  validate_transition_preflight s reference pending committed = Ok tt ∧
  validate_state s' = Ok tt ∧ validate_root s' committed None = Ok tt ∧
  st_store_id s' = st_store_id s ∧ st_options s' = st_options s ∧ st_reference s' = Some reference ∧
  ∃ previous, advance_loop s committed pending (st_replay s, st_guard s) previous = Ok (st_replay s', st_guard s') ∧
    (∀ o, last (st_replay s) = Some o → previous = ro_append_sequence o).
Proof.
  unfold advance. rewrite let_ok_iff, let_Ok. intros (? & tiers & Hl & Hr).
  rewrite !let_ok_iff in Hr. destruct Hr as (? & ? & [= <-]).
  cbn [st_store_id st_options st_reference st_replay st_guard]. split_and!; try done.
  eexists. rewrite <-surjective_pairing. split; [exact Hl|]. by intros o ->.
Qed.

Lemma advance_loop_cons s committed e pending tiers p tiers' :
  advance_loop s committed (e :: pending) tiers p = Ok tiers' ↔
  (po_append_sequence e ≠ 0 ∧ p < po_append_sequence e ∧ po_end_offset e ≠ 0 ∧
   state_classify s (po_qualification e) = MatchFresh) ∧
  existsb (λ retained, bool_decide (classify (ro_qualification retained) (po_qualification e) ≠ Distinct)) tiers.1 = false ∧
  existsb (λ retained, bool_decide (classify (ge_qualification retained) (po_qualification e) ≠ Distinct)) tiers.2 = false ∧
  advance_loop s committed pending (push_outcome (st_options s) (outcome_of committed e) tiers)
    (po_append_sequence e) = Ok tiers'.
Proof.
  cbn [advance_loop]. change (mkReplay _ _ _ _) with (outcome_of committed e). rewrite guard_Ok.
  destruct (existsb _ tiers.1); [naive_solver|]. destruct (existsb _ tiers.2); [naive_solver|].
  split; [|naive_solver lia]. intros [Hn ?]. assert (state_classify s (po_qualification e) = MatchFresh) by not_refused. split_and!; done || lia.
Qed.

(** The loop slides the window over the pending outcomes. *)
Lemma advance_loop_window s committed pending H p tiers :
  wf (st_options s) → advance_loop s committed pending (window (st_options s) H) p = Ok tiers →
  tiers = window (st_options s) (H ++ (outcome_of committed <$> pending)).
Proof.
  intros Ho. revert H p. induction pending as [|e pending IH]; intros H p.
  - intros [= <-]. by rewrite app_nil_r.
  - intros (_ & _ & _ & Hl)%advance_loop_cons. rewrite push_window in Hl by done. apply IH in Hl.
    rewrite Hl, fmap_cons. by rewrite <-app_assoc.
Qed.

Lemma retry_run_static store options s H :
  retry_run store options s H → st_store_id s = store ∧ st_options s = options.
Proof. induction 1 as [|s H r p c s' _ [] Ha]; [done|]. apply advance_inv in Ha as (_&_&_&->&->&_). done. Qed.

Lemma retry_run_window store options s H :
  wf options → retry_run store options s H → (st_replay s, st_guard s) = window options H.
Proof.
  intros Ho. induction 1 as [r|s H r p c s' Hrun IH Ha].
  - rewrite window_short; [done|]. apply wf_options_spec in Ho. rewrite len_nil. lia.
  - destruct (retry_run_static _ _ _ _ Hrun) as [_ Eo].
    apply advance_inv in Ha as (_&_&_&_&_&_&prev&Hl&_). rewrite IH, <-Eo in Hl.
    apply advance_loop_window in Hl; [|by rewrite Eo]. by rewrite Hl, Eo.
Qed.

(** ** Classification *)

(** The scope in which a qualification is unique. *)
Definition scope (q : RetryQualification) : SeriesId * ProducerId * RetryKey :=
  (retry_series_id q, retry_producer_id q, retry_key q).

Lemma classify_Distinct a b : classify a b = Distinct ↔ scope a ≠ scope b.
Proof.
  unfold classify, scope. case_decide as Hd.
  - split; [|done]. intros _ [= ? ? ?]. tauto.
  - assert (retry_series_id a = retry_series_id b) as Es by not_refused.
    assert (retry_producer_id a = retry_producer_id b) as Ep by not_refused.
    assert (retry_key a = retry_key b) as Ek by not_refused.
    case_decide; (split; [done|]); intros Hs; destruct Hs; by rewrite Es, Ep, Ek.
Qed.
Lemma classify_Equivalent a b : classify a b = Equivalent ↔ a = b.
Proof.
  unfold classify. destruct a as [s p k c], b as [s' p' k' c'].
  cbn [retry_series_id retry_producer_id retry_key retry_content].
  case_decide as Hd; [split; [done|intros [= -> -> -> ->]; tauto]|].
  case_decide as Hc; (split; [intros E|]); try done; [|by intros [= -> -> -> ->]].
  f_equal; try done; apply dec_stable; tauto.
Qed.
Lemma classify_Conflict a b :
  classify a b = Conflict ↔ scope a = scope b ∧ retry_content a ≠ retry_content b.
Proof.
  pose proof (classify_Distinct a b) as Hd. pose proof (classify_Equivalent a b) as He.
  destruct (classify a b) eqn:E.
  - split; [done|]. intros [? _]. by destruct (proj1 Hd).
  - split; [done|]. intros [_ Hc]. by rewrite (proj1 He eq_refl) in Hc.
  - split; [|done]. intros _. assert (scope a = scope b) as Hs by (apply dec_stable; intros ?%Hd; done).
    split; [done|]. intros Hc. assert (a = b) as ?%He; [|done].
    destruct a, b. unfold scope in Hs. cbn in *. congruence.
Qed.

Lemma check_retained_Ok retained qs :
  check_retained retained qs = Ok tt ↔
  NoDup (scope <$> qs) ∧ ∀ q q', q ∈ qs → q' ∈ retained → scope q ≠ scope q'.
Proof.
  revert retained. induction qs as [|q qs IH]; intros retained; cbn [check_retained fmap list_fmap].
  - split; [|done]. intros _. split; [constructor|]. by intros q q' ?%elem_of_nil.
  - destruct (existsb _ retained) eqn:Hex.
    + split; [done|]. intros [_ Hn]. apply existsb_exists in Hex as (q' & Hq'%list_elem_of_In & Hb%bool_decide_eq_true).
      destruct Hb. apply classify_Distinct. intros E. symmetry in E. revert E. apply Hn; [by left|done].
    + assert (∀ q', q' ∈ retained → scope q ≠ scope q') as Hq.
      { intros q' Hq' E. apply not_true_iff_false in Hex. apply Hex, existsb_exists. exists q'.
        split; [by apply list_elem_of_In|]. apply bool_decide_eq_true. intros Hd%classify_Distinct. by apply Hd. }
      rewrite IH, NoDup_cons. split.
      * intros [? Hn]. split; [split; [|done]|].
        -- intros (q' & E & Hq')%list_elem_of_fmap. eapply (Hn q' q); [done|set_solver|done].
        -- intros a b [->|Ha]%elem_of_cons Hb; [by apply Hq|]. apply Hn; [done|set_solver].
      * intros [[Hqs ?] Hn]. split; [done|]. intros a b Ha Hb. apply elem_of_app in Hb as [Hb|Hb].
        -- apply Hn; [by right|done].
        -- apply list_elem_of_singleton in Hb as ->. intros E. apply Hqs. rewrite <-E. by apply list_elem_of_fmap_2.
Qed.

Section classification.
Context (replay : list RetryReplayOutcome) (guard : list RetryGuardEntry).
Let quals := (ro_qualification <$> replay) ++ (ge_qualification <$> guard).

Lemma classify_guard_cases q :
  match classify_guard guard q with
  | MatchReplay _ => False
  | MatchExpired => ∃ g, g ∈ guard ∧ ge_qualification g = q
  | MatchConflict => ∃ g, g ∈ guard ∧ classify (ge_qualification g) q = Conflict
  | MatchFresh => ∀ g, g ∈ guard → classify (ge_qualification g) q = Distinct
  end.
Proof.
  clear. induction guard as [|g l IH]; cbn [classify_guard]; [by intros g ?%elem_of_nil|].
  destruct (classify (ge_qualification g) q) eqn:E.
  - destruct (classify_guard l q); [done| | |].
    + destruct IH as (g' & ? & ?). exists g'. by split; [right|].
    + destruct IH as (g' & ? & ?). exists g'. by split; [right|].
    + intros g' [->|Hg]%elem_of_cons; [done|by apply IH].
  - apply classify_Equivalent in E. exists g. by split; [left|].
  - exists g. by split; [left|].
Qed.

Lemma classify_replay_cases q :
  match classify_replay replay guard q with
  | MatchReplay o => o ∈ replay ∧ ro_qualification o = q
  | MatchExpired => ∃ g, g ∈ guard ∧ ge_qualification g = q
  | MatchConflict => ∃ q', q' ∈ quals ∧ classify q' q = Conflict
  | MatchFresh => ∀ q', q' ∈ quals → classify q' q = Distinct
  end.
Proof.
  unfold quals. clear. induction replay as [|o l IH]; cbn [classify_replay].
  - pose proof (classify_guard_cases q) as Hg. cbn. destruct (classify_guard guard q); [done|done| |].
    + destruct Hg as (g & ? & ?). exists (ge_qualification g). split; [by apply list_elem_of_fmap_2|done].
    + intros q' (g & -> & ?)%list_elem_of_fmap. by apply Hg.
  - destruct (classify (ro_qualification o) q) eqn:E.
    + destruct (classify_replay l guard q).
      * destruct IH. by split; [right|].
      * done.
      * destruct IH as (q' & ? & ?). exists q'. split; [|done]. rewrite fmap_cons. by right.
      * intros q' [->|Hq]%elem_of_cons; [done|by apply IH].
    + apply classify_Equivalent in E. by split; [left|].
    + exists (ro_qualification o). by split; [left|].
Qed.

Context (Hdup : NoDup (scope <$> quals)).

Lemma retained_unique q q' : q ∈ quals → q' ∈ quals → scope q = scope q' → q = q'.
Proof. by apply NoDup_fmap_eq. Qed.

Lemma replay_guard_disjoint o g :
  o ∈ replay → g ∈ guard → ro_qualification o ≠ ge_qualification g.
Proof.
  intros Ho Hg E. unfold quals in Hdup. rewrite fmap_app, NoDup_app in Hdup. destruct Hdup as (_ & Hx & _).
  apply (Hx (scope (ro_qualification o))).
  - by do 2 apply list_elem_of_fmap_2.
  - rewrite E. by do 2 apply list_elem_of_fmap_2.
Qed.

Lemma replay_unique o o' : o ∈ replay → o' ∈ replay → ro_qualification o = ro_qualification o' → o = o'.
Proof.
  unfold quals in Hdup. rewrite fmap_app, NoDup_app, <-list_fmap_compose in Hdup. destruct Hdup as (Hr & _ & _).
  intros ?? E. eapply (NoDup_fmap_eq (scope ∘ ro_qualification)); [done..|]. cbn. by rewrite E.
Qed.

Lemma replay_retained o : o ∈ replay → ro_qualification o ∈ quals.
Proof. intros. apply elem_of_app. left. by apply list_elem_of_fmap_2. Qed.
Lemma guard_retained g : g ∈ guard → ge_qualification g ∈ quals.
Proof. intros. apply elem_of_app. right. by apply list_elem_of_fmap_2. Qed.

(** With unique scopes, the first match is the only one. *)
Lemma classify_replay_exact q :
  (∀ o, classify_replay replay guard q = MatchReplay o ↔ o ∈ replay ∧ ro_qualification o = q) ∧
  (classify_replay replay guard q = MatchExpired ↔ ∃ g, g ∈ guard ∧ ge_qualification g = q) ∧
  (classify_replay replay guard q = MatchConflict ↔ ∃ q', q' ∈ quals ∧ classify q' q = Conflict) ∧
  (classify_replay replay guard q = MatchFresh ↔ ∀ q', q' ∈ quals → classify q' q = Distinct).
Proof.
  assert (∀ q', q' ∈ quals → q' = q → ∀ a, a ∈ quals → classify a q ≠ Conflict) as Hnc.
  { intros q' Hq' -> a Ha [Hs Hc]%classify_Conflict. by rewrite (retained_unique a q) in Hc. }
  assert (∀ q', q' ∈ quals → q' = q → classify q' q ≠ Distinct) as Hnd.
  { intros q' _ ->. by rewrite (proj2 (classify_Equivalent q q) eq_refl). }
  pose proof (classify_replay_cases q) as Hc. destruct (classify_replay replay guard q) as [o| | |].
  - destruct Hc as [Ho Eo]. split_and!.
    + intros o'. split; [by intros [= <-]|]. intros [Ho' Eo']. f_equal. apply replay_unique; congruence.
    + split; [done|]. intros (g & Hg & Eg). by destruct (replay_guard_disjoint o g Ho Hg); congruence.
    + split; [done|]. intros (q' & Hq' & Hcf). by destruct (Hnc _ (replay_retained o Ho) Eo q' Hq').
    + split; [done|]. intros Hf. by destruct (Hnd _ (replay_retained o Ho) Eo); apply Hf, replay_retained.
  - destruct Hc as (g & Hg & Eg). split_and!; try done.
    + intros o. split; [done|]. intros [Ho Eo]. by destruct (replay_guard_disjoint o g Ho Hg); congruence.
    + split; [by intros _; exists g|done].
    + split; [done|]. intros (q' & Hq' & Hcf). by destruct (Hnc _ (guard_retained g Hg) Eg q' Hq').
    + split; [done|]. intros Hf. by destruct (Hnd _ (guard_retained g Hg) Eg); apply Hf, guard_retained.
  - destruct Hc as (a & Ha & Hcf). split_and!.
    + intros o. split; [done|]. intros [Ho Eo]. by destruct (Hnc _ (replay_retained o Ho) Eo a Ha).
    + split; [done|]. intros (g & Hg & Eg). by destruct (Hnc _ (guard_retained g Hg) Eg a Ha).
    + split; [by intros _; exists a|done].
    + split; [done|]. intros Hf. by rewrite Hf in Hcf.
  - split_and!.
    + intros o. split; [done|]. intros [Ho Eo]. by destruct (Hnd _ (replay_retained o Ho) Eo); apply Hc, replay_retained.
    + split; [done|]. intros (g & Hg & Eg). by destruct (Hnd _ (guard_retained g Hg) Eg); apply Hc, guard_retained.
    + split; [done|]. intros (a & Ha & Hcf). by rewrite Hc in Hcf.
    + by split.
Qed.
End classification.

Lemma validate_state_retained s : validate_state s = Ok tt → NoDup (scope <$> retained_qualifications s).
Proof.
  unfold validate_state. rewrite guard_Ok. intros [_ Hv]. destruct (is_some_and _ _); [done|].
  apply let_Ok in Hv as (p & _ & Hv). apply let_ok_iff in Hv as [_ Hv]. by apply check_retained_Ok in Hv as [? _].
Qed.

Lemma retry_run_retained store options s H :
  retry_run store options s H → NoDup (scope <$> retained_qualifications s).
Proof.
  intros [r|s' H' r p c s'' _ Ha]; [constructor|]. apply advance_inv in Ha as (_ & Hv & _).
  by apply validate_state_retained.
Qed.

(** ** Consecutive sequences *)

(** Each outcome's sequence follows the one before it. *)
Definition consecutive (H : list RetryReplayOutcome) : Prop :=
  ∃ start, ro_append_sequence <$> H = seqZ start (len H).

Lemma advance_loop_sequences s committed pending tiers p tiers' :
  advance_loop s committed pending tiers p = Ok tiers' →
  StronglySorted Z.lt (p :: (po_append_sequence <$> pending)).
Proof.
  intros Hl. apply Sorted_StronglySorted; [intros ???; lia|]. revert tiers p Hl.
  induction pending as [|e pending IH]; intros tiers p; [by repeat constructor|].
  intros ((_ & ? & _) & _ & _ & Hl)%advance_loop_cons. rewrite fmap_cons.
  constructor; [by eapply IH|by constructor].
Qed.

(** An increasing run of integers whose ends are as far apart as its length is
    consecutive. *)
Lemma sorted_span a l z : StronglySorted Z.lt (a :: l) → last (a :: l) = Some z → a + len l ≤ z.
Proof.
  revert a. induction l as [|b l IH]; intros a Hs Hl; [injection Hl as ->; unfold len; cbn; lia|].
  apply StronglySorted_inv in Hs as [Hs Hf]. apply Forall_cons in Hf as [Hab _].
  rewrite last_cons_cons in Hl. apply IH in Hs; [|done]. rewrite len_cons. lia.
Qed.
Lemma sorted_consecutive a l z :
  StronglySorted Z.lt (a :: l) → last (a :: l) = Some z → z = a + len l → a :: l = seqZ a (len (a :: l)).
Proof.
  revert a. induction l as [|b l IH]; intros a Hs Hl Hz.
  - rewrite len_cons, len_nil. done.
  - pose proof Hs as Hs'. apply StronglySorted_inv in Hs as [Hs Hf]. apply Forall_cons in Hf as [Hab _].
    rewrite last_cons_cons in Hl. rewrite len_cons in Hz. pose proof (sorted_span _ _ _ Hs Hl) as Hspan.
    assert (b = a + 1) as -> by lia. pose proof (IH (a + 1) Hs Hl) as E.
    rewrite (len_cons a). pose proof (len_nonneg (a + 1 :: l)).
    rewrite (seqZ_cons a) by lia. f_equal. rewrite E at 1 by lia. f_equal; lia.
Qed.

Lemma preflight_inv s reference pending committed :
  validate_transition_preflight s reference pending committed = Ok tt →
  ∃ e pending', pending = e :: pending' ∧ mc_retry_state committed = reference ∧
    journal_store_id (cut_journal (mc_durable_cutoff committed)) = st_store_id s ∧
    po_append_sequence e + len pending' = commit_sequence committed ∧
    (∀ l, last pending = Some l → po_append_sequence l = commit_sequence committed ∧
      po_end_offset l = commit_end committed) ∧
    (∀ o, last (st_replay s) = Some o → po_append_sequence e = commit_sequence (ro_committed o) + 1).
Proof.
  unfold validate_transition_preflight. rewrite !ok_or_Ok. setoid_rewrite ok_or_Ok. setoid_rewrite ok_or_Ok.
  setoid_rewrite ok_or_Ok. intros (e & He & z & Hz & less & Hless & first & Hfirst & Hr).
  rewrite guard_Ok in Hr. destruct Hr as [Hn Hr].
  destruct pending as [|e' pending]; [done|]. injection He as ->. exists e, pending.
  rewrite len_cons in *. pose proof (len_nonneg pending).
  apply checked_sub_Some in Hless as [_ ->]. apply checked_sub_Some in Hfirst as [_ ->].
  assert (po_append_sequence e = cut_append_sequence (mc_durable_cutoff committed) - (1 + len pending - 1)) as He
    by not_refused.
  unfold commit_sequence, commit_end. split_and!; try done; try not_refused; try lia.
  - intros l. rewrite Hz. intros [= <-]. split; not_refused.
  - intros o Ho. rewrite Ho in Hr. rewrite guard_Ok in Hr. destruct Hr as [Hd _].
    match type of Hd with ¬ (?a ≠ ?b) => assert (a = b) as Hd' by (by apply dec_stable) end.
    apply checked_sub_Some in Hd' as [_ ?]. lia.
Qed.

Lemma last_lastn {A} n (l : list A) : (0 < n)%nat → last (lastn n l) = last l.
Proof.
  intros Hn. rewrite (lastn_split n l) at 2. rewrite last_app. destruct (last (lastn n l)) as [x|] eqn:E; [done|].
  apply last_None in E. pose proof (length_lastn n l) as Hl. rewrite E in Hl. cbn in Hl.
  destruct l; [done|cbn [length] in Hl; lia].
Qed.

Lemma last_seqZ start n z : last (seqZ start n) = Some z → z = start + n - 1.
Proof.
  rewrite last_lookup, length_seqZ. intros H%lookup_seqZ. lia.
Qed.

(** Over a run: sequences are consecutive and the last outcome closes its
    batch. *)
Lemma retry_run_consecutive store options s H :
  wf options → retry_run store options s H →
  consecutive H ∧ ∀ o, last H = Some o → ro_append_sequence o = commit_sequence (ro_committed o).
Proof.
  intros Ho. induction 1 as [r|s H r pending c s' Hrun [[start IH] IHl] Ha].
  - split; [by exists 0|done].
  - pose proof (f_equal fst (retry_run_window _ _ _ _ Ho Hrun)) as Hw. cbn in Hw.
    apply advance_inv in Ha as (Hpre & _ & _ & _ & _ & _ & prev & Hl & _).
    apply preflight_inv in Hpre as (e & rest & -> & _ & _ & Hfirst & Hlast & Hnext).
    apply advance_loop_sequences in Hl. apply StronglySorted_inv in Hl as [Hs _].
    assert (last (ro_append_sequence <$> (outcome_of c <$> e :: rest)) = Some (commit_sequence c)) as Hz.
    { rewrite <-list_fmap_compose, fmap_last. destruct (last (e :: rest)) as [l|] eqn:El.
      - cbn. by rewrite (proj1 (Hlast l eq_refl)).
      - by apply last_None in El. }
    assert (ro_append_sequence <$> (outcome_of c <$> e :: rest) =
      seqZ (po_append_sequence e) (len (e :: rest))) as Eb.
    { rewrite <-list_fmap_compose in Hz |- *.
      change (ro_append_sequence ∘ outcome_of c) with po_append_sequence in *. rewrite fmap_cons in *.
      rewrite (sorted_consecutive _ _ _ Hs Hz); [unfold len; cbn; by rewrite length_fmap|].
      rewrite <-Hfirst. unfold len. by rewrite length_fmap. }
    split.
    + destruct (last H) as [o|] eqn:El.
      * exists start. rewrite fmap_app, IH, Eb, len_app.
        assert (po_append_sequence e = start + len H) as ->.
        { rewrite (Hnext o), <-(IHl o) by (by rewrite ?Hw; unfold replayable; rewrite ?last_lastn by
            (apply wf_options_spec in Ho; lia)).
          assert (last (ro_append_sequence <$> H) = Some (ro_append_sequence o)) as Hs' by (by rewrite fmap_last, El).
          rewrite IH in Hs'. apply last_seqZ in Hs'. lia. }
        rewrite <-seqZ_app by apply len_nonneg. f_equal. unfold len. by rewrite length_fmap.
      * apply last_None in El as ->. exists (po_append_sequence e). rewrite app_nil_l, Eb. f_equal.
        unfold len. by rewrite length_fmap.
    + intros o. rewrite last_app, fmap_last.
      destruct (last (e :: rest)) as [l|] eqn:El; [|by apply last_None in El]. intros [= <-].
      apply (Hlast l eq_refl).
Qed.

(** ** What a valid projection is *)

#[export] Instance wf_outcome : Wf RetryReplayOutcome := λ o,
  wf (ro_qualification o) && is_u64 (ro_append_sequence o) && is_u64 (ro_end_offset o) && wf (ro_committed o).
#[export] Instance wf_guard_entry : Wf RetryGuardEntry := λ g,
  wf (ge_qualification g) && is_u64 (ge_append_sequence g).

(** One outcome against its own commit. *)
Record outcome_ok (store : StoreId) (reference : option RetryStateReference) (o : RetryReplayOutcome) : Prop := {
  oo_sequence : 0 < ro_append_sequence o;
  oo_end : 0 < ro_end_offset o;
  oo_store : journal_store_id (cut_journal (mc_durable_cutoff (ro_committed o))) = store;
  oo_positive : 0 < commit_journal (ro_committed o) ∧ 0 < commit_checkpoint (ro_committed o) ∧
    0 < mc_registry_generation (ro_committed o) ∧ 0 < commit_retry (ro_committed o);
  oo_slots : mc_registry_slot (ro_committed o) < 3 ∧ rs_slot (mc_retry_state (ro_committed o)) < 3;
  oo_covered :
    (ro_append_sequence o = commit_sequence (ro_committed o) ∧ ro_end_offset o = commit_end (ro_committed o)) ∨
    (ro_append_sequence o < commit_sequence (ro_committed o) ∧ ro_end_offset o < commit_end (ro_committed o));
  oo_manifest : mc_registry_generation (ro_committed o) ≤ mc_manifest_generation (ro_committed o) ∧
    commit_retry (ro_committed o) ≤ mc_manifest_generation (ro_committed o);
  oo_reference : ∀ r, reference = Some r → commit_retry (ro_committed o) ≤ rs_generation r;
  oo_generation :
    if decide (commit_journal (ro_committed o) = ACTIVE_JOURNAL_GENERATION)
    then mc_sequence_floor (ro_committed o) = 0 ∧ mc_catalog (ro_committed o) = None
    else 0 < mc_sequence_floor (ro_committed o) ≤ commit_sequence (ro_committed o) ∧
         is_Some (mc_catalog (ro_committed o)) }.

(** One outcome after another. *)
Definition follows (p o : RetryReplayOutcome) : Prop :=
  ro_append_sequence p < ro_append_sequence o ∧
  commit_journal (ro_committed p) ≤ commit_journal (ro_committed o) ∧
  (commit_journal (ro_committed o) = commit_journal (ro_committed p) →
    ro_end_offset p < ro_end_offset o ∧ commit_checkpoint (ro_committed p) ≤ commit_checkpoint (ro_committed o)) ∧
  mc_manifest_generation (ro_committed p) ≤ mc_manifest_generation (ro_committed o) ∧
  mc_registry_generation (ro_committed p) ≤ mc_registry_generation (ro_committed o) ∧
  commit_sequence (ro_committed p) ≤ commit_sequence (ro_committed o) ∧
  commit_retry (ro_committed p) ≤ commit_retry (ro_committed o).

Record state_contract (s : RetryStateSnapshot) : Prop := {
  sc_bounds : len (st_replay s) ≤ replay_capacity (st_options s) ∧ len (st_guard s) ≤ guard_capacity (st_options s) ∧
    len (st_replay s) + len (st_guard s) ≤ MAX_PERSISTED_RETRY_ENTRIES;
  sc_reference : ∀ r, st_reference s = Some r → rs_slot r < 3 ∧ rs_generation r ≠ 0;
  sc_increasing : StronglySorted Z.lt (0 :: chronological s);
  sc_outcomes : Forall (outcome_ok (st_store_id s) (st_reference s)) (st_replay s);
  sc_follows : Sorted follows (st_replay s);
  sc_distinct : NoDup (scope <$> retained_qualifications s) }.

Definition cursor_of (o : RetryReplayOutcome) : ReplayCursor :=
  mkReplayCursor (ro_append_sequence o) (ro_end_offset o) (commit_journal (ro_committed o))
    (mc_manifest_generation (ro_committed o)) (mc_registry_generation (ro_committed o))
    (commit_checkpoint (ro_committed o)) (commit_sequence (ro_committed o)) (commit_retry (ro_committed o)).

(** [follows] against the loop's variables. *)
Definition follows_cursor (p : ReplayCursor) (o : RetryReplayOutcome) : Prop :=
  previous p < ro_append_sequence o ∧ previous_journal p ≤ commit_journal (ro_committed o) ∧
  (commit_journal (ro_committed o) = previous_journal p →
    previous_end p < ro_end_offset o ∧ previous_checkpoint p ≤ commit_checkpoint (ro_committed o)) ∧
  previous_manifest p ≤ mc_manifest_generation (ro_committed o) ∧
  previous_registry p ≤ mc_registry_generation (ro_committed o) ∧
  previous_cutoff_sequence p ≤ commit_sequence (ro_committed o) ∧
  previous_retry_generation p ≤ commit_retry (ro_committed o).

Lemma check_outcomes_cons store reference p o os :
  wf o → check_outcomes store reference p (o :: os) = Ok tt ↔
  outcome_ok store reference o ∧ follows_cursor p o ∧ check_outcomes store reference (cursor_of o) os = Ok tt.
Proof.
  intros Hw. wf_fields Hw. destruct o as [q seq off c]. cbn [ro_qualification ro_append_sequence ro_end_offset ro_committed] in *.
  assert (wf c) as Hc by assumption. wf_fields Hc.
  assert (wf (mc_durable_cutoff c)) as Hcut by assumption. assert (wf (mc_retry_state c)) as Hrs by assumption.
  wf_fields Hcut. wf_fields Hrs.
  assert (wf (cut_journal (mc_durable_cutoff c))) as Hj by assumption. wf_fields Hj.
  cbn [check_outcomes ro_committed ro_append_sequence ro_end_offset].
  rewrite !guard_Ok, guardb_Ok, !guard_Ok, is_some_and_false.
  change (mkReplayCursor _ _ _ _ _ _ _ _) with (cursor_of (mkReplay q seq off c)).
  generalize (check_outcomes store reference (cursor_of (mkReplay q seq off c)) os = Ok tt). intros K.
  unfold follows_cursor, commit_journal, commit_sequence, commit_end, commit_checkpoint, commit_retry.
  cbn [ro_qualification ro_append_sequence ro_end_offset ro_committed].
  split.
  - intros (N1 & N2 & N3 & N4 & N5 & HK). apply refused_or in N2 as [Hst N2]; [|by apply _].
    split; [constructor; cbn [ro_qualification ro_append_sequence ro_end_offset ro_committed];
      unfold commit_journal, commit_sequence, commit_end, commit_checkpoint, commit_retry|split; [|done]].
    all: try (clear N3 N4 N5; lia).
    + done.
    + intros r Hr. specialize (N3 r Hr). apply bool_decide_eq_false in N3. lia.
    + case_decide as Hg.
      * split; [clear -N4 Hg; apply dec_stable; tauto|]. apply eq_None_not_Some. tauto.
      * destruct (mc_catalog c) eqn:Ec; [|tauto]. split; [|done]. clear N2 N4. lia.
  - intros ([? ? Hst ? ? ? ? Hr Hg] & Hf & HK).
    cbn [ro_qualification ro_append_sequence ro_end_offset ro_committed] in *.
    unfold commit_journal, commit_sequence, commit_end, commit_checkpoint, commit_retry in *.
    split_and!; [lia| | | | |done].
    + apply refused_or; [by apply _|]. split; [done|]. clear Hr Hg. lia.
    + intros a Ha. apply bool_decide_eq_false. specialize (Hr a Ha). lia.
    + case_decide; [|tauto]. destruct Hg as [-> ->]. intros [_ [?|[??]]]; done.
    + case_decide; [tauto|]. destruct Hg as [? [? ->]]. intros [_ [?|[?|?]]]; [lia|done|lia].
Qed.

Lemma check_outcomes_Ok store reference p os :
  Forall (λ o : RetryReplayOutcome, Is_true (wf o)) os →
  check_outcomes store reference p os = Ok tt ↔
  Forall (outcome_ok store reference) os ∧ Sorted follows os ∧ (∀ o, head os = Some o → follows_cursor p o).
Proof.
  revert p. induction os as [|o os IH]; intros p Hw; [by repeat split; try constructor|].
  apply Forall_cons in Hw as [Ho Hw]. rewrite check_outcomes_cons, IH, Forall_cons by done. split.
  - intros (? & ? & ? & ? & Hh). split_and!; try done; [|by intros ? [= <-]].
    constructor; [done|]. destruct os as [|o' os]; constructor. by apply (Hh o').
  - intros ([? ?] & Hs & Hh). apply Sorted_inv in Hs as [Hs Hr]. split_and!; try done; [by apply Hh|].
    destruct os as [|o' os]; [done|]. apply HdRel_inv in Hr. by intros ? [= <-].
Qed.

Lemma check_guards_Ok p gs p' :
  0 ≤ p → check_guards p gs = Ok p' ↔
  StronglySorted Z.lt (p :: (ge_append_sequence <$> gs)) ∧ last (p :: (ge_append_sequence <$> gs)) = Some p'.
Proof.
  revert p. induction gs as [|g gs IH]; intros p Hp; cbn [check_guards].
  - split; [intros [= <-]|intros [_ [= <-]]]; split || done; [repeat constructor|done].
  - rewrite guard_Ok, fmap_cons, last_cons_cons. split.
    + intros [Hn Hr]. apply IH in Hr as [Hs ?]; [|lia]. split; [|done]. constructor; [done|].
      pose proof (StronglySorted_inv Hs) as [_ Hf]. constructor; [lia|]. eapply Forall_impl; [done|]. intros; lia.
    + intros [Hs Hl]. apply StronglySorted_inv in Hs as [Hs Hf]. apply Forall_cons in Hf as [? _].
      split; [lia|]. apply IH; [lia|done].
Qed.

Lemma sorted_app (l k : list Z) p z :
  last (p :: l) = Some z →
  StronglySorted Z.lt (p :: l ++ k) ↔ StronglySorted Z.lt (p :: l) ∧ StronglySorted Z.lt (z :: k).
Proof.
  revert p. induction l as [|a l IH]; intros p Hl.
  - injection Hl as <-. split; [|by intros []]. split; [repeat constructor|done].
  - rewrite last_cons_cons in Hl. specialize (IH a Hl). cbn [app]. split.
    + intros [Hs Hf]%StronglySorted_inv. pose proof (proj1 IH Hs) as [Ha Hz]. split; [|done].
      constructor; [done|]. rewrite app_comm_cons, Forall_app in Hf. apply Hf.
    + intros [[Hs Hf]%StronglySorted_inv Hz]. pose proof (proj2 IH (conj Hs Hz)) as Hs'.
      constructor; [done|]. apply Forall_cons in Hf as [? _]. apply StronglySorted_inv in Hs' as [_ Hf].
      constructor; [done|]. eapply Forall_impl; [done|]. intros; lia.
Qed.

Lemma follows_sequences os p :
  Sorted follows os → (∀ o, head os = Some o → p < ro_append_sequence o) →
  StronglySorted Z.lt (p :: (ro_append_sequence <$> os)).
Proof.
  intros Hs Hh. apply Sorted_StronglySorted; [intros ???; lia|]. constructor.
  - induction Hs as [|o os Hs IH Hr]; [constructor|]. rewrite fmap_cons. constructor.
    + destruct os as [|o' os]; [constructor|]. apply IH. intros ? [= <-]. inversion Hr as [|?? Hf]; subst.
      specialize (Hh o eq_refl). destruct Hf. lia.
    + destruct os as [|o' os]; constructor. inversion Hr as [|?? Hf]; subst. apply Hf.
  - destruct os as [|o os]; constructor. by apply Hh.
Qed.

#[export] Instance wf_state : Wf RetryStateSnapshot := λ s,
  wf (st_store_id s) && wf (st_options s) && wf (st_reference s) && wf (st_replay s) && wf (st_guard s).

Lemma wf_tiers s :
  wf s → Forall (λ o : RetryReplayOutcome, Is_true (wf o)) (st_replay s) ∧
         Forall (λ g : RetryGuardEntry, Is_true (wf g)) (st_guard s).
Proof.
  intros Hw. wf_fields Hw. rewrite <-!wf_list_Forall. by split.
Qed.

(** What the two scans of [validate_state] establish together. *)
Lemma validate_tiers s :
  wf s →
  (∃ p, check_guards 0 (st_guard s) = Ok p ∧
    check_outcomes (st_store_id s) (st_reference s) (mkReplayCursor p 0 0 0 0 0 0 0) (st_replay s) = Ok tt) ↔
  StronglySorted Z.lt (0 :: chronological s) ∧
  Forall (outcome_ok (st_store_id s) (st_reference s)) (st_replay s) ∧ Sorted follows (st_replay s).
Proof.
  intros [Hr _]%wf_tiers. setoid_rewrite check_outcomes_Ok; [|done]. unfold chronological.
  assert (∃ z, last (0 :: (ge_append_sequence <$> st_guard s)) = Some z) as [z Hz].
  { destruct (last _) eqn:E; [by eexists|]. by apply last_None in E. }
  rewrite (sorted_app _ _ 0 z) by done. split.
  - intros (p & [Hs Hl]%check_guards_Ok & Ho & Hf & Hh); [|done]. rewrite Hz in Hl. injection Hl as ->.
    split_and!; try done. apply follows_sequences; [done|]. intros o Ho'. apply (Hh o Ho').
  - intros ([Hs Hz'] & Ho & Hf). exists z. rewrite check_guards_Ok by done. split_and!; try done.
    intros o Ho'. destruct (st_replay s) as [|o' os]; [done|]. injection Ho' as ->.
    apply StronglySorted_inv in Hz' as [_ [Hlt _]%Forall_cons]. apply Forall_cons in Ho as [Ho _].
    apply Forall_cons in Hr as [Hw _]. wf_fields Hw.
    assert (wf (ro_committed o)) as Hc by assumption. wf_fields Hc.
    destruct Ho as [_ _ _ (? & ? & ? & ?) _ _ [??] _ _].
    unfold follows_cursor. cbn [previous previous_end previous_journal previous_manifest previous_registry
      previous_checkpoint previous_cutoff_sequence previous_retry_generation].
    assert (wf (mc_durable_cutoff (ro_committed o))) as Hcut by assumption. wf_fields Hcut.
    unfold commit_journal, commit_checkpoint, commit_sequence, commit_retry in *. lia.
Qed.

(** C38: [validate_state] accepts a projection exactly when it meets the
    declarative contract: both tiers within their capacities and the global
    bound, append sequences strictly increasing across guards and then
    outcomes, every outcome inside its own commit's cutoff, generations never
    going back from one outcome to the next, and no two retained
    qualifications in the same retry scope. *)
Theorem validate_state_exact s :
  wf s → validate_state s = Ok tt ↔ state_contract s.
Proof.
  intros Hw. pose proof (validate_tiers s Hw) as Ht. unfold validate_state.
  rewrite guard_Ok, guardb_Ok, is_some_and_false, let_Ok. setoid_rewrite let_ok_iff.
  setoid_rewrite check_retained_Ok. unfold saturating_add, MAX_PERSISTED_RETRY_ENTRIES, usize_max, u64_max.
  split.
  - intros (Hb & Hr & p & Hg & Ho & Hn & _). destruct (proj1 Ht) as (? & ? & ?); [by exists p|].
    constructor; try done; [unfold MAX_PERSISTED_RETRY_ENTRIES; lia|]. intros r Hr'. specialize (Hr r Hr'). apply bool_decide_eq_false in Hr. lia.
  - intros [Hb Hr Hs Ho Hf Hn]. destruct (proj2 Ht) as (p & ? & ?); [done|]. split_and!; [unfold MAX_PERSISTED_RETRY_ENTRIES in Hb; lia| |].
    + intros r Hr'. apply bool_decide_eq_false. specialize (Hr r Hr'). lia.
    + exists p. split_and!; try done. by intros ??? ?%elem_of_nil.
Qed.

(** ** The retry horizon *)

(** The two tiers together are the last outcomes of the history. *)
Lemma window_lastn o H :
  wf o → guarded o H ++ replayable o H = lastn (Z.to_nat (replay_capacity o + guard_capacity o)) H.
Proof.
  intros (? & ? & _)%wf_options_spec. unfold guarded, replayable, lastn. rewrite length_take.
  set (m := (length H - Z.to_nat (replay_capacity o))%nat).
  assert (∀ k, (k ≤ m)%nat → drop k H = drop k (take m H) ++ drop m H) as Hd.
  { intros k Hk. rewrite <-drop_app_le by (rewrite length_take; lia). by rewrite take_drop. }
  rewrite <-Hd by lia. f_equal. lia.
Qed.

(** No scope occurs twice among outcomes that close to each other. *)
Definition spaced (n : nat) (H : list RetryReplayOutcome) : Prop :=
  ∀ i j a b, H !! i = Some a → H !! j = Some b → (i < j ≤ i + n)%nat →
    scope (ro_qualification a) ≠ scope (ro_qualification b).

Lemma spaced_snoc n H x :
  spaced n H → (∀ a, a ∈ lastn n H → scope (ro_qualification a) ≠ scope (ro_qualification x)) → spaced n (H ++ [x]).
Proof.
  intros Hs Hx i j a b Ha Hb Hij. apply lookup_app_Some in Hb as [Hb|[Hge Hb]].
  - apply lookup_app_Some in Ha as [Ha|[? _]]; [by eapply Hs|]. apply lookup_lt_Some in Hb. lia.
  - apply list_lookup_singleton_Some in Hb as [Hj <-].
    apply lookup_app_Some in Ha as [Ha|[? Ha]]; [|apply list_lookup_singleton_Some in Ha; lia].
    apply Hx, list_elem_of_lookup. exists (i - (length H - n))%nat. unfold lastn. rewrite lookup_drop. rewrite <-Ha.
    f_equal. lia.
Qed.

Lemma unmatched {A} (f : A → RetryQualification) q l :
  existsb (λ retained, bool_decide (classify (f retained) q ≠ Distinct)) l = false →
  ∀ a, a ∈ l → scope (f a) ≠ scope q.
Proof.
  intros Hf a Ha. apply classify_Distinct, dec_stable. intros Hd. apply not_true_iff_false in Hf.
  apply Hf, existsb_exists. exists a. split; [by apply list_elem_of_In|by apply bool_decide_eq_true].
Qed.

Lemma advance_loop_spaced s committed pending H p tiers :
  wf (st_options s) → let n := Z.to_nat (replay_capacity (st_options s) + guard_capacity (st_options s)) in
  advance_loop s committed pending (window (st_options s) H) p = Ok tiers →
  spaced n H → spaced n (H ++ (outcome_of committed <$> pending)).
Proof.
  intros Ho n. revert H p. induction pending as [|e pending IH]; intros H p; [by rewrite app_nil_r|].
  intros (_ & Hr & Hg & Hl)%advance_loop_cons Hs. rewrite push_window in Hl by done.
  rewrite fmap_cons. change (?a ++ ?b :: ?c) with (a ++ [b] ++ c). rewrite app_assoc. eapply IH; [done|].
  apply spaced_snoc; [done|]. intros a Ha. unfold n in Ha. rewrite <-window_lastn in Ha by done.
  apply elem_of_app in Ha as [Ha|Ha].
  - apply (unmatched _ _ _ Hg (guard_of a)). by apply list_elem_of_fmap_2.
  - by apply (unmatched _ _ _ Hr a).
Qed.

Lemma retry_run_spaced store options s H :
  wf options → retry_run store options s H →
  spaced (Z.to_nat (replay_capacity options + guard_capacity options)) H.
Proof.
  intros Ho. induction 1 as [r|s H r p c s' Hrun IH Ha]; [by intros ??? ? ?|].
  pose proof (retry_run_window _ _ _ _ Ho Hrun) as Hw. destruct (retry_run_static _ _ _ _ Hrun) as [_ Eo].
  apply advance_inv in Ha as (_&_&_&_&_&_&prev&Hl&_). rewrite Hw, <-Eo in Hl. rewrite <-Eo in *.
  by eapply advance_loop_spaced.
Qed.

(** ** A concrete run *)

Definition sample_options : RetryPersistenceOptions := mkOptions 2 2.
Definition sample_qualification (n : Z) : RetryQualification :=
  mkRetry (sample_id 1) (sample_id (10 + n)) sample_key (sample_content n).
Definition sample_commit (n sequence end_offset : Z) : ManifestCommit :=
  mkCommit (n + 1) 1 0 (mkCutoff (mkJournalIdentity (sample_id 0) 1) n sequence end_offset)
    (mkRetryReference (n `mod` 3) (n + 1)) 0 None.
Definition sample_pending (n : Z) : PendingRetryOutcome := mkPending (sample_qualification n) n (100 * n).
(** Batches of two, one and two admissions. *)
Definition sample_batches : list (ManifestCommit * list PendingRetryOutcome) :=
  [(sample_commit 1 2 200, [sample_pending 1; sample_pending 2]); (sample_commit 2 3 300, [sample_pending 3]);
   (sample_commit 3 5 500, [sample_pending 4; sample_pending 5])].
Definition sample_created : RetryStateSnapshot :=
  empty_persisted (sample_id 0) sample_options (mkRetryReference 0 1).
Definition sample_advance (s : RetryStateSnapshot) (b : ManifestCommit * list PendingRetryOutcome)
  : RetryStateSnapshot :=
  match advance s (mc_retry_state b.1) b.2 b.1 with Ok s' => s' | Err _ => s end.
Definition sample_state : RetryStateSnapshot := foldl sample_advance sample_created sample_batches.
Definition sample_history : list RetryReplayOutcome :=
  sample_batches ≫= λ b, outcome_of b.1 <$> b.2.

Lemma sample_step store options s H b :
  retry_run store options s H → is_ok (advance s (mc_retry_state b.1) b.2 b.1) →
  retry_run store options (sample_advance s b) (H ++ (outcome_of b.1 <$> b.2)).
Proof.
  intros Hrun Hok. unfold sample_advance. destruct (advance _ _ _ _) as [s'|] eqn:E; [|done]. by eapply run_advanced.
Qed.
Lemma sample_run : retry_run (sample_id 0) sample_options sample_state sample_history.
Proof.
  rewrite <-(app_nil_l sample_history). unfold sample_history, sample_batches, mbind, list_bind.
  rewrite app_nil_r, !app_assoc. unfold sample_state, sample_batches, foldl.
  do 3 (apply sample_step; [|by vm_compute]). by apply run_created.
Qed.

(** ** Properties *)

(** C30: The two tiers are a window over the committed history. Whatever batches
    a store has committed since its retry state was created, the replay tier
    holds exactly the last [replay_capacity] outcomes, the guard tier the
    qualifications and sequences of the [guard_capacity] before them, the
    history's append sequences are consecutive, and the newest outcome closes
    the newest commit. *)
Theorem retry_refines_history store options s H :
  wf options → retry_run store options s H →
  (st_store_id s = store ∧ st_options s = options) ∧
  st_replay s = replayable options H ∧ st_guard s = guard_of <$> guarded options H ∧
  consecutive H ∧ (∀ o, last H = Some o → ro_append_sequence o = commit_sequence (ro_committed o)).
Proof.
  intros Ho Hrun. pose proof (retry_run_window _ _ _ _ Ho Hrun) as [= ? ?].
  pose proof (retry_run_consecutive _ _ _ _ Ho Hrun) as [? ?]. by pose proof (retry_run_static _ _ _ _ Hrun).
Qed.
Lemma retry_refines_history_witness :
  ro_append_sequence <$> st_replay sample_state = [4; 5] ∧
  ge_append_sequence <$> st_guard sample_state = [2; 3] ∧
  st_replay sample_state = replayable sample_options sample_history ∧ consecutive sample_history.
Proof.
  split; [by vm_compute|]. split; [by vm_compute|].
  destruct (retry_refines_history (sample_id 0) sample_options sample_state sample_history) as (_ & ? & _ & ? & _);
    [by vm_compute|apply sample_run|by split].
Defined.

(** C31: Classification decides against the committed history. A qualification is
    answered with the committed outcome it replays, as expired when only its
    guard is left, as a conflict when its scope was used with other content,
    and as fresh exactly when no outcome of the two tiers has its scope. *)
Theorem retry_classification_exact store options s H q :
  wf options → retry_run store options s H →
  (∀ o, state_classify s q = MatchReplay o ↔ o ∈ replayable options H ∧ ro_qualification o = q) ∧
  (state_classify s q = MatchExpired ↔ ∃ o, o ∈ guarded options H ∧ ro_qualification o = q) ∧
  (state_classify s q = MatchConflict ↔
   ∃ o, o ∈ guarded options H ++ replayable options H ∧ scope (ro_qualification o) = scope q ∧
     retry_content (ro_qualification o) ≠ retry_content q) ∧
  (state_classify s q = MatchFresh ↔
   ∀ o, o ∈ guarded options H ++ replayable options H → scope (ro_qualification o) ≠ scope q).
Proof.
  intros Ho Hrun. pose proof (retry_run_window _ _ _ _ Ho Hrun) as [= Er Eg].
  pose proof (retry_run_retained _ _ _ _ Hrun) as Hn. unfold retained_qualifications in Hn.
  destruct (classify_replay_exact _ _ Hn q) as (H1 & H2 & H3 & H4). unfold state_classify.
  assert (∀ q', q' ∈ (ro_qualification <$> st_replay s) ++ (ge_qualification <$> st_guard s) ↔
    ∃ o, o ∈ guarded options H ++ replayable options H ∧ q' = ro_qualification o) as Hq.
  { intros q'. rewrite Er, Eg, elem_of_app, <-list_fmap_compose, !list_elem_of_fmap. setoid_rewrite elem_of_app.
    cbn. naive_solver. }
  split_and!.
  - intros o. by rewrite H1, Er.
  - rewrite H2, Eg. setoid_rewrite list_elem_of_fmap. split; [intros (? & (o & -> & ?) & <-); by exists o|].
    intros (o & ? & <-). exists (guard_of o). naive_solver.
  - rewrite H3. setoid_rewrite Hq. setoid_rewrite classify_Conflict. split.
    + intros (? & (o & ? & ->) & ? & ?). by exists o.
    + intros (o & ? & ? & ?). exists (ro_qualification o). split; [by exists o|done].
  - rewrite H4. setoid_rewrite Hq. setoid_rewrite classify_Distinct. split.
    + intros Hf o ?. apply Hf. by exists o.
    + intros Hf ? (o & ? & ->). by apply Hf.
Qed.
Lemma retry_classification_exact_witness :
  state_classify sample_state (sample_qualification 4) =
    MatchReplay (outcome_of (sample_commit 3 5 500) (sample_pending 4)) ∧
  state_classify sample_state (sample_qualification 1) = MatchFresh.
Proof.
  destruct (retry_classification_exact (sample_id 0) sample_options sample_state sample_history
    (sample_qualification 4)) as (Hr & _); [by vm_compute|apply sample_run|].
  split; [|by vm_compute]. apply Hr. split; [|done]. apply (bool_decide_unpack _). by vm_compute.
Defined.

(** C35: Within the retry horizon nothing is admitted twice: among any
    [replay_capacity + guard_capacity] outcomes that follow an outcome in the
    history, none has its series, producer and retry key again. *)
Theorem retry_admits_once store options s H i j a b :
  wf options → retry_run store options s H →
  H !! i = Some a → H !! j = Some b →
  (i < j)%nat → Z.of_nat j ≤ Z.of_nat i + replay_capacity options + guard_capacity options →
  scope (ro_qualification a) ≠ scope (ro_qualification b).
Proof.
  intros Ho Hrun Ha Hb Hij Hs. apply (retry_run_spaced _ _ _ _ Ho Hrun i j a b Ha Hb).
  apply wf_options_spec in Ho. lia.
Qed.
Lemma retry_admits_once_witness :
  scope (sample_qualification 1) ≠ scope (sample_qualification 5).
Proof.
  apply (retry_admits_once (sample_id 0) sample_options sample_state sample_history 0 4
    (outcome_of (sample_commit 1 2 200) (sample_pending 1)) (outcome_of (sample_commit 3 5 500) (sample_pending 5)));
    [by vm_compute|apply sample_run|by vm_compute|by vm_compute|lia|by vm_compute].
Defined.
Definition sample_reversed : RetryStateSnapshot :=
  mkRetryState (sample_id 0) sample_options (Some (mkRetryReference 0 4)) (reverse (st_replay sample_state)) [].
Lemma validate_state_exact_witness : state_contract sample_state ∧ ¬ state_contract sample_reversed.
Proof.
  split.
  - apply (validate_state_exact sample_state); by vm_compute.
  - intros Hc. assert (wf sample_reversed) as Hw by by vm_compute.
    assert (validate_state sample_reversed = Err RetryInvalid) as E by by vm_compute.
    pose proof (proj2 (validate_state_exact sample_reversed Hw) Hc) as Hf. rewrite E in Hf. discriminate.
Defined.
