(* ===== verification/RetryCodec.v ===== *)
(** * The retry state file

    The file codec of [och-store/src/retry.rs]: a fixed header, the outcomes and
    guards of the two tiers in the field encoding of the journal, and a trailing
    checksum. The file decodes exactly from the canonical encoding of a valid
    projection, and every valid projection fits. *)

From Stdlib Require Import Strings.String.
From S2P Require Import Prelude Bytes Identity Bounded Admission Layout Wire Fields Crc Journal Generation Commit Retry.

Definition MAX_RETRY_STATE_BYTES : Z := 2 * 1024 * 1024.
Definition RETRY_MAGIC : list byte := list_byte_of_string "OCHRET01".
Definition RETRY_VERSION : Z := 1.
Definition RETRY_HEADER_LEN : Z := 64.
Definition RETRY_CRC_LEN : Z := 4.

Definition invalid_journal (_ : JournalV1Error) : RetryStateCodecError := RetryInvalid.

Record RetryArtifactReference := mkRetryArtifact {
  ra_public : RetryStateReference;
  ra_length : Z;
  ra_checksum : Z }.
#[export] Instance RetryArtifactReference_eq_dec : EqDecision RetryArtifactReference.
Proof. solve_decision. Defined.

Definition encode_catalog_field (catalog : option GenerationCatalogReference) : Put :=
  match catalog with
  | Some catalog =>
    put_ok (put_u8 1) ;> put_ok (put_u8 (cat_slot catalog)) ;> put_ok (put_bytes (zeros 6)) ;>
    put_ok (put_u64 (cat_generation catalog)) ;> put_ok (put_u64 (cat_length catalog)) ;>
    put_ok (put_u32 (cat_checksum catalog)) ;> put_ok (put_bytes (zeros 12))
  | None => put_ok (put_bytes (zeros 40))
  end.
Definition encode_outcome (o : RetryReplayOutcome) : Put :=
  let commit := ro_committed o in
  let cutoff := mc_durable_cutoff commit in
  let retry := mc_retry_state commit in
  encode_retry (ro_qualification o) ;> put_ok (put_u64 (ro_append_sequence o)) ;>
  put_ok (put_u64 (ro_end_offset o)) ;> put_ok (put_u64 (mc_manifest_generation commit)) ;>
  put_ok (put_u8 (mc_registry_slot commit)) ;> put_ok (put_bytes (zeros 7)) ;>
  put_ok (put_u64 (mc_registry_generation commit)) ;>
  put_ok (put_u64 (journal_generation (cut_journal cutoff))) ;>
  put_ok (put_u64 (cut_checkpoint_generation cutoff)) ;> put_ok (put_u64 (cut_append_sequence cutoff)) ;>
  put_ok (put_u64 (cut_end_offset cutoff)) ;> put_ok (put_u8 (rs_slot retry)) ;>
  put_ok (put_bytes (zeros 7)) ;> put_ok (put_u64 (rs_generation retry)) ;>
  put_ok (put_u64 (mc_sequence_floor commit)) ;> encode_catalog_field (mc_catalog commit).
Definition encode_guard (g : RetryGuardEntry) : Put :=
  encode_retry (ge_qualification g) ;> put_ok (put_u64 (ge_append_sequence g)).
Definition encode_retry_payload (s : RetryStateSnapshot) : Put :=
  put_all encode_outcome (st_replay s) ;> put_all encode_guard (st_guard s).

(** The reads of one pass; every error of the pass becomes [RetryInvalid]. *)
Definition get_zeros (n : Z) : Decoder () :=
  let* bytes := take_bytes n in if all_zero bytes then ret tt else fail InvalidCanonicalData.
Definition decode_catalog_field : Decoder (option GenerationCatalogReference) :=
  let* present := get_u8 in let* slot := get_u8 in let* _ := get_zeros 6 in
  let* generation := get_u64 in let* length := get_u64 in let* checksum := get_u32 in
  let* _ := get_zeros 12 in
  if decide (present = 0 ∧ slot = 0 ∧ generation = 0 ∧ length = 0 ∧ checksum = 0) then ret None
  else if decide (present = 1 ∧ slot < 3 ∧ generation > 0 ∧ length > 0)
  then ret (Some (mkCatalogReference slot generation length checksum))
  else fail InvalidCanonicalData.
Definition decode_outcome (store_id : StoreId) : Decoder RetryReplayOutcome :=
  let* qualification := decode_retry in let* append_sequence := get_u64 in let* end_offset := get_u64 in
  let* manifest_generation := get_u64 in let* registry_slot := get_u8 in let* _ := get_zeros 7 in
  let* registry_generation := get_u64 in let* journal_generation := get_u64 in
  let* checkpoint_generation := get_u64 in let* cutoff_sequence := get_u64 in let* cutoff_end := get_u64 in
  let* retry_slot := get_u8 in let* _ := get_zeros 7 in let* retry_generation := get_u64 in
  let* sequence_floor := get_u64 in let* catalog := decode_catalog_field in
  ret (mkReplay qualification append_sequence end_offset
    (mkCommit manifest_generation registry_generation registry_slot
      (mkCutoff (mkJournalIdentity store_id journal_generation) checkpoint_generation cutoff_sequence cutoff_end)
      (mkRetryReference retry_slot retry_generation) sequence_floor catalog)).
Definition decode_guard : Decoder RetryGuardEntry :=
  let* qualification := decode_retry in let* append_sequence := get_u64 in
  ret (mkGuard qualification append_sequence).

Definition encode_retry_state_with_limit (s : RetryStateSnapshot) (maximum : Z)
  : result RetryStateCodecError (list byte) :=
  let! _ := validate_state s in
  let! reference := ok_or (st_reference s) RetryInvalid in
  let! counter := map_err invalid_journal (encode_retry_payload s encoder_counting) in
  let payload_len := encoder_len counter in
  let! total := ok_or (match checked_add usize_max RETRY_HEADER_LEN payload_len with
                       | Some length => checked_add usize_max length RETRY_CRC_LEN
                       | None => None
                       end) RetryInvalid in
  if decide (total > maximum ∨ total > MAX_RETRY_STATE_BYTES) then Err RetryInvalid
  else
    let! encoder := map_err invalid_journal (encode_retry_payload s encoder_new) in
    let payload := encoder_finish encoder in
    if decide (len payload ≠ payload_len) then Err RetryInvalid
    else if decide (replay_capacity (st_options s) > u32_max ∨ guard_capacity (st_options s) > u32_max ∨
                    len (st_replay s) > u32_max ∨ len (st_guard s) > u32_max)
    then Err RetryInvalid
    else
      let bytes := zeros (Z.to_nat total) in
      let bytes := copy_at 0 RETRY_MAGIC bytes in
      let bytes := copy_at 8 (be_bytes 2 RETRY_VERSION) bytes in
      let bytes := copy_at 10 (be_bytes 2 64) bytes in
      let bytes := copy_at 12 (into_bytes (st_store_id s)) bytes in
      let bytes := copy_at 28 (be_bytes 8 (rs_generation reference)) bytes in
      let bytes := copy_at 36 (be_bytes 4 (replay_capacity (st_options s))) bytes in
      let bytes := copy_at 40 (be_bytes 4 (guard_capacity (st_options s))) bytes in
      let bytes := copy_at 44 (be_bytes 4 (len (st_replay s))) bytes in
      let bytes := copy_at 48 (be_bytes 4 (len (st_guard s))) bytes in
      let bytes := copy_at 52 (be_bytes 8 payload_len) bytes in
      let bytes := copy_at RETRY_HEADER_LEN payload bytes in
      let checksum_offset := total - RETRY_CRC_LEN in
      Ok (copy_at checksum_offset (be_bytes 4 (crc32c (slice 0 checksum_offset bytes))) bytes).
Definition encode_retry_state (s : RetryStateSnapshot) : result RetryStateCodecError (list byte) :=
  encode_retry_state_with_limit s MAX_RETRY_STATE_BYTES.

Definition decode_retry_state_at_slot (bytes : list byte) (slot : Z) (expected_store : StoreId)
    (expected_options : RetryPersistenceOptions)
  : result RetryStateCodecError (RetryArtifactReference * RetryStateSnapshot) :=
  if decide (slot >= 3 ∨ len bytes < RETRY_HEADER_LEN + RETRY_CRC_LEN ∨ len bytes > MAX_RETRY_STATE_BYTES ∨
             slice 0 8 bytes ≠ RETRY_MAGIC ∨ u16_at 10 bytes ≠ 64 ∨ ¬ all_zero (slice 60 64 bytes))
  then Err RetryInvalid
  else if decide (u16_at 8 bytes ≠ RETRY_VERSION) then Err RetryInvalid
  else
    let checksum_offset := len bytes - RETRY_CRC_LEN in
    if decide (crc32c (slice 0 checksum_offset bytes) ≠ from_be (slice checksum_offset (len bytes) bytes))
    then Err RetryInvalid
    else
      let! store_id := map_err (λ _, RetryInvalid) (from_bytes (slice 12 28 bytes)) in
      if decide (store_id ≠ expected_store) then Err RetryStoreMismatch
      else
        let generation := u64_at 28 bytes in
        let! options := map_err (λ _, RetryInvalid) (options_new (u32_at 36 bytes) (u32_at 40 bytes)) in
        if decide (options ≠ expected_options) then Err RetryOptionsMismatch
        else
          let replay_count := u32_at 44 bytes in
          let guard_count := u32_at 48 bytes in
          let payload_len := u64_at 52 bytes in
          if decide (generation = 0 ∨ replay_count > replay_capacity options ∨
                     guard_count > guard_capacity options ∨
                     saturating_add usize_max replay_count guard_count > MAX_PERSISTED_RETRY_ENTRIES ∨
                     checked_add usize_max RETRY_HEADER_LEN payload_len ≠ Some checksum_offset)
          then Err RetryInvalid
          else
            let reference := mkRetryReference slot generation in
            let cursor := cursor_new (slice RETRY_HEADER_LEN checksum_offset bytes) in
            let! ' (replay, cursor) :=
              map_err invalid_journal (get_times (Z.to_nat replay_count) (decode_outcome store_id) cursor) in
            let! ' (guard, cursor) :=
              map_err invalid_journal (get_times (Z.to_nat guard_count) decode_guard cursor) in
            let! _ := map_err invalid_journal (cursor_finish cursor) in
            let snapshot := mkRetryState store_id options (Some reference) replay guard in
            let! _ := validate_state snapshot in
            let! encoded := encode_retry_state snapshot in
            if decide (encoded ≠ bytes) then Err RetryInvalid
            else Ok (mkRetryArtifact reference (len bytes) (crc32c bytes), snapshot).

(** ** The wire image of the payload *)

Definition catalog_field_wire (catalog : option GenerationCatalogReference) : list byte :=
  match catalog with
  | Some catalog =>
    be_bytes 1 1 ++ be_bytes 1 (cat_slot catalog) ++ zeros 6 ++ be_bytes 8 (cat_generation catalog) ++
    be_bytes 8 (cat_length catalog) ++ be_bytes 4 (cat_checksum catalog) ++ zeros 12
  | None => zeros 40
  end.
(** A catalog reference that names a slot and a non-empty file. *)
Definition catalog_field_wf : Wf (option GenerationCatalogReference) := λ c,
  wf_option c && match c with
                 | Some r => bool_decide (cat_slot r < 3 ∧ cat_generation r > 0 ∧ cat_length r > 0)
                 | None => true
                 end.

Definition outcome_wire (o : RetryReplayOutcome) : list byte :=
  let commit := ro_committed o in
  let cutoff := mc_durable_cutoff commit in
  retry_wire (ro_qualification o) ++ be_bytes 8 (ro_append_sequence o) ++ be_bytes 8 (ro_end_offset o) ++
  be_bytes 8 (mc_manifest_generation commit) ++ be_bytes 1 (mc_registry_slot commit) ++ zeros 7 ++
  be_bytes 8 (mc_registry_generation commit) ++ be_bytes 8 (journal_generation (cut_journal cutoff)) ++
  be_bytes 8 (cut_checkpoint_generation cutoff) ++ be_bytes 8 (cut_append_sequence cutoff) ++
  be_bytes 8 (cut_end_offset cutoff) ++ be_bytes 1 (rs_slot (mc_retry_state commit)) ++ zeros 7 ++
  be_bytes 8 (rs_generation (mc_retry_state commit)) ++ be_bytes 8 (mc_sequence_floor commit) ++
  catalog_field_wire (mc_catalog commit).
Definition guard_wire (g : RetryGuardEntry) : list byte :=
  retry_wire (ge_qualification g) ++ be_bytes 8 (ge_append_sequence g).

(** Outcomes of one store's journal that can be read back. *)
Definition outcome_wf (store : StoreId) : Wf RetryReplayOutcome := λ o,
  wf_outcome o && bool_decide (journal_store_id (cut_journal (mc_durable_cutoff (ro_committed o))) = store) &&
  catalog_field_wf (mc_catalog (ro_committed o)).

Lemma reads_zeros n : reads (get_zeros (Z.of_nat n)) tt (zeros n).
Proof.
  unfold get_zeros. rewrite <-(app_nil_r (zeros n)). eapply reads_and_then.
  - rewrite <-len_zeros. apply reads_take.
  - rewrite (proj1 (Is_true_true _) (all_zero_zeros n)). apply reads_ret.
Qed.
Lemma accepts_zeros n : accepts (get_zeros (Z.of_nat n)) (λ u w, u = tt ∧ w = zeros n).
Proof.
  unfold get_zeros. eapply accepts_and_then; [apply accepts_take; lia|]. intros b v [-> Hl].
  destruct (all_zero v) eqn:E; [|apply accepts_fail]. apply accepts_ret.
  rewrite app_nil_r. split; [done|]. apply Is_true_true, all_zero_spec in E. rewrite E. f_equal. unfold len in Hl. lia.
Qed.


(** Steps of a decoder with reserved ranges. *)
Ltac reads_reserved :=
  lazymatch goal with
  | |- reads (get_zeros 6) _ _ => apply (reads_zeros 6)
  | |- reads (get_zeros 7) _ _ => apply (reads_zeros 7)
  | |- reads (get_zeros 12) _ _ => apply (reads_zeros 12)
  | |- _ => reads_atom
  end.
Ltac accepts_reserved :=
  lazymatch goal with
  | |- accepts (get_zeros 6) _ => apply (accepts_zeros 6)
  | |- accepts (get_zeros 7) _ => apply (accepts_zeros 7)
  | |- accepts (get_zeros 12) _ => apply (accepts_zeros 12)
  | |- _ => accepts_atom
  end.
Ltac reads_step := cbv beta; eapply reads_and_then; [reads_reserved|].
Ltac accepts_step :=
  cbv beta; eapply accepts_and_then; [accepts_reserved|];
  let a := fresh "a" in let v := fresh "v" in let H := fresh "Hacc" in
  intros a v H; cbv beta in H; destruct_and? H; subst v.

Lemma zeros_40 :
  zeros 40 = be_bytes 1 0 ++ be_bytes 1 0 ++ zeros 6 ++ be_bytes 8 0 ++ be_bytes 8 0 ++ be_bytes 4 0 ++ zeros 12.
Proof. by vm_compute. Qed.

#[export] Instance catalog_field_codec :
  @IsCodec _ catalog_field_wf encode_catalog_field decode_catalog_field catalog_field_wire 40.
Proof.
  split.
  - intros [c|] _; unfold encode_catalog_field, catalog_field_wire; solve_writes.
  - intros c Hw. unfold decode_catalog_field. rewrite <-(app_nil_r (catalog_field_wire c)).
    destruct c as [c|]; cbn [catalog_field_wire]; [|rewrite zeros_40]; rewrite <-!app_assoc.
    + apply andb_True in Hw as [Hw (? & ? & ?)%bool_decide_unpack].
      assert (wf c) as Hc by exact Hw. wf_split Hc. do 7 reads_step.
      rewrite decide_False by lia. rewrite decide_True by lia. apply reads_ret_eq. by destruct c.
    + do 7 reads_step. apply reads_ret.
  - unfold decode_catalog_field. do 7 accepts_step.
    case_decide as Hz; [|case_decide as Hp; [|apply accepts_fail]]; apply accepts_ret; rewrite app_nil_r.
    + destruct Hz as (-> & -> & -> & -> & ->). by rewrite <-zeros_40.
    + destruct Hp as (-> & ? & ? & ?). split; [|done]. apply andb_True. split.
      * change (wf (mkCatalogReference a0 a2 a3 a4)). wf_intro; done.
      * by apply bool_decide_pack.
  - intros [c|] _; cbn [catalog_field_wire]; autorewrite with len; lia.
  - done.
Qed.

#[export] Instance guard_codec : IsCodec encode_guard decode_guard guard_wire 288.
Proof. record_codec. Qed.

#[export] Instance outcome_codec store (Hstore : wf store) :
  @IsCodec _ (outcome_wf store) encode_outcome (decode_outcome store) outcome_wire 416.
Proof.
  split.
  - intros o Hw. wf_split Hw. assert (wf o) as Ho by assumption. wf_split Ho.
    unfold encode_outcome, outcome_wire. cbv zeta. do 15 (apply writes_then; [cbv beta; writes_atom|]). cbv beta.
    by apply catalog_field_codec.
  - intros o Hw. wf_split Hw. assert (wf o) as Ho by assumption. wf_split Ho.
    assert (wf (ro_committed o)) as Hm by assumption. wf_split Hm.
    assert (wf (mc_durable_cutoff (ro_committed o))) as Hcut by assumption. wf_split Hcut.
    assert (wf (cut_journal (mc_durable_cutoff (ro_committed o)))) as Hj by assumption. wf_split Hj.
    assert (wf (mc_retry_state (ro_committed o))) as Hr by assumption. wf_split Hr.
    rewrite <-(app_nil_r (outcome_wire o)). unfold decode_outcome, outcome_wire. cbv zeta. rewrite <-!app_assoc.
    do 15 reads_step. cbv beta. eapply reads_and_then; [apply catalog_field_codec; assumption|]. apply reads_ret_eq.
    subst store. by destruct o as [? ? ? [? ? ? [[] ? ? ?] [] ? ?]].
  - unfold decode_outcome. do 15 accepts_step. cbv beta.
    eapply accepts_and_then; [apply catalog_field_codec|]. intros a14 v [Hcf ->]. apply accepts_ret. rewrite app_nil_r.
    assert (wf a14) as Hcat by (by apply andb_True in Hcf as [? _]).
    split; [|done]. wf_intro; [|by apply bool_decide_pack|done].
    change (Is_true (wf (mkReplay a a0 a1 (mkCommit a2 a5 a3
      (mkCutoff (mkJournalIdentity store a6) a7 a8 a9) (mkRetryReference a10 a12) a13 a14)))).
    repeat (wf_intro; cbn [ro_qualification ro_append_sequence ro_end_offset ro_committed mc_manifest_generation
      mc_registry_generation mc_registry_slot mc_durable_cutoff mc_retry_state mc_sequence_floor mc_catalog
      cut_journal cut_checkpoint_generation cut_append_sequence cut_end_offset journal_store_id journal_generation
      rs_slot rs_generation]; try done).
  - intros o Hw. wf_split Hw. assert (wf o) as Ho by assumption. wf_split Ho. unfold outcome_wire. cbv zeta.
    pose proof (codec_len (IsCodec := retry_codec) (ro_qualification o) ltac:(assumption)).
    pose proof (codec_len (IsCodec := catalog_field_codec) (mc_catalog (ro_committed o)) ltac:(assumption)).
    autorewrite with len. lia.
  - done.
Qed.

(** ** The layout of the file *)

Section layout.
Context (s : RetryStateSnapshot) (reference : RetryStateReference).

Definition retry_payload_wire : list byte :=
  concat (outcome_wire <$> st_replay s) ++ concat (guard_wire <$> st_guard s).
Definition retry_header_fields : list (list byte) :=
  [RETRY_MAGIC; be_bytes 2 RETRY_VERSION; be_bytes 2 64; into_bytes (st_store_id s);
   be_bytes 8 (rs_generation reference); be_bytes 4 (replay_capacity (st_options s));
   be_bytes 4 (guard_capacity (st_options s)); be_bytes 4 (len (st_replay s)); be_bytes 4 (len (st_guard s));
   be_bytes 8 (len retry_payload_wire); zeros 4].
Definition retry_covered : list byte := concat retry_header_fields ++ retry_payload_wire.
Definition retry_file_wire : list byte := retry_covered ++ be_bytes 4 (crc32c retry_covered).
End layout.

(** Outcomes and guards that the file can carry. *)
Record state_storable (s : RetryStateSnapshot) : Prop := {
  ss_wf : wf s;
  ss_replay : Forall (λ o, Is_true (outcome_wf (st_store_id s) o)) (st_replay s) }.

Lemma retry_payload_writes s : state_storable s → writes (encode_retry_payload s) (retry_payload_wire s).
Proof.
  intros [Hw Hr]. pose proof (wf_tiers _ Hw) as [_ Hg]. wf_split Hw. unfold encode_retry_payload, retry_payload_wire.
  apply writes_then; apply writes_all.
  - eapply Forall_impl; [exact Hr|]. apply (codec_writes (IsCodec := outcome_codec (st_store_id s) ltac:(assumption))).
  - eapply Forall_impl; [exact Hg|]. apply codec_writes.
Qed.

Lemma len_concat_map {A} (w : A → list byte) (P : A → Prop) n l :
  (∀ a, P a → len (w a) ≤ n) → Forall P l → len (concat (w <$> l)) ≤ n * len l.
Proof.
  intros Hn Hf. induction Hf as [|a l Ha _ IH]; [cbn; unfold len; cbn; lia|].
  rewrite fmap_cons. cbn [concat]. rewrite len_app, len_cons. specialize (Hn a Ha). lia.
Qed.

Lemma len_retry_payload s :
  state_storable s → len (st_replay s) + len (st_guard s) ≤ MAX_PERSISTED_RETRY_ENTRIES →
  len (retry_payload_wire s) ≤ 416 * MAX_PERSISTED_RETRY_ENTRIES.
Proof.
  intros [Hw Hr] Hb. pose proof (wf_tiers _ Hw) as [_ Hg]. wf_split Hw. unfold retry_payload_wire. rewrite len_app.
  pose proof (len_concat_map outcome_wire _ 416 _
    (codec_len (IsCodec := outcome_codec (st_store_id s) ltac:(assumption))) Hr).
  pose proof (len_concat_map guard_wire _ 288 _ (codec_len (IsCodec := guard_codec)) Hg).
  pose proof (len_nonneg (st_guard s)). lia.
Qed.

Lemma len_retry_magic : len RETRY_MAGIC = 8.
Proof. by vm_compute. Qed.
#[export] Hint Rewrite len_retry_magic : len.
Lemma len_retry_header s r : wf (st_store_id s) → len (concat (retry_header_fields s r)) = 64.
Proof.
  intros Hs%len_into_bytes. unfold retry_header_fields. cbn [concat]. autorewrite with len.
  rewrite Hs. done.
Qed.

(** The header fields are written into a zeroed buffer in order. *)
Lemma retry_body_layout s r :
  wf (st_store_id s) →
  let payload := retry_payload_wire s in
  let bytes := copy_at 0 RETRY_MAGIC (zeros (Z.to_nat (64 + len payload + 4))) in
  let bytes := copy_at 8 (be_bytes 2 RETRY_VERSION) bytes in
  let bytes := copy_at 10 (be_bytes 2 64) bytes in
  let bytes := copy_at 12 (into_bytes (st_store_id s)) bytes in
  let bytes := copy_at 28 (be_bytes 8 (rs_generation r)) bytes in
  let bytes := copy_at 36 (be_bytes 4 (replay_capacity (st_options s))) bytes in
  let bytes := copy_at 40 (be_bytes 4 (guard_capacity (st_options s))) bytes in
  let bytes := copy_at 44 (be_bytes 4 (len (st_replay s))) bytes in
  let bytes := copy_at 48 (be_bytes 4 (len (st_guard s))) bytes in
  let bytes := copy_at 52 (be_bytes 8 (len payload)) bytes in
  copy_at 64 payload bytes = retry_covered s r ++ zeros (Z.to_nat 4).
Proof.
  intros Hs. unfold retry_covered, retry_header_fields. cbv zeta. generalize (retry_payload_wire s). intros payload.
  pose proof (len_nonneg payload). apply len_into_bytes in Hs.
  rewrite <-(app_nil_l (zeros (Z.to_nat (64 + len payload + 4)))).
  rewrite copy_at_next by (rewrite ?len_retry_magic; done || lia). rewrite app_nil_l, len_retry_magic.
  do 2 fill. rewrite copy_at_next by (autorewrite with len; lia). rewrite Hs.
  do 6 (rewrite copy_at_next by (autorewrite with len; rewrite ?Hs; lia); rewrite len_be_bytes).
  match goal with |- copy_at _ _ (_ ++ zeros (Z.to_nat ?n)) = _ => replace n with (4 + (len payload + 4)) by lia end.
  rewrite zeros_split, app_assoc by lia. change (zeros (Z.to_nat 4)) with (zeros 4) at 1.
  rewrite copy_at_next by (autorewrite with len; rewrite ?Hs; lia).
  replace (len payload + 4 - len payload) with 4 by lia. f_equal.
  cbn [concat]. rewrite app_nil_r, <-!app_assoc. reflexivity.
Qed.

(** [validate_state] bounds both tiers. *)
Lemma validate_bounds s :
  validate_state s = Ok tt →
  len (st_replay s) ≤ replay_capacity (st_options s) ∧ len (st_guard s) ≤ guard_capacity (st_options s) ∧
  len (st_replay s) + len (st_guard s) ≤ MAX_PERSISTED_RETRY_ENTRIES.
Proof.
  unfold validate_state. rewrite guard_Ok. intros [Hb _].
  assert (MAX_PERSISTED_RETRY_ENTRIES < usize_max) as Hm by done. revert Hb Hm. unfold saturating_add.
  generalize MAX_PERSISTED_RETRY_ENTRIES usize_max. lia.
Qed.

(** The encoder writes exactly the layout, and never runs out of room. *)
Lemma encode_retry_Ok s bytes :
  state_storable s →
  encode_retry_state s = Ok bytes ↔
  validate_state s = Ok tt ∧ ∃ r, st_reference s = Some r ∧ bytes = retry_file_wire s r.
Proof.
  intros Hst. unfold encode_retry_state, encode_retry_state_with_limit. rewrite let_ok_iff, ok_or_Ok.
  destruct (validate_state s) as [[]|] eqn:Hv; [|naive_solver]. apply validate_bounds in Hv as (Hbr & Hbg & Hb).
  pose proof (len_retry_payload s Hst Hb) as Hl. pose proof (retry_payload_writes s Hst) as Hp.
  pose proof (ss_wf _ Hst) as Hw. wf_split Hw. assert (wf (st_options s)) as Ho by assumption.
  apply wf_options_spec in Ho as (? & ? & ?). f_equiv. f_equiv. intros r. f_equiv.
  pose proof (len_nonneg (retry_payload_wire s)). pose proof (len_nonneg (st_replay s)). pose proof (len_nonneg (st_guard s)).
  unfold MAX_PERSISTED_RETRY_ENTRIES in *.
  rewrite Hp by done. cbn [map_err]. rewrite put_bytes_counting by (unfold usize_max, u64_max; lia).
  unfold RETRY_HEADER_LEN, RETRY_CRC_LEN.
  do 2 (rewrite checked_add_ok by (unfold usize_max, u64_max; lia)). cbn [ok_or].
  rewrite decide_False by (unfold MAX_RETRY_STATE_BYTES; lia).
  rewrite Hp by done. cbn [map_err]. rewrite put_bytes_nil_new. cbn [encoder_finish output].
  rewrite decide_False by tauto. rewrite decide_False by (unfold u32_max; lia).
  cbv zeta. rewrite retry_body_layout by assumption.
  assert (len (retry_covered s r) = 64 + len (retry_payload_wire s)) as Hc.
  { unfold retry_covered. rewrite len_app, len_retry_header by assumption. done. }
  replace (64 + len (retry_payload_wire s) + 4 - 4) with (len (retry_covered s r)) by lia.
  rewrite slice_app_0 by done. rewrite copy_at_next by (rewrite ?len_be_bytes; lia).
  rewrite len_be_bytes, app_nil_r. unfold retry_file_wire. naive_solver.
Qed.

(** ** Reading the file back *)

(** A number read from a range of the buffer fits its width. *)
Lemma u32_at_range a bytes : 0 ≤ a → is_u32 (u32_at a bytes).
Proof.
  intros Ha. unfold u32_at. rewrite in_range_spec. pose proof (from_be_range (slice a (a + 4) bytes)) as Hr.
  assert (len (slice a (a + 4) bytes) ≤ 4) by (unfold len, slice; rewrite length_take; lia).
  pose proof (Z.pow_le_mono_r 256 (len (slice a (a + 4) bytes)) 4 ltac:(lia) ltac:(lia)). unfold u32_max. lia.
Qed.
Lemma u64_at_range a bytes : 0 ≤ a → is_u64 (u64_at a bytes).
Proof.
  intros Ha. unfold u64_at. rewrite in_range_spec. pose proof (from_be_range (slice a (a + 8) bytes)) as Hr.
  assert (len (slice a (a + 8) bytes) ≤ 8) by (unfold len, slice; rewrite length_take; lia).
  pose proof (Z.pow_le_mono_r 256 (len (slice a (a + 8) bytes)) 8 ltac:(lia) ltac:(lia)). unfold u64_max. lia.
Qed.

(** The payload holds the two tiers and nothing else. *)
Lemma read_tiers_accepts store n m payload os gs c c' :
  wf store →
  get_times n (decode_outcome store) (cursor_new payload) = Ok (os, c) → get_times m decode_guard c = Ok (gs, c') →
  Forall (λ o, Is_true (outcome_wf store o)) os ∧ Forall (λ g : RetryGuardEntry, Is_true (wf g)) gs.
Proof.
  intros Hs Hos Hgs.
  apply (accepts_times _ _ _ n (codec_accepts (IsCodec := outcome_codec store Hs)) [] payload)
    in Hos as (w & post & -> & -> & _ & Hos & _).
  by apply (accepts_times _ _ _ m (codec_accepts (IsCodec := guard_codec)) w post)
    in Hgs as (w' & post' & _ & _ & _ & Hgs & _).
Qed.

Lemma read_tiers_reads store os gs :
  wf store → Forall (λ o, Is_true (outcome_wf store o)) os → Forall (λ g : RetryGuardEntry, Is_true (wf g)) gs →
  let payload := concat (outcome_wire <$> os) ++ concat (guard_wire <$> gs) in
  len payload ≤ usize_max →
  let c := mkCursor payload (len (concat (outcome_wire <$> os))) in
  get_times (length os) (decode_outcome store) (cursor_new payload) = Ok (os, c) ∧
  get_times (length gs) decode_guard c = Ok (gs, mkCursor payload (len payload)).
Proof.
  intros Hs Ho Hg payload Hl c. split.
  - assert (reads (get_times (length os) (decode_outcome store)) os (concat (outcome_wire <$> os))) as Hr.
    { apply reads_times. eapply Forall_impl; [exact Ho|]. apply (codec_reads (IsCodec := outcome_codec store Hs)). }
    by apply (Hr [] (concat (guard_wire <$> gs))).
  - assert (reads (get_times (length gs) decode_guard) gs (concat (guard_wire <$> gs))) as Hr.
    { apply reads_times. eapply Forall_impl; [exact Hg|]. apply codec_reads. }
    specialize (Hr (concat (outcome_wire <$> os)) []). rewrite app_nil_r in Hr. unfold c, payload in *.
    rewrite Hr by done. by rewrite len_app.
Qed.

Lemma options_new_Ok r g o :
  options_new r g = Ok o ↔ o = mkOptions r g ∧ r ≠ 0 ∧ g ≠ 0 ∧ r + g ≤ MAX_PERSISTED_RETRY_ENTRIES ∧
    r ≤ MAX_PERSISTED_RETRY_ENTRIES.
Proof. unfold options_new. rewrite guard_Ok. naive_solver lia. Qed.

(** What a decoded file tells. *)
Definition decoded_state (bytes : list byte) (slot : Z) (store : StoreId) (options : RetryPersistenceOptions)
    (ra : RetryArtifactReference) (s : RetryStateSnapshot) : Prop :=
  state_storable s ∧ st_store_id s = store ∧ st_options s = options ∧
  (∃ r, st_reference s = Some r ∧ rs_slot r = slot ∧ ra = mkRetryArtifact r (len bytes) (crc32c bytes)) ∧
  encode_retry_state s = Ok bytes.

Lemma decode_retry_sound bytes slot store options ra s :
  is_u8 slot → decode_retry_state_at_slot bytes slot store options = Ok (ra, s) →
  decoded_state bytes slot store options ra s.
Proof.
  intros Hslot. unfold decode_retry_state_at_slot. cbv zeta. rewrite !guard_Ok, map_err_Ok.
  intros (Hpre & _ & _ & sid & Hid & Hr). rewrite guard_Ok, map_err_Ok in Hr.
  destruct Hr as (Hst & o & Ho & Hr). rewrite !guard_Ok, map_err_Ok in Hr.
  destruct Hr as (Hopt & Hcnt & [os c] & Hos & Hr). rewrite map_err_Ok in Hr. destruct Hr as ([gs c'] & Hgs & Hr).
  rewrite map_err_Ok in Hr. destruct Hr as ([] & _ & Hr). rewrite let_ok_iff, let_Ok in Hr.
  destruct Hr as (_ & enc & Henc & Hr). rewrite guard_Ok in Hr. destruct Hr as (Hb & [= <- <-]).
  assert (sid = store) as -> by not_refused. assert (o = options) as -> by not_refused.
  assert (enc = bytes) as -> by not_refused.
  apply from_bytes_wf in Hid as [Hs _]; [|pose proof (len_slice 12 28 bytes);
    unfold RETRY_HEADER_LEN, RETRY_CRC_LEN, len in *; lia].
  pose proof (read_tiers_accepts _ _ _ _ _ _ _ _ Hs Hos Hgs) as [Hwo Hwg].
  apply options_new_Ok in Ho as (-> & Ho).
  pose proof (u32_at_range 36 bytes ltac:(lia)) as H36%in_range_spec.
  pose proof (u32_at_range 40 bytes ltac:(lia)) as H40%in_range_spec.
  split; [|split_and!; try done; by eexists].
  split; cbn [st_store_id st_replay]; [|done].
  wf_intro; cbn [st_store_id st_options st_reference st_replay st_guard].
  - done.
  - apply wf_options_spec. cbn [replay_capacity guard_capacity]. lia.
  - change (Is_true (wf (mkRetryReference slot (u64_at 28 bytes)))). wf_intro; [done|by apply u64_at_range].
  - apply wf_list_Forall. eapply Forall_impl; [exact Hwo|]. intros x Hx. by apply andb_True in Hx as [[? _]%andb_True _].
  - by apply wf_list_Forall.
Qed.

(** The header fields at their offsets. *)
Lemma retry_header_slices s r post :
  wf (st_store_id s) →
  let bytes := concat (retry_header_fields s r) ++ post in
  slice 0 8 bytes = RETRY_MAGIC ∧ slice 8 (8 + 2) bytes = be_bytes 2 RETRY_VERSION ∧
  slice 10 (10 + 2) bytes = be_bytes 2 64 ∧ slice 12 28 bytes = into_bytes (st_store_id s) ∧
  slice 28 (28 + 8) bytes = be_bytes 8 (rs_generation r) ∧
  slice 36 (36 + 4) bytes = be_bytes 4 (replay_capacity (st_options s)) ∧
  slice 40 (40 + 4) bytes = be_bytes 4 (guard_capacity (st_options s)) ∧
  slice 44 (44 + 4) bytes = be_bytes 4 (len (st_replay s)) ∧
  slice 48 (48 + 4) bytes = be_bytes 4 (len (st_guard s)) ∧
  slice 52 (52 + 8) bytes = be_bytes 8 (len (retry_payload_wire s)) ∧ slice 60 64 bytes = zeros 4.
Proof.
  intros Hs%len_into_bytes bytes.
  assert (∀ k f a b, retry_header_fields s r !! k = Some f →
    a = fields_len (take k (retry_header_fields s r)) → b = a + len f → slice a b bytes = f) as Hf.
  { intros k f a b Hk Ha ->. unfold bytes. rewrite <-(app_nil_l (concat _ ++ post)), <-(Z.add_0_l a).
    by apply (slice_field_at _ k). }
  unfold retry_header_fields, fields_len in Hf.
  split_and!; [apply (Hf 0%nat)|apply (Hf 1%nat)|apply (Hf 2%nat)|apply (Hf 3%nat)|apply (Hf 4%nat)
    |apply (Hf 5%nat)|apply (Hf 6%nat)|apply (Hf 7%nat)|apply (Hf 8%nat)|apply (Hf 9%nat)|apply (Hf 10%nat)];
    try done; cbn [take concat]; autorewrite with len; rewrite ?Hs; done.
Qed.

Lemma validate_reference s r :
  validate_state s = Ok tt → st_reference s = Some r → rs_slot r < 3 ∧ rs_generation r ≠ 0.
Proof.
  unfold validate_state. rewrite guard_Ok, guardb_Ok, is_some_and_false. intros (_ & Hr & _) E.
  specialize (Hr r E). apply bool_decide_eq_false in Hr. lia.
Qed.

(** The last step of the decoder, once the header is read. *)
Lemma retry_payload_slice s r :
  wf (st_store_id s) →
  slice 64 (len (retry_file_wire s r) - 4) (retry_file_wire s r) = retry_payload_wire s.
Proof.
  intros Hs. unfold retry_file_wire, retry_covered. rewrite <-app_assoc.
  apply slice_app; autorewrite with len; rewrite len_retry_header by done; lia.
Qed.

Lemma decode_retry_complete bytes slot store options ra s :
  decoded_state bytes slot store options ra s →
  decode_retry_state_at_slot bytes slot store options = Ok (ra, s).
Proof.
  intros (Hst & <- & <- & (r & Hr & <- & ->) & Henc). pose proof Henc as Hwire.
  apply encode_retry_Ok in Hwire as (Hv & r' & Hr' & E); [|done]. rewrite Hr in Hr'. injection Hr' as <-.
  pose proof (validate_bounds s Hv) as (Hbr & Hbg & Hb). pose proof (len_retry_payload s Hst Hb) as Hl.
  pose proof (validate_reference s r Hv Hr) as [Hslot Hgen].
  pose proof (ss_wf _ Hst) as Hw. pose proof (ss_replay _ Hst) as Hwr. pose proof (wf_tiers s Hw) as [_ Hwg].
  wf_split Hw. assert (wf (st_store_id s)) as Hs by assumption. assert (wf (st_options s)) as Ho by assumption.
  assert (wf r) as Hwr' by (by rewrite Hr in *). wf_fields Hwr'. apply wf_options_spec in Ho as (Ho1 & Ho2 & Ho3).
  pose proof (len_nonneg (st_replay s)). pose proof (len_nonneg (st_guard s)). pose proof (len_nonneg (retry_payload_wire s)).
  destruct (slice_trailer (retry_covered s r) (be_bytes 4 (crc32c (retry_covered s r))) 4) as [Hcov Hcrc];
    [apply len_be_bytes|]. pose proof (retry_payload_slice s r Hs) as Hp.
  destruct (retry_header_slices s r (retry_payload_wire s ++ be_bytes 4 (crc32c (retry_covered s r))) Hs)
    as (G0 & G8 & G10 & G12 & G28 & G36 & G40 & G44 & G48 & G52 & G60).
  rewrite app_assoc in *. fold (retry_covered s r) (retry_file_wire s r) in *. rewrite <-E in *.
  assert (len bytes = 64 + len (retry_payload_wire s) + 4) as Hlen.
  { rewrite E. unfold retry_file_wire, retry_covered. autorewrite with len. rewrite len_retry_header by done. lia. }
  unfold MAX_PERSISTED_RETRY_ENTRIES in *.
  unfold decode_retry_state_at_slot, u16_at, u32_at, u64_at, RETRY_HEADER_LEN, RETRY_CRC_LEN, RETRY_VERSION.
  rewrite G0, G8, G10, G12, G28, G36, G40, G44, G48, G52, G60, Hcov, Hcrc, Hp. cbv zeta. unfold RETRY_VERSION.
  pose proof (crc32c_range (retry_covered s r)) as Hcr%in_range_spec. unfold u32_max, u64_max in *.
  rewrite !from_be_bytes_small by lia.
  rewrite decide_False by (pose proof (all_zero_zeros 4); unfold MAX_RETRY_STATE_BYTES;
    intros [?|[?|[?|[?|[?|?]]]]]; try done; lia).
  rewrite !decide_False by tauto. rewrite from_bytes_into by done. cbn [map_err]. rewrite decide_False by tauto.
  assert (options_new (replay_capacity (st_options s)) (guard_capacity (st_options s)) = Ok (st_options s)) as ->.
  { apply options_new_Ok. unfold MAX_PERSISTED_RETRY_ENTRIES. split; [by destruct (st_options s)|lia]. }
  cbn [map_err]. rewrite decide_False by tauto.
  rewrite checked_add_ok by (unfold usize_max, u64_max; lia).
  rewrite decide_False by (unfold saturating_add, MAX_PERSISTED_RETRY_ENTRIES;
    intros [?|[?|[?|[?|Hne]]]]; try lia; apply Hne; f_equal; lia).
  destruct (read_tiers_reads _ _ _ Hs Hwr Hwg) as [Eo Eg];
    [fold (retry_payload_wire s); unfold usize_max, u64_max; lia|]. fold (retry_payload_wire s) in Eo, Eg.
  unfold len at 1 2. rewrite !Nat2Z.id, Eo. cbn [map_err]. rewrite Eg. cbn [map_err]. unfold cursor_finish.
  cbn [cur_offset cur_bytes]. rewrite decide_True by done. cbn [map_err].
  assert (mkRetryState (st_store_id s) (st_options s) (Some (mkRetryReference (rs_slot r) (rs_generation r)))
    (st_replay s) (st_guard s) = s) as ->.
  { destruct s, r. cbn in *. by rewrite Hr. }
  rewrite Hv, Henc. rewrite decide_False by tauto. by destruct r.
Qed.

(** ** Properties *)

(** C36: The retry state file codec is exact: bytes decode for a slot, store and
    options exactly when they are the canonical encoding of a valid projection
    of that store with these options, whose reference names the slot; the
    artifact carries the length and checksum of the bytes. *)
Theorem retry_codec_exact bytes slot store options ra s :
  is_u8 slot →
  decode_retry_state_at_slot bytes slot store options = Ok (ra, s) ↔
  state_storable s ∧ st_store_id s = store ∧ st_options s = options ∧
  (∃ r, st_reference s = Some r ∧ rs_slot r = slot ∧ ra = mkRetryArtifact r (len bytes) (crc32c bytes)) ∧
  encode_retry_state s = Ok bytes.
Proof. intros Hslot. split; [by apply decode_retry_sound|apply decode_retry_complete]. Qed.

Definition sample_retry_file : list byte :=
  match encode_retry_state sample_state with Ok bytes => bytes | Err _ => [] end.
Lemma retry_codec_exact_witness :
  encode_retry_state sample_state = Ok sample_retry_file ∧ st_options sample_state = sample_options.
Proof.
  assert (decode_retry_state_at_slot sample_retry_file 0 (sample_id 0) sample_options =
    Ok (mkRetryArtifact (mkRetryReference 0 4) (len sample_retry_file) (crc32c sample_retry_file), sample_state)) as E.
  { by vm_compute. }
  apply (retry_codec_exact sample_retry_file 0) in E; [|by vm_compute]. destruct E as (_ & _ & Eo & _ & Ee). by split.
Defined.

(** C40: Every valid projection can be stored: with tiers within the bound of 4096
    entries, its file never exceeds 1,704,004 bytes and so stays below
    [MAX_RETRY_STATE_BYTES], and encoding it always succeeds. *)
Theorem retry_state_always_fits s r :
  state_storable s → validate_state s = Ok tt → st_reference s = Some r →
  ∃ bytes, encode_retry_state s = Ok bytes ∧ len bytes ≤ 68 + 416 * MAX_PERSISTED_RETRY_ENTRIES ∧
    len bytes < MAX_RETRY_STATE_BYTES.
Proof.
  intros Hst Hv Hr. exists (retry_file_wire s r).
  pose proof (validate_bounds s Hv) as (_ & _ & Hb). pose proof (len_retry_payload s Hst Hb) as Hl.
  pose proof (ss_wf _ Hst) as Hw. wf_split Hw. split; [apply encode_retry_Ok; [done|]; split; [done|]; by exists r|].
  unfold retry_file_wire, retry_covered. autorewrite with len. rewrite len_retry_header by assumption.
  unfold MAX_PERSISTED_RETRY_ENTRIES, MAX_RETRY_STATE_BYTES in *. lia.
Qed.
Lemma retry_state_always_fits_witness :
  state_storable sample_state ∧
  ∃ bytes, encode_retry_state sample_state = Ok bytes ∧ len bytes ≤ 68 + 416 * MAX_PERSISTED_RETRY_ENTRIES ∧
    len bytes < MAX_RETRY_STATE_BYTES.
Proof.
  assert (state_storable sample_state) as Hst.
  { split; [by vm_compute|]. apply (bool_decide_unpack _). by vm_compute. }
  split; [exact Hst|].
  apply (retry_state_always_fits sample_state (mkRetryReference 0 4) Hst); by vm_compute.
Defined.
