(* ===== verification/Latest.v ===== *)
(** * Volatile latest values

    [och-runtime/src/latest.rs]: the bounded registry of the latest positioned
    observation per series, its copy-on-write snapshots, and the three steps of a
    publication (plan, stage, commit). A publication is proved to be one atomic
    update of an abstract map, whatever happens between the steps. *)

From S2P Require Import Prelude Identity Value.

Definition MAX_PUBLISHED_SERIES : Z := 16.

(** ** Data *)

Record PublishedObservation := mkPublished {
  pub_series : SeriesMetadata;
  pub_observation : Observation;
  pub_position : ProducerPosition }.
#[export] Instance PublishedObservation_eq_dec : EqDecision PublishedObservation.
Proof. solve_decision. Defined.
Definition pub_id (p : PublishedObservation) : SeriesId := meta_series_id (pub_series p).

(** [snap_arc] is the identity of the [Arc] allocation that holds the entries:
    what [Arc::ptr_eq] compares. *)
Record LatestSnapshot := mkSnapshot {
  snap_store_id : StoreId;
  snap_entries : list PublishedObservation;
  snap_arc : nat }.
#[export] Instance LatestSnapshot_eq_dec : EqDecision LatestSnapshot.
Proof. solve_decision. Defined.

Definition snapshot_empty (arc : nat) (store_id : StoreId) : LatestSnapshot := mkSnapshot store_id [] arc.
Definition from_entries (arc : nat) (store_id : StoreId) (entries : list PublishedObservation) : LatestSnapshot :=
  mkSnapshot store_id entries arc.
Definition shares_entries_with (self other : LatestSnapshot) : bool :=
  bool_decide (snap_store_id self = snap_store_id other ∧ snap_arc self = snap_arc other).
(** [entries.iter().find(..)] on the series identity, with its index. *)
Definition find_series (entries : list PublishedObservation) (series_id : SeriesId)
  : option (nat * PublishedObservation) := list_find (λ entry, pub_id entry = series_id) entries.
Definition snapshot_get (s : LatestSnapshot) (series_id : SeriesId) : option PublishedObservation :=
  snd <$> find_series (snap_entries s) series_id.

Record LatestState := mkLatest { ls_current : option LatestSnapshot; ls_sealed : bool }.

Inductive PublicationFault : Set := PublicationFaulted.
Record PlannedAdvance := mkAdvance {
  pa_base : LatestSnapshot;
  pa_index : option nat;
  pa_candidate : PublishedObservation }.
Inductive PublicationPlan := PlanNoChange | PlanAdvance (advance : PlannedAdvance).
Inductive PreparedPublication := PreparedNoChange | PreparedAdvance (base next : LatestSnapshot).

(** ** Operations *)

Definition latest_new (arc : nat) (store_id : StoreId) : LatestState :=
  mkLatest (Some (snapshot_empty arc store_id)) false.
Definition latest_snapshot (s : LatestState) : option LatestSnapshot := ls_current s.

Definition plan (s : LatestState) (candidate : option PublishedObservation)
  : result PublicationFault PublicationPlan :=
  match (if ls_sealed s then None else ls_current s) with
  | None => Err PublicationFaulted
  | Some current =>
    match candidate with
    | None => Ok PlanNoChange
    | Some candidate =>
      match find_series (snap_entries current) (pub_id candidate) with
      | Some (index, published) =>
        if decide (pub_series published ≠ pub_series candidate) then Err PublicationFaulted
        else if decide (pos_lt (pub_position published) (pub_position candidate))
        then Ok (PlanAdvance (mkAdvance current (Some index) candidate))
        else if decide (pos_lt (pub_position candidate) (pub_position published)) then Ok PlanNoChange
        else if decide (pub_observation candidate = pub_observation published) then Ok PlanNoChange
        else Err PublicationFaulted
      | None =>
        if decide (len (snap_entries current) >= MAX_PUBLISHED_SERIES) then Err PublicationFaulted
        else Ok (PlanAdvance (mkAdvance current None candidate))
      end
    end
  end.

(** [PublicationPlan::stage] copies the entries into a new allocation. *)
Definition stage (arc : nat) (p : PublicationPlan) : PreparedPublication :=
  match p with
  | PlanNoChange => PreparedNoChange
  | PlanAdvance (mkAdvance base index candidate) =>
    let entries := match index with
                   | Some index => <[index := candidate]> (snap_entries base)
                   | None => snap_entries base ++ [candidate]
                   end in
    PreparedAdvance base (from_entries arc (snap_store_id base) entries)
  end.

Definition can_complete (s : LatestState) (preparation : PreparedPublication) : bool :=
  match ls_current s with
  | None => false
  | Some current =>
    if ls_sealed s then false
    else match preparation with
         | PreparedNoChange => true
         | PreparedAdvance base _ => shares_entries_with current base
         end
  end.

Definition commit (s : LatestState) (preparation : PreparedPublication) : LatestState :=
  match preparation with
  | PreparedAdvance _ next => mkLatest (Some next) (ls_sealed s)
  | PreparedNoChange => s
  end.

Definition seal (s : LatestState) : bool * LatestState :=
  if decide (ls_current s = None ∨ ls_sealed s = true) then (false, s)
  else (true, mkLatest (ls_current s) true).
Definition make_unavailable (s : LatestState) : LatestState := mkLatest None true.

(** ** The abstract registry *)

Abbreviation registry := (SeriesId → option PublishedObservation).

(** Which published observation a candidate leaves behind: [None] refuses. *)
Definition supersede (published : option PublishedObservation) (candidate : PublishedObservation)
  : option PublishedObservation :=
  match published with
  | None => Some candidate
  | Some published =>
    if decide (pub_series published ≠ pub_series candidate) then None
    else if decide (pos_lt (pub_position published) (pub_position candidate)) then Some candidate
    else if decide (pub_position published = pub_position candidate ∧
                    pub_observation published ≠ pub_observation candidate) then None
    else Some published
  end.

(** ** Invariant *)

Record snapshot_ok (s : LatestSnapshot) : Prop := {
  so_bound : len (snap_entries s) ≤ MAX_PUBLISHED_SERIES;
  so_unique : NoDup (pub_id <$> snap_entries s) }.

Lemma find_series_Some entries id i p :
  NoDup (pub_id <$> entries) →
  find_series entries id = Some (i, p) ↔ entries !! i = Some p ∧ pub_id p = id.
Proof.
  intros Hn. unfold find_series. rewrite list_find_Some. split; [tauto|]. intros [Hi Hp]. split_and!; try done.
  intros j q Hj Hlt Hq. assert (j = i); [|lia]. eapply (NoDup_lookup (pub_id <$> entries)); [done| |];
    rewrite list_lookup_fmap; [by rewrite Hj|rewrite Hi; cbn; by rewrite Hp, Hq].
Qed.
Lemma find_series_None entries id : find_series entries id = None ↔ ∀ p, p ∈ entries → pub_id p ≠ id.
Proof. unfold find_series. by rewrite list_find_None, Forall_forall. Qed.

Lemma get_Some s id p :
  snapshot_ok s → snapshot_get s id = Some p ↔ p ∈ snap_entries s ∧ pub_id p = id.
Proof.
  intros [_ Hn]. unfold snapshot_get. rewrite fmap_Some. split.
  - intros ([i q] & Hf & ->). apply find_series_Some in Hf as [Hi ?]; [|done].
    split; [by eapply list_elem_of_lookup_2|done].
  - intros [Hp Hid]. apply list_elem_of_lookup in Hp as [i Hi]. exists (i, p).
    split; [by apply find_series_Some|done].
Qed.
Lemma get_None s id : snapshot_get s id = None ↔ ∀ p, p ∈ snap_entries s → pub_id p ≠ id.
Proof. unfold snapshot_get. by rewrite fmap_None, find_series_None. Qed.

Lemma option_ext {A} (o o' : option A) : (∀ x, o = Some x ↔ o' = Some x) → o = o'.
Proof. intros H. destruct o as [x|]; [symmetry; by apply H|]. destruct o' as [x|]; [by apply H|done]. Qed.

(** ** Positions are totally ordered *)

Lemma pos_lt_irrefl a : ¬ pos_lt a a.
Proof. unfold pos_lt, number_lt. intros [?|[_ ?]]; lia. Qed.
Lemma pos_lt_trans a b c : pos_lt a b → pos_lt b c → pos_lt a c.
Proof.
  unfold pos_lt, number_lt. intros [?|[E ?]] [?|[E' ?]]; rewrite ?E, <-?E' in *; [left; lia|by left|by left|].
  right. split; [congruence|lia].
Qed.
Lemma pos_lt_total a b : pos_lt a b ∨ a = b ∨ pos_lt b a.
Proof.
  destruct a as [[e] [s]], b as [[e'] [s']]. unfold pos_lt, number_lt. cbn.
  destruct (Z.lt_trichotomy e e') as [?|[->|?]]; [auto| |auto].
  destruct (Z.lt_trichotomy s s') as [?|[->|?]]; auto.
Qed.

(** What [supersede] keeps: the metadata, and a position that never goes back. *)
Lemma supersede_Some p c q :
  supersede (Some p) c = Some q →
  pub_series p = pub_series c ∧
  ((q = c ∧ pos_lt (pub_position p) (pub_position c)) ∨
   (q = p ∧ ¬ pos_lt (pub_position p) (pub_position c) ∧
    (pub_position p = pub_position c → pub_observation p = pub_observation c))).
Proof.
  unfold supersede. case_decide as Hs; [done|]. case_decide; [intros [= <-]; auto|].
  case_decide as Hc; [done|]. intros [= <-]. split; [done|]. right. split_and!; [done..|].
  intros E. apply dec_stable. intros ?. apply Hc. by rewrite E.
Qed.

(** A candidate that changes nothing changes nothing later either. *)
Lemma supersede_stable p p' d c :
  supersede (Some p) c = Some p → supersede (Some p) d = Some p' → supersede (Some p') c = Some p'.
Proof.
  intros (Hs & Hc)%supersede_Some (Hs' & Hd)%supersede_Some.
  assert (¬ pos_lt (pub_position p) (pub_position c)) as Hle.
  { destruct Hc as [[-> ?]|[_ [? _]]]; [by destruct (pos_lt_irrefl (pub_position c))|done]. }
  assert (pub_position p = pub_position c → pub_observation p = pub_observation c) as Heq.
  { destruct Hc as [[-> _]|[_ [_ ?]]]; done. }
  unfold supersede. destruct Hd as [[-> Hlt]|[-> _]].
  - rewrite decide_False by congruence. rewrite decide_False.
    2:{ intros ?. apply Hle. by eapply pos_lt_trans. }
    rewrite decide_False; [done|]. intros [E _]. apply Hle. by rewrite <-E.
  - rewrite decide_False by congruence. rewrite decide_False by done. rewrite decide_False; [done|].
    intros [E Ho]. by apply Ho, Heq.
Qed.

(** ** One publication *)

(** [next] is [base] with the entry of [c]'s series replaced by [q]. *)
Record updates (base : LatestSnapshot) (id : SeriesId) (q : PublishedObservation) (next : LatestSnapshot) : Prop := {
  up_ok : snapshot_ok next;
  up_store : snap_store_id next = snap_store_id base;
  up_get : ∀ id', snapshot_get next id' = if decide (id' = id) then Some q else snapshot_get base id' }.

Lemma insert_updates arc base i p c :
  snapshot_ok base → snap_entries base !! i = Some p → pub_id p = pub_id c →
  updates base (pub_id c) c (from_entries arc (snap_store_id base) (<[i := c]> (snap_entries base))).
Proof.
  intros [Hb Hn] Hi Hid. set (next := from_entries _ _ _).
  assert (pub_id <$> snap_entries next = pub_id <$> snap_entries base) as Eids.
  { cbn. rewrite list_fmap_insert, list_insert_id; [done|]. rewrite list_lookup_fmap, Hi. cbn. by rewrite Hid. }
  assert (snapshot_ok next) as Hok.
  { split; [cbn; unfold len in *; by rewrite length_insert|by rewrite Eids]. }
  split; [done|done|]. intros id'. apply lookup_lt_Some in Hi as Hlt. apply option_ext. intros x.
  rewrite (get_Some next) by done. case_decide as Hd.
  - subst id'. split.
    + intros [Hx Hxid]. f_equal. eapply (NoDup_fmap_eq pub_id); [apply Hok| |done|by rewrite Hxid].
      cbn. apply list_elem_of_lookup. exists i. by apply list_lookup_insert_eq.
    + intros [= <-]. split; [|done]. cbn. apply list_elem_of_lookup. exists i. by apply list_lookup_insert_eq.
  - rewrite (get_Some base) by done. cbn. split; intros [[j Hj]%list_elem_of_lookup Hx]; (split; [|done]);
      apply list_elem_of_lookup; exists j.
    + apply list_lookup_insert_Some in Hj as [(-> & -> & _)|[_ ?]]; [by destruct Hd|done].
    + rewrite list_lookup_insert_ne; [done|]. intros ->. apply Hd. congruence.
Qed.

Lemma snoc_updates arc base c :
  snapshot_ok base → snapshot_get base (pub_id c) = None → len (snap_entries base) < MAX_PUBLISHED_SERIES →
  updates base (pub_id c) c (from_entries arc (snap_store_id base) (snap_entries base ++ [c])).
Proof.
  intros [Hb Hn] Hg Hl. pose proof (proj1 (get_None _ _) Hg) as Hnone. set (next := from_entries _ _ _).
  assert (snapshot_ok next) as Hok.
  { split; [cbn; autorewrite with len; lia|]. cbn. rewrite fmap_app. cbn. apply NoDup_app. split_and!; [done| |].
    - intros id (p & -> & Hp)%list_elem_of_fmap Hx. apply list_elem_of_singleton in Hx. by apply (Hnone p).
    - apply NoDup_singleton. }
  split; [done|done|]. intros id'. apply option_ext. intros x. rewrite (get_Some next) by done. cbn.
  rewrite elem_of_app, list_elem_of_singleton. case_decide as Hd.
  - subst id'. split; [|intros [= <-]; auto]. intros [[Hx| ->] Hid]; [|done]. by destruct (Hnone x).
  - rewrite (get_Some base) by done. split; [|tauto]. intros [[Hx| ->] Hid]; [done|by destruct Hd].
Qed.

(** What a plan against [current] prepares once it is staged. *)
Definition prepares (arc : nat) (current : LatestSnapshot) (c : PublishedObservation)
    (preparation : PreparedPublication) : Prop :=
  match preparation with
  | PreparedNoChange => ∃ p, snapshot_get current (pub_id c) = Some p ∧ supersede (Some p) c = Some p
  | PreparedAdvance base next =>
    base = current ∧ snap_arc next = arc ∧ supersede (snapshot_get base (pub_id c)) c = Some c ∧
    updates base (pub_id c) c next
  end.

Lemma plan_current s current c :
  ls_current s = Some current → ls_sealed s = false → snapshot_ok current →
  match plan s (Some c) with
  | Ok p => ∀ arc, prepares arc current c (stage arc p)
  | Err _ => supersede (snapshot_get current (pub_id c)) c = None ∨
             (snapshot_get current (pub_id c) = None ∧ len (snap_entries current) = MAX_PUBLISHED_SERIES)
  end.
Proof.
  intros Hc Hs Hok. unfold plan. rewrite Hs, Hc. unfold snapshot_get.
  destruct (find_series (snap_entries current) (pub_id c)) as [[i p]|] eqn:Hf; cbn [fmap option_fmap option_map snd].
  - pose proof Hf as Hf'. apply find_series_Some in Hf' as [Hi Hid]; [|apply Hok].
    assert (snapshot_get current (pub_id c) = Some p) as Hg by (unfold snapshot_get; by rewrite Hf).
    unfold supersede. case_decide as Hm; [by left|]. case_decide as Hlt.
    + intros arc. cbn [stage prepares]. split_and!; [done|done| |by eapply insert_updates].
      rewrite Hg. unfold supersede. rewrite decide_False by tauto. by rewrite decide_True.
    + destruct (pos_lt_total (pub_position p) (pub_position c)) as [?|[E|Hgt]]; [done| |].
      * rewrite decide_False by (rewrite E; apply pos_lt_irrefl). case_decide as Ho.
        -- intros arc. exists p. split; [done|]. unfold supersede. rewrite decide_False by tauto.
           rewrite decide_False by done. by rewrite decide_False by naive_solver.
        -- left. rewrite decide_True; [done|]. split; [done|]. intros Eo. by destruct Ho.
      * rewrite decide_True by done. intros arc. exists p. split; [done|]. unfold supersede.
        rewrite decide_False by tauto. rewrite decide_False by done. rewrite decide_False; [done|].
        intros [E _]. rewrite E in Hgt. by apply pos_lt_irrefl in Hgt.
  - pose proof (so_bound _ Hok). case_decide; [right; split; [done|lia]|].
    assert (snapshot_get current (pub_id c) = None) as Hg by (unfold snapshot_get; by rewrite Hf).
    intros arc. cbn [stage prepares]. split_and!; [done|done|by rewrite Hg|]. apply snoc_updates; [done|done|lia].
Qed.

(** ** Interleaved publications *)

(** The shared state, the allocator of snapshots, and the publications that are
    planned but not complete, each with its candidate. *)
Record pub_system := mkSystem {
  ps_latest : LatestState;
  ps_next_arc : nat;
  ps_prepared : list (option PublishedObservation * PreparedPublication) }.

(** Runs, with the candidates that completed, in order. *)
Inductive pub_run (store : StoreId) : pub_system → list PublishedObservation → Prop :=
| run_opened : pub_run store (mkSystem (latest_new 0 store) 1 []) []
| run_prepared σ H c p :
    pub_run store σ H → plan (ps_latest σ) c = Ok p →
    pub_run store (mkSystem (ps_latest σ) (S (ps_next_arc σ)) (ps_prepared σ ++ [(c, stage (ps_next_arc σ) p)])) H
| run_completed σ H i c preparation :
    pub_run store σ H → ps_prepared σ !! i = Some (c, preparation) →
    can_complete (ps_latest σ) preparation = true →
    pub_run store (mkSystem (commit (ps_latest σ) preparation) (ps_next_arc σ) (delete i (ps_prepared σ)))
      (H ++ option_list c)
| run_dropped σ H i :
    pub_run store σ H → pub_run store (mkSystem (ps_latest σ) (ps_next_arc σ) (delete i (ps_prepared σ))) H
| run_sealed σ H s' :
    pub_run store σ H → seal (ps_latest σ) = (true, s') →
    pub_run store (mkSystem s' (ps_next_arc σ) (ps_prepared σ)) H
| run_unavailable σ H :
    pub_run store σ H →
    pub_run store (mkSystem (make_unavailable (ps_latest σ)) (ps_next_arc σ) (ps_prepared σ)) H.

(** The abstract registry after a history: each candidate supersedes the one
    published before it, in one step. *)
Definition publish (m : registry) (c : PublishedObservation) : registry :=
  λ id, if decide (id = pub_id c) then supersede (m id) c else m id.
Definition published_by (H : list PublishedObservation) : registry := foldl publish (λ _, None) H.

Lemma published_by_snoc H c : published_by (H ++ [c]) = publish (published_by H) c.
Proof. unfold published_by. by rewrite foldl_app. Qed.

(** Every snapshot that the system still refers to. *)
Definition prepared_snapshots (p : option PublishedObservation * PreparedPublication) : list LatestSnapshot :=
  match p.2 with PreparedAdvance base next => [base; next] | PreparedNoChange => [] end.
Definition snapshots (σ : pub_system) : list LatestSnapshot :=
  option_list (ls_current (ps_latest σ)) ++ (ps_prepared σ ≫= prepared_snapshots).

(** A publication that may still complete. *)
Definition pending_ok (H : list PublishedObservation) (p : option PublishedObservation * PreparedPublication) : Prop :=
  match p with
  | (None, PreparedNoChange) => True
  | (None, PreparedAdvance _ _) => False
  | (Some c, PreparedNoChange) => ∃ q, published_by H (pub_id c) = Some q ∧ supersede (Some q) c = Some q
  | (Some c, PreparedAdvance base next) =>
    supersede (snapshot_get base (pub_id c)) c = Some c ∧ updates base (pub_id c) c next
  end.

(** What holds of the completed candidates. *)
Definition published_ok (H : list PublishedObservation) : Prop :=
  (∀ c, c ∈ H → ∃ p, published_by H (pub_id c) = Some p ∧ pub_series p = pub_series c ∧
    ¬ pos_lt (pub_position p) (pub_position c)) ∧
  (∀ id p, published_by H id = Some p → p ∈ H ∧ pub_id p = id).

Record system_ok (store : StoreId) (σ : pub_system) (H : list PublishedObservation) : Prop := {
  sy_current : ∀ cur, ls_current (ps_latest σ) = Some cur →
    snap_store_id cur = store ∧ snapshot_ok cur ∧ ∀ id, snapshot_get cur id = published_by H id;
  sy_history : published_ok H;
  sy_pending : Forall (pending_ok H) (ps_prepared σ);
  sy_arcs : ∀ a, a ∈ snapshots σ → (snap_arc a < ps_next_arc σ)%nat;
  sy_identity : ∀ a b, a ∈ snapshots σ → b ∈ snapshots σ → snap_arc a = snap_arc b → a = b }.

Section completion.
Context (H : list PublishedObservation) (c q : PublishedObservation).
Context (Hq : supersede (published_by H (pub_id c)) c = Some q).

Lemma published_snoc id : published_by (H ++ [c]) id = if decide (id = pub_id c) then Some q else published_by H id.
Proof. rewrite published_by_snoc. unfold publish. case_decide; [by subst|done]. Qed.

Lemma superseded_by : q = c ∨ published_by H (pub_id c) = Some q.
Proof.
  destruct (published_by H (pub_id c)) as [p|] eqn:E; [|left; cbn in Hq; congruence].
  apply supersede_Some in Hq as [_ [[-> _]|[-> _]]]; auto.
Qed.

Lemma history_snoc : published_ok H → published_ok (H ++ [c]).
Proof.
  intros [Hc Hid]. split.
  - intros x [Hx| ->%list_elem_of_singleton]%elem_of_app.
    + destruct (Hc x Hx) as (p & Ep & Es & Hle). rewrite published_snoc. case_decide as Hxc; [|by exists p].
      exists q. split; [done|]. rewrite Hxc in Ep. rewrite Ep in Hq.
      apply supersede_Some in Hq as [Hs [[-> Hlt]|[-> _]]]; [|done]. split; [congruence|].
      intros Hgt. apply Hle. by eapply pos_lt_trans.
    + exists q. rewrite published_snoc, decide_True by done. split; [done|].
      destruct (published_by H (pub_id c)) as [p|] eqn:Ep.
      * apply supersede_Some in Hq as [Hs [[-> _]|[-> [? _]]]]; [|done]. split; [done|apply pos_lt_irrefl].
      * injection Hq as <-. split; [done|apply pos_lt_irrefl].
  - intros id p. rewrite published_snoc, elem_of_app, list_elem_of_singleton. case_decide as Hi.
    + intros [= <-]. destruct superseded_by as [->|E]; [by auto|]. apply Hid in E as [? ?]. subst. auto.
    + intros [? ?]%Hid. auto.
Qed.

Lemma pending_snoc p : pending_ok H p → pending_ok (H ++ [c]) p.
Proof.
  destruct p as [[d|] [|base next]]; cbn [pending_ok]; try done. intros (r & Er & Hr). rewrite published_snoc.
  case_decide as Hd; [|by exists r]. exists q. split; [done|]. rewrite Hd in Er. rewrite Er in Hq.
  by eapply supersede_stable.
Qed.
End completion.

Lemma elem_snapshots σ a :
  a ∈ snapshots σ ↔ ls_current (ps_latest σ) = Some a ∨ ∃ p, p ∈ ps_prepared σ ∧ a ∈ prepared_snapshots p.
Proof.
  unfold snapshots. rewrite elem_of_app, list_elem_of_bind.
  destruct (ls_current (ps_latest σ)) as [x|]; cbn.
  - rewrite list_elem_of_singleton. naive_solver.
  - rewrite elem_of_nil. naive_solver.
Qed.

(** Fewer snapshots, same identities. *)
Lemma system_ok_shrink store σ σ' H H' :
  system_ok store σ H → (∀ a, a ∈ snapshots σ' → a ∈ snapshots σ) → ps_next_arc σ' = ps_next_arc σ →
  published_ok H' → Forall (pending_ok H') (ps_prepared σ') →
  (∀ cur, ls_current (ps_latest σ') = Some cur →
    snap_store_id cur = store ∧ snapshot_ok cur ∧ ∀ id, snapshot_get cur id = published_by H' id) →
  system_ok store σ' H'.
Proof. intros [_ _ _ Ha Hi] Hs En ???. split; try done; [intros a ?; rewrite En; auto|intros; apply Hi; auto]. Qed.

Lemma can_complete_current s p :
  can_complete s p = true → ∃ cur, ls_current s = Some cur ∧ ls_sealed s = false ∧
    match p with PreparedNoChange => True | PreparedAdvance base _ => snap_arc cur = snap_arc base end.
Proof.
  unfold can_complete. destruct (ls_current s) as [cur|]; [|done]. destruct (ls_sealed s); [done|].
  intros Hc. exists cur. split_and!; [done..|]. destruct p; [done|].
  apply bool_decide_eq_true in Hc. apply Hc.
Qed.

Lemma complete_ok store σ H i c p :
  system_ok store σ H → ps_prepared σ !! i = Some (c, p) → can_complete (ps_latest σ) p = true →
  system_ok store (mkSystem (commit (ps_latest σ) p) (ps_next_arc σ) (delete i (ps_prepared σ))) (H ++ option_list c).
Proof.
  intros Hσ Hi (cur & Hcur & _ & Harc)%can_complete_current. pose proof Hσ as [Hc Hh Hp Ha Hid].
  pose proof (Forall_lookup_1 _ _ _ _ Hp Hi) as Hpi. destruct (Hc cur Hcur) as (Hst & Hok & Hv).
  destruct c as [c|], p as [|base next]; cbn [pending_ok] in Hpi; try done.
  - destruct Hpi as (q & Eq & Hq). rewrite <-Eq in Hq at 1. cbn [option_list commit].
    apply (system_ok_shrink store σ _ H); [done| |done|by eapply history_snoc| |].
    + intros a. rewrite !elem_snapshots. cbn. intros [?|(p & ?%list_elem_of_delete_inv & ?)]; eauto.
    + apply Forall_delete. eapply Forall_impl; [exact Hp|]. intros; by eapply pending_snoc.
    + cbn. intros cur' E. rewrite Hcur in E. injection E as <-. split_and!; [done..|]. intros id.
      rewrite (published_snoc H c q), Hv by (by rewrite Eq in Hq |- *). case_decide; [by subst|done].
  - destruct Hpi as [Hs Hu].
    assert (base = cur) as ->.
    { symmetry. apply Hid; [..|done]; apply elem_snapshots; [by left|right]. exists (Some c, PreparedAdvance base next).
      split; [by eapply list_elem_of_lookup_2|cbn; set_solver]. }
    rewrite Hv in Hs. cbn [option_list commit].
    apply (system_ok_shrink store σ _ H); [done| |done|by eapply history_snoc| |].
    + intros a. rewrite !elem_snapshots. cbn. intros [[= <-]|(p & ?%list_elem_of_delete_inv & ?)]; [|eauto].
      right. exists (Some c, PreparedAdvance cur next). split; [by eapply list_elem_of_lookup_2|cbn; set_solver].
    + apply Forall_delete. eapply Forall_impl; [exact Hp|]. intros; by eapply pending_snoc.
    + cbn. intros cur' [= <-]. destruct Hu as [? Es Hg]. split_and!; [by rewrite Es|done|]. intros id.
      rewrite (published_snoc H c c), Hg, Hv by done. done.
  - cbn [option_list commit]. rewrite app_nil_r.
    apply (system_ok_shrink store σ _ H); try done; [|by apply Forall_delete].
    intros a. rewrite !elem_snapshots. cbn. intros [?|(p & ?%list_elem_of_delete_inv & ?)]; eauto.
Qed.

Lemma prepare_ok store σ H c p :
  system_ok store σ H → plan (ps_latest σ) c = Ok p →
  system_ok store (mkSystem (ps_latest σ) (S (ps_next_arc σ)) (ps_prepared σ ++ [(c, stage (ps_next_arc σ) p)])) H.
Proof.
  intros [Hc Hh Hp Ha Hid] Hplan.
  assert (∃ cur, ls_current (ps_latest σ) = Some cur ∧ ls_sealed (ps_latest σ) = false) as (cur & Hcur & Hse).
  { unfold plan in Hplan. destruct (ls_sealed _), (ls_current _) as [cur|]; try done. by exists cur. }
  destruct (Hc cur Hcur) as (Hst & Hok & Hv).
  assert (pending_ok H (c, stage (ps_next_arc σ) p) ∧
    match stage (ps_next_arc σ) p with
    | PreparedAdvance base next => base = cur ∧ snap_arc next = ps_next_arc σ
    | PreparedNoChange => True
    end) as [Hnew Harcs].
  { destruct c as [c|].
    - pose proof (plan_current _ _ c Hcur Hse Hok) as Hpl. rewrite Hplan in Hpl. specialize (Hpl (ps_next_arc σ)).
      destruct (stage _ p) as [|base next]; cbn [prepares pending_ok] in *.
      + destruct Hpl as (q & Eq & Hq). split; [exists q; by rewrite <-Hv|done].
      + by destruct Hpl as (-> & Earc & Hs & Hu).
    - unfold plan in Hplan. rewrite Hse, Hcur in Hplan. by injection Hplan as <-. }
  assert (∀ a, a ∈ snapshots (mkSystem (ps_latest σ) (S (ps_next_arc σ))
    (ps_prepared σ ++ [(c, stage (ps_next_arc σ) p)])) → a ∈ snapshots σ ∨
    (∃ base, stage (ps_next_arc σ) p = PreparedAdvance base a ∧ snap_arc a = ps_next_arc σ)) as Hsub.
  { intros a. rewrite !elem_snapshots. cbn [ps_latest ps_prepared]. intros [?|(pr & Hpr & Hin)]; [by auto|].
    apply elem_of_app in Hpr as [?| ->%list_elem_of_singleton]; [by eauto|].
    unfold prepared_snapshots in Hin. cbn [snd] in Hin. destruct (stage _ p) as [|base next]; [by apply elem_of_nil in Hin|].
    destruct Harcs as [-> E]. apply elem_of_cons in Hin as [-> | ->%list_elem_of_singleton]; [by auto|].
    right. by exists cur. }
  split; cbn [ps_latest ps_next_arc ps_prepared]; try done.
  - apply Forall_app. split; [done|]. by constructor.
  - intros a [Hs|(? & _ & E)]%Hsub; [specialize (Ha a Hs)|]; lia.
  - intros a b [Hs|(x & Ex & E)]%Hsub [Hs'|(y & Ey & E')]%Hsub Eab.
    + by apply Hid.
    + specialize (Ha a Hs). lia.
    + specialize (Ha b Hs'). lia.
    + congruence.
Qed.

Lemma pub_run_ok store σ H : pub_run store σ H → system_ok store σ H.
Proof.
  induction 1 as [|σ H c p Hr IH Hp|σ H i c p Hr IH Hi Hc|σ H i Hr IH|σ H s' Hr IH Hs|σ H Hr IH].
  - split; cbn.
    + intros cur [= <-]. split_and!; [done|split; [done|constructor]|done].
    + split; [by intros c ?%elem_of_nil|done].
    + constructor.
    + intros a ->%list_elem_of_singleton. cbn. lia.
    + by intros a b ->%list_elem_of_singleton ->%list_elem_of_singleton.
  - by apply prepare_ok.
  - by apply complete_ok.
  - pose proof IH as [? ? ? _ _]. apply (system_ok_shrink store σ _ H); try done; [|by apply Forall_delete].
    intros a. rewrite !elem_snapshots. cbn. intros [?|(p & ?%list_elem_of_delete_inv & ?)]; eauto.
  - pose proof IH as [? ? ? _ _]. unfold seal in Hs. case_decide; [done|]. injection Hs as <-.
    by apply (system_ok_shrink store σ _ H).
  - pose proof IH as [? ? ? _ _]. apply (system_ok_shrink store σ _ H); try done.
    intros a. rewrite !elem_snapshots. cbn. naive_solver.
Qed.

(** ** Properties *)

(** C21: Publications are linearizable. However planning, staging, completion,
    sealing and failure of any number of publications interleave, the current
    snapshot belongs to the store, stays within 16 series and holds exactly the
    registry in which every completed candidate superseded its series in one
    step; so each completed candidate's series shows an observation of the
    history whose producer position is not behind it. *)
Theorem publication_linearizable store σ H :
  pub_run store σ H →
  (∀ cur, ls_current (ps_latest σ) = Some cur →
    snap_store_id cur = store ∧ len (snap_entries cur) ≤ MAX_PUBLISHED_SERIES ∧
    ∀ id, snapshot_get cur id = published_by H id) ∧
  (∀ c, c ∈ H → ∃ p, published_by H (pub_id c) = Some p ∧ p ∈ H ∧ pub_series p = pub_series c ∧
    ¬ pos_lt (pub_position p) (pub_position c)).
Proof.
  intros Hr%pub_run_ok. destruct Hr as [Hc [Hh Hid] _ _ _]. split.
  - intros cur (? & [? _] & ?)%Hc. done.
  - intros c (p & Ep & ? & ?)%Hh. exists p. apply Hid in Ep as Hp. naive_solver.
Qed.

Definition sample_published (series sequence : Z) : PublishedObservation :=
  mkPublished (mkSeriesMetadata (sample_id series) (sample_id 2) Sampled)
    (sample_observation sequence None None) (sample_position 1 sequence).
Definition sample_prepare (σ : pub_system) (c : PublishedObservation) : pub_system :=
  match plan (ps_latest σ) (Some c) with
  | Ok p => mkSystem (ps_latest σ) (S (ps_next_arc σ)) (ps_prepared σ ++ [(Some c, stage (ps_next_arc σ) p)])
  | Err _ => σ
  end.
Definition sample_complete (σ : pub_system) (i : nat) : pub_system :=
  match ps_prepared σ !! i with
  | Some (_, p) => mkSystem (commit (ps_latest σ) p) (ps_next_arc σ) (delete i (ps_prepared σ))
  | None => σ
  end.
(** Two publications of one series are planned against the same snapshot; the
    second one can no longer complete. *)
Definition sample_racing : pub_system :=
  sample_complete (sample_prepare (sample_prepare (mkSystem (latest_new 0 (sample_id 0)) 1 [])
    (sample_published 1 5)) (sample_published 1 7)) 1.
Lemma publication_linearizable_witness :
  map (λ '(_, p), can_complete (ps_latest sample_racing) p) (ps_prepared sample_racing) = [false] ∧
  ∀ cur, ls_current (ps_latest sample_racing) = Some cur →
    snap_store_id cur = sample_id 0 ∧ len (snap_entries cur) ≤ MAX_PUBLISHED_SERIES ∧
    ∀ id, snapshot_get cur id = published_by [sample_published 1 7] id.
Proof.
  split; [by vm_compute|]. apply (publication_linearizable (sample_id 0) sample_racing [sample_published 1 7]).
  change [sample_published 1 7] with ([] ++ option_list (Some (sample_published 1 7))).
  eapply (run_completed _ _ [] 1 (Some (sample_published 1 7))); [|by vm_compute|by vm_compute].
  eapply (run_prepared _ _ _ (Some (sample_published 1 7))); [|by vm_compute].
  eapply (run_prepared _ _ _ (Some (sample_published 1 5))); [|by vm_compute]. apply run_opened.
Defined.
