(* ===== verification/Queue.v ===== *)
(** * The fixed queue of slot indices

    [FixedQueue] of [och-runtime/src/ingress.rs]: a ring of sixteen entries,
    proved to be a bounded first-in first-out list. *)

From S2P Require Import Prelude.

Definition MAX_OUTSTANDING_COMMANDS : nat := 16.

(** Indices and counts stay below twice the capacity, so [usize] arithmetic on
    them never wraps and is written on [nat]. *)
Record FixedQueue := mkQueue { q_entries : list (option nat); q_head : nat; q_len : nat }.

Definition queue_new : FixedQueue := mkQueue (replicate MAX_OUTSTANDING_COMMANDS None) 0 0.
Definition can_push (q : FixedQueue) : bool :=
  bool_decide (q_len q < MAX_OUTSTANDING_COMMANDS)%nat &&
  bool_decide (q_entries q !! ((q_head q + q_len q) `mod` MAX_OUTSTANDING_COMMANDS)%nat = Some None).
Definition push (slot_index : nat) (q : FixedQueue) : FixedQueue :=
  let tail := ((q_head q + q_len q) `mod` MAX_OUTSTANDING_COMMANDS)%nat in
  mkQueue (<[tail := Some slot_index]> (q_entries q)) (q_head q) (S (q_len q)).
Definition pop (q : FixedQueue) : option nat * FixedQueue :=
  if decide (q_len q = 0%nat) then (None, q)
  else (mjoin (q_entries q !! q_head q),
        mkQueue (<[q_head q := None]> (q_entries q)) ((q_head q + 1) `mod` MAX_OUTSTANDING_COMMANDS) (q_len q - 1)).
Definition clear (q : FixedQueue) : FixedQueue := queue_new.

(** ** The list a queue holds *)

Definition ring (head i : nat) : nat := ((head + i) `mod` MAX_OUTSTANDING_COMMANDS)%nat.
(** [q] holds [l]: its items sit from the head on, every other entry is empty. *)
Record holds (q : FixedQueue) (l : list nat) : Prop := {
  h_entries : length (q_entries q) = MAX_OUTSTANDING_COMMANDS;
  h_head : (q_head q < MAX_OUTSTANDING_COMMANDS)%nat;
  h_len : q_len q = length l;
  h_bound : (length l ≤ MAX_OUTSTANDING_COMMANDS)%nat;
  h_item : ∀ i, (i < MAX_OUTSTANDING_COMMANDS)%nat → q_entries q !! ring (q_head q) i = Some (l !! i) }.

Lemma ring_lt head i : (ring head i < MAX_OUTSTANDING_COMMANDS)%nat.
Proof. apply Nat.mod_upper_bound. done. Qed.
Lemma ring_0 head : (head < MAX_OUTSTANDING_COMMANDS)%nat → ring head 0 = head.
Proof. intros H. unfold ring. rewrite Nat.add_0_r. by apply Nat.mod_small. Qed.
Lemma ring_inj head i j :
  (i < MAX_OUTSTANDING_COMMANDS)%nat → (j < MAX_OUTSTANDING_COMMANDS)%nat → ring head i = ring head j → i = j.
Proof.
  unfold ring, MAX_OUTSTANDING_COMMANDS. intros Hi Hj E.
  pose proof (Nat.div_mod_eq (head + i) 16). pose proof (Nat.div_mod_eq (head + j) 16). lia.
Qed.
Lemma ring_succ head i : ring (ring head 1) i = ring head (S i).
Proof.
  unfold ring. rewrite Nat.Div0.add_mod_idemp_l. f_equal. lia.
Qed.

Lemma holds_inj q l l' : holds q l → holds q l' → l = l'.
Proof.
  intros [_ _ Hl Hb Hi] [_ _ Hl' _ Hi']. apply list_eq. intros i.
  destruct (decide (i < MAX_OUTSTANDING_COMMANDS)%nat) as [Hlt|].
  - specialize (Hi i Hlt). specialize (Hi' i Hlt). congruence.
  - by rewrite !lookup_ge_None_2 by lia.
Qed.

Lemma queue_new_holds : holds queue_new [].
Proof.
  split; [done|cbn; unfold MAX_OUTSTANDING_COMMANDS; lia|done|cbn; lia|].
  intros i _. cbn [q_entries q_head queue_new]. rewrite lookup_nil.
  rewrite lookup_replicate_2 by apply ring_lt. done.
Qed.

Lemma can_push_holds q l : holds q l → can_push q = bool_decide (length l < MAX_OUTSTANDING_COMMANDS)%nat.
Proof.
  intros [He Hh Hl Hb Hi]. unfold can_push. rewrite Hl. destruct (decide (length l < MAX_OUTSTANDING_COMMANDS)%nat) as [Hlt|].
  - specialize (Hi (length l) Hlt). fold (ring (q_head q) (length l)). rewrite Hi, lookup_ge_None_2 by lia.
    by rewrite !bool_decide_eq_true_2.
  - by rewrite !(bool_decide_eq_false_2 (length l < _)%nat).
Qed.

Lemma push_holds q l x :
  holds q l → (length l < MAX_OUTSTANDING_COMMANDS)%nat → holds (push x q) (l ++ [x]).
Proof.
  intros [He Hh Hl Hb Hi] Hlt. unfold push. rewrite Hl. split; cbn [q_entries q_head q_len].
  - by rewrite length_insert.
  - done.
  - rewrite length_app. cbn. lia.
  - rewrite length_app. cbn. lia.
  - intros i Hlti. fold (ring (q_head q) (length l)). destruct (decide (i = length l)) as [-> |Hne].
    + rewrite list_lookup_insert_eq by (rewrite He; apply ring_lt). f_equal. symmetry. by apply list_lookup_middle.
    + rewrite list_lookup_insert_ne by (intros E; apply Hne; symmetry; by eapply ring_inj).
      rewrite Hi by done. f_equal. destruct (decide (i < length l)%nat).
      * by rewrite lookup_app_l by lia.
      * rewrite lookup_app_r, !lookup_ge_None_2 by (cbn; lia). done.
Qed.

Lemma pop_holds q l :
  holds q l → (pop q).1 = head l ∧ holds (pop q).2 (tail l).
Proof.
  intros [He Hh Hl Hb Hi]. unfold pop. destruct l as [|x l]; cbn [length head tail] in *.
  - rewrite decide_True by done. cbn. done.
  - rewrite decide_False by lia. cbn [fst snd]. split.
    + pose proof (Hi 0%nat ltac:(unfold MAX_OUTSTANDING_COMMANDS; lia)) as H0. rewrite ring_0 in H0 by done. by rewrite H0.
    + split; cbn [q_entries q_head q_len]; [by rewrite length_insert|apply ring_lt|lia|lia|].
      intros i Hlt. fold (ring (q_head q) 1). rewrite ring_succ. destruct (decide (S i = MAX_OUTSTANDING_COMMANDS)) as [E|].
      * assert (ring (q_head q) (S i) = q_head q) as ->.
        { unfold ring. rewrite E. rewrite <-(Nat.mul_1_l MAX_OUTSTANDING_COMMANDS) at 1. rewrite Nat.Div0.mod_add.
          by apply Nat.mod_small. }
        rewrite list_lookup_insert_eq by lia. rewrite lookup_ge_None_2 by lia. done.
      * rewrite list_lookup_insert_ne.
        -- rewrite Hi by lia. done.
        -- rewrite <-(ring_0 (q_head q)) at 1 by done. intros E%ring_inj; lia || (unfold MAX_OUTSTANDING_COMMANDS; lia).
Qed.

(** ** Operation sequences *)

Inductive queue_op := OpPush (x : nat) | OpPop | OpClear.
(** The code pushes only after [can_push]. *)
Definition queue_step (q : FixedQueue) (op : queue_op) : option nat * FixedQueue :=
  match op with
  | OpPush x => if can_push q then (None, push x q) else (None, q)
  | OpPop => pop q
  | OpClear => (None, clear q)
  end.
(** A bounded list, popped at the front. *)
Definition fifo_step (l : list nat) (op : queue_op) : option nat * list nat :=
  match op with
  | OpPush x => if decide (length l < MAX_OUTSTANDING_COMMANDS)%nat then (None, l ++ [x]) else (None, l)
  | OpPop => (head l, tail l)
  | OpClear => (None, [])
  end.
Fixpoint outputs {S} (step : S → queue_op → option nat * S) (s : S) (ops : list queue_op) : list (option nat) :=
  match ops with
  | [] => []
  | op :: ops => let '(o, s') := step s op in o :: outputs step s' ops
  end.

Lemma queue_step_holds q l op :
  holds q l → (queue_step q op).1 = (fifo_step l op).1 ∧ holds (queue_step q op).2 (fifo_step l op).2.
Proof.
  intros Hq. destruct op as [x| |]; cbn [queue_step fifo_step].
  - rewrite (can_push_holds q l Hq). case_bool_decide; [rewrite decide_True by done|by rewrite decide_False by done].
    split; [done|by apply push_holds].
  - by apply pop_holds.
  - split; [done|apply queue_new_holds].
Qed.

(** The ring is a bounded first-in first-out list: whatever pushes, pops and
    clears are performed, the popped indices are those of a list of at most
    sixteen, in the order they were pushed. *)
Theorem queue_refines_fifo ops :
  outputs queue_step queue_new ops = outputs fifo_step [] ops.
Proof.
  assert (∀ q l, holds q l → outputs queue_step q ops = outputs fifo_step l ops) as H.
  { induction ops as [|op ops IH]; intros q l Hq; [done|]. cbn [outputs].
    pose proof (queue_step_holds q l op Hq) as [Eo Hs].
    destruct (queue_step q op) as [o q'], (fifo_step l op) as [o' l']. cbn in *. rewrite Eo. f_equal. by apply IH. }
  apply H, queue_new_holds.
Qed.
