(* ===== verification/Ingress.v ===== *)
(** * Bounded runtime ingress

    [och-runtime/src/ingress.rs]: the sixteen outstanding slots, the exact byte
    reservation law, the shared receipts and the critical sections of submission,
    preparation, the writer's three completions, and stop. Every critical section
    runs under one mutex and is one function of the shared state here; the
    computations between them run outside and may interleave. *)

From S2P Require Import Prelude Bytes Identity Bounded Value Collection Series Registry Admission.
From S2P Require Import Layout Wire Fields Crc Journal Generation Commit Retry Latest Queue.

(** ** Reservation limits *)

Inductive AdmissionPriority : Set := Protected | Normal | Bulk.
#[export] Instance AdmissionPriority_eq_dec : EqDecision AdmissionPriority.
Proof. solve_decision. Defined.
Inductive BarrierDemand : Set := Group | Immediate.

Record ByteReservationLimits := mkByteLimits { bl_total : Z; bl_protected : Z; bl_normal : Z }.
Inductive ReservationOptionsError : Set := InvalidReservation.
Definition byte_limits_new (total protected normal : Z) : result ReservationOptionsError ByteReservationLimits :=
  if decide (total = 0 ∨ protected > total ∨ normal > total - protected) then Err InvalidReservation
  else Ok (mkByteLimits total protected normal).
#[export] Instance wf_byte_limits : Wf ByteReservationLimits := λ l,
  in_range 0 usize_max (bl_total l) && in_range 0 usize_max (bl_protected l) && in_range 0 usize_max (bl_normal l) &&
  is_ok (byte_limits_new (bl_total l) (bl_protected l) (bl_normal l)).
Definition class_ceiling (l : ByteReservationLimits) (priority : AdmissionPriority) : Z :=
  match priority with
  | Protected => bl_total l
  | Normal => bl_total l - bl_protected l
  | Bulk => bl_total l - bl_protected l - bl_normal l
  end.

(** ** Commands, submissions and outcomes *)

Record IngressCommand := mkCommand {
  cmd_admission : CanonicalAdmission;
  cmd_priority : AdmissionPriority;
  cmd_barrier : BarrierDemand }.

Inductive SubmissionDisposition : Set := Queued | Coalesced | Replayed.
(** [sub_receipt] is the location of the shared [ReceiptTerminal]. *)
Record Submission := mkSubmission { sub_disposition : SubmissionDisposition; sub_receipt : nat }.

Inductive TrySubmitErrorKind : Set :=
| KindClosed | KindStoreMismatch | KindEncoding | KindByteCapacity | KindFull | KindRetryConflict | KindRetryExpired.
Record TrySubmitError := mkSubmitError {
  err_kind : TrySubmitErrorKind;
  err_encoding : option JournalV1Error;
  err_command : IngressCommand }.
Definition error_new (kind : TrySubmitErrorKind) (command : IngressCommand) : TrySubmitError :=
  mkSubmitError kind None command.
Definition error_encoding (error : JournalV1Error) (command : IngressCommand) : TrySubmitError :=
  mkSubmitError KindEncoding (Some error) command.

Record AppendIdentity := mkAppend {
  app_journal : JournalIdentity;
  app_append_sequence : Z;
  app_end_offset : Z }.
#[export] Instance AppendIdentity_eq_dec : EqDecision AppendIdentity.
Proof. solve_decision. Defined.
Record DurableCommit := mkDurable { dc_append : AppendIdentity; dc_committed : ManifestCommit }.
Inductive HandledOutcome := WriterHandled (append : AppendIdentity) | HandledStopped.
Inductive DurableOutcome := Durable (commit : DurableCommit) | DurableStopped.

(** ** Receipts: two write-once stages *)

Record ReceiptState := mkReceipt { r_handled : option HandledOutcome; r_durable : option DurableOutcome }.
Definition receipt_new : ReceiptState := mkReceipt None None.
Definition resolve_handled (append : AppendIdentity) (r : ReceiptState) : bool * ReceiptState :=
  match r_handled r with
  | Some _ => (false, r)
  | None => (true, mkReceipt (Some (WriterHandled append)) (r_durable r))
  end.
Definition resolve_durable (commit : DurableCommit) (r : ReceiptState) : bool * ReceiptState :=
  match r_durable r with
  | Some _ => (false, r)
  | None => (true, mkReceipt (r_handled r) (Some (Durable commit)))
  end.
Definition get_or_insert {A} (o : option A) (x : A) : option A := match o with Some y => Some y | None => Some x end.
Definition resolve_stopped (r : ReceiptState) : bool * ReceiptState :=
  (bool_decide (r_handled r = None ∨ r_durable r = None),
   mkReceipt (get_or_insert (r_handled r) HandledStopped) (get_or_insert (r_durable r) DurableStopped)).

(** The receipts that are shared: an [Arc<ReceiptTerminal>] is a location. *)
Abbreviation receipts := (list ReceiptState).
Definition update_receipt (f : ReceiptState → bool * ReceiptState) (loc : nat) (h : receipts) : bool * receipts :=
  match h !! loc with
  | Some r => let '(changed, r') := f r in (changed, <[loc := r']> h)
  | None => (false, h)
  end.

(** [TerminalNotifications]: the receipts to wake, at most sixteen. *)
Definition notifications_push (loc : nat) (n : list nat) : list nat :=
  if decide (length n < MAX_OUTSTANDING_COMMANDS)%nat then n ++ [loc] else n.

(** ** The state behind the mutex *)

Inductive SlotPhase : Set := Preparing | PhaseQueued | InFlight | AwaitingDurability.
#[export] Instance SlotPhase_eq_dec : EqDecision SlotPhase.
Proof. solve_decision. Defined.

Record Slot := mkSlot {
  sl_qualification : RetryQualification;
  sl_prepared : option PreparedAdmissionV1;
  sl_retained_admission : option CanonicalAdmission;
  sl_terminal : nat;
  sl_phase : SlotPhase;
  sl_reservation : Z;
  sl_priority : AdmissionPriority;
  sl_barrier : BarrierDemand;
  sl_append : option AppendIdentity }.

Record DurableBatchEntry := mkBatchEntry {
  be_slot : nat;
  be_qualification : RetryQualification;
  be_append : AppendIdentity }.

Record IngressState := mkIngress {
  in_closed : bool;
  in_slots : list (option Slot);
  in_queue : FixedQueue;
  in_latest : LatestState;
  in_byte_limits : ByteReservationLimits;
  in_reserved_bytes : Z;
  in_barrier_requested : bool;
  in_retry : RetryStateSnapshot }.

Definition ingress_new (arc : nat) (store_id : StoreId) (byte_limits : ByteReservationLimits)
    (retry_options : RetryPersistenceOptions) : IngressState :=
  mkIngress false (replicate MAX_OUTSTANDING_COMMANDS None) queue_new (latest_new arc store_id) byte_limits 0 false
    (state_empty store_id retry_options).

(** Field updates. *)
Definition with_slots (f : list (option Slot) → list (option Slot)) (s : IngressState) : IngressState :=
  mkIngress (in_closed s) (f (in_slots s)) (in_queue s) (in_latest s) (in_byte_limits s) (in_reserved_bytes s)
    (in_barrier_requested s) (in_retry s).
Definition with_queue (q : FixedQueue) (s : IngressState) : IngressState :=
  mkIngress (in_closed s) (in_slots s) q (in_latest s) (in_byte_limits s) (in_reserved_bytes s)
    (in_barrier_requested s) (in_retry s).
Definition with_latest (l : LatestState) (s : IngressState) : IngressState :=
  mkIngress (in_closed s) (in_slots s) (in_queue s) l (in_byte_limits s) (in_reserved_bytes s)
    (in_barrier_requested s) (in_retry s).
Definition with_reserved (n : Z) (s : IngressState) : IngressState :=
  mkIngress (in_closed s) (in_slots s) (in_queue s) (in_latest s) (in_byte_limits s) n
    (in_barrier_requested s) (in_retry s).
Definition with_retry (r : RetryStateSnapshot) (s : IngressState) : IngressState :=
  mkIngress (in_closed s) (in_slots s) (in_queue s) (in_latest s) (in_byte_limits s) (in_reserved_bytes s)
    (in_barrier_requested s) r.
Definition with_closed (s : IngressState) : IngressState :=
  mkIngress true (in_slots s) (in_queue s) (in_latest s) (in_byte_limits s) (in_reserved_bytes s)
    (in_barrier_requested s) (in_retry s).
Definition with_barrier (s : IngressState) : IngressState :=
  mkIngress (in_closed s) (in_slots s) (in_queue s) (in_latest s) (in_byte_limits s) (in_reserved_bytes s)
    true (in_retry s).

Definition occupied (s : IngressState) : list Slot := omap id (in_slots s).
Definition active_count (s : IngressState) : nat := length (occupied s).
Definition can_reserve (s : IngressState) (priority : AdmissionPriority) (bytes : Z) : bool :=
  is_some_and (λ total, bool_decide (total ≤ class_ceiling (in_byte_limits s) priority))
    (checked_add usize_max (in_reserved_bytes s) bytes).

(** The loop of [stop_all] over the taken slots. *)
Fixpoint stop_slots (slots : list Slot) (h : receipts) (notifications : list nat) : receipts * list nat :=
  match slots with
  | [] => (h, notifications)
  | slot :: slots =>
    let '(changed, h) := update_receipt resolve_stopped (sl_terminal slot) h in
    stop_slots slots h (if changed : bool then notifications_push (sl_terminal slot) notifications else notifications)
  end.
Definition stop_all (s : IngressState) (h : receipts) : IngressState * receipts * list nat :=
  let '(h, notifications) := stop_slots (occupied s) h [] in
  (mkIngress true ((λ _, None) <$> in_slots s) (clear (in_queue s)) (make_unavailable (in_latest s))
     (in_byte_limits s) 0 (in_barrier_requested s) (in_retry s), h, notifications).

(** ** The shared object *)

(** [sh_poisoned] is the flag of the mutex; [sh_woken] logs the receipts whose
    waiters were notified, [sh_permit] is the writer's notification permit, and
    [sh_next_arc] the allocator of latest snapshots. *)
Record IngressShared := mkShared {
  sh_store_id : StoreId;
  sh_poisoned : bool;
  sh_state : IngressState;
  sh_receipts : receipts;
  sh_woken : list nat;
  sh_permit : bool;
  sh_next_arc : nat }.

Definition shared_new (store_id : StoreId) (byte_limits : ByteReservationLimits)
    (retry_options : RetryPersistenceOptions) : IngressShared :=
  mkShared store_id false (ingress_new 0 store_id byte_limits retry_options) [] [] false 1.

Definition set_state (s : IngressState) (sh : IngressShared) : IngressShared :=
  mkShared (sh_store_id sh) (sh_poisoned sh) s (sh_receipts sh) (sh_woken sh) (sh_permit sh) (sh_next_arc sh).
Definition set_receipts (h : receipts) (sh : IngressShared) : IngressShared :=
  mkShared (sh_store_id sh) (sh_poisoned sh) (sh_state sh) h (sh_woken sh) (sh_permit sh) (sh_next_arc sh).
(** [notify_waiters] of each receipt, and [notify_one] of the writer. *)
Definition wake (notifications : list nat) (sh : IngressShared) : IngressShared :=
  mkShared (sh_store_id sh) (sh_poisoned sh) (sh_state sh) (sh_receipts sh) (sh_woken sh ++ notifications)
    (sh_permit sh) (sh_next_arc sh).
Definition notify_one (sh : IngressShared) : IngressShared :=
  mkShared (sh_store_id sh) (sh_poisoned sh) (sh_state sh) (sh_receipts sh) (sh_woken sh) true (sh_next_arc sh).
Definition next_arc (sh : IngressShared) : IngressShared :=
  mkShared (sh_store_id sh) (sh_poisoned sh) (sh_state sh) (sh_receipts sh) (sh_woken sh) (sh_permit sh)
    (S (sh_next_arc sh)).

(** [let notifications = state.stop_all(); drop(state); notifications.wake();]. *)
Definition fail_stop (sh : IngressShared) : IngressShared :=
  let '(s, h, notifications) := stop_all (sh_state sh) (sh_receipts sh) in
  wake notifications (set_receipts h (set_state s sh)).

(** ** Submission *)

(** [state.slots.get(i).and_then(Option::as_ref)]. *)
Definition get_slot (s : IngressState) (i : nat) : option Slot := mjoin (in_slots s !! i).
Definition put_slot (i : nat) (slot : option Slot) (s : IngressState) : IngressState :=
  with_slots (λ slots, <[i := slot]> slots) s.

(** The first critical section of [try_submit]: closed and store precedence. *)
Definition submit_check (command : IngressCommand) (sh : IngressShared)
  : result TrySubmitError () * IngressShared :=
  if sh_poisoned sh then (Err (error_new KindClosed command), notify_one (fail_stop sh))
  else if in_closed (sh_state sh) then (Err (error_new KindClosed command), sh)
  else if decide (adm_store_id (cmd_admission command) ≠ sh_store_id sh)
  then (Err (error_new KindStoreMismatch command), sh)
  else (Ok tt, sh).

(** The loop over the outstanding slots. *)
Inductive slot_match := MatchedSlot (terminal : nat) | ConflictingSlot | NoSlot.
Fixpoint match_slots (slots : list Slot) (q : RetryQualification) : slot_match :=
  match slots with
  | [] => NoSlot
  | slot :: slots =>
    match classify (sl_qualification slot) q with
    | Equivalent => MatchedSlot (sl_terminal slot)
    | Conflict => ConflictingSlot
    | Distinct => match_slots slots q
    end
  end.

(** What the second critical section decides: an answer, or a reserved slot. *)
Inductive reservation :=
| Answered (answer : result TrySubmitError Submission)
| Reserved (slot_index terminal : nat) (frame_len : Z).

Definition replay_receipt (outcome : RetryReplayOutcome) : ReceiptState :=
  let append := mkAppend (cut_journal (mc_durable_cutoff (ro_committed outcome))) (ro_append_sequence outcome)
                  (ro_end_offset outcome) in
  (resolve_durable (mkDurable append (ro_committed outcome)) (resolve_handled append receipt_new).2).2.

Definition first_empty (slots : list (option Slot)) : option nat := fst <$> list_find (λ slot, slot = None) slots.

Definition submit_reserve (command : IngressCommand) (measured : result JournalV1Error Z) (sh : IngressShared)
  : reservation * IngressShared :=
  let refuse kind := Answered (Err (error_new kind command)) in
  let s := sh_state sh in
  let q := adm_retry (cmd_admission command) in
  if sh_poisoned sh then (refuse KindClosed, notify_one (fail_stop sh))
  else if in_closed s then (refuse KindClosed, sh)
  else if decide (adm_store_id (cmd_admission command) ≠ sh_store_id sh) then (refuse KindStoreMismatch, sh)
  else
    match measured with
    | Err error => (Answered (Err (error_encoding error command)), sh)
    | Ok frame_len =>
      match match_slots (occupied s) q with
      | MatchedSlot terminal => (Answered (Ok (mkSubmission Coalesced terminal)), sh)
      | ConflictingSlot => (refuse KindRetryConflict, sh)
      | NoSlot =>
        match state_classify (in_retry s) q with
        | MatchReplay outcome =>
          let terminal := length (sh_receipts sh) in
          (Answered (Ok (mkSubmission Replayed terminal)),
           set_receipts (sh_receipts sh ++ [replay_receipt outcome]) sh)
        | MatchExpired => (refuse KindRetryExpired, sh)
        | MatchConflict => (refuse KindRetryConflict, sh)
        | MatchFresh =>
          if decide (active_count s = MAX_OUTSTANDING_COMMANDS) then (refuse KindFull, sh)
          else if negb (can_reserve s (cmd_priority command) frame_len) then (refuse KindByteCapacity, sh)
          else
            match first_empty (in_slots s) with
            | None => (refuse KindClosed, sh)
            | Some slot_index =>
              let terminal := length (sh_receipts sh) in
              let slot := mkSlot q None None terminal Preparing frame_len (cmd_priority command)
                            (cmd_barrier command) None in
              (Reserved slot_index terminal frame_len,
               set_receipts (sh_receipts sh ++ [receipt_new])
                 (set_state (put_slot slot_index (Some slot)
                    (with_reserved (in_reserved_bytes s + frame_len) s)) sh))
            end
        end
      end
    end.

Definition saturating_sub (a b : Z) : Z := Z.max 0 (a - b).
Definition rollback_preparation (slot_index : nat) (sh : IngressShared) : IngressShared :=
  if sh_poisoned sh then notify_one (fail_stop sh)
  else
    let s := sh_state sh in
    match get_slot s slot_index with
    | None => sh
    | Some slot =>
      let s := with_reserved (saturating_sub (in_reserved_bytes s) (sl_reservation slot))
                 (put_slot slot_index None s) in
      let '(changed, h) := update_receipt resolve_stopped (sl_terminal slot) (sh_receipts sh) in
      let sh := set_receipts h (set_state s sh) in
      notify_one (if changed : bool then wake [sl_terminal slot] sh else sh)
    end.

(** The last critical section of [try_submit]: the prepared command is queued. *)
Definition submit_enqueue (slot_index terminal : nat) (prepared : PreparedAdmissionV1) (priority : AdmissionPriority)
    (barrier : BarrierDemand) (sh : IngressShared) : result TrySubmitError Submission * IngressShared :=
  let closed := Err (error_new KindClosed (mkCommand (prep_admission prepared) priority barrier)) in
  let s := sh_state sh in
  if sh_poisoned sh then (closed, fail_stop sh)
  else
    let valid := is_some_and (λ slot, bool_decide (sl_phase slot = Preparing)) (get_slot s slot_index) in
    match get_slot s slot_index with
    | Some slot =>
      if negb valid || negb (can_push (in_queue s)) then (closed, fail_stop sh)
      else
        let slot := mkSlot (sl_qualification slot) (Some prepared) (sl_retained_admission slot) (sl_terminal slot)
                      PhaseQueued (sl_reservation slot) (sl_priority slot) (sl_barrier slot) (sl_append slot) in
        (Ok (mkSubmission Queued terminal),
         notify_one (set_state (with_queue (push slot_index (in_queue s)) (put_slot slot_index (Some slot) s)) sh))
    | None => (closed, fail_stop sh)
    end.

(** Between the reservation and the queue the command is prepared, outside the
    mutex; a preparation that fails rolls the reservation back. *)
Definition submit_finish (command : IngressCommand) (slot_index terminal : nat) (frame_len : Z) (sh : IngressShared)
  : result TrySubmitError Submission * IngressShared :=
  let priority := cmd_priority command in
  let barrier := cmd_barrier command in
  match prepared_new (cmd_admission command) with
  | Ok prepared =>
    if decide (prep_frame_len prepared = frame_len)
    then submit_enqueue slot_index terminal prepared priority barrier sh
    else (Err (error_encoding InvalidCanonicalData (mkCommand (prep_admission prepared) priority barrier)),
          rollback_preparation slot_index sh)
  | Err error =>
    (Err (error_encoding (prepare_error error) (mkCommand (prepare_admission error) priority barrier)),
     rollback_preparation slot_index sh)
  end.

(** [IngressShared::try_submit] when nothing runs in between. *)
Definition try_submit (command : IngressCommand) (sh : IngressShared)
  : result TrySubmitError Submission * IngressShared :=
  match submit_check command sh with
  | (Err e, sh) => (Err e, sh)
  | (Ok _, sh) =>
    match submit_reserve command (admission_frame_len_v1 (cmd_admission command)) sh with
    | (Answered answer, sh) => (answer, sh)
    | (Reserved slot_index terminal frame_len, sh) => submit_finish command slot_index terminal frame_len sh
    end
  end.

(** ** Closing, stopping and opening *)

Definition close_admission (sh : IngressShared) : IngressShared :=
  notify_one (if sh_poisoned sh then fail_stop sh else set_state (with_closed (sh_state sh)) sh).
Definition stop (sh : IngressShared) : IngressShared := notify_one (fail_stop sh).
Definition install_opened_retry (retry : RetryStateSnapshot) (sh : IngressShared) : bool * IngressShared :=
  if sh_poisoned sh then (false, sh)
  else if decide (active_count (sh_state sh) ≠ 0%nat ∨ st_store_id retry ≠ sh_store_id sh ∨
                  st_options retry ≠ st_options (in_retry (sh_state sh)))
  then (false, sh)
  else (true, set_state (with_retry retry (sh_state sh)) sh).

(** ** The writer *)

Record InFlightCommand := mkInFlight {
  if_prepared : option PreparedAdmissionV1;
  if_slot_index : nat;
  if_priority : AdmissionPriority;
  if_barrier : BarrierDemand }.
Inductive NextWork := Work (c : InFlightCommand) | BarrierRequired | NextEmpty | Drained | Failed.

Definition take_next (sh : IngressShared) : NextWork * IngressShared :=
  let s := sh_state sh in
  if sh_poisoned sh then (Failed, fail_stop sh)
  else
    match pop (in_queue s) with
    | (Some slot_index, q) =>
      let s := with_queue q s in
      match get_slot s slot_index with
      | None => (Failed, set_state s sh)
      | Some slot =>
        if decide (sl_phase slot ≠ PhaseQueued) then (Failed, set_state s sh)
        else
          match sl_prepared slot with
          | None => (Failed, set_state s sh)
          | Some prepared =>
            let slot' := mkSlot (sl_qualification slot) None (sl_retained_admission slot) (sl_terminal slot)
                           InFlight (sl_reservation slot) (sl_priority slot) (sl_barrier slot) (sl_append slot) in
            (Work (mkInFlight (Some prepared) slot_index (sl_priority slot) (sl_barrier slot)),
             set_state (put_slot slot_index (Some slot') s) sh)
          end
      end
    | (None, q) =>
      let s := with_queue q s in
      if in_closed s && bool_decide (active_count s = 0%nat) then
        match seal (in_latest s) with
        | (true, latest) => (Drained, set_state (with_latest latest s) sh)
        | (false, latest) => (Failed, set_state (with_latest latest s) sh)
        end
      else if in_closed s && negb (in_barrier_requested s)
      then (BarrierRequired, set_state (with_barrier s) sh)
      else (NextEmpty, set_state s sh)
    end.

(** [Drop for InFlightCommand]: a command that was not finished stops all. *)
Definition drop_in_flight (sh : IngressShared) : IngressShared := stop sh.

(** The candidate is the last observation of the envelope, when positioned. *)
Definition publication_candidate (a : CanonicalAdmission) : option PublishedObservation :=
  match last (observations (adm_envelope a)) with
  | Some observation =>
    match obs_position observation with
    | Some position => Some (mkPublished (env_series (adm_envelope a)) observation position)
    | None => None
    end
  | None => None
  end.
Definition prepare_publication (slot_index : nat) (candidate : option PublishedObservation) (sh : IngressShared)
  : result PublicationFault PreparedPublication * IngressShared :=
  let s := sh_state sh in
  if sh_poisoned sh then (Err PublicationFaulted, fail_stop sh)
  else if negb (is_some_and (λ slot, bool_decide (sl_phase slot = InFlight)) (get_slot s slot_index))
  then (Err PublicationFaulted, sh)
  else
    match plan (in_latest s) candidate with
    | Err e => (Err e, sh)
    | Ok p => (Ok (stage (sh_next_arc sh) p), next_arc sh)
    end.

(** [CompletionFaultInjection::None]; the two injected faults are test hooks. *)
Definition complete_handled (slot_index : nat) (admission : CanonicalAdmission) (append : AppendIdentity)
    (preparation : PreparedPublication) (sh : IngressShared) : bool * IngressShared :=
  let s := sh_state sh in
  if sh_poisoned sh then (false, fail_stop sh)
  else
    match get_slot s slot_index with
    | Some slot =>
      if negb (bool_decide (sl_phase slot = InFlight)) || negb (can_complete (in_latest s) preparation)
      then (false, fail_stop sh)
      else
        let slot := mkSlot (sl_qualification slot) (sl_prepared slot) (Some admission) (sl_terminal slot)
                      AwaitingDurability (sl_reservation slot) (sl_priority slot) (sl_barrier slot) (Some append) in
        let sh := set_state (put_slot slot_index (Some slot) (with_latest (commit (in_latest s) preparation) s)) sh in
        match update_receipt (resolve_handled append) (sl_terminal slot) (sh_receipts sh) with
        | (true, h) => (true, wake [sl_terminal slot] (set_receipts h sh))
        | (false, _) => (false, fail_stop sh)
        end
    | None => (false, fail_stop sh)
    end.

(** The validation of one batch entry against its slot. *)
Definition batch_entry_ok (s : IngressState) (h : receipts) (cutoff : DurableCutoff) (entry : DurableBatchEntry) : bool :=
  match get_slot s (be_slot entry) with
  | None => false
  | Some slot =>
    match sl_append slot with
    | None => false
    | Some append =>
      negb (bool_decide (sl_phase slot ≠ AwaitingDurability ∨ append ≠ be_append entry ∨
                         sl_qualification slot ≠ be_qualification entry ∨
                         app_journal append ≠ cut_journal cutoff ∨
                         app_append_sequence append > cut_append_sequence cutoff ∨
                         app_end_offset append > cut_end_offset cutoff)) &&
      match h !! sl_terminal slot with
      | Some r => match r_durable r with None => true | Some _ => false end
      | None => false
      end
    end
  end.

(** The resolving loop: slots are taken and receipts resolved, entry by entry. *)
Fixpoint resolve_batch (entries : list DurableBatchEntry) (committed : ManifestCommit) (s : IngressState)
    (h : receipts) (notifications : list nat) : bool * IngressState * receipts * list nat :=
  match entries with
  | [] => (true, s, h, notifications)
  | entry :: entries =>
    match get_slot s (be_slot entry) with
    | Some slot =>
      match sl_append slot with
      | Some append =>
        let s := with_reserved (saturating_sub (in_reserved_bytes s) (sl_reservation slot))
                   (put_slot (be_slot entry) None s) in
        match update_receipt (resolve_durable (mkDurable append committed)) (sl_terminal slot) h with
        | (true, h) => resolve_batch entries committed s h (notifications_push (sl_terminal slot) notifications)
        | (false, h) => (false, s, h, notifications)
        end
      | None => (false, put_slot (be_slot entry) None s, h, notifications)
      end
    | None => (false, s, h, notifications)
    end
  end.

Definition pending_of (entry : DurableBatchEntry) : PendingRetryOutcome :=
  mkPending (be_qualification entry) (app_append_sequence (be_append entry)) (app_end_offset (be_append entry)).

Definition complete_durable_batch (entries : list DurableBatchEntry) (committed : ManifestCommit)
    (retry : RetryStateSnapshot) (sh : IngressShared) : bool * IngressShared :=
  let s := sh_state sh in
  if sh_poisoned sh then (false, fail_stop sh)
  else if decide (entries = [] ∨ st_store_id retry ≠ sh_store_id sh ∨ st_options retry ≠ st_options (in_retry s) ∨
                  st_reference retry ≠ Some (mc_retry_state committed))
  then (false, fail_stop sh)
  else if negb (verifies_transition (in_retry s) retry (pending_of <$> entries) committed) then (false, fail_stop sh)
  else if negb (forallb (batch_entry_ok s (sh_receipts sh) (mc_durable_cutoff committed)) entries)
  then (false, fail_stop sh)
  else
    match resolve_batch entries committed (with_retry retry s) (sh_receipts sh) [] with
    | (true, s, h, notifications) => (true, notify_one (wake notifications (set_receipts h (set_state s sh))))
    | (false, s, h, _) => (false, fail_stop (set_receipts h (set_state s sh)))
    end.

(** [latest_snapshot] and [pending_counts]. *)
Definition read_latest (sh : IngressShared) : option LatestSnapshot * IngressShared :=
  if sh_poisoned sh then (None, fail_stop sh) else (latest_snapshot (in_latest (sh_state sh)), sh).
Definition pending_counts (sh : IngressShared) : nat * Z :=
  if sh_poisoned sh then (0%nat, 0) else (active_count (sh_state sh), in_reserved_bytes (sh_state sh)).

(** ** Sums over the slots *)

Definition zsum {A} (f : A → Z) (l : list A) : Z := foldr (λ x n, f x + n) 0 l.
Lemma zsum_insert {A} (f : A → Z) l i x y :
  l !! i = Some y → zsum f (<[i := x]> l) = zsum f l - f y + f x.
Proof.
  revert i. induction l as [|z l IH]; intros [|i]; try done.
  - intros [= ->]. change (<[0%nat := x]> (y :: l)) with (x :: l). cbn [zsum foldr]. fold (zsum f l). lia.
  - intros H%IH. change (<[S i := x]> (z :: l)) with (z :: <[i := x]> l). cbn [zsum foldr].
    fold (zsum f l) (zsum f (<[i := x]> l)). lia.
Qed.
Lemma zsum_nonneg {A} (f : A → Z) l : (∀ x, x ∈ l → 0 ≤ f x) → 0 ≤ zsum f l.
Proof.
  induction l as [|x l IH]; intros H; [done|]. cbn [zsum foldr]. fold (zsum f l).
  assert (0 ≤ f x) by (apply H; by left). assert (0 ≤ zsum f l) by (apply IH; intros; apply H; by right). lia.
Qed.
Lemma zsum_const {A} (f : A → Z) l : (∀ x, x ∈ l → f x = 0) → zsum f l = 0.
Proof.
  induction l as [|x l IH]; intros H; [done|]. cbn [zsum foldr]. fold (zsum f l).
  rewrite H by (by left). rewrite IH by (intros; apply H; by right). done.
Qed.

Definition slot_bytes (o : option Slot) : Z := match o with Some slot => sl_reservation slot | None => 0 end.
Definition slot_count (o : option Slot) : Z := match o with Some _ => 1 | None => 0 end.
(** How far a slot is from being released. *)
Definition slot_work (o : option Slot) : Z :=
  match o with
  | Some slot => match sl_phase slot with Preparing => 4 | PhaseQueued => 3 | InFlight => 2 | AwaitingDurability => 1 end
  | None => 0
  end.

Lemma active_count_sum s : Z.of_nat (active_count s) = zsum slot_count (in_slots s).
Proof.
  unfold active_count, occupied. induction (in_slots s) as [|[slot|] l IH]; [done| |];
    cbn [omap list_omap id zsum foldr length slot_count] in *; unfold zsum in IH; lia.
Qed.

Lemma get_slot_Some s i slot : get_slot s i = Some slot ↔ in_slots s !! i = Some (Some slot).
Proof. unfold get_slot. destruct (in_slots s !! i) as [[?|]|]; cbn; naive_solver. Qed.
Lemma get_put_slot i o s j :
  (i < length (in_slots s))%nat → get_slot (put_slot i o s) j = if decide (i = j) then o else get_slot s j.
Proof.
  intros Hi. unfold get_slot, put_slot, with_slots. cbn [in_slots]. case_decide as Hj.
  - subst j. by rewrite list_lookup_insert_eq.
  - by rewrite list_lookup_insert_ne.
Qed.
Lemma elem_occupied s slot : slot ∈ occupied s ↔ ∃ i, get_slot s i = Some slot.
Proof.
  unfold occupied. rewrite list_elem_of_omap. setoid_rewrite get_slot_Some. split.
  - intros (o & [i Hi]%list_elem_of_lookup & E). cbn in E. subst o. by exists i.
  - intros [i Hi]. exists (Some slot). split; [|done]. apply list_elem_of_lookup. by exists i.
Qed.
Lemma no_slots s : active_count s = 0%nat ↔ ∀ i, get_slot s i = None.
Proof.
  unfold active_count. rewrite length_zero_iff_nil. split.
  - intros E i. destruct (get_slot s i) as [slot|] eqn:Hs; [|done].
    assert (slot ∈ occupied s) as Hin by (apply elem_occupied; by exists i). rewrite E in Hin. by apply elem_of_nil in Hin.
  - intros Hn. apply elem_of_nil_inv. intros slot [i Hi]%elem_occupied. by rewrite Hn in Hi.
Qed.
Lemma slot_in_range s i slot : get_slot s i = Some slot → (i < length (in_slots s))%nat.
Proof. rewrite get_slot_Some. apply lookup_lt_Some. Qed.
