(* ===== verification/Runtime.v ===== *)
(** * Interleavings of the runtime ingress

    The step relation of [Ingress]: submitters that hold a reservation, the
    writer's publications and the shared state, with every critical section as
    one step in any order. The invariant says what the sixteen slots, the queue,
    the byte reservation, the receipts and the retry state have to do with each
    other; from it follow that submission never fails for internal reasons, that
    durable batches are all-or-nothing, and that every receipt is settled. *)

From S2P Require Import Prelude Bytes Identity Bounded Value Collection Series Registry Admission.
From S2P Require Import Layout Wire Fields Crc Journal Generation Commit Retry Latest Queue Ingress.

(** ** Freshness against the retry state *)

Definition unretained (retry : RetryStateSnapshot) (q : RetryQualification) : Prop :=
  ∀ q', q' ∈ retained_qualifications retry → scope q' ≠ scope q.

Lemma state_classify_Fresh retry q : state_classify retry q = MatchFresh ↔ unretained retry q.
Proof.
  unfold state_classify, unretained, retained_qualifications. split.
  - intros E. pose proof (classify_replay_cases (st_replay retry) (st_guard retry) q) as Hc. rewrite E in Hc.
    intros q' Hq'. by apply classify_Distinct, Hc.
  - intros Hq. induction (st_replay retry) as [|o os IH].
    + cbn in Hq |- *. induction (st_guard retry) as [|g gs IH]; [done|]. cbn [classify_guard].
      rewrite (proj2 (classify_Distinct (ge_qualification g) q)) by (apply Hq; by left).
      apply IH. intros q' Hin. apply Hq. by right.
    + cbn [classify_replay]. rewrite (proj2 (classify_Distinct (ro_qualification o) q)) by (apply Hq; by left).
      apply IH. intros q' Hin. apply Hq. by right.
Qed.

(** What a transition retains was retained before or comes from its batch. *)
Lemma push_outcome_retained options o tiers q :
  q ∈ (ro_qualification <$> (push_outcome options o tiers).1) ++ (ge_qualification <$> (push_outcome options o tiers).2) →
  q ∈ (ro_qualification <$> tiers.1) ++ (ge_qualification <$> tiers.2) ∨ q = ro_qualification o.
Proof.
  destruct tiers as [replay guard]. unfold push_outcome. cbn [fst snd].
  case_decide; [|cbn [fst snd]; rewrite fmap_app; set_solver].
  destruct (replay ++ [o]) as [|p replay'] eqn:E; [by destruct replay|].
  assert (∀ x, x ∈ p :: replay' → x ∈ replay ∨ x = o) as Hx.
  { intros x. rewrite <-E, elem_of_app, list_elem_of_singleton. tauto. }
  cbn [fst snd]. rewrite elem_of_app, list_elem_of_fmap. intros [(x & -> & Hin)|Hg].
  - destruct (Hx x) as [?| ->]; [by right| |by right]. left. apply elem_of_app. left. by apply list_elem_of_fmap_2.
  - assert (q ∈ ge_qualification <$> (guard ++ [mkGuard (ro_qualification p) (ro_append_sequence p)])) as Hg'.
    { revert Hg. case_decide; [|done]. destruct guard as [|g guard]; [by intros ?%elem_of_nil|].
      cbn [app tail fmap list_fmap]. intros ?. by right. }
    rewrite fmap_app in Hg'. apply elem_of_app in Hg' as [?| ->%list_elem_of_singleton]; [left; apply elem_of_app; by right|].
    cbn [ge_qualification]. destruct (Hx p) as [?| ->]; [by left| |by right].
    left. apply elem_of_app. left. by apply list_elem_of_fmap_2.
Qed.

Lemma advance_loop_retained s committed pending tiers p tiers' q :
  advance_loop s committed pending tiers p = Ok tiers' →
  q ∈ (ro_qualification <$> tiers'.1) ++ (ge_qualification <$> tiers'.2) →
  q ∈ (ro_qualification <$> tiers.1) ++ (ge_qualification <$> tiers.2) ∨ q ∈ po_qualification <$> pending.
Proof.
  revert tiers p. induction pending as [|e pending IH]; intros tiers p; [by intros [= <-]; auto|].
  intros (_ & _ & _ & Hl)%advance_loop_cons Hq. destruct (IH _ _ Hl Hq) as [Hq'|?]; [|right; by right].
  apply push_outcome_retained in Hq' as [?| ->]; [by left|right; by left].
Qed.

(** A verified transition: the batch was fresh, its sequences increase, and
    only its qualifications are new in the tiers. *)
Lemma verified_transition s candidate pending committed :
  verifies_transition s candidate pending committed = true →
  st_store_id candidate = st_store_id s ∧ st_options candidate = st_options s ∧
  (∀ q, q ∈ retained_qualifications candidate → q ∈ retained_qualifications s ∨ q ∈ po_qualification <$> pending) ∧
  StronglySorted Z.lt (po_append_sequence <$> pending).
Proof.
  unfold verifies_transition. destruct (st_reference candidate) as [r|]; [|done].
  destruct (advance s r pending committed) as [e|] eqn:E; [|done]. intros ->%bool_decide_eq_true.
  apply advance_inv in E as (_ & _ & _ & ? & ? & _ & p & Hl & _). split_and!; [done|done| |].
  - intros q. by apply (advance_loop_retained _ _ _ _ _ _ q Hl).
  - apply advance_loop_sequences in Hl. by apply StronglySorted_inv in Hl as [? _].
Qed.

(** ** Receipts *)

(** Stages are written once. *)
Definition settles (r r' : ReceiptState) : Prop :=
  (∀ o, r_handled r = Some o → r_handled r' = Some o) ∧ (∀ o, r_durable r = Some o → r_durable r' = Some o).
Definition receipts_settle (h h' : receipts) : Prop :=
  ∀ loc r, h !! loc = Some r → ∃ r', h' !! loc = Some r' ∧ settles r r'.
Definition settled (r : ReceiptState) : Prop := is_Some (r_handled r) ∧ is_Some (r_durable r).

#[export] Instance settles_preorder : PreOrder settles.
Proof. split; [by split|]. intros a b c [H1 H2] [H3 H4]. split; auto. Qed.
#[export] Instance receipts_settle_preorder : PreOrder receipts_settle.
Proof.
  split; [intros h loc r ?; by exists r|]. intros a b c Hab Hbc loc r Hr.
  destruct (Hab _ _ Hr) as (r' & Hr' & ?), (Hbc _ _ Hr') as (r'' & ? & ?). exists r''. split; [done|by etrans].
Qed.

Lemma resolve_stopped_settles r : settles r (resolve_stopped r).2 ∧ settled (resolve_stopped r).2.
Proof. destruct r as [[o|] [d|]]; cbn; repeat split; cbn; (naive_solver || eauto). Qed.

Lemma receipts_settle_insert h loc r r' : h !! loc = Some r → settles r r' → receipts_settle h (<[loc := r']> h).
Proof.
  intros Hr Hs loc' x Hx. destruct (decide (loc = loc')) as [<-|].
  - rewrite Hr in Hx. injection Hx as <-. exists r'. split; [|done]. apply list_lookup_insert_eq. by eapply lookup_lt_Some.
  - exists x. by rewrite list_lookup_insert_ne.
Qed.
Lemma receipts_settle_snoc h r : receipts_settle h (h ++ [r]).
Proof. intros loc x Hx. exists x. split; [by apply lookup_app_l_Some|done]. Qed.

Lemma update_receipt_stopped h loc r :
  h !! loc = Some r →
  update_receipt resolve_stopped loc h = ((resolve_stopped r).1, <[loc := (resolve_stopped r).2]> h).
Proof. intros E. unfold update_receipt. by rewrite E. Qed.

(** Stopping settles the receipts of the stopped slots and no other. *)
Lemma stop_slots_spec slots h n h' n' :
  stop_slots slots h n = (h', n') →
  length h' = length h ∧
  ∀ loc r, h !! loc = Some r →
    h' !! loc = Some (if decide (loc ∈ sl_terminal <$> slots) then (resolve_stopped r).2 else r).
Proof.
  revert h n. induction slots as [|slot slots IH]; intros h n; cbn [stop_slots].
  - intros [= <- <-]. split; [done|]. intros loc r Hr. rewrite decide_False; [done|]. apply not_elem_of_nil.
  - destruct (h !! sl_terminal slot) as [x|] eqn:Ex.
    + rewrite (update_receipt_stopped _ _ x Ex). intros [Hl Hh]%IH. rewrite length_insert in Hl. split; [done|].
      intros loc r Hr. cbn [fmap list_fmap]. destruct (decide (sl_terminal slot = loc)) as [E|Hne].
      * rewrite (decide_True) by (rewrite E; by left). rewrite E in *. rewrite Hr in Ex. injection Ex as <-.
        rewrite (Hh loc (resolve_stopped r).2) by (apply list_lookup_insert_eq; by eapply lookup_lt_Some).
        f_equal. case_decide; [|done]. destruct r as [[?|] [?|]]; done.
      * rewrite (Hh loc r) by (by rewrite list_lookup_insert_ne). f_equal.
        destruct (decide (loc ∈ sl_terminal <$> slots)); [rewrite decide_True by (by right)|rewrite decide_False]; try done.
        intros [?|?]%elem_of_cons; [by destruct Hne|done].
    + assert (update_receipt resolve_stopped (sl_terminal slot) h = (false, h)) as -> by (unfold update_receipt; by rewrite Ex).
      intros [Hl Hh]%IH. split; [done|]. intros loc r Hr. rewrite (Hh loc r Hr). f_equal. cbn [fmap list_fmap].
      destruct (decide (loc ∈ sl_terminal <$> slots)); [rewrite decide_True by (by right)|rewrite decide_False]; try done.
      intros [->|?]%elem_of_cons; [congruence|done].
Qed.

(** ** The invariant of the shared state *)

Record slot_ok (h : receipts) (retry : RetryStateSnapshot) (slot : Slot) : Prop := {
  so_reservation : 0 ≤ sl_reservation slot;
  so_fresh : unretained retry (sl_qualification slot);
  so_receipt : h !! sl_terminal slot = Some (mkReceipt (WriterHandled <$> sl_append slot) None);
  so_phase :
    match sl_phase slot with
    | Preparing | InFlight => sl_prepared slot = None ∧ sl_append slot = None
    | PhaseQueued => sl_append slot = None ∧ ∃ p, sl_prepared slot = Some p ∧
                     prep_frame_len p = sl_reservation slot ∧ adm_retry (prep_admission p) = sl_qualification slot
    | AwaitingDurability => sl_prepared slot = None ∧ is_Some (sl_append slot) ∧ is_Some (sl_retained_admission slot)
    end }.

(** The writer was stopped: nothing is outstanding any more. *)
Definition stopped (s : IngressState) : Prop := ls_current (in_latest s) = None.

Record ingress_ok (sh : IngressShared) : Prop := {
  io_slots : length (in_slots (sh_state sh)) = MAX_OUTSTANDING_COMMANDS;
  io_slot : ∀ i slot, get_slot (sh_state sh) i = Some slot →
    slot_ok (sh_receipts sh) (in_retry (sh_state sh)) slot;
  io_queue : ∃ l, holds (in_queue (sh_state sh)) l ∧ NoDup l ∧
    ∀ i, i ∈ l ↔ ∃ slot, get_slot (sh_state sh) i = Some slot ∧ sl_phase slot = PhaseQueued;
  io_terminals : ∀ i j a b, get_slot (sh_state sh) i = Some a → get_slot (sh_state sh) j = Some b →
    sl_terminal a = sl_terminal b → i = j;
  io_scopes : ∀ i j a b, get_slot (sh_state sh) i = Some a → get_slot (sh_state sh) j = Some b →
    scope (sl_qualification a) = scope (sl_qualification b) → i = j;
  io_limits : wf (in_byte_limits (sh_state sh));
  io_reserved : in_reserved_bytes (sh_state sh) = zsum slot_bytes (in_slots (sh_state sh));
  io_bound : in_reserved_bytes (sh_state sh) ≤ bl_total (in_byte_limits (sh_state sh));
  io_receipts : ∀ loc r, sh_receipts sh !! loc = Some r →
    (∃ i slot, get_slot (sh_state sh) i = Some slot ∧ sl_terminal slot = loc) ∨ settled r;
  io_stopped : stopped (sh_state sh) →
    in_closed (sh_state sh) = true ∧ active_count (sh_state sh) = 0%nat ∧ ls_sealed (in_latest (sh_state sh)) = true }.

Lemma reserved_nonneg sh : ingress_ok sh → 0 ≤ in_reserved_bytes (sh_state sh).
Proof.
  intros [_ Hs _ _ _ _ -> _ _ _]. apply zsum_nonneg. intros [slot|] Hin; [|done].
  apply list_elem_of_lookup in Hin as [i Hi]. apply (Hs i). by apply get_slot_Some.
Qed.

Lemma no_slot_None sh i : get_slot (sh_state (fail_stop sh)) i = None.
Proof.
  unfold fail_stop, stop_all. destruct (stop_slots _ _ _) as [h n]. unfold get_slot. cbn.
  rewrite list_lookup_fmap. by destruct (in_slots (sh_state sh) !! i).
Qed.

(** The receipts after a stop. *)
Lemma fail_stop_receipts sh :
  receipts_settle (sh_receipts sh) (sh_receipts (fail_stop sh)) ∧
  (ingress_ok sh → ∀ loc r, sh_receipts (fail_stop sh) !! loc = Some r → settled r).
Proof.
  unfold fail_stop, stop_all. destruct (stop_slots _ _ _) as [h n] eqn:E. cbn.
  apply stop_slots_spec in E as [Hl Hh]. split.
  - intros loc r Hr. eexists. split; [by apply Hh|]. case_decide; [apply resolve_stopped_settles|done].
  - intros Hok loc r Hr. destruct (lookup_lt_is_Some_2 (sh_receipts sh) loc) as [x Hx].
    { rewrite <-Hl. by eapply lookup_lt_Some. }
    rewrite (Hh _ _ Hx) in Hr. injection Hr as <-.
    destruct (io_receipts _ Hok _ _ Hx) as [(i & slot & Hi & <-)|Hs].
    + rewrite decide_True; [apply resolve_stopped_settles|]. apply list_elem_of_fmap_2, elem_occupied. by exists i.
    + case_decide; [apply resolve_stopped_settles|done].
Qed.

Lemma fail_stop_ok sh : ingress_ok sh → ingress_ok (fail_stop sh) ∧ stopped (sh_state (fail_stop sh)).
Proof.
  intros Hok. pose proof (no_slot_None sh) as Hn. pose proof (proj2 (fail_stop_receipts sh) Hok) as Hset.
  pose proof (reserved_nonneg sh Hok) as Hr. pose proof Hok as [Hl _ _ _ _ Hlim _ Hb _ _].
  assert (in_latest (sh_state (fail_stop sh)) = mkLatest None true) as El.
  { unfold fail_stop, stop_all. by destruct (stop_slots _ _ _). }
  assert (stopped (sh_state (fail_stop sh))) as Hst by (unfold stopped; by rewrite El).
  split; [|done].
  assert (in_slots (sh_state (fail_stop sh)) = (λ _, None) <$> in_slots (sh_state sh) ∧
    in_queue (sh_state (fail_stop sh)) = queue_new ∧ in_byte_limits (sh_state (fail_stop sh)) = in_byte_limits (sh_state sh) ∧
    in_reserved_bytes (sh_state (fail_stop sh)) = 0 ∧ in_closed (sh_state (fail_stop sh)) = true) as (Es & Eq & Eb & Er & Ec).
  { unfold fail_stop, stop_all. by destruct (stop_slots _ _ _). }
  split.
  - by rewrite Es, length_fmap.
  - intros i slot Hi. by rewrite Hn in Hi.
  - exists []. rewrite Eq. split_and!; [apply queue_new_holds|constructor|]. intros i. rewrite elem_of_nil.
    split; [done|]. intros (slot & Hi & _). by rewrite Hn in Hi.
  - intros i j a b Hi. by rewrite Hn in Hi.
  - intros i j a b Hi. by rewrite Hn in Hi.
  - by rewrite Eb.
  - rewrite Er, Es. symmetry. apply zsum_const. by intros o (? & -> & _)%list_elem_of_fmap.
  - rewrite Er, Eb. lia.
  - intros loc r Hloc. right. by eapply Hset.
  - intros _. split_and!; [done|by apply no_slots|by rewrite El].
Qed.

(** Waking and the two flags do not matter. *)
Lemma ingress_ok_eq sh sh' :
  sh_state sh' = sh_state sh → sh_receipts sh' = sh_receipts sh → ingress_ok sh → ingress_ok sh'.
Proof. intros Es Er []. split; rewrite ?Es, ?Er; done. Qed.

(** ** Changing, adding and removing one slot *)

(** [sh'] differs from [sh] in slot [i]; queue, latest and receipts may move. *)
Record moves (sh sh' : IngressShared) (i : nat) (o : option Slot) : Prop := {
  mv_slots : in_slots (sh_state sh') = <[i := o]> (in_slots (sh_state sh));
  mv_range : (i < MAX_OUTSTANDING_COMMANDS)%nat;
  mv_closed : in_closed (sh_state sh') = in_closed (sh_state sh);
  mv_limits : in_byte_limits (sh_state sh') = in_byte_limits (sh_state sh);
  mv_retry : in_retry (sh_state sh') = in_retry (sh_state sh);
  mv_stopped : stopped (sh_state sh') → in_latest (sh_state sh') = in_latest (sh_state sh);
  mv_reserved : in_reserved_bytes (sh_state sh') =
    in_reserved_bytes (sh_state sh) - slot_bytes (get_slot (sh_state sh) i) + slot_bytes o;
  mv_queue : ∃ l, holds (in_queue (sh_state sh')) l ∧ NoDup l ∧ ∀ j, j ∈ l ↔
    if decide (i = j) then ∃ slot, o = Some slot ∧ sl_phase slot = PhaseQueued
    else ∃ slot, get_slot (sh_state sh) j = Some slot ∧ sl_phase slot = PhaseQueued;
  mv_receipts : ∀ loc r, sh_receipts sh !! loc = Some r →
    (∀ j slot, j ≠ i → get_slot (sh_state sh) j = Some slot → sl_terminal slot = loc →
      sh_receipts sh' !! loc = Some r) }.

Lemma moves_get sh sh' i o j :
  ingress_ok sh → moves sh sh' i o →
  get_slot (sh_state sh') j = if decide (i = j) then o else get_slot (sh_state sh) j.
Proof.
  intros Hok Hm. rewrite <-(get_put_slot i o (sh_state sh) j) by (rewrite (io_slots _ Hok); apply Hm).
  unfold get_slot. by rewrite (mv_slots _ _ _ _ Hm).
Qed.

Lemma moves_ok sh sh' i o :
  ingress_ok sh → moves sh sh' i o →
  (∀ slot, o = Some slot → slot_ok (sh_receipts sh') (in_retry (sh_state sh)) slot ∧
    (∀ j a, j ≠ i → get_slot (sh_state sh) j = Some a →
      sl_terminal a ≠ sl_terminal slot ∧ scope (sl_qualification a) ≠ scope (sl_qualification slot))) →
  in_reserved_bytes (sh_state sh') ≤ bl_total (in_byte_limits (sh_state sh)) →
  (∀ loc r, sh_receipts sh' !! loc = Some r → settled r ∨ (∃ slot, o = Some slot ∧ sl_terminal slot = loc) ∨
    ∃ j slot, j ≠ i ∧ get_slot (sh_state sh) j = Some slot ∧ sl_terminal slot = loc) →
  (stopped (sh_state sh) → o = None) →
  ingress_ok sh'.
Proof.
  intros Hok Hm Ho Hb Hr Hst. pose proof (moves_get sh sh' i o) as Hget. specialize (λ j, Hget j Hok Hm).
  pose proof Hm as [Ms Mi Mc Ml Mr Mst Mres Mq Mrec].
  assert (∀ j k a b, get_slot (sh_state sh') j = Some a → get_slot (sh_state sh') k = Some b → j ≠ k →
    sl_terminal a ≠ sl_terminal b ∧ scope (sl_qualification a) ≠ scope (sl_qualification b)) as Hdist.
  { intros j k a b. rewrite !Hget. intros Ha Hb' Hjk. destruct (decide (i = j)) as [Hj|Hj], (decide (i = k)) as [Hk|Hk]; try congruence.
    - subst j. destruct (Ho a Ha) as [_ Hd]. destruct (Hd k b) as [??]; [done..|]. by split; apply not_eq_sym.
    - subst k. destruct (Ho b Hb') as [_ Hd]. apply (Hd j a); done.
    - split; intros E; apply Hjk; [by eapply (io_terminals _ Hok)|by eapply (io_scopes _ Hok)]. }
  split.
  - rewrite Ms, length_insert. apply Hok.
  - intros j slot. rewrite Hget, Mr. case_decide as Hj; [intros E; by apply Ho|]. intros Hs.
    destruct (io_slot _ Hok _ _ Hs) as [? ? Hrec ?]. split; try done. by eapply Mrec.
  - destruct Mq as (l & Hl & Hn & Hin). exists l. split_and!; [done..|]. intros j. rewrite Hin. setoid_rewrite Hget.
    by case_decide.
  - intros j k a b Ha Hb' E. destruct (decide (j = k)) as [|Hjk]; [done|]. by destruct (Hdist j k a b Ha Hb' Hjk).
  - intros j k a b Ha Hb' E. destruct (decide (j = k)) as [|Hjk]; [done|]. by destruct (Hdist j k a b Ha Hb' Hjk).
  - rewrite Ml. apply Hok.
  - rewrite Mres, Ms, (io_reserved _ Hok).
    assert (∃ y, in_slots (sh_state sh) !! i = Some y) as [y Hy].
    { apply lookup_lt_is_Some_2. rewrite (io_slots _ Hok). done. }
    rewrite (zsum_insert _ _ _ _ y Hy). unfold get_slot. by rewrite Hy.
  - by rewrite Ml.
  - intros loc r [?|[(slot & -> & <-)|(j & slot & Hj & Hs & <-)]]%Hr; [by right|left..].
    + exists i, slot. rewrite Hget. by rewrite decide_True.
    + exists j, slot. rewrite Hget. by rewrite decide_False by auto.
  - intros Hs. pose proof (Mst Hs) as El. unfold stopped in Hs. rewrite El in Hs.
    destruct (io_stopped _ Hok Hs) as (Hc & Ha & Hse). split_and!; [by rewrite Mc| |by rewrite El]. apply no_slots. intros j.
    rewrite Hget. case_decide; [by apply Hst|]. by apply no_slots.
Qed.

(** The queue is unchanged, and so is whether slot [i] is queued. *)
Lemma queue_kept sh i o q :
  ingress_ok sh → q = in_queue (sh_state sh) →
  ((∃ slot, o = Some slot ∧ sl_phase slot = PhaseQueued) ↔
   ∃ slot, get_slot (sh_state sh) i = Some slot ∧ sl_phase slot = PhaseQueued) →
  ∃ l, holds q l ∧ NoDup l ∧ ∀ j, j ∈ l ↔
    if decide (i = j) then ∃ slot, o = Some slot ∧ sl_phase slot = PhaseQueued
    else ∃ slot, get_slot (sh_state sh) j = Some slot ∧ sl_phase slot = PhaseQueued.
Proof.
  intros Hok -> Hiff. destruct (io_queue _ Hok) as (l & Hl & Hn & Hin). exists l. split_and!; [done..|].
  intros j. rewrite Hin. case_decide; [by subst|done].
Qed.

Lemma phase_not_queued o phase :
  (∀ slot : Slot, o = Some slot → sl_phase slot = phase) → phase ≠ PhaseQueued →
  ¬ ∃ slot, o = Some slot ∧ sl_phase slot = PhaseQueued.
Proof. intros Ho Hp (slot & E & Hq). rewrite (Ho _ E) in Hq. done. Qed.

Lemma first_empty_Some slots i : first_empty slots = Some i → slots !! i = Some None.
Proof.
  unfold first_empty. intros ([j x] & E & ->)%fmap_Some. apply list_find_Some in E as (Hj & -> & _). done.
Qed.

Lemma match_slots_spec slots q :
  match match_slots slots q with
  | MatchedSlot t => ∃ slot, slot ∈ slots ∧ sl_qualification slot = q ∧ sl_terminal slot = t
  | ConflictingSlot => ∃ slot, slot ∈ slots ∧ classify (sl_qualification slot) q = Conflict
  | NoSlot => ∀ slot, slot ∈ slots → scope (sl_qualification slot) ≠ scope q
  end.
Proof.
  induction slots as [|slot slots IH]; cbn [match_slots]; [by intros slot ?%elem_of_nil|].
  destruct (classify (sl_qualification slot) q) eqn:E.
  - destruct (match_slots slots q); try (destruct IH as (x & ? & ?); exists x; split; [by right|done]).
    intros x [->|Hx]%elem_of_cons; [by apply classify_Distinct|by apply IH].
  - apply classify_Equivalent in E. exists slot. split; [by left|done].
  - exists slot. split; [by left|done].
Qed.

Lemma class_ceiling_bound l p : wf l → class_ceiling l p ≤ bl_total l.
Proof.
  unfold wf, wf_byte_limits. rewrite !andb_True, !in_range_spec. intros [[[? ?] ?] _].
  destruct p; cbn; lia.
Qed.

Lemma can_reserve_bound s p n : wf (in_byte_limits s) → can_reserve s p n = true → in_reserved_bytes s + n ≤ bl_total (in_byte_limits s).
Proof.
  intros Hw. unfold can_reserve, checked_add. case_decide; [|done]. cbn. intros Hc%bool_decide_eq_true.
  pose proof (class_ceiling_bound _ p Hw). lia.
Qed.

Lemma replay_receipt_settled o : settled (replay_receipt o).
Proof. split; by eexists. Qed.

(** A receipt that is settled from the start changes nothing else. *)
Lemma replay_ok sh r :
  ingress_ok sh → settled r → ingress_ok (set_receipts (sh_receipts sh ++ [r]) sh).
Proof.
  intros Hok Hs. pose proof Hok as [? Hsl ? ? ? ? ? ? Hr ?]. split; cbn [sh_state sh_receipts set_receipts]; try done.
  - intros i slot Hi. destruct (Hsl i slot Hi). split; try done. by apply lookup_app_l_Some.
  - intros loc x Hx. apply lookup_app_Some in Hx as [Hx|[_ Hx]]; [by apply Hr|].
    apply list_lookup_singleton_Some in Hx as [_ <-]. by right.
Qed.

(** What a reservation adds. *)
Definition reserved_slot (command : IngressCommand) (sh : IngressShared) (n : Z) : Slot :=
  mkSlot (adm_retry (cmd_admission command)) None None (length (sh_receipts sh)) Preparing n
    (cmd_priority command) (cmd_barrier command) None.

Lemma reserve_ok command measured sh :
  ingress_ok sh → (∀ n, measured = Ok n → 0 ≤ n) →
  let '(answer, sh') := submit_reserve command measured sh in
  ingress_ok sh' ∧ receipts_settle (sh_receipts sh) (sh_receipts sh') ∧
  match answer with
  | Answered _ => stopped (sh_state sh') ∨ ∀ i, get_slot (sh_state sh') i = get_slot (sh_state sh) i
  | Reserved i t n =>
    get_slot (sh_state sh) i = None ∧ t = length (sh_receipts sh) ∧ measured = Ok n ∧ ¬ stopped (sh_state sh) ∧
    moves sh sh' i (Some (reserved_slot command sh n))
  end.
Proof.
  intros Hok Hm. unfold submit_reserve. set (q := adm_retry _).
  assert (ingress_ok sh ∧ receipts_settle (sh_receipts sh) (sh_receipts sh) ∧
    (stopped (sh_state sh) ∨ ∀ i, get_slot (sh_state sh) i = get_slot (sh_state sh) i)) as Hsame.
  { split_and!; [done|done|by right]. }
  destruct (sh_poisoned sh).
  { destruct (fail_stop_ok sh Hok) as [? ?].
    split_and!; [by apply (ingress_ok_eq (fail_stop sh))|apply fail_stop_receipts|by left]. }
  destruct (in_closed (sh_state sh)) eqn:Hcl; [done|]. case_decide; [done|]. destruct measured as [n|e]; [|done].
  pose proof (match_slots_spec (occupied (sh_state sh)) q) as Hmatch. destruct (match_slots _ q); [done|done|].
  destruct (state_classify _ q) as [o| | |] eqn:Hcls; try done.
  { split_and!; [apply replay_ok; [done|apply replay_receipt_settled]|apply receipts_settle_snoc|by right]. }
  case_decide; [done|]. destruct (can_reserve _ _ n) eqn:Hcan; [|done]. cbn [negb].
  destruct (first_empty _) as [i|] eqn:Hi; [|done]. apply first_empty_Some in Hi. clear Hsame.
  assert (get_slot (sh_state sh) i = None) as Hnone by (unfold get_slot; by rewrite Hi).
  fold (reserved_slot command sh n). set (sh' := set_receipts _ _).
  assert (moves sh sh' i (Some (reserved_slot command sh n))) as Hmv.
  { unfold sh'. split; try done; cbn [sh_state sh_receipts set_receipts set_state in_slots put_slot with_slots with_reserved
      in_reserved_bytes in_queue in_latest].
    - rewrite <-(io_slots _ Hok). by eapply lookup_lt_Some.
    - rewrite Hnone. cbn. lia.
    - apply queue_kept; [done|done|]. rewrite Hnone. split; [intros (? & [= <-] & ?)|intros (? & ? & _)]; done.
    - intros loc r Hr ?????. by apply lookup_app_l_Some. }
  assert (¬ stopped (sh_state sh)) as Hns.
  { intros Hs. destruct (io_stopped _ Hok Hs) as (Hc & _). congruence. }
  split_and!; try done; [|apply receipts_settle_snoc].
  apply (moves_ok sh sh' i _ Hok Hmv).
  - intros slot [= <-]. unfold sh'. cbn [sh_receipts set_receipts sl_terminal reserved_slot sl_qualification].
    split; [split; cbn [reserved_slot sl_reservation sl_qualification sl_terminal sl_append sl_phase sl_prepared]; try done|].
    + by apply Hm.
    + by apply state_classify_Fresh.
    + by apply list_lookup_middle.
    + intros j a _ Ha. split.
      * pose proof (so_receipt _ _ _ (io_slot _ Hok _ _ Ha)) as Hr. apply lookup_lt_Some in Hr. lia.
      * apply Hmatch, elem_occupied. by exists j.
  - unfold sh'. cbn. by apply (can_reserve_bound _ (cmd_priority command)), Hcan; apply Hok.
  - intros loc r. unfold sh'. cbn [sh_receipts set_receipts]. intros [Hr|[Hge Hr]]%lookup_app_Some.
    + destruct (io_receipts _ Hok _ _ Hr) as [(j & slot & Hj & <-)|?]; [|by left]. right. right. exists j, slot.
      split_and!; try done. intros ->. congruence.
    + apply list_lookup_singleton_Some in Hr as [Hr _]. right. left. eexists. split; [done|]. cbn. lia.
  - done.
Qed.

(** *** Removing a slot whose receipt was settled *)

Lemma other_slot sh i slot j a :
  ingress_ok sh → get_slot (sh_state sh) i = Some slot → j ≠ i → get_slot (sh_state sh) j = Some a →
  sl_terminal a ≠ sl_terminal slot ∧ scope (sl_qualification a) ≠ scope (sl_qualification slot).
Proof.
  intros Hok Hi Hj Ha. split; intros E; apply Hj; [by eapply (io_terminals _ Hok)|by eapply (io_scopes _ Hok)].
Qed.

Lemma slot_bytes_bound sh i slot :
  ingress_ok sh → get_slot (sh_state sh) i = Some slot →
  0 ≤ sl_reservation slot ≤ in_reserved_bytes (sh_state sh).
Proof.
  intros Hok Hi. split; [by eapply so_reservation, io_slot|]. rewrite (io_reserved _ Hok).
  apply get_slot_Some in Hi. pose proof (zsum_insert slot_bytes _ i None _ Hi) as E. cbn in E.
  enough (0 ≤ zsum slot_bytes (<[i:=None]> (in_slots (sh_state sh)))) by lia.
  apply zsum_nonneg. intros [x|] Hx; [|done]. apply list_elem_of_lookup in Hx as [j Hj].
  apply list_lookup_insert_Some in Hj as [(_ & [=] & _)|[_ Hj]].
  by eapply so_reservation, (io_slot _ Hok j), get_slot_Some.
Qed.

Lemma remove_ok sh sh' i slot r' :
  ingress_ok sh → get_slot (sh_state sh) i = Some slot → moves sh sh' i None →
  sh_receipts sh' = <[sl_terminal slot := r']> (sh_receipts sh) → settled r' →
  ingress_ok sh'.
Proof.
  intros Hok Hi Hm Hr Hs. apply (moves_ok sh sh' i None Hok Hm); try done.
  - rewrite (mv_reserved _ _ _ _ Hm), Hi. cbn. pose proof (slot_bytes_bound _ _ _ Hok Hi). pose proof (io_bound _ Hok). lia.
  - intros loc r. rewrite Hr. intros [(<- & <- & _)|[Hne Hl]]%list_lookup_insert_Some; [by left|].
    destruct (io_receipts _ Hok _ _ Hl) as [(j & a & Hj & <-)|?]; [|by left]. right. right. exists j, a.
    split_and!; try done. intros ->. congruence.
Qed.

Lemma saturating_sub_le a b : 0 ≤ b ≤ a → saturating_sub a b = a - b.
Proof. unfold saturating_sub. lia. Qed.

Lemma rollback_ok i sh :
  ingress_ok sh → (∀ slot, get_slot (sh_state sh) i = Some slot → sl_phase slot = Preparing) →
  let sh' := rollback_preparation i sh in
  ingress_ok sh' ∧ receipts_settle (sh_receipts sh) (sh_receipts sh') ∧
  (stopped (sh_state sh') ∨ ∀ j, get_slot (sh_state sh') j = if decide (i = j) then None else get_slot (sh_state sh) j).
Proof.
  intros Hok Hph. cbv zeta. unfold rollback_preparation. destruct (sh_poisoned sh).
  { destruct (fail_stop_ok sh Hok). split_and!; [by apply (ingress_ok_eq (fail_stop sh))|apply fail_stop_receipts|by left]. }
  destruct (get_slot (sh_state sh) i) as [slot|] eqn:Hi.
  2:{ split_and!; [done|done|right]. intros j. case_decide; [by subst|done]. }
  pose proof (io_slot _ Hok _ _ Hi) as [Hres Hfr Hrec Hphase]. specialize (Hph slot eq_refl).
  rewrite (update_receipt_stopped _ _ _ Hrec).
  set (sh0 := set_receipts _ _).
  assert (moves sh sh0 i None) as Hmv.
  { unfold sh0. split; try done; cbn [sh_state sh_receipts set_receipts set_state in_reserved_bytes with_reserved in_queue
      put_slot with_slots with_queue].
    - rewrite <-(io_slots _ Hok). by eapply slot_in_range.
    - rewrite Hi. cbn. rewrite saturating_sub_le by (by eapply slot_bytes_bound). lia.
    - apply queue_kept; [done|done|]. rewrite Hi. split; [by intros (? & ? & _)|]. intros (? & [= <-] & ?). congruence.
    - intros loc r Hl j a Hj Ha Ht. rewrite list_lookup_insert_ne; [done|]. subst loc.
      apply not_eq_sym. by apply (other_slot sh i slot j a). }
  assert (ingress_ok sh0) as Hok0.
  { eapply remove_ok; [exact Hok|exact Hi|exact Hmv|done|]. apply resolve_stopped_settles. }
  assert (receipts_settle (sh_receipts sh) (sh_receipts sh0)) as Hset.
  { eapply receipts_settle_insert; [exact Hrec|apply resolve_stopped_settles]. }
  assert (∀ j, get_slot (sh_state sh0) j = if decide (i = j) then None else get_slot (sh_state sh) j) as Hg.
  { intros j. by apply moves_get. }
  destruct (resolve_stopped _).1; (split_and!; [by apply (ingress_ok_eq sh0)|done|by right]).
Qed.

(** *** Replacing a slot by its next phase *)

Lemma replace_ok sh sh' i a b :
  ingress_ok sh → get_slot (sh_state sh) i = Some a → moves sh sh' i (Some b) →
  sl_terminal b = sl_terminal a → sl_qualification b = sl_qualification a → sl_reservation b = sl_reservation a →
  slot_ok (sh_receipts sh') (in_retry (sh_state sh)) b →
  (∀ loc r, sh_receipts sh' !! loc = Some r → loc = sl_terminal a ∨ sh_receipts sh !! loc = Some r) →
  ingress_ok sh'.
Proof.
  intros Hok Hi Hm Et Eq Er Hb Hr. apply (moves_ok sh sh' i (Some b) Hok Hm).
  - intros slot [= <-]. split; [done|]. intros j x Hj Hx. rewrite Et, Eq. by apply (other_slot sh i a j x).
  - rewrite (mv_reserved _ _ _ _ Hm), Hi. cbn. rewrite Er. pose proof (io_bound _ Hok). lia.
  - intros loc r [->|Hl]%Hr; [right; left; by exists b|].
    destruct (io_receipts _ Hok _ _ Hl) as [(j & x & Hj & <-)|?]; [|by left]. right.
    destruct (decide (j = i)) as [->|]; [|right; by exists j, x]. left. exists b. rewrite Hi in Hj. split; congruence.
  - intros Hs. destruct (io_stopped _ Hok Hs) as (_ & Ha & _). rewrite no_slots in Ha. by rewrite Ha in Hi.
Qed.

(** Slot [i] joins the back of the queue. *)
Lemma queue_pushed sh i a b :
  ingress_ok sh → get_slot (sh_state sh) i = Some a → sl_phase a ≠ PhaseQueued → sl_phase b = PhaseQueued →
  can_push (in_queue (sh_state sh)) = true ∧
  ∃ l, holds (push i (in_queue (sh_state sh))) l ∧ NoDup l ∧ ∀ j, j ∈ l ↔
    if decide (i = j) then ∃ slot, Some b = Some slot ∧ sl_phase slot = PhaseQueued
    else ∃ slot, get_slot (sh_state sh) j = Some slot ∧ sl_phase slot = PhaseQueued.
Proof.
  intros Hok Hi Ha Hb. destruct (io_queue _ Hok) as (l & Hl & Hn & Hin).
  assert (i ∉ l) as Hil by (intros (x & Hx & ?)%Hin; congruence).
  assert (length l < MAX_OUTSTANDING_COMMANDS)%nat as Hlt.
  { assert (NoDup (i :: l)) as Hd by (by constructor).
    assert (i :: l ⊆ seq 0 MAX_OUTSTANDING_COMMANDS) as Hsub.
    { intros j Hj. apply elem_of_seq. rewrite <-(io_slots _ Hok).
      apply elem_of_cons in Hj as [-> | (x & Hx & _)%Hin]; split; try lia; by eapply slot_in_range. }
    assert (i :: l ⊆+ seq 0 MAX_OUTSTANDING_COMMANDS) as Hlen%submseteq_length by (by apply NoDup_submseteq).
    rewrite length_seq in Hlen. cbn [length] in Hlen. lia. }
  split; [rewrite (can_push_holds _ _ Hl); by apply bool_decide_eq_true|].
  exists (l ++ [i]). split_and!; [by apply push_holds| |].
  - apply NoDup_app. split_and!; [done| |apply NoDup_singleton]. intros j Hj ->%list_elem_of_singleton. done.
  - intros j. rewrite elem_of_app, list_elem_of_singleton. case_decide as Hij.
    + split; [intros _; by exists b|auto].
    + rewrite <-Hin. naive_solver.
Qed.

Lemma prepared_new_admission a p : prepared_new a = Ok p → prep_admission p = a.
Proof.
  unfold prepared_new. destruct (admission_frame_len_v1 a), (encode_canonical_payload a encoder_new); try done.
  case_decide; [done|]. by intros [= <-].
Qed.
Lemma prepared_new_refused a e : prepared_new a = Err e → prepare_admission e = a.
Proof.
  unfold prepared_new. destruct (admission_frame_len_v1 a), (encode_canonical_payload a encoder_new);
    try (by intros [= <-]). case_decide; [by intros [= <-]|done].
Qed.

Lemma enqueue_ok i t p priority barrier sh slot :
  ingress_ok sh → get_slot (sh_state sh) i = Some slot → sl_phase slot = Preparing →
  prep_frame_len p = sl_reservation slot → adm_retry (prep_admission p) = sl_qualification slot →
  let '(answer, sh') := submit_enqueue i t p priority barrier sh in
  ingress_ok sh' ∧ receipts_settle (sh_receipts sh) (sh_receipts sh') ∧
  ((stopped (sh_state sh') ∧ sh_poisoned sh = true) ∨ (answer = Ok (mkSubmission Queued t) ∧ ∃ b, sl_phase b = PhaseQueued ∧
    moves sh sh' i (Some b))).
Proof.
  intros Hok Hi Hph Hlen Hq. unfold submit_enqueue. destruct (sh_poisoned sh) eqn:Hpo.
  { destruct (fail_stop_ok sh Hok). split_and!; [done|apply fail_stop_receipts|by left]. }
  rewrite Hi. cbn [is_some_and]. rewrite (bool_decide_eq_true_2 _ Hph). cbn [negb orb].
  pose proof (io_slot _ Hok _ _ Hi) as [Hres Hfr Hrec Hphase]. rewrite Hph in Hphase. destruct Hphase as [_ Happ].
  set (b := mkSlot _ _ _ _ PhaseQueued _ _ _ _).
  destruct (queue_pushed sh i slot b Hok Hi ltac:(congruence) eq_refl) as [-> Hqueue]. cbn [negb].
  set (sh' := notify_one _).
  assert (moves sh sh' i (Some b)) as Hmv.
  { unfold sh'. split; try done; cbn [sh_state notify_one set_state in_reserved_bytes with_queue in_queue put_slot with_slots].
    - rewrite <-(io_slots _ Hok). by eapply slot_in_range.
    - rewrite Hi. cbn. lia. }
  split_and!; [|done|right; split; [done|by exists b]].
  apply (replace_ok sh sh' i slot b); try done; [|by right].
  unfold b. split; try done. cbn [sl_phase sl_append sl_prepared]. split; [done|]. by exists p.
Qed.

(** *** The writer *)

Lemma take_next_work sh i l :
  ingress_ok sh → sh_poisoned sh = false → holds (in_queue (sh_state sh)) (i :: l) →
  ∃ slot b c, get_slot (sh_state sh) i = Some slot ∧ sl_phase slot = PhaseQueued ∧ sl_phase b = InFlight ∧
    sl_qualification b = sl_qualification slot ∧ if_slot_index c = i ∧
    (take_next sh).1 = Work c ∧ moves sh (take_next sh).2 i (Some b) ∧
    ingress_ok (take_next sh).2 ∧ sh_receipts (take_next sh).2 = sh_receipts sh ∧
    sh_next_arc (take_next sh).2 = sh_next_arc sh ∧ in_latest (sh_state (take_next sh).2) = in_latest (sh_state sh).
Proof.
  intros Hok Hpo Hl. pose proof (pop_holds _ _ Hl) as [Eh Ht]. cbn [head tail] in *.
  destruct (io_queue _ Hok) as (l' & Hl' & Hn & Hin).
  assert (l' = i :: l) as -> by (by eapply holds_inj).
  destruct (proj1 (Hin i)) as (slot & Hi & Hph); [by left|].
  pose proof (io_slot _ Hok _ _ Hi) as [Hres Hfr Hrec Hphase]. rewrite Hph in Hphase.
  destruct Hphase as (Happ & p & Hp & _ & _).
  unfold take_next. rewrite Hpo. destruct (pop (in_queue (sh_state sh))) as [o q] eqn:Epop. cbn [fst snd] in *. subst o.
  change (get_slot (with_queue q (sh_state sh)) i) with (get_slot (sh_state sh) i).
  rewrite Hi, decide_False, Hp by tauto. set (b := mkSlot _ _ _ _ InFlight _ _ _ _). cbn [fst snd].
  set (sh' := set_state _ _).
  assert (moves sh sh' i (Some b)) as Hmv.
  { unfold sh'. split; try done; cbn [sh_state set_state in_reserved_bytes with_queue in_queue put_slot with_slots].
    - rewrite <-(io_slots _ Hok). by eapply slot_in_range.
    - rewrite Hi. cbn. lia.
    - apply NoDup_cons in Hn as [Hni Hn]. exists l. split_and!; [done..|]. intros j. case_decide as Hij.
      + subst j. split; [done|]. by intros (? & [= <-] & ?).
      + rewrite <-Hin, elem_of_cons. naive_solver. }
  exists slot, b, (mkInFlight (Some p) i (sl_priority slot) (sl_barrier slot)). split_and!; try done.
  apply (replace_ok sh sh' i slot b); try done. by right.
Qed.

Lemma take_next_ok sh :
  ingress_ok sh → ingress_ok (take_next sh).2 ∧ receipts_settle (sh_receipts sh) (sh_receipts (take_next sh).2).
Proof.
  intros Hok. destruct (sh_poisoned sh) eqn:Hpo.
  { unfold take_next. rewrite Hpo. split; [by apply fail_stop_ok|apply fail_stop_receipts]. }
  destruct (io_queue _ Hok) as ([|i l] & Hl & Hn & Hin).
  - pose proof (pop_holds _ _ Hl) as [Eh Ht]. unfold take_next. rewrite Hpo. destruct (pop _) as [o q].
    cbn [fst snd head tail] in *. subst o.
    assert (∀ sh', in_slots (sh_state sh') = in_slots (sh_state sh) → in_queue (sh_state sh') = q →
      in_byte_limits (sh_state sh') = in_byte_limits (sh_state sh) →
      in_reserved_bytes (sh_state sh') = in_reserved_bytes (sh_state sh) →
      in_retry (sh_state sh') = in_retry (sh_state sh) → in_closed (sh_state sh') = in_closed (sh_state sh) →
      sh_receipts sh' = sh_receipts sh → (stopped (sh_state sh') → in_latest (sh_state sh') = in_latest (sh_state sh)) →
      ingress_ok sh' ∧ receipts_settle (sh_receipts sh) (sh_receipts sh')) as Hsame.
    { intros sh' Es Eq Eb Er Et Ec Ere Hst. split; [|by rewrite Ere]. destruct Hok as [H1 H2 _ H4 H5 H6 H7 H8 H9 H10].
      unfold get_slot, active_count, occupied in *.
      split; unfold get_slot, active_count, occupied; rewrite ?Es, ?Eb, ?Er, ?Et, ?Ec, ?Ere; try done.
      - exists []. rewrite Eq. split_and!; [done|constructor|]. exact Hin.
      - intros Hs. rewrite (Hst Hs). apply H10. unfold stopped in *. by rewrite <-(Hst Hs). }
    destruct (in_closed _ && _).
    + destruct (seal _) as [[] latest] eqn:Hs; apply Hsame; try done; unfold stopped; cbn; unfold seal in Hs;
        case_decide; simplify_eq; cbn; tauto.
    + destruct (in_closed _ && _); by apply Hsame.
  - destruct (take_next_work sh i l Hok Hpo Hl) as (? & ? & ? & _ & _ & _ & _ & _ & _ & _ & ? & -> & _). by split.
Qed.

Lemma complete_handled_ok i admission append preparation sh :
  ingress_ok sh →
  let '(b, sh') := complete_handled i admission append preparation sh in
  ingress_ok sh' ∧ receipts_settle (sh_receipts sh) (sh_receipts sh') ∧
  if b then ∃ slot slot', get_slot (sh_state sh) i = Some slot ∧ sl_phase slot = InFlight ∧
       sl_phase slot' = AwaitingDurability ∧ moves sh sh' i (Some slot') ∧ sl_append slot' = Some append ∧
       can_complete (in_latest (sh_state sh)) preparation = true ∧ sh_next_arc sh' = sh_next_arc sh ∧
       in_latest (sh_state sh') = commit (in_latest (sh_state sh)) preparation ∧
       sh_receipts sh' !! sl_terminal slot = Some (mkReceipt (Some (WriterHandled append)) None)
  else stopped (sh_state sh').
Proof.
  intros Hok. unfold complete_handled. pose proof (fail_stop_ok sh Hok) as [Hs1 Hs2].
  pose proof (proj1 (fail_stop_receipts sh)) as Hs3. destruct (sh_poisoned sh); [done|].
  destruct (get_slot (sh_state sh) i) as [slot|] eqn:Hi; [|done].
  case_bool_decide as Hph; [|done]. destruct (can_complete _ preparation) eqn:Hcan; [|done]. cbn [negb orb].
  pose proof (io_slot _ Hok _ _ Hi) as [Hres Hfr Hrec Hphase]. rewrite Hph in Hphase. destruct Hphase as [Hprep Happ].
  rewrite Happ in Hrec. unfold update_receipt. cbn [sh_receipts set_state sl_terminal]. rewrite Hrec. cbn [resolve_handled r_handled fmap option_fmap option_map].
  set (b := mkSlot _ _ _ _ AwaitingDurability _ _ _ _). set (sh' := wake _ _).
  apply can_complete_current in Hcan as Hcur. destruct Hcur as (cur & Hcur & _ & _).
  assert (moves sh sh' i (Some b)) as Hmv.
  { unfold sh'. split; try done; cbn [sh_state sh_receipts wake set_receipts set_state in_reserved_bytes with_latest in_queue
      in_latest put_slot with_slots].
    - rewrite <-(io_slots _ Hok). by eapply slot_in_range.
    - unfold stopped. cbn. destruct preparation; cbn; [by rewrite Hcur|done].
    - rewrite Hi. cbn. lia.
    - apply queue_kept; [done|done|]. rewrite Hi. split; intros (? & [= <-] & Hq); [done|congruence].
    - intros loc r Hl j a Hj Ha Ht. rewrite list_lookup_insert_ne; [done|]. subst loc.
      apply not_eq_sym. by apply (other_slot sh i slot j a). }
  split_and!.
  - apply (replace_ok sh sh' i slot b); try done.
    + unfold b. split; try done. cbn. apply list_lookup_insert_eq. by eapply lookup_lt_Some.
    + intros loc r. cbn. intros [(<- & _)|[_ ?]]%list_lookup_insert_Some; auto.
  - cbn. eapply receipts_settle_insert; [exact Hrec|]. by split.
  - exists slot, b. split_and!; try done. cbn. apply list_lookup_insert_eq. by eapply lookup_lt_Some.
Qed.

(** *** Durable batches *)

Lemma batch_entry_ok_spec s h cutoff e :
  batch_entry_ok s h cutoff e = true →
  ∃ slot, get_slot s (be_slot e) = Some slot ∧ sl_append slot = Some (be_append e) ∧
    sl_phase slot = AwaitingDurability ∧ sl_qualification slot = be_qualification e ∧
    app_journal (be_append e) = cut_journal cutoff ∧
    app_append_sequence (be_append e) ≤ cut_append_sequence cutoff ∧
    app_end_offset (be_append e) ≤ cut_end_offset cutoff.
Proof.
  unfold batch_entry_ok. destruct (get_slot s (be_slot e)) as [slot|]; [|done].
  destruct (sl_append slot) as [append|] eqn:Ha; [|done]. intros [Hn _]%andb_true_iff.
  apply negb_true_iff, bool_decide_eq_false in Hn. exists slot.
  assert (append = be_append e) as -> by not_refused. split_and!; try done; try not_refused; lia.
Qed.

(** What a resolved entry leaves in its receipt. *)
Definition durable_receipt (committed : ManifestCommit) (e : DurableBatchEntry) : ReceiptState :=
  mkReceipt (Some (WriterHandled (be_append e))) (Some (Durable (mkDurable (be_append e) committed))).

(** The slots of the batch, awaiting durability with the appends of the entries. *)
Definition awaits (s : IngressState) (e : DurableBatchEntry) : Prop :=
  ∃ slot, get_slot s (be_slot e) = Some slot ∧ sl_phase slot = AwaitingDurability ∧ sl_append slot = Some (be_append e).

Lemma resolve_one sh e slot committed :
  ingress_ok sh → get_slot (sh_state sh) (be_slot e) = Some slot → sl_phase slot = AwaitingDurability →
  sl_append slot = Some (be_append e) →
  let s' := with_reserved (saturating_sub (in_reserved_bytes (sh_state sh)) (sl_reservation slot))
              (put_slot (be_slot e) None (sh_state sh)) in
  let h' := <[sl_terminal slot := durable_receipt committed e]> (sh_receipts sh) in
  update_receipt (resolve_durable (mkDurable (be_append e) committed)) (sl_terminal slot) (sh_receipts sh) = (true, h') ∧
  ingress_ok (set_receipts h' (set_state s' sh)) ∧ receipts_settle (sh_receipts sh) h' ∧
  (∀ j, get_slot s' j = if decide (be_slot e = j) then None else get_slot (sh_state sh) j).
Proof.
  intros Hok Hi Hph Happ s' h'. pose proof (io_slot _ Hok _ _ Hi) as [Hres Hfr Hrec Hphase].
  rewrite Happ in Hrec. cbn [fmap option_fmap option_map] in Hrec.
  set (sh' := set_receipts h' (set_state s' sh)).
  assert (moves sh sh' (be_slot e) None) as Hmv.
  { unfold sh', s', h'. split; try done; cbn [sh_state sh_receipts set_receipts set_state in_reserved_bytes with_reserved
      in_queue put_slot with_slots].
    - rewrite <-(io_slots _ Hok). by eapply slot_in_range.
    - rewrite Hi. cbn. rewrite saturating_sub_le by (by eapply slot_bytes_bound). lia.
    - apply queue_kept; [done|done|]. rewrite Hi. split; [by intros (? & ? & _)|]. intros (? & [= <-] & ?). congruence.
    - intros loc r Hl j a Hj Ha Ht. rewrite list_lookup_insert_ne; [done|]. subst loc.
      apply not_eq_sym. by apply (other_slot sh (be_slot e) slot j a). }
  split_and!.
  - unfold update_receipt. by rewrite Hrec.
  - eapply remove_ok; [exact Hok|exact Hi|exact Hmv|done|]. split; by eexists.
  - eapply receipts_settle_insert; [exact Hrec|]. by split.
  - intros j. by apply (moves_get sh sh').
Qed.

Lemma resolve_batch_ok entries committed sh n :
  ingress_ok sh → NoDup (be_slot <$> entries) → Forall (awaits (sh_state sh)) entries →
  ∃ s' h' n', resolve_batch entries committed (sh_state sh) (sh_receipts sh) n = (true, s', h', n') ∧
    ingress_ok (set_receipts h' (set_state s' sh)) ∧ receipts_settle (sh_receipts sh) h' ∧
    in_latest s' = in_latest (sh_state sh) ∧ in_closed s' = in_closed (sh_state sh) ∧
    in_retry s' = in_retry (sh_state sh) ∧
    (∀ j, get_slot s' j = if decide (j ∈ be_slot <$> entries) then None else get_slot (sh_state sh) j) ∧
    (∀ e slot, e ∈ entries → get_slot (sh_state sh) (be_slot e) = Some slot →
      h' !! sl_terminal slot = Some (durable_receipt committed e)).
Proof.
  revert sh n. induction entries as [|e entries IH]; intros sh n Hok Hn Hf.
  - exists (sh_state sh), (sh_receipts sh), n. split_and!; try done; [by apply (ingress_ok_eq sh)|].
    by intros ?? ?%elem_of_nil.
  - apply Forall_cons in Hf as [(slot & Hi & Hph & Ha) Hf]. apply NoDup_cons in Hn as [Hne Hn].
    destruct (resolve_one sh e slot committed Hok Hi Hph Ha) as (Eu & Hok' & Hset & Hg).
    cbn [resolve_batch]. rewrite Hi, Ha, Eu. set (s1 := with_reserved _ _) in *. set (h1 := <[_ := _]> _) in *.
    assert (Forall (awaits s1) entries) as Hf'.
    { rewrite Forall_forall in Hf |- *. intros x Hx. destruct (Hf x Hx) as (a & ? & ? & ?). exists a.
      rewrite Hg, decide_False; [done|]. intros E. apply Hne. rewrite E. by apply list_elem_of_fmap_2. }
    destruct (IH (set_receipts h1 (set_state s1 sh)) (notifications_push (sl_terminal slot) n) Hok' Hn Hf')
      as (s' & h' & n' & E & Hok'' & Hset' & El & Ec & Er & Hg' & Hr). cbn [sh_state sh_receipts set_receipts set_state] in *.
    exists s', h', n'. split_and!; try done; [by etrans| |].
    + intros j. rewrite Hg', Hg. cbn [fmap list_fmap].
      destruct (decide (j ∈ be_slot <$> entries)); [by rewrite decide_True by (by right)|].
      destruct (decide (be_slot e = j)) as [<-|]; [by rewrite decide_True by (by left)|].
      rewrite decide_False; [done|]. intros [?|?]%elem_of_cons; auto.
    + intros x a [->|Hx]%elem_of_cons Hxa.
      * rewrite Hi in Hxa. injection Hxa as <-. destruct (Hset' (sl_terminal slot) (durable_receipt committed e))
          as (r & Hr' & Hs1 & Hs2).
        { apply list_lookup_insert_eq. eapply lookup_lt_Some. by apply (io_slot _ Hok _ _ Hi). }
        rewrite Hr'. f_equal. destruct r as [hd du]. unfold durable_receipt in *. cbn in *. f_equal; eauto.
      * apply (Hr x a Hx). rewrite Hg, decide_False; [done|]. intros E'. apply Hne. rewrite E'. by apply list_elem_of_fmap_2.
Qed.

Lemma resolve_batch_with_retry entries committed retry s h n :
  resolve_batch entries committed (with_retry retry s) h n =
  let '(b, s', h', n') := resolve_batch entries committed s h n in (b, with_retry retry s', h', n').
Proof.
  revert s h n. induction entries as [|e entries IH]; intros s h n; [done|]. cbn [resolve_batch].
  change (get_slot (with_retry retry s) (be_slot e)) with (get_slot s (be_slot e)).
  destruct (get_slot s (be_slot e)) as [slot|]; [|done]. destruct (sl_append slot) as [append|]; [|done].
  destruct (update_receipt _ _ _) as [[] h']; [|done]. by rewrite <-IH.
Qed.

Lemma with_retry_ok sh retry :
  ingress_ok sh → (∀ i slot, get_slot (sh_state sh) i = Some slot → unretained retry (sl_qualification slot)) →
  ingress_ok (set_state (with_retry retry (sh_state sh)) sh).
Proof.
  intros [? Hs ? ? ? ? ? ? ? ?] Hu. split; try done. intros i slot Hi. destruct (Hs i slot Hi). split; try done.
  by apply (Hu i).
Qed.

Lemma NoDup_fmap_through {A B C} (f : A → B) (g : A → C) l :
  NoDup (f <$> l) → (∀ x y, x ∈ l → y ∈ l → g x = g y → f x = f y) → NoDup (g <$> l).
Proof.
  induction l as [|a l IH]; intros Hn Hg; [constructor|]. rewrite fmap_cons in *. apply NoDup_cons in Hn as [Ha Hn].
  apply NoDup_cons. split.
  - intros (x & E & Hx)%list_elem_of_fmap. apply Ha. rewrite (Hg a x); [by apply list_elem_of_fmap_2|by left|by right|done].
  - apply IH; [done|]. intros x y Hx Hy. apply Hg; by right.
Qed.

Lemma sorted_NoDup l : StronglySorted Z.lt l → NoDup l.
Proof.
  induction 1 as [|a l Hs IH Hf]; constructor; [|done]. rewrite Forall_forall in Hf. intros Ha%Hf. lia.
Qed.

(** Durable completion: all entries, or a stop. *)
Lemma durable_ok entries committed retry sh :
  ingress_ok sh →
  let '(b, sh') := complete_durable_batch entries committed retry sh in
  ingress_ok sh' ∧ receipts_settle (sh_receipts sh) (sh_receipts sh') ∧
  if b then
    in_latest (sh_state sh') = in_latest (sh_state sh) ∧ sh_next_arc sh' = sh_next_arc sh ∧
    in_closed (sh_state sh') = in_closed (sh_state sh) ∧ in_retry (sh_state sh') = retry ∧
    (∀ j, get_slot (sh_state sh') j = if decide (j ∈ be_slot <$> entries) then None else get_slot (sh_state sh) j) ∧
    Forall (awaits (sh_state sh)) entries ∧ entries ≠ [] ∧
    (∀ e slot, e ∈ entries → get_slot (sh_state sh) (be_slot e) = Some slot →
      sh_receipts sh' !! sl_terminal slot = Some (durable_receipt committed e))
  else stopped (sh_state sh') ∧ sh_receipts sh' = sh_receipts (fail_stop sh) ∧
    in_retry (sh_state sh') = in_retry (sh_state sh).
Proof.
  intros Hok. unfold complete_durable_batch.
  assert (in_retry (sh_state (fail_stop sh)) = in_retry (sh_state sh)) as Hret.
  { unfold fail_stop, stop_all. by destruct (stop_slots _ _ _). }
  pose proof (fail_stop_ok sh Hok) as [Hs1 Hs2]. pose proof (proj1 (fail_stop_receipts sh)) as Hs3.
  destruct (sh_poisoned sh); [done|]. case_decide as Hpre; [done|].
  destruct (verifies_transition _ _ _ _) eqn:Hv; [|done]. cbn [negb].
  destruct (forallb _ _) eqn:Hb; [|done]. cbn [negb]. clear Hs1 Hs2 Hs3.
  apply verified_transition in Hv as (_ & _ & Hq & Hsort).
  assert (Forall (λ e, batch_entry_ok (sh_state sh) (sh_receipts sh) (mc_durable_cutoff committed) e = true) entries) as Hall.
  { apply Forall_forall. intros e He. apply (proj1 (forallb_forall _ _) Hb). by apply list_elem_of_In. }
  assert (Forall (awaits (sh_state sh)) entries) as Haw.
  { eapply Forall_impl; [exact Hall|]. intros e (slot & ? & ? & ? & _)%batch_entry_ok_spec. by exists slot. }
  assert (NoDup (be_slot <$> entries)) as Hn.
  { apply sorted_NoDup in Hsort. rewrite <-list_fmap_compose in Hsort. eapply NoDup_fmap_through; [exact Hsort|].
    rewrite Forall_forall in Haw. intros x y Hx Hy E. destruct (Haw x Hx) as (a & Ha & _ & Ea), (Haw y Hy) as (b & Hb' & _ & Eb).
    rewrite E, Hb' in Ha. injection Ha as ->. cbn. congruence. }
  destruct (resolve_batch_ok entries committed sh [] Hok Hn Haw) as (s' & h' & n' & E & Hok' & Hset & El & Ec & Er & Hg & Hr).
  rewrite resolve_batch_with_retry, E. cbn [sh_state sh_receipts notify_one wake set_receipts set_state].
  split_and!; try done; [|by intros ->; apply Hpre; left].
  apply (ingress_ok_eq (set_state (with_retry retry s') (set_receipts h' (set_state s' sh)))); [done|done|].
  apply (with_retry_ok (set_receipts h' (set_state s' sh)) retry Hok'). cbn [sh_state set_receipts set_state].
  intros j slot. rewrite Hg. case_decide as Hj; [done|]. intros Hs q' [Hq'|Hq']%Hq.
  - by apply (so_fresh _ _ _ (io_slot _ Hok _ _ Hs)).
  - rewrite <-list_fmap_compose in Hq'. apply list_elem_of_fmap in Hq' as (e & -> & He). cbn.
    rewrite Forall_forall in Hall. destruct (batch_entry_ok_spec _ _ _ _ (Hall e He)) as (a & Ha & _ & _ & <- & _).
    apply not_eq_sym. apply (other_slot sh (be_slot e) a j slot); try done. intros ->. apply Hj. by apply list_elem_of_fmap_2.
Qed.

(** ** The interleaved runtime *)

(** A submitter between its reservation and the queue. *)
Record submitter := mkSubmitter {
  su_command : IngressCommand;
  su_slot : nat;
  su_terminal : nat;
  su_frame_len : Z }.

Record runtime := mkRuntime {
  rt_shared : IngressShared;
  rt_submitters : list submitter;
  rt_prepared : list (option PublishedObservation * PreparedPublication) }.

Definition on_shared (f : IngressShared → IngressShared) (rt : runtime) : runtime :=
  mkRuntime (f (rt_shared rt)) (rt_submitters rt) (rt_prepared rt).

(** One critical section of any thread. A poisoned mutex stays poisoned; the
    frame length that is measured outside the mutex is a [usize]. *)
Inductive rt_step (rt : runtime) : runtime → Prop :=
| step_check command : rt_step rt (on_shared (λ sh, (submit_check command sh).2) rt)
| step_answered command answer sh' :
    submit_reserve command (admission_frame_len_v1 (cmd_admission command)) (rt_shared rt) = (Answered answer, sh') →
    (∀ n, admission_frame_len_v1 (cmd_admission command) = Ok n → 0 ≤ n) →
    rt_step rt (on_shared (λ _, sh') rt)
| step_reserved command i t n sh' :
    submit_reserve command (admission_frame_len_v1 (cmd_admission command)) (rt_shared rt) = (Reserved i t n, sh') →
    (∀ n, admission_frame_len_v1 (cmd_admission command) = Ok n → 0 ≤ n) →
    rt_step rt (mkRuntime sh' (rt_submitters rt ++ [mkSubmitter command i t n]) (rt_prepared rt))
| step_finished k su :
    rt_submitters rt !! k = Some su →
    rt_step rt (mkRuntime
      (submit_finish (su_command su) (su_slot su) (su_terminal su) (su_frame_len su) (rt_shared rt)).2
      (delete k (rt_submitters rt)) (rt_prepared rt))
| step_close : rt_step rt (on_shared close_admission rt)
| step_stop : rt_step rt (on_shared stop rt)
| step_poison : rt_step rt (on_shared (λ sh, mkShared (sh_store_id sh) true (sh_state sh) (sh_receipts sh)
    (sh_woken sh) (sh_permit sh) (sh_next_arc sh)) rt)
| step_install retry : rt_step rt (on_shared (λ sh, (install_opened_retry retry sh).2) rt)
| step_take : rt_step rt (on_shared (λ sh, (take_next sh).2) rt)
| step_prepared i candidate prep sh' :
    prepare_publication i candidate (rt_shared rt) = (Ok prep, sh') →
    rt_step rt (mkRuntime sh' (rt_submitters rt) (rt_prepared rt ++ [(candidate, prep)]))
| step_unprepared i candidate e sh' :
    prepare_publication i candidate (rt_shared rt) = (Err e, sh') → rt_step rt (on_shared (λ _, sh') rt)
| step_handled k i admission append c prep :
    rt_prepared rt !! k = Some (c, prep) →
    rt_step rt (mkRuntime (complete_handled i admission append prep (rt_shared rt)).2 (rt_submitters rt)
      (delete k (rt_prepared rt)))
| step_durable entries committed retry :
    rt_step rt (on_shared (λ sh, (complete_durable_batch entries committed retry sh).2) rt)
| step_read : rt_step rt (on_shared (λ sh, (read_latest sh).2) rt).

Inductive rt_reachable (store : StoreId) (limits : ByteReservationLimits) (options : RetryPersistenceOptions)
  : runtime → Prop :=
| rt_opened : rt_reachable store limits options (mkRuntime (shared_new store limits options) [] [])
| rt_stepped rt rt' :
    rt_reachable store limits options rt → rt_step rt rt' → rt_reachable store limits options rt'.

(** A submitter still owns the slot it reserved. *)
Definition owns (s : IngressState) (su : submitter) : Prop :=
  ∃ slot, get_slot s (su_slot su) = Some slot ∧ sl_phase slot = Preparing ∧ sl_terminal slot = su_terminal su ∧
    sl_reservation slot = su_frame_len su ∧ sl_qualification slot = adm_retry (cmd_admission (su_command su)).
Record submitters_ok (s : IngressState) (sus : list submitter) : Prop := {
  sb_owns : Forall (owns s) sus;
  sb_unique : NoDup (su_slot <$> sus);
  sb_all : ∀ i slot, get_slot s i = Some slot → sl_phase slot = Preparing → i ∈ su_slot <$> sus }.

Record runtime_ok (store : StoreId) (rt : runtime) : Prop := {
  ro_ingress : ingress_ok (rt_shared rt);
  ro_submitters : stopped (sh_state (rt_shared rt)) ∨ submitters_ok (sh_state (rt_shared rt)) (rt_submitters rt);
  ro_latest : ∃ H, pub_run store
    (mkSystem (in_latest (sh_state (rt_shared rt))) (sh_next_arc (rt_shared rt)) (rt_prepared rt)) H }.

Lemma stopped_latest sh : ingress_ok sh → stopped (sh_state sh) → in_latest (sh_state sh) = mkLatest None true.
Proof.
  intros Hok Hs. pose proof Hs as Hs'. destruct (io_stopped _ Hok Hs) as (_ & _ & Hse). unfold stopped in Hs'.
  destruct (in_latest (sh_state sh)). cbn in *. congruence.
Qed.

(** A step that leaves the preparing slots alone. *)
Lemma submitters_kept s s' sus :
  submitters_ok s sus →
  (∀ i slot, sl_phase slot = Preparing → get_slot s' i = Some slot ↔ get_slot s i = Some slot) →
  submitters_ok s' sus.
Proof.
  intros [Ho Hu Ha] Hs. split; [|done|].
  - eapply Forall_impl; [exact Ho|]. intros su (slot & Hi & Hp & ?). exists slot. rewrite (Hs _ _ Hp). done.
  - intros i slot Hi Hp. apply Hs in Hi; [|done]. by eapply Ha.
Qed.

(** Steps that end stopped. *)
Lemma runtime_stopped store rt sh' sus ps :
  runtime_ok store rt → ingress_ok sh' → stopped (sh_state sh') → sh_next_arc sh' = sh_next_arc (rt_shared rt) →
  ps = rt_prepared rt ∨ (∃ k, ps = delete k (rt_prepared rt)) →
  runtime_ok store (mkRuntime sh' sus ps).
Proof.
  intros [_ _ [H Hr]] Hok Hs Ea Hps. split; [done|by left|]. exists H. cbn [rt_shared rt_prepared].
  rewrite (stopped_latest _ Hok Hs), Ea. apply run_unavailable in Hr. cbn in Hr.
  destruct Hps as [->|[k ->]]; [done|]. by apply (run_dropped _ _ _ k) in Hr.
Qed.

(** The critical sections of submission neither touch the latest registry nor
    reopen admission. *)
Definition latest_kept (sh sh' : IngressShared) : Prop :=
  sh_next_arc sh' = sh_next_arc sh ∧
  (stopped (sh_state sh') ∨ in_latest (sh_state sh') = in_latest (sh_state sh)) ∧
  (in_closed (sh_state sh) = true → in_closed (sh_state sh') = true).

Lemma fail_stop_arc sh : sh_next_arc (fail_stop sh) = sh_next_arc sh ∧ stopped (sh_state (fail_stop sh)).
Proof. unfold fail_stop, stop_all, stopped. by destruct (stop_slots _ _ _). Qed.

Lemma fail_stop_closed sh : in_closed (sh_state (fail_stop sh)) = true.
Proof. unfold fail_stop, stop_all. by destruct (stop_slots _ _ _). Qed.
Lemma fail_stop_kept sh : latest_kept sh (fail_stop sh).
Proof. destruct (fail_stop_arc sh). split_and!; [done|by left|]. intros _. apply fail_stop_closed. Qed.
Lemma same_kept sh sh' :
  sh_next_arc sh' = sh_next_arc sh → in_latest (sh_state sh') = in_latest (sh_state sh) →
  (in_closed (sh_state sh) = true → in_closed (sh_state sh') = true) → latest_kept sh sh'.
Proof. intros. split_and!; [done|by right|done]. Qed.

Lemma reserve_kept command measured sh : latest_kept sh (submit_reserve command measured sh).2.
Proof.
  unfold submit_reserve. destruct (sh_poisoned sh); [apply fail_stop_kept|].
  repeat (case_match || case_decide); by apply same_kept.
Qed.
Lemma enqueue_kept i t p pr b sh : latest_kept sh (submit_enqueue i t p pr b sh).2.
Proof.
  unfold submit_enqueue. destruct (sh_poisoned sh); [apply fail_stop_kept|].
  destruct (get_slot _ i); [|apply fail_stop_kept]. destruct (_ || _); [apply fail_stop_kept|by apply same_kept].
Qed.
Lemma rollback_kept i sh : latest_kept sh (rollback_preparation i sh).
Proof.
  unfold rollback_preparation. destruct (sh_poisoned sh); [apply fail_stop_kept|].
  destruct (get_slot _ i); [|by apply same_kept]. destruct (update_receipt _ _ _) as [[] h]; by apply same_kept.
Qed.

(** Finishing a submission releases exactly its own slot from preparation. *)
Lemma finish_ok su sh :
  ingress_ok sh → (stopped (sh_state sh) ∨ owns (sh_state sh) su) →
  let '(answer, sh') := submit_finish (su_command su) (su_slot su) (su_terminal su) (su_frame_len su) sh in
  ingress_ok sh' ∧ receipts_settle (sh_receipts sh) (sh_receipts sh') ∧ latest_kept sh sh' ∧
  (stopped (sh_state sh') ∨
   ((∀ j, j ≠ su_slot su → get_slot (sh_state sh') j = get_slot (sh_state sh) j) ∧
    ∀ slot, get_slot (sh_state sh') (su_slot su) = Some slot → sl_phase slot = PhaseQueued)).
Proof.
  intros Hok Hown. unfold submit_finish.
  assert (∀ i, stopped (sh_state sh) → get_slot (sh_state sh) i = None) as Hno.
  { intros i Hs. destruct (io_stopped _ Hok Hs) as (_ & Ha & _). by apply no_slots. }
  assert (∀ (answer : result TrySubmitError Submission), let '(answer, sh') := (answer, rollback_preparation (su_slot su) sh) in
    ingress_ok sh' ∧ receipts_settle (sh_receipts sh) (sh_receipts sh') ∧ latest_kept sh sh' ∧
    (stopped (sh_state sh') ∨
     ((∀ j, j ≠ su_slot su → get_slot (sh_state sh') j = get_slot (sh_state sh) j) ∧
      ∀ slot, get_slot (sh_state sh') (su_slot su) = Some slot → sl_phase slot = PhaseQueued))) as Hroll.
  { intros answer. destruct (rollback_ok (su_slot su) sh Hok) as (? & ? & Hg).
    - intros slot Hi. destruct Hown as [Hs|(x & Hx & ? & _)]; [by rewrite Hno in Hi|congruence].
    - split_and!; try done; [apply rollback_kept|]. destruct Hg as [?|Hg]; [by left|right]. split.
      + intros j Hj. by rewrite Hg, decide_False by auto.
      + intros slot. by rewrite Hg, decide_True. }
  destruct (prepared_new _) as [p|e] eqn:Hp; [|exact (Hroll (Err (error_new KindClosed (su_command su))))]. case_decide as Hlen; [|exact (Hroll (Err (error_new KindClosed (su_command su))))].
  apply prepared_new_admission in Hp. clear Hroll.
  pose proof (enqueue_kept (su_slot su) (su_terminal su) p (cmd_priority (su_command su)) (cmd_barrier (su_command su)) sh) as Hk.
  destruct Hown as [Hs|(slot & Hi & Hph & _ & Hr & Hq)].
  - specialize (Hno (su_slot su) Hs). unfold submit_enqueue in *. rewrite Hno in *. destruct (fail_stop_ok sh Hok).
    destruct (sh_poisoned sh); (split_and!; [done|apply fail_stop_receipts|done|by left]).
  - pose proof (enqueue_ok (su_slot su) (su_terminal su) p (cmd_priority (su_command su)) (cmd_barrier (su_command su))
      sh slot Hok Hi Hph ltac:(congruence) ltac:(congruence)) as He.
    destruct (submit_enqueue _ _ _ _ _ _) as [answer sh']. cbn [snd] in Hk. destruct He as (? & ? & Hc). split_and!; try done.
    destruct Hc as [[? _]|(-> & b & Hb & Hm)]; [by left|right]. split.
    + intros j Hj. by rewrite (moves_get _ _ _ _ j Hok Hm), decide_False by auto.
    + intros x. rewrite (moves_get _ _ _ _ _ Hok Hm), decide_True by done. by intros [= <-].
Qed.

(** A submission that was finished leaves the list of submitters. *)
Lemma submitters_finished s s' sus k su :
  submitters_ok s sus → sus !! k = Some su →
  (∀ j, j ≠ su_slot su → get_slot s' j = get_slot s j) →
  (∀ slot, get_slot s' (su_slot su) = Some slot → sl_phase slot = PhaseQueued) →
  submitters_ok s' (delete k sus).
Proof.
  intros [Ho Hu Ha] Hk Hg Hq.
  assert (∀ x, x ∈ delete k sus ↔ x ∈ sus ∧ su_slot x ≠ su_slot su) as Hin.
  { intros x. rewrite delete_take_drop in *. rewrite <-(take_drop_middle sus k su Hk) in Hu.
    rewrite fmap_app, fmap_cons in Hu. rewrite <-(take_drop_middle sus k su Hk) at 3.
    apply NoDup_app in Hu as (_ & Hd & [Hnd _]%NoDup_cons). rewrite !elem_of_app, elem_of_cons. split.
    - intros [Hx|Hx]; (split; [auto|]); intros E.
      + apply (Hd (su_slot x)); [by apply list_elem_of_fmap_2|]. rewrite E. by left.
      + apply Hnd. rewrite <-E. by apply list_elem_of_fmap_2.
    - intros [[?|[->|?]] ?]; [by left|done|by right]. }
  split.
  - apply Forall_forall. intros x [Hx Hne]%Hin. rewrite Forall_forall in Ho. destruct (Ho x Hx) as (slot & Hi & ?).
    exists slot. by rewrite Hg.
  - eapply sublist_NoDup; [exact Hu|]. apply fmap_sublist, sublist_delete.
  - intros i slot Hi Hp. destruct (decide (i = su_slot su)) as [->|Hne].
    + rewrite (Hq _ Hi) in Hp. done.
    + rewrite Hg in Hi by done. destruct (proj1 (list_elem_of_fmap _ _ _) (Ha i slot Hi Hp)) as (x & -> & Hx).
      apply list_elem_of_fmap_2, Hin. by split.
Qed.

Lemma submitters_reserved s s' sus i slot su :
  submitters_ok s sus → get_slot s i = None →
  (∀ j, get_slot s' j = if decide (i = j) then Some slot else get_slot s j) → su_slot su = i → owns s' su →
  submitters_ok s' (sus ++ [su]).
Proof.
  intros [Ho Hu Ha] Hi Hg Es Hown.
  assert (∀ x, x ∈ sus → su_slot x ≠ i) as Hne.
  { intros x Hx E. rewrite Forall_forall in Ho. destruct (Ho x Hx) as (y & Hy & _). congruence. }
  split.
  - apply Forall_app. split; [|by constructor]. apply Forall_forall. intros x Hx. rewrite Forall_forall in Ho.
    destruct (Ho x Hx) as (y & Hy & ?). exists y. rewrite Hg, decide_False by (apply not_eq_sym; auto). done.
  - rewrite fmap_app. apply NoDup_app. split_and!; [done| |apply NoDup_singleton].
    intros j (x & -> & Hx)%list_elem_of_fmap Hj. apply list_elem_of_singleton in Hj. apply (Hne x Hx). congruence.
  - intros j y. rewrite Hg, fmap_app, elem_of_app. case_decide as Hj.
    + intros _ _. right. cbn. rewrite list_elem_of_singleton. congruence.
    + intros ? ?. left. by eapply Ha.
Qed.

(** A move between phases other than preparation keeps the submitters. *)
Lemma submitters_moved sh sh' i o sus :
  ingress_ok sh → moves sh sh' i o → submitters_ok (sh_state sh) sus →
  (∀ slot, get_slot (sh_state sh) i = Some slot → sl_phase slot ≠ Preparing) →
  (∀ slot, o = Some slot → sl_phase slot ≠ Preparing) →
  submitters_ok (sh_state sh') sus.
Proof.
  intros Hok Hm Hs Ha Hb. eapply submitters_kept; [exact Hs|]. intros j slot Hp.
  rewrite (moves_get _ _ _ _ j Hok Hm). case_decide as Hj; [|done]. subst j. split; intros E.
  - by destruct (Hb slot).
  - by destruct (Ha slot).
Qed.

Lemma runtime_ok_kept store rt sh' sus :
  runtime_ok store rt → ingress_ok sh' → latest_kept (rt_shared rt) sh' →
  (stopped (sh_state sh') ∨ submitters_ok (sh_state sh') sus) →
  runtime_ok store (mkRuntime sh' sus (rt_prepared rt)).
Proof.
  intros Hrt Hok (Ea & El & _) Hs. destruct El as [Hst|El].
  - apply (runtime_stopped store rt); auto.
  - split; [done|done|]. destruct (ro_latest _ _ Hrt) as [H Hr]. exists H. cbn. by rewrite El, Ea.
Qed.

(** *** Each step keeps the invariant *)

Section steps.
Context (store : StoreId) (rt : runtime) (Hrt : runtime_ok store rt).
Let sh := rt_shared rt.

Lemma ok_kept sh' :
  ingress_ok sh' → latest_kept sh sh' → (∀ i, get_slot (sh_state sh') i = get_slot (sh_state sh) i) →
  runtime_ok store (on_shared (λ _, sh') rt).
Proof.
  intros Hok Hk Hg. apply runtime_ok_kept; [done..|]. destruct Hk as (_ & [Hst|El] & _); [by left|].
  destruct (ro_submitters _ _ Hrt) as [Hs|Hs]; [left; unfold stopped; by rewrite El|right].
  eapply submitters_kept; [exact Hs|]. intros. by rewrite Hg.
Qed.

Lemma ok_stopped sh' sus ps :
  ingress_ok sh' → stopped (sh_state sh') → sh_next_arc sh' = sh_next_arc sh →
  ps = rt_prepared rt ∨ (∃ k, ps = delete k (rt_prepared rt)) → runtime_ok store (mkRuntime sh' sus ps).
Proof. by apply runtime_stopped. Qed.

Lemma ok_fail_stop f :
  sh_state (f (fail_stop sh)) = sh_state (fail_stop sh) → sh_receipts (f (fail_stop sh)) = sh_receipts (fail_stop sh) →
  sh_next_arc (f (fail_stop sh)) = sh_next_arc (fail_stop sh) →
  runtime_ok store (on_shared (λ _, f (fail_stop sh)) rt).
Proof.
  intros Es Er Ea. destruct (fail_stop_ok sh (ro_ingress _ _ Hrt)) as [Hok Hst]. destruct (fail_stop_arc sh) as [Ea' _].
  apply ok_stopped; [by apply (ingress_ok_eq (fail_stop sh))|by rewrite Es|congruence|by left].
Qed.

Lemma ok_check command : runtime_ok store (on_shared (λ sh, (submit_check command sh).2) rt).
Proof.
  unfold on_shared, submit_check. fold sh. destruct (sh_poisoned sh); [by apply (ok_fail_stop notify_one)|].
  repeat case_match; by apply (ok_kept sh); [apply Hrt|apply same_kept|].
Qed.

Lemma ok_reserve command :
  (∀ n, admission_frame_len_v1 (cmd_admission command) = Ok n → 0 ≤ n) →
  match submit_reserve command (admission_frame_len_v1 (cmd_admission command)) sh with
  | (Answered _, sh') => runtime_ok store (on_shared (λ _, sh') rt)
  | (Reserved i t n, sh') =>
    runtime_ok store (mkRuntime sh' (rt_submitters rt ++ [mkSubmitter command i t n]) (rt_prepared rt))
  end.
Proof.
  intros Hn. pose proof (reserve_ok command _ sh (ro_ingress _ _ Hrt) Hn) as Hr.
  pose proof (reserve_kept command (admission_frame_len_v1 (cmd_admission command)) sh) as Hk.
  destruct (submit_reserve _ _ sh) as [[answer|i t n] sh']; destruct Hr as (Hok & _ & Hr); cbn [snd] in Hk.
  - destruct Hr as [Hst|Hg]; [|by apply ok_kept]. apply runtime_ok_kept; auto.
  - destruct Hr as (Hi & -> & _ & Hns & Hm). apply runtime_ok_kept; [done..|right].
    destruct (ro_submitters _ _ Hrt) as [?|Hs]; [done|].
    pose proof (λ j, moves_get _ _ _ _ j (ro_ingress _ _ Hrt) Hm) as Hg.
    eapply submitters_reserved; [exact Hs|exact Hi|exact Hg|done|].
    eexists. rewrite Hg. cbn [su_slot]. rewrite decide_True by done. by split_and!.
Qed.

Lemma ok_finish k su :
  rt_submitters rt !! k = Some su →
  runtime_ok store (mkRuntime
    (submit_finish (su_command su) (su_slot su) (su_terminal su) (su_frame_len su) sh).2
    (delete k (rt_submitters rt)) (rt_prepared rt)).
Proof.
  intros Hk. assert (stopped (sh_state sh) ∨ owns (sh_state sh) su) as Hown.
  { destruct (ro_submitters _ _ Hrt) as [?|[Ho _ _]]; [by left|right]. by eapply Forall_lookup_1. }
  pose proof (finish_ok su sh (ro_ingress _ _ Hrt) Hown) as Hf.
  destruct (submit_finish _ _ _ _ _) as [answer sh']. destruct Hf as (Hok & _ & Hkept & Hs). cbn [snd].
  apply runtime_ok_kept; [done..|]. destruct Hs as [?|[Hg Hq]]; [by left|].
  destruct (ro_submitters _ _ Hrt) as [Hst|Hs]; [|right; by eapply submitters_finished].
  destruct Hkept as (_ & [?|El] & _); [by left|left]. unfold stopped. by rewrite El.
Qed.

Lemma ok_close : runtime_ok store (on_shared close_admission rt).
Proof.
  unfold on_shared, close_admission. fold sh. destruct (sh_poisoned sh); [by apply (ok_fail_stop notify_one)|].
  apply (ok_kept (notify_one (set_state (with_closed (sh_state sh)) sh))); [|by apply same_kept|done].
  pose proof (ro_ingress _ _ Hrt) as Hok. destruct Hok as [? ? ? ? ? ? ? ? ? Hst]. split; try done.
  intros Hs. destruct (Hst Hs) as (_ & ? & ?). done.
Qed.

Lemma ok_install retry : runtime_ok store (on_shared (λ sh, (install_opened_retry retry sh).2) rt).
Proof.
  unfold on_shared, install_opened_retry. fold sh.
  assert (runtime_ok store (on_shared (λ _, sh) rt)) as Hsame by (by apply ok_kept; [apply Hrt|apply same_kept|]).
  destruct (sh_poisoned sh); [done|]. case_decide as Hc; [done|].
  apply (ok_kept (set_state (with_retry retry (sh_state sh)) sh)); [|by apply same_kept|done].
  apply with_retry_ok; [apply Hrt|]. intros i slot Hi. assert (active_count (sh_state sh) = 0%nat) as Ha by not_refused.
  rewrite no_slots in Ha. by rewrite Ha in Hi.
Qed.

Lemma not_stopped i slot : get_slot (sh_state sh) i = Some slot → ¬ stopped (sh_state sh).
Proof.
  intros Hi Hst. destruct (io_stopped _ (ro_ingress _ _ Hrt) Hst) as (_ & Ha & _). rewrite no_slots in Ha.
  unfold sh in Hi. by rewrite Ha in Hi.
Qed.

Lemma ok_moved sh' i slot o H ps :
  ingress_ok sh' → moves sh sh' i o → get_slot (sh_state sh) i = Some slot → sl_phase slot ≠ Preparing →
  (∀ slot, o = Some slot → sl_phase slot ≠ Preparing) →
  pub_run store (mkSystem (in_latest (sh_state sh')) (sh_next_arc sh') ps) H →
  runtime_ok store (mkRuntime sh' (rt_submitters rt) ps).
Proof.
  intros Hok Hm Hi Ha Hb Hr. split; [done| |by exists H]. destruct (ro_submitters _ _ Hrt) as [Hst|Hs].
  - by destruct (not_stopped i slot Hi).
  - right. eapply submitters_moved; [apply Hrt|exact Hm|done| |done]. intros x Hx. fold sh in Hx. congruence.
Qed.

Lemma ok_take : runtime_ok store (on_shared (λ sh, (take_next sh).2) rt).
Proof.
  unfold on_shared. fold sh. destruct (take_next_ok sh (ro_ingress _ _ Hrt)) as [Hok _].
  destruct (ro_latest _ _ Hrt) as [H Hr]. destruct (sh_poisoned sh) eqn:Hpo.
  { unfold take_next. rewrite Hpo. by apply (ok_fail_stop id). }
  destruct (io_queue _ (ro_ingress _ _ Hrt)) as ([|i l] & Hl & Hn & Hin).
  - pose proof (pop_holds _ _ Hl) as [Eh _]. unfold take_next in *. fold sh in Eh. rewrite Hpo in *.
    destruct (pop _) as [o q]. cbn [fst head] in Eh. subst o. destruct (in_closed _ && _).
    + destruct (seal _) as [b latest] eqn:Hs. assert (∃ H', pub_run store (mkSystem latest (sh_next_arc sh) (rt_prepared rt)) H')
        as [H' Hr'].
      { exists H. destruct b; [by apply (run_sealed _ _ _ latest Hr)|].
        unfold seal in Hs. case_decide; simplify_eq. exact Hr. }
      assert (ls_current latest = ls_current (in_latest (sh_state sh))) as El.
      { unfold seal in Hs. case_decide; by simplify_eq. }
      destruct b; (split; [exact Hok| |by exists H']); cbn [snd rt_shared rt_submitters sh_state set_state];
        (destruct (ro_submitters _ _ Hrt) as [Hst|Hsub];
          [left; unfold stopped in *; cbn [in_latest with_latest]; by rewrite El
          |right; eapply submitters_kept; [exact Hsub|done]]).
    + destruct (_ && _); (apply ok_kept; [exact Hok|by apply same_kept|done]).
  - destruct (take_next_work sh i l (ro_ingress _ _ Hrt) Hpo Hl)
      as (slot & b & c & Hi & Hph & Hb & _ & _ & _ & Hm & _ & _ & Ea & El).
    apply (ok_moved _ i slot (Some b) H); try done; [congruence|intros x [= <-]; congruence|]. by rewrite El, Ea.
Qed.

Lemma ok_prepare i candidate :
  match prepare_publication i candidate sh with
  | (Ok prep, sh') => runtime_ok store (mkRuntime sh' (rt_submitters rt) (rt_prepared rt ++ [(candidate, prep)]))
  | (Err _, sh') => runtime_ok store (on_shared (λ _, sh') rt)
  end.
Proof.
  unfold prepare_publication. destruct (sh_poisoned sh); [by apply (ok_fail_stop id)|].
  assert (runtime_ok store (on_shared (λ _, sh) rt)) as Hsame by (by apply ok_kept; [apply Hrt|apply same_kept|]).
  destruct (is_some_and _ _); [|done]. cbn [negb]. destruct (plan _ candidate) as [p|e] eqn:Hp; [|done].
  destruct (ro_latest _ _ Hrt) as [H Hr]. split; [by apply (ingress_ok_eq sh), Hrt|apply Hrt|].
  exists H. by apply (run_prepared _ _ _ candidate p Hr).
Qed.

Lemma ok_handled k i admission append c prep :
  rt_prepared rt !! k = Some (c, prep) →
  runtime_ok store (mkRuntime (complete_handled i admission append prep sh).2 (rt_submitters rt)
    (delete k (rt_prepared rt))).
Proof.
  intros Hk. pose proof (complete_handled_ok i admission append prep sh (ro_ingress _ _ Hrt)) as Hc.
  assert (sh_next_arc (complete_handled i admission append prep sh).2 = sh_next_arc sh) as Ea.
  { unfold complete_handled. repeat case_match; cbn [snd]; rewrite ?(proj1 (fail_stop_arc _)); done. }
  destruct (complete_handled _ _ _ _ sh) as [b sh']. destruct Hc as (Hok & _ & Hb). cbn [snd] in *. destruct b.
  - destruct Hb as (slot & slot' & Hi & Hph & Hph' & Hm & _ & Hcan & _ & El & _).
    destruct (ro_latest _ _ Hrt) as [H Hr].
    apply (ok_moved _ i slot (Some slot') (H ++ option_list c)); try done; [congruence|intros x [= <-]; congruence|].
    rewrite El, Ea. by apply (run_completed _ _ _ k c prep Hr).
  - apply ok_stopped; try done. right. by exists k.
Qed.

Lemma ok_durable entries committed retry :
  runtime_ok store (on_shared (λ sh, (complete_durable_batch entries committed retry sh).2) rt).
Proof.
  unfold on_shared. fold sh. pose proof (durable_ok entries committed retry sh (ro_ingress _ _ Hrt)) as Hd.
  assert (sh_next_arc (complete_durable_batch entries committed retry sh).2 = sh_next_arc sh) as Ea.
  { unfold complete_durable_batch. repeat case_match; cbn [snd]; rewrite ?(proj1 (fail_stop_arc _)); done. }
  destruct (complete_durable_batch _ _ _ sh) as [[] sh']; destruct Hd as (Hok & _ & Hb); cbn [snd] in *.
  - destruct Hb as (El & _ & Ec & _ & Hg & Haw & _). destruct (ro_latest _ _ Hrt) as [H Hr].
    apply runtime_ok_kept; [done..|apply same_kept; [exact Ea|exact El|intros; by rewrite Ec]|].
    destruct (ro_submitters _ _ Hrt) as [Hst|Hs]; [left; unfold stopped in *; by rewrite El|right].
    eapply submitters_kept; [exact Hs|]. intros j slot Hp. rewrite Hg. case_decide as Hj; [|done].
    split; [done|]. intros Hx. apply list_elem_of_fmap in Hj as (e & -> & He). rewrite Forall_forall in Haw.
    destruct (Haw e He) as (y & Hy & Hph & _). fold sh in Hx. congruence.
  - destruct Hb as (Hst & _). apply ok_stopped; auto.
Qed.
End steps.

Lemma no_slot_new store limits options i : get_slot (sh_state (shared_new store limits options)) i = None.
Proof.
  unfold get_slot, shared_new, ingress_new. cbn [sh_state in_slots].
  destruct (replicate _ _ !! i) as [o|] eqn:E; [|done]. by apply lookup_replicate_1 in E as [-> _].
Qed.

Lemma runtime_reachable_ok store limits options rt :
  wf limits → rt_reachable store limits options rt → runtime_ok store rt.
Proof.
  intros Hw. induction 1 as [|rt rt' Hreach IH Hs].
  - split; cbn [rt_shared rt_submitters]; [|right|exists []; apply run_opened].
    + split; try done.
      * intros i slot Hi. by rewrite no_slot_new in Hi.
      * exists []. split_and!; [apply queue_new_holds|constructor|]. intros i. rewrite elem_of_nil. split; [done|].
        intros (slot & Hi & _). by rewrite no_slot_new in Hi.
      * intros i j a b Hi. by rewrite no_slot_new in Hi.
      * intros i j a b Hi. by rewrite no_slot_new in Hi.
      * cbn. unfold wf, wf_byte_limits in Hw. rewrite !andb_True, !in_range_spec in Hw. tauto.
    + split; [constructor|constructor|]. intros i slot Hi. by rewrite no_slot_new in Hi.
  - destruct Hs.
    + by apply ok_check.
    + pose proof (ok_reserve store rt IH command ltac:(done)) as Hr. by rewrite H in Hr.
    + pose proof (ok_reserve store rt IH command ltac:(done)) as Hr. by rewrite H in Hr.
    + by apply ok_finish.
    + by apply ok_close.
    + by apply (ok_fail_stop store rt IH notify_one).
    + destruct IH as [? ? ?]. split; [by apply (ingress_ok_eq (rt_shared rt))|done|done].
    + by apply ok_install.
    + by apply ok_take.
    + pose proof (ok_prepare store rt IH i candidate) as Hp. by rewrite H in Hp.
    + pose proof (ok_prepare store rt IH i candidate) as Hp. by rewrite H in Hp.
    + by eapply ok_handled.
    + by apply ok_durable.
    + unfold on_shared, read_latest. destruct (sh_poisoned (rt_shared rt)); [by apply (ok_fail_stop store rt IH id)|].
      by destruct rt.
Qed.
