(* ===== verification/Drain.v ===== *)
(** * Properties of the interleaved runtime

    What every step of [Runtime] does to receipts, admission and the outstanding
    work, and the properties that follow: the invariant of reachable runtimes,
    the accounting of receipts, atomic durable batches, and draining. *)

From S2P Require Import Prelude Bytes Identity Bounded Value Collection Series Registry Admission.
From S2P Require Import Layout Wire Fields Crc Journal Generation Commit Retry Latest Queue Ingress Runtime.

(** ** Settling, limits and closing along steps *)

(** What a critical section never does: unsettle a receipt, change the byte
    limits, or reopen admission. *)
Record preserves (sh sh' : IngressShared) : Prop := {
  pv_receipts : receipts_settle (sh_receipts sh) (sh_receipts sh');
  pv_limits : in_byte_limits (sh_state sh') = in_byte_limits (sh_state sh);
  pv_closed : in_closed (sh_state sh) = true → in_closed (sh_state sh') = true }.

#[export] Instance preserves_preorder : PreOrder preserves.
Proof.
  split; [by split|]. intros a b c [? E1 ?] [? E2 ?]. split; [by etrans|by rewrite E2|auto].
Qed.

Lemma preserves_eq sh sh' :
  sh_receipts sh' = sh_receipts sh → in_byte_limits (sh_state sh') = in_byte_limits (sh_state sh) →
  (in_closed (sh_state sh) = true → in_closed (sh_state sh') = true) → preserves sh sh'.
Proof. intros Er ??. split; [by rewrite Er|done..]. Qed.

Lemma fail_stop_preserves sh : preserves sh (fail_stop sh).
Proof.
  split; [apply fail_stop_receipts| |intros _; apply fail_stop_closed].
  unfold fail_stop, stop_all. by destruct (stop_slots _ _ _).
Qed.

Lemma notify_preserves sh sh' : preserves sh sh' → preserves sh (notify_one sh').
Proof. by intros []. Qed.

(** The case split over a critical section that leaves receipts alone. *)
Ltac kept := repeat (case_match || case_decide); cbn [fst snd];
  first [apply fail_stop_preserves|apply notify_preserves, fail_stop_preserves|by apply preserves_eq].

Lemma check_preserves command sh : preserves sh (submit_check command sh).2.
Proof. unfold submit_check. kept. Qed.
Lemma close_preserves sh : preserves sh (close_admission sh).
Proof. unfold close_admission. apply notify_preserves. kept. Qed.
Lemma install_preserves retry sh : preserves sh (install_opened_retry retry sh).2.
Proof. unfold install_opened_retry. kept. Qed.
Lemma prepare_preserves i candidate sh : preserves sh (prepare_publication i candidate sh).2.
Proof. unfold prepare_publication. kept. Qed.
Lemma read_preserves sh : preserves sh (read_latest sh).2.
Proof. unfold read_latest. kept. Qed.
Lemma take_preserves sh : preserves sh (take_next sh).2.
Proof. unfold take_next. kept. Qed.

Lemma update_settles f loc h :
  (∀ r, settles r (f r).2) → receipts_settle h (update_receipt f loc h).2.
Proof.
  intros Hf. unfold update_receipt. destruct (h !! loc) as [r|] eqn:Hr; [|done].
  specialize (Hf r). destruct (f r) as [b r']. by eapply receipts_settle_insert.
Qed.
Lemma resolve_handled_settles append r : settles r (resolve_handled append r).2.
Proof. destruct r as [[?|] ?]; by split. Qed.
Lemma resolve_durable_settles c r : settles r (resolve_durable c r).2.
Proof. destruct r as [? [?|]]; by split. Qed.

Lemma reserve_preserves command measured sh : preserves sh (submit_reserve command measured sh).2.
Proof.
  unfold submit_reserve. destruct (sh_poisoned sh); [apply notify_preserves, fail_stop_preserves|].
  repeat (case_match || case_decide); cbn [fst snd]; try done; (split; [|done|done]); apply receipts_settle_snoc.
Qed.

Lemma rollback_preserves i sh : preserves sh (rollback_preparation i sh).
Proof.
  unfold rollback_preparation. destruct (sh_poisoned sh); [apply notify_preserves, fail_stop_preserves|].
  destruct (get_slot _ i) as [slot|]; [|done].
  pose proof (update_settles resolve_stopped (sl_terminal slot) (sh_receipts sh) (λ r, proj1 (resolve_stopped_settles r))) as Hs.
  destruct (update_receipt _ _ _) as [[] h]; (split; [exact Hs|done|done]).
Qed.
Lemma enqueue_preserves i t p priority barrier sh : preserves sh (submit_enqueue i t p priority barrier sh).2.
Proof. unfold submit_enqueue. kept. Qed.
Lemma finish_preserves command i t n sh : preserves sh (submit_finish command i t n sh).2.
Proof.
  unfold submit_finish. destruct (prepared_new _) as [p|e]; [|apply rollback_preserves].
  case_decide; [apply enqueue_preserves|apply rollback_preserves].
Qed.

Lemma handled_preserves i admission append prep sh : preserves sh (complete_handled i admission append prep sh).2.
Proof.
  unfold complete_handled. destruct (sh_poisoned sh); [apply fail_stop_preserves|].
  destruct (get_slot _ i) as [slot|]; [|apply fail_stop_preserves].
  destruct (_ || _); [apply fail_stop_preserves|]. set (sh1 := set_state _ sh).
  assert (preserves sh sh1) as H1 by (by apply preserves_eq).
  pose proof (update_settles (resolve_handled append) (sl_terminal slot) (sh_receipts sh1)
    (resolve_handled_settles append)) as Hs. cbn [sl_terminal].
  destruct (update_receipt _ _ _) as [[] h]; cbn [fst snd].
  - etrans; [exact H1|]. by split.
  - etrans; [exact H1|apply fail_stop_preserves].
Qed.

Lemma resolve_batch_preserves entries committed sh n :
  let '(_, s', h', _) := resolve_batch entries committed (sh_state sh) (sh_receipts sh) n in
  preserves sh (set_receipts h' (set_state s' sh)).
Proof.
  revert sh n. induction entries as [|e entries IH]; intros sh n; cbn [resolve_batch]; [by split|].
  destruct (get_slot _ _) as [slot|]; [|by split]. destruct (sl_append slot) as [append|]; [|by split].
  pose proof (update_settles (resolve_durable (mkDurable append committed)) (sl_terminal slot) (sh_receipts sh)
    (resolve_durable_settles _)) as Hs.
  destruct (update_receipt _ _ _) as [[] h]; [|by split]. set (s := with_reserved _ _).
  specialize (IH (set_receipts h (set_state s sh)) (notifications_push (sl_terminal slot) n)).
  cbn [sh_state sh_receipts set_receipts set_state] in IH. destruct (resolve_batch _ _ s h _) as [[[b s'] h'] n'].
  transitivity (set_receipts h (set_state s sh)); [by split|by destruct IH].
Qed.

Lemma durable_preserves entries committed retry sh : preserves sh (complete_durable_batch entries committed retry sh).2.
Proof.
  unfold complete_durable_batch. destruct (sh_poisoned sh); [apply fail_stop_preserves|].
  case_decide; [apply fail_stop_preserves|]. destruct (negb _); [apply fail_stop_preserves|].
  destruct (negb _); [apply fail_stop_preserves|].
  pose proof (resolve_batch_preserves entries committed (set_state (with_retry retry (sh_state sh)) sh) []) as Hb.
  cbn [sh_state sh_receipts set_state] in Hb.
  destruct (resolve_batch _ _ _ _ _) as [[[[] s'] h'] n']; cbn [fst snd].
  - by destruct Hb.
  - etrans; [|apply fail_stop_preserves]. by destruct Hb.
Qed.

Lemma step_preserves rt rt' : rt_step rt rt' → preserves (rt_shared rt) (rt_shared rt').
Proof.
  destruct 1 as [command|command answer sh' E _|command i t n sh' E _|k su _| | | |retry| |i c prep sh' E|i c e sh' E
    |k i admission append c prep _|entries committed retry|]; cbn [rt_shared on_shared].
  - apply check_preserves.
  - pose proof (reserve_preserves command (admission_frame_len_v1 (cmd_admission command)) (rt_shared rt)) as H. by rewrite E in H.
  - pose proof (reserve_preserves command (admission_frame_len_v1 (cmd_admission command)) (rt_shared rt)) as H. by rewrite E in H.
  - apply finish_preserves.
  - apply close_preserves.
  - apply notify_preserves, fail_stop_preserves.
  - by split.
  - apply install_preserves.
  - apply take_preserves.
  - pose proof (prepare_preserves i c (rt_shared rt)) as H. by rewrite E in H.
  - pose proof (prepare_preserves i c (rt_shared rt)) as H. by rewrite E in H.
  - apply handled_preserves.
  - apply durable_preserves.
  - apply read_preserves.
Qed.

Lemma reachable_limits store limits options rt :
  rt_reachable store limits options rt → in_byte_limits (sh_state (rt_shared rt)) = limits.
Proof. induction 1 as [|rt rt' _ IH Hs%step_preserves]; [done|]. by rewrite (pv_limits _ _ Hs). Qed.

(** ** The outstanding work *)

Definition rt_state (rt : runtime) : IngressState := sh_state (rt_shared rt).
Definition rt_work (rt : runtime) : Z := zsum slot_work (in_slots (rt_state rt)).
Definition closed (rt : runtime) : Prop := in_closed (rt_state rt) = true.

Lemma slot_work_bound o : 0 ≤ slot_work o ≤ 4.
Proof. destruct o as [slot|]; [|done]. cbn. by destruct (sl_phase slot). Qed.
Lemma slot_work_zero o : slot_work o = 0 → o = None.
Proof. destruct o as [slot|]; [|done]. cbn. by destruct (sl_phase slot). Qed.

Lemma zsum_bound {A} (f : A → Z) n l : (∀ x, 0 ≤ f x ≤ n) → 0 ≤ zsum f l ≤ n * Z.of_nat (length l).
Proof.
  intros Hf. induction l as [|x l IH]; [cbn; lia|]. cbn [zsum foldr length]. fold (zsum f l). specialize (Hf x). lia.
Qed.
Lemma zsum_le {A} (f : A → Z) l l' :
  Forall2 (λ x y, f y ≤ f x) l l' → zsum f l' ≤ zsum f l.
Proof. induction 1 as [|x y l l' ? ? IH]; [done|]. cbn [zsum foldr]. fold (zsum f l) (zsum f l'). lia. Qed.
Lemma zsum_lt {A} (f : A → Z) l l' i x y :
  Forall2 (λ x y, f y ≤ f x) l l' → l !! i = Some x → l' !! i = Some y → f y < f x → zsum f l' < zsum f l.
Proof.
  intros Hf. revert i. induction Hf as [|a b l l' Hab Hf IH]; intros i; [done|].
  cbn [zsum foldr]. fold (zsum f l) (zsum f l'). destruct i as [|i].
  - intros [= ->] [= ->] ?. pose proof (zsum_le f l l' Hf). lia.
  - intros H1 H2 ?. specialize (IH i H1 H2). lia.
Qed.

Section work.
Context (s s' : IngressState) (Hl : length (in_slots s') = length (in_slots s)).
Context (Hle : ∀ j, slot_work (get_slot s' j) ≤ slot_work (get_slot s j)).

Lemma slots_le : Forall2 (λ x y, slot_work y ≤ slot_work x) (in_slots s) (in_slots s').
Proof.
  apply Forall2_same_length_lookup_2; [by rewrite Hl|]. intros i x y Hx Hy. pose proof (Hle i) as Hi. unfold get_slot in Hi.
  by rewrite Hx, Hy in Hi.
Qed.
Lemma work_le : zsum slot_work (in_slots s') ≤ zsum slot_work (in_slots s).
Proof. apply zsum_le, slots_le. Qed.
Lemma work_lt i slot :
  get_slot s i = Some slot → slot_work (get_slot s' i) < slot_work (Some slot) →
  zsum slot_work (in_slots s') < zsum slot_work (in_slots s).
Proof.
  intros Hi Hlt. apply get_slot_Some in Hi. destruct (lookup_lt_is_Some_2 (in_slots s') i) as [y Hy].
  { rewrite Hl. by eapply lookup_lt_Some. }
  apply (zsum_lt _ _ _ i (Some slot) y slots_le Hi Hy). unfold get_slot in Hlt. by rewrite Hy in Hlt.
Qed.
End work.

Lemma work_zero s : zsum slot_work (in_slots s) = 0 ↔ active_count s = 0%nat.
Proof.
  rewrite no_slots. split.
  - intros E i. apply slot_work_zero. unfold get_slot. destruct (in_slots s !! i) as [o|] eqn:Ho; [|done].
    pose proof (zsum_insert slot_work _ i None o Ho) as Ei. pose proof (slot_work_bound o).
    pose proof (zsum_bound slot_work 4 (<[i:=None]> (in_slots s)) slot_work_bound).
    change (mjoin (Some o)) with o. change (slot_work None) with 0 in Ei. lia.
  - intros Hn. apply zsum_const. intros o [i Hi]%list_elem_of_lookup. specialize (Hn i). unfold get_slot in Hn.
    rewrite Hi in Hn. change (mjoin (Some o)) with o in Hn. by rewrite Hn.
Qed.

(** What a step does to the slots, when admission is closed. *)
Definition less_work (s s' : IngressState) : Prop := ∀ j, slot_work (get_slot s' j) ≤ slot_work (get_slot s j).
#[export] Instance less_work_preorder : PreOrder less_work.
Proof. split; [intros s j; lia|]. intros a b c Hab Hbc j. specialize (Hab j). specialize (Hbc j). lia. Qed.

Lemma less_same s s' : (∀ j, get_slot s' j = get_slot s j) → less_work s s'.
Proof. intros Hg j. rewrite Hg. lia. Qed.
Lemma less_stopped s sh' : ingress_ok sh' → stopped (sh_state sh') → less_work s (sh_state sh').
Proof.
  intros Hok Hst j. destruct (io_stopped _ Hok Hst) as (_ & Ha & _). rewrite no_slots in Ha. rewrite Ha.
  apply slot_work_bound.
Qed.
Lemma less_fail_stop s sh : less_work s (sh_state (fail_stop sh)).
Proof. intros j. rewrite no_slot_None. apply slot_work_bound. Qed.
Lemma less_moved sh sh' i a o :
  ingress_ok sh → get_slot (sh_state sh) i = Some a → moves sh sh' i o → slot_work o ≤ slot_work (Some a) →
  less_work (sh_state sh) (sh_state sh').
Proof. intros Hok Hi Hm Hle j. rewrite (moves_get sh sh' i o j Hok Hm). case_decide; [subst j; by rewrite Hi|lia]. Qed.

(** The case split over a critical section that leaves the slots alone. *)
Ltac same_slots := repeat (case_match || case_decide); cbn [fst snd]; first [apply less_fail_stop|by apply less_same].

(** *** Each step, when admission is closed *)

Section closed_steps.
Context (store : StoreId) (rt : runtime) (Hrt : runtime_ok store rt) (Hc : closed rt).
Let sh := rt_shared rt.
Let Hok : ingress_ok sh := ro_ingress _ _ Hrt.

Lemma less_reserve command measured :
  less_work (sh_state sh) (sh_state (submit_reserve command measured sh).2) ∧
  ∀ i t n, (submit_reserve command measured sh).1 ≠ Reserved i t n.
Proof.
  unfold submit_reserve. unfold closed, rt_state in Hc. fold sh in Hc.
  destruct (sh_poisoned sh); cbn [fst snd]; [split; [apply less_fail_stop|done]|]. rewrite Hc. done.
Qed.

Lemma submitter_owns k su :
  rt_submitters rt !! k = Some su → ¬ stopped (sh_state sh) → owns (sh_state sh) su.
Proof. intros Hk Hns. destruct (ro_submitters _ _ Hrt) as [?|[Ho _ _]]; [done|]. by eapply Forall_lookup_1. Qed.

Lemma less_finish_stopped command i t n :
  stopped (sh_state sh) → less_work (sh_state sh) (sh_state (submit_finish command i t n sh).2).
Proof.
  intros Hst. destruct (io_stopped _ Hok Hst) as (_ & Ha & _). rewrite no_slots in Ha.
  unfold submit_finish, rollback_preparation, submit_enqueue. rewrite Ha. same_slots.
Qed.

Lemma finish_work k su :
  rt_submitters rt !! k = Some su →
  let sh' := (submit_finish (su_command su) (su_slot su) (su_terminal su) (su_frame_len su) sh).2 in
  less_work (sh_state sh) (sh_state sh') ∧
  (¬ stopped (sh_state sh) → ∃ slot, get_slot (sh_state sh) (su_slot su) = Some slot ∧
    slot_work (get_slot (sh_state sh') (su_slot su)) < slot_work (Some slot)).
Proof.
  intros Hk. cbv zeta. destruct (decide (ls_current (in_latest (sh_state sh)) = None)) as [Hst|Hns].
  { split; [by apply less_finish_stopped|done]. }
  destruct (submitter_owns k su Hk Hns) as (slot & Hi & Hp & Hown).
  pose proof (finish_ok su sh Hok (or_intror (ex_intro _ slot (conj Hi (conj Hp Hown))))) as Hf.
  destruct (submit_finish _ _ _ _ _) as [answer sh']. cbn [snd]. destruct Hf as (Hok' & _ & _ & Hs).
  assert (slot_work (get_slot (sh_state sh') (su_slot su)) < slot_work (Some slot)) as Hlt.
  { cbn [slot_work]. rewrite Hp. destruct Hs as [Hst|[_ Hq]].
    - destruct (io_stopped _ Hok' Hst) as (_ & Ha & _). rewrite no_slots in Ha. by rewrite Ha.
    - destruct (get_slot (sh_state sh') (su_slot su)) as [x|]; [|done]. cbn. by rewrite (Hq x eq_refl). }
  split; [|by exists slot]. destruct Hs as [Hst|[Hg Hq]]; [by apply less_stopped|]. intros j.
  destruct (decide (j = su_slot su)) as [->|Hne]; [rewrite Hi; lia|rewrite Hg by done; lia].
Qed.

Lemma take_work :
  less_work (sh_state sh) (sh_state (take_next sh).2) ∧
  (∀ c, (take_next sh).1 = Work c → ∃ i slot, get_slot (sh_state sh) i = Some slot ∧
    slot_work (get_slot (sh_state (take_next sh).2) i) < slot_work (Some slot)).
Proof.
  destruct (sh_poisoned sh) eqn:Hpo; [unfold take_next; rewrite Hpo; split; [apply less_fail_stop|done]|].
  destruct (io_queue _ Hok) as ([|i l] & Hl & _).
  - pose proof (pop_holds _ _ Hl) as [Eh _]. unfold take_next. rewrite Hpo. destruct (pop _) as [o q].
    cbn [fst head] in Eh. subst o. destruct (in_closed _ && _); [destruct (seal _) as [[] latest]|destruct (_ && _)];
      (split; [by apply less_same|done]).
  - destruct (take_next_work sh i l Hok Hpo Hl) as (slot & b & c & Hi & Hph & Hb & _ & _ & -> & Hm & _).
    assert (slot_work (Some b) < slot_work (Some slot)) as Hlt by (cbn; by rewrite Hph, Hb).
    split; [eapply less_moved; [done|exact Hi|exact Hm|lia]|]. intros _ _. exists i, slot.
    by rewrite (moves_get _ _ _ _ _ Hok Hm), decide_True.
Qed.

Lemma handled_work i admission append prep :
  less_work (sh_state sh) (sh_state (complete_handled i admission append prep sh).2) ∧
  ((complete_handled i admission append prep sh).1 = true → ∃ slot, get_slot (sh_state sh) i = Some slot ∧
    slot_work (get_slot (sh_state (complete_handled i admission append prep sh).2) i) < slot_work (Some slot)).
Proof.
  pose proof (complete_handled_ok i admission append prep sh Hok) as Hh.
  destruct (complete_handled _ _ _ _ sh) as [[] sh']; cbn [fst snd]; destruct Hh as (Hok' & _ & Hs).
  - destruct Hs as (slot & b & Hi & Hph & Hb & Hm & _).
    assert (slot_work (Some b) < slot_work (Some slot)) as Hlt by (cbn; by rewrite Hph, Hb).
    split; [eapply less_moved; [done|exact Hi|exact Hm|lia]|]. intros _. exists slot.
    by rewrite (moves_get _ _ _ _ _ Hok Hm), decide_True.
  - split; [by apply less_stopped|done].
Qed.

Lemma durable_work entries committed retry :
  less_work (sh_state sh) (sh_state (complete_durable_batch entries committed retry sh).2) ∧
  ((complete_durable_batch entries committed retry sh).1 = true → ∃ i slot, get_slot (sh_state sh) i = Some slot ∧
    slot_work (get_slot (sh_state (complete_durable_batch entries committed retry sh).2) i) < slot_work (Some slot)).
Proof.
  pose proof (durable_ok entries committed retry sh Hok) as Hd.
  destruct (complete_durable_batch _ _ _ sh) as [[] sh']; cbn [fst snd]; destruct Hd as (Hok' & _ & Hs).
  - destruct Hs as (_ & _ & _ & _ & Hg & Haw & Hne & _). split.
    + intros j. rewrite Hg. case_decide; [apply slot_work_bound|lia].
    + intros _. destruct entries as [|e entries]; [done|]. apply Forall_cons in Haw as [(slot & Hi & Hph & _) _].
      exists (be_slot e), slot. split; [done|]. rewrite Hg, decide_True by (by left). cbn. by rewrite Hph.
  - split; [|done]. apply less_stopped; [done|apply Hs].
Qed.

Lemma step_less rt' : rt_step rt rt' → less_work (rt_state rt) (rt_state rt').
Proof.
  destruct 1 as [command|command answer sh' E _|command i t n sh' E _|k su Hk| | | |retry| |i c prep sh' E|i c e sh' E
    |k i admission append c prep _|entries committed retry|]; unfold rt_state; cbn [rt_shared on_shared].
  - unfold submit_check. same_slots.
  - pose proof (proj1 (less_reserve command (admission_frame_len_v1 (cmd_admission command)))) as H. unfold sh in H. by rewrite E in H.
  - pose proof (proj1 (less_reserve command (admission_frame_len_v1 (cmd_admission command)))) as H. unfold sh in H. by rewrite E in H.
  - by apply (finish_work k su).
  - unfold close_admission. same_slots.
  - apply less_fail_stop.
  - done.
  - unfold install_opened_retry. same_slots.
  - apply take_work.
  - revert E. unfold prepare_publication. intros E. repeat (case_match || case_decide); simplify_eq; by apply less_same.
  - revert E. unfold prepare_publication. intros E.
    repeat (case_match || case_decide); simplify_eq; first [apply less_fail_stop|by apply less_same].
  - apply handled_work.
  - apply durable_work.
  - unfold read_latest. same_slots.
Qed.
End closed_steps.

(** *** Runs *)

(** The steps that bring a slot nearer to its release. *)
Inductive productive (rt : runtime) : runtime → Prop :=
| productive_finish k su :
    rt_submitters rt !! k = Some su → ¬ stopped (rt_state rt) →
    productive rt (mkRuntime
      (submit_finish (su_command su) (su_slot su) (su_terminal su) (su_frame_len su) (rt_shared rt)).2
      (delete k (rt_submitters rt)) (rt_prepared rt))
| productive_take c :
    (take_next (rt_shared rt)).1 = Work c → productive rt (on_shared (λ sh, (take_next sh).2) rt)
| productive_handled k i admission append c prep :
    rt_prepared rt !! k = Some (c, prep) → (complete_handled i admission append prep (rt_shared rt)).1 = true →
    productive rt (mkRuntime (complete_handled i admission append prep (rt_shared rt)).2 (rt_submitters rt)
      (delete k (rt_prepared rt)))
| productive_durable entries committed retry :
    (complete_durable_batch entries committed retry (rt_shared rt)).1 = true →
    productive rt (on_shared (λ sh, (complete_durable_batch entries committed retry sh).2) rt).

Lemma productive_step rt rt' : productive rt rt' → rt_step rt rt'.
Proof. destruct 1; by econstructor. Qed.

(** Runs that count their productive steps. *)
Inductive rt_run (rt : runtime) : nat → runtime → Prop :=
| run_here : rt_run rt 0 rt
| run_other n rt1 rt2 : rt_run rt n rt1 → rt_step rt1 rt2 → rt_run rt n rt2
| run_productive n rt1 rt2 : rt_run rt n rt1 → productive rt1 rt2 → rt_run rt (S n) rt2.

Lemma step_closed rt rt' : rt_step rt rt' → closed rt → closed rt'.
Proof. by intros [_ _ Hc]%step_preserves. Qed.

Lemma slots_length store rt : runtime_ok store rt → length (in_slots (rt_state rt)) = MAX_OUTSTANDING_COMMANDS.
Proof. intros Hrt. apply (io_slots (rt_shared rt)), Hrt. Qed.

Lemma step_work store rt rt' :
  runtime_ok store rt → runtime_ok store rt' → closed rt → rt_step rt rt' → rt_work rt' ≤ rt_work rt.
Proof.
  intros Hrt Hrt' Hc Hs. apply work_le; [by rewrite !(slots_length store)|]. by apply (step_less store).
Qed.
Lemma productive_work store rt rt' :
  runtime_ok store rt → runtime_ok store rt' → closed rt → productive rt rt' → rt_work rt' < rt_work rt.
Proof.
  intros Hrt Hrt' Hc Hp. assert (∃ i slot, get_slot (rt_state rt) i = Some slot ∧
    slot_work (get_slot (rt_state rt') i) < slot_work (Some slot)) as (i & slot & Hi & Hlt).
  { destruct Hp as [k su Hk Hns|c Hw|k i admission append c prep _ Ht|entries committed retry Ht];
      unfold rt_state; cbn [rt_shared on_shared].
    - exists (su_slot su). by apply (proj2 (finish_work store rt Hrt k su Hk)).
    - by apply (proj2 (take_work store rt Hrt) c).
    - exists i. by apply (handled_work store rt Hrt).
    - by apply (durable_work store rt Hrt). }
  eapply work_lt; [by rewrite !(slots_length store)| |exact Hi|exact Hlt].
  apply (step_less store rt Hrt Hc), productive_step, Hp.
Qed.

Lemma run_reachable store limits options rt n rt' :
  rt_reachable store limits options rt → rt_run rt n rt' → rt_reachable store limits options rt'.
Proof.
  intros Hr. induction 1 as [|n rt1 rt2 _ IH Hs|n rt1 rt2 _ IH Hp%productive_step]; [done|..]; by eapply rt_stepped.
Qed.

Lemma run_work store limits options rt n rt' :
  wf limits → rt_reachable store limits options rt → closed rt → rt_run rt n rt' →
  closed rt' ∧ Z.of_nat n ≤ rt_work rt - rt_work rt'.
Proof.
  intros Hw Hr Hc. assert (∀ m x, rt_run rt m x → runtime_ok store x) as Hok.
  { intros m x Hx. eapply runtime_reachable_ok; [exact Hw|]. by eapply run_reachable. }
  induction 1 as [|n rt1 rt2 H1 [IHc IH] Hs|n rt1 rt2 H1 [IHc IH] Hp].
  - split; [done|lia].
  - split; [by eapply step_closed|]. pose proof (step_work store rt1 rt2) as Hle.
    specialize (Hle ltac:(by eapply Hok) ltac:(eapply Hok; by eapply run_other) IHc Hs). lia.
  - split; [by eapply step_closed, IHc; apply productive_step|]. pose proof (productive_work store rt1 rt2) as Hlt.
    specialize (Hlt ltac:(by eapply Hok) ltac:(eapply Hok; by eapply run_productive) IHc Hp). lia.
Qed.

Lemma take_drained sh :
  ingress_ok sh → sh_poisoned sh = false → in_closed (sh_state sh) = true → active_count (sh_state sh) = 0%nat →
  ¬ stopped (sh_state sh) → ls_sealed (in_latest (sh_state sh)) = false → (take_next sh).1 = Drained.
Proof.
  intros Hok Hpo Hc Ha Hst Hse. destruct (io_queue _ Hok) as ([|i l] & Hl & _ & Hin).
  - pose proof (pop_holds _ _ Hl) as [Eh _]. unfold take_next. rewrite Hpo. destruct (pop _) as [o q].
    cbn [fst head] in Eh. subst o.
    change (active_count (with_queue q (sh_state sh))) with (active_count (sh_state sh)).
    cbn [in_closed in_latest with_queue]. rewrite Hc, Ha. cbn [andb bool_decide]. unfold seal, stopped in *.
    rewrite decide_False; [done|]. rewrite Hse. naive_solver.
  - destruct (proj1 (Hin i)) as (slot & Hi & _); [by left|]. rewrite no_slots in Ha. by rewrite Ha in Hi.
Qed.

Lemma take_queued sh i slot :
  ingress_ok sh → sh_poisoned sh = false → get_slot (sh_state sh) i = Some slot → sl_phase slot = PhaseQueued →
  ∃ c, (take_next sh).1 = Work c.
Proof.
  intros Hok Hpo Hi Hp. destruct (io_queue _ Hok) as (l & Hl & _ & Hin).
  assert (i ∈ l) as Hil by (apply Hin; by exists slot). destruct l as [|j l]; [by apply elem_of_nil in Hil|].
  destruct (take_next_work sh j l Hok Hpo Hl) as (_ & _ & c & _ & _ & _ & _ & _ & ? & _). by exists c.
Qed.

Lemma handled_succeeds sh i slot admission append prep :
  ingress_ok sh → sh_poisoned sh = false → get_slot (sh_state sh) i = Some slot → sl_phase slot = InFlight →
  can_complete (in_latest (sh_state sh)) prep = true → (complete_handled i admission append prep sh).1 = true.
Proof.
  intros Hok Hpo Hi Hp Hcan. unfold complete_handled. rewrite Hpo, Hi, Hcan, bool_decide_eq_true_2 by done.
  cbn [negb orb]. pose proof (io_slot _ Hok _ _ Hi) as [_ _ Hrec Hph]. rewrite Hp in Hph. destruct Hph as [_ Ha].
  rewrite Ha in Hrec. unfold update_receipt. cbn [sh_receipts set_state sl_terminal]. by rewrite Hrec.
Qed.

(** ** Receipts of a batch *)

(** A receipt that the batch does not name is left alone. *)
Lemma durable_elsewhere entries committed retry sh sh' loc r :
  ingress_ok sh → complete_durable_batch entries committed retry sh = (true, sh') →
  sh_receipts sh !! loc = Some r →
  (∀ e slot, e ∈ entries → get_slot (sh_state sh) (be_slot e) = Some slot → sl_terminal slot ≠ loc) →
  sh_receipts sh' !! loc = Some r.
Proof.
  intros Hok E Hr Hne. pose proof (durable_ok entries committed retry sh Hok) as Hd. rewrite E in Hd.
  destruct Hd as (Hok' & Hset & _ & _ & _ & _ & Hg & _).
  destruct (io_receipts _ Hok _ _ Hr) as [(i & slot & Hi & <-)|[[h Hh] [d Hd]]].
  - assert (get_slot (sh_state sh') i = Some slot) as Hi'.
    { rewrite Hg, decide_False; [done|]. intros (e & -> & He)%list_elem_of_fmap. by apply (Hne e slot). }
    rewrite (so_receipt _ _ _ (io_slot _ Hok _ _ Hi)) in Hr.
    by rewrite (so_receipt _ _ _ (io_slot _ Hok' _ _ Hi')).
  - destruct (Hset _ _ Hr) as (r' & -> & H1 & H2). f_equal. destruct r, r'. cbn in *.
    specialize (H1 _ Hh). specialize (H2 _ Hd). congruence.
Qed.

(** A stop makes nothing durable. *)
Lemma fail_stop_durable sh loc r c :
  sh_receipts (fail_stop sh) !! loc = Some r → r_durable r = Some (Durable c) →
  ∃ r', sh_receipts sh !! loc = Some r' ∧ r_durable r' = Some (Durable c).
Proof.
  unfold fail_stop, stop_all. destruct (stop_slots _ _ _) as [h n] eqn:E. cbn.
  apply stop_slots_spec in E as [Hl Hh]. intros Hr Hc.
  destruct (lookup_lt_is_Some_2 (sh_receipts sh) loc) as [x Hx]; [rewrite <-Hl; by eapply lookup_lt_Some|].
  rewrite (Hh _ _ Hx) in Hr. injection Hr as <-. exists x. split; [done|]. revert Hc. case_decide; [|done].
  unfold resolve_stopped. cbn. by destruct (r_durable x).
Qed.

(** ** Properties *)

(** C17: In every interleaving of submitters, writer, shutdown and lock poisoning,
    at most sixteen commands are outstanding; the reserved bytes are exactly those
    of the outstanding commands and stay within the total; the queue holds exactly
    the queued ones; no two outstanding commands share a retry scope or a receipt
    and none is already known to the retry state; and the latest snapshot is the
    registry of some history of publications. *)
Theorem runtime_invariant store limits options rt :
  wf limits → rt_reachable store limits options rt →
  let s := rt_state rt in
  (active_count s ≤ MAX_OUTSTANDING_COMMANDS)%nat ∧
  in_reserved_bytes s = zsum slot_bytes (in_slots s) ∧ 0 ≤ in_reserved_bytes s ≤ bl_total limits ∧
  (∃ l, holds (in_queue s) l ∧ NoDup l ∧
    ∀ i, i ∈ l ↔ ∃ slot, get_slot s i = Some slot ∧ sl_phase slot = PhaseQueued) ∧
  (∀ i j a b, get_slot s i = Some a → get_slot s j = Some b → i ≠ j →
    sl_terminal a ≠ sl_terminal b ∧ scope (sl_qualification a) ≠ scope (sl_qualification b)) ∧
  (∀ i a, get_slot s i = Some a → state_classify (in_retry s) (sl_qualification a) = MatchFresh) ∧
  (∃ H, ∀ cur, ls_current (in_latest s) = Some cur → ∀ id, snapshot_get cur id = published_by H id).
Proof.
  intros Hw Hr. pose proof (reachable_limits _ _ _ _ Hr) as El. pose proof (runtime_reachable_ok _ _ _ _ Hw Hr) as [Hok _ [H Hp]].
  cbv zeta. unfold rt_state. pose proof Hok as [Hl Hs Hq Ht Hsc _ Hres Hb _ _]. split_and!; try done.
  - pose proof (zsum_bound slot_count 1 (in_slots (sh_state (rt_shared rt)))) as Hcount.
    rewrite Hl, <-active_count_sum in Hcount. enough (∀ o, 0 ≤ slot_count o ≤ 1) as Hone by (specialize (Hcount Hone); lia). by intros [slot|].
  - by apply reserved_nonneg.
  - by rewrite <-El.
  - intros i j a b Ha Hb' Hij. split; intros E; apply Hij; [by eapply Ht|by eapply Hsc].
  - intros i a Ha. by apply state_classify_Fresh, (Hs i a).
  - exists H. intros cur Hcur. apply pub_run_ok in Hp. by apply (sy_current _ _ _ Hp cur).
Qed.

(** C18: No receipt is lost. At every moment each receipt that was handed out is
    settled in both stages or belongs to an outstanding command, and then shows
    exactly whether the writer handled it; a step never changes a stage that was
    written; and a stop settles every receipt. *)
Theorem receipts_accounted store limits options rt :
  wf limits → rt_reachable store limits options rt →
  (∀ loc r, sh_receipts (rt_shared rt) !! loc = Some r → settled r ∨ ∃ i slot,
    get_slot (rt_state rt) i = Some slot ∧ sl_terminal slot = loc ∧
    r = mkReceipt (WriterHandled <$> sl_append slot) None) ∧
  (∀ rt', rt_step rt rt' → receipts_settle (sh_receipts (rt_shared rt)) (sh_receipts (rt_shared rt'))) ∧
  (∀ loc r, sh_receipts (stop (rt_shared rt)) !! loc = Some r → settled r).
Proof.
  intros Hw Hr. pose proof (ro_ingress _ _ (runtime_reachable_ok _ _ _ _ Hw Hr)) as Hok. split_and!.
  - intros loc r Hl. destruct (io_receipts _ Hok _ _ Hl) as [(i & slot & Hi & Ht)|?]; [right|by left].
    exists i, slot. split_and!; [done..|]. pose proof (so_receipt _ _ _ (io_slot _ Hok _ _ Hi)) as E. congruence.
  - by intros rt' [Hs _ _]%step_preserves.
  - intros loc r Hl. by eapply (proj2 (fail_stop_receipts (rt_shared rt)) Hok).
Qed.

(** C19: Durable completion is all or nothing. When it is accepted, the batch is
    not empty, its slots are distinct, awaited durability with exactly the appends
    of the entries, are released, and their receipts show the commit; nothing else
    changes but the retry state, which is the given one. When it is refused, the
    runtime stops, the retry state stays, and no receipt becomes durable. *)
Theorem durable_batch_atomic store limits options rt entries committed retry :
  wf limits → rt_reachable store limits options rt →
  let sh := rt_shared rt in
  let '(accepted, sh') := complete_durable_batch entries committed retry sh in
  if accepted then
    entries ≠ [] ∧ in_retry (sh_state sh') = retry ∧ in_latest (sh_state sh') = in_latest (sh_state sh) ∧
    (∀ e, e ∈ entries → ∃ slot, get_slot (sh_state sh) (be_slot e) = Some slot ∧
      sl_phase slot = AwaitingDurability ∧ sl_append slot = Some (be_append e) ∧
      sh_receipts sh' !! sl_terminal slot = Some (durable_receipt committed e)) ∧
    (∀ j, get_slot (sh_state sh') j = if decide (j ∈ be_slot <$> entries) then None else get_slot (sh_state sh) j) ∧
    (∀ loc r, sh_receipts sh !! loc = Some r →
      (∀ e slot, e ∈ entries → get_slot (sh_state sh) (be_slot e) = Some slot → sl_terminal slot ≠ loc) →
      sh_receipts sh' !! loc = Some r)
  else
    stopped (sh_state sh') ∧ active_count (sh_state sh') = 0%nat ∧
    in_retry (sh_state sh') = in_retry (sh_state sh) ∧
    (∀ loc r c, sh_receipts sh' !! loc = Some r → r_durable r = Some (Durable c) →
      ∃ r', sh_receipts sh !! loc = Some r' ∧ r_durable r' = Some (Durable c)).
Proof.
  intros Hw Hr. cbv zeta. pose proof (ro_ingress _ _ (runtime_reachable_ok _ _ _ _ Hw Hr)) as Hok.
  pose proof (durable_ok entries committed retry _ Hok) as Hd.
  pose proof (durable_elsewhere entries committed retry (rt_shared rt)) as Helse.
  destruct (complete_durable_batch _ _ _ _) as [[] sh']; destruct Hd as (Hok' & _ & Hd).
  - destruct Hd as (El & _ & _ & Er & Hg & Haw & Hne & Hrec). split_and!; try done.
    + intros e He. rewrite Forall_forall in Haw. destruct (Haw e He) as (slot & ? & ? & ?). exists slot. auto.
    + intros loc r. by apply Helse.
  - destruct Hd as (Hst & Erec & Er). split_and!; try done; [by apply (io_stopped _ Hok' Hst)|].
    intros loc r c. rewrite Erec. apply fail_stop_durable.
Qed.


(** ** A concrete run *)

Definition sample_limits : ByteReservationLimits := mkByteLimits 4096 512 512.
Definition sample_opened : runtime :=
  mkRuntime (shared_new (sample_id 0) sample_limits sample_options) [] [].
Definition sample_command : IngressCommand := mkCommand sample_admission Normal Group.
Definition sample_installed : runtime := on_shared (λ sh, (install_opened_retry sample_created sh).2) sample_opened.
Definition sample_reserved : runtime :=
  match submit_reserve sample_command (admission_frame_len_v1 (cmd_admission sample_command)) (rt_shared sample_installed) with
  | (Reserved i t n, sh) =>
    mkRuntime sh (rt_submitters sample_installed ++ [mkSubmitter sample_command i t n]) (rt_prepared sample_installed)
  | _ => sample_installed
  end.
Definition sample_closed : runtime := on_shared close_admission sample_reserved.
Definition sample_finish (rt : runtime) : runtime :=
  match rt_submitters rt with
  | su :: sus => mkRuntime
      (submit_finish (su_command su) (su_slot su) (su_terminal su) (su_frame_len su) (rt_shared rt)).2 sus (rt_prepared rt)
  | [] => rt
  end.
Definition sample_taken : runtime := on_shared (λ sh, (take_next sh).2) (sample_finish sample_closed).
Definition sample_planned : runtime :=
  match prepare_publication 0 None (rt_shared sample_taken) with
  | (Ok prep, sh) => mkRuntime sh (rt_submitters sample_taken) (rt_prepared sample_taken ++ [(None, prep)])
  | _ => sample_taken
  end.
Definition sample_append : AppendIdentity := mkAppend (mkJournalIdentity (sample_id 0) 1) 1 100.
Definition sample_handled : runtime :=
  mkRuntime (complete_handled 0 sample_admission sample_append PreparedNoChange (rt_shared sample_planned)).2
    (rt_submitters sample_planned) [].
Definition sample_entry : DurableBatchEntry := mkBatchEntry 0 sample_retry sample_append.
Definition sample_durable_retry : RetryStateSnapshot :=
  sample_advance sample_created (sample_commit 1 1 100, [pending_of sample_entry]).
Definition sample_drained : runtime :=
  on_shared (λ sh, (complete_durable_batch [sample_entry] (sample_commit 1 1 100) sample_durable_retry sh).2) sample_handled.

Lemma sample_frame_len n : admission_frame_len_v1 (cmd_admission sample_command) = Ok n → 0 ≤ n.
Proof.
  assert (admission_frame_len_v1 (cmd_admission sample_command) = Ok 829) as -> by by vm_compute. intros [= <-]. lia.
Qed.
Lemma sample_reserved_reachable : rt_reachable (sample_id 0) sample_limits sample_options sample_reserved.
Proof.
  eapply rt_stepped; [eapply rt_stepped; [apply rt_opened|apply (step_install _ sample_created)]|].
  change (on_shared _ _) with sample_installed.
  destruct (submit_reserve sample_command (admission_frame_len_v1 (cmd_admission sample_command))
    (rt_shared sample_installed)) as [[answer|i t n] sh] eqn:E.
  - assert (match (submit_reserve sample_command (admission_frame_len_v1 (cmd_admission sample_command))
      (rt_shared sample_installed)).1 with Answered _ => false | Reserved _ _ _ => true end = true) as Hf by by vm_compute.
    by rewrite E in Hf.
  - assert (sample_reserved = mkRuntime sh (rt_submitters sample_installed ++ [mkSubmitter sample_command i t n])
      (rt_prepared sample_installed)) as -> by (unfold sample_reserved; by rewrite E).
    apply (step_reserved _ _ _ _ _ _ E). apply sample_frame_len.
Qed.
Lemma sample_closed_reachable : rt_reachable (sample_id 0) sample_limits sample_options sample_closed.
Proof. eapply rt_stepped; [apply sample_reserved_reachable|apply step_close]. Qed.

Lemma sample_run_handled : rt_run sample_closed 3 sample_handled.
Proof.
  assert (rt_run sample_closed 2 sample_taken) as Ht.
  { eapply (run_productive _ _ (sample_finish sample_closed)); [eapply run_productive; [apply run_here|]|].
    - assert (∃ su, rt_submitters sample_closed = [su]) as [su E] by (eexists; by vm_compute).
      pose proof (productive_finish sample_closed 0 su) as Hp. rewrite E in Hp. specialize (Hp eq_refl).
      unfold sample_finish. rewrite E. apply Hp. apply (bool_decide_unpack (¬ (_ = _))). by vm_compute.
    - assert (∃ c, (take_next (rt_shared (sample_finish sample_closed))).1 = Work c) as [c E] by (eexists; by vm_compute).
      by apply (productive_take _ c). }
  assert (rt_run sample_closed 2 sample_planned) as Hp.
  { eapply run_other; [exact Ht|]. unfold sample_planned.
    destruct (prepare_publication 0 None (rt_shared sample_taken)) as [[prep|e] sh] eqn:E.
    - by apply (step_prepared _ 0 None).
    - assert (is_ok (prepare_publication 0 None (rt_shared sample_taken)).1 = true) as Hf by by vm_compute. by rewrite E in Hf. }
  eapply run_productive; [exact Hp|].
  assert (rt_prepared sample_planned = [(None, PreparedNoChange)]) as E by by vm_compute.
  pose proof (productive_handled sample_planned 0 0 sample_admission sample_append None PreparedNoChange) as H.
  rewrite E in H. apply H; [done|by vm_compute].
Qed.
Lemma sample_drain_run : rt_run sample_closed 4 sample_drained.
Proof. eapply run_productive; [apply sample_run_handled|]. apply productive_durable. by vm_compute. Qed.
Lemma sample_drained_reachable : rt_reachable (sample_id 0) sample_limits sample_options sample_drained.
Proof. eapply run_reachable; [apply sample_closed_reachable|apply sample_drain_run]. Qed.

Lemma runtime_invariant_witness :
  active_count (rt_state sample_closed) = 1%nat ∧ in_reserved_bytes (rt_state sample_closed) = 829 ∧
  ∀ i a, get_slot (rt_state sample_closed) i = Some a →
    state_classify (in_retry (rt_state sample_closed)) (sl_qualification a) = MatchFresh.
Proof.
  split; [by vm_compute|]. split; [by vm_compute|].
  apply (runtime_invariant (sample_id 0) sample_limits sample_options sample_closed);
    [by vm_compute|apply sample_closed_reachable].
Defined.
Lemma receipts_accounted_witness :
  length (sh_receipts (rt_shared sample_closed)) = 1%nat ∧
  ∀ loc r, sh_receipts (stop (rt_shared sample_closed)) !! loc = Some r → settled r.
Proof.
  split; [by vm_compute|].
  apply (receipts_accounted (sample_id 0) sample_limits sample_options sample_closed);
    [by vm_compute|apply sample_closed_reachable].
Defined.
Lemma sample_handled_reachable : rt_reachable (sample_id 0) sample_limits sample_options sample_handled.
Proof. eapply run_reachable; [apply sample_closed_reachable|apply sample_run_handled]. Qed.
Lemma durable_batch_atomic_witness :
  ∃ slot, get_slot (rt_state sample_handled) 0 = Some slot ∧
    sh_receipts (rt_shared sample_drained) !! sl_terminal slot = Some (durable_receipt (sample_commit 1 1 100) sample_entry).
Proof.
  pose proof (durable_batch_atomic (sample_id 0) sample_limits sample_options sample_handled [sample_entry]
    (sample_commit 1 1 100) sample_durable_retry ltac:(by vm_compute) sample_handled_reachable) as H.
  cbv zeta in H. assert ((complete_durable_batch [sample_entry] (sample_commit 1 1 100) sample_durable_retry
    (rt_shared sample_handled)).1 = true) as Hb by by vm_compute.
  change (rt_shared sample_drained) with (complete_durable_batch [sample_entry] (sample_commit 1 1 100)
    sample_durable_retry (rt_shared sample_handled)).2.
  destruct (complete_durable_batch _ _ _ _) as [b sh']. cbn [fst snd] in *. subst b.
  destruct H as (_ & _ & _ & Hs & _). destruct (Hs sample_entry) as (slot & Hi & _ & _ & Hr); [by left|]. exists slot. exact (conj Hi Hr).
Defined.
