(* ===== verification/Recovery.v ===== *)
(** * Recovery State V1

    [och-store/src/recovery.rs]: the report of an automatic recovery (what was
    removed beyond the committed root, and why), its validation and its fixed
    128-byte codec. *)

From Stdlib Require Import Strings.String.
From S2P Require Import Prelude Bytes Identity Bounded Value Wire Layout Crc Fields Journal Generation Commit.

Definition RECOVERY_STATE_MAGIC : list byte := list_byte_of_string "OCHRCV01".
Definition RECOVERY_STATE_VERSION : Z := 1.
Definition RECOVERY_STATE_LEN : Z := 128.
Definition RECOVERY_SLOT_NAMES : list (list byte) :=
  list_byte_of_string <$> ["recovery-state-v1-slot-0.och"; "recovery-state-v1-slot-1.och"; "recovery-state-v1-slot-2.och"]%string.

(** ** Reports *)

Inductive RecoveryClassification : Set :=
| ShortFramePrefix | InvalidFramePrefix | TruncatedDeclaredFrame | InvalidCompleteFrame.
#[export] Instance RecoveryClassification_eq_dec : EqDecision RecoveryClassification.
Proof. solve_decision. Defined.
Definition classification_tag (c : RecoveryClassification) : Z :=
  match c with ShortFramePrefix => 1 | InvalidFramePrefix => 2 | TruncatedDeclaredFrame => 3 | InvalidCompleteFrame => 4 end.
Definition classification_from_tag (tag : Z) : option RecoveryClassification :=
  if decide (tag = 1) then Some ShortFramePrefix
  else if decide (tag = 2) then Some InvalidFramePrefix
  else if decide (tag = 3) then Some TruncatedDeclaredFrame
  else if decide (tag = 4) then Some InvalidCompleteFrame
  else None.

Inductive RecoveryAction : Set := TruncateToCommittedRoot.
#[export] Instance RecoveryAction_eq_dec : EqDecision RecoveryAction.
Proof. solve_decision. Defined.
Definition action_tag (a : RecoveryAction) : Z := match a with TruncateToCommittedRoot => 1 end.
Definition action_from_tag (tag : Z) : option RecoveryAction :=
  if decide (tag = 1) then Some TruncateToCommittedRoot else None.

Record RecoveryReport := mkReport {
  rp_store_id : StoreId;
  rp_report_generation : Z;
  rp_source_manifest_generation : Z;
  rp_committing_manifest_generation : Z;
  rp_source_manifest_checksum : Z;
  rp_active_generation : Z;
  rp_sequence_floor : Z;
  rp_checkpoint_generation : Z;
  rp_append_sequence : Z;
  rp_committed_end_offset : Z;
  rp_original_journal_length : Z;
  rp_removed_bytes : Z;
  rp_classification : RecoveryClassification;
  rp_action : RecoveryAction }.
#[export] Instance RecoveryReport_eq_dec : EqDecision RecoveryReport.
Proof. solve_decision. Defined.
#[export] Instance wf_report : Wf RecoveryReport := λ r,
  wf (rp_store_id r) && is_u64 (rp_report_generation r) && is_u64 (rp_source_manifest_generation r) &&
  is_u64 (rp_committing_manifest_generation r) && is_u32 (rp_source_manifest_checksum r) &&
  is_u64 (rp_active_generation r) && is_u64 (rp_sequence_floor r) && is_u64 (rp_checkpoint_generation r) &&
  is_u64 (rp_append_sequence r) && is_u64 (rp_committed_end_offset r) && is_u64 (rp_original_journal_length r) &&
  is_u64 (rp_removed_bytes r).

Inductive RecoveryCodecError : Set := RecInvalid | RecStoreMismatch.

Definition validate_report (r : RecoveryReport) : result RecoveryCodecError () :=
  if decide (rp_report_generation r = 0 ∨ rp_source_manifest_generation r = 0 ∨
             checked_add u64_max (rp_source_manifest_generation r) 1 ≠ Some (rp_committing_manifest_generation r) ∨
             rp_active_generation r = 0 ∨ rp_checkpoint_generation r = 0 ∨
             rp_append_sequence r < rp_sequence_floor r ∨
             bool_decide (rp_append_sequence r = rp_sequence_floor r) ≠
               bool_decide (rp_committed_end_offset r = JOURNAL_V1_HEADER_LEN) ∨
             rp_committed_end_offset r < JOURNAL_V1_HEADER_LEN ∨
             rp_original_journal_length r ≤ rp_committed_end_offset r ∨
             rp_original_journal_length r > MAX_ACTIVE_JOURNAL_BYTES ∨
             checked_sub (rp_original_journal_length r) (rp_committed_end_offset r) ≠ Some (rp_removed_bytes r) ∨
             rp_removed_bytes r = 0 ∨ rp_action r ≠ TruncateToCommittedRoot)
  then Err RecInvalid
  else Ok tt.

Definition report_new (store_id : StoreId) (report_generation source_manifest_generation source_manifest_checksum : Z)
    (cutoff : DurableCutoff) (sequence_floor original_journal_length : Z) (classification : RecoveryClassification)
  : result RecoveryCodecError RecoveryReport :=
  let! committing := ok_or (checked_add u64_max source_manifest_generation 1) RecInvalid in
  let! removed := ok_or (match checked_sub original_journal_length (cut_end_offset cutoff) with
                         | Some removed => if decide (removed > 0) then Some removed else None
                         | None => None
                         end) RecInvalid in
  let report := mkReport store_id report_generation source_manifest_generation committing source_manifest_checksum
    (journal_generation (cut_journal cutoff)) sequence_floor (cut_checkpoint_generation cutoff)
    (cut_append_sequence cutoff) (cut_end_offset cutoff) original_journal_length removed classification
    TruncateToCommittedRoot in
  let! _ := validate_report report in Ok report.

Definition report_cutoff (r : RecoveryReport) : DurableCutoff :=
  mkCutoff (mkJournalIdentity (rp_store_id r) (rp_active_generation r)) (rp_checkpoint_generation r)
    (rp_append_sequence r) (rp_committed_end_offset r).

Record RecoveryReference := mkRecoveryReference { rr_slot : Z; rr_checksum : Z }.
#[export] Instance RecoveryReference_eq_dec : EqDecision RecoveryReference.
Proof. solve_decision. Defined.
Record RecoveryArtifact := mkRecoveryArtifact { ra_reference : RecoveryReference; ra_report : RecoveryReport }.
#[export] Instance RecoveryArtifact_eq_dec : EqDecision RecoveryArtifact.
Proof. solve_decision. Defined.

(** ** The codec *)

Definition encode_recovery_state (r : RecoveryReport) : result RecoveryCodecError (list byte) :=
  let! _ := validate_report r in
  let bytes := zeros (Z.to_nat RECOVERY_STATE_LEN) in
  let bytes := copy_at 0 RECOVERY_STATE_MAGIC bytes in
  let bytes := copy_at 8 (be_bytes 2 RECOVERY_STATE_VERSION) bytes in
  let bytes := copy_at 10 (be_bytes 2 128) bytes in
  let bytes := copy_at 12 (into_bytes (rp_store_id r)) bytes in
  let bytes := copy_at 28 (be_bytes 8 (rp_report_generation r)) bytes in
  let bytes := copy_at 36 (be_bytes 8 (rp_source_manifest_generation r)) bytes in
  let bytes := copy_at 44 (be_bytes 8 (rp_committing_manifest_generation r)) bytes in
  let bytes := copy_at 52 (be_bytes 4 (rp_source_manifest_checksum r)) bytes in
  let bytes := copy_at 56 (be_bytes 8 (rp_active_generation r)) bytes in
  let bytes := copy_at 64 (be_bytes 8 (rp_sequence_floor r)) bytes in
  let bytes := copy_at 72 (be_bytes 8 (rp_checkpoint_generation r)) bytes in
  let bytes := copy_at 80 (be_bytes 8 (rp_append_sequence r)) bytes in
  let bytes := copy_at 88 (be_bytes 8 (rp_committed_end_offset r)) bytes in
  let bytes := copy_at 96 (be_bytes 8 (rp_original_journal_length r)) bytes in
  let bytes := copy_at 104 (be_bytes 8 (rp_removed_bytes r)) bytes in
  let bytes := copy_at 112 (be_bytes 1 (classification_tag (rp_classification r))) bytes in
  let bytes := copy_at 113 (be_bytes 1 (action_tag (rp_action r))) bytes in
  Ok (copy_at 124 (be_bytes 4 (crc32c (slice 0 124 bytes))) bytes).

Definition decode_recovery_state (bytes : list byte) (expected_store : StoreId)
  : result RecoveryCodecError RecoveryReport :=
  if decide (len bytes ≠ RECOVERY_STATE_LEN ∨ slice 0 8 bytes ≠ RECOVERY_STATE_MAGIC ∨
             u16_at 8 bytes ≠ RECOVERY_STATE_VERSION ∨ u16_at 10 bytes ≠ 128 ∨
             ¬ all_zero (slice 114 124 bytes) ∨ crc32c (slice 0 124 bytes) ≠ u32_at 124 bytes)
  then Err RecInvalid
  else
    let! store_id := map_err (λ _, RecInvalid) (from_bytes (slice 12 28 bytes)) in
    if decide (store_id ≠ expected_store) then Err RecStoreMismatch
    else
      let! classification := ok_or (classification_from_tag (from_be (slice 112 113 bytes))) RecInvalid in
      let! action := ok_or (action_from_tag (from_be (slice 113 114 bytes))) RecInvalid in
      let report := mkReport store_id (u64_at 28 bytes) (u64_at 36 bytes) (u64_at 44 bytes) (u32_at 52 bytes)
        (u64_at 56 bytes) (u64_at 64 bytes) (u64_at 72 bytes) (u64_at 80 bytes) (u64_at 88 bytes) (u64_at 96 bytes)
        (u64_at 104 bytes) classification action in
      let! _ := validate_report report in
      let! encoded := encode_recovery_state report in
      if decide (encoded ≠ bytes) then Err RecInvalid else Ok report.

(** ** Lemmas: validation *)

(** What a valid report says, in real arithmetic. *)
Record report_contract (r : RecoveryReport) : Prop := {
  rc_report : rp_report_generation r ≠ 0;
  rc_source : rp_source_manifest_generation r ≠ 0;
  rc_committing : rp_committing_manifest_generation r = rp_source_manifest_generation r + 1 ∧
                  rp_committing_manifest_generation r ≤ u64_max;
  rc_active : rp_active_generation r ≠ 0;
  rc_checkpoint : rp_checkpoint_generation r ≠ 0;
  rc_floor : rp_sequence_floor r ≤ rp_append_sequence r;
  rc_genesis : rp_append_sequence r = rp_sequence_floor r ↔ rp_committed_end_offset r = JOURNAL_V1_HEADER_LEN;
  rc_lengths : JOURNAL_V1_HEADER_LEN ≤ rp_committed_end_offset r < rp_original_journal_length r;
  rc_bound : rp_original_journal_length r ≤ MAX_ACTIVE_JOURNAL_BYTES;
  rc_removed : rp_removed_bytes r = rp_original_journal_length r - rp_committed_end_offset r }.

Lemma bool_decide_iff_eq P Q `{Decision P, Decision Q} : bool_decide P = bool_decide Q ↔ (P ↔ Q).
Proof. repeat case_bool_decide; naive_solver. Qed.

Lemma validate_report_Ok r : validate_report r = Ok tt ↔ report_contract r.
Proof.
  unfold validate_report. rewrite guard_Ok. split.
  - intros [Hn _]. assert (checked_add u64_max (rp_source_manifest_generation r) 1 =
      Some (rp_committing_manifest_generation r)) as [? ?]%checked_add_Some by not_refused.
    assert (checked_sub (rp_original_journal_length r) (rp_committed_end_offset r) = Some (rp_removed_bytes r))
      as [? ?]%checked_sub_Some by not_refused.
    assert (bool_decide (rp_append_sequence r = rp_sequence_floor r) =
      bool_decide (rp_committed_end_offset r = JOURNAL_V1_HEADER_LEN)) as Hb%bool_decide_iff_eq by not_refused.
    split; try done; try tauto; try lia; split; lia || tauto.
  - intros [? ? [? ?] ? ? ? Hg ? ? Hr]. split; [|done].
    rewrite checked_add_ok by lia. unfold checked_sub. rewrite decide_True by lia.
    pose proof (proj2 (bool_decide_iff_eq _ _) Hg) as Hb. destruct (rp_action r).
    intros [?|[?|[?|[?|[?|[?|[?|[?|[?|[?|[?|[?|?]]]]]]]]]]]]; try lia; try done; congruence.
Qed.

Lemma report_new_contract store g sg ck cutoff floor n c r :
  report_new store g sg ck cutoff floor n c = Ok r →
  report_contract r ∧ rp_store_id r = store ∧ rp_removed_bytes r = n - cut_end_offset cutoff ∧
  report_cutoff r = mkCutoff (mkJournalIdentity store (journal_generation (cut_journal cutoff)))
    (cut_checkpoint_generation cutoff) (cut_append_sequence cutoff) (cut_end_offset cutoff).
Proof.
  unfold report_new. rewrite ok_or_Ok. intros (k & _ & Hr). rewrite ok_or_Ok in Hr. destruct Hr as (m & Hm & Hr).
  rewrite let_ok_iff, validate_report_Ok in Hr. destruct Hr as [Hc [= <-]]. split_and!; try done.
  by rewrite (rc_removed _ Hc).
Qed.

(** ** Lemmas: the layout *)

Definition report_fields (r : RecoveryReport) : list (list byte) :=
  [RECOVERY_STATE_MAGIC; be_bytes 2 RECOVERY_STATE_VERSION; be_bytes 2 128; into_bytes (rp_store_id r);
   be_bytes 8 (rp_report_generation r); be_bytes 8 (rp_source_manifest_generation r);
   be_bytes 8 (rp_committing_manifest_generation r); be_bytes 4 (rp_source_manifest_checksum r);
   be_bytes 8 (rp_active_generation r); be_bytes 8 (rp_sequence_floor r); be_bytes 8 (rp_checkpoint_generation r);
   be_bytes 8 (rp_append_sequence r); be_bytes 8 (rp_committed_end_offset r);
   be_bytes 8 (rp_original_journal_length r); be_bytes 8 (rp_removed_bytes r);
   be_bytes 1 (classification_tag (rp_classification r)); be_bytes 1 (action_tag (rp_action r)); zeros 10].
Definition report_wire (r : RecoveryReport) : list byte :=
  concat (report_fields r) ++ be_bytes 4 (crc32c (concat (report_fields r))).

Lemma len_recovery_magic : len RECOVERY_STATE_MAGIC = 8.
Proof. done. Qed.
#[local] Hint Rewrite len_recovery_magic : len.

Lemma len_report_fields r : wf (rp_store_id r) → len (concat (report_fields r)) = 124.
Proof. intros Hs%len_into_bytes. unfold report_fields. cbn [concat]. autorewrite with len. rewrite Hs. lia. Qed.
Lemma len_report_wire r : wf (rp_store_id r) → len (report_wire r) = 128.
Proof. intros Hs. unfold report_wire. rewrite len_app, len_be_bytes, len_report_fields by done. done. Qed.

Lemma encode_report_layout r :
  wf (rp_store_id r) → encode_recovery_state r = let! _ := validate_report r in Ok (report_wire r).
Proof.
  intros Hw. pose proof (len_into_bytes _ Hw) as Hs. pose proof (len_report_fields r Hw) as Hc.
  unfold encode_recovery_state, RECOVERY_STATE_LEN. destruct (validate_report r) as [[]|]; [|done]. cbv zeta. f_equal.
  rewrite <-(app_nil_l (zeros (Z.to_nat 128))).
  rewrite copy_at_next by (rewrite ?len_recovery_magic; done || lia). rewrite app_nil_l, len_recovery_magic.
  do 2 fill. rewrite copy_at_next by (autorewrite with len; lia). rewrite Hs.
  do 13 (rewrite copy_at_next by (autorewrite with len; rewrite ?Hs; lia); rewrite len_be_bytes).
  match goal with |- context [zeros (Z.to_nat ?n)] => replace n with (10 + 4) by lia end.
  rewrite zeros_split, app_assoc by lia. set (covered := _ ++ zeros (Z.to_nat 10)).
  assert (covered = concat (report_fields r)) as ->
    by (unfold covered, report_fields; cbn [concat]; by rewrite app_nil_r, <-!app_assoc).
  rewrite slice_app_0, copy_at_next by (rewrite ?len_be_bytes; done || lia).
  by rewrite len_be_bytes, app_nil_r.
Qed.

(** Every field is where the decoder reads it. *)
Lemma report_slice r k f a b :
  report_fields r !! k = Some f → a = fields_len (take k (report_fields r)) → b = a + len f →
  slice a b (report_wire r) = f.
Proof.
  intros Hk Ha ->. unfold report_wire. rewrite <-(app_nil_l (concat _ ++ _)), <-(Z.add_0_l a).
  by apply (slice_field_at _ k).
Qed.

Lemma decode_report_complete r :
  wf r → report_contract r → decode_recovery_state (report_wire r) (rp_store_id r) = Ok r.
Proof.
  intros Hw Hc. wf_fields Hw. assert (wf (rp_store_id r)) as Hs by assumption.
  pose proof (len_into_bytes _ Hs) as Hid. pose proof (len_report_fields r Hs) as Hl.
  assert (∀ k f a b, report_fields r !! k = Some f → a = fields_len (take k (report_fields r)) → b = a + len f →
    slice a b (report_wire r) = f) as Hf by (intros; by eapply report_slice).
  unfold report_fields at 1 2, fields_len in Hf.
  unfold decode_recovery_state, u16_at, u32_at, u64_at. rewrite len_report_wire by done.
  rewrite (Hf 0%nat RECOVERY_STATE_MAGIC 0 8),
    (Hf 1%nat (be_bytes 2 RECOVERY_STATE_VERSION) 8 (8 + 2)),
    (Hf 2%nat (be_bytes 2 128) 10 (10 + 2)),
    (Hf 3%nat (into_bytes (rp_store_id r)) 12 28),
    (Hf 4%nat (be_bytes 8 (rp_report_generation r)) 28 (28 + 8)),
    (Hf 5%nat (be_bytes 8 (rp_source_manifest_generation r)) 36 (36 + 8)),
    (Hf 6%nat (be_bytes 8 (rp_committing_manifest_generation r)) 44 (44 + 8)),
    (Hf 7%nat (be_bytes 4 (rp_source_manifest_checksum r)) 52 (52 + 4)),
    (Hf 8%nat (be_bytes 8 (rp_active_generation r)) 56 (56 + 8)),
    (Hf 9%nat (be_bytes 8 (rp_sequence_floor r)) 64 (64 + 8)),
    (Hf 10%nat (be_bytes 8 (rp_checkpoint_generation r)) 72 (72 + 8)),
    (Hf 11%nat (be_bytes 8 (rp_append_sequence r)) 80 (80 + 8)),
    (Hf 12%nat (be_bytes 8 (rp_committed_end_offset r)) 88 (88 + 8)),
    (Hf 13%nat (be_bytes 8 (rp_original_journal_length r)) 96 (96 + 8)),
    (Hf 14%nat (be_bytes 8 (rp_removed_bytes r)) 104 (104 + 8)),
    (Hf 15%nat (be_bytes 1 (classification_tag (rp_classification r))) 112 113),
    (Hf 16%nat (be_bytes 1 (action_tag (rp_action r))) 113 114),
    (Hf 17%nat (zeros 10) 114 124)
    by (done || (cbn [take concat]; autorewrite with len; rewrite ?Hid; done)).
  replace (slice 0 124 (report_wire r)) with (concat (report_fields r)) by (symmetry; by apply slice_app_0).
  replace (slice 124 (124 + 4) (report_wire r)) with (be_bytes 4 (crc32c (concat (report_fields r))))
    by (symmetry; apply slice_app_end; [done|by rewrite len_be_bytes]).
  pose proof (crc32c_range (concat (report_fields r))) as Hcr%in_range_spec. unfold u32_max, u64_max in *.
  assert (0 ≤ classification_tag (rp_classification r) < 256 ∧ 0 ≤ action_tag (rp_action r) < 256) as [Ht1 Ht2]
    by (split; [by destruct (rp_classification r)|by destruct (rp_action r)]).
  rewrite !from_be_bytes_small by (unfold RECOVERY_STATE_VERSION; lia). pose proof (all_zero_zeros 10).
  rewrite decide_False by tauto. rewrite from_bytes_into by done. cbn [map_err]. rewrite decide_False by tauto.
  assert (classification_from_tag (classification_tag (rp_classification r)) = Some (rp_classification r)) as ->
    by (by destruct (rp_classification r)).
  assert (action_from_tag (action_tag (rp_action r)) = Some (rp_action r)) as -> by (by destruct (rp_action r)).
  cbn [ok_or]. cbv zeta.
  assert (mkReport (rp_store_id r) (rp_report_generation r) (rp_source_manifest_generation r)
    (rp_committing_manifest_generation r) (rp_source_manifest_checksum r) (rp_active_generation r) (rp_sequence_floor r)
    (rp_checkpoint_generation r) (rp_append_sequence r) (rp_committed_end_offset r) (rp_original_journal_length r)
    (rp_removed_bytes r) (rp_classification r) (rp_action r) = r) as -> by (by destruct r).
  rewrite encode_report_layout by done. rewrite (proj2 (validate_report_Ok r) Hc). by rewrite decide_False by tauto.
Qed.

Lemma decode_report_sound bytes store r :
  decode_recovery_state bytes store = Ok r →
  wf r ∧ report_contract r ∧ rp_store_id r = store ∧ bytes = report_wire r.
Proof.
  unfold decode_recovery_state. rewrite guard_Ok, map_err_Ok. intros (Hpre & sid & Hid & Hr).
  rewrite guard_Ok, ok_or_Ok in Hr. destruct Hr as (Hst & c & Hc & Hr). rewrite ok_or_Ok in Hr.
  destruct Hr as (a & Ha & Hr). cbv zeta in Hr. rewrite let_ok_iff, validate_report_Ok in Hr. destruct Hr as [Hok Hr].
  assert (sid = store) as -> by not_refused. assert (len bytes = 128) as Hl by not_refused.
  apply from_bytes_wf in Hid as [Hs Eid]; [|pose proof (len_slice 12 28 bytes); unfold len in *; lia].
  set (r' := mkReport _ _ _ _ _ _ _ _ _ _ _ _ _ _) in *.
  rewrite encode_report_layout, (proj2 (validate_report_Ok r') Hok), guard_Ok in Hr by done.
  destruct Hr as [Hb [= <-]]. split_and!; try done; [|symmetry; by apply dec_stable].
  assert (∀ n i, 0 ≤ n → 0 ≤ i → i + n ≤ 128 → 0 ≤ from_be (slice i (i + n) bytes) < 256 ^ n) as Hu.
  { intros n i Hn Hi Hin. pose proof (from_be_range (slice i (i + n) bytes)) as Hr. rewrite len_slice in Hr by lia.
    by replace (i + n - i) with n in Hr by lia. }
  unfold r', u64_at, u32_at. wf_intro; try done; apply in_range_spec; cbn.
  all: match goal with |- context [slice ?i (?i + ?n) _] => specialize (Hu n i ltac:(lia) ltac:(lia) ltac:(lia)) end;
    unfold u64_max, u32_max; lia.
Qed.

(** ** Properties *)

(** A recovery report file is exactly the 128-byte encoding of a report that
    meets its contract: bytes decode for a store to a report precisely when the
    report is well-formed, belongs to the store, meets the contract and encodes to
    these bytes; and a valid report always encodes. *)
Theorem recovery_state_exact bytes store r :
  decode_recovery_state bytes store = Ok r ↔
  wf r ∧ report_contract r ∧ rp_store_id r = store ∧ encode_recovery_state r = Ok bytes.
Proof.
  split.
  - intros (Hw & Hc & Hs & ->)%decode_report_sound. split_and!; try done.
    assert (wf (rp_store_id r)) by (wf_fields Hw; done). rewrite encode_report_layout by done.
    by rewrite (proj2 (validate_report_Ok r) Hc).
  - intros (Hw & Hc & <- & He). assert (wf (rp_store_id r)) by (wf_fields Hw; done).
    rewrite encode_report_layout, (proj2 (validate_report_Ok r) Hc) in He by done. injection He as <-.
    by apply decode_report_complete.
Qed.
