(* ===== verification/Disk.v ===== *)
(** * Files, I/O failures and the state-and-error monad

    What the storage crates use of [std::fs]: files with the bytes they show and
    the bytes that were synchronized, directory entries, the writer lock, and
    operations any of which may fail, writes possibly after a part. A failure is
    taken from a list the environment supplies; an empty list means no failure.
    Code that threads a handle and files through fallible calls is written in the
    monad [M]. *)

From S2P Require Import Prelude Bytes Layout.

(** ** The monad *)

Definition M (S E A : Type) : Type := S → result E A * S.
#[export] Instance M_ret {S E} : MRet (M S E) := λ A a s, (Ok a, s).
#[export] Instance M_bind {S E} : MBind (M S E) := λ A B k m s,
  match m s with (Ok a, s) => k a s | (Err e, s) => (Err e, s) end.
Definition fail {S E A} (e : E) : M S E A := λ s, (Err e, s).
(** A pure result, [?] included. *)
Definition lift {S E A} (r : result E A) : M S E A := λ s, (r, s).
(** [if condition { return Err(e); }]. *)
Definition refuse_if {S E} (P : Prop) `{Decision P} (e : E) : M S E () :=
  if decide P then fail e else mret tt.
Definition map_err_m {S E F A} (f : E → F) (m : M S E A) : M S F A := λ s,
  let '(r, s) := m s in (map_err f r, s).
(** A call whose result is matched on. *)
Definition attempt {S E A} (m : M S E A) : M S E (result E A) := λ s, let '(r, s) := m s in (Ok r, s).
Definition get {S E} : M S E S := λ s, (Ok s, s).
Definition put {S E} (s : S) : M S E () := λ _, (Ok tt, s).

(** Outcomes: [Q] of an answer and the state after it, [R] of a refusal. *)
Definition outcome {S E A} (m : M S E A) (s : S) (Q : A → S → Prop) (R : E → S → Prop) : Prop :=
  match m s with (Ok a, s') => Q a s' | (Err e, s') => R e s' end.

Section outcomes.
Context {S E : Type}.

Lemma outcome_bind {A B} (m : M S E A) (k : A → M S E B) s Q R :
  outcome (m ≫= k) s Q R ↔ outcome m s (λ a s', outcome (k a) s' Q R) R.
Proof. unfold outcome, mbind, M_bind. by destruct (m s) as [[a|e] s']. Qed.
Lemma outcome_ret {A} (a : A) s (Q : A → S → Prop) (R : E → S → Prop) : outcome (mret a) s Q R ↔ Q a s.
Proof. done. Qed.
Lemma outcome_fail {A} (e : E) s (Q : A → S → Prop) R : outcome (fail e) s Q R ↔ R e s.
Proof. done. Qed.
Lemma outcome_refuse (P : Prop) `{Decision P} (e : E) s Q R :
  outcome (refuse_if P e : M S E ()) s Q R ↔ (P → R e s) ∧ (¬ P → Q tt s).
Proof. unfold refuse_if. case_decide; cbn; rewrite ?outcome_fail, ?outcome_ret; tauto. Qed.
Lemma outcome_weaken {A} (m : M S E A) s (Q Q' : A → S → Prop) (R R' : E → S → Prop) :
  outcome m s Q R → (∀ a s', Q a s' → Q' a s') → (∀ e s', R e s' → R' e s') → outcome m s Q' R'.
Proof. unfold outcome. destruct (m s) as [[]]; eauto. Qed.
Lemma outcome_and {A} (m : M S E A) s (Q Q' : A → S → Prop) (R R' : E → S → Prop) :
  outcome m s Q R → outcome m s Q' R' → outcome m s (λ a s, Q a s ∧ Q' a s) (λ e s, R e s ∧ R' e s).
Proof. unfold outcome. by destruct (m s) as [[a|e] s']. Qed.
Lemma outcome_map_err {F A} (f : E → F) (m : M S E A) s Q R :
  outcome (map_err_m f m) s Q R ↔ outcome m s Q (λ e, R (f e)).
Proof. unfold outcome, map_err_m. by destruct (m s) as [[]]. Qed.

(** Equations, for runs that are known. *)
Lemma run_bind_Ok {A B} (m : M S E A) (k : A → M S E B) s a s' : m s = (Ok a, s') → (m ≫= k) s = k a s'.
Proof. intros E1. unfold mbind, M_bind. by rewrite E1. Qed.
Lemma run_bind_Err {A B} (m : M S E A) (k : A → M S E B) s e s' : m s = (Err e, s') → (m ≫= k) s = (Err e, s').
Proof. intros E1. unfold mbind, M_bind. by rewrite E1. Qed.
Lemma refuse_false (P : Prop) `{Decision P} (e : E) (s : S) : ¬ P → (refuse_if P e : M S E ()) s = (Ok tt, s).
Proof. intros. unfold refuse_if. by rewrite decide_False. Qed.
Lemma refuse_true (P : Prop) `{Decision P} (e : E) (s : S) : P → (refuse_if P e : M S E ()) s = (Err e, s).
Proof. intros. unfold refuse_if. by rewrite decide_True. Qed.
End outcomes.

(** ** Errors of [std::io] *)

Inductive ErrorKind : Set :=
| StorageFull | QuotaExceeded | NotFound | KindAlreadyExists | UnexpectedEof | OtherKind (code : Z).
#[export] Instance ErrorKind_eq_dec : EqDecision ErrorKind.
Proof. solve_decision. Defined.
Record IoError := mkIoError { io_kind : ErrorKind; io_raw_os_error : option Z }.
#[export] Instance IoError_eq_dec : EqDecision IoError.
Proof. solve_decision. Defined.

(** ** Files *)

Record file := mkFile { f_data : list byte; f_synced : list byte }.
(** What the environment does to the next operation. *)
Inductive io_event := IoDone | IoFailed (written : nat) (error : IoError).
Record disk := mkDisk {
  dk_files : gmap (list byte) file;
  dk_entries : gset (list byte);
  dk_locked : bool;
  dk_events : list io_event }.

Definition with_files (files : gmap (list byte) file) (d : disk) : disk :=
  mkDisk files (dk_entries d) (dk_locked d) (dk_events d).
Definition file_of (d : disk) (name : list byte) : file := default (mkFile [] []) (dk_files d !! name).
Definition data_of (d : disk) (name : list byte) : list byte := f_data (file_of d name).
Definition put_file (name : list byte) (f : file) (d : disk) : disk := with_files (<[name := f]> (dk_files d)) d.
(** New visible bytes, nothing synchronized. *)
Definition put_data (name : list byte) (bytes : list byte) (d : disk) : disk :=
  put_file name (mkFile bytes (f_synced (file_of d name))) d.

(** The next operation fails with an error after [written] bytes, or happens. *)
Definition io_op {A} (done : M disk IoError A) (failed : nat → disk → disk) : M disk IoError A := λ d,
  match dk_events d with
  | [] => done d
  | IoDone :: events => done (mkDisk (dk_files d) (dk_entries d) (dk_locked d) events)
  | IoFailed written error :: events =>
    (Err error, failed written (mkDisk (dk_files d) (dk_entries d) (dk_locked d) events))
  end.
Definition unchanged (written : nat) (d : disk) : disk := d.

Definition open_existing_file (name : list byte) : M disk IoError () :=
  io_op (λ d, match dk_files d !! name with
              | Some _ => (Ok tt, d)
              | None => (Err (mkIoError NotFound None), d)
              end) unchanged.
Definition create_new_file (name : list byte) : M disk IoError () :=
  io_op (λ d, match dk_files d !! name with
              | Some _ => (Err (mkIoError KindAlreadyExists None), d)
              | None => (Ok tt, put_file name (mkFile [] []) d)
              end) unchanged.
Definition file_len (name : list byte) : M disk IoError Z :=
  io_op (λ d, (Ok (len (data_of d name)), d)) unchanged.
(** A seek, or opening or inspecting the directory: nothing but a failure. *)
Definition seek : M disk IoError () := io_op (λ d, (Ok tt, d)) unchanged.
(** [read_exact] of [n] bytes at a position. *)
Definition read_exact (name : list byte) (position n : Z) : M disk IoError (list byte) :=
  io_op (λ d, if decide (position + n ≤ len (data_of d name))
              then (Ok (slice position (position + n) (data_of d name)), d)
              else (Err (mkIoError UnexpectedEof None), d)) unchanged.
(** Writing past the end fills the gap with zeros. *)
Definition overwrite (position : Z) (bytes data : list byte) : list byte :=
  let padded := data ++ zeros (Z.to_nat (position - len data)) in
  copy_at position bytes padded.
Definition write_all (name : list byte) (position : Z) (bytes : list byte) : M disk IoError () :=
  io_op (λ d, (Ok tt, put_data name (overwrite position bytes (data_of d name)) d))
        (λ written d, put_data name (overwrite position (take written bytes) (data_of d name)) d).
(** [write_all] after a seek to the end. *)
Definition write_end (name : list byte) (bytes : list byte) : M disk IoError () := λ d,
  write_all name (len (data_of d name)) bytes d.
Definition resize (n : Z) (data : list byte) : list byte :=
  take (Z.to_nat n) data ++ zeros (Z.to_nat (n - len data)).
Definition set_len (name : list byte) (n : Z) : M disk IoError () :=
  io_op (λ d, (Ok tt, put_data name (resize n (data_of d name)) d)) unchanged.
Definition sync_all (name : list byte) : M disk IoError () :=
  io_op (λ d, (Ok tt, put_file name (mkFile (data_of d name) (data_of d name)) d)) unchanged.
Definition sync_directory : M disk IoError () :=
  io_op (λ d, (Ok tt, mkDisk (dk_files d) (dom (dk_files d)) (dk_locked d) (dk_events d))) unchanged.
(** [try_lock]; [dk_locked] says that another handle holds the lock, and the
    refusal is then [None]. *)
Definition try_lock : M disk (option IoError) () :=
  λ d, match io_op (λ d, (Ok tt, d)) unchanged d with
       | (Err e, d) => (Err (Some e), d)
       | (Ok _, d) => if dk_locked d then (Err None, d) else (Ok tt, d)
       end.
