(* ===== verification/Active.v ===== *)
(** * The active journal file

    [och-store/src/active.rs] with [pressure.rs]: one locked journal file and its
    two-slot checkpoint file. Appends write whole frames, a barrier synchronizes
    the journal, writes the alternate checkpoint slot and synchronizes that, and
    an open scans what a crash left. Every operation is a definition over the
    files of [Disk], in the order of the code's effects. *)

From Stdlib Require Import Strings.String.
From S2P Require Import Prelude Bytes Identity Bounded Value Collection Series Registry Admission Wire Layout Crc.
From S2P Require Import Fields Journal Generation Commit Recovery Disk.

(** ** Names, limits and configuration *)

Definition ACTIVE_JOURNAL_FILE_NAME : list byte := list_byte_of_string "active-journal-v1.och".
Definition ACTIVE_CHECKPOINT_FILE_NAME : list byte := list_byte_of_string "active-journal-v1.checkpoint".
Definition active_journal_file_name (generation : Z) : list byte :=
  if decide (generation = ACTIVE_JOURNAL_GENERATION) then ACTIVE_JOURNAL_FILE_NAME
  else list_byte_of_string "active-journal-v1-g" ++ pad_020 generation ++ list_byte_of_string ".och".
Definition active_checkpoint_file_name (generation : Z) : list byte :=
  if decide (generation = ACTIVE_JOURNAL_GENERATION) then ACTIVE_CHECKPOINT_FILE_NAME
  else list_byte_of_string "active-journal-v1-g" ++ pad_020 generation ++ list_byte_of_string ".checkpoint".

Definition MAX_ACTIVE_JOURNAL_RECORDS : Z := 4096.
Definition MAX_STORE_DIRECTORY_BYTES : Z := 4096.
Definition CHECKPOINT_MAGIC : list byte := list_byte_of_string "OCHCP001".
Definition CHECKPOINT_VERSION : Z := 1.
Definition CHECKPOINT_SLOT_LEN : Z := 64.
Definition CHECKPOINT_FILE_LEN : Z := CHECKPOINT_SLOT_LEN * 2.

(** ** Errors and write custody *)

Inductive StoreIoOperation : Set :=
| OpOpenDirectory | OpCreateArtifact | OpOpenArtifact | OpLockJournal | OpRead | OpSeek | OpWrite | OpResize
| OpTruncate | OpSyncJournal | OpSyncCheckpoint | OpSyncDirectory | OpMetadata.
Definition is_mutating (operation : StoreIoOperation) : bool :=
  match operation with
  | OpCreateArtifact | OpWrite | OpResize | OpTruncate | OpSyncJournal | OpSyncCheckpoint | OpSyncDirectory => true
  | _ => false
  end.
Record StoreIoEvidence := mkEvidence {
  ev_operation : StoreIoOperation; ev_kind : ErrorKind; ev_raw_os_error : option Z }.
Inductive ActiveJournalError :=
| InvalidOptions | AlreadyExists | AlreadyOpen | MissingArtifact | InvalidLayout | StoreMismatch | RotationRequired
| FrameTooLarge | SequenceMismatch | Faulted | ReopenRequired
| JournalError (error : JournalV1Error) | Io (evidence : StoreIoEvidence) | StoragePressure (evidence : StoreIoEvidence).

Inductive StoreWriteState : Set := Writable | StateReopenRequired | StateFaulted.
#[export] Instance StoreWriteState_eq_dec : EqDecision StoreWriteState.
Proof. solve_decision. Defined.
Definition is_storage_pressure (kind : ErrorKind) : bool :=
  match kind with StorageFull | QuotaExceeded => true | _ => false end.

Definition classify_io (operation : StoreIoOperation) (error : IoError) : ActiveJournalError :=
  let evidence := mkEvidence operation (io_kind error) (io_raw_os_error error) in
  if is_mutating operation && is_storage_pressure (io_kind error) then StoragePressure evidence else Io evidence.
(** [.map_err(|error| io_error(operation, error))?]. *)
Abbreviation Op := (M disk ActiveJournalError).
Definition io {A} (operation : StoreIoOperation) (m : M disk IoError A) : Op A :=
  map_err_m (classify_io operation) m.

(** ** Limits *)

Record ActiveJournalLimits := mkActiveLimits { payload_limit : Z; active_bytes_limit : Z; record_limit : Z }.
#[export] Instance ActiveJournalLimits_eq_dec : EqDecision ActiveJournalLimits.
Proof. solve_decision. Defined.
Definition active_limits_new (max_payload_len max_active_bytes max_active_records : Z)
  : result ActiveJournalError ActiveJournalLimits :=
  if decide (max_payload_len > MAX_ADMISSION_PAYLOAD_V1 ∨ max_active_bytes < JOURNAL_V1_HEADER_LEN ∨
             max_active_bytes > MAX_ACTIVE_JOURNAL_BYTES ∨ max_active_records > MAX_ACTIVE_JOURNAL_RECORDS)
  then Err InvalidOptions
  else Ok (mkActiveLimits max_payload_len max_active_bytes max_active_records).
#[export] Instance wf_active_limits : Wf ActiveJournalLimits := λ l,
  in_range 0 usize_max (payload_limit l) && in_range 0 usize_max (record_limit l) &&
  is_ok (active_limits_new (payload_limit l) (active_bytes_limit l) (record_limit l)).
(** [DecodeLimitsV1::new(limits.payload_limit)]. *)
Definition decode_limits (l : ActiveJournalLimits) : result ActiveJournalError DecodeLimitsV1 :=
  map_err JournalError (decode_limits_new (payload_limit l)).

Inductive ActiveJournalOpenMode : Set := CreateNew | OpenExisting.
#[export] Instance ActiveJournalOpenMode_eq_dec : EqDecision ActiveJournalOpenMode.
Proof. solve_decision. Defined.
Inductive RecoveryPolicy : Set := Converge | ManifestGenesis | Strict.
#[export] Instance RecoveryPolicy_eq_dec : EqDecision RecoveryPolicy.
Proof. solve_decision. Defined.
Record ActiveJournalConfig := mkActiveConfig {
  ac_directory : list byte;
  ac_store_id : StoreId;
  ac_mode : ActiveJournalOpenMode;
  ac_limits : ActiveJournalLimits;
  ac_recovery_policy : RecoveryPolicy;
  ac_generation : Z;
  ac_sequence_floor : Z }.
Definition config_new (directory : list byte) (store_id : StoreId) (mode : ActiveJournalOpenMode)
    (limits : ActiveJournalLimits) : result ActiveJournalError ActiveJournalConfig :=
  if decide (len directory = 0 ∨ len directory > MAX_STORE_DIRECTORY_BYTES) then Err InvalidOptions
  else Ok (mkActiveConfig directory store_id mode limits Converge ACTIVE_JOURNAL_GENERATION 0).
Definition with_policy (policy : RecoveryPolicy) (c : ActiveJournalConfig) : ActiveJournalConfig :=
  mkActiveConfig (ac_directory c) (ac_store_id c) (ac_mode c) (ac_limits c) policy (ac_generation c) (ac_sequence_floor c).
Definition manifest_create : ActiveJournalConfig → ActiveJournalConfig := with_policy Strict.
Definition manifest_genesis : ActiveJournalConfig → ActiveJournalConfig := with_policy ManifestGenesis.
Definition manifest_existing : ActiveJournalConfig → ActiveJournalConfig := with_policy Strict.
Definition manifest_generation (generation sequence_floor : Z) (c : ActiveJournalConfig)
  : result ActiveJournalError ActiveJournalConfig :=
  if decide (generation = 0 ∨ (generation = ACTIVE_JOURNAL_GENERATION ∧ sequence_floor ≠ 0)) then Err InvalidOptions
  else Ok (mkActiveConfig (ac_directory c) (ac_store_id c) (ac_mode c) (ac_limits c) (ac_recovery_policy c)
             generation sequence_floor).

(** ** State *)

Record CheckpointState := mkCheckpoint { ck_slot_generation : Z; ck_append_sequence : Z; ck_end_offset : Z }.
#[export] Instance CheckpointState_eq_dec : EqDecision CheckpointState.
Proof. solve_decision. Defined.
Record RecoveredAdmissionV1 := mkRecovered { rec_end_offset : Z; rec_admission : DecodedAdmissionV1 }.
#[export] Instance RecoveredAdmissionV1_eq_dec : EqDecision RecoveredAdmissionV1.
Proof. solve_decision. Defined.
Record ActiveJournal := mkActive {
  aj_identity : JournalIdentity;
  aj_limits : ActiveJournalLimits;
  aj_checkpoint_state : CheckpointState;
  aj_active_bytes : Z;
  aj_records : list RecoveredAdmissionV1;
  aj_sync_count : Z;
  aj_write_state : StoreWriteState }.
Record ActiveRecoveryPlan := mkPlan {
  plan_identity : JournalIdentity;
  plan_cutoff : DurableCutoff;
  plan_original_length : Z;
  plan_classification : RecoveryClassification }.
Inductive ManifestRootOpenError := RootMismatch | RootActive (error : ActiveJournalError).
Definition into_active (e : ManifestRootOpenError) : ActiveJournalError :=
  match e with RootMismatch => InvalidLayout | RootActive error => error end.

(** The files of a handle. *)
Definition journal_name (identity : JournalIdentity) : list byte := active_journal_file_name (journal_generation identity).
Definition checkpoint_name (identity : JournalIdentity) : list byte :=
  active_checkpoint_file_name (journal_generation identity).
Definition sequence_of (r : RecoveredAdmissionV1) : Z := dec_append_sequence (rec_admission r).

(** ** Checkpoint slots *)

Definition genesis_checkpoint_state (sequence_floor : Z) : CheckpointState :=
  mkCheckpoint 1 sequence_floor JOURNAL_V1_HEADER_LEN.
Definition durable_cutoff_from_state (identity : JournalIdentity) (state : CheckpointState) : DurableCutoff :=
  mkCutoff identity (ck_slot_generation state) (ck_append_sequence state) (ck_end_offset state).

Definition encode_checkpoint (identity : JournalIdentity) (state : CheckpointState) : list byte :=
  let bytes := zeros (Z.to_nat CHECKPOINT_SLOT_LEN) in
  let bytes := copy_at 0 CHECKPOINT_MAGIC bytes in
  let bytes := copy_at 8 (be_bytes 2 CHECKPOINT_VERSION) bytes in
  let bytes := copy_at 10 (be_bytes 2 64) bytes in
  let bytes := copy_at 12 (into_bytes (journal_store_id identity)) bytes in
  let bytes := copy_at 28 (be_bytes 8 (journal_generation identity)) bytes in
  let bytes := copy_at 36 (be_bytes 8 (ck_slot_generation state)) bytes in
  let bytes := copy_at 44 (be_bytes 8 (ck_append_sequence state)) bytes in
  let bytes := copy_at 52 (be_bytes 8 (ck_end_offset state)) bytes in
  copy_at 60 (be_bytes 4 (crc32c (slice 0 60 bytes))) bytes.

Record PreparedCheckpointSlot := mkPreparedSlot { pc_bytes : list byte; pc_offset : Z }.
Definition prepare_checkpoint_slot (identity : JournalIdentity) (state : CheckpointState) : PreparedCheckpointSlot :=
  mkPreparedSlot (encode_checkpoint identity state) ((ck_slot_generation state - 1) `mod` 2 * CHECKPOINT_SLOT_LEN).

Inductive SlotDecode := SlotZero | SlotValid (state : CheckpointState) | InvalidNonzero.
Definition decode_checkpoint_slot (bytes : list byte) (slot_index : Z) (identity : JournalIdentity)
    (sequence_floor journal_len : Z) : SlotDecode :=
  if all_zero bytes then SlotZero
  else if decide (len bytes ≠ CHECKPOINT_SLOT_LEN ∨ slice 0 8 bytes ≠ CHECKPOINT_MAGIC ∨
                  u16_at 8 bytes ≠ CHECKPOINT_VERSION ∨ u16_at 10 bytes ≠ CHECKPOINT_SLOT_LEN ∨
                  crc32c (slice 0 60 bytes) ≠ u32_at 60 bytes)
  then InvalidNonzero
  else
    let store_id : result _ StoreId := from_bytes (slice 12 28 bytes) in
    let generation := u64_at 28 bytes in
    let slot_generation := u64_at 36 bytes in
    let append_sequence := u64_at 44 bytes in
    let end_offset := u64_at 52 bytes in
    if decide (store_id ≠ Ok (journal_store_id identity) ∨ generation ≠ journal_generation identity ∨
               slot_generation = 0 ∨ (slot_generation - 1) `mod` 2 ≠ slot_index ∨
               end_offset < JOURNAL_V1_HEADER_LEN ∨ end_offset > journal_len ∨
               bool_decide (append_sequence = sequence_floor) ≠ bool_decide (end_offset = JOURNAL_V1_HEADER_LEN))
    then InvalidNonzero
    else SlotValid (mkCheckpoint slot_generation append_sequence end_offset).

(** The pairing of the two decoded slots. *)
Definition select_checkpoint (first second : SlotDecode) : result ActiveJournalError (option CheckpointState) :=
  match first, second with
  | SlotZero, SlotZero => Ok None
  | InvalidNonzero, _ | _, InvalidNonzero => Err InvalidLayout
  | SlotValid state, SlotZero | SlotZero, SlotValid state =>
    if decide (ck_slot_generation state = 1) then Ok (Some state) else Err InvalidLayout
  | SlotValid first, SlotValid second =>
    let '(older, newer) :=
      if decide (ck_slot_generation first < ck_slot_generation second) then (first, second) else (second, first) in
    if decide (ck_slot_generation newer ≠ ck_slot_generation older + 1 ∨
               ck_append_sequence newer ≤ ck_append_sequence older ∨ ck_end_offset newer ≤ ck_end_offset older)
    then Err InvalidLayout
    else Ok (Some newer)
  end.
Definition decode_checkpoint (bytes : list byte) (identity : JournalIdentity) (sequence_floor journal_len : Z)
  : result ActiveJournalError (option CheckpointState) :=
  select_checkpoint
    (decode_checkpoint_slot (slice 0 CHECKPOINT_SLOT_LEN bytes) 0 identity sequence_floor journal_len)
    (decode_checkpoint_slot (slice CHECKPOINT_SLOT_LEN CHECKPOINT_FILE_LEN bytes) 1 identity sequence_floor journal_len).

Definition read_checkpoint (identity : JournalIdentity) (sequence_floor journal_len : Z) : Op (option CheckpointState) :=
  bytes ← io OpRead (read_exact (checkpoint_name identity) 0 CHECKPOINT_FILE_LEN);
  lift (decode_checkpoint bytes identity sequence_floor journal_len).

Definition write_prepared_checkpoint_slot (identity : JournalIdentity) (prepared : PreparedCheckpointSlot) : Op () :=
  _ ← io OpSeek seek;
  io OpWrite (write_all (checkpoint_name identity) (pc_offset prepared) (pc_bytes prepared)).
Definition initialize_prepared_checkpoint (identity : JournalIdentity) (prepared : PreparedCheckpointSlot) : Op () :=
  _ ← io OpResize (set_len (checkpoint_name identity) CHECKPOINT_FILE_LEN);
  _ ← write_prepared_checkpoint_slot identity prepared;
  _ ← io OpSyncCheckpoint (sync_all (checkpoint_name identity));
  io OpSyncDirectory sync_directory.
Definition initialize_checkpoint (identity : JournalIdentity) (sequence_floor : Z) : Op CheckpointState :=
  let state := genesis_checkpoint_state sequence_floor in
  _ ← initialize_prepared_checkpoint identity (prepare_checkpoint_slot identity state);
  mret state.

(** ** Artifacts *)

Definition open_directory : Op () :=
  _ ← io OpOpenDirectory seek;
  io OpOpenDirectory seek.
Definition create_artifact (name : list byte) : Op () :=
  map_err_m (λ error, if decide (io_kind error = KindAlreadyExists) then AlreadyExists
                      else classify_io OpCreateArtifact error) (create_new_file name).
Definition open_artifact (name : list byte) : Op () :=
  map_err_m (λ error, if decide (io_kind error = NotFound) then MissingArtifact
                      else classify_io OpOpenArtifact error) (open_existing_file name).
Definition lock_journal : Op () :=
  map_err_m (λ error, match error with
                      | None => AlreadyOpen
                      | Some error => classify_io OpLockJournal error
                      end) try_lock.

(** ** Scanning *)

Record ScanResult := mkScan {
  scan_records : list RecoveredAdmissionV1;
  scan_valid_end : Z;
  scan_truncate_to : option Z;
  scan_recovery_plan : option ActiveRecoveryPlan }.

(** [if sequence_floor == 0 { None } else { Some(AppendSequenceV1::new(..)?) }]. *)
Definition floor_sequence (sequence_floor : Z) : result ActiveJournalError (option AppendSequenceV1) :=
  if decide (sequence_floor = 0) then Ok None
  else let! s := map_err JournalError (sequence_new sequence_floor) in Ok (Some s).

Definition foreign_scope (identity : JournalIdentity) (decoded : DecodedAdmissionV1) : Prop :=
  dec_store_id decoded ≠ journal_store_id identity ∨
  dd_store_id (dec_declaration decoded) ≠ journal_store_id identity.
#[export] Instance foreign_scope_dec identity decoded : Decision (foreign_scope identity decoded).
Proof. unfold foreign_scope. apply _. Defined.

(** The loop of [scan_journal]. The records that are still allowed, [room], bound
    its iterations: the code refuses before it reads another one. *)
Fixpoint scan_loop (identity : JournalIdentity) (limits : ActiveJournalLimits) (checkpoint : CheckpointState)
    (journal_len : Z) (room : nat) (offset : Z) (previous : option AppendSequenceV1)
    (records : list RecoveredAdmissionV1) : Op (list RecoveredAdmissionV1 * Z * option Z) :=
  if decide (offset < journal_len) then
    match room with
    | O => fail InvalidLayout
    | S room =>
      _ ← io OpSeek seek;
      let remaining := journal_len - offset in
      if decide (remaining < JOURNAL_V1_FRAME_PREFIX_LEN) then
        _ ← refuse_if (offset < ck_end_offset checkpoint) InvalidLayout;
        mret (records, offset, Some offset)
      else
        prefix ← io OpRead (read_exact (journal_name identity) offset JOURNAL_V1_FRAME_PREFIX_LEN);
        decode ← lift (decode_limits limits);
        match frame_len_from_prefix_v1 prefix decode with
        | Err _ =>
          if decide (offset >= ck_end_offset checkpoint ∧ remaining = JOURNAL_V1_FRAME_PREFIX_LEN)
          then mret (records, offset, Some offset)
          else fail InvalidLayout
        | Ok frame_len =>
          end_ ← lift (ok_or (checked_add u64_max offset frame_len) InvalidLayout);
          if decide (end_ > journal_len) then
            _ ← refuse_if (offset < ck_end_offset checkpoint) InvalidLayout;
            mret (records, offset, Some offset)
          else
            _ ← refuse_if (offset < ck_end_offset checkpoint ∧ end_ > ck_end_offset checkpoint) InvalidLayout;
            rest ← io OpRead (read_exact (journal_name identity) (offset + JOURNAL_V1_FRAME_PREFIX_LEN)
                                (frame_len - JOURNAL_V1_FRAME_PREFIX_LEN));
            match decode_admission_frame_v1 (prefix ++ rest) decode previous with
            | Err _ =>
              if decide (offset >= ck_end_offset checkpoint ∧ end_ = journal_len)
              then mret (records, offset, Some offset)
              else fail InvalidLayout
            | Ok decoded =>
              _ ← refuse_if (foreign_scope identity decoded) StoreMismatch;
              previous ← lift (map_err JournalError (sequence_new (dec_append_sequence decoded)));
              scan_loop identity limits checkpoint journal_len room end_ (Some previous)
                (records ++ [mkRecovered end_ decoded])
            end
        end
    end
  else mret (records, offset, None).

(** [records.iter().find(|record| record.end_offset == offset)]. *)
Fixpoint record_ending (offset : Z) (records : list RecoveredAdmissionV1) : option RecoveredAdmissionV1 :=
  match records with
  | [] => None
  | r :: records => if decide (rec_end_offset r = offset) then Some r else record_ending offset records
  end.
Definition sequence_or (sequence_floor : Z) (r : option RecoveredAdmissionV1) : Z := from_option sequence_of sequence_floor r.

Definition scan_journal (identity : JournalIdentity) (limits : ActiveJournalLimits) (checkpoint : CheckpointState)
    (sequence_floor journal_len : Z) : Op ScanResult :=
  previous ← lift (floor_sequence sequence_floor);
  '(records, offset, truncate_to) ← scan_loop identity limits checkpoint journal_len (Z.to_nat (record_limit limits))
    JOURNAL_V1_HEADER_LEN previous [];
  _ ← refuse_if (ck_end_offset checkpoint > offset ∨
                 (ck_end_offset checkpoint = JOURNAL_V1_HEADER_LEN ∧ ck_append_sequence checkpoint ≠ sequence_floor))
        InvalidLayout;
  _ ← refuse_if (ck_append_sequence checkpoint ≠
                 sequence_or sequence_floor (record_ending (ck_end_offset checkpoint) records)) InvalidLayout;
  mret (mkScan records offset truncate_to None).

(** The loop of [scan_manifest_root], up to the committed end. *)
Fixpoint root_loop (identity : JournalIdentity) (limits : ActiveJournalLimits) (root_end : Z) (room : nat) (offset : Z)
    (previous : option AppendSequenceV1) (records : list RecoveredAdmissionV1)
  : Op (list RecoveredAdmissionV1 * Z * option AppendSequenceV1) :=
  if decide (offset < root_end) then
    match room with
    | O => fail InvalidLayout
    | S room =>
      _ ← refuse_if (root_end - offset < JOURNAL_V1_FRAME_PREFIX_LEN) InvalidLayout;
      _ ← io OpSeek seek;
      prefix ← io OpRead (read_exact (journal_name identity) offset JOURNAL_V1_FRAME_PREFIX_LEN);
      decode ← lift (decode_limits limits);
      frame_len ← lift (map_err (λ _, InvalidLayout) (frame_len_from_prefix_v1 prefix decode));
      end_ ← lift (ok_or (checked_add u64_max offset frame_len) InvalidLayout);
      _ ← refuse_if (end_ > root_end) InvalidLayout;
      rest ← io OpRead (read_exact (journal_name identity) (offset + JOURNAL_V1_FRAME_PREFIX_LEN)
                          (frame_len - JOURNAL_V1_FRAME_PREFIX_LEN));
      decoded ← lift (map_err (λ _, InvalidLayout) (decode_admission_frame_v1 (prefix ++ rest) decode previous));
      _ ← refuse_if (foreign_scope identity decoded) StoreMismatch;
      previous ← lift (map_err JournalError (sequence_new (dec_append_sequence decoded)));
      root_loop identity limits root_end room end_ (Some previous) (records ++ [mkRecovered end_ decoded])
    end
  else mret (records, offset, previous).

(** The fixed bytes of the next frame, as far as a short suffix has them. *)
Definition required_prefix (expected_sequence : Z) : list byte :=
  JOURNAL_V1_FRAME_MAGIC ++ be_bytes 2 JOURNAL_V1_VERSION ++ be_bytes 1 1 ++ zeros 1 ++ be_bytes 8 expected_sequence.

(** The classification of the bytes beyond the committed end. *)
Definition classify_suffix (identity : JournalIdentity) (limits : ActiveJournalLimits) (journal_len root_end : Z)
    (expected_sequence : Z) (previous : option AppendSequenceV1) : Op RecoveryClassification :=
  let suffix_length := journal_len - root_end in
  if decide (suffix_length < JOURNAL_V1_FRAME_PREFIX_LEN) then
    _ ← io OpSeek seek;
    suffix ← io OpRead (read_exact (journal_name identity) root_end suffix_length);
    let required_len := Z.min suffix_length (len (required_prefix expected_sequence)) in
    _ ← refuse_if (slice 0 required_len suffix ≠ slice 0 required_len (required_prefix expected_sequence)) InvalidLayout;
    mret ShortFramePrefix
  else
    _ ← io OpSeek seek;
    prefix ← io OpRead (read_exact (journal_name identity) root_end JOURNAL_V1_FRAME_PREFIX_LEN);
    _ ← refuse_if (from_be (slice 8 16 prefix) ≠ expected_sequence) SequenceMismatch;
    decode ← lift (decode_limits limits);
    match frame_len_from_prefix_v1 prefix decode with
    | Err _ =>
      if decide (suffix_length = JOURNAL_V1_FRAME_PREFIX_LEN) then mret InvalidFramePrefix else fail InvalidLayout
    | Ok frame_len =>
      end_ ← lift (ok_or (checked_add u64_max root_end frame_len) InvalidLayout);
      if decide (end_ > journal_len) then mret TruncatedDeclaredFrame
      else if decide (end_ < journal_len) then fail InvalidLayout
      else
        rest ← io OpRead (read_exact (journal_name identity) (root_end + JOURNAL_V1_FRAME_PREFIX_LEN)
                            (frame_len - JOURNAL_V1_FRAME_PREFIX_LEN));
        match decode_admission_frame_v1 (prefix ++ rest) decode previous with
        | Ok decoded => _ ← refuse_if (foreign_scope identity decoded) StoreMismatch; fail InvalidLayout
        | Err _ => mret InvalidCompleteFrame
        end
    end.

Definition scan_manifest_root (identity : JournalIdentity) (limits : ActiveJournalLimits) (checkpoint : CheckpointState)
    (sequence_floor journal_len : Z) (root : DurableCutoff) : Op ScanResult :=
  previous ← lift (floor_sequence sequence_floor);
  '(records, offset, previous) ← root_loop identity limits (cut_end_offset root) (Z.to_nat (record_limit limits))
    JOURNAL_V1_HEADER_LEN previous [];
  let prefix_sequence := sequence_or sequence_floor (last records) in
  _ ← refuse_if (offset ≠ cut_end_offset root ∨ ck_append_sequence checkpoint ≠ prefix_sequence ∨
                 cut_append_sequence root ≠ prefix_sequence ∨
                 cut_checkpoint_generation root ≠ ck_slot_generation checkpoint ∨ journal_len < cut_end_offset root)
        InvalidLayout;
  if decide (journal_len = cut_end_offset root) then mret (mkScan records offset None None)
  else
    expected_sequence ← lift (ok_or (checked_add u64_max prefix_sequence 1) InvalidLayout);
    classification ← classify_suffix identity limits journal_len (cut_end_offset root) expected_sequence previous;
    mret (mkScan records offset None (Some (mkPlan identity root journal_len classification))).

(** ** Opening *)

Abbreviation RootOp := (M disk ManifestRootOpenError).
(** [?] with [From<ActiveJournalError> for ManifestRootOpenError]. *)
Definition active {A} (m : Op A) : RootOp A := map_err_m RootActive m.

Definition create_new (identity : JournalIdentity) (sequence_floor : Z) (limits : ActiveJournalLimits) : Op ActiveJournal :=
  let checkpoint_state := genesis_checkpoint_state sequence_floor in
  let checkpoint_slot := prepare_checkpoint_slot identity checkpoint_state in
  let header_bytes := header_encode (mkHeader (journal_store_id identity)) in
  _ ← create_artifact (journal_name identity);
  _ ← lock_journal;
  _ ← io OpWrite (write_all (journal_name identity) 0 header_bytes);
  _ ← io OpSyncJournal (sync_all (journal_name identity));
  _ ← create_artifact (checkpoint_name identity);
  _ ← initialize_prepared_checkpoint identity checkpoint_slot;
  mret (mkActive identity limits checkpoint_state JOURNAL_V1_HEADER_LEN [] 0 Writable).

(** The checkpoint file, which may have to be created or initialized; with the
    state it was initialized to. *)
Definition open_checkpoint (identity : JournalIdentity) (sequence_floor : Z) (policy : RecoveryPolicy) (journal_len : Z)
  : Op (option CheckpointState) :=
  opened ← attempt (open_artifact (checkpoint_name identity));
  initialized ← match opened with
                | Ok _ => mret None
                | Err MissingArtifact =>
                  if decide (policy ≠ Strict ∧ journal_len = JOURNAL_V1_HEADER_LEN) then
                    _ ← create_artifact (checkpoint_name identity);
                    state ← initialize_checkpoint identity sequence_floor;
                    mret (Some state)
                  else fail MissingArtifact
                | Err error => fail error
                end;
  checkpoint_len ← io OpMetadata (file_len (checkpoint_name identity));
  if decide (checkpoint_len = 0 ∧ policy ≠ Strict ∧ journal_len = JOURNAL_V1_HEADER_LEN) then
    match initialized with
    | None => state ← initialize_checkpoint identity sequence_floor; mret (Some state)
    | Some _ => mret initialized
    end
  else
    _ ← refuse_if (checkpoint_len ≠ CHECKPOINT_FILE_LEN) InvalidLayout;
    mret initialized.

Definition open_existing (identity : JournalIdentity) (sequence_floor : Z) (limits : ActiveJournalLimits)
    (policy : RecoveryPolicy) (expected_root : option DurableCutoff) : RootOp (ActiveJournal * option ActiveRecoveryPlan) :=
  _ ← active (open_artifact (journal_name identity));
  _ ← active lock_journal;
  journal_len ← active (io OpMetadata (file_len (journal_name identity)));
  _ ← refuse_if (journal_len < JOURNAL_V1_HEADER_LEN ∨ journal_len > active_bytes_limit limits) (RootActive InvalidLayout);
  _ ← refuse_if (policy = ManifestGenesis ∧ journal_len ≠ JOURNAL_V1_HEADER_LEN) (RootActive InvalidLayout);
  header_bytes ← active (io OpRead (read_exact (journal_name identity) 0 JOURNAL_V1_HEADER_LEN));
  header ← lift (map_err (λ e, RootActive (JournalError e)) (header_decode header_bytes));
  _ ← refuse_if (header_store_id header ≠ journal_store_id identity) (RootActive StoreMismatch);
  initialized ← active (open_checkpoint identity sequence_floor policy journal_len);
  read ← match initialized with
         | Some state => mret (Some state)
         | None => active (read_checkpoint identity sequence_floor journal_len)
         end;
  _ ← refuse_if (policy = ManifestGenesis ∧ read ≠ Some (genesis_checkpoint_state sequence_floor)) (RootActive InvalidLayout);
  _ ← refuse_if (read = None ∧ (is_Some expected_root ∨ journal_len ≠ JOURNAL_V1_HEADER_LEN)) (RootActive InvalidLayout);
  checkpoint_state ← match read with
                     | Some state => mret state
                     | None => active (initialize_checkpoint identity sequence_floor)
                     end;
  _ ← refuse_if (is_some_and (λ root, bool_decide (root ≠ durable_cutoff_from_state identity checkpoint_state))
                   expected_root) RootMismatch;
  scan ← active (match expected_root with
                 | Some root => scan_manifest_root identity limits checkpoint_state sequence_floor journal_len root
                 | None => scan_journal identity limits checkpoint_state sequence_floor journal_len
                 end);
  _ ← refuse_if (policy = Strict ∧ (is_Some (scan_truncate_to scan) ∨ scan_valid_end scan ≠ ck_end_offset checkpoint_state))
        (RootActive InvalidLayout);
  let active_bytes := scan_valid_end scan in
  let last_sequence := sequence_or sequence_floor (last (scan_records scan)) in
  adoption ← (if decide (expected_root = None ∧ active_bytes > ck_end_offset checkpoint_state) then
                generation ← lift (ok_or (checked_add u64_max (ck_slot_generation checkpoint_state) 1) (RootActive InvalidLayout));
                mret (Some (mkCheckpoint generation last_sequence active_bytes))
              else mret None);
  _ ← match expected_root, scan_truncate_to scan with
      | None, Some truncate_to =>
        _ ← active (io OpTruncate (set_len (journal_name identity) truncate_to));
        active (io OpSyncJournal (sync_all (journal_name identity)))
      | _, _ => mret tt
      end;
  checkpoint_state ←
    match expected_root, adoption with
    | Some _, _ => mret checkpoint_state
    | None, Some next =>
      _ ← active (io OpSyncJournal (sync_all (journal_name identity)));
      _ ← active (write_prepared_checkpoint_slot identity (prepare_checkpoint_slot identity next));
      _ ← active (io OpSyncCheckpoint (sync_all (checkpoint_name identity)));
      mret next
    | None, None => _ ← active (io OpSyncCheckpoint (sync_all (checkpoint_name identity))); mret checkpoint_state
    end;
  mret (mkActive identity limits checkpoint_state active_bytes (scan_records scan) 0 Writable, scan_recovery_plan scan).

Definition config_identity (c : ActiveJournalConfig) : JournalIdentity := mkJournalIdentity (ac_store_id c) (ac_generation c).
(** [ActiveJournal::open]. *)
Definition open (c : ActiveJournalConfig) : Op ActiveJournal :=
  _ ← open_directory;
  match ac_mode c with
  | CreateNew => create_new (config_identity c) (ac_sequence_floor c) (ac_limits c)
  | OpenExisting =>
    '(journal, _) ← map_err_m into_active
      (open_existing (config_identity c) (ac_sequence_floor c) (ac_limits c) (ac_recovery_policy c) None);
    mret journal
  end.
Definition open_manifest_root (c : ActiveJournalConfig) (root : DurableCutoff)
  : RootOp (ActiveJournal * option ActiveRecoveryPlan) :=
  _ ← refuse_if (ac_mode c ≠ OpenExisting ∨ ac_recovery_policy c ≠ Strict ∨
                 journal_store_id (cut_journal root) ≠ ac_store_id c ∨
                 journal_generation (cut_journal root) ≠ ac_generation c) (RootActive InvalidOptions);
  _ ← active open_directory;
  open_existing (config_identity c) (ac_sequence_floor c) (ac_limits c) (ac_recovery_policy c) (Some root).

(** Opening read-only to prove an exact genesis, before the manifest exists. *)
Definition preflight_manifest_genesis (store_id : StoreId) : Op () :=
  let identity := mkJournalIdentity store_id ACTIVE_JOURNAL_GENERATION in
  _ ← open_artifact ACTIVE_JOURNAL_FILE_NAME;
  journal_len ← io OpMetadata (file_len ACTIVE_JOURNAL_FILE_NAME);
  _ ← refuse_if (journal_len ≠ JOURNAL_V1_HEADER_LEN) InvalidLayout;
  header_bytes ← io OpRead (read_exact ACTIVE_JOURNAL_FILE_NAME 0 JOURNAL_V1_HEADER_LEN);
  header ← lift (map_err JournalError (header_decode header_bytes));
  _ ← refuse_if (header_store_id header ≠ store_id) StoreMismatch;
  opened ← attempt (open_artifact ACTIVE_CHECKPOINT_FILE_NAME);
  match opened with
  | Err MissingArtifact => mret tt
  | Err error => fail error
  | Ok _ =>
    checkpoint_len ← io OpMetadata (file_len ACTIVE_CHECKPOINT_FILE_NAME);
    if decide (checkpoint_len = 0) then mret tt
    else
      _ ← refuse_if (checkpoint_len ≠ CHECKPOINT_FILE_LEN) InvalidLayout;
      bytes ← io OpRead (read_exact ACTIVE_CHECKPOINT_FILE_NAME 0 CHECKPOINT_FILE_LEN);
      refuse_if (slice 0 CHECKPOINT_SLOT_LEN bytes ≠ encode_checkpoint identity (genesis_checkpoint_state 0) ∨
                 ¬ all_zero (slice CHECKPOINT_SLOT_LEN CHECKPOINT_FILE_LEN bytes)) InvalidLayout
  end.

(** ** Operations of an open journal *)

Abbreviation Method := (M (ActiveJournal * disk) ActiveJournalError).
Definition self : Method ActiveJournal := λ s, (Ok s.1, s).
Definition set_self (aj : ActiveJournal) : Method () := λ s, (Ok tt, (aj, s.2)).
Definition effect {A} (m : Op A) : Method A := λ s, let '(r, d) := m s.2 in (r, (s.1, d)).

Definition with_write_state (w : StoreWriteState) (aj : ActiveJournal) : ActiveJournal :=
  mkActive (aj_identity aj) (aj_limits aj) (aj_checkpoint_state aj) (aj_active_bytes aj) (aj_records aj)
    (aj_sync_count aj) w.
Definition record_mutation_error (error : ActiveJournalError) (aj : ActiveJournal) : ActiveJournal :=
  with_write_state (match error with StoragePressure _ => StateReopenRequired | _ => StateFaulted end) aj.
(** A mutation whose failure is recorded. *)
Definition mutation {A} (m : Op A) : Method A := λ s,
  match m s.2 with
  | (Ok a, d) => (Ok a, (s.1, d))
  | (Err error, d) => (Err error, (record_mutation_error error s.1, d))
  end.

Definition ensure_usable (aj : ActiveJournal) : result ActiveJournalError () :=
  match aj_write_state aj with
  | Writable => Ok tt
  | StateReopenRequired => Err ReopenRequired
  | StateFaulted => Err Faulted
  end.
Definition last_append_sequence (aj : ActiveJournal) : Z :=
  sequence_or (ck_append_sequence (aj_checkpoint_state aj)) (last (aj_records aj)).
Definition next_append_sequence (aj : ActiveJournal) : result ActiveJournalError AppendSequenceV1 :=
  let! _ := ensure_usable aj in
  let! next := ok_or (checked_add u64_max (last_append_sequence aj) 1) SequenceMismatch in
  map_err JournalError (sequence_new next).
Definition durable_cutoff (aj : ActiveJournal) : DurableCutoff :=
  durable_cutoff_from_state (aj_identity aj) (aj_checkpoint_state aj).
Definition pending_checkpoint_state (last_sequence : Z) (aj : ActiveJournal) : result ActiveJournalError CheckpointState :=
  let! generation := ok_or (checked_add u64_max (ck_slot_generation (aj_checkpoint_state aj)) 1) InvalidLayout in
  Ok (mkCheckpoint generation last_sequence (aj_active_bytes aj)).
(** Nothing was appended since the last barrier. *)
Definition synchronized (aj : ActiveJournal) : Prop :=
  last_append_sequence aj = ck_append_sequence (aj_checkpoint_state aj) ∧
  aj_active_bytes aj = ck_end_offset (aj_checkpoint_state aj).
#[export] Instance synchronized_dec aj : Decision (synchronized aj).
Proof. unfold synchronized. apply _. Defined.

Definition pushed (end_offset : Z) (decoded : DecodedAdmissionV1) (aj : ActiveJournal) : ActiveJournal :=
  mkActive (aj_identity aj) (aj_limits aj) (aj_checkpoint_state aj) end_offset
    (aj_records aj ++ [mkRecovered end_offset decoded]) (aj_sync_count aj) (aj_write_state aj).
Definition append (frame : PreparedFrameV1) : Method Z :=
  aj ← self;
  next ← lift (next_append_sequence aj);
  _ ← refuse_if (frame_append_sequence frame ≠ next) SequenceMismatch;
  previous ← lift (match last (aj_records aj) with
                   | Some record => let! s := map_err JournalError (sequence_new (sequence_of record)) in Ok (Some s)
                   | None => Ok None
                   end);
  decode ← lift (decode_limits (aj_limits aj));
  decoded ← lift (map_err JournalError (decode_admission_frame_v1 (frame_content frame) decode previous));
  _ ← refuse_if (foreign_scope (aj_identity aj) decoded ∨
                 adm_store_id (frame_admission frame) ≠ journal_store_id (aj_identity aj) ∨
                 decl_store_id (adm_declaration (frame_admission frame)) ≠ journal_store_id (aj_identity aj))
        StoreMismatch;
  end_offset ← lift (ok_or (checked_add u64_max (aj_active_bytes aj) (len (frame_content frame))) RotationRequired);
  _ ← refuse_if (end_offset > active_bytes_limit (aj_limits aj) ∨ len (aj_records aj) >= record_limit (aj_limits aj))
        RotationRequired;
  _ ← effect (io OpSeek seek);
  _ ← mutation (io OpWrite (write_end (journal_name (aj_identity aj)) (frame_content frame)));
  _ ← set_self (pushed end_offset decoded aj);
  mret end_offset.

Definition can_fit (frame_len : Z) (aj : ActiveJournal) : bool :=
  bool_decide (len (aj_records aj) < record_limit (aj_limits aj)) &&
  is_some_and (λ end_, bool_decide (end_ ≤ active_bytes_limit (aj_limits aj)))
    (checked_add u64_max (aj_active_bytes aj) frame_len).

Definition adopted (next : CheckpointState) (aj : ActiveJournal) : ActiveJournal :=
  mkActive (aj_identity aj) (aj_limits aj) next (aj_active_bytes aj) (aj_records aj)
    (saturating_add u64_max (aj_sync_count aj) 1) (aj_write_state aj).
Definition sync_pending : Method DurableCutoff :=
  aj ← self;
  _ ← lift (ensure_usable aj);
  if decide (synchronized aj) then mret (durable_cutoff aj)
  else
    next ← lift (pending_checkpoint_state (last_append_sequence aj) aj);
    _ ← mutation (io OpSyncJournal (sync_all (journal_name (aj_identity aj))));
    _ ← mutation (write_prepared_checkpoint_slot (aj_identity aj) (prepare_checkpoint_slot (aj_identity aj) next));
    _ ← mutation (io OpSyncCheckpoint (sync_all (checkpoint_name (aj_identity aj))));
    _ ← set_self (adopted next aj);
    mret (durable_cutoff_from_state (aj_identity aj) next).

Definition pending_durable_cutoff (aj : ActiveJournal) : result ActiveJournalError DurableCutoff :=
  let! _ := ensure_usable aj in
  if decide (synchronized aj) then Ok (durable_cutoff aj)
  else
    let! next := pending_checkpoint_state (last_append_sequence aj) aj in
    Ok (durable_cutoff_from_state (aj_identity aj) next).

Definition apply_recovery (plan : ActiveRecoveryPlan) : Method () :=
  aj ← self;
  _ ← lift (ensure_usable aj);
  actual_length ← effect (io OpMetadata (file_len (journal_name (aj_identity aj))));
  _ ← refuse_if (plan_identity plan ≠ aj_identity aj ∨ plan_cutoff plan ≠ durable_cutoff aj ∨
                 plan_original_length plan ≠ actual_length ∨ aj_active_bytes aj ≠ cut_end_offset (plan_cutoff plan) ∨
                 plan_original_length plan ≤ aj_active_bytes aj) InvalidLayout;
  _ ← mutation (io OpTruncate (set_len (journal_name (aj_identity aj)) (aj_active_bytes aj)));
  mutation (io OpSyncJournal (sync_all (journal_name (aj_identity aj)))).

Definition synchronize_recovery_cutoff (cutoff : DurableCutoff) : Method () :=
  aj ← self;
  _ ← lift (ensure_usable aj);
  actual_length ← effect (io OpMetadata (file_len (journal_name (aj_identity aj))));
  _ ← refuse_if (cutoff ≠ durable_cutoff aj ∨ aj_active_bytes aj ≠ cut_end_offset cutoff ∨
                 actual_length ≠ cut_end_offset cutoff) InvalidLayout;
  mutation (io OpSyncJournal (sync_all (journal_name (aj_identity aj)))).

Record ActiveJournalInspection := mkInspection {
  ins_journal : JournalIdentity;
  ins_active_bytes : Z;
  ins_active_records : Z;
  ins_last_append_sequence : Z;
  ins_durable_cutoff : DurableCutoff;
  ins_sync_count : Z;
  ins_write_state : StoreWriteState }.
Definition inspection (aj : ActiveJournal) : ActiveJournalInspection :=
  mkInspection (aj_identity aj) (aj_active_bytes aj) (len (aj_records aj)) (last_append_sequence aj)
    (durable_cutoff aj) (aj_sync_count aj) (aj_write_state aj).
