(* ===== verification/Slots.v ===== *)
(** * Checkpoint slots

    The 64-byte slots of the checkpoint file: their exact codec, and what the two
    slots of a file select while the alternate one is being replaced. *)

From S2P Require Import Prelude Bytes Identity Bounded Value Collection Series Registry Admission Wire Layout Crc.
From S2P Require Import Fields Journal Generation Commit Recovery Disk Active.

(** ** Layout *)

#[export] Instance wf_checkpoint : Wf CheckpointState := λ s,
  is_u64 (ck_slot_generation s) && is_u64 (ck_append_sequence s) && is_u64 (ck_end_offset s).

Definition slot_fields (i : JournalIdentity) (s : CheckpointState) : list (list byte) :=
  [CHECKPOINT_MAGIC; be_bytes 2 CHECKPOINT_VERSION; be_bytes 2 64; into_bytes (journal_store_id i);
   be_bytes 8 (journal_generation i); be_bytes 8 (ck_slot_generation s); be_bytes 8 (ck_append_sequence s);
   be_bytes 8 (ck_end_offset s)].
Definition slot_wire (i : JournalIdentity) (s : CheckpointState) : list byte :=
  concat (slot_fields i s) ++ be_bytes 4 (crc32c (concat (slot_fields i s))).

Lemma len_checkpoint_magic : len CHECKPOINT_MAGIC = 8.
Proof. done. Qed.
#[local] Hint Rewrite len_checkpoint_magic : len.

Section layout.
Context (i : JournalIdentity) (s : CheckpointState) (Hi : wf (journal_store_id i)).

Lemma len_slot_fields : len (concat (slot_fields i s)) = 60.
Proof. pose proof (len_into_bytes _ Hi) as H. unfold slot_fields. cbn [concat]. autorewrite with len. rewrite H. lia. Qed.
Lemma len_slot_wire : len (slot_wire i s) = 64.
Proof. unfold slot_wire. rewrite len_app, len_be_bytes, len_slot_fields. done. Qed.

Lemma encode_checkpoint_layout : encode_checkpoint i s = slot_wire i s.
Proof.
  pose proof (len_into_bytes _ Hi) as H. pose proof len_slot_fields as Hc.
  unfold encode_checkpoint, CHECKPOINT_SLOT_LEN. cbv zeta. rewrite <-(app_nil_l (zeros (Z.to_nat 64))).
  rewrite copy_at_next by (rewrite ?len_checkpoint_magic; done || lia). rewrite app_nil_l, len_checkpoint_magic.
  do 2 fill. rewrite copy_at_next by (autorewrite with len; lia). rewrite H.
  do 4 (rewrite copy_at_next by (autorewrite with len; rewrite ?H; lia); rewrite len_be_bytes).
  match goal with |- context [?c ++ zeros (Z.to_nat ?n)] => set (covered := c); replace n with 4 by lia end.
  assert (covered = concat (slot_fields i s)) as ->
    by (unfold covered, slot_fields; cbn [concat]; by rewrite app_nil_r, <-!app_assoc).
  rewrite slice_app_0, copy_at_next by (rewrite ?len_be_bytes; done || lia).
  by rewrite len_be_bytes, app_nil_r.
Qed.
Lemma len_encode_checkpoint : len (encode_checkpoint i s) = 64.
Proof. rewrite encode_checkpoint_layout. apply len_slot_wire. Qed.

Lemma slot_slice k f a b :
  slot_fields i s !! k = Some f → a = fields_len (take k (slot_fields i s)) → b = a + len f →
  slice a b (slot_wire i s) = f.
Proof.
  intros Hk Ha ->. unfold slot_wire. rewrite <-(app_nil_l (concat _ ++ _)), <-(Z.add_0_l a).
  by apply (slice_field_at _ k).
Qed.

Lemma slot_not_zero : all_zero (slot_wire i s) = false.
Proof.
  apply not_true_iff_false. intros Hz. apply Is_true_true, all_zero_spec in Hz.
  assert (slice 0 8 (slot_wire i s) = CHECKPOINT_MAGIC) as E by (by apply (slot_slice 0)). rewrite Hz in E.
  unfold slice, zeros in E. rewrite drop_replicate, take_replicate in E.
  pose proof len_slot_wire as Hl. unfold len in Hl. replace (length (slot_wire i s)) with 64%nat in E by lia.
  by vm_compute in E.
Qed.
End layout.

(** What a slot of a file says, against the scope it is read in. *)
Record slot_contract (slot_index : Z) (floor journal_len : Z) (s : CheckpointState) : Prop := {
  sc_generation : ck_slot_generation s ≠ 0;
  sc_index : (ck_slot_generation s - 1) `mod` 2 = slot_index;
  sc_end : JOURNAL_V1_HEADER_LEN ≤ ck_end_offset s ≤ journal_len;
  sc_genesis : ck_append_sequence s = floor ↔ ck_end_offset s = JOURNAL_V1_HEADER_LEN }.

Lemma decode_slot_wire i s index floor jl :
  wf i → wf s → slot_contract index floor jl s → decode_checkpoint_slot (slot_wire i s) index i floor jl = SlotValid s.
Proof.
  intros Hi Hs [H1 H2 H3 H4]. wf_fields Hi. wf_fields Hs. assert (wf (journal_store_id i)) as Hw by assumption.
  pose proof (len_into_bytes _ Hw) as Hid. pose proof (len_slot_fields i s Hw) as Hl.
  assert (∀ k f a b, slot_fields i s !! k = Some f → a = fields_len (take k (slot_fields i s)) → b = a + len f →
    slice a b (slot_wire i s) = f) as Hf by (intros; by eapply slot_slice).
  unfold slot_fields at 1 2, fields_len in Hf.
  unfold decode_checkpoint_slot, u16_at, u32_at, u64_at. rewrite slot_not_zero, len_slot_wire by done.
  rewrite (Hf 0%nat CHECKPOINT_MAGIC 0 8), (Hf 1%nat (be_bytes 2 CHECKPOINT_VERSION) 8 (8 + 2)),
    (Hf 2%nat (be_bytes 2 64) 10 (10 + 2)), (Hf 3%nat (into_bytes (journal_store_id i)) 12 28),
    (Hf 4%nat (be_bytes 8 (journal_generation i)) 28 (28 + 8)), (Hf 5%nat (be_bytes 8 (ck_slot_generation s)) 36 (36 + 8)),
    (Hf 6%nat (be_bytes 8 (ck_append_sequence s)) 44 (44 + 8)), (Hf 7%nat (be_bytes 8 (ck_end_offset s)) 52 (52 + 8))
    by (done || (cbn [take concat]; autorewrite with len; rewrite ?Hid; done)).
  replace (slice 0 60 (slot_wire i s)) with (concat (slot_fields i s)) by (symmetry; by apply slice_app_0).
  replace (slice 60 (60 + 4) (slot_wire i s)) with (be_bytes 4 (crc32c (concat (slot_fields i s))))
    by (symmetry; apply slice_app_end; [done|by rewrite len_be_bytes]).
  pose proof (crc32c_range (concat (slot_fields i s))) as Hcr%in_range_spec. unfold u32_max, u64_max in *.
  rewrite !from_be_bytes_small by (unfold CHECKPOINT_VERSION; lia).
  rewrite decide_False by (unfold CHECKPOINT_SLOT_LEN; tauto). cbv zeta. rewrite from_bytes_into by done.
  pose proof (proj2 (bool_decide_iff_eq _ _) H4) as Hb.
  rewrite decide_False; [by destruct s|]. intros [?|[?|[?|[?|[?|[?|?]]]]]]; try done; try lia; congruence.
Qed.

Lemma decode_slot_valid bytes i s index floor jl :
  wf i → decode_checkpoint_slot bytes index i floor jl = SlotValid s →
  wf s ∧ slot_contract index floor jl s ∧ bytes = slot_wire i s.
Proof.
  intros Hi. unfold decode_checkpoint_slot. destruct (all_zero bytes); [done|].
  destruct (decide _) as [|Hpre]; [done|]. cbv zeta. destruct (decide _) as [|Hok]; [done|]. intros [= <-].
  assert (len bytes = 64) as Hl by not_refused.
  assert (∀ n a, 0 ≤ n → 0 ≤ a → a + n ≤ 64 → 0 ≤ from_be (slice a (a + n) bytes) < 256 ^ n) as Hu.
  { intros n a Hn Ha Hin. pose proof (from_be_range (slice a (a + n) bytes)) as Hr. rewrite len_slice in Hr by lia.
    by replace (a + n - a) with n in Hr by lia. }
  assert (bool_decide (u64_at 44 bytes = floor) = bool_decide (u64_at 52 bytes = JOURNAL_V1_HEADER_LEN))
    as Hb%bool_decide_iff_eq by not_refused.
  split_and!.
  - wf_intro; apply in_range_spec; cbn; unfold u64_at, u64_max;
      match goal with |- context [slice ?i (?i + ?n) _] => specialize (Hu n i ltac:(lia) ltac:(lia) ltac:(lia)) end; lia.
  - assert (u64_at 36 bytes ≠ 0 ∧ ¬ u64_at 52 bytes < JOURNAL_V1_HEADER_LEN ∧ ¬ u64_at 52 bytes > jl) as (? & ? & ?)
      by (split_and!; intros ?; apply Hok; auto 10).
    assert ((u64_at 36 bytes - 1) `mod` 2 = index) as Hx by not_refused. clear Hok Hpre Hu.
    split; cbn [ck_slot_generation ck_append_sequence ck_end_offset]; [done|done|lia|exact Hb].
  - assert (slice 0 8 bytes = CHECKPOINT_MAGIC) as E0 by not_refused.
    assert (u16_at 8 bytes = 1) as E8 by not_refused. assert (u16_at 10 bytes = 64) as E10 by not_refused.
    assert (u32_at 60 bytes = crc32c (slice 0 60 bytes)) as E60 by (symmetry; not_refused).
    assert (from_bytes (slice 12 28 bytes) = Ok (journal_store_id i)) as Hid by not_refused.
    assert (u64_at 28 bytes = journal_generation i) as E28 by not_refused.
    apply from_bytes_wf in Hid as [_ Eid]; [|pose proof (len_slice 12 28 bytes); unfold len in *; lia].
    assert (∀ a, 0 ≤ a → a + 8 ≤ 64 → slice a (a + 8) bytes = be_bytes 8 (u64_at a bytes)) as E64
      by (intros a Ha Hb'; apply slice_be; done || lia).
    set (s := mkCheckpoint _ _ _). assert (slice 0 60 bytes = concat (slot_fields i s)) as Ecov.
    { unfold slot_fields. cbn [concat ck_slot_generation ck_append_sequence ck_end_offset s].
      rewrite <-E28, <-!E64 by lia. rewrite <-E0, Eid, app_nil_r.
      unfold CHECKPOINT_VERSION. rewrite <-(slice_be 8 10 2 1 bytes), <-(slice_be 10 12 2 64 bytes) by (done || lia).
      by rewrite !slice_join by lia. }
    unfold slot_wire. rewrite <-Ecov, <-E60. unfold u32_at.
    rewrite <-(slice_be 60 64 4 _ bytes) by (done || lia). rewrite slice_join by lia. by rewrite slice_all.
Qed.

(** ** The two slots of a file *)

(** The file whose slot of generation [g] is [current] and whose alternate slot
    is [other]. *)
Definition slots_file (g : Z) (current other : list byte) : list byte :=
  if decide ((g - 1) `mod` 2 = 0) then current ++ other else other ++ current.

Lemma parity g : (g - 1) `mod` 2 = 0 ∧ (g + 1 - 1) `mod` 2 = 1 ∨ (g - 1) `mod` 2 = 1 ∧ (g + 1 - 1) `mod` 2 = 0.
Proof. Z.to_euclidean_division_equations. lia. Qed.

Lemma slots_file_flip g a b : slots_file (g + 1) a b = slots_file g b a.
Proof. unfold slots_file. destruct (parity g) as [[-> ->]|[-> ->]]; done. Qed.
Lemma len_slots_file g a b : len a = 64 → len b = 64 → len (slots_file g a b) = 128.
Proof. intros Ha Hb. unfold slots_file. case_decide; rewrite len_app; lia. Qed.

Lemma overwrite_app p bytes pre old post :
  len pre = p → len old = len bytes → overwrite p bytes (pre ++ old ++ post) = pre ++ bytes ++ post.
Proof.
  intros Hp Ho. unfold overwrite. rewrite !len_app. pose proof (len_nonneg old). pose proof (len_nonneg post).
  replace (Z.to_nat (p - (len pre + (len old + len post)))) with 0%nat by lia. cbn [zeros replicate].
  rewrite app_nil_r. by apply copy_at_app.
Qed.

(** Writing the first bytes of the next slot into the alternate slot. *)
Lemma overwrite_alternate g current other bytes w :
  len current = 64 → len other = 64 → len bytes = 64 →
  overwrite ((g + 1 - 1) `mod` 2 * CHECKPOINT_SLOT_LEN) (take w bytes) (slots_file g current other) =
  slots_file g current (take w bytes ++ drop w other).
Proof.
  intros Hc Ho Hb. unfold slots_file, CHECKPOINT_SLOT_LEN.
  assert (len (take w other) = len (take w bytes)) as Hw by (unfold len in *; rewrite !length_take; lia).
  destruct (parity g) as [[-> ->]|[-> ->]]; cbn [decide decide_rel Z.eq_dec].
  - rewrite decide_True by done. rewrite <-(take_drop w other) at 1. by apply overwrite_app.
  - rewrite decide_False by done. rewrite <-(take_drop w other) at 1. rewrite <-app_assoc.
    rewrite <-(app_nil_l (take w other ++ _)), overwrite_app by done. by rewrite app_nil_l, <-app_assoc.
Qed.
Lemma overwrite_whole g current other bytes :
  len current = 64 → len other = 64 → len bytes = 64 →
  overwrite ((g + 1 - 1) `mod` 2 * CHECKPOINT_SLOT_LEN) bytes (slots_file g current other) = slots_file g current bytes.
Proof.
  intros Hc Ho Hb. pose proof (overwrite_alternate g current other bytes 64 Hc Ho Hb) as E.
  unfold len in *. rewrite take_ge in E by lia. rewrite drop_ge, app_nil_r in E by lia. done.
Qed.

Section selection.
Context (i : JournalIdentity) (floor jl : Z) (Hi : wf i).

(** The alternate slot holds an earlier cutoff, or nothing yet. *)
Definition older_slot (s : CheckpointState) (other : list byte) : Prop :=
  (other = zeros 64 ∧ ck_slot_generation s = 1) ∨
  ∃ old, other = slot_wire i old ∧ wf old ∧ ck_slot_generation old ≠ 0 ∧
    ck_slot_generation s = ck_slot_generation old + 1 ∧ ck_append_sequence old < ck_append_sequence s ∧
    JOURNAL_V1_HEADER_LEN ≤ ck_end_offset old < ck_end_offset s ∧
    (ck_append_sequence old = floor ↔ ck_end_offset old = JOURNAL_V1_HEADER_LEN).

Lemma len_older_slot s other : older_slot s other → len other = 64.
Proof.
  intros [[-> _]|(old & -> & _)]; [done|]. apply len_slot_wire. by wf_fields Hi.
Qed.

Lemma decode_two first second :
  len first = 64 → len second = 64 →
  decode_checkpoint (first ++ second) i floor jl =
  select_checkpoint (decode_checkpoint_slot first 0 i floor jl) (decode_checkpoint_slot second 1 i floor jl).
Proof.
  intros H1 H2. unfold decode_checkpoint, CHECKPOINT_SLOT_LEN, CHECKPOINT_FILE_LEN.
  rewrite slice_app_0 by done. rewrite slice_app_end; [done|done|]. unfold CHECKPOINT_SLOT_LEN. lia.
Qed.

Lemma decode_older_slot s other :
  older_slot s other → ck_end_offset s ≤ jl →
  decode_checkpoint_slot other ((ck_slot_generation s - 2) `mod` 2) i floor jl = SlotZero ∧ ck_slot_generation s = 1 ∨
  ∃ old, decode_checkpoint_slot other ((ck_slot_generation s - 2) `mod` 2) i floor jl = SlotValid old ∧
    ck_slot_generation s = ck_slot_generation old + 1 ∧ ck_append_sequence old < ck_append_sequence s ∧
    ck_end_offset old < ck_end_offset s.
Proof.
  intros [[-> Hg]|(old & -> & Hw & H0 & Hg & Ha & He & Hf)] Hj; [left|right; exists old].
  - split; [|done]. unfold decode_checkpoint_slot. pose proof (all_zero_zeros 64) as Hz. by destruct (all_zero _).
  - split_and!; try done; [|lia]. apply decode_slot_wire; [done|done|]. split; [done| |lia|done].
    f_equal. lia.
Qed.

(** The current slot is selected. *)
Lemma select_current s other :
  wf s → slot_contract ((ck_slot_generation s - 1) `mod` 2) floor jl s → older_slot s other →
  decode_checkpoint (slots_file (ck_slot_generation s) (slot_wire i s) other) i floor jl = Ok (Some s).
Proof.
  intros Hs Hc Ho. pose proof (len_older_slot _ _ Ho) as Hlo.
  assert (len (slot_wire i s) = 64) as Hls by (apply len_slot_wire; by wf_fields Hi).
  pose proof (decode_slot_wire i s _ floor jl Hi Hs Hc) as Hd. destruct Hc as [_ _ He _].
  pose proof (decode_older_slot s other Ho ltac:(lia)) as Hold. unfold slots_file.
  destruct (parity (ck_slot_generation s - 1)) as [[E1 E2]|[E1 E2]];
    replace (ck_slot_generation s - 1 - 1) with (ck_slot_generation s - 2) in E1 by lia;
    replace (ck_slot_generation s - 1 + 1 - 1) with (ck_slot_generation s - 1) in E2 by lia;
    rewrite E1 in Hold; rewrite E2 in *.
  - rewrite decide_False, decode_two, Hd by done.
    destruct Hold as [[-> Hg]|(old & -> & Hg & Ha & Heo)]; cbn [select_checkpoint]; [by rewrite decide_True|].
    rewrite decide_True by lia. by rewrite decide_False by lia.
  - rewrite decide_True, decode_two, Hd by done.
    destruct Hold as [[-> Hg]|(old & -> & Hg & Ha & Heo)]; cbn [select_checkpoint]; [by rewrite decide_True|].
    rewrite decide_False by lia. by rewrite decide_False by lia.
Qed.
End selection.
