(* ===== verification/Scan.v ===== *)
(** * What an open finds in a journal file

    The image of a journal: the header and the frames of its admissions. A file
    that shows a prefix of an image, cut anywhere, is scanned to exactly the
    admissions whose frames are whole, and the rest is what gets truncated. *)

From S2P Require Import Prelude Bytes Identity Bounded Value Collection Series Registry Admission Wire Layout Crc.
From S2P Require Import Fields Journal Generation Commit Recovery Disk Active Slots.

(** ** Operations that do not fail *)

Definition quiet (d : disk) : Prop := dk_events d = [].

Section quiet.
Context (d : disk) (Hq : quiet d).

Lemma quiet_op {A} (done : M disk IoError A) failed : io_op done failed d = done d.
Proof. unfold io_op. by rewrite Hq. Qed.
Lemma quiet_seek op : io op seek d = (Ok tt, d).
Proof. unfold io, map_err_m, seek. by rewrite quiet_op. Qed.
Lemma quiet_read op name p n :
  p + n ≤ len (data_of d name) → io op (read_exact name p n) d = (Ok (slice p (p + n) (data_of d name)), d).
Proof. intros H. unfold io, map_err_m, read_exact. rewrite quiet_op. by rewrite decide_True. Qed.
Lemma quiet_len op name : io op (file_len name) d = (Ok (len (data_of d name)), d).
Proof. unfold io, map_err_m, file_len. by rewrite quiet_op. Qed.
End quiet.

(** ** Images *)

Definition wire (a : DecodedAdmissionV1) : list byte := frame_layout (dec_append_sequence a) (payload_wire a).
Definition flat (H : list DecodedAdmissionV1) : list byte := concat (wire <$> H).
Fixpoint placed (offset : Z) (H : list DecodedAdmissionV1) : list RecoveredAdmissionV1 :=
  match H with
  | [] => []
  | a :: H => mkRecovered (offset + len (wire a)) a :: placed (offset + len (wire a)) H
  end.

Lemma flat_cons a H : flat (a :: H) = wire a ++ flat H.
Proof. unfold flat. rewrite fmap_cons. reflexivity. Qed.
Lemma len_flat_nil : len (flat []) = 0.
Proof. done. Qed.
Lemma flat_app H K : flat (H ++ K) = flat H ++ flat K.
Proof. unfold flat. by rewrite fmap_app, concat_app. Qed.
Lemma len_wire a : len (wire a) = 24 + len (payload_wire a).
Proof. unfold wire. by rewrite len_frame_layout. Qed.
Lemma wire_pos a : 24 ≤ len (wire a).
Proof. rewrite len_wire. pose proof (len_nonneg (payload_wire a)). lia. Qed.
Lemma len_flat_nonneg H : 0 ≤ len (flat H).
Proof. apply len_nonneg. Qed.

Lemma placed_app off H K : placed off (H ++ K) = placed off H ++ placed (off + len (flat H)) K.
Proof.
  revert off. induction H as [|a H IH]; intros off; cbn [placed app]; [by rewrite Z.add_0_r|].
  rewrite IH, flat_cons, len_app. do 3 f_equal. lia.
Qed.
Lemma placed_admissions off H : rec_admission <$> placed off H = H.
Proof. revert off. induction H as [|a H IH]; intros off; [done|]. cbn. by rewrite IH. Qed.
Lemma length_placed off H : length (placed off H) = length H.
Proof. by rewrite <-(length_fmap rec_admission), placed_admissions. Qed.
Lemma last_placed off H : sequence_of <$> last (placed off H) = dec_append_sequence <$> last H.
Proof.
  rewrite <-(placed_admissions off H) at 2. rewrite fmap_last. by destruct (last (placed off H)).
Qed.

(** Cuts at frame boundaries are recognized. *)
Lemma flat_take_lt H j k :
  (j < k ≤ length H)%nat → len (flat (take j H)) + 24 ≤ len (flat (take k H)).
Proof.
  intros [Hj Hk]. destruct (lookup_lt_is_Some_2 H j) as [a Ha]; [lia|].
  replace k with (S j + (k - S j))%nat by lia. rewrite <-take_take_drop, flat_app, (take_S_r _ _ a Ha), flat_app, !len_app.
  rewrite flat_cons, len_app, len_flat_nil. pose proof (wire_pos a). pose proof (len_flat_nonneg (take (k - S j) (drop (S j) H))). lia.
Qed.

Lemma record_ending_placed off H k :
  (k ≤ length H)%nat →
  record_ending (off + len (flat (take k H))) (placed off H) =
  match k with O => None | S k' => (λ a, mkRecovered (off + len (flat (take k H))) a) <$> H !! k' end.
Proof.
  revert off k. induction H as [|a H IH]; intros off k Hk; [by destruct k; [|cbn in Hk; lia]|].
  pose proof (wire_pos a) as Hw. destruct k as [|k]; cbn [take placed record_ending rec_end_offset] in *.
  - rewrite len_flat_nil, decide_False by lia. clear IH Hk.
    assert (∀ o K, off < o → record_ending (off + 0) (placed o K) = None) as Hn.
    { intros o K. revert o. induction K as [|b K IHK]; intros o Ho; [done|]. pose proof (wire_pos b).
      cbn [placed record_ending rec_end_offset]. rewrite decide_False by lia. apply IHK. lia. }
    apply Hn. lia.
  - rewrite flat_cons, len_app. destruct k as [|k].
    + change (take 0 H) with (@nil DecodedAdmissionV1). by rewrite len_flat_nil, Z.add_0_r, decide_True by done.
    + cbn [length] in Hk. pose proof (flat_take_lt H 0 (S k) ltac:(lia)) as Hlt.
      change (take 0 H) with (@nil DecodedAdmissionV1) in Hlt. rewrite len_flat_nil in Hlt.
      rewrite decide_False by lia. replace (off + (len (wire a) + len (flat (take (S k) H))))
        with (off + len (wire a) + len (flat (take (S k) H))) by lia.
      rewrite IH by lia. done.
Qed.

Section image.
Context (i : JournalIdentity) (floor : Z) (limits : ActiveJournalLimits).

Definition image (H : list DecodedAdmissionV1) : list byte := header_encode (mkHeader (journal_store_id i)) ++ flat H.
Definition end_of (H : list DecodedAdmissionV1) : Z := JOURNAL_V1_HEADER_LEN + len (flat H).

(** What the appender checks of every frame, and the scanner again. *)
Record admissible (a : DecodedAdmissionV1) : Prop := {
  ad_wf : wf a;
  ad_sequence : wf (mkSequence (dec_append_sequence a));
  ad_contract : decoded_contract a;
  ad_payload : len (payload_wire a) ≤ payload_limit limits;
  ad_scope : ¬ foreign_scope i a }.
Definition numbered (from : Z) (H : list DecodedAdmissionV1) : Prop :=
  ∀ n a, H !! n = Some a → dec_append_sequence a = from + 1 + Z.of_nat n.
Record good (H : list DecodedAdmissionV1) : Prop := {
  gd_admissible : Forall admissible H;
  gd_numbered : numbered floor H;
  gd_records : len H ≤ record_limit limits;
  gd_bytes : end_of H ≤ active_bytes_limit limits }.

Lemma numbered_cons from a H : numbered from (a :: H) ↔ dec_append_sequence a = from + 1 ∧ numbered (from + 1) H.
Proof.
  unfold numbered. split.
  - intros Hn. split; [rewrite (Hn 0%nat a); [lia|done]|]. intros n b Hb. rewrite (Hn (S n) b Hb). lia.
  - intros [Ha Hn] [|n] b; [intros [= <-]; lia|]. intros Hb. rewrite (Hn n b Hb). lia.
Qed.

Lemma good_take H n : good H → good (take n H).
Proof.
  intros [Ha Hn Hr Hb]. split.
  - by apply Forall_take.
  - intros m a Hm. apply lookup_take_Some in Hm as [Hm _]. by apply Hn.
  - unfold len in *. rewrite length_take. lia.
  - unfold end_of in *. rewrite <-(take_drop n H), flat_app, len_app in Hb.
    pose proof (len_flat_nonneg (drop n H)). lia.
Qed.

Lemma decode_wire decode prev a :
  decode_limits limits = Ok decode → admissible a → (∀ p, prev = Some p → dec_append_sequence a = sequence_get p + 1) →
  decode_admission_frame_v1 (wire a) decode prev = Ok a.
Proof.
  intros Hd [? ? ? ? ?] Hp. apply decode_frame_exact. unfold decode_limits, decode_limits_new in Hd.
  destruct (decide _); [done|]. injection Hd as <-. done.
Qed.

Lemma prefix_wire decode a :
  decode_limits limits = Ok decode → admissible a →
  frame_len_from_prefix_v1 (slice 0 20 (wire a)) decode = Ok (len (wire a)).
Proof.
  intros Hd [Hw Hs _ Hp _]. apply frame_len_from_prefix_Ok. pose proof (payload_fits a Hw). pose proof (len_nonneg (payload_wire a)).
  unfold decode_limits, decode_limits_new in Hd. destruct (decide _); [done|]. injection Hd as <-.
  rewrite len_wire. replace (24 + len (payload_wire a) - 24) with (len (payload_wire a)) by lia.
  exists (mkSequence (dec_append_sequence a)). cbn [sequence_get max_payload_len].
  split_and!; [done| |lia|lia|done]. unfold wire, frame_layout. rewrite <-app_assoc.
  apply slice_app_0, len_frame_prefix.
Qed.
End image.

(** ** The scan of a cut image *)

Section scan.
Context (i : JournalIdentity) (limits : ActiveJournalLimits) (decode : DecodeLimitsV1).
Context (Hlimits : decode_limits limits = Ok decode).
Context (d : disk) (Hq : quiet d).
Let data := data_of d (journal_name i).
Context (Hmax : len data ≤ MAX_ACTIVE_JOURNAL_BYTES).

(** The first bytes of one more frame, not all of it. *)
Definition torn (tail : list byte) : Prop :=
  tail = [] ∨ ∃ a rest, admissible i limits a ∧ wire a = tail ++ rest ∧ tail ≠ [] ∧ rest ≠ [].

Lemma read_frame pre a rest n m :
  data = pre ++ wire a ++ rest → 0 ≤ n → 0 ≤ m → n + m ≤ len (wire a) →
  io OpRead (read_exact (journal_name i) (len pre + n) m) d = (Ok (slice n (n + m) (wire a)), d).
Proof.
  intros E Hn Hm Hlen. pose proof (len_nonneg rest). pose proof (len_nonneg pre).
  assert (len data = len pre + (len (wire a) + len rest)) as Hld by (by rewrite E, !len_app).
  fold data. rewrite quiet_read by (done || (fold data; lia)). fold data.
  rewrite E, <-Z.add_assoc, slice_within by (done || lia). done.
Qed.

Lemma join_frame a : slice 0 (0 + 20) (wire a) ++ slice 20 (20 + (len (wire a) - 20)) (wire a) = wire a.
Proof. pose proof (wire_pos a). rewrite slice_join by lia. apply slice_all. lia. Qed.

Lemma scan_loop_tail ck room off prev recs pre tail :
  data = pre ++ tail → len pre = off → torn tail → (tail ≠ [] → (0 < room)%nat) → ck_end_offset ck ≤ off →
  scan_loop i limits ck (len data) room off prev recs d =
    (Ok (recs, off, if decide (tail = []) then None else Some off), d).
Proof.
  intros E Hoff Ht Hroom Hck. assert (len data = off + len tail) as Hld by (by rewrite E, len_app, Hoff).
  destruct Ht as [->|(a & rest & Ha & Hw & Hne & Hrne)].
  { rewrite len_nil in Hld. destruct room; cbn [scan_loop]; rewrite decide_False by lia; by rewrite decide_True. }
  assert (0 < len tail) as Hpos by (destruct tail; [done|rewrite len_cons; pose proof (len_nonneg tail); lia]).
  assert (0 < len rest) as Hrpos by (destruct rest; [done|rewrite len_cons; pose proof (len_nonneg rest); lia]).
  specialize (Hroom Hne). destruct room as [|room]; [lia|]. cbn [scan_loop]. rewrite decide_True by lia.
  rewrite (run_bind_Ok _ _ _ _ _ (quiet_seek d Hq OpSeek)). unfold JOURNAL_V1_FRAME_PREFIX_LEN.
  rewrite (decide_False (P := tail = [])) by done. case_decide as Hshort.
  { by rewrite (run_bind_Ok _ _ _ tt d) by (apply refuse_false; lia). }
  rewrite (run_bind_Ok _ _ _ (slice 0 20 (wire a)) d).
  2:{ rewrite quiet_read by (done || (fold data; lia)). fold data. rewrite E, Hw.
      rewrite <-(app_nil_r tail) at 1. rewrite <-(Z.add_0_r off) at 1. rewrite slice_within by (done || lia).
      do 2 f_equal. rewrite <-(app_nil_l (tail ++ rest)), <-(Z.add_0_l 0), <-(Z.add_0_l 20), slice_within by (done || lia).
      done. }
  rewrite (run_bind_Ok _ _ _ decode d) by (unfold lift; by rewrite Hlimits).
  rewrite (prefix_wire i limits) by done. assert (len (wire a) = len tail + len rest) as Hlw by (by rewrite Hw, len_app).
  rewrite (run_bind_Ok _ _ _ (off + len (wire a)) d).
  2:{ unfold lift. rewrite checked_add_ok; [done|]. destruct Ha as [Hwf _ _ _ _]. pose proof (payload_fits a Hwf) as Hp.
      rewrite len_wire in *. unfold u64_max, MAX_ADMISSION_PAYLOAD_V1, MAX_ACTIVE_JOURNAL_BYTES in *. lia. }
  rewrite decide_True by lia. by rewrite (run_bind_Ok _ _ _ tt d) by (apply refuse_false; lia).
Qed.

(** A cutoff at or before the scanned range, or at a boundary inside it. *)
Definition boundary (off : Z) (H : list DecodedAdmissionV1) (cutoff : Z) : Prop :=
  cutoff ≤ off ∨ ∃ k, (k ≤ length H)%nat ∧ cutoff = off + len (flat (take k H)).

Lemma boundary_cons off a H cutoff :
  boundary off (a :: H) cutoff → boundary (off + len (wire a)) H cutoff ∧ (off < cutoff → off + len (wire a) ≤ cutoff).
Proof.
  pose proof (wire_pos a) as Hw. intros [Hc|([|k] & Hk & ->)].
  - split; [left; lia|lia].
  - change (take 0 (a :: H)) with (@nil DecodedAdmissionV1). rewrite len_flat_nil. split; [left; lia|lia].
  - cbn [take length] in *. rewrite flat_cons, len_app. pose proof (len_flat_nonneg (take k H)). split; [|lia].
    right. exists k. split; lia.
Qed.

Lemma scan_loop_image ck H : ∀ room off prev from recs pre tail,
  data = pre ++ flat H ++ tail → len pre = off → torn tail → Forall (admissible i limits) H → numbered from H →
  (∀ p, prev = Some p → sequence_get p = from) →
  (length H ≤ room)%nat → (tail ≠ [] → (length H < room)%nat) → boundary off H (ck_end_offset ck) →
  scan_loop i limits ck (len data) room off prev recs d =
    (Ok (recs ++ placed off H, off + len (flat H), if decide (tail = []) then None else Some (off + len (flat H))), d).
Proof.
  induction H as [|a H IH]; intros room off prev from recs pre tail E Hoff Ht Ha Hn Hp Hr Hr' Hb.
  - rewrite len_flat_nil, Z.add_0_r. cbn [placed]. rewrite app_nil_r.
    apply (scan_loop_tail ck room off prev recs pre tail); try done.
    destruct Hb as [?|(k & Hk & ->)]; [done|]. cbn [length] in Hk. replace k with 0%nat by lia.
    change (take 0 []) with (@nil DecodedAdmissionV1). rewrite len_flat_nil. lia.
  - apply Forall_cons in Ha as [Ha HH]. apply numbered_cons in Hn as [Hs Hn].
    apply boundary_cons in Hb as [Hb Hck]. pose proof (wire_pos a) as Hw.
    rewrite flat_cons, <-app_assoc in E.
    assert (len data = off + (len (wire a) + (len (flat H) + len tail))) as Hld by (by rewrite E, !len_app, Hoff).
    pose proof (len_flat_nonneg H). pose proof (len_nonneg tail). pose proof (len_nonneg pre).
    destruct room as [|room]; [cbn [length] in Hr; lia|]. cbn [scan_loop]. rewrite decide_True by lia.
    rewrite (run_bind_Ok _ _ _ _ _ (quiet_seek d Hq OpSeek)). unfold JOURNAL_V1_FRAME_PREFIX_LEN.
    rewrite decide_False by lia.
    rewrite (run_bind_Ok _ _ _ (slice 0 (0 + 20) (wire a)) d).
    2:{ rewrite <-Hoff, <-(Z.add_0_r (len pre)). eapply read_frame; [exact E|lia..]. }
    rewrite (run_bind_Ok _ _ _ decode d) by (unfold lift; by rewrite Hlimits).
    rewrite (prefix_wire i limits) by done.
    rewrite (run_bind_Ok _ _ _ (off + len (wire a)) d).
    2:{ unfold lift. rewrite checked_add_ok; [done|]. unfold u64_max, MAX_ACTIVE_JOURNAL_BYTES in *. lia. }
    rewrite decide_False by lia. rewrite (run_bind_Ok _ _ _ tt d) by (apply refuse_false; lia).
    rewrite (run_bind_Ok _ _ _ (slice 20 (20 + (len (wire a) - 20)) (wire a)) d).
    2:{ rewrite <-Hoff. eapply read_frame; [exact E|lia..]. }
    rewrite join_frame, (decode_wire i limits) by (done || (intros p [= ->]; rewrite (Hp p eq_refl); lia)).
    pose proof Ha as [_ Hseq _ _ Hscope].
    rewrite (run_bind_Ok _ _ _ tt d) by (by apply refuse_false).
    rewrite (run_bind_Ok _ _ _ (mkSequence (dec_append_sequence a)) d).
    2:{ unfold lift. rewrite (proj2 (sequence_new_Ok _ (mkSequence (dec_append_sequence a)))); [done|].
        split; [done|]. apply in_range_spec in Hseq. cbn in Hseq. lia. }
    rewrite (IH room (off + len (wire a)) _ (from + 1) _ (pre ++ wire a) tail); try done.
    + rewrite <-app_assoc. cbn [app placed]. rewrite flat_cons, len_app, !Z.add_assoc. done.
    + by rewrite <-app_assoc.
    + rewrite len_app. lia.
    + intros p [= <-]. cbn. lia.
    + cbn [length] in Hr. lia.
    + intros Hne. specialize (Hr' Hne). cbn [length] in Hr'. lia.
Qed.
End scan.
