(* ===== verification/Effects.v ===== *)
(** * Rules for effects that may fail

    What every file operation does when it happens and what it leaves when it
    fails, as rules for [outcome]; and readers, operations that change no file, of
    which it is enough to know what they answer when nothing fails. *)

From S2P Require Import Prelude Bytes Identity Bounded Value Collection Series Registry Admission Wire Layout Crc.
From S2P Require Import Fields Journal Generation Commit Recovery Disk Active Slots Scan.

(** ** The passage of events *)

(** A slot write reaches the file whole or not at all; longer writes may fail
    after any part of more than a slot (what is cut shorter, a power loss cuts). *)
Definition sector_event (e : io_event) : Prop :=
  match e with IoDone => True | IoFailed written _ => written = 0%nat ∨ (64 ≤ written)%nat end.
Definition sectors (d : disk) : Prop := Forall sector_event (dk_events d).

(** Only events passed. *)
Record aged (d d' : disk) : Prop := {
  ag_files : dk_files d' = dk_files d;
  ag_entries : dk_entries d' = dk_entries d;
  ag_locked : dk_locked d' = dk_locked d;
  ag_events : dk_events d' `suffix_of` dk_events d }.
#[export] Instance aged_preorder : PreOrder aged.
Proof.
  split; [by intros d|]. intros d1 d2 d3 [Ef Ee El Es] [Ef' Ee' El' Es'].
  split; [by rewrite Ef'|by rewrite Ee'|by rewrite El'|by trans (dk_events d2)].
Qed.

Lemma aged_data d d' name : aged d d' → data_of d' name = data_of d name.
Proof. intros [Ef _ _ _]. unfold data_of, file_of. by rewrite Ef. Qed.
Lemma aged_file d d' name : aged d d' → file_of d' name = file_of d name.
Proof. intros [Ef _ _ _]. unfold file_of. by rewrite Ef. Qed.

(** Whatever happened to the files, only the latest events passed. *)
Record since (d d' : disk) : Prop := {
  sn_events : dk_events d' `suffix_of` dk_events d;
  sn_locked : dk_locked d' = dk_locked d }.
#[export] Instance since_preorder : PreOrder since.
Proof.
  split; [by intros d|]. intros d1 d2 d3 [Es El] [Es' El']. split; [by trans (dk_events d2)|by rewrite El'].
Qed.
Lemma aged_since d d' : aged d d' → since d d'.
Proof. by intros []. Qed.
Lemma since_put name f d d' : since d d' → since d (put_file name f d').
Proof. by intros []. Qed.
Lemma since_quiet d d' : since d d' → quiet d → quiet d'.
Proof. intros [Hs _]. unfold quiet. intros E. rewrite E in Hs. by apply suffix_nil_inv in Hs. Qed.
Lemma since_sectors d d' : since d d' → sectors d → sectors d'.
Proof. intros [[l E] _]. unfold sectors. rewrite E. by intros [_ ?]%Forall_app. Qed.

(** The disk when nothing fails any more. *)
Definition calm (d : disk) : disk := mkDisk (dk_files d) (dk_entries d) (dk_locked d) [].
Lemma calm_quiet d : quiet (calm d).
Proof. done. Qed.
Lemma quiet_calm d : quiet d → calm d = d.
Proof. unfold quiet, calm. destruct d as [f e l ev]. cbn [dk_events]. by intros ->. Qed.
Lemma calm_aged d : aged d (calm d).
Proof. split; try done. exists (dk_events d). symmetry. apply app_nil_r. Qed.
Lemma aged_calm d d' : aged d d' → calm d' = calm d.
Proof. intros [Ef Ee El _]. unfold calm. by rewrite Ef, Ee, El. Qed.

(** ** One effect *)

Section effects.
Context {E : Type}.

Lemma outcome_io_op {A} (f : IoError → E) (run : M disk IoError A) failed d Q R :
  (∀ d', aged d d' → outcome (map_err_m f run) d' Q R) →
  (∀ w e d', aged d d' → ¬ quiet d → (sectors d → sector_event (IoFailed w e)) → R (f e) (failed w d')) →
  outcome (map_err_m f (io_op run failed)) d Q R.
Proof.
  intros Hq Hr. unfold outcome, map_err_m, io_op. destruct (dk_events d) as [|[|w e] events] eqn:Ev.
  - apply (Hq d). reflexivity.
  - apply (Hq (mkDisk (dk_files d) (dk_entries d) (dk_locked d) events)). split; try done. rewrite Ev. by exists [IoDone].
  - apply (Hr w e).
    + split; try done. rewrite Ev. by exists [IoFailed w e].
    + unfold quiet. by rewrite Ev.
    + unfold sectors. rewrite Ev. by intros [? _]%Forall_cons.
Qed.

Lemma outcome_write (f : IoError → E) name p bytes d Q R :
  (∀ d', aged d d' → Q tt (put_data name (overwrite p bytes (data_of d name)) d')) →
  (∀ w e d', aged d d' → ¬ quiet d → (sectors d → w = 0%nat ∨ (64 ≤ w)%nat) →
     R (f e) (put_data name (overwrite p (take w bytes) (data_of d name)) d')) →
  outcome (map_err_m f (write_all name p bytes)) d Q R.
Proof.
  intros Hq Hr. apply outcome_io_op.
  - intros d' Ha. specialize (Hq d' Ha). unfold outcome, map_err_m. by rewrite (aged_data d d').
  - intros w e d' Ha Hn Hs. rewrite (aged_data d d') by done. by apply Hr.
Qed.
Lemma outcome_write_end (f : IoError → E) name bytes d Q R :
  (∀ d', aged d d' → Q tt (put_data name (data_of d name ++ bytes) d')) →
  (∀ w e d', aged d d' → ¬ quiet d → R (f e) (put_data name (data_of d name ++ take w bytes) d')) →
  outcome (map_err_m f (write_end name bytes)) d Q R.
Proof.
  assert (∀ l, overwrite (len (data_of d name)) l (data_of d name) = data_of d name ++ l) as Eo.
  { intros l. unfold overwrite, copy_at, len. rewrite Z.sub_diag. cbn [Z.to_nat zeros replicate].
    rewrite app_nil_r, Nat2Z.id, take_ge by done. rewrite drop_ge by lia. by rewrite app_nil_r. }
  intros Hq Hr. apply outcome_write; [intros d' Ha; rewrite Eo; by apply Hq|].
  intros w e d' Ha Hn _. rewrite Eo. by apply Hr.
Qed.
Lemma outcome_set_len (f : IoError → E) name n d Q R :
  (∀ d', aged d d' → Q tt (put_data name (resize n (data_of d name)) d')) →
  (∀ e d', aged d d' → ¬ quiet d → R (f e) d') →
  outcome (map_err_m f (set_len name n)) d Q R.
Proof.
  intros Hq Hr. apply outcome_io_op; [|intros w e d' Ha Hn _; by apply Hr].
  intros d' Ha. specialize (Hq d' Ha). unfold outcome, map_err_m. by rewrite (aged_data d d').
Qed.
Lemma outcome_sync (f : IoError → E) name d Q R :
  (∀ d', aged d d' → Q tt (put_file name (mkFile (data_of d name) (data_of d name)) d')) →
  (∀ e d', aged d d' → ¬ quiet d → R (f e) d') →
  outcome (map_err_m f (sync_all name)) d Q R.
Proof.
  intros Hq Hr. apply outcome_io_op; [|intros w e d' Ha Hn _; by apply Hr].
  intros d' Ha. specialize (Hq d' Ha). unfold outcome, map_err_m. by rewrite (aged_data d d').
Qed.

Lemma outcome_attempt {A} (m : M disk E A) d (Q : result E A → disk → Prop) (R : E → disk → Prop) :
  outcome (attempt m) d Q R ↔ outcome m d (λ a, Q (Ok a)) (λ e, Q (Err e)).
Proof. unfold outcome, attempt. by destruct (m d) as [[a|e] d']. Qed.

(** ** Readers *)

Definition reader {A} (m : M disk E A) : Prop := ∀ d,
  outcome m d (λ a d', aged d d' ∧ m (calm d) = (Ok a, calm d))
    (λ e d', aged d d' ∧ (m (calm d) = (Err e, calm d) ∨ ¬ quiet d)).

Lemma outcome_reader {A} (m : M disk E A) a d Q R :
  reader m → m (calm d) = (Ok a, calm d) → (∀ d', aged d d' → Q a d') →
  (∀ e d', aged d d' → ¬ quiet d → R e d') → outcome m d Q R.
Proof.
  intros Hm Ha Hq Hr. eapply outcome_weaken; [apply Hm| |].
  - intros a' d' [? E1]. rewrite Ha in E1. injection E1 as <-. by apply Hq.
  - intros e d' [? [E1|?]]; [by rewrite Ha in E1|by apply Hr].
Qed.

Lemma reader_ret {A} (a : A) : reader (mret a).
Proof. intros d. apply outcome_ret. done. Qed.
Lemma reader_fail {A} (e : E) : reader (fail e : M disk E A).
Proof. intros d. apply outcome_fail. split; [done|by left]. Qed.
Lemma reader_lift {A} (r : result E A) : reader (lift r).
Proof. destruct r; [apply reader_ret|apply reader_fail]. Qed.
Lemma reader_refuse P `{Decision P} (e : E) : reader (refuse_if P e).
Proof. unfold refuse_if. case_decide; [apply reader_fail|apply reader_ret]. Qed.
Lemma reader_bind {A B} (m : M disk E A) (k : A → M disk E B) :
  reader m → (∀ a, reader (k a)) → reader (m ≫= k).
Proof.
  intros Hm Hk d. apply outcome_bind. eapply outcome_weaken; [apply Hm| |].
  - intros a d' [Ha E1]. rewrite (run_bind_Ok _ _ _ _ _ E1). eapply outcome_weaken; [apply Hk| |].
    + intros b d'' [Ha' E2]. rewrite (aged_calm d d') in E2 by done. split; [by trans d'|done].
    + intros e d'' [Ha' E2]. rewrite (aged_calm d d') in E2 by done. split; [by trans d'|].
      destruct E2 as [?|Hn]; [by left|right]. intros Hq. apply Hn. by apply (since_quiet d); [apply aged_since|].
  - intros e d' [Ha [E1|?]]; (split; [done|]); [left; by apply run_bind_Err|by right].
Qed.
(** A reader in a sequence that so far only read. *)
Lemma read_step {A B} (m : M disk E A) (k : A → M disk E B) a d0 d Q R :
  reader m → aged d0 d → m (calm d0) = (Ok a, calm d0) → (∀ d', aged d0 d' → outcome (k a) d' Q R) →
  (∀ e d', aged d0 d' → ¬ quiet d0 → R e d') → outcome (m ≫= k) d Q R.
Proof.
  intros Hm Ha E1 Hk HR. apply outcome_bind. apply (outcome_reader m a); try done.
  - by rewrite (aged_calm d0 d).
  - intros d' Ha'. apply Hk. by trans d.
  - intros e d' Ha' Hn. apply HR; [by trans d|]. intros Hq. apply Hn. by apply (since_quiet d0); [apply aged_since|].
Qed.
Lemma pure_step {B} P `{Decision P} (e : E) (k : () → M disk E B) d Q R :
  ¬ P → outcome (k tt) d Q R → outcome (refuse_if P e ≫= k) d Q R.
Proof. intros Hn Hk. apply outcome_bind, outcome_refuse. done. Qed.
Lemma reader_op {A} (f : IoError → E) (run : M disk IoError A) :
  (∀ d, ∃ r, run d = (r, d)) → (∀ d d', aged d d' → (run d').1 = (run d).1) →
  reader (map_err_m f (io_op run unchanged)).
Proof.
  intros Hrun Hag d. assert (map_err_m f (io_op run unchanged) (calm d) = (map_err f (run d).1, calm d)) as ->.
  { unfold map_err_m, io_op. cbn [calm dk_events]. destruct (Hrun (calm d)) as [r Hr]. rewrite Hr.
    rewrite <-(Hag d (calm d)), Hr by apply calm_aged. done. }
  apply outcome_io_op.
  - intros d' Ha. unfold outcome, map_err_m. rewrite <-(Hag d d') by done. destruct (Hrun d') as [[a|e] Hr]; rewrite Hr; cbn [fst map_err].
    + done.
    + split; [done|by left].
  - intros w e d' Ha Hn _. split; [done|by right].
Qed.
Lemma reader_map_err {A F} (f : F → E) (m : M disk F A) :
  (∀ d, outcome m d (λ a d', aged d d' ∧ m (calm d) = (Ok a, calm d))
    (λ e d', aged d d' ∧ (m (calm d) = (Err e, calm d) ∨ ¬ quiet d))) → reader (map_err_m f m).
Proof.
  intros Hm d. apply outcome_map_err. eapply outcome_weaken; [apply Hm| |].
  - intros a d' [? E1]. split; [done|]. unfold map_err_m. by rewrite E1.
  - intros e d' [? [E1|?]]; (split; [done|]); [left|by right]. unfold map_err_m. by rewrite E1.
Qed.
End effects.

Lemma reader_seek op : reader (io op seek).
Proof. apply reader_op; [by eexists|done]. Qed.
Lemma reader_read op name p n : reader (io op (read_exact name p n)).
Proof.
  apply reader_op.
  - intros d. case_decide; by eexists.
  - intros d d' Ha. rewrite (aged_data d d') by done. by case_decide.
Qed.
Lemma reader_len op name : reader (io op (file_len name)).
Proof. apply reader_op; [by eexists|]. intros d d' Ha. by rewrite (aged_data d d'). Qed.
Lemma reader_open_artifact name : reader (open_artifact name).
Proof.
  apply reader_op.
  - intros d. case_match; by eexists.
  - intros d d' [Ef _ _ _]. rewrite Ef. by case_match.
Qed.
Lemma reader_lock_journal : reader lock_journal.
Proof.
  unfold lock_journal. apply reader_map_err. intros d. unfold outcome, try_lock.
  assert (outcome (map_err_m id (io_op (λ d, (Ok tt, d)) unchanged)) d (λ _ d', aged d d') (λ _ d', aged d d' ∧ ¬ quiet d)) as Hseek.
  { apply outcome_io_op; [done|]. intros w e d' Ha Hn _. done. }
  unfold outcome, map_err_m in Hseek. destruct (io_op _ _ d) as [[[]|e] d']; cbn [map_err] in Hseek.
  - pose proof (ag_locked _ _ Hseek) as El. change (dk_locked (calm d)) with (dk_locked d).
    destruct (dk_locked d) eqn:E1; rewrite El; cbn [calm io_op dk_events dk_locked]; rewrite ?E1.
    + split; [done|by left].
    + done.
  - split; [apply Hseek|right; apply Hseek].
Qed.

Lemma outcome_lock (Q : () → disk → Prop) (R : ActiveJournalError → disk → Prop) d :
  (∀ d', aged d d' → Q tt d') → (∀ e d', aged d d' → ¬ quiet d ∨ dk_locked d = true → R e d') →
  outcome lock_journal d Q R.
Proof.
  intros HQ HR. eapply outcome_weaken; [apply reader_lock_journal| |].
  - intros [] d' [Ha _]. by apply HQ.
  - intros e d' [Ha [E1|Hn]]; (apply HR; [done|]); [right|by left].
    unfold lock_journal, map_err_m, try_lock, io_op in E1. cbn [calm dk_events dk_locked] in E1. by destruct (dk_locked d).
Qed.

#[export] Hint Resolve reader_ret reader_fail reader_lift reader_refuse reader_seek reader_read reader_len
  reader_open_artifact reader_lock_journal : och.
Ltac reader := repeat first [solve [auto with och] | apply reader_bind; [|intros] | case_match | progress cbv zeta].

Lemma reader_scan_loop i limits ck jl room off prev recs : reader (scan_loop i limits ck jl room off prev recs).
Proof.
  revert off prev recs. induction room as [|room IH]; intros off prev recs; cbn [scan_loop].
  - case_decide; reader.
  - case_decide; reader.
Qed.
Lemma reader_scan_journal i limits ck floor jl : reader (scan_journal i limits ck floor jl).
Proof.
  unfold scan_journal. apply reader_bind; [auto with och|intros prev].
  apply reader_bind; [apply reader_scan_loop|intros [[recs off] cut]]. reader.
Qed.
Lemma reader_read_checkpoint i floor jl : reader (read_checkpoint i floor jl).
Proof. unfold read_checkpoint. reader. Qed.
Lemma reader_active {A} (m : Op A) : reader m → reader (active m).
Proof. apply reader_map_err. Qed.
