(* ===== verification/Crash.v ===== *)
(** * Crash safety of the active journal

    What a power loss or the death of the process may leave of the two files,
    and that from any such state an open recovers: the records whose frames are
    whole, in order, at least those a barrier acknowledged. *)

From S2P Require Import Prelude Bytes Identity Bounded Value Collection Series Registry Admission Wire Layout Crc.
From S2P Require Import Fields Journal Generation Commit Recovery Disk Active Slots Scan Effects.

(** ** The failure model *)

(** The journal only grows or is cut: what survives lies between the synchronized
    and the visible bytes. *)
Definition survives (f : file) (bytes : list byte) : Prop :=
  (f_synced f `prefix_of` bytes ∧ bytes `prefix_of` f_data f) ∨
  (f_data f `prefix_of` bytes ∧ bytes `prefix_of` f_synced f).
(** Of the checkpoint, each slot survives as it was synchronized or as it shows. *)
Definition slots_survive (f : file) (bytes : list byte) : Prop :=
  ∃ a b, bytes = a ++ b ∧ a ∈ [slice 0 64 (f_synced f); slice 0 64 (f_data f)] ∧
    b ∈ [slice 64 128 (f_synced f); slice 64 128 (f_data f)].

Record power_loss (i : JournalIdentity) (d d' : disk) : Prop := {
  pl_journal : ∀ f, dk_files d !! journal_name i = Some f → journal_name i ∈ dk_entries d →
    ∃ bytes, survives f bytes ∧ dk_files d' !! journal_name i = Some (mkFile bytes bytes);
  pl_checkpoint : ∀ f, dk_files d !! checkpoint_name i = Some f → checkpoint_name i ∈ dk_entries d →
    ∃ bytes, slots_survive f bytes ∧ dk_files d' !! checkpoint_name i = Some (mkFile bytes bytes);
  pl_entries : dk_entries d ⊆ dk_entries d' }.

(** ** Recoverable disks *)

Section recoverable.
Context (i : JournalIdentity) (floor : Z) (limits : ActiveJournalLimits).
Context (Hi : wf i).

(** A cutoff after the first [c] admissions. *)
Record cut_at (H : list DecodedAdmissionV1) (c : nat) (s : CheckpointState) : Prop := {
  ca_wf : wf s;
  ca_generation : 0 < ck_slot_generation s ≤ 1 + Z.of_nat c;
  ca_count : (c ≤ length H)%nat;
  ca_sequence : ck_append_sequence s = floor + Z.of_nat c;
  ca_end : ck_end_offset s = end_of (take c H) }.

(** A disk that a crash may leave: [H] are the admissions whose frames were
    written, at least partly, and [k] of them will survive whatever happens. [s]
    is the cutoff of the current slot, [other] the alternate slot, and [next] the
    cutoff that is being written over it. *)
Record recoverable (d : disk) (H : list DecodedAdmissionV1) (k : nat) (s : CheckpointState) (other : list byte)
    (next : option CheckpointState) : Prop := {
  rv_good : good i floor limits H;
  rv_count : (k ≤ length H)%nat;
  rv_entries : journal_name i ∈ dk_entries d ∧ checkpoint_name i ∈ dk_entries d;
  rv_journal : ∃ f, dk_files d !! journal_name i = Some f ∧
    image i (take k H) `prefix_of` f_data f ∧ f_data f `prefix_of` image i H ∧
    image i (take k H) `prefix_of` f_synced f ∧ f_synced f `prefix_of` image i H;
  rv_cut : ∃ c, (c ≤ k)%nat ∧ cut_at H c s;
  rv_older : older_slot i floor s other;
  rv_next : ∀ n, next = Some n → k = length H ∧ cut_at H k n ∧ ck_slot_generation n = ck_slot_generation s + 1 ∧
    ck_append_sequence s < ck_append_sequence n;
  rv_slots : ∃ f o o', dk_files d !! checkpoint_name i = Some f ∧
    f_synced f = slots_file (ck_slot_generation s) (slot_wire i s) o ∧
    f_data f = slots_file (ck_slot_generation s) (slot_wire i s) o' ∧
    (∀ x, x = o ∨ x = o' → x = other ∨ ∃ n, next = Some n ∧ x = slot_wire i n) }.

Lemma store_wf : wf (journal_store_id i).
Proof. by wf_fields Hi. Qed.
Lemma len_wire_slot s : len (slot_wire i s) = 64.
Proof. apply len_slot_wire, store_wf. Qed.

Lemma end_of_take_lt H j k : (j < k ≤ length H)%nat → end_of (take j H) + 24 ≤ end_of (take k H).
Proof. intros Hjk. unfold end_of. pose proof (flat_take_lt H j k Hjk). lia. Qed.
Lemma end_of_zero H : end_of (take 0 H) = JOURNAL_V1_HEADER_LEN.
Proof. done. Qed.
Lemma end_of_pos H : JOURNAL_V1_HEADER_LEN ≤ end_of H.
Proof. unfold end_of. pose proof (len_flat_nonneg H). lia. Qed.

Lemma cut_genesis H c s :
  cut_at H c s → (ck_append_sequence s = floor ↔ ck_end_offset s = JOURNAL_V1_HEADER_LEN).
Proof.
  intros [_ _ Hc -> ->]. destruct c as [|c]; [split; [done|lia]|].
  pose proof (end_of_take_lt H 0 (S c) ltac:(lia)). rewrite end_of_zero in *. lia.
Qed.
Lemma cut_contract H c s jl :
  cut_at H c s → ck_end_offset s ≤ jl → slot_contract ((ck_slot_generation s - 1) `mod` 2) floor jl s.
Proof.
  intros Hc Hj. pose proof (cut_genesis H c s Hc). destruct Hc as [? [? ?] ? ? He]. split; [lia|done| |done].
  rewrite He. pose proof (end_of_pos (take c H)). lia.
Qed.
Lemma older_next H c s c' n :
  cut_at H c s → cut_at H c' n → ck_slot_generation n = ck_slot_generation s + 1 →
  ck_append_sequence s < ck_append_sequence n → older_slot i floor n (slot_wire i s).
Proof.
  intros Hs Hn Hg Hlt. pose proof (cut_genesis H c s Hs). destruct Hs as [? ? ? Ea Ee], Hn as [? ? ? Ea' Ee'].
  right. exists s. split_and!; try done. { lia. } { rewrite Ee. apply end_of_pos. }
  rewrite Ee, Ee'. pose proof (end_of_take_lt H c c' ltac:(lia)). lia.
Qed.

Lemma slots_halves g x y :
  len x = 64 → len y = 64 →
  slots_file g x y = slice 0 64 (slots_file g x y) ++ slice 64 128 (slots_file g x y) ∧
  slice 0 64 (slots_file g x y) = (if decide ((g - 1) `mod` 2 = 0) then x else y) ∧
  slice 64 128 (slots_file g x y) = (if decide ((g - 1) `mod` 2 = 0) then y else x).
Proof.
  intros Hx Hy. pose proof (len_slots_file g x y Hx Hy) as Hl. rewrite slice_join, slice_all by lia.
  split; [done|]. unfold slots_file. case_decide; (split; [by apply slice_app_0|apply slice_app_end; lia]).
Qed.

(** Any mix of the slots of two files with the same current slot. *)
Lemma mixed_slots g cur o o' a b :
  len cur = 64 → len o = 64 → len o' = 64 →
  a ∈ [slice 0 64 (slots_file g cur o); slice 0 64 (slots_file g cur o')] →
  b ∈ [slice 64 128 (slots_file g cur o); slice 64 128 (slots_file g cur o')] →
  a ++ b = slots_file g cur o ∨ a ++ b = slots_file g cur o'.
Proof.
  intros Hc Ho Ho'. destruct (slots_halves g cur o Hc Ho) as (_ & -> & ->), (slots_halves g cur o' Hc Ho') as (_ & -> & ->).
  unfold slots_file. rewrite !elem_of_cons, !elem_of_nil. case_decide; naive_solver.
Qed.

(** Only the files and entries matter. *)
Definition same_files (d d' : disk) : Prop := dk_files d' = dk_files d ∧ dk_entries d' = dk_entries d.
Lemma recoverable_same d d' H k s other next :
  same_files d d' → recoverable d H k s other next → recoverable d' H k s other next.
Proof. intros [Ef Ee] []. split; try done; by rewrite ?Ef, ?Ee. Qed.

(** *** What each effect does *)

Lemma names_differ : journal_name i ≠ checkpoint_name i.
Proof.
  unfold journal_name, checkpoint_name, active_journal_file_name, active_checkpoint_file_name.
  intros E%(f_equal last). repeat case_decide; rewrite ?last_app in E; by vm_compute in E.
Qed.

Lemma image_take_prefix H m n : (m ≤ n)%nat → image i (take m H) `prefix_of` image i (take n H).
Proof.
  intros Hmn. unfold image. apply prefix_app. rewrite <-(take_drop m (take n H)), take_take, Nat.min_l by done.
  rewrite flat_app. by apply prefix_app_r.
Qed.

(** The journal is cut, extended up to [H], or synchronized. *)
Lemma journal_changed d d' H k s other next m k' f :
  recoverable d H k s other next →
  dk_files d' = <[journal_name i := f]> (dk_files d) → dk_entries d ⊆ dk_entries d' →
  (k ≤ k')%nat → (k' ≤ m)%nat → (m ≤ length H)%nat → (next ≠ None → k' = length H) →
  image i (take k' H) `prefix_of` f_data f → f_data f `prefix_of` image i (take m H) →
  image i (take k' H) `prefix_of` f_synced f → f_synced f `prefix_of` image i (take m H) →
  recoverable d' (take m H) k' s other next.
Proof.
  intros [Hg Hk [Hej Hec] Hj (c & Hc & Hcut) Ho Hn (g & o & o' & Hgf & Hs & Hd & Hx)] Ef Ee Hkk Hkm Hm Hnext P1 P2 P3 P4.
  assert (∀ n, (n ≤ m)%nat → take n (take m H) = take n H) as Ht by (intros; by rewrite take_take, Nat.min_l).
  assert (∀ c s, (c ≤ m)%nat → cut_at H c s → cut_at (take m H) c s) as Hcuts.
  { intros c' s' Hc' [? ? ? ? ?]. split; try done; [rewrite length_take; lia|by rewrite Ht]. }
  split.
  - by apply good_take.
  - rewrite length_take. lia.
  - set_solver.
  - exists f. rewrite Ef, lookup_insert_eq, Ht by done. done.
  - exists c. split; [lia|]. apply Hcuts; [lia|done].
  - done.
  - intros n E. destruct (Hn n E) as (-> & Hcn & ?). assert (k' = length H) as -> by (apply Hnext; congruence).
    assert (m = length H) as -> by lia. rewrite take_ge by done. done.
  - exists g, o, o'. rewrite Ef, lookup_insert_ne by (apply names_differ). done.
Qed.

(** A frame is written behind the image, or its first bytes. *)
Lemma journal_appended d d' H k s other a w synced :
  recoverable d H k s other None → good i floor limits (H ++ [a]) →
  (∃ f, dk_files d !! journal_name i = Some f ∧ f_data f = image i H ∧ f_synced f = synced) →
  dk_files d' = <[journal_name i := mkFile (image i H ++ take w (wire a)) synced]> (dk_files d) →
  dk_entries d' = dk_entries d →
  recoverable d' (H ++ [a]) k s other None.
Proof.
  intros [Hg Hk [Hej Hec] Hj (c & Hc & Hcut) Ho Hn (g & o & o' & Hgf & Hs & Hd & Hx)] Hga (f & Hf & Ed & Es) Ef Ee.
  destruct Hj as (f' & Hf' & P1 & P2 & P3 & P4). rewrite Hf in Hf'. injection Hf' as <-. subst synced.
  assert (image i (H ++ [a]) = image i H ++ wire a) as Ei.
  { unfold image. rewrite flat_app, flat_cons, <-app_assoc. unfold flat at 2. cbn [fmap list_fmap concat]. by rewrite app_nil_r. }
  assert (∀ n, (n ≤ length H)%nat → take n (H ++ [a]) = take n H) as Ht by (intros; by apply take_app_le).
  split; try done.
  - rewrite length_app. lia.
  - by rewrite Ee.
  - eexists. rewrite Ef, lookup_insert_eq, Ht by done. split; [done|]. cbn [f_data f_synced]. rewrite Ei. split_and!.
    + rewrite <-Ed. by apply prefix_app_r.
    + apply prefix_app. apply prefix_take.
    + done.
    + by apply prefix_app_r.
  - exists c. split; [done|]. destruct Hcut as [? ? ? ? ?].
    split; try done; [rewrite length_app; lia|by rewrite Ht].
  - exists g, o, o'. rewrite Ef, lookup_insert_ne by (apply names_differ). done.
Qed.

(** The next slot is being written. *)
Lemma slot_written d d' H s other next n f :
  recoverable d H (length H) s other next → (next = None ∨ next = Some n) →
  cut_at H (length H) n → ck_slot_generation n = ck_slot_generation s + 1 → ck_append_sequence s < ck_append_sequence n →
  dk_files d !! checkpoint_name i = Some f →
  (dk_files d' = dk_files d ∨ dk_files d' = <[checkpoint_name i :=
     mkFile (overwrite (pc_offset (prepare_checkpoint_slot i n)) (slot_wire i n) (f_data f)) (f_synced f)]> (dk_files d)) →
  dk_entries d' = dk_entries d →
  recoverable d' H (length H) s other (Some n).
Proof.
  intros [Hg Hk [Hej Hec] Hj Hc Ho Hn (g & o & o' & Hgf & Hs & Hd & Hx)] Hnext Hcn Hgn Hlt Hf Hw Ee.
  rewrite Hgf in Hf. injection Hf as ->.
  assert (∀ x, x = o ∨ x = o' → x = other ∨ x = slot_wire i n) as Hx'.
  { intros x [?|(n' & E & ->)]%Hx; [by left|right]. destruct Hnext as [->| ->]; [done|]. by injection E as ->. }
  pose proof (len_older_slot i floor Hi s other Ho) as Hlo.
  assert (len o' = 64) as Hlo' by (destruct (Hx' o' (or_intror eq_refl)) as [->| ->]; [done|apply len_wire_slot]).
  split; try done.
  - by rewrite Ee.
  - destruct Hj as (fj & Hfj & ?). exists fj. split; [|done].
    destruct Hw as [->| ->]; [done|]. rewrite lookup_insert_ne; [done|]. apply not_eq_sym, names_differ.
  - intros m [= <-]. done.
  - destruct Hw as [E|E].
    + exists f, o, o'. rewrite E. split_and!; try done. intros x Hxx. destruct (Hx' x Hxx) as [?|?]; [by left|right; by exists n].
    + eexists _, o, (slot_wire i n). rewrite E, lookup_insert_eq. split; [done|]. cbn [f_data f_synced]. split_and!.
      * done.
      * rewrite Hd. unfold prepare_checkpoint_slot. cbn [pc_offset]. rewrite Hgn. apply overwrite_whole; [apply len_wire_slot|done|apply len_wire_slot].
      * intros x [->| ->]; [|right; by exists n]. destruct (Hx' o (or_introl eq_refl)) as [?| ->]; [by left|right; by exists n].
Qed.

(** What the checkpoint shows is synchronized: the old alternate slot, *)
Lemma slots_settled d d' H k s other next f :
  recoverable d H k s other next → dk_files d !! checkpoint_name i = Some f → dk_entries d ⊆ dk_entries d' →
  f_data f = slots_file (ck_slot_generation s) (slot_wire i s) other →
  dk_files d' = <[checkpoint_name i := mkFile (f_data f) (f_data f)]> (dk_files d) →
  recoverable d' H k s other None.
Proof.
  intros [Hg Hk [Hej Hec] (fj & Hfj & Hj) (c & Hc & Hcut) Ho Hn _] Hf Ee Ed Ef.
  split; try done; [set_solver| |by exists c|].
  - exists fj. split; [|done]. rewrite Ef, lookup_insert_ne; [done|]. apply not_eq_sym, names_differ.
  - exists (mkFile (f_data f) (f_data f)), other, other. rewrite Ef, lookup_insert_eq. split_and!; try done.
    intros x [->| ->]; by left.
Qed.
(** or the next slot, which is then current. *)
Lemma slots_advanced d d' H k s other n f :
  recoverable d H k s other (Some n) → dk_files d !! checkpoint_name i = Some f → dk_entries d ⊆ dk_entries d' →
  f_data f = slots_file (ck_slot_generation s) (slot_wire i s) (slot_wire i n) →
  dk_files d' = <[checkpoint_name i := mkFile (f_data f) (f_data f)]> (dk_files d) →
  recoverable d' H k n (slot_wire i s) None.
Proof.
  intros [Hg Hk [Hej Hec] (fj & Hfj & Hj) (c & Hc & Hcut) Ho Hn _] Hf Ee Ed Ef.
  destruct (Hn n eq_refl) as (-> & Hcn & Hgn & Hlt). split; try done; [set_solver| |by exists (length H)| |].
  - exists fj. split; [|done]. rewrite Ef, lookup_insert_ne; [done|]. apply not_eq_sym, names_differ.
  - by eapply older_next.
  - exists (mkFile (f_data f) (f_data f)), (slot_wire i s), (slot_wire i s). rewrite Ef, lookup_insert_eq. split; [done|].
    cbn [f_data f_synced]. rewrite Hgn, slots_file_flip. split_and!; [done|done|]. intros x [->| ->]; by left.
Qed.

(** *** Power loss *)

(** What shows is what was synchronized. *)
Definition settled_disk (d : disk) : Prop :=
  (∀ f, dk_files d !! journal_name i = Some f → f_synced f = f_data f) ∧
  (∀ f, dk_files d !! checkpoint_name i = Some f → f_synced f = f_data f).

Lemma power_loss_recoverable d d' H k s other next :
  recoverable d H k s other next → power_loss i d d' →
  settled_disk d' ∧ ∃ s' other', recoverable d' H k s' other' None.
Proof.
  intros [Hg Hk [Hej Hec] (fj & Hfj & P1 & P2 & P3 & P4) (c & Hc & Hcut) Ho Hn (g & o & o' & Hgf & Hs & Hd & Hx)] [Lj Lc Le].
  destruct (Lj fj Hfj Hej) as (bj & Hsj & Hfj'), (Lc g Hgf Hec) as (bc & Hsc & Hfc'). split.
  { split; intros f Hf; rewrite ?Hfj', ?Hfc' in Hf; by injection Hf as <-. }
  pose proof (len_older_slot i floor Hi s other Ho) as Hlo.
  assert (∀ x, x = o ∨ x = o' → len x = 64) as Hl64.
  { intros x [->|(n & _ & ->)]%Hx; [done|apply len_wire_slot]. }
  assert (∃ x, (x = other ∨ ∃ n, next = Some n ∧ x = slot_wire i n) ∧
    bc = slots_file (ck_slot_generation s) (slot_wire i s) x) as (x & Hxo & ->).
  { destruct Hsc as (a & b & -> & Ha & Hb). rewrite Hs, Hd in *.
    destruct (mixed_slots _ _ _ _ a b (len_wire_slot s) (Hl64 o (or_introl eq_refl)) (Hl64 o' (or_intror eq_refl)) Ha Hb) as [->| ->].
    - exists o. split; [by apply Hx; left|done].
    - exists o'. split; [by apply Hx; right|done]. }
  assert (∃ f, dk_files d' !! journal_name i = Some f ∧ image i (take k H) `prefix_of` f_data f ∧
    f_data f `prefix_of` image i H ∧ image i (take k H) `prefix_of` f_synced f ∧ f_synced f `prefix_of` image i H) as Hj'.
  { exists (mkFile bj bj). cbn [f_data f_synced]. assert (image i (take k H) `prefix_of` bj ∧ bj `prefix_of` image i H) as [? ?].
    { destruct Hsj as [[? ?]|[? ?]]; first [split; [by trans (f_synced fj)|by trans (f_data fj)] | split; [by trans (f_data fj)|by trans (f_synced fj)]]. }
    done. }
  assert (journal_name i ∈ dk_entries d' ∧ checkpoint_name i ∈ dk_entries d') as He' by (split; set_solver).
  destruct Hxo as [->|(n & En & ->)].
  - exists s, other. split; try done; [by exists c|]. eexists _, other, other. split_and!; [exact Hfc'|done|done|].
    intros y [->| ->]; by left.
  - destruct (Hn n En) as (-> & Hcn & Hgn & Hlt). exists n, (slot_wire i s).
    split; try done; [by exists (length H)|by eapply older_next|].
    eexists _, (slot_wire i s), (slot_wire i s). split; [exact Hfc'|]. cbn [f_data f_synced].
    rewrite Hgn, slots_file_flip. split_and!; [done|done|]. intros y [->| ->]; by left.
Qed.

(** *** What an open finds *)

Lemma cut_flat H bytes :
  Forall (admissible i limits) H → bytes `prefix_of` flat H →
  ∃ n tail, (n ≤ length H)%nat ∧ bytes = flat (take n H) ++ tail ∧
    (tail = [] ∨ ∃ a rest, H !! n = Some a ∧ wire a = tail ++ rest ∧ tail ≠ [] ∧ rest ≠ []).
Proof.
  revert bytes. induction H as [|a H IH]; intros bytes Ha Hp.
  - exists 0%nat, []. split_and!; [done| |by left]. by apply prefix_nil_inv in Hp as ->.
  - apply Forall_cons in Ha as [Ha HH]. rewrite flat_cons in Hp. destruct Hp as [rest E].
    destruct (decide (length (wire a) ≤ length bytes)%nat) as [Hle|Hlt].
    + assert (bytes = wire a ++ drop (length (wire a)) bytes) as Eb.
      { rewrite <-(take_drop (length (wire a)) bytes) at 1. f_equal.
        apply (f_equal (take (length (wire a)))) in E. by rewrite take_app_length, take_app_le in E. }
      destruct (IH (drop (length (wire a)) bytes)) as (n & tail & Hn & Et & Hc); [done| |].
      { exists rest. rewrite Eb, <-app_assoc in E. by apply app_inv_head in E. }
      exists (S n), tail. cbn [take length]. rewrite flat_cons, <-app_assoc, <-Et. split_and!; [lia|done|done].
    + exists 0%nat, bytes. split_and!; [lia|done|]. destruct (decide (bytes = [])) as [->|Hne]; [by left|right].
      exists a, (drop (length bytes) (wire a)). split_and!; [done| |done|].
      * rewrite <-(take_drop (length bytes) (wire a)) at 1. f_equal.
        apply (f_equal (take (length bytes))) in E. by rewrite take_app_length, take_app_le in E by lia.
      * intros Hd%(f_equal length). rewrite length_drop in Hd. cbn [length] in Hd. lia.
Qed.

Lemma cut_image H k bytes :
  Forall (admissible i limits) H → (k ≤ length H)%nat →
  image i (take k H) `prefix_of` bytes → bytes `prefix_of` image i H →
  ∃ n tail, (k ≤ n ≤ length H)%nat ∧ bytes = image i (take n H) ++ tail ∧ torn i limits tail ∧
    (tail ≠ [] → (n < length H)%nat).
Proof.
  intros Ha Hk Hlo Hhi. unfold image in *. set (h := header_encode _) in *.
  assert (∃ b, bytes = h ++ b) as [b ->].
  { destruct Hlo as [r ->]. rewrite <-app_assoc. by eexists. }
  apply prefix_app_inv in Hlo. apply prefix_app_inv in Hhi.
  destruct (cut_flat H b Ha Hhi) as (n & tail & Hn & -> & Ht). exists n, tail. split_and!; [|done|by rewrite app_assoc| |].
  - destruct (decide (k ≤ n)%nat) as [|Hlt]; [done|]. exfalso. destruct (lookup_lt_is_Some_2 H n) as [a' Ha']; [lia|].
    apply prefix_length in Hlo. pose proof (flat_take_lt H n k ltac:(lia)) as Hl. rewrite length_app in Hlo.
    destruct Ht as [->|(a & rest & E & Hw & _ & Hr)]; [unfold len in Hl; cbn in Hlo; lia|].
    assert (flat (take (S n) H) = flat (take n H) ++ wire a) as E1.
    { rewrite (take_S_r _ _ a E), flat_app. unfold flat at 2. cbn [fmap list_fmap concat]. by rewrite app_nil_r. }
    assert (flat (take k H) = flat (take (S n) H) ++ flat (drop (S n) (take k H))) as E2.
    { rewrite <-(take_drop (S n) (take k H)) at 1. by rewrite flat_app, take_take, Nat.min_l by lia. }
    rewrite E2, E1, Hw, !length_app in Hlo. destruct rest; [done|]. cbn [length] in Hlo. lia.
  - destruct Ht as [->|(a & rest & E & Hw & ? & ?)]; [by left|right]. exists a, rest. split_and!; try done.
    by eapply Forall_lookup_1.
  - intros Hne. destruct Ht as [->|(a & rest & E & _)]; [done|]. by eapply lookup_lt_Some.
Qed.
End recoverable.
