(* ===== verification/Reopen.v ===== *)
(** * Opening what a crash left

    The barrier of the journal keeps its files recoverable whichever of its
    effects fails, and an open of recoverable files recovers the records whose
    frames are whole, cuts what is torn, and leaves everything it read durable. *)

From S2P Require Import Prelude Bytes Identity Bounded Value Collection Series Registry Admission Wire Layout Crc.
From S2P Require Import Fields Journal Generation Commit Recovery Disk Active Slots Scan Effects Crash.

Section reopen.
Context (i : JournalIdentity) (floor : Z) (limits : ActiveJournalLimits).
Context (Hi : wf i) (Hl : wf limits) (Hf : is_u64 floor).
Local Abbreviation recoverable := (recoverable i floor limits).
Local Abbreviation cut_at := (cut_at floor).

(** ** Bounds *)

Lemma limits_decode : ∃ decode, decode_limits limits = Ok decode.
Proof.
  wf_split Hl. unfold active_limits_new in *. unfold decode_limits, decode_limits_new.
  destruct (decide (_ ∨ _)) as [|Hn]; [done|]. rewrite decide_False by tauto. by eexists.
Qed.
Lemma limits_bounds : 0 ≤ record_limit limits ≤ MAX_ACTIVE_JOURNAL_RECORDS ∧
  JOURNAL_V1_HEADER_LEN ≤ active_bytes_limit limits ≤ MAX_ACTIVE_JOURNAL_BYTES.
Proof.
  clear Hf. wf_split Hl. unfold active_limits_new in *. destruct (decide (_ ∨ _)) as [|Hn]; [done|].
  repeat match goal with H : Is_true (in_range _ _ _) |- _ => apply in_range_spec in H end. lia.
Qed.

Lemma len_header : len (header_encode (mkHeader (journal_store_id i))) = JOURNAL_V1_HEADER_LEN.
Proof.
  pose proof (store_wf i Hi) as Hw. unfold header_encode. cbn [header_store_id].
  rewrite header_layout by (by apply len_into_bytes). rewrite !len_app, !len_be_bytes, len_into_bytes by done. done.
Qed.
Lemma len_image H : len (image i H) = end_of H.
Proof. unfold image, end_of. by rewrite len_app, len_header. Qed.
Lemma end_of_mono H m n : (m ≤ n ≤ length H)%nat → end_of (take m H) ≤ end_of (take n H).
Proof.
  intros Hmn. destruct (decide (m = n)) as [->|]; [lia|]. pose proof (end_of_take_lt H m n). lia.
Qed.
Lemma good_end H n : good i floor limits H → (n ≤ length H)%nat → end_of (take n H) ≤ MAX_ACTIVE_JOURNAL_BYTES.
Proof.
  intros Hg Hn. pose proof (end_of_mono H n (length H) ltac:(lia)) as He. rewrite (take_ge H (length H)) in He by done.
  destruct Hg as [_ _ _ Hb]. pose proof limits_bounds. lia.
Qed.

(** The last sequence number of a numbered history. *)
Lemma last_sequence H off :
  numbered floor H → sequence_or floor (last (placed off H)) = floor + len H.
Proof.
  intros Hn. unfold sequence_or. pose proof (last_placed off H) as El.
  destruct (last H) as [a|] eqn:Ea; destruct (last (placed off H)) as [r|] eqn:Er; try done.
  - cbn in El |- *. injection El as ->. rewrite last_lookup in Ea. rewrite (Hn _ _ Ea).
    assert (length H ≠ 0%nat) by (by destruct H). unfold len. lia.
  - apply last_None in Ea as ->. unfold len. cbn. lia.
Qed.

(** The cutoff a barrier or an adoption writes. *)
Definition next_of (H : list DecodedAdmissionV1) (s : CheckpointState) : CheckpointState :=
  mkCheckpoint (ck_slot_generation s + 1) (floor + len H) (end_of H).
Lemma next_cut H c s :
  good i floor limits H → cut_at H c s → (c < length H)%nat →
  cut_at H (length H) (next_of H s) ∧ ck_slot_generation (next_of H s) = ck_slot_generation s + 1 ∧
  ck_append_sequence s < ck_append_sequence (next_of H s) ∧
  checked_add u64_max (ck_slot_generation s) 1 = Some (ck_slot_generation s + 1).
Proof.
  intros Hg [Hw Hgen Hc Ha He] Hlt. pose proof limits_bounds. pose proof (good_end H (length H) Hg ltac:(lia)) as Hend.
  rewrite (take_ge H (length H)) in Hend by done. destruct Hg as [Hadm Hnum Hrec _]. pose proof (end_of_pos H).
  destruct (lookup_lt_is_Some_2 H (length H - 1)) as [a Hla]; [lia|].
  pose proof (Forall_lookup_1 _ _ _ _ Hadm Hla) as [_ Hs _ _ _]. apply in_range_spec in Hs. cbn in Hs.
  rewrite (Hnum _ _ Hla) in Hs. apply in_range_spec in Hf.
  unfold MAX_ACTIVE_JOURNAL_RECORDS, MAX_ACTIVE_JOURNAL_BYTES, JOURNAL_V1_HEADER_LEN, len in *.
  split_and!; [|done|cbn [next_of ck_append_sequence]; unfold len; lia|].
  - split; cbn [ck_slot_generation ck_append_sequence ck_end_offset next_of].
    + wf_intro; apply in_range_spec; cbn; unfold u64_max, len in *; lia.
    + lia.
    + lia.
    + done.
    + by rewrite take_ge.
  - apply checked_add_ok. unfold u64_max. lia.
Qed.

(** ** The steps of a barrier *)

(** A handle's files: the journal shows exactly the frames of [H]. *)
Definition ready (d : disk) (H : list DecodedAdmissionV1) (k : nat) (s : CheckpointState) (other : list byte)
    (next : option CheckpointState) : Prop :=
  recoverable d H k s other next ∧ data_of d (journal_name i) = image i H.

Lemma aged_same d d' : aged d d' → same_files d d'.
Proof. by intros []. Qed.
Lemma ready_aged d d' H k s other next : aged d d' → ready d H k s other next → ready d' H k s other next.
Proof.
  intros Ha [Hr Hd]. split; [by eapply recoverable_same; [apply aged_same|]|]. by rewrite (aged_data d d').
Qed.
Lemma ready_journal d H k s other next :
  ready d H k s other next → ∃ synced, dk_files d !! journal_name i = Some (mkFile (image i H) synced) ∧
    image i (take k H) `prefix_of` synced ∧ synced `prefix_of` image i H.
Proof.
  intros [[_ _ _ (f & Hfj & _ & _ & P3 & P4) _ _ _ _] Hd]. unfold data_of, file_of in Hd. rewrite Hfj in Hd.
  cbn in Hd. exists (f_synced f). destruct f as [fd fs]. cbn in *. by subst.
Qed.

Lemma sync_journal_step d H k s other next Q R :
  ready d H k s other next →
  (∀ d', since d d' → ready d' H (length H) s other next →
     dk_files d' !! checkpoint_name i = dk_files d !! checkpoint_name i → Q tt d') →
  (∀ e d', since d d' → ¬ quiet d → ready d' H k s other next → R e d') →
  outcome (io OpSyncJournal (sync_all (journal_name i))) d Q R.
Proof.
  intros Hr Hq HR. apply outcome_sync.
  - intros d' Ha. destruct (ready_journal _ _ _ _ _ _ Hr) as (synced & Hfj & P1 & P2). destruct Hr as [Hr Hd].
    rewrite Hd. apply Hq; [by apply since_put, aged_since| |].
    + split; [|unfold data_of, file_of; cbn [put_file with_files dk_files]; by rewrite lookup_insert_eq].
      pose proof Hr as [_ Hk _ _ _ _ _ _].
      pose proof (λ d', journal_changed i floor limits Hi d d' H k s other next (length H) (length H)) as Hj.
      rewrite take_ge in Hj by done. eapply Hj; cbn [put_file with_files dk_files dk_entries f_data f_synced];
        rewrite ?(ag_files _ _ Ha), ?(ag_entries _ _ Ha); done || lia.
    + cbn [put_file with_files dk_files]. rewrite lookup_insert_ne by (apply names_differ). by rewrite (ag_files _ _ Ha).
  - intros e d' Ha Hn. apply HR; [by apply aged_since|done|by eapply ready_aged].
Qed.

Lemma write_slot_step d H s other next n Q R :
  ready d H (length H) s other next → (next = None ∨ next = Some n) → sectors d →
  cut_at H (length H) n → ck_slot_generation n = ck_slot_generation s + 1 → ck_append_sequence s < ck_append_sequence n →
  (∀ d', since d d' → ready d' H (length H) s other (Some n) →
     data_of d' (checkpoint_name i) = slots_file (ck_slot_generation s) (slot_wire i s) (slot_wire i n) → Q tt d') →
  (∀ e d', since d d' → ¬ quiet d → ready d' H (length H) s other (Some n) → R e d') →
  outcome (write_prepared_checkpoint_slot i (prepare_checkpoint_slot i n)) d Q R.
Proof.
  intros [Hr Hd] Hnext Hsec Hcn Hgn Hlt Hq HR. pose proof Hr as [_ _ _ _ _ Ho Hn (f & o & o' & Hfc & _ & Hdc & Hx)].
  assert (data_of d (checkpoint_name i) = f_data f) as Efd by (unfold data_of, file_of; by rewrite Hfc).
  assert (pc_bytes (prepare_checkpoint_slot i n) = slot_wire i n) as Ew.
  { unfold prepare_checkpoint_slot. cbn [pc_bytes]. apply encode_checkpoint_layout, store_wf, Hi. }
  pose proof (len_wire_slot i Hi s) as Hls. pose proof (len_wire_slot i Hi n) as Hln.
  pose proof (len_older_slot i floor Hi s other Ho) as Hlo.
  assert (len o' = 64) as Hlo' by (destruct (Hx o' (or_intror eq_refl)) as [->|(? & _ & ->)]; [done|apply len_wire_slot, Hi]).
  set (off := pc_offset (prepare_checkpoint_slot i n)).
  assert (overwrite off (slot_wire i n) (f_data f) = slots_file (ck_slot_generation s) (slot_wire i s) (slot_wire i n)) as Eow.
  { rewrite Hdc. unfold off, prepare_checkpoint_slot. cbn [pc_offset]. rewrite Hgn. by apply overwrite_whole. }
  assert (∀ d', same_files d d' → ready d' H (length H) s other (Some n)) as Hsame.
  { intros d' Hsf. pose proof Hsf as [Ef Ee]. split; [|unfold data_of, file_of in *; by rewrite Ef].
    eapply (slot_written i floor limits Hi d d' H s other next n f); try done. by left. }
  assert (∀ d', aged d d' → ready (put_data (checkpoint_name i) (overwrite off (slot_wire i n) (f_data f)) d') H (length H) s other (Some n)) as Hnew.
  { intros d' [Ef Ee _ _]. split.
    - eapply (slot_written i floor limits Hi d _ H s other next n f); try done. right. unfold put_data, file_of.
      cbn [put_file with_files dk_files]. by rewrite Ef, Hfc.
    - unfold data_of, file_of, put_data in *. cbn [put_file with_files dk_files].
      rewrite lookup_insert_ne by (apply not_eq_sym, names_differ). by rewrite Ef. }
  unfold write_prepared_checkpoint_slot. apply outcome_bind. unfold io at 1, seek. apply outcome_io_op.
  2:{ intros w e d' Ha Hnq _. apply HR; [by apply aged_since|done|by apply Hsame, aged_same]. }
  intros d1 H1. cbn [outcome map_err_m map_err]. unfold io. apply outcome_write; fold off; rewrite Ew.
  - intros d2 H2. assert (aged d d2) as H02 by (by trans d1). rewrite (aged_data d d1), Efd by done.
    apply Hq; [by apply since_put, aged_since|by apply Hnew|].
    unfold data_of, file_of, put_data. cbn [put_file with_files dk_files]. by rewrite lookup_insert_eq.
  - intros w e d2 H2 Hnq Hw. assert (aged d d2) as H02 by (by trans d1). rewrite (aged_data d d1), Efd by done.
    assert (¬ quiet d) as Hnq' by (intros Hqd; apply Hnq; by eapply since_quiet; [apply aged_since|]).
    apply HR; [by apply since_put, aged_since|done|].
    destruct (Hw (since_sectors _ _ (aged_since _ _ H1) Hsec)) as [->|Hge].
    + rewrite Hdc, take_0.
      assert (overwrite off [] (slots_file (ck_slot_generation s) (slot_wire i s) o') = f_data f) as ->.
      { unfold off, prepare_checkpoint_slot. cbn [pc_offset]. rewrite Hgn, <-(take_0 (slot_wire i n)).
        rewrite overwrite_alternate by done. by rewrite take_0, drop_0. }
      apply Hsame. split; [|apply H02]. unfold put_data, file_of. cbn [put_file with_files dk_files].
      rewrite (ag_files _ _ H02), Hfc. apply insert_id. rewrite Hfc. by destruct f.
    + rewrite take_ge by (unfold len in Hln; lia). by apply Hnew.
Qed.

Lemma sync_new_step d H s other n Q R :
  ready d H (length H) s other (Some n) →
  data_of d (checkpoint_name i) = slots_file (ck_slot_generation s) (slot_wire i s) (slot_wire i n) →
  (∀ d', since d d' → ready d' H (length H) n (slot_wire i s) None → Q tt d') →
  (∀ e d', since d d' → ¬ quiet d → ready d' H (length H) s other (Some n) → R e d') →
  outcome (io OpSyncCheckpoint (sync_all (checkpoint_name i))) d Q R.
Proof.
  intros Hr Hdc Hq HR. apply outcome_sync.
  - intros d' Ha. apply Hq; [by apply since_put, aged_since|]. destruct Hr as [Hr Hd].
    pose proof Hr as [_ _ _ _ _ _ _ (f & o & o' & Hfc & _)]. unfold data_of, file_of in *. rewrite Hfc in *. cbn [default from_option id] in *.
    destruct Ha as [Ef Ee _ _]. split.
    + eapply (slots_advanced i floor limits Hi d _ H _ s other n f); cbn [put_file with_files dk_files dk_entries]; try done.
      * by rewrite Ee.
      * by rewrite Ef.
    + unfold data_of, file_of. cbn [put_file with_files dk_files]. rewrite lookup_insert_ne by (apply not_eq_sym, names_differ).
      by rewrite Ef.
  - intros e d' Ha Hn. apply HR; [by apply aged_since|done|by eapply ready_aged].
Qed.
Lemma sync_old_step d H k s other next Q R :
  ready d H k s other next →
  data_of d (checkpoint_name i) = slots_file (ck_slot_generation s) (slot_wire i s) other →
  (∀ d', since d d' → ready d' H k s other None → Q tt d') →
  (∀ e d', since d d' → ¬ quiet d → ready d' H k s other next → R e d') →
  outcome (io OpSyncCheckpoint (sync_all (checkpoint_name i))) d Q R.
Proof.
  intros Hr Hdc Hq HR. apply outcome_sync.
  - intros d' Ha. apply Hq; [by apply since_put, aged_since|]. destruct Hr as [Hr Hd].
    pose proof Hr as [_ _ _ _ _ _ _ (f & o & o' & Hfc & _)]. unfold data_of, file_of in *. rewrite Hfc in *. cbn [default from_option id] in *.
    destruct Ha as [Ef Ee _ _]. split.
    + eapply (slots_settled i floor limits Hi d _ H _ s other next f); cbn [put_file with_files dk_files dk_entries]; try done.
      * by rewrite Ee.
      * by rewrite Ef.
    + unfold data_of, file_of. cbn [put_file with_files dk_files]. rewrite lookup_insert_ne by (apply not_eq_sym, names_differ).
      by rewrite Ef.
  - intros e d' Ha Hn. apply HR; [by apply aged_since|done|by eapply ready_aged].
Qed.

(** ** What is read *)

Lemma create_artifact_existing name f d (R : ActiveJournalError → disk → Prop) :
  dk_files d !! name = Some f → (∀ e d', aged d d' → R e d') → outcome (create_artifact name) d (λ _ _, False) R.
Proof.
  intros Hn HR. unfold create_artifact, create_new_file. apply outcome_io_op; [|intros w e d' Ha _ _; by apply HR].
  intros d' Ha. unfold outcome, map_err_m. rewrite (ag_files _ _ Ha), Hn. cbn [map_err]. by apply HR.
Qed.

(** A checkpoint of two slots is not initialized again. *)
Lemma open_checkpoint_existing d jl f (Q : option CheckpointState → disk → Prop) (R : ActiveJournalError → disk → Prop) :
  dk_files d !! checkpoint_name i = Some f → len (f_data f) = CHECKPOINT_FILE_LEN →
  (∀ d', aged d d' → Q None d') → (∀ e d', aged d d' → ¬ quiet d → R e d') →
  outcome (open_checkpoint i floor Converge jl) d Q R.
Proof.
  intros Hfc Hlen HQ HR. unfold open_checkpoint. apply outcome_bind, outcome_attempt.
  apply (outcome_reader _ tt); [apply reader_open_artifact| | |].
  { unfold open_artifact, open_existing_file, map_err_m, io_op. cbn [calm dk_events dk_files]. by rewrite Hfc. }
  - intros d1 H1. apply outcome_bind, outcome_ret.
    apply (read_step _ _ (len (f_data f)) d); [apply reader_len|done| | |done].
    { rewrite quiet_len by done. unfold data_of, file_of. cbn [calm dk_files]. by rewrite Hfc. }
    intros d2 H2. rewrite Hlen, decide_False by (intros [? _]; done).
    apply pure_step; [by intros ?|]. by apply outcome_ret, HQ.
  - intros e d1 H1 Hn. apply outcome_bind.
    assert (outcome (fail e : Op (option CheckpointState)) d1 (λ _ _, False) R) as Hfail by (by apply outcome_fail, HR).
    destruct e; try (by eapply outcome_weaken; [exact Hfail|by intros|done]).
    case_decide; [|by eapply outcome_weaken; [exact Hfail|by intros|done]].
    apply outcome_bind. eapply outcome_weaken; [eapply (create_artifact_existing _ f)| |].
    + by rewrite (ag_files _ _ H1).
    + intros e d2 H2. apply (HR e d2); [by trans d1|done].
    + by intros.
    + done.
Qed.


(** The journal shows the first [n] frames and perhaps the start of another. *)
Record found (d : disk) (H : list DecodedAdmissionV1) (n : nat) (tail : list byte) : Prop := {
  fd_count : (n ≤ length H)%nat;
  fd_data : data_of d (journal_name i) = image i (take n H) ++ tail;
  fd_torn : torn i limits tail;
  fd_more : tail ≠ [] → (n < length H)%nat;
  fd_size : len (data_of d (journal_name i)) ≤ active_bytes_limit limits }.

Lemma recoverable_found d H k s other next :
  recoverable d H k s other next → ∃ n tail, (k ≤ n)%nat ∧ found d H n tail.
Proof.
  intros [Hg Hk _ (f & Hfj & P1 & P2 & _ & _) _ _ _ _]. pose proof Hg as [Hadm _ _ Hb].
  destruct (cut_image i limits H k (f_data f)) as (n & tail & Hn & E & Ht & Hm); try done.
  assert (data_of d (journal_name i) = f_data f) as Ed by (unfold data_of, file_of; by rewrite Hfj).
  exists n, tail. split; [lia|]. split; try done; [lia|by rewrite Ed|].
  apply prefix_length in P2. rewrite Ed. pose proof (len_image H) as Hli. unfold len in *. lia.
Qed.

Lemma scan_found d H n tail c s :
  good i floor limits H → found d H n tail → cut_at H c s → (c ≤ n)%nat →
  scan_journal i limits s floor (len (data_of d (journal_name i))) (calm d) =
  (Ok (mkScan (placed JOURNAL_V1_HEADER_LEN (take n H)) (end_of (take n H))
         (if decide (tail = []) then None else Some (end_of (take n H))) None), calm d).
Proof.
  intros Hg [Hn Ed Ht Hm Hsize] Hc Hcn. destruct limits_decode as [decode Hdec]. pose proof limits_bounds as [Hrec Hmax].
  pose proof Hg as [Hadm Hnum Hr _]. pose proof (good_take i floor limits H n Hg) as [Hadm' Hnum' _ _].
  assert (data_of (calm d) (journal_name i) = data_of d (journal_name i)) as Ec by apply aged_data, calm_aged.
  apply in_range_spec in Hf. unfold scan_journal.
  assert (∃ prev, floor_sequence floor = Ok prev ∧ ∀ p, prev = Some p → sequence_get p = floor) as (prev & Ep & Hp).
  { unfold floor_sequence. case_decide; [by exists None|]. rewrite (proj2 (sequence_new_Ok floor _)) by (split; done).
    eexists. split; [done|]. by intros p [= <-]. }
  rewrite Ep, (run_bind_Ok _ _ _ prev (calm d)), <-Ec by done.
  rewrite (run_bind_Ok _ _ _ _ _ (scan_loop_image i limits decode Hdec (calm d) (calm_quiet d) ltac:(rewrite Ec; lia) s (take n H)
    (Z.to_nat (record_limit limits)) JOURNAL_V1_HEADER_LEN prev floor []
    (header_encode (mkHeader (journal_store_id i))) tail ltac:(rewrite Ec, Ed; unfold image; by rewrite <-app_assoc)
    len_header Ht Hadm' Hnum' Hp ltac:(rewrite length_take; unfold len in *; lia)
    ltac:(intros Hne; specialize (Hm Hne); rewrite length_take; unfold len in *; lia)
    ltac:(right; exists c; rewrite take_take, Nat.min_l by done; split; [rewrite length_take; lia|apply (ca_end _ _ _ _ Hc)]))).
  change ([] ++ placed JOURNAL_V1_HEADER_LEN (take n H)) with (placed JOURNAL_V1_HEADER_LEN (take n H)).
  change (JOURNAL_V1_HEADER_LEN + len (flat (take n H))) with (end_of (take n H)).
  pose proof (cut_genesis _ _ _ _ Hc) as Hgen. pose proof Hc as [_ _ _ Ha He]. pose proof (end_of_mono H c n ltac:(lia)).
  rewrite (run_bind_Ok _ _ _ tt (calm d)) by (apply refuse_false; rewrite He in *; intros [?|[? Hx]]; [lia|by apply Hx, Hgen]).
  rewrite (run_bind_Ok _ _ _ tt (calm d)); [done|]. apply refuse_false. intros Hx. apply Hx. rewrite Ha, He. unfold end_of.
  replace (take c H) with (take c (take n H)) by (by rewrite take_take, Nat.min_l).
  rewrite record_ending_placed by (rewrite length_take; lia). destruct c as [|c]; [cbn; lia|].
  destruct (lookup_lt_is_Some_2 (take n H) c) as [a Hla]; [rewrite length_take; lia|]. rewrite Hla.
  cbn [fmap option_fmap option_map]. unfold sequence_or, sequence_of. cbn [from_option rec_admission].
  rewrite (Hnum' _ _ Hla). lia.
Qed.

(** The slot an open selects: the current one, or the next one where it shows. *)
Definition selected (d : disk) (H : list DecodedAdmissionV1) (k : nat) (s : CheckpointState) (other : list byte)
    (next : option CheckpointState) (c : nat) (sel : CheckpointState) : Prop :=
  (sel = s ∧ data_of d (checkpoint_name i) = slots_file (ck_slot_generation s) (slot_wire i s) other) ∨
  (next = Some sel ∧ k = length H ∧ c = k ∧
   data_of d (checkpoint_name i) = slots_file (ck_slot_generation s) (slot_wire i s) (slot_wire i sel)).

Lemma read_selected d f s other jl c H :
  dk_files d !! checkpoint_name i = Some f → cut_at H c s → ck_end_offset s ≤ jl → older_slot i floor s other →
  f_data f = slots_file (ck_slot_generation s) (slot_wire i s) other →
  len (f_data f) = CHECKPOINT_FILE_LEN ∧ read_checkpoint i floor jl (calm d) = (Ok (Some s), calm d).
Proof.
  intros Hfc Hc Hj Ho Ed. pose proof (len_older_slot i floor Hi s other Ho) as Hlo.
  assert (data_of (calm d) (checkpoint_name i) = f_data f) as Ec by (unfold data_of, file_of; cbn [calm dk_files]; by rewrite Hfc).
  assert (len (f_data f) = CHECKPOINT_FILE_LEN) as Hlen by (rewrite Ed; apply len_slots_file; [apply len_wire_slot, Hi|done]).
  split; [done|]. unfold read_checkpoint. rewrite (run_bind_Ok _ _ _ (f_data f) (calm d)).
  - unfold lift. rewrite Ed, (select_current i floor jl); try done; [by destruct Hc|by eapply cut_contract].
  - rewrite quiet_read by (try done; rewrite Ec, Hlen; done). rewrite Ec, Z.add_0_l, slice_all; [done|]. by rewrite Hlen.
Qed.
Lemma recoverable_selected d H k s other next jl :
  recoverable d H k s other next → end_of (take k H) ≤ jl →
  ∃ f sel c, dk_files d !! checkpoint_name i = Some f ∧ len (f_data f) = CHECKPOINT_FILE_LEN ∧
    cut_at H c sel ∧ (c ≤ k)%nat ∧ selected d H k s other next c sel ∧
    read_checkpoint i floor jl (calm d) = (Ok (Some sel), calm d).
Proof.
  intros [Hg Hk _ _ (c & Hck & Hc) Ho Hn (f & o & o' & Hfc & _ & Hd & Hx)] Hj.
  assert (data_of d (checkpoint_name i) = f_data f) as Ed by (unfold data_of, file_of; by rewrite Hfc).
  destruct (Hx o' (or_intror eq_refl)) as [->|(n & -> & ->)].
  - destruct (read_selected d f s other jl c H) as [Hlen Hread]; try done.
    { rewrite (ca_end _ _ _ _ Hc). pose proof (end_of_mono H c k). lia. }
    exists f, s, c. split_and!; try done. left. split; [done|by rewrite Ed].
  - destruct (Hn n eq_refl) as (-> & Hcn & Hgn & Hlt).
    destruct (read_selected d f n (slot_wire i s) jl (length H) H) as [Hlen Hread]; try done.
    { by rewrite (ca_end _ _ _ _ Hcn). }
    { by eapply older_next. }
    { by rewrite Hd, Hgn, slots_file_flip. }
    exists f, n, (length H). split_and!; try done. right. split_and!; try done. by rewrite Ed.
Qed.

(** ** What is changed *)

Definition cut_of (H : list DecodedAdmissionV1) (tail : list byte) : option Z :=
  if decide (tail = []) then None else Some (end_of H).

(** The torn rest is cut off, durably. *)
Lemma cut_step d H k s other next n tail (Q : () → disk → Prop) (R : ManifestRootOpenError → disk → Prop) :
  recoverable d H k s other next → found d H n tail → (k ≤ n)%nat →
  (∀ f, dk_files d !! journal_name i = Some f → f_synced f `prefix_of` f_data f) →
  (∀ d' k', since d d' → (k ≤ k' ≤ n)%nat → ready d' (take n H) k' s other next →
     data_of d' (checkpoint_name i) = data_of d (checkpoint_name i) → Q tt d') →
  (∀ e d', since d d' → ¬ quiet d → recoverable d' H k s other next → R e d') →
  outcome (match cut_of (take n H) tail with
           | Some truncate_to =>
             _ ← active (io OpTruncate (set_len (journal_name i) truncate_to));
             active (io OpSyncJournal (sync_all (journal_name i)))
           | None => mret tt
           end) d Q R.
Proof.
  intros Hr [Hn Ed _ Hm _] Hkn Hsd HQ HR. unfold cut_of. pose proof Hr as [_ _ _ (f & Hfj & P1 & P2 & P3 & P4) _ _ Hnx _].
  assert (f_data f = image i (take n H) ++ tail) as Ef by (unfold data_of, file_of in Ed; by rewrite Hfj in Ed).
  specialize (Hsd f Hfj). case_decide as Ht.
  - apply outcome_ret. apply (HQ d k); [done|lia| |done]. subst tail. rewrite app_nil_r in *. split; [|by rewrite Ed].
    eapply (journal_changed i floor limits Hi d d H k s other next n k f); rewrite ?Ef; try done.
    + by rewrite insert_id.
    + intros Hne. destruct next as [m|]; [|done]. by destruct (Hnx m eq_refl).
    + by apply image_take_prefix.
    + by rewrite <-Ef.
  - specialize (Hm Ht). assert (next = None) as ->.
    { destruct next as [m|]; [|done]. destruct (Hnx m eq_refl). lia. }
    assert (resize (end_of (take n H)) (f_data f) = image i (take n H)) as Eres.
    { unfold resize. rewrite Ef, <-len_image, len_app. pose proof (len_nonneg tail).
      replace (Z.to_nat (len (image i (take n H)) - (len (image i (take n H)) + len tail))) with 0%nat by lia.
      unfold len. rewrite Nat2Z.id, take_app_length. cbn [zeros replicate]. by rewrite app_nil_r. }
    apply outcome_bind. unfold active. apply outcome_map_err. unfold io.
    apply outcome_set_len; [|intros e d1 H1 Hnq; apply HR; [by apply aged_since|done|by eapply recoverable_same; [apply aged_same|]]].
    intros d1 H1. assert (data_of d (journal_name i) = f_data f) as -> by (by rewrite Ed). rewrite Eres.
    set (cut := put_data _ _ d1).
    assert (dk_files cut = <[journal_name i := mkFile (image i (take n H)) (f_synced f)]> (dk_files d)) as Efc.
    { unfold cut, put_data, file_of. cbn [put_file with_files dk_files]. by rewrite (ag_files _ _ H1), Hfj. }
    assert (dk_entries cut = dk_entries d) as Eec by apply H1.
    assert (since d cut) as Hsc by (by apply since_put, aged_since).
    apply outcome_map_err, outcome_sync.
    + intros d2 H2. apply (HQ _ n); [apply since_put; by trans cut; [|apply aged_since]|lia| |].
      * assert (data_of cut (journal_name i) = image i (take n H)) as ->
          by (unfold data_of, file_of; by rewrite Efc, lookup_insert_eq).
        split; [|unfold data_of, file_of; cbn [put_file with_files dk_files]; by rewrite lookup_insert_eq].
        eapply (journal_changed i floor limits Hi d _ H k s other None n n);
          cbn [put_file with_files dk_files dk_entries f_data f_synced]; rewrite ?(ag_files _ _ H2), ?(ag_entries _ _ H2), ?Efc, ?Eec;
          try done; [by rewrite insert_insert_eq|..]; reflexivity.
      * unfold data_of, file_of. cbn [put_file with_files dk_files].
        rewrite lookup_insert_ne, (ag_files _ _ H2), Efc, lookup_insert_ne by (apply names_differ). done.
    + intros e d2 H2 Hnq. apply HR; [by trans cut; [|apply aged_since]| |].
      { intros Hq. apply Hnq. by apply (since_quiet d). }
      pose proof (λ d', journal_changed i floor limits Hi d d' H k s other None (length H) k) as Hj.
      rewrite (take_ge H (length H)) in Hj by done. pose proof Hr as [_ Hk _ _ _ _ _ _].
      eapply (Hj _ (mkFile (image i (take n H)) (f_synced f))); cbn [f_data f_synced];
        rewrite ?(ag_files _ _ H2), ?(ag_entries _ _ H2), ?Efc, ?Eec; try done.
      * by apply image_take_prefix.
      * by trans (f_data f); [rewrite Ef; apply prefix_app_r|].
Qed.

Lemma cut_at_take H n c s : cut_at H c s → (c ≤ n ≤ length H)%nat → cut_at (take n H) c s.
Proof.
  intros [? ? ? ? He] Hn. split; try done; [rewrite length_take; lia|]. by rewrite take_take, Nat.min_l by lia.
Qed.
Lemma cut_at_same H m n : cut_at H (length H) m → ck_slot_generation m = ck_slot_generation n + 1 → m = next_of H n.
Proof. intros [_ _ _ Ha He] Hg. rewrite take_ge in He by done. destruct m. unfold next_of, len. cbn in *. by subst. Qed.
Lemma cut_ahead H c s : cut_at H c s → ck_end_offset s < end_of H ↔ (c < length H)%nat.
Proof.
  intros [_ _ Hc _ ->]. split.
  - intros Hlt. destruct (decide (c = length H)) as [->|]; [|lia]. rewrite take_ge in Hlt by done. lia.
  - intros Hlt. pose proof (end_of_take_lt H c (length H) ltac:(lia)) as He. rewrite (take_ge H (length H)) in He by done. lia.
Qed.

(** The adoption of the records after the cutoff, and what is synchronized where
    there are none. *)
Definition adoption_of (H : list DecodedAdmissionV1) (sel : CheckpointState) : option CheckpointState :=
  if decide (end_of H > ck_end_offset sel) then Some (next_of H sel) else None.
Lemma settle_step d H k s other next c sel (Q : CheckpointState → disk → Prop) (R : ManifestRootOpenError → disk → Prop) :
  ready d H k s other next → selected d H k s other next c sel → cut_at H c sel → (c ≤ k)%nat → sectors d →
  (∀ d' s' other', since d d' → ready d' H (length H) s' other' None → cut_at H (length H) s' → Q s' d') →
  (∀ e d' k' next', since d d' → ¬ quiet d → (k ≤ k')%nat → ready d' H k' s other next' → R e d') →
  outcome (match adoption_of H sel with
           | Some next =>
             _ ← active (io OpSyncJournal (sync_all (journal_name i)));
             _ ← active (write_prepared_checkpoint_slot i (prepare_checkpoint_slot i next));
             _ ← active (io OpSyncCheckpoint (sync_all (checkpoint_name i)));
             mret next
           | None => _ ← active (io OpSyncCheckpoint (sync_all (checkpoint_name i))); mret sel
           end) d Q R.
Proof.
  intros Hr Hsel Hc Hck Hsec HQ HR. pose proof (cut_ahead H c sel Hc) as Hahead.
  pose proof Hr as [[Hg Hk _ _ _ _ Hnx _] _]. unfold adoption_of, active. case_decide as Had.
  - assert (c < length H)%nat as Hlt by (apply Hahead; lia).
    destruct Hsel as [[-> Ecp]|(-> & -> & -> & _)]; [|lia].
    destruct (next_cut H c s Hg Hc Hlt) as (Hnc & Hng & Hna & _). set (nx := next_of H s) in *.
    assert (next = None ∨ next = Some nx) as Hnext.
    { destruct next as [m|]; [right|by left]. destruct (Hnx m eq_refl) as (-> & Hcm & Hgm & _). f_equal. by apply cut_at_same. }
    apply outcome_bind, outcome_map_err. apply (sync_journal_step d H k s other next); [done| |].
    2:{ intros e d1 H1 Hn Hr1. by apply (HR _ d1 k next). }
    intros d1 H1 Hr1 _. apply outcome_bind, outcome_map_err.
    assert (∀ d', since d1 d' → since d d') as Hs by (intros d' ?; by trans d1).
    assert (¬ quiet d1 → ¬ quiet d) as Hq by (intros Hn Hq; apply Hn; by apply (since_quiet d)).
    apply (write_slot_step d1 H s other next nx); try done; [by apply (since_sectors d)| |].
    2:{ intros e d2 H2 Hn Hr2. apply (HR _ d2 (length H) (Some nx)); auto. }
    intros d2 H2 Hr2 Ecp2. apply outcome_bind, outcome_map_err. apply (sync_new_step d2 H s other nx); try done.
    + intros d3 H3 Hr3. apply outcome_ret. apply (HQ d3 nx (slot_wire i s)); [|done|done]. apply Hs. by trans d2.
    + intros e d3 H3 Hn Hr3. apply (HR _ d3 (length H) (Some nx)); [apply Hs; by trans d2| |done|done].
      apply Hq. intros Hq1. apply Hn. by apply (since_quiet d1).
  - assert (c = length H) as -> by (destruct Hc as [_ _ ? _ _]; lia). assert (k = length H) as -> by lia.
    apply outcome_bind, outcome_map_err. destruct Hsel as [[-> Ecp]|(-> & _ & _ & Ecp)].
    + apply (sync_old_step d H (length H) s other next); try done.
      * intros d1 H1 Hr1. apply outcome_ret. by apply (HQ d1 s other).
      * intros e d1 H1 Hn Hr1. by apply (HR _ d1 (length H) next).
    + apply (sync_new_step d H s other sel); try done.
      * intros d1 H1 Hr1. apply outcome_ret. by apply (HQ d1 sel (slot_wire i s)).
      * intros e d1 H1 Hn Hr1. by apply (HR _ d1 (length H) (Some sel)).
Qed.

(** ** The open *)

(** A handle that can write, on files of which nothing it has is lost. *)
Record live (aj : ActiveJournal) (d : disk) (H : list DecodedAdmissionV1) (k : nat) : Prop := {
  lv_identity : aj_identity aj = i;
  lv_limits : aj_limits aj = limits;
  lv_writable : aj_write_state aj = Writable;
  lv_bytes : aj_active_bytes aj = end_of H;
  lv_records : aj_records aj = placed JOURNAL_V1_HEADER_LEN H;
  lv_ready : ∃ other, ready d H k (aj_checkpoint_state aj) other None;
  lv_cut : cut_at H k (aj_checkpoint_state aj) }.

(** Files from which the first [k] records of [H] will be recovered, and from
    which the next open may read the rest. *)
Definition holds (d : disk) (H : list DecodedAdmissionV1) (k : nat) : Prop :=
  ∃ s other next, recoverable d H k s other next.
Definition openable (d : disk) : Prop :=
  ∀ f, dk_files d !! journal_name i = Some f → f_synced f `prefix_of` f_data f.

Lemma read_header d H n tail :
  found d H n tail → JOURNAL_V1_HEADER_LEN ≤ len (data_of d (journal_name i)) ∧
  slice 0 (0 + JOURNAL_V1_HEADER_LEN) (data_of d (journal_name i)) = header_encode (mkHeader (journal_store_id i)).
Proof.
  intros [_ Ed _ _ _]. rewrite Ed, len_app, len_image. pose proof (end_of_pos (take n H)). pose proof (len_nonneg tail).
  split; [lia|]. unfold image. rewrite <-app_assoc. apply slice_app_0, len_header.
Qed.

(** What an open changes. *)
Lemma open_effects d H k s other next c sel n tail sc Q R :
  recoverable d H k s other next → openable d → sectors d → found d H n tail → (k ≤ n)%nat →
  selected d H k s other next c sel → cut_at H c sel → (c ≤ k)%nat →
  (∀ aj d', since d d' → live aj d' (take n H) n → Q (aj, None) d') →
  (∀ e d' m k', since d d' → ¬ quiet d → (k ≤ k' ≤ m)%nat → (m ≤ length H)%nat → holds d' (take m H) k' → R e d') →
  outcome (_ ← match cut_of (take n H) tail with
               | Some truncate_to =>
                 _ ← active (io OpTruncate (set_len (journal_name i) truncate_to));
                 active (io OpSyncJournal (sync_all (journal_name i)))
               | None => mret tt
               end;
           checkpoint_state ←
             match adoption_of (take n H) sel with
             | Some next =>
               _ ← active (io OpSyncJournal (sync_all (journal_name i)));
               _ ← active (write_prepared_checkpoint_slot i (prepare_checkpoint_slot i next));
               _ ← active (io OpSyncCheckpoint (sync_all (checkpoint_name i)));
               mret next
             | None => _ ← active (io OpSyncCheckpoint (sync_all (checkpoint_name i))); mret sel
             end;
           mret (mkActive i limits checkpoint_state (end_of (take n H)) (placed JOURNAL_V1_HEADER_LEN (take n H)) sc Writable,
                 None : option ActiveRecoveryPlan)) d Q R.
Proof.
  intros Hr Hop Hsec Hfd Hkn Hsel Hc Hck HQ HR. pose proof Hfd as [Hn _ _ _ _]. pose proof Hr as [_ Hk _ _ _ _ _ _].
  assert (length (take n H) = n) as Hlen by (rewrite length_take; lia).
  apply outcome_bind. eapply (cut_step d H k s other next n tail); try done.
  2:{ intros e d1 H1 Hq Hr1. apply (HR e d1 (length H) k); try done. rewrite take_ge by done. by exists s, other, next. }
  intros d1 k' H1 Hk' Hr1 Ecp. apply outcome_bind.
  assert (selected d1 (take n H) k' s other next c sel) as Hsel1.
  { unfold selected. rewrite Ecp, Hlen. destruct Hsel as [?|(? & ? & ? & ?)]; [by left|right]. split_and!; [done|lia|lia|done]. }
  apply (settle_step d1 (take n H) k' s other next c sel); try done; [by apply cut_at_take; [|lia]|lia|by apply (since_sectors d)| |].
  - intros d2 s' other' H2 Hr2 Hc2. rewrite Hlen in *. apply outcome_ret, HQ; [by trans d1|]. split; try done. by exists other'.
  - intros e d2 k2 next' H2 Hq Hk2 Hr2. pose proof Hr2 as [[_ Hk2' _ _ _ _ _ _] _]. rewrite Hlen in Hk2'.
    apply (HR e d2 n k2); [by trans d1| |lia|lia|by exists s, other, next'; apply Hr2].
    intros Hqd. apply Hq. by apply (since_quiet d).
Qed.

(** The journal is opened, locked and recognized. *)
Lemma open_journal_step {A} d H n tail (K : Z → RootOp A) Q R :
  is_Some (dk_files d !! journal_name i) → found d H n tail →
  (∀ e d', aged d d' → ¬ quiet d ∨ dk_locked d = true → R e d') →
  (∀ d', aged d d' → outcome (K (len (data_of d (journal_name i)))) d' Q R) →
  outcome (_ ← active (open_artifact (journal_name i));
           _ ← active lock_journal;
           journal_len ← active (io OpMetadata (file_len (journal_name i)));
           _ ← refuse_if (journal_len < JOURNAL_V1_HEADER_LEN ∨ journal_len > active_bytes_limit limits) (RootActive InvalidLayout);
           _ ← refuse_if (Converge = ManifestGenesis ∧ journal_len ≠ JOURNAL_V1_HEADER_LEN) (RootActive InvalidLayout);
           header_bytes ← active (io OpRead (read_exact (journal_name i) 0 JOURNAL_V1_HEADER_LEN));
           header ← lift (map_err (λ e, RootActive (JournalError e)) (header_decode header_bytes));
           _ ← refuse_if (header_store_id header ≠ journal_store_id i) (RootActive StoreMismatch);
           K journal_len) d Q R.
Proof.
  intros [fj Hfj] Hfd HR' HK. pose proof (read_header _ _ _ _ Hfd) as [Hmin Hhead]. pose proof Hfd as [_ _ _ _ Hsize].
  assert (∀ e d', aged d d' → ¬ quiet d → R e d') as HR by auto.
  apply (read_step _ _ tt d); [apply reader_active; auto with och|done| | |done].
  { unfold active, map_err_m, open_artifact, map_err_m, open_existing_file, io_op. cbn [calm dk_events dk_files]. by rewrite Hfj. }
  intros d1 H1. apply outcome_bind. unfold active at 1. apply outcome_map_err, outcome_lock.
  2:{ intros e d2 H2 Hq. apply HR'; [by trans d1|]. rewrite (ag_locked _ _ H1) in Hq. destruct Hq as [Hq|?]; [left|by right].
      intros ?. apply Hq. by apply (since_quiet d); [apply aged_since|]. }
  intros d2 H2. assert (aged d d2) as H02 by (by trans d1).
  apply (read_step _ _ (len (data_of d (journal_name i))) d); [apply reader_active, reader_len|done| | |done].
  { unfold active, map_err_m. rewrite quiet_len by done. by rewrite <-(aged_data d (calm d)) by apply calm_aged. }
  intros d3 H3. apply pure_step; [lia|]. apply pure_step; [by intros [? _]|].
  apply (read_step _ _ (header_encode (mkHeader (journal_store_id i))) d); [apply reader_active, reader_read|done| | |done].
  { unfold active, map_err_m. rewrite quiet_read; rewrite ?(aged_data d (calm d)) by apply calm_aged; [by rewrite Hhead|done|lia]. }
  intros d4 H4. unfold header_encode. cbn [header_store_id]. rewrite decode_encoded_header by apply store_wf, Hi.
  apply (read_step _ _ (mkHeader (journal_store_id i)) d); [apply reader_lift|done|done| |done].
  intros d5 H5. apply pure_step; [by intros ?|]. by apply HK.
Qed.

Lemma open_existing_recovers d H k :
  holds d H k → openable d → sectors d →
  outcome (open_existing i floor limits Converge None) d
    (λ p d', p.2 = None ∧ ∃ n, (k ≤ n ≤ length H)%nat ∧ live p.1 d' (take n H) n)
    (λ e d', (¬ quiet d ∨ dk_locked d = true) ∧ ∃ n k', (k ≤ k' ≤ n)%nat ∧ (n ≤ length H)%nat ∧ holds d' (take n H) k').
Proof.
  intros (s & other & next & Hr) Hop Hsec. pose proof Hr as [Hg Hk _ (fj & Hfj & _) _ _ _ _].
  destruct (recoverable_found _ _ _ _ _ _ Hr) as (n & tail & Hkn & Hfd).
  pose proof Hfd as [Hn Ed _ _ _].
  set (R := λ (e : ManifestRootOpenError) (d' : disk), _).
  assert (∀ e d', ¬ quiet d ∨ dk_locked d = true → recoverable d' H k s other next → R e d') as HRsame.
  { intros e d' Hq Hr'. split; [done|]. exists (length H), k. rewrite take_ge by done. split_and!; try done. by exists s, other, next. }
  assert (∀ e d', aged d d' → ¬ quiet d ∨ dk_locked d = true → R e d') as HR'.
  { intros e d' Ha Hq. apply HRsame; [done|]. by eapply recoverable_same; [apply aged_same|]. }
  assert (∀ e d', aged d d' → ¬ quiet d → R e d') as HR by auto.
  unfold open_existing. apply (open_journal_step d H n tail); [by eexists|done|done|].
  intros d5 H5. apply outcome_bind. unfold active at 1. apply outcome_map_err.
  set (jl := len (data_of d (journal_name i))) in *.
  assert (end_of (take n H) ≤ jl) as Hjl by (unfold jl; rewrite Ed, len_app, len_image; pose proof (len_nonneg tail); lia).
  pose proof (end_of_mono H k n ltac:(lia)) as Hmono.
  destruct (recoverable_selected d H k s other next jl Hr ltac:(lia)) as (fc & sel & c & Hfc & Hlen & Hc & Hck & Hsel & Hread).
  assert (¬ quiet d5 → ¬ quiet d) as Hq5.
  { intros Hn5 Hq. apply Hn5. by apply (since_quiet d); [apply aged_since|]. }
  apply (open_checkpoint_existing d5 jl fc); [by rewrite (ag_files _ _ H5)|done| |].
  2:{ intros e d6 H6 Hq. apply HR; [by trans d5|auto]. }
  intros d6 H6. assert (aged d d6) as H06 by (by trans d5).
  apply (read_step _ _ (Some sel) d); [apply reader_active, reader_read_checkpoint|done| | |done].
  { unfold active, map_err_m. by rewrite Hread. }
  intros d7 H7. apply pure_step; [by intros [? _]|]. apply pure_step; [by intros [? _]|].
  apply outcome_bind, outcome_ret. apply pure_step; [by intros ?|].
  apply (read_step _ _ (mkScan (placed JOURNAL_V1_HEADER_LEN (take n H)) (end_of (take n H)) (cut_of (take n H) tail) None) d);
    [apply reader_active, reader_scan_journal|done| | |done].
  { pose proof (scan_found d H n tail c sel Hg Hfd Hc ltac:(lia)) as Es. fold jl in Es. unfold active, map_err_m. by rewrite Es. }
  intros d8 H8. cbn [scan_records scan_valid_end scan_truncate_to scan_recovery_plan].
  apply pure_step; [by intros [? _]|]. cbv zeta.
  pose proof (good_take i floor limits H n Hg) as Hg'. pose proof Hg' as [_ Hnum' _ _].
  rewrite (last_sequence (take n H)) by done.
  pose proof (cut_at_take H n c sel Hc ltac:(lia)) as Hc'.
  apply (read_step _ _ (adoption_of (take n H) sel) d); [reader|done| | |done].
  { unfold adoption_of. destruct (decide (end_of (take n H) > ck_end_offset sel)) as [Hgt|Hle].
    - rewrite decide_True by done. destruct (next_cut (take n H) c sel Hg' Hc') as (_ & _ & _ & ->); [apply (cut_ahead _ _ _ Hc'); lia|done].
    - by rewrite decide_False by (by intros [_ ?]). }
  intros d9 H9. eapply (open_effects d9 H k s other next c sel n tail 0); try done.
  - by eapply recoverable_same; [apply aged_same|].
  - unfold openable. by rewrite (ag_files _ _ H9).
  - by apply (since_sectors d); [apply aged_since|].
  - destruct Hfd. split; by rewrite ?(aged_data d d9).
  - unfold selected. by rewrite (aged_data d d9).
  - intros aj d' Hs Hlive. split; [done|]. by exists n.
  - intros e d' m k' Hs Hq9 Hk' Hm Hh. split; [left|by exists m, k'].
    intros Hq. apply Hq9. by apply (since_quiet d); [apply aged_since|].
Qed.
End reopen.
