(* ===== verification/Handle.v ===== *)
(** * An open journal handle

    Appends and barriers of a handle whose files are recoverable: what they leave
    whichever effect fails, and how a failed handle stops. *)

From S2P Require Import Prelude Bytes Identity Bounded Value Collection Series Registry Admission Wire Layout Crc.
From S2P Require Import Fields Journal Generation Commit Recovery Disk Active Slots Scan Effects Crash Reopen.

(** ** Rules for methods *)

Section methods.
Context {A : Type}.

Lemma outcome_lift {S E} (r : result E A) (s : S) Q R :
  outcome (lift r) s Q R ↔ match r with Ok a => Q a s | Err e => R e s end.
Proof. by destruct r. Qed.
Lemma outcome_effect (m : Op A) aj d Q R :
  outcome (effect m) (aj, d) Q R ↔ outcome m d (λ a d', Q a (aj, d')) (λ e d', R e (aj, d')).
Proof. unfold outcome, effect. cbn. by destruct (m d) as [[a|e] d']. Qed.
Lemma outcome_mutation (m : Op A) aj d Q R :
  outcome (mutation m) (aj, d) Q R ↔
  outcome m d (λ a d', Q a (aj, d')) (λ e d', R e (record_mutation_error e aj, d')).
Proof. unfold outcome, mutation. cbn. by destruct (m d) as [[a|e] d']. Qed.
End methods.
Lemma outcome_self {B} (k : ActiveJournal → Method B) aj d Q R :
  outcome (k aj) (aj, d) Q R → outcome (self ≫= k) (aj, d) Q R.
Proof. intros H. by apply outcome_bind. Qed.
Lemma outcome_lift_step {S E A B} (r : result E A) (k : A → M S E B) s Q R :
  (∀ a, r = Ok a → outcome (k a) s Q R) → (∀ e, r = Err e → R e s) → outcome (lift r ≫= k) s Q R.
Proof. intros HQ HR. apply outcome_bind, outcome_lift. destruct r; auto. Qed.
Lemma outcome_refuse_step {S E B} P `{Decision P} (e : E) (k : () → M S E B) s Q R :
  (¬ P → outcome (k tt) s Q R) → (P → R e s) → outcome (refuse_if P e ≫= k) s Q R.
Proof. intros HQ HR. by apply outcome_bind, outcome_refuse. Qed.

(** A failed mutation stops the handle, and a stopped handle does nothing. *)
Lemma mutation_error_stops e aj : aj_write_state (record_mutation_error e aj) ≠ Writable.
Proof. unfold record_mutation_error. by destruct e. Qed.
Lemma ensure_usable_Ok aj : ensure_usable aj = Ok tt ↔ aj_write_state aj = Writable.
Proof. unfold ensure_usable. by destruct (aj_write_state aj). Qed.

(** ** Frames *)

Lemma frame_layout_sequence s p s' p' :
  is_u64 s → is_u64 s' → frame_layout s p = frame_layout s' p' → s = s'.
Proof.
  intros Hs Hs' E. assert (∀ s p, slice 8 16 (frame_layout s p) = be_bytes 8 s) as Hf.
  { intros t q. unfold frame_layout, frame_prefix. rewrite <-!app_assoc.
    rewrite (app_assoc JOURNAL_V1_FRAME_MAGIC), (app_assoc (_ ++ _) (be_bytes 1 _)), (app_assoc (_ ++ _) (be_bytes 1 _)).
    by apply slice_app; rewrite ?len_app, ?len_be_bytes. }
  apply (f_equal (slice 8 16)) in E. rewrite !Hf in E. apply (f_equal from_be) in E.
  apply in_range_spec in Hs, Hs'. unfold u64_max in *. by rewrite !from_be_bytes_small in E by lia.
Qed.

(** The frame of a preparation decodes to the sequence number it was made for. *)
Lemma prepared_frame_decodes frame p s decode prev a :
  into_frame p s = Ok frame → is_u64 (sequence_get s) →
  decode_admission_frame_v1 (frame_content frame) decode prev = Ok a →
  frame_content frame = wire a ∧ wf a ∧ wf (mkSequence (dec_append_sequence a)) ∧ decoded_contract a ∧
  len (payload_wire a) ≤ max_payload_len decode ∧
  dec_append_sequence a = sequence_get s ∧ frame_append_sequence frame = s.
Proof.
  intros Hf Hs (Hw & Hws & Hp & Hc & Hlen & E)%decode_frame_exact. unfold into_frame in Hf. rewrite frame_bytes_layout in Hf.
  case_decide; [|done]. case_decide; [|done]. injection Hf as <-. cbn [frame_content frame_append_sequence] in *.
  split_and!; try done. symmetry. eapply frame_layout_sequence; [done| |exact E].
  apply in_range_spec in Hws. apply in_range_spec. cbn in Hws. lia.
Qed.
(** What a frame carries, whoever asks. *)
Definition evidence (frame : PreparedFrameV1) : list DecodedAdmissionV1 :=
  match decode_admission_frame_v1 (frame_content frame) decode_limits_maximum None with Ok a => [a] | Err _ => [] end.

Section handle.
Context (i : JournalIdentity) (floor : Z) (limits : ActiveJournalLimits).
Context (Hi : wf i) (Hl : wf limits) (Hf : is_u64 floor).
Local Abbreviation recoverable := (recoverable i floor limits).
Local Abbreviation cut_at := (cut_at floor).
Local Abbreviation ready := (ready i floor limits).
Local Abbreviation live := (live i floor limits).
Local Abbreviation holds := (holds i floor limits).

Lemma evidence_of frame a decode :
  decode_limits limits = Ok decode → frame_content frame = wire a → wf a → wf (mkSequence (dec_append_sequence a)) →
  decoded_contract a → len (payload_wire a) ≤ max_payload_len decode → evidence frame = [a].
Proof.
  intros Hd E Hw Hs Hc Hlen. unfold evidence.
  assert (decode_admission_frame_v1 (frame_content frame) decode_limits_maximum None = Ok a) as ->; [|done].
  apply decode_frame_exact. split_and!; try done. unfold decode_limits, decode_limits_new in Hd.
  destruct (decide _); [done|]. injection Hd as <-. cbn [decode_limits_maximum max_payload_len] in *. lia.
Qed.

Lemma live_aged aj d d' H k : aged d d' → live aj d H k → live aj d' H k.
Proof. intros Ha []. split; try done. destruct lv_ready as [other Hr]. exists other. by eapply ready_aged. Qed.
Lemma ready_left d H k s other next : ready d H k s other next → holds d H k ∧ openable i d.
Proof.
  intros Hr. split; [exists s, other, next; apply Hr|]. destruct (ready_journal _ _ _ _ _ _ _ _ _ Hr) as (synced & Hj & _ & P).
  intros f Hfj. rewrite Hj in Hfj. by injection Hfj as <-.
Qed.
Lemma live_left aj d H k : live aj d H k → holds d H k ∧ openable i d.
Proof. intros [_ _ _ _ _ [other Hr] _]. by eapply ready_left. Qed.
Lemma live_good aj d H k : live aj d H k → good i floor limits H ∧ (k ≤ length H)%nat.
Proof. intros [_ _ _ _ _ [other [[? ? _ _ _ _ _ _] _]] _]. done. Qed.

Lemma live_last aj d H k : live aj d H k → last_append_sequence aj = floor + len H.
Proof.
  intros Hlv. destruct (live_good _ _ _ _ Hlv) as [[_ Hn _ _] Hk]. destruct Hlv as [_ _ _ _ Hr _ [_ _ _ Ha _]].
  pose proof (last_sequence floor H JOURNAL_V1_HEADER_LEN Hn) as El. unfold last_append_sequence, sequence_or in *. rewrite Hr.
  destruct (last (placed JOURNAL_V1_HEADER_LEN H)) as [r|] eqn:E; [done|]. apply last_None in E.
  destruct H; [|done]. cbn in Hk |- *. rewrite Ha. unfold len. cbn. lia.
Qed.
Lemma live_next aj d H k next :
  live aj d H k → next_append_sequence aj = Ok next → sequence_get next = floor + len H + 1 ∧ is_u64 (sequence_get next).
Proof.
  intros Hlv. unfold next_append_sequence. rewrite (proj2 (ensure_usable_Ok aj)) by apply Hlv.
  rewrite (live_last aj d H k) by done. intros (n & (Hn & ->)%checked_add_Some & En)%ok_or_Ok.
  destruct (sequence_new _) as [q|] eqn:E; [|done]. injection En as <-. apply sequence_new_Ok in E as [-> _].
  split; [done|]. apply in_range_spec in Hf. apply in_range_spec. cbn. pose proof (len_nonneg H). lia.
Qed.

Lemma image_snoc H a : image i (H ++ [a]) = image i H ++ wire a.
Proof. unfold image. rewrite flat_app, flat_cons, <-app_assoc. change (flat []) with (@nil byte). by rewrite app_nil_r. Qed.
Lemma placed_snoc H a :
  placed JOURNAL_V1_HEADER_LEN (H ++ [a]) = placed JOURNAL_V1_HEADER_LEN H ++ [mkRecovered (end_of H + len (wire a)) a].
Proof. by rewrite placed_app. Qed.
Lemma end_of_snoc H a : end_of (H ++ [a]) = end_of H + len (wire a).
Proof. unfold end_of. rewrite flat_app, len_app, flat_cons, len_app, len_flat_nil. lia. Qed.

(** ** Append *)

(** What the checks of an append establish. *)
Lemma appendable aj d H k frame p s decode prev a :
  live aj d H k → into_frame p s = Ok frame → next_append_sequence aj = Ok s → decode_limits limits = Ok decode →
  decode_admission_frame_v1 (frame_content frame) decode prev = Ok a → ¬ foreign_scope i a →
  end_of H + len (frame_content frame) ≤ active_bytes_limit limits → len H < record_limit limits →
  frame_content frame = wire a ∧ evidence frame = [a] ∧ good i floor limits (H ++ [a]).
Proof.
  intros Hlv Hfr Hnx Hd Ha Hsc Hb Hr. destruct (live_next _ _ _ _ _ Hlv Hnx) as [Es Hs].
  destruct (prepared_frame_decodes _ _ _ _ _ _ Hfr Hs Ha) as (Ec & Hw & Hws & Hc & Hlen & Eseq & _).
  split; [done|]. split; [by eapply evidence_of|]. destruct (live_good _ _ _ _ Hlv) as [[Hadm Hnum _ _] _]. split.
  - apply Forall_app. split; [done|]. apply Forall_singleton. split; try done.
    unfold decode_limits, decode_limits_new in Hd. destruct (decide _); [done|]. by injection Hd as <-.
  - intros n b [Hb1|[Hge Hb1]]%lookup_app_Some; [by apply Hnum|].
    apply list_lookup_singleton_Some in Hb1 as [Hn <-]. rewrite Eseq, Es. unfold len. lia.
  - rewrite len_app. change (len [a]) with 1. lia.
  - rewrite end_of_snoc, <-Ec. lia.
Qed.

Lemma append_write_step aj d H k frame a (Q : () → ActiveJournal * disk → Prop) R :
  live aj d H k → frame_content frame = wire a → evidence frame = [a] → good i floor limits (H ++ [a]) →
  (∀ d', since d d' → live (pushed (end_of H + len (frame_content frame)) a aj) d' (H ++ [a]) k → Q tt (aj, d')) →
  (∀ e aj' d', aj_write_state aj' ≠ Writable → holds d' (H ++ [a]) k → openable i d' → R e (aj', d')) →
  outcome (mutation (io OpWrite (write_end (journal_name i) (frame_content frame)))) (aj, d) Q R.
Proof.
  intros Hlv Ec Ev Hg HQ HR. pose proof Hlv as [Hid Hlim Hws Hab Hrec [other Hrd] Hcut].
  destruct (ready_journal _ _ _ _ _ _ _ _ _ Hrd) as (synced & Hfj & P1 & P2). destruct Hrd as [Hr Hd].
  assert (∀ w d', aged d d' →
    recoverable (put_data (journal_name i) (image i H ++ take w (wire a)) d') (H ++ [a]) k (aj_checkpoint_state aj) other None) as Hrec'.
  { intros w d' Ha. eapply (journal_appended i floor limits d _ H k _ other a w synced); try done.
    - eexists. by split.
    - unfold put_data, file_of. cbn [put_file with_files dk_files]. by rewrite (ag_files _ _ Ha), Hfj.
    - apply Ha. }
  assert (∀ l d', data_of (put_data (journal_name i) l d') (journal_name i) = l) as Hdata.
  { intros. unfold data_of, file_of, put_data. cbn [put_file with_files dk_files]. by rewrite lookup_insert_eq. }
  apply outcome_mutation. unfold io. apply outcome_write_end; rewrite Hd, Ec.
  - intros d' Ha. apply HQ; [by apply since_put, aged_since|].
    specialize (Hrec' (length (wire a)) d' Ha). rewrite take_ge in Hrec' by done. split; cbn; try done.
    + by rewrite end_of_snoc, Ec.
    + by rewrite placed_snoc, Hrec, Ec.
    + exists other. split; [done|]. by rewrite Hdata, image_snoc.
    + destruct Hcut as [? ? ? ? He]. split; try done; [rewrite length_app; lia|].
      by rewrite take_app_le by (pose proof Hr as [_ Hk _ _ _ _ _ _]; lia).
  - intros w e d' Ha _. apply HR; [apply mutation_error_stops|by eexists _, _, _; apply Hrec'|].
    intros f Hff. unfold put_data, file_of in Hff. cbn [put_file with_files dk_files] in Hff.
    rewrite lookup_insert_eq, (ag_files _ _ Ha), Hfj in Hff. injection Hff as <-.
    assert (synced `prefix_of` image i H ++ take w (wire a)) as Hp by (by apply prefix_app_r). exact Hp.
Qed.

Lemma append_outcome aj d H k frame p s :
  live aj d H k → into_frame p s = Ok frame →
  outcome (append frame) (aj, d)
    (λ e st, live st.1 st.2 (H ++ evidence frame) k ∧ e = end_of (H ++ evidence frame))
    (λ _ st, (st.1 = aj ∧ live aj st.2 H k) ∨
             (aj_write_state st.1 ≠ Writable ∧ holds st.2 (H ++ evidence frame) k ∧ openable i st.2)).
Proof.
  intros Hlv Hfr. set (R := λ (_ : ActiveJournalError) (st : ActiveJournal * disk), _).
  assert (∀ e, R e (aj, d)) as HR by (intros; by left).
  pose proof Hlv as [Hid Hlim _ Hab Hrec _ _]. unfold append. apply outcome_self.
  apply outcome_lift_step; [intros nx Hnx|done]. apply outcome_refuse_step; [intros Hseq|done].
  assert (nx = s) as ->.
  { apply dec_stable in Hseq. unfold into_frame in Hfr. destruct (frame_bytes _ _); [|done]. case_decide; [|done].
    by injection Hfr as <-. }
  apply outcome_lift_step; [intros prev _|done]. apply outcome_lift_step; [intros decode Hdec|done].
  apply outcome_lift_step; [intros a Ha|done]. apply outcome_refuse_step; [intros Hsc|done].
  apply outcome_lift_step; [intros e He|done]. apply outcome_refuse_step; [intros Hrot|done].
  rewrite Hlim in *. rewrite Hid in *. rewrite Hab in *.
  destruct (decode_admission_frame_v1 _ decode prev) as [a'|] eqn:Ea; [|done]. injection Ha as ->.
  destruct (checked_add _ _ _) as [e'|] eqn:Ee; [|done]. injection He as ->. apply checked_add_Some in Ee as [_ ->].
  assert (len (aj_records aj) = len H) as Elen by (rewrite Hrec; unfold len; by rewrite length_placed).
  destruct (appendable aj d H k frame p s decode prev a) as (Ec & Ev & Hg); try done; [tauto|lia|lia|].
  rewrite Ev in *. apply outcome_bind, outcome_effect, outcome_io_op.
  2:{ intros w e d1 H1 _ _. left. split; [done|]. by eapply live_aged. }
  intros d1 H1. cbn [outcome map_err_m map_err]. apply outcome_bind.
  apply (append_write_step aj d1 H k frame a); try done; [by eapply live_aged| |].
  - intros d2 H2 Hlv2. apply outcome_bind. cbn [outcome set_self snd]. apply outcome_ret. cbn [fst snd].
    split; [done|]. by rewrite end_of_snoc, Ec.
  - intros e aj' d2 Hw Hh Ho. right. rewrite Ev. exact (conj Hw (conj Hh Ho)).
Qed.

(** ** Barrier *)

Lemma live_synchronized aj d H k : live aj d H k → synchronized aj ↔ k = length H.
Proof.
  intros Hlv. pose proof (live_last _ _ _ _ Hlv) as El. destruct (live_good _ _ _ _ Hlv) as [_ Hk].
  destruct Hlv as [_ _ _ Hab _ _ [_ _ _ Ha He]]. unfold synchronized. rewrite El, Hab, Ha, He. unfold len. split.
  - lia.
  - intros ->. by rewrite take_ge.
Qed.
Lemma live_pending aj d H k :
  live aj d H k → (k < length H)%nat →
  pending_checkpoint_state (last_append_sequence aj) aj = Ok (next_of floor H (aj_checkpoint_state aj)) ∧
  cut_at H (length H) (next_of floor H (aj_checkpoint_state aj)) ∧
  ck_append_sequence (aj_checkpoint_state aj) < ck_append_sequence (next_of floor H (aj_checkpoint_state aj)).
Proof.
  intros Hlv Hk. pose proof (live_last _ _ _ _ Hlv) as El. destruct (live_good _ _ _ _ Hlv) as [Hg _].
  destruct Hlv as [_ _ _ Hab _ _ Hc]. destruct (next_cut i floor limits Hl Hf H k _ Hg Hc Hk) as (H1 & _ & H3 & H4).
  split_and!; try done. unfold pending_checkpoint_state. by rewrite H4, El, Hab.
Qed.

Lemma live_adopted aj d d' H k other :
  live aj d H k → cut_at H (length H) (next_of floor H (aj_checkpoint_state aj)) →
  ready d' H (length H) (next_of floor H (aj_checkpoint_state aj)) other None →
  live (adopted (next_of floor H (aj_checkpoint_state aj)) aj) d' H (length H).
Proof. intros [? ? ? ? ? _ _] Hc Hr. split; try done. by exists other. Qed.

Lemma sync_outcome aj d H k :
  live aj d H k → sectors d →
  outcome sync_pending (aj, d)
    (λ cutoff st, live st.1 st.2 H (length H) ∧ cutoff = durable_cutoff st.1 ∧ pending_durable_cutoff aj = Ok cutoff)
    (λ _ st, ¬ quiet d ∧ aj_write_state st.1 ≠ Writable ∧ openable i st.2 ∧ ∃ k', (k ≤ k')%nat ∧ holds st.2 H k').
Proof.
  intros Hlv Hsec. set (R := λ (_ : ActiveJournalError) (st : ActiveJournal * disk), _).
  assert (∀ e aj' d' k' s' other next, ¬ quiet d → (k ≤ k')%nat → aj_write_state aj' ≠ Writable →
    ready d' H k' s' other next → R e (aj', d')) as HR.
  { intros e aj' d' k' s' other next Hq Hk' Hw Hr. destruct (ready_left _ _ _ _ _ _ Hr). by split_and!; [..|exists k']. }
  pose proof (live_synchronized _ _ _ _ Hlv) as Hsy. destruct (live_good _ _ _ _ Hlv) as [_ Hk].
  pose proof Hlv as [Hid _ Hw _ _ [other Hrd] _]. unfold sync_pending. apply outcome_self.
  apply outcome_lift_step; [intros _ _|intros e E; by rewrite (proj2 (ensure_usable_Ok aj) Hw) in E].
  case_decide as Hs.
  { apply outcome_ret. rewrite (proj1 Hsy Hs) in Hlv. split_and!; [done..|]. unfold pending_durable_cutoff.
    by rewrite (proj2 (ensure_usable_Ok aj) Hw), decide_True. }
  destruct (live_pending _ _ _ _ Hlv) as (Hp & Hc & Hlt); [lia || by destruct (decide (k = length H)); [tauto|lia]|].
  set (nx := next_of floor H (aj_checkpoint_state aj)) in *. rewrite Hp, Hid. apply outcome_lift_step; [|done]. intros ? [= <-].
  apply outcome_bind, outcome_mutation. apply (sync_journal_step i floor limits Hi d H k (aj_checkpoint_state aj) other None); [done| |].
  2:{ intros e d1 _ Hq Hr1. eapply HR; [done|reflexivity|apply mutation_error_stops|done]. }
  intros d1 H1 Hr1 _. apply outcome_bind, outcome_mutation.
  assert (∀ d', since d d' → ¬ quiet d' → ¬ quiet d) as Hq by (intros d' ? Hn ?; apply Hn; by apply (since_quiet d)).
  apply (write_slot_step i floor limits Hi d1 H (aj_checkpoint_state aj) other None nx); try done; [by left|by apply (since_sectors d)| |].
  2:{ intros e d2 _ Hn Hr2. eapply (HR _ _ d2 (length H)); [by apply (Hq d1)|done|apply mutation_error_stops|done]. }
  intros d2 H2 Hr2 Ecp. assert (since d d2) as H02 by (by trans d1). apply outcome_bind, outcome_mutation.
  apply (sync_new_step i floor limits Hi d2 H (aj_checkpoint_state aj) other nx); try done.
  - intros d3 H3 Hr3. apply outcome_bind. cbn [outcome set_self snd]. apply outcome_ret. cbn [fst snd].
    split_and!; [by eapply live_adopted|by rewrite <-Hid|]. unfold pending_durable_cutoff.
    by rewrite (proj2 (ensure_usable_Ok aj) Hw), decide_False, Hp, Hid by done.
  - intros e d3 _ Hn Hr3. eapply (HR _ _ d3 (length H)); [by apply (Hq d2)|done|apply mutation_error_stops|done].
Qed.

(** ** A stopped handle *)

Lemma append_stopped aj d frame : aj_write_state aj ≠ Writable → ∃ e, append frame (aj, d) = (Err e, (aj, d)).
Proof.
  intros Hw. unfold append, self, lift, next_append_sequence, ensure_usable.
  destruct (aj_write_state aj) eqn:E; [done|..]; eexists; (erewrite run_bind_Ok; [|done]; apply run_bind_Err; cbn [fst]; by rewrite E).
Qed.
Lemma sync_stopped aj d : aj_write_state aj ≠ Writable → ∃ e, sync_pending (aj, d) = (Err e, (aj, d)).
Proof.
  intros Hw. unfold sync_pending, self, lift, ensure_usable.
  destruct (aj_write_state aj) eqn:E; [done|..]; eexists; (erewrite run_bind_Ok; [|done]; apply run_bind_Err; cbn [fst]; by rewrite E).
Qed.

(** ** Creation *)

Lemma create_artifact_new name d (Q : () → disk → Prop) :
  (∀ d', aged d d' → Q tt (put_file name (mkFile [] []) d')) → outcome (create_artifact name) d Q (λ _ _, True).
Proof.
  intros HQ. apply outcome_io_op; [|done]. intros d' Ha. unfold outcome, map_err_m.
  destruct (dk_files d' !! name); cbn [map_err]; [done|by apply HQ].
Qed.
Lemma put_lookup name f d : dk_files (put_file name f d) !! name = Some f.
Proof. apply lookup_insert_eq. Qed.
Lemma put_lookup_ne name other f d : other ≠ name → dk_files (put_file name f d) !! other = dk_files d !! other.
Proof. intros. by apply lookup_insert_ne. Qed.
Lemma data_of_Some d name f : dk_files d !! name = Some f → data_of d name = f_data f ∧ f_synced (file_of d name) = f_synced f.
Proof. unfold data_of, file_of. by intros ->. Qed.

Lemma put_data_of name f d : data_of (put_file name f d) name = f_data f.
Proof. unfold data_of, file_of. by rewrite put_lookup. Qed.

Lemma genesis_cut : cut_at [] 0 (genesis_checkpoint_state floor).
Proof.
  split; cbn; try done; [|lia..]. wf_intro; [done|done|]. by apply in_range_spec.
Qed.
Lemma genesis_recoverable d :
  dk_files d !! journal_name i = Some (mkFile (image i []) (image i [])) →
  (let slots := slots_file 1 (slot_wire i (genesis_checkpoint_state floor)) (zeros 64) in
   dk_files d !! checkpoint_name i = Some (mkFile slots slots)) →
  dk_entries d = dom (dk_files d) →
  ready d [] 0 (genesis_checkpoint_state floor) (zeros 64) None.
Proof.
  intros Hj Hc He. split; [|by apply (data_of_Some _ _ _ Hj)]. pose proof (limits_bounds limits Hl). split; try done.
  - split; [done|by intros ? ?| |]; unfold end_of; rewrite ?len_nil, ?len_flat_nil; lia.
  - rewrite He. split; apply elem_of_dom; by eexists.
  - eexists. split; [exact Hj|]. change (take 0 (@nil DecodedAdmissionV1)) with (@nil DecodedAdmissionV1). done.
  - exists 0%nat. split; [done|apply genesis_cut].
  - by left.
  - eexists _, _, _. split_and!; [exact Hc|done|done|]. intros x [->| ->]; by left.
Qed.

Lemma create_outcome d : outcome (create_new i floor limits) d (λ aj d', live aj d' [] 0) (λ _ _, True).
Proof.
  unfold create_new. cbv zeta. apply outcome_bind, create_artifact_new. intros d1 _.
  pose proof (put_lookup (journal_name i) (mkFile [] []) d1) as F1. set (e1 := put_file _ _ d1) in *. clearbody e1.
  apply outcome_bind, outcome_lock; [|done]. intros d2 H2. rewrite <-(ag_files _ _ H2) in F1.
  apply outcome_bind, outcome_write; [|done]. intros d3 H3. rewrite (proj1 (data_of_Some _ _ _ F1)). cbn [f_data].
  rewrite <-(ag_files _ _ H3) in F1. unfold put_data. set (hdr := overwrite 0 _ []).
  assert (hdr = image i []) as Eh.
  { unfold hdr, overwrite, copy_at, image. change ([] ++ zeros (Z.to_nat (0 - len []))) with (@nil byte).
    by rewrite drop_nil, take_nil. }
  rewrite Eh in *. clear hdr Eh. 
  apply outcome_bind, outcome_sync; [|done]. intros d4 _. rewrite put_data_of. cbn [f_data].
  pose proof (put_lookup (journal_name i) (mkFile (image i []) (image i [])) d4) as F4. set (e4 := put_file _ _ d4) in *. clearbody e4.
  apply outcome_bind, create_artifact_new. intros d5 H5. rewrite <-(ag_files _ _ H5) in F4.
  unfold initialize_prepared_checkpoint, write_prepared_checkpoint_slot.
  apply outcome_bind, outcome_bind, outcome_set_len; [|done]. intros d6 H6.
  rewrite put_data_of. cbn [f_data].
  assert (dk_files d6 !! journal_name i = Some (mkFile (image i []) (image i []))) as F6.
  { rewrite (ag_files _ _ H6), put_lookup_ne by (apply names_differ). done. }
  apply outcome_bind, outcome_bind, outcome_io_op; [|done]. intros d7 H7. cbn [outcome map_err_m map_err].
  apply outcome_write; [|done]. intros d8 H8. assert (aged (put_data (checkpoint_name i) (resize CHECKPOINT_FILE_LEN []) d6) d8) as H68 by (by trans d7).
  rewrite (aged_data _ _ _ H7).
  assert (data_of (put_data (checkpoint_name i) (resize CHECKPOINT_FILE_LEN []) d6) (checkpoint_name i) = zeros 64 ++ zeros 64) as ->
    by (unfold put_data; by rewrite put_data_of).
  set (slots := slots_file 1 (slot_wire i (genesis_checkpoint_state floor)) (zeros 64)).
  match goal with |- context [overwrite ?o ?b ?l] => assert (overwrite o b l = slots) as -> end.
  { unfold prepare_checkpoint_slot. cbn [pc_offset pc_bytes]. rewrite encode_checkpoint_layout by apply store_wf, Hi.
    change (zeros 64 ++ zeros 64) with (slots_file 0 (zeros 64) (zeros 64)). change (genesis_checkpoint_state floor) with
      (mkCheckpoint (0 + 1) floor JOURNAL_V1_HEADER_LEN) at 1. cbn [ck_slot_generation].
    rewrite overwrite_whole; [|done|done|apply len_wire_slot, Hi]. by rewrite <-slots_file_flip. }
  assert (dk_files d8 !! journal_name i = Some (mkFile (image i []) (image i []))) as F8.
  { rewrite (ag_files _ _ H68). unfold put_data. by rewrite put_lookup_ne by apply names_differ. }
  apply outcome_bind, outcome_sync; [|done]. intros d9 H9. unfold put_data. rewrite put_data_of. cbn [f_data].
  assert (dk_files d9 !! journal_name i = Some (mkFile (image i []) (image i []))) as F9.
  { rewrite (ag_files _ _ H9). unfold put_data. by rewrite put_lookup_ne by apply names_differ. }
  apply outcome_io_op; [|done]. intros d10 H10. cbn [outcome map_err_m map_err]. apply outcome_ret.
  split; try done; [|apply genesis_cut]. exists (zeros 64). apply genesis_recoverable.
  - cbn [dk_files]. by rewrite (ag_files _ _ H10), put_lookup_ne by apply names_differ.
  - cbn [dk_files]. by rewrite (ag_files _ _ H10), put_lookup.
  - done.
Qed.
End handle.
