(* ===== verification/Restart.v ===== *)
(** * Restarts

    Runs of one journal over its files: created, appended to, synchronized,
    stopped by failures of any effect, killed, cut off from power at any point and
    opened again. Whatever happened, an open that nothing disturbs recovers a
    prefix of what was issued that contains everything acknowledged. *)

From S2P Require Import Prelude Bytes Identity Bounded Value Collection Series Registry Admission Wire Layout Crc.
From S2P Require Import Fields Journal Generation Commit Recovery Disk Active Slots Scan Effects Crash Reopen Handle.

Lemma outcome_Ok {S E A} (m : M S E A) s a s' Q R : outcome m s Q R → m s = (Ok a, s') → Q a s'.
Proof. unfold outcome. intros H E1. by rewrite E1 in H. Qed.
Lemma outcome_Err {S E A} (m : M S E A) s e s' Q R : outcome m s Q R → m s = (Err e, s') → R e s'.
Proof. unfold outcome. intros H E1. by rewrite E1 in H. Qed.

(** The environment of the next operations. *)
Definition set_events (events : list io_event) (d : disk) : disk :=
  mkDisk (dk_files d) (dk_entries d) (dk_locked d) events.

Section restart.
Context (directory : list byte) (i : JournalIdentity) (floor : Z) (limits : ActiveJournalLimits).

Definition config (mode : ActiveJournalOpenMode) : ActiveJournalConfig :=
  mkActiveConfig directory (journal_store_id i) mode limits Converge (journal_generation i) floor.

(** The process holds a handle, holds none, or gave up after an open that failed. *)
Inductive process := Running (aj : ActiveJournal) | Down | GaveUp.

(** The frame of an append that stopped the handle was written in part. *)
Definition attempted (aj aj' : ActiveJournal) (frame : PreparedFrameV1) : list DecodedAdmissionV1 :=
  if decide (aj_write_state aj = Writable ∧ aj_write_state aj' ≠ Writable) then evidence frame else [].

(** [issued] are the admissions whose frames were written since the last open, at
    least partly, after what it recovered; [acknowledged] those before the last
    barrier that answered. An open that failed is followed by a power loss: an
    open cuts a torn frame before it synchronizes the cut. *)
Inductive run : process → disk → list DecodedAdmissionV1 → list DecodedAdmissionV1 → Prop :=
| run_created d aj d' : open (config CreateNew) d = (Ok aj, d') → run (Running aj) d' [] []
| run_appended aj d issued acked events p s frame e aj' d' :
    run (Running aj) d issued acked → into_frame p s = Ok frame →
    append frame (aj, set_events events d) = (Ok e, (aj', d')) →
    run (Running aj') d' (issued ++ evidence frame) acked
| run_append_failed aj d issued acked events p s frame e aj' d' :
    run (Running aj) d issued acked → into_frame p s = Ok frame →
    append frame (aj, set_events events d) = (Err e, (aj', d')) →
    run (Running aj') d' (issued ++ attempted aj aj' frame) acked
| run_synced aj d issued acked events cutoff aj' d' :
    run (Running aj) d issued acked → Forall sector_event events →
    sync_pending (aj, set_events events d) = (Ok cutoff, (aj', d')) →
    run (Running aj') d' issued issued
| run_sync_failed aj d issued acked events e aj' d' :
    run (Running aj) d issued acked → Forall sector_event events →
    sync_pending (aj, set_events events d) = (Err e, (aj', d')) →
    run (Running aj') d' issued acked
| run_killed aj d issued acked : run (Running aj) d issued acked → run Down d issued acked
| run_power_lost p d issued acked d' : run p d issued acked → power_loss i d d' → run Down d' issued acked
| run_opened d issued acked events aj d' :
    run Down d issued acked → Forall sector_event events →
    open (config OpenExisting) (set_events events d) = (Ok aj, d') →
    run (Running aj) d' (rec_admission <$> aj_records aj) (rec_admission <$> aj_records aj)
| run_open_failed d issued acked events e d' :
    run Down d issued acked → Forall sector_event events →
    open (config OpenExisting) (set_events events d) = (Err e, d') →
    run GaveUp d' issued acked.

Context (Hi : wf i) (Hl : wf limits) (Hf : is_u64 floor).
Local Abbreviation live := (live i floor limits).
Local Abbreviation holds := (holds i floor limits).

(** What a crash can leave of the records. *)
Definition salvage (d : disk) (issued acked : list DecodedAdmissionV1) : Prop :=
  ∃ H k, H `prefix_of` issued ∧ acked `prefix_of` take k H ∧ holds d H k.
Definition run_inv (p : process) (d : disk) (issued acked : list DecodedAdmissionV1) : Prop :=
  match p with
  | Running aj =>
    (∃ k, live aj d issued k ∧ acked `prefix_of` take k issued) ∨
    (aj_write_state aj ≠ Writable ∧ openable i d ∧ salvage d issued acked)
  | Down => openable i d ∧ salvage d issued acked
  | GaveUp => salvage d issued acked
  end.

Lemma salvage_same d d' issued acked : same_files d d' → salvage d issued acked → salvage d' issued acked.
Proof. intros Hs (H & k & ? & ? & s & o & n & Hr). exists H, k. split_and!; try done. exists s, o, n. by eapply recoverable_same. Qed.
Lemma openable_same d d' : same_files d d' → openable i d → openable i d'.
Proof. intros [Ef _]. unfold openable. by rewrite Ef. Qed.
Lemma live_same aj d d' H k : same_files d d' → live aj d H k → live aj d' H k.
Proof.
  intros Hs []. split; try done. destruct lv_ready as (other & Hr & Hd). exists other.
  split; [by eapply recoverable_same|]. destruct Hs as [Ef _]. unfold data_of, file_of in *. by rewrite Ef.
Qed.
Lemma set_events_same events d : same_files d (set_events events d).
Proof. done. Qed.
Lemma run_inv_same p d d' issued acked : same_files d d' → run_inv p d issued acked → run_inv p d' issued acked.
Proof.
  intros Hs. destruct p as [aj| |]; cbn [run_inv].
  - intros [(k & Hlv & ?)|(? & ? & ?)]; [left; exists k; split; [by eapply live_same|done]|right].
    split_and!; [done|by eapply openable_same|by eapply salvage_same].
  - intros [? ?]. split; [by eapply openable_same|by eapply salvage_same].
  - by apply salvage_same.
Qed.

Lemma run_inv_events p events d issued acked : run_inv p d issued acked → run_inv p (set_events events d) issued acked.
Proof. apply run_inv_same. apply set_events_same. Qed.

Lemma live_salvage aj d issued acked k :
  live aj d issued k → acked `prefix_of` take k issued → openable i d ∧ salvage d issued acked.
Proof.
  intros Hlv Ha. destruct (live_left _ _ _ _ _ _ _ Hlv). split; [done|]. by exists issued, k.
Qed.
Lemma salvage_of_inv p d issued acked : run_inv p d issued acked → salvage d issued acked.
Proof.
  destruct p; cbn [run_inv]; [|by intros [_ ?]|done].
  intros [(k & Hlv & Ha)|(_ & _ & ?)]; [by eapply live_salvage|done].
Qed.

(** ** What the steps keep *)

Lemma open_directory_step {A} (m : Op A) d Q R :
  (∀ d', aged d d' → outcome m d' Q R) → (∀ e d', aged d d' → ¬ quiet d → R e d') →
  outcome (_ ← open_directory; m) d Q R.
Proof.
  intros HQ HR. unfold open_directory. apply (read_step _ _ tt d); [reader|done|done| |done]. intros d' Ha. by apply HQ.
Qed.
Lemma config_identity_eq mode : config_identity (config mode) = i.
Proof. unfold config_identity, config. cbn [ac_store_id ac_generation]. by destruct i. Qed.

Lemma open_create_outcome d : outcome (open (config CreateNew)) d (λ aj d', live aj d' [] 0) (λ _ _, True).
Proof.
  unfold open. apply open_directory_step; [|done]. intros d' _. rewrite config_identity_eq. cbn [ac_mode config ac_sequence_floor ac_limits].
  by apply create_outcome.
Qed.
Lemma open_existing_outcome d H k :
  holds d H k → openable i d → sectors d →
  outcome (open (config OpenExisting)) d
    (λ aj d', ∃ n, (k ≤ n ≤ length H)%nat ∧ live aj d' (take n H) n)
    (λ _ d', (¬ quiet d ∨ dk_locked d = true) ∧ ∃ n k', (k ≤ k' ≤ n)%nat ∧ (n ≤ length H)%nat ∧ holds d' (take n H) k').
Proof.
  intros Hh Ho Hs. unfold open. apply open_directory_step.
  - intros d1 H1. rewrite config_identity_eq. cbn [ac_mode config ac_sequence_floor ac_limits ac_recovery_policy].
    apply outcome_bind, outcome_map_err. eapply outcome_weaken; [apply (open_existing_recovers i floor limits Hi Hl Hf d1 H k)| |].
    + destruct Hh as (s & o & nx & Hr). exists s, o, nx. by eapply recoverable_same; [apply aged_same|].
    + by eapply openable_same; [apply aged_same|].
    + by apply (since_sectors d); [apply aged_since|].
    + intros [aj plan] d2 [_ Hn]. by apply outcome_ret.
    + intros e d2 [[Hq|Hlk] Hn]; (split; [|done]); [left|right; by rewrite <-(ag_locked _ _ H1)].
      intros Hqd. apply Hq. by apply (since_quiet d); [apply aged_since|].
  - intros e d1 H1 Hq. split; [by left|]. destruct Hh as (s & o & nx & Hr). pose proof Hr as [_ Hk _ _ _ _ _ _].
    exists (length H), k. split_and!; try done. rewrite take_ge by done. exists s, o, nx. by eapply recoverable_same; [apply aged_same|].
Qed.

Lemma live_bound aj d H k : live aj d H k → (k ≤ length H)%nat.
Proof. intros Hlv. by destruct (live_good _ _ _ _ _ _ _ Hlv). Qed.
Lemma append_keeps aj d issued acked p s frame e aj' d' :
  run_inv (Running aj) d issued acked → into_frame p s = Ok frame → append frame (aj, d) = (Ok e, (aj', d')) →
  run_inv (Running aj') d' (issued ++ evidence frame) acked.
Proof.
  intros [(k & Hlv & Ha)|(Hw & _)] Hfr E.
  - left. exists k. pose proof (append_outcome i floor limits Hf _ _ _ _ _ _ _ Hlv Hfr) as Ho.
    destruct (outcome_Ok _ _ _ _ _ _ Ho E) as [Hlv' _]. split; [done|].
    rewrite take_app_le; [done|by eapply live_bound].
  - by destruct (append_stopped aj d frame Hw) as [? E2]; rewrite E2 in E.
Qed.
Lemma append_failure_keeps aj d issued acked p s frame e aj' d' :
  run_inv (Running aj) d issued acked → into_frame p s = Ok frame → append frame (aj, d) = (Err e, (aj', d')) →
  run_inv (Running aj') d' (issued ++ attempted aj aj' frame) acked.
Proof.
  intros [(k & Hlv & Ha)|(Hw & Hrest)] Hfr E; unfold attempted.
  - pose proof (append_outcome i floor limits Hf _ _ _ _ _ _ _ Hlv Hfr) as Ho. pose proof Hlv as [_ _ Hwr _ _ _ _].
    pose proof (outcome_Err _ _ _ _ _ _ Ho E) as Hc. cbn [fst snd] in Hc. destruct Hc as [[-> Hlv']|(Hw & Hh & Hop)].
    + rewrite decide_False by tauto. rewrite app_nil_r. left. by exists k.
    + rewrite decide_True by done. right. split_and!; [done|done|]. eexists _, k. split; [done|]. split; [|done].
      rewrite take_app_le; [done|by eapply live_bound].
  - destruct (append_stopped aj d frame Hw) as [e2 E2]. rewrite E2 in E. injection E as _ <- <-.
    rewrite decide_False by tauto. rewrite app_nil_r. by right.
Qed.
Lemma sync_keeps aj d issued acked cutoff aj' d' :
  run_inv (Running aj) d issued acked → sectors d → sync_pending (aj, d) = (Ok cutoff, (aj', d')) →
  run_inv (Running aj') d' issued issued.
Proof.
  intros [(k & Hlv & Ha)|(Hw & _)] Hs E.
  - left. exists (length issued). pose proof (sync_outcome i floor limits Hi Hl Hf _ _ _ _ Hlv Hs) as Ho.
    destruct (outcome_Ok _ _ _ _ _ _ Ho E) as [Hlv' _]. by rewrite take_ge.
  - by destruct (sync_stopped aj d Hw) as [? E2]; rewrite E2 in E.
Qed.
Lemma prefix_take_mono {A} (l : list A) a k k' : (k ≤ k')%nat → a `prefix_of` take k l → a `prefix_of` take k' l.
Proof. intros Hk Ha. trans (take k l); [done|]. rewrite <-(Nat.min_l k k') by done. rewrite <-take_take. apply prefix_take. Qed.
Lemma sync_failure_keeps aj d issued acked e aj' d' :
  run_inv (Running aj) d issued acked → sectors d → sync_pending (aj, d) = (Err e, (aj', d')) →
  run_inv (Running aj') d' issued acked.
Proof.
  intros [(k & Hlv & Ha)|(Hw & Hrest)] Hs E.
  - pose proof (sync_outcome i floor limits Hi Hl Hf _ _ _ _ Hlv Hs) as Ho.
    destruct (outcome_Err _ _ _ _ _ _ Ho E) as (_ & Hw & Hop & k' & Hk & Hh). right. split_and!; [done|done|].
    exists issued, k'. split_and!; [done|by eapply prefix_take_mono|done].
  - destruct (sync_stopped aj d Hw) as [e2 E2]. rewrite E2 in E. injection E as _ <- <-. by right.
Qed.

Lemma killed_keeps aj d issued acked : run_inv (Running aj) d issued acked → run_inv Down d issued acked.
Proof. intros [(k & Hlv & Ha)|(_ & Hrest)]; [by eapply live_salvage|done]. Qed.
Lemma power_loss_keeps p d d' issued acked :
  run_inv p d issued acked → power_loss i d d' → run_inv Down d' issued acked.
Proof.
  intros (H & k & HH & Ha & s & o & nx & Hr)%salvage_of_inv Hp.
  destruct (power_loss_recoverable i floor limits Hi d d' H k s o nx Hr Hp) as ([Hsj _] & s' & o' & Hr'). split.
  - intros f Hff. by rewrite (Hsj f Hff).
  - exists H, k. split_and!; try done. by exists s', o', None.
Qed.
Lemma live_admissions aj d H k : live aj d H k → rec_admission <$> aj_records aj = H.
Proof. intros [_ _ _ _ -> _ _]. apply placed_admissions. Qed.
Lemma opened_keeps d issued acked aj d' :
  run_inv Down d issued acked → sectors d → open (config OpenExisting) d = (Ok aj, d') →
  run_inv (Running aj) d' (rec_admission <$> aj_records aj) (rec_admission <$> aj_records aj).
Proof.
  intros (Hop & H & k & _ & _ & Hh) Hs E. destruct (outcome_Ok _ _ _ _ _ _ (open_existing_outcome d H k Hh Hop Hs) E) as (n & Hn & Hlv).
  rewrite (live_admissions _ _ _ _ Hlv). left. exists n. by rewrite take_take, Nat.min_id.
Qed.
Lemma open_failure_keeps d issued acked e d' :
  run_inv Down d issued acked → sectors d → open (config OpenExisting) d = (Err e, d') → run_inv GaveUp d' issued acked.
Proof.
  intros (Hop & H & k & HH & Ha & Hh) Hs E.
  destruct (outcome_Err _ _ _ _ _ _ (open_existing_outcome d H k Hh Hop Hs) E) as (_ & n & k' & Hk & Hn & Hh').
  exists (take n H), k'. split_and!; [by trans H; [apply prefix_take|]| |done].
  rewrite take_take, Nat.min_l by lia. by apply (prefix_take_mono _ _ k); [lia|].
Qed.

Lemma run_keeps p d issued acked : run p d issued acked → run_inv p d issued acked.
Proof.
  induction 1.
  - left. exists 0%nat. split; [|done]. eapply (outcome_Ok _ _ _ _ _ _ (open_create_outcome _)); eassumption.
  - eapply append_keeps; [apply run_inv_events, IHrun|eassumption..].
  - eapply append_failure_keeps; [apply run_inv_events, IHrun|eassumption..].
  - eapply sync_keeps; [apply run_inv_events, IHrun| |eassumption]. done.
  - eapply sync_failure_keeps; [apply run_inv_events, IHrun| |eassumption]. done.
  - by eapply killed_keeps.
  - by eapply power_loss_keeps.
  - eapply opened_keeps; [apply (run_inv_events Down), IHrun| |eassumption]. done.
  - eapply open_failure_keeps; [apply (run_inv_events Down), IHrun| |eassumption]. done.
Qed.
End restart.

(** ** Properties *)

(** C6: Crash safety of the active journal. Take any run: a journal is created,
    appended to and synchronized, any effect of any operation fails at any point
    (a write after any part of it, a checkpoint slot whole or not at all), the
    process is killed or power is lost with any part of the unsynchronized bytes,
    and the journal is opened again, any number of times. An open that nothing
    disturbs succeeds; what it recovers, in order and at its offsets, is a prefix
    of the admissions issued that contains every admission a barrier acknowledged;
    and the cutoff it reports durable covers exactly the recovered records. *)
Theorem crash_recovery directory i floor limits d issued acknowledged (Hi : wf i) (Hl : wf limits) (Hf : is_u64 floor)
    (Hrun : run directory i floor limits Down d issued acknowledged) (Hlock : dk_locked d = false) :
  ∃ aj d' recovered,
    open (config directory i floor limits OpenExisting) (set_events [] d) = (Ok aj, d') ∧
    acknowledged `prefix_of` recovered ∧ recovered `prefix_of` issued ∧
    aj_records aj = placed JOURNAL_V1_HEADER_LEN recovered ∧ aj_write_state aj = Writable ∧
    cut_append_sequence (durable_cutoff aj) = floor + len recovered ∧
    cut_end_offset (durable_cutoff aj) = end_of recovered.
Proof.
  apply run_keeps in Hrun as (Hop & H & k & HH & Ha & Hh); [|done..].
  assert (holds i floor limits (set_events [] d) H k) as Hh'.
  { destruct Hh as (s & o & nx & Hr). exists s, o, nx. by eapply recoverable_same; [apply set_events_same|]. }
  pose proof (open_existing_outcome directory i floor limits Hi Hl Hf (set_events [] d) H k Hh' Hop) as Ho.
  unfold outcome in Ho. destruct (open _ _) as [[aj|e] d'].
  - destruct Ho as (n & Hn & Hlv); [constructor|]. exists aj, d', (take n H).
    destruct Hlv as [Hid _ Hw _ Hrec _ [_ _ _ Hseq Hend]]. rewrite take_take, Nat.min_id in Hend.
    split_and!; try done; [by apply (prefix_take_mono H _ k); [lia|]|by trans H; [apply prefix_take|]|].
    unfold durable_cutoff, durable_cutoff_from_state. cbn [cut_append_sequence]. rewrite Hseq. unfold len. rewrite length_take. lia.
  - destruct Ho as ([Hq|Hlk] & _); [constructor|by destruct Hq|]. cbn in Hlk. congruence.
Qed.

(** C7: What a barrier acknowledges. In any run, a handle that can write holds exactly
    the issued admissions; a barrier whose effects happen answers the cutoff that
    was announced as pending, which covers all of them; the handle keeps its
    records and reports that cutoff durable; and every byte the journal shows is
    synchronized, with every record of the history in it. *)
Theorem barrier_total directory i floor limits aj d issued acknowledged (Hi : wf i) (Hl : wf limits) (Hf : is_u64 floor)
    (Hrun : run directory i floor limits (Running aj) d issued acknowledged) (Hw : aj_write_state aj = Writable) :
  ∃ cutoff aj' d', sync_pending (aj, set_events [] d) = (Ok cutoff, (aj', d')) ∧
    pending_durable_cutoff aj = Ok cutoff ∧ durable_cutoff aj' = cutoff ∧
    aj_records aj = placed JOURNAL_V1_HEADER_LEN issued ∧ aj_records aj' = aj_records aj ∧
    cut_append_sequence cutoff = floor + len issued ∧ cut_end_offset cutoff = end_of issued ∧
    dk_files d' !! journal_name i = Some (mkFile (image i issued) (image i issued)).
Proof.
  apply run_keeps in Hrun as [(k & Hlv & _)|(Hn & _)]; [|done..].
  assert (live i floor limits aj (set_events [] d) issued k) as Hlv' by (by eapply live_same; [apply set_events_same|]).
  pose proof (sync_outcome i floor limits Hi Hl Hf aj _ issued k Hlv' (Forall_nil_2 _)) as Ho. unfold outcome in Ho.
  destruct (sync_pending (aj, _)) as [[cutoff|e] [aj' d']]; [|by destruct Ho as (Hq & _); destruct Hq].
  destruct Ho as (Hlv2 & Ecut & Hp). cbn [fst snd] in *. exists cutoff, aj', d'. split; [done|].
  destruct Hlv as [_ _ _ _ Hrec _ _], Hlv2 as [_ _ _ _ Hrec2 [o Hrd] [_ _ _ Hseq Hend]].
  destruct (ready_journal _ _ _ _ _ _ _ _ _ Hrd) as (synced & Hj & P1 & P2). rewrite take_ge in P1, Hend by done.
  assert (synced = image i issued) as -> by (by apply (anti_symm prefix)).
  rewrite Ecut in *. split_and!; try done. by rewrite Hrec2.
Qed.

(** ** A run *)

Definition sample_journal : JournalIdentity := mkJournalIdentity (sample_id 0) 1.
Definition sample_journal_limits : ActiveJournalLimits := mkActiveLimits 4096 65536 8.
Definition sample_config : ActiveJournalOpenMode → ActiveJournalConfig := config [] sample_journal 0 sample_journal_limits.
Definition sample_prepared : PreparedAdmissionV1 :=
  match prepared_new sample_admission with Ok p => p | Err e => mkPrepared (prepare_admission e) [] 0 end.
Definition sample_frame_at (n : Z) : PreparedFrameV1 :=
  match into_frame sample_prepared (mkSequence n) with Ok f => f | Err e => mkPreparedFrame (prepare_admission e) (mkSequence n) [] end.
Definition opened (r : result ActiveJournalError ActiveJournal) : ActiveJournal :=
  match r with
  | Ok aj => aj
  | Err _ => mkActive sample_journal sample_journal_limits (genesis_checkpoint_state 0) 0 [] 0 StateFaulted
  end.

Definition sample_empty : disk := mkDisk ∅ ∅ false [].
Definition sample_created := open (sample_config CreateNew) sample_empty.
(** One record is appended and acknowledged; the write of the next fails after 100
    bytes, of which 60 survive the power loss. *)
Definition sample_first := append (sample_frame_at 1) (opened sample_created.1, set_events [] sample_created.2).
Definition sample_barrier := sync_pending (sample_first.2.1, set_events [] sample_first.2.2).
Definition sample_failing : list io_event := [IoDone; IoFailed 100 (mkIoError StorageFull None)].
Definition sample_torn := append (sample_frame_at 2) (sample_barrier.2.1, set_events sample_failing sample_barrier.2.2).
Definition sample_survivor : list byte :=
  take (28 + 829 + 60) (data_of sample_torn.2.2 (journal_name sample_journal)).
Definition sample_after : disk :=
  mkDisk (<[journal_name sample_journal := mkFile sample_survivor sample_survivor]> (dk_files sample_torn.2.2))
    (dk_entries sample_torn.2.2) false [].
Definition sample_reopened := open (sample_config OpenExisting) (set_events [] sample_after).

Lemma ran_Ok {A} (m : Method A) s : is_ok (m s).1 = true → ∃ a, m s = (Ok a, ((m s).2.1, (m s).2.2)).
Proof. destruct (m s) as [[a|e] [aj d]]; [by exists a|done]. Qed.
Lemma ran_Err {A} (m : Method A) s : is_ok (m s).1 = false → ∃ e, m s = (Err e, ((m s).2.1, (m s).2.2)).
Proof. destruct (m s) as [[a|e] [aj d]]; [done|by exists e]. Qed.
Lemma opened_Ok (m : Op ActiveJournal) d : is_ok (m d).1 = true → m d = (Ok (opened (m d).1), (m d).2).
Proof. by destruct (m d) as [[aj|e] d']. Qed.

Example sample_reopens : rec_end_offset <$> aj_records (opened sample_reopened.1) = [857] ∧
  aj_write_state sample_torn.2.1 = StateReopenRequired.
Proof. by vm_compute. Qed.

Lemma sample_prepared_frame n : n = 1 ∨ n = 2 → into_frame sample_prepared (mkSequence n) = Ok (sample_frame_at n).
Proof. intros [-> | ->]; by vm_compute. Qed.

Abbreviation sample_state := (run [] sample_journal 0 sample_journal_limits).
Lemma sample_run_created : sample_state (Running (opened sample_created.1)) sample_created.2 [] [].
Proof. apply (run_created _ _ _ _ sample_empty). apply opened_Ok. by vm_compute. Qed.
Lemma sample_run_first : sample_state (Running sample_first.2.1) sample_first.2.2 ([] ++ evidence (sample_frame_at 1)) [].
Proof.
  destruct (ran_Ok (append (sample_frame_at 1)) (opened sample_created.1, set_events [] sample_created.2)) as [o E]; [by vm_compute|].
  exact (run_appended _ _ _ _ _ _ _ _ _ _ _ _ _ _ _ sample_run_created (sample_prepared_frame 1 (or_introl eq_refl)) E).
Qed.
Lemma sample_run_barrier :
  sample_state (Running sample_barrier.2.1) sample_barrier.2.2 ([] ++ evidence (sample_frame_at 1)) ([] ++ evidence (sample_frame_at 1)).
Proof.
  destruct (ran_Ok sync_pending (sample_first.2.1, set_events [] sample_first.2.2)) as [o E]; [by vm_compute|].
  exact (run_synced _ _ _ _ _ _ _ _ _ _ _ _ sample_run_first (Forall_nil_2 _) E).
Qed.
Lemma sample_run_torn :
  sample_state (Running sample_torn.2.1) sample_torn.2.2
    (([] ++ evidence (sample_frame_at 1)) ++ attempted sample_barrier.2.1 sample_torn.2.1 (sample_frame_at 2))
    ([] ++ evidence (sample_frame_at 1)).
Proof.
  destruct (ran_Err (append (sample_frame_at 2)) (sample_barrier.2.1, set_events sample_failing sample_barrier.2.2)) as [e E]; [by vm_compute|].
  exact (run_append_failed _ _ _ _ _ _ _ _ _ _ _ _ _ _ _ sample_run_barrier (sample_prepared_frame 2 (or_intror eq_refl)) E).
Qed.

(** A power loss that cuts the journal, of a settled checkpoint. *)
Lemma power_loss_cut i d bytes :
  survives (file_of d (journal_name i)) bytes →
  (let f := file_of d (checkpoint_name i) in f_synced f = f_data f ∧ f_data f = slice 0 64 (f_data f) ++ slice 64 128 (f_data f)) →
  power_loss i d (mkDisk (<[journal_name i := mkFile bytes bytes]> (dk_files d)) (dk_entries d) false []).
Proof.
  intros Hj Hc. unfold file_of in *. split; cbn [dk_files dk_entries]; [| |done].
  - intros f Hf _. exists bytes. rewrite lookup_insert_eq. by rewrite Hf in Hj.
  - intros f Hf _. rewrite Hf in Hc. destruct f as [data synced], Hc as [Es Eb]. cbn [f_data f_synced default from_option id] in *. subst synced.
    exists data. rewrite lookup_insert_ne, Hf by (apply names_differ). split; [|done].
    eexists _, _. split; [exact Eb|]. split; by left.
Qed.
Lemma sample_power_loss : power_loss sample_journal sample_torn.2.2 sample_after.
Proof.
  apply power_loss_cut.
  - left. split; [|unfold sample_survivor, data_of; apply prefix_take]. apply (bool_decide_unpack _). by vm_compute.
  - split; apply (bool_decide_unpack _); by vm_compute.
Qed.
Lemma sample_journal_run :
  sample_state Down sample_after
    (([] ++ evidence (sample_frame_at 1)) ++ attempted sample_barrier.2.1 sample_torn.2.1 (sample_frame_at 2))
    ([] ++ evidence (sample_frame_at 1)).
Proof. exact (run_power_lost _ _ _ _ _ _ _ _ _ sample_run_torn sample_power_loss). Qed.

Lemma crash_recovery_witness :
  ∃ aj d' recovered,
    open (sample_config OpenExisting) (set_events [] sample_after) = (Ok aj, d') ∧
    ([] ++ evidence (sample_frame_at 1)) `prefix_of` recovered ∧
    recovered `prefix_of` ([] ++ evidence (sample_frame_at 1)) ++ attempted sample_barrier.2.1 sample_torn.2.1 (sample_frame_at 2) ∧
    aj_records aj = placed JOURNAL_V1_HEADER_LEN recovered ∧ aj_write_state aj = Writable ∧
    cut_append_sequence (durable_cutoff aj) = 0 + len recovered ∧ cut_end_offset (durable_cutoff aj) = end_of recovered.
Proof.
  apply (crash_recovery [] sample_journal 0 sample_journal_limits sample_after); [by vm_compute..|exact sample_journal_run|done].
Defined.

Lemma barrier_total_witness :
  ∃ cutoff aj' d', sync_pending (sample_first.2.1, set_events [] sample_first.2.2) = (Ok cutoff, (aj', d')) ∧
    pending_durable_cutoff sample_first.2.1 = Ok cutoff ∧ durable_cutoff aj' = cutoff ∧
    aj_records sample_first.2.1 = placed JOURNAL_V1_HEADER_LEN ([] ++ evidence (sample_frame_at 1)) ∧
    aj_records aj' = aj_records sample_first.2.1 ∧
    cut_append_sequence cutoff = 0 + len ([] ++ evidence (sample_frame_at 1)) ∧
    cut_end_offset cutoff = end_of ([] ++ evidence (sample_frame_at 1)) ∧
    dk_files d' !! journal_name sample_journal =
      Some (mkFile (image sample_journal ([] ++ evidence (sample_frame_at 1)))
              (image sample_journal ([] ++ evidence (sample_frame_at 1)))).
Proof.
  apply (barrier_total [] sample_journal 0 sample_journal_limits _ _ _ []); [by vm_compute..|exact sample_run_first|].
  by vm_compute.
Defined.

(** The synchronization of a truncation is not made up for: an open cuts the torn
    frame and fails to synchronize the cut; the next open finds no torn frame,
    answers a handle, and the cut is still not synchronized. (A barrier of the
    handle synchronizes it; until then a power loss may bring the torn bytes back
    under whatever was appended.) *)
Definition sample_unsynced : list io_event := replicate 15 IoDone ++ [IoFailed 0 (mkIoError StorageFull None)].
Definition sample_gave_up := open (sample_config OpenExisting) (set_events sample_unsynced sample_after).
Definition sample_retried := open (sample_config OpenExisting) (set_events [] sample_gave_up.2).
Example truncation_left_unsynchronized :
  is_ok sample_gave_up.1 = false ∧ is_ok sample_retried.1 = true ∧
  let f := file_of sample_retried.2 (journal_name sample_journal) in
  (len (f_data f), len (f_synced f)) = (857, 917).
Proof. by vm_compute. Qed.
