(* ===== verification/Root.v ===== *)
(** * Opens that a committed root directs

    The manifest store opens a journal against the cutoff of its root: the open
    reads only, accepts the journal exactly up to the root, and describes what lies
    beyond it in a plan; applying the plan cuts the journal there. *)

From S2P Require Import Prelude Bytes Identity Bounded Value Collection Series Registry Admission Wire Layout Crc.
From S2P Require Import Fields Journal Generation Commit Recovery Disk Active Slots Scan Effects Crash Reopen Handle Restart.

(** ** Reading *)

Lemma reader_root_loop i limits root_end room off prev recs : reader (root_loop i limits root_end room off prev recs).
Proof. revert off prev recs. induction room as [|room IH]; intros off prev recs; cbn [root_loop]; case_decide; reader. Qed.
Lemma reader_classify_suffix i limits jl root_end expected prev : reader (classify_suffix i limits jl root_end expected prev).
Proof. unfold classify_suffix. case_decide; reader. Qed.

(** Nothing but events passed, and [P] of the answer. *)
Definition reads {E A} (m : M disk E A) (d : disk) (P : A → Prop) : Prop :=
  outcome m d (λ a d', aged d d' ∧ P a) (λ _ d', aged d d').
Section reads.
Context {E : Type}.

Lemma reads_reader {A} (m : M disk E A) d : reader m → reads m d (λ a, m (calm d) = (Ok a, calm d)).
Proof. intros Hm. eapply outcome_weaken; [apply Hm|done|by intros e d' [? _]]. Qed.
Lemma reads_any {A} (m : M disk E A) d : reader m → reads m d (λ _, True).
Proof. intros Hm. eapply outcome_weaken; [by apply reads_reader|by intros a d' [? _]|done]. Qed.
Lemma reads_bind {A B} (m : M disk E A) (k : A → M disk E B) d (P : A → Prop) (Q : B → Prop) :
  reads m d P → (∀ a d', aged d d' → P a → reads (k a) d' Q) → reads (m ≫= k) d Q.
Proof.
  intros Hm Hk. apply outcome_bind. eapply outcome_weaken; [exact Hm| |done].
  intros a d' [Ha Hp]. eapply outcome_weaken; [by apply Hk| |].
  - intros b d'' [? ?]. split; [by trans d'|done].
  - intros e d'' ?. by trans d'.
Qed.
Lemma only_reads_ret {A} (a : A) d (P : A → Prop) : P a → reads (mret a : M disk E A) d P.
Proof. intros. by apply outcome_ret. Qed.
Lemma reads_fail {A} (e : E) d (P : A → Prop) : reads (fail e) d P.
Proof. by apply outcome_fail. Qed.
Lemma reads_refuse {B} P `{Decision P} (e : E) (k : () → M disk E B) d (Q : B → Prop) :
  (¬ P → reads (k tt) d Q) → reads (refuse_if P e ≫= k) d Q.
Proof. intros Hk. by apply outcome_refuse_step. Qed.
Lemma only_reads_lift {A B} (r : result E A) (k : A → M disk E B) d (Q : B → Prop) :
  (∀ a, r = Ok a → reads (k a) d Q) → reads (lift r ≫= k) d Q.
Proof. intros Hk. by apply outcome_lift_step. Qed.
Lemma reads_weaken {A} (m : M disk E A) d (P Q : A → Prop) : reads m d P → (∀ a, P a → Q a) → reads m d Q.
Proof. intros Hm HPQ. eapply outcome_weaken; [exact Hm| |done]. intros a d' [? ?]. split; auto. Qed.
Lemma reads_and {A} (m : M disk E A) d (P Q : A → Prop) : reads m d P → reads m d Q → reads m d (λ a, P a ∧ Q a).
Proof. intros HP HQ. eapply outcome_weaken; [exact (outcome_and _ _ _ _ _ _ HP HQ)|naive_solver..]. Qed.
End reads.

Lemma reads_active {A} (m : Op A) d P : reads m d P → reads (active m) d P.
Proof. intros Hm. by apply outcome_map_err. Qed.
Lemma reads_len op name d : reads (io op (file_len name)) d (λ n, n = len (data_of d name)).
Proof. eapply reads_weaken; [apply reads_reader, reader_len|]. intros n E. rewrite quiet_len in E by done. by injection E as <-. Qed.

(** What the scan against a root establishes. *)
Record root_scan (i : JournalIdentity) (floor journal_len : Z) (ck : CheckpointState) (root : DurableCutoff)
    (scan : ScanResult) : Prop := {
  rs_end : scan_valid_end scan = cut_end_offset root;
  rs_cut : scan_truncate_to scan = None;
  rs_sequence : sequence_or floor (last (scan_records scan)) = cut_append_sequence root;
  rs_plan : match scan_recovery_plan scan with
            | None => journal_len = cut_end_offset root
            | Some plan => cut_end_offset root < journal_len ∧ plan_identity plan = i ∧ plan_cutoff plan = root ∧
                plan_original_length plan = journal_len
            end }.
Lemma reads_root_scan i limits ck floor jl root d :
  reads (scan_manifest_root i limits ck floor jl root) d (root_scan i floor jl ck root).
Proof.
  unfold scan_manifest_root. apply only_reads_lift. intros prev _.
  eapply reads_bind; [apply reads_any, reader_root_loop|]. intros [[recs off] previous] d1 _ _. cbv zeta.
  apply reads_refuse. intros Hn.
  assert (off = cut_end_offset root) as -> by not_refused.
  assert (cut_append_sequence root = sequence_or floor (last recs)) as Hs by not_refused.
  assert (¬ jl < cut_end_offset root) as Hl by tauto. case_decide as Hj; [by apply only_reads_ret|].
  apply only_reads_lift. intros expected _. eapply reads_bind; [apply reads_any, reader_classify_suffix|].
  intros c d2 _ _. apply only_reads_ret. split; try done. cbn [scan_recovery_plan plan_identity plan_cutoff plan_original_length].
  split; [lia|done].
Qed.

(** A handle at its root, and the plan for what lies beyond it in [data]. *)
Record at_root (c : ActiveJournalConfig) (root : DurableCutoff) (data : list byte)
    (p : ActiveJournal * option ActiveRecoveryPlan) : Prop := {
  ar_identity : aj_identity p.1 = config_identity c;
  ar_cutoff : durable_cutoff p.1 = root;
  ar_writable : aj_write_state p.1 = Writable;
  ar_bytes : aj_active_bytes p.1 = cut_end_offset root;
  ar_sequence : last_append_sequence p.1 = cut_append_sequence root;
  ar_plan : match p.2 with
            | None => len data = cut_end_offset root
            | Some plan => cut_end_offset root < len data ∧ plan_identity plan = config_identity c ∧
                plan_cutoff plan = root ∧ plan_original_length plan = len data
            end }.
(** The journal cut at [root], synchronized or not. *)
Definition cut_to (root : DurableCutoff) (synced : option (list byte)) (f : file) : file :=
  let short := take (Z.to_nat (cut_end_offset root)) (f_data f) in mkFile short (default short synced).

(** Without a genesis to complete, the checkpoint is only read. *)
Lemma reads_open_checkpoint i floor jl d : reads (open_checkpoint i floor Strict jl) d (λ r, r = None).
Proof.
  unfold open_checkpoint. apply reads_bind with (P := λ _, True).
  { apply outcome_attempt. eapply outcome_weaken; [apply (reads_any _ _ (reader_open_artifact _))|done|]. intros e d' ?. by split. }
  intros opened d1 _ _. apply reads_bind with (P := λ r, r = None).
  { destruct opened as [?|[]]; try apply reads_fail. by apply only_reads_ret. }
  intros r d2 _ ->. eapply reads_bind; [apply reads_any, reader_len|]. intros n d3 _ _.
  rewrite decide_False by tauto. apply reads_refuse. intros _. by apply only_reads_ret.
Qed.

(** ** The open *)

Lemma root_open_reads c root d :
  outcome (open_manifest_root c root) d
    (λ p d', aged d d' ∧ at_root c root (data_of d (journal_name (config_identity c))) p) (λ _ d', aged d d').
Proof.
  unfold open_manifest_root. apply reads_refuse. intros Hn.
  assert (ac_recovery_policy c = Strict) as -> by not_refused.
  eapply reads_bind; [apply reads_active, reads_any; unfold open_directory; reader|]. intros _ d1 H1 _.
  set (i := config_identity c) in *. rewrite <-(aged_data _ _ (journal_name i) H1). clear Hn H1 d.
  unfold open_existing. eapply reads_bind; [apply reads_active, reads_any; auto with och|]. intros _ d2 H2 _.
  eapply reads_bind; [apply reads_active, reads_any; auto with och|]. intros _ d3 H3 _.
  eapply reads_bind; [apply reads_active, reads_len|]. intros jl d4 H4 ->.
  assert (data_of d3 (journal_name i) = data_of d1 (journal_name i)) as -> by (apply aged_data; by trans d2).
  set (jl := len (data_of d1 (journal_name i))). do 2 (apply reads_refuse; intros _).
  eapply reads_bind; [apply reads_active, reads_any; auto with och|]. intros hb d5 H5 _.
  apply only_reads_lift. intros header _. apply reads_refuse. intros _.
  eapply reads_bind; [apply reads_active, reads_open_checkpoint|]. intros r d6 H6 ->.
  eapply reads_bind; [apply reads_active, reads_any, reader_read_checkpoint|]. intros read d7 H7 _.
  apply reads_refuse. intros _. apply reads_refuse. intros Hread.
  destruct read as [cs|]; [|by destruct Hread; split; [|left]].
  eapply reads_bind; [by apply (only_reads_ret _ _ (λ x, x = cs))|]. intros ? d8 H8 ->.
  apply reads_refuse. intros Hroot.
  eapply reads_bind; [apply reads_active, reads_root_scan|]. intros scan d9 H9 [Hend Hcut Hseq Hplan].
  apply reads_refuse. intros _. cbv zeta. rewrite decide_False by (by intros [? _]).
  eapply reads_bind; [by apply (only_reads_ret _ _ (λ _, True))|]. intros ad d10 _ _.
  eapply reads_bind; [by apply (only_reads_ret _ _ (λ _, True))|]. intros _ d11 _ _.
  eapply reads_bind; [by apply (only_reads_ret _ _ (λ x, x = cs))|]. intros ? d12 _ ->.
  apply only_reads_ret. cbn [fst snd aj_write_state aj_active_bytes].
  assert (root = durable_cutoff_from_state i cs) as Eroot.
  { apply dec_stable. intros Hne. apply Hroot. cbn [is_some_and]. by apply bool_decide_pack. }
  split; try done. cbn [fst].
  - rewrite <-Hseq. unfold last_append_sequence. cbn [aj_records aj_checkpoint_state].
    unfold sequence_or in *. destruct (last (scan_records scan)); [done|]. cbn in Hseq |- *. by rewrite Eroot in Hseq.
Qed.

(** ** Its recovery *)

Lemma resize_cut n data : 0 ≤ n → n ≤ len data → resize n data = take (Z.to_nat n) data.
Proof.
  intros Hn Hl. unfold resize. replace (Z.to_nat (n - len data)) with 0%nat by lia. cbn [zeros replicate]. apply app_nil_r.
Qed.
Lemma apply_recovery_outcome aj plan d f :
  aj_write_state aj = Writable → plan_identity plan = aj_identity aj → plan_cutoff plan = durable_cutoff aj →
  plan_original_length plan = len (f_data f) → aj_active_bytes aj = cut_end_offset (plan_cutoff plan) →
  0 ≤ aj_active_bytes aj < len (f_data f) → dk_files d !! journal_name (aj_identity aj) = Some f →
  outcome (apply_recovery plan) (aj, d)
    (λ _ st, st.1 = aj ∧ dk_files st.2 = <[journal_name (aj_identity aj) :=
       mkFile (take (Z.to_nat (aj_active_bytes aj)) (f_data f)) (take (Z.to_nat (aj_active_bytes aj)) (f_data f))]> (dk_files d))
    (λ _ st, ¬ quiet d ∧ (st.1 = aj ∨ aj_write_state st.1 ≠ Writable) ∧
       (dk_files st.2 = dk_files d ∨
        dk_files st.2 = <[journal_name (aj_identity aj) :=
          mkFile (take (Z.to_nat (aj_active_bytes aj)) (f_data f)) (f_synced f)]> (dk_files d))).
Proof.
  intros Hw Hpi Hpc Hpl Hab Hlen Hf. destruct (data_of_Some _ _ _ Hf) as [Ed Es]. set (name := journal_name (aj_identity aj)) in *.
  unfold apply_recovery. apply outcome_self. apply outcome_lift_step; [intros _ _|intros e E; by rewrite (proj2 (ensure_usable_Ok aj) Hw) in E].
  set (n := aj_active_bytes aj) in *. set (short := take (Z.to_nat n) (f_data f)).
  apply outcome_bind, outcome_effect. apply (outcome_reader _ (len (f_data f))); [apply reader_len| | |].
  { fold name. rewrite quiet_len by done. by rewrite (aged_data d (calm d)), Ed by apply calm_aged. }
  2:{ intros e d1 H1 Hq. split_and!; [done|by left|left; apply H1]. }
  intros d1 H1. apply outcome_refuse_step; [intros _|]; [|intros Hx; exfalso; rewrite Hpl in Hx; destruct Hx as [?|[?|[?|[?|?]]]]; done || lia].
  assert (∀ d', aged d1 d' → ¬ quiet d1 → ¬ quiet d) as Hq1.
  { intros d' _ Hq1 Hq. apply Hq1. by apply (since_quiet d); [apply aged_since|]. }
  apply outcome_bind, outcome_mutation. apply outcome_set_len.
  2:{ intros e d2 H2 Hq. split_and!; [by eapply Hq1|right; apply mutation_error_stops|left]. cbn [snd]. by rewrite (ag_files _ _ H2), (ag_files _ _ H1). }
  intros d2 H2. fold name n. rewrite (aged_data d d1), Ed by done. rewrite resize_cut by lia. fold short.
  assert (aged d d2) as H02 by (by trans d1). unfold put_data. rewrite (aged_file _ _ name H02), Es.
  assert (quiet d → quiet (put_file name (mkFile short (f_synced f)) d2)) as Hq2 by (apply (since_quiet d d2), aged_since, H02).
  apply outcome_mutation, outcome_sync; fold name.
  - intros d3 H3. split; [done|]. cbn [snd put_file with_files dk_files]. rewrite (ag_files _ _ H3), put_data_of.
    cbn [f_data put_file with_files dk_files]. by rewrite insert_insert_eq, (ag_files _ _ H02).
  - intros e d3 H3 Hq3. split_and!; [intros Hq; by apply Hq3, Hq2|right; apply mutation_error_stops|right].
    cbn [snd]. rewrite (ag_files _ _ H3). cbn [put_file with_files dk_files]. by rewrite (ag_files _ _ H02).
Qed.

(** ** Properties *)

(** C8: A root-directed open only reads. Whichever of its effects fail, no file, entry
    or lock changes; and the handle it answers stands exactly at the root: its
    durable cutoff is the root, its records end where and with the sequence number
    the root says, and bytes beyond the root are not touched but described by a
    plan with the root and the length found, absent exactly when there are none. *)
Theorem root_open_exact c root d :
  outcome (open_manifest_root c root) d
    (λ p d', aged d d' ∧ at_root c root (data_of d (journal_name (config_identity c))) p) (λ _ d', aged d d').
Proof. apply root_open_reads. Qed.

(** C9: The recovery a root-directed open plans is exact. Applied to the files the open
    found, whatever else the environment then does, it leaves the journal with
    exactly its first bytes up to the root, synchronized, and the handle as it was;
    it fails only where an effect fails, and then the journal holds all its bytes
    or the same first bytes, and a handle that changed is stopped. *)
Theorem recovery_exact c root d aj plan d1 events f
    (Hopen : open_manifest_root c root d = (Ok (aj, Some plan), d1)) (Hroot : wf root)
    (Hf : dk_files d !! journal_name (config_identity c) = Some f) :
  outcome (apply_recovery plan) (aj, set_events events d1)
    (λ _ st, st.1 = aj ∧
       dk_files st.2 = <[journal_name (config_identity c) := cut_to root None f]> (dk_files d))
    (λ _ st, events ≠ [] ∧ (st.1 = aj ∨ aj_write_state st.1 ≠ Writable) ∧
       (dk_files st.2 = dk_files d ∨
        dk_files st.2 = <[journal_name (config_identity c) := cut_to root (Some (f_synced f)) f]> (dk_files d))).
Proof.
  pose proof (outcome_Ok _ _ _ _ _ _ (root_open_reads c root d) Hopen) as (Ha & [Hid Hdc Hw Hab _ (Hlt & Hpi & Hpc & Hpl)]).
  cbn [fst snd] in *. destruct (data_of_Some _ _ _ Hf) as [Ed _]. unfold cut_to. cbn [default from_option id].
  rewrite Ed in *. rewrite <-Hab, <-Hid, <-(ag_files _ _ Ha) in *.
  assert (0 ≤ cut_end_offset root) as H0 by (wf_fields Hroot; lia).
  eapply outcome_weaken; [eapply (apply_recovery_outcome aj plan (set_events events d1) f)| |]; rewrite ?Hpc, ?Hab; done || lia.
Qed.

Definition sample_strict : ActiveJournalConfig := manifest_existing (sample_config OpenExisting).
Definition sample_root : DurableCutoff := durable_cutoff sample_barrier.2.1.
Definition sample_root_open := open_manifest_root sample_strict sample_root (set_events [] sample_torn.2.2).
Definition sample_plan : ActiveRecoveryPlan :=
  match sample_root_open.1 with
  | Ok (_, Some plan) => plan
  | _ => mkPlan sample_journal sample_root 0 ShortFramePrefix
  end.
Definition sample_root_journal : ActiveJournal :=
  match sample_root_open.1 with Ok (aj, _) => aj | Err _ => sample_barrier.2.1 end.
Lemma recovery_exact_witness :
  let f := file_of sample_torn.2.2 (journal_name sample_journal) in
  outcome (apply_recovery sample_plan) (sample_root_journal, set_events [] sample_root_open.2)
    (λ _ st, st.1 = sample_root_journal ∧
       dk_files st.2 = <[journal_name sample_journal := cut_to sample_root None f]> (dk_files (set_events [] sample_torn.2.2)))
    (λ _ st, @nil io_event ≠ [] ∧ (st.1 = sample_root_journal ∨ aj_write_state st.1 ≠ Writable) ∧
       (dk_files st.2 = dk_files (set_events [] sample_torn.2.2) ∨
        dk_files st.2 = <[journal_name sample_journal := cut_to sample_root (Some (f_synced f)) f]>
                          (dk_files (set_events [] sample_torn.2.2)))).
Proof.
  apply (recovery_exact sample_strict sample_root (set_events [] sample_torn.2.2) sample_root_journal sample_plan sample_root_open.2 []
    (file_of sample_torn.2.2 (journal_name sample_journal))).
  - unfold sample_root_journal, sample_plan, sample_root_open. by vm_compute.
  - by vm_compute.
  - by vm_compute.
Defined.
