(* ===== verification/Resume.v ===== *)
(** * Resuming a journal at its root

    What a root-directed open answers on files that a crash of a handle left: a
    handle that stands at the records the root covers and, once the plan for the
    bytes beyond them is applied, is as live as before the crash. *)

From S2P Require Import Prelude Bytes Identity Bounded Value Collection Series Registry Admission Wire Layout Crc.
From S2P Require Import Fields Journal Generation Commit Recovery Disk Active Slots Scan Effects Crash Reopen Handle Restart Root.

Section resume.
Context (i : JournalIdentity) (floor : Z) (limits : ActiveJournalLimits).
Context (Hi : wf i) (Hl : wf limits) (Hf : is_u64 floor).
Local Abbreviation recoverable := (recoverable i floor limits).
Local Abbreviation cut_at := (cut_at floor).
Local Abbreviation live := (live i floor limits).

(** ** Scanning up to the root *)

Lemma root_loop_image decode d H :
  decode_limits limits = Ok decode → quiet d → len (data_of d (journal_name i)) ≤ MAX_ACTIVE_JOURNAL_BYTES →
  ∀ room off prev from recs pre rest,
    data_of d (journal_name i) = pre ++ flat H ++ rest → len pre = off → Forall (admissible i limits) H → numbered from H →
    (∀ p, prev = Some p → sequence_get p = from) → (length H ≤ room)%nat →
    ∃ p, root_loop i limits (off + len (flat H)) room off prev recs d = (Ok (recs ++ placed off H, off + len (flat H), p), d).
Proof.
  intros Hdec Hq Hmax. induction H as [|a H IH]; intros room off prev from recs pre rest E Hoff Ha Hn Hp Hr.
  { rewrite len_flat_nil, Z.add_0_r. exists prev. destruct room; cbn [root_loop placed]; rewrite decide_False by lia; by rewrite app_nil_r. }
  apply Forall_cons in Ha as [Ha HH]. apply numbered_cons in Hn as [Hs Hn]. pose proof (wire_pos a) as Hw.
  rewrite flat_cons, <-app_assoc in E. rewrite flat_cons, len_app.
  assert (len (data_of d (journal_name i)) = off + (len (wire a) + (len (flat H) + len rest))) as Hld by (by rewrite E, !len_app, Hoff).
  pose proof (len_flat_nonneg H). pose proof (len_nonneg rest). pose proof (len_nonneg pre).
  destruct room as [|room]; [cbn [length] in Hr; lia|]. cbn [root_loop]. rewrite decide_True by lia.
  unfold JOURNAL_V1_FRAME_PREFIX_LEN. rewrite (run_bind_Ok _ _ _ tt d) by (apply refuse_false; lia).
  rewrite (run_bind_Ok _ _ _ _ _ (quiet_seek d Hq OpSeek)).
  rewrite (run_bind_Ok _ _ _ (slice 0 (0 + 20) (wire a)) d).
  2:{ rewrite <-Hoff, <-(Z.add_0_r (len pre)). eapply read_frame; [done|exact E|lia..]. }
  rewrite (run_bind_Ok _ _ _ decode d) by (unfold lift; by rewrite Hdec).
  rewrite (prefix_wire i limits) by done. cbn [map_err]. rewrite (run_bind_Ok _ _ _ (len (wire a)) d) by done.
  rewrite (run_bind_Ok _ _ _ (off + len (wire a)) d).
  2:{ unfold lift. rewrite checked_add_ok; [done|]. unfold u64_max, MAX_ACTIVE_JOURNAL_BYTES in *. lia. }
  rewrite (run_bind_Ok _ _ _ tt d) by (apply refuse_false; lia).
  rewrite (run_bind_Ok _ _ _ (slice 20 (20 + (len (wire a) - 20)) (wire a)) d).
  2:{ rewrite <-Hoff. eapply read_frame; [done|exact E|lia..]. }
  rewrite join_frame, (decode_wire i limits) by (done || (intros p ->; rewrite (Hp p eq_refl); lia)).
  cbn [map_err]. rewrite (run_bind_Ok _ _ _ a d) by done. pose proof Ha as [_ Hseq _ _ Hscope].
  rewrite (run_bind_Ok _ _ _ tt d) by (by apply refuse_false).
  rewrite (run_bind_Ok _ _ _ (mkSequence (dec_append_sequence a)) d).
  2:{ unfold lift. rewrite (proj2 (sequence_new_Ok _ (mkSequence (dec_append_sequence a)))); [done|].
      split; [done|]. apply in_range_spec in Hseq. cbn in Hseq. lia. }
  destruct (IH room (off + len (wire a)) (Some (mkSequence (dec_append_sequence a))) (from + 1)
    (recs ++ [mkRecovered (off + len (wire a)) a]) (pre ++ wire a) rest) as [p Ep]; try done.
  - by rewrite <-app_assoc.
  - rewrite len_app. lia.
  - intros q [= <-]. cbn. lia.
  - cbn [length] in Hr. lia.
  - exists p. rewrite Z.add_assoc, Ep. by rewrite <-app_assoc.
Qed.
Lemma floor_sequence_Ok : ∃ prev, floor_sequence floor = Ok prev ∧ ∀ p, prev = Some p → sequence_get p = floor.
Proof using Hf.
  apply in_range_spec in Hf. unfold floor_sequence. case_decide; [by exists None|].
  rewrite (proj2 (sequence_new_Ok floor (mkSequence floor))) by (split; done). eexists. split; [done|]. by intros p [= <-].
Qed.
Lemma root_scan_records d H rest s jl root :
  good i floor limits H → data_of d (journal_name i) = image i H ++ rest →
  len (data_of d (journal_name i)) ≤ MAX_ACTIVE_JOURNAL_BYTES → cut_end_offset root = end_of H →
  reads (scan_manifest_root i limits s floor jl root) d (λ scan, scan_records scan = placed JOURNAL_V1_HEADER_LEN H).
Proof using Hi Hl Hf.
  intros [Ha Hn Hr _] Ed Hmax Hroot. destruct (limits_decode limits Hl) as [decode Hdec]. destruct floor_sequence_Ok as (prev & Ep & Hp).
  unfold scan_manifest_root. rewrite Ep. apply only_reads_lift. intros ? [= <-].
  assert (data_of (calm d) (journal_name i) = data_of d (journal_name i)) as Ec by apply aged_data, calm_aged.
  destruct (root_loop_image decode (calm d) H Hdec (calm_quiet d) ltac:(by rewrite Ec) (Z.to_nat (record_limit limits))
    JOURNAL_V1_HEADER_LEN prev floor [] (header_encode (mkHeader (journal_store_id i))) rest) as [p Ep']; try done.
  { rewrite Ec, Ed. unfold image. by rewrite <-app_assoc. }
  { apply len_header, Hi. }
  { unfold len in Hr. lia. }
  change (JOURNAL_V1_HEADER_LEN + len (flat H)) with (end_of H) in Ep'. rewrite <-Hroot in Ep'.
  eapply reads_bind; [apply reads_reader, reader_root_loop|]. intros [[recs off] previous] d1 _ E. rewrite Ep' in E.
  injection E as <- <- <-. cbv zeta. apply reads_refuse. intros _. case_decide; [by apply only_reads_ret|].
  apply only_reads_lift. intros expected _. eapply reads_bind; [apply reads_any, reader_classify_suffix|].
  intros cl d2 _ _. by apply only_reads_ret.
Qed.

(** ** The open *)

(** The journal shows all that will survive, and perhaps more. *)
Lemma recoverable_data d H k s other next :
  recoverable d H k s other next → ∃ rest, data_of d (journal_name i) = image i (take k H) ++ rest ∧
    len (data_of d (journal_name i)) ≤ MAX_ACTIVE_JOURNAL_BYTES ∧ end_of (take k H) ≤ len (data_of d (journal_name i)).
Proof using Hi Hl.
  intros [[_ _ _ Hb] Hk _ (f & Hfj & [rest Ef] & P2 & _ & _) _ _ _ _]. exists rest. unfold data_of, file_of. rewrite Hfj. cbn [default].
  apply prefix_length in P2. pose proof (limits_bounds limits Hl) as [_ Hlb]. pose proof (len_image i Hi H) as Hli.
  unfold id. split_and!; [done|unfold len in *; lia|]. rewrite Ef, len_app, (len_image i Hi). pose proof (len_nonneg rest). lia.
Qed.
Lemma image_split H m k : (m ≤ k ≤ length H)%nat → ∃ more, image i (take k H) = image i (take m H) ++ more.
Proof using Type.
  intros Hm. exists (flat (drop m (take k H))). unfold image. rewrite <-app_assoc, <-flat_app. do 2 f_equal.
  rewrite <-(take_drop m (take k H)) at 1. by rewrite take_take, Nat.min_l by lia.
Qed.

(** The handle of [c] at the first [m] records of [H]. *)
Definition resumed (c : ActiveJournalConfig) (H : list DecodedAdmissionV1) (m : nat) (s : CheckpointState) : ActiveJournal :=
  mkActive i (ac_limits c) s (end_of (take m H)) (placed JOURNAL_V1_HEADER_LEN (take m H)) 0 Writable.
Lemma root_open_resumes c root d H k s other :
  recoverable d H k s other None → config_identity c = i → ac_sequence_floor c = floor → ac_limits c = limits →
  outcome (open_manifest_root c root) d
    (λ p d', ∃ m, (m ≤ k)%nat ∧ cut_at H m s ∧ root = durable_cutoff_from_state i s ∧ p.1 = resumed c H m s)
    (λ _ _, True).
Proof using Hi Hl Hf.
  intros Hr Ei Efl El. destruct (recoverable_data _ _ _ _ _ _ Hr) as (rest & Ed & Hmax & Hlen).
  destruct (recoverable_selected i floor limits Hi d H k s other None _ Hr Hlen) as (f & sel & m & Hfc & Hfl & Hc & Hmk & Hsel & Hread).
  destruct Hsel as [[-> _]|[[=] _]]. set (jl := len (data_of d (journal_name i))) in *.
  pose proof Hr as [Hg Hk _ _ _ _ _ _].
  cut (reads (open_manifest_root c root) d (λ p, ∃ m, (m ≤ k)%nat ∧ cut_at H m s ∧ root = durable_cutoff_from_state i s ∧ p.1 = resumed c H m s)).
  { intros Hx. eapply outcome_weaken; [exact Hx|by intros p d' [_ ?]|done]. }
  unfold open_manifest_root. apply reads_refuse. intros Hn. assert (ac_recovery_policy c = Strict) as -> by not_refused. clear Hn.
  eapply reads_bind; [apply reads_active, reads_any; unfold open_directory; reader|]. intros _ d1 H1 _. rewrite Ei, Efl, El.
  unfold open_existing. eapply reads_bind; [apply reads_active, reads_any; auto with och|]. intros _ d2 H2 _.
  eapply reads_bind; [apply reads_active, reads_any; auto with och|]. intros _ d3 H3 _.
  eapply reads_bind; [apply reads_active, reads_len|]. intros ? d4 H4 ->. assert (aged d d3) as H03 by (trans d2; [by trans d1|done]).
  rewrite (aged_data _ _ (journal_name i) H03). fold jl. do 2 (apply reads_refuse; intros _).
  eapply reads_bind; [apply reads_active, reads_any; auto with och|]. intros hb d5 H5 _.
  apply only_reads_lift. intros header _. apply reads_refuse. intros _.
  eapply reads_bind; [apply reads_active, reads_open_checkpoint|]. intros r d6 H6 ->.
  assert (aged d d6) as H06 by (trans d5; [trans d4; [by trans d3|done]|done]).
  eapply reads_bind; [apply reads_active, reads_reader, reader_read_checkpoint|]. intros read d7 H7 E. cbn beta in E.
  rewrite (aged_calm _ _ H06), Hread in E. injection E as <-. apply reads_refuse. intros _. apply reads_refuse. intros _.
  eapply reads_bind; [by apply (only_reads_ret _ _ (λ x, x = s))|]. intros ? d8 H8 ->. apply reads_refuse. intros Hroot.
  assert (root = durable_cutoff_from_state i s) as Eroot.
  { apply dec_stable. intros Hne. apply Hroot. cbn [is_some_and]. by apply bool_decide_pack. }
  assert (cut_end_offset root = end_of (take m H)) as Eend by (rewrite Eroot; apply (ca_end _ _ _ _ Hc)).
  assert (aged d d8) as H08 by (trans d7; [by trans d6|done]). destruct (image_split H m k ltac:(lia)) as [more Em].
  eapply reads_bind.
  { apply reads_active, reads_and.
    - apply reads_root_scan.
    - eapply (root_scan_records d8 (take m H) (more ++ rest)); rewrite ?(aged_data d d8) by done; try done.
      + by apply good_take.
      + by rewrite Ed, Em, <-app_assoc. }
  intros scan d9 H9 [[Hend Hcut _ _] Hrecs]. apply reads_refuse. intros _. cbv zeta. rewrite decide_False by (by intros [? _]).
  eapply reads_bind; [by apply (only_reads_ret _ _ (λ _, True))|]. intros ad d10 _ _.
  eapply reads_bind; [by apply (only_reads_ret _ _ (λ _, True))|]. intros _ d11 _ _.
  eapply reads_bind; [by apply (only_reads_ret _ _ (λ x, x = s))|]. intros ? d12 _ ->.
  apply only_reads_ret. exists m. split_and!; try done. unfold resumed. cbn [fst]. by rewrite Hrecs, Hend, Eend, El.
Qed.

(** ** Its recovery *)

(** The journal cut at the cutoff of the checkpoint's current slot. *)
Lemma journal_cut d d' H k m s other f :
  recoverable d H k s other None → cut_at H m s → (m ≤ k)%nat →
  dk_files d' = <[journal_name i := f]> (dk_files d) → dk_entries d' = dk_entries d →
  f_data f = image i (take m H) → f_synced f = image i (take m H) → recoverable d' (take m H) m s other None.
Proof using Hi Hl.
  intros [Hg Hk [Hej Hec] _ _ Ho _ (g & o & o' & Hgf & Hslots)] Hc Hmk Ef Ee E1 E2.
  pose proof (limits_bounds limits Hl) as Hlb. assert (take m (take m H) = take m H) as Et by (by rewrite take_take, Nat.min_id).
  split.
  - by apply good_take.
  - rewrite length_take. lia.
  - by rewrite Ee.
  - exists f. rewrite Ef, lookup_insert_eq, E1, E2, Et. by split_and!.
  - exists m. split; [done|]. apply cut_at_take; [done|lia].
  - done.
  - done.
  - exists g, o, o'. rewrite Ef, lookup_insert_ne by apply names_differ. done.
Qed.

Lemma data_cut d H k s other m :
  recoverable d H k s other None → (m ≤ k)%nat →
  end_of (take m H) ≤ len (data_of d (journal_name i)) ∧
  take (Z.to_nat (end_of (take m H))) (data_of d (journal_name i)) = image i (take m H).
Proof using Hi Hl.
  intros Hr Hmk. destruct (recoverable_data _ _ _ _ _ _ Hr) as (rest & Ed & _ & Hlen). pose proof Hr as [_ Hk _ _ _ _ _ _].
  destruct (image_split H m k ltac:(lia)) as [more Em]. rewrite Ed, Em, <-app_assoc in *.
  pose proof (len_image i Hi (take m H)) as Hli. pose proof (len_nonneg (more ++ rest)). split; [rewrite len_app; lia|].
  rewrite <-Hli. unfold len. by rewrite Nat2Z.id, take_app_length.
Qed.

(** Nothing beyond the root: the handle is live as it is. *)
Lemma resumed_live c d d' H k m s other :
  recoverable d H k s other None → openable i d → cut_at H m s → (m ≤ k)%nat → ac_limits c = limits → aged d d' →
  len (data_of d (journal_name i)) = end_of (take m H) → live (resumed c H m s) d' (take m H) m.
Proof using Hi Hl.
  intros Hr Hop Hc Hmk El Ha Hlen. destruct (data_cut _ _ _ _ _ _ Hr Hmk) as [_ Ed]. rewrite take_ge in Ed by (unfold len in *; lia).
  pose proof Hr as [Hg Hk _ (f & Hfj & _ & _ & P3 & P4) _ _ _ _]. specialize (Hop f Hfj).
  assert (f_data f = image i (take m H)) as Ef by (rewrite <-Ed; unfold data_of, file_of; by rewrite Hfj).
  assert (f_synced f = image i (take m H)) as Es.
  { rewrite Ef in Hop. destruct (image_split H m k ltac:(lia)) as [more Em]. rewrite Em in P3.
    apply (anti_symm prefix); [done|]. by trans (image i (take m H) ++ more); [apply prefix_app_r|]. }
  assert (recoverable d' (take m H) m s other None) as Hr'.
  { eapply (journal_cut d d' H k m s other f); try done; [|by rewrite (ag_entries _ _ Ha)].
    rewrite (ag_files _ _ Ha). by rewrite insert_id. }
  split; try done; [|by apply cut_at_take; [|lia]]. exists other. split; [done|]. by rewrite (aged_data d d'), Ed.
Qed.
(** Bytes beyond the root, cut off as the plan says. *)
Lemma cut_resumed_live c d d' H k m s other :
  recoverable d H k s other None → cut_at H m s → (m ≤ k)%nat → ac_limits c = limits →
  let short := take (Z.to_nat (end_of (take m H))) (data_of d (journal_name i)) in
  dk_files d' = <[journal_name i := mkFile short short]> (dk_files d) → dk_entries d' = dk_entries d →
  live (resumed c H m s) d' (take m H) m.
Proof using Hi Hl.
  intros Hr Hc Hmk El short Ef Ee. destruct (data_cut _ _ _ _ _ _ Hr Hmk) as [_ Ed]. fold short in Ed. pose proof Hr as [Hg Hk _ _ _ _ _ _].
  assert (recoverable d' (take m H) m s other None) as Hr' by by eapply journal_cut.
  split; try done; [|by apply cut_at_take; [|lia]]. exists other. split; [done|].
  unfold data_of, file_of. by rewrite Ef, lookup_insert_eq.
Qed.
End resume.

(** What the two ways of settling the journal at its root do when nothing fails. *)
Section settling.
Context (aj : ActiveJournal) (d : disk) (Hq : quiet d).
Local Abbreviation name := (journal_name (aj_identity aj)).

Lemma quiet_mutation {A} (m : Op A) a d' : m d = (Ok a, d') → mutation m (aj, d) = (Ok a, (aj, d')).
Proof using Type. intros E. unfold mutation. cbn [fst snd]. by rewrite E. Qed.
Lemma apply_recovery_quiet plan :
  outcome (apply_recovery plan) (aj, d)
    (λ _ st, st.1 = aj ∧ dk_entries st.2 = dk_entries d ∧ quiet st.2 ∧
       let short := take (Z.to_nat (aj_active_bytes aj)) (data_of d name) in
       0 ≤ aj_active_bytes aj → dk_files st.2 = <[name := mkFile short short]> (dk_files d))
    (λ _ _, True).
Proof using Hq.
  unfold apply_recovery. apply outcome_self. apply outcome_lift_step; [intros _ _|done]. apply outcome_bind, outcome_effect.
  unfold outcome at 1. rewrite quiet_len by done. apply outcome_refuse_step; [intros Hn|done].
  assert (¬ plan_original_length plan ≤ aj_active_bytes aj ∧ plan_original_length plan = len (data_of d name)) as [Hlt Hlen]
    by (split; [tauto|not_refused]).
  set (d1 := put_data name (resize (aj_active_bytes aj) (data_of d name)) d).
  assert (io OpTruncate (set_len name (aj_active_bytes aj)) d = (Ok tt, d1)) as E1.
  { unfold io, map_err_m, set_len. by rewrite quiet_op. }
  apply outcome_bind. unfold outcome at 1. rewrite (quiet_mutation _ _ _ E1).
  assert (quiet d1) as Hq1 by exact Hq.
  unfold outcome, mutation. cbn [fst snd]. unfold io, map_err_m, sync_all. rewrite quiet_op by done. cbn [map_err fst snd].
  split_and!; [done..|]. cbv zeta. intros H0. cbn [put_file with_files dk_files].
  unfold d1, put_data. rewrite put_data_of. cbn [f_data put_file with_files dk_files].
  rewrite insert_insert_eq. by rewrite resize_cut by lia.
Qed.
Lemma synchronize_quiet cutoff :
  outcome (synchronize_recovery_cutoff cutoff) (aj, d)
    (λ _ st, st.1 = aj ∧ dk_entries st.2 = dk_entries d ∧ quiet st.2 ∧ len (data_of d name) = cut_end_offset cutoff ∧
       aj_active_bytes aj = cut_end_offset cutoff ∧
       dk_files st.2 = <[name := mkFile (data_of d name) (data_of d name)]> (dk_files d))
    (λ _ _, True).
Proof using Hq.
  unfold synchronize_recovery_cutoff. apply outcome_self. apply outcome_lift_step; [intros _ _|done]. apply outcome_bind, outcome_effect.
  unfold outcome at 1. rewrite quiet_len by done. apply outcome_refuse_step; [intros Hn|done].
  unfold outcome, mutation. cbn [fst snd]. unfold io, map_err_m, sync_all. rewrite quiet_op by done. cbn [map_err fst snd].
  split_and!; [done..|not_refused|not_refused|done].
Qed.
End settling.
