(* ===== verification/Segment.v ===== *)
(** * Sealed segments: the artifact, its builder, its parser and its queries

    The non-test code of [och-store/src/segment.rs]. A sealed raw journal is
    regrouped into an indexed artifact: a header, a series directory, one frame
    block per series, a directory of the frames by append sequence, a directory
    of the observations of every series most recent first, and a checksum. *)

From Stdlib Require Import Strings.String.
From S2P Require Import Prelude Bytes Identity Bounded Value Collection Series Registry Admission Layout Wire.
From S2P Require Import Fields Crc Journal Generation Disk Active.

(** ** Constants *)

Definition SEGMENT_V1_MAGIC : list byte := list_byte_of_string "OCHSEG01".
Definition SEGMENT_V1_VERSION : Z := 1.
Definition SEGMENT_V1_HEADER_LEN : Z := 192.
Definition SEGMENT_V1_SERIES_ENTRY_LEN : Z := 64.
Definition SEGMENT_V1_APPEND_ENTRY_LEN : Z := 48.
Definition SEGMENT_V1_OBSERVATION_ENTRY_LEN : Z := 96.
Definition SEGMENT_V1_CRC_LEN : Z := 4.
Definition MAX_SEGMENT_V1_SERIES : Z := MAX_ACTIVE_JOURNAL_RECORDS.
Definition MAX_SEGMENT_V1_OBSERVATIONS : Z := MAX_ACTIVE_JOURNAL_RECORDS * MAX_SOURCE_OBSERVATION_CONTEXTS.
Definition MAX_SEGMENT_V1_BYTES : Z :=
  SEGMENT_V1_HEADER_LEN + SEGMENT_V1_SERIES_ENTRY_LEN * MAX_SEGMENT_V1_SERIES
  + (MAX_ACTIVE_JOURNAL_BYTES - JOURNAL_V1_HEADER_LEN)
  + SEGMENT_V1_APPEND_ENTRY_LEN * MAX_ACTIVE_JOURNAL_RECORDS
  + SEGMENT_V1_OBSERVATION_ENTRY_LEN * MAX_SEGMENT_V1_OBSERVATIONS + SEGMENT_V1_CRC_LEN.
Definition MAX_SEGMENT_QUERY_RESULTS_V1 : Z := 16.
Definition SEGMENT_FLAGS_NONE : Z := 0.

(** ** Errors *)

Inductive ManifestIoOperation : Set :=
| MioOpenDirectory | MioReadInventory | MioOpenArtifact | MioCreateArtifact | MioLockStore | MioRead | MioWrite
| MioSyncArtifact | MioPublish | MioRemove | MioSyncDirectory | MioMetadata.
#[export] Instance ManifestIoOperation_eq_dec : EqDecision ManifestIoOperation.
Proof. solve_decision. Defined.
Record ManifestIoEvidence := mkManifestIo {
  mio_operation : ManifestIoOperation; mio_kind : ErrorKind; mio_raw_os_error : option Z }.
#[export] Instance ManifestIoEvidence_eq_dec : EqDecision ManifestIoEvidence.
Proof. solve_decision. Defined.

Inductive SegmentV1Error : Set :=
| SegInvalidSource | SegInvalidSegment | SegStoreMismatch | SegBounds | SegIo (evidence : ManifestIoEvidence).
#[export] Instance SegmentV1Error_eq_dec : EqDecision SegmentV1Error.
Proof. solve_decision. Defined.
Inductive SegmentObservationQueryV1Error : Set := QueryInvalidLimit | QueryInconsistentSegment.
#[export] Instance SegmentObservationQueryV1Error_eq_dec : EqDecision SegmentObservationQueryV1Error.
Proof. solve_decision. Defined.

(** How a call stops early: with an error of its own, or with the panic of a
    slice index or of a copy between slices of different lengths. *)
Inductive stop (E : Type) := Refused (e : E) | Panicked.
Arguments Refused {E} e.
Arguments Panicked {E}.
#[export] Instance stop_eq_dec {E} `{EqDecision E} : EqDecision (stop E).
Proof. solve_decision. Defined.
Abbreviation refuse e := (Err (Refused e)) (only parsing).
(** [r.map_err(|_| e)?] and [o.ok_or(e)?]. *)
Definition or_refuse {E F A} (r : result E A) (e : F) : result (stop F) A := map_err (λ _, Refused e) r.
Definition some_or {F A} (o : option A) (e : F) : result (stop F) A := ok_or o (Refused e).

(** ** Reading byte ranges *)

(** [bytes.get(start..end)], and [&bytes[start..end]]. *)
Definition get_range (start end_ : Z) (bytes : list byte) : option (list byte) :=
  if decide (0 ≤ start ∧ start ≤ end_ ∧ end_ ≤ len bytes) then Some (slice start end_ bytes) else None.
Definition index_range {E} (start end_ : Z) (bytes : list byte) : result (stop E) (list byte) :=
  ok_or (get_range start end_ bytes) Panicked.
(** [bytes[start..start + data.len()].copy_from_slice(data)]. *)
Definition write_at {E} (start : Z) (data bytes : list byte) : result (stop E) (list byte) :=
  let! _ := index_range start (start + len data) bytes in Ok (copy_at start data bytes).
(** [values[index]]. *)
Definition index {E A} (values : list A) (index : Z) : result (stop E) A :=
  ok_or (values !! Z.to_nat index) Panicked.

Definition read_u16 (bytes : list byte) (offset : Z) : option Z :=
  match checked_add usize_max offset 2 with Some end_ => from_be <$> get_range offset end_ bytes | None => None end.
Definition read_u32 (bytes : list byte) (offset : Z) : option Z :=
  match checked_add usize_max offset 4 with Some end_ => from_be <$> get_range offset end_ bytes | None => None end.
Definition read_u64 (bytes : list byte) (offset : Z) : option Z :=
  match checked_add usize_max offset 8 with Some end_ => from_be <$> get_range offset end_ bytes | None => None end.
Definition read_i64 (bytes : list byte) (offset : Z) : option Z :=
  match checked_add usize_max offset 8 with Some end_ => i64_from_be <$> get_range offset end_ bytes | None => None end.

Definition checked_slice (bytes : list byte) (offset length : Z) : option (list byte) :=
  match checked_add usize_max offset length with Some end_ => get_range offset end_ bytes | None => None end.

Definition to_u32 (value : Z) : result (stop SegmentV1Error) Z :=
  if decide (value ≤ u32_max) then Ok value else refuse SegBounds.

Definition read_count (bytes : list byte) (offset maximum : Z) : result (stop SegmentV1Error) Z :=
  let! count := some_or (read_u32 bytes offset) SegInvalidSegment in
  if decide (count > maximum) then refuse SegBounds else Ok count.

(** ** Records *)

Record SegmentV1Inspection := mkInspection {
  in_store_id : StoreId;
  in_source_journal_generation : Z;
  in_sequence_floor : Z;
  in_sequence_cutoff : Z;
  in_source_registry_generation : Z;
  in_source_end_offset : Z;
  in_source_artifact_length : Z;
  in_source_artifact_checksum : Z;
  in_frame_count : Z;
  in_series_count : Z;
  in_observation_count : Z;
  in_series_directory_offset : Z;
  in_series_directory_length : Z;
  in_block_region_offset : Z;
  in_block_region_length : Z;
  in_append_directory_offset : Z;
  in_append_directory_length : Z;
  in_recent_directory_offset : Z;
  in_recent_directory_length : Z;
  in_artifact_length : Z;
  in_artifact_checksum : Z }.
#[export] Instance SegmentV1Inspection_eq_dec : EqDecision SegmentV1Inspection.
Proof. solve_decision. Defined.

Record PreparedSegmentV1 := mkPreparedSegment { ps_bytes : list byte; ps_inspection : SegmentV1Inspection }.

Record SegmentSeriesEntryV1 := mkSeriesEntry {
  se_series_id : SeriesId;
  se_block_offset : Z;
  se_block_length : Z;
  se_frame_count : Z;
  se_observation_count : Z;
  se_recent_offset : Z;
  se_recent_length : Z }.
#[export] Instance SegmentSeriesEntryV1_eq_dec : EqDecision SegmentSeriesEntryV1.
Proof. solve_decision. Defined.

Record SegmentAppendEntryV1 := mkAppendEntry {
  ae_append_sequence : Z;
  ae_series_id : SeriesId;
  ae_frame_offset : Z;
  ae_frame_length : Z;
  ae_frame_ordinal : Z }.
#[export] Instance SegmentAppendEntryV1_eq_dec : EqDecision SegmentAppendEntryV1.
Proof. solve_decision. Defined.

Record SegmentObservationEntryV1 := mkObservationEntry {
  be_series_id : SeriesId;
  be_raw_order_key : RawObservationOrderKey;
  be_append_sequence : Z;
  be_observation_ordinal : Z;
  be_frame_ordinal : Z;
  be_frame_offset : Z;
  be_frame_length : Z }.
#[export] Instance SegmentObservationEntryV1_eq_dec : EqDecision SegmentObservationEntryV1.
Proof. solve_decision. Defined.

Record SegmentV1 := mkSegment {
  sg_bytes : list byte;
  sg_inspection : SegmentV1Inspection;
  sg_series : list SegmentSeriesEntryV1;
  sg_appends : list SegmentAppendEntryV1;
  sg_observations : list SegmentObservationEntryV1 }.

Record SourceObservation := mkSourceObservation { so_raw_order_key : RawObservationOrderKey; so_ordinal : Z }.
Record SourceFrame := mkSourceFrame {
  sf_append_sequence : Z;
  sf_source_offset : Z;
  sf_length : Z;
  sf_observations : list SourceObservation }.
Record FrameLocation := mkFrameLocation {
  fl_append_sequence : Z;
  fl_series_id : SeriesId;
  fl_frame_offset : Z;
  fl_frame_length : Z;
  fl_frame_ordinal : Z }.
Record ObservationLocation := mkObservationLocation {
  ol_series_id : SeriesId;
  ol_raw_order_key : RawObservationOrderKey;
  ol_append_sequence : Z;
  ol_observation_ordinal : Z;
  ol_frame_ordinal : Z;
  ol_frame_offset : Z;
  ol_frame_length : Z }.

(** ** The layout *)

Record SegmentLayout := mkLayout {
  sl_series_offset : Z;
  sl_series_length : Z;
  sl_blocks_offset : Z;
  sl_blocks_length : Z;
  sl_append_offset : Z;
  sl_append_length : Z;
  sl_recent_offset : Z;
  sl_recent_length : Z;
  sl_artifact_length : Z }.

Definition layout_new (frame_count series_count observation_count blocks_length : Z)
  : result (stop SegmentV1Error) SegmentLayout :=
  if decide (frame_count = 0 ∨ frame_count > MAX_ACTIVE_JOURNAL_RECORDS ∨ series_count = 0 ∨
             series_count > MAX_SEGMENT_V1_SERIES ∨ series_count > frame_count ∨
             observation_count > MAX_SEGMENT_V1_OBSERVATIONS ∨ blocks_length = 0 ∨
             blocks_length > MAX_ACTIVE_JOURNAL_BYTES - JOURNAL_V1_HEADER_LEN)
  then refuse SegBounds
  else
    let! series_length := some_or (checked_mul usize_max series_count SEGMENT_V1_SERIES_ENTRY_LEN) SegBounds in
    let! blocks_offset := some_or (checked_add usize_max SEGMENT_V1_HEADER_LEN series_length) SegBounds in
    let! append_offset := some_or (checked_add usize_max blocks_offset blocks_length) SegBounds in
    let! append_length := some_or (checked_mul usize_max frame_count SEGMENT_V1_APPEND_ENTRY_LEN) SegBounds in
    let! recent_offset := some_or (checked_add usize_max append_offset append_length) SegBounds in
    let! recent_length :=
      some_or (checked_mul usize_max observation_count SEGMENT_V1_OBSERVATION_ENTRY_LEN) SegBounds in
    let! artifact_length :=
      some_or (match checked_add usize_max recent_offset recent_length with
               | Some length => checked_add usize_max length SEGMENT_V1_CRC_LEN
               | None => None
               end) SegBounds in
    if decide (artifact_length > MAX_SEGMENT_V1_BYTES) then refuse SegBounds
    else Ok (mkLayout SEGMENT_V1_HEADER_LEN series_length blocks_offset blocks_length append_offset append_length
               recent_offset recent_length artifact_length).

Definition inspection (store_id : StoreId) (sealed : SealedGeneration)
    (frame_count series_count observation_count : Z) (layout : SegmentLayout) (artifact_checksum : Z)
  : SegmentV1Inspection :=
  mkInspection store_id (sg_journal_generation sealed) (sg_sequence_floor sealed) (sg_sequence_cutoff sealed)
    (sg_registry_generation sealed) (sg_end_offset sealed) (sg_artifact_length sealed)
    (sg_artifact_checksum sealed) frame_count series_count observation_count
    (sl_series_offset layout) (sl_series_length layout) (sl_blocks_offset layout) (sl_blocks_length layout)
    (sl_append_offset layout) (sl_append_length layout) (sl_recent_offset layout) (sl_recent_length layout)
    (sl_artifact_length layout) artifact_checksum.

(** ** Fixed-size fields *)

Definition put_u16 {E} (bytes : list byte) (offset value : Z) : result (stop E) (list byte) :=
  write_at offset (be_bytes 2 value) bytes.
Definition put_u32 {E} (bytes : list byte) (offset value : Z) : result (stop E) (list byte) :=
  write_at offset (be_bytes 4 value) bytes.
Definition put_u64 {E} (bytes : list byte) (offset value : Z) : result (stop E) (list byte) :=
  write_at offset (be_bytes 8 value) bytes.

Definition encode_segment_header (bytes : list byte) (store_id : StoreId) (sealed : SealedGeneration)
    (frame_count series_count observation_count : Z) (layout : SegmentLayout)
  : result (stop SegmentV1Error) (list byte) :=
  let! bytes := write_at 0 SEGMENT_V1_MAGIC bytes in
  let! bytes := put_u16 bytes 8 SEGMENT_V1_VERSION in
  let! bytes := put_u16 bytes 10 SEGMENT_V1_HEADER_LEN in
  let! bytes := write_at 16 (into_bytes store_id) bytes in
  let! bytes := put_u64 bytes 32 (sg_journal_generation sealed) in
  let! bytes := put_u64 bytes 40 (sg_sequence_floor sealed) in
  let! bytes := put_u64 bytes 48 (sg_sequence_cutoff sealed) in
  let! bytes := put_u64 bytes 56 (sg_registry_generation sealed) in
  let! bytes := put_u64 bytes 64 (sg_end_offset sealed) in
  let! bytes := put_u64 bytes 72 (sg_artifact_length sealed) in
  let! bytes := put_u32 bytes 80 (sg_artifact_checksum sealed) in
  let! frame_count := to_u32 frame_count in
  let! bytes := put_u32 bytes 84 frame_count in
  let! series_count := to_u32 series_count in
  let! bytes := put_u32 bytes 88 series_count in
  let! observation_count := to_u32 observation_count in
  let! bytes := put_u32 bytes 92 observation_count in
  let! bytes := put_u64 bytes 96 (sl_series_offset layout) in
  let! bytes := put_u64 bytes 104 (sl_series_length layout) in
  let! bytes := put_u64 bytes 112 (sl_blocks_offset layout) in
  let! bytes := put_u64 bytes 120 (sl_blocks_length layout) in
  let! bytes := put_u64 bytes 128 (sl_append_offset layout) in
  let! bytes := put_u64 bytes 136 (sl_append_length layout) in
  let! bytes := put_u64 bytes 144 (sl_recent_offset layout) in
  let! bytes := put_u64 bytes 152 (sl_recent_length layout) in
  put_u64 bytes 160 (sl_artifact_length layout).

Section entries.
Context {E : Type}.

(** An encoder of a fixed-size entry on the mutable subslice that holds it. *)
Definition encode_into (start end_ : Z) (encode : list byte → result (stop E) (list byte)) (bytes : list byte)
  : result (stop E) (list byte) :=
  let! entry := index_range start end_ bytes in
  let! entry := encode entry in
  Ok (copy_at start entry bytes).

Definition encode_series_entry (entry : SegmentSeriesEntryV1) (bytes : list byte) : result (stop E) (list byte) :=
  let! bytes := write_at 0 (into_bytes (se_series_id entry)) bytes in
  let! bytes := put_u64 bytes 16 (se_block_offset entry) in
  let! bytes := put_u64 bytes 24 (se_block_length entry) in
  let! bytes := put_u32 bytes 32 (se_frame_count entry) in
  let! bytes := put_u32 bytes 36 (se_observation_count entry) in
  let! bytes := put_u64 bytes 40 (se_recent_offset entry) in
  put_u64 bytes 48 (se_recent_length entry).

Definition encode_append_entry (entry : FrameLocation) (bytes : list byte) : result (stop E) (list byte) :=
  let! bytes := put_u64 bytes 0 (fl_append_sequence entry) in
  let! bytes := write_at 8 (into_bytes (fl_series_id entry)) bytes in
  let! bytes := put_u64 bytes 24 (fl_frame_offset entry) in
  let! bytes := put_u64 bytes 32 (fl_frame_length entry) in
  put_u32 bytes 40 (fl_frame_ordinal entry).

Definition encode_observation_entry (entry : ObservationLocation) (bytes : list byte) : result (stop E) (list byte) :=
  let effective := key_effective (ol_raw_order_key entry) in
  let receive := key_receive (ol_raw_order_key entry) in
  let! bytes := write_at 0 (into_bytes (ol_series_id entry)) bytes in
  let! bytes := write_at 16 (be_bytes 8 (unix_seconds effective mod 2 ^ 64)) bytes in
  let! bytes := put_u32 bytes 24 (nanosecond effective) in
  let! bytes := write_at 28 (be_bytes 8 (unix_seconds receive mod 2 ^ 64)) bytes in
  let! bytes := put_u32 bytes 36 (nanosecond receive) in
  let! bytes := write_at 40 (into_bytes (key_observation_id (ol_raw_order_key entry))) bytes in
  let! bytes := put_u64 bytes 56 (ol_append_sequence entry) in
  let! bytes := put_u32 bytes 64 (ol_observation_ordinal entry) in
  let! bytes := put_u32 bytes 68 (ol_frame_ordinal entry) in
  let! bytes := put_u64 bytes 72 (ol_frame_offset entry) in
  put_u64 bytes 80 (ol_frame_length entry).
End entries.

Definition decode_series_entry (bytes : list byte) : result (stop SegmentV1Error) SegmentSeriesEntryV1 :=
  if decide (len bytes ≠ SEGMENT_V1_SERIES_ENTRY_LEN ∨ ¬ all_zero (slice 56 64 bytes)) then refuse SegInvalidSegment
  else
    let! series_id := or_refuse (from_bytes (slice 0 16 bytes)) SegInvalidSegment in
    let! block_offset := some_or (read_u64 bytes 16) SegInvalidSegment in
    let! block_length := some_or (read_u64 bytes 24) SegInvalidSegment in
    let! frame_count := some_or (read_u32 bytes 32) SegInvalidSegment in
    let! observation_count := some_or (read_u32 bytes 36) SegInvalidSegment in
    let! recent_offset := some_or (read_u64 bytes 40) SegInvalidSegment in
    let! recent_length := some_or (read_u64 bytes 48) SegInvalidSegment in
    Ok (mkSeriesEntry series_id block_offset block_length frame_count observation_count recent_offset recent_length).

Definition decode_append_entry (bytes : list byte) : result (stop SegmentV1Error) SegmentAppendEntryV1 :=
  if decide (len bytes ≠ SEGMENT_V1_APPEND_ENTRY_LEN ∨ ¬ all_zero (slice 44 48 bytes)) then refuse SegInvalidSegment
  else
    let! append_sequence := some_or (read_u64 bytes 0) SegInvalidSegment in
    let! series_id := or_refuse (from_bytes (slice 8 24 bytes)) SegInvalidSegment in
    let! frame_offset := some_or (read_u64 bytes 24) SegInvalidSegment in
    let! frame_length := some_or (read_u64 bytes 32) SegInvalidSegment in
    let! frame_ordinal := some_or (read_u32 bytes 40) SegInvalidSegment in
    Ok (mkAppendEntry append_sequence series_id frame_offset frame_length frame_ordinal).

Definition decode_observation_entry (bytes : list byte) (expected : ObservationLocation)
  : result (stop SegmentV1Error) SegmentObservationEntryV1 :=
  if decide (len bytes ≠ SEGMENT_V1_OBSERVATION_ENTRY_LEN ∨ ¬ all_zero (slice 88 96 bytes))
  then refuse SegInvalidSegment
  else
    let! series_id := or_refuse (from_bytes (slice 0 16 bytes)) SegInvalidSegment in
    let! effective_seconds := some_or (read_i64 bytes 16) SegInvalidSegment in
    let! effective_nanosecond := some_or (read_u32 bytes 24) SegInvalidSegment in
    let! effective := or_refuse (timestamp_new effective_seconds effective_nanosecond) SegInvalidSegment in
    let! receive_seconds := some_or (read_i64 bytes 28) SegInvalidSegment in
    let! receive_nanosecond := some_or (read_u32 bytes 36) SegInvalidSegment in
    let! receive := or_refuse (timestamp_new receive_seconds receive_nanosecond) SegInvalidSegment in
    let! observation_id := or_refuse (from_bytes (slice 40 56 bytes)) SegInvalidSegment in
    let! append_sequence := some_or (read_u64 bytes 56) SegInvalidSegment in
    let! observation_ordinal := some_or (read_u32 bytes 64) SegInvalidSegment in
    let! frame_ordinal := some_or (read_u32 bytes 68) SegInvalidSegment in
    let! frame_offset := some_or (read_u64 bytes 72) SegInvalidSegment in
    let! frame_length := some_or (read_u64 bytes 80) SegInvalidSegment in
    if decide (effective ≠ key_effective (ol_raw_order_key expected) ∨
               receive ≠ key_receive (ol_raw_order_key expected) ∨
               observation_id ≠ key_observation_id (ol_raw_order_key expected) ∨
               series_id ≠ ol_series_id expected ∨ append_sequence ≠ ol_append_sequence expected ∨
               observation_ordinal ≠ ol_observation_ordinal expected ∨
               frame_ordinal ≠ ol_frame_ordinal expected ∨ frame_offset ≠ ol_frame_offset expected ∨
               frame_length ≠ ol_frame_length expected)
    then refuse SegInvalidSegment
    else Ok (mkObservationEntry series_id (ol_raw_order_key expected) append_sequence observation_ordinal
               frame_ordinal frame_offset frame_length).

(** ** Orders *)

(** [recent_order(left, right)] is not [Greater]: keys descending, then
    sequences descending, then ordinals ascending. *)
Definition recent_order (left right : ObservationLocation) : Prop :=
  key_lt (ol_raw_order_key right) (ol_raw_order_key left) ∨
  (ol_raw_order_key right = ol_raw_order_key left ∧
   (ol_append_sequence right < ol_append_sequence left ∨
    (ol_append_sequence right = ol_append_sequence left ∧
     ol_observation_ordinal left ≤ ol_observation_ordinal right))).
#[export] Instance recent_order_dec : RelDecision recent_order.
Proof. intros a b. unfold recent_order. apply _. Defined.
Definition sort_recent (entries : list ObservationLocation) : list ObservationLocation :=
  merge_sort recent_order entries.

(** The parser's order: series ascending, then [recent_order]. *)
Definition series_recent_order (left right : ObservationLocation) : Prop :=
  id_lt (ol_series_id left) (ol_series_id right) ∨
  (ol_series_id left = ol_series_id right ∧ recent_order left right).
#[export] Instance series_recent_order_dec : RelDecision series_recent_order.
Proof. intros a b. unfold series_recent_order. apply _. Defined.

(** [sort_by_key(|entry| entry.append_sequence)], stable. *)
Definition sequence_order (left right : FrameLocation) : Prop := fl_append_sequence left ≤ fl_append_sequence right.
#[export] Instance sequence_order_dec : RelDecision sequence_order.
Proof. intros a b. unfold sequence_order. apply _. Defined.
