(* ===== verification/SegmentWire.v ===== *)
(** * The bytes of segment entries

    Directory entries as lists of fixed-width fields, and what the encoders and
    decoders of [segment.rs] do on them. *)

From S2P Require Import Prelude Bytes Identity Bounded Value Collection Series Registry Admission Layout Wire.
From S2P Require Import Fields Crc Journal Generation Disk Active Scan Segment.

(** ** Fields at consecutive offsets *)

Fixpoint fields_at (off : Z) (fs : list (list byte)) (l : list byte) : Prop :=
  match fs with
  | [] => True
  | f :: fs => slice off (off + len f) l = f ∧ fields_at (off + len f) fs l
  end.

Lemma fields_at_slice off fs l :
  0 ≤ off → off + fields_len fs ≤ len l → fields_at off fs l ↔ slice off (off + fields_len fs) l = concat fs.
Proof.
  revert off. induction fs as [|f fs IH]; intros off Ho Hl.
  - rewrite fields_len_nil, Z.add_0_r. cbn [fields_at concat]. unfold slice. by rewrite Z.sub_diag.
  - rewrite fields_len_cons in *. cbn [fields_at concat]. pose proof (len_nonneg f). pose proof (len_nonneg (concat fs)).
    fold (fields_len fs) in *. rewrite IH by (lia || (fold (fields_len fs); lia)).
    replace (off + len f + fields_len fs) with (off + (len f + fields_len fs)) by lia.
    rewrite <-(slice_join off (off + len f) (off + (len f + fields_len fs))) by lia.
    split; [by intros [-> ->]|]. intros E. apply app_inj_1 in E; [done|].
    pose proof (len_slice off (off + len f) l). unfold len in *. lia.
Qed.

Lemma fields_at_concat fs l : len l = fields_len fs → fields_at 0 fs l ↔ l = concat fs.
Proof. intros Hl. rewrite fields_at_slice by lia. by rewrite Z.add_0_l, slice_all. Qed.

(** ** Reading numbers and identities *)

Section reads.
Context (bytes : list byte) (Hmax : len bytes ≤ usize_max).

Lemma get_range_Some a b r : get_range a b bytes = Some r ↔ (0 ≤ a ∧ a ≤ b ∧ b ≤ len bytes) ∧ r = slice a b bytes.
Proof. unfold get_range. case_decide; naive_solver. Qed.
Lemma get_range_in a b : 0 ≤ a → a ≤ b → b ≤ len bytes → get_range a b bytes = Some (slice a b bytes).
Proof. intros. by apply get_range_Some. Qed.
Lemma index_range_in {E} a b : 0 ≤ a → a ≤ b → b ≤ len bytes → @index_range E a b bytes = Ok (slice a b bytes).
Proof. intros. unfold index_range. by rewrite get_range_in. Qed.

Lemma from_be_slice n off v :
  0 ≤ off → off + Z.of_nat n ≤ len bytes →
  from_be (slice off (off + Z.of_nat n) bytes) = v ↔
  in_range 0 (256 ^ Z.of_nat n - 1) v ∧ slice off (off + Z.of_nat n) bytes = be_bytes n v.
Proof.
  intros Ho Hl. pose proof (len_slice off (off + Z.of_nat n) bytes ltac:(lia) ltac:(lia)) as Hs.
  rewrite in_range_spec. split.
  - intros <-. pose proof (from_be_range (slice off (off + Z.of_nat n) bytes)) as Hr.
    rewrite Hs in Hr. replace (off + Z.of_nat n - off) with (Z.of_nat n) in Hr by lia. split; [lia|].
    symmetry. apply be_bytes_from_be'. unfold len in Hs. lia.
  - intros [Hv ->]. apply from_be_bytes_small. lia.
Qed.

Lemma read_u16_Some off v :
  0 ≤ off → off + 2 ≤ len bytes → read_u16 bytes off = Some v ↔ in_range 0 u16_max v ∧ slice off (off + 2) bytes = be_bytes 2 v.
Proof.
  intros Ho Hl. unfold read_u16. rewrite checked_add_ok by lia. rewrite get_range_in by lia. cbn [fmap option_fmap option_map].
  rewrite (inj_iff Some). by apply (from_be_slice 2).
Qed.
Lemma read_u32_Some off v :
  0 ≤ off → off + 4 ≤ len bytes → read_u32 bytes off = Some v ↔ is_u32 v ∧ slice off (off + 4) bytes = be_bytes 4 v.
Proof.
  intros Ho Hl. unfold read_u32. rewrite checked_add_ok by lia. rewrite get_range_in by lia. cbn [fmap option_fmap option_map].
  rewrite (inj_iff Some). by apply (from_be_slice 4).
Qed.
Lemma read_u64_Some off v :
  0 ≤ off → off + 8 ≤ len bytes → read_u64 bytes off = Some v ↔ is_u64 v ∧ slice off (off + 8) bytes = be_bytes 8 v.
Proof.
  intros Ho Hl. unfold read_u64. rewrite checked_add_ok by lia. rewrite get_range_in by lia. cbn [fmap option_fmap option_map].
  rewrite (inj_iff Some). by apply (from_be_slice 8).
Qed.
Lemma read_i64_Some off v :
  0 ≤ off → off + 8 ≤ len bytes → read_i64 bytes off = Some v ↔ is_i64 v ∧ slice off (off + 8) bytes = be_bytes 8 v.
Proof.
  intros Ho Hl. unfold read_i64. rewrite checked_add_ok by lia. rewrite get_range_in by lia. cbn [fmap option_fmap option_map].
  rewrite (inj_iff Some). pose proof (len_slice off (off + 8) bytes ltac:(lia) ltac:(lia)) as Hs.
  assert (length (slice off (off + 8) bytes) = 8%nat) as H8 by (unfold len in Hs; lia). split.
  - intros <-. split; [by apply i64_from_be_range|]. by rewrite be_bytes_i64_from_be.
  - intros [Hv ->]. by apply i64_from_be_bytes.
Qed.

Lemma from_bytes_slice {F} off (id : Identity F) :
  0 ≤ off → off + 16 ≤ len bytes → from_bytes (slice off (off + 16) bytes) = Ok id ↔ wf id ∧ slice off (off + 16) bytes = into_bytes id.
Proof.
  intros Ho Hl. pose proof (len_slice off (off + 16) bytes ltac:(lia) ltac:(lia)) as Hs.
  split; [intros H; apply from_bytes_wf in H as [? <-]; [done|unfold len in Hs; lia]|].
  intros [Hw ->]. by apply from_bytes_into.
Qed.

Lemma all_zero_slice a b : 0 ≤ a ≤ b → b ≤ len bytes → all_zero (slice a b bytes) ↔ slice a b bytes = zeros (Z.to_nat (b - a)).
Proof. intros Ha Hb. split; [by apply slice_zero|]. intros ->. apply all_zero_zeros. Qed.

(** The timestamp read from a seconds field and a nanosecond field. *)
Lemma timestamp_read s n t : is_i64 s → is_u32 n → timestamp_new s n = Ok t ↔ wf t ∧ s = unix_seconds t ∧ n = nanosecond t.
Proof.
  intros Hs Hn%in_range_spec. split.
  - intros H. apply timestamp_new_Ok in H as (? & <- & <-); [done|done|lia].
  - intros (Hw & -> & ->). by apply timestamp_new_wf.
Qed.
End reads.

(** ** Fields of the entries *)

#[export] Instance wf_series_entry : Wf SegmentSeriesEntryV1 := λ e,
  wf (se_series_id e) && is_u64 (se_block_offset e) && is_u64 (se_block_length e) && is_u32 (se_frame_count e) &&
  is_u32 (se_observation_count e) && is_u64 (se_recent_offset e) && is_u64 (se_recent_length e).
#[export] Instance wf_append_entry : Wf SegmentAppendEntryV1 := λ e,
  is_u64 (ae_append_sequence e) && wf (ae_series_id e) && is_u64 (ae_frame_offset e) &&
  is_u64 (ae_frame_length e) && is_u32 (ae_frame_ordinal e).
#[export] Instance wf_order_key : Wf RawObservationOrderKey := λ k,
  wf (key_effective k) && wf (key_receive k) && wf (key_observation_id k).
#[export] Instance wf_frame_location : Wf FrameLocation := λ e,
  is_u64 (fl_append_sequence e) && wf (fl_series_id e) && is_u64 (fl_frame_offset e) &&
  is_u64 (fl_frame_length e) && is_u32 (fl_frame_ordinal e).
#[export] Instance wf_observation_location : Wf ObservationLocation := λ e,
  wf (ol_series_id e) && wf (ol_raw_order_key e) && is_u64 (ol_append_sequence e) &&
  is_u32 (ol_observation_ordinal e) && is_u32 (ol_frame_ordinal e) && is_u64 (ol_frame_offset e) &&
  is_u64 (ol_frame_length e).

Definition series_fields (e : SegmentSeriesEntryV1) : list (list byte) :=
  [into_bytes (se_series_id e); be_bytes 8 (se_block_offset e); be_bytes 8 (se_block_length e);
   be_bytes 4 (se_frame_count e); be_bytes 4 (se_observation_count e); be_bytes 8 (se_recent_offset e);
   be_bytes 8 (se_recent_length e); zeros 8].
Definition append_fields (e : FrameLocation) : list (list byte) :=
  [be_bytes 8 (fl_append_sequence e); into_bytes (fl_series_id e); be_bytes 8 (fl_frame_offset e);
   be_bytes 8 (fl_frame_length e); be_bytes 4 (fl_frame_ordinal e); zeros 4].
Definition observation_fields (e : ObservationLocation) : list (list byte) :=
  let k := ol_raw_order_key e in
  [into_bytes (ol_series_id e); be_bytes 8 (unix_seconds (key_effective k)); be_bytes 4 (nanosecond (key_effective k));
   be_bytes 8 (unix_seconds (key_receive k)); be_bytes 4 (nanosecond (key_receive k));
   into_bytes (key_observation_id k); be_bytes 8 (ol_append_sequence e); be_bytes 4 (ol_observation_ordinal e);
   be_bytes 4 (ol_frame_ordinal e); be_bytes 8 (ol_frame_offset e); be_bytes 8 (ol_frame_length e); zeros 8].
Definition series_wire (e : SegmentSeriesEntryV1) : list byte := concat (series_fields e).
Definition append_wire (e : FrameLocation) : list byte := concat (append_fields e).
Definition observation_wire (e : ObservationLocation) : list byte := concat (observation_fields e).

(** The entries the parser returns for a location. *)
Definition append_entry (l : FrameLocation) : SegmentAppendEntryV1 :=
  mkAppendEntry (fl_append_sequence l) (fl_series_id l) (fl_frame_offset l) (fl_frame_length l) (fl_frame_ordinal l).
Definition observation_entry (l : ObservationLocation) : SegmentObservationEntryV1 :=
  mkObservationEntry (ol_series_id l) (ol_raw_order_key l) (ol_append_sequence l) (ol_observation_ordinal l)
    (ol_frame_ordinal l) (ol_frame_offset l) (ol_frame_length l).

(** Lengths of fields: [wf] identities are 16 bytes. *)
Ltac fields_len_tac :=
  unfold fields_len; cbn [concat]; autorewrite with len; rewrite ?len_into_bytes by assumption; lia.
Lemma len_series_fields e : wf e → fields_len (series_fields e) = 64.
Proof. intros Hw. wf_split Hw. unfold series_fields. fields_len_tac. Qed.
Lemma len_append_fields e : wf (fl_series_id e) → fields_len (append_fields e) = 48.
Proof. intros Hw. unfold append_fields. fields_len_tac. Qed.
Lemma len_observation_fields e : wf (ol_series_id e) → wf (key_observation_id (ol_raw_order_key e)) → fields_len (observation_fields e) = 96.
Proof. intros ??. unfold observation_fields. fields_len_tac. Qed.

(** ** Decoding entries *)

Lemma some_or_Ok {E A B} (o : option A) (e : E) (k : A → result (stop E) B) x :
  (let! y := some_or o e in k y) = Ok x ↔ ∃ y, o = Some y ∧ k y = Ok x.
Proof. apply ok_or_Ok. Qed.
Lemma or_refuse_Ok {E F A B} (r : result E A) (e : F) (k : A → result (stop F) B) x :
  (let! y := or_refuse r e in k y) = Ok x ↔ ∃ y, r = Ok y ∧ k y = Ok x.
Proof. apply map_err_Ok. Qed.

(** [peel] takes the next read or check of an accepted input apart;
    [got_reads] turns the reads into fields. *)
Ltac peel H :=
  lazymatch type of H with
  | (let! _ := some_or ?o _ in _) = Ok _ =>
    let x := fresh "x" in let E := fresh "E" in apply some_or_Ok in H as (x & E & H)
  | (let! _ := or_refuse ?r _ in _) = Ok _ =>
    let x := fresh "x" in let E := fresh "E" in apply or_refuse_Ok in H as (x & E & H)
  | (if decide _ then _ else _) = Ok _ => let G := fresh "G" in apply guard_Ok in H as [G H]
  end.
Ltac got_reads :=
  repeat match goal with
  | E : read_u16 _ _ = Some _ |- _ => apply read_u16_Some in E as [? E]; [|lia..]
  | E : read_u64 _ _ = Some _ |- _ => apply read_u64_Some in E as [? E]; [|lia..]
  | E : read_u32 _ _ = Some _ |- _ => apply read_u32_Some in E as [? E]; [|lia..]
  | E : read_i64 _ _ = Some _ |- _ => apply read_i64_Some in E as [? E]; [|lia..]
  | E : timestamp_new _ _ = Ok _ |- _ => apply timestamp_read in E as (? & -> & ->); [|assumption..]
  | E : from_bytes (slice ?a ?b _) = Ok _ |- _ => apply (from_bytes_slice _ a) in E as [? E]; [|lia..]
  end.
(** [read_back] evaluates a decoder on known fields. *)
Section read_back.
Context (bytes : list byte) (off end_ v : Z) (Hmax : len bytes ≤ usize_max) (Ho : 0 ≤ off) (Hl : end_ ≤ len bytes).
Lemma read_u16_back : slice off end_ bytes = be_bytes 2 v → in_range 0 u16_max v → end_ = off + 2 → read_u16 bytes off = Some v.
Proof using All. intros F Hv ->. by apply read_u16_Some. Qed.
Lemma read_u32_back : slice off end_ bytes = be_bytes 4 v → is_u32 v → end_ = off + 4 → read_u32 bytes off = Some v.
Proof using All. intros F Hv ->. by apply read_u32_Some. Qed.
Lemma read_u64_back : slice off end_ bytes = be_bytes 8 v → is_u64 v → end_ = off + 8 → read_u64 bytes off = Some v.
Proof using All. intros F Hv ->. by apply read_u64_Some. Qed.
Lemma read_i64_back : slice off end_ bytes = be_bytes 8 v → is_i64 v → end_ = off + 8 → read_i64 bytes off = Some v.
Proof using All. intros F Hv ->. by apply read_i64_Some. Qed.
End read_back.
Ltac read_back :=
  repeat match goal with
  | F : slice ?a ?b ?l = be_bytes 2 ?v |- context [read_u16 ?l ?a] =>
    rewrite (λ H1 H2 H3, read_u16_back l a b v H1 H2 H3 F) by (assumption || lia || done)
  | F : slice ?a ?b ?l = be_bytes 4 ?v |- context [read_u32 ?l ?a] =>
    rewrite (λ H1 H2 H3, read_u32_back l a b v H1 H2 H3 F) by (assumption || lia || done)
  | F : slice ?a ?b ?l = be_bytes 8 ?v |- context [read_u64 ?l ?a] =>
    rewrite (λ H1 H2 H3, read_u64_back l a b v H1 H2 H3 F) by (assumption || lia || done)
  | F : slice ?a ?b ?l = be_bytes 8 ?v |- context [read_i64 ?l ?a] =>
    rewrite (λ H1 H2 H3, read_i64_back l a b v H1 H2 H3 F) by (assumption || lia || done)
  | F : slice ?a ?b ?l = into_bytes ?i |- context [from_bytes (slice ?a ?b ?l)] =>
    rewrite F, (from_bytes_into i) by assumption
  | |- context [timestamp_new (unix_seconds ?t) (nanosecond ?t)] => rewrite (timestamp_new_wf t) by assumption
  | |- _ => progress cbn [some_or or_refuse ok_or map_err]
  end.
(** The fields of a known entry, each at its offset. *)
Ltac entry_fields F fields Hlen :=
  pose proof (proj2 (fields_at_concat fields (concat fields) eq_refl) eq_refl) as F;
  let H := fresh "Hl" in pose proof Hlen as H; unfold fields_len in H.
Ltac offsets F := cbv [Z.add Pos.add Pos.succ Z.of_nat Pos.of_succ_nat Pos.add_carry] in F.

Lemma decode_series_entry_Ok bytes e : decode_series_entry bytes = Ok e ↔ wf e ∧ bytes = series_wire e.
Proof.
  unfold decode_series_entry, SEGMENT_V1_SERIES_ENTRY_LEN. split.
  - intros H. peel H. assert (len bytes = 64) as Hl by not_refused. assert (all_zero (slice 56 64 bytes)) as Hz by not_refused.
    do 7 peel H. injection H as <-. apply all_zero_slice in Hz; [|lia..].
    assert (len bytes ≤ usize_max) by (unfold usize_max, u64_max; lia). got_reads.
    assert (wf (mkSeriesEntry x x0 x1 x2 x3 x4 x5)) as Hw by (wf_intro; assumption).
    split; [exact Hw|]. apply fields_at_concat; [by rewrite len_series_fields|].
    unfold series_fields. cbn [fields_at se_series_id se_block_offset se_block_length se_frame_count se_observation_count se_recent_offset
      se_recent_length]. autorewrite with len. rewrite len_into_bytes by assumption.
    split_and!; assumption || done.
  - intros [Hw ->]. entry_fields Hf (series_fields e) (len_series_fields e Hw). fold (series_wire e) in Hf, Hl.
    set (bytes := series_wire e) in *. clearbody bytes. wf_split Hw.
    unfold series_fields in Hf. cbn [fields_at] in Hf. autorewrite with len in Hf. rewrite len_into_bytes in Hf by assumption.
    offsets Hf. destruct Hf as (F1 & F2 & F3 & F4 & F5 & F6 & F7 & F8 & _).
    assert (len bytes ≤ usize_max) by (unfold usize_max, u64_max; lia).
    rewrite decide_False by (rewrite all_zero_slice by lia; intros [?|N]; [done|by apply N]).
    read_back. by destruct e.
Qed.

Lemma decode_append_entry_Ok bytes l :
  decode_append_entry bytes = Ok (append_entry l) ↔ wf l ∧ bytes = append_wire l.
Proof.
  unfold decode_append_entry, SEGMENT_V1_APPEND_ENTRY_LEN. split.
  - intros H. peel H. assert (len bytes = 48) as Hl by not_refused. assert (all_zero (slice 44 48 bytes)) as Hz by not_refused.
    do 5 peel H. destruct l as [q i o n k]. unfold append_entry in H. cbn in H. injection H as -> -> -> -> ->.
    apply all_zero_slice in Hz; [|lia..].
    assert (len bytes ≤ usize_max) by (unfold usize_max, u64_max; lia). got_reads.
    assert (wf (mkFrameLocation q i o n k)) as Hw by (wf_intro; assumption).
    split; [exact Hw|]. apply fields_at_concat; [by rewrite len_append_fields|].
    unfold append_fields. cbn [fields_at fl_append_sequence fl_series_id fl_frame_offset fl_frame_length fl_frame_ordinal].
    autorewrite with len. rewrite len_into_bytes by assumption. split_and!; assumption || done.
  - intros [Hw ->]. assert (wf (fl_series_id l)) as Hi by (wf_split Hw; assumption).
    entry_fields Hf (append_fields l) (len_append_fields l Hi). fold (append_wire l) in Hf, Hl.
    set (bytes := append_wire l) in *. clearbody bytes. wf_split Hw.
    unfold append_fields in Hf. cbn [fields_at] in Hf. autorewrite with len in Hf. rewrite len_into_bytes in Hf by assumption.
    offsets Hf. destruct Hf as (F1 & F2 & F3 & F4 & F5 & F6 & _).
    assert (len bytes ≤ usize_max) by (unfold usize_max, u64_max; lia).
    rewrite decide_False by (rewrite all_zero_slice by lia; intros [?|N]; [done|by apply N]).
    read_back. done.
Qed.

Lemma timestamp_ranges t : wf t → is_i64 (unix_seconds t) ∧ is_u32 (nanosecond t).
Proof. rewrite wf_timestamp_spec, !in_range_spec. unfold NANOS_PER_SECOND, u32_max. lia. Qed.

Lemma decode_observation_entry_Ok bytes l e :
  decode_observation_entry bytes l = Ok e ↔ wf l ∧ bytes = observation_wire l ∧ e = observation_entry l.
Proof.
  unfold decode_observation_entry, SEGMENT_V1_OBSERVATION_ENTRY_LEN. split.
  - intros H. peel H. assert (len bytes = 96) as Hl by not_refused. assert (all_zero (slice 88 96 bytes)) as Hz by not_refused.
    do 14 peel H. injection H as <-. apply all_zero_slice in Hz; [|lia..].
    assert (len bytes ≤ usize_max) by (unfold usize_max, u64_max; lia). got_reads.
    destruct l as [i [te tr o] q n k fo fl]. cbn [key_effective key_receive key_observation_id ol_series_id ol_raw_order_key
      ol_append_sequence ol_observation_ordinal ol_frame_ordinal ol_frame_offset ol_frame_length] in *.
    do 8 (apply refused_or in G0 as [-> G0]; [|apply _]).
    apply dec_stable in G0 as ->.
    assert (wf (mkObservationLocation i (mkOrderKey te tr o) q n k fo fl)) as Hw by (wf_intro; try assumption; wf_intro; assumption).
    split; [exact Hw|]. split; [|done]. apply fields_at_concat; [by rewrite len_observation_fields|].
    unfold observation_fields. cbn [fields_at key_effective key_receive key_observation_id ol_series_id ol_raw_order_key
      ol_append_sequence ol_observation_ordinal ol_frame_ordinal ol_frame_offset ol_frame_length].
    autorewrite with len. rewrite !len_into_bytes by assumption. split_and!; assumption || done.
  - intros (Hw & -> & ->). assert (wf (ol_series_id l) ∧ wf (key_observation_id (ol_raw_order_key l))) as [Hi Hk].
    { wf_split Hw. match goal with H : Is_true (wf (ol_raw_order_key l)) |- _ => wf_split H end. done. }
    entry_fields Hf (observation_fields l) (len_observation_fields l Hi Hk). fold (observation_wire l) in Hf, Hl.
    set (bytes := observation_wire l) in *. clearbody bytes. wf_split Hw.
    match goal with H : Is_true (wf (ol_raw_order_key l)) |- _ => wf_split H end.
    unfold observation_fields in Hf. cbn [fields_at] in Hf. autorewrite with len in Hf. rewrite !len_into_bytes in Hf by assumption.
    offsets Hf. destruct Hf as (F1 & F2 & F3 & F4 & F5 & F6 & F7 & F8 & F9 & F10 & F11 & F12 & _).
    assert (len bytes ≤ usize_max) by (unfold usize_max, u64_max; lia).
    rewrite decide_False by (rewrite all_zero_slice by lia; intros [?|N]; [done|by apply N]).
    destruct (timestamp_ranges (key_effective (ol_raw_order_key l))), (timestamp_ranges (key_receive (ol_raw_order_key l))); [assumption..|].
    read_back. rewrite decide_False by tauto. done.
Qed.

(** ** Encoding entries *)

Lemma write_at_mid {E} a data pre old post :
  len pre = a → len old = len data → @write_at E a data (pre ++ old ++ post) = Ok (pre ++ data ++ post).
Proof.
  intros Hp Ho. unfold write_at. pose proof (len_nonneg pre). pose proof (len_nonneg data). pose proof (len_nonneg post).
  rewrite index_range_in by (rewrite ?len_app; lia). by rewrite copy_at_app.
Qed.
Lemma write_field {E} a data pre n :
  len pre = a → len data ≤ n →
  @write_at E a data (pre ++ zeros (Z.to_nat n)) = Ok ((pre ++ data) ++ zeros (Z.to_nat (n - len data))).
Proof.
  intros Hp Hn. pose proof (len_nonneg data). replace n with (len data + (n - len data)) at 1 by lia.
  rewrite zeros_split by lia. rewrite write_at_mid; [by rewrite app_assoc|done|]. rewrite len_zeros. lia.
Qed.
Lemma encode_into_mid {E} a b encode old new pre post :
  len pre = a → b = a + len old → len new = len old → encode old = Ok new →
  @encode_into E a b encode (pre ++ old ++ post) = Ok (pre ++ new ++ post).
Proof.
  intros Hp -> Hn He. unfold encode_into. pose proof (len_nonneg pre). pose proof (len_nonneg old). pose proof (len_nonneg post).
  rewrite index_range_in by (rewrite ?len_app; lia). rewrite slice_app by (done || lia).
  rewrite He. by rewrite copy_at_app.
Qed.

(** Field after field from the start of a zeroed entry; what is left is zero. *)
Ltac write_fields :=
  repeat (unfold put_u16, put_u32, put_u64;
          rewrite write_field by (autorewrite with len; rewrite ?len_into_bytes by assumption; lia);
          rewrite ?len_be_bytes, ?len_into_bytes by assumption).

Lemma encode_series_entry_layout {E} e :
  wf (se_series_id e) → @encode_series_entry E e (zeros 64) = Ok (series_wire e).
Proof.
  intros Hw. unfold encode_series_entry. change (zeros 64) with ([] ++ zeros (Z.to_nat 64)). write_fields.
  f_equal. unfold series_wire, series_fields. cbn [concat]. by rewrite <-!app_assoc.
Qed.
Lemma encode_append_entry_layout {E} e :
  wf (fl_series_id e) → @encode_append_entry E e (zeros 48) = Ok (append_wire e).
Proof.
  intros Hw. unfold encode_append_entry. change (zeros 48) with ([] ++ zeros (Z.to_nat 48)). write_fields.
  f_equal. unfold append_wire, append_fields. cbn [concat]. by rewrite <-!app_assoc.
Qed.
Lemma encode_observation_entry_layout {E} e :
  wf (ol_series_id e) → wf (key_observation_id (ol_raw_order_key e)) →
  @encode_observation_entry E e (zeros 96) = Ok (observation_wire e).
Proof.
  intros Hw Hk. unfold encode_observation_entry. change (zeros 96) with ([] ++ zeros (Z.to_nat 96)).
  change (2 ^ 64) with (256 ^ Z.of_nat 8). rewrite !be_bytes_mod. write_fields.
  f_equal. unfold observation_wire, observation_fields. cbn [concat]. by rewrite <-!app_assoc.
Qed.
Lemma len_series_wire e : wf e → len (series_wire e) = 64.
Proof. apply len_series_fields. Qed.
Lemma len_append_wire e : wf (fl_series_id e) → len (append_wire e) = 48.
Proof. apply len_append_fields. Qed.
Lemma len_observation_wire e : wf (ol_series_id e) → wf (key_observation_id (ol_raw_order_key e)) → len (observation_wire e) = 96.
Proof. apply len_observation_fields. Qed.

(** ** The layout and the header *)

(** The layout that counts and a block length determine, when the builder
    accepts them. *)
Definition layout_of (frames series observations blocks : Z) : SegmentLayout :=
  let append := 192 + 64 * series + blocks in
  let recent := append + 48 * frames in
  mkLayout 192 (64 * series) (192 + 64 * series) blocks append (48 * frames) recent (96 * observations)
    (recent + 96 * observations + 4).
Record counts_ok (frames series observations blocks : Z) : Prop := {
  co_frames : 0 < frames ≤ MAX_ACTIVE_JOURNAL_RECORDS;
  co_series : 0 < series ≤ frames;
  co_observations : 0 ≤ observations ≤ MAX_SEGMENT_V1_OBSERVATIONS;
  co_blocks : 0 < blocks ≤ MAX_ACTIVE_JOURNAL_BYTES - JOURNAL_V1_HEADER_LEN }.

Lemma and_under (P Q R : Prop) : (P → (Q ↔ R)) → (P ∧ Q ↔ P ∧ R).
Proof. tauto. Qed.

Lemma layout_new_Ok f s o b l :
  0 ≤ f → 0 ≤ s → 0 ≤ o → 0 ≤ b → layout_new f s o b = Ok l ↔ counts_ok f s o b ∧ l = layout_of f s o b.
Proof.
  intros Hf Hs Ho Hb. unfold layout_new. rewrite guard_Ok.
  assert (¬ (f = 0 ∨ f > MAX_ACTIVE_JOURNAL_RECORDS ∨ s = 0 ∨ s > MAX_SEGMENT_V1_SERIES ∨ s > f ∨
             o > MAX_SEGMENT_V1_OBSERVATIONS ∨ b = 0 ∨ b > MAX_ACTIVE_JOURNAL_BYTES - JOURNAL_V1_HEADER_LEN)
          ↔ counts_ok f s o b) as ->.
  { unfold MAX_SEGMENT_V1_SERIES. split; [intros H; split; lia|]. intros [] H. lia. }
  apply and_under. intros [Hf' Hs' Ho' Hb'].
  unfold MAX_SEGMENT_V1_BYTES. unfold SEGMENT_V1_SERIES_ENTRY_LEN, SEGMENT_V1_APPEND_ENTRY_LEN, SEGMENT_V1_OBSERVATION_ENTRY_LEN, SEGMENT_V1_HEADER_LEN,
    SEGMENT_V1_CRC_LEN, MAX_SEGMENT_V1_SERIES, MAX_SEGMENT_V1_OBSERVATIONS,
    MAX_SOURCE_OBSERVATION_CONTEXTS, MAX_OBSERVATIONS, MAX_ACTIVE_JOURNAL_RECORDS, MAX_ACTIVE_JOURNAL_BYTES,
    JOURNAL_V1_HEADER_LEN, usize_max, u64_max in *.
  repeat (first [rewrite checked_mul_ok by lia | rewrite checked_add_ok by lia | progress cbn [some_or ok_or]]).
  rewrite decide_False by lia. unfold layout_of.
  rewrite (Z.mul_comm s), (Z.mul_comm f), (Z.mul_comm o).
  split; [by intros [= <-]|by intros ->].
Qed.

Definition segment_header_fields (store : StoreId) (sealed : SealedGeneration) (frames series observations : Z)
    (l : SegmentLayout) : list (list byte) :=
  [SEGMENT_V1_MAGIC; be_bytes 2 SEGMENT_V1_VERSION; be_bytes 2 SEGMENT_V1_HEADER_LEN; be_bytes 4 SEGMENT_FLAGS_NONE;
   into_bytes store; be_bytes 8 (sg_journal_generation sealed); be_bytes 8 (sg_sequence_floor sealed);
   be_bytes 8 (sg_sequence_cutoff sealed); be_bytes 8 (sg_registry_generation sealed);
   be_bytes 8 (sg_end_offset sealed); be_bytes 8 (sg_artifact_length sealed); be_bytes 4 (sg_artifact_checksum sealed);
   be_bytes 4 frames; be_bytes 4 series; be_bytes 4 observations; be_bytes 8 (sl_series_offset l);
   be_bytes 8 (sl_series_length l); be_bytes 8 (sl_blocks_offset l); be_bytes 8 (sl_blocks_length l);
   be_bytes 8 (sl_append_offset l); be_bytes 8 (sl_append_length l); be_bytes 8 (sl_recent_offset l);
   be_bytes 8 (sl_recent_length l); be_bytes 8 (sl_artifact_length l); zeros 24].
Definition segment_header (store : StoreId) (sealed : SealedGeneration) (frames series observations : Z)
    (l : SegmentLayout) : list byte :=
  concat (segment_header_fields store sealed frames series observations l).

Lemma len_segment_magic : len SEGMENT_V1_MAGIC = 8.
Proof. done. Qed.
#[export] Hint Rewrite len_segment_magic : len.
Lemma len_segment_header store sealed f s o l : wf store → len (segment_header store sealed f s o l) = 192.
Proof.
  intros Hw. unfold segment_header, segment_header_fields. cbn [concat]. autorewrite with len.
  rewrite len_into_bytes by done. lia.
Qed.

Lemma encode_segment_header_layout store sealed f s o l n :
  wf store → 192 ≤ n → f ≤ u32_max → s ≤ u32_max → o ≤ u32_max →
  encode_segment_header (zeros (Z.to_nat n)) store sealed f s o l =
    Ok (segment_header store sealed f s o l ++ zeros (Z.to_nat (n - 192))).
Proof.
  intros Hw Hn Hf Hs Ho. unfold encode_segment_header, to_u32. rewrite !decide_True by done.
  change (zeros (Z.to_nat n)) with ([] ++ zeros (Z.to_nat n)).
  rewrite write_field by (autorewrite with len; lia). autorewrite with len.
  do 2 (unfold put_u16; rewrite write_field by (autorewrite with len; lia); rewrite len_be_bytes).
  replace (n - 8 - Z.of_nat 2 - Z.of_nat 2) with (4 + (n - 16)) by lia. rewrite zeros_split, app_assoc by lia.
  write_fields.
  match goal with |- context [zeros (Z.to_nat ?m)] => lazymatch m with 4 => fail | _ => replace m with (24 + (n - 192)) by lia end end.
  rewrite zeros_split by lia. f_equal. unfold segment_header, segment_header_fields. cbn [concat].
  rewrite app_nil_r, <-!app_assoc. done.
Qed.
