(* ===== verification/SegmentHistory.v ===== *)
(** * What a segment holds

    The history of a sealed journal grouped by series, where each of its frames
    and observations lies in the artifact, and the artifact it makes: the
    reference the builder and the parser are compared with. *)

From S2P Require Import Prelude Bytes Identity Bounded Value Collection Series Registry Admission Layout Wire.
From S2P Require Import Fields Crc Journal Generation Disk Active Scan Segment SegmentWire.

#[global] Arguments wire : simpl never.
#[global] Arguments flat : simpl never.

(** ** Admissions of a store *)

Definition owner (a : DecodedAdmissionV1) : SeriesId := dd_series_id (dec_declaration a).
Definition frame_observations (a : DecodedAdmissionV1) : list Observation := observations (dec_envelope a).
Definition earlier (a b : DecodedAdmissionV1) : Prop := dec_append_sequence a < dec_append_sequence b.

(** A decoded frame of the store. *)
Record belongs (store : StoreId) (a : DecodedAdmissionV1) : Prop := {
  bl_wf : wf a;
  bl_sequence : wf (mkSequence (dec_append_sequence a));
  bl_contract : decoded_contract a;
  bl_store : dec_store_id a = store }.

Section belongs.
Context (store : StoreId) (a : DecodedAdmissionV1) (Ha : belongs store a).

Lemma belongs_scope :
  dd_store_id (dec_declaration a) = store ∧ meta_series_id (env_series (dec_envelope a)) = owner a ∧
  retry_series_id (dec_retry a) = owner a.
Proof.
  destruct Ha as [_ _ [Hs Hm [Hr _] _ _ _ _ _ _ _ _ _] Hst]. rewrite <-Hs, Hm, Hr. done.
Qed.
Lemma belongs_decodes prev :
  (∀ p, prev = Some p → dec_append_sequence a = sequence_get p + 1) →
  decode_admission_frame_v1 (wire a) decode_limits_maximum prev = Ok a.
Proof.
  intros Hp. destruct Ha as [Hw Hs Hc _]. apply decode_frame_exact. split_and!; try done. by apply payload_fits.
Qed.
Lemma belongs_prefix : frame_len_from_prefix_v1 (slice 0 20 (wire a)) decode_limits_maximum = Ok (len (wire a)).
Proof.
  destruct Ha as [Hw Hs _ _]. pose proof (payload_fits a Hw). pose proof (len_nonneg (payload_wire a)).
  apply frame_len_from_prefix_Ok. rewrite len_wire. replace (24 + len (payload_wire a) - 24) with (len (payload_wire a)) by lia.
  exists (mkSequence (dec_append_sequence a)). cbn [sequence_get max_payload_len decode_limits_maximum].
  split_and!; [done| |lia|lia|done]. unfold wire, frame_layout. rewrite <-app_assoc.
  apply slice_app_0, len_frame_prefix.
Qed.
Lemma belongs_encodes : encode_decoded_admission_frame_v1 a = Ok (wire a).
Proof. destruct Ha as [Hw _ _ _]. by apply encode_decoded_layout. Qed.
Lemma belongs_observations :
  len (frame_observations a) ≤ MAX_OBSERVATIONS ∧ Forall (λ o, Is_true (wf (raw_order_key o))) (frame_observations a).
Proof.
  destruct Ha as [Hw _ _ _]. wf_split Hw. match goal with H : Is_true (wf (dec_envelope a)) |- _ => wf_split H end.
  unfold frame_observations, observations. destruct (env_evidence _) as [os gs|]; [|by split; [|constructor]].
  match goal with H : Is_true (wf os && _ && _) |- _ => rename H into Hev end. destruct_and? Hev.
  destruct (validate_observed _ _ _) as [u|] eqn:Ev in *; [|done]. split.
  - unfold validate_observed in Ev. rewrite guard_Ok in Ev. lia.
  - match goal with H : Is_true (wf os) |- _ => apply wf_list_Forall in H; eapply Forall_impl; [exact H|] end.
    intros o Ho. cbn beta in Ho. wf_split Ho.
    match goal with H : Is_true (wf (obs_times o)) |- _ => wf_split H end. wf_intro; assumption.
Qed.
End belongs.

(** ** Grouping by series *)

Definition group : Type := SeriesId * list DecodedAdmissionV1.

(** [G] is [H] by series, each series once and in ascending order, each block in
    the order of its sequences. *)
Record grouping (G : list group) (H : list DecodedAdmissionV1) : Prop := {
  gr_sorted : StronglySorted id_lt G.*1;
  gr_groups : Forall (λ g, g.2 ≠ [] ∧ Forall (λ a, owner a = g.1) g.2 ∧ StronglySorted earlier g.2) G;
  gr_all : concat G.*2 ≡ₚ H }.

Definition id_le (a b : SeriesId) : Prop := ¬ id_lt b a.
#[export] Instance id_le_dec : RelDecision id_le.
Proof. intros a b. unfold id_le. apply _. Defined.
#[export] Instance id_le_total : Total id_le.
Proof. intros a b. unfold id_le. destruct (id_lt_total a b) as [?|[->|?]]; [left|left|right];
  intros ?; (eapply (irreflexivity id_lt)); by try etrans. Qed.
#[export] Instance id_le_trans : Transitive id_le.
Proof.
  intros a b c Hab Hbc Hca. unfold id_le in *. destruct (id_lt_total a b) as [H|[E|H]]; [| |done].
  - apply Hbc. by etrans.
  - apply Hbc. by rewrite <-E.
Qed.
#[export] Instance id_le_antisymm : AntiSymm (=) id_le.
Proof. intros a b Hab Hba. unfold id_le in *. by destruct (id_lt_total a b) as [?|[?|?]]. Qed.

(** The series of a history, ascending, and the history grouped by them. *)
Definition series_ids_of (H : list DecodedAdmissionV1) : list SeriesId := merge_sort id_le (remove_dups (owner <$> H)).
Definition block_of (H : list DecodedAdmissionV1) (i : SeriesId) : list DecodedAdmissionV1 := filter (λ a, owner a = i) H.
Definition groups_of (H : list DecodedAdmissionV1) : list group := (λ i, (i, block_of H i)) <$> series_ids_of H.

Lemma series_ids_of_NoDup H : NoDup (series_ids_of H).
Proof. unfold series_ids_of. rewrite merge_sort_Permutation. apply NoDup_remove_dups. Qed.
Lemma elem_of_series_ids_of H i : i ∈ series_ids_of H ↔ ∃ a, owner a = i ∧ a ∈ H.
Proof.
  unfold series_ids_of. rewrite merge_sort_Permutation, elem_of_remove_dups, list_elem_of_fmap. naive_solver.
Qed.

(** Ascending without repetition is strictly ascending. *)
Lemma id_sorted_strict l : NoDup l → StronglySorted id_le l → StronglySorted (@id_lt _) l.
Proof.
  intros Hn Hs. induction Hs as [|i l Hs IH Hi]; [constructor|]. apply NoDup_cons in Hn as [Hi' Hn].
  constructor; [by apply IH|]. rewrite Forall_forall in Hi |- *. intros j Hj. specialize (Hi j Hj). unfold id_le in Hi.
  destruct (id_lt_total i j) as [?|[->|?]]; done.
Qed.
Lemma id_strict_sorted (l : list SeriesId) : StronglySorted id_lt l → StronglySorted id_le l ∧ NoDup l.
Proof.
  intros Hs. induction Hs as [|i l Hs [IH1 IH2] Hi]; [split; constructor|]. split.
  - constructor; [done|]. eapply Forall_impl; [exact Hi|]. intros j Hij Hji. apply (irreflexivity id_lt i). by etrans.
  - constructor; [|done]. intros Hj. rewrite Forall_forall in Hi. apply (irreflexivity id_lt i). by apply Hi.
Qed.

Lemma blocks_permutation ids H :
  NoDup ids → (∀ a, a ∈ H → owner a ∈ ids) → concat (block_of H <$> ids) ≡ₚ H.
Proof.
  intros Hn. induction H as [|a H IH]; intros Hin.
  - clear. induction ids as [|i ids IH]; [done|]. cbn. apply IH.
  - destruct (list_elem_of_split ids (owner a)) as (l1 & l2 & E); [apply Hin; by left|]. subst ids.
    apply NoDup_app in Hn as Hn'. destruct Hn' as (_ & Hd & Hn'). apply NoDup_cons in Hn' as [Hn' _].
    assert (∀ l : list SeriesId, owner a ∉ l → block_of (a :: H) <$> l = block_of H <$> l) as Hskip.
    { intros l Hl. apply list_fmap_ext. intros k i Hi. unfold block_of. rewrite filter_cons_False; [done|].
      intros <-. apply Hl. by apply (list_elem_of_lookup_2 _ k). }
    rewrite fmap_app, fmap_cons, (Hskip l1), (Hskip l2) by (done || (intros ?; by apply (Hd (owner a)); [|left])).
    unfold block_of at 2. rewrite filter_cons_True by done. fold (block_of H (owner a)).
    rewrite concat_app. cbn [concat app]. rewrite <-Permutation_middle. f_equiv.
    etrans; [|apply IH; intros b Hb; apply Hin; by right]. by rewrite fmap_app, concat_app.
Qed.

Lemma filter_keeps (P : DecodedAdmissionV1 → Prop) `{∀ a, Decision (P a)} (R : relation DecodedAdmissionV1) l :
  StronglySorted R l → StronglySorted R (filter P l).
Proof.
  induction 1 as [|a l Hs IH Ha]; [constructor|]. rewrite filter_cons. case_decide; [|done].
  constructor; [done|]. rewrite Forall_forall in Ha |- *. intros b [_ Hb]%list_elem_of_filter. by apply Ha.
Qed.

Lemma grouping_groups H : StronglySorted earlier H → grouping (groups_of H) H.
Proof.
  intros Hs. unfold groups_of. split.
  - rewrite <-list_fmap_compose. replace (fst ∘ (λ i, (i, block_of H i))) with (@id SeriesId) by done.
    rewrite list_fmap_id. apply id_sorted_strict; [apply series_ids_of_NoDup|]. apply (StronglySorted_merge_sort id_le).
  - apply Forall_fmap, Forall_forall. intros i (a & Ha & Hin)%elem_of_series_ids_of. cbn. split_and!.
    + intros E. assert (a ∈ block_of H i) as Hb by (by apply list_elem_of_filter). rewrite E in Hb. by apply elem_of_nil in Hb.
    + apply Forall_forall. by intros b [? _]%list_elem_of_filter.
    + by apply filter_keeps.
  - rewrite <-list_fmap_compose. replace (snd ∘ (λ i, (i, block_of H i))) with (block_of H) by done.
    apply blocks_permutation; [apply series_ids_of_NoDup|]. intros a Ha. apply elem_of_series_ids_of. by exists a.
Qed.

Lemma earlier_unique l k : StronglySorted earlier l → StronglySorted earlier k → l ≡ₚ k → l = k.
Proof.
  intros Hl Hk Hp. apply (StronglySorted_unique_strong earlier); try done. unfold earlier. intros a b ????. lia.
Qed.

Lemma block_of_other H i : (∀ a, a ∈ H → owner a ≠ i) → block_of H i = [].
Proof.
  intros Ho. unfold block_of. induction H as [|a H IH]; [done|].
  rewrite filter_cons_False by (apply Ho; by left). apply IH. intros b Hb. apply Ho. by right.
Qed.
Lemma block_of_same H i : Forall (λ a, owner a = i) H → block_of H i = H.
Proof. unfold block_of. induction 1 as [|a H Ha HH IH]; [done|]. by rewrite filter_cons_True, IH. Qed.
Lemma block_of_app H K i : block_of (H ++ K) i = block_of H i ++ block_of K i.
Proof. apply filter_app. Qed.

Definition owned (G : list group) : Prop := Forall (λ g, Forall (λ a, owner a = g.1) g.2) G.

Lemma elem_of_groups (G : list group) a : a ∈ concat G.*2 ↔ ∃ g, g ∈ G ∧ a ∈ g.2.
Proof.
  induction G as [|g G IH]; cbn [fmap list_fmap concat]; [split; [by intros ?%elem_of_nil|by intros (? & ?%elem_of_nil & _)]|].
  rewrite elem_of_app, IH. setoid_rewrite elem_of_cons. naive_solver.
Qed.
Lemma owned_elem G a : owned G → a ∈ concat G.*2 → owner a ∈ G.*1.
Proof.
  intros Ho (g & Hg & Ha)%elem_of_groups. rewrite list_elem_of_fmap. exists g. split; [|done].
  unfold owned in Ho. rewrite Forall_forall in Ho. specialize (Ho g Hg). rewrite Forall_forall in Ho. by apply Ho.
Qed.

(** The members of the other groups are of other series. *)
Lemma block_of_groups G i K : NoDup G.*1 → owned G → (i, K) ∈ G → block_of (concat G.*2) i = K.
Proof.
  intros Hn Ho Hin. induction G as [|[j J] G IH]; [by apply elem_of_nil in Hin|].
  cbn [fmap list_fmap fst] in Hn. apply NoDup_cons in Hn as [Hj Hn]. apply Forall_cons in Ho as [HJ Ho].
  cbn [fmap list_fmap concat snd]. rewrite block_of_app. apply elem_of_cons in Hin as [[= -> ->]|Hin].
  - rewrite block_of_same by done. rewrite block_of_other; [by rewrite app_nil_r|].
    intros a Ha E. apply Hj. rewrite <-E. by apply owned_elem.
  - rewrite IH by done. rewrite block_of_other; [done|]. intros a Ha E. rewrite Forall_forall in HJ.
    specialize (HJ a Ha). cbn in HJ. apply Hj. rewrite <-HJ, E. by apply list_elem_of_fmap_2' with (x := (i, K)).
Qed.

Lemma block_of_permutation H K i : H ≡ₚ K → block_of H i ≡ₚ block_of K i.
Proof. intros E. unfold block_of. by rewrite E. Qed.

Lemma grouping_unique G H : StronglySorted earlier H → grouping G H → G = groups_of H.
Proof.
  intros HH [Hs Hg Ha]. apply id_strict_sorted in Hs as [Hs Hn].
  assert (owned G) as Ho by (eapply Forall_impl; [exact Hg|]; naive_solver).
  assert (G.*1 = series_ids_of H) as Hids.
  { apply (StronglySorted_unique id_le); [done|apply (StronglySorted_merge_sort id_le)|].
    unfold series_ids_of. rewrite merge_sort_Permutation. apply NoDup_Permutation; [done|apply NoDup_remove_dups|].
    intros i. rewrite elem_of_remove_dups, !list_elem_of_fmap. setoid_rewrite <-Ha. split.
    - intros (g & -> & Hin). rewrite Forall_forall in Hg. destruct (Hg g Hin) as (Hne & Hown & _).
      destruct (g.2) as [|a K] eqn:E; [done|]. apply Forall_cons in Hown as [Hown _]. exists a. split; [done|].
      apply elem_of_groups. exists g. rewrite E. split; [done|by left].
    - intros (a & -> & Hin). apply (owned_elem G) in Hin; [|done]. by apply list_elem_of_fmap in Hin. }
  unfold groups_of. rewrite <-Hids, <-list_fmap_compose. rewrite <-(list_fmap_id G) at 1.
  apply list_fmap_ext. intros k [i K] Hk. apply list_elem_of_lookup_2 in Hk. cbn. f_equal.
  rewrite Forall_forall in Hg. destruct (Hg _ Hk) as (_ & _ & HK). apply earlier_unique; [done|by apply filter_keeps|].
  rewrite <-(block_of_groups G i K) at 1 by done. by apply block_of_permutation.
Qed.

(** ** Where everything lies *)

(** The frames of a block from an offset and an ordinal on. *)
Fixpoint locate (i : SeriesId) (off ord : Z) (K : list DecodedAdmissionV1) : list (FrameLocation * DecodedAdmissionV1) :=
  match K with
  | [] => []
  | a :: K => (mkFrameLocation (dec_append_sequence a) i off (len (wire a)) ord, a)
              :: locate i (off + len (wire a)) (ord + 1) K
  end.
Fixpoint observations_at (l : FrameLocation) (ordinal : Z) (os : list Observation) : list ObservationLocation :=
  match os with
  | [] => []
  | o :: os => mkObservationLocation (fl_series_id l) (raw_order_key o) (fl_append_sequence l) ordinal (fl_frame_ordinal l)
                 (fl_frame_offset l) (fl_frame_length l) :: observations_at l (ordinal + 1) os
  end.
Definition located (p : FrameLocation * DecodedAdmissionV1) : list ObservationLocation :=
  observations_at p.1 0 (frame_observations p.2).
Definition located_all (ps : list (FrameLocation * DecodedAdmissionV1)) : list ObservationLocation := concat (located <$> ps).
Fixpoint obs_count (K : list DecodedAdmissionV1) : Z :=
  match K with [] => 0 | a :: K => len (frame_observations a) + obs_count K end.

Fixpoint frames_of (off : Z) (G : list group) : list (FrameLocation * DecodedAdmissionV1) :=
  match G with [] => [] | (i, K) :: G => locate i off 0 K ++ frames_of (off + len (flat K)) G end.
Fixpoint series_directory (off recent : Z) (G : list group) : list SegmentSeriesEntryV1 :=
  match G with
  | [] => []
  | (i, K) :: G => mkSeriesEntry i off (len (flat K)) (len K) (obs_count K) recent (96 * obs_count K)
                   :: series_directory (off + len (flat K)) (recent + 96 * obs_count K) G
  end.
Definition append_directory (off : Z) (G : list group) : list FrameLocation := merge_sort sequence_order (frames_of off G).*1.
Fixpoint recent_directory (off : Z) (G : list group) : list ObservationLocation :=
  match G with
  | [] => []
  | (i, K) :: G => sort_recent (located_all (locate i off 0 K)) ++ recent_directory (off + len (flat K)) G
  end.

(** ** The artifact of a history *)

Section artifact.
Context (store : StoreId) (sealed : SealedGeneration) (H : list DecodedAdmissionV1).

Definition source_image : list byte := header_encode (mkHeader store) ++ flat H.
(** The sealed evidence describes the raw journal of [H]. *)
Record sealed_history : Prop := {
  hs_store : wf store;
  hs_sealed : wf sealed;
  hs_belongs : Forall (belongs store) H;
  hs_numbered : numbered (sg_sequence_floor sealed) H;
  hs_records : 0 < len H ≤ MAX_ACTIVE_JOURNAL_RECORDS;
  hs_journal : sg_journal_generation sealed ≠ 0;
  hs_registry : sg_registry_generation sealed ≠ 0;
  hs_cutoff : sg_sequence_cutoff sealed = sg_sequence_floor sealed + len H;
  hs_end : sg_end_offset sealed = sg_artifact_length sealed;
  hs_length : sg_artifact_length sealed = len source_image;
  hs_bytes : sg_artifact_length sealed ≤ MAX_ACTIVE_JOURNAL_BYTES;
  hs_checksum : sg_artifact_checksum sealed = crc32c source_image }.

Definition segment_layout : SegmentLayout := layout_of (len H) (len (groups_of H)) (obs_count H) (len (flat H)).
Definition segment_series : list SegmentSeriesEntryV1 :=
  series_directory (sl_blocks_offset segment_layout) (sl_recent_offset segment_layout) (groups_of H).
Definition segment_appends : list FrameLocation := append_directory (sl_blocks_offset segment_layout) (groups_of H).
Definition segment_observations : list ObservationLocation :=
  recent_directory (sl_blocks_offset segment_layout) (groups_of H).
Definition segment_body : list byte :=
  concat (series_wire <$> segment_series) ++ flat (concat (groups_of H).*2) ++
  concat (append_wire <$> segment_appends) ++ concat (observation_wire <$> segment_observations).
Definition segment_covered : list byte :=
  segment_header store sealed (len H) (len (groups_of H)) (obs_count H) segment_layout ++ segment_body.
Definition segment_bytes : list byte := segment_covered ++ be_bytes 4 (crc32c segment_covered).
Definition segment_inspection : SegmentV1Inspection :=
  inspection store sealed (len H) (len (groups_of H)) (obs_count H) segment_layout (crc32c segment_covered).
(** What the parser must answer, and what the builder must produce. *)
Definition segment_view : SegmentV1 :=
  mkSegment segment_bytes segment_inspection segment_series (append_entry <$> segment_appends)
    (observation_entry <$> segment_observations).
Definition segment_prepared : PreparedSegmentV1 := mkPreparedSegment segment_bytes segment_inspection.
End artifact.

(** ** Lemmas: locations *)

Lemma locate_snd i off ord K : (locate i off ord K).*2 = K.
Proof. revert off ord. induction K as [|a K IH]; intros off ord; [done|]. cbn. by rewrite IH. Qed.
Lemma frames_of_snd off G : (frames_of off G).*2 = concat G.*2.
Proof.
  revert off. induction G as [|[i K] G IH]; intros off; [done|]. cbn [frames_of fmap list_fmap concat snd].
  by rewrite fmap_app, locate_snd, IH.
Qed.
Lemma length_frames_of off G : length (frames_of off G) = length (concat G.*2).
Proof. by rewrite <-(frames_of_snd off), length_fmap. Qed.

Lemma elem_of_observations_at l ord os x :
  x ∈ observations_at l ord os ↔ ∃ n o, os !! n = Some o ∧
    x = mkObservationLocation (fl_series_id l) (raw_order_key o) (fl_append_sequence l) (ord + Z.of_nat n) (fl_frame_ordinal l)
          (fl_frame_offset l) (fl_frame_length l).
Proof.
  revert ord. induction os as [|o os IH]; intros ord; cbn [observations_at].
  - split; [by intros ?%elem_of_nil|]. intros (n & o & Hn & _). by rewrite lookup_nil in Hn.
  - rewrite elem_of_cons, IH. split.
    + intros [->|(n & o' & Hn & ->)]; [exists 0%nat, o|exists (S n), o']; (split; [done|]); f_equal; lia.
    + intros ([|n] & o' & Hn & ->); [left|right].
      * injection Hn as <-. f_equal; lia.
      * exists n, o'. split; [done|]. f_equal; lia.
Qed.
Lemma length_observations_at l ord os : length (observations_at l ord os) = length os.
Proof. revert ord. induction os as [|o os IH]; intros ord; [done|]. cbn. by rewrite IH. Qed.
Lemma elem_of_located_all ps x : x ∈ located_all ps ↔ ∃ p, p ∈ ps ∧ x ∈ located p.
Proof.
  unfold located_all. induction ps as [|p ps IH]; cbn [fmap list_fmap concat]; [split; [by intros ?%elem_of_nil|by intros (? & ?%elem_of_nil & _)]|].
  rewrite elem_of_app, IH. setoid_rewrite elem_of_cons. naive_solver.
Qed.
Lemma located_all_app ps qs : located_all (ps ++ qs) = located_all ps ++ located_all qs.
Proof. unfold located_all. by rewrite fmap_app, concat_app. Qed.
Lemma located_all_cons p ps : located_all (p :: ps) = located p ++ located_all ps.
Proof. done. Qed.
#[export] Instance located_all_proper : Proper (Permutation ==> Permutation) located_all.
Proof.
  intros ps qs E. induction E as [|p ps qs E IH|p q ps|ps qs rs E1 IH1 E2 IH2]; rewrite ?located_all_cons.
  - done.
  - by f_equiv.
  - rewrite !app_assoc. f_equiv. apply Permutation_app_comm.
  - by etrans.
Qed.
Lemma obs_count_app H K : obs_count (H ++ K) = obs_count H + obs_count K.
Proof. induction H as [|a H IH]; [done|]. cbn. rewrite IH. lia. Qed.
Lemma obs_count_nonneg K : 0 ≤ obs_count K.
Proof. induction K as [|a K IH]; [done|]. cbn. pose proof (len_nonneg (frame_observations a)). lia. Qed.
Lemma len_located_all ps : len (located_all ps) = obs_count ps.*2.
Proof.
  induction ps as [|[l a] ps IH]; [done|]. rewrite located_all_cons, len_app, IH. cbn.
  unfold located, len. by rewrite length_observations_at.
Qed.
Lemma obs_count_permutation H K : H ≡ₚ K → obs_count H = obs_count K.
Proof. induction 1; cbn; lia. Qed.
Lemma len_flat_permutation H K : H ≡ₚ K → len (flat H) = len (flat K).
Proof. induction 1; rewrite ?flat_cons, ?len_app in *; lia. Qed.

(** A located frame: its series, sequence and length, and its bytes. *)
Record placed_at (bytes : list byte) (lo hi : Z) (p : FrameLocation * DecodedAdmissionV1) : Prop := {
  pa_sequence : fl_append_sequence p.1 = dec_append_sequence p.2;
  pa_series : fl_series_id p.1 = owner p.2;
  pa_length : fl_frame_length p.1 = len (wire p.2);
  pa_bytes : slice (fl_frame_offset p.1) (fl_frame_offset p.1 + len (wire p.2)) bytes = wire p.2;
  pa_range : lo ≤ fl_frame_offset p.1 ∧ fl_frame_offset p.1 + len (wire p.2) ≤ hi;
  pa_ordinal : 0 ≤ fl_frame_ordinal p.1 ∧ lo + fl_frame_ordinal p.1 ≤ fl_frame_offset p.1 }.

Lemma placed_at_mono bytes lo hi lo' hi' p : lo' ≤ lo → hi ≤ hi' → placed_at bytes lo hi p → placed_at bytes lo' hi' p.
Proof. intros ?? [? ? ? ? [? ?] [? ?]]. split; try done; lia. Qed.

Lemma locate_placed lo i off ord K pre post :
  len pre = off → 0 ≤ ord → lo + ord ≤ off → Forall (λ a, owner a = i) K →
  Forall (placed_at (pre ++ flat K ++ post) lo (off + len (flat K))) (locate i off ord K).
Proof.
  revert off ord pre. induction K as [|a K IH]; intros off ord pre Hp Ho Hlo HK; [constructor|].
  apply Forall_cons in HK as [Ha HK]. cbn [locate]. rewrite flat_cons, len_app. pose proof (wire_pos a).
  pose proof (len_nonneg (flat K)). pose proof (len_nonneg pre). constructor.
  - split; cbn; try done; try lia. rewrite <-app_assoc. apply slice_app; [done|lia].
  - rewrite <-app_assoc, app_assoc.
    eapply Forall_impl; [apply (IH _ _ (pre ++ wire a)); [rewrite len_app; lia|lia|lia|done]|].
    intros p. apply placed_at_mono; lia.
Qed.
Lemma frames_of_placed off G pre post :
  len pre = off → owned G →
  Forall (placed_at (pre ++ flat (concat G.*2) ++ post) off (off + len (flat (concat G.*2)))) (frames_of off G).
Proof.
  revert off pre. induction G as [|[i K] G IH]; intros off pre Hp Ho; [constructor|].
  apply Forall_cons in Ho as [HK Ho]. cbn [frames_of fmap list_fmap concat snd]. cbn in HK. rewrite flat_app, len_app.
  pose proof (len_nonneg (flat K)). pose proof (len_nonneg (flat (concat G.*2))). apply Forall_app. split.
  - rewrite <-app_assoc. eapply Forall_impl; [apply (locate_placed off); done || lia|]. intros p. apply placed_at_mono; lia.
  - rewrite <-app_assoc, app_assoc. eapply Forall_impl; [apply (IH _ (pre ++ flat K)); [rewrite len_app; lia|done]|].
    intros p. apply placed_at_mono; lia.
Qed.

(** ** Lemmas: orders *)

#[export] Instance recent_order_total : Total recent_order.
Proof.
  intros a b. unfold recent_order. destruct (key_lt_total (ol_raw_order_key a) (ol_raw_order_key b)) as [?|[->|?]]; [tauto| |tauto].
  destruct (Z.lt_trichotomy (ol_append_sequence a) (ol_append_sequence b)) as [?|[->|?]]; [tauto| |tauto].
  destruct (Z.le_ge_cases (ol_observation_ordinal a) (ol_observation_ordinal b)); tauto.
Qed.
#[export] Instance recent_order_trans : Transitive recent_order.
Proof.
  intros a b c. unfold recent_order.
  intros [H|[E H]] [K|[F K]]; [left; by etrans|left; by rewrite F|left; by rewrite <-E|].
  right. rewrite F, E. split; [done|]. destruct H as [H|[H ?]], K as [K|[K ?]]; [left; lia..|right; lia].
Qed.
#[export] Instance series_recent_order_total : Total series_recent_order.
Proof.
  intros a b. unfold series_recent_order. destruct (id_lt_total (ol_series_id a) (ol_series_id b)) as [?|[->|?]]; [tauto| |tauto].
  destruct (total recent_order a b); tauto.
Qed.
#[export] Instance series_recent_order_trans : Transitive series_recent_order.
Proof.
  intros a b c. unfold series_recent_order.
  intros [H|[E H]] [K|[F K]]; [left; by etrans|left; by rewrite <-F|left; by rewrite E|].
  right. split; [congruence|by etrans].
Qed.
#[export] Instance sequence_order_total : Total sequence_order.
Proof. intros a b. unfold sequence_order. lia. Qed.
#[export] Instance sequence_order_trans : Transitive sequence_order.
Proof. intros a b c. unfold sequence_order. lia. Qed.

Lemma frames_of_sequences off G : Forall (λ p, fl_append_sequence p.1 = dec_append_sequence p.2) (frames_of off G).
Proof.
  revert off. induction G as [|[i K] G IH]; intros off; [constructor|]. apply Forall_app. split; [|apply IH].
  generalize 0. revert off. induction K as [|a K IHK]; intros off ord; [constructor|]. by constructor; [|apply IHK].
Qed.

Lemma sorted_impl {A} (R S : relation A) l : (∀ a b, R a b → S a b) → StronglySorted R l → StronglySorted S l.
Proof. intros Hi. induction 1 as [|a l Hs IH Ha]; constructor; [done|]. by eapply Forall_impl; [|apply Hi]. Qed.
Lemma earlier_injective H a b : StronglySorted earlier H → a ∈ H → b ∈ H → dec_append_sequence a = dec_append_sequence b → a = b.
Proof.
  intros Hs Ha Hb E. induction Hs as [|c H Hs IH Hc]; [by apply elem_of_nil in Ha|]. rewrite Forall_forall in Hc.
  unfold earlier in Hc. apply elem_of_cons in Ha as [Ea|Ha]; apply elem_of_cons in Hb as [Eb|Hb]; subst; [done| | |by apply IH].
  - specialize (Hc b Hb). lia.
  - specialize (Hc a Ha). lia.
Qed.

(** The sorted locations come with their admissions, in the order of the history. *)
Lemma append_directory_history off G H :
  StronglySorted earlier H → grouping G H →
  ∃ ps, ps ≡ₚ frames_of off G ∧ ps.*1 = append_directory off G ∧ ps.*2 = H.
Proof.
  intros HH [_ Hg Hall].
  assert (append_directory off G ≡ₚ (frames_of off G).*1) as Hp by apply merge_sort_Permutation.
  apply Permutation_map_inv in Hp as (ps & Eps & Hps).
  change (append_directory off G = ps.*1) in Eps. exists ps. split; [done|]. split; [done|].
  assert (ps.*2 ≡ₚ H) as Hperm by (rewrite <-Hps, frames_of_snd; done).
  pose proof (frames_of_sequences off G) as Hseq. rewrite Hps in Hseq.
  pose proof (StronglySorted_merge_sort sequence_order (frames_of off G).*1) as Hsort.
  fold (append_directory off G) in Hsort. rewrite Eps in Hsort.
  apply (StronglySorted_unique_strong (λ a b, dec_append_sequence a ≤ dec_append_sequence b)); [|clear -Hsort Hseq| |done].
  - intros a b Ha Hb Hab Hba. rewrite Hperm in Ha. apply (earlier_injective H); try done. lia.
  - induction ps as [|p ps IH]; [constructor|]. apply Forall_cons in Hseq as [Hp Hseq].
    rewrite fmap_cons in Hsort. apply StronglySorted_inv in Hsort as [Hsort Hle]. constructor; [by apply IH|].
    apply Forall_fmap. rewrite Forall_fmap in Hle. rewrite Forall_forall in Hle, Hseq |- *. intros q Hq. cbn.
    rewrite <-Hp, <-(Hseq q Hq). by apply Hle.
  - eapply sorted_impl; [|exact HH]. unfold earlier. lia.
Qed.

(** Every located observation is one observation of one frame. *)
Lemma elem_of_located p x :
  x ∈ located p ↔ ∃ n o, frame_observations p.2 !! n = Some o ∧
    x = mkObservationLocation (fl_series_id p.1) (raw_order_key o) (fl_append_sequence p.1) (Z.of_nat n)
          (fl_frame_ordinal p.1) (fl_frame_offset p.1) (fl_frame_length p.1).
Proof. unfold located. rewrite elem_of_observations_at. done. Qed.

Lemma located_sequence p x : x ∈ located p → ol_append_sequence x = fl_append_sequence p.1 ∧ ol_series_id x = fl_series_id p.1.
Proof. by intros (n & o & _ & ->)%elem_of_located. Qed.

(** With distinct sequences the sequence and the ordinal identify it. *)
Lemma located_injective ps x y :
  NoDup ((λ p, fl_append_sequence p.1) <$> ps) → x ∈ located_all ps → y ∈ located_all ps →
  ol_append_sequence x = ol_append_sequence y → ol_observation_ordinal x = ol_observation_ordinal y → x = y.
Proof.
  intros Hn (p & Hp & Hx)%elem_of_located_all (q & Hq & Hy)%elem_of_located_all Es Eo.
  pose proof (located_sequence p x Hx) as [Exs _]. pose proof (located_sequence q y Hy) as [Eys _].
  assert (p = q) as <- by (apply (NoDup_fmap_eq (λ p, fl_append_sequence p.1) ps); try done; congruence).
  apply elem_of_located in Hx as (n & o & Hn' & ->), Hy as (m & o' & Hm & ->). cbn in Eo. apply Nat2Z.inj in Eo as ->.
  congruence.
Qed.

Lemma locate_series i off ord K : Forall (λ p, fl_series_id p.1 = i) (locate i off ord K).
Proof. revert off ord. induction K as [|a K IH]; intros off ord; [constructor|]. by constructor; [|apply IH]. Qed.
Lemma located_series i off ord K x : x ∈ located_all (locate i off ord K) → ol_series_id x = i.
Proof.
  intros (p & Hp & Hx)%elem_of_located_all. destruct (located_sequence p x Hx) as [_ ->].
  pose proof (locate_series i off ord K) as H. rewrite Forall_forall in H. by apply H.
Qed.

Lemma recent_directory_permutation off G : recent_directory off G ≡ₚ located_all (frames_of off G).
Proof.
  revert off. induction G as [|[i K] G IH]; intros off; [done|]. cbn [recent_directory frames_of].
  rewrite located_all_app, IH. unfold sort_recent. by rewrite merge_sort_Permutation.
Qed.
Lemma recent_directory_series off G x : x ∈ recent_directory off G → ol_series_id x ∈ G.*1.
Proof.
  revert off. induction G as [|[i K] G IH]; intros off; cbn [recent_directory fmap list_fmap fst]; [by intros ?%elem_of_nil|].
  rewrite elem_of_app, elem_of_cons. unfold sort_recent. rewrite merge_sort_Permutation.
  intros [Hx|Hx]; [left; by eapply located_series|right; by eapply IH].
Qed.

Lemma same_series_sorted i l :
  (∀ x, x ∈ l → ol_series_id x = i) → StronglySorted recent_order l → StronglySorted series_recent_order l.
Proof.
  intros Hi Hs. induction Hs as [|x l Hs IH Hx]; [constructor|]. constructor; [apply IH; intros y Hy; apply Hi; by right|].
  rewrite Forall_forall in Hx |- *. intros y Hy. right. split; [|by apply Hx]. rewrite !Hi; [done|by right|by left].
Qed.
Lemma recent_directory_sorted off G : StronglySorted id_lt G.*1 → StronglySorted series_recent_order (recent_directory off G).
Proof.
  revert off. induction G as [|[i K] G IH]; intros off Hs; [constructor|]. cbn [fmap list_fmap fst] in Hs.
  apply StronglySorted_inv in Hs as [Hs Hi]. cbn [recent_directory].
  assert (∀ x, x ∈ sort_recent (located_all (locate i off 0 K)) → ol_series_id x = i) as Hser
    by (intros x; unfold sort_recent; rewrite merge_sort_Permutation; apply located_series).
  apply StronglySorted_app. split_and!; [|by apply (same_series_sorted i), (StronglySorted_merge_sort recent_order)|by apply IH].
  intros x y Hx Hy. left. rewrite (Hser x Hx). rewrite Forall_forall in Hi. apply Hi. by eapply recent_directory_series.
Qed.

Lemma frames_of_NoDup off G H :
  StronglySorted earlier H → concat G.*2 ≡ₚ H → NoDup ((λ p, fl_append_sequence p.1) <$> frames_of off G).
Proof.
  intros HH Hall. assert ((λ p, fl_append_sequence p.1) <$> frames_of off G = dec_append_sequence <$> (frames_of off G).*2) as ->.
  { rewrite <-list_fmap_compose. apply list_fmap_ext. intros k p Hp%list_elem_of_lookup_2.
    pose proof (frames_of_sequences off G) as Hs. rewrite Forall_forall in Hs. by apply Hs. }
  rewrite frames_of_snd, Hall. clear Hall. induction HH as [|a H HH IH Ha]; [constructor|]. rewrite fmap_cons.
  constructor; [|done]. rewrite list_elem_of_fmap. intros (b & E & Hb). rewrite Forall_forall in Ha.
  specialize (Ha b Hb). unfold earlier in Ha. lia.
Qed.

(** The parser's one sort finds what the builder sorted series by series. *)
Lemma recent_directory_merge off G H l :
  StronglySorted earlier H → grouping G H → l ≡ₚ located_all (frames_of off G) →
  merge_sort series_recent_order l = recent_directory off G.
Proof.
  intros HH [Hs _ Hall] Hl. apply (StronglySorted_unique_strong series_recent_order).
  - intros x y Hx Hy Hxy Hyx. rewrite merge_sort_Permutation, Hl in Hx. rewrite recent_directory_permutation in Hy.
    assert (ol_append_sequence x = ol_append_sequence y ∧ ol_observation_ordinal x = ol_observation_ordinal y) as [? ?];
      [|by eapply located_injective; [by eapply frames_of_NoDup|..]].
    destruct Hxy as [H1|[E1 H1]], Hyx as [H2|[E2 H2]];
      [exfalso; eapply (irreflexivity id_lt); by etrans|rewrite E2 in H1|rewrite E1 in H2|];
      try (exfalso; by eapply (irreflexivity id_lt)).
    destruct H1 as [H1|[E3 H1]], H2 as [H2|[E4 H2]];
      [exfalso; eapply (irreflexivity key_lt); by etrans|rewrite E4 in H1|rewrite E3 in H2|lia];
      exfalso; by eapply (irreflexivity key_lt).
  - apply (StronglySorted_merge_sort series_recent_order).
  - by apply recent_directory_sorted.
  - rewrite merge_sort_Permutation, Hl. symmetry. apply recent_directory_permutation.
Qed.

(** ** Lemmas: the counts of a sealed history *)

Lemma numbered_earlier from H : numbered from H → StronglySorted earlier H.
Proof.
  revert from. induction H as [|a H IH]; intros from Hn; [constructor|]. apply numbered_cons in Hn as [Ha Hn].
  constructor; [by eapply IH|]. apply Forall_forall. intros b (n & Hb)%list_elem_of_lookup_1. unfold earlier.
  rewrite (Hn n b Hb). lia.
Qed.

Lemma len_wires {A} (f : A → list byte) w (xs : list A) : Forall (λ x, len (f x) = w) xs → len (concat (f <$> xs)) = w * len xs.
Proof.
  induction 1 as [|x xs Hx Hxs IH]; [by rewrite Z.mul_0_r|]. rewrite fmap_cons. cbn [concat].
  rewrite len_app, len_cons, Hx, IH. lia.
Qed.
Lemma len_directory b r G : len (series_directory b r G) = len G.
Proof. revert b r. induction G as [|[i K] G IH]; intros b r; [done|]. cbn [series_directory]. by rewrite !len_cons, IH. Qed.

Lemma len_flat_pos H : 24 * len H ≤ len (flat H).
Proof.
  induction H as [|a H IH]; [done|]. rewrite flat_cons, len_app, len_cons. pose proof (wire_pos a). lia.
Qed.
Lemma obs_count_bound store H : Forall (belongs store) H → obs_count H ≤ 256 * len H.
Proof.
  induction 1 as [|a H Ha HH IH]; [done|]. cbn [obs_count]. rewrite len_cons.
  destruct (belongs_observations store a Ha) as [Ho _]. unfold MAX_OBSERVATIONS in Ho. lia.
Qed.
Lemma len_groups (G : list group) : Forall (λ g : group, g.2 ≠ []) G → len G ≤ len (concat G.*2).
Proof.
  induction 1 as [|[i K] G HK HG IH]; [done|]. cbn [fmap list_fmap concat snd]. rewrite len_cons, len_app.
  destruct K as [|a K]; [done|]. rewrite len_cons. pose proof (len_nonneg K). lia.
Qed.
Lemma len_permutation {A} (l k : list A) : l ≡ₚ k → len l = len k.
Proof. intros E. unfold len. by rewrite E. Qed.

Section sealed.
Context (store : StoreId) (sealed : SealedGeneration) (H : list DecodedAdmissionV1) (Hs : sealed_history store sealed H).

Lemma sealed_grouping : grouping (groups_of H) H.
Proof. destruct Hs. eapply grouping_groups, numbered_earlier; done. Qed.
Lemma sealed_owned : owned (groups_of H).
Proof. destruct sealed_grouping as [_ Hg _]. eapply Forall_impl; [exact Hg|]. naive_solver. Qed.
Lemma sealed_nonempty : Forall (λ g : group, g.2 ≠ []) (groups_of H).
Proof. destruct sealed_grouping as [_ Hg _]. eapply Forall_impl; [exact Hg|]. naive_solver. Qed.
Lemma sealed_image : len (source_image store H) = 28 + len (flat H).
Proof.
  destruct Hs as [Hw _ _ _ _ _ _ _ _ _ _ _]. unfold source_image, header_encode. cbn [header_store_id].
  rewrite len_app, header_layout by (by apply len_into_bytes). autorewrite with len. rewrite len_into_bytes by done.
  change (len JOURNAL_V1_HEADER_MAGIC) with 8. lia.
Qed.
Lemma sealed_counts : counts_ok (len H) (len (groups_of H)) (obs_count H) (len (flat H)).
Proof.
  destruct Hs as [Hw Hws Hb Hn Hr Hj Hrg Hc He Hl Hby Hck]. rewrite sealed_image in Hl.
  pose proof sealed_nonempty as Hne. apply len_groups in Hne. pose proof (gr_all _ _ sealed_grouping) as Hall.
  rewrite (len_permutation _ _ Hall) in Hne. pose proof (len_flat_pos H). pose proof (obs_count_bound store H Hb).
  pose proof (obs_count_nonneg H). split; [done| | |unfold JOURNAL_V1_HEADER_LEN; lia].
  - split; [|done]. destruct (groups_of H) as [|g G] eqn:E; [|rewrite len_cons; pose proof (len_nonneg G); lia].
    cbn in Hall. apply Permutation_nil in Hall. subst H. by destruct Hr.
  - unfold MAX_SEGMENT_V1_OBSERVATIONS, MAX_SOURCE_OBSERVATION_CONTEXTS, MAX_OBSERVATIONS, MAX_ACTIVE_JOURNAL_RECORDS in *. lia.
Qed.

(** Everything lies inside the artifact. *)
Lemma sealed_layout : segment_layout H = layout_of (len H) (len (groups_of H)) (obs_count H) (len (flat H)).
Proof. done. Qed.
Lemma members_flat : len (flat (concat (groups_of H).*2)) = len (flat H).
Proof. apply len_flat_permutation, sealed_grouping. Qed.
Lemma members_count : len (concat (groups_of H).*2) = len H.
Proof. apply len_permutation, sealed_grouping. Qed.
Lemma members_observations : obs_count (concat (groups_of H).*2) = obs_count H.
Proof. apply obs_count_permutation, sealed_grouping. Qed.
Lemma members_belong : Forall (belongs store) (concat (groups_of H).*2).
Proof. rewrite (gr_all _ _ sealed_grouping). by destruct Hs. Qed.
End sealed.

(** ** Lemmas: the fields of directories are in range *)

Lemma elem_of_members_sub i K (G : list group) a : (i, K) ∈ G → a ∈ K → a ∈ concat G.*2.
Proof. intros Hg Ha. apply elem_of_groups. by exists (i, K). Qed.

Lemma directory_wf store b r G :
  Forall (belongs store) (concat G.*2) → owned G → Forall (λ g : group, g.2 ≠ []) G →
  0 ≤ b → 0 ≤ r → b + len (flat (concat G.*2)) ≤ u64_max → r + 96 * obs_count (concat G.*2) ≤ u64_max →
  len (concat G.*2) ≤ u32_max → obs_count (concat G.*2) ≤ u32_max →
  Forall (λ e, Is_true (wf e)) (series_directory b r G).
Proof.
  revert b r. induction G as [|[i K] G IH]; intros b r Hb Ho Hne H0b H0r Hf Hr Hn Hobs; [constructor|].
  apply Forall_cons in Ho as [HK Ho]. apply Forall_cons in Hne as [HKne Hne]. cbn [fmap list_fmap concat fst snd] in *.
  rewrite flat_app, !len_app, obs_count_app in *. apply Forall_app in Hb as [HbK Hb].
  pose proof (len_nonneg (flat K)). pose proof (len_nonneg (flat (concat G.*2))). pose proof (obs_count_nonneg K).
  pose proof (obs_count_nonneg (concat G.*2)). pose proof (len_nonneg K). pose proof (len_nonneg (concat G.*2)).
  cbn [series_directory]. constructor; [|apply IH; done || lia].
  assert (wf i) as Hi.
  { destruct K as [|a K]; [done|]. apply Forall_cons in HK as [<- _]. apply Forall_cons in HbK as [[Hw _ _ _] _].
    clear -Hw. wf_split Hw. match goal with H : Is_true (wf (dec_declaration a)) |- _ => wf_split H end. done. }
  wf_intro; cbn; try (apply in_range_spec; unfold u32_max, u64_max in *; lia). exact Hi.
Qed.

Lemma placed_wf store bytes lo hi p :
  placed_at bytes lo hi p → belongs store p.2 → 0 ≤ lo → hi ≤ u32_max → wf p.1.
Proof.
  intros [Hq Hi Hn Hb [? ?] [? ?]] Ha Hlo Hl. pose proof (len_nonneg (wire p.2)).
  destruct Ha as [Hw Hsq _ _]. apply in_range_spec in Hsq. cbn in Hsq.
  assert (wf (owner p.2)) as Ho.
  { clear -Hw. wf_split Hw. match goal with H : Is_true (wf (dec_declaration p.2)) |- _ => wf_split H end. done. }
  wf_intro; rewrite ?Hi, ?Hq; try (apply in_range_spec; unfold u64_max, u32_max in *; lia). exact Ho.
Qed.
Lemma located_wf store p x : wf p.1 → belongs store p.2 → x ∈ located p → wf x.
Proof.
  intros Hw Ha (n & o & Hn & ->)%elem_of_located. destruct (belongs_observations store p.2 Ha) as [Hlen Hkeys].
  rewrite Forall_forall in Hkeys. apply list_elem_of_lookup_2 in Hn as Hin. specialize (Hkeys o Hin).
  apply lookup_lt_Some in Hn. unfold MAX_OBSERVATIONS, len in Hlen. wf_split Hw.
  wf_intro; cbn; try done. apply in_range_spec. unfold u32_max. lia.
Qed.

(** ** Lemmas: the regions of the artifact *)

Section regions.
Context (store : StoreId) (sealed : SealedGeneration) (H : list DecodedAdmissionV1) (Hs : sealed_history store sealed H).
Let G := groups_of H.
Let bo := sl_blocks_offset (segment_layout H).
Let ro := sl_recent_offset (segment_layout H).
Let bytes := segment_bytes store sealed H.
Let header := segment_header store sealed (len H) (len (groups_of H)) (obs_count H) (segment_layout H).
Let D := concat (series_wire <$> segment_series H).
Let B := flat (concat G.*2).
Let A := concat (append_wire <$> segment_appends H).
Let R := concat (observation_wire <$> segment_observations H).
Let T := be_bytes 4 (crc32c (segment_covered store sealed H)).

Lemma region_bounds :
  bo = 192 + 64 * len G ∧ ro = bo + len (flat H) + 48 * len H ∧ sl_append_offset (segment_layout H) = bo + len (flat H) ∧
  sl_artifact_length (segment_layout H) = ro + 96 * obs_count H + 4 ∧ 0 < len G ∧ len G ≤ len H ∧ len H ≤ 4096 ∧
  0 ≤ obs_count H ≤ 1048576 ∧ 0 < len (flat H) ≤ 536870884.
Proof using Hs.
  pose proof (sealed_counts store sealed H Hs) as [[? ?] [? ?] [? ?] [? ?]].
  unfold MAX_SEGMENT_V1_OBSERVATIONS, MAX_SOURCE_OBSERVATION_CONTEXTS, MAX_OBSERVATIONS, MAX_ACTIVE_JOURNAL_RECORDS,
    MAX_ACTIVE_JOURNAL_BYTES, JOURNAL_V1_HEADER_LEN in *.
  unfold bo, ro, G, segment_layout, layout_of. cbn [sl_blocks_offset sl_recent_offset sl_append_offset sl_artifact_length]. lia.
Qed.
Lemma region_series_wf : Forall (λ e, Is_true (wf e)) (segment_series H).
Proof using Hs.
  destruct region_bounds as (E1 & E2 & E3 & E4 & ? & ? & ? & ? & ?).
  apply (directory_wf store); [by eapply members_belong|by eapply sealed_owned|by eapply sealed_nonempty|..];
    fold bo ro; rewrite ?(members_flat store sealed), ?(members_count store sealed), ?(members_observations store sealed) by done;
    unfold u64_max, u32_max; lia.
Qed.
Lemma region_bytes : bytes = header ++ D ++ B ++ A ++ R ++ T.
Proof. unfold bytes, segment_bytes, segment_covered, segment_body. by rewrite <-!app_assoc. Qed.
Lemma len_D : len D = 64 * len G.
Proof using Hs.
  unfold D. rewrite (len_wires _ 64); [|eapply Forall_impl; [apply region_series_wf|intros e; apply len_series_wire]].
  unfold segment_series. by rewrite len_directory.
Qed.
Lemma len_region_header : len header = 192.
Proof using Hs. destruct Hs. by apply len_segment_header. Qed.
Lemma len_B : len B = len (flat H).
Proof using Hs. by eapply members_flat. Qed.

(** The frames of the history in sequence order, each where it was put. *)
Lemma region_frames :
  ∃ ps, ps ≡ₚ frames_of bo G ∧ ps.*1 = segment_appends H ∧ ps.*2 = H ∧ Forall (placed_at bytes bo (bo + len B)) ps.
Proof using Hs.
  destruct region_bounds as (E1 & _). destruct (append_directory_history bo G H) as (ps & Hps & H1 & H2);
    [destruct Hs; by eapply numbered_earlier|by eapply sealed_grouping|]. exists ps. split_and!; try done.
  rewrite Hps, region_bytes, app_assoc. apply frames_of_placed; [|by eapply sealed_owned].
  rewrite len_app, len_region_header, len_D. lia.
Qed.

Lemma region_length_bound : bo + len B ≤ u32_max - 48 * 4096 - 96 * 1048576 - 4 ∧ 0 ≤ bo.
Proof using Hs.
  destruct region_bounds as (E1 & E2 & E3 & E4 & ? & ? & ? & ? & ?). rewrite len_B. unfold u32_max. lia.
Qed.

Lemma region_frames_wf ps :
  ps.*2 = H → Forall (placed_at bytes bo (bo + len B)) ps →
  Forall (λ p, wf p.1 ∧ belongs store p.2) ps.
Proof using Hs.
  intros H2 Hp. assert (Forall (λ p, belongs store p.2) ps) as Hb.
  { assert (Forall (belongs store) ps.*2) as Hb by (rewrite H2; by destruct Hs). by rewrite Forall_fmap in Hb. }
  destruct region_length_bound. rewrite Forall_forall in Hp, Hb |- *. intros p Hin. split; [|by apply Hb].
  eapply placed_wf; [by apply Hp|by apply Hb|done|lia].
Qed.
Lemma region_appends_wf : Forall (λ p, Is_true (wf p)) (segment_appends H).
Proof using Hs.
  destruct region_frames as (ps & _ & <- & H2 & Hp). apply Forall_fmap. eapply Forall_impl; [by apply region_frames_wf|].
  by intros p [? _].
Qed.
Lemma region_observations_wf : Forall (λ x, Is_true (wf x)) (segment_observations H).
Proof using Hs.
  destruct region_frames as (ps & Hps & _ & H2 & Hp). unfold segment_observations. fold bo G.
  rewrite recent_directory_permutation, <-Hps. apply Forall_forall. intros x (p & Hin & Hx)%elem_of_located_all.
  pose proof (region_frames_wf ps H2 Hp) as Hw. rewrite Forall_forall in Hw. destruct (Hw p Hin). by eapply located_wf.
Qed.
Lemma len_A : len A = 48 * len H.
Proof using Hs.
  unfold A. rewrite (len_wires _ 48).
  - destruct region_frames as (ps & _ & <- & H2 & _). apply (f_equal length) in H2. rewrite length_fmap in H2.
    unfold len. by rewrite length_fmap, H2.
  - eapply Forall_impl; [apply region_appends_wf|]. intros p Hw. apply len_append_wire. clear -Hw. cbn beta in Hw. by wf_split Hw.
Qed.
Lemma len_R : len R = 96 * obs_count H.
Proof using Hs.
  unfold R. rewrite (len_wires _ 96).
  - unfold segment_observations. fold bo G. rewrite (len_permutation _ _ (recent_directory_permutation _ _)).
    rewrite len_located_all, frames_of_snd. pose proof (members_observations store sealed H Hs) as E. fold G in E. by rewrite E.
  - eapply Forall_impl; [apply region_observations_wf|]. intros x Hw. cbn beta in Hw. wf_split Hw.
    match goal with H : Is_true (wf (ol_raw_order_key x)) |- _ => wf_split H end. by apply len_observation_wire.
Qed.
Lemma region_length : len bytes = sl_artifact_length (segment_layout H).
Proof using Hs.
  destruct region_bounds as (E1 & E2 & E3 & E4 & _). rewrite region_bytes, !len_app, len_region_header, len_D, len_B, len_A, len_R.
  unfold T. rewrite len_be_bytes. lia.
Qed.
Lemma region_slices :
  slice 192 bo bytes = D ∧ slice bo (bo + len B) bytes = B ∧ slice (bo + len B) ro bytes = A ∧
  slice ro (len bytes - 4) bytes = R.
Proof using Hs.
  destruct region_bounds as (E1 & E2 & E3 & E4 & _). pose proof len_region_header as L1. pose proof len_D as L2. pose proof len_B as L3.
  pose proof len_A as L4. pose proof len_R as L5. pose proof region_length as L6. rewrite E4 in L6.
  replace (len bytes - 4) with (ro + len R) by lia. split_and!; rewrite region_bytes.
  - apply slice_app; lia.
  - rewrite app_assoc. apply slice_app; [rewrite len_app|]; lia.
  - rewrite (app_assoc header), (app_assoc (header ++ D)). apply slice_app; [rewrite !len_app|]; lia.
  - rewrite (app_assoc header), (app_assoc (header ++ D)), (app_assoc ((header ++ D) ++ B)).
    apply slice_app; [rewrite !len_app|]; lia.
Qed.
End regions.
