(* ===== verification/SegmentParse.v ===== *)
(** * Parsing a segment

    [parse_segment_v1] of [och-store/src/segment.rs]. *)

From S2P Require Import Prelude Bytes Identity Bounded Value Collection Series Registry Admission Layout Wire.
From S2P Require Import Fields Crc Journal Generation Disk Active Scan Segment SegmentWire SegmentHistory.

(** ** The parser *)

Record SeriesScan := mkSeriesScan {
  rs_series : list SegmentSeriesEntryV1;
  rs_block_offset : Z;
  rs_recent_offset : Z;
  rs_frames : Z;
  rs_observations : Z }.

(** The series directory: [for index in 0..series_count]. *)
Fixpoint parse_series (bytes : list byte) (layout : SegmentLayout) (checksum_offset : Z) (count : nat) (index : Z)
    (s : SeriesScan) : result (stop SegmentV1Error) SeriesScan :=
  match count with
  | O => Ok s
  | S count =>
    let offset := sl_series_offset layout + index * SEGMENT_V1_SERIES_ENTRY_LEN in
    let! entry_bytes := index_range offset (offset + SEGMENT_V1_SERIES_ENTRY_LEN) bytes in
    let! entry := decode_series_entry entry_bytes in
    if decide (is_some_and (λ prior, bool_decide (¬ id_lt (se_series_id prior) (se_series_id entry)))
                 (last (rs_series s)) ∨
               se_frame_count entry = 0 ∨ se_block_offset entry ≠ rs_block_offset s ∨
               se_recent_offset entry ≠ rs_recent_offset s ∨
               Some (se_recent_length entry) ≠
                 checked_mul usize_max (se_observation_count entry) SEGMENT_V1_OBSERVATION_ENTRY_LEN)
    then refuse SegInvalidSegment
    else
      let! block_offset := some_or (checked_add usize_max (rs_block_offset s) (se_block_length entry)) SegBounds in
      let! recent_offset := some_or (checked_add usize_max (rs_recent_offset s) (se_recent_length entry)) SegBounds in
      if decide (block_offset > sl_append_offset layout ∨ recent_offset > checksum_offset)
      then refuse SegInvalidSegment
      else
        let! total_frames := some_or (checked_add usize_max (rs_frames s) (se_frame_count entry)) SegBounds in
        let! total_observations :=
          some_or (checked_add usize_max (rs_observations s) (se_observation_count entry)) SegBounds in
        parse_series bytes layout checksum_offset count (index + 1)
          (mkSeriesScan (rs_series s ++ [entry]) block_offset recent_offset total_frames total_observations)
  end.

(** Where the observations of one frame are: [frame_observations.iter().enumerate()]. *)
Fixpoint locate_observations (proof : FrameLocation) (ordinal : Z) (os : list Observation)
  : result (stop SegmentV1Error) (list ObservationLocation) :=
  match os with
  | [] => Ok []
  | o :: os =>
    let! ordinal32 := to_u32 ordinal in
    let! rest := locate_observations proof (ordinal + 1) os in
    Ok (mkObservationLocation (fl_series_id proof) (raw_order_key o) (fl_append_sequence proof) ordinal32
          (fl_frame_ordinal proof) (fl_frame_offset proof) (fl_frame_length proof) :: rest)
  end.

Record BlockScan := mkBlockScan {
  bs_proofs : list FrameLocation;
  bs_expected : list ObservationLocation;
  bs_offset : Z;
  bs_prior : option Z;
  bs_count : Z }.

(** One frame of the block of [entry]. *)
Definition parse_frame (bytes : list byte) (store_id : StoreId) (entry : SegmentSeriesEntryV1)
    (block_end frame_ordinal : Z) (s : BlockScan) : result (stop SegmentV1Error) BlockScan :=
  let frame_offset := bs_offset s in
  let! prefix_end := some_or (checked_add usize_max frame_offset JOURNAL_V1_FRAME_PREFIX_LEN) SegBounds in
  let! prefix := some_or (match get_range frame_offset prefix_end bytes with
                          | Some prefix => if decide (prefix_end ≤ block_end) then Some prefix else None
                          | None => None
                          end) SegInvalidSegment in
  let! frame_length := or_refuse (frame_len_from_prefix_v1 prefix decode_limits_maximum) SegInvalidSegment in
  let! frame_end := some_or (checked_add usize_max frame_offset frame_length) SegBounds in
  let! frame := some_or (match get_range frame_offset frame_end bytes with
                         | Some frame => if decide (frame_end ≤ block_end) then Some frame else None
                         | None => None
                         end) SegInvalidSegment in
  let! decoded := or_refuse (decode_admission_frame_v1 frame decode_limits_maximum None) SegInvalidSegment in
  let sequence := dec_append_sequence decoded in
  if decide (dec_store_id decoded ≠ store_id ∨ dd_store_id (dec_declaration decoded) ≠ store_id ∨
             dd_series_id (dec_declaration decoded) ≠ se_series_id entry ∨
             meta_series_id (env_series (dec_envelope decoded)) ≠ se_series_id entry ∨
             retry_series_id (dec_retry decoded) ≠ se_series_id entry ∨
             is_some_and (λ prior, bool_decide (prior >= sequence)) (bs_prior s))
  then refuse SegInvalidSegment
  else
    let! encoded := or_refuse (encode_decoded_admission_frame_v1 decoded) SegInvalidSegment in
    if decide (encoded ≠ frame) then refuse SegInvalidSegment
    else
      let proof := mkFrameLocation sequence (se_series_id entry) frame_offset frame_length frame_ordinal in
      let frame_observations := observations (dec_envelope decoded) in
      let! count := some_or (checked_add usize_max (bs_count s) (len frame_observations)) SegBounds in
      let! located := locate_observations proof 0 frame_observations in
      Ok (mkBlockScan (bs_proofs s ++ [proof]) (bs_expected s ++ located) frame_end (Some sequence) count).

(** [for frame_ordinal in 0..entry.frame_count]. *)
Fixpoint parse_frames (bytes : list byte) (store_id : StoreId) (entry : SegmentSeriesEntryV1) (block_end : Z)
    (count : nat) (frame_ordinal : Z) (s : BlockScan) : result (stop SegmentV1Error) BlockScan :=
  match count with
  | O => Ok s
  | S count =>
    let! s := parse_frame bytes store_id entry block_end frame_ordinal s in
    parse_frames bytes store_id entry block_end count (frame_ordinal + 1) s
  end.

(** [for entry in &series]. *)
Fixpoint parse_blocks (bytes : list byte) (store_id : StoreId) (series : list SegmentSeriesEntryV1)
    (proofs : list FrameLocation) (expected : list ObservationLocation)
  : result (stop SegmentV1Error) (list FrameLocation * list ObservationLocation) :=
  match series with
  | [] => Ok (proofs, expected)
  | entry :: series =>
    let! block_end := some_or (checked_add usize_max (se_block_offset entry) (se_block_length entry)) SegBounds in
    let! s := parse_frames bytes store_id entry block_end (Z.to_nat (se_frame_count entry)) 0
      (mkBlockScan proofs expected (se_block_offset entry) None 0) in
    if decide (bs_offset s ≠ block_end ∨ se_observation_count entry ≠ bs_count s) then refuse SegInvalidSegment
    else parse_blocks bytes store_id series (bs_proofs s) (bs_expected s)
  end.

Record AppendScan := mkAppendScan {
  as_sequence : Z;
  as_checksum : StreamingCrc32c;
  as_length : Z;
  as_appends : list SegmentAppendEntryV1 }.

(** [for (index, proof) in proofs.iter().enumerate()]. *)
Fixpoint parse_appends (bytes : list byte) (layout : SegmentLayout) (index : Z) (proofs : list FrameLocation)
    (s : AppendScan) : result (stop SegmentV1Error) AppendScan :=
  match proofs with
  | [] => Ok s
  | proof :: proofs =>
    if decide (fl_append_sequence proof ≠ as_sequence s) then refuse SegInvalidSegment
    else
      let offset := sl_append_offset layout + index * SEGMENT_V1_APPEND_ENTRY_LEN in
      let! entry_bytes := index_range offset (offset + SEGMENT_V1_APPEND_ENTRY_LEN) bytes in
      let! entry := decode_append_entry entry_bytes in
      let expected := mkAppendEntry (fl_append_sequence proof) (fl_series_id proof) (fl_frame_offset proof)
        (fl_frame_length proof) (fl_frame_ordinal proof) in
      if decide (entry ≠ expected) then refuse SegInvalidSegment
      else
        let! frame := some_or (checked_slice bytes (fl_frame_offset proof) (fl_frame_length proof)) SegInvalidSegment in
        let! length := some_or (checked_add u64_max (as_length s) (fl_frame_length proof)) SegBounds in
        parse_appends bytes layout (index + 1) proofs
          (mkAppendScan (saturating_add u64_max (as_sequence s) 1) (stream_update (as_checksum s) frame) length
             (as_appends s ++ [entry]))
  end.

(** [for (index, expected) in expected_observations.iter().enumerate()]. *)
Fixpoint parse_observations (bytes : list byte) (layout : SegmentLayout) (index : Z)
    (expected : list ObservationLocation) (found : list SegmentObservationEntryV1)
  : result (stop SegmentV1Error) (list SegmentObservationEntryV1) :=
  match expected with
  | [] => Ok found
  | location :: expected =>
    let offset := sl_recent_offset layout + index * SEGMENT_V1_OBSERVATION_ENTRY_LEN in
    let! entry_bytes := index_range offset (offset + SEGMENT_V1_OBSERVATION_ENTRY_LEN) bytes in
    let! entry := decode_observation_entry entry_bytes location in
    parse_observations bytes layout (index + 1) expected (found ++ [entry])
  end.

Record SegmentHeader := mkSegmentHeader {
  sh_sealed : SealedGeneration;
  sh_store_id : StoreId;
  sh_frame_count : Z;
  sh_series_count : Z;
  sh_observation_count : Z;
  sh_layout : SegmentLayout;
  sh_artifact_checksum : Z }.

(** The first part of the parser: the header, the layout it must name and the
    checksum over everything before the trailer. *)
Definition parse_header (bytes : list byte) (expected_store_id : StoreId) : result (stop SegmentV1Error) SegmentHeader :=
  if decide (len bytes > MAX_SEGMENT_V1_BYTES) then refuse SegBounds
  else if decide (len bytes < SEGMENT_V1_HEADER_LEN + SEGMENT_V1_CRC_LEN) then refuse SegInvalidSegment
  else if decide (slice 0 8 bytes ≠ SEGMENT_V1_MAGIC ∨ read_u16 bytes 8 ≠ Some SEGMENT_V1_VERSION ∨
                  read_u16 bytes 10 ≠ Some SEGMENT_V1_HEADER_LEN ∨ read_u32 bytes 12 ≠ Some SEGMENT_FLAGS_NONE ∨
                  ¬ all_zero (slice 168 SEGMENT_V1_HEADER_LEN bytes))
  then refuse SegInvalidSegment
  else
    let! store_id := or_refuse (from_bytes (slice 16 32 bytes)) SegInvalidSegment in
    if decide (store_id ≠ expected_store_id) then refuse SegStoreMismatch
    else
      let! source_journal_generation := some_or (read_u64 bytes 32) SegInvalidSegment in
      let! sequence_floor := some_or (read_u64 bytes 40) SegInvalidSegment in
      let! sequence_cutoff := some_or (read_u64 bytes 48) SegInvalidSegment in
      let! source_registry_generation := some_or (read_u64 bytes 56) SegInvalidSegment in
      let! source_end_offset := some_or (read_u64 bytes 64) SegInvalidSegment in
      let! source_artifact_length := some_or (read_u64 bytes 72) SegInvalidSegment in
      let! source_artifact_checksum := some_or (read_u32 bytes 80) SegInvalidSegment in
      let! frame_count := read_count bytes 84 MAX_ACTIVE_JOURNAL_RECORDS in
      let! series_count := read_count bytes 88 MAX_SEGMENT_V1_SERIES in
      let! observation_count := read_count bytes 92 MAX_SEGMENT_V1_OBSERVATIONS in
      if decide (source_journal_generation = 0 ∨ source_registry_generation = 0 ∨ sequence_cutoff ≤ sequence_floor ∨
                 source_end_offset ≠ source_artifact_length ∨ source_end_offset ≤ JOURNAL_V1_HEADER_LEN ∨
                 source_artifact_length > MAX_ACTIVE_JOURNAL_BYTES ∨ frame_count = 0 ∨ series_count = 0 ∨
                 series_count > frame_count ∨ checked_sub sequence_cutoff sequence_floor ≠ Some frame_count)
      then refuse SegInvalidSegment
      else
        let! blocks_length := some_or (read_u64 bytes 120) SegBounds in
        let! layout := layout_new frame_count series_count observation_count blocks_length in
        if forallb (λ '(offset, expected), bool_decide (read_u64 bytes offset = Some expected))
             [(96, sl_series_offset layout); (104, sl_series_length layout); (112, sl_blocks_offset layout);
              (120, sl_blocks_length layout); (128, sl_append_offset layout); (136, sl_append_length layout);
              (144, sl_recent_offset layout); (152, sl_recent_length layout); (160, sl_artifact_length layout)]
        then
          if decide (len bytes ≠ sl_artifact_length layout) then refuse SegInvalidSegment
          else
            let checksum_offset := len bytes - SEGMENT_V1_CRC_LEN in
            let! artifact_checksum := some_or (read_u32 bytes checksum_offset) SegInvalidSegment in
            let! covered := index_range 0 checksum_offset bytes in
            if decide (crc32c covered ≠ artifact_checksum) then refuse SegInvalidSegment
            else
              let sealed := mkSealed source_journal_generation sequence_floor sequence_cutoff source_end_offset
                source_registry_generation source_artifact_length source_artifact_checksum in
              Ok (mkSegmentHeader sealed store_id frame_count series_count observation_count layout artifact_checksum)
        else refuse SegInvalidSegment.

(** The third part: the append directory and the observation directory against
    the frames found in the blocks. *)
Definition parse_tables (bytes : list byte) (h : SegmentHeader) (series : list SegmentSeriesEntryV1)
    (proofs : list FrameLocation) (expected_observations : list ObservationLocation)
  : result (stop SegmentV1Error) SegmentV1 :=
  let store_id := sh_store_id h in
  let sealed := sh_sealed h in
  let layout := sh_layout h in
  let proofs := merge_sort sequence_order proofs in
  let! expected_sequence := some_or (checked_add u64_max (sg_sequence_floor sealed) 1) SegInvalidSegment in
  let! a := parse_appends bytes layout 0 proofs
    (mkAppendScan expected_sequence (stream_update stream_new (header_encode (mkHeader store_id)))
       JOURNAL_V1_HEADER_LEN []) in
  if decide ((fl_append_sequence <$> last proofs) ≠ Some (sg_sequence_cutoff sealed) ∨
             as_length a ≠ sg_artifact_length sealed ∨
             stream_finish (as_checksum a) ≠ sg_artifact_checksum sealed)
  then refuse SegInvalidSegment
  else
    let expected_observations := merge_sort series_recent_order expected_observations in
    let! observations := parse_observations bytes layout 0 expected_observations [] in
    Ok (mkSegment bytes
          (inspection store_id sealed (sh_frame_count h) (sh_series_count h) (sh_observation_count h) layout
             (sh_artifact_checksum h))
          series (as_appends a) observations).

(** The second part: the series directory and the blocks. *)
Definition parse_body (bytes : list byte) (h : SegmentHeader) : result (stop SegmentV1Error) SegmentV1 :=
  let layout := sh_layout h in
  let checksum_offset := len bytes - SEGMENT_V1_CRC_LEN in
  let! s := parse_series bytes layout checksum_offset (Z.to_nat (sh_series_count h)) 0
    (mkSeriesScan [] (sl_blocks_offset layout) (sl_recent_offset layout) 0 0) in
  if decide (rs_block_offset s ≠ sl_append_offset layout ∨ rs_recent_offset s ≠ checksum_offset ∨
             rs_frames s ≠ sh_frame_count h ∨ rs_observations s ≠ sh_observation_count h)
  then refuse SegInvalidSegment
  else
    let! ' (proofs, expected_observations) := parse_blocks bytes (sh_store_id h) (rs_series s) [] [] in
    if decide (len proofs ≠ sh_frame_count h ∨ len expected_observations ≠ sh_observation_count h)
    then refuse SegInvalidSegment
    else parse_tables bytes h (rs_series s) proofs expected_observations.

Definition parse_segment_v1 (bytes : list byte) (expected_store_id : StoreId) : result (stop SegmentV1Error) SegmentV1 :=
  let! h := parse_header bytes expected_store_id in
  parse_body bytes h.

(** ** The header *)

Record header_ok (h : SegmentHeader) : Prop := {
  ho_store : wf (sh_store_id h);
  ho_sealed : wf (sh_sealed h);
  ho_journal : sg_journal_generation (sh_sealed h) ≠ 0;
  ho_registry : sg_registry_generation (sh_sealed h) ≠ 0;
  ho_end : sg_end_offset (sh_sealed h) = sg_artifact_length (sh_sealed h);
  ho_range : JOURNAL_V1_HEADER_LEN < sg_artifact_length (sh_sealed h) ≤ MAX_ACTIVE_JOURNAL_BYTES;
  ho_frames : sg_sequence_cutoff (sh_sealed h) - sg_sequence_floor (sh_sealed h) = sh_frame_count h;
  ho_counts : counts_ok (sh_frame_count h) (sh_series_count h) (sh_observation_count h) (sl_blocks_length (sh_layout h));
  ho_layout : sh_layout h = layout_of (sh_frame_count h) (sh_series_count h) (sh_observation_count h)
                (sl_blocks_length (sh_layout h)) }.
Definition header_wire (h : SegmentHeader) : list byte :=
  segment_header (sh_store_id h) (sh_sealed h) (sh_frame_count h) (sh_series_count h) (sh_observation_count h) (sh_layout h).
(** An artifact with a header, a body and the checksum over both. *)
Definition artifact (h : SegmentHeader) (body bytes : list byte) : Prop :=
  let covered := header_wire h ++ body in
  bytes = covered ++ be_bytes 4 (crc32c covered) ∧ sh_artifact_checksum h = crc32c covered ∧
  len bytes = sl_artifact_length (sh_layout h).

Lemma read_count_Ok bytes off m (k : Z → result (stop SegmentV1Error) SegmentHeader) x :
  (let! c := read_count bytes off m in k c) = Ok x ↔ ∃ c, read_u32 bytes off = Some c ∧ c ≤ m ∧ k c = Ok x.
Proof.
  unfold read_count. destruct (read_u32 bytes off) as [c|]; cbn [some_or ok_or]; [|naive_solver].
  case_decide; [split; [done|intros (? & [= <-] & ? & _); lia]|]. split; [intros; exists c; split_and!; done || lia|naive_solver].
Qed.

Definition layout_fields (l : SegmentLayout) : list (Z * Z) :=
  [(96, sl_series_offset l); (104, sl_series_length l); (112, sl_blocks_offset l); (120, sl_blocks_length l);
   (128, sl_append_offset l); (136, sl_append_length l); (144, sl_recent_offset l); (152, sl_recent_length l);
   (160, sl_artifact_length l)].
Lemma layout_fields_read bytes l :
  forallb (λ '(offset, expected), bool_decide (read_u64 bytes offset = Some expected)) (layout_fields l) ↔
  Forall (λ '(offset, expected), read_u64 bytes offset = Some expected) (layout_fields l).
Proof.
  induction (layout_fields l) as [|[a v] fs IH]; [done|]. cbn [forallb].
  by rewrite andb_True, bool_decide_spec, IH, Forall_cons.
Qed.

(** The fields that were read are the header, once every one is known. *)
Lemma segment_header_slices bytes h :
  len bytes ≤ usize_max → 192 ≤ len bytes → wf (sh_store_id h) →
  fields_at 0 (segment_header_fields (sh_store_id h) (sh_sealed h) (sh_frame_count h) (sh_series_count h)
    (sh_observation_count h) (sh_layout h)) bytes ↔ slice 0 192 bytes = header_wire h.
Proof.
  intros Hmax Hl Hw. pose proof (len_segment_header (sh_store_id h) (sh_sealed h) (sh_frame_count h) (sh_series_count h)
    (sh_observation_count h) (sh_layout h) Hw) as H192. unfold segment_header in H192.
  rewrite fields_at_slice by (unfold fields_len; lia). unfold fields_len. rewrite H192. done.
Qed.

Lemma artifact_of_slices bytes h :
  196 ≤ len bytes → len bytes = sl_artifact_length (sh_layout h) → slice 0 192 bytes = header_wire h →
  crc32c (slice 0 (len bytes - 4) bytes) = sh_artifact_checksum h →
  slice (len bytes - 4) (len bytes - 4 + 4) bytes = be_bytes 4 (sh_artifact_checksum h) → ∃ body, artifact h body bytes.
Proof.
  intros H196 Hl Hh Hc Ht. exists (slice 192 (len bytes - 4) bytes). unfold artifact. cbv zeta.
  rewrite <-Hh, slice_join by lia. split; [|by rewrite Hc].
  rewrite Hc, <-Ht, slice_join by lia. rewrite slice_all; [done|lia].
Qed.

Lemma parse_header_sound bytes store h :
  parse_header bytes store = Ok h → header_ok h ∧ sh_store_id h = store ∧ ∃ body, artifact h body bytes.
Proof.
  unfold parse_header. intros H. do 3 peel H. do 2 peel H. do 7 peel H.
  apply read_count_Ok in H as (f & Ef & Hf & H). apply read_count_Ok in H as (s & Es & Hs & H).
  apply read_count_Ok in H as (o & Eo & Ho & H). do 2 peel H.
  destruct (layout_new f s o x7) as [l|] eqn:El; [|done]. fold (layout_fields l) in H.
  destruct (forallb _ _) eqn:Hfor in H; [|done]. apply Is_true_true, layout_fields_read in Hfor.
  repeat apply Forall_cons in Hfor as [? Hfor]. clear Hfor.
  peel H. peel H. assert (len bytes = sl_artifact_length l) as Hlen by not_refused.
  assert (196 ≤ len bytes) as H196 by (unfold SEGMENT_V1_HEADER_LEN, SEGMENT_V1_CRC_LEN in *; lia).
  unfold SEGMENT_V1_CRC_LEN in *.
  rewrite index_range_in in H by lia. peel H. injection H as <-.
  assert (len bytes ≤ usize_max) as Hmax by (assert (MAX_SEGMENT_V1_BYTES ≤ usize_max) by done; lia).
  assert (read_u16 bytes 8 = Some SEGMENT_V1_VERSION) as E10 by not_refused.
  assert (read_u16 bytes 10 = Some SEGMENT_V1_HEADER_LEN) as E11 by not_refused.
  assert (read_u32 bytes 12 = Some SEGMENT_FLAGS_NONE) as E12 by not_refused.
  assert (slice 0 8 bytes = SEGMENT_V1_MAGIC) as E13 by not_refused.
  assert (all_zero (slice 168 SEGMENT_V1_HEADER_LEN bytes)) as E14 by not_refused. unfold SEGMENT_V1_HEADER_LEN in E14. clear G1.
  assert (x = store) as -> by not_refused. clear G2.
  assert (checked_sub x2 x1 = Some f) as [? ?]%checked_sub_Some by not_refused.
  assert (x7 = sl_blocks_length l) as -> by congruence. apply all_zero_slice in E14; [|lia..].
  assert (crc32c (slice 0 (len bytes - 4) bytes) = x8) as <- by not_refused.
  got_reads. apply layout_new_Ok in El as [Hcounts Hlay]; [|rewrite in_range_spec in *; lia..].
  set (h := mkSegmentHeader _ _ _ _ _ _ _).
  assert (header_ok h) as Hok by (split; cbn; try lia; try done; wf_intro; assumption).
  split; [exact Hok|]. split; [done|]. apply artifact_of_slices; try done.
  apply segment_header_slices; [lia..|done|]. unfold segment_header_fields.
  cbn [h fields_at sh_sealed sh_store_id sh_frame_count sh_series_count sh_observation_count sh_layout sg_journal_generation
    sg_sequence_floor sg_sequence_cutoff sg_end_offset sg_registry_generation sg_artifact_length sg_artifact_checksum].
  autorewrite with len. rewrite len_into_bytes by assumption. split_and!; assumption || done.
Qed.

(** What the body of an artifact is a body of. *)
Lemma artifact_covered h body bytes :
  artifact h body bytes → wf (sh_store_id h) →
  196 ≤ len bytes ∧ slice 0 192 bytes = header_wire h ∧ slice 0 (len bytes - 4) bytes = header_wire h ++ body ∧
  slice (len bytes - 4) (len bytes - 4 + 4) bytes = be_bytes 4 (sh_artifact_checksum h) ∧
  len body = sl_artifact_length (sh_layout h) - 196.
Proof.
  unfold artifact. cbv zeta. intros (E & Hc & Hl) Hw. pose proof (len_segment_header (sh_store_id h) (sh_sealed h)
    (sh_frame_count h) (sh_series_count h) (sh_observation_count h) (sh_layout h) Hw) as H192. fold (header_wire h) in H192.
  pose proof (len_nonneg body). assert (len bytes = 196 + len body) as H196 by (rewrite E; autorewrite with len; lia).
  split; [lia|]. split; [rewrite E, <-app_assoc; by apply slice_app_0|].
  rewrite Hc. pose proof (slice_trailer (header_wire h ++ body) (be_bytes 4 (crc32c (header_wire h ++ body))) 4) as Ht.
  rewrite len_be_bytes, <-E in Ht. destruct (Ht eq_refl) as [H1 H2].
  rewrite <-H1 at 1. split; [done|]. split; [|lia]. rewrite <-H2 at 1. f_equal; lia.
Qed.

(** Every number of an accepted layout fits its field. *)
Lemma layout_ranges f s o b :
  counts_ok f s o b → let l := layout_of f s o b in
  is_u32 f ∧ is_u32 s ∧ is_u32 o ∧ sl_artifact_length l ≤ MAX_SEGMENT_V1_BYTES ∧
  is_u64 (sl_series_offset l) ∧ is_u64 (sl_series_length l) ∧ is_u64 (sl_blocks_offset l) ∧ is_u64 (sl_blocks_length l) ∧
  is_u64 (sl_append_offset l) ∧ is_u64 (sl_append_length l) ∧ is_u64 (sl_recent_offset l) ∧ is_u64 (sl_recent_length l) ∧
  is_u64 (sl_artifact_length l).
Proof.
  intros [Hf Hs Ho Hb]. unfold layout_of. cbn. rewrite !in_range_spec.
  change MAX_SEGMENT_V1_BYTES with (192 + 64 * 4096 + (512 * 1024 * 1024 - 28) + 48 * 4096 + 96 * (4096 * 256) + 4).
  change MAX_SEGMENT_V1_OBSERVATIONS with (4096 * 256) in Ho.
  unfold MAX_ACTIVE_JOURNAL_RECORDS, MAX_ACTIVE_JOURNAL_BYTES, JOURNAL_V1_HEADER_LEN, u32_max, u64_max in *. split_and!; lia.
Qed.

Lemma read_count_back bytes off end_ m v {A} (k : Z → result (stop SegmentV1Error) A) :
  len bytes ≤ usize_max → 0 ≤ off → end_ ≤ len bytes → slice off end_ bytes = be_bytes 4 v → is_u32 v → end_ = off + 4 →
  v ≤ m → (let! c := read_count bytes off m in k c) = k v.
Proof. intros ??????. unfold read_count. rewrite (read_u32_back bytes off end_ v) by done. cbn [some_or ok_or].
  intros. by rewrite decide_False by lia. Qed.

Lemma parse_header_complete bytes h body :
  header_ok h → artifact h body bytes → parse_header bytes (sh_store_id h) = Ok h.
Proof.
  intros Hok Ha. pose proof (artifact_covered h body bytes Ha (ho_store h Hok)) as (H196 & Hh & Hc & Ht & Hb).
  destruct Hok as [Hw Hs Hj Hr He [Hr1 Hr2] Hn Hcounts Hlay], Ha as (_ & Hcrc & Hlen).
  pose proof (layout_ranges _ _ _ _ Hcounts) as Hrange. cbv zeta in Hrange. rewrite <-Hlay in Hrange.
  destruct Hrange as (? & ? & ? & Hmax & ? & ? & ? & ? & ? & ? & ? & ? & ?). rewrite <-Hlen in Hmax.
  assert (MAX_SEGMENT_V1_BYTES ≤ usize_max) as Hus by done.
  apply segment_header_slices in Hh; [|lia..|done]. unfold segment_header_fields in Hh. cbn [fields_at] in Hh.
  autorewrite with len in Hh. rewrite len_into_bytes in Hh by done. offsets Hh.
  destruct Hh as (F1 & F2 & F3 & F4 & F5 & F6 & F7 & F8 & F9 & F10 & F11 & F12 & F13 & F14 & F15 & F16 & F17 & F18 & F19
    & F20 & F21 & F22 & F23 & F24 & F25 & _).
  pose proof Hcounts as [[? ?] [? ?] [? ?] [? ?]]. wf_split Hs.
  assert (is_u32 (sh_artifact_checksum h)) as Hck by (rewrite Hcrc; apply crc32c_range).
  assert (in_range 0 u16_max SEGMENT_V1_VERSION ∧ in_range 0 u16_max SEGMENT_V1_HEADER_LEN ∧ is_u32 SEGMENT_FLAGS_NONE)
    as (? & ? & ?) by done.
  unfold parse_header, SEGMENT_V1_CRC_LEN. do 2 rewrite decide_False by (unfold SEGMENT_V1_HEADER_LEN; lia).
  read_back. rewrite decide_False.
  2: { rewrite F1, all_zero_slice by (unfold SEGMENT_V1_HEADER_LEN; lia). intros [?|[?|[?|[?|N]]]]; [done..|by apply N]. }
  rewrite decide_False by tauto.
  rewrite (read_count_back bytes 84 88 _ (sh_frame_count h)), (read_count_back bytes 88 92 _ (sh_series_count h)),
    (read_count_back bytes 92 96 _ (sh_observation_count h))
    by (eassumption || lia || done || (unfold MAX_SEGMENT_V1_SERIES; lia)).
  rewrite He. assert (checked_sub (sg_sequence_cutoff (sh_sealed h)) (sg_sequence_floor (sh_sealed h)) = Some (sh_frame_count h)) as ->
    by (apply checked_sub_Some; lia).
  rewrite decide_False by (intros [?|[?|[?|[?|[?|[?|[?|[?|[?|?]]]]]]]]]; lia || done).
  read_back. rewrite (proj2 (layout_new_Ok (sh_frame_count h) (sh_series_count h) (sh_observation_count h)
    (sl_blocks_length (sh_layout h)) (sh_layout h) ltac:(lia) ltac:(lia) ltac:(lia) ltac:(lia)) (conj Hcounts Hlay)).
  cbn [forallb]. read_back. rewrite !bool_decide_true by done. cbn [andb]. rewrite decide_False by lia.
  rewrite index_range_in by lia. rewrite decide_False by (rewrite Hc, Hcrc; tauto).
  clear -He. destruct h as [[] ? ? ? ? ? ?]. cbn in *. by rewrite He.
Qed.

(** ** The series directory *)

Section series.
Context (bytes : list byte) (l : SegmentLayout) (checksum_offset : Z).
Context (Hseries : sl_series_offset l = 192) (Happend : sl_append_offset l ≤ usize_max) (Hck : checksum_offset ≤ usize_max).

Definition series_next (s : SeriesScan) (e : SegmentSeriesEntryV1) : SeriesScan :=
  mkSeriesScan (rs_series s ++ [e]) (rs_block_offset s + se_block_length e) (rs_recent_offset s + se_recent_length e)
    (rs_frames s + se_frame_count e) (rs_observations s + se_observation_count e).
Definition ascends (s : SeriesScan) (e : SegmentSeriesEntryV1) : Prop :=
  match last (rs_series s) with Some p => id_lt (se_series_id p) (se_series_id e) | None => True end.
Record series_follows (s : SeriesScan) (e : SegmentSeriesEntryV1) : Prop := {
  sf_ascends : ascends s e;
  sf_frames : se_frame_count e ≠ 0;
  sf_block : se_block_offset e = rs_block_offset s;
  sf_recent : se_recent_offset e = rs_recent_offset s;
  sf_recent_length : se_recent_length e = 96 * se_observation_count e;
  sf_block_bound : rs_block_offset s + se_block_length e ≤ sl_append_offset l;
  sf_recent_bound : rs_recent_offset s + se_recent_length e ≤ checksum_offset;
  sf_frames_bound : rs_frames s + se_frame_count e ≤ usize_max;
  sf_observations_bound : rs_observations s + se_observation_count e ≤ usize_max }.

Lemma series_follows_checks s e :
  wf e →
  ¬ (is_some_and (λ prior, bool_decide (¬ id_lt (se_series_id prior) (se_series_id e))) (last (rs_series s)) ∨
     se_frame_count e = 0 ∨ se_block_offset e ≠ rs_block_offset s ∨ se_recent_offset e ≠ rs_recent_offset s ∨
     Some (se_recent_length e) ≠ checked_mul usize_max (se_observation_count e) SEGMENT_V1_OBSERVATION_ENTRY_LEN)
  ↔ ascends s e ∧ se_frame_count e ≠ 0 ∧ se_block_offset e = rs_block_offset s ∧
    se_recent_offset e = rs_recent_offset s ∧ se_recent_length e = 96 * se_observation_count e.
Proof.
  intros Hw. wf_fields Hw. unfold SEGMENT_V1_OBSERVATION_ENTRY_LEN, u32_max in *.
  rewrite checked_mul_ok by (unfold usize_max, u64_max; lia). rewrite (inj_iff Some), Z.mul_comm. unfold ascends.
  destruct (last _) as [p|]; cbn [is_some_and]; [rewrite bool_decide_spec|]; [|naive_solver lia].
  destruct (decide (id_lt (se_series_id p) (se_series_id e))); naive_solver lia.
Qed.

Lemma parse_series_step n i s s' :
  0 ≤ i → 192 + 64 * i + 64 ≤ len bytes →
  parse_series bytes l checksum_offset (S n) i s = Ok s' ↔
  ∃ e, wf e ∧ slice (192 + 64 * i) (192 + 64 * i + 64) bytes = series_wire e ∧ series_follows s e ∧
    parse_series bytes l checksum_offset n (i + 1) (series_next s e) = Ok s'.
Proof.
  intros Hi Hl. cbn [parse_series]. rewrite Hseries. unfold SEGMENT_V1_SERIES_ENTRY_LEN. rewrite (Z.mul_comm i).
  rewrite index_range_in by lia. split.
  - destruct (decode_series_entry _) as [e|] eqn:Ed; [|done]. apply decode_series_entry_Ok in Ed as [Hw Eb].
    rewrite guard_Ok, series_follows_checks by done. intros [(? & ? & ? & ? & ?) Hk].
    do 2 (apply some_or_Ok in Hk as (? & [? ->]%checked_add_Some & Hk)). apply guard_Ok in Hk as [? Hk].
    do 2 (apply some_or_Ok in Hk as (? & [? ->]%checked_add_Some & Hk)). exists e. split_and!; try done.
    split; try done; lia.
  - intros (e & Hw & -> & [? ? ? ? ? ? ? ? ?] & H). rewrite (proj2 (decode_series_entry_Ok _ _) (conj Hw eq_refl)).
    rewrite guard_Ok, series_follows_checks by done. split; [done|].
    rewrite !checked_add_ok by lia. cbn [some_or ok_or]. rewrite decide_False by lia. done.
Qed.

Definition series_nexts : SeriesScan → list SegmentSeriesEntryV1 → SeriesScan := foldl series_next.
Fixpoint series_chain (s : SeriesScan) (es : list SegmentSeriesEntryV1) : Prop :=
  match es with [] => True | e :: es => series_follows s e ∧ series_chain (series_next s e) es end.

Lemma parse_series_Ok n i s s' :
  0 ≤ i → 192 + 64 * (i + Z.of_nat n) ≤ len bytes →
  parse_series bytes l checksum_offset n i s = Ok s' ↔
  ∃ es, length es = n ∧ Forall (λ e, Is_true (wf e)) es ∧
    slice (192 + 64 * i) (192 + 64 * (i + Z.of_nat n)) bytes = concat (series_wire <$> es) ∧
    series_chain s es ∧ s' = series_nexts s es.
Proof.
  revert i s. induction n as [|n IH]; intros i s Hi Hl.
  - cbn [parse_series]. rewrite Z.add_0_r. split.
    + intros [= <-]. exists []. split_and!; try done. unfold slice. by rewrite Z.sub_diag.
    + by intros ([|] & ? & _ & _ & _ & ->).
  - rewrite parse_series_step by lia. replace (i + Z.of_nat (S n)) with (i + 1 + Z.of_nat n) by lia.
    assert (slice (192 + 64 * i) (192 + 64 * (i + 1 + Z.of_nat n)) bytes =
      slice (192 + 64 * i) (192 + 64 * i + 64) bytes ++ slice (192 + 64 * (i + 1)) (192 + 64 * (i + 1 + Z.of_nat n)) bytes) as ->
      by (replace (192 + 64 * (i + 1)) with (192 + 64 * i + 64) by lia; by rewrite slice_join by lia).
    split.
    + intros (e & Hw & Eb & Hf & H). apply IH in H as (es & Hn & Hws & Es & Hc & ->); [|lia..].
      exists (e :: es). rewrite Eb, Es. cbn [length]. split_and!; try done; [by rewrite Hn|by constructor].
    + intros ([|e es] & Hn & Hws & Es & Hc & ->); [done|]. apply Forall_cons in Hws as [Hw Hws].
      rewrite fmap_cons in Es. cbn [concat] in Es. destruct Hc as [Hf Hc].
      apply app_inj_1 in Es as [E1 E2]; [|pose proof (len_slice (192 + 64 * i) (192 + 64 * i + 64) bytes);
        pose proof (len_series_wire e Hw); unfold len in *; lia].
      exists e. split_and!; try done. apply IH; [lia..|]. exists es. split_and!; try done. by injection Hn.
Qed.
End series.

(** ** The blocks *)

Lemma slice_prefix a b n l : 0 ≤ n ≤ b - a → slice 0 n (slice a b l) = slice a (a + n) l.
Proof. intros H. unfold slice. rewrite drop_0, take_take. f_equal. lia. Qed.

Lemma locate_observations_at l ord os :
  0 ≤ ord → ord + len os ≤ u32_max → locate_observations l ord os = Ok (observations_at l ord os).
Proof.
  revert ord. induction os as [|o os IH]; intros ord Ho Hl; [done|]. rewrite len_cons in Hl. pose proof (len_nonneg os).
  cbn [locate_observations observations_at]. unfold to_u32. rewrite decide_True by lia. by rewrite IH by lia.
Qed.

Section blocks.
Context (bytes : list byte) (store : StoreId) (Hmax : len bytes ≤ usize_max).

Definition frame_at (e : SegmentSeriesEntryV1) (off ord : Z) (a : DecodedAdmissionV1) : FrameLocation :=
  mkFrameLocation (dec_append_sequence a) (se_series_id e) off (len (wire a)) ord.
Definition frame_next (e : SegmentSeriesEntryV1) (ord : Z) (s : BlockScan) (a : DecodedAdmissionV1) : BlockScan :=
  let l := frame_at e (bs_offset s) ord a in
  mkBlockScan (bs_proofs s ++ [l]) (bs_expected s ++ located (l, a)) (bs_offset s + len (wire a))
    (Some (dec_append_sequence a)) (bs_count s + len (frame_observations a)).
Record frame_follows (e : SegmentSeriesEntryV1) (block_end : Z) (s : BlockScan) (a : DecodedAdmissionV1) : Prop := {
  ff_belongs : belongs store a;
  ff_owner : owner a = se_series_id e;
  ff_ascends : ∀ p, bs_prior s = Some p → p < dec_append_sequence a;
  ff_bytes : slice (bs_offset s) (bs_offset s + len (wire a)) bytes = wire a;
  ff_end : bs_offset s + len (wire a) ≤ block_end;
  ff_count : bs_count s + len (frame_observations a) ≤ usize_max }.

Lemma within_Some a b e r :
  (match get_range a b bytes with Some x => if decide (b ≤ e) then Some x else None | None => None end) = Some r ↔
  (0 ≤ a ∧ a ≤ b ∧ b ≤ len bytes) ∧ b ≤ e ∧ r = slice a b bytes.
Proof.
  destruct (get_range a b bytes) as [x|] eqn:E.
  - apply get_range_Some in E as [? ->]. case_decide; naive_solver.
  - split; [done|]. intros (Hr & _ & _). unfold get_range in E. by rewrite decide_True in E.
Qed.

(** What the block parser checks of a decoded frame. *)
Lemma frame_checks e s a :
  wf a → wf (mkSequence (dec_append_sequence a)) → decoded_contract a →
  ¬ (dec_store_id a ≠ store ∨ dd_store_id (dec_declaration a) ≠ store ∨ dd_series_id (dec_declaration a) ≠ se_series_id e ∨
     meta_series_id (env_series (dec_envelope a)) ≠ se_series_id e ∨ retry_series_id (dec_retry a) ≠ se_series_id e ∨
     is_some_and (λ prior, bool_decide (prior >= dec_append_sequence a)) (bs_prior s)) ↔
  belongs store a ∧ owner a = se_series_id e ∧ (∀ p, bs_prior s = Some p → p < dec_append_sequence a).
Proof.
  intros Hw Hs Hc.
  assert (is_some_and (λ prior, bool_decide (prior >= dec_append_sequence a)) (bs_prior s) = false ↔
    ∀ p, bs_prior s = Some p → p < dec_append_sequence a) as Hp.
  { rewrite is_some_and_false. split; intros Hp p E; specialize (Hp p E); [apply bool_decide_eq_false in Hp; lia|].
    apply bool_decide_eq_false. lia. }
  rewrite <-Hp. destruct (is_some_and _ _); [naive_solver|]. split.
  - intros N. assert (dec_store_id a = store) as Hst by not_refused. assert (dd_series_id (dec_declaration a) = se_series_id e) by not_refused.
    split_and!; try done.
  - intros (Hb & Ho & _). destruct (belongs_scope store a Hb) as (-> & -> & ->). destruct Hb as [_ _ _ ->].
    unfold owner in *. rewrite Ho. naive_solver.
Qed.

Lemma parse_frame_sound e block_end ord s s' :
  0 ≤ bs_offset s → block_end ≤ len bytes →
  parse_frame bytes store e block_end ord s = Ok s' → ∃ a, frame_follows e block_end s a ∧ s' = frame_next e ord s a.
Proof.
  intros Ho Hb. unfold parse_frame, JOURNAL_V1_FRAME_PREFIX_LEN. intros H. peel H. apply checked_add_Some in E as [? ->].
  peel H. peel H. peel H. apply checked_add_Some in E1 as [? ->]. peel H. apply within_Some in E1 as ((? & ? & ?) & ? & ->).
  peel H. apply decode_frame_exact in E1 as (Hw & Hs & _ & Hc & _ & Ew). fold (wire x1) in Ew. peel H.
  apply frame_checks in G as (Hbel & Hown & Hasc); [|done..]. peel H. peel H. peel H.
  apply checked_add_Some in E2 as [? ->].
  pose proof (len_slice (bs_offset s) (bs_offset s + x0) bytes ltac:(lia) ltac:(lia)) as Hn. rewrite Ew in Hn.
  assert (x0 = len (wire x1)) as -> by lia.
  pose proof (belongs_observations store x1 Hbel) as [Hobs _]. unfold MAX_OBSERVATIONS, frame_observations in Hobs.
  rewrite locate_observations_at in H by (unfold u32_max; lia). injection H as <-. exists x1. split; [by split|done].
Qed.

Lemma parse_frame_complete e block_end ord s a :
  0 ≤ bs_offset s → block_end ≤ len bytes →
  frame_follows e block_end s a → parse_frame bytes store e block_end ord s = Ok (frame_next e ord s a).
Proof.
  intros Ho Hb [Hbel Hown Hasc Hbytes Hend Hcount]. unfold parse_frame, JOURNAL_V1_FRAME_PREFIX_LEN.
  pose proof (wire_pos a). rewrite checked_add_ok by lia. cbn [some_or ok_or].
  rewrite (proj2 (within_Some _ _ _ _)) by (split_and!; done || lia). cbn [some_or ok_or].
  assert (slice (bs_offset s) (bs_offset s + 20) bytes = slice 0 20 (wire a)) as ->.
  { rewrite <-Hbytes. symmetry. apply slice_prefix. lia. }
  rewrite (belongs_prefix store) by done. cbn [or_refuse map_err]. rewrite checked_add_ok by lia. cbn [some_or ok_or].
  rewrite (proj2 (within_Some _ _ _ _)) by (split_and!; done || lia). cbn [some_or ok_or].
  rewrite (belongs_decodes store) by done. cbn [or_refuse map_err].
  rewrite decide_False by (apply frame_checks; [by destruct Hbel..|done]).
  rewrite (belongs_encodes store) by done. cbn [or_refuse map_err]. rewrite decide_False by tauto.
  fold (frame_observations a). rewrite checked_add_ok by done. cbn [some_or ok_or].
  pose proof (belongs_observations store a Hbel) as [Hobs _]. unfold MAX_OBSERVATIONS in Hobs.
  by rewrite locate_observations_at by (unfold u32_max; lia).
Qed.

Fixpoint frames_chain (e : SegmentSeriesEntryV1) (block_end ord : Z) (s : BlockScan) (K : list DecodedAdmissionV1) : Prop :=
  match K with
  | [] => True
  | a :: K => frame_follows e block_end s a ∧ frames_chain e block_end (ord + 1) (frame_next e ord s a) K
  end.
Fixpoint frames_nexts (e : SegmentSeriesEntryV1) (ord : Z) (s : BlockScan) (K : list DecodedAdmissionV1) : BlockScan :=
  match K with [] => s | a :: K => frames_nexts e (ord + 1) (frame_next e ord s a) K end.

Lemma parse_frames_Ok e block_end n ord s s' :
  0 ≤ bs_offset s → block_end ≤ len bytes →
  parse_frames bytes store e block_end n ord s = Ok s' ↔
  ∃ K, length K = n ∧ frames_chain e block_end ord s K ∧ s' = frames_nexts e ord s K.
Proof.
  revert ord s. induction n as [|n IH]; intros ord s Ho Hb; cbn [parse_frames].
  - split; [intros [= <-]; by exists []|]. by intros ([|] & ? & _ & ->).
  - assert (∀ a, 0 ≤ bs_offset (frame_next e ord s a)) as Hn by (intros a; cbn; pose proof (wire_pos a); lia). split.
    + destruct (parse_frame _ _ _ _ _ _) as [s1|] eqn:E; [|done]. apply parse_frame_sound in E as (a & Hf & ->); [|done..].
      intros Hk. apply IH in Hk as (K & <- & Hc & ->); [|apply Hn|done]. by exists (a :: K).
    + intros ([|a K] & Hl & Hc & ->); [done|]. destruct Hc as [Hf Hc]. rewrite (parse_frame_complete e block_end ord s a) by done.
      apply IH; [apply Hn|done|]. exists K. by injection Hl.
Qed.

(** A chain of frames, in terms of the block they make. *)
Lemma frames_nexts_locate e ord s K :
  bs_proofs (frames_nexts e ord s K) = bs_proofs s ++ (locate (se_series_id e) (bs_offset s) ord K).*1 ∧
  bs_expected (frames_nexts e ord s K) = bs_expected s ++ located_all (locate (se_series_id e) (bs_offset s) ord K) ∧
  bs_offset (frames_nexts e ord s K) = bs_offset s + len (flat K) ∧
  bs_count (frames_nexts e ord s K) = bs_count s + obs_count K.
Proof.
  revert ord s. induction K as [|a K IH]; intros ord s; cbn [frames_nexts locate obs_count].
  - cbn. rewrite !app_nil_r, !Z.add_0_r. done.
  - destruct (IH (ord + 1) (frame_next e ord s a)) as (-> & -> & -> & ->).
    cbn [frame_next bs_proofs bs_expected bs_offset bs_count fmap list_fmap fst].
    rewrite located_all_cons, flat_cons, len_app, <-!app_assoc. unfold frame_at. split_and!; done || lia.
Qed.

Definition follows_prior (prior : option Z) (K : list DecodedAdmissionV1) : Prop :=
  (∀ p, prior = Some p → Forall (λ a, p < dec_append_sequence a) K) ∧ StronglySorted earlier K.
Lemma follows_prior_cons prior a K :
  follows_prior prior (a :: K) ↔ (∀ p, prior = Some p → p < dec_append_sequence a) ∧ follows_prior (Some (dec_append_sequence a)) K.
Proof.
  unfold follows_prior. split.
  - intros [Hp Hs]. apply StronglySorted_inv in Hs as [Hs Ha]. split_and!; [|by intros p [= <-]|done].
    intros p E. specialize (Hp p E). by apply Forall_cons in Hp as [? _].
  - intros (Hp & Ha & Hs). specialize (Ha _ eq_refl). split; [|by constructor].
    intros p E. specialize (Hp p E). constructor; [done|]. eapply Forall_impl; [exact Ha|]. cbn. lia.
Qed.

Lemma frames_chain_block e block_end ord s K :
  0 ≤ bs_offset s → bs_offset s ≤ block_end → block_end ≤ len bytes → bs_count s ≤ usize_max →
  frames_chain e block_end ord s K ↔
  Forall (belongs store) K ∧ Forall (λ a, owner a = se_series_id e) K ∧ follows_prior (bs_prior s) K ∧
  slice (bs_offset s) (bs_offset s + len (flat K)) bytes = flat K ∧ bs_offset s + len (flat K) ≤ block_end ∧
  bs_count s + obs_count K ≤ usize_max.
Proof.
  revert ord s. induction K as [|a K IH]; intros ord s Ho Hb Hl Hc; cbn [frames_chain obs_count].
  - rewrite len_flat_nil, Z.add_0_r. split; [|done]. intros _. split_and!; try done || lia; [split; [intros|]; constructor|].
    unfold slice. by rewrite Z.sub_diag.
  - pose proof (wire_pos a). pose proof (len_nonneg (flat K)). pose proof (obs_count_nonneg K). pose proof (len_nonneg (frame_observations a)).
    rewrite flat_cons, len_app, !Forall_cons, follows_prior_cons.
    assert (bs_offset s + (len (wire a) + len (flat K)) ≤ block_end →
      slice (bs_offset s) (bs_offset s + (len (wire a) + len (flat K))) bytes = wire a ++ flat K ↔
      slice (bs_offset s) (bs_offset s + len (wire a)) bytes = wire a ∧
      slice (bs_offset s + len (wire a)) (bs_offset s + len (wire a) + len (flat K)) bytes = flat K) as Hsplit.
    { intros Hle. rewrite Z.add_assoc, <-(slice_join (bs_offset s) (bs_offset s + len (wire a))) by lia.
      split; [intros E|by intros [-> ->]]. apply app_inj_1 in E; [done|].
      pose proof (len_slice (bs_offset s) (bs_offset s + len (wire a)) bytes). unfold len in *. lia. }
    split.
    + intros [[? ? ? ? ? ?] Hk]. apply IH in Hk; [|cbn; lia..]. cbn in Hk. destruct Hk as (? & ? & ? & ? & ? & ?).
      rewrite Hsplit by lia. split_and!; done || lia.
    + intros ([? ?] & [? ?] & [? ?] & Hs & ? & ?). rewrite Hsplit in Hs by done. destruct Hs as [? ?].
      split; [split; done || lia|]. apply IH; cbn; [lia..|]. split_and!; done || lia.
Qed.
End blocks.

(** What the block of an entry holds. *)
Record block_ok (bytes : list byte) (store : StoreId) (e : SegmentSeriesEntryV1) (g : group) : Prop := {
  bk_series : se_series_id e = g.1;
  bk_belongs : Forall (belongs store) g.2;
  bk_owner : Forall (λ a, owner a = g.1) g.2;
  bk_sorted : StronglySorted earlier g.2;
  bk_frames : se_frame_count e = len g.2;
  bk_observations : se_observation_count e = obs_count g.2;
  bk_length : se_block_length e = len (flat g.2);
  bk_bytes : slice (se_block_offset e) (se_block_offset e + se_block_length e) bytes = flat g.2 }.
Definition frames_at (es : list SegmentSeriesEntryV1) (G : list group) : list (FrameLocation * DecodedAdmissionV1) :=
  concat (zip_with (λ e g, locate g.1 (se_block_offset e) 0 g.2) es G).

Section parse_blocks.
Context (bytes : list byte) (store : StoreId) (Hmax : len bytes ≤ usize_max).

Lemma parse_block_Ok e P X s' :
  wf e → se_block_offset e + se_block_length e ≤ len bytes →
  parse_frames bytes store e (se_block_offset e + se_block_length e) (Z.to_nat (se_frame_count e)) 0
    (mkBlockScan P X (se_block_offset e) None 0) = Ok s' ∧
  bs_offset s' = se_block_offset e + se_block_length e ∧ se_observation_count e = bs_count s' ↔
  ∃ g, block_ok bytes store e g ∧ s' = frames_nexts e 0 (mkBlockScan P X (se_block_offset e) None 0) g.2.
Proof.
  intros Hw Hl. wf_fields Hw. unfold u32_max in *. set (s := mkBlockScan P X (se_block_offset e) None 0).
  rewrite parse_frames_Ok by (done || (cbn; lia)). split.
  - intros ((K & Hn & Hc & ->) & Ho & Hk). destruct (frames_nexts_locate e 0 s K) as (_ & _ & Eo & Ec). rewrite Eo in Ho. rewrite Ec in Hk.
    cbn [s bs_offset bs_count] in *. exists (se_series_id e, K). split; [|done].
    apply frames_chain_block in Hc; [|first [done|cbn; unfold usize_max, u64_max; lia]..]. cbn [s bs_offset bs_count bs_prior] in Hc.
    destruct Hc as (? & ? & [_ ?] & Hb & ? & ?). assert (len (flat K) = se_block_length e) as El by lia. rewrite El in Hb.
    split; cbn [fst snd]; try done; unfold len in *; lia.
  - intros (g & [Es Hb Ho Hs Hf Hob Hlen Hby] & ->). destruct (frames_nexts_locate e 0 s g.2) as (_ & _ & -> & ->).
    cbn [s bs_offset bs_count]. split; [|lia]. exists g.2. split; [unfold len in Hf; lia|]. split; [|done].
    apply frames_chain_block; [first [done|cbn; unfold usize_max, u64_max; lia]..|]. cbn [s bs_offset bs_count bs_prior].
    rewrite <-Hlen, Es. pose proof (obs_count_nonneg g.2). split_and!; try done || lia; unfold usize_max, u64_max; lia.
Qed.

Lemma parse_blocks_Ok es P X P' X' :
  Forall (λ e, wf e ∧ se_block_offset e + se_block_length e ≤ len bytes) es →
  parse_blocks bytes store es P X = Ok (P', X') ↔
  ∃ G, Forall2 (block_ok bytes store) es G ∧ P' = P ++ (frames_at es G).*1 ∧ X' = X ++ located_all (frames_at es G).
Proof.
  revert P X. induction es as [|e es IH]; intros P X Hes; cbn [parse_blocks].
  - split; [intros [= <- <-]; exists []; split; [constructor|]; unfold frames_at; cbn; by rewrite !app_nil_r|].
    intros (G & HG & -> & ->). apply Forall2_nil_inv_l in HG as ->. unfold frames_at. cbn. by rewrite !app_nil_r.
  - apply Forall_cons in Hes as [[Hw Hl] Hes]. rewrite checked_add_ok by lia. cbn [some_or ok_or].
    transitivity (∃ g, block_ok bytes store e g ∧
      let s := frames_nexts e 0 (mkBlockScan P X (se_block_offset e) None 0) g.2 in
      parse_blocks bytes store es (bs_proofs s) (bs_expected s) = Ok (P', X')).
    + split.
      * destruct (parse_frames _ _ _ _ _ _ _) as [s|] eqn:Ep; [|done]. rewrite guard_Ok. intros [Hg Hk].
        destruct (proj1 (parse_block_Ok e P X s Hw Hl)) as (g & Hb & ->); [split_and!; [done|lia..]|]. by exists g.
      * intros (g & Hb & Hk). destruct (proj2 (parse_block_Ok e P X (frames_nexts e 0 (mkBlockScan P X (se_block_offset e) None 0) g.2) Hw Hl))
          as (Ep & Eo & Ec); [by exists g|].
        rewrite Ep, guard_Ok. split; [lia|done].
    + split.
      * intros (g & Hb & Hk). cbv zeta in Hk.
        destruct (frames_nexts_locate e 0 (mkBlockScan P X (se_block_offset e) None 0) g.2) as (Ep & Ex & _ & _). rewrite Ep, Ex in Hk.
        apply IH in Hk as (G & HG & -> & ->); [|done]. exists (g :: G). split; [by constructor|].
        rewrite (bk_series _ _ _ _ Hb). unfold frames_at. cbn [zip_with concat bs_proofs bs_expected bs_offset].
        by rewrite fmap_app, located_all_app, <-!app_assoc.
      * intros (G' & HG & -> & ->). apply Forall2_cons_inv_l in HG as (g & G & Hb & HG & ->). exists g. split; [done|]. cbv zeta.
        destruct (frames_nexts_locate e 0 (mkBlockScan P X (se_block_offset e) None 0) g.2) as (-> & -> & _ & _).
        apply IH; [done|]. exists G. split; [done|].
        rewrite (bk_series _ _ _ _ Hb). unfold frames_at. cbn [zip_with concat bs_proofs bs_expected bs_offset].
        by rewrite fmap_app, located_all_app, <-!app_assoc.
Qed.
End parse_blocks.

(** ** Directories of groups *)

Definition members (G : list group) : list DecodedAdmissionV1 := concat G.*2.
Definition follows_series (s : SeriesScan) (G : list group) : Prop :=
  (∀ p, last (rs_series s) = Some p → Forall (id_lt (se_series_id p)) G.*1) ∧ StronglySorted id_lt G.*1.
Lemma members_cons g G : members (g :: G) = g.2 ++ members G.
Proof. done. Qed.
Lemma length_flat_members i K (G : list group) : len (flat (members ((i, K) :: G))) = len (flat K) + len (flat (members G)).
Proof. by rewrite members_cons, flat_app, len_app. Qed.
Lemma follows_series_cons s e g G :
  se_series_id e = g.1 → follows_series s (g :: G) ↔ ascends s e ∧ follows_series (series_next s e) G.
Proof.
  intros E. unfold follows_series, ascends. cbn [series_next rs_series fmap list_fmap]. rewrite last_snoc. split.
  - intros [Hp Hs]. apply StronglySorted_inv in Hs as [Hs Hg]. split; [|split; [|done]].
    + destruct (last (rs_series s)) as [p|]; [|done]. specialize (Hp p eq_refl). apply Forall_cons in Hp as [? _]. by rewrite E.
    + intros p [= <-]. by rewrite E.
  - intros (Ha & Hp & Hs). specialize (Hp e eq_refl). rewrite E in *. split; [|by constructor].
    intros p Ep. rewrite Ep in Ha. constructor; [done|]. eapply Forall_impl; [exact Hp|].
    intros i Hi. by etrans.
Qed.

Section directories.
Context (bytes : list byte) (store : StoreId) (l : SegmentLayout) (checksum_offset : Z).

Lemma chain_directory s es G :
  Forall2 (block_ok bytes store) es G → series_chain l checksum_offset s es →
  es = series_directory (rs_block_offset s) (rs_recent_offset s) G ∧
  frames_at es G = frames_of (rs_block_offset s) G ∧ follows_series s G ∧ Forall (λ g : group, g.2 ≠ []) G.
Proof.
  intros HG. revert s. induction HG as [|e [i K] es G Hb HG IH]; intros s Hc.
  - split_and!; try done. split; [intros|]; constructor.
  - destruct Hc as [[Ha Hf Hbo Hro Hrl Hbb Hrb Hfb Hob] Hc]. specialize (IH _ Hc) as (Ees & Efr & Hfs & Hne).
    destruct Hb as [Es Hbe Ho Hso Hfr Hobs Hlen Hby]. cbn [fst snd] in *.
    cbn [series_next rs_block_offset rs_recent_offset] in *. rewrite Hlen in *. rewrite Hrl, Hobs in *. split_and!.
    + cbn [series_directory]. rewrite <-Ees. f_equal. destruct e. cbn in *. congruence.
    + unfold frames_at in *. cbn [zip_with concat frames_of fst snd]. rewrite Efr, Hbo. done.
    + apply (follows_series_cons s e); done.
    + constructor; [|done]. cbn. intros ->. done.
Qed.

Lemma series_nexts_directory s G :
  series_nexts s (series_directory (rs_block_offset s) (rs_recent_offset s) G) =
  mkSeriesScan (rs_series s ++ series_directory (rs_block_offset s) (rs_recent_offset s) G)
    (rs_block_offset s + len (flat (members G))) (rs_recent_offset s + 96 * obs_count (members G))
    (rs_frames s + len (members G)) (rs_observations s + obs_count (members G)).
Proof.
  unfold series_nexts. revert s. induction G as [|[i K] G IH]; intros [es b r f o].
  - cbn. rewrite app_nil_r, !Z.add_0_r. done.
  - cbn [series_directory foldl series_next rs_series rs_block_offset rs_recent_offset rs_frames rs_observations
      se_block_length se_recent_length se_frame_count se_observation_count].
    specialize (IH (series_next (mkSeriesScan es b r f o)
      (mkSeriesEntry i b (len (flat K)) (len K) (obs_count K) r (96 * obs_count K)))).
    cbn [series_next rs_series rs_block_offset rs_recent_offset rs_frames rs_observations se_block_length se_recent_length
      se_frame_count se_observation_count] in IH. rewrite IH.
    rewrite length_flat_members, members_cons, obs_count_app, len_app, <-!app_assoc. cbn [snd]. f_equal; try lia.
Qed.

Lemma directory_chain s G :
  follows_series s G → Forall (λ g : group, g.2 ≠ []) G →
  rs_block_offset s + len (flat (members G)) ≤ sl_append_offset l →
  rs_recent_offset s + 96 * obs_count (members G) ≤ checksum_offset →
  rs_frames s + len (members G) ≤ usize_max → rs_observations s + obs_count (members G) ≤ usize_max →
  series_chain l checksum_offset s (series_directory (rs_block_offset s) (rs_recent_offset s) G).
Proof.
  revert s. induction G as [|[i K] G IH]; intros s Hs Hne Hb Hr Hf Ho; [done|]. apply Forall_cons in Hne as [HK Hne].
  rewrite length_flat_members in Hb. rewrite members_cons in *. rewrite obs_count_app, len_app in *. cbn [fst snd] in *.
  pose proof (len_nonneg (flat (members G))). pose proof (obs_count_nonneg (members G)). pose proof (len_nonneg (members G)).
  assert (0 < len K) by (destruct K; [done|rewrite len_cons; pose proof (len_nonneg K); lia]).
  set (e := mkSeriesEntry i (rs_block_offset s) (len (flat K)) (len K) (obs_count K) (rs_recent_offset s) (96 * obs_count K)).
  apply (follows_series_cons s e) in Hs as [Ha Hs]; [|done].
  cbn [series_directory]. fold e. split.
  - split; cbn; try done; lia.
  - apply (IH (series_next s e)); cbn; done || lia.
Qed.

Lemma directory_blocks b r G :
  0 ≤ b → b + len (flat (members G)) ≤ len bytes → slice b (b + len (flat (members G))) bytes = flat (members G) →
  Forall (belongs store) (members G) → owned G → Forall (λ g : group, StronglySorted earlier g.2) G →
  Forall2 (block_ok bytes store) (series_directory b r G) G.
Proof.
  revert b r. induction G as [|[i K] G IH]; intros b r Hb0 Hl Hs Hb Ho Hso; [constructor|].
  apply Forall_cons in Ho as [HK Ho]. apply Forall_cons in Hso as [HKs Hso]. rewrite length_flat_members in *.
  rewrite members_cons in *. apply Forall_app in Hb as [HKb Hb]. cbn [fst snd] in *. rewrite flat_app in Hs.
  pose proof (len_nonneg (flat K)). pose proof (len_nonneg (flat (members G))).
  rewrite Z.add_assoc, <-(slice_join b (b + len (flat K))) in Hs by lia.
  apply app_inj_1 in Hs as [H1 H2]; [|pose proof (len_slice b (b + len (flat K)) bytes); unfold len in *; lia].
  cbn [series_directory]. constructor; [by split|]. apply IH; done || lia.
Qed.
Lemma blocks_slice b r G :
  0 ≤ b → b + len (flat (members G)) ≤ len bytes →
  Forall2 (block_ok bytes store) (series_directory b r G) G → slice b (b + len (flat (members G))) bytes = flat (members G).
Proof.
  revert b r. induction G as [|[i K] G IH]; intros b r Hb0 Hl HG.
  - rewrite Z.add_0_r. unfold slice. by rewrite Z.sub_diag.
  - cbn [series_directory] in HG. apply Forall2_cons in HG as [[_ _ _ _ _ _ _ Hb] HG]. cbn in Hb.
    rewrite length_flat_members in *. rewrite members_cons, flat_app. cbn [snd].
    pose proof (len_nonneg (flat K)). pose proof (len_nonneg (flat (members G))).
    rewrite Z.add_assoc, <-(slice_join b (b + len (flat K))) by lia. rewrite Hb. f_equal. eapply IH; [lia..|done].
Qed.
End directories.

(** ** The append and observation directories *)

Section tables.
Context (bytes : list byte) (l : SegmentLayout) (Hmax : len bytes ≤ usize_max).

(** A table of entries of one width, read one further. *)
Lemma table_slice base w i n : 0 ≤ base → 0 ≤ i → 0 ≤ w → base + w * (i + Z.of_nat (S n)) ≤ len bytes →
  slice (base + w * i) (base + w * (i + Z.of_nat (S n))) bytes =
  slice (base + w * i) (base + w * i + w) bytes ++ slice (base + w * (i + 1)) (base + w * (i + 1 + Z.of_nat n)) bytes.
Proof.
  intros. replace (i + Z.of_nat (S n)) with (i + 1 + Z.of_nat n) by lia.
  replace (base + w * (i + 1)) with (base + w * i + w) by lia. by rewrite slice_join by nia.
Qed.

Lemma checked_slice_placed lo p :
  placed_at bytes lo (len bytes) p → 0 ≤ lo → checked_slice bytes (fl_frame_offset p.1) (fl_frame_length p.1) = Some (wire p.2).
Proof.
  intros [_ _ Hn Hb [? ?] _] Hlo. unfold checked_slice. rewrite Hn. pose proof (len_nonneg (wire p.2)).
  rewrite checked_add_ok by lia. rewrite get_range_in by lia. by rewrite Hb.
Qed.

Fixpoint consecutive (q : Z) (ps : list (FrameLocation * DecodedAdmissionV1)) : Prop :=
  match ps with [] => True | p :: ps => fl_append_sequence p.1 = q ∧ consecutive (saturating_add u64_max q 1) ps end.
Lemma consecutive_lookup q ps :
  q + len ps - 1 ≤ u64_max → consecutive q ps ↔ ∀ n p, ps !! n = Some p → fl_append_sequence p.1 = q + Z.of_nat n.
Proof.
  revert q. induction ps as [|p ps IH]; intros q Hq; cbn [consecutive].
  - split; [intros _ n p Hp; by rewrite lookup_nil in Hp|done].
  - rewrite len_cons in Hq. unfold saturating_add. pose proof (len_nonneg ps). split.
    + intros [Hp Hps] [|n] p'; [intros [= <-]; lia|]. change ((p :: ps) !! S n) with (ps !! n). destruct ps as [|p2 ps]; [by rewrite lookup_nil|].
      rewrite len_cons in *. pose proof (len_nonneg ps). rewrite Z.min_l in Hps by lia. intros Hn.
      rewrite (proj1 (IH (q + 1) ltac:(lia)) Hps n p' Hn). lia.
    + intros Hn. split; [rewrite (Hn 0%nat p eq_refl); lia|]. destruct ps as [|p2 ps]; [done|]. rewrite len_cons in *.
      pose proof (len_nonneg ps). rewrite Z.min_l by lia. apply IH; [lia|]. intros n p' Hp'. rewrite (Hn (S n) p' Hp'). lia.
Qed.

Definition append_next (s : AppendScan) (p : FrameLocation * DecodedAdmissionV1) : AppendScan :=
  mkAppendScan (saturating_add u64_max (as_sequence s) 1) (stream_update (as_checksum s) (wire p.2))
    (as_length s + len (wire p.2)) (as_appends s ++ [append_entry p.1]).
Lemma append_nexts s ps :
  as_checksum (foldl append_next s ps) = foldl stream_update (as_checksum s) (wire <$> ps.*2) ∧
  as_length (foldl append_next s ps) = as_length s + len (flat ps.*2) ∧
  as_appends (foldl append_next s ps) = as_appends s ++ (append_entry <$> ps.*1).
Proof.
  revert s. induction ps as [|p ps IH]; intros s; [cbn; by rewrite app_nil_r, Z.add_0_r|].
  cbn [foldl fmap list_fmap]. destruct (IH (append_next s p)) as (-> & -> & ->).
  cbn [append_next as_checksum as_length as_appends]. rewrite flat_cons, len_app, <-app_assoc. split_and!; done || lia.
Qed.

Lemma parse_append_step lo i p ps s s' :
  0 ≤ lo → 0 ≤ i → 0 ≤ sl_append_offset l → sl_append_offset l + 48 * i + 48 ≤ len bytes →
  placed_at bytes lo (len bytes) p → as_length s + len (wire p.2) ≤ u64_max →
  parse_appends bytes l i (p.1 :: ps) s = Ok s' ↔
  (fl_append_sequence p.1 = as_sequence s ∧ wf p.1 ∧
   slice (sl_append_offset l + 48 * i) (sl_append_offset l + 48 * i + 48) bytes = append_wire p.1) ∧
  parse_appends bytes l (i + 1) ps (append_next s p) = Ok s'.
Proof.
  intros Hlo Hi Ha Hl Hp Hn. cbn [parse_appends]. unfold SEGMENT_V1_APPEND_ENTRY_LEN. rewrite (Z.mul_comm i).
  rewrite index_range_in by lia. rewrite (checked_slice_placed lo) by done. cbn [some_or ok_or].
  rewrite (pa_length _ _ _ _ Hp), checked_add_ok by done. cbn [some_or ok_or]. rewrite <-(pa_length _ _ _ _ Hp).
  fold (append_entry p.1). rewrite guard_Ok. split.
  - intros [Hq Hk]. destruct (decode_append_entry _) as [e|] eqn:Ed; [|done]. apply guard_Ok in Hk as [He Hk].
    assert (e = append_entry p.1) as -> by not_refused. apply decode_append_entry_Ok in Ed as [? ?].
    split; [split_and!; [by not_refused|done..]|]. unfold append_next. by rewrite <-(pa_length _ _ _ _ Hp).
  - intros [(Hq & Hw & Eb) Hk]. split; [lia|]. rewrite (proj2 (decode_append_entry_Ok _ _) (conj Hw Eb)).
    rewrite decide_False by tauto. unfold append_next in Hk. by rewrite <-(pa_length _ _ _ _ Hp) in Hk.
Qed.

Lemma parse_appends_Ok lo i ps s s' :
  0 ≤ lo → 0 ≤ i → 0 ≤ sl_append_offset l → sl_append_offset l + 48 * (i + Z.of_nat (length ps)) ≤ len bytes →
  Forall (placed_at bytes lo (len bytes)) ps → as_length s + len (flat ps.*2) ≤ u64_max →
  parse_appends bytes l i ps.*1 s = Ok s' ↔
  (consecutive (as_sequence s) ps ∧ Forall (λ p, Is_true (wf p)) ps.*1 ∧
   slice (sl_append_offset l + 48 * i) (sl_append_offset l + 48 * (i + Z.of_nat (length ps))) bytes =
     concat (append_wire <$> ps.*1)) ∧ s' = foldl append_next s ps.
Proof.
  intros Hlo. revert i s. induction ps as [|p ps IH]; intros i s Hi Ha Hl Hps Hn.
  - rewrite Z.add_0_r. unfold slice. rewrite Z.sub_diag. cbn. naive_solver.
  - apply Forall_cons in Hps as [Hp Hps]. cbn [length] in Hl. cbn [fmap list_fmap] in Hn |- *. rewrite flat_cons, len_app in Hn.
    pose proof (len_nonneg (wire p.2)). pose proof (len_nonneg (flat ps.*2)).
    rewrite (parse_append_step lo) by (done || lia). rewrite IH by (cbn; done || lia). cbn [length].
    rewrite table_slice by lia. cbn [consecutive concat foldl append_next as_sequence]. rewrite Forall_cons.
    assert (wf p.1 → ∀ r, slice (sl_append_offset l + 48 * i) (sl_append_offset l + 48 * i + 48) bytes ++ r =
      append_wire p.1 ++ concat (append_wire <$> ps.*1) ↔
      slice (sl_append_offset l + 48 * i) (sl_append_offset l + 48 * i + 48) bytes = append_wire p.1 ∧
      r = concat (append_wire <$> ps.*1)) as Hsplit.
    { intros Hw r. split; [|by intros [-> ->]]. apply app_inj_1.
      pose proof (len_slice (sl_append_offset l + 48 * i) (sl_append_offset l + 48 * i + 48) bytes).
      pose proof (len_append_wire p.1) as Hlw. assert (wf (fl_series_id p.1)) as Hs by (clear -Hw; wf_split Hw; assumption).
      specialize (Hlw Hs). unfold len in *. lia. }
    split; [intros [(? & ? & ?) ((? & ? & ?) & ->)]; rewrite Hsplit by done; done|].
    intros ((? & [Hw ?] & Hs) & ->). rewrite Hsplit in Hs by done. naive_solver.
Qed.

Lemma parse_observations_Ok i expected found r :
  0 ≤ i → 0 ≤ sl_recent_offset l → sl_recent_offset l + 96 * (i + Z.of_nat (length expected)) ≤ len bytes →
  parse_observations bytes l i expected found = Ok r ↔
  (Forall (λ p, Is_true (wf p)) expected ∧
   slice (sl_recent_offset l + 96 * i) (sl_recent_offset l + 96 * (i + Z.of_nat (length expected))) bytes =
     concat (observation_wire <$> expected)) ∧ r = found ++ (observation_entry <$> expected).
Proof.
  revert i found. induction expected as [|x expected IH]; intros i found Hi Ho Hl.
  - rewrite Z.add_0_r. unfold slice. rewrite Z.sub_diag. cbn. rewrite app_nil_r. naive_solver.
  - cbn [length] in Hl |- *. cbn [parse_observations fmap list_fmap concat]. unfold SEGMENT_V1_OBSERVATION_ENTRY_LEN.
    rewrite (Z.mul_comm i). rewrite index_range_in by lia. rewrite table_slice by lia. rewrite Forall_cons. split.
    + destruct (decode_observation_entry _ _) as [e|] eqn:Ed; [|done]. apply decode_observation_entry_Ok in Ed as (Hw & -> & ->).
      intros Hk. apply IH in Hk as ((? & ->) & ->); [|lia..]. by rewrite <-app_assoc.
    + intros (([Hw ?] & Es) & ->). assert (len (observation_wire x) = 96) as H96.
      { clear -Hw. wf_split Hw. match goal with H : Is_true (wf (ol_raw_order_key x)) |- _ => wf_split H end. by apply len_observation_wire. }
      apply app_inj_1 in Es as [E1 E2];
        [|pose proof (len_slice (sl_recent_offset l + 96 * i) (sl_recent_offset l + 96 * i + 96) bytes); unfold len in *; lia].
      rewrite (proj2 (decode_observation_entry_Ok _ x _) (conj Hw (conj E1 eq_refl))). apply IH; [lia..|].
      by rewrite <-app_assoc.
Qed.
End tables.

(** ** The body *)

Section body.
Context (bytes : list byte) (h : SegmentHeader) (Hok : header_ok h) (Hlen : len bytes = sl_artifact_length (sh_layout h)).
Let l := sh_layout h.
Let bo := sl_blocks_offset l.
Let ao := sl_append_offset l.
Let ro := sl_recent_offset l.

(** What the directories and the blocks of an accepted body are. *)
Record body_ok (G : list group) (ps : list (FrameLocation * DecodedAdmissionV1)) : Prop := {
  bo_series : len G = sh_series_count h;
  bo_frames : len (members G) = sh_frame_count h;
  bo_observations : obs_count (members G) = sh_observation_count h;
  bo_blocks : bo + len (flat (members G)) = ao;
  bo_sorted : StronglySorted id_lt G.*1;
  bo_nonempty : Forall (λ g : group, g.2 ≠ []) G;
  bo_wf : Forall (λ e, Is_true (wf e)) (series_directory bo ro G);
  bo_series_bytes : slice 192 bo bytes = concat (series_wire <$> series_directory bo ro G);
  bo_block_bytes : Forall2 (block_ok bytes (sh_store_id h)) (series_directory bo ro G) G;
  bo_history : ps ≡ₚ frames_of bo G;
  bo_appends : ps.*1 = append_directory bo G;
  bo_consecutive : consecutive (sg_sequence_floor (sh_sealed h) + 1) ps;
  bo_append_wf : Forall (λ p, Is_true (wf p)) ps.*1;
  bo_append_bytes : slice ao ro bytes = concat (append_wire <$> ps.*1);
  bo_cutoff : (fl_append_sequence <$> last ps.*1) = Some (sg_sequence_cutoff (sh_sealed h));
  bo_length : 28 + len (flat ps.*2) = sg_artifact_length (sh_sealed h);
  bo_checksum : crc32c (source_image (sh_store_id h) ps.*2) = sg_artifact_checksum (sh_sealed h);
  bo_recent_wf : Forall (λ x, Is_true (wf x)) (merge_sort series_recent_order (located_all (frames_of bo G)));
  bo_recent_bytes : slice ro (len bytes - 4) bytes =
    concat (observation_wire <$> merge_sort series_recent_order (located_all (frames_of bo G))) }.
Definition body_view (G : list group) (ps : list (FrameLocation * DecodedAdmissionV1)) : SegmentV1 :=
  mkSegment bytes
    (inspection (sh_store_id h) (sh_sealed h) (sh_frame_count h) (sh_series_count h) (sh_observation_count h) l
       (sh_artifact_checksum h))
    (series_directory bo ro G) (append_entry <$> ps.*1)
    (observation_entry <$> merge_sort series_recent_order (located_all (frames_of bo G))).

Lemma body_offsets :
  bo = 192 + 64 * sh_series_count h ∧ ao = bo + sl_blocks_length l ∧ ro = ao + 48 * sh_frame_count h ∧
  len bytes - 4 = ro + 96 * sh_observation_count h ∧ sl_series_offset l = 192 ∧ len bytes ≤ MAX_SEGMENT_V1_BYTES ∧
  0 < sh_series_count h ∧ 0 < sh_frame_count h ∧ 0 ≤ sh_observation_count h ∧ 0 < sl_blocks_length l.
Proof.
  destruct Hok as [_ _ _ _ _ _ _ Hc Hl]. pose proof (layout_ranges _ _ _ _ Hc) as (_ & _ & _ & Hm & _). rewrite <-Hl, <-Hlen in Hm.
  pose proof (f_equal sl_series_offset Hl) as E1. pose proof (f_equal sl_blocks_offset Hl) as E2.
  pose proof (f_equal sl_append_offset Hl) as E3. pose proof (f_equal sl_recent_offset Hl) as E4.
  pose proof (f_equal sl_artifact_length Hl) as E5. destruct Hc as [? ? ? ?].
  cbn [layout_of sl_series_offset sl_blocks_offset sl_append_offset sl_recent_offset sl_artifact_length] in E1, E2, E3, E4, E5.
  unfold ro, ao, bo, l. lia.
Qed.

(** Frames whose blocks were checked lie where their locations say. *)
Lemma body_placed G ps :
  bo + len (flat (members G)) = ao → Forall2 (block_ok bytes (sh_store_id h)) (series_directory bo ro G) G →
  ps ≡ₚ frames_of bo G → Forall (placed_at bytes bo (len bytes)) ps.
Proof.
  intros Hb Hblocks Hps. destruct body_offsets as (E1 & E2 & E3 & E4 & _ & _ & ? & ? & ? & ?).
  assert (0 ≤ bo) as Hbo by lia. assert (ao ≤ len bytes) as Ha by lia. pose proof (len_nonneg (flat (members G))).
  pose proof (blocks_slice bytes (sh_store_id h) bo ro G Hbo ltac:(lia) Hblocks) as Hsl. rewrite Hps.
  assert (owned G) as Ho by (clear -Hblocks; induction Hblocks as [|e g es G [] HG IH]; constructor; done).
  pose proof (frames_of_placed bo G (slice 0 bo bytes) (slice ao (len bytes) bytes)) as Hp.
  fold (members G) in Hp. rewrite Hb in Hp, Hsl.
  assert (slice 0 bo bytes ++ flat (members G) ++ slice ao (len bytes) bytes = bytes) as Ebytes
    by (rewrite <-Hsl, !slice_join by lia; by rewrite slice_all).
  rewrite Ebytes in Hp.
  eapply Forall_impl; [apply Hp; [rewrite len_slice; lia|done]|]. intros p. apply placed_at_mono; lia.
Qed.

Lemma chain_in_range s es :
  Forall (λ e, Is_true (wf e)) es → series_chain l (len bytes - 4) s es → ao ≤ len bytes →
  Forall (λ e, wf e ∧ se_block_offset e + se_block_length e ≤ len bytes) es.
Proof.
  intros Hw. revert s. induction Hw as [|e es Hw Hws IH]; intros s Hc Ha; [constructor|].
  destruct Hc as [[_ _ Hb _ _ Hbb _ _ _] Hc]. fold ao in Hbb. constructor; [split; [done|lia]|by eapply IH].
Qed.

Lemma source_checksum chunks :
  stream_finish (foldl stream_update (stream_update stream_new (header_encode (mkHeader (sh_store_id h)))) (wire <$> chunks)) =
  crc32c (source_image (sh_store_id h) chunks).
Proof.
  pose proof (streaming_crc_exact (header_encode (mkHeader (sh_store_id h)) :: (wire <$> chunks))) as E. exact E.
Qed.

Lemma series_nexts_series s es : rs_series (series_nexts s es) = rs_series s ++ es.
Proof.
  unfold series_nexts. revert s. induction es as [|e es IH]; intros s; [cbn; by rewrite app_nil_r|].
  cbn [foldl]. rewrite IH. cbn. by rewrite <-app_assoc.
Qed.

Section tables.
Context (G : list group) (ps : list (FrameLocation * DecodedAdmissionV1)).
Context (Hf : len (members G) = sh_frame_count h) (Ho : obs_count (members G) = sh_observation_count h).
Context (Hb : bo + len (flat (members G)) = ao).
Context (Hblocks : Forall2 (block_ok bytes (sh_store_id h)) (series_directory bo ro G) G).
Context (Hps : ps ≡ₚ frames_of bo G) (Hap : ps.*1 = append_directory bo G).
Let s0 := mkAppendScan (sg_sequence_floor (sh_sealed h) + 1)
  (stream_update stream_new (header_encode (mkHeader (sh_store_id h)))) JOURNAL_V1_HEADER_LEN [].
Let recent := merge_sort series_recent_order (located_all (frames_of bo G)).

Lemma tables_appends s' :
  parse_appends bytes l 0 ps.*1 s0 = Ok s' ↔
  (consecutive (sg_sequence_floor (sh_sealed h) + 1) ps ∧ Forall (λ p, Is_true (wf p)) ps.*1 ∧
   slice ao ro bytes = concat (append_wire <$> ps.*1)) ∧ s' = foldl append_next s0 ps.
Proof using Type*.
  destruct body_offsets as (E1 & E2 & E3 & E4 & E5 & E6 & ? & ? & ? & ?). assert (MAX_SEGMENT_V1_BYTES + 28 ≤ usize_max) by done.
  pose proof (body_placed G ps Hb Hblocks Hps) as Hplaced.
  assert (length ps = Z.to_nat (sh_frame_count h)) as Hlps by (rewrite Hps, length_frames_of; unfold len, members in Hf; lia).
  assert (len (flat ps.*2) = len (flat (members G))) as Hfl by (apply len_flat_permutation; rewrite Hps, frames_of_snd; done).
  assert (28 + len (flat (members G)) ≤ u64_max) as Hbound by (change u64_max with usize_max; lia).
  rewrite (parse_appends_Ok bytes l ltac:(lia) bo) by (try done; cbn [s0 as_length]; unfold JOURNAL_V1_HEADER_LEN; fold ao; lia).
  rewrite Hlps. fold ao. cbn [s0 as_sequence]. replace (ao + 48 * 0) with ao by lia.
  by replace (ao + 48 * (0 + Z.of_nat (Z.to_nat (sh_frame_count h)))) with ro by lia.
Qed.

Lemma tables_recent r :
  parse_observations bytes l 0 recent [] = Ok r ↔
  (Forall (λ x, Is_true (wf x)) recent ∧ slice ro (len bytes - 4) bytes = concat (observation_wire <$> recent)) ∧
  r = observation_entry <$> recent.
Proof using Type*.
  destruct body_offsets as (E1 & E2 & E3 & E4 & E5 & E6 & ? & ? & ? & ?).
  assert (len recent = sh_observation_count h) as Hlr.
  { unfold recent. rewrite (len_permutation _ _ (merge_sort_Permutation _ _)), len_located_all, frames_of_snd. done. }
  unfold len in Hlr. rewrite parse_observations_Ok by (fold ro; lia). rewrite Hlr. fold ro.
  replace (ro + 96 * 0) with ro by lia. by replace (ro + 96 * (0 + sh_observation_count h)) with (len bytes - 4) by lia.
Qed.

(** The tables, given the groups and the frames in sequence order. *)
Lemma parse_tables_Ok series v :
  parse_tables bytes h series (frames_of bo G).*1 (located_all (frames_of bo G)) = Ok v ↔
  ((consecutive (sg_sequence_floor (sh_sealed h) + 1) ps ∧ Forall (λ p, Is_true (wf p)) ps.*1 ∧
    slice ao ro bytes = concat (append_wire <$> ps.*1)) ∧
   ((fl_append_sequence <$> last ps.*1) = Some (sg_sequence_cutoff (sh_sealed h)) ∧
    28 + len (flat ps.*2) = sg_artifact_length (sh_sealed h) ∧
    crc32c (source_image (sh_store_id h) ps.*2) = sg_artifact_checksum (sh_sealed h)) ∧
   (Forall (λ x, Is_true (wf x)) recent ∧ slice ro (len bytes - 4) bytes = concat (observation_wire <$> recent))) ∧
  v = mkSegment bytes
        (inspection (sh_store_id h) (sh_sealed h) (sh_frame_count h) (sh_series_count h) (sh_observation_count h) l
           (sh_artifact_checksum h)) series (append_entry <$> ps.*1) (observation_entry <$> recent).
Proof using Type*.
  unfold parse_tables. fold l. fold (append_directory bo G). rewrite <-Hap.
  rewrite checked_add_ok by (destruct Hok as [_ Hw _ _ _ _ Hn Hc _]; clear -Hw Hn Hc; wf_fields Hw; destruct Hc; lia).
  cbn [some_or ok_or]. fold s0. fold recent.
  destruct (append_nexts s0 ps) as (Ecrc & Elen & Eapp). cbn [s0 as_checksum as_length as_appends app] in Ecrc, Elen, Eapp.
  fold s0 in Ecrc, Elen, Eapp.
  assert (stream_finish (as_checksum (foldl append_next s0 ps)) = crc32c (source_image (sh_store_id h) ps.*2)) as Esum
    by (rewrite Ecrc; apply source_checksum).
  split.
  - destruct (parse_appends _ _ _ _ _) as [s'|] eqn:Ea; [|done]. apply tables_appends in Ea as [HA ->]. rewrite guard_Ok.
    intros [Hsums Hk]. destruct (parse_observations _ _ _ _ _) as [r|] eqn:Er; [|done]. apply tables_recent in Er as [HR ->].
    injection Hk as <-. rewrite Eapp, Elen, Esum in *. split; [|done]. split_and!; try apply HA; try apply HR; not_refused.
  - intros [(HA & (Hcut & Hlength & Hsum) & HR) ->]. rewrite (proj2 (tables_appends _) (conj HA eq_refl)).
    rewrite Elen, Esum. rewrite decide_False by (unfold JOURNAL_V1_HEADER_LEN; tauto).
    rewrite (proj2 (tables_recent _) (conj HR eq_refl)). by rewrite Eapp.
Qed.
End tables.

Lemma parse_body_sound v : parse_body bytes h = Ok v → ∃ G ps, body_ok G ps ∧ v = body_view G ps.
Proof using Type*.
  destruct body_offsets as (E1 & E2 & E3 & E4 & E5 & E6 & ? & ? & ? & ?). assert (MAX_SEGMENT_V1_BYTES ≤ usize_max) by done.
  unfold parse_body, SEGMENT_V1_CRC_LEN. fold l. fold bo. fold ro. fold ao. cbv zeta. set (s0 := mkSeriesScan [] bo ro 0 0).
  destruct (parse_series _ _ _ _ _ _) as [s|] eqn:Es; [|done].
  apply parse_series_Ok in Es as (es & Hn & Hws & Hsb & Hchain & ->); [|fold ao; lia..|rewrite ?Z2Nat.id; lia].
  rewrite guard_Ok. intros [Hsums Hk]. rewrite series_nexts_series in Hk. cbn [s0 rs_series app] in Hk.
  destruct (parse_blocks _ _ _ _ _) as [[P X]|] eqn:Eb in Hk; [|done]. apply guard_Ok in Hk as [Hcounts Hk].
  apply parse_blocks_Ok in Eb as (G & HG & -> & ->); [|lia|by eapply chain_in_range; [..|lia]].
  destruct (chain_directory _ _ _ _ _ _ _ HG Hchain) as (Ees & Efr & [_ Hsorted] & Hne). cbn [s0 rs_block_offset rs_recent_offset] in Ees, Efr.
  rewrite Efr in *. subst es. pose proof (series_nexts_directory s0 G) as Enext.
  cbn [s0 rs_block_offset rs_recent_offset rs_frames rs_observations rs_series app] in Enext. fold s0 in Enext.
  rewrite Enext in Hsums. cbn [rs_block_offset rs_recent_offset rs_frames rs_observations] in Hsums.
  assert (bo + len (flat (members G)) = ao) as Hbl by not_refused.
  assert (len (members G) = sh_frame_count h) as Hfc by (rewrite <-(Z.add_0_l (len _)); not_refused).
  assert (obs_count (members G) = sh_observation_count h) as Hoc by (rewrite <-(Z.add_0_l (obs_count _)); not_refused).
  assert (append_directory bo G ≡ₚ (frames_of bo G).*1) as Hperm by apply merge_sort_Permutation.
  apply Permutation_map_inv in Hperm as (ps & Eps & Hps). change (append_directory bo G = ps.*1) in Eps.
  exists G, ps. cbn [app] in Hk. apply (parse_tables_Ok G ps) in Hk; [|done..].
  destruct Hk as (((Hcons & Hwp & Hap) & (Hcut & Hlength & Hsum) & Hwr & Hrb) & ->). split; [|done].
  split; try done. all: rewrite ?Z2Nat.id, ?Z.add_0_l, ?Z.mul_0_r, ?Z.add_0_r in * by lia.
  - pose proof (len_directory bo ro G). unfold len in *. lia.
  - rewrite <-E1 in Hsb. exact Hsb.
Qed.

Lemma parse_body_complete G ps : body_ok G ps → parse_body bytes h = Ok (body_view G ps).
Proof using Type*.
  intros []. destruct body_offsets as (E1 & E2 & E3 & E4 & E5 & E6 & ? & ? & ? & ?). assert (MAX_SEGMENT_V1_BYTES ≤ usize_max) by done.
  unfold parse_body, SEGMENT_V1_CRC_LEN. fold l. fold bo. fold ro. fold ao. cbv zeta. set (s0 := mkSeriesScan [] bo ro 0 0).
  pose proof (series_nexts_directory s0 G) as Enext. cbn [s0 rs_block_offset rs_recent_offset rs_frames rs_observations rs_series app] in Enext.
  fold s0 in Enext.
  assert (series_chain l (len bytes - 4) s0 (series_directory bo ro G)) as Hchain.
  { apply (directory_chain l (len bytes - 4) s0 G); cbn [s0 rs_block_offset rs_recent_offset rs_frames rs_observations]; fold ao; try lia; done. }
  assert (parse_series bytes l (len bytes - 4) (Z.to_nat (sh_series_count h)) 0 s0 = Ok (series_nexts s0 (series_directory bo ro G))) as ->.
  { apply parse_series_Ok; [fold ao; lia..|rewrite ?Z2Nat.id; lia|]. exists (series_directory bo ro G).
    rewrite Z2Nat.id, Z.mul_0_r, Z.add_0_r, Z.add_0_l, <-E1 by lia. split_and!; try done.
    pose proof (len_directory bo ro G). unfold len in *. lia. }
  rewrite Enext. cbn [rs_block_offset rs_recent_offset rs_frames rs_observations rs_series]. rewrite decide_False by lia.
  assert (frames_at (series_directory bo ro G) G = frames_of bo G) as Efr.
  { destruct (chain_directory bytes (sh_store_id h) l (len bytes - 4) s0 (series_directory bo ro G) G) as (_ & E & _ & _); done. }
  rewrite (proj2 (parse_blocks_Ok bytes (sh_store_id h) ltac:(lia) (series_directory bo ro G) [] []
    (frames_of bo G).*1 (located_all (frames_of bo G)) ltac:(by eapply chain_in_range; [..|lia]))) by (exists G; by rewrite Efr).
  rewrite decide_False.
  - apply (parse_tables_Ok G ps); done.
  - rewrite len_located_all, frames_of_snd. unfold len at 1. rewrite length_fmap, length_frames_of.
    unfold members, len in *. lia.
Qed.
End body.

(** ** The parser and the artifact of a history *)

Section exact.
Context (bytes : list byte) (h : SegmentHeader) (Hok : header_ok h) (Hlen : len bytes = sl_artifact_length (sh_layout h)).
Context (G : list group) (ps : list (FrameLocation * DecodedAdmissionV1)) (Hbody : body_ok bytes h G ps).
Let H := ps.*2.

Lemma body_members : members G ≡ₚ H.
Proof using Hbody. unfold H, members. rewrite (bo_history _ _ _ _ Hbody), frames_of_snd. done. Qed.
Lemma body_numbered : numbered (sg_sequence_floor (sh_sealed h)) H.
Proof using Hok Hbody.
  pose proof (bo_consecutive _ _ _ _ Hbody) as Hc. pose proof body_members as Hm. apply len_permutation in Hm.
  rewrite (bo_frames _ _ _ _ Hbody) in Hm. unfold H in Hm. assert (len ps = sh_frame_count h) as Hl
    by (unfold len in *; by rewrite length_fmap in Hm).
  rewrite consecutive_lookup in Hc by (destruct Hok as [_ Hw _ _ _ _ Hn _ _]; clear -Hl Hw Hn; wf_fields Hw; lia).
  pose proof (frames_of_sequences (sl_blocks_offset (sh_layout h)) G) as Hseq. rewrite <-(bo_history _ _ _ _ Hbody) in Hseq.
  intros n a Ha. unfold H in Ha. rewrite list_lookup_fmap in Ha. destruct (ps !! n) as [p|] eqn:Ep; [|done]. injection Ha as <-.
  rewrite Forall_forall in Hseq. rewrite <-(Hseq p) by (by eapply list_elem_of_lookup_2). rewrite (Hc n p Ep). lia.
Qed.
Lemma body_grouping : grouping G H.
Proof using Hbody.
  split; [by destruct Hbody| |apply body_members].
  pose proof (bo_nonempty _ _ _ _ Hbody) as Hne. pose proof (bo_block_bytes _ _ _ _ Hbody) as Hb.
  clear -Hne Hb. induction Hb as [|e g es G [] HG IH]; [constructor|]. apply Forall_cons in Hne as [Hg Hne].
  constructor; [done|by apply IH].
Qed.
Lemma body_groups : G = groups_of H.
Proof using Hok Hbody. eapply grouping_unique; [eapply numbered_earlier, body_numbered|apply body_grouping]. Qed.
Lemma body_belongs : Forall (belongs (sh_store_id h)) H.
Proof using Hbody.
  rewrite <-body_members. unfold members. pose proof (bo_block_bytes _ _ _ _ Hbody) as Hb. clear -Hb.
  induction Hb as [|e g es G [] HG IH]; [constructor|]. apply Forall_app. by split.
Qed.
Lemma body_layout : sh_layout h = segment_layout H.
Proof using Hok Hbody Hlen.
  destruct (body_offsets bytes h Hok Hlen) as (E1 & E2 & E3 & E4 & E5 & E6 & ? & ? & ? & ?).
  pose proof body_members as Hm. pose proof (bo_blocks _ _ _ _ Hbody) as Hb. rewrite (len_flat_permutation _ _ Hm) in Hb.
  rewrite (ho_layout h Hok). unfold segment_layout. rewrite <-body_groups.
  rewrite (bo_series _ _ _ _ Hbody), <-(bo_frames _ _ _ _ Hbody), <-(bo_observations _ _ _ _ Hbody).
  rewrite (len_permutation _ _ Hm), (obs_count_permutation _ _ Hm). f_equal. lia.
Qed.
Lemma body_sealed : sealed_history (sh_store_id h) (sh_sealed h) H.
Proof using Hok Hbody.
  pose proof body_members as Hm. apply len_permutation in Hm as Hl. rewrite (bo_frames _ _ _ _ Hbody) in Hl.
  pose proof (bo_length _ _ _ _ Hbody) as Hlen'. fold H in Hlen'. destruct Hok as [Hw Hws Hj Hr He [Hr1 Hr2] Hn [Hcf _ _ _] _].
  split; try done; try apply body_belongs; try apply body_numbered; try lia.
  - rewrite <-Hlen'. unfold source_image, header_encode. cbn [header_store_id].
    rewrite len_app, header_layout by (by apply len_into_bytes). autorewrite with len. rewrite len_into_bytes by done.
    change (len JOURNAL_V1_HEADER_MAGIC) with 8. lia.
  - symmetry. apply (bo_checksum _ _ _ _ Hbody).
Qed.
Lemma body_recent :
  merge_sort series_recent_order (located_all (frames_of (sl_blocks_offset (sh_layout h)) G)) =
  recent_directory (sl_blocks_offset (sh_layout h)) G.
Proof using Hok Hbody. eapply recent_directory_merge; [eapply numbered_earlier, body_numbered|apply body_grouping|done]. Qed.

Lemma body_bytes : slice 192 (len bytes - 4) bytes = segment_body H.
Proof using Hok Hbody Hlen.
  destruct (body_offsets bytes h Hok Hlen) as (E1 & E2 & E3 & E4 & E5 & E6 & ? & ? & ? & ?).
  unfold segment_body, segment_series, segment_appends, segment_observations. rewrite <-body_layout, <-body_groups, <-body_recent.
  rewrite <-(bo_series_bytes _ _ _ _ Hbody), <-(bo_appends _ _ _ _ Hbody), <-(bo_append_bytes _ _ _ _ Hbody), <-(bo_recent_bytes _ _ _ _ Hbody).
  fold (members G). pose proof (bo_blocks _ _ _ _ Hbody) as Hb. pose proof (len_nonneg (flat (members G))).
  pose proof (blocks_slice bytes (sh_store_id h) (sl_blocks_offset (sh_layout h)) (sl_recent_offset (sh_layout h)) G
    ltac:(lia) ltac:(lia) (bo_block_bytes _ _ _ _ Hbody)) as Hsl.
  rewrite Hb in Hsl. rewrite <-Hsl. by rewrite !slice_join by lia.
Qed.
End exact.

(** The header of the artifact of a history. *)
Definition header_of (store : StoreId) (sealed : SealedGeneration) (H : list DecodedAdmissionV1) : SegmentHeader :=
  mkSegmentHeader sealed store (len H) (len (groups_of H)) (obs_count H) (segment_layout H)
    (crc32c (segment_covered store sealed H)).
Lemma header_of_artifact store sealed H :
  sealed_history store sealed H → len (segment_bytes store sealed H) = sl_artifact_length (segment_layout H) →
  header_ok (header_of store sealed H) ∧ artifact (header_of store sealed H) (segment_body H) (segment_bytes store sealed H).
Proof.
  intros Hs Hlen. pose proof (sealed_counts store sealed H Hs) as Hcounts. pose proof (sealed_image store sealed H Hs) as Him.
  pose proof Hs as [Hw Hws Hb Hn Hr Hj Hrg Hc He Hl Hby Hck]. split; [|done].
  split; cbn [header_of sh_store_id sh_sealed sh_frame_count sh_series_count sh_observation_count sh_layout]; try done; try lia.
  unfold JOURNAL_V1_HEADER_LEN. pose proof (len_flat_pos H). lia.
Qed.

Lemma parse_segment_sound bytes store v :
  parse_segment_v1 bytes store = Ok v →
  ∃ sealed H, sealed_history store sealed H ∧ bytes = segment_bytes store sealed H ∧ v = segment_view store sealed H.
Proof.
  unfold parse_segment_v1. destruct (parse_header bytes store) as [h|] eqn:Eh; [|done].
  apply parse_header_sound in Eh as (Hok & <- & body & Ha). intros Hb.
  pose proof (artifact_covered h body bytes Ha (ho_store h Hok)) as (H196 & Hh & Hc & Ht & Hl). destruct Ha as (Ebytes & Hcrc & Hlen).
  apply parse_body_sound in Hb as (G & ps & Hbody & ->); [|done..]. exists (sh_sealed h), ps.*2.
  split; [by eapply body_sealed|].
  pose proof (body_members bytes h G ps Hbody) as Hm. pose proof (body_groups bytes h Hok G ps Hbody) as HG.
  pose proof (body_layout bytes h Hok Hlen G ps Hbody) as Hlay. pose proof (body_bytes bytes h Hok Hlen G ps Hbody) as Hbb.
  assert (body = segment_body ps.*2) as Ebody.
  { rewrite <-Hbb. rewrite <-(slice_join 0 192), Hh in Hc by lia. by apply app_inv_head in Hc. }
  assert (h = header_of (sh_store_id h) (sh_sealed h) ps.*2) as Eh.
  { rewrite Ebody in Hcrc. unfold header_wire in Hcrc. unfold header_of, segment_covered.
    rewrite <-Hlay, <-HG, <-(len_permutation _ _ Hm), <-(obs_count_permutation _ _ Hm), (bo_series _ _ _ _ Hbody),
      (bo_frames _ _ _ _ Hbody), (bo_observations _ _ _ _ Hbody), <-Hcrc. by destruct h. }
  assert (bytes = segment_bytes (sh_store_id h) (sh_sealed h) ps.*2) as Eb.
  { unfold segment_bytes, segment_covered. rewrite Ebytes, Ebody. rewrite Eh at 1 2. done. }
  split; [done|]. unfold body_view, segment_view, segment_inspection. rewrite <-Eb.
  unfold segment_series, segment_appends, segment_observations. rewrite <-Hlay, <-HG, (bo_appends _ _ _ _ Hbody).
  pose proof (f_equal sh_frame_count Eh) as F1. pose proof (f_equal sh_series_count Eh) as F2.
  pose proof (f_equal sh_observation_count Eh) as F3. pose proof (f_equal sh_artifact_checksum Eh) as F4.
  cbn [header_of sh_frame_count sh_series_count sh_observation_count sh_artifact_checksum] in F1, F2, F3, F4.
  rewrite <-HG in F2. rewrite F1, F2, F3, F4. f_equal. by erewrite body_recent.
Qed.

Section complete.
Context (store : StoreId) (sealed : SealedGeneration) (H : list DecodedAdmissionV1) (Hs : sealed_history store sealed H).
Let bytes := segment_bytes store sealed H.
Let h := header_of store sealed H.

Lemma history_consecutive ps :
  ps.*2 = H → Forall (λ p, fl_append_sequence p.1 = dec_append_sequence p.2) ps →
  consecutive (sg_sequence_floor sealed + 1) ps ∧ (fl_append_sequence <$> last ps.*1) = Some (sg_sequence_cutoff sealed).
Proof using Hs.
  intros H2 Hseq. destruct Hs as [_ Hw _ Hn [Hr _] _ _ Hc _ _ _ _].
  assert (len ps = len H) as Hl by (rewrite <-H2; unfold len; by rewrite length_fmap).
  assert (∀ n p, ps !! n = Some p → fl_append_sequence p.1 = sg_sequence_floor sealed + 1 + Z.of_nat n) as Hlook.
  { intros n p Hp. rewrite Forall_forall in Hseq. rewrite (Hseq p) by (by eapply list_elem_of_lookup_2).
    apply Hn. rewrite <-H2, list_lookup_fmap, Hp. done. }
  split.
  - apply consecutive_lookup; [|done]. clear -Hw Hc Hl. wf_fields Hw. lia.
  - destruct (last ps) as [p|] eqn:E.
    + rewrite fmap_last in *. rewrite E. cbn. rewrite last_lookup in E. rewrite (Hlook _ _ E). f_equal.
      unfold len in *. destruct ps; [done|]. cbn [length] in *. lia.
    + apply last_None in E. subst ps. by rewrite <-Hl in Hr.
Qed.

Lemma history_body : ∃ ps, ps.*1 = segment_appends H ∧ body_ok bytes h (groups_of H) ps.
Proof using Hs.
  destruct (region_frames store sealed H Hs) as (ps & Hps & H1 & H2 & Hplaced). exists ps. split; [done|].
  destruct (region_bounds store sealed H Hs) as (E1 & E2 & E3 & E4 & ? & ? & ? & ? & ?).
  destruct (region_slices store sealed H Hs) as (S1 & S2 & S3 & S4).
  pose proof (members_flat store sealed H Hs) as Mf. pose proof (sealed_grouping store sealed H Hs) as Hg.
  pose proof (region_length store sealed H Hs) as Hl. rewrite E4 in Hl. pose proof (len_nonneg (flat H)).
  assert (Forall (λ p, fl_append_sequence p.1 = dec_append_sequence p.2) ps) as Hseq
    by (eapply Forall_impl; [exact Hplaced|]; by intros p []).
  destruct (history_consecutive ps H2 Hseq) as [Hcons Hcut]. pose proof (sealed_image store sealed H Hs) as Him.
  assert (merge_sort series_recent_order (located_all (frames_of (sl_blocks_offset (segment_layout H)) (groups_of H))) =
    segment_observations H) as Erec.
  { eapply recent_directory_merge; [destruct Hs; by eapply numbered_earlier|done|done]. }
  split; cbn [h header_of sh_series_count sh_frame_count sh_observation_count sh_layout sh_store_id sh_sealed];
    rewrite ?Erec, ?H2; try done.
  - by eapply members_count.
  - by eapply members_observations.
  - unfold members. rewrite Mf. lia.
  - apply Hg.
  - by eapply sealed_nonempty.
  - by eapply region_series_wf.
  - unfold bytes. apply directory_blocks; unfold members; rewrite ?Mf; [lia|lia| | |by eapply sealed_owned|].
    + by rewrite Mf in S2.
    + by eapply members_belong.
    + eapply Forall_impl; [apply (gr_groups _ _ Hg)|]. naive_solver.
  - rewrite H1. by eapply region_appends_wf.
  - rewrite H1, E3, <-Mf. exact S3.
  - destruct Hs. lia.
  - destruct Hs. done.
  - by eapply region_observations_wf.
Qed.

Lemma parse_segment_complete : parse_segment_v1 bytes store = Ok (segment_view store sealed H).
Proof using Hs.
  destruct history_body as (ps & H1 & Hbody). pose proof (region_length store sealed H Hs) as Hl.
  destruct (header_of_artifact store sealed H Hs Hl) as [Hok Hart].
  unfold parse_segment_v1. unfold bytes. rewrite (parse_header_complete _ h _ Hok Hart : parse_header _ store = _).
  rewrite (parse_body_complete _ h Hok Hl (groups_of H) ps Hbody). f_equal. unfold body_view, segment_view, segment_observations.
  cbn [h header_of sh_store_id sh_sealed sh_frame_count sh_series_count sh_observation_count sh_layout sh_artifact_checksum].
  rewrite H1. f_equal. f_equal. eapply recent_directory_merge; [destruct Hs; by eapply numbered_earlier|by eapply sealed_grouping|done].
Qed.
End complete.

(** ** Hostile bytes never panic *)

Definition calm {E A} (r : result (stop E) A) : Prop := r ≠ Err Panicked.

Lemma calm_bind {E A B} (r : result (stop E) A) (k : A → result (stop E) B) :
  calm r → (∀ x, r = Ok x → calm (k x)) → calm (let! x := r in k x).
Proof. unfold calm. destruct r as [x|e]; [by intros _ H; apply H|]. intros Hr _ [= ->]. done. Qed.
Lemma calm_some {E A} (o : option A) (e : E) : calm (some_or o e).
Proof. by destruct o. Qed.
Lemma calm_or {E F A} (r : result E A) (e : F) : calm (or_refuse r e).
Proof. by destruct r. Qed.
Lemma calm_ok {E A} (x : A) : calm (Ok x : result (stop E) A).
Proof. done. Qed.
Lemma calm_refuse {E A} (e : E) : calm (refuse e : result (stop E) A).
Proof. done. Qed.
Lemma calm_range {E} a b l : 0 ≤ a → a ≤ b → b ≤ len l → calm (@index_range E a b l).
Proof. intros. by rewrite index_range_in. Qed.

(** Everything but an index is calm; an index needs its bounds. *)
Ltac calm_step :=
  lazymatch goal with
  | |- calm (some_or _ _) => apply calm_some
  | |- calm (or_refuse _ _) => apply calm_or
  | |- calm (Ok _) => apply calm_ok
  | |- calm (Err (Refused _)) => apply calm_refuse
  | |- calm (if decide ?P then _ else _) => destruct (decide P)
  | |- calm (if ?b then _ else _) => destruct b
  | |- calm (match ?r with Ok _ => _ | Err _ => _ end) => apply calm_bind; [|intros ? ?]
  | |- calm (let _ := _ in _) => cbv zeta
  end.
Ltac calms := repeat calm_step.

Lemma calm_read_count l off m : calm (read_count l off m).
Proof. unfold read_count. calms. Qed.
Lemma calm_layout f s o b : calm (layout_new f s o b).
Proof. unfold layout_new. calms. Qed.
Lemma calm_series_entry l : calm (decode_series_entry l).
Proof. unfold decode_series_entry. calms. Qed.
Lemma calm_append_entry l : calm (decode_append_entry l).
Proof. unfold decode_append_entry. calms. Qed.
Lemma calm_observation_entry l x : calm (decode_observation_entry l x).
Proof. unfold decode_observation_entry. calms. Qed.
Lemma calm_located l ord os : calm (locate_observations l ord os).
Proof.
  revert ord. induction os as [|o os IH]; intros ord; cbn [locate_observations]; [done|]. unfold to_u32. calms. apply IH.
Qed.
Lemma calm_header bytes store : calm (parse_header bytes store).
Proof.
  unfold parse_header, SEGMENT_V1_HEADER_LEN, SEGMENT_V1_CRC_LEN. calms; try apply calm_read_count; try apply calm_layout.
  apply calm_range; lia.
Qed.

Lemma calm_series bytes l ck n i s :
  sl_series_offset l = 192 → 0 ≤ i → 192 + 64 * (i + Z.of_nat n) ≤ len bytes → calm (parse_series bytes l ck n i s).
Proof.
  intros Hs. revert i s. induction n as [|n IH]; intros i s Hi Hl; cbn [parse_series]; [done|].
  unfold SEGMENT_V1_SERIES_ENTRY_LEN. rewrite Hs.
  calms; try apply calm_series_entry; [apply calm_range; lia|]. apply IH; lia.
Qed.
Lemma calm_frames bytes store e be n ord s : calm (parse_frames bytes store e be n ord s).
Proof.
  revert ord s. induction n as [|n IH]; intros ord s; cbn [parse_frames]; [done|]. calms; [|apply IH].
  unfold parse_frame. calms. apply calm_located.
Qed.
Lemma calm_blocks bytes store es P X : calm (parse_blocks bytes store es P X).
Proof.
  revert P X. induction es as [|e es IH]; intros P X; cbn [parse_blocks]; [done|]. calms; [apply calm_frames|apply IH].
Qed.
Lemma calm_appends bytes l i proofs s :
  0 ≤ i → 0 ≤ sl_append_offset l → sl_append_offset l + 48 * (i + len proofs) ≤ len bytes →
  calm (parse_appends bytes l i proofs s).
Proof.
  revert i s. induction proofs as [|p proofs IH]; intros i s Hi Ha Hl; cbn [parse_appends]; [done|].
  rewrite len_cons in Hl. pose proof (len_nonneg proofs). unfold SEGMENT_V1_APPEND_ENTRY_LEN.
  calms; try apply calm_append_entry; [apply calm_range; lia|]. apply IH; lia.
Qed.
Lemma calm_observations bytes l i xs found :
  0 ≤ i → 0 ≤ sl_recent_offset l → sl_recent_offset l + 96 * (i + len xs) ≤ len bytes →
  calm (parse_observations bytes l i xs found).
Proof.
  revert i found. induction xs as [|x xs IH]; intros i found Hi Ha Hl; cbn [parse_observations]; [done|].
  rewrite len_cons in Hl. pose proof (len_nonneg xs). unfold SEGMENT_V1_OBSERVATION_ENTRY_LEN.
  calms; try apply calm_observation_entry; [apply calm_range; lia|]. apply IH; lia.
Qed.

Lemma calm_parse bytes store : calm (parse_segment_v1 bytes store).
Proof.
  unfold parse_segment_v1. apply calm_bind; [apply calm_header|]. intros h (Hok & _ & body & (_ & _ & Hlen))%parse_header_sound.
  destruct (body_offsets bytes h Hok Hlen) as (E1 & E2 & E3 & E4 & E5 & E6 & ? & ? & ? & ?).
  unfold parse_body. cbv zeta. apply calm_bind; [apply calm_series; [done|lia|lia]|]. intros s _. calm_step; [calms|].
  apply calm_bind; [apply calm_blocks|]. intros [P X] _. calm_step; [calms|].
  unfold parse_tables. cbv zeta. apply calm_bind; [calms|]. intros q _.
  apply calm_bind; [apply calm_appends; [lia|lia|]|intros a _; calm_step; [calms|]; apply calm_bind; [|intros ? _; calms]].
  - rewrite (len_permutation _ _ (merge_sort_Permutation _ _)). lia.
  - apply calm_observations; [lia|lia|]. rewrite (len_permutation _ _ (merge_sort_Permutation _ _)). lia.
Qed.

(** ** Properties *)

(** C10: The segment parser accepts exactly the artifacts of sealed histories:
    arbitrary bytes never make it panic, and they parse to a view exactly when
    they are the one artifact of some sealed journal history of the expected
    store, of which the view then shows the directories, the frames and the
    observations; every other byte string is refused. *)
Theorem segment_parse_exact bytes store :
  parse_segment_v1 bytes store ≠ Err Panicked ∧
  ∀ v, parse_segment_v1 bytes store = Ok v ↔
    ∃ sealed H, sealed_history store sealed H ∧ bytes = segment_bytes store sealed H ∧ v = segment_view store sealed H.
Proof.
  split; [apply calm_parse|]. intros v. split; [apply parse_segment_sound|].
  intros (sealed & H & Hs & -> & ->). by apply parse_segment_complete.
Qed.
