(* ===== verification/SegmentBuild.v ===== *)
(** * Building a segment from a sealed journal

    [build_segment_v1] of [och-store/src/segment.rs]: the scan of the source and
    the out-of-order writes into one zeroed buffer. *)

From S2P Require Import Prelude Bytes Identity Bounded Value Collection Series Registry Admission Layout Wire.
From S2P Require Import Fields Crc Journal Generation Disk Active Scan Segment SegmentWire SegmentHistory SegmentParse.

(** ** The builder *)

(** [BTreeMap<SeriesId, Vec<usize>>] in key order:
    [grouped.entry(series_id).or_default().push(index)]. *)
Fixpoint group_push (series_id : SeriesId) (index : Z) (grouped : list (SeriesId * list Z)) : list (SeriesId * list Z) :=
  match grouped with
  | [] => [(series_id, [index])]
  | (key, indices) :: rest =>
    if decide (series_id = key) then (key, indices ++ [index]) :: rest
    else if decide (id_lt series_id key) then (series_id, [index]) :: grouped
    else (key, indices) :: group_push series_id index rest
  end.

Fixpoint source_observations (ordinal : Z) (os : list Observation)
  : result (stop SegmentV1Error) (list SourceObservation) :=
  match os with
  | [] => Ok []
  | o :: os =>
    let! ordinal32 := to_u32 ordinal in
    let! rest := source_observations (ordinal + 1) os in
    Ok (mkSourceObservation (raw_order_key o) ordinal32 :: rest)
  end.

Record SourceScan := mkSourceScan {
  ss_frames : list SourceFrame;
  ss_grouped : list (SeriesId * list Z);
  ss_previous : option AppendSequenceV1;
  ss_offset : Z;
  ss_observation_count : Z }.

(** One frame of the source. *)
Definition scan_source_frame (store_id : StoreId) (source : list byte) (s : SourceScan)
  : result (stop SegmentV1Error) SourceScan :=
  let source_offset := ss_offset s in
  let! prefix_end := some_or (checked_add usize_max source_offset JOURNAL_V1_FRAME_PREFIX_LEN) SegBounds in
  let! prefix := some_or (get_range source_offset prefix_end source) SegInvalidSource in
  let! frame_length := or_refuse (frame_len_from_prefix_v1 prefix decode_limits_maximum) SegInvalidSource in
  let! frame_end := some_or (checked_add usize_max source_offset frame_length) SegBounds in
  let! frame := some_or (get_range source_offset frame_end source) SegInvalidSource in
  let! decoded := or_refuse (decode_admission_frame_v1 frame decode_limits_maximum (ss_previous s)) SegInvalidSource in
  if decide (dec_store_id decoded ≠ store_id ∨ dd_store_id (dec_declaration decoded) ≠ store_id)
  then refuse SegStoreMismatch
  else
    let series_id := dd_series_id (dec_declaration decoded) in
    if decide (meta_series_id (env_series (dec_envelope decoded)) ≠ series_id ∨
               retry_series_id (dec_retry decoded) ≠ series_id)
    then refuse SegInvalidSource
    else
      let! encoded := or_refuse (encode_decoded_admission_frame_v1 decoded) SegInvalidSource in
      if decide (encoded ≠ frame) then refuse SegInvalidSource
      else
        let! os := source_observations 0 (observations (dec_envelope decoded)) in
        let! observation_count := some_or (checked_add usize_max (ss_observation_count s) (len os)) SegBounds in
        if decide (observation_count > MAX_SEGMENT_V1_OBSERVATIONS) then refuse SegBounds
        else
          let append_sequence := dec_append_sequence decoded in
          let index := len (ss_frames s) in
          let frames := ss_frames s ++ [mkSourceFrame append_sequence source_offset frame_length os] in
          let grouped := group_push series_id index (ss_grouped s) in
          let! previous := or_refuse (sequence_new append_sequence) SegInvalidSource in
          Ok (mkSourceScan frames grouped (Some previous) frame_end observation_count).

(** [while source_offset < source.len()], with [room] frames still expected. *)
Fixpoint scan_source (store_id : StoreId) (source : list byte) (room : nat) (s : SourceScan)
  : result (stop SegmentV1Error) SourceScan :=
  if decide (ss_offset s < len source) then
    match room with
    | O => refuse SegInvalidSource
    | S room =>
      let! s := scan_source_frame store_id source s in
      scan_source store_id source room s
    end
  else Ok s.

Record SegmentWriter := mkWriter {
  sw_bytes : list byte;
  sw_block_cursor : Z;
  sw_recent_cursor : Z;
  sw_append_entries : list FrameLocation }.

(** The frames of one block: [frame_indices.iter().enumerate()]. *)
Fixpoint write_frames (source : list byte) (source_frames : list SourceFrame) (series_id : SeriesId)
    (frame_ordinal : Z) (frame_indices : list Z) (w : SegmentWriter) (recent : list ObservationLocation)
  : result (stop SegmentV1Error) (SegmentWriter * list ObservationLocation) :=
  match frame_indices with
  | [] => Ok (w, recent)
  | source_index :: frame_indices =>
    let! source_frame := index source_frames source_index in
    let! source_bytes := index_range (sf_source_offset source_frame)
      (sf_source_offset source_frame + sf_length source_frame) source in
    let frame_offset := sw_block_cursor w in
    let! bytes := write_at frame_offset source_bytes (sw_bytes w) in
    let! frame_ordinal32 := to_u32 frame_ordinal in
    let location := mkFrameLocation (sf_append_sequence source_frame) series_id frame_offset
      (sf_length source_frame) frame_ordinal32 in
    let located := (λ o, mkObservationLocation series_id (so_raw_order_key o) (sf_append_sequence source_frame)
      (so_ordinal o) (fl_frame_ordinal location) (fl_frame_offset location) (fl_frame_length location))
      <$> sf_observations source_frame in
    write_frames source source_frames series_id (frame_ordinal + 1) frame_indices
      (mkWriter bytes (frame_offset + sf_length source_frame) (sw_recent_cursor w)
         (sw_append_entries w ++ [location]))
      (recent ++ located)
  end.

Fixpoint write_recent (recent : list ObservationLocation) (w : SegmentWriter) : result (stop SegmentV1Error) SegmentWriter :=
  match recent with
  | [] => Ok w
  | location :: recent =>
    let! bytes := encode_into (sw_recent_cursor w) (sw_recent_cursor w + SEGMENT_V1_OBSERVATION_ENTRY_LEN)
      (encode_observation_entry location) (sw_bytes w) in
    write_recent recent (mkWriter bytes (sw_block_cursor w)
      (sw_recent_cursor w + SEGMENT_V1_OBSERVATION_ENTRY_LEN) (sw_append_entries w))
  end.

Definition write_one_series (source : list byte) (source_frames : list SourceFrame) (layout : SegmentLayout)
    (series_index : Z) (series_id : SeriesId) (frame_indices : list Z) (w : SegmentWriter)
  : result (stop SegmentV1Error) SegmentWriter :=
  let directory_offset := sl_series_offset layout + series_index * SEGMENT_V1_SERIES_ENTRY_LEN in
  let block_start := sw_block_cursor w in
  let recent_start := sw_recent_cursor w in
  let! ' (w, recent) := write_frames source source_frames series_id 0 frame_indices w [] in
  let recent := sort_recent recent in
  let! w := write_recent recent w in
  let! frame_count := to_u32 (len frame_indices) in
  let! observation_count := to_u32 (len recent) in
  let entry := mkSeriesEntry series_id block_start (sw_block_cursor w - block_start) frame_count observation_count
    recent_start (sw_recent_cursor w - recent_start) in
  let! bytes := encode_into directory_offset (directory_offset + SEGMENT_V1_SERIES_ENTRY_LEN)
    (encode_series_entry entry) (sw_bytes w) in
  Ok (mkWriter bytes (sw_block_cursor w) (sw_recent_cursor w) (sw_append_entries w)).

(** [grouped.iter().enumerate()]. *)
Fixpoint write_series (source : list byte) (source_frames : list SourceFrame) (layout : SegmentLayout)
    (series_index : Z) (grouped : list (SeriesId * list Z)) (w : SegmentWriter)
  : result (stop SegmentV1Error) SegmentWriter :=
  match grouped with
  | [] => Ok w
  | (series_id, frame_indices) :: grouped =>
    let! w := write_one_series source source_frames layout series_index series_id frame_indices w in
    write_series source source_frames layout (series_index + 1) grouped w
  end.

Fixpoint write_appends (layout : SegmentLayout) (index : Z) (append_entries : list FrameLocation) (bytes : list byte)
  : result (stop SegmentV1Error) (list byte) :=
  match append_entries with
  | [] => Ok bytes
  | entry :: append_entries =>
    let offset := sl_append_offset layout + index * SEGMENT_V1_APPEND_ENTRY_LEN in
    let! bytes := encode_into offset (offset + SEGMENT_V1_APPEND_ENTRY_LEN) (encode_append_entry entry) bytes in
    write_appends layout (index + 1) append_entries bytes
  end.

(** The second half of the builder, from the scanned source on. *)
Definition write_segment (store_id : StoreId) (sealed : SealedGeneration) (source : list byte) (s : SourceScan)
  : result (stop SegmentV1Error) PreparedSegmentV1 :=
  let frame_count := len (ss_frames s) in
  let series_count := len (ss_grouped s) in
  let! blocks_length := some_or (checked_sub (len source) JOURNAL_V1_HEADER_LEN) SegInvalidSource in
  let! layout := layout_new frame_count series_count (ss_observation_count s) blocks_length in
  let bytes := zeros (Z.to_nat (sl_artifact_length layout)) in
  let! bytes := encode_segment_header bytes store_id sealed frame_count series_count (ss_observation_count s) layout in
  let! w := write_series source (ss_frames s) layout 0 (ss_grouped s)
    (mkWriter bytes (sl_blocks_offset layout) (sl_recent_offset layout) []) in
  if decide (sw_block_cursor w ≠ sl_append_offset layout ∨
             sw_recent_cursor w + SEGMENT_V1_CRC_LEN ≠ len (sw_bytes w))
  then refuse SegInvalidSource
  else
    let append_entries := merge_sort sequence_order (sw_append_entries w) in
    let! bytes := write_appends layout 0 append_entries (sw_bytes w) in
    let checksum_offset := len bytes - SEGMENT_V1_CRC_LEN in
    let! covered := index_range 0 checksum_offset bytes in
    let artifact_checksum := crc32c covered in
    let! bytes := write_at checksum_offset (be_bytes 4 artifact_checksum) bytes in
    Ok (mkPreparedSegment bytes
      (inspection store_id sealed frame_count series_count (ss_observation_count s) layout artifact_checksum)).

Definition build_segment_v1 (store_id : StoreId) (sealed : SealedGeneration) (source : list byte)
  : result (stop SegmentV1Error) PreparedSegmentV1 :=
  let source_length := len source in
  if decide (source_length > MAX_ACTIVE_JOURNAL_BYTES) then refuse SegBounds
  else if decide (sg_journal_generation sealed = 0 ∨ sg_registry_generation sealed = 0 ∨
                  sg_sequence_cutoff sealed ≤ sg_sequence_floor sealed ∨
                  sg_end_offset sealed ≠ sg_artifact_length sealed ∨ sg_artifact_length sealed ≠ source_length ∨
                  sg_end_offset sealed ≤ JOURNAL_V1_HEADER_LEN ∨ crc32c source ≠ sg_artifact_checksum sealed)
  then refuse SegInvalidSource
  else
    let! expected_count := some_or (checked_sub (sg_sequence_cutoff sealed) (sg_sequence_floor sealed)) SegBounds in
    if decide (expected_count = 0 ∨ expected_count > MAX_ACTIVE_JOURNAL_RECORDS) then refuse SegBounds
    else
      let! header := some_or (get_range 0 JOURNAL_V1_HEADER_LEN source) SegInvalidSource in
      let! decoded_header := or_refuse (header_decode header) SegInvalidSource in
      if decide (header_store_id decoded_header ≠ store_id) then refuse SegStoreMismatch
      else
        let! previous := if decide (sg_sequence_floor sealed = 0) then Ok None
                         else let! s := or_refuse (sequence_new (sg_sequence_floor sealed)) SegInvalidSource in
                              Ok (Some s) in
        let! s := scan_source store_id source (Z.to_nat expected_count)
          (mkSourceScan [] [] previous JOURNAL_V1_HEADER_LEN 0) in
        if decide (ss_offset s ≠ len source ∨ len (ss_frames s) ≠ expected_count ∨
                   (sequence_get <$> ss_previous s) ≠ Some (sg_sequence_cutoff sealed))
        then refuse SegInvalidSource
        else write_segment store_id sealed source s.

(** ** Grouping by series, incrementally *)

(** The admissions at a list of indices. *)
Definition pick (H : list DecodedAdmissionV1) (ix : list Z) : list DecodedAdmissionV1 := omap (λ n, H !! Z.to_nat n) ix.
Definition indices (H : list DecodedAdmissionV1) : list Z := Z.of_nat <$> seq 0 (length H).

(** The map the scan keeps: the indices of every series seen, ascending. *)
Record grouped_ok (H : list DecodedAdmissionV1) (m : list (SeriesId * list Z)) : Prop := {
  go_sorted : StronglySorted id_lt m.*1;
  go_groups : Forall (λ g : SeriesId * list Z, g.2 ≠ [] ∧ StronglySorted Z.lt g.2 ∧
    Forall (λ n, 0 ≤ n ∧ ∃ a, H !! Z.to_nat n = Some a ∧ owner a = g.1) g.2) m;
  go_all : concat m.*2 ≡ₚ indices H }.

Lemma group_push_all i n m : concat (group_push i n m).*2 ≡ₚ concat m.*2 ++ [n].
Proof.
  induction m as [|[j ix] m IH]; [done|]. cbn [group_push]. case_decide; [|case_decide]; cbn [fmap list_fmap concat snd].
  - rewrite <-!app_assoc. f_equiv. apply Permutation_app_comm.
  - by rewrite Permutation_app_comm.
  - by rewrite IH, app_assoc.
Qed.
Lemma group_push_ids i n m j : j ∈ (group_push i n m).*1 ↔ j = i ∨ j ∈ m.*1.
Proof.
  induction m as [|[k ix] m IH]; [cbn; rewrite list_elem_of_singleton, elem_of_nil; tauto|]. cbn [group_push].
  case_decide; [|case_decide]; cbn [fmap list_fmap fst]; rewrite ?elem_of_cons in *; [subst; naive_solver|tauto|].
  fold (fmap (M := list) (@fst SeriesId (list Z))) in *. rewrite IH. tauto.
Qed.
Lemma group_push_sorted i n m : StronglySorted id_lt m.*1 → StronglySorted id_lt (group_push i n m).*1.
Proof.
  induction m as [|[j ix] m IH]; [intros _; repeat constructor|]. cbn [group_push fmap list_fmap fst]. intros Hs.
  apply StronglySorted_inv in Hs as Hs'. destruct Hs' as [Hs' Hj].
  case_decide; [done|]. case_decide as Hlt; cbn [fmap list_fmap fst].
  - constructor; [done|]. constructor; [done|]. eapply Forall_impl; [exact Hj|]. intros k Hk. by etrans.
  - constructor; [by apply IH|]. rewrite Forall_forall in Hj |- *. intros k Hk%group_push_ids.
    destruct Hk as [->|Hk]; [|by apply Hj]. by destruct (id_lt_total i j) as [?|[?|?]].
Qed.

Lemma grouped_push H a m :
  grouped_ok H m → grouped_ok (H ++ [a]) (group_push (owner a) (len H) m).
Proof.
  intros [Hs Hg Hall]. split.
  - by apply group_push_sorted.
  - assert (∀ n b, H !! Z.to_nat n = Some b → (H ++ [a]) !! Z.to_nat n = Some b) as Hkeep by (intros n b; apply lookup_app_l_Some).
    assert ((H ++ [a]) !! Z.to_nat (len H) = Some a) as Hnew by (unfold len; rewrite Nat2Z.id; by apply list_lookup_middle).
    assert (∀ g : SeriesId * list Z, Forall (λ n, 0 ≤ n ∧ ∃ b, H !! Z.to_nat n = Some b ∧ owner b = g.1) g.2 →
      Forall (λ n, 0 ≤ n ∧ ∃ b, (H ++ [a]) !! Z.to_nat n = Some b ∧ owner b = g.1) g.2 ∧ Forall (λ n, n < len H) g.2) as Hlift.
    { intros g Hf. split; (eapply Forall_impl; [exact Hf|]); intros n (? & b & Hb & ?); [naive_solver|].
      apply lookup_lt_Some in Hb. unfold len. lia. }
    clear Hs Hall. induction Hg as [|[j ix] m (Hne & Hso & Hix) Hg IH]; cbn [group_push].
    + constructor; [|constructor]. cbn. split_and!; [done|repeat constructor|]. constructor; [|constructor].
      split; [apply len_nonneg|]. by exists a.
    + destruct (Hlift (j, ix) Hix) as [Hix' Hlt]. cbn [fst snd] in *. case_decide as Ej; [|case_decide].
      * constructor; [|eapply Forall_impl; [exact Hg|]; intros g (? & ? & ?); split_and!; try done; by apply Hlift].
        cbn. split_and!; [by destruct ix| |].
        -- apply StronglySorted_app. split_and!; [|done|repeat constructor].
           intros x y Hx ->%list_elem_of_singleton. rewrite Forall_forall in Hlt. by apply Hlt.
        -- apply Forall_app. split; [done|]. constructor; [|constructor]. split; [apply len_nonneg|]. by exists a.
      * constructor; [cbn; split_and!; [done|repeat constructor|constructor; [|constructor]]; split; [apply len_nonneg|by exists a]|].
        constructor; [done|]. eapply Forall_impl; [exact Hg|]; intros g (? & ? & ?); split_and!; try done; by apply Hlift.
      * by constructor.
  - rewrite group_push_all, Hall. unfold indices. rewrite length_app, Nat.add_1_r, seq_S, fmap_app. done.
Qed.

(** ** The scan of a source *)

Fixpoint sources_at (ordinal : Z) (os : list Observation) : list SourceObservation :=
  match os with [] => [] | o :: os => mkSourceObservation (raw_order_key o) ordinal :: sources_at (ordinal + 1) os end.
Lemma source_observations_at ordinal os :
  0 ≤ ordinal → ordinal + len os ≤ u32_max → source_observations ordinal os = Ok (sources_at ordinal os).
Proof.
  revert ordinal. induction os as [|o os IH]; intros n Hn Hl; [done|]. rewrite len_cons in Hl. pose proof (len_nonneg os).
  cbn [source_observations sources_at]. unfold to_u32. rewrite decide_True by lia. by rewrite IH by lia.
Qed.
Lemma len_sources_at ordinal os : len (sources_at ordinal os) = len os.
Proof. revert ordinal. induction os as [|o os IH]; intros n; [done|]. cbn [sources_at]. by rewrite !len_cons, IH. Qed.

Definition source_frame (off : Z) (a : DecodedAdmissionV1) : SourceFrame :=
  mkSourceFrame (dec_append_sequence a) off (len (wire a)) (sources_at 0 (frame_observations a)).
Fixpoint source_frames (off : Z) (H : list DecodedAdmissionV1) : list SourceFrame :=
  match H with [] => [] | a :: H => source_frame off a :: source_frames (off + len (wire a)) H end.
Lemma source_frames_app off H K : source_frames off (H ++ K) = source_frames off H ++ source_frames (off + len (flat H)) K.
Proof.
  revert off. induction H as [|a H IH]; intros off; cbn [source_frames app]; [by rewrite len_flat_nil, Z.add_0_r|].
  rewrite IH, flat_cons, len_app. by rewrite Z.add_assoc.
Qed.
Lemma source_frames_lookup off H n a :
  H !! n = Some a → source_frames off H !! n = Some (source_frame (off + len (flat (take n H))) a).
Proof.
  intros Hn. pose proof (take_drop_middle H n a Hn) as E. apply lookup_lt_Some in Hn as Hlt.
  rewrite <-E at 1. rewrite source_frames_app. cbn [source_frames]. apply list_lookup_middle.
  clear E Hn. revert off n Hlt. induction H as [|b H IH]; intros off [|n] Hlt; cbn in *; try lia. f_equal. apply IH. lia.
Qed.
Lemma len_source_frames off H : len (source_frames off H) = len H.
Proof. revert off. induction H as [|a H IH]; intros off; [done|]. cbn [source_frames]. by rewrite !len_cons, IH. Qed.

Section scan.
Context (store : StoreId) (source : list byte) (Hmax : len source ≤ usize_max).

Definition source_next (s : SourceScan) (a : DecodedAdmissionV1) : SourceScan :=
  mkSourceScan (ss_frames s ++ [source_frame (ss_offset s) a]) (group_push (owner a) (len (ss_frames s)) (ss_grouped s))
    (Some (mkSequence (dec_append_sequence a))) (ss_offset s + len (wire a))
    (ss_observation_count s + len (frame_observations a)).
Record source_follows (s : SourceScan) (a : DecodedAdmissionV1) : Prop := {
  so_belongs : belongs store a;
  so_previous : ∀ p, ss_previous s = Some p → dec_append_sequence a = sequence_get p + 1;
  so_bytes : slice (ss_offset s) (ss_offset s + len (wire a)) source = wire a;
  so_end : ss_offset s + len (wire a) ≤ len source;
  so_count : ss_observation_count s + len (frame_observations a) ≤ MAX_SEGMENT_V1_OBSERVATIONS }.

Lemma sequence_nonzero a : wf (mkSequence (dec_append_sequence a)) → sequence_new (dec_append_sequence a) = Ok (mkSequence (dec_append_sequence a)).
Proof. intros Hs%in_range_spec. apply sequence_new_Ok. split; [done|]. cbn in Hs. lia. Qed.

(** What the scan checks of a decoded frame. *)
Lemma source_checks a :
  wf a → wf (mkSequence (dec_append_sequence a)) → decoded_contract a →
  (¬ (dec_store_id a ≠ store ∨ dd_store_id (dec_declaration a) ≠ store) ∧
   ¬ (meta_series_id (env_series (dec_envelope a)) ≠ dd_series_id (dec_declaration a) ∨
      retry_series_id (dec_retry a) ≠ dd_series_id (dec_declaration a))) ↔ belongs store a.
Proof.
  intros Hw Hs Hc. split.
  - intros [N _]. split; try done. not_refused.
  - intros Hb. destruct (belongs_scope store a Hb) as (E1 & E2 & E3). unfold owner in *. destruct Hb as [_ _ _ E]. tauto.
Qed.

Lemma scan_source_frame_sound s s' :
  0 ≤ ss_offset s → scan_source_frame store source s = Ok s' → ∃ a, source_follows s a ∧ s' = source_next s a.
Proof using Hmax.
  intros Ho. unfold scan_source_frame, JOURNAL_V1_FRAME_PREFIX_LEN. intros H. peel H. apply checked_add_Some in E as [? ->].
  peel H. peel H. peel H. apply checked_add_Some in E1 as [? ->]. peel H. apply get_range_Some in E1 as [(? & ? & ?) ->].
  peel H. apply decode_frame_exact in E1 as (Hw & Hs & Hp & Hc & _ & Ew). fold (wire x1) in Ew. peel H. peel H.
  assert (belongs store x1) as Hb by (by apply source_checks). peel H. peel H.
  pose proof (belongs_observations store x1 Hb) as [Hobs _]. fold (frame_observations x1) in H. unfold MAX_OBSERVATIONS in Hobs.
  rewrite source_observations_at in H by (unfold u32_max; lia). peel H. apply checked_add_Some in E2 as [? ->]. peel H.
  rewrite sequence_nonzero in H by done. cbn [or_refuse map_err] in H. injection H as <-.
  pose proof (len_slice (ss_offset s) (ss_offset s + x0) source ltac:(lia) ltac:(lia)) as Hn. rewrite Ew in Hn.
  assert (x0 = len (wire x1)) as -> by lia. rewrite len_sources_at in *. exists x1. split; [|done].
  split; try done.
Qed.

Lemma scan_source_frame_complete s a :
  0 ≤ ss_offset s → 0 ≤ ss_observation_count s → source_follows s a →
  scan_source_frame store source s = Ok (source_next s a).
Proof using Hmax.
  intros Ho Hc0 [Hb Hp Hbytes Hend Hcount]. unfold scan_source_frame, JOURNAL_V1_FRAME_PREFIX_LEN. pose proof (wire_pos a).
  rewrite checked_add_ok by lia. cbn [some_or ok_or]. rewrite get_range_in by lia. cbn [some_or ok_or].
  assert (slice (ss_offset s) (ss_offset s + 20) source = slice 0 20 (wire a)) as ->.
  { rewrite <-Hbytes. symmetry. apply slice_prefix. lia. }
  rewrite (belongs_prefix store) by done. cbn [or_refuse map_err]. rewrite checked_add_ok by lia. cbn [some_or ok_or].
  rewrite get_range_in by lia. cbn [some_or ok_or]. rewrite Hbytes, (belongs_decodes store) by done. cbn [or_refuse map_err].
  pose proof Hb as [Hw Hs Hc _]. destruct (proj2 (source_checks a Hw Hs Hc) Hb) as [N1 N2]. rewrite decide_False by exact N1. rewrite decide_False by exact N2.
  rewrite (belongs_encodes store) by done. cbn [or_refuse map_err]. rewrite decide_False by tauto.
  pose proof (belongs_observations store a Hb) as [Hobs _]. fold (frame_observations a). unfold MAX_OBSERVATIONS in Hobs.
  rewrite source_observations_at by (unfold u32_max; lia). rewrite len_sources_at.
  assert (MAX_SEGMENT_V1_OBSERVATIONS ≤ usize_max) by done. rewrite checked_add_ok by lia. cbn [some_or ok_or].
  rewrite decide_False by lia. rewrite sequence_nonzero by (by destruct Hb). done.
Qed.

(** The frames of a source follow each other from the scanned sequence on. *)
Definition chained (previous : option AppendSequenceV1) (K : list DecodedAdmissionV1) : Prop :=
  ∃ from, (∀ p, previous = Some p → sequence_get p = from) ∧ numbered from K.
Lemma chained_cons previous a K :
  chained previous (a :: K) ↔
  (∀ p, previous = Some p → dec_append_sequence a = sequence_get p + 1) ∧ chained (Some (mkSequence (dec_append_sequence a))) K.
Proof.
  split.
  - intros (from & Hp & [Ha HK]%numbered_cons). split; [intros p E; rewrite (Hp p E); lia|].
    exists (from + 1). split; [|done]. intros p [= <-]. cbn. lia.
  - intros [Hp (from & Hf & HK)]. specialize (Hf _ eq_refl). cbn in Hf. exists (from - 1).
    split; [intros p E; specialize (Hp p E); lia|]. apply numbered_cons. split; [lia|].
    by replace (from - 1 + 1) with from by lia.
Qed.

Lemma flat_none K : flat K = [] → K = [].
Proof. destruct K as [|a K]; [done|]. rewrite flat_cons. intros E%(f_equal len). rewrite len_app in E. pose proof (wire_pos a).
  pose proof (len_nonneg (flat K)). change (len []) with 0 in E. lia. Qed.

Lemma chained_nil previous : chained previous [].
Proof. exists (default 0 (sequence_get <$> previous)). split; [by intros p ->|done]. Qed.

(** At the end of the source nothing is left. *)
Lemma scan_source_end room s s' :
  0 ≤ ss_offset s ≤ len source → ¬ ss_offset s < len source → 0 ≤ ss_observation_count s ≤ MAX_SEGMENT_V1_OBSERVATIONS →
  Ok s = Ok (E := stop SegmentV1Error) s' ↔
  ∃ K, (length K ≤ room)%nat ∧ slice (ss_offset s) (len source) source = flat K ∧ Forall (belongs store) K ∧
    chained (ss_previous s) K ∧ ss_observation_count s + obs_count K ≤ MAX_SEGMENT_V1_OBSERVATIONS ∧
    s' = foldl source_next s K.
Proof.
  intros Ho He Hc. replace (ss_offset s) with (len source) by lia. unfold slice. rewrite Z.sub_diag. cbn [Z.to_nat take]. split.
  - intros [= <-]. exists []. split; [cbn; lia|]. split; [done|]. split; [constructor|]. split; [apply chained_nil|].
    split; [cbn; lia|done].
  - intros (K & _ & E%eq_sym%flat_none & _ & _ & _ & ->). by subst K.
Qed.

Lemma scan_source_Ok room s s' :
  0 ≤ ss_offset s ≤ len source → 0 ≤ ss_observation_count s ≤ MAX_SEGMENT_V1_OBSERVATIONS →
  scan_source store source room s = Ok s' ↔
  ∃ K, (length K ≤ room)%nat ∧ slice (ss_offset s) (len source) source = flat K ∧ Forall (belongs store) K ∧
    chained (ss_previous s) K ∧ ss_observation_count s + obs_count K ≤ MAX_SEGMENT_V1_OBSERVATIONS ∧
    s' = foldl source_next s K.
Proof using Hmax.
  revert s. induction room as [|room IH]; intros s Ho Hc; cbn [scan_source]; case_decide as Hend.
  - split; [done|]. intros ([|] & Hl & Hf & _); [|cbn in Hl; lia]. apply (f_equal len) in Hf.
    rewrite len_slice in Hf by lia. change (len (flat [])) with 0 in Hf. lia.
  - by apply scan_source_end.
  - rewrite let_Ok. split.
    + intros (s1 & (a & Hf & ->)%scan_source_frame_sound & H); [|lia]. destruct Hf as [Hb Hp Hby He Hco].
      pose proof (wire_pos a). pose proof (len_nonneg (frame_observations a)).
      apply IH in H as (K & Hl & HK & HbK & Hch & Hobs & ->); [|cbn; lia..]. cbn [ss_offset ss_previous ss_observation_count source_next] in *.
      exists (a :: K). split_and!; [cbn; lia| |by constructor|by apply chained_cons|cbn; lia|done].
      rewrite flat_cons, <-HK. pose proof (slice_join (ss_offset s) (ss_offset s + len (wire a)) (len source) source ltac:(lia) ltac:(lia)) as E.
      rewrite <-E. by f_equal.
    + intros ([|a K] & Hl & HK & HbK & Hch & Hobs & ->); [exfalso; apply (f_equal len) in HK; rewrite len_slice in HK by lia;
        change (len (flat [])) with 0 in HK; lia|].
      apply Forall_cons in HbK as [Hb HbK]. apply chained_cons in Hch as [Hp Hch]. cbn [obs_count length] in *.
      pose proof (obs_count_nonneg K). pose proof (wire_pos a). pose proof (len_nonneg (frame_observations a)).
      rewrite flat_cons in HK. pose proof (f_equal len HK) as Hlen. rewrite len_app, len_slice in Hlen by lia. pose proof (len_nonneg (flat K)).
      rewrite <-(slice_join _ (ss_offset s + len (wire a))) in HK by lia.
      apply app_inj_1 in HK as [Hby HK]; [|pose proof (len_slice (ss_offset s) (ss_offset s + len (wire a)) source ltac:(lia) ltac:(lia)); unfold len in *; lia].
      exists (source_next s a). split; [apply scan_source_frame_complete; [lia..|]; split; done || lia|].
      apply IH; [cbn; lia..|]. exists K. cbn [ss_offset ss_previous ss_observation_count source_next]. split_and!; try done; lia.
  - by apply scan_source_end.
Qed.
End scan.

(** The scanned state of a whole history. *)
Lemma grouped_nil : grouped_ok [] [].
Proof. split; [constructor|constructor|done]. Qed.
Lemma scanned previous K :
  let s := foldl source_next (mkSourceScan [] [] previous 28 0) K in
  ss_frames s = source_frames 28 K ∧ grouped_ok K (ss_grouped s) ∧ ss_offset s = 28 + len (flat K) ∧
  ss_observation_count s = obs_count K ∧
  sequence_get <$> ss_previous s = match last K with Some a => Some (dec_append_sequence a) | None => sequence_get <$> previous end.
Proof.
  induction K as [|a K IH] using rev_ind; cbv zeta in *; [split_and!; try done; apply grouped_nil|].
  rewrite foldl_snoc. destruct IH as (E1 & E2 & E3 & E4 & _). cbn [source_next ss_frames ss_grouped ss_offset ss_observation_count ss_previous].
  rewrite E1, E3, E4, len_source_frames, source_frames_app, last_snoc, obs_count_app, flat_app, len_app. cbn [obs_count].
  rewrite flat_cons, len_app, len_flat_nil. split_and!; try done; try lia. by apply grouped_push.
Qed.

(** ** The indices of a group and its members *)

#[export] Instance pick_proper H : Proper (Permutation ==> Permutation) (pick H).
Proof. intros l k E. unfold pick. by rewrite E. Qed.
Lemma pick_cons H n ix a : H !! Z.to_nat n = Some a → pick H (n :: ix) = a :: pick H ix.
Proof. intros E. unfold pick. cbn [omap list_omap]. by rewrite E. Qed.
Lemma pick_concat H (m : list (SeriesId * list Z)) : concat (pick H <$> m.*2) = pick H (concat m.*2).
Proof.
  unfold pick. induction m as [|[i ix] m IH]; [done|]. cbn [fmap list_fmap concat snd].
  fold (fmap (M := list) (@snd SeriesId (list Z))) in *. by rewrite omap_app, <-IH.
Qed.
Lemma pick_indices H : pick H (indices H) = H.
Proof.
  unfold pick, indices. induction H as [|a H IH] using rev_ind; [done|].
  rewrite length_app, Nat.add_1_r, seq_S, fmap_app, omap_app. f_equal.
  - etrans; [|exact IH]. clear IH.
    assert (∀ n, n ∈ (Z.of_nat <$> seq 0 (length H)) → (H ++ [a]) !! Z.to_nat n = H !! Z.to_nat n) as E.
    { intros n (k & -> & Hk)%list_elem_of_fmap. apply elem_of_seq in Hk. rewrite Nat2Z.id. apply lookup_app_l. lia. }
    induction (Z.of_nat <$> seq 0 (length H)) as [|n l IH]; [done|]. cbn [omap list_omap].
    rewrite E by (by left). rewrite IH by (intros ??; apply E; by right). done.
  - cbn [fmap list_fmap omap list_omap Nat.add]. rewrite Nat2Z.id. by rewrite list_lookup_middle.
Qed.

Definition picked (H : list DecodedAdmissionV1) (g : SeriesId * list Z) : group := (g.1, pick H g.2).

Lemma pick_group H i ix from :
  numbered from H → StronglySorted Z.lt ix → Forall (λ n, 0 ≤ n ∧ ∃ a, H !! Z.to_nat n = Some a ∧ owner a = i) ix →
  length (pick H ix) = length ix ∧ Forall (λ a, owner a = i) (pick H ix) ∧ StronglySorted earlier (pick H ix).
Proof.
  intros Hn Hs Hix. induction Hs as [|n ix Hs IH Hlt]; [split_and!; [done|constructor..]|].
  apply Forall_cons in Hix as [(H0 & a & Ha & Hi) Hix]. destruct (IH Hix) as (IH1 & IH2 & IH3). rewrite (pick_cons _ _ _ a) by done.
  split_and!; [cbn; by rewrite IH1|by constructor|]. constructor; [done|]. apply Forall_forall. intros b (m & Hm & Hb)%list_elem_of_omap.
  rewrite Forall_forall in Hlt, Hix. specialize (Hlt m Hm). destruct (Hix m Hm) as [? _]. unfold earlier.
  rewrite (Hn _ _ Ha), (Hn _ _ Hb). lia.
Qed.

Lemma grouped_groups from H m : numbered from H → grouped_ok H m → picked H <$> m = groups_of H.
Proof.
  intros Hn [Hs Hg Hall]. apply grouping_unique; [by eapply numbered_earlier|]. split.
  - rewrite <-list_fmap_compose. done.
  - apply Forall_fmap. eapply Forall_impl; [exact Hg|]. intros [i ix] (Hne & Hso & Hix). cbn [picked fst snd compose] in *.
    destruct (pick_group H i ix from Hn Hso Hix) as (E & ? & ?). split_and!; try done. intros E0. unfold compose in *. rewrite E0 in E. by destruct ix.
  - rewrite <-list_fmap_compose. change (snd ∘ picked H) with (pick H ∘ (@snd SeriesId (list Z))). rewrite list_fmap_compose, pick_concat, Hall, pick_indices. done.
Qed.
