(* ===== verification/SegmentWrite.v ===== *)
(** * What the builder writes

    The out-of-order writes of [build_segment_v1] into one zeroed buffer fill
    it with the artifact of the history the source holds, and the builder
    accepts exactly the sealed images. *)

From S2P Require Import Prelude Bytes Identity Bounded Value Collection Series Registry Admission Layout Wire.
From S2P Require Import Fields Crc Journal Generation Disk Active Scan Segment SegmentWire SegmentHistory SegmentParse SegmentBuild.

(** ** Writes into the zeros of a buffer *)

Lemma write_at_zeros {E} a data pre n post :
  len pre = a → len data ≤ n →
  @write_at E a data (pre ++ zeros (Z.to_nat n) ++ post) = Ok ((pre ++ data) ++ zeros (Z.to_nat (n - len data)) ++ post).
Proof.
  intros Hp Hn. pose proof (len_nonneg data). replace n with (len data + (n - len data)) at 1 by lia.
  rewrite zeros_split, <-app_assoc by lia. rewrite write_at_mid; [by rewrite <-app_assoc|done|]. rewrite len_zeros. lia.
Qed.
Lemma encode_into_zeros {E} a b w encode new pre n post :
  len pre = a → b = a + w → len new = w → w ≤ n → encode (zeros (Z.to_nat w)) = Ok new →
  @encode_into E a b encode (pre ++ zeros (Z.to_nat n) ++ post) = Ok ((pre ++ new) ++ zeros (Z.to_nat (n - w)) ++ post).
Proof.
  intros Hp Hb Hw Hn He. pose proof (len_nonneg new). replace n with (w + (n - w)) at 1 by lia.
  rewrite zeros_split, <-app_assoc by lia.
  rewrite (encode_into_mid _ _ _ _ new) by (done || (rewrite ?len_zeros; lia)). by rewrite <-app_assoc.
Qed.

Lemma len_series_wire_id e : wf (se_series_id e) → len (series_wire e) = 64.
Proof. intros Hw. unfold series_wire, series_fields. fields_len_tac. Qed.

Lemma located_sources l os n :
  (λ o, mkObservationLocation (fl_series_id l) (so_raw_order_key o) (fl_append_sequence l) (so_ordinal o) (fl_frame_ordinal l)
     (fl_frame_offset l) (fl_frame_length l)) <$> sources_at n os = observations_at l n os.
Proof. revert n. induction os as [|o os IH]; intros n; [done|]. cbn [sources_at observations_at]. by rewrite fmap_cons, IH. Qed.

Section write.
Context (store : StoreId) (H : list DecodedAdmissionV1).
Context (Hstore : wf store) (Hbelongs : Forall (belongs store) H) (Hrecords : len H ≤ MAX_ACTIVE_JOURNAL_RECORDS).
Let source := source_image store H.

Lemma len_source : len source = 28 + len (flat H).
Proof using Hstore.
  unfold source, source_image, header_encode. cbn [header_store_id]. rewrite len_app, header_layout by (by apply len_into_bytes).
  autorewrite with len. rewrite len_into_bytes by done. change (len JOURNAL_V1_HEADER_MAGIC) with 8. lia.
Qed.
Lemma source_wire n a :
  H !! n = Some a →
  @index_range SegmentV1Error (28 + len (flat (take n H))) (28 + len (flat (take n H)) + len (wire a)) source = Ok (wire a).
Proof using Hstore.
  intros Hn. pose proof (take_drop_middle H n a Hn) as E. pose proof len_source as Hl.
  assert (len (flat H) = len (flat (take n H)) + len (wire a) + len (flat (drop (S n) H))) as Hf
    by (rewrite <-E at 1; rewrite flat_app, flat_cons, !len_app; lia).
  pose proof (len_nonneg (flat (take n H))). pose proof (wire_pos a). pose proof (len_nonneg (flat (drop (S n) H))).
  rewrite index_range_in by lia. f_equal.
  assert (source = (header_encode (mkHeader store) ++ flat (take n H)) ++ wire a ++ flat (drop (S n) H)) as Es.
  { unfold source, source_image. rewrite <-E at 1. by rewrite flat_app, flat_cons, <-app_assoc. }
  rewrite Es. apply slice_app; [|lia]. rewrite len_app. unfold source, source_image in Hl. rewrite len_app in Hl. lia.
Qed.

Definition valid (i : SeriesId) (n : Z) : Prop := 0 ≤ n ∧ ∃ a, H !! Z.to_nat n = Some a ∧ owner a = i.

Lemma write_frames_ok i ix ord pre n post cur rc entries recent :
  let K := pick H ix in
  Forall (valid i) ix → 0 ≤ ord → ord + len K ≤ u32_max → len pre = cur → len (flat K) ≤ n →
  write_frames source (source_frames 28 H) i ord ix (mkWriter (pre ++ zeros (Z.to_nat n) ++ post) cur rc entries) recent =
  Ok (mkWriter ((pre ++ flat K) ++ zeros (Z.to_nat (n - len (flat K))) ++ post) (cur + len (flat K)) rc
        (entries ++ (locate i cur ord K).*1), recent ++ located_all (locate i cur ord K)).
Proof using Hstore.
  cbv zeta. revert ord pre n cur entries recent. induction ix as [|m ix IH]; intros ord pre n cur entries recent Hix Ho Hord Hp Hn.
  - cbn [write_frames pick omap list_omap locate fmap list_fmap]. change (flat []) with (@nil byte).
    rewrite len_nil, Z.add_0_r, Z.sub_0_r, !app_nil_r. done.
  - apply Forall_cons in Hix as [(H0 & a & Ha & Hi) Hix]. rewrite (pick_cons _ _ _ a) in * by done.
    rewrite flat_cons, len_app in *. rewrite len_cons in Hord. pose proof (len_nonneg (flat (pick H ix))).
    pose proof (len_nonneg (pick H ix)). pose proof (wire_pos a).
    cbn [write_frames]. unfold index. rewrite (source_frames_lookup _ _ _ a) by done. cbn [ok_or source_frame sf_source_offset sf_length].
    rewrite source_wire by done. cbn [sw_block_cursor sw_bytes sw_recent_cursor sw_append_entries].
    rewrite write_at_zeros by (done || lia). unfold to_u32. rewrite decide_True by lia.
    rewrite IH by (done || (rewrite ?len_app; lia)). cbn [locate]. rewrite located_all_cons, fmap_cons.
    rewrite <-!app_assoc, Z.sub_add_distr, Z.add_assoc. cbn [app sf_append_sequence source_frame sf_observations].
    do 3 f_equal. unfold located. cbn [fst snd]. f_equal. apply (located_sources (mkFrameLocation (dec_append_sequence a) i cur (len (wire a)) ord)).
Qed.

Lemma write_recent_ok xs pre n bc rc entries :
  Forall (λ x, wf (ol_series_id x) ∧ wf (key_observation_id (ol_raw_order_key x))) xs →
  len pre = rc → 96 * len xs ≤ n →
  write_recent xs (mkWriter (pre ++ zeros (Z.to_nat n)) bc rc entries) =
  Ok (mkWriter ((pre ++ concat (observation_wire <$> xs)) ++ zeros (Z.to_nat (n - 96 * len xs))) bc (rc + 96 * len xs) entries).
Proof.
  revert pre n rc. induction xs as [|x xs IH]; intros pre n rc Hx Hp Hn.
  - cbn [write_recent fmap list_fmap concat]. rewrite (@len_nil ObservationLocation), Z.mul_0_r, Z.add_0_r, Z.sub_0_r, app_nil_r. done.
  - apply Forall_cons in Hx as [[Hi Hk] Hx]. rewrite len_cons in *. pose proof (len_nonneg xs). cbn [write_recent sw_recent_cursor sw_bytes].
    rewrite <-(app_nil_r (zeros _)). unfold SEGMENT_V1_OBSERVATION_ENTRY_LEN.
    rewrite (encode_into_zeros _ _ 96 _ (observation_wire x)) by
      (done || lia || (by apply len_observation_wire) || (by apply encode_observation_entry_layout)).
    rewrite app_nil_r. cbn [sw_block_cursor sw_append_entries].
    rewrite IH by (done || (rewrite ?len_app, ?len_observation_wire by done; lia)). rewrite fmap_cons. cbn [concat].
    rewrite <-!app_assoc. do 2 f_equal; [|lia]. do 4 f_equal. lia.
Qed.

(** The buffer between two series: a header, then the series directory, the
    blocks and the recent directory, each written up to its cursor, and the
    append directory still zero. *)
Definition written (hd D : list byte) (d : Z) (B : list byte) (b a : Z) (R : list byte) (r : Z) : list byte :=
  hd ++ D ++ zeros (Z.to_nat d) ++ B ++ zeros (Z.to_nat b) ++ zeros (Z.to_nat a) ++ R ++ zeros (Z.to_nat r).

Lemma valid_id i ix : Forall (valid i) ix → ix ≠ [] → wf i.
Proof using Hbelongs.
  intros Hix Hne. destruct ix as [|n ix]; [done|]. apply Forall_cons in Hix as [(_ & a & Ha & <-) _].
  rewrite Forall_forall in Hbelongs. apply list_elem_of_lookup_2, Hbelongs in Ha as [Hw _ _ _]. wf_split Hw.
  match goal with H : Is_true (wf (dec_declaration a)) |- _ => wf_split H end. done.
Qed.
Lemma located_ids i ix off ord x :
  Forall (valid i) ix → x ∈ located_all (locate i off ord (pick H ix)) →
  wf (ol_series_id x) ∧ wf (key_observation_id (ol_raw_order_key x)).
Proof using Hbelongs.
  intros Hix Hx. split.
  - rewrite (located_series _ _ _ _ _ Hx). apply elem_of_located_all in Hx as (p & Hp & _).
    apply (valid_id i ix Hix). intros ->. by apply elem_of_nil in Hp.
  - rewrite Forall_forall in Hbelongs. apply elem_of_located_all in Hx as (p & Hp & (n & o & Ho & ->)%elem_of_located). cbn [ol_raw_order_key].
    assert (p.2 ∈ pick H ix) as Hin by (rewrite <-(locate_snd i off ord (pick H ix)); by apply list_elem_of_fmap_2).
    apply list_elem_of_omap in Hin as (m & _ & Hm). apply list_elem_of_lookup_2, Hbelongs in Hm.
    destruct (belongs_observations store p.2 Hm) as [_ Hk]. rewrite Forall_forall in Hk. apply list_elem_of_lookup_2, Hk in Ho.
    wf_split Ho. done.
Qed.
Lemma located_ids_sorted i ix off ord :
  Forall (valid i) ix →
  Forall (λ x, wf (ol_series_id x) ∧ wf (key_observation_id (ol_raw_order_key x)))
    (sort_recent (located_all (locate i off ord (pick H ix)))).
Proof using Hbelongs.
  intros Hix. unfold sort_recent. rewrite merge_sort_Permutation. apply Forall_forall. intros x. by apply located_ids.
Qed.
Lemma len_sorted_located i off ord K : len (sort_recent (located_all (locate i off ord K))) = obs_count K.
Proof. unfold sort_recent. by rewrite (len_permutation _ _ (merge_sort_Permutation _ _)), len_located_all, locate_snd. Qed.
Lemma len_recent_wires i ix off ord :
  Forall (valid i) ix →
  len (concat (observation_wire <$> sort_recent (located_all (locate i off ord (pick H ix))))) = 96 * obs_count (pick H ix).
Proof using Hbelongs.
  intros Hix. rewrite (len_wires _ 96); [by rewrite len_sorted_located|].
  eapply Forall_impl; [by apply located_ids_sorted|]. intros x [? ?]. by apply len_observation_wire.
Qed.

Context (layout : SegmentLayout) (Hlayout : sl_series_offset layout = 192) (hd : list byte) (Hhd : len hd = 192).

Lemma write_one_series_ok i ix k D d B b a R r entries :
  let K := pick H ix in
  let bo := 192 + 64 * k + d in
  let cur := bo + len B in
  let rc := cur + b + a + len R in
  let e := mkSeriesEntry i cur (len (flat K)) (len K) (obs_count K) rc (96 * obs_count K) in
  Forall (valid i) ix → ix ≠ [] → len K ≤ u32_max → obs_count K ≤ u32_max → len ix = len K →
  0 ≤ k → len D = 64 * k → 64 ≤ d → len (flat K) ≤ b → 0 ≤ a → 96 * obs_count K ≤ r →
  write_one_series source (source_frames 28 H) layout k i ix (mkWriter (written hd D d B b a R r) cur rc entries) =
  Ok (mkWriter (written hd (D ++ series_wire e) (d - 64) (B ++ flat K) (b - len (flat K)) a
        (R ++ concat (observation_wire <$> sort_recent (located_all (locate i cur 0 K)))) (r - 96 * obs_count K))
        (cur + len (flat K)) (rc + 96 * obs_count K) (entries ++ (locate i cur 0 K).*1)).
Proof using Hstore Hbelongs Hlayout Hhd.
  cbv zeta. intros Hix Hne Hn32 Ho32 Hlen Hk HD Hd Hb Ha Hr. pose proof (len_nonneg (flat (pick H ix))). pose proof (len_nonneg B).
  pose proof (obs_count_nonneg (pick H ix)). pose proof (len_nonneg R).
  set (cur := 192 + 64 * k + d + len B). set (K := pick H ix) in *.
  unfold write_one_series. cbn [sw_block_cursor sw_recent_cursor]. cbv zeta.
  unfold written at 1. rewrite (app_assoc hd), (app_assoc (hd ++ D)), (app_assoc ((hd ++ D) ++ _)).
  rewrite write_frames_ok by (done || (rewrite ?len_app, ?len_zeros; unfold cur; lia)). fold K. cbn [app].
  rewrite len_sorted_located.
  rewrite (app_assoc _ (zeros _)), (app_assoc _ (zeros (Z.to_nat a))), (app_assoc _ R).
  rewrite write_recent_ok by (by apply located_ids_sorted || (rewrite ?len_sorted_located, ?len_app, ?len_zeros; fold K; unfold cur; lia)).
  cbn [sw_bytes sw_block_cursor sw_recent_cursor sw_append_entries]. fold K. rewrite len_sorted_located.
  unfold to_u32. rewrite (decide_True (P := len ix ≤ u32_max)) by lia. rewrite decide_True by lia.
  unfold SEGMENT_V1_SERIES_ENTRY_LEN. rewrite Hlayout.
  assert (wf i) as Hi by (by apply (valid_id i ix)).
  set (rc := cur + b + a + len R). replace (cur + len (flat K) - cur) with (len (flat K)) by lia.
  replace (rc + 96 * obs_count K - rc) with (96 * obs_count K) by lia. rewrite Hlen.
  set (e := mkSeriesEntry _ _ _ _ _ _ _). rewrite <-!app_assoc. rewrite (app_assoc hd).
  rewrite (encode_into_zeros _ _ 64 _ (series_wire e)) by
    ((rewrite ?len_app; lia) || (by apply len_series_wire_id) || (by apply encode_series_entry_layout)).
  unfold written. by rewrite <-!app_assoc.
Qed.

Lemma len_pick i ix : Forall (valid i) ix → len (pick H ix) = len ix.
Proof. induction 1 as [|n ix (_ & a & Ha & _) Hix IH]; [done|]. by rewrite (pick_cons _ _ _ a), !len_cons, IH. Qed.

Lemma write_series_ok m k D d B b a R r entries :
  let G := picked H <$> m in
  let M := concat G.*2 in
  let bo := 192 + 64 * k + d in
  let cur := bo + len B in
  let rc := cur + b + a + len R in
  Forall (λ g : SeriesId * list Z, Forall (valid g.1) g.2 ∧ g.2 ≠ []) m → len M ≤ u32_max → obs_count M ≤ u32_max →
  0 ≤ k → len D = 64 * k → 64 * len m ≤ d → len (flat M) ≤ b → 0 ≤ a → 96 * obs_count M ≤ r →
  write_series source (source_frames 28 H) layout k m (mkWriter (written hd D d B b a R r) cur rc entries) =
  Ok (mkWriter (written hd (D ++ concat (series_wire <$> series_directory cur rc G)) (d - 64 * len m) (B ++ flat M)
        (b - len (flat M)) a (R ++ concat (observation_wire <$> recent_directory cur G)) (r - 96 * obs_count M))
        (cur + len (flat M)) (rc + 96 * obs_count M) (entries ++ (frames_of cur G).*1)).
Proof using Hstore Hbelongs Hlayout Hhd.
  cbv zeta. revert k D d B b R r entries. induction m as [|[i ix] m IH]; intros k D d B b R r entries Hm Hn Ho Hk HD Hd Hb Ha Hr.
  - cbn [write_series fmap list_fmap concat series_directory recent_directory frames_of obs_count]. change (flat []) with (@nil byte).
    rewrite (@len_nil byte), (@len_nil (SeriesId * list Z)), !Z.mul_0_r, !Z.add_0_r, !Z.sub_0_r, !app_nil_r. done.
  - apply Forall_cons in Hm as [[Hix Hne] Hm]. cbn [fst snd] in Hix, Hne. rewrite fmap_cons in *. change (picked H (i, ix)) with (i, pick H ix) in *.
    rewrite !fmap_cons in *. cbn [fst snd concat] in *. rewrite flat_app, !len_app, obs_count_app, len_cons in *.
    set (K := pick H ix) in *. set (M := concat (picked H <$> m).*2) in *.
    pose proof (len_nonneg (flat K)). pose proof (len_nonneg (flat M)). pose proof (len_nonneg B). pose proof (len_nonneg R).
    pose proof (obs_count_nonneg K). pose proof (obs_count_nonneg M). pose proof (len_nonneg K). pose proof (len_nonneg M).
    pose proof (len_nonneg m). cbn [write_series].
    rewrite write_one_series_ok by (done || (fold K; lia) || (symmetry; by eapply len_pick)). fold K.
    set (cur := 192 + 64 * k + d + len B). set (rc := cur + b + a + len R).
    set (e := mkSeriesEntry _ _ _ _ _ _ _). assert (len (series_wire e) = 64) as He.
    { apply len_series_wire_id. by apply (valid_id i ix). }
    pose proof (len_recent_wires i ix cur 0 Hix) as Hrw. fold K in Hrw.
    set (xs := concat (observation_wire <$> sort_recent (located_all (locate i cur 0 K)))) in *.
    assert (cur + len (flat K) = 192 + 64 * (k + 1) + (d - 64) + len (B ++ flat K)) as Ecur by (unfold cur; rewrite len_app; lia).
    assert (rc + 96 * obs_count K = cur + len (flat K) + (b - len (flat K)) + a + len (R ++ xs)) as Erc
      by (rewrite len_app, Hrw; unfold rc; lia).
    rewrite Erc, Ecur. rewrite IH by (done || (rewrite ?len_app, ?He; fold M; lia)). rewrite <-Ecur, <-Erc. fold M.
    cbn [series_directory recent_directory frames_of]. fold e. rewrite !fmap_cons, !fmap_app, !concat_app. cbn [concat]. fold xs.
    rewrite <-!app_assoc. do 2 f_equal; [f_equal|..]; lia.
Qed.
End write.

Lemma write_appends_ok layout i ls pre n post :
  Forall (λ l, Is_true (wf (fl_series_id l))) ls → len pre = sl_append_offset layout + 48 * i → 48 * len ls ≤ n →
  write_appends layout i ls (pre ++ zeros (Z.to_nat n) ++ post) =
  Ok ((pre ++ concat (append_wire <$> ls)) ++ zeros (Z.to_nat (n - 48 * len ls)) ++ post).
Proof.
  revert i pre n. induction ls as [|l ls IH]; intros i pre n Hl Hp Hn.
  - cbn [write_appends fmap list_fmap concat]. rewrite (@len_nil FrameLocation), Z.mul_0_r, Z.sub_0_r, app_nil_r. done.
  - apply Forall_cons in Hl as [Hi Hl]. rewrite len_cons in *. pose proof (len_nonneg ls). cbn [write_appends].
    unfold SEGMENT_V1_APPEND_ENTRY_LEN.
    rewrite (encode_into_zeros _ _ 48 _ (append_wire l)) by
      (lia || (by apply len_append_wire) || (by apply encode_append_entry_layout)).
    rewrite IH by (done || (rewrite ?len_app, ?len_append_wire by done; lia)). rewrite fmap_cons. cbn [concat].
    rewrite <-!app_assoc. do 6 f_equal. lia.
Qed.

(** ** The whole builder *)

Section build.
Context (store : StoreId) (sealed : SealedGeneration) (H : list DecodedAdmissionV1) (Hs : sealed_history store sealed H).
Context (s : SourceScan).
Context (Hframes : ss_frames s = source_frames 28 H) (Hgrouped : grouped_ok H (ss_grouped s)) (Hobs : ss_observation_count s = obs_count H).
Let G := groups_of H.
Let bo := sl_blocks_offset (segment_layout H).
Let ro := sl_recent_offset (segment_layout H).
Let header := segment_header store sealed (len H) (len G) (obs_count H) (segment_layout H).

Lemma picked_groups : picked H <$> ss_grouped s = G.
Proof using Hs Hgrouped. destruct Hs. by eapply grouped_groups. Qed.
Lemma len_grouped : len (ss_grouped s) = len G.
Proof using Hs Hgrouped. rewrite <-picked_groups. unfold len. by rewrite length_fmap. Qed.
Lemma grouped_valid : Forall (λ g : SeriesId * list Z, Forall (valid H g.1) g.2 ∧ g.2 ≠ []) (ss_grouped s).
Proof using Hgrouped. eapply Forall_impl; [apply (go_groups _ _ Hgrouped)|]. intros g (? & _ & ?). done. Qed.

Lemma write_all :
  write_series (source_image store H) (source_frames 28 H) (segment_layout H) 0 (ss_grouped s)
    (mkWriter (header ++ zeros (Z.to_nat (sl_artifact_length (segment_layout H) - 192))) bo ro []) =
  Ok (mkWriter (written header (concat (series_wire <$> segment_series H)) 0 (flat (concat G.*2)) 0 (48 * len H)
        (concat (observation_wire <$> segment_observations H)) 4)
        (bo + len (flat H)) (ro + 96 * obs_count H) (frames_of bo G).*1).
Proof using Hs Hgrouped.
  destruct (region_bounds store sealed H Hs) as (E1 & E2 & E3 & E4 & P1 & P2 & ? & ? & ?). fold G bo ro in E1, E2, E3, E4, P1, P2.
  pose proof (members_flat store sealed H Hs) as Mf. pose proof (members_observations store sealed H Hs) as Mo.
  pose proof (members_count store sealed H Hs) as Mc. fold G in Mf, Mo, Mc. pose proof (len_nonneg G).
  assert (header ++ zeros (Z.to_nat (sl_artifact_length (segment_layout H) - 192)) =
    written header [] (64 * len G) [] (len (flat H)) (48 * len H) [] (96 * obs_count H + 4)) as ->.
  { unfold written. cbn [app]. rewrite <-!zeros_split by lia. do 3 f_equal. lia. }
  pose proof (write_series_ok store H ltac:(by destruct Hs) ltac:(by destruct Hs) (segment_layout H) eq_refl header
    (len_region_header store sealed H Hs) (ss_grouped s) 0 [] (64 * len G) [] (len (flat H)) (48 * len H) [] (96 * obs_count H + 4) []) as Hw.
  cbv zeta in Hw. rewrite picked_groups, len_grouped in Hw. change (len []) with 0 in Hw. rewrite Mf, Mo, Mc in Hw.
  replace (192 + 64 * 0 + 64 * len G + 0) with bo in Hw by lia.
  replace (bo + len (flat H) + 48 * len H + 0) with ro in Hw by lia. cbn [app] in Hw.
  rewrite Hw by (apply grouped_valid || (unfold u32_max; lia) || done).
  unfold segment_series, segment_observations. fold G bo ro. rewrite !Z.sub_diag.
  replace (96 * obs_count H + 4 - 96 * obs_count H) with 4 by lia. done.
Qed.

Lemma append_ids : Forall (λ l, Is_true (wf (fl_series_id l))) (segment_appends H).
Proof using Hs.
  eapply Forall_impl; [by eapply region_appends_wf|]. intros l Hl. cbn beta in Hl. by wf_split Hl.
Qed.
Lemma len_segment_appends : len (segment_appends H) = len H.
Proof using Hs.
  destruct (region_frames store sealed H Hs) as (ps & _ & F1 & F2 & _). rewrite <-F1, <-F2 at 1. unfold len. by rewrite !length_fmap.
Qed.

Lemma write_segment_ok : write_segment store sealed (source_image store H) s = Ok (segment_prepared store sealed H).
Proof using Hs Hframes Hgrouped Hobs.
  destruct (region_bounds store sealed H Hs) as (E1 & E2 & E3 & E4 & P1 & P2 & ? & ? & ?). fold G bo ro in E1, E2, E3, E4, P1, P2.
  pose proof (members_flat store sealed H Hs) as Mf. fold G in Mf. pose proof (sealed_image store sealed H Hs) as Hl.
  pose proof (len_D store sealed H Hs) as LD. pose proof (len_R store sealed H Hs) as LR. pose proof (len_region_header store sealed H Hs) as LH.
  pose proof (len_A store sealed H Hs) as LA. fold G in LD, LH. fold header in LH.
  unfold write_segment. cbv zeta. rewrite Hframes, len_source_frames, len_grouped, Hobs, Hl. unfold JOURNAL_V1_HEADER_LEN.
  unfold checked_sub. rewrite decide_True by lia. cbn [some_or ok_or]. replace (28 + len (flat H) - 28) with (len (flat H)) by lia.
  rewrite (proj2 (layout_new_Ok (len H) (len G) (obs_count H) (len (flat H)) (segment_layout H) ltac:(lia) ltac:(lia) ltac:(lia) ltac:(lia)))
    by (split; [by eapply sealed_counts|done]).
  rewrite encode_segment_header_layout by ((by destruct Hs) || (unfold u32_max; lia)). fold G header bo ro. rewrite write_all.
  cbn [sw_block_cursor sw_recent_cursor sw_bytes sw_append_entries]. unfold SEGMENT_V1_CRC_LEN.
  set (D := concat (series_wire <$> segment_series H)) in *. set (R := concat (observation_wire <$> segment_observations H)) in *.
  set (A := concat (append_wire <$> segment_appends H)) in *.
  rewrite decide_False by (unfold written; autorewrite with len; rewrite ?len_zeros; lia).
  change (merge_sort sequence_order (frames_of bo G).*1) with (segment_appends H).
  assert (written header D 0 (flat (concat G.*2)) 0 (48 * len H) R 4 =
    (header ++ D ++ flat (concat G.*2)) ++ zeros (Z.to_nat (48 * len H)) ++ R ++ zeros 4) as -> by (unfold written; by rewrite <-!app_assoc).
  rewrite write_appends_ok by (by apply append_ids || (rewrite ?len_app, ?len_segment_appends; lia)). fold A.
  rewrite len_segment_appends, Z.sub_diag.
  assert (((header ++ D ++ flat (concat G.*2)) ++ A) ++ zeros (Z.to_nat 0) ++ R ++ zeros 4 = segment_covered store sealed H ++ zeros 4) as ->
    by (unfold segment_covered, segment_body; by rewrite <-!app_assoc).
  assert (len (segment_covered store sealed H ++ zeros 4) - 4 = len (segment_covered store sealed H)) as ->
    by (rewrite len_app, len_zeros; lia).
  pose proof (len_nonneg (segment_covered store sealed H)).
  rewrite index_range_in by (rewrite ?len_app, ?len_zeros; lia). rewrite slice_app_0 by done.
  pose proof (write_at_mid (E := SegmentV1Error) (len (segment_covered store sealed H))
    (be_bytes 4 (crc32c (segment_covered store sealed H))) (segment_covered store sealed H) (zeros 4) []) as Hw.
  rewrite !app_nil_r in Hw. rewrite Hw by (rewrite ?len_be_bytes; done). done.
Qed.
End build.

(** ** Which sources are accepted *)

(** What the builder checks of the sealed evidence before it reads a frame. *)
Record sealed_evidence (sealed : SealedGeneration) (source : list byte) : Prop := {
  ev_length : len source ≤ MAX_ACTIVE_JOURNAL_BYTES;
  ev_journal : sg_journal_generation sealed ≠ 0;
  ev_registry : sg_registry_generation sealed ≠ 0;
  ev_end : sg_end_offset sealed = sg_artifact_length sealed;
  ev_artifact : sg_artifact_length sealed = len source;
  ev_body : JOURNAL_V1_HEADER_LEN < sg_end_offset sealed;
  ev_checksum : crc32c source = sg_artifact_checksum sealed;
  ev_records : 0 < sg_sequence_cutoff sealed - sg_sequence_floor sealed ≤ MAX_ACTIVE_JOURNAL_RECORDS }.

Definition scan_start (sealed : SealedGeneration) : SourceScan :=
  mkSourceScan [] [] (if decide (sg_sequence_floor sealed = 0) then None else Some (mkSequence (sg_sequence_floor sealed)))
    JOURNAL_V1_HEADER_LEN 0.

Lemma build_scan store sealed source p :
  build_segment_v1 store sealed source = Ok p ↔
  sealed_evidence sealed source ∧ wf store ∧ slice 0 28 source = header_encode (mkHeader store) ∧
  ∃ s, scan_source store source (Z.to_nat (sg_sequence_cutoff sealed - sg_sequence_floor sealed)) (scan_start sealed) = Ok s ∧
    ss_offset s = len source ∧ len (ss_frames s) = sg_sequence_cutoff sealed - sg_sequence_floor sealed ∧
    (sequence_get <$> ss_previous s) = Some (sg_sequence_cutoff sealed) ∧ write_segment store sealed source s = Ok p.
Proof.
  unfold build_segment_v1. cbv zeta.
  assert ((if decide (sg_sequence_floor sealed = 0) then Ok None
           else let! s := or_refuse (sequence_new (sg_sequence_floor sealed)) SegInvalidSource in Ok (Some s)) =
          Ok (E := stop SegmentV1Error) (ss_previous (scan_start sealed))) as ->.
  { unfold scan_start. cbn [ss_previous]. case_decide; [done|]. by rewrite (proj2 (sequence_new_Ok _ _) (conj eq_refl H)). }
  unfold scan_start at 1. cbn [ss_previous]. fold (scan_start sealed). split.
  - intros H. peel H. peel H. peel H. apply checked_sub_Some in E as [? ->]. peel H. peel H. apply get_range_Some in E as [(_ & _ & ?) ->].
    peel H. apply header_decode_exact in E as [Hw E]. peel H. assert (header_store_id x = store) as <- by not_refused.
    apply let_Ok in H as (s & Hscan & H). peel H. rewrite refused_or, refused_or, not_refused_eq in G3 by apply _.
    destruct G3 as (? & ? & ?). split; [split; try lia; not_refused || (intros E0; apply G0; tauto) || lia|].
    split; [done|]. destruct x as [x]. split; [done|]. exists s. split_and!; done.
  - intros ([] & Hw & Hh & s & Hscan & Ho & Hn & Hc & Hwr). rewrite decide_False by lia.
    rewrite decide_False by (rewrite ev_checksum0; lia). unfold checked_sub. rewrite decide_True by lia. cbn [some_or ok_or].
    rewrite decide_False by lia. unfold JOURNAL_V1_HEADER_LEN in *. rewrite get_range_in by lia. cbn [some_or ok_or].
    rewrite Hh. rewrite (proj2 (header_decode_exact _ (mkHeader store))) by done. cbn [or_refuse map_err header_store_id].
    rewrite decide_False by tauto. rewrite Hscan. rewrite decide_False by (rewrite Ho, Hn, Hc; tauto). done.
Qed.

Lemma len_source_image store H : wf store → len (source_image store H) = 28 + len (flat H).
Proof. apply len_source. Qed.

(** A scanned source is the image of a history, and the scanned state is what
    the history determines. *)
Lemma scan_history store sealed source s :
  wf sealed → sealed_evidence sealed source → wf store → slice 0 28 source = header_encode (mkHeader store) →
  scan_source store source (Z.to_nat (sg_sequence_cutoff sealed - sg_sequence_floor sealed)) (scan_start sealed) = Ok s →
  ss_offset s = len source → len (ss_frames s) = sg_sequence_cutoff sealed - sg_sequence_floor sealed →
  (sequence_get <$> ss_previous s) = Some (sg_sequence_cutoff sealed) →
  ∃ H, sealed_history store sealed H ∧ source = source_image store H ∧
    ss_frames s = source_frames 28 H ∧ grouped_ok H (ss_grouped s) ∧ ss_observation_count s = obs_count H.
Proof.
  intros Hws [] Hw Hh Hscan Ho Hn Hc. assert (MAX_ACTIVE_JOURNAL_BYTES ≤ usize_max) as Hmx by done. unfold JOURNAL_V1_HEADER_LEN in *.
  assert (0 ≤ ss_offset (scan_start sealed) ≤ len source) as H0 by (cbn; unfold JOURNAL_V1_HEADER_LEN; lia).
  apply (scan_source_Ok store source ltac:(lia) _ _ _ H0) in Hscan as (H & _ & Hf & Hb & (from & Hfrom & Hnum) & Hobs & ->); [|done].
  destruct (scanned (ss_previous (scan_start sealed)) H) as (E1 & E2 & E3 & E4 & E5).
  change (mkSourceScan [] [] _ 28 0) with (scan_start sealed) in *.
  assert (source = source_image store H) as Es.
  { unfold source_image. rewrite <-Hh, <-Hf. cbn [ss_offset scan_start]. unfold JOURNAL_V1_HEADER_LEN. rewrite slice_join by lia. symmetry. by apply slice_all. }
  exists H. split_and!; try done. rewrite E1, len_source_frames in Hn. rewrite E5 in Hc.
  split; try done; rewrite <-?Es; try lia.
  destruct H as [|a H]; [change (len []) with 0 in Hn; lia|]. destruct (last (a :: H)) as [z|] eqn:El; [|apply last_None in El; done].
  injection Hc as Hc. rewrite last_lookup in El. apply Hnum in El. cbn [length Init.Nat.pred] in El. rewrite len_cons in Hn. unfold len in Hn.
  replace (sg_sequence_floor sealed) with from by lia. done.
Qed.

Lemma build_segment_sound store sealed source p :
  wf sealed → build_segment_v1 store sealed source = Ok p →
  ∃ H, sealed_history store sealed H ∧ source = source_image store H ∧ p = segment_prepared store sealed H.
Proof.
  intros Hws (Hev & Hw & Hh & s & Hscan & Ho & Hn & Hc & Hwr)%build_scan.
  destruct (scan_history store sealed source s Hws Hev Hw Hh Hscan Ho Hn Hc) as (H & Hs & -> & E1 & E2 & E3).
  exists H. split_and!; [done..|]. rewrite (write_segment_ok store sealed H) in Hwr by done. by injection Hwr.
Qed.

Lemma build_segment_complete store sealed H :
  sealed_history store sealed H →
  build_segment_v1 store sealed (source_image store H) = Ok (segment_prepared store sealed H).
Proof.
  intros Hs. apply build_scan. pose proof (sealed_image store sealed H Hs) as Hl. pose proof (sealed_counts store sealed H Hs) as [_ _ [_ Hobs] [Hpos _]].
  assert (MAX_ACTIVE_JOURNAL_BYTES ≤ usize_max) as Hmx by done. pose proof Hs as [Hw Hws Hb Hn Hr Hj Hrg Hc He Hal Hby Hck].
  split; [by split; unfold JOURNAL_V1_HEADER_LEN; try lia|]. split; [done|].
  pose proof (len_flat_nonneg H) as Hf0.
  split; [unfold source_image; apply slice_app_0; unfold source_image in Hl; rewrite len_app in Hl; lia|].
  destruct (scanned (ss_previous (scan_start sealed)) H) as (E1 & E2 & E3 & E4 & E5).
  change (mkSourceScan [] [] _ 28 0) with (scan_start sealed) in *.
  exists (foldl source_next (scan_start sealed) H). split_and!.
  - apply scan_source_Ok; [lia|cbn; unfold JOURNAL_V1_HEADER_LEN; lia|done|]. exists H. split_and!; try done.
    + unfold len in Hc. lia.
    + cbn [ss_offset scan_start]. rewrite Hl. unfold source_image. apply slice_app_end; unfold source_image in Hl; rewrite len_app in Hl;
        unfold JOURNAL_V1_HEADER_LEN; lia.
    + exists (sg_sequence_floor sealed). split; [|done]. unfold scan_start. cbn [ss_previous]. intros q. case_decide; [done|]. by intros [= <-].
  - by rewrite E3, Hl.
  - rewrite E1, len_source_frames. lia.
  - rewrite E5. destruct (last H) as [z|] eqn:El; [|apply last_None in El; subst H; by destruct Hr].
    rewrite last_lookup in El. apply lookup_lt_Some in El as Hlt. apply Hn in El. f_equal. unfold len in Hc. lia.
  - by apply write_segment_ok.
Qed.

(** ** The builder never panics *)

Lemma calm_source_observations n os : calm (source_observations n os).
Proof. revert n. induction os as [|o os IH]; intros n; cbn [source_observations]; [done|]. unfold to_u32. calms. apply IH. Qed.
Lemma calm_scan_source store source room s : calm (scan_source store source room s).
Proof.
  revert s. induction room as [|room IH]; intros s; cbn [scan_source]; calms; [|apply IH].
  unfold scan_source_frame. calms. apply calm_source_observations.
Qed.

Lemma calm_build store sealed source : wf sealed → calm (build_segment_v1 store sealed source).
Proof.
  intros Hws. unfold build_segment_v1. cbv zeta.
  destruct (decide (len source > _)) as [|G1]; [done|]. destruct (decide (_ ∨ _)) as [|G2]; [done|].
  apply calm_bind; [apply calm_some|]. intros n En. unfold some_or, checked_sub in En.
  destruct (decide (sg_sequence_floor sealed ≤ sg_sequence_cutoff sealed)); [|done]. injection En as <-.
  destruct (decide (_ ∨ _)) as [|G3]; [done|]. apply calm_bind; [apply calm_some|]. intros header Eh.
  destruct (get_range 0 JOURNAL_V1_HEADER_LEN source) as [hb|] eqn:Eg; [|done]. injection Eh as <-.
  apply get_range_Some in Eg as [_ ->]. apply calm_bind; [apply calm_or|]. intros h Eh.
  destruct (header_decode _) as [h'|] eqn:Ed; [|done]. injection Eh as ->. apply header_decode_exact in Ed as [Hw Ed].
  destruct (decide (_ ≠ store)) as [|G4]; [done|]. apply dec_stable in G4 as <-. apply calm_bind; [calms|]. intros previous Ep.
  apply calm_bind; [apply calm_scan_source|]. intros s Hscan. destruct (decide (_ ∨ _)) as [|G5]; [done|].
  rewrite refused_or, refused_or, not_refused_eq in G5 by apply _. destruct G5 as (Ho & Hn & Hc).
  assert (previous = ss_previous (scan_start sealed)) as ->.
  { unfold scan_start. cbn [ss_previous]. case_decide; [by injection Ep|].
    rewrite (proj2 (sequence_new_Ok _ _) (conj eq_refl H)) in Ep. by injection Ep. }
  assert (sealed_evidence sealed source) as Hev by (split; try lia; not_refused || (intros E0; apply G2; tauto) || lia).
  destruct h as [id]. cbn [header_store_id] in *.
  destruct (scan_history id sealed source s Hws Hev Hw Ed Hscan Ho Hn Hc) as (H & Hs & -> & E1 & E2 & E3).
  by rewrite (write_segment_ok id sealed H).
Qed.

(** ** A concrete sealed journal *)

Definition sample_segment_store : StoreId := sample_id 0.
Definition sample_segment_frame (n : Z) : list byte :=
  match encode_admission_frame_v1 (mkSequence n) sample_admission with Ok bytes => bytes | Err _ => [] end.
Definition sample_source : list byte :=
  header_encode (mkHeader sample_segment_store) ++ sample_segment_frame 1 ++ sample_segment_frame 2.
Definition sample_sealed : SealedGeneration := mkSealed 1 0 2 (len sample_source) 1 (len sample_source) (crc32c sample_source).
Definition sample_segment : PreparedSegmentV1 :=
  match build_segment_v1 sample_segment_store sample_sealed sample_source with
  | Ok p => p
  | Err _ => mkPreparedSegment [] (inspection sample_segment_store sample_sealed 0 0 0 (layout_of 0 0 0 0) 0)
  end.
Lemma sample_builds : build_segment_v1 sample_segment_store sample_sealed sample_source = Ok sample_segment.
Proof. by vm_compute. Qed.

(** ** Properties *)

(** C11: The segment builder accepts exactly the sealed journals: it never
    panics, whatever the source holds, and it produces an artifact exactly when
    the source is the header of the store followed by the frames of a
    consecutively numbered history that the sealed evidence describes; the
    artifact is then the one of that history: its frames grouped by series,
    with every directory in its order and every offset where it belongs. *)
Theorem segment_build_exact store sealed source :
  wf sealed →
  build_segment_v1 store sealed source ≠ Err Panicked ∧
  ∀ p, build_segment_v1 store sealed source = Ok p ↔
    ∃ H, sealed_history store sealed H ∧ source = source_image store H ∧ p = segment_prepared store sealed H.
Proof.
  intros Hws. split; [by apply calm_build|]. intros p. split; [by apply build_segment_sound|].
  intros (H & Hs & -> & ->). by apply build_segment_complete.
Qed.

Lemma segment_build_exact_witness :
  wf sample_sealed ∧ build_segment_v1 sample_segment_store sample_sealed sample_source = Ok sample_segment ∧
  ∃ H, sealed_history sample_segment_store sample_sealed H ∧ sample_source = source_image sample_segment_store H ∧
    sample_segment = segment_prepared sample_segment_store sample_sealed H.
Proof.
  split; [by vm_compute|]. split; [exact sample_builds|].
  refine (proj1 (proj2 (segment_build_exact sample_segment_store sample_sealed sample_source _) sample_segment) sample_builds).
  by vm_compute.
Defined.

(** C33: Sealing loses nothing: whatever the builder produces, the parser accepts
    with the same inspection, and the frames read through the append directory,
    in its order, are byte for byte the frames of the source. *)
Theorem segment_roundtrip store sealed source p :
  wf sealed → build_segment_v1 store sealed source = Ok p →
  ∃ v frames, parse_segment_v1 (ps_bytes p) store = Ok v ∧ sg_inspection v = ps_inspection p ∧ sg_bytes v = ps_bytes p ∧
    Forall2 (λ entry frame, checked_slice (sg_bytes v) (ae_frame_offset entry) (ae_frame_length entry) = Some frame)
      (sg_appends v) frames ∧
    source = header_encode (mkHeader store) ++ concat frames.
Proof.
  intros Hws (H & Hs & -> & ->)%build_segment_sound; [|done].
  destruct (region_frames store sealed H Hs) as (ps & _ & F1 & F2 & Hpl). pose proof (region_length store sealed H Hs) as Hl.
  destruct (region_bounds store sealed H Hs) as (E1 & E2 & E3 & E4 & ? & ? & ? & ? & ?).
  exists (segment_view store sealed H), (wire <$> H). split; [by apply parse_segment_complete|]. split; [done|]. split; [done|].
  split; [|done]. unfold segment_view. cbn [sg_appends sg_bytes]. rewrite <-F1.
  replace (wire <$> H) with ((λ p, wire p.2) <$> ps) by (rewrite <-F2; by rewrite <-list_fmap_compose).
  rewrite <-list_fmap_compose. apply Forall2_fmap_2, Forall_Forall2_diag. rewrite Forall_forall in Hpl |- *. intros q Hq.
  pose proof (members_flat store sealed H Hs) as Mf.
  apply (checked_slice_placed _ ltac:(rewrite Hl; unfold usize_max, u64_max; lia) (sl_blocks_offset (segment_layout H))); [|lia].
  eapply placed_at_mono; [done| |by apply Hpl]. rewrite Hl, Mf. lia.
Qed.

Lemma segment_roundtrip_witness :
  wf sample_sealed ∧ build_segment_v1 sample_segment_store sample_sealed sample_source = Ok sample_segment ∧
  ∃ v frames, parse_segment_v1 (ps_bytes sample_segment) sample_segment_store = Ok v ∧ sg_inspection v = ps_inspection sample_segment ∧
    sg_bytes v = ps_bytes sample_segment ∧
    Forall2 (λ entry frame, checked_slice (sg_bytes v) (ae_frame_offset entry) (ae_frame_length entry) = Some frame)
      (sg_appends v) frames ∧
    sample_source = header_encode (mkHeader sample_segment_store) ++ concat frames.
Proof.
  split; [by vm_compute|]. split; [exact sample_builds|].
  apply (segment_roundtrip sample_segment_store sample_sealed sample_source sample_segment); [by vm_compute|exact sample_builds].
Defined.
