(* ===== verification/SegmentQuery.v ===== *)
(** * Querying a parsed segment

    The frame accessors and [query_observations_v1] of
    [och-store/src/segment.rs]. *)

From S2P Require Import Prelude Bytes Identity Bounded Value Collection Series Registry Admission Layout Wire.
From S2P Require Import Fields Crc Journal Generation Disk Active Scan Segment SegmentWire SegmentHistory SegmentParse SegmentBuild SegmentWrite.

(** ** The view *)

Definition segment_frame_bytes (s : SegmentV1) (entry : SegmentAppendEntryV1) : result SegmentV1Error (list byte) :=
  if decide (entry ∉ sg_appends s) then Err SegInvalidSegment
  else ok_or (checked_slice (sg_bytes s) (ae_frame_offset entry) (ae_frame_length entry)) SegInvalidSegment.

Definition segment_decode_frame (s : SegmentV1) (entry : SegmentAppendEntryV1) : result SegmentV1Error DecodedAdmissionV1 :=
  let! frame := segment_frame_bytes s entry in
  map_err (λ _, SegInvalidSegment) (decode_admission_frame_v1 frame decode_limits_maximum None).

(** ** Queries *)

Record SegmentObservationQueryV1 := mkQuery {
  sq_series_id : SeriesId;
  sq_interval : option TimeInterval;
  sq_limit : Z }.
#[export] Instance SegmentObservationQueryV1_eq_dec : EqDecision SegmentObservationQueryV1.
Proof. solve_decision. Defined.

Definition query_new (series_id : SeriesId) (interval : option TimeInterval) (limit : Z)
  : result SegmentObservationQueryV1Error SegmentObservationQueryV1 :=
  if decide (limit = 0 ∨ limit > MAX_SEGMENT_QUERY_RESULTS_V1) then Err QueryInvalidLimit
  else Ok (mkQuery series_id interval limit).

Record SegmentObservationQueryItemV1 := mkItem {
  qi_entry : SegmentObservationEntryV1;
  qi_admission : DecodedAdmissionV1;
  qi_observation_index : Z }.
#[export] Instance SegmentObservationQueryItemV1_eq_dec : EqDecision SegmentObservationQueryItemV1.
Proof. solve_decision. Defined.

(** [observation] and [lineage] of an item: both index, so both may panic. *)
Definition item_observation (i : SegmentObservationQueryItemV1) : result (stop SegmentV1Error) Observation :=
  index (observations (dec_envelope (qi_admission i))) (qi_observation_index i).
Definition item_lineage (i : SegmentObservationQueryItemV1) : result (stop SegmentV1Error) DecodedObservationLineageV1 :=
  index (dec_observations (qi_admission i)) (qi_observation_index i).

Record SegmentObservationQueryResultV1 := mkQueryResult {
  qr_series_id : SeriesId;
  qr_interval : option TimeInterval;
  qr_requested_limit : Z;
  qr_items : list SegmentObservationQueryItemV1;
  qr_is_truncated : bool }.
#[export] Instance SegmentObservationQueryResultV1_eq_dec : EqDecision SegmentObservationQueryResultV1.
Proof. solve_decision. Defined.

(** [slice::binary_search_by_key] of the standard library: the base moves up to
    the middle unless the key there is greater, and the size is halved. *)
Section binary_search.
Context {A K : Type} (key : A → K) (lt : K → K → Prop) `{EqDecision K, RelDecision K K lt}.

Fixpoint search_base (fuel : nat) (values : list A) (target : K) (base size : nat) : nat :=
  match fuel with
  | O => base
  | S fuel =>
    if decide (size ≤ 1)%nat then base
    else
      let half := Nat.div2 size in
      let mid := (base + half)%nat in
      let base := match values !! mid with
                  | Some v => if decide (lt target (key v)) then base else mid
                  | None => base
                  end in
      search_base fuel values target base (size - half)
  end.

Definition binary_search_by_key (values : list A) (target : K) : option nat :=
  let base := search_base (length values) values target 0 (length values) in
  match values !! base with
  | Some v => if decide (key v = target) then Some base else None
  | None => None
  end.
End binary_search.

(** What the query still checks of an indexed frame and of its observation. *)
Definition item_of (s : SegmentV1) (series_id : SeriesId) (entry : SegmentObservationEntryV1)
    (append : SegmentAppendEntryV1) (admission : DecodedAdmissionV1)
  : option SegmentObservationQueryItemV1 :=
  if decide (dec_append_sequence admission ≠ ae_append_sequence append ∨
             dec_store_id admission ≠ in_store_id (sg_inspection s) ∨
             dd_store_id (dec_declaration admission) ≠ in_store_id (sg_inspection s) ∨
             dd_series_id (dec_declaration admission) ≠ series_id ∨
             meta_series_id (env_series (dec_envelope admission)) ≠ series_id ∨
             retry_series_id (dec_retry admission) ≠ series_id)
  then None
  else if decide (be_observation_ordinal entry > u8_max) then None
  else
    let observation_index := be_observation_ordinal entry in
    match observations (dec_envelope admission) !! Z.to_nat observation_index,
          dec_observations admission !! Z.to_nat observation_index with
    | Some observation, Some lineage =>
      if decide (raw_order_key observation ≠ be_raw_order_key entry ∨
                 observation_id observation ≠ key_observation_id (be_raw_order_key entry) ∨
                 dl_canonical_id lineage ≠ observation_id observation ∨
                 raw_snapshot_id (dl_raw lineage) ≠ snapshot_evidence_id (lc_snapshot (dec_lifecycle admission)) ∨
                 norm_raw_record_id (dl_normalized lineage) ≠ raw_evidence_id (dl_raw lineage) ∨
                 norm_observation_id (dl_normalized lineage) ≠ oe_evidence_id (dl_observation lineage))
      then None else Some (mkItem entry admission observation_index)
    | _, _ => None
    end.

(** [for entry in entries], with the frames decoded so far. *)
Fixpoint query_entries (s : SegmentV1) (query : SegmentObservationQueryV1) (entries : list SegmentObservationEntryV1)
    (items : list SegmentObservationQueryItemV1) (decoded_frames : list (Z * DecodedAdmissionV1))
  : result SegmentObservationQueryV1Error (list SegmentObservationQueryItemV1 * bool) :=
  match entries with
  | [] => Ok (items, false)
  | entry :: entries =>
    if decide (be_series_id entry ≠ sq_series_id query) then Err QueryInconsistentSegment
    else if is_some_and (λ interval, negb (interval_contains interval (key_effective (be_raw_order_key entry))))
              (sq_interval query)
    then query_entries s query entries items decoded_frames
    else if decide (len items = sq_limit query) then Ok (items, true)
    else
      let! append_index := ok_or (binary_search_by_key ae_append_sequence Z.lt (sg_appends s) (be_append_sequence entry))
        QueryInconsistentSegment in
      let! append := ok_or (sg_appends s !! append_index) QueryInconsistentSegment in
      if decide (ae_append_sequence append ≠ be_append_sequence entry ∨ ae_series_id append ≠ be_series_id entry ∨
                 ae_frame_offset append ≠ be_frame_offset entry ∨ ae_frame_length append ≠ be_frame_length entry ∨
                 ae_frame_ordinal append ≠ be_frame_ordinal entry)
      then Err QueryInconsistentSegment
      else
        let! ' (admission, decoded_frames) :=
          match find (λ '(sequence, _), bool_decide (sequence = ae_append_sequence append)) decoded_frames with
          | Some (_, decoded) => Ok (decoded, decoded_frames)
          | None =>
            let! frame := ok_or (checked_slice (sg_bytes s) (ae_frame_offset append) (ae_frame_length append))
              QueryInconsistentSegment in
            let! decoded := map_err (λ _, QueryInconsistentSegment)
              (decode_admission_frame_v1 frame decode_limits_maximum None) in
            Ok (decoded, decoded_frames ++ [(ae_append_sequence append, decoded)])
          end in
        let! item := ok_or (item_of s (sq_series_id query) entry append admission) QueryInconsistentSegment in
        query_entries s query entries (items ++ [item]) decoded_frames
  end.

Definition query_observations_v1 (s : SegmentV1) (query : SegmentObservationQueryV1)
  : result SegmentObservationQueryV1Error SegmentObservationQueryResultV1 :=
  let answer items is_truncated :=
    mkQueryResult (sq_series_id query) (sq_interval query) (sq_limit query) items is_truncated in
  match binary_search_by_key se_series_id id_lt (sg_series s) (sq_series_id query) with
  | None => Ok (answer [] false)
  | Some series_index =>
    let! series := ok_or (sg_series s !! series_index) QueryInconsistentSegment in
    let! relative_offset := ok_or (checked_sub (se_recent_offset series)
      (in_recent_directory_offset (sg_inspection s))) QueryInconsistentSegment in
    if decide (relative_offset mod SEGMENT_V1_OBSERVATION_ENTRY_LEN ≠ 0) then Err QueryInconsistentSegment
    else
      let start := relative_offset / SEGMENT_V1_OBSERVATION_ENTRY_LEN in
      let count := se_observation_count series in
      let! expected_length := ok_or (checked_mul usize_max count SEGMENT_V1_OBSERVATION_ENTRY_LEN)
        QueryInconsistentSegment in
      if decide (se_recent_length series ≠ expected_length) then Err QueryInconsistentSegment
      else
        let! end_ := ok_or (checked_add usize_max start count) QueryInconsistentSegment in
        let! entries := ok_or (if decide (start ≤ end_ ∧ end_ ≤ len (sg_observations s))
          then Some (take (Z.to_nat (end_ - start)) (drop (Z.to_nat start) (sg_observations s))) else None)
          QueryInconsistentSegment in
        if decide (entries = []) then Ok (answer [] false)
        else
          let! ' (items, is_truncated) := query_entries s query entries [] [] in
          Ok (answer items is_truncated)
  end.

(** ** Binary search finds the key of a strictly sorted slice *)

Section search.
Context {A K : Type} (key : A → K) (lt : K → K → Prop) `{EqDecision K, !RelDecision lt, Hlt : !StrictOrder lt}.
Context (values : list A) (Hsorted : StronglySorted lt (key <$> values)).

Lemma key_before n m v w : values !! n = Some v → values !! m = Some w → (n < m)%nat → lt (key v) (key w).
Proof using Hsorted Hlt.
  intros Hv Hw Hnm. pose proof Hsorted as Hs. rewrite <-(take_drop_middle values n v Hv), fmap_app, fmap_cons in Hs.
  apply StronglySorted_app_1_r, StronglySorted_inv in Hs as [_ Hs]. rewrite Forall_forall in Hs. apply Hs, list_elem_of_fmap_2.
  apply (list_elem_of_lookup_2 _ (m - S n)). rewrite lookup_drop. by replace (S n + (m - S n))%nat with m by lia.
Qed.

Lemma search_base_found n v fuel base size :
  values !! n = Some v → (base ≤ n < base + size)%nat → (base + size ≤ length values)%nat → (size ≤ fuel)%nat →
  search_base key lt fuel values (key v) base size = n.
Proof using Hsorted Hlt.
  intros Hn. revert base size. induction fuel as [|fuel IH]; intros base size Hb Hl Hf; [lia|]. cbn [search_base].
  case_decide as H1; [lia|]. pose proof (Nat.div2_odd size) as Hd. assert (Nat.b2n (Nat.odd size) ≤ 1)%nat by (destruct (Nat.odd size); cbn; lia).
  destruct (lookup_lt_is_Some_2 values (base + Nat.div2 size)) as [w Hw]; [lia|]. rewrite Hw. case_decide as Hless.
  - apply IH; try lia. split; [lia|]. destruct (decide (n < base + Nat.div2 size)%nat); [lia|]. exfalso.
    destruct (decide (n = base + Nat.div2 size)%nat) as [->|].
    + rewrite Hn in Hw. injection Hw as ->. by apply (irreflexivity lt (key w)).
    + apply (irreflexivity lt (key v)). etrans; [exact Hless|]. apply (key_before _ _ w v Hw Hn). lia.
  - apply IH; try lia. split; [|lia]. destruct (decide (base + Nat.div2 size ≤ n)%nat); [done|]. destruct Hless.
    apply (key_before _ _ v w Hn Hw). lia.
Qed.

Lemma binary_search_found n v : values !! n = Some v → binary_search_by_key key lt values (key v) = Some n.
Proof using Hsorted Hlt.
  intros Hn. unfold binary_search_by_key. pose proof (lookup_lt_Some _ _ _ Hn).
  rewrite (search_base_found n v) by (done || lia). rewrite Hn. by rewrite decide_True.
Qed.
End search.

Lemma binary_search_absent {A K} (key : A → K) lt `{EqDecision K, RelDecision K K lt} values target :
  (∀ v, v ∈ values → key v ≠ target) → binary_search_by_key key lt values target = None.
Proof.
  intros Hn. unfold binary_search_by_key. destruct (values !! _) as [v|] eqn:E; [|done].
  apply list_elem_of_lookup_2, Hn in E. by rewrite decide_False.
Qed.

(** ** The directories at a group *)

Lemma directory_lookup off r G1 i K G2 :
  let M := concat G1.*2 in
  series_directory off r (G1 ++ (i, K) :: G2) !! length G1 =
    Some (mkSeriesEntry i (off + len (flat M)) (len (flat K)) (len K) (obs_count K) (r + 96 * obs_count M) (96 * obs_count K)).
Proof.
  cbv zeta. revert off r. induction G1 as [|[j J] G1 IH]; intros off r.
  - cbn [app fmap list_fmap concat obs_count length]. rewrite len_flat_nil, Z.mul_0_r, !Z.add_0_r. done.
  - cbn [app series_directory length lookup list_lookup fmap list_fmap concat snd].
    fold (fmap (M := list) (@snd SeriesId (list DecodedAdmissionV1))). etrans; [apply IH|].
    rewrite flat_app, len_app, obs_count_app. do 2 f_equal; lia.
Qed.
Lemma directory_ids off r G : se_series_id <$> series_directory off r G = G.*1.
Proof. revert off r. induction G as [|[i K] G IH]; intros off r; [done|]. cbn [series_directory]. by rewrite !fmap_cons, IH. Qed.

Lemma recent_split off G1 i K G2 :
  let M := concat G1.*2 in
  ∃ P S, recent_directory off (G1 ++ (i, K) :: G2) = P ++ sort_recent (located_all (locate i (off + len (flat M)) 0 K)) ++ S ∧
    len P = obs_count M.
Proof.
  cbv zeta. revert off. induction G1 as [|[j J] G1 IH]; intros off.
  - exists [], (recent_directory (off + len (flat K)) G2). split; [|done]. cbn [app recent_directory fmap list_fmap concat].
    by rewrite len_flat_nil, Z.add_0_r.
  - destruct (IH (off + len (flat J))) as (P & S & E & HP). exists (sort_recent (located_all (locate j off 0 J)) ++ P), S.
    cbn [app recent_directory fmap list_fmap concat snd]. fold (fmap (M := list) (@snd SeriesId (list DecodedAdmissionV1))).
    rewrite E, flat_app, !len_app, obs_count_app, HP, <-app_assoc. split; [do 6 f_equal; lia|].
    unfold sort_recent. by rewrite (len_permutation _ _ (merge_sort_Permutation _ _)), len_located_all, locate_snd.
Qed.
Lemma frames_split off G1 i K G2 :
  let M := concat G1.*2 in
  ∃ P S, frames_of off (G1 ++ (i, K) :: G2) = P ++ locate i (off + len (flat M)) 0 K ++ S.
Proof.
  cbv zeta. revert off. induction G1 as [|[j J] G1 IH]; intros off.
  - exists [], (frames_of (off + len (flat K)) G2). cbn [app frames_of fmap list_fmap concat]. by rewrite len_flat_nil, Z.add_0_r.
  - destruct (IH (off + len (flat J))) as (P & S & E). exists (locate j off 0 J ++ P), S.
    cbn [app frames_of fmap list_fmap concat snd]. fold (fmap (M := list) (@snd SeriesId (list DecodedAdmissionV1))).
    rewrite E, flat_app, !len_app, <-app_assoc. do 4 f_equal. lia.
Qed.

(** ** What a query should answer *)

(** An observation of the history: its admission, its place there, and itself. *)
Definition context : Type := DecodedAdmissionV1 * (nat * Observation).
Definition contexts (a : DecodedAdmissionV1) : list context := pair a <$> imap pair (frame_observations a).
Definition in_interval (interval : option TimeInterval) (t : context) : Prop :=
  is_some_and (λ i, negb (interval_contains i (times_effective (obs_times t.2.2)))) interval = false.
(** Most recent first: the order key, then the append sequence, descending, then
    the place in the frame. *)
Definition more_recent (x y : context) : Prop :=
  key_lt (raw_order_key y.2.2) (raw_order_key x.2.2) ∨
  (raw_order_key y.2.2 = raw_order_key x.2.2 ∧
   (dec_append_sequence y.1 < dec_append_sequence x.1 ∨
    (dec_append_sequence y.1 = dec_append_sequence x.1 ∧ (x.2.1 ≤ y.2.1)%nat))).
#[export] Instance more_recent_dec : RelDecision more_recent.
Proof. intros x y. unfold more_recent. apply _. Defined.
#[export] Instance in_interval_dec interval t : Decision (in_interval interval t).
Proof. unfold in_interval. apply _. Defined.

Definition recent_contexts (H : list DecodedAdmissionV1) (i : SeriesId) (interval : option TimeInterval) : list context :=
  merge_sort more_recent (filter (in_interval interval) (concat (contexts <$> block_of H i))).

(** ** Located contexts *)

Definition placed_context : Type := (FrameLocation * DecodedAdmissionV1) * (nat * Observation).
Definition contexts_at (p : FrameLocation * DecodedAdmissionV1) : list placed_context :=
  pair p <$> imap pair (frame_observations p.2).
Definition location_of (t : placed_context) : ObservationLocation :=
  let l := t.1.1 in
  mkObservationLocation (fl_series_id l) (raw_order_key t.2.2) (fl_append_sequence l) (Z.of_nat t.2.1) (fl_frame_ordinal l)
    (fl_frame_offset l) (fl_frame_length l).
Definition unplaced (t : placed_context) : context := (t.1.2, t.2).
Definition item_at (t : placed_context) : SegmentObservationQueryItemV1 :=
  mkItem (observation_entry (location_of t)) t.1.2 (Z.of_nat t.2.1).

Lemma observations_at_locations p n os :
  observations_at p.1 (Z.of_nat n) os = location_of <$> (pair p <$> imap (λ k, pair (n + k)%nat) os).
Proof.
  revert n. induction os as [|o os IH]; intros n; [done|]. cbn [observations_at]. rewrite imap_cons, !fmap_cons. f_equal.
  - unfold location_of. cbn [fst snd]. by rewrite Nat.add_0_r.
  - replace (Z.of_nat n + 1) with (Z.of_nat (S n)) by lia. rewrite IH. do 2 f_equal. apply imap_ext. intros k o' _. cbn. f_equal. lia.
Qed.
Lemma located_contexts p : located p = location_of <$> contexts_at p.
Proof. unfold located, contexts_at. by rewrite (observations_at_locations p 0). Qed.
Lemma located_all_contexts ps : located_all ps = location_of <$> concat (contexts_at <$> ps).
Proof.
  unfold located_all. induction ps as [|p ps IH]; [done|]. rewrite !fmap_cons. cbn [concat]. by rewrite fmap_app, <-IH, located_contexts.
Qed.
Lemma unplaced_contexts ps : unplaced <$> concat (contexts_at <$> ps) = concat (contexts <$> ps.*2).
Proof.
  induction ps as [|p ps IH]; [done|]. rewrite !fmap_cons. cbn [concat]. rewrite fmap_app, IH. f_equal.
  unfold contexts_at, contexts. by rewrite <-list_fmap_compose.
Qed.
Lemma elem_of_contexts_at p t : t ∈ contexts_at p ↔ t.1 = p ∧ frame_observations p.2 !! t.2.1 = Some t.2.2.
Proof.
  unfold contexts_at. rewrite list_elem_of_fmap. setoid_rewrite elem_of_lookup_imap. destruct t as [q [n o]]. cbn. naive_solver.
Qed.
Lemma elem_of_contexts ps t :
  t ∈ concat (contexts_at <$> ps) ↔ t.1 ∈ ps ∧ frame_observations t.1.2 !! t.2.1 = Some t.2.2.
Proof.
  induction ps as [|p ps IH]; [cbn; rewrite !elem_of_nil; tauto|]. rewrite fmap_cons. cbn [concat].
  rewrite elem_of_app, IH, elem_of_contexts_at, elem_of_cons. naive_solver.
Qed.

(** ** An item of an indexed observation *)

Section item.
Context (store : StoreId) (v : SegmentV1) (Hv : in_store_id (sg_inspection v) = store).
Context (p : FrameLocation * DecodedAdmissionV1) (n : nat) (o : Observation).
Context (Hb : belongs store p.2) (Hp : fl_append_sequence p.1 = dec_append_sequence p.2).
Context (Ho : frame_observations p.2 !! n = Some o).

(** The lineage that goes with an observation. *)
Lemma lineage_of :
  ∃ l, dec_observations p.2 !! n = Some l ∧ dl_canonical_id l = observation_id o ∧
    lineage_chained (snapshot_evidence_id (lc_snapshot (dec_lifecycle p.2))) l.
Proof using Hb Ho.
  destruct Hb as [_ _ Hc _]. pose proof (dc_associated _ Hc) as Ha. pose proof (dc_chained _ Hc) as Hl.
  assert ((observation_id <$> observations (dec_envelope p.2)) !! n = Some (observation_id o)) as Hi
    by (rewrite list_lookup_fmap; unfold frame_observations in Ho; by rewrite Ho).
  rewrite <-Ha, list_lookup_fmap in Hi. destruct (dec_observations p.2 !! n) as [l|] eqn:E; [|done]. injection Hi as Hi.
  exists l. split_and!; try done. rewrite Forall_forall in Hl. by apply Hl, (list_elem_of_lookup_2 _ n).
Qed.

Lemma item_of_located :
  item_of v (owner p.2) (observation_entry (location_of (p, (n, o)))) (append_entry p.1) p.2 = Some (item_at (p, (n, o))).
Proof using Hv Hb Hp Ho.
  destruct lineage_of as (l & Hl & Hid & H1 & H2 & H3 & _). destruct (belongs_scope store p.2 Hb) as (E1 & E2 & E3).
  destruct (belongs_observations store p.2 Hb) as [Hlen _]. apply lookup_lt_Some in Ho as Hlt. unfold MAX_OBSERVATIONS, len in Hlen.
  unfold item_of, observation_entry, append_entry, location_of.
  cbn [fst snd ae_append_sequence be_observation_ordinal be_raw_order_key ol_observation_ordinal ol_raw_order_key].
  rewrite decide_False by (rewrite Hv, E1, E2, E3, Hp; destruct Hb as [_ _ _ ->]; unfold owner; naive_solver).
  rewrite decide_False by (unfold u8_max; lia). rewrite Nat2Z.id. fold (frame_observations p.2). rewrite Ho, Hl.
  rewrite decide_False; [done|]. cbn [raw_order_key key_observation_id]. rewrite Hid, H1, H2, H3. naive_solver.
Qed.
End item.

(** ** The entries of one series *)

Lemma segment_fits store sealed H : sealed_history store sealed H → len (segment_bytes store sealed H) ≤ usize_max.
Proof.
  intros Hs. destruct (region_bounds store sealed H Hs) as (E1 & E2 & E3 & E4 & ? & ? & ? & ? & ?).
  rewrite region_length by done. unfold usize_max, u64_max. lia.
Qed.

Section query.
Context (store : StoreId) (sealed : SealedGeneration) (H : list DecodedAdmissionV1) (Hs : sealed_history store sealed H).
Let v := segment_view store sealed H.
Context (ps : list (FrameLocation * DecodedAdmissionV1)) (lo hi : Z) (H1 : ps.*1 = segment_appends H) (H2 : ps.*2 = H).
Context (Hplaced : Forall (placed_at (segment_bytes store sealed H) lo hi) ps) (Hlo : 0 ≤ lo) (Hhi : hi ≤ len (segment_bytes store sealed H)).

Lemma placed_in p : p ∈ ps → placed_at (segment_bytes store sealed H) lo hi p ∧ belongs store p.2 ∧ p.2 ∈ H.
Proof using Hs H2 Hplaced.
  intros Hp. rewrite Forall_forall in Hplaced. assert (p.2 ∈ H) as Hin by (rewrite <-H2; by apply list_elem_of_fmap_2).
  split; [by apply Hplaced|]. split; [|done]. destruct Hs as [_ _ Hb _ _ _ _ _ _ _ _ _]. rewrite Forall_forall in Hb. by apply Hb.
Qed.
Lemma history_earlier : StronglySorted earlier H.
Proof using Hs. destruct Hs. by eapply numbered_earlier. Qed.

Lemma appends_sorted : StronglySorted Z.lt (ae_append_sequence <$> sg_appends v).
Proof using Hs H1 H2 Hplaced.
  unfold v, segment_view. cbn [sg_appends]. rewrite <-H1, <-!list_fmap_compose.
  replace ((ae_append_sequence ∘ append_entry ∘ fst) <$> ps) with (dec_append_sequence <$> ps.*2).
  - rewrite H2. pose proof history_earlier as He. clear -He. induction He as [|a H He IH Ha]; [constructor|]. rewrite fmap_cons.
    constructor; [done|]. by apply Forall_fmap.
  - rewrite <-list_fmap_compose. apply list_fmap_ext. intros k p Hk%list_elem_of_lookup_2. cbn.
    apply placed_in in Hk as ([Hq _ _ _ _ _] & _). done.
Qed.

Lemma append_found p :
  p ∈ ps → ∃ n, binary_search_by_key ae_append_sequence Z.lt (sg_appends v) (fl_append_sequence p.1) = Some n ∧
    sg_appends v !! n = Some (append_entry p.1).
Proof using Hs H1 H2 Hplaced.
  intros (n & Hn)%list_elem_of_lookup. exists n. assert (sg_appends v !! n = Some (append_entry p.1)) as Hl
    by (unfold v, segment_view; cbn [sg_appends]; rewrite <-H1, !list_lookup_fmap, Hn; done).
  split; [|done]. change (fl_append_sequence p.1) with (ae_append_sequence (append_entry p.1)).
  apply binary_search_found; [apply _|apply appends_sorted|done].
Qed.

Definition cache_ok (cache : list (Z * DecodedAdmissionV1)) : Prop :=
  Forall (λ e : Z * DecodedAdmissionV1, e.2 ∈ H ∧ dec_append_sequence e.2 = e.1) cache.

Lemma frame_fetched p cache :
  p ∈ ps → cache_ok cache → ∃ cache', cache_ok cache' ∧
  match find (λ '(sequence, _), bool_decide (sequence = ae_append_sequence (append_entry p.1))) cache with
  | Some (_, decoded) => Ok (decoded, cache)
  | None =>
    let! frame := ok_or (checked_slice (sg_bytes v) (ae_frame_offset (append_entry p.1)) (ae_frame_length (append_entry p.1)))
      QueryInconsistentSegment in
    let! decoded := map_err (λ _, QueryInconsistentSegment) (decode_admission_frame_v1 frame decode_limits_maximum None) in
    Ok (decoded, cache ++ [(ae_append_sequence (append_entry p.1), decoded)])
  end = Ok (p.2, cache').
Proof using Hs H2 Hplaced Hlo Hhi.
  intros Hp Hc. destruct (placed_in p Hp) as (Hpl & Hb & Hin). pose proof Hpl as [Hq _ _ _ _ _].
  cbn [ae_append_sequence ae_frame_offset ae_frame_length append_entry]. destruct (find _ cache) as [[q d]|] eqn:E.
  - exists cache. split; [done|]. apply find_some in E as [Hd Hqd]. apply bool_decide_eq_true in Hqd as ->.
    apply list_elem_of_In in Hd. unfold cache_ok in Hc. rewrite Forall_forall in Hc. destruct (Hc _ Hd) as [Hdh Hdq]. cbn in Hdh, Hdq.
    do 2 f_equal. apply (earlier_injective H); [apply history_earlier|done..|]. by rewrite Hdq.
  - exists (cache ++ [(fl_append_sequence p.1, p.2)]). split.
    + apply Forall_app. split; [done|]. constructor; [|constructor]. by rewrite Hq.
    + assert (checked_slice (sg_bytes v) (fl_frame_offset p.1) (fl_frame_length p.1) = Some (wire p.2)) as ->.
      { unfold v, segment_view. cbn [sg_bytes]. apply (checked_slice_placed _ ltac:(by eapply segment_fits) lo); [|done].
        by eapply placed_at_mono; [done|exact Hhi|]. }
      cbn [ok_or]. by rewrite (belongs_decodes store) by done.
Qed.

Definition selected (interval : option TimeInterval) (t : placed_context) : Prop := in_interval interval (unplaced t).
#[local] Instance selected_dec interval t : Decision (selected interval t).
Proof. unfold selected. apply _. Defined.

(** The loop answers the first selected contexts up to the limit. *)
Lemma query_entries_ok q T items cache :
  Forall (λ t : placed_context, t.1 ∈ ps ∧ owner t.1.2 = sq_series_id q ∧ frame_observations t.1.2 !! t.2.1 = Some t.2.2) T →
  len items ≤ sq_limit q → cache_ok cache →
  let room := sq_limit q - len items in
  let M := filter (selected (sq_interval q)) T in
  query_entries v q (observation_entry <$> (location_of <$> T)) items cache =
  Ok (items ++ (item_at <$> take (Z.to_nat room) M), bool_decide (room < len M)).
Proof using Hs H1 H2 Hplaced Hlo Hhi.
  cbv zeta. revert items cache. induction T as [|[p [n o]] T IH]; intros items cache HT Hl Hc.
  - cbn [query_entries fmap list_fmap]. rewrite filter_nil, take_nil, app_nil_r. rewrite bool_decide_eq_false_2; [done|].
    change (len []) with 0. lia.
  - apply Forall_cons in HT as [(Hp & Hown & Ho) HT]. cbn [fst snd] in Hp, Hown, Ho. destruct (placed_in p Hp) as (Hpl & Hb & _).
    pose proof Hpl as [Hq Hi _ _ _ _]. rewrite !fmap_cons. cbn [query_entries].
    set (t := (p, (n, o)) : placed_context) in *.
    rewrite decide_False by (cbn; rewrite Hi, Hown; tauto).
    change (is_some_and _ (sq_interval q)) with (is_some_and (λ i, negb (interval_contains i (times_effective (obs_times o)))) (sq_interval q)).
    assert (selected (sq_interval q) t ↔
      is_some_and (λ i, negb (interval_contains i (times_effective (obs_times o)))) (sq_interval q) = false) as Hsel by done.
    destruct (is_some_and _ (sq_interval q)).
    { rewrite filter_cons_False by (rewrite Hsel; done). by apply IH. }
    rewrite filter_cons_True by (by apply Hsel). set (M := filter _ T) in *. rewrite len_cons. pose proof (len_nonneg M).
    case_decide as Hfull.
    { rewrite Hfull, Z.sub_diag. cbn [Z.to_nat take fmap list_fmap]. rewrite app_nil_r, bool_decide_eq_true_2 by lia. done. }
    destruct (append_found p Hp) as (k & Hk & Hkl). change (be_append_sequence _) with (fl_append_sequence p.1).
    rewrite Hk. cbn [ok_or]. rewrite Hkl. cbn [ok_or].
    rewrite decide_False by (cbn; tauto). destruct (frame_fetched p cache Hp Hc) as (cache' & Hc' & ->).
    pose proof (item_of_located store v eq_refl p n o Hb Hq Ho) as Hit. fold t in Hit. rewrite Hown in Hit. rewrite Hit. cbn [ok_or].
    rewrite IH by (done || (rewrite len_app; change (len [item_at t]) with 1; lia)). fold M.
    rewrite len_app. change (len [item_at t]) with 1.
    replace (Z.to_nat (sq_limit q - len items)) with (S (Z.to_nat (sq_limit q - (len items + 1)))) by lia.
    cbn [take]. rewrite fmap_cons, <-app_assoc. do 2 f_equal. apply bool_decide_ext. lia.
Qed.
End query.

(** ** The order of contexts *)

Lemma more_recent_located (t u : placed_context) :
  fl_append_sequence t.1.1 = dec_append_sequence t.1.2 → fl_append_sequence u.1.1 = dec_append_sequence u.1.2 →
  recent_order (location_of t) (location_of u) ↔ more_recent (unplaced t) (unplaced u).
Proof.
  intros Ht Hu. unfold recent_order, more_recent, location_of, unplaced. cbn [ol_raw_order_key ol_append_sequence ol_observation_ordinal fst snd].
  rewrite Ht, Hu, Nat2Z.inj_le. done.
Qed.
(** A context as if its frame lay at the start of a file. *)
Definition anywhere (x : context) : placed_context :=
  ((mkFrameLocation (dec_append_sequence x.1) (owner x.1) 0 (len (wire x.1)) 0, x.1), x.2).
Lemma more_recent_anywhere x y : recent_order (location_of (anywhere x)) (location_of (anywhere y)) ↔ more_recent x y.
Proof. rewrite more_recent_located by done. by destruct x, y. Qed.
#[export] Instance more_recent_total : Total more_recent.
Proof. intros x y. rewrite <-!more_recent_anywhere. apply total, _. Qed.
#[export] Instance more_recent_trans : Transitive more_recent.
Proof. intros x y z. rewrite <-!more_recent_anywhere. apply transitivity. Qed.

Lemma more_recent_same x y :
  more_recent x y → more_recent y x → dec_append_sequence x.1 = dec_append_sequence y.1 ∧ x.2.1 = y.2.1.
Proof.
  unfold more_recent. intros [A|[E A]] [B|[F B]].
  - exfalso. eapply (irreflexivity key_lt). by etrans.
  - exfalso. rewrite F in A. by eapply (irreflexivity key_lt).
  - exfalso. rewrite E in B. by eapply (irreflexivity key_lt).
  - lia.
Qed.

Lemma StronglySorted_map {A B} (f : A → B) (R : relation A) (S : relation B) l :
  (∀ a b, a ∈ l → b ∈ l → R a b → S (f a) (f b)) → StronglySorted R l → StronglySorted S (f <$> l).
Proof.
  intros Hi Hs. induction Hs as [|a l Hs IH Ha]; [constructor|]. rewrite fmap_cons. constructor.
  - apply IH. intros x y Hx Hy. apply Hi; by right.
  - apply Forall_fmap. rewrite Forall_forall in Ha |- *. intros b Hb. apply Hi; [by left|by right|by apply Ha].
Qed.
Lemma StronglySorted_unmap {A B} (f : A → B) (S : relation B) l : StronglySorted S (f <$> l) → StronglySorted (λ a b, S (f a) (f b)) l.
Proof.
  induction l as [|a l IH]; [constructor|]. rewrite fmap_cons. intros [Hs Ha]%StronglySorted_inv. constructor; [by apply IH|].
  by rewrite Forall_fmap in Ha.
Qed.
Lemma StronglySorted_filter {A} (P : A → Prop) `{∀ a, Decision (P a)} (R : relation A) l :
  StronglySorted R l → StronglySorted R (filter P l).
Proof.
  induction 1 as [|a l Hs IH Ha]; [constructor|]. rewrite filter_cons. case_decide; [|done].
  constructor; [done|]. rewrite Forall_forall in Ha |- *. intros b [_ Hb]%list_elem_of_filter. by apply Ha.
Qed.

(** The sorted locations of a series are the sorted contexts of its block. *)
Lemma sorted_contexts (H K : list DecodedAdmissionV1) ps interval :
  StronglySorted earlier H → ps.*2 = K → (∀ a, a ∈ K → a ∈ H) →
  Forall (λ p, fl_append_sequence p.1 = dec_append_sequence p.2) ps →
  ∃ T, sort_recent (located_all ps) = location_of <$> T ∧ T ≡ₚ concat (contexts_at <$> ps) ∧
    merge_sort more_recent (filter (in_interval interval) (concat (contexts <$> K))) = unplaced <$> filter (selected interval) T.
Proof.
  intros HH HK Hin Hq. assert (sort_recent (located_all ps) ≡ₚ location_of <$> concat (contexts_at <$> ps)) as Hp
    by (unfold sort_recent; by rewrite merge_sort_Permutation, located_all_contexts).
  apply Permutation_map_inv in Hp as (T & ET & HT). change (sort_recent (located_all ps) = location_of <$> T) in ET.
  exists T. split; [done|]. split; [done|].
  assert (∀ t, t ∈ T → fl_append_sequence t.1.1 = dec_append_sequence t.1.2 ∧ t.1.2 ∈ H ∧ frame_observations t.1.2 !! t.2.1 = Some t.2.2) as Hm.
  { intros t Ht. rewrite <-HT in Ht. apply elem_of_contexts in Ht as [Ht Ho]. rewrite Forall_forall in Hq. split_and!; [by apply Hq| |done].
    apply Hin. rewrite <-HK. by apply list_elem_of_fmap_2. }
  assert (unplaced <$> filter (selected interval) T ≡ₚ filter (in_interval interval) (concat (contexts <$> K))) as HP.
  { rewrite <-HT, <-HK, <-unplaced_contexts. clear. induction (concat _) as [|t l IH]; [done|].
    rewrite fmap_cons, !filter_cons. change (selected interval t) with (in_interval interval (unplaced t)).
    repeat case_decide; try done. by rewrite fmap_cons, IH. }
  apply (StronglySorted_unique_strong more_recent); [|apply (StronglySorted_merge_sort more_recent)|..].
  - intros x y Hx Hy Hxy Hyx. rewrite merge_sort_Permutation, <-HP in Hx. apply list_elem_of_fmap in Hx as (t & -> & [_ Ht]%list_elem_of_filter).
    apply list_elem_of_fmap in Hy as (u & -> & [_ Hu]%list_elem_of_filter). destruct (Hm t Ht) as (_ & Hth & Hto), (Hm u Hu) as (_ & Huh & Huo).
    destruct (more_recent_same _ _ Hxy Hyx) as [Es En]. cbn in Es, En. destruct t as [[tl ta] [tn to]], u as [[ul ua] [un uo]].
    cbn in *. subst un. assert (ta = ua) as <- by (by eapply earlier_injective). unfold unplaced. cbn. congruence.
  - apply (StronglySorted_map _ (λ t u, recent_order (location_of t) (location_of u))).
    + intros t u [_ Ht]%list_elem_of_filter [_ Hu]%list_elem_of_filter. apply more_recent_located; [by apply Hm..].
    + apply StronglySorted_filter, StronglySorted_unmap. rewrite <-ET. apply (StronglySorted_merge_sort recent_order).
  - by rewrite merge_sort_Permutation.
Qed.

(** ** The whole query *)

(** What an answered item holds: an observation of the answered context, with
    its lineage. *)
Record answers (it : SegmentObservationQueryItemV1) (t : context) : Prop := {
  an_admission : qi_admission it = t.1;
  an_index : qi_observation_index it = Z.of_nat t.2.1;
  an_observation : item_observation it = Ok t.2.2;
  an_lineage : ∃ l, item_lineage it = Ok l ∧ dl_canonical_id l = observation_id t.2.2;
  an_entry : be_raw_order_key (qi_entry it) = raw_order_key t.2.2 ∧ be_series_id (qi_entry it) = owner t.1 ∧
             be_append_sequence (qi_entry it) = dec_append_sequence t.1 }.

Lemma block_absent H i : i ∉ (groups_of H).*1 → block_of H i = [].
Proof.
  intros Hi. apply block_of_other. intros a Ha E. apply Hi. unfold groups_of. rewrite <-list_fmap_compose.
  replace (fst ∘ (λ i, (i, block_of H i))) with (@id SeriesId) by done. rewrite list_fmap_id.
  apply elem_of_series_ids_of. by exists a.
Qed.

Section answer.
Context (store : StoreId) (sealed : SealedGeneration) (H : list DecodedAdmissionV1) (Hs : sealed_history store sealed H).
Let v := segment_view store sealed H.
Let bo := sl_blocks_offset (segment_layout H).
Let ro := sl_recent_offset (segment_layout H).

Lemma items_answer lo hi T :
  Forall (λ t : placed_context, placed_at (segment_bytes store sealed H) lo hi t.1 ∧ belongs store t.1.2 ∧
    frame_observations t.1.2 !! t.2.1 = Some t.2.2) T →
  Forall2 answers (item_at <$> T) (unplaced <$> T).
Proof using Type.
  induction 1 as [|[[l a] [n o]] T ([Hq Hi _ _ _ _] & Hb & Ho) HT IH]; [constructor|]. rewrite !fmap_cons. constructor; [|done].
  cbn [fst snd] in *. destruct (lineage_of store (l, a) n o Hb Ho) as (ln & Hl & Hid & _). cbn [snd] in Hl.
  split; try done.
  - unfold item_observation, index, item_at. cbn [qi_admission qi_observation_index fst snd unplaced]. rewrite Nat2Z.id.
    unfold frame_observations in Ho. by rewrite Ho.
  - exists ln. split; [|done]. unfold item_lineage, index, item_at. cbn [qi_admission qi_observation_index fst snd]. by rewrite Nat2Z.id, Hl.
Qed.

(** The entries of one group are a slice of the recent directory. *)
Lemma group_entries G1 i K G2 q :
  groups_of H = G1 ++ (i, K) :: G2 → sq_series_id q = i →
  let off := bo + len (flat (concat G1.*2)) in
  query_observations_v1 v q =
    let entries := observation_entry <$> sort_recent (located_all (locate i off 0 K)) in
    let answer items is_truncated := mkQueryResult i (sq_interval q) (sq_limit q) items is_truncated in
    if decide (entries = []) then Ok (answer [] false)
    else let! ' (items, is_truncated) := query_entries v q entries [] [] in Ok (answer items is_truncated).
Proof using Hs.
  intros HG Hq. cbv zeta. pose proof (gr_sorted _ _ (sealed_grouping store sealed H Hs)) as Hsorted.
  assert (sg_series v = series_directory bo ro (groups_of H)) as Es by done.
  assert (sg_series v !! length G1 = Some (mkSeriesEntry i (bo + len (flat (concat G1.*2))) (len (flat K)) (len K) (obs_count K)
    (ro + 96 * obs_count (concat G1.*2)) (96 * obs_count K))) as El by (rewrite Es, HG; apply directory_lookup).
  unfold query_observations_v1. cbv zeta. rewrite Hq.
  pose proof (binary_search_found se_series_id id_lt (sg_series v) ltac:(rewrite Es, directory_ids; exact Hsorted) _ _ El) as Hb.
  cbn [se_series_id] in Hb. rewrite Hb, El.
  cbn [ok_or se_recent_offset se_observation_count se_recent_length].
  change (in_recent_directory_offset (sg_inspection v)) with ro. pose proof (obs_count_nonneg (concat G1.*2)) as H0. pose proof (obs_count_nonneg K) as H1.
  unfold checked_sub. rewrite decide_True by lia. cbn [ok_or].
  replace (ro + 96 * obs_count (concat G1.*2) - ro) with (obs_count (concat G1.*2) * 96) by lia.
  unfold SEGMENT_V1_OBSERVATION_ENTRY_LEN. rewrite Z.mod_mul, Z.div_mul by done. rewrite decide_False by tauto.
  destruct (region_bounds store sealed H Hs) as (E1 & E2 & E3 & E4 & ? & ? & ? & ? & ?).
  pose proof (members_observations store sealed H Hs) as Ho. rewrite HG, fmap_app, concat_app, fmap_cons in Ho. cbn [concat snd] in Ho.
  rewrite !obs_count_app in Ho. pose proof (obs_count_nonneg (concat G2.*2)).
  rewrite checked_mul_ok by (unfold usize_max, u64_max; lia). cbn [ok_or]. rewrite decide_False by lia.
  rewrite checked_add_ok by (unfold usize_max, u64_max; lia). cbn [ok_or].
  destruct (recent_split bo G1 i K G2) as (P & S & ER & HP). rewrite <-HG in ER.
  assert (sg_observations v = (observation_entry <$> P) ++
    (observation_entry <$> sort_recent (located_all (locate i (bo + len (flat (concat G1.*2))) 0 K))) ++ (observation_entry <$> S)) as ->
    by (unfold v, segment_view, segment_observations; cbn [sg_observations]; fold bo; by rewrite ER, !fmap_app).
  assert (∀ A B (f : A → B) (l : list A), len (f <$> l) = len l) as Hlf by (intros; unfold len; by rewrite length_fmap).
  set (xs := sort_recent _). assert (len xs = obs_count K) as Hxs
    by (unfold xs, sort_recent; by rewrite (len_permutation _ _ (merge_sort_Permutation _ _)), len_located_all, locate_snd).
  rewrite decide_True by (rewrite !len_app, !Hlf; pose proof (len_nonneg S); lia).
  replace (take _ (drop _ _)) with (observation_entry <$> xs); [done|]. symmetry.
  rewrite drop_app_length' by (rewrite length_fmap; unfold len in HP; lia).
  apply take_app_length'. rewrite length_fmap. unfold len in Hxs. lia.
Qed.

Lemma group_block G1 j K G2 : groups_of H = G1 ++ (j, K) :: G2 → block_of H j = K.
Proof using Type.
  intros HG. assert ((j, K) ∈ groups_of H) as Hin by (rewrite HG; apply elem_of_app; right; by left).
  unfold groups_of in Hin. by apply list_elem_of_fmap in Hin as (j' & [= -> ->] & _).
Qed.

(** The located contexts of one group, in the order of its entries. *)
Lemma group_contexts G1 j K G2 interval :
  groups_of H = G1 ++ (j, K) :: G2 →
  ∃ T, sort_recent (located_all (locate j (bo + len (flat (concat G1.*2))) 0 K)) = location_of <$> T ∧
    recent_contexts H j interval = unplaced <$> filter (selected interval) T ∧
    ∃ lo hi ps, ps.*1 = segment_appends H ∧ ps.*2 = H ∧ Forall (placed_at (segment_bytes store sealed H) lo hi) ps ∧
      0 ≤ lo ∧ hi ≤ len (segment_bytes store sealed H) ∧
      Forall (λ t : placed_context, t.1 ∈ ps ∧ owner t.1.2 = j ∧ frame_observations t.1.2 !! t.2.1 = Some t.2.2) T.
Proof using Hs.
  intros HG. set (pK := locate j _ 0 K). pose proof (group_block G1 j K G2 HG) as HK.
  destruct (region_frames store sealed H Hs) as (ps & Hps & F1 & F2 & Hpl).
  destruct (region_bounds store sealed H Hs) as (E1 & E2 & E3 & E4 & ? & ? & ? & ? & ?).
  assert (∀ p, p ∈ pK → p ∈ ps) as Hsub.
  { intros p Hp. rewrite Hps. fold bo. destruct (frames_split bo G1 j K G2) as (P & S & E). rewrite HG, E. rewrite !elem_of_app. tauto. }
  destruct (sorted_contexts H K pK interval) as (T & ET & HT & Hans).
  { by eapply history_earlier. }
  { apply locate_snd. }
  { intros a Ha. rewrite <-HK in Ha. apply list_elem_of_filter in Ha as [_ Ha]. done. }
  { apply Forall_forall. intros p Hp%Hsub. rewrite Forall_forall in Hpl. by destruct (Hpl p Hp). }
  exists T. split; [done|]. split; [unfold recent_contexts; by rewrite HK|]. eexists _, _, ps. split_and!; [done|done|exact Hpl|..].
  - lia.
  - rewrite region_length, E4, (members_flat store sealed) by done. lia.
  - apply Forall_forall. intros t Ht. rewrite HT in Ht. apply elem_of_contexts in Ht as [Ht Ho]. split_and!; [by apply Hsub| |done].
    assert (t.1.2 ∈ K) as Hin by (rewrite <-(locate_snd j (bo + len (flat (concat G1.*2))) 0 K); by apply list_elem_of_fmap_2).
    rewrite <-HK in Hin. by apply list_elem_of_filter in Hin as [? _].
Qed.

Lemma query_answer i interval limit :
  0 < limit →
  ∃ items,
    query_observations_v1 v (mkQuery i interval limit) =
      Ok (mkQueryResult i interval limit items (bool_decide (limit < len (recent_contexts H i interval)))) ∧
    Forall2 answers items (take (Z.to_nat limit) (recent_contexts H i interval)).
Proof using Hs.
  intros Hl. destruct (decide (i ∈ (groups_of H).*1)) as [Hi|Hi].
  - apply list_elem_of_fmap in Hi as ([j K] & -> & Hin). apply list_elem_of_split in Hin as (G1 & G2 & HG). cbn [fst].
    pose proof (group_entries G1 j K G2 (mkQuery j interval limit) HG eq_refl) as ->. cbv zeta. cbn [sq_interval sq_limit].
    set (pK := locate j _ 0 K). destruct (group_contexts G1 j K G2 interval HG) as (T & ET & Hans & lo & hi & ps & F1 & F2 & Hpl & Hlo & Hhi & HT).
    fold pK in ET. rewrite ET, Hans.
    assert (query_entries v (mkQuery j interval limit) (observation_entry <$> (location_of <$> T)) [] [] =
      Ok (item_at <$> take (Z.to_nat limit) (filter (selected interval) T), bool_decide (limit < len (filter (selected interval) T)))) as Hqe.
    { pose proof (query_entries_ok store sealed H Hs ps lo hi F1 F2 Hpl Hlo Hhi (mkQuery j interval limit) T [] []) as Hqe.
      cbn [sq_series_id sq_limit sq_interval app] in Hqe. change (len []) with 0 in Hqe. rewrite Z.sub_0_r in Hqe.
      apply Hqe; [|lia|constructor]. exact HT. }
    rewrite Hqe. eexists. split.
    + assert (len (unplaced <$> filter (selected interval) T) = len (filter (selected interval) T)) as -> by (unfold len; by rewrite length_fmap).
      destruct T as [|t T]; [|by rewrite decide_False]. rewrite filter_nil, take_nil, bool_decide_eq_false_2; [done|].
      change (len []) with 0. lia.
    + rewrite <-fmap_take. apply (items_answer lo hi), Forall_take, Forall_forall. intros t [_ Ht]%list_elem_of_filter.
      rewrite Forall_forall in HT. destruct (HT t Ht) as (Hp & _ & Ho). destruct (placed_in store sealed H Hs ps lo hi F2 Hpl _ Hp) as (? & ? & _).
      done.
  - exists []. unfold query_observations_v1. cbv zeta. cbn [sq_series_id sq_interval sq_limit].
    rewrite binary_search_absent.
    + assert (recent_contexts H i interval = []) as -> by (unfold recent_contexts; by rewrite block_absent).
      split; [|by rewrite take_nil]. rewrite bool_decide_eq_false_2; [done|]. change (len []) with 0. lia.
    + intros e He E. apply Hi. rewrite <-(directory_ids bo ro (groups_of H)), <-E. by apply list_elem_of_fmap_2.
Qed.
End answer.

(** ** Properties *)

(** C12: A query of a parsed segment answers exactly the history: it never finds
    the segment inconsistent, its items are the most recent observations of the
    series whose effective time the interval holds, most recent first, at most
    the limit of them, each with its own admission and lineage, and it says it is
    truncated exactly when the history holds more. *)
Theorem segment_query_exact bytes store v i interval limit q :
  parse_segment_v1 bytes store = Ok v → 0 ≤ limit → query_new i interval limit = Ok q →
  ∃ sealed H items, sealed_history store sealed H ∧ bytes = segment_bytes store sealed H ∧
    query_observations_v1 v q =
      Ok (mkQueryResult i interval limit items (bool_decide (limit < len (recent_contexts H i interval)))) ∧
    Forall2 answers items (take (Z.to_nat limit) (recent_contexts H i interval)).
Proof.
  intros (sealed & H & Hs & -> & ->)%parse_segment_sound Hl Hq. unfold query_new in Hq. rewrite guard_Ok in Hq.
  destruct Hq as [G [= <-]]. destruct (query_answer store sealed H Hs i interval limit) as (items & ? & ?); [lia|].
  by exists sealed, H, items.
Qed.

Definition sample_view : SegmentV1 :=
  match parse_segment_v1 (ps_bytes sample_segment) sample_segment_store with
  | Ok v => v
  | Err _ => mkSegment [] (ps_inspection sample_segment) [] [] []
  end.
Definition sample_query : SegmentObservationQueryV1 := mkQuery (sample_id 1) None 1.
Lemma sample_parses : parse_segment_v1 (ps_bytes sample_segment) sample_segment_store = Ok sample_view.
Proof. by vm_compute. Qed.

Lemma segment_query_exact_witness :
  (λ r, (length (qr_items r), qr_is_truncated r)) <$>
    (match query_observations_v1 sample_view sample_query with Ok r => Some r | Err _ => None end) = Some (1%nat, true) ∧
  ∃ sealed H items, sealed_history sample_segment_store sealed H ∧
    ps_bytes sample_segment = segment_bytes sample_segment_store sealed H ∧
    query_observations_v1 sample_view sample_query =
      Ok (mkQueryResult (sample_id 1) None 1 items (bool_decide (1 < len (recent_contexts H (sample_id 1) None)))) ∧
    Forall2 answers items (take (Z.to_nat 1) (recent_contexts H (sample_id 1) None)).
Proof.
  split; [by vm_compute|].
  apply (segment_query_exact (ps_bytes sample_segment) sample_segment_store sample_view (sample_id 1) None 1 sample_query);
    [exact sample_parses|done|done].
Defined.

(** C34: The append directory of a parsed segment is the history: its [n]-th entry
    names the series and the sequence of the [n]-th admission, its frame bytes are
    the frame of that admission, and decoding it returns the admission; an entry
    of another segment is refused. *)
Theorem segment_frames_exact bytes store v :
  parse_segment_v1 bytes store = Ok v →
  ∃ sealed H, sealed_history store sealed H ∧ bytes = segment_bytes store sealed H ∧
    Forall2 (λ e a, ae_append_sequence e = dec_append_sequence a ∧ ae_series_id e = owner a ∧
      segment_frame_bytes v e = Ok (wire a) ∧ segment_decode_frame v e = Ok a) (sg_appends v) H ∧
    ∀ e, e ∉ sg_appends v → segment_decode_frame v e = Err SegInvalidSegment.
Proof.
  intros (sealed & H & Hs & -> & ->)%parse_segment_sound. exists sealed, H. split; [done|]. split; [done|].
  split; [|intros e He; unfold segment_decode_frame, segment_frame_bytes; by rewrite decide_True].
  destruct (region_frames store sealed H Hs) as (ps & _ & F1 & F2 & Hpl). pose proof (region_length store sealed H Hs) as Hl.
  destruct (region_bounds store sealed H Hs) as (E1 & E2 & E3 & E4 & ? & ? & ? & ? & ?). pose proof (members_flat store sealed H Hs) as Mf.
  assert (Forall2 (λ l a, ∃ p, p ∈ ps ∧ p.1 = l ∧ p.2 = a) ps.*1 ps.*2) as Hps.
  { apply Forall2_fmap_2, Forall_Forall2_diag, Forall_forall. intros p Hp. by exists p. }
  rewrite F1, F2 in Hps. change (sg_appends (segment_view store sealed H)) with (append_entry <$> segment_appends H). apply Forall2_fmap_l.
  eapply Forall2_impl; [exact Hps|]. intros l a (p & Hp & <- & <-).
  destruct (placed_in store sealed H Hs ps _ _ F2 Hpl p Hp) as (Hq & Hb & _). pose proof Hq as [? ? _ _ _ _].
  assert (segment_frame_bytes (segment_view store sealed H) (append_entry p.1) = Ok (wire p.2)) as Hf.
  { unfold segment_frame_bytes. rewrite decide_False.
    - unfold segment_view. cbn [sg_bytes ae_frame_offset ae_frame_length append_entry].
      rewrite (checked_slice_placed _ ltac:(rewrite Hl; unfold usize_max, u64_max; lia) (sl_blocks_offset (segment_layout H))); [done| |lia].
      eapply placed_at_mono; [done| |exact Hq]. rewrite Hl, Mf. lia.
    - intros N. apply N. unfold segment_view. cbn [sg_appends]. rewrite <-F1. by do 2 apply list_elem_of_fmap_2. }
  split_and!; try done. unfold segment_decode_frame. rewrite Hf. by rewrite (belongs_decodes store).
Qed.

Lemma segment_frames_exact_witness :
  parse_segment_v1 (ps_bytes sample_segment) sample_segment_store = Ok sample_view ∧
  ∃ sealed H, sealed_history sample_segment_store sealed H ∧
    ps_bytes sample_segment = segment_bytes sample_segment_store sealed H ∧
    Forall2 (λ e a, ae_append_sequence e = dec_append_sequence a ∧ ae_series_id e = owner a ∧
      segment_frame_bytes sample_view e = Ok (wire a) ∧ segment_decode_frame sample_view e = Ok a) (sg_appends sample_view) H ∧
    ∀ e, e ∉ sg_appends sample_view → segment_decode_frame sample_view e = Err SegInvalidSegment.
Proof. split; [exact sample_parses|]. apply (segment_frames_exact (ps_bytes sample_segment)). exact sample_parses. Defined.
