(* ===== verification/Manifest.v ===== *)
(** * Manifest records

    [och-store/src/manifest.rs], the values: the errors of the manifest store
    and their sanitized classification, the store format marker, the manifest
    record and its fixed 160-byte codec. *)

From Stdlib Require Import Strings.String.
From S2P Require Import Prelude Bytes Identity Wire Layout Crc Fields Registry Journal Generation Commit Retry RetryCodec.
From S2P Require Import Recovery Disk Active Segment SegmentWire.

(** ** Artifacts and bounds *)

Definition STORE_LOCK_FILE_NAME : list byte := list_byte_of_string "store-v1.lock".
Definition STORE_FORMAT_FILE_NAME : list byte := list_byte_of_string "store-format-v1.och".
Definition STORE_FORMAT_STAGING_FILE_NAME : list byte := list_byte_of_string "store-format-v1.staging".
Definition STORE_FORMAT_MAGIC : list byte := list_byte_of_string "OCHFMT01".
Definition STORE_FORMAT_VERSION : Z := 1.
Definition STORE_FORMAT_LEN : Z := 32.
Definition MANIFEST_SLOT_NAMES : list (list byte) :=
  list_byte_of_string <$> ["manifest-v1-slot-0.och"; "manifest-v1-slot-1.och"]%string.
Definition REGISTRY_SLOT_NAMES : list (list byte) :=
  list_byte_of_string <$> ["series-registry-v1-slot-0.och"; "series-registry-v1-slot-1.och"; "series-registry-v1-slot-2.och"]%string.
Definition RETRY_SLOT_NAMES : list (list byte) :=
  list_byte_of_string <$> ["retry-state-v1-slot-0.och"; "retry-state-v1-slot-1.och"; "retry-state-v1-slot-2.och"]%string.
Definition MANIFEST_STAGING_FILE_NAME : list byte := list_byte_of_string "manifest-v1.staging".
Definition REGISTRY_STAGING_FILE_NAME : list byte := list_byte_of_string "series-registry-v1.staging".
Definition RETRY_STAGING_FILE_NAME : list byte := list_byte_of_string "retry-state-v1.staging".
Definition CATALOG_SLOT_NAMES : list (list byte) :=
  list_byte_of_string <$> ["generation-catalog-v1-slot-0.och"; "generation-catalog-v1-slot-1.och"; "generation-catalog-v1-slot-2.och"]%string.
Definition GENERATION_CATALOG_STAGING_FILE_NAME : list byte := list_byte_of_string "generation-catalog-v1.staging".
Definition SEALED_JOURNAL_STAGING_FILE_NAME : list byte := list_byte_of_string "sealed-journal-v1.staging".
Definition ROTATION_INTENT_FILE_NAME : list byte := list_byte_of_string "journal-rotation-v1.intent".
Definition RECOVERY_STAGING_FILE_NAME : list byte := list_byte_of_string "recovery-state-v1.staging".
Definition MAX_PERSISTED_REGISTRY_SERIES : Z := 4096.
Definition MAX_PERSISTED_REGISTRY_REVISIONS : Z := 16384.
Definition MAX_REGISTRY_SNAPSHOT_BYTES : Z := 64 * 1024 * 1024.
Definition MANIFEST_MAGIC : list byte := list_byte_of_string "OCHMAN01".
Definition MANIFEST_VERSION : Z := 1.
Definition MANIFEST_LEN : Z := 160.

(** ** Errors *)

Inductive ManifestStoreError :=
| MseInvalidOptions | MseUnsupportedStoreFormat | MseAlreadyOpen | MseInvalidInventory | MseInvalidManifest
| MseInvalidRegistry | MseInvalidRetry | MseInvalidGeneration | MseGenerationCatalogFull | MseStoreMismatch
| MseHistoricalDeclarationMismatch | MseInterruptedPublication | MseFaulted | MseReopenRequired
| MseGenerationExhausted | MseModel (error : ModelError) | MseActive (error : ActiveJournalError)
| MseIo (evidence : ManifestIoEvidence) | MseStoragePressure (evidence : ManifestIoEvidence).

Inductive ManifestOpenClassification : Set :=
| OpenInvalidOptions | OpenUnsupportedFormat | OpenAlreadyOpen | OpenInvalidInventory | OpenCorruptAuthority
| OpenInterruptedPublication | OpenCapacity | OpenFaulted | OpenReopenRequired | OpenStoragePressure | OpenModel | OpenIo.

Definition open_classification (error : ManifestStoreError) : ManifestOpenClassification :=
  match error with
  | MseInvalidOptions => OpenInvalidOptions
  | MseUnsupportedStoreFormat => OpenUnsupportedFormat
  | MseAlreadyOpen | MseActive AlreadyOpen => OpenAlreadyOpen
  | MseInvalidInventory => OpenInvalidInventory
  | MseInterruptedPublication => OpenInterruptedPublication
  | MseGenerationCatalogFull | MseGenerationExhausted => OpenCapacity
  | MseFaulted | MseActive Faulted => OpenFaulted
  | MseReopenRequired | MseActive ReopenRequired => OpenReopenRequired
  | MseStoragePressure _ | MseActive (StoragePressure _) => OpenStoragePressure
  | MseModel _ => OpenModel
  | MseIo _ | MseActive (Io _) => OpenIo
  | MseInvalidManifest | MseInvalidRegistry | MseInvalidRetry | MseInvalidGeneration | MseStoreMismatch
  | MseHistoricalDeclarationMismatch | MseActive _ => OpenCorruptAuthority
  end.

Definition mio_is_mutating (operation : ManifestIoOperation) : bool :=
  match operation with
  | MioCreateArtifact | MioWrite | MioSyncArtifact | MioPublish | MioRemove | MioSyncDirectory => true
  | _ => false
  end.
Definition classify_manifest_io (operation : ManifestIoOperation) (error : IoError) : ManifestStoreError :=
  let evidence := mkManifestIo operation (io_kind error) (io_raw_os_error error) in
  if mio_is_mutating operation && is_storage_pressure (io_kind error) then MseStoragePressure evidence
  else MseIo evidence.

(** [RegistryPersistenceOptions::new]. *)
Definition registry_options_new (limits : SeriesRegistryLimits) : result ManifestStoreError SeriesRegistryLimits :=
  if decide (max_series limits > MAX_PERSISTED_REGISTRY_SERIES ∨
             max_declaration_revisions limits > MAX_PERSISTED_REGISTRY_REVISIONS)
  then Err MseInvalidOptions
  else Ok limits.

Definition map_retry_codec (error : RetryStateCodecError) : ManifestStoreError :=
  match error with RetryInvalid | RetryOptionsMismatch => MseInvalidRetry | RetryStoreMismatch => MseStoreMismatch end.
Definition map_recovery_codec (error : RecoveryCodecError) : ManifestStoreError :=
  match error with RecInvalid => MseInvalidManifest | RecStoreMismatch => MseStoreMismatch end.

(** ** The store format marker *)

Definition encode_store_format_marker (store_id : StoreId) : list byte :=
  let bytes := zeros (Z.to_nat STORE_FORMAT_LEN) in
  let bytes := copy_at 0 STORE_FORMAT_MAGIC bytes in
  let bytes := copy_at 8 (be_bytes 2 STORE_FORMAT_VERSION) bytes in
  let bytes := copy_at 10 (be_bytes 2 32) bytes in
  let bytes := copy_at 12 (into_bytes store_id) bytes in
  copy_at 28 (be_bytes 4 (crc32c (slice 0 28 bytes))) bytes.

Definition decode_store_format_marker (bytes : list byte) (expected_store : StoreId) : result ManifestStoreError () :=
  if decide (len bytes ≠ STORE_FORMAT_LEN ∨ slice 0 8 bytes ≠ STORE_FORMAT_MAGIC ∨
             u16_at 8 bytes ≠ STORE_FORMAT_VERSION ∨ u16_at 10 bytes ≠ 32 ∨
             crc32c (slice 0 28 bytes) ≠ u32_at 28 bytes ∨
             from_bytes (slice 12 28 bytes) ≠ Ok expected_store)
  then Err MseUnsupportedStoreFormat
  else Ok tt.

(** ** Manifest records *)

Record RegistryReference := mkRegistryReference {
  rg_slot : Z; rg_generation : Z; rg_length : Z; rg_checksum : Z }.
#[export] Instance RegistryReference_eq_dec : EqDecision RegistryReference.
Proof. solve_decision. Defined.
#[export] Instance wf_registry_reference : Wf RegistryReference := λ r,
  is_u8 (rg_slot r) && is_u64 (rg_generation r) && is_u64 (rg_length r) && is_u32 (rg_checksum r).
#[export] Instance wf_retry_artifact : Wf RetryArtifactReference := λ r,
  wf (ra_public r) && is_u64 (ra_length r) && is_u32 (ra_checksum r).
#[export] Instance wf_recovery_reference : Wf RecoveryReference := λ r, is_u8 (rr_slot r) && is_u32 (rr_checksum r).

Record ManifestRecord := mkManifest {
  mf_generation : Z;
  mf_registry : RegistryReference;
  mf_cutoff : DurableCutoff;
  mf_retry : RetryArtifactReference;
  mf_recovery : option RecoveryReference;
  mf_sequence_floor : Z;
  mf_catalog : option GenerationCatalogReference }.
#[export] Instance ManifestRecord_eq_dec : EqDecision ManifestRecord.
Proof. solve_decision. Defined.
#[export] Instance wf_manifest : Wf ManifestRecord := λ r,
  is_u64 (mf_generation r) && wf (mf_registry r) && wf (mf_cutoff r) && wf (mf_retry r) && wf (mf_recovery r) &&
  is_u64 (mf_sequence_floor r) && wf (mf_catalog r).
Definition mf_store_id (r : ManifestRecord) : StoreId := journal_store_id (cut_journal (mf_cutoff r)).
Definition mf_journal (r : ManifestRecord) : Z := journal_generation (cut_journal (mf_cutoff r)).

(** [ManifestRecord::commit]. *)
Definition manifest_commit (r : ManifestRecord) : ManifestCommit :=
  mkCommit (mf_generation r) (rg_generation (mf_registry r)) (rg_slot (mf_registry r)) (mf_cutoff r)
    (ra_public (mf_retry r)) (mf_sequence_floor r) (mf_catalog r).

Definition genesis_placeholder (store_id : StoreId) : DurableCutoff :=
  mkCutoff (mkJournalIdentity store_id ACTIVE_JOURNAL_GENERATION) 1 0 JOURNAL_V1_HEADER_LEN.

(** ** The codec *)

(** The optional references, left zero when absent. *)
Definition put_recovery (o : option RecoveryReference) (bytes : list byte) : list byte :=
  match o with
  | Some recovery =>
    copy_at 120 (be_bytes 4 (rr_checksum recovery))
      (copy_at 117 (be_bytes 1 (rr_slot recovery)) (copy_at 116 (be_bytes 1 1) bytes))
  | None => bytes
  end.
Definition put_catalog (o : option GenerationCatalogReference) (bytes : list byte) : list byte :=
  match o with
  | Some catalog =>
    copy_at 152 (be_bytes 4 (cat_checksum catalog)) (copy_at 144 (be_bytes 8 (cat_length catalog))
      (copy_at 136 (be_bytes 8 (cat_generation catalog)) (copy_at 132 (be_bytes 1 (cat_slot catalog)) bytes)))
  | None => bytes
  end.
Definition encode_manifest (record : ManifestRecord) : list byte :=
  let bytes := zeros (Z.to_nat MANIFEST_LEN) in
  let bytes := copy_at 0 MANIFEST_MAGIC bytes in
  let bytes := copy_at 8 (be_bytes 2 MANIFEST_VERSION) bytes in
  let bytes := copy_at 10 (be_bytes 2 MANIFEST_LEN) bytes in
  let bytes := copy_at 12 (into_bytes (mf_store_id record)) bytes in
  let bytes := copy_at 28 (be_bytes 8 (mf_generation record)) bytes in
  let bytes := copy_at 36 (be_bytes 8 (mf_journal record)) bytes in
  let bytes := copy_at 44 (be_bytes 8 (cut_checkpoint_generation (mf_cutoff record))) bytes in
  let bytes := copy_at 52 (be_bytes 8 (cut_append_sequence (mf_cutoff record))) bytes in
  let bytes := copy_at 60 (be_bytes 8 (cut_end_offset (mf_cutoff record))) bytes in
  let bytes := copy_at 68 (be_bytes 1 (rg_slot (mf_registry record))) bytes in
  let bytes := copy_at 72 (be_bytes 8 (rg_generation (mf_registry record))) bytes in
  let bytes := copy_at 80 (be_bytes 8 (rg_length (mf_registry record))) bytes in
  let bytes := copy_at 88 (be_bytes 4 (rg_checksum (mf_registry record))) bytes in
  let bytes := copy_at 92 (be_bytes 1 (rs_slot (ra_public (mf_retry record)))) bytes in
  let bytes := copy_at 96 (be_bytes 8 (rs_generation (ra_public (mf_retry record)))) bytes in
  let bytes := copy_at 104 (be_bytes 8 (ra_length (mf_retry record))) bytes in
  let bytes := copy_at 112 (be_bytes 4 (ra_checksum (mf_retry record))) bytes in
  let bytes := put_recovery (mf_recovery record) bytes in
  let bytes := copy_at 124 (be_bytes 8 (mf_sequence_floor record)) bytes in
  let bytes := put_catalog (mf_catalog record) bytes in
  copy_at 156 (be_bytes 4 (crc32c (slice 0 156 bytes))) bytes.

Definition u8_at (start : Z) (bytes : list byte) : Z := from_be (slice start (start + 1) bytes).

(** The two optional references. *)
Definition decode_recovery_reference (bytes : list byte) : result ManifestStoreError (option RecoveryReference) :=
  if decide (u8_at 116 bytes = 0 ∧ all_zero (slice 117 124 bytes)) then Ok None
  else if decide (u8_at 116 bytes = 1 ∧ u8_at 117 bytes < 3 ∧ all_zero (slice 118 120 bytes))
  then Ok (Some (mkRecoveryReference (u8_at 117 bytes) (u32_at 120 bytes)))
  else Err MseInvalidManifest.
Definition decode_catalog_reference (bytes : list byte)
  : result ManifestStoreError (option GenerationCatalogReference) :=
  if decide (all_zero (slice 132 156 bytes)) then Ok None
  else
    let reference := mkCatalogReference (u8_at 132 bytes) (u64_at 136 bytes) (u64_at 144 bytes) (u32_at 152 bytes) in
    if decide (cat_slot reference >= 3 ∨ cat_generation reference = 0 ∨ cat_length reference = 0 ∨
               cat_length reference > MAX_GENERATION_CATALOG_BYTES)
    then Err MseInvalidManifest
    else Ok (Some reference).

Definition decode_manifest (bytes : list byte) (store_id : StoreId) : result ManifestStoreError ManifestRecord :=
  if decide (len bytes ≠ MANIFEST_LEN ∨ slice 0 8 bytes ≠ MANIFEST_MAGIC ∨ u16_at 8 bytes ≠ MANIFEST_VERSION ∨
             u16_at 10 bytes ≠ MANIFEST_LEN ∨ ¬ all_zero (slice 69 72 bytes) ∨ ¬ all_zero (slice 93 96 bytes) ∨
             ¬ all_zero (slice 133 136 bytes) ∨ crc32c (slice 0 156 bytes) ≠ u32_at 156 bytes)
  then Err MseInvalidManifest
  else
    let retry := mkRetryArtifact (mkRetryReference (u8_at 92 bytes) (u64_at 96 bytes)) (u64_at 104 bytes)
      (u32_at 112 bytes) in
    let! recovery := decode_recovery_reference bytes in
    if decide (rs_slot (ra_public retry) >= 3 ∨ rs_generation (ra_public retry) = 0 ∨ ra_length retry = 0 ∨
               ra_length retry > MAX_RETRY_STATE_BYTES)
    then Err MseInvalidManifest
    else
      let sequence_floor := u64_at 124 bytes in
      let! catalog := decode_catalog_reference bytes in
      let! decoded_store := map_err (λ _, MseInvalidManifest) (from_bytes (slice 12 28 bytes)) in
      if decide (decoded_store ≠ store_id) then Err MseStoreMismatch
      else
        let generation := u64_at 28 bytes in
        let journal_generation := u64_at 36 bytes in
        let checkpoint_generation := u64_at 44 bytes in
        let append_sequence := u64_at 52 bytes in
        let end_offset := u64_at 60 bytes in
        let registry := mkRegistryReference (u8_at 68 bytes) (u64_at 72 bytes) (u64_at 80 bytes) (u32_at 88 bytes) in
        if decide (generation = 0 ∨ journal_generation = 0 ∨
                   (journal_generation = ACTIVE_JOURNAL_GENERATION ∧ (sequence_floor ≠ 0 ∨ catalog ≠ None)) ∨
                   (journal_generation > ACTIVE_JOURNAL_GENERATION ∧ (sequence_floor = 0 ∨ catalog = None)) ∨
                   checkpoint_generation = 0 ∨ rg_slot registry >= 3 ∨ rg_generation registry = 0 ∨
                   rg_generation registry > generation ∨ rg_length registry = 0 ∨
                   rg_length registry > MAX_REGISTRY_SNAPSHOT_BYTES ∨
                   rs_generation (ra_public retry) > generation ∨ append_sequence < sequence_floor ∨
                   bool_decide (append_sequence = sequence_floor) ≠ bool_decide (end_offset = JOURNAL_V1_HEADER_LEN))
        then Err MseInvalidManifest
        else Ok (mkManifest generation registry
          (mkCutoff (mkJournalIdentity store_id journal_generation) checkpoint_generation append_sequence end_offset)
          retry recovery sequence_floor catalog).

(** ** Lemmas: the layout *)

(** What the fields of a stored record satisfy beyond their widths. *)
Record manifest_contract (r : ManifestRecord) : Prop := {
  mk_generation : mf_generation r ≠ 0;
  mk_journal : mf_journal r ≠ 0;
  mk_checkpoint : cut_checkpoint_generation (mf_cutoff r) ≠ 0;
  mk_first : mf_journal r = ACTIVE_JOURNAL_GENERATION → mf_sequence_floor r = 0 ∧ mf_catalog r = None;
  mk_later : mf_journal r > ACTIVE_JOURNAL_GENERATION → mf_sequence_floor r ≠ 0 ∧ mf_catalog r ≠ None;
  mk_floor : mf_sequence_floor r ≤ cut_append_sequence (mf_cutoff r);
  mk_empty : cut_append_sequence (mf_cutoff r) = mf_sequence_floor r ↔ cut_end_offset (mf_cutoff r) = JOURNAL_V1_HEADER_LEN;
  mk_registry_slot : rg_slot (mf_registry r) < 3;
  mk_registry_generation : rg_generation (mf_registry r) ≠ 0 ∧ rg_generation (mf_registry r) ≤ mf_generation r;
  mk_registry_length : rg_length (mf_registry r) ≠ 0 ∧ rg_length (mf_registry r) ≤ MAX_REGISTRY_SNAPSHOT_BYTES;
  mk_retry_slot : rs_slot (ra_public (mf_retry r)) < 3;
  mk_retry_generation :
    rs_generation (ra_public (mf_retry r)) ≠ 0 ∧ rs_generation (ra_public (mf_retry r)) ≤ mf_generation r;
  mk_retry_length : ra_length (mf_retry r) ≠ 0 ∧ ra_length (mf_retry r) ≤ MAX_RETRY_STATE_BYTES;
  mk_recovery : ∀ x, mf_recovery r = Some x → rr_slot x < 3;
  mk_catalog : ∀ x, mf_catalog r = Some x →
    cat_slot x < 3 ∧ cat_generation x ≠ 0 ∧ cat_length x ≠ 0 ∧ cat_length x ≤ MAX_GENERATION_CATALOG_BYTES }.

Definition recovery_fields (recovery : option RecoveryReference) : list (list byte) :=
  match recovery with
  | Some r => [be_bytes 1 1; be_bytes 1 (rr_slot r); zeros 2; be_bytes 4 (rr_checksum r)]
  | None => [zeros 8]
  end.
Definition catalog_fields (catalog : option GenerationCatalogReference) : list (list byte) :=
  match catalog with
  | Some c => [be_bytes 1 (cat_slot c); zeros 3; be_bytes 8 (cat_generation c); be_bytes 8 (cat_length c);
               be_bytes 4 (cat_checksum c)]
  | None => [zeros 24]
  end.
Definition manifest_fields (r : ManifestRecord) : list (list byte) :=
  [MANIFEST_MAGIC; be_bytes 2 MANIFEST_VERSION; be_bytes 2 MANIFEST_LEN; into_bytes (mf_store_id r);
   be_bytes 8 (mf_generation r); be_bytes 8 (mf_journal r); be_bytes 8 (cut_checkpoint_generation (mf_cutoff r));
   be_bytes 8 (cut_append_sequence (mf_cutoff r)); be_bytes 8 (cut_end_offset (mf_cutoff r));
   be_bytes 1 (rg_slot (mf_registry r)); zeros 3; be_bytes 8 (rg_generation (mf_registry r));
   be_bytes 8 (rg_length (mf_registry r)); be_bytes 4 (rg_checksum (mf_registry r));
   be_bytes 1 (rs_slot (ra_public (mf_retry r))); zeros 3; be_bytes 8 (rs_generation (ra_public (mf_retry r)));
   be_bytes 8 (ra_length (mf_retry r)); be_bytes 4 (ra_checksum (mf_retry r));
   concat (recovery_fields (mf_recovery r)); be_bytes 8 (mf_sequence_floor r); concat (catalog_fields (mf_catalog r))].
Definition manifest_wire (r : ManifestRecord) : list byte :=
  concat (manifest_fields r) ++ be_bytes 4 (crc32c (concat (manifest_fields r))).

Lemma len_manifest_magic : len MANIFEST_MAGIC = 8.
Proof. done. Qed.
Lemma len_recovery_fields o : len (concat (recovery_fields o)) = 8.
Proof. destruct o; cbn [recovery_fields concat]; by autorewrite with len. Qed.
Lemma len_catalog_fields o : len (concat (catalog_fields o)) = 24.
Proof. destruct o; cbn [catalog_fields concat]; by autorewrite with len. Qed.
#[local] Hint Rewrite len_manifest_magic len_recovery_fields len_catalog_fields : len.

Lemma len_manifest_fields r : wf (mf_store_id r) → len (concat (manifest_fields r)) = 156.
Proof. intros Hs%len_into_bytes. unfold manifest_fields. cbn [concat]. autorewrite with len. rewrite Hs. lia. Qed.
Lemma len_manifest_wire r : wf (mf_store_id r) → len (manifest_wire r) = 160.
Proof. intros Hs. unfold manifest_wire. rewrite len_app, len_be_bytes, len_manifest_fields by done. done. Qed.

(** One more [copy_at], over a gap of zeros. *)
Lemma copy_at_gap gap a data pre n :
  a = len pre + gap → 0 ≤ gap → gap + len data ≤ n →
  copy_at a data (pre ++ zeros (Z.to_nat n)) =
    ((pre ++ zeros (Z.to_nat gap)) ++ data) ++ zeros (Z.to_nat (n - gap - len data)).
Proof.
  intros -> Hg Hn. rewrite copy_at_zeros by lia. rewrite !app_assoc. do 3 f_equal; [do 3 f_equal; lia|lia].
Qed.

Lemma put_recovery_layout o pre n :
  len pre = 116 → 8 ≤ n →
  put_recovery o (pre ++ zeros (Z.to_nat n)) = (pre ++ concat (recovery_fields o)) ++ zeros (Z.to_nat (n - 8)).
Proof.
  intros Hp Hn. destruct o as [r|]; cbn [put_recovery recovery_fields concat].
  - do 2 rewrite copy_at_next by (autorewrite with len; lia). rewrite (copy_at_gap 2) by (autorewrite with len; lia).
    autorewrite with len. rewrite !app_nil_r, <-!app_assoc. do 5 f_equal. f_equal. lia.
  - rewrite <-app_assoc, app_nil_r. f_equal. rewrite <-(zeros_split 8) by lia. do 2 f_equal. lia.
Qed.
Lemma put_catalog_layout o pre n :
  len pre = 132 → 24 ≤ n →
  put_catalog o (pre ++ zeros (Z.to_nat n)) = (pre ++ concat (catalog_fields o)) ++ zeros (Z.to_nat (n - 24)).
Proof.
  intros Hp Hn. destruct o as [c|]; cbn [put_catalog catalog_fields concat].
  - rewrite copy_at_next by (autorewrite with len; lia). rewrite (copy_at_gap 3) by (autorewrite with len; lia).
    do 2 rewrite copy_at_next by (autorewrite with len; lia).
    autorewrite with len. rewrite !app_nil_r, <-!app_assoc. do 6 f_equal. f_equal. lia.
  - rewrite <-app_assoc, app_nil_r. f_equal. rewrite <-(zeros_split 24) by lia. do 2 f_equal. lia.
Qed.

Lemma encode_manifest_layout r : wf (mf_store_id r) → encode_manifest r = manifest_wire r.
Proof.
  intros Hw. pose proof (len_into_bytes _ Hw) as Hs. pose proof (len_manifest_fields r Hw) as Hc.
  unfold encode_manifest, MANIFEST_LEN. cbv zeta. rewrite <-(app_nil_l (zeros (Z.to_nat 160))).
  rewrite copy_at_next by (rewrite ?len_manifest_magic; done || lia). rewrite app_nil_l, len_manifest_magic.
  do 2 fill. rewrite copy_at_next by (autorewrite with len; lia). rewrite Hs.
  do 6 (rewrite copy_at_next by (autorewrite with len; rewrite ?Hs; lia); rewrite len_be_bytes).
  rewrite (copy_at_gap 3) by (autorewrite with len; rewrite ?Hs; lia). rewrite len_be_bytes.
  do 3 (rewrite copy_at_next by (autorewrite with len; rewrite ?Hs; lia); rewrite len_be_bytes).
  rewrite (copy_at_gap 3) by (autorewrite with len; rewrite ?Hs; lia). rewrite len_be_bytes.
  do 2 (rewrite copy_at_next by (autorewrite with len; rewrite ?Hs; lia); rewrite len_be_bytes).
  rewrite put_recovery_layout by (autorewrite with len; rewrite ?Hs; lia).
  rewrite copy_at_next by (autorewrite with len; rewrite ?Hs; lia). rewrite len_be_bytes.
  rewrite put_catalog_layout by (autorewrite with len; rewrite ?Hs; lia).
  set (covered := (_ ++ concat (catalog_fields _))).
  assert (covered = concat (manifest_fields r)) as ->
    by (unfold covered, manifest_fields; cbn [concat]; by rewrite app_nil_r, <-!app_assoc).
  rewrite slice_app_0, copy_at_next by (rewrite ?len_be_bytes; done || lia).
  by rewrite len_be_bytes, app_nil_r.
Qed.

(** ** Lemmas: decoding *)

Section numbers.
Context (bytes : list byte).

Lemma be_at n a :
  0 ≤ a → a + Z.of_nat n ≤ len bytes →
  in_range 0 (256 ^ Z.of_nat n - 1) (from_be (slice a (a + Z.of_nat n) bytes)) ∧
  slice a (a + Z.of_nat n) bytes = be_bytes n (from_be (slice a (a + Z.of_nat n) bytes)).
Proof. intros Ha Hn. by apply from_be_slice. Qed.
Lemma u8_in a : 0 ≤ a → a + 1 ≤ len bytes → is_u8 (u8_at a bytes) ∧ slice a (a + 1) bytes = be_bytes 1 (u8_at a bytes).
Proof. apply (be_at 1). Qed.
Lemma u32_in a : 0 ≤ a → a + 4 ≤ len bytes → is_u32 (u32_at a bytes) ∧ slice a (a + 4) bytes = be_bytes 4 (u32_at a bytes).
Proof. apply (be_at 4). Qed.
Lemma u64_in a : 0 ≤ a → a + 8 ≤ len bytes → is_u64 (u64_at a bytes) ∧ slice a (a + 8) bytes = be_bytes 8 (u64_at a bytes).
Proof. apply (be_at 8). Qed.
Lemma u16_in a v : 0 ≤ a → a + 2 ≤ len bytes → u16_at a bytes = v → slice a (a + 2) bytes = be_bytes 2 v.
Proof. intros Ha Hl <-. by apply (be_at 2). Qed.
End numbers.

Ltac offsets_goal := cbv [Z.add Pos.add Pos.succ Z.of_nat Pos.of_succ_nat Pos.add_carry].
(** Reading back a number at its offset. *)
Lemma u8_back bytes a b v : slice a b bytes = be_bytes 1 v → is_u8 v → b = a + 1 → u8_at a bytes = v.
Proof. intros F Hv%in_range_spec ->. unfold u8_at. rewrite F. apply from_be_bytes_small. unfold u8_max in Hv. lia. Qed.
Lemma u32_back bytes a b v : slice a b bytes = be_bytes 4 v → is_u32 v → b = a + 4 → u32_at a bytes = v.
Proof. intros F Hv%in_range_spec ->. unfold u32_at. rewrite F. apply from_be_bytes_small. unfold u32_max in Hv. lia. Qed.
Lemma u64_back bytes a b v : slice a b bytes = be_bytes 8 v → is_u64 v → b = a + 8 → u64_at a bytes = v.
Proof. intros F Hv%in_range_spec ->. unfold u64_at. rewrite F. apply from_be_bytes_small. unfold u64_max in Hv. lia. Qed.
(** [numbers_back] rewrites every number read at the offset of a known field. *)
Ltac numbers_back :=
  repeat match goal with
  | F : slice ?a ?b ?l = be_bytes 1 ?v |- context [u8_at ?a ?l] => rewrite (u8_back l a b v F) by (assumption || done)
  | F : slice ?a ?b ?l = be_bytes 4 ?v |- context [u32_at ?a ?l] => rewrite (u32_back l a b v F) by (assumption || done)
  | F : slice ?a ?b ?l = be_bytes 8 ?v |- context [u64_at ?a ?l] => rewrite (u64_back l a b v F) by (assumption || done)
  end.

Lemma decode_recovery_reference_Ok bytes o :
  len bytes = 160 → decode_recovery_reference bytes = Ok o ↔
  (wf o ∧ (∀ x, o = Some x → rr_slot x < 3)) ∧ fields_at 116 (recovery_fields o) bytes.
Proof.
  intros Hl. unfold decode_recovery_reference. split.
  - destruct (u8_in bytes 116) as [_ F1]; [lia..|]. destruct (u8_in bytes 117) as [W2 F2]; [lia..|].
    destruct (u32_in bytes 120) as [W4 F4]; [lia..|].
    case_decide as C1; [intros [= <-]; destruct C1 as [C1 Hz%all_zero_slice]; [|lia..]|case_decide as C2; [|done]; intros [= <-]].
    + split; [done|]. rewrite C1 in F1. cbn [recovery_fields fields_at]. split; [|done].
      rewrite len_zeros. change (116 + Z.of_nat 8) with 124. rewrite <-(slice_join 116 117 124), Hz by lia. change 117 with (116 + 1). by rewrite F1.
    + destruct C2 as (C2 & C3 & Hz%all_zero_slice); [|lia..]. rewrite C2 in F1.
      split; [split; [change (Is_true (wf (mkRecoveryReference (u8_at 117 bytes) (u32_at 120 bytes)))); by wf_intro|intros x [= <-]; done]|].
      cbn [recovery_fields fields_at rr_slot rr_checksum]. autorewrite with len. offsets_goal. offsets F1. offsets F2. offsets F4. by rewrite F1, F2, F4, Hz.
  - intros [[Hw Hs] Hf]. destruct o as [r|]; cbn [recovery_fields fields_at] in Hf; autorewrite with len in Hf; offsets Hf.
    + change (Is_true (wf r)) in Hw. wf_split Hw. destruct Hf as (F1 & F2 & F3 & F4 & _).
      rewrite (u8_back bytes 116 117 1 F1) by done. numbers_back. specialize (Hs r eq_refl). rewrite decide_False by naive_solver.
      rewrite decide_True; [by destruct r|]. split_and!; [done|done|]. rewrite F3. done.
    + destruct Hf as [F _]. rewrite decide_True; [done|]. 
      assert (slice 116 117 bytes = zeros 1 ∧ slice 117 124 bytes = zeros 7) as [E1 E2].
      { rewrite <-(slice_join 116 117 124) in F by lia. change (zeros 8) with (zeros 1 ++ zeros 7) in F. apply app_inj_1 in F; [done|].
        pose proof (len_slice 116 117 bytes ltac:(lia) ltac:(lia)) as H. unfold len in H. cbn. lia. }
      split; [|by rewrite E2]. unfold u8_at. change (116 + 1) with 117. by rewrite E1.
Qed.

Lemma decode_catalog_reference_Ok bytes o :
  len bytes = 160 → all_zero (slice 133 136 bytes) → decode_catalog_reference bytes = Ok o ↔
  (wf o ∧ (∀ x, o = Some x →
     cat_slot x < 3 ∧ cat_generation x ≠ 0 ∧ cat_length x ≠ 0 ∧ cat_length x ≤ MAX_GENERATION_CATALOG_BYTES)) ∧
  fields_at 132 (catalog_fields o) bytes.
Proof.
  intros Hl Hz%all_zero_slice; [|lia..]. unfold decode_catalog_reference. split.
  - destruct (u8_in bytes 132) as [W1 F1]; [lia..|]. destruct (u64_in bytes 136) as [W3 F3]; [lia..|].
    destruct (u64_in bytes 144) as [W4 F4]; [lia..|]. destruct (u32_in bytes 152) as [W5 F5]; [lia..|].
    case_decide as C1; [intros [= <-]; apply all_zero_slice in C1; [|lia..]|cbv zeta; rewrite guard_Ok; intros [C2 [= <-]]].
    + split; [done|]. cbn [catalog_fields fields_at]. by rewrite len_zeros.
    + cbn in C2. split; [split; [change (Is_true (wf (mkCatalogReference (u8_at 132 bytes) (u64_at 136 bytes) (u64_at 144 bytes) (u32_at 152 bytes)))); by wf_intro|intros x [= <-]; cbn; lia]|].
      cbn [catalog_fields fields_at cat_slot cat_generation cat_length cat_checksum]. autorewrite with len. offsets_goal. offsets F1. offsets F3. offsets F4. offsets F5.
      by rewrite F1, F3, F4, F5, Hz.
  - intros [[Hw Hs] Hf]. destruct o as [r|]; cbn [catalog_fields fields_at] in Hf; autorewrite with len in Hf; offsets Hf.
    + change (Is_true (wf r)) in Hw. wf_split Hw. destruct Hf as (F1 & F2 & F3 & F4 & F5 & _). specialize (Hs r eq_refl).
      numbers_back. cbv zeta. destruct r as [s g l k]. cbn in *. rewrite decide_False, decide_False; [done|lia|].
      rewrite all_zero_slice by lia. intros E. rewrite <-(slice_join 132 136 156), <-(slice_join 136 144 156), F3 in E by lia.
      change (zeros (Z.to_nat (156 - 132))) with (zeros 4 ++ zeros 8 ++ zeros 12) in E.
      apply app_inj_1 in E as [_ E]; [|pose proof (len_slice 132 136 bytes ltac:(lia) ltac:(lia)) as Hn; unfold len in Hn; cbn; lia].
      apply app_inj_1 in E as [E _]; [|by rewrite length_be_bytes].
      apply (f_equal from_be) in E. assert (is_u64 g) as Hg%in_range_spec by assumption. unfold u64_max in Hg.
      rewrite from_be_bytes_small in E by lia. tauto.
    + destruct Hf as [F _]. rewrite decide_True; [done|]. by rewrite F.
Qed.

(** The fields of a manifest and its trailing checksum, in place. *)
Definition all_fields (r : ManifestRecord) : list (list byte) :=
  manifest_fields r ++ [be_bytes 4 (crc32c (concat (manifest_fields r)))].
Lemma manifest_wire_fields r bytes :
  wf (mf_store_id r) → len bytes = 160 → fields_at 0 (all_fields r) bytes ↔ bytes = manifest_wire r.
Proof.
  intros Hw Hl. assert (manifest_wire r = concat (all_fields r)) as E
    by (unfold all_fields, manifest_wire; rewrite concat_app; cbn [concat]; by rewrite app_nil_r).
  rewrite E. apply fields_at_concat. unfold fields_len. by rewrite <-E, len_manifest_wire.
Qed.

(** The record the decoder assembles. *)
Definition read_manifest (bytes : list byte) (store : StoreId) recovery catalog : ManifestRecord :=
  mkManifest (u64_at 28 bytes)
    (mkRegistryReference (u8_at 68 bytes) (u64_at 72 bytes) (u64_at 80 bytes) (u32_at 88 bytes))
    (mkCutoff (mkJournalIdentity store (u64_at 36 bytes)) (u64_at 44 bytes) (u64_at 52 bytes) (u64_at 60 bytes))
    (mkRetryArtifact (mkRetryReference (u8_at 92 bytes) (u64_at 96 bytes)) (u64_at 104 bytes) (u32_at 112 bytes))
    recovery (u64_at 124 bytes) catalog.

Lemma read_manifest_wf bytes store recovery catalog :
  len bytes = 160 → wf store → wf recovery → wf catalog → wf (read_manifest bytes store recovery catalog).
Proof.
  intros Hl Hs Hr Hc. unfold read_manifest.
  assert (∀ a, 0 ≤ a → a + 8 ≤ 160 → is_u64 (u64_at a bytes)) as H8 by (intros; apply u64_in; lia).
  assert (∀ a, 0 ≤ a → a + 4 ≤ 160 → is_u32 (u32_at a bytes)) as H4 by (intros; apply u32_in; lia).
  assert (∀ a, 0 ≤ a → a + 1 ≤ 160 → is_u8 (u8_at a bytes)) as H1 by (intros; apply u8_in; lia).
  wf_intro; cbn [mf_generation mf_registry mf_cutoff mf_retry mf_recovery mf_sequence_floor mf_catalog];
    try assumption; try (by apply H8 || apply H4 || apply H1).
  - wf_intro; by apply H8 || apply H4 || apply H1.
  - wf_intro; cbn [cut_journal cut_checkpoint_generation cut_append_sequence cut_end_offset]; try (by apply H8).
    wf_intro; [done|by apply H8].
  - wf_intro; cbn [ra_public ra_length ra_checksum]; try (by apply H8 || apply H4). wf_intro; by apply H8 || apply H1.
Qed.

Lemma read_manifest_fields bytes store recovery catalog :
  len bytes = 160 → wf store →
  slice 0 8 bytes = MANIFEST_MAGIC → slice 8 10 bytes = be_bytes 2 1 → slice 10 12 bytes = be_bytes 2 160 →
  slice 12 28 bytes = into_bytes store → slice 69 72 bytes = zeros 3 → slice 93 96 bytes = zeros 3 →
  fields_at 116 (recovery_fields recovery) bytes → fields_at 132 (catalog_fields catalog) bytes →
  crc32c (slice 0 156 bytes) = u32_at 156 bytes →
  bytes = manifest_wire (read_manifest bytes store recovery catalog).
Proof.
  intros Hl Hs M1 M2 M3 Fs Z1 Z2 Fr%fields_at_slice Fc%fields_at_slice Hcrc;
    [|rewrite ?Hl; unfold fields_len; rewrite ?len_catalog_fields, ?len_recovery_fields; lia..].
  unfold fields_len in Fr, Fc. rewrite len_recovery_fields in Fr. rewrite len_catalog_fields in Fc.
  offsets Fr. offsets Fc. set (r := read_manifest _ _ _ _).
  assert (fields_at 0 (manifest_fields r) bytes) as Hf.
  { unfold manifest_fields, read_manifest. cbn [fields_at]. autorewrite with len. unfold mf_store_id at 1.
    cbn. rewrite len_into_bytes by done. offsets_goal. rewrite M1, M2, M3, Fs, Z1, Z2, Fr, Fc.
    split_and!; try done; by apply u64_in || apply u8_in || apply u32_in; lia. }
  apply manifest_wire_fields; [done|done|]. unfold all_fields.
  apply fields_at_concat; [unfold fields_len; rewrite concat_app, len_app, len_manifest_fields by done; by cbn|].
  rewrite <-(slice_all 160 bytes), <-(slice_join 0 156 160) by done || lia. rewrite concat_app. cbn [concat].
  apply fields_at_slice in Hf; [|lia|unfold fields_len; rewrite len_manifest_fields by done; lia].
  unfold fields_len in Hf. rewrite len_manifest_fields in Hf by done. offsets Hf. rewrite <-Hf, Hcrc, app_nil_r. f_equal.
  apply (u32_in bytes 156); lia.
Qed.

Lemma decode_manifest_sound bytes store r :
  decode_manifest bytes store = Ok r →
  wf r ∧ manifest_contract r ∧ mf_store_id r = store ∧ bytes = manifest_wire r.
Proof.
  unfold decode_manifest. rewrite guard_Ok. intros [Hpre H]. cbv zeta in H.
  assert (len bytes = 160) as Hl by not_refused. assert (slice 0 8 bytes = MANIFEST_MAGIC) as M1 by not_refused.
  assert (u16_at 8 bytes = 1) as M2%u16_in by not_refused; [|lia..].
  assert (u16_at 10 bytes = 160) as M3%u16_in by not_refused; [|lia..].
  assert (all_zero (slice 69 72 bytes)) as Z1 by not_refused. assert (all_zero (slice 93 96 bytes)) as Z2 by not_refused.
  assert (all_zero (slice 133 136 bytes)) as Z3 by not_refused.
  assert (crc32c (slice 0 156 bytes) = u32_at 156 bytes) as Hcrc by not_refused. clear Hpre.
  apply all_zero_slice in Z1; [|lia..]. apply all_zero_slice in Z2; [|lia..].
  destruct (decode_recovery_reference bytes) as [recovery|] eqn:Er; [|done].
  apply decode_recovery_reference_Ok in Er as [[Wr Kr] Fr]; [|done].
  rewrite guard_Ok in H. destruct H as [Hretry H].
  destruct (decode_catalog_reference bytes) as [catalog|] eqn:Ec; [|done].
  apply decode_catalog_reference_Ok in Ec as [[Wc Kc] Fc]; [|done..].
  rewrite map_err_Ok in H. destruct H as (sid & Hid & H). rewrite guard_Ok in H. destruct H as [Hs H].
  assert (sid = store) as -> by not_refused. rewrite guard_Ok in H. destruct H as [Hg [= <-]].
  apply (from_bytes_slice bytes 12) in Hid as [Ws Fs]; [|lia..].
  fold (read_manifest bytes store recovery catalog). split_and!; [by apply read_manifest_wf| |done|by apply read_manifest_fields].
  cbn [ra_public ra_length rs_slot rs_generation rg_slot rg_generation rg_length] in *.
  assert (bool_decide (u64_at 52 bytes = u64_at 124 bytes) = bool_decide (u64_at 60 bytes = JOURNAL_V1_HEADER_LEN))
    as Hb%bool_decide_iff_eq by not_refused.
  unfold read_manifest, mf_journal. split; cbn; try tauto; try lia; try (intros ?; split); try tauto.
  all: apply dec_stable; tauto.
Qed.

(** The ranges of a record's fields. *)
Lemma manifest_leaves r :
  wf r →
  (wf (mf_store_id r) ∧ wf (mf_recovery r) ∧ wf (mf_catalog r)) ∧
  (is_u64 (mf_generation r) ∧ is_u64 (mf_journal r) ∧ is_u64 (cut_checkpoint_generation (mf_cutoff r)) ∧
   is_u64 (cut_append_sequence (mf_cutoff r)) ∧ is_u64 (cut_end_offset (mf_cutoff r)) ∧ is_u64 (mf_sequence_floor r)) ∧
  (is_u8 (rg_slot (mf_registry r)) ∧ is_u64 (rg_generation (mf_registry r)) ∧ is_u64 (rg_length (mf_registry r)) ∧
   is_u32 (rg_checksum (mf_registry r))) ∧
  is_u8 (rs_slot (ra_public (mf_retry r))) ∧ is_u64 (rs_generation (ra_public (mf_retry r))) ∧
  is_u64 (ra_length (mf_retry r)) ∧ is_u32 (ra_checksum (mf_retry r)).
Proof.
  intros Hw. wf_split Hw.
  repeat match goal with
  | H : Is_true (wf (mf_cutoff r)) |- _ => wf_split H
  | H : Is_true (wf (cut_journal _)) |- _ => wf_split H
  | H : Is_true (wf (mf_registry r)) |- _ => wf_split H
  | H : Is_true (wf (mf_retry r)) |- _ => wf_split H
  | H : Is_true (wf (ra_public _)) |- _ => wf_split H
  end. unfold mf_store_id, mf_journal. split_and!; assumption.
Qed.

(** The fields of a stored record, each read back. *)
Lemma manifest_wire_read r :
  wf r → fields_at 0 (manifest_fields r) (manifest_wire r) ∧
  slice 0 156 (manifest_wire r) = concat (manifest_fields r) ∧
  u32_at 156 (manifest_wire r) = crc32c (concat (manifest_fields r)).
Proof.
  intros ((Hs & _) & _)%manifest_leaves.
  pose proof (len_manifest_fields r Hs) as Hl.
  assert (slice 0 156 (manifest_wire r) = concat (manifest_fields r)) as E by by apply slice_app_0.
  split_and!; [|done|].
  - apply fields_at_slice; [done|unfold fields_len; rewrite len_manifest_wire by done; lia|].
    unfold fields_len. by rewrite Hl.
  - unfold u32_at, manifest_wire. rewrite slice_app_end by (rewrite ?len_be_bytes; done).
    pose proof (crc32c_range (concat (manifest_fields r))) as Hr%in_range_spec. unfold u32_max in Hr.
    by rewrite from_be_bytes_small by lia.
Qed.

(** The catalog reference's reserved bytes are zero, present or not. *)
Lemma catalog_reserved o bytes : len bytes = 160 → fields_at 132 (catalog_fields o) bytes → all_zero (slice 133 136 bytes).
Proof.
  intros Hl. destruct o as [c|]; cbn [catalog_fields fields_at]; autorewrite with len; offsets_goal; [by intros (_ & -> & _)|].
  intros [F _]. replace (slice 133 136 bytes) with (slice 1 4 (slice 132 156 bytes)); [by rewrite F|].
  unfold slice. rewrite skipn_firstn_comm, take_take, drop_drop. done.
Qed.

Lemma decode_manifest_complete r :
  wf r → manifest_contract r → decode_manifest (manifest_wire r) (mf_store_id r) = Ok r.
Proof.
  intros Hw Hk. destruct (manifest_wire_read r Hw) as (Hf & Hcov & Hcrc).
  destruct (manifest_leaves r Hw) as ((Hs & Hwr & Hwc) & (W1 & W2 & W3 & W4 & W5 & W6) & (W7 & W8 & W9 & W10) & W11 & W12 & W13 & W14).
  pose proof (len_manifest_wire r Hs) as Hl. set (bytes := manifest_wire r) in *. clearbody bytes.
  unfold manifest_fields in Hf. cbn [fields_at] in Hf. autorewrite with len in Hf. rewrite len_into_bytes in Hf by done.
  offsets Hf. destruct Hf as (F1 & F2 & F3 & F4 & F5 & F6 & F7 & F8 & F9 & F10 & F11 & F12 & F13 & F14 & F15 & F16 & F17 &
    F18 & F19 & F20 & F21 & F22 & _).
  assert (fields_at 116 (recovery_fields (mf_recovery r)) bytes) as Fr
    by (apply fields_at_slice; unfold fields_len; rewrite ?len_recovery_fields; done || lia).
  assert (fields_at 132 (catalog_fields (mf_catalog r)) bytes) as Fc
    by (apply fields_at_slice; unfold fields_len; rewrite ?len_catalog_fields; done || lia).
  pose proof (catalog_reserved _ _ Hl Fc) as Z3.
  unfold decode_manifest. numbers_back. rewrite Hcov, Hcrc, F1, F11, F16. cbv zeta.
  unfold u16_at. change (8 + 2) with 10. change (10 + 2) with 12. rewrite F2, F3. unfold MANIFEST_LEN. rewrite Hl.
  rewrite decide_False by (rewrite !from_be_bytes_small by done; pose proof (all_zero_zeros 3); tauto).
  destruct Hk. rewrite (proj2 (decode_recovery_reference_Ok bytes (mf_recovery r) Hl)) by done.
  cbn [ra_public ra_length rs_slot rs_generation rg_slot rg_generation rg_length]. rewrite decide_False by lia.
  rewrite (proj2 (decode_catalog_reference_Ok bytes (mf_catalog r) Hl Z3)) by done.
  rewrite F4, from_bytes_into by done. cbn [map_err]. rewrite decide_False by tauto.
  assert (bool_decide (cut_append_sequence (mf_cutoff r) = mf_sequence_floor r) =
    bool_decide (cut_end_offset (mf_cutoff r) = JOURNAL_V1_HEADER_LEN)) as Hb by by apply bool_decide_iff_eq.
  rewrite decide_False; [|rewrite Hb; intuition lia].
  destruct r as [? [? ? ? ?] [[? ?] ? ? ?] [[? ?] ? ?] ? ? ?]. done.
Qed.

(** ** Lemmas: the store format marker *)

Definition marker_fields (store_id : StoreId) : list (list byte) :=
  [STORE_FORMAT_MAGIC; be_bytes 2 STORE_FORMAT_VERSION; be_bytes 2 32; into_bytes store_id].
Definition marker_wire (store_id : StoreId) : list byte :=
  concat (marker_fields store_id) ++ be_bytes 4 (crc32c (concat (marker_fields store_id))).

Lemma len_marker_fields store_id : wf store_id → len (concat (marker_fields store_id)) = 28.
Proof. intros Hs%len_into_bytes. unfold marker_fields. cbn [concat]. autorewrite with len. rewrite Hs. done. Qed.

Lemma encode_marker_layout store_id : wf store_id → encode_store_format_marker store_id = marker_wire store_id.
Proof.
  intros Hw. pose proof (len_into_bytes _ Hw) as Hs. pose proof (len_marker_fields store_id Hw) as Hc.
  assert (len STORE_FORMAT_MAGIC = 8) as Hm by done.
  unfold encode_store_format_marker, STORE_FORMAT_LEN. cbv zeta. rewrite <-(app_nil_l (zeros (Z.to_nat 32))).
  rewrite copy_at_next by (rewrite ?Hm; done || lia). rewrite app_nil_l, Hm.
  do 2 (rewrite copy_at_next by (autorewrite with len; rewrite ?Hm; lia); rewrite len_be_bytes).
  rewrite copy_at_next by (autorewrite with len; rewrite ?Hm, ?Hs; lia). rewrite Hs.
  set (covered := (_ ++ into_bytes store_id)).
  assert (covered = concat (marker_fields store_id)) as ->
    by (unfold covered, marker_fields; cbn [concat]; by rewrite app_nil_r, <-!app_assoc).
  rewrite slice_app_0, copy_at_next by (rewrite ?len_be_bytes; done || lia).
  by rewrite len_be_bytes, app_nil_r.
Qed.

(** The marker a store accepts is the one it writes. *)
Lemma marker_exact bytes store_id :
  wf store_id → decode_store_format_marker bytes store_id = Ok tt ↔ bytes = encode_store_format_marker store_id.
Proof.
  intros Hw. rewrite encode_marker_layout by done. pose proof (len_into_bytes _ Hw) as Hs.
  assert (len STORE_FORMAT_MAGIC = 8) as Hm by done. pose proof (len_marker_fields store_id Hw) as Hc.
  unfold decode_store_format_marker. rewrite guard_Ok. split.
  - intros [Hpre _]. assert (len bytes = 32) as Hl by not_refused. assert (slice 0 8 bytes = STORE_FORMAT_MAGIC) as F1 by not_refused.
    assert (u16_at 8 bytes = 1) as F2%u16_in by not_refused; [|lia..].
    assert (u16_at 10 bytes = 32) as F3%u16_in by not_refused; [|lia..].
    assert (crc32c (slice 0 28 bytes) = u32_at 28 bytes) as Hcrc by not_refused.
    assert (from_bytes (slice 12 28 bytes) = Ok store_id) as [_ F4]%(from_bytes_slice bytes 12) by not_refused; [|lia..].
    destruct (u32_in bytes 28) as [_ F5]; [lia..|]. clear Hpre.
    assert (fields_at 0 (marker_fields store_id) bytes) as Hf%fields_at_slice.
    { cbn [marker_fields fields_at]. rewrite Hm, Hs. autorewrite with len. offsets_goal. offsets F2. offsets F3. offsets F4. by rewrite F1, F2, F3, F4. }
    2, 3: unfold fields_len; rewrite ?Hc, ?Hl; done.
    unfold fields_len in Hf. rewrite Hc in Hf. offsets Hf. unfold marker_wire. rewrite <-Hf, Hcrc, <-F5.
    by rewrite slice_join, slice_all by lia.
  - intros ->. split; [|done]. set (bytes := marker_wire store_id).
    assert (slice 0 28 bytes = concat (marker_fields store_id)) as E by by apply slice_app_0.
    assert (len bytes = 32) as Hl by (unfold bytes, marker_wire; by rewrite len_app, Hc, len_be_bytes).
    assert (fields_at 0 (marker_fields store_id) bytes) as Hf.
    { apply fields_at_slice; unfold fields_len; rewrite ?Hc, ?Hl; [done..|]. exact E. }
    cbn [marker_fields fields_at] in Hf. rewrite Hm, Hs in Hf. autorewrite with len in Hf.
    destruct Hf as (F1 & F2 & F3 & F4 & _). unfold u16_at, u32_at. rewrite E, Hl.
    assert (slice 28 (28 + 4) bytes = be_bytes 4 (crc32c (concat (marker_fields store_id)))) as F5
      by (unfold bytes, marker_wire; apply slice_app_end; [done|by rewrite len_be_bytes]).
    pose proof (crc32c_range (concat (marker_fields store_id))) as Hr%in_range_spec. unfold u32_max in Hr.
    offsets F1. offsets F2. offsets F3. offsets F4. offsets F5. offsets_goal.
    rewrite F1, F2, F3, F4, F5, from_bytes_into, !from_be_bytes_small by done || lia. tauto.
Qed.

(** ** Properties *)

(** C13: A stored manifest is exactly the 160-byte encoding of a record that
    meets its contract: bytes decode for a store to a record precisely when every
    field of the record fits its width, the record belongs to the store and meets
    the contract (its references within the slots and the size bounds, its
    generations ordered, its sequence range and catalog as its journal generation
    demands), and the bytes are its encoding. *)
Theorem manifest_codec_exact bytes store r :
  decode_manifest bytes store = Ok r ↔
  wf r ∧ manifest_contract r ∧ mf_store_id r = store ∧ bytes = encode_manifest r.
Proof.
  split.
  - intros (Hw & Hk & Hs & ->)%decode_manifest_sound. rewrite encode_manifest_layout; [done|]. by apply manifest_leaves.
  - intros (Hw & Hk & <- & ->). rewrite encode_manifest_layout by by apply manifest_leaves.
    by apply decode_manifest_complete.
Qed.
