(* ===== verification/RegistryReplay.v ===== *)
(** * Rebuilding a registry from its histories

    [och-store/src/manifest.rs]: [restore_snapshot], which replays every
    history of a snapshot through the registry's own operations, the bounds of a
    persisted snapshot, and the check that every recovered admission names a
    retained declaration. *)

From S2P Require Import Prelude Bytes Identity Bounded Value Collection Series Registry Wire Generation Journal Active Manifest.

#[export] Instance SeriesRegistrySnapshot_eq_dec : EqDecision SeriesRegistrySnapshot.
Proof. solve_decision. Defined.

(** ** Replaying declarations and retirements *)

(** [registry.method(...).map_err(|_| InvalidRegistry)?] on a registry that the
    caller drops on an error. *)
Definition registry_call {A} (call : result ModelError A * SeriesRegistry)
  : result ManifestStoreError (A * SeriesRegistry) :=
  match call.1 with Ok a => Ok (a, call.2) | Err _ => Err MseInvalidRegistry end.

(** The first declaration of a series registers it, the others revise it. *)
Definition issue (index : nat) (registry : SeriesRegistry) (series_id : SeriesId) (binding : SeriesBinding)
    (previous : option DeclarationRevision) (payload : SeriesDeclarationPayload) (evidence : DeclarationEvidence)
  : result ManifestStoreError (SeriesDeclaration * SeriesRegistry) :=
  if decide (index = 0%nat) then registry_call (register registry series_id binding payload evidence)
  else
    let! expected := ok_or previous MseInvalidRegistry in
    registry_call (revise registry series_id expected payload evidence).

Fixpoint restore_declarations (history : SeriesHistory) (index : nat) (ds : list SeriesDeclaration)
    (registry : SeriesRegistry) : result ManifestStoreError SeriesRegistry :=
  match ds with
  | [] => Ok registry
  | declaration :: ds =>
    let! ' (actual, registry) := issue index registry (history_series_id history) (history_binding history)
      (decl_previous declaration) (decl_payload declaration) (decl_evidence declaration) in
    if decide (actual ≠ declaration) then Err MseInvalidRegistry
    else restore_declarations history (S index) ds registry
  end.
Definition restore_retirement (history : SeriesHistory) (registry : SeriesRegistry)
  : result ManifestStoreError SeriesRegistry :=
  match retirement history with
  | None => Ok registry
  | Some retirement =>
    let! ' (actual, registry) := registry_call (retire registry (history_series_id history)
      (retirement_revision retirement) (retirement_evidence retirement)) in
    if decide (actual ≠ retirement) then Err MseInvalidRegistry else Ok registry
  end.
Fixpoint restore_series (series : list SeriesHistory) (registry : SeriesRegistry)
  : result ManifestStoreError SeriesRegistry :=
  match series with
  | [] => Ok registry
  | history :: series =>
    let! registry := restore_declarations history 0 (declarations history) registry in
    let! registry := restore_retirement history registry in
    restore_series series registry
  end.

Definition validate_snapshot_bounds (s : SeriesRegistrySnapshot) : result ManifestStoreError () :=
  if decide (max_series (snap_limits s) > MAX_PERSISTED_REGISTRY_SERIES ∨
             max_declaration_revisions (snap_limits s) > MAX_PERSISTED_REGISTRY_REVISIONS ∨
             len (snap_series s) > max_series (snap_limits s) ∨
             snap_revision_count s > max_declaration_revisions (snap_limits s))
  then Err MseInvalidRegistry
  else Ok tt.

Definition restore_snapshot (s : SeriesRegistrySnapshot) : result ManifestStoreError SeriesRegistry :=
  let! _ := validate_snapshot_bounds s in
  let! registry := restore_series (snap_series s) (registry_new (snap_store_id s) (snap_limits s)) in
  if decide (snapshot registry ≠ s) then Err MseInvalidRegistry else Ok registry.

(** ** Recovered admissions *)

Definition declaration_matches (declaration : SeriesDeclaration) (decoded : DecodedDeclarationV1) : bool :=
  bool_decide (decl_store_id declaration = dd_store_id decoded) &&
  bool_decide (decl_series_id declaration = dd_series_id decoded) &&
  bool_decide (decl_revision declaration = dd_revision decoded) &&
  bool_decide (decl_previous declaration = dd_previous decoded) &&
  bool_decide (decl_binding declaration = dd_binding decoded) &&
  bool_decide (decl_payload declaration = dd_payload decoded) &&
  bool_decide (decl_evidence declaration = dd_evidence decoded).

Fixpoint validate_recovered_declarations (registry : SeriesRegistry) (records : list RecoveredAdmissionV1)
  : result ManifestStoreError () :=
  match records with
  | [] => Ok tt
  | record :: records =>
    let decoded := dec_declaration (rec_admission record) in
    match resolve registry (dd_series_id decoded) (dd_revision decoded) with
    | None => Err MseHistoricalDeclarationMismatch
    | Some declaration =>
      if declaration_matches declaration decoded then validate_recovered_declarations registry records
      else Err MseHistoricalDeclarationMismatch
    end
  end.

(** ** Lemmas: replaying one history *)

Lemma snap_series_entries r : snap_series (snapshot r) = (ordered_entries r).*2.
Proof.
  cbn. unfold compact_vec. rewrite <-(list_fmap_id ((ordered_entries r).*2)) at 2.
  apply list_fmap_ext. by intros ? [] ?.
Qed.

Lemma registry_call_Ok {A B} (call : result ModelError A * SeriesRegistry) (k : A * SeriesRegistry → result ManifestStoreError B) x :
  (let! y := registry_call call in k y) = Ok x ↔ ∃ a, call.1 = Ok a ∧ k (a, call.2) = Ok x.
Proof. unfold registry_call. destruct call as [[a|e] r']; cbn; naive_solver. Qed.

Lemma with_history_again r i h c h' c' : with_history (with_history r i h c) i h' c' = with_history r i h' c'.
Proof. unfold with_history. cbn. by rewrite insert_insert_eq. Qed.

Section replay.
Context (r : SeriesRegistry) (i : SeriesId) (h : SeriesHistory).
Context (Hh : history_ok (reg_store_id r) i h) (Hfresh : reg_series r !! i = None).
Context (Hlim : wf (reg_limits r)) (Hc : series_count r < max_series (reg_limits r)).
Context (Hpos : 0 ≤ reg_revision_count r).
Context (Hrev : reg_revision_count r + len (declarations h) ≤ max_declaration_revisions (reg_limits r)).

(** The registry once [k] declarations of [h] are replayed. *)
Definition partial (k : nat) : SeriesRegistry :=
  if decide (k = 0%nat) then r
  else with_history r i (mkHistory i (history_binding h) (take k (declarations h)) None) (reg_revision_count r + Z.of_nat k).

Lemma issue_replays k d :
  declarations h !! k = Some d →
  issue k (partial k) i (history_binding h) (decl_previous d) (decl_payload d) (decl_evidence d) = Ok (d, partial (S k)).
Proof using All.
  intros Hk. destruct (ho_declaration _ _ _ Hh _ _ Hk) as (Hd & _ & _). pose proof (lookup_lt_Some _ _ _ Hk) as Hlt.
  unfold wf, wf_limits in Hlim. destruct_and? Hlim. rewrite in_range_spec in *.
  unfold issue, partial. rewrite (decide_False (P := S k = 0%nat)) by done. rewrite (take_S_r _ _ _ Hk). destruct k as [|k].
  - rewrite !decide_True by done. unfold registry_call, register. rewrite Hfresh, !decide_False by (unfold len in *; lia).
    cbn [fst snd take app]. rewrite Hd. done.
  - rewrite !decide_False by done. assert (∃ c, declarations h !! k = Some c) as [c Hcur] by (apply lookup_lt_is_Some; lia).
    destruct (ho_declaration _ _ _ Hh _ _ Hcur) as (Hce & _ & _). pose proof (ho_changed _ _ _ Hh k c d Hcur Hk) as Hne.
    rewrite Hd at 1. cbn [decl_previous]. rewrite decide_False by done. cbn [ok_or].
    unfold registry_call, revise, latest_declaration. cbn [with_history reg_series]. rewrite lookup_insert_eq.
    cbn [retirement declarations history_series_id history_binding]. rewrite (take_S_r _ _ _ Hcur), last_snoc, <-(take_S_r _ _ _ Hcur).
    rewrite decide_False by (rewrite Hce; cbn; case_decide; intros [[=] _]; lia).
    rewrite decide_False by (rewrite Hce; cbn; intros N; apply N; f_equal; lia).
    rewrite decide_False by done. cbn [with_history reg_limits reg_revision_count reg_store_id].
    rewrite decide_False by (unfold len in *; lia). cbn [fst snd].
    rewrite with_history_again. rewrite Hce. unfold revision_next. cbn.
    rewrite Z.mod_small by (unfold len, usize_max, u64_max in *; lia).
    assert (mkDeclaration (reg_store_id r) i (mkRevision (Z.of_nat k + 1 + 1)) (Some (mkRevision (Z.of_nat (S k))))
      (history_binding h) (decl_payload d) (decl_evidence d) = d) as ->.
    { etrans; [|symmetry; exact Hd]. rewrite decide_False by done. do 2 f_equal. lia. }
    do 3 f_equal. lia.
Qed.

Lemma restore_declarations_replays :
  history_series_id h = i → restore_declarations h 0 (declarations h) r = Ok (partial (length (declarations h))).
Proof using All.
  intros Hi. assert (∀ ds k, drop k (declarations h) = ds →
    restore_declarations h k ds (partial k) = Ok (partial (k + length ds))) as Hgen.
  { induction ds as [|d ds IH]; intros k E; cbn [restore_declarations length]; [by rewrite Nat.add_0_r|].
    assert (declarations h !! k = Some d) as Hk by (rewrite <-(Nat.add_0_r k), <-lookup_drop, E; done).
    rewrite Hi, issue_replays by done. rewrite decide_False by tauto.
    rewrite <-Nat.add_succ_comm. apply IH.
    by rewrite <-Nat.add_1_r, <-drop_drop, E. }
  specialize (Hgen (declarations h) 0%nat). unfold partial at 1 in Hgen. rewrite decide_True in Hgen by done. by apply Hgen.
Qed.

(** Replaying a whole history adds exactly it. *)
Lemma restore_history_replays :
  history_series_id h = i →
  (let! registry := restore_declarations h 0 (declarations h) r in restore_retirement h registry) =
  Ok (with_history r i h (reg_revision_count r + len (declarations h))).
Proof using All.
  intros Hi. rewrite restore_declarations_replays by done. unfold partial.
  destruct (history_last _ _ _ Hh) as (pre & c & Ed & Hl & Hrc & _).
  rewrite decide_False by (rewrite Ed, length_app; cbn; lia). rewrite firstn_all.
  unfold restore_retirement. destruct (retirement h) as [t|] eqn:Ht.
  - destruct (ho_retirement _ _ _ Hh t Ht) as [Et _]. unfold registry_call, retire. rewrite Hi.
    cbn [with_history reg_series]. rewrite lookup_insert_eq. unfold latest_declaration in *. cbn [retirement declarations].
    rewrite Hl, Hrc, Et, decide_False by tauto. cbn [fst snd]. rewrite decide_False by (rewrite <-Et; destruct t; tauto).
    rewrite with_history_again. cbn [history_series_id history_binding declarations]. rewrite <-Et. do 2 f_equal.
    destruct h as [? ? ? ?], t. cbn in *. by simplify_eq.
  - do 2 f_equal. destruct h as [? ? ? ?]. cbn in *. by simplify_eq.
Qed.
End replay.

(** ** Lemmas: replaying a registry *)

Definition add_history (r : SeriesRegistry) (h : SeriesHistory) : SeriesRegistry :=
  with_history r (history_series_id h) h (reg_revision_count r + len (declarations h)).
Definition history_total (hs : list SeriesHistory) : Z := foldr (λ h acc, len (declarations h) + acc) 0 hs.

Lemma history_total_nonneg hs : 0 ≤ history_total hs.
Proof. induction hs as [|h hs IH]; cbn; [done|]. pose proof (len_nonneg (declarations h)). unfold history_total in IH. lia. Qed.
Lemma history_total_perm hs hs' : hs ≡ₚ hs' → history_total hs = history_total hs'.
Proof. induction 1; cbn in *; unfold history_total in *; lia. Qed.
Lemma total_declarations_list m : total_declarations m = history_total ((map_to_list m).*2).
Proof.
  unfold total_declarations. rewrite map_fold_foldr. induction (map_to_list m) as [|[i h] l IH]; [done|]. cbn. by rewrite IH.
Qed.

Lemma foldl_add_history hs r :
  NoDup (history_series_id <$> hs) → Forall (λ h, reg_series r !! history_series_id h = None) hs →
  foldl add_history r hs = mkRegistry (reg_store_id r) (reg_limits r) (reg_revision_count r + history_total hs)
    (list_to_map ((λ h, (history_series_id h, h)) <$> hs) ∪ reg_series r).
Proof.
  revert r. induction hs as [|h hs IH]; intros r Hn Hf.
  { cbn. destruct r. cbn. rewrite Z.add_0_r. by rewrite (left_id_L ∅ (∪)). }
  rewrite fmap_cons, NoDup_cons in Hn. destruct Hn as [Hh Hn]. rewrite Forall_cons in Hf. destruct Hf as [Hi Hf].
  cbn [foldl]. rewrite IH; [|done|].
  - unfold add_history at 1 2 3 4. cbn. f_equal; [unfold history_total; cbn; lia|].
    rewrite <-insert_union_l, <-insert_union_r; [done|]. apply not_elem_of_list_to_map. by rewrite <-list_fmap_compose.
  - rewrite Forall_forall in Hf |- *. intros x Hx. unfold add_history. cbn. rewrite lookup_insert_ne; [by apply Hf|].
    intros E. apply Hh. rewrite E. by apply list_elem_of_fmap_2.
Qed.

(** Histories that a registry can take up, one after the other. *)
Record replayable (r : SeriesRegistry) (hs : list SeriesHistory) : Prop := {
  rb_histories : Forall (λ h, history_ok (reg_store_id r) (history_series_id h) h) hs;
  rb_distinct : NoDup (history_series_id <$> hs);
  rb_fresh : Forall (λ h, reg_series r !! history_series_id h = None) hs;
  rb_limits : wf (reg_limits r);
  rb_series : series_count r + len hs ≤ max_series (reg_limits r);
  rb_count : 0 ≤ reg_revision_count r;
  rb_total : reg_revision_count r + history_total hs ≤ max_declaration_revisions (reg_limits r) }.

Lemma replayable_cons r h hs :
  replayable r (h :: hs) →
  (history_ok (reg_store_id r) (history_series_id h) h ∧ reg_series r !! history_series_id h = None ∧
   series_count r < max_series (reg_limits r) ∧
   reg_revision_count r + len (declarations h) ≤ max_declaration_revisions (reg_limits r)) ∧
  replayable (add_history r h) hs.
Proof.
  intros [Hok Hn Hf Hl Hc Hp Hr].
  rewrite fmap_cons, NoDup_cons in Hn. destruct Hn as [Hh Hn]. rewrite Forall_cons in Hf, Hok.
  destruct Hf as [Hi Hf]. destruct Hok as [Hho Hok]. cbn in Hr. rewrite len_cons in Hc.
  pose proof (history_total_nonneg hs). fold (history_total hs) in Hr. pose proof (len_nonneg hs). pose proof (len_nonneg (declarations h)).
  split; [split_and!; done || lia|]. split; [exact Hok|exact Hn| |exact Hl| | |].
  - rewrite Forall_forall in Hf |- *. intros x Hx. unfold add_history. cbn. rewrite lookup_insert_ne; [by apply Hf|].
    intros Ei. apply Hh. rewrite Ei. by apply list_elem_of_fmap_2.
  - unfold add_history at 1. rewrite series_count_insert_fresh by done. cbn. lia.
  - cbn. lia.
  - cbn. lia.
Qed.

Lemma restore_series_replays hs r : replayable r hs → restore_series hs r = Ok (foldl add_history r hs).
Proof.
  revert r. induction hs as [|h hs IH]; intros r Hr; [done|].
  pose proof (rb_limits _ _ Hr) as Hl. pose proof (rb_count _ _ Hr) as Hp.
  apply replayable_cons in Hr as ((Hho & Hi & Hc & Ht) & Hr). cbn [restore_series foldl].
  pose proof (restore_history_replays r _ h Hho Hi Hl Hc Hp Ht eq_refl) as E.
  destruct (restore_declarations h 0 (declarations h) r) as [r1|]; [|done]. rewrite E. by apply IH.
Qed.

(** The histories of an accepted registry. *)
Lemma registry_histories r :
  registry_ok r →
  Forall (λ h, history_ok (reg_store_id r) (history_series_id h) h) ((ordered_entries r).*2) ∧
  NoDup (history_series_id <$> (ordered_entries r).*2) ∧ len ((ordered_entries r).*2) = series_count r ∧
  history_total ((ordered_entries r).*2) = reg_revision_count r ∧
  list_to_map ((λ h, (history_series_id h, h)) <$> (ordered_entries r).*2) = reg_series r.
Proof.
  intros Hok. pose proof (ordered_entries_histories r Hok) as Eh. pose proof (ordered_entries_perm r) as Hp. split_and!.
  - apply Forall_fmap, Forall_forall. intros [i h] Hi. cbn. rewrite Hp in Hi. apply elem_of_map_to_list in Hi.
    pose proof (ok_histories _ Hok i h Hi) as Ho. by rewrite (ho_series_id _ _ _ Ho).
  - replace (history_series_id <$> (ordered_entries r).*2) with ((ordered_entries r).*1)
      by (rewrite Eh at 1; by rewrite <-list_fmap_compose). rewrite Hp. apply NoDup_fst_map_to_list.
  - unfold len, series_count. rewrite length_fmap, Hp, length_map_to_list. done.
  - rewrite (ok_count _ Hok), total_declarations_list. apply history_total_perm. by rewrite Hp.
  - rewrite <-Eh. etrans; [|apply (list_to_map_to_list (reg_series r))]. apply list_to_map_proper; [|done].
    rewrite Hp. apply NoDup_fst_map_to_list.
Qed.

(** An empty registry of the same bounds can take up those histories, and doing so
    rebuilds the registry. *)
Lemma registry_replayable r :
  registry_ok r →
  let empty := registry_new (reg_store_id r) (reg_limits r) in
  replayable empty ((ordered_entries r).*2) ∧ foldl add_history empty ((ordered_entries r).*2) = r.
Proof.
  intros Hok empty. destruct (registry_histories r Hok) as (Hh & Hn & Hl & Ht & Hm).
  pose proof (ok_series_bound _ Hok). pose proof (ok_revision_bound _ Hok).
  assert (Forall (λ h, (∅ : gmap SeriesId SeriesHistory) !! history_series_id h = None) ((ordered_entries r).*2))
    by (apply Forall_forall; done).
  split.
  - split; cbn; try done; [apply Hok| |lia]. unfold series_count. cbn. rewrite map_size_empty. lia.
  - unfold empty. rewrite foldl_add_history by done. cbn. rewrite Hm, Ht, (right_id_L ∅ (∪)). by destruct r.
Qed.
Lemma restore_series_rebuilds r :
  registry_ok r →
  restore_series ((ordered_entries r).*2) (registry_new (reg_store_id r) (reg_limits r)) = Ok r.
Proof. intros [Hr He]%registry_replayable. by rewrite restore_series_replays, He. Qed.

(** ** Lemmas: what a replay keeps *)

(** Every call of a replay is an operation with well-formed arguments. *)
Lemma issue_keeps k r i b previous p e d r' :
  wf i → wf b → wf previous → wf p → wf e → registry_ok r → issue k r i b previous p e = Ok (d, r') →
  registry_ok r' ∧ reg_store_id r' = reg_store_id r ∧ reg_limits r' = reg_limits r.
Proof.
  intros Hi Hb Hn Hp He Hok. unfold issue. case_decide.
  - unfold registry_call. destruct (register r i b p e) as [[d'|] r''] eqn:E; [|done]. intros [= -> ->].
    pose proof (apply_op_ok (ORegister i b p e) r) as Ho. cbn in Ho. rewrite E in Ho. split; [apply Ho; [|done]; change (Is_true (wf i && wf b && wf p && wf e)); by rewrite !andb_True|].
    revert E. unfold register. repeat case_match; naive_solver.
  - destruct previous as [n|]; [|done]. cbn [ok_or]. unfold registry_call.
    destruct (revise r i n p e) as [[d'|] r''] eqn:E; [|done]. intros [= -> ->].
    pose proof (apply_op_ok (ORevise i n p e) r) as Ho. cbn in Ho. rewrite E in Ho.
    split; [apply Ho; [|done]; change (Is_true (wf i && wf n && wf p && wf e)); by rewrite !andb_True|].
    revert E. unfold revise. repeat case_match; naive_solver.
Qed.
Lemma retire_keeps r i n e t r' :
  wf i → wf n → wf e → registry_ok r → registry_call (retire r i n e) = Ok (t, r') →
  registry_ok r' ∧ reg_store_id r' = reg_store_id r ∧ reg_limits r' = reg_limits r.
Proof.
  intros Hi Hn He Hok. unfold registry_call. destruct (retire r i n e) as [[t'|] r''] eqn:E; [|done]. intros [= -> ->].
  pose proof (apply_op_ok (ORetire i n e) r) as Ho. cbn in Ho. rewrite E in Ho.
  split; [apply Ho; [|done]; change (Is_true (wf i && wf n && wf e)); by rewrite !andb_True|].
  revert E. unfold retire. repeat case_match; naive_solver.
Qed.

#[export] Instance wf_retirement : Wf SeriesRetirement := λ t, wf (retirement_revision t) && wf (retirement_evidence t).
#[export] Instance wf_history : Wf SeriesHistory := λ h,
  wf (history_series_id h) && wf (history_binding h) && wf (declarations h) && wf (retirement h).
#[export] Instance wf_snapshot : Wf SeriesRegistrySnapshot := λ s,
  wf (snap_store_id s) && wf (snap_limits s) && wf (snap_series s).

Definition kept (r r' : SeriesRegistry) : Prop :=
  registry_ok r' ∧ reg_store_id r' = reg_store_id r ∧ reg_limits r' = reg_limits r.

Lemma restore_declarations_keeps h ds : wf h → Forall (λ d : SeriesDeclaration, Is_true (wf d)) ds →
  ∀ k r r', registry_ok r → restore_declarations h k ds r = Ok r' → kept r r'.
Proof.
  intros Hh Hd. wf_split Hh. induction Hd as [|d ds Hd _ IH]; intros k r r' Hok; cbn [restore_declarations]; [by intros [= <-]|].
  wf_split Hd. destruct (issue k r _ _ _ _ _) as [[a r1]|] eqn:E; [|done]. case_decide; [done|]. intros Hr.
  apply issue_keeps in E as (Hok1 & Es & El); [|assumption..]. apply IH in Hr as (Hok2 & Es2 & El2); [|done].
  split_and!; [done|congruence|congruence].
Qed.

Lemma restore_series_keeps hs : Forall (λ h : SeriesHistory, Is_true (wf h)) hs →
  ∀ r r', registry_ok r → restore_series hs r = Ok r' → kept r r'.
Proof.
  induction 1 as [|h hs Hh _ IH]; intros r r' Hok; cbn [restore_series]; [by intros [= <-]|].
  destruct (restore_declarations h 0 (declarations h) r) as [r1|] eqn:E1; [|done].
  assert (wf (declarations h) ∧ wf (retirement h) ∧ wf (history_series_id h)) as (Hd & Ht & Hi) by (wf_split Hh; done).
  apply restore_declarations_keeps in E1 as (Hok1 & Es1 & El1); [|done|by apply wf_list_Forall|done].
  unfold restore_retirement. destruct (retirement h) as [t|].
  - change (Is_true (wf t)) in Ht. wf_split Ht. destruct (registry_call _) as [[a r2]|] eqn:E2; [|done]. case_decide; [done|]. intros Hr.
    apply retire_keeps in E2 as (Hok2 & Es2 & El2); [|assumption..]. apply IH in Hr as (Hok3 & Es3 & El3); [|done].
    split_and!; [done|congruence|congruence].
  - intros Hr. apply IH in Hr as (Hok3 & Es3 & El3); [|done]. split_and!; [done|congruence|congruence].
Qed.

(** ** Properties *)

(** C14: Restoring is exact: a well-formed snapshot is restored to a registry
    precisely when the snapshot is within the persistence bounds and is the
    snapshot of that registry, an accepted one; so replaying the histories of a
    bounded snapshot through the registry's own operations never refuses one and
    rebuilds every revision, predecessor, binding and retirement. *)
Theorem restore_snapshot_exact s r (Hs : wf s) :
  restore_snapshot s = Ok r ↔ registry_ok r ∧ snapshot r = s ∧ validate_snapshot_bounds s = Ok tt.
Proof.
  unfold restore_snapshot. rewrite let_ok_iff. split.
  - intros [Hb H]. destruct (restore_series _ _) as [r'|] eqn:E; [|done]. case_decide as Hne; [done|]. injection H as ->.
    assert (snapshot r = s) as Hsn by not_refused. split_and!; [|done|done].
    wf_split Hs. eapply (restore_series_keeps (snap_series s)); [by apply wf_list_Forall| |exact E].
    by apply registry_ok_new.
  - intros (Hok & <- & Hb). split; [done|]. rewrite snap_series_entries. cbn [snap_store_id snap_limits snapshot].
    rewrite restore_series_rebuilds by done. by rewrite decide_False by tauto.
Qed.
Lemma restore_snapshot_exact_witness :
  registry_ok sample_registry ∧ restore_snapshot (snapshot sample_registry) = Ok sample_registry.
Proof.
  assert (restore_snapshot (snapshot sample_registry) = Ok sample_registry) as E by (by vm_compute).
  split; [|exact E]. by apply (restore_snapshot_exact (snapshot sample_registry) sample_registry); [by vm_compute|].
Defined.
