(* ===== verification/RegistryCodec.v ===== *)
(** * The registry snapshot file

    [och-store/src/manifest.rs]: [encode_registry_snapshot] and
    [decode_registry_snapshot]. A registry is stored as its histories in identity
    order behind a 64-byte header and before a checksum; reading it replays every
    declaration through the registry's own operations and then demands that the
    result encodes to the same bytes. *)

From Stdlib Require Import Strings.String.
From S2P Require Import Prelude Bytes Identity Bounded Value Collection Series Registry Wire Layout Crc Fields Journal.
From S2P Require Import Generation Commit Retry RetryCodec Recovery Active SegmentWire Manifest RegistryReplay.

Definition REGISTRY_MAGIC : list byte := list_byte_of_string "OCHREG01".
Definition REGISTRY_VERSION : Z := 1.
Definition REGISTRY_HEADER_LEN : Z := 64.
Definition REGISTRY_CRC_LEN : Z := 4.

(** ** Encoding *)

Definition encode_registry_retirement (o : option SeriesRetirement) : Put :=
  match o with
  | Some retirement =>
    put_ok (put_u8 1) ;> put_ok (put_u128 (revision_get (retirement_revision retirement))) ;>
    encode_declaration_evidence (retirement_evidence retirement)
  | None => put_ok (put_u8 0)
  end.
Definition encode_registry_history (h : SeriesHistory) : Put :=
  put_ok (put_bytes (into_bytes (history_series_id h))) ;> put_count (len (declarations h)) ;>
  put_all encode_declaration (declarations h) ;> encode_registry_retirement (retirement h).
Definition encode_registry_payload (s : SeriesRegistrySnapshot) : Put := put_all encode_registry_history (snap_series s).

(** Every refused [JournalV1Error] becomes [InvalidRegistry]. *)
Definition invalid_registry_journal (_ : JournalV1Error) : ManifestStoreError := MseInvalidRegistry.

Definition encode_registry_snapshot_with_limit (generation : Z) (s : SeriesRegistrySnapshot) (maximum : Z)
  : result ManifestStoreError (list byte) :=
  let! _ := validate_snapshot_bounds s in
  if decide (generation = 0) then Err MseGenerationExhausted
  else
    let! counter := map_err invalid_registry_journal (encode_registry_payload s encoder_counting) in
    let payload_len := encoder_len counter in
    let! total := ok_or (match checked_add usize_max REGISTRY_HEADER_LEN payload_len with
                         | Some value => checked_add usize_max value REGISTRY_CRC_LEN
                         | None => None
                         end) MseInvalidRegistry in
    if decide (total > maximum ∨ total > MAX_REGISTRY_SNAPSHOT_BYTES) then Err MseInvalidRegistry
    else
      let! encoder := map_err invalid_registry_journal (encode_registry_payload s encoder_new) in
      let payload := encoder_finish encoder in
      if decide (len payload ≠ payload_len) then Err MseInvalidRegistry
      else if decide (max_series (snap_limits s) > u32_max ∨ max_declaration_revisions (snap_limits s) > u32_max ∨
                      len (snap_series s) > u32_max ∨ snap_revision_count s > u32_max)
      then Err MseInvalidRegistry
      else
        let bytes := zeros (Z.to_nat total) in
        let bytes := copy_at 0 REGISTRY_MAGIC bytes in
        let bytes := copy_at 8 (be_bytes 2 REGISTRY_VERSION) bytes in
        let bytes := copy_at 10 (be_bytes 2 REGISTRY_HEADER_LEN) bytes in
        let bytes := copy_at 12 (into_bytes (snap_store_id s)) bytes in
        let bytes := copy_at 28 (be_bytes 8 generation) bytes in
        let bytes := copy_at 36 (be_bytes 4 (max_series (snap_limits s))) bytes in
        let bytes := copy_at 40 (be_bytes 4 (max_declaration_revisions (snap_limits s))) bytes in
        let bytes := copy_at 44 (be_bytes 4 (len (snap_series s))) bytes in
        let bytes := copy_at 48 (be_bytes 4 (snap_revision_count s)) bytes in
        let bytes := copy_at 52 (be_bytes 8 payload_len) bytes in
        let bytes := copy_at REGISTRY_HEADER_LEN payload bytes in
        let checksum_offset := total - REGISTRY_CRC_LEN in
        Ok (copy_at checksum_offset (be_bytes 4 (crc32c (slice 0 checksum_offset bytes))) bytes).
Definition encode_registry_snapshot (generation : Z) (s : SeriesRegistrySnapshot)
  : result ManifestStoreError (list byte) :=
  encode_registry_snapshot_with_limit generation s MAX_REGISTRY_SNAPSHOT_BYTES.

(** ** Decoding *)

(** The passes over the payload refuse with errors of one kind: every refusal of
    the cursor and of the registry becomes [InvalidRegistry]. *)
Definition refuse {A} : Decoder A := fail InvalidCanonicalData.
Definition replayed {A} (r : result ManifestStoreError A) : Decoder A := lift (map_err (λ _, InvalidCanonicalData) r).

Fixpoint decode_declarations (store_id : StoreId) (series_id : SeriesId) (count index : nat) (registry : SeriesRegistry)
  : Decoder SeriesRegistry :=
  match count with
  | O => ret registry
  | S count =>
    let* declaration := decode_declaration in
    if decide (dd_store_id declaration ≠ store_id ∨ dd_series_id declaration ≠ series_id) then refuse
    else
      let* issued := replayed (issue index registry series_id (dd_binding declaration) (dd_previous declaration)
        (dd_payload declaration) (dd_evidence declaration)) in
      if negb (declaration_matches issued.1 declaration) then refuse
      else decode_declarations store_id series_id count (S index) issued.2
  end.
Definition decode_retirement (series_id : SeriesId) (registry : SeriesRegistry) : Decoder SeriesRegistry :=
  let* tag := get_u8 in
  if decide (tag = 0) then ret registry
  else if decide (tag = 1)
  then
    let* revision := decode_revision in let* evidence := decode_declaration_evidence in
    let* issued := replayed (registry_call (retire registry series_id revision evidence)) in
    ret issued.2
  else refuse.

Record registry_pass := mkPass { ps_registry : SeriesRegistry; ps_revisions : Z; ps_previous : option SeriesId }.
Definition decode_series (store_id : StoreId) (max_revisions : Z) (pass : registry_pass) : Decoder registry_pass :=
  let* series_id := decode_id in
  if is_some_and (λ previous, bool_decide (¬ id_lt previous series_id)) (ps_previous pass) then refuse
  else
    let* declaration_count := get_u32 in
    if decide (declaration_count = 0 ∨ declaration_count > Z.max 0 (max_revisions - ps_revisions pass)) then refuse
    else
      let* registry := decode_declarations store_id series_id (Z.to_nat declaration_count) 0 (ps_registry pass) in
      let* registry := decode_retirement series_id registry in
      ret (mkPass registry (ps_revisions pass + declaration_count) (Some series_id)).
Fixpoint decode_all_series (store_id : StoreId) (max_revisions : Z) (count : nat) (pass : registry_pass)
  : Decoder registry_pass :=
  match count with
  | O => ret pass
  | S count => let* pass := decode_series store_id max_revisions pass in decode_all_series store_id max_revisions count pass
  end.

Record DecodedRegistry := mkDecodedRegistry { dr_reference : RegistryReference; dr_registry : SeriesRegistry }.

Definition decode_registry_snapshot (bytes : list byte) : result ManifestStoreError DecodedRegistry :=
  if decide (len bytes < REGISTRY_HEADER_LEN + REGISTRY_CRC_LEN ∨ len bytes > MAX_REGISTRY_SNAPSHOT_BYTES ∨
             slice 0 8 bytes ≠ REGISTRY_MAGIC ∨ u16_at 8 bytes ≠ REGISTRY_VERSION ∨
             u16_at 10 bytes ≠ REGISTRY_HEADER_LEN ∨ ¬ all_zero (slice 60 64 bytes))
  then Err MseInvalidRegistry
  else
    let checksum_offset := len bytes - REGISTRY_CRC_LEN in
    if decide (crc32c (slice 0 checksum_offset bytes) ≠ from_be (slice checksum_offset (len bytes) bytes))
    then Err MseInvalidRegistry
    else
      let! store_id := map_err (λ _, MseInvalidRegistry) (from_bytes (slice 12 28 bytes)) in
      let generation := u64_at 28 bytes in
      let max_series := u32_at 36 bytes in
      let max_revisions := u32_at 40 bytes in
      let series_count := u32_at 44 bytes in
      let revision_count := u32_at 48 bytes in
      let payload_len := u64_at 52 bytes in
      if decide (generation = 0 ∨ max_series > MAX_PERSISTED_REGISTRY_SERIES ∨
                 max_revisions > MAX_PERSISTED_REGISTRY_REVISIONS ∨ series_count > max_series ∨
                 revision_count > max_revisions ∨
                 checked_add usize_max REGISTRY_HEADER_LEN payload_len ≠ Some checksum_offset)
      then Err MseInvalidRegistry
      else
        let registry := registry_new store_id (mkLimits max_series max_revisions) in
        let cursor := cursor_new (slice REGISTRY_HEADER_LEN checksum_offset bytes) in
        let! ' (pass, cursor) := map_err invalid_registry_journal
          (decode_all_series store_id max_revisions (Z.to_nat series_count) (mkPass registry 0 None) cursor) in
        let! _ := map_err invalid_registry_journal (cursor_finish cursor) in
        if decide (ps_revisions pass ≠ revision_count) then Err MseInvalidRegistry
        else
          let! canonical := encode_registry_snapshot generation (snapshot (ps_registry pass)) in
          if decide (canonical ≠ bytes) then Err MseInvalidRegistry
          else Ok (mkDecodedRegistry (mkRegistryReference u8_max generation (len bytes) (crc32c bytes)) (ps_registry pass)).

Definition decode_registry_snapshot_at_slot (bytes : list byte) (slot : Z) : result ManifestStoreError DecodedRegistry :=
  if decide (slot >= 3) then Err MseInvalidRegistry
  else
    let! decoded := decode_registry_snapshot bytes in
    let reference := dr_reference decoded in
    Ok (mkDecodedRegistry (mkRegistryReference slot (rg_generation reference) (rg_length reference) (rg_checksum reference))
      (dr_registry decoded)).

(** ** The wire image of a registry *)

Definition declaration_wire (d : SeriesDeclaration) : list byte := decoded_declaration_wire (decoded_declaration_of d).
Definition registry_retirement_wire (o : option SeriesRetirement) : list byte :=
  match o with
  | Some t => be_bytes 1 1 ++ revision_wire (retirement_revision t) ++ declaration_evidence_wire (retirement_evidence t)
  | None => be_bytes 1 0
  end.
Definition history_wire (h : SeriesHistory) : list byte :=
  into_bytes (history_series_id h) ++ count_wire (len (declarations h)) ++
  concat (declaration_wire <$> declarations h) ++ registry_retirement_wire (retirement h).
Definition registry_payload_wire (hs : list SeriesHistory) : list byte := concat (history_wire <$> hs).

(** ** Lemmas: one history *)

Section history.
Context (store : StoreId) (i : SeriesId) (h : SeriesHistory).
Context (Hs : wf store) (Hh : history_ok store i h) (Hl : len (declarations h) ≤ u32_max).

Lemma declaration_wf k d : declarations h !! k = Some d → wf (decoded_declaration_of d).
Proof using All.
  intros Hk. destruct (ho_declaration _ _ _ Hh _ _ Hk) as (Hd & Hp & He). destruct (ho_wf _ _ _ Hh) as [Hi Hb].
  pose proof (lookup_lt_Some _ _ _ Hk). unfold u32_max, len in Hl.
  rewrite Hd. unfold decoded_declaration_of. cbn.
  wf_intro; cbn; try assumption.
  - apply in_range_spec. cbn. unfold u128_max. lia.
  - case_decide; [done|]. change (Is_true (wf (mkRevision (Z.of_nat k)))). apply in_range_spec. cbn. unfold u128_max. lia.
Qed.
Lemma declarations_wf : Forall (λ d, Is_true (wf (decoded_declaration_of d))) (declarations h).
Proof using All. apply Forall_lookup. intros k d. apply declaration_wf. Qed.
Lemma retirement_wf t : retirement h = Some t → wf (retirement_revision t) ∧ wf (retirement_evidence t).
Proof using All.
  intros Ht. destruct (ho_retirement _ _ _ Hh t Ht) as [-> He]. split; [|done]. apply in_range_spec. cbn.
  pose proof (ho_nonempty _ _ _ Hh). unfold u32_max, u128_max, len in *. destruct (declarations h); [done|]. cbn in *. lia.
Qed.

Lemma history_writes : writes (encode_registry_history h) (history_wire h).
Proof using All.
  unfold encode_registry_history, history_wire. apply writes_then; [apply writes_bytes|].
  apply writes_then; [by apply writes_count|]. apply writes_then.
  - apply writes_all. eapply Forall_impl; [apply declarations_wf|]. intros d Hd.
    apply (codec_writes (IsCodec := decoded_declaration_codec) (decoded_declaration_of d) Hd).
  - unfold encode_registry_retirement, registry_retirement_wire. pose proof retirement_wf as Ht.
    destruct (retirement h) as [t|]; [|apply writes_u8]. destruct (Ht t eq_refl) as [_ He].
    apply writes_then; [apply writes_u8|]. apply writes_then; [apply writes_u128|]. by apply codec_writes.
Qed.

Lemma len_history : len (history_wire h) ≤ 182 + 24832 * len (declarations h).
Proof using All.
  unfold history_wire. rewrite !len_app, len_count_wire. rewrite len_into_bytes by (rewrite (ho_series_id _ _ _ Hh); apply (ho_wf _ _ _ Hh)).
  pose proof (len_concat_map declaration_wire _ 24832 _
    (λ d, codec_len (IsCodec := decoded_declaration_codec) (decoded_declaration_of d)) declarations_wf).
  assert (len (registry_retirement_wire (retirement h)) ≤ 162); [|lia].
  unfold registry_retirement_wire. pose proof retirement_wf as Ht. destruct (retirement h) as [t|]; [|by rewrite len_be_bytes].
  destruct (Ht t eq_refl) as [Hr He]. rewrite !len_app, len_be_bytes.
  pose proof (codec_len (IsCodec := revision_codec) _ Hr). pose proof (codec_len (IsCodec := declaration_evidence_codec) _ He). lia.
Qed.
End history.

(** ** Lemmas: reading one history back *)

Lemma declaration_matches_of d : declaration_matches d (decoded_declaration_of d).
Proof. unfold declaration_matches. rewrite !bool_decide_true by done. done. Qed.

Lemma reads_replayed {A} (r : result ManifestStoreError A) a : r = Ok a → reads (replayed r) a [].
Proof. intros ->. by apply reads_lift. Qed.

Section read_history.
Context (r : SeriesRegistry) (i : SeriesId) (h : SeriesHistory).
Context (Hs : wf (reg_store_id r)).
Context (Hh : history_ok (reg_store_id r) i h) (Hfresh : reg_series r !! i = None).
Context (Hlim : wf (reg_limits r)) (Hc : series_count r < max_series (reg_limits r)).
Context (Hpos : 0 ≤ reg_revision_count r).
Context (Hrev : reg_revision_count r + len (declarations h) ≤ max_declaration_revisions (reg_limits r)).
Context (Hl : len (declarations h) ≤ u32_max).

Lemma declarations_read k ds :
  drop k (declarations h) = ds →
  reads (decode_declarations (reg_store_id r) i (length ds) k (partial r i h k)) (partial r i h (k + length ds))
    (concat (declaration_wire <$> ds)).
Proof using All.
  revert k. induction ds as [|d ds IH]; intros k E; cbn [length decode_declarations].
  - rewrite Nat.add_0_r. apply reads_ret.
  - assert (declarations h !! k = Some d) as Hk by (rewrite <-(Nat.add_0_r k), <-lookup_drop, E; done).
    pose proof (declaration_wf _ _ _ Hs Hh Hl _ _ Hk) as Hw. rewrite fmap_cons. cbn [concat].
    eapply reads_and_then; [by apply (codec_reads (IsCodec := decoded_declaration_codec))|].
    destruct (ho_declaration _ _ _ Hh _ _ Hk) as (Hd & _ & _).
    rewrite decide_False by (rewrite Hd; cbn; tauto).
    rewrite <-(app_nil_l (concat _)). eapply reads_and_then.
    + apply reads_replayed. cbn [decoded_declaration_of dd_binding dd_previous dd_payload dd_evidence].
      replace (decl_binding d) with (history_binding h) by (by rewrite Hd). by apply issue_replays.
    + cbn [fst snd]. pose proof (declaration_matches_of d) as Hm. apply Is_true_true in Hm. rewrite Hm. cbn [negb].
      rewrite <-Nat.add_succ_comm. apply IH. by rewrite <-Nat.add_1_r, <-drop_drop, E.
Qed.

Lemma retirement_read c :
  reads (decode_retirement i (with_history r i (mkHistory i (history_binding h) (declarations h) None) c))
    (with_history r i h c) (registry_retirement_wire (retirement h)).
Proof using All.
  unfold decode_retirement, registry_retirement_wire. pose proof (retirement_wf _ _ _ Hs Hh Hl) as Hw.
  pose proof (ho_series_id _ _ _ Hh) as Hi. destruct (retirement h) as [t|] eqn:Et.
  - destruct (Hw t eq_refl) as [Hr He]. destruct (ho_retirement _ _ _ Hh t Et) as [Er _].
    eapply reads_and_then; [by apply reads_u8|]. cbv beta.
    rewrite decide_False, decide_True by done.
    eapply reads_and_then; [by apply (codec_reads (IsCodec := revision_codec))|]. cbv beta.
    rewrite <-(app_nil_r (declaration_evidence_wire _)).
    eapply reads_and_then; [by apply (codec_reads (IsCodec := declaration_evidence_codec))|]. cbv beta.
    rewrite <-(app_nil_l []). eapply reads_and_then; [|apply reads_ret_eq].
    + apply reads_replayed. unfold registry_call, retire. cbn [with_history reg_series]. rewrite lookup_insert_eq.
      destruct (history_last _ _ _ Hh) as (pre & c' & Ed & Hlast & Hrc & _). unfold latest_declaration in *.
      cbn [retirement declarations].
      rewrite Hlast, Hrc, Er, decide_False by tauto. cbn [fst snd]. reflexivity.
    + cbn [snd]. rewrite with_history_again. cbn [history_series_id history_binding declarations].
      cbn [with_history reg_revision_count]. f_equal. rewrite <-Er. destruct h as [? ? ? ?], t. cbn in *. by simplify_eq.
  - eapply reads_last; [by apply (reads_u8 0)|]. cbv beta.
    rewrite decide_True by done. apply reads_ret_eq. f_equal. destruct h as [? ? ? ?]. cbn in *. by simplify_eq.
Qed.

Lemma series_read previous :
  (∀ p, previous = Some p → id_lt p i) →
  reads (decode_series (reg_store_id r) (max_declaration_revisions (reg_limits r)) (mkPass r (reg_revision_count r) previous))
    (mkPass (add_history r h) (reg_revision_count r + len (declarations h)) (Some i)) (history_wire h).
Proof using All.
  intros Hprev. pose proof (ho_series_id _ _ _ Hh) as Hi. destruct (ho_wf _ _ _ Hh) as [Hwi _].
  pose proof (ho_nonempty _ _ _ Hh) as Hne. pose proof (len_nonneg (declarations h)).
  assert (len (declarations h) ≠ 0) by (unfold len; destruct (declarations h); [done|cbn; lia]).
  unfold decode_series, history_wire. rewrite Hi.
  eapply reads_and_then; [by apply (codec_reads (IsCodec := id_codec _))|]. cbv beta. cbn [ps_previous ps_revisions ps_registry].
  assert (is_some_and (λ p, bool_decide (¬ id_lt p i)) previous = false) as ->.
  { apply is_some_and_false. intros p Hp. apply bool_decide_eq_false. pose proof (Hprev p Hp). tauto. }
  unfold count_wire. eapply reads_and_then; [apply reads_u32, in_range_spec; lia|]. cbv beta.
  rewrite decide_False by lia. replace (Z.to_nat (len (declarations h))) with (length (declarations h)) by (unfold len; lia).
  eapply reads_and_then; [exact (declarations_read 0 (declarations h) eq_refl)|]. cbv beta.
  rewrite <-(app_nil_r (registry_retirement_wire _)). cbn [Nat.add].
  eapply reads_and_then; [|apply reads_ret]. unfold partial, add_history. rewrite Hi.
  rewrite decide_False by (intros N; destruct (declarations h); done). rewrite firstn_all. apply retirement_read.
Qed.
End read_history.

(** ** Lemmas: the whole registry *)

Lemma all_series_read hs r previous :
  wf (reg_store_id r) → replayable r hs → Forall (λ h, len (declarations h) ≤ u32_max) hs →
  StronglySorted id_lt (history_series_id <$> hs) →
  (∀ p, previous = Some p → Forall (λ h, id_lt p (history_series_id h)) hs) →
  ∃ last, reads (decode_all_series (reg_store_id r) (max_declaration_revisions (reg_limits r)) (length hs)
      (mkPass r (reg_revision_count r) previous))
    (mkPass (foldl add_history r hs) (reg_revision_count r + history_total hs) last) (registry_payload_wire hs).
Proof.
  intros Hs. revert r previous Hs. induction hs as [|h hs IH]; intros r previous Hs Hr Hu Hsort Hprev.
  { exists previous. cbn. rewrite Z.add_0_r. apply reads_ret. }
  pose proof (rb_limits _ _ Hr) as Hl. pose proof (rb_count _ _ Hr) as Hp.
  apply replayable_cons in Hr as ((Hho & Hi & Hc & Ht) & Hr). rewrite Forall_cons in Hu. destruct Hu as [Hu Hu'].
  rewrite fmap_cons in Hsort. apply StronglySorted_inv in Hsort as [Hsort Hfirst]. rewrite Forall_fmap in Hfirst.
  destruct (IH (add_history r h) (Some (history_series_id h)) Hs Hr Hu' Hsort) as [last Hlast].
  { by intros p [= <-]. }
  exists last. cbn [length decode_all_series foldl]. unfold registry_payload_wire. rewrite fmap_cons. cbn [concat].
  eapply reads_and_then.
  - apply (series_read r (history_series_id h) h); try assumption. intros p Hp'. specialize (Hprev p Hp').
    by rewrite Forall_cons in Hprev; destruct Hprev.
  - cbn [add_history reg_revision_count] in Hlast. unfold history_total. cbn [foldr]. fold (history_total hs).
    rewrite Z.add_assoc. exact Hlast.
Qed.

(** ** The layout of the file *)

Section registry_file.
Context (generation : Z) (s : SeriesRegistrySnapshot).

Definition registry_header_fields : list (list byte) :=
  [REGISTRY_MAGIC; be_bytes 2 REGISTRY_VERSION; be_bytes 2 REGISTRY_HEADER_LEN; into_bytes (snap_store_id s);
   be_bytes 8 generation; be_bytes 4 (max_series (snap_limits s));
   be_bytes 4 (max_declaration_revisions (snap_limits s)); be_bytes 4 (len (snap_series s));
   be_bytes 4 (snap_revision_count s); be_bytes 8 (len (registry_payload_wire (snap_series s))); zeros 4].
Definition registry_covered : list byte := concat registry_header_fields ++ registry_payload_wire (snap_series s).
Definition registry_file_wire : list byte := registry_covered ++ be_bytes 4 (crc32c registry_covered).
End registry_file.

Lemma len_registry_magic : len REGISTRY_MAGIC = 8.
Proof. done. Qed.
#[local] Hint Rewrite len_registry_magic : len.
Lemma len_registry_header g s : wf (snap_store_id s) → len (concat (registry_header_fields g s)) = 64.
Proof. intros Hs%len_into_bytes. unfold registry_header_fields. cbn [concat]. autorewrite with len. rewrite Hs. done. Qed.
Lemma len_registry_file g s :
  wf (snap_store_id s) → len (registry_file_wire g s) = 68 + len (registry_payload_wire (snap_series s)).
Proof.
  intros Hs. unfold registry_file_wire, registry_covered. rewrite !len_app, len_be_bytes, len_registry_header by done. lia.
Qed.

(** What an accepted registry within the bounds offers to the encoder. *)
Record registry_storable (r : SeriesRegistry) : Prop := {
  rs_ok : registry_ok r;
  rs_bounds : validate_snapshot_bounds (snapshot r) = Ok tt }.

Section storable.
Context (r : SeriesRegistry) (Hr : registry_storable r).

Lemma storable_counts :
  max_series (reg_limits r) ≤ MAX_PERSISTED_REGISTRY_SERIES ∧
  max_declaration_revisions (reg_limits r) ≤ MAX_PERSISTED_REGISTRY_REVISIONS ∧
  len ((ordered_entries r).*2) ≤ max_series (reg_limits r) ∧
  0 ≤ reg_revision_count r ∧ reg_revision_count r ≤ max_declaration_revisions (reg_limits r) ∧
  history_total ((ordered_entries r).*2) = reg_revision_count r.
Proof using All.
  destruct Hr as [Hok Hb]. unfold validate_snapshot_bounds in Hb. rewrite guard_Ok, snap_series_entries in Hb. cbn in Hb.
  destruct (registry_histories r Hok) as (_ & _ & _ & Ht & _). pose proof (history_total_nonneg ((ordered_entries r).*2)). lia.
Qed.

Lemma storable_histories :
  Forall (λ h, history_ok (reg_store_id r) (history_series_id h) h ∧ len (declarations h) ≤ u32_max) ((ordered_entries r).*2).
Proof using All.
  pose proof (registry_histories r (rs_ok _ Hr)) as (Hh & _). pose proof storable_counts as (_ & H2 & _ & _ & H5 & H6).
  apply Forall_forall. intros h Hin. rewrite Forall_forall in Hh. split; [by apply Hh|].
  assert (∀ l, h ∈ l → len (declarations h) ≤ history_total l) as Hle.
  { induction l as [|x l IH]; [by intros ?%elem_of_nil|]. pose proof (history_total_nonneg l). pose proof (len_nonneg (declarations x)).
    intros [->|Hx]%elem_of_cons; cbn; fold (history_total l); [lia|]. specialize (IH Hx). lia. }
  specialize (Hle _ Hin). unfold MAX_PERSISTED_REGISTRY_REVISIONS, u32_max in *. lia.
Qed.

Lemma registry_payload_writes : writes (encode_registry_payload (snapshot r)) (registry_payload_wire ((ordered_entries r).*2)).
Proof using All.
  unfold encode_registry_payload. rewrite snap_series_entries. apply writes_all.
  eapply Forall_impl; [apply storable_histories|]. intros h [Hh Hl]. eapply history_writes; [|exact Hh|exact Hl].
  apply (ok_store _ (rs_ok _ Hr)).
Qed.

Lemma len_registry_payload : len (registry_payload_wire ((ordered_entries r).*2)) ≤ usize_max - 68.
Proof using All.
  pose proof storable_histories as Hh. pose proof storable_counts as (H1 & H2 & H3 & _ & H5 & H6).
  assert (∀ l, Forall (λ h, history_ok (reg_store_id r) (history_series_id h) h ∧ len (declarations h) ≤ u32_max) l →
    len (registry_payload_wire l) ≤ 182 * len l + 24832 * history_total l) as Hle.
  { induction 1 as [|h l [Hx Hy] _ IH]; [done|]. unfold registry_payload_wire in *. rewrite fmap_cons. cbn [concat].
    rewrite len_app, len_cons. unfold history_total. cbn [foldr]. fold (history_total l).
    pose proof (len_history _ _ _ (ok_store _ (rs_ok _ Hr)) Hx Hy). lia. }
  specialize (Hle _ Hh). unfold MAX_PERSISTED_REGISTRY_REVISIONS, MAX_PERSISTED_REGISTRY_SERIES, usize_max, u64_max in *. lia.
Qed.
End storable.

(** The header fields are written into a zeroed buffer in order. *)
Lemma registry_body_layout g s :
  wf (snap_store_id s) →
  let payload := registry_payload_wire (snap_series s) in
  let bytes := copy_at 0 REGISTRY_MAGIC (zeros (Z.to_nat (64 + len payload + 4))) in
  let bytes := copy_at 8 (be_bytes 2 REGISTRY_VERSION) bytes in
  let bytes := copy_at 10 (be_bytes 2 REGISTRY_HEADER_LEN) bytes in
  let bytes := copy_at 12 (into_bytes (snap_store_id s)) bytes in
  let bytes := copy_at 28 (be_bytes 8 g) bytes in
  let bytes := copy_at 36 (be_bytes 4 (max_series (snap_limits s))) bytes in
  let bytes := copy_at 40 (be_bytes 4 (max_declaration_revisions (snap_limits s))) bytes in
  let bytes := copy_at 44 (be_bytes 4 (len (snap_series s))) bytes in
  let bytes := copy_at 48 (be_bytes 4 (snap_revision_count s)) bytes in
  let bytes := copy_at 52 (be_bytes 8 (len payload)) bytes in
  copy_at 64 payload bytes = registry_covered g s ++ zeros (Z.to_nat 4).
Proof.
  intros Hs. unfold registry_covered, registry_header_fields. cbv zeta. generalize (registry_payload_wire (snap_series s)).
  intros payload. pose proof (len_nonneg payload). apply len_into_bytes in Hs.
  rewrite <-(app_nil_l (zeros (Z.to_nat (64 + len payload + 4)))).
  rewrite copy_at_next by (rewrite ?len_registry_magic; done || lia). rewrite app_nil_l, len_registry_magic.
  do 2 fill. rewrite copy_at_next by (autorewrite with len; lia). rewrite Hs.
  do 6 (rewrite copy_at_next by (autorewrite with len; rewrite ?Hs; lia); rewrite len_be_bytes).
  match goal with |- copy_at _ _ (_ ++ zeros (Z.to_nat ?n)) = _ => replace n with (4 + (len payload + 4)) by lia end.
  rewrite zeros_split, app_assoc by lia. change (zeros (Z.to_nat 4)) with (zeros 4) at 1.
  rewrite copy_at_next by (autorewrite with len; rewrite ?Hs; lia).
  replace (len payload + 4 - len payload) with 4 by lia. f_equal.
  cbn [concat]. rewrite app_nil_r, <-!app_assoc. reflexivity.
Qed.

Lemma encode_registry_Ok g r bytes :
  registry_storable r →
  encode_registry_snapshot g (snapshot r) = Ok bytes ↔
  g ≠ 0 ∧ len (registry_file_wire g (snapshot r)) ≤ MAX_REGISTRY_SNAPSHOT_BYTES ∧ bytes = registry_file_wire g (snapshot r).
Proof.
  intros Hr. pose proof (ok_store _ (rs_ok _ Hr)) as Hs. pose proof (registry_payload_writes r Hr) as Hp.
  pose proof (len_registry_payload r Hr) as Hl. pose proof (storable_counts r Hr) as (H1 & H2 & H3 & H4 & H5 & _).
  rewrite len_registry_file by done. rewrite snap_series_entries.
  set (payload := registry_payload_wire ((ordered_entries r).*2)) in *. pose proof (len_nonneg payload).
  unfold encode_registry_snapshot, encode_registry_snapshot_with_limit. rewrite let_ok_iff, (rs_bounds _ Hr), guard_Ok.
  rewrite Hp by done. cbn [map_err]. rewrite put_bytes_counting by lia. unfold REGISTRY_CRC_LEN.
  cbv zeta. unfold REGISTRY_HEADER_LEN at 1. do 2 (rewrite checked_add_ok by lia). cbn [ok_or]. rewrite guard_Ok.
  rewrite Hp by done. cbn [map_err]. rewrite put_bytes_nil_new. cbn [encoder_finish output]. rewrite decide_False by tauto.
  rewrite guard_Ok, snap_series_entries. cbn [snap_limits snap_revision_count snapshot].
  assert (¬ (max_series (reg_limits r) > u32_max ∨ max_declaration_revisions (reg_limits r) > u32_max ∨
    len ((ordered_entries r).*2) > u32_max ∨ reg_revision_count r > u32_max)) as Hu
    by (unfold MAX_PERSISTED_REGISTRY_SERIES, MAX_PERSISTED_REGISTRY_REVISIONS, u32_max in *; lia).
  pose proof (registry_body_layout g (snapshot r) Hs) as Hb. rewrite snap_series_entries in Hb. cbv zeta in Hb. fold payload in Hb.
  cbn [snap_limits snap_revision_count snap_store_id snapshot] in Hb |- *.
  change REGISTRY_HEADER_LEN with 64 in Hb |- *. rewrite Hb.
  assert (len (registry_covered g (snapshot r)) = 64 + len payload) as Hc.
  { unfold registry_covered. rewrite len_app, len_registry_header, snap_series_entries by done. done. }
  replace (64 + len payload + 4 - 4) with (len (registry_covered g (snapshot r))) by lia.
  rewrite slice_app_0 by done. rewrite copy_at_next by (rewrite ?len_be_bytes; lia).
  rewrite len_be_bytes, app_nil_r. fold (registry_file_wire g (snapshot r)). naive_solver lia.
Qed.

(** ** Lemmas: whatever is read is an accepted registry *)

Lemma kept_refl r : registry_ok r → kept r r.
Proof. by split. Qed.
Lemma kept_trans r1 r2 r3 : kept r1 r2 → kept r2 r3 → kept r1 r3.
Proof. intros (? & ? & ?) (? & ? & ?). split_and!; [done|congruence|congruence]. Qed.

Lemma accepts_replayed {A} (r : result ManifestStoreError A) : accepts (replayed r) (λ a _, r = Ok a).
Proof. apply accepts_lift. intros a. unfold map_err. destruct r; [|done]. by intros [= <-]. Qed.

Lemma declarations_accepted store i n : wf i → ∀ k r,
  registry_ok r → accepts (decode_declarations store i n k r) (λ r' _, kept r r').
Proof.
  intros Hi. induction n as [|n IH]; intros k r Hok; cbn [decode_declarations]; [by apply accepts_ret, kept_refl|].
  eapply accepts_and_then; [apply (codec_accepts (IsCodec := decoded_declaration_codec))|]. intros d v [Hd _]. cbv beta.
  case_decide as C; [apply accepts_fail|].
  eapply accepts_and_then; [apply accepts_replayed|]. intros [a r1] w Ha. cbn [fst snd].
  destruct (negb _); [apply accepts_fail|]. wf_split Hd.
  apply issue_keeps in Ha as Hk; [|assumption..]. eapply accepts_mono; [apply IH; apply Hk|].
  intros r2 ? Hk2. by eapply kept_trans.
Qed.

Lemma retirement_accepted i r : wf i → registry_ok r → accepts (decode_retirement i r) (λ r' _, kept r r').
Proof.
  intros Hi Hok. unfold decode_retirement. eapply accepts_and_then; [apply accepts_u8|]. intros tag v _. cbv beta.
  case_decide; [by apply accepts_ret, kept_refl|]. case_decide; [|apply accepts_fail].
  eapply accepts_and_then; [apply (codec_accepts (IsCodec := revision_codec))|]. intros n w1 [Hn _]. cbv beta.
  eapply accepts_and_then; [apply (codec_accepts (IsCodec := declaration_evidence_codec))|]. intros e w2 [He _]. cbv beta.
  eapply accepts_and_then; [apply accepts_replayed|]. intros [t r1] w3 Ha. cbv beta.
  apply accepts_ret. cbn [snd]. by apply retire_keeps in Ha.
Qed.

Lemma series_accepted store max pass :
  registry_ok (ps_registry pass) →
  accepts (decode_series store max pass) (λ pass' _, kept (ps_registry pass) (ps_registry pass')).
Proof.
  intros Hok. unfold decode_series. eapply accepts_and_then; [apply (codec_accepts (IsCodec := id_codec _))|].
  intros i v [Hi _]. cbv beta. destruct (is_some_and _ _); [apply accepts_fail|].
  eapply accepts_and_then; [apply accepts_u32|]. intros n w _. cbv beta. case_decide; [apply accepts_fail|].
  eapply accepts_and_then; [by apply declarations_accepted|]. intros r1 w1 Hk1. cbv beta.
  eapply accepts_and_then; [apply retirement_accepted; [done|apply Hk1]|]. intros r2 w2 Hk2. cbv beta.
  apply accepts_ret. cbn [ps_registry]. exact (kept_trans _ _ _ Hk1 Hk2).
Qed.

Lemma all_series_accepted store max n : ∀ pass,
  registry_ok (ps_registry pass) →
  accepts (decode_all_series store max n pass) (λ pass' _, kept (ps_registry pass) (ps_registry pass')).
Proof.
  induction n as [|n IH]; intros pass Hok; cbn [decode_all_series]; [by apply accepts_ret, kept_refl|].
  eapply accepts_and_then; [by apply series_accepted|]. intros pass1 v Hk. cbv beta.
  eapply accepts_mono; [apply IH; apply Hk|]. intros pass2 ? Hk2. exact (kept_trans _ _ _ Hk Hk2).
Qed.

Lemma decode_registry_sound bytes d :
  decode_registry_snapshot bytes = Ok d →
  registry_storable (dr_registry d) ∧ is_u64 (rg_generation (dr_reference d)) ∧
  dr_reference d = mkRegistryReference u8_max (rg_generation (dr_reference d)) (len bytes) (crc32c bytes) ∧
  encode_registry_snapshot (rg_generation (dr_reference d)) (snapshot (dr_registry d)) = Ok bytes.
Proof.
  unfold decode_registry_snapshot. rewrite guard_Ok. intros [Hpre H]. cbv zeta in H. rewrite guard_Ok, map_err_Ok in H.
  destruct H as (_ & store & Hid & H). rewrite guard_Ok, map_err_Ok in H. destruct H as (Hg & [pass c] & Hp & H).
  rewrite let_ok_iff, guard_Ok, let_Ok in H. destruct H as (_ & _ & canonical & Hc & H). rewrite guard_Ok in H.
  destruct H as (Hb & [= <-]). assert (canonical = bytes) as -> by not_refused. cbn [dr_reference dr_registry rg_generation].
  apply from_bytes_wf in Hid as [Hs _]; [|pose proof (len_slice 12 28 bytes);
    unfold REGISTRY_HEADER_LEN, REGISTRY_CRC_LEN, len in *; lia].
  assert (wf (mkLimits (u32_at 36 bytes) (u32_at 40 bytes))) as Hl.
  { pose proof (u32_at_range 36 bytes ltac:(lia)) as H36%in_range_spec. pose proof (u32_at_range 40 bytes ltac:(lia)) as H40%in_range_spec.
    unfold u32_max in *. wf_intro; apply in_range_spec; cbn; unfold usize_max, u64_max; lia. }
  apply (all_series_accepted store _ _ (mkPass (registry_new store (mkLimits (u32_at 36 bytes) (u32_at 40 bytes))) 0 None)
    (registry_ok_new _ _ Hs Hl) [] _) in Hp as (w & post & _ & _ & Hk).
  split_and!; [|by apply u64_at_range|done|exact Hc]. split; [apply Hk|].
  unfold encode_registry_snapshot, encode_registry_snapshot_with_limit in Hc. rewrite let_ok_iff in Hc. apply Hc.
Qed.

(** ** Lemmas: reading a stored registry *)

(** The header fields at their offsets. *)
Lemma registry_header_slices g s post :
  wf (snap_store_id s) →
  let bytes := concat (registry_header_fields g s) ++ post in
  slice 0 8 bytes = REGISTRY_MAGIC ∧ slice 8 (8 + 2) bytes = be_bytes 2 REGISTRY_VERSION ∧
  slice 10 (10 + 2) bytes = be_bytes 2 REGISTRY_HEADER_LEN ∧ slice 12 28 bytes = into_bytes (snap_store_id s) ∧
  slice 28 (28 + 8) bytes = be_bytes 8 g ∧ slice 36 (36 + 4) bytes = be_bytes 4 (max_series (snap_limits s)) ∧
  slice 40 (40 + 4) bytes = be_bytes 4 (max_declaration_revisions (snap_limits s)) ∧
  slice 44 (44 + 4) bytes = be_bytes 4 (len (snap_series s)) ∧
  slice 48 (48 + 4) bytes = be_bytes 4 (snap_revision_count s) ∧
  slice 52 (52 + 8) bytes = be_bytes 8 (len (registry_payload_wire (snap_series s))) ∧ slice 60 64 bytes = zeros 4.
Proof.
  intros Hw bytes. pose proof (len_into_bytes _ Hw) as Hs. pose proof (len_registry_header g s Hw) as Hl.
  assert (fields_at 0 (registry_header_fields g s) bytes) as Hf.
  { apply fields_at_slice; [done|unfold bytes, fields_len; rewrite len_app, Hl; pose proof (len_nonneg post); lia|].
    unfold bytes, fields_len. rewrite Z.add_0_l. by apply slice_app_0. }
  unfold registry_header_fields in Hf. cbn [fields_at] in Hf. autorewrite with len in Hf. rewrite Hs in Hf. offsets Hf.
  destruct Hf as (F1 & F2 & F3 & F4 & F5 & F6 & F7 & F8 & F9 & F10 & F11 & _). by split_and!.
Qed.

(** The payload of a stored registry holds its histories and nothing else. *)
Lemma registry_payload_read r :
  registry_storable r →
  let payload := registry_payload_wire ((ordered_entries r).*2) in
  ∃ last, decode_all_series (reg_store_id r) (max_declaration_revisions (reg_limits r))
      (Z.to_nat (len ((ordered_entries r).*2))) (mkPass (registry_new (reg_store_id r) (reg_limits r)) 0 None)
      (cursor_new payload) =
    Ok (mkPass r (reg_revision_count r) last, mkCursor payload (len payload)).
Proof.
  intros Hr payload. pose proof (rs_ok _ Hr) as Hok. destruct (registry_replayable r Hok) as [Hrep Hre].
  pose proof (storable_counts r Hr) as (_ & _ & _ & _ & _ & Ht). pose proof (len_registry_payload r Hr) as Hl.
  destruct (all_series_read _ (registry_new (reg_store_id r) (reg_limits r)) None (ok_store _ Hok) Hrep) as [last Hread].
  - eapply Forall_impl; [apply (storable_histories r Hr)|]. by intros h [_ ?].
  - pose proof (series_ids_sorted r) as Hsort. unfold series_ids in Hsort.
    rewrite (ordered_entries_histories r Hok), <-list_fmap_compose in Hsort. exact Hsort.
  - done.
  - exists last. specialize (Hread [] []). rewrite app_nil_r in Hread. cbn [app] in Hread. fold payload in Hread.
    rewrite Hre in Hread. change (len []) with 0 in Hread.
    change (reg_revision_count (registry_new (reg_store_id r) (reg_limits r))) with 0 in Hread. rewrite <-Ht.
    replace (Z.to_nat (len ((ordered_entries r).*2))) with (length ((ordered_entries r).*2)) by (unfold len; lia).
    apply Hread. unfold payload. lia.
Qed.

Lemma decode_registry_complete g r bytes :
  registry_storable r → is_u64 g → encode_registry_snapshot g (snapshot r) = Ok bytes →
  decode_registry_snapshot bytes =
    Ok (mkDecodedRegistry (mkRegistryReference u8_max g (len bytes) (crc32c bytes)) r).
Proof.
  intros Hr Hg%in_range_spec Henc. pose proof (ok_store _ (rs_ok _ Hr)) as Hs.
  pose proof (proj1 (encode_registry_Ok g r bytes Hr) Henc) as (Hg0 & Hmax & E). set (s := snapshot r) in *.
  pose proof (storable_counts r Hr) as (H1 & H2 & H3 & H4 & H5 & H6). pose proof (len_registry_payload r Hr) as Hpl.
  destruct (slice_trailer (registry_covered g s) (be_bytes 4 (crc32c (registry_covered g s))) 4) as [Hcov Hcrc];
    [apply len_be_bytes|]. fold (registry_file_wire g s) in Hcov, Hcrc.
  destruct (registry_header_slices g s (registry_payload_wire (snap_series s) ++ be_bytes 4 (crc32c (registry_covered g s))) Hs)
    as (G0 & G8 & G10 & G12 & G28 & G36 & G40 & G44 & G48 & G52 & G60).
  assert (slice 64 (len (registry_file_wire g s) - 4) (registry_file_wire g s) = registry_payload_wire (snap_series s)) as Hp.
  { rewrite len_registry_file by done. unfold registry_file_wire, registry_covered. rewrite <-app_assoc.
    apply slice_app; rewrite ?len_registry_header by done; lia. }
  rewrite app_assoc in *. fold (registry_covered g s) (registry_file_wire g s) in *. rewrite <-E in *.
  assert (len bytes = 68 + len (registry_payload_wire (snap_series s))) as Hlen by (rewrite E; by apply len_registry_file).
  pose proof (len_nonneg (registry_payload_wire (snap_series s))). pose proof (len_nonneg (snap_series s)).
  unfold decode_registry_snapshot, u16_at, u32_at, u64_at, REGISTRY_CRC_LEN. change REGISTRY_HEADER_LEN with 64 in *.
  rewrite G0, G8, G10, G12, G28, G36, G40, G44, G48, G52, G60, Hcov, Hcrc, Hp. cbv zeta.
  unfold s in *. rewrite snap_series_entries in *. cbn [snap_limits snap_revision_count snap_store_id snapshot] in *.
  pose proof (crc32c_range (registry_covered g (snapshot r))) as Hcr%in_range_spec.
  unfold usize_max, u32_max, u64_max, MAX_PERSISTED_REGISTRY_SERIES, MAX_PERSISTED_REGISTRY_REVISIONS, REGISTRY_VERSION in *.
  rewrite !from_be_bytes_small by lia.
  rewrite decide_False by (pose proof (all_zero_zeros 4); intros [?|[?|[?|[?|[?|?]]]]]; try done; lia).
  rewrite decide_False by tauto. rewrite from_bytes_into by done. cbn [map_err]. rewrite checked_add_ok by lia.
  rewrite decide_False by (intros [?|[?|[?|[?|[?|N]]]]]; try lia; apply N; f_equal; lia).
  replace (mkLimits (max_series (reg_limits r)) (max_declaration_revisions (reg_limits r))) with (reg_limits r)
    by (by destruct (reg_limits r)).
  destruct (registry_payload_read r Hr) as [last ->]. cbn [map_err]. unfold cursor_finish. cbn [cur_offset cur_bytes].
  rewrite decide_True by done. cbn [map_err ps_revisions ps_registry]. rewrite decide_False by tauto. rewrite Henc.
  by rewrite decide_False by tauto.
Qed.

(** ** Properties *)

(** C15: The registry snapshot file is exact: bytes are read as a registry at a
    generation precisely when that registry is an accepted one within the
    persistence bounds and the bytes are the encoding of its snapshot; so whatever
    is read back was written, every written registry is read back unchanged, and
    the replay that reading performs never refuses one. The reference returned
    carries the length and checksum of the bytes. *)
Theorem registry_codec_exact bytes d :
  decode_registry_snapshot bytes = Ok d ↔
  registry_storable (dr_registry d) ∧ is_u64 (rg_generation (dr_reference d)) ∧
  dr_reference d = mkRegistryReference u8_max (rg_generation (dr_reference d)) (len bytes) (crc32c bytes) ∧
  encode_registry_snapshot (rg_generation (dr_reference d)) (snapshot (dr_registry d)) = Ok bytes.
Proof.
  split; [apply decode_registry_sound|]. intros (Hr & Hg & Href & Henc).
  rewrite (decode_registry_complete _ _ _ Hr Hg Henc), <-Href. by destruct d.
Qed.
