(* ===== verification/Directory.v ===== *)
(** * The store directory beside the journal

    What [och-store/src/manifest.rs] uses of the file system for its reusable
    slots: files created under a staging name, written, synchronized and renamed
    over a slot, files read and removed, and the synchronization of the directory.
    The active journal and its checkpoint stay on the disk of [Disk.v], whose list
    of events decides here too which operation fails; the two parts of the
    directory have different names and are synchronized together. *)

From S2P Require Import Prelude Bytes Layout Commit Journal Active Scan Effects Disk Segment Manifest.

(** ** Files and directory states *)

(** A file whose bytes are [sf_settled] outlives a power loss as it is. *)
Record sfile := mkSfile { sf_data : list byte; sf_settled : bool }.
#[export] Instance sfile_eq_dec : EqDecision sfile.
Proof. solve_decision. Defined.
Definition settled (bytes : list byte) : sfile := mkSfile bytes true.

(** The entries that the directory shows, and those it has shown since it was
    last synchronized. *)
Abbreviation entries := (gmap (list byte) sfile).
Record dir := mkDir { dr_now : entries; dr_past : list entries }.
Record world := mkWorld { w_disk : disk; w_dir : dir }.

(** A changed entry, and a changed file under its entry. *)
Definition relink (now : entries) (d : dir) : dir := mkDir now (dr_now d :: dr_past d).
Definition rewrite_file (name : list byte) (f : sfile) (d : dir) : dir := mkDir (<[name := f]> (dr_now d)) (dr_past d).

(** ** Power loss *)

(** A file that was not settled may hold any bytes. *)
Inductive file_survives : option sfile → option sfile → Prop :=
| survives_absent : file_survives None None
| survives_settled bytes : file_survives (Some (settled bytes)) (Some (settled bytes))
| survives_torn bytes bytes' : file_survives (Some (mkSfile bytes false)) (Some (settled bytes')).
(** Each name keeps its entry or falls back to one since the last
    synchronization, whatever the other names do. *)
Definition dir_survives (d d' : dir) : Prop :=
  dr_past d' = [] ∧ ∀ name, ∃ m, m ∈ dr_now d :: dr_past d ∧ file_survives (m !! name) (dr_now d' !! name).

(** ** Operations *)

Definition dir_op {A} (done : dir → result IoError A * dir) (failed : nat → dir → dir) : M world IoError A := λ w,
  match io_op (λ d, (Ok tt, d)) unchanged (w_disk w) with
  | (Ok _, d) => let '(r, s) := done (w_dir w) in (r, mkWorld d s)
  | (Err error, d) =>
    (Err error, mkWorld d (match dk_events (w_disk w) with
                           | IoFailed written _ :: _ => failed written (w_dir w)
                           | _ => w_dir w
                           end))
  end.
Definition dir_same (_ : nat) (d : dir) : dir := d.

(** [OpenOptions::new().read(true)..open], and with [create_new]. *)
Definition dir_open (name : list byte) : M world IoError () :=
  dir_op (λ d, match dr_now d !! name with
               | Some _ => (Ok tt, d)
               | None => (Err (mkIoError NotFound None), d)
               end) dir_same.
Definition dir_create (name : list byte) : M world IoError () :=
  dir_op (λ d, match dr_now d !! name with
               | Some _ => (Err (mkIoError KindAlreadyExists None), d)
               | None => (Ok tt, relink (<[name := mkSfile [] false]> (dr_now d)) d)
               end) dir_same.
Definition dir_data (d : dir) (name : list byte) : list byte := from_option sf_data [] (dr_now d !! name).
Definition dir_len (name : list byte) : M world IoError Z := dir_op (λ d, (Ok (len (dir_data d name)), d)) dir_same.
Definition dir_read (name : list byte) (n : Z) : M world IoError (list byte) :=
  dir_op (λ d, if decide (n ≤ len (dir_data d name)) then (Ok (slice 0 n (dir_data d name)), d)
               else (Err (mkIoError UnexpectedEof None), d)) dir_same.
(** [write_all] to a file that was just created; a failure may leave a part. *)
Definition dir_write (name bytes : list byte) : M world IoError () :=
  dir_op (λ d, (Ok tt, rewrite_file name (mkSfile bytes false) d))
         (λ written d, rewrite_file name (mkSfile (take written bytes) false) d).
Definition dir_sync_file (name : list byte) : M world IoError () :=
  dir_op (λ d, (Ok tt, rewrite_file name (settled (dir_data d name)) d)) dir_same.
(** A rename or a removal that reports a failure may still have happened. *)
Definition renamed (from to : list byte) (d : dir) : dir :=
  match dr_now d !! from with
  | Some f => relink (<[to := f]> (delete from (dr_now d))) d
  | None => d
  end.
Definition dir_rename (from to : list byte) : M world IoError () :=
  dir_op (λ d, match dr_now d !! from with
               | Some _ => (Ok tt, renamed from to d)
               | None => (Err (mkIoError NotFound None), d)
               end)
         (λ written d, match written with O => d | S _ => renamed from to d end).
Definition removed (name : list byte) (d : dir) : dir := relink (delete name (dr_now d)) d.
Definition dir_remove (name : list byte) : M world IoError () :=
  dir_op (λ d, match dr_now d !! name with
               | Some _ => (Ok tt, removed name d)
               | None => (Err (mkIoError NotFound None), d)
               end)
         (λ written d, match written with O => d | S _ => removed name d end).
(** [directory.sync_all()], of both parts. *)
Definition world_sync : M world IoError () := λ w,
  let '(r, d) := sync_directory (w_disk w) in
  (r, mkWorld d (match r with Ok _ => mkDir (dr_now (w_dir w)) [] | Err _ => w_dir w end)).

(** [.map_err(|error| manifest_io(operation, &error))?]. *)
Abbreviation StoreOp := (M world ManifestStoreError).
Definition mio {A} (operation : ManifestIoOperation) (m : M world IoError A) : StoreOp A :=
  map_err_m (classify_manifest_io operation) m.

(** ** What a directory certainly shows under a name *)

(** [P] of the entry of [name] in every state a power loss can bring back. *)
Definition shows (d : dir) (name : list byte) (P : option sfile → Prop) : Prop :=
  ∀ m, m ∈ dr_now d :: dr_past d → P (m !! name).
(** Settled entries only, or none. *)
Definition stable (P : option sfile → Prop) : Prop := ∀ f, P (Some f) → sf_settled f = true.

Lemma shows_now d name P : shows d name P → P (dr_now d !! name).
Proof. intros H. apply H. by left. Qed.
Lemma shows_weaken d name (P P' : option sfile → Prop) : shows d name P → (∀ o, P o → P' o) → shows d name P'.
Proof. intros H HP m Hm. by apply HP, H. Qed.
Lemma shows_relink d name P now : shows d name P → P (now !! name) → shows (relink now d) name P.
Proof. intros H Hn m [->|Hm]%elem_of_cons; [done|by apply H]. Qed.
Lemma shows_rewrite d name other f P : shows d name P → name ≠ other → shows (rewrite_file other f d) name P.
Proof.
  intros H Hne m [->|Hm]%elem_of_cons; [cbn [rewrite_file dr_now]; rewrite lookup_insert_ne by done; by apply shows_now|].
  apply H. by right.
Qed.
Lemma shows_synced d name (P : option sfile → Prop) : P (dr_now d !! name) → shows (mkDir (dr_now d) []) name P.
Proof. by intros H m [->|[]%elem_of_nil]%elem_of_cons. Qed.

(** A power loss keeps what a directory certainly shows. *)
Lemma shows_survives d d' name P : dir_survives d d' → stable P → shows d name P → P (dr_now d' !! name) ∧ dr_past d' = [].
Proof.
  intros [Hp Hs] Hst H. split; [|done]. destruct (Hs name) as (m & Hm & Hf). specialize (H m Hm).
  destruct Hf as [|bytes|bytes bytes']; [done|done|]. by apply Hst in H.
Qed.

(** ** Rules *)

(** The journal's files stay; directory entries may have been synchronized. *)
Record beside (d d' : disk) : Prop := {
  bs_files : dk_files d' = dk_files d;
  bs_entries : dk_entries d' = dk_entries d ∨ dk_entries d' = dom (dk_files d);
  bs_locked : dk_locked d' = dk_locked d;
  bs_events : dk_events d' `suffix_of` dk_events d }.
#[export] Instance beside_preorder : PreOrder beside.
Proof.
  split; [intros d; split; auto|]. intros d1 d2 d3 [Ef Ee El Es] [Ef' Ee' El' Es'].
  split; [by rewrite Ef'|rewrite Ef in Ee'; destruct Ee' as [->| ->]; auto|by rewrite El'|by trans (dk_events d2)].
Qed.
Lemma aged_beside d d' : aged d d' → beside d d'.
Proof. intros []. split; auto. Qed.

Section rules.
Context {E : Type}.

Lemma outcome_dir_op {A} (f : IoError → E) (done : dir → result IoError A * dir) failed w Q R :
  (∀ d' r s, aged (w_disk w) d' → done (w_dir w) = (r, s) →
     match r with Ok a => Q a (mkWorld d' s) | Err e => R (f e) (mkWorld d' s) end) →
  (∀ n e d', aged (w_disk w) d' → ¬ quiet (w_disk w) → R (f e) (mkWorld d' (failed n (w_dir w)))) →
  outcome (map_err_m f (dir_op done failed)) w Q R.
Proof.
  intros Hq Hr. unfold outcome, map_err_m, dir_op, io_op, unchanged. destruct (dk_events (w_disk w)) as [|[|n e] events] eqn:Ev.
  - specialize (Hq (w_disk w)). destruct (done (w_dir w)) as [[a|e] s]; [apply (Hq (Ok a) s (reflexivity _) eq_refl)|apply (Hq (Err e) s (reflexivity _) eq_refl)].
  - specialize (Hq (mkDisk (dk_files (w_disk w)) (dk_entries (w_disk w)) (dk_locked (w_disk w)) events)).
    assert (aged (w_disk w) (mkDisk (dk_files (w_disk w)) (dk_entries (w_disk w)) (dk_locked (w_disk w)) events)) as Ha
      by (split; try done; rewrite Ev; by exists [IoDone]).
    destruct (done (w_dir w)) as [[a|e] s]; [apply (Hq (Ok a) s Ha eq_refl)|apply (Hq (Err e) s Ha eq_refl)].
  - apply Hr; [|unfold quiet; by rewrite Ev]. split; try done. rewrite Ev. by exists [IoFailed n e].
Qed.

Lemma outcome_world_sync (f : IoError → E) w Q R :
  (∀ d', beside (w_disk w) d' → Q tt (mkWorld d' (mkDir (dr_now (w_dir w)) []))) →
  (∀ e d', beside (w_disk w) d' → ¬ quiet (w_disk w) → R (f e) (mkWorld d' (w_dir w))) →
  outcome (map_err_m f world_sync) w Q R.
Proof.
  intros Hq Hr. unfold outcome, map_err_m, world_sync, sync_directory, io_op, unchanged.
  destruct (dk_events (w_disk w)) as [|[|n e] events] eqn:Ev.
  - apply Hq. split; cbn; auto. rewrite Ev. reflexivity.
  - apply Hq. split; cbn; auto. rewrite Ev. by exists [IoDone].
  - apply Hr; [|unfold quiet; by rewrite Ev]. split; cbn; auto. rewrite Ev. by exists [IoFailed n e].
Qed.
End rules.
