(* ===== verification/Publish.v ===== *)
(** * Publishing into reusable slots

    [och-store/src/manifest.rs]: bounded reads of artifacts,
    [publish_reusable_slot] (write a fixed staging file, synchronize it, read it
    back and verify it, rename it over the slot, synchronize the directory), and
    the removal of slots that no manifest names. *)

From S2P Require Import Prelude Bytes Layout Commit Journal Generation Retry Recovery Active Scan Effects Disk Segment Manifest Directory.

(** ** Bounded reads *)

Definition read_required_bounded (name : list byte) (maximum : Z) : StoreOp (list byte) :=
  _ ← mio MioRead (dir_open name);
  length ← mio MioMetadata (dir_len name);
  _ ← refuse_if (length = 0 ∨ length > maximum) MseInvalidInventory;
  mio MioRead (dir_read name length).
Definition read_optional_bounded (name : list byte) (maximum : Z) : StoreOp (option (list byte)) := λ w,
  match read_required_bounded name maximum w with
  | (Ok bytes, w) => (Ok (Some bytes), w)
  | (Err (MseIo evidence), w) =>
    if decide (mio_kind evidence = NotFound) then (Ok None, w) else (Err (MseIo evidence), w)
  | (Err error, w) => (Err error, w)
  end.

(** ** Publication *)

Definition create_staging (name : list byte) : StoreOp () :=
  map_err_m (λ error, if decide (io_kind error = KindAlreadyExists) then MseInterruptedPublication
                      else classify_manifest_io MioCreateArtifact error) (dir_create name).
Definition publish_reusable_slot (staging target bytes : list byte) (maximum : Z)
    (verify : list byte → result ManifestStoreError ()) : StoreOp () :=
  _ ← refuse_if (bytes = [] ∨ len bytes > maximum) MseInvalidOptions;
  _ ← create_staging staging;
  _ ← mio MioWrite (dir_write staging bytes);
  _ ← mio MioSyncArtifact (dir_sync_file staging);
  candidate ← read_required_bounded staging maximum;
  _ ← lift (verify candidate);
  _ ← mio MioPublish (dir_rename staging target);
  mio MioSyncDirectory world_sync.

(** ** Removal of unreferenced slots *)

(** One slot: removed, already absent, or a refusal. *)
Definition remove_slot (name : list byte) : StoreOp bool := λ w,
  match dir_remove name w with
  | (Ok _, w) => (Ok true, w)
  | (Err error, w) =>
    if decide (io_kind error = NotFound) then (Ok false, w) else (Err (classify_manifest_io MioRemove error), w)
  end.
(** The loop over the slots of one kind; [used] says that a manifest names it. *)
Fixpoint remove_slots (names : list (list byte)) (slot : Z) (used : Z → bool) (removed : bool) : StoreOp bool :=
  match names with
  | [] => mret removed
  | name :: names =>
    if used slot then remove_slots names (slot + 1) used removed
    else gone ← remove_slot name; remove_slots names (slot + 1) used (removed || gone)
  end.
Definition sync_if (removed : bool) : StoreOp () := if removed then mio MioSyncDirectory world_sync else mret tt.
Definition remove_unreferenced (names : list (list byte)) (used : Z → bool) : StoreOp () :=
  removed ← remove_slots names 0 used false;
  sync_if removed.

(** The two manifest slots. *)
Abbreviation manifest_slots := (option ManifestRecord * option ManifestRecord)%type.
Definition slot_list (slots : manifest_slots) : list ManifestRecord := option_list slots.1 ++ option_list slots.2.
Definition names_retry_slot (slots : manifest_slots) (slot : Z) : bool :=
  existsb (λ m, bool_decide (rs_slot (RetryCodec.ra_public (mf_retry m)) = slot)) (slot_list slots).
Definition names_catalog_slot (slots : manifest_slots) (slot : Z) : bool :=
  existsb (λ m, is_some_and (λ c, bool_decide (cat_slot c = slot)) (mf_catalog m)) (slot_list slots).
Definition remove_unreferenced_retry_slots (slots : manifest_slots) : StoreOp () :=
  remove_unreferenced RETRY_SLOT_NAMES (names_retry_slot slots).
Definition remove_unreferenced_catalog_slots (slots : manifest_slots) : StoreOp () :=
  remove_unreferenced CATALOG_SLOT_NAMES (names_catalog_slot slots).

(** The report generation of one referenced recovery slot, after its checks. *)
Definition referenced_report_generation (store_id : Identity.StoreId) (reference : RecoveryReference) : StoreOp Z :=
  bytes ← read_required_bounded (nth (Z.to_nat (rr_slot reference)) RECOVERY_SLOT_NAMES []) RECOVERY_STATE_LEN;
  _ ← refuse_if (Crc.crc32c bytes ≠ rr_checksum reference) MseInvalidManifest;
  report ← lift (map_err map_recovery_codec (decode_recovery_state bytes store_id));
  mret (rp_report_generation report).
Fixpoint map_generations (store_id : Identity.StoreId) (references : list RecoveryReference) : StoreOp (list Z) :=
  match references with
  | [] => mret []
  | reference :: references =>
    g ← referenced_report_generation store_id reference;
    gs ← map_generations store_id references;
    mret (g :: gs)
  end.
Definition max_generation (gs : list Z) : option Z :=
  foldl (λ acc g, Some (from_option (Z.max g) g acc)) None gs.
(** One recovery slot that no manifest names: an older report is removed, a
    report that is not older is a refusal. *)
Definition remove_recovery_slot (name : list byte) (store_id : Identity.StoreId) (latest : option Z) : StoreOp bool :=
  present ← read_optional_bounded name RECOVERY_STATE_LEN;
  match present with
  | None => mret false
  | Some bytes =>
    report ← lift (map_err map_recovery_codec (decode_recovery_state bytes store_id));
    _ ← refuse_if (negb (is_some_and (λ latest, bool_decide (rp_report_generation report < latest)) latest))
          MseInvalidManifest;
    _ ← mio MioRemove (dir_remove name);
    mret true
  end.
Fixpoint remove_recovery_slots (names : list (list byte)) (slot : Z) (used : list RecoveryReference)
    (store_id : Identity.StoreId) (latest : option Z) (removed : bool) : StoreOp bool :=
  match names with
  | [] => mret removed
  | name :: names =>
    if existsb (λ r, bool_decide (rr_slot r = slot)) used
    then remove_recovery_slots names (slot + 1) used store_id latest removed
    else
      gone ← remove_recovery_slot name store_id latest;
      remove_recovery_slots names (slot + 1) used store_id latest (removed || gone)
  end.
Definition remove_unreferenced_recovery_slots (slots : manifest_slots) (store_id : Identity.StoreId) : StoreOp () :=
  let referenced := omap mf_recovery (slot_list slots) in
  generations ← map_generations store_id referenced;
  removed ← remove_recovery_slots RECOVERY_SLOT_NAMES 0 referenced store_id (max_generation generations) false;
  sync_if removed.

(** ** Lemmas: reads leave the directory alone *)

(** Only events passed: neither part of the directory changed. *)
Definition idle (w w' : world) : Prop := aged (w_disk w) (w_disk w') ∧ w_dir w' = w_dir w.
#[export] Instance idle_preorder : PreOrder idle.
Proof.
  split; [intros w; by split|]. intros w1 w2 w3 [Ha E] [Ha' E']. split; [by trans (w_disk w2)|by rewrite E'].
Qed.

Section reads.
Context {E : Type}.

Lemma outcome_dir_look {A} (f : IoError → E) (done : dir → result IoError A * dir) w Q R :
  (done (w_dir w)).2 = w_dir w →
  (∀ a w', idle w w' → (done (w_dir w)).1 = Ok a → Q a w') → (∀ e w', idle w w' → R e w') →
  outcome (map_err_m f (dir_op done dir_same)) w Q R.
Proof.
  intros Hs Hq Hr. apply outcome_dir_op.
  - intros d' r s Ha Ed. rewrite Ed in Hs, Hq. cbn in Hs, Hq. subst s. destruct r as [a|e]; [by apply Hq|by apply Hr].
  - intros n e d' Ha _. by apply Hr.
Qed.
End reads.

Lemma outcome_read_required name maximum w (Q : list byte → world → Prop) R :
  (∀ bytes w', idle w w' → is_Some (dr_now (w_dir w) !! name) → bytes = dir_data (w_dir w) name →
     0 < len bytes ≤ maximum → Q bytes w') →
  (∀ e w', idle w w' → R e w') →
  outcome (read_required_bounded name maximum) w Q R.
Proof.
  intros Hq Hr. unfold read_required_bounded. rewrite outcome_bind. apply outcome_dir_look; [by destruct (dr_now _ !! name)| |done].
  intros [] w1 H1 Ho. assert (is_Some (dr_now (w_dir w) !! name)) as Hn by (destruct (dr_now (w_dir w) !! name); [by eexists|done]).
  rewrite outcome_bind. apply outcome_dir_look; [done| |intros e w2 H2; apply Hr; by trans w1].
  intros n w2 H2 [= <-]. rewrite outcome_bind, outcome_refuse. destruct H1 as [A1 E1], H2 as [A2 E2].
  pose proof (len_nonneg (dir_data (w_dir w1) name)). split; [intros _; apply Hr; split; [by trans (w_disk w1)|congruence]|].
  intros Hc. apply outcome_dir_look; [by case_decide| |].
  - intros bytes w3 [A3 E3] Hb. case_decide; [|done]. injection Hb as <-.
    rewrite E2, E1 in *. rewrite slice_all by done. apply Hq; [split; [by trans (w_disk w2); [trans (w_disk w1)|]|congruence]|done|done|lia].
  - intros e w3 [A3 E3]. apply Hr. split; [by trans (w_disk w2); [trans (w_disk w1)|]|congruence].
Qed.

Lemma outcome_read_optional name maximum w (Q : option (list byte) → world → Prop) R :
  (∀ bytes w', idle w w' → bytes = dir_data (w_dir w) name → Q (Some bytes) w') →
  (∀ w', idle w w' → Q None w') → (∀ e w', idle w w' → R e w') →
  outcome (read_optional_bounded name maximum) w Q R.
Proof.
  intros Hs Hn Hr. unfold outcome, read_optional_bounded.
  assert (outcome (read_required_bounded name maximum) w (λ bytes w', idle w w' ∧ bytes = dir_data (w_dir w) name)
    (λ e w', idle w w')) as H by (apply outcome_read_required; auto).
  unfold outcome in H. destruct (read_required_bounded name maximum w) as [[bytes|[]] w'];
    try (by apply Hr); [by apply Hs; apply H|]. case_decide; [by apply Hn|by apply Hr].
Qed.

(** ** Lemmas: publication *)

(** The slot was replaced at once and for good. *)
Record published (staging target bytes : list byte) (w w' : world) : Prop := {
  pb_now : dr_now (w_dir w') = <[target := settled bytes]> (delete staging (dr_now (w_dir w)));
  pb_past : dr_past (w_dir w') = [];
  pb_disk : beside (w_disk w) (w_disk w') }.
(** A publication that stopped: the slot may hold the new bytes, settled and
    verified ([good]), and only the staging file changed besides. *)
Record disturbed (staging target bytes : list byte) (good : Prop) (w w' : world) : Prop := {
  db_shows : ∀ name P, name ≠ staging → (name = target → good → P (Some (settled bytes))) →
    shows (w_dir w) name P → shows (w_dir w') name P;
  db_disk : beside (w_disk w) (w_disk w') }.

Lemma idle_disturbed staging target bytes good w w' : idle w w' → disturbed staging target bytes good w w'.
Proof. intros [Ha E]. split; [by rewrite E|by apply aged_beside]. Qed.

Lemma dir_data_rewrite name f d : dir_data (rewrite_file name f d) name = sf_data f.
Proof. unfold dir_data, rewrite_file. cbn. by rewrite lookup_insert_eq. Qed.

Section publish.
Context (staging target bytes : list byte) (Hne : staging ≠ target).

(** The staging file while it is prepared. *)
Record staged (w w' : world) (f : sfile) : Prop := {
  sg_now : dr_now (w_dir w') = <[staging := f]> (dr_now (w_dir w));
  sg_absent : dr_now (w_dir w) !! staging = None;
  sg_past : ∀ m, m ∈ dr_past (w_dir w') → m = dr_now (w_dir w) ∨ m ∈ dr_past (w_dir w);
  sg_disk : beside (w_disk w) (w_disk w') }.

Lemma staged_disturbed good w w' f : staged w w' f → disturbed staging target bytes good w w'.
Proof using Hne.
  intros [En Ha Ep Hd]. split; [|done]. intros name P Hs Hp H m [->|Hm]%elem_of_cons.
  - rewrite En, lookup_insert_ne by done. by apply shows_now.
  - apply Ep in Hm as [->|Hm]; [by apply shows_now|]. apply H. by right.
Qed.
Lemma staged_idle w w' w'' f : staged w w' f → idle w' w'' → staged w w'' f.
Proof using Hne.
  intros [En Hx Ep Hd] [Ha E]. split; [by rewrite E|done|by rewrite E|]. trans (w_disk w'); [done|by apply aged_beside].
Qed.
Lemma staged_rewrite w w' f f' d' : staged w w' f → aged (w_disk w') d' → staged w (mkWorld d' (rewrite_file staging f' (w_dir w'))) f'.
Proof using Hne.
  intros [En Hx Ep Hd] Ha. split; cbn.
  - rewrite En. by rewrite insert_insert_eq.
  - done.
  - done.
  - trans (w_disk w'); [done|by apply aged_beside].
Qed.
Lemma staged_data w w' f : staged w w' f → dir_data (w_dir w') staging = sf_data f.
Proof using Hne. intros [En _ _ _]. unfold dir_data. by rewrite En, lookup_insert_eq. Qed.

(** After the rename, before the directory is synchronized. *)
Lemma staged_renamed (good : Prop) w w' d' :
  good → staged w w' (settled bytes) → aged (w_disk w') d' →
  dr_now (renamed staging target (w_dir w')) = <[target := settled bytes]> (delete staging (dr_now (w_dir w))) ∧
  disturbed staging target bytes good w (mkWorld d' (renamed staging target (w_dir w'))).
Proof using Hne.
  intros Hg Hst Ha. pose proof (staged_disturbed good _ _ _ Hst) as [Hd _]. destruct Hst as [En Hx Ep Hb].
  assert (renamed staging target (w_dir w') =
    relink (<[target := settled bytes]> (delete staging (dr_now (w_dir w')))) (w_dir w')) as Er
    by (unfold renamed; by rewrite En, lookup_insert_eq). rewrite Er. cbn. split; [by rewrite En, delete_insert_eq|].
  split; [|cbn; trans (w_disk w'); [done|by apply aged_beside]].
  intros name P Hs Hp H. apply shows_relink; [by apply Hd|]. destruct (decide (name = target)) as [->|Ht].
  - rewrite lookup_insert_eq. by apply Hp.
  - rewrite lookup_insert_ne, lookup_delete_ne by done. apply (Hd name P Hs ltac:(done) H). by left.
Qed.

Lemma publish_outcome maximum verify w :
  outcome (publish_reusable_slot staging target bytes maximum verify) w
    (λ _ w', published staging target bytes w w' ∧ verify bytes = Ok tt)
    (λ _ w', disturbed staging target bytes (verify bytes = Ok tt) w w').
Proof using Hne.
  unfold publish_reusable_slot. rewrite outcome_bind, outcome_refuse.
  split; [intros _; by apply idle_disturbed|]. intros Hlen. rewrite outcome_bind. unfold create_staging, dir_create.
  apply outcome_dir_op; [|intros n e d' Ha _; apply idle_disturbed; by split].
  intros d' r s Ha. destruct (dr_now (w_dir w) !! staging) eqn:Hx; intros [= <- <-]; [apply idle_disturbed; by split|].
  assert (staged w (mkWorld d' (relink (<[staging := mkSfile [] false]> (dr_now (w_dir w))) (w_dir w))) (mkSfile [] false)) as S1.
  { split; cbn; [done|done| |by apply aged_beside]. intros m [->|Hm]%elem_of_cons; auto. }
  revert S1. generalize (mkWorld d' (relink (<[staging := mkSfile [] false]> (dr_now (w_dir w))) (w_dir w))). intros w1 S1.
  rewrite outcome_bind. unfold mio at 1, dir_write.
  apply outcome_dir_op; [|intros n e d1 Ha1 _; eapply staged_disturbed, staged_rewrite; done].
  intros d1 r1 s1 Ha1 [= <- <-]. pose proof (staged_rewrite _ _ _ (mkSfile bytes false) _ S1 Ha1) as S2. revert S2.
  generalize (mkWorld d1 (rewrite_file staging (mkSfile bytes false) (w_dir w1))). intros w2 S2.
  rewrite outcome_bind. unfold mio at 1, dir_sync_file.
  apply outcome_dir_op; [|intros n e d2 Ha2 _; eapply staged_disturbed, staged_idle; [done|by split]].
  intros d2 r2 s2 Ha2 [= <- <-]. rewrite (staged_data _ _ _ S2).
  pose proof (staged_rewrite _ _ _ (settled bytes) _ S2 Ha2) as S3. cbn [sf_data]. revert S3.
  generalize (mkWorld d2 (rewrite_file staging (settled bytes) (w_dir w2))). intros w3 S3.
  rewrite outcome_bind. apply outcome_read_required; [|intros e w4 Hi; by eapply staged_disturbed, staged_idle].
  intros candidate w4 Hi _ -> _. rewrite (staged_data _ _ _ S3). cbn [settled sf_data].
  pose proof (staged_idle _ _ _ _ S3 Hi) as S4. rewrite outcome_bind. unfold outcome at 1, lift.
  destruct (verify bytes) as [[]|e] eqn:Hv; [|by eapply staged_disturbed].
  assert (Ok () = Ok tt :> result ManifestStoreError ()) as Hg by done.
  rewrite outcome_bind. unfold mio at 1, dir_rename. apply outcome_dir_op.
  - intros d5 r5 s5 Ha5. rewrite (sg_now _ _ _ S4), lookup_insert_eq. intros [= <- <-].
    destruct (staged_renamed _ _ _ _ Hg S4 Ha5) as [En Hd]. destruct Hd as [Hd Hb].
    apply outcome_world_sync.
    + intros d6 Hb6. split; [|done]. split; cbn; [done|done|]. by trans d5.
    + intros e d6 Hb6 _. split; [done|]. by trans d5.
  - intros n e d5 Ha5 _. destruct n; [eapply staged_disturbed, staged_idle; [done|by split]|].
    by apply staged_renamed.
Qed.
End publish.

(** ** Lemmas: removal *)

(** Entries of [gone] names may be gone, nothing else changed. *)
Record pruned (gone : list byte → Prop) (w w' : world) : Prop := {
  pr_shows : ∀ name P, (gone name → P None) → shows (w_dir w) name P → shows (w_dir w') name P;
  pr_now : ∀ name, dr_now (w_dir w') !! name = dr_now (w_dir w) !! name ∨
    (gone name ∧ dr_now (w_dir w') !! name = None);
  pr_disk : beside (w_disk w) (w_disk w') }.
Lemma pruned_refl gone w : pruned gone w w.
Proof. split; auto. reflexivity. Qed.
Lemma pruned_trans gone w1 w2 w3 : pruned gone w1 w2 → pruned gone w2 w3 → pruned gone w1 w3.
Proof.
  intros [H1 N1 B1] [H2 N2 B2]. split; [auto| |by trans (w_disk w2)].
  intros name. destruct (N2 name) as [E|[? ?]]; [rewrite E; apply N1|auto].
Qed.
Lemma idle_pruned gone w w' : idle w w' → pruned gone w w'.
Proof. intros [Ha E]. split; [intros name P _; by rewrite E|intros name; left; by rewrite E|by apply aged_beside]. Qed.
Lemma pruned_weaken (gone gone' : list byte → Prop) w w' : pruned gone w w' → (∀ name, gone name → gone' name) → pruned gone' w w'.
Proof.
  intros [H N B] Hg. split; [intros name P Hp; apply H; auto| |done].
  intros name. destruct (N name) as [E|[? E]]; [by left|right; auto].
Qed.

Lemma removed_pruned name w d' : aged (w_disk w) d' → pruned (eq name) w (mkWorld d' (removed name (w_dir w))).
Proof.
  intros Ha. split; cbn; [|intros other|by apply aged_beside].
  - intros other P Hp H. apply shows_relink; [done|]. destruct (decide (name = other)) as [->|Hn].
    + rewrite lookup_delete_eq. by apply Hp.
    + rewrite lookup_delete_ne by done. by apply shows_now.
  - destruct (decide (name = other)) as [->|Hn]; [right; by rewrite lookup_delete_eq|left; by rewrite lookup_delete_ne].
Qed.

Lemma sync_pruned gone (b : bool) w :
  outcome (sync_if b) w (λ _ w', pruned gone w w') (λ _ w', pruned gone w w').
Proof.
  destruct b; [|apply pruned_refl]. apply outcome_world_sync.
  - intros d' Hb. split; cbn; [|by left|done]. intros name P _ H. apply shows_synced. by apply shows_now.
  - intros e d' Hb _. split; cbn; [done|by left|done].
Qed.

Lemma remove_outcome (f : IoError → ManifestStoreError) name w :
  outcome (map_err_m f (dir_remove name)) w (λ _ w', pruned (eq name) w w') (λ _ w', pruned (eq name) w w').
Proof.
  unfold dir_remove. apply outcome_dir_op.
  - intros d' r s Ha. destruct (dr_now _ !! name); intros [= <- <-]; [by apply removed_pruned|by apply idle_pruned].
  - intros n e d' Ha _. destruct n; [by apply idle_pruned|by apply removed_pruned].
Qed.
Lemma remove_slot_outcome name w :
  outcome (remove_slot name) w (λ _ w', pruned (eq name) w w') (λ _ w', pruned (eq name) w w').
Proof.
  pose proof (remove_outcome (λ e, if decide (io_kind e = NotFound) then MseInvalidOptions else MseInvalidOptions) name w) as H.
  revert H. unfold outcome, map_err_m, remove_slot. destruct (dir_remove name w) as [[[]|e] w']; cbn; [done|].
  intros H. by case_decide.
Qed.

(** The slots of a list that are not in use. *)
Definition unused (names : list (list byte)) (slot : Z) (used : Z → bool) (name : list byte) : Prop :=
  ∃ k : nat, names !! k = Some name ∧ used (slot + Z.of_nat k) = false.
Lemma unused_next names slot used n name : unused names (slot + 1) used name → unused (n :: names) slot used name.
Proof. intros (k & Hk & Hu). exists (S k). split; [done|]. by replace (slot + Z.of_nat (S k)) with (slot + 1 + Z.of_nat k) by lia. Qed.
Lemma unused_first names slot used n : used slot = false → unused (n :: names) slot used n.
Proof. intros Hu. exists 0%nat. by rewrite Z.add_0_r. Qed.

Lemma remove_slots_outcome names used : ∀ slot b w,
  let gone := unused names slot used in
  outcome (remove_slots names slot used b) w (λ _ w', pruned gone w w') (λ _ w', pruned gone w w').
Proof.
  induction names as [|name names IH]; intros slot b w gone; cbn [remove_slots]; [apply pruned_refl|].
  assert (∀ w w', pruned (unused names (slot + 1) used) w w' → pruned gone w w') as Hw
    by (intros w1 w2 Hp; eapply pruned_weaken; [exact Hp|]; intros ?; apply unused_next).
  destruct (used slot) eqn:Hu; [eapply outcome_weaken; [apply IH|intros ? ?; apply Hw|intros ? ?; apply Hw]|].
  assert (∀ w w', pruned (eq name) w w' → pruned gone w w') as Hf
    by (intros w1 w2 Hp; eapply pruned_weaken; [exact Hp|]; intros ? <-; by apply unused_first).
  rewrite outcome_bind. eapply outcome_weaken; [apply remove_slot_outcome| |intros ? ?; apply Hf].
  intros g w1 H1. eapply outcome_weaken; [apply IH| |]; intros ? w2 H2; exact (pruned_trans _ _ _ _ (Hf _ _ H1) (Hw _ _ H2)).
Qed.
Lemma remove_unreferenced_outcome names used w :
  let gone := unused names 0 used in
  outcome (remove_unreferenced names used) w (λ _ w', pruned gone w w') (λ _ w', pruned gone w w').
Proof.
  intros gone. unfold remove_unreferenced. rewrite outcome_bind.
  eapply outcome_weaken; [apply remove_slots_outcome| |done]. intros b w1 H1.
  eapply outcome_weaken; [apply (sync_pruned gone)| |]; intros ? w2 H2; exact (pruned_trans _ _ _ _ H1 H2).
Qed.

(** Recovery slots. *)
Section recovery.
Context (store_id : Identity.StoreId).

Lemma outcome_lift_any {A B} (r : result ManifestStoreError A) (k : A → StoreOp B) w Q R :
  (∀ a, r = Ok a → outcome (k a) w Q R) → (∀ e, R e w) → outcome (lift r ≫= k) w Q R.
Proof. intros Hq Hr. rewrite outcome_bind. unfold outcome at 1, lift. destruct r; auto. Qed.

Lemma referenced_report_outcome reference w :
  outcome (referenced_report_generation store_id reference) w (λ _ w', idle w w') (λ _ w', idle w w').
Proof using All.
  unfold referenced_report_generation. rewrite outcome_bind. apply outcome_read_required; [|done].
  intros bytes w1 Hi _ _ _. rewrite outcome_bind, outcome_refuse. split; [done|]. intros _.
  apply outcome_lift_any; [|done]. intros report _. by apply outcome_ret.
Qed.
Lemma map_generations_outcome references w :
  outcome (map_generations store_id references) w (λ _ w', idle w w') (λ _ w', idle w w').
Proof using All.
  revert w. induction references as [|x references IH]; intros w; cbn [map_generations]; [by apply outcome_ret|].
  rewrite outcome_bind. eapply outcome_weaken; [apply referenced_report_outcome| |done]. intros g w1 H1.
  rewrite outcome_bind. eapply outcome_weaken; [apply IH| |intros e w2 H2; by trans w1]. intros gs w2 H2.
  apply outcome_ret. by trans w1.
Qed.
Lemma remove_recovery_slot_outcome name latest w :
  outcome (remove_recovery_slot name store_id latest) w (λ _ w', pruned (eq name) w w') (λ _ w', pruned (eq name) w w').
Proof using All.
  unfold remove_recovery_slot. rewrite outcome_bind.
  apply outcome_read_optional; [intros bytes w1 Hi _|intros w1 Hi|intros e w1 Hi]; [|by apply outcome_ret, idle_pruned|by apply idle_pruned].
  apply outcome_lift_any; [|intros e; by apply idle_pruned]. intros report _.
  rewrite outcome_bind, outcome_refuse. split; [intros _; by apply idle_pruned|]. intros _. rewrite outcome_bind.
  eapply outcome_weaken; [apply remove_outcome| |].
  - intros a w2 H2. apply outcome_ret. exact (pruned_trans _ _ _ _ (idle_pruned _ _ _ Hi) H2).
  - intros e w2 H2. exact (pruned_trans _ _ _ _ (idle_pruned _ _ _ Hi) H2).
Qed.
Lemma remove_recovery_slots_outcome names used latest : ∀ slot b w,
  let gone := unused names slot (λ slot, existsb (λ r, bool_decide (rr_slot r = slot)) used) in
  outcome (remove_recovery_slots names slot used store_id latest b) w (λ _ w', pruned gone w w') (λ _ w', pruned gone w w').
Proof using All.
  set (f := λ slot, existsb (λ r, bool_decide (rr_slot r = slot)) used).
  induction names as [|name names IH]; intros slot b w gone; cbn [remove_recovery_slots]; [apply pruned_refl|].
  assert (∀ w w', pruned (unused names (slot + 1) f) w w' → pruned gone w w') as Hw
    by (intros w1 w2 Hp; eapply pruned_weaken; [exact Hp|]; intros ?; apply unused_next).
  fold (f slot). destruct (f slot) eqn:Hu; [eapply outcome_weaken; [apply IH|intros ? ?; apply Hw|intros ? ?; apply Hw]|].
  assert (∀ w w', pruned (eq name) w w' → pruned gone w w') as Hf
    by (intros w1 w2 Hp; eapply pruned_weaken; [exact Hp|]; intros ? <-; by apply unused_first).
  rewrite outcome_bind. eapply outcome_weaken; [apply remove_recovery_slot_outcome| |intros ? ?; apply Hf].
  intros g w1 H1. eapply outcome_weaken; [apply IH| |]; intros ? w2 H2; exact (pruned_trans _ _ _ _ (Hf _ _ H1) (Hw _ _ H2)).
Qed.
Lemma remove_recovery_outcome slots w :
  let gone := unused RECOVERY_SLOT_NAMES 0 (λ slot, existsb (λ r, bool_decide (rr_slot r = slot)) (omap mf_recovery (slot_list slots))) in
  outcome (remove_unreferenced_recovery_slots slots store_id) w (λ _ w', pruned gone w w') (λ _ w', pruned gone w w').
Proof using All.
  intros gone. unfold remove_unreferenced_recovery_slots. rewrite outcome_bind.
  eapply outcome_weaken; [apply map_generations_outcome| |intros ? ?; apply idle_pruned]. intros gs w1 H1.
  rewrite outcome_bind. eapply outcome_weaken; [apply remove_recovery_slots_outcome| |].
  - intros b w2 H2. eapply outcome_weaken; [apply (sync_pruned gone)| |]; intros ? w3 H3;
      exact (pruned_trans _ _ _ _ (pruned_trans _ _ _ _ (idle_pruned _ _ _ H1) H2) H3).
  - intros e w2 H2. exact (pruned_trans _ _ _ _ (idle_pruned _ _ _ H1) H2).
Qed.
End recovery.
