(* ===== verification/Roots.v ===== *)
(** * Choosing and checking the root

    [och-store/src/manifest.rs]: reading the two manifest slots and selecting the
    current manifest, reading the registry, retry state and generation catalog it
    names, and the checks an open makes of every other artifact of the directory
    (older slots, recovery reports, the rotation that a catalog records). All of
    it only reads. Sealed journals are files of the slot directory. *)

From S2P Require Import Prelude Bytes Identity Series Registry Layout Crc Commit Journal Generation Retry RetryCodec Recovery.
From S2P Require Import Active Disk Segment Manifest RegistryReplay RegistryCodec Directory Publish.

(** ** The current manifest *)

Definition read_manifest_slot (name : list byte) (store_id : StoreId) : StoreOp (option ManifestRecord) :=
  bytes ← read_optional_bounded name MANIFEST_LEN;
  match bytes with
  | None => mret None
  | Some bytes => record ← lift (decode_manifest bytes store_id); mret (Some record)
  end.
Definition read_manifest_slots (store_id : StoreId) : StoreOp manifest_slots :=
  first ← read_manifest_slot (nth 0 MANIFEST_SLOT_NAMES []) store_id;
  second ← read_manifest_slot (nth 1 MANIFEST_SLOT_NAMES []) store_id;
  mret (first, second).

Definition recovery_reference_progresses (older newer : option RecoveryReference) : bool :=
  match older, newer with
  | None, _ => true
  | Some _, None => false
  | Some older, Some newer => bool_decide (older = newer) || bool_decide (rr_slot older ≠ rr_slot newer)
  end.
Definition catalog_reference_progresses (older newer : option GenerationCatalogReference) : bool :=
  match older, newer with
  | None, None => true
  | None, Some newer => bool_decide (cat_generation newer = 1)
  | Some _, None => false
  | Some older, Some newer =>
    if decide (cat_generation older = cat_generation newer) then bool_decide (older = newer)
    else bool_decide (checked_add u64_max (cat_generation older) 1 = Some (cat_generation newer) ∧
                      cat_slot older ≠ cat_slot newer)
  end.
Definition retry_reference_progresses (older newer : RetryArtifactReference) : bool :=
  if decide (rs_generation (ra_public newer) = rs_generation (ra_public older)) then bool_decide (newer = older)
  else bool_decide (checked_add u64_max (rs_generation (ra_public older)) 1 = Some (rs_generation (ra_public newer)) ∧
                    rs_slot (ra_public newer) ≠ rs_slot (ra_public older)).

(** The current manifest with its slot index. *)
Definition select_current_manifest (slots : manifest_slots) : result ManifestStoreError (option (nat * ManifestRecord)) :=
  match slots with
  | (None, None) => Ok None
  | (Some record, None) =>
    if decide (mf_generation record ≠ 1) then Err MseInvalidManifest else Ok (Some (0%nat, record))
  | (None, Some record) =>
    if decide (mf_generation record ≠ 1) then Err MseInvalidManifest else Ok (Some (1%nat, record))
  | (Some first, Some second) =>
    let '(older, (newer_index, newer)) :=
      if decide (mf_generation first < mf_generation second) then (first, (1%nat, second)) else (second, (0%nat, first)) in
    if decide (checked_add u64_max (mf_generation older) 1 ≠ Some (mf_generation newer) ∨
               ¬ retry_reference_progresses (mf_retry older) (mf_retry newer) ∨
               ¬ catalog_reference_progresses (mf_catalog older) (mf_catalog newer) ∨
               ¬ recovery_reference_progresses (mf_recovery older) (mf_recovery newer))
    then Err MseInvalidManifest
    else Ok (Some (newer_index, newer))
  end.

(** The retained manifests by generation, when there are two. *)
Definition older_newer (slots : manifest_slots) : option (ManifestRecord * ManifestRecord) :=
  match slots with
  | (Some first, Some second) =>
    Some (if decide (mf_generation second < mf_generation first) then (second, first) else (first, second))
  | _ => None
  end.

(** ** Loops over the slots of one kind *)

(** For each slot whose file exists, [body] of its number and bytes. *)
Fixpoint each_slot {A} (names : list (list byte)) (maximum slot : Z) (body : Z → list byte → A → StoreOp A) (acc : A)
  : StoreOp A :=
  match names with
  | [] => mret acc
  | name :: names =>
    bytes ← read_optional_bounded name maximum;
    match bytes with
    | None => each_slot names maximum (slot + 1) body acc
    | Some bytes => acc ← body slot bytes acc; each_slot names maximum (slot + 1) body acc
    end
  end.
(** A check of each element. *)
Fixpoint each {A} (body : A → StoreOp ()) (l : list A) : StoreOp () :=
  match l with
  | [] => mret tt
  | a :: l => _ ← body a; each body l
  end.

(** ** The registry *)

Definition slot_name (names : list (list byte)) (slot : Z) (error : ManifestStoreError) : result ManifestStoreError (list byte) :=
  ok_or (names !! Z.to_nat slot) error.

Definition read_referenced_registry (reference : RegistryReference) (store_id : StoreId) : StoreOp SeriesRegistry :=
  name ← lift (slot_name REGISTRY_SLOT_NAMES (rg_slot reference) MseInvalidRegistry);
  bytes ← read_required_bounded name MAX_REGISTRY_SNAPSHOT_BYTES;
  _ ← refuse_if (len bytes ≠ rg_length reference ∨ crc32c bytes ≠ rg_checksum reference) MseInvalidRegistry;
  decoded ← lift (decode_registry_snapshot_at_slot bytes (rg_slot reference));
  _ ← refuse_if (reg_store_id (dr_registry decoded) ≠ store_id) MseStoreMismatch;
  _ ← refuse_if (dr_reference decoded ≠ reference) MseInvalidRegistry;
  mret (dr_registry decoded).

Definition validate_registry_inventory (manifests : manifest_slots) (current : RegistryReference) (store_id : StoreId)
  : StoreOp () :=
  _ ← each_slot REGISTRY_SLOT_NAMES MAX_REGISTRY_SNAPSHOT_BYTES 0 (λ slot bytes (_ : ()),
        decoded ← lift (decode_registry_snapshot_at_slot bytes slot);
        _ ← refuse_if (reg_store_id (dr_registry decoded) ≠ store_id) MseStoreMismatch;
        _ ← refuse_if (rg_slot (dr_reference decoded) ≠ slot) MseInvalidRegistry;
        let referenced := existsb (λ m, bool_decide (mf_registry m = dr_reference decoded)) (slot_list manifests) in
        let reachable := bool_decide (rg_generation (dr_reference decoded) ≤ rg_generation current ∨
                                      checked_add u64_max (rg_generation current) 1 =
                                        Some (rg_generation (dr_reference decoded))) in
        refuse_if (¬ referenced ∧ ¬ reachable) MseInvalidRegistry) tt;
  each (λ m, _ ← read_referenced_registry (mf_registry m) store_id; mret tt) (slot_list manifests).

Definition read_interrupted_genesis_registry (expected : SeriesRegistrySnapshot) : StoreOp RegistryReference :=
  found ← each_slot REGISTRY_SLOT_NAMES MAX_REGISTRY_SNAPSHOT_BYTES 0 (λ slot bytes found,
            _ ← refuse_if (is_Some found) MseInvalidRegistry;
            decoded ← lift (decode_registry_snapshot_at_slot bytes slot);
            _ ← refuse_if (rg_slot (dr_reference decoded) ≠ slot ∨ rg_generation (dr_reference decoded) ≠ 1 ∨
                           snapshot (dr_registry decoded) ≠ expected) MseInvalidRegistry;
            mret (Some (dr_reference decoded))) None;
  lift (ok_or found MseInvalidRegistry).

(** ** The generation catalog *)

Definition map_generation_codec (error : GenerationCodecError) : ManifestStoreError :=
  match error with GenInvalid => MseInvalidGeneration | GenStoreMismatch => MseStoreMismatch end.

(** The length and the header of each sealed journal of a catalog. *)
Definition validate_sealed_metadata (store_id : StoreId) (entry : SealedGeneration) : StoreOp () :=
  let name := sealed_journal_file_name (sg_journal_generation entry) in
  _ ← mio MioRead (dir_open name);
  length ← mio MioMetadata (dir_len name);
  _ ← refuse_if (length ≠ sg_artifact_length entry ∨ length ≠ sg_end_offset entry) MseInvalidGeneration;
  header ← mio MioRead (dir_read name JOURNAL_V1_HEADER_LEN);
  decoded ← lift (map_err (λ _, MseInvalidGeneration) (header_decode header));
  refuse_if (header_store_id decoded ≠ store_id) MseStoreMismatch.
Definition validate_sealed_inventory_metadata (catalog : GenerationCatalogSnapshot) : StoreOp () :=
  each (validate_sealed_metadata (cs_store_id catalog)) (cs_entries catalog).

Definition read_referenced_catalog (reference : GenerationCatalogReference) (store_id : StoreId)
  : StoreOp GenerationCatalogSnapshot :=
  name ← lift (slot_name CATALOG_SLOT_NAMES (cat_slot reference) MseInvalidGeneration);
  bytes ← read_required_bounded name MAX_GENERATION_CATALOG_BYTES;
  _ ← refuse_if (len bytes ≠ cat_length reference ∨ crc32c bytes ≠ cat_checksum reference) MseInvalidGeneration;
  catalog ← lift (map_err map_generation_codec (decode_catalog bytes (cat_slot reference) store_id));
  _ ← refuse_if (cs_reference catalog ≠ Some reference) MseInvalidGeneration;
  _ ← validate_sealed_inventory_metadata catalog;
  mret catalog.
(** [match reference { Some(..) => read_referenced_catalog(..)?, None => empty }]. *)
Definition read_catalog_or_empty (reference : option GenerationCatalogReference) (store_id : StoreId)
  : StoreOp GenerationCatalogSnapshot :=
  match reference with
  | Some reference => read_referenced_catalog reference store_id
  | None => mret (catalog_empty store_id)
  end.

Definition validate_manifest_catalog_binding (manifest : ManifestRecord) (catalog : GenerationCatalogSnapshot)
  : result ManifestStoreError () :=
  let! reference := ok_or (cs_reference catalog) MseInvalidGeneration in
  let! entry := ok_or (last (cs_entries catalog)) MseInvalidGeneration in
  if decide (mf_catalog manifest ≠ Some reference ∨
             checked_add u64_max (sg_journal_generation entry) 1 ≠ Some (mf_journal manifest) ∨
             mf_sequence_floor manifest ≠ sg_sequence_cutoff entry ∨
             rg_generation (mf_registry manifest) < sg_registry_generation entry)
  then Err MseInvalidGeneration
  else Ok tt.

(** [newer.entries().starts_with(older.entries())]. *)
Definition starts_with (l prefix : list SealedGeneration) : bool := bool_decide (take (length prefix) l = prefix).
Definition catalog_appends_exactly_one (older newer : GenerationCatalogSnapshot) : bool :=
  match cs_reference older, cs_reference newer with
  | Some older_reference, Some newer_reference =>
    bool_decide (checked_add u64_max (cat_generation older_reference) 1 = Some (cat_generation newer_reference) ∧
                 len (cs_entries older) + 1 = len (cs_entries newer) ∧
                 starts_with (cs_entries newer) (cs_entries older))
  | _, _ => false
  end.
Definition catalog_is_strict_prefix (older newer : GenerationCatalogSnapshot) : bool :=
  bool_decide (len (cs_entries older) < len (cs_entries newer) ∧ starts_with (cs_entries newer) (cs_entries older)) &&
  is_some_and (λ older_reference, is_some_and (λ newer_reference,
    bool_decide (cat_generation older_reference < cat_generation newer_reference)) (cs_reference newer)) (cs_reference older).

Definition catalog_progresses (older_manifest : ManifestRecord) (older newer : GenerationCatalogSnapshot) : bool :=
  match mf_catalog older_manifest with
  | None => bool_decide (cs_reference older = None ∧ cs_entries older = [] ∧ len (cs_entries newer) = 1) &&
            is_some_and (λ reference, bool_decide (cat_generation reference = 1)) (cs_reference newer)
  | Some reference => bool_decide (cs_reference older = Some reference) && catalog_appends_exactly_one older newer
  end.
Definition validate_catalog_advancing_transition (older_manifest newer_manifest : ManifestRecord)
    (older_catalog newer_catalog : GenerationCatalogSnapshot) : result ManifestStoreError () :=
  let! appended := ok_or (last (cs_entries newer_catalog)) MseInvalidGeneration in
  let older_cutoff := mf_cutoff older_manifest in
  let newer_cutoff := mf_cutoff newer_manifest in
  if decide (¬ catalog_progresses older_manifest older_catalog newer_catalog ∨
             mf_catalog newer_manifest ≠ cs_reference newer_catalog ∨
             ¬ catalog_reference_progresses (mf_catalog older_manifest) (mf_catalog newer_manifest) ∨
             checked_add u64_max (mf_generation older_manifest) 1 ≠ Some (mf_generation newer_manifest) ∨
             sg_journal_generation appended ≠ mf_journal older_manifest ∨
             sg_sequence_floor appended ≠ mf_sequence_floor older_manifest ∨
             sg_sequence_cutoff appended ≠ cut_append_sequence older_cutoff ∨
             sg_end_offset appended ≠ cut_end_offset older_cutoff ∨
             sg_artifact_length appended ≠ cut_end_offset older_cutoff ∨
             sg_registry_generation appended ≠ rg_generation (mf_registry older_manifest) ∨
             checked_add u64_max (mf_journal older_manifest) 1 ≠ Some (mf_journal newer_manifest) ∨
             mf_sequence_floor newer_manifest ≠ cut_append_sequence older_cutoff ∨
             cut_append_sequence newer_cutoff ≠ cut_append_sequence older_cutoff ∨
             cut_end_offset newer_cutoff ≠ JOURNAL_V1_HEADER_LEN ∨
             cut_checkpoint_generation newer_cutoff ≠ 1 ∨
             mf_registry newer_manifest ≠ mf_registry older_manifest ∨
             mf_retry newer_manifest ≠ mf_retry older_manifest ∨
             mf_recovery newer_manifest ≠ mf_recovery older_manifest)
  then Err MseInvalidGeneration
  else Ok tt.

(** The catalogs that the manifests name, each bound to its manifest. *)
Fixpoint referenced_catalogs (ms : list ManifestRecord) (store_id : StoreId) : StoreOp (list GenerationCatalogSnapshot) :=
  match ms with
  | [] => mret []
  | m :: ms =>
    match mf_catalog m with
    | None => referenced_catalogs ms store_id
    | Some reference =>
      catalog ← read_referenced_catalog reference store_id;
      _ ← lift (validate_manifest_catalog_binding m catalog);
      catalogs ← referenced_catalogs ms store_id;
      mret (catalog :: catalogs)
    end
  end.
Definition validate_catalog_inventory (manifests : manifest_slots) (store_id : StoreId) : StoreOp () :=
  referenced ← referenced_catalogs (slot_list manifests) store_id;
  _ ← match older_newer manifests with
      | Some (older, newer) =>
        if decide (mf_catalog older = mf_catalog newer) then mret tt
        else
          older_catalog ← read_catalog_or_empty (mf_catalog older) store_id;
          reference ← lift (ok_or (mf_catalog newer) MseInvalidGeneration);
          newer_catalog ← read_referenced_catalog reference store_id;
          lift (validate_catalog_advancing_transition older newer older_catalog newer_catalog)
      | None => mret tt
      end;
  each_slot CATALOG_SLOT_NAMES MAX_GENERATION_CATALOG_BYTES 0 (λ slot bytes (_ : ()),
    catalog ← lift (map_err map_generation_codec (decode_catalog bytes slot store_id));
    reference ← lift (ok_or (cs_reference catalog) MseInvalidGeneration);
    let is_referenced := existsb (λ m, bool_decide (mf_catalog m = Some reference)) (slot_list manifests) in
    _ ← refuse_if (¬ is_referenced ∧ ¬ existsb (catalog_is_strict_prefix catalog) referenced) MseInvalidGeneration;
    validate_sealed_inventory_metadata catalog) tt.

Definition read_rotation_intent (store_id : StoreId) : StoreOp RotationIntent :=
  bytes ← read_required_bounded ROTATION_INTENT_FILE_NAME 96;
  lift (map_err map_generation_codec (decode_rotation_intent bytes store_id)).

(** The first manifest whose journal is the source of the rotation. *)
Definition source_manifest (manifests : manifest_slots) (intent : RotationIntent) : option ManifestRecord :=
  List.find (λ m, bool_decide (mf_journal m = ri_source_generation intent)) (slot_list manifests).
Definition validate_committed_rotation_transition (manifests : manifest_slots) (current : ManifestRecord)
    (intent : RotationIntent) (store_id : StoreId) : StoreOp () :=
  source ← lift (ok_or (source_manifest manifests intent) MseInvalidGeneration);
  source_catalog ← read_catalog_or_empty (mf_catalog source) store_id;
  reference ← lift (ok_or (mf_catalog current) MseInvalidGeneration);
  current_catalog ← read_referenced_catalog reference store_id;
  entry ← lift (ok_or (last (cs_entries current_catalog)) MseInvalidGeneration);
  _ ← lift (validate_catalog_advancing_transition source current source_catalog current_catalog);
  let expected_catalog_generation := match cs_reference source_catalog with
                                     | Some reference => checked_add u64_max (cat_generation reference) 1
                                     | None => Some 1
                                     end in
  _ ← refuse_if (mf_journal source ≠ ri_source_generation intent ∨
                 cut_append_sequence (mf_cutoff source) ≠ ri_sequence_cutoff intent ∨
                 cut_end_offset (mf_cutoff source) ≠ ri_source_end_offset intent ∨
                 cut_checkpoint_generation (mf_cutoff source) ≠ ri_source_checkpoint_generation intent ∨
                 rg_generation (mf_registry source) ≠ ri_registry_generation intent ∨
                 mf_journal current ≠ ri_successor_generation intent ∨
                 cut_checkpoint_generation (mf_cutoff current) ≠ 1 ∨
                 expected_catalog_generation ≠ Some (ri_catalog_generation intent) ∨
                 (cat_generation <$> cs_reference current_catalog) ≠ Some (ri_catalog_generation intent) ∨
                 sg_journal_generation entry ≠ ri_source_generation intent ∨
                 sg_sequence_floor entry ≠ mf_sequence_floor source ∨
                 sg_sequence_cutoff entry ≠ ri_sequence_cutoff intent ∨
                 sg_end_offset entry ≠ ri_source_end_offset intent ∨
                 sg_registry_generation entry ≠ ri_registry_generation intent ∨
                 sg_artifact_length entry ≠ ri_source_end_offset intent) MseInvalidGeneration;
  lift (validate_manifest_catalog_binding current current_catalog).

(** ** The retry state *)

Definition read_referenced_retry (owning_manifest : ManifestRecord) (store_id : StoreId)
    (options : RetryPersistenceOptions) (catalog : GenerationCatalogSnapshot) : StoreOp RetryStateSnapshot :=
  let reference := mf_retry owning_manifest in
  name ← lift (slot_name RETRY_SLOT_NAMES (rs_slot (ra_public reference)) MseInvalidRetry);
  bytes ← read_required_bounded name MAX_RETRY_STATE_BYTES;
  _ ← refuse_if (len bytes ≠ ra_length reference ∨ crc32c bytes ≠ ra_checksum reference) MseInvalidRetry;
  decoded ← lift (map_err map_retry_codec
              (decode_retry_state_at_slot bytes (rs_slot (ra_public reference)) store_id options));
  _ ← refuse_if (decoded.1 ≠ reference ∨
                 ¬ validates_root_with_catalog decoded.2 (manifest_commit owning_manifest) catalog) MseInvalidRetry;
  mret decoded.2.

(** [Iterator::min]. *)
Definition min_generation (gs : list Z) : option Z := foldl (λ acc g, Some (from_option (Z.min g) g acc)) None gs.
Definition validate_retry_inventory (manifests : manifest_slots) (store_id : StoreId)
    (options : RetryPersistenceOptions) (allow_rotation_redundancy : bool) : StoreOp () :=
  let oldest_referenced_generation :=
    min_generation ((λ m, rs_generation (ra_public (mf_retry m))) <$> slot_list manifests) in
  _ ← each_slot RETRY_SLOT_NAMES MAX_RETRY_STATE_BYTES 0 (λ slot bytes (_ : ()),
        decoded ← lift (map_err map_retry_codec (decode_retry_state_at_slot bytes slot store_id options));
        let referenced := existsb (λ m, bool_decide (mf_retry m = decoded.1)) (slot_list manifests) in
        let redundant := allow_rotation_redundancy &&
          is_some_and (λ oldest, bool_decide (rs_generation (ra_public decoded.1) < oldest)) oldest_referenced_generation in
        refuse_if (¬ (referenced || redundant)) MseInvalidRetry) tt;
  each (λ m,
    manifest_catalog ← read_catalog_or_empty (mf_catalog m) store_id;
    _ ← read_referenced_retry m store_id options manifest_catalog; mret tt) (slot_list manifests).

Definition read_interrupted_genesis_retry (store_id : StoreId) (options : RetryPersistenceOptions)
  : StoreOp RetryArtifactReference :=
  found ← each_slot RETRY_SLOT_NAMES MAX_RETRY_STATE_BYTES 0 (λ slot bytes found,
            _ ← refuse_if (is_Some found) MseInvalidRetry;
            decoded ← lift (map_err map_retry_codec (decode_retry_state_at_slot bytes slot store_id options));
            _ ← refuse_if (rs_generation (ra_public decoded.1) ≠ 1 ∨ st_replay decoded.2 ≠ [] ∨ st_guard decoded.2 ≠ [])
                  MseInvalidRetry;
            mret (Some decoded.1)) None;
  lift (ok_or found MseInvalidRetry).

Definition validate_pending_retry_preflight (prior cutoff : DurableCutoff) (pending_len : Z) : result ManifestStoreError () :=
  let delta := checked_sub (cut_append_sequence cutoff) (cut_append_sequence prior) in
  if decide (pending_len = 0 ∨ pending_len > MAX_PERSISTED_RETRY_ENTRIES ∨ cut_journal prior ≠ cut_journal cutoff ∨
             delta ≠ Some pending_len ∨ cut_end_offset cutoff ≤ cut_end_offset prior)
  then Err MseInvalidRetry
  else Ok tt.
Fixpoint check_pending (expected_sequence previous_end : Z) (pending : list PendingRetryOutcome)
  : result ManifestStoreError () :=
  match pending with
  | [] => Ok tt
  | entry :: pending =>
    if decide (po_append_sequence entry ≠ expected_sequence ∨ po_end_offset entry ≤ previous_end) then Err MseInvalidRetry
    else
      let! next := ok_or (checked_add u64_max expected_sequence 1) MseGenerationExhausted in
      check_pending next (po_end_offset entry) pending
  end.
Definition validate_pending_retry (prior cutoff : DurableCutoff) (pending : list PendingRetryOutcome)
  : result ManifestStoreError () :=
  let! _ := validate_pending_retry_preflight prior cutoff (len pending) in
  let! expected := ok_or (checked_add u64_max (cut_append_sequence prior) 1) MseGenerationExhausted in
  let! _ := check_pending expected (cut_end_offset prior) pending in
  let! entry := ok_or (last pending) MseInvalidRetry in
  if decide (po_append_sequence entry ≠ cut_append_sequence cutoff ∨ po_end_offset entry ≠ cut_end_offset cutoff)
  then Err MseInvalidRetry
  else Ok tt.

(** ** Recovery reports *)

Record RecoveryInventoryState := mkRecoveryInventory {
  rv_slots : list (option RecoveryArtifact);
  rv_staging : option RecoveryReport;
  rv_manifest_staging : option ManifestRecord }.

Definition read_recovery_slot (name : list byte) (slot : Z) (store_id : StoreId) : StoreOp (option RecoveryArtifact) :=
  bytes ← read_optional_bounded name RECOVERY_STATE_LEN;
  match bytes with
  | None => mret None
  | Some bytes =>
    report ← lift (map_err map_recovery_codec (decode_recovery_state bytes store_id));
    mret (Some (mkRecoveryArtifact (mkRecoveryReference slot (crc32c bytes)) report))
  end.
Fixpoint read_recovery_slots (names : list (list byte)) (slot : Z) (store_id : StoreId)
  : StoreOp (list (option RecoveryArtifact)) :=
  match names with
  | [] => mret []
  | name :: names =>
    artifact ← read_recovery_slot name slot store_id;
    artifacts ← read_recovery_slots names (slot + 1) store_id;
    mret (artifact :: artifacts)
  end.
Definition read_recovery_inventory (store_id : StoreId) : StoreOp RecoveryInventoryState :=
  slots ← read_recovery_slots RECOVERY_SLOT_NAMES 0 store_id;
  staging ← read_recovery_slot RECOVERY_STAGING_FILE_NAME 0 store_id;
  manifest_staging ← read_manifest_slot MANIFEST_STAGING_FILE_NAME store_id;
  mret (mkRecoveryInventory slots (ra_report <$> staging) manifest_staging).

Definition referenced_recovery (inventory : RecoveryInventoryState) (reference : RecoveryReference)
  : result ManifestStoreError RecoveryReport :=
  match rv_slots inventory !! Z.to_nat (rr_slot reference) with
  | Some (Some artifact) =>
    if decide (ra_reference artifact = reference) then Ok (ra_report artifact) else Err MseInvalidManifest
  | _ => Err MseInvalidManifest
  end.

Definition manifest_checksum (record : ManifestRecord) : Z := from_be (slice 156 160 (encode_manifest record)).
Definition manifest_authority_equal_for_recovery (older newer : ManifestRecord) : bool :=
  bool_decide (checked_add u64_max (mf_generation older) 1 = Some (mf_generation newer) ∧
               mf_registry older = mf_registry newer ∧ mf_cutoff older = mf_cutoff newer ∧
               mf_retry older = mf_retry newer ∧ mf_sequence_floor older = mf_sequence_floor newer ∧
               mf_catalog older = mf_catalog newer).
Definition report_matches_source (report : RecoveryReport) (source : ManifestRecord) (committing_generation : Z) : bool :=
  bool_decide (rp_source_manifest_generation report = mf_generation source ∧
               rp_committing_manifest_generation report = committing_generation ∧
               rp_source_manifest_checksum report = manifest_checksum source ∧
               report_cutoff report = mf_cutoff source ∧ rp_sequence_floor report = mf_sequence_floor source).

(** The reports that the manifests name exist and are not newer than them. *)
Fixpoint check_referenced_reports (inventory : RecoveryInventoryState) (ms : list ManifestRecord)
  : result ManifestStoreError () :=
  match ms with
  | [] => Ok tt
  | m :: ms =>
    match mf_recovery m with
    | None => check_referenced_reports inventory ms
    | Some reference =>
      let! report := referenced_recovery inventory reference in
      if decide (rp_committing_manifest_generation report > mf_generation m) then Err MseInvalidManifest
      else check_referenced_reports inventory ms
    end
  end.
Definition validate_recovery_manifest_progression (manifests : manifest_slots) (inventory : RecoveryInventoryState)
  : result ManifestStoreError () :=
  let! _ := check_referenced_reports inventory (slot_list manifests) in
  match older_newer manifests with
  | None => Ok tt
  | Some (older, newer) =>
    if decide (mf_recovery older = mf_recovery newer) then Ok tt
    else
      let! newer_reference := ok_or (mf_recovery newer) MseInvalidManifest in
      let! newer_report := referenced_recovery inventory newer_reference in
      let! expected_generation :=
        match mf_recovery older with
        | Some reference =>
          let! report := referenced_recovery inventory reference in
          Ok (checked_add u64_max (rp_report_generation report) 1)
        | None => Ok (Some 1)
        end in
      if decide (expected_generation ≠ Some (rp_report_generation newer_report) ∨
                 ¬ manifest_authority_equal_for_recovery older newer ∨
                 ¬ report_matches_source newer_report older (mf_generation newer))
      then Err MseInvalidManifest
      else Ok tt
  end.

Fixpoint referenced_generations (inventory : RecoveryInventoryState) (references : list RecoveryReference)
  : result ManifestStoreError (list Z) :=
  match references with
  | [] => Ok []
  | reference :: references =>
    let! report := referenced_recovery inventory reference in
    let! gs := referenced_generations inventory references in
    Ok (rp_report_generation report :: gs)
  end.
Definition referenced_recoveries (manifests : manifest_slots) : list RecoveryReference :=
  omap mf_recovery (slot_list manifests).
Definition validate_no_pending_recovery (manifests : manifest_slots) (inventory : RecoveryInventoryState)
  : result ManifestStoreError () :=
  if decide (is_Some (rv_staging inventory)) then Err MseInvalidGeneration
  else
    let referenced := referenced_recoveries manifests in
    let! gs := referenced_generations inventory referenced in
    let latest := max_generation gs in
    let pending (artifact : RecoveryArtifact) :=
      bool_decide (ra_reference artifact ∉ referenced) &&
      match latest with
      | None => true
      | Some generation => bool_decide (rp_report_generation (ra_report artifact) >= generation)
      end in
    if existsb pending (omap id (rv_slots inventory)) then Err MseInvalidGeneration else Ok tt.

(** Where a report's cutoff lies in the retained history. *)
Definition report_covered (report : RecoveryReport) (current : ManifestRecord) (catalog : GenerationCatalogSnapshot)
    (journal : ActiveJournal) : bool :=
  if decide (rp_active_generation report = mf_journal current) then
    bool_decide (rp_sequence_floor report = mf_sequence_floor current ∧
                 rp_append_sequence report >= mf_sequence_floor current ∧
                 rp_append_sequence report ≤ cut_append_sequence (mf_cutoff current) ∧
                 rp_committed_end_offset report ≤ cut_end_offset (mf_cutoff current)) &&
    (bool_decide (rp_append_sequence report = mf_sequence_floor current ∧
                  rp_committed_end_offset report = JOURNAL_V1_HEADER_LEN) ||
     existsb (λ record, bool_decide (sequence_of record = rp_append_sequence report ∧
                                     rec_end_offset record = rp_committed_end_offset report)) (aj_records journal))
  else
    existsb (λ entry, bool_decide (
      sg_journal_generation entry = rp_active_generation report ∧ sg_sequence_floor entry = rp_sequence_floor report ∧
      ((rp_append_sequence report = sg_sequence_floor entry ∧ rp_committed_end_offset report = JOURNAL_V1_HEADER_LEN) ∨
       (rp_append_sequence report > sg_sequence_floor entry ∧ rp_append_sequence report ≤ sg_sequence_cutoff entry ∧
        rp_committed_end_offset report > JOURNAL_V1_HEADER_LEN ∧
        rp_committed_end_offset report ≤ sg_end_offset entry)))) (cs_entries catalog).
Fixpoint check_report_coverage (inventory : RecoveryInventoryState) (current : ManifestRecord)
    (catalog : GenerationCatalogSnapshot) (journal : ActiveJournal) (validated references : list RecoveryReference)
  : result ManifestStoreError () :=
  match references with
  | [] => Ok tt
  | reference :: references =>
    if decide (reference ∈ validated) then check_report_coverage inventory current catalog journal validated references
    else
      let! report := referenced_recovery inventory reference in
      if decide (rp_committing_manifest_generation report > mf_generation current) then Err MseInvalidManifest
      else if report_covered report current catalog journal
      then check_report_coverage inventory current catalog journal (validated ++ [reference]) references
      else Err MseInvalidManifest
  end.
Definition validate_recovery_report_coverage (manifests : manifest_slots) (inventory : RecoveryInventoryState)
    (current : ManifestRecord) (catalog : GenerationCatalogSnapshot) (journal : ActiveJournal)
  : result ManifestStoreError () :=
  check_report_coverage inventory current catalog journal [] (referenced_recoveries manifests).
