(* ===== verification/Store.v ===== *)
(** * The manifest store: the handle and its operations

    [och-store/src/manifest.rs], [struct ManifestStore] and the methods of an open
    handle: the preparation of artifacts in memory, their publication into
    reusable slots followed by the publication of a manifest that names them, the
    adoption of that manifest, the registry operations, appending and the barrier
    that commits the appended frames, and the sticky write state. *)

From S2P Require Import Prelude Bytes Identity Series Collection Registry Admission Crc Commit Journal Generation Retry RetryCodec Recovery.
From S2P Require Import Active Disk Segment Manifest RegistryReplay RegistryCodec Directory Publish Roots.

(** ** The handle *)

Record ManifestStore := mkStore {
  ms_journal : ActiveJournal;
  ms_registry : SeriesRegistry;
  ms_retry : RetryStateSnapshot;
  ms_catalog : GenerationCatalogSnapshot;
  ms_recovery_report : option RecoveryReport;
  ms_slots : manifest_slots;
  ms_current_slot : nat;
  ms_current : ManifestRecord;
  ms_write_state : StoreWriteState }.
Definition with_journal (journal : ActiveJournal) (s : ManifestStore) : ManifestStore :=
  mkStore journal (ms_registry s) (ms_retry s) (ms_catalog s) (ms_recovery_report s) (ms_slots s) (ms_current_slot s)
    (ms_current s) (ms_write_state s).
Definition with_registry (registry : SeriesRegistry) (s : ManifestStore) : ManifestStore :=
  mkStore (ms_journal s) registry (ms_retry s) (ms_catalog s) (ms_recovery_report s) (ms_slots s) (ms_current_slot s)
    (ms_current s) (ms_write_state s).
Definition with_retry (retry : RetryStateSnapshot) (s : ManifestStore) : ManifestStore :=
  mkStore (ms_journal s) (ms_registry s) retry (ms_catalog s) (ms_recovery_report s) (ms_slots s) (ms_current_slot s)
    (ms_current s) (ms_write_state s).
Definition with_custody (state : StoreWriteState) (s : ManifestStore) : ManifestStore :=
  mkStore (ms_journal s) (ms_registry s) (ms_retry s) (ms_catalog s) (ms_recovery_report s) (ms_slots s)
    (ms_current_slot s) (ms_current s) state.

Definition commit (s : ManifestStore) : ManifestCommit := manifest_commit (ms_current s).
Definition ms_store_id (s : ManifestStore) : StoreId := mf_store_id (ms_current s).
Definition store_usable (s : ManifestStore) : result ManifestStoreError () :=
  match ms_write_state s with
  | Writable => Ok tt
  | StateReopenRequired => Err MseReopenRequired
  | StateFaulted => Err MseFaulted
  end.

Record ManifestStoreInspection := mkStoreInspection {
  si_active : ActiveJournalInspection;
  si_committed : ManifestCommit;
  si_generations : GenerationInventory;
  si_recovery : option RecoveryReport;
  si_write_state : StoreWriteState }.
Definition store_inspection (s : ManifestStore) : ManifestStoreInspection :=
  mkStoreInspection (Active.inspection (ms_journal s)) (commit s)
    (from_catalog (journal_generation (aj_identity (ms_journal s))) (ms_catalog s))
    (ms_recovery_report s) (ms_write_state s).

(** ** Methods *)

Abbreviation StoreMethod := (M (ManifestStore * world) ManifestStoreError).
Definition this : StoreMethod ManifestStore := λ s, (Ok s.1, s).
Definition modify (f : ManifestStore → ManifestStore) : StoreMethod () := λ s, (Ok tt, (f s.1, s.2)).
(** An operation on the directory. *)
Definition world_effect {A} (m : StoreOp A) : StoreMethod A := λ s, let '(r, w) := m s.2 in (r, (s.1, w)).

Definition record_active_error (s : ManifestStore) : ManifestStore :=
  match aj_write_state (ms_journal s) with Writable => s | state => with_custody state s end.
Definition record_terminal_error (error : ManifestStoreError) (s : ManifestStore) : ManifestStore :=
  with_custody (match error with
                | MseStoragePressure _ | MseReopenRequired
                | MseActive (StoragePressure _) | MseActive ReopenRequired => StateReopenRequired
                | _ => StateFaulted
                end) s.
(** [if let Err(error) = .. { return Err(self.record_terminal_error(error)); }]. *)
Definition recorded {A} (m : StoreMethod A) : StoreMethod A := λ s,
  match m s with
  | (Err error, s) => (Err error, (record_terminal_error error s.1, s.2))
  | answer => answer
  end.
(** A method of the active journal, its failure recorded. *)
Definition journal_method {A} (m : Method A) : StoreMethod A := λ s,
  match m (ms_journal s.1, w_disk s.2) with
  | (Ok a, (journal, d)) => (Ok a, (with_journal journal s.1, mkWorld d (w_dir s.2)))
  | (Err error, (journal, d)) =>
    (Err (MseActive error), (record_active_error (with_journal journal s.1), mkWorld d (w_dir s.2)))
  end.

(** ** Preparation *)

(** The first of the three slots that no retained manifest uses. *)
Definition free_slot (used : list Z) : option Z := List.find (λ slot, bool_decide (slot ∉ used)) [0; 1; 2].

Record PreparedRegistryPublication := mkPreparedRegistry { pr_reference : RegistryReference; pr_bytes : list byte }.
Definition prepare_registry_snapshot (s : ManifestStore) (generation : Z) (after : SeriesRegistrySnapshot)
  : result ManifestStoreError PreparedRegistryPublication :=
  let! slot := ok_or (free_slot ((λ m, rg_slot (mf_registry m)) <$> slot_list (ms_slots s))) MseInvalidRegistry in
  let! bytes := encode_registry_snapshot generation after in
  Ok (mkPreparedRegistry (mkRegistryReference slot generation (len bytes) (crc32c bytes)) bytes).

Definition select_retry_candidate_slot (s : ManifestStore) : result ManifestStoreError Z :=
  ok_or (free_slot ((λ m, rs_slot (ra_public (mf_retry m))) <$> slot_list (ms_slots s))) MseInvalidRetry.
Record PreparedRetryPublication := mkPreparedRetry { pt_reference : RetryArtifactReference; pt_bytes : list byte }.
Definition prepare_retry_snapshot (s : ManifestStore) (public : RetryStateReference) (state : RetryStateSnapshot)
  : result ManifestStoreError PreparedRetryPublication :=
  if decide (st_reference state ≠ Some public ∨ rs_slot public >= 3) then Err MseInvalidRetry
  else
    let! selected := select_retry_candidate_slot s in
    if decide (selected ≠ rs_slot public) then Err MseInvalidRetry
    else
      let! bytes := map_err map_retry_codec (encode_retry_state state) in
      Ok (mkPreparedRetry (mkRetryArtifact public (len bytes) (crc32c bytes)) bytes).

Definition select_catalog_candidate_slot (s : ManifestStore) : result ManifestStoreError Z :=
  ok_or (free_slot (omap (λ m, cat_slot <$> mf_catalog m) (slot_list (ms_slots s)))) MseInvalidGeneration.
Record PreparedCatalogPublication := mkPreparedCatalog { pg_snapshot : GenerationCatalogSnapshot; pg_bytes : list byte }.
Definition prepare_catalog_snapshot (s : ManifestStore) (slot generation : Z) (provisional : GenerationCatalogSnapshot)
  : result ManifestStoreError PreparedCatalogPublication :=
  if decide (slot >= 3) then Err MseInvalidGeneration
  else
    let! selected := select_catalog_candidate_slot s in
    if decide (selected ≠ slot ∨
               ¬ is_some_and (λ r, bool_decide (cat_slot r = slot ∧ cat_generation r = generation)) (cs_reference provisional))
    then Err MseInvalidGeneration
    else
      let! provisional_bytes := map_err map_generation_codec (encode_catalog provisional) in
      let reference := mkCatalogReference slot generation (len provisional_bytes) (crc32c provisional_bytes) in
      let! catalog := map_err map_generation_codec (with_reference provisional reference) in
      let! bytes := map_err map_generation_codec (encode_catalog catalog) in
      if decide (bytes ≠ provisional_bytes) then Err MseInvalidGeneration
      else Ok (mkPreparedCatalog catalog bytes).

Record PreparedManifestPublication := mkPreparedManifest {
  pm_record : ManifestRecord; pm_target : nat; pm_bytes : list byte }.
Definition manifest_target (s : ManifestStore) (record : ManifestRecord) : result ManifestStoreError nat :=
  if decide (mf_generation record = 1) then
    match ms_slots s with
    | (None, _) => Ok 0%nat
    | (_, None) => Ok 1%nat
    | _ => Err MseInvalidManifest
    end
  else Ok (1 - ms_current_slot s)%nat.
Definition prepare_manifest (s : ManifestStore) (record : ManifestRecord)
  : result ManifestStoreError PreparedManifestPublication :=
  let! target := manifest_target s record in
  let bytes := encode_manifest record in
  if decide (len bytes ≠ MANIFEST_LEN) then Err MseInvalidManifest
  else Ok (mkPreparedManifest record target bytes).

(** ** Publication *)

Definition publish_prepared_registry_snapshot (after : SeriesRegistrySnapshot) (prepared : PreparedRegistryPublication)
  : StoreOp () :=
  let slot := rg_slot (pr_reference prepared) in
  publish_reusable_slot REGISTRY_STAGING_FILE_NAME (nth (Z.to_nat slot) REGISTRY_SLOT_NAMES [])
    (pr_bytes prepared) MAX_REGISTRY_SNAPSHOT_BYTES (λ candidate,
      let! decoded := decode_registry_snapshot_at_slot candidate slot in
      if decide (dr_reference decoded ≠ pr_reference prepared ∨ snapshot (dr_registry decoded) ≠ after)
      then Err MseInvalidRegistry
      else Ok tt).
Definition publish_prepared_retry_snapshot (state : RetryStateSnapshot) (prepared : PreparedRetryPublication)
  : StoreOp () :=
  let public := ra_public (pt_reference prepared) in
  publish_reusable_slot RETRY_STAGING_FILE_NAME (nth (Z.to_nat (rs_slot public)) RETRY_SLOT_NAMES [])
    (pt_bytes prepared) MAX_RETRY_STATE_BYTES (λ candidate,
      let! decoded := map_err map_retry_codec
        (decode_retry_state_at_slot candidate (rs_slot public) (st_store_id state) (st_options state)) in
      if decide (decoded.1 ≠ pt_reference prepared ∨ decoded.2 ≠ state) then Err MseInvalidRetry else Ok tt).
Definition publish_prepared_catalog_snapshot (prepared : PreparedCatalogPublication) : StoreOp () :=
  reference ← lift (ok_or (cs_reference (pg_snapshot prepared)) MseInvalidGeneration);
  let slot := cat_slot reference in
  publish_reusable_slot GENERATION_CATALOG_STAGING_FILE_NAME (nth (Z.to_nat slot) CATALOG_SLOT_NAMES [])
    (pg_bytes prepared) MAX_GENERATION_CATALOG_BYTES (λ candidate,
      let! decoded := map_err map_generation_codec (decode_catalog candidate slot (cs_store_id (pg_snapshot prepared))) in
      if decide (decoded ≠ pg_snapshot prepared) then Err MseInvalidGeneration else Ok tt).
Definition publish_prepared_manifest (store_id : StoreId) (prepared : PreparedManifestPublication) : StoreOp nat :=
  _ ← publish_reusable_slot MANIFEST_STAGING_FILE_NAME (nth (pm_target prepared) MANIFEST_SLOT_NAMES [])
        (pm_bytes prepared) MANIFEST_LEN (λ candidate,
          let! decoded := decode_manifest candidate store_id in
          if decide (decoded ≠ pm_record prepared) then Err MseInvalidManifest else Ok tt);
  mret (pm_target prepared).

Definition set_slot (slot : nat) (record : ManifestRecord) (slots : manifest_slots) : manifest_slots :=
  match slot with O => (Some record, slots.2) | S _ => (slots.1, Some record) end.
Definition adopt_published_manifest (slot : nat) (record : ManifestRecord) (slots : manifest_slots) (s : ManifestStore)
  : ManifestStore :=
  mkStore (ms_journal s) (ms_registry s) (ms_retry s) (ms_catalog s) (ms_recovery_report s) slots slot record
    (ms_write_state s).
Definition publish_and_adopt_prepared_manifest (prepared : PreparedManifestPublication) : StoreMethod ManifestCommit :=
  s ← this;
  slot ← recorded (world_effect (publish_prepared_manifest (ms_store_id s) prepared));
  let slots := set_slot slot (pm_record prepared) (ms_slots s) in
  _ ← recorded (world_effect (remove_unreferenced_catalog_slots slots));
  _ ← recorded (world_effect (remove_unreferenced_retry_slots slots));
  _ ← recorded (world_effect (remove_unreferenced_recovery_slots slots (ms_store_id s)));
  _ ← modify (adopt_published_manifest slot (pm_record prepared) slots);
  s ← this;
  mret (commit s).

(** ** Registry operations *)

Definition next_generation (generation : Z) : result ManifestStoreError Z :=
  ok_or (checked_add u64_max generation 1) MseGenerationExhausted.

Definition apply_registry {T} (operation : SeriesRegistry → result ModelError T * SeriesRegistry)
  : StoreMethod (T * ManifestCommit) :=
  s ← this;
  _ ← lift (store_usable s);
  candidate ← lift (restore_snapshot (snapshot (ms_registry s)));
  let before := snapshot candidate in
  let '(answer, candidate) := operation candidate in
  output ← lift (map_err MseModel answer);
  let after := snapshot candidate in
  if decide (after = before) then mret (output, commit s)
  else
    registry_generation ← lift (next_generation (rg_generation (mf_registry (ms_current s))));
    manifest_generation ← lift (next_generation (mf_generation (ms_current s)));
    registry_publication ← lift (prepare_registry_snapshot s registry_generation after);
    let record := mkManifest manifest_generation (pr_reference registry_publication) (durable_cutoff (ms_journal s))
      (mf_retry (ms_current s)) (mf_recovery (ms_current s)) (mf_sequence_floor (ms_current s)) (mf_catalog (ms_current s)) in
    manifest ← lift (prepare_manifest s record);
    _ ← recorded (world_effect (publish_prepared_registry_snapshot after registry_publication));
    commit ← recorded (publish_and_adopt_prepared_manifest manifest);
    _ ← modify (with_registry candidate);
    mret (output, commit).

Definition store_register (series_id : SeriesId) (binding : SeriesBinding) (payload : SeriesDeclarationPayload)
    (evidence : DeclarationEvidence) : StoreMethod (SeriesDeclaration * ManifestCommit) :=
  apply_registry (λ registry, register registry series_id binding payload evidence).
Definition store_revise (series_id : SeriesId) (expected : DeclarationRevision) (payload : SeriesDeclarationPayload)
    (evidence : DeclarationEvidence) : StoreMethod (SeriesDeclaration * ManifestCommit) :=
  apply_registry (λ registry, revise registry series_id expected payload evidence).
Definition store_retire (series_id : SeriesId) (expected : DeclarationRevision) (evidence : DeclarationEvidence)
  : StoreMethod (SeriesRetirement * ManifestCommit) :=
  apply_registry (λ registry, retire registry series_id expected evidence).
Definition store_bind (s : ManifestStore) (envelope : CollectionEnvelope) : result ManifestStoreError DeclaredCollectionEnvelope :=
  let! _ := store_usable s in
  map_err MseModel (Registry.bind (ms_registry s) envelope).

(** ** Appending *)

Definition store_next_append_sequence (s : ManifestStore) : result ManifestStoreError AppendSequenceV1 :=
  let! _ := store_usable s in
  map_err MseActive (next_append_sequence (ms_journal s)).
Definition preflight_historical_declaration (s : ManifestStore) (declaration : SeriesDeclaration)
  : result ManifestStoreError () :=
  let! _ := store_usable s in
  if decide (resolve (ms_registry s) (decl_series_id declaration) (decl_revision declaration) ≠ Some declaration)
  then Err MseHistoricalDeclarationMismatch
  else Ok tt.
Definition store_append (frame : PreparedFrameV1) : StoreMethod Z :=
  s ← this;
  _ ← lift (preflight_historical_declaration s (adm_declaration (frame_admission frame)));
  journal_method (append frame).
Definition requires_rotation (s : ManifestStore) (frame_len : Z) : result ManifestStoreError bool :=
  let! _ := store_usable s in
  let limits := aj_limits (ms_journal s) in
  if decide (record_limit limits = 0 ∨
             ¬ is_some_and (λ length, bool_decide (length ≤ active_bytes_limit limits))
                 (checked_add u64_max JOURNAL_V1_HEADER_LEN frame_len))
  then Err (MseActive FrameTooLarge)
  else Ok (negb (can_fit frame_len (ms_journal s))).

(** ** The barrier *)

Record PendingCommitPlan := mkPendingCommit {
  pp_cutoff : DurableCutoff;
  pp_retry : RetryStateSnapshot;
  pp_retry_publication : PreparedRetryPublication;
  pp_manifest : PreparedManifestPublication }.
Definition prepare_synced_pending (s : ManifestStore) (cutoff : DurableCutoff) (pending : list PendingRetryOutcome)
  : result ManifestStoreError PendingCommitPlan :=
  let current := ms_current s in
  let! _ := validate_pending_retry (mf_cutoff current) cutoff pending in
  let! generation := next_generation (mf_generation current) in
  let! retry_generation := next_generation (rs_generation (ra_public (mf_retry current))) in
  let! retry_slot := select_retry_candidate_slot s in
  let retry_public := mkRetryReference retry_slot retry_generation in
  let anticipated := mkCommit generation (rg_generation (mf_registry current)) (rg_slot (mf_registry current)) cutoff
    retry_public (mf_sequence_floor current) (mf_catalog current) in
  let! candidate := map_err (λ _, MseInvalidRetry) (advance (ms_retry s) retry_public pending anticipated) in
  let! retry_publication := prepare_retry_snapshot s retry_public candidate in
  let next := mkManifest generation (mf_registry current) cutoff (pt_reference retry_publication) (mf_recovery current)
    (mf_sequence_floor current) (mf_catalog current) in
  let! manifest := prepare_manifest s next in
  Ok (mkPendingCommit cutoff candidate retry_publication manifest).
Definition commit_synced_pending (plan : PendingCommitPlan) : StoreMethod (ManifestCommit * RetryStateSnapshot) :=
  _ ← world_effect (publish_prepared_retry_snapshot (pp_retry plan) (pp_retry_publication plan));
  committed ← publish_and_adopt_prepared_manifest (pp_manifest plan);
  _ ← modify (with_retry (pp_retry plan));
  mret (committed, pp_retry plan).
Definition store_sync_pending (pending : list PendingRetryOutcome) : StoreMethod (ManifestCommit * RetryStateSnapshot) :=
  s ← this;
  _ ← lift (store_usable s);
  _ ← refuse_if (len pending > MAX_PERSISTED_RETRY_ENTRIES) MseInvalidRetry;
  anticipated_cutoff ← lift (map_err MseActive (pending_durable_cutoff (ms_journal s)));
  if decide (anticipated_cutoff = mf_cutoff (ms_current s)) then
    _ ← refuse_if (pending ≠ []) MseInvalidRetry;
    mret (commit s, ms_retry s)
  else
    plan ← lift (prepare_synced_pending s anticipated_cutoff pending);
    cutoff ← journal_method sync_pending;
    _ ← recorded (refuse_if (cutoff ≠ pp_cutoff plan) MseInvalidRetry);
    recorded (commit_synced_pending plan).
