(* ===== verification/Committed.v ===== *)
(** * What a directory commits to

    A directory whose manifest slots, and the artifacts that the retained manifests
    name, are settled: whatever a power loss or the death of the process leaves of
    it, reading it back selects the same manifest and the same registry, catalog
    and retry state. *)

From S2P Require Import Prelude Bytes Identity Series Registry Layout Crc Commit Journal Generation Retry RetryCodec Recovery.
From S2P Require Import Active Scan Effects Disk Segment Manifest RegistryReplay RegistryCodec Directory Publish Roots Store.

(** ** Names *)

Definition apart (A B : list (list byte)) : bool :=
  forallb (λ x, forallb (λ y, negb (bool_decide (x = y))) B) A.
Lemma apart_ne A B x y : apart A B = true → x ∈ A → y ∈ B → x ≠ y.
Proof.
  unfold apart. rewrite forallb_forall. intros H Hx Hy ->. apply list_elem_of_In in Hx, Hy.
  specialize (H _ Hx). rewrite forallb_forall in H. specialize (H _ Hy). by rewrite bool_decide_true in H.
Qed.
Lemma nth_slot (names : list (list byte)) k : (k < length names)%nat → nth k names [] ∈ names.
Proof. intros Hk. apply list_elem_of_In. by apply nth_In. Qed.
Definition sealed_prefix : list byte := take 19 (sealed_journal_file_name 0).
Lemma sealed_ne A x g : forallb (λ x, negb (bool_decide (take 19 x = sealed_prefix))) A = true → x ∈ A → x ≠ sealed_journal_file_name g.
Proof.
  rewrite forallb_forall. intros H Hx%list_elem_of_In ->. specialize (H _ Hx).
  rewrite bool_decide_true in H; [done|]. reflexivity.
Qed.

(** ** Reading when nothing fails *)

Lemma dir_look_quiet {A E} (f : IoError → E) (done : dir → result IoError A * dir) failed w a :
  quiet (w_disk w) → done (w_dir w) = (Ok a, w_dir w) → map_err_m f (dir_op done failed) w = (Ok a, w).
Proof. unfold quiet, map_err_m, dir_op, io_op. intros -> ->. by destruct w. Qed.

Lemma read_required_quiet name maximum w bytes :
  quiet (w_disk w) → dr_now (w_dir w) !! name = Some (settled bytes) → 0 < len bytes ≤ maximum →
  read_required_bounded name maximum w = (Ok bytes, w).
Proof.
  intros Hq Hn Hl. assert (dir_data (w_dir w) name = bytes) as Hd by (unfold dir_data; by rewrite Hn).
  unfold read_required_bounded, mio, dir_open, dir_len, dir_read.
  rewrite (run_bind_Ok _ _ _ () w) by (apply dir_look_quiet; [done|by rewrite Hn]).
  rewrite (run_bind_Ok _ _ _ (len bytes) w) by (apply dir_look_quiet; [done|by rewrite Hd]).
  rewrite (run_bind_Ok _ _ _ () w) by (apply refuse_false; lia).
  apply dir_look_quiet; [done|]. rewrite Hd, decide_True by lia. by rewrite slice_all.
Qed.
Lemma read_optional_quiet name maximum w bytes :
  quiet (w_disk w) → dr_now (w_dir w) !! name = Some (settled bytes) → 0 < len bytes ≤ maximum →
  read_optional_bounded name maximum w = (Ok (Some bytes), w).
Proof. intros Hq Hn Hl. unfold read_optional_bounded. by rewrite (read_required_quiet _ _ _ bytes). Qed.
Lemma read_absent_quiet name maximum w :
  quiet (w_disk w) → dr_now (w_dir w) !! name = None → read_optional_bounded name maximum w = (Ok None, w).
Proof.
  intros Hq Hn. unfold read_optional_bounded, read_required_bounded.
  assert (mio MioRead (dir_open name) w =
    (Err (classify_manifest_io MioRead (mkIoError NotFound None) : ManifestStoreError), w)) as E.
  { unfold mio, map_err_m, dir_open, dir_op, io_op. unfold quiet in Hq. rewrite Hq, Hn. by destruct w. }
  by rewrite (run_bind_Err _ _ _ _ _ E).
Qed.

(** ** Crashes *)

(** The process died, or the power failed as well. *)
Definition crashed (d d' : dir) : Prop := dr_now d' = dr_now d ∨ dir_survives d d'.
Lemma shows_crashed d d' name P : crashed d d' → stable P → shows d name P → P (dr_now d' !! name).
Proof.
  intros [E|Hs] Hst H; [rewrite E; by apply shows_now|]. by apply (shows_survives d d').
Qed.

Definition exactly (bytes : list byte) : option sfile → Prop := λ o, o = Some (settled bytes).
Lemma exactly_stable bytes : stable (exactly bytes).
Proof. by intros f [= ->]. Qed.

(** ** Artifacts *)

Section committed.
Context (store : StoreId) (options : RetryPersistenceOptions).

Definition registry_file (m : ManifestRecord) : list byte := nth (Z.to_nat (rg_slot (mf_registry m))) REGISTRY_SLOT_NAMES [].
Definition retry_file (m : ManifestRecord) : list byte := nth (Z.to_nat (rs_slot (ra_public (mf_retry m)))) RETRY_SLOT_NAMES [].
Definition catalog_file (c : GenerationCatalogReference) : list byte := nth (Z.to_nat (cat_slot c)) CATALOG_SLOT_NAMES [].

(** The three artifacts of a manifest, as bytes of their files. *)
Record holds_registry (m : ManifestRecord) (registry : SeriesRegistry) (bytes : list byte) : Prop := {
  hg_length : len bytes = rg_length (mf_registry m);
  hg_checksum : crc32c bytes = rg_checksum (mf_registry m);
  hg_decodes : decode_registry_snapshot_at_slot bytes (rg_slot (mf_registry m)) = Ok (mkDecodedRegistry (mf_registry m) registry);
  hg_store : reg_store_id registry = store }.
Record holds_retry (m : ManifestRecord) (retry : RetryStateSnapshot) (catalog : GenerationCatalogSnapshot) (bytes : list byte)
  : Prop := {
  ht_length : len bytes = ra_length (mf_retry m);
  ht_checksum : crc32c bytes = ra_checksum (mf_retry m);
  ht_decodes : decode_retry_state_at_slot bytes (rs_slot (ra_public (mf_retry m))) store options = Ok (mf_retry m, retry);
  ht_root : validates_root_with_catalog retry (manifest_commit m) catalog = true }.
Record holds_catalog (c : GenerationCatalogReference) (catalog : GenerationCatalogSnapshot) (bytes : list byte) : Prop := {
  hc_length : len bytes = cat_length c;
  hc_checksum : crc32c bytes = cat_checksum c;
  hc_decodes : decode_catalog bytes (cat_slot c) store = Ok catalog;
  hc_reference : cs_reference catalog = Some c }.
(** The sealed journals of a catalog, by what an open reads of them. *)
Definition sealed_file (e : SealedGeneration) : option sfile → Prop := λ o,
  ∃ bytes, o = Some (settled bytes) ∧ len bytes = sg_artifact_length e ∧ len bytes = sg_end_offset e ∧
    JOURNAL_V1_HEADER_LEN ≤ len bytes ∧ header_decode (slice 0 JOURNAL_V1_HEADER_LEN bytes) = Ok (mkHeader store).

Record roots (d : dir) (m : ManifestRecord) (registry : SeriesRegistry) (retry : RetryStateSnapshot)
    (catalog : GenerationCatalogSnapshot) : Prop := {
  rt_registry : ∃ bytes, shows d (registry_file m) (exactly bytes) ∧ holds_registry m registry bytes;
  rt_retry : ∃ bytes, shows d (retry_file m) (exactly bytes) ∧ holds_retry m retry catalog bytes;
  rt_catalog : match mf_catalog m with
               | None => catalog = catalog_empty store
               | Some c => ∃ bytes, shows d (catalog_file c) (exactly bytes) ∧ holds_catalog c catalog bytes
               end;
  rt_catalog_store : cs_store_id catalog = store;
  rt_sealed : ∀ e, e ∈ cs_entries catalog → shows d (sealed_journal_file_name (sg_journal_generation e)) (sealed_file e) }.

(** The names those are read from. *)
Inductive root_name (m : ManifestRecord) : list byte → Prop :=
| root_registry : root_name m (registry_file m)
| root_retry : root_name m (retry_file m)
| root_catalog c : mf_catalog m = Some c → root_name m (catalog_file c)
| root_sealed g : root_name m (sealed_journal_file_name g).
Lemma roots_kept d d' m registry retry catalog :
  roots d m registry retry catalog →
  (∀ name P, root_name m name → shows d name P → shows d' name P) → roots d' m registry retry catalog.
Proof using Type.
  intros [(b & Hb & Hg) (b' & Hb' & Ht) Hc Hs He] Hk. split.
  - exists b. split; [|done]. apply Hk; [constructor|done].
  - exists b'. split; [|done]. apply Hk; [constructor|done].
  - destruct (mf_catalog m) as [c|] eqn:E; [|done]. destruct Hc as (b2 & Hb2 & Hc). exists b2. split; [|done].
    apply Hk; [by constructor|done].
  - done.
  - intros e Hin. apply Hk; [constructor|by apply He].
Qed.

(** *** Reading a manifest's artifacts *)

(** What an open reads of a root when nothing fails. *)
Record reads_root (now : entries) (m : ManifestRecord) (registry : SeriesRegistry) (retry : RetryStateSnapshot)
    (catalog : GenerationCatalogSnapshot) : Prop := {
  rd_manifest : ∀ w, quiet (w_disk w) → dr_now (w_dir w) = now →
    ∃ slots k, read_manifest_slots store w = (Ok slots, w) ∧ select_current_manifest slots = Ok (Some (k, m));
  rd_registry : ∀ w, quiet (w_disk w) → dr_now (w_dir w) = now →
    read_referenced_registry (mf_registry m) store w = (Ok registry, w);
  rd_catalog : ∀ w, quiet (w_disk w) → dr_now (w_dir w) = now →
    read_catalog_or_empty (mf_catalog m) store w = (Ok catalog, w);
  rd_retry : ∀ w, quiet (w_disk w) → dr_now (w_dir w) = now →
    read_referenced_retry m store options catalog w = (Ok retry, w) }.

Lemma registry_decoded_len bytes slot d :
  decode_registry_snapshot_at_slot bytes slot = Ok d → slot < 3 ∧ 0 < len bytes ≤ MAX_REGISTRY_SNAPSHOT_BYTES.
Proof using Type.
  unfold decode_registry_snapshot_at_slot. rewrite guard_Ok. intros [Hs H].
  destruct (decode_registry_snapshot bytes) as [d'|] eqn:E; [|done]. unfold decode_registry_snapshot in E. rewrite guard_Ok in E.
  destruct E as [Hc _]. unfold REGISTRY_HEADER_LEN, REGISTRY_CRC_LEN in *. lia.
Qed.
Lemma retry_decoded_len bytes slot x :
  decode_retry_state_at_slot bytes slot store options = Ok x → slot < 3 ∧ 0 < len bytes ≤ MAX_RETRY_STATE_BYTES.
Proof using Type.
  unfold decode_retry_state_at_slot. rewrite guard_Ok. intros [Hc _]. unfold RETRY_HEADER_LEN, RETRY_CRC_LEN in *. lia.
Qed.
Lemma catalog_decoded_len bytes slot c :
  decode_catalog bytes slot store = Ok c → slot < 3 ∧ 0 < len bytes ≤ MAX_GENERATION_CATALOG_BYTES.
Proof using Type.
  unfold decode_catalog. rewrite guard_Ok. intros [Hc _]. unfold CATALOG_HEADER_LEN, CATALOG_ENTRY_LEN in *. lia.
Qed.
Lemma slot_name_Ok names slot error : (Z.to_nat slot < length names)%nat → slot_name names slot error = Ok (nth (Z.to_nat slot) names []).
Proof using Type.
  intros Hk. unfold slot_name. destruct (nth_lookup_or_length names (Z.to_nat slot) []) as [->|]; [done|lia].
Qed.

Lemma lift_Ok {S A} (r : result ManifestStoreError A) a (s : S) : r = Ok a → lift r s = (Ok a, s).
Proof using Type. by intros ->. Qed.

Lemma read_registry_quiet m registry bytes w :
  quiet (w_disk w) → dr_now (w_dir w) !! registry_file m = Some (settled bytes) → holds_registry m registry bytes →
  read_referenced_registry (mf_registry m) store w = (Ok registry, w).
Proof using Type.
  intros Hq Hn [Hl Hc Hd Hs]. destruct (registry_decoded_len _ _ _ Hd) as [Hs3 Hb]. unfold read_referenced_registry.
  rewrite (run_bind_Ok _ _ _ (registry_file m) w) by (apply lift_Ok, slot_name_Ok; cbn; lia).
  rewrite (run_bind_Ok _ _ _ bytes w) by by apply read_required_quiet.
  rewrite (run_bind_Ok _ _ _ () w) by (apply refuse_false; tauto).
  rewrite (run_bind_Ok _ _ _ _ w (lift_Ok _ _ _ Hd)). cbn [dr_registry dr_reference].
  by do 2 rewrite (run_bind_Ok _ _ _ () w) by (apply refuse_false; naive_solver).
Qed.
Lemma read_retry_quiet m retry catalog bytes w :
  quiet (w_disk w) → dr_now (w_dir w) !! retry_file m = Some (settled bytes) → holds_retry m retry catalog bytes →
  read_referenced_retry m store options catalog w = (Ok retry, w).
Proof using Type.
  intros Hq Hn [Hl Hc Hd Hs]. destruct (retry_decoded_len _ _ _ Hd) as [Hs3 Hb]. unfold read_referenced_retry.
  rewrite (run_bind_Ok _ _ _ (retry_file m) w) by (apply lift_Ok, slot_name_Ok; cbn; lia).
  rewrite (run_bind_Ok _ _ _ bytes w) by by apply read_required_quiet.
  rewrite (run_bind_Ok _ _ _ () w) by (apply refuse_false; tauto). rewrite Hd. cbn [map_err].
  rewrite (run_bind_Ok _ _ _ (mf_retry m, retry) w) by done. cbn [fst snd].
  by rewrite (run_bind_Ok _ _ _ () w) by (apply refuse_false; rewrite Hs; naive_solver).
Qed.

Lemma sealed_metadata_quiet e w :
  quiet (w_disk w) → sealed_file e (dr_now (w_dir w) !! sealed_journal_file_name (sg_journal_generation e)) →
  validate_sealed_metadata store e w = (Ok tt, w).
Proof using Type.
  intros Hq (bytes & Hn & Ha & He & Hl & Hd). unfold validate_sealed_metadata, mio, dir_open, dir_len, dir_read.
  assert (dir_data (w_dir w) (sealed_journal_file_name (sg_journal_generation e)) = bytes) as Ed by (unfold dir_data; by rewrite Hn).
  rewrite (run_bind_Ok _ _ _ () w) by (apply dir_look_quiet; [done|by rewrite Hn]).
  rewrite (run_bind_Ok _ _ _ (len bytes) w) by (apply dir_look_quiet; [done|by rewrite Ed]).
  rewrite (run_bind_Ok _ _ _ () w) by (apply refuse_false; tauto).
  rewrite (run_bind_Ok _ _ _ (slice 0 JOURNAL_V1_HEADER_LEN bytes) w)
    by (apply dir_look_quiet; [done|by rewrite Ed, decide_True by lia]).
  rewrite Hd. cbn [map_err]. rewrite (run_bind_Ok _ _ _ (mkHeader store) w) by done. apply refuse_false. naive_solver.
Qed.
Lemma each_quiet {A} (body : A → StoreOp ()) l w :
  (∀ a, a ∈ l → body a w = (Ok tt, w)) → each body l w = (Ok tt, w).
Proof using Type.
  induction l as [|a l IH]; [done|]. intros H. cbn [each]. rewrite (run_bind_Ok _ _ _ () w) by (apply H; left).
  apply IH. intros b Hb. apply H. by right.
Qed.
Lemma read_catalog_quiet c catalog bytes w :
  quiet (w_disk w) → dr_now (w_dir w) !! catalog_file c = Some (settled bytes) → holds_catalog c catalog bytes →
  cs_store_id catalog = store →
  (∀ e, e ∈ cs_entries catalog → sealed_file e (dr_now (w_dir w) !! sealed_journal_file_name (sg_journal_generation e))) →
  read_referenced_catalog c store w = (Ok catalog, w).
Proof using Type.
  intros Hq Hn [Hl Hc Hd Hr] Hs He. destruct (catalog_decoded_len _ _ _ Hd) as [Hs3 Hb]. unfold read_referenced_catalog.
  rewrite (run_bind_Ok _ _ _ (catalog_file c) w) by (apply lift_Ok, slot_name_Ok; cbn; lia).
  rewrite (run_bind_Ok _ _ _ bytes w) by by apply read_required_quiet.
  rewrite (run_bind_Ok _ _ _ () w) by (apply refuse_false; tauto). rewrite Hd. cbn [map_err].
  rewrite (run_bind_Ok _ _ _ catalog w) by done.
  rewrite (run_bind_Ok _ _ _ () w) by (apply refuse_false; tauto).
  rewrite (run_bind_Ok _ _ _ () w); [done|]. unfold validate_sealed_inventory_metadata. rewrite Hs.
  apply each_quiet. intros e Hin. apply sealed_metadata_quiet; [done|by apply He].
Qed.

(** *** The manifest slots *)

Definition manifest_file (k : nat) : list byte := nth k MANIFEST_SLOT_NAMES [].
Definition slot_file (o : option ManifestRecord) : option sfile := settled ∘ encode_manifest <$> o.
Definition readable (o : option ManifestRecord) : Prop := ∀ m, o = Some m → decode_manifest (encode_manifest m) store = Ok m.
Lemma read_slot_quiet name o w :
  quiet (w_disk w) → dr_now (w_dir w) !! name = slot_file o → readable o → read_manifest_slot name store w = (Ok o, w).
Proof using Type.
  intros Hq Hn Hr. unfold read_manifest_slot. destruct o as [m|]; cbn [slot_file fmap option_fmap option_map compose] in Hn.
  - specialize (Hr m eq_refl). assert (0 < len (encode_manifest m) ≤ MANIFEST_LEN) as Hl.
    { unfold decode_manifest in Hr. rewrite guard_Ok in Hr. destruct Hr as [Hc _]. unfold MANIFEST_LEN in *. lia. }
    rewrite (run_bind_Ok _ _ _ (Some (encode_manifest m)) w) by by apply read_optional_quiet. rewrite Hr. done.
  - by rewrite (run_bind_Ok _ _ _ None w) by by apply read_absent_quiet.
Qed.
Lemma read_slots_quiet slots w :
  quiet (w_disk w) → dr_now (w_dir w) !! manifest_file 0 = slot_file slots.1 →
  dr_now (w_dir w) !! manifest_file 1 = slot_file slots.2 → readable slots.1 → readable slots.2 →
  read_manifest_slots store w = (Ok slots, w).
Proof using Type.
  intros Hq H1 H2 R1 R2. unfold read_manifest_slots.
  rewrite (run_bind_Ok _ _ _ slots.1 w) by by apply read_slot_quiet.
  rewrite (run_bind_Ok _ _ _ slots.2 w) by by apply read_slot_quiet. by destruct slots.
Qed.

(** What survives of a committed directory reads back as its root. *)
Lemma roots_read d now m registry retry catalog :
  roots d m registry retry catalog →
  (∀ name P, stable P → root_name m name → shows d name P → P (now !! name)) →
  (∀ w, quiet (w_disk w) → dr_now (w_dir w) = now →
    ∃ slots k, read_manifest_slots store w = (Ok slots, w) ∧ select_current_manifest slots = Ok (Some (k, m))) →
  reads_root now m registry retry catalog.
Proof using Type.
  intros [(b & Hb & Hg) (b' & Hb' & Ht) Hc Hs He] Hnow Hm.
  apply (Hnow _ _ (exactly_stable _)) in Hb; [|constructor]. apply (Hnow _ _ (exactly_stable _)) in Hb'; [|constructor].
  split; [done|..]; intros w Hq Hw; subst now.
  - by apply (read_registry_quiet m registry b).
  - destruct (mf_catalog m) as [c|] eqn:E; cbn [read_catalog_or_empty]; [|by subst catalog]. destruct Hc as (b2 & Hb2 & Hc).
    apply (Hnow _ _ (exactly_stable _)) in Hb2; [|by constructor]. apply (read_catalog_quiet c catalog b2); try done.
    intros e Hin. apply (Hnow _ (sealed_file e)); [|constructor|by apply He].
    intros f (bytes & [= ->] & _). done.
  - by apply (read_retry_quiet m retry catalog b').
Qed.
End committed.
