(* ===== verification/Custody.v ===== *)
(** * Custody of the committed root

    What the operations of an open manifest store do to the directory's committed
    root: every publication either has not happened, or has happened for good, or
    leaves a stopped handle and a directory from which any crash recovers the root
    as it was or as it was going to be. *)

From S2P Require Import Prelude Bytes Identity Series Registry Wire Layout Crc Commit Journal Generation Retry RetryCodec Recovery.
From S2P Require Import Active Scan Effects Disk Segment Manifest RegistryReplay RegistryCodec Directory Publish Roots Store Committed.

(** ** Names that an operation leaves alone *)

Definition keeps (safe : list byte → Prop) (d d' : dir) : Prop :=
  ∀ name P, safe name → shows d name P → shows d' name P.
Lemma keeps_trans safe d1 d2 d3 : keeps safe d1 d2 → keeps safe d2 d3 → keeps safe d1 d3.
Proof. intros H1 H2 name P Hs H. by apply H2, H1. Qed.
Lemma keeps_weaken (safe safe' : list byte → Prop) d d' : keeps safe d d' → (∀ n, safe' n → safe n) → keeps safe' d d'.
Proof. intros H Hs name P Hn. apply H. by apply Hs. Qed.

Lemma published_keeps staging target bytes w w' :
  published staging target bytes w w' →
  keeps (λ n, n ≠ staging ∧ n ≠ target) (w_dir w) (w_dir w') ∧ shows (w_dir w') target (exactly bytes).
Proof.
  intros [En Ep _]. split.
  - intros name P [Hs Ht] H m Hm. rewrite En, Ep in Hm. apply list_elem_of_singleton in Hm as ->.
    rewrite lookup_insert_ne, lookup_delete_ne by done. by apply shows_now.
  - intros m Hm. rewrite En, Ep in Hm. apply list_elem_of_singleton in Hm as ->. by rewrite lookup_insert_eq.
Qed.
Lemma disturbed_keeps staging target bytes good w w' :
  disturbed staging target bytes good w w' → keeps (λ n, n ≠ staging ∧ n ≠ target) (w_dir w) (w_dir w').
Proof. intros [Hd _] name P [Hs Ht] H. by apply Hd. Qed.
Lemma pruned_keeps gone w w' : pruned gone w w' → keeps (λ n, ¬ gone n) (w_dir w) (w_dir w').
Proof. intros [Hp _ _] name P Hn H. by apply Hp. Qed.

Lemma not_unused names used name (j : nat) :
  NoDup names → names !! j = Some name → used (Z.of_nat j) = true → ¬ unused names 0 used name.
Proof.
  intros Hn Hj Hu (k & Hk & Hf). rewrite (NoDup_lookup _ _ _ _ Hn Hk Hj), Z.add_0_l in Hf. by rewrite Hu in Hf.
Qed.
Lemma absent_unused names used name : name ∉ names → ¬ unused names 0 used name.
Proof. intros Hn (k & Hk & _). apply Hn. by eapply list_elem_of_lookup_2. Qed.

(** ** The names of a root *)

Section custody.
Context (store : StoreId) (options : RetryPersistenceOptions).

Definition slot_names : list (list byte) :=
  MANIFEST_SLOT_NAMES ++ REGISTRY_SLOT_NAMES ++ RETRY_SLOT_NAMES ++ CATALOG_SLOT_NAMES ++ RECOVERY_SLOT_NAMES ++
  [MANIFEST_STAGING_FILE_NAME; REGISTRY_STAGING_FILE_NAME; RETRY_STAGING_FILE_NAME].
Lemma slot_names_distinct : NoDup slot_names.
Proof using Type. apply (bool_decide_unpack _). by vm_compute. Qed.
Lemma sealed_not_slot g : sealed_journal_file_name g ∉ slot_names.
Proof using Type. intros H. eapply (sealed_ne slot_names); [by vm_compute|exact H|done]. Qed.

(** The number of a name among the slots. *)
Lemma registry_file_at m : rg_slot (mf_registry m) < 3 → slot_names !! (2 + Z.to_nat (rg_slot (mf_registry m)))%nat = Some (registry_file m).
Proof using Type.
  intros Hs. unfold registry_file. assert (Z.to_nat (rg_slot (mf_registry m)) < 3)%nat as Hk by lia. revert Hk.
  generalize (Z.to_nat (rg_slot (mf_registry m))). by intros [|[|[|k]]] Hk; [..|lia].
Qed.
Lemma retry_file_at m : rs_slot (ra_public (mf_retry m)) < 3 →
  slot_names !! (5 + Z.to_nat (rs_slot (ra_public (mf_retry m))))%nat = Some (retry_file m).
Proof using Type.
  intros Hs. unfold retry_file. assert (Z.to_nat (rs_slot (ra_public (mf_retry m))) < 3)%nat as Hk by lia. revert Hk.
  generalize (Z.to_nat (rs_slot (ra_public (mf_retry m)))). by intros [|[|[|k]]] Hk; [..|lia].
Qed.
Lemma catalog_file_at c : cat_slot c < 3 → slot_names !! (8 + Z.to_nat (cat_slot c))%nat = Some (catalog_file c).
Proof using Type.
  intros Hs. unfold catalog_file. assert (Z.to_nat (cat_slot c) < 3)%nat as Hk by lia. revert Hk.
  generalize (Z.to_nat (cat_slot c)). by intros [|[|[|k]]] Hk; [..|lia].
Qed.
Lemma manifest_file_at k : (k < 2)%nat → slot_names !! k = Some (manifest_file k).
Proof using Type. unfold manifest_file. by intros Hk; destruct k as [|[|k]]; [..|lia]. Qed.

(** Where a name stands among the fixed names; sealed journals stand nowhere. *)
Definition stands_at (name : list byte) (i : option nat) : Prop :=
  match i with Some i => slot_names !! i = Some name | None => name ∉ slot_names end.
Lemma stands_apart a b i j : stands_at a i → slot_names !! j = Some b → i ≠ Some j → a ≠ b.
Proof using Type.
  intros Ha Hb Hij ->. destruct i as [i|]; cbn in Ha.
  - pose proof (NoDup_lookup _ _ _ _ slot_names_distinct Ha Hb). congruence.
  - apply Ha. by eapply list_elem_of_lookup_2.
Qed.

(** What is known of a retained manifest. *)
Record retained (m : ManifestRecord) : Prop := {
  re_decodes : decode_manifest (encode_manifest m) store = Ok m;
  re_registry : 0 ≤ rg_slot (mf_registry m) < 3;
  re_retry : 0 ≤ rs_slot (ra_public (mf_retry m)) < 3;
  re_catalog : ∀ c, mf_catalog m = Some c → 0 ≤ cat_slot c < 3;
  re_generation : 0 < mf_generation m ≤ u64_max;
  re_store : mf_store_id m = store }.
Lemma retained_decoded m bytes : decode_manifest bytes store = Ok m → retained m ∧ bytes = encode_manifest m.
Proof using Type.
  intros H. destruct (decode_manifest_sound _ _ _ H) as (Hw & Hk & Hs & Hb).
  destruct (manifest_leaves m Hw) as ((Hsi & _ & Hwc) & (Hg & _) & (Hr & _) & Ht & _).
  rewrite <-encode_manifest_layout in Hb by done. subst bytes. split; [|done].
  rewrite in_range_spec in *. destruct Hk. split; try done; try lia.
  intros c Hc. rewrite Hc in Hwc. change (Is_true (wf c)) in Hwc. wf_split Hwc. rewrite in_range_spec in *.
  destruct (mk_catalog c Hc) as [? _]. lia.
Qed.

(** Where the names of its root stand. *)
Definition root_index (m : ManifestRecord) (i : option nat) : Prop :=
  i = Some (2 + Z.to_nat (rg_slot (mf_registry m)))%nat ∨ i = Some (5 + Z.to_nat (rs_slot (ra_public (mf_retry m))))%nat ∨
  (∃ c, mf_catalog m = Some c ∧ i = Some (8 + Z.to_nat (cat_slot c))%nat) ∨ i = None.
Lemma root_name_index m name : retained m → root_name m name → ∃ i, stands_at name i ∧ root_index m i.
Proof using Type.
  intros [_ Hr Ht Hc _ _] [| |c E|g].
  - eexists (Some _). split; [apply registry_file_at; lia|by left].
  - eexists (Some _). split; [apply retry_file_at; lia|right; by left].
  - specialize (Hc c E). eexists (Some _). split; [apply catalog_file_at; lia|right; right; left; by exists c].
  - exists None. split; [apply sealed_not_slot|unfold root_index; tauto].
Qed.
(** A root's names, and those of the manifests, are apart from every other. *)
Lemma root_name_apart m name j other :
  retained m → root_name m name → slot_names !! j = Some other → (∀ i, root_index m i → i ≠ Some j) → name ≠ other.
Proof using Type. intros Hm Hn Ho Hj. destruct (root_name_index m name Hm Hn) as (i & Hi & Hx). eapply stands_apart; [done..|auto]. Qed.

(** The removals spare what a retained manifest names. *)
Lemma unused_stands names (off : nat) used name i :
  (∀ k n, names !! k = Some n → slot_names !! (off + k)%nat = Some n) → stands_at name i → unused names 0 used name →
  ∃ k, i = Some (off + k)%nat ∧ (k < length names)%nat ∧ used (Z.of_nat k) = false.
Proof using Type.
  intros Hoff Hi (k & Hk & Hu). exists k. split_and!; [|by eapply lookup_lt_Some|done].
  destruct (decide (i = Some (off + k)%nat)) as [|Hne]; [done|]. destruct (stands_apart name name i (off + k)); auto.
Qed.
Lemma retained_spared slots m name :
  retained m → m ∈ slot_list slots → root_name m name →
  ¬ unused CATALOG_SLOT_NAMES 0 (names_catalog_slot slots) name ∧ ¬ unused RETRY_SLOT_NAMES 0 (names_retry_slot slots) name ∧
  (∀ used, ¬ unused RECOVERY_SLOT_NAMES 0 used name).
Proof using Type.
  intros Hm Hin Hn. destruct (root_name_index m name Hm Hn) as (i & Hi & Hx). destruct Hm as [_ Hr Ht Hc _ _].
  assert (∀ k n, CATALOG_SLOT_NAMES !! k = Some n → slot_names !! (8 + k)%nat = Some n) as Oc by (by intros [|[|[|k]]] n).
  assert (∀ k n, RETRY_SLOT_NAMES !! k = Some n → slot_names !! (5 + k)%nat = Some n) as Ot by (by intros [|[|[|k]]] n).
  assert (∀ k n, RECOVERY_SLOT_NAMES !! k = Some n → slot_names !! (11 + k)%nat = Some n) as Or by (by intros [|[|[|k]]] n).
  assert (∀ c, mf_catalog m = Some c → 0 ≤ cat_slot c < 3) as Hc' by done.
  split_and!; [| |intros used]; intros Hu.
  - destruct (unused_stands _ 8 _ name i Oc Hi Hu) as (k & -> & Hk & Hf). cbn in Hk. revert Hf.
    destruct Hx as [[= E]|[[= E]|[(c & E' & [= E])|[=]]]]; try lia. specialize (Hc' _ E'). unfold names_catalog_slot.
    apply not_false_iff_true, existsb_exists. exists m. split; [by apply list_elem_of_In|]. rewrite E'. cbn. apply bool_decide_eq_true. lia.
  - destruct (unused_stands _ 5 _ name i Ot Hi Hu) as (k & -> & Hk & Hf). cbn in Hk. revert Hf.
    destruct Hx as [[= E]|[[= E]|[(c & E' & [= E])|[=]]]]; try lia. unfold names_retry_slot.
    apply not_false_iff_true, existsb_exists. exists m. split; [by apply list_elem_of_In|]. apply bool_decide_eq_true. lia.
  - destruct (unused_stands _ 11 _ name i Or Hi Hu) as (k & -> & Hk & Hf). cbn in Hk.
    destruct Hx as [[= E]|[[= E]|[(c & E' & [= E])|[=]]]]; try lia. specialize (Hc' _ E'). lia.
Qed.
Lemma manifest_spared k names used : (k < 2)%nat → apart MANIFEST_SLOT_NAMES names = true → ¬ unused names 0 used (manifest_file k).
Proof using Type.
  intros Hk Ha. apply absent_unused. intros Hin. eapply (apart_ne _ _ (manifest_file k)); [exact Ha| |exact Hin|done].
  by apply nth_slot.
Qed.

(** ** The manifest slots *)

Definition slot_at (k : nat) (slots : manifest_slots) : option ManifestRecord :=
  match k with O => slots.1 | S _ => slots.2 end.
Lemma slot_at_list k slots m : slot_at k slots = Some m → m ∈ slot_list slots.
Proof using Type. destruct k, slots as [[a|] [b|]]; cbn; intros [= ->]; rewrite ?elem_of_cons; auto. Qed.
Lemma slot_list_at slots m : m ∈ slot_list slots → ∃ k, (k < 2)%nat ∧ slot_at k slots = Some m.
Proof using Type.
  destruct slots as [[a|] [b|]]; cbn; rewrite ?elem_of_cons, ?elem_of_nil; intros H; destruct_or?; subst; try done;
    first [by exists 0%nat; split; [lia|] | by exists 1%nat; split; [lia|]].
Qed.
Lemma set_slot_at j k m slots : (j < 2)%nat → (k < 2)%nat →
  slot_at j (set_slot k m slots) = if decide (j = k) then Some m else slot_at j slots.
Proof using Type. intros Hj Hk. destruct j as [|[|]], k as [|[|]], slots; (lia || done). Qed.

(** A manifest that may follow another. *)
Definition succeeds (m next : ManifestRecord) : Prop :=
  mf_generation next = mf_generation m + 1 ∧ retry_reference_progresses (mf_retry m) (mf_retry next) = true ∧
  catalog_reference_progresses (mf_catalog m) (mf_catalog next) = true ∧
  recovery_reference_progresses (mf_recovery m) (mf_recovery next) = true.
Lemma select_current_slot slots k m : select_current_manifest slots = Ok (Some (k, m)) → (k < 2)%nat ∧ slot_at k slots = Some m.
Proof using Type.
  unfold select_current_manifest. destruct slots as [[a|] [b|]]; try (case_decide; [done|]; intros [= <- <-]; split; [lia|done]); [|done].
  case_decide; (case_decide; [done|]); intros [= <- <-]; split; (lia || done).
Qed.
Lemma select_next slots k m next :
  select_current_manifest slots = Ok (Some (k, m)) → succeeds m next → mf_generation next ≤ u64_max →
  select_current_manifest (set_slot (1 - k) next slots) = Ok (Some ((1 - k)%nat, next)).
Proof using Type.
  intros Hs (Hg & Ht & Hc & Hr) Hu. destruct (select_current_slot _ _ _ Hs) as [Hk Hm].
  assert (checked_add u64_max (mf_generation m) 1 = Some (mf_generation next)) as Hn
    by (unfold checked_add; rewrite decide_True by lia; by rewrite Hg).
  unfold select_current_manifest. destruct k as [|[|]], slots as [a b]; [| |lia]; cbn in Hm; subst; cbn [set_slot Nat.sub fst snd].
  - rewrite decide_True by lia. rewrite decide_False; [done|]. rewrite Hn, Ht, Hc, Hr. cbn. tauto.
  - rewrite decide_False by lia. rewrite decide_False; [done|]. rewrite Hn, Ht, Hc, Hr. cbn. tauto.
Qed.

Definition now_stands (now : entries) (slots : manifest_slots) : Prop :=
  ∀ j, (j < 2)%nat → now !! manifest_file j = slot_file (slot_at j slots).
Record standing (slots : manifest_slots) (k : nat) (m : ManifestRecord) (d : dir) : Prop := {
  sd_slots : ∀ j, (j < 2)%nat → shows d (manifest_file j) (λ o, o = slot_file (slot_at j slots));
  sd_select : select_current_manifest slots = Ok (Some (k, m));
  sd_retained : ∀ x, x ∈ slot_list slots → retained x }.

Lemma slot_file_stable o : stable (λ f, f = slot_file o).
Proof using Type. intros f. destruct o as [m|]; [|done]. by intros [= ->]. Qed.
Lemma standing_current slots k m d : standing slots k m d → (k < 2)%nat ∧ slot_at k slots = Some m ∧ m ∈ slot_list slots ∧ retained m.
Proof using Type.
  intros [_ Hs Hr]. destruct (select_current_slot _ _ _ Hs) as [Hk Hm]. pose proof (slot_at_list _ _ _ Hm). auto.
Qed.
Lemma standing_kept slots k m d d' safe :
  standing slots k m d → keeps safe d d' → (∀ j, (j < 2)%nat → safe (manifest_file j)) → standing slots k m d'.
Proof using Type. intros [Hs ? ?] Hk Hsafe. split; [|done..]. intros j Hj. by apply Hk; auto. Qed.
Lemma standing_crashed slots k m d d' : standing slots k m d → crashed d d' → now_stands (dr_now d') slots.
Proof using Type. intros [Hs _ _] Hc j Hj. apply (shows_crashed _ _ _ _ Hc (slot_file_stable _)). by apply Hs. Qed.
(** What stands is selected again. *)
Lemma standing_reads now slots k m w :
  now_stands now slots → select_current_manifest slots = Ok (Some (k, m)) → (∀ x, x ∈ slot_list slots → retained x) →
  quiet (w_disk w) → dr_now (w_dir w) = now →
  ∃ slots k, read_manifest_slots store w = (Ok slots, w) ∧ select_current_manifest slots = Ok (Some (k, m)).
Proof using Type.
  intros Hn Hs Hr Hq <-. exists slots, k. split; [|done].
  assert (∀ j, readable store (slot_at j slots)) as Hre by (intros j x Hx; eapply re_decodes, Hr, slot_at_list, Hx).
  apply read_slots_quiet; [done|apply (Hn 0%nat); lia|apply (Hn 1%nat); lia|apply (Hre 0%nat)|apply (Hre 1%nat)].
Qed.

(** Publishing a manifest into one slot beside the other: [t] is selected once the
    manifest verified. *)
Lemma publish_slot_outcome slots t next w :
  (t < 2)%nat → (∀ j, (j < 2)%nat → shows (w_dir w) (manifest_file j) (λ o, o = slot_file (slot_at j slots))) →
  (∀ x, x ∈ slot_list slots → retained x) →
  let slots' := set_slot t next slots in
  (retained next → select_current_manifest slots' = Ok (Some (t, next))) →
  let safe n := n ≠ MANIFEST_STAGING_FILE_NAME ∧ n ≠ manifest_file t in
  outcome (publish_prepared_manifest store (mkPreparedManifest next t (encode_manifest next))) w
    (λ slot w', slot = t ∧ keeps safe (w_dir w) (w_dir w') ∧ beside (w_disk w) (w_disk w') ∧ standing slots' t next (w_dir w'))
    (λ _ w', keeps safe (w_dir w) (w_dir w') ∧ beside (w_disk w) (w_disk w') ∧ ∀ d', crashed (w_dir w') d' →
       now_stands (dr_now d') slots ∨
       (now_stands (dr_now d') slots' ∧ select_current_manifest slots' = Ok (Some (t, next)) ∧
        (∀ x, x ∈ slot_list slots' → retained x))).
Proof using Type.
  intros Ht Hs Hr slots' Hsel safe.
  assert (∀ j, (j < 2)%nat → manifest_file j ≠ MANIFEST_STAGING_FILE_NAME) as Hms.
  { intros j Hj. eapply (apart_ne MANIFEST_SLOT_NAMES [MANIFEST_STAGING_FILE_NAME]); [by vm_compute|by apply nth_slot|by left]. }
  assert (∀ j, (j < 2)%nat → j ≠ t → safe (manifest_file j)) as Hsafe.
  { intros j Hj Hne. split; [auto|]. eapply (stands_apart _ _ (Some j) t); [apply manifest_file_at; lia..|congruence]. }
  set (verify := λ candidate, let! decoded := decode_manifest candidate store in
         if decide (decoded ≠ next) then Err MseInvalidManifest else Ok tt).
  assert (verify (encode_manifest next) = Ok tt → retained next ∧ select_current_manifest slots' = Ok (Some (t, next)) ∧
    ∀ x, x ∈ slot_list slots' → retained x) as Hgood.
  { unfold verify. destruct (decode_manifest _ _) as [r|] eqn:E; [|done]. case_decide; [done|]. intros _.
    subst r. apply retained_decoded in E as [Hre _]. split_and!; [done|by apply Hsel|].
    intros x (j & Hj & Hx)%slot_list_at. unfold slots' in Hx. rewrite set_slot_at in Hx by lia. case_decide; [by injection Hx as <-|].
    by eapply Hr, slot_at_list. }
  unfold publish_prepared_manifest. cbn [pm_target pm_bytes pm_record]. rewrite outcome_bind.
  eapply outcome_weaken; [apply publish_outcome; apply not_eq_sym, Hms; lia| |].
  - intros _ w' [Hp Hv]. destruct (Hgood Hv) as (_ & Hsel' & Hr'). apply outcome_ret. pose proof Hp as [_ _ Hb].
    destruct (published_keeps _ _ _ _ _ Hp) as [Hk1 Hsh]. split_and!; [done..|]. split; [|done..].
    intros j Hj. unfold slots'. rewrite set_slot_at by lia. case_decide as Hjk; [subst j; exact Hsh|]. apply Hk1; [|by apply Hs]. by apply Hsafe.
  - intros e w' Hd. pose proof (disturbed_keeps _ _ _ _ _ _ Hd) as Hk1. pose proof Hd as [Hd1 Hb]. split_and!; [done..|].
    intros d' Hc. set (P := λ f, f = slot_file (slot_at t slots) ∨ (verify (encode_manifest next) = Ok tt ∧ f = slot_file (Some next))).
    assert (P (dr_now d' !! manifest_file t)) as [Ho|[Hv Ho]].
    { apply (shows_crashed _ _ _ _ Hc).
      - intros f [E|[_ E]]; by apply slot_file_stable in E.
      - apply Hd1; [apply Hms; lia|by right|]. eapply shows_weaken; [apply Hs; lia|]. intros o ->. by left. }
    all: assert (∀ j, (j < 2)%nat → j ≠ t → dr_now d' !! manifest_file j = slot_file (slot_at j slots)) as Hother
      by (intros j Hj Hne; apply (shows_crashed _ _ _ _ Hc (slot_file_stable _)); apply Hk1; [by apply Hsafe|by apply Hs]).
    + left. intros j Hj. destruct (decide (j = t)) as [->|]; auto.
    + right. split; [|by apply Hgood]. intros j Hj. unfold slots'. rewrite set_slot_at by lia. case_decide; subst; auto.
Qed.

(** Publishing the next manifest over the other slot. *)
Lemma publish_manifest_outcome slots k m next w :
  standing slots k m (w_dir w) → succeeds m next →
  let safe n := n ≠ MANIFEST_STAGING_FILE_NAME ∧ n ≠ manifest_file (1 - k) in
  let slots' := set_slot (1 - k) next slots in
  outcome (publish_prepared_manifest store (mkPreparedManifest next (1 - k) (encode_manifest next))) w
    (λ slot w', slot = (1 - k)%nat ∧ keeps safe (w_dir w) (w_dir w') ∧ beside (w_disk w) (w_disk w') ∧
       standing slots' (1 - k) next (w_dir w'))
    (λ _ w', keeps safe (w_dir w) (w_dir w') ∧ beside (w_disk w) (w_disk w') ∧ ∀ d', crashed (w_dir w') d' →
       now_stands (dr_now d') slots ∨
       (now_stands (dr_now d') slots' ∧ select_current_manifest slots' = Ok (Some ((1 - k)%nat, next)) ∧
        (∀ x, x ∈ slot_list slots' → retained x))).
Proof using Type.
  intros Hst Hn. destruct (standing_current _ _ _ _ Hst) as (Hk & Hm & _ & _). destruct Hst as [Hs Hsel Hr].
  apply publish_slot_outcome; [lia|done..|]. intros Hre. apply (select_next _ _ m); [done..|]. destruct Hre; lia.
Qed.

(** ** Publishing and adopting *)

Definition spared (slots : manifest_slots) (n : list byte) : Prop :=
  ¬ unused CATALOG_SLOT_NAMES 0 (names_catalog_slot slots) n ∧ ¬ unused RETRY_SLOT_NAMES 0 (names_retry_slot slots) n ∧
  ∀ used, ¬ unused RECOVERY_SLOT_NAMES 0 used n.
Definition safe (slots : manifest_slots) (n : list byte) : Prop :=
  (∀ j, (j < 2)%nat → n ≠ manifest_file j) ∧ n ≠ MANIFEST_STAGING_FILE_NAME ∧ spared slots n.
Lemma root_name_safe slots m n : retained m → m ∈ slot_list slots → root_name m n → safe slots n.
Proof using Type.
  intros Hm Hin Hn. split_and!.
  - intros j Hj. eapply root_name_apart; [done..|by apply manifest_file_at|]. destruct Hm. unfold root_index. naive_solver lia.
  - eapply (root_name_apart m n 14); [done..|]. destruct Hm as [_ ? ? Hc _ _].
    intros i [->|[->|[(c & E & ->)| ->]]] [= Ei]; try lia. specialize (Hc _ E). lia.
  - by apply (retained_spared slots m).
Qed.
Lemma manifest_file_spared slots j : (j < 2)%nat → spared slots (manifest_file j).
Proof using Type. intros Hj. split_and!; [..|intros used]; (apply manifest_spared; [done|by vm_compute]). Qed.

Lemma outcome_recorded {A} (m : StoreMethod A) st Q R :
  outcome m st Q (λ e st', R e (record_terminal_error e st'.1, st'.2)) → outcome (recorded m) st Q R.
Proof using Type. unfold outcome, recorded. by destruct (m st) as [[a|e] [s w]]. Qed.
Lemma outcome_world_effect {A} (m : StoreOp A) s w Q R :
  outcome m w (λ a w', Q a (s, w')) (λ e w', R e (s, w')) → outcome (world_effect m) (s, w) Q R.
Proof using Type. unfold outcome, world_effect. cbn [snd]. by destruct (m w) as [[a|e] w']. Qed.
Lemma terminal_stops e s : ms_write_state (record_terminal_error e s) ≠ Writable.
Proof using Type. unfold record_terminal_error. cbn. by repeat case_match. Qed.

(** A stopped handle, whose directory recovers one of the two roots. *)
Record halted (s : ManifestStore) (next : ManifestRecord) (w : world) (st : ManifestStore * world) : Prop := {
  ht_custody : ms_write_state st.1 ≠ Writable;
  ht_keeps : keeps (safe (set_slot (1 - ms_current_slot s) next (ms_slots s))) (w_dir w) (w_dir st.2);
  ht_beside : beside (w_disk w) (w_disk st.2);
  ht_slots : ∀ d', crashed (w_dir st.2) d' →
    now_stands (dr_now d') (ms_slots s) ∨
    (now_stands (dr_now d') (set_slot (1 - ms_current_slot s) next (ms_slots s)) ∧
     select_current_manifest (set_slot (1 - ms_current_slot s) next (ms_slots s)) = Ok (Some ((1 - ms_current_slot s)%nat, next)) ∧
     (∀ x, x ∈ slot_list (set_slot (1 - ms_current_slot s) next (ms_slots s)) → retained x)) }.

(** One removal after the publication. *)
Lemma cleanup_step {B} (m : StoreOp ()) gone s next w w1 (k : () → StoreMethod B) Q :
  let slots' := set_slot (1 - ms_current_slot s) next (ms_slots s) in
  outcome m w1 (λ _ w', pruned gone w1 w') (λ _ w', pruned gone w1 w') →
  (∀ n, spared slots' n → ¬ gone n) →
  standing slots' (1 - ms_current_slot s) next (w_dir w1) → keeps (safe slots') (w_dir w) (w_dir w1) →
  beside (w_disk w) (w_disk w1) →
  (∀ w', standing slots' (1 - ms_current_slot s) next (w_dir w') → keeps (safe slots') (w_dir w) (w_dir w') →
     beside (w_disk w) (w_disk w') → outcome (k tt) (s, w') Q (λ _, halted s next w)) →
  outcome (recorded (world_effect m) ≫= k) (s, w1) Q (λ _, halted s next w).
Proof using Type.
  intros slots' Hm Hgone Hst Hk Hb Hnext. apply outcome_bind, outcome_recorded, outcome_world_effect.
  assert (∀ w', pruned gone w1 w' → standing slots' (1 - ms_current_slot s) next (w_dir w') ∧
    keeps (safe slots') (w_dir w) (w_dir w') ∧ beside (w_disk w) (w_disk w')) as Hp.
  { intros w' Hpr. pose proof (pruned_keeps _ _ _ Hpr) as Hk'. split_and!.
    - eapply standing_kept; [exact Hst|exact Hk'|]. intros j Hj. by apply Hgone, manifest_file_spared.
    - eapply keeps_trans; [exact Hk|]. eapply keeps_weaken; [exact Hk'|]. intros n (_ & _ & Hs). by apply Hgone.
    - trans (w_disk w1); [done|]. by destruct Hpr. }
  eapply outcome_weaken; [exact Hm| |].
  - intros [] w' (H1 & H2 & H3)%Hp. by apply Hnext.
  - intros e w' (H1 & H2 & H3)%Hp. cbn [fst snd]. split; [apply terminal_stops|done..|].
    intros d' Hc. right. split; [by eapply standing_crashed|]. by destruct H1.
Qed.

Lemma adopt_outcome s w next :
  standing (ms_slots s) (ms_current_slot s) (ms_current s) (w_dir w) → succeeds (ms_current s) next →
  let k := (1 - ms_current_slot s)%nat in
  let slots' := set_slot k next (ms_slots s) in
  outcome (publish_and_adopt_prepared_manifest (mkPreparedManifest next k (encode_manifest next))) (s, w)
    (λ c st, c = manifest_commit next ∧ st.1 = adopt_published_manifest k next slots' s ∧
       standing slots' k next (w_dir st.2) ∧ keeps (safe slots') (w_dir w) (w_dir st.2) ∧ beside (w_disk w) (w_disk st.2))
    (λ _, halted s next w).
Proof using Type.
  intros Hst Hn k slots'. destruct (standing_current _ _ _ _ Hst) as (Hk & Hm & Hin & Hcur).
  assert (∀ n, safe slots' n → n ≠ MANIFEST_STAGING_FILE_NAME ∧ n ≠ manifest_file k) as Hsafe
    by (intros n (Hj & Hs & _); split; [done|apply Hj; lia]).
  unfold publish_and_adopt_prepared_manifest. rewrite outcome_bind. unfold outcome at 1, this. cbn [fst].
  unfold ms_store_id. rewrite (re_store _ Hcur). rewrite outcome_bind.
  apply outcome_recorded, outcome_world_effect.
  eapply outcome_weaken; [by apply (publish_manifest_outcome (ms_slots s) (ms_current_slot s) (ms_current s))| |].
  - intros slot w1 (-> & Hk1 & Hb1 & Hst1). cbn [pm_record]. fold k slots' in Hst1 |- *.
    assert (keeps (safe slots') (w_dir w) (w_dir w1)) as Hk1' by (eapply keeps_weaken; [exact Hk1|exact Hsafe]).
    eapply (cleanup_step _ _ s next w w1); [apply remove_unreferenced_outcome| |done..|]; [by intros n (? & _)|].
    intros w2 Hst2 Hk2 Hb2. eapply (cleanup_step _ _ s next w w2); [apply remove_unreferenced_outcome| |done..|]; [by intros n (_ & ? & _)|].
    intros w3 Hst3 Hk3 Hb3. eapply (cleanup_step _ _ s next w w3); [apply remove_recovery_outcome| |done..|]; [by intros n (_ & _ & ?)|].
    intros w4 Hst4 Hk4 Hb4. done.
  - intros e w1 (Hk1 & Hb1 & Hc). cbn [fst snd]. split; [apply terminal_stops| |done|exact Hc].
    eapply keeps_weaken; [exact Hk1|exact Hsafe].
Qed.
End custody.
