(* ===== verification/RetryRoot.v ===== *)
(** * The retry state under a new root

    A retry state that a root validates is still validated by the root that follows
    when only the registry changed, and the state that [advance] produces is
    validated, with the catalog, by the root it was produced for: what an open
    checks of the retry state of a committed root always holds. *)

From S2P Require Import Prelude Bytes Identity Commit Journal Generation Retry.

(** ** A root with newer generations *)

Section newer.
Context (root root' : ManifestCommit).
Context (Hcut : mc_durable_cutoff root' = mc_durable_cutoff root).
Context (Hretry : mc_retry_state root' = mc_retry_state root).
Context (Hfloor : mc_sequence_floor root' = mc_sequence_floor root).
Context (Hcat : mc_catalog root' = mc_catalog root).
Context (Hgen : mc_manifest_generation root < mc_manifest_generation root').
Context (Hreg : mc_registry_generation root < mc_registry_generation root' ∨
  (mc_registry_generation root' = mc_registry_generation root ∧ mc_registry_slot root' = mc_registry_slot root)).

Lemma check_commits_newer catalog prior l : check_commits root catalog prior l = Ok tt → check_commits root' catalog prior l = Ok tt.
Proof using All.
  revert prior. induction l as [|o l IH]; intros prior; [done|]. cbn [check_commits]. rewrite Hcut, Hretry, Hcat.
  rewrite !guard_Ok, !let_ok_iff, !guard_Ok. intros [Hn [Hp [Hg Hl]]]. split; [|by auto].
  intros Hbad. apply Hn. destruct Hreg as [Hlt|[Eg Es]]; [clear Hreg; naive_solver lia|]. rewrite Eg, Es in Hbad.
  destruct Hbad as [?|Hbad]; [left; lia|right]. repeat (destruct Hbad as [Hb|Hbad]; [by left|right]). exfalso. apply Hn. left. lia.
Qed.
Lemma validate_root_newer s catalog : validate_root s root catalog = Ok tt → validate_root s root' catalog = Ok tt.
Proof using All.
  unfold validate_root. rewrite !let_ok_iff. intros [Hv H]. split; [done|]. revert H. cbv zeta.
  rewrite Hcut, Hretry, Hfloor, Hcat. rewrite !guard_Ok. intros [H1 H]. split; [done|]. revert H. rewrite !guardb_Ok.
  intros [H2 H]. split; [done|]. revert H. destruct (last (st_replay s)) as [newest|]; [|done]. rewrite !guard_Ok.
  intros [H3 H]. split; [done|]. revert H. destruct (chronological s) as [|first l]; [done|]. rewrite !guard_Ok, !let_ok_iff.
  intros [H4 [H5 H6]]. split; [done|]. split; [done|]. by apply check_commits_newer.
Qed.
End newer.

(** ** The catalog *)

Definition covered (catalog : GenerationCatalogSnapshot) (root : ManifestCommit) (o : RetryReplayOutcome) : Prop :=
  commit_journal (ro_committed o) < commit_journal root →
  covers_commit catalog (commit_journal (ro_committed o)) (ro_append_sequence o) (ro_end_offset o) = true.

Lemma check_commits_covered root catalog prior l :
  check_commits root (Some catalog) prior l = Ok tt → ∀ o, o ∈ l → covered catalog root o.
Proof.
  revert prior. induction l as [|x l IH]; intros prior; [by intros _ o ?%elem_of_nil|]. cbn [check_commits].
  rewrite guard_Ok, let_ok_iff, guard_Ok. intros [Hn [_ [_ Hl]]] o [->|Ho]%elem_of_cons; [|by eapply IH].
  intros Hj. apply not_false_iff_true. intros Hc. apply Hn. unfold commit_journal in *. rewrite Hc. cbn. tauto.
Qed.
Lemma check_commits_catalog root catalog prior l :
  check_commits root None prior l = Ok tt → (∀ o, o ∈ l → covered catalog root o) →
  check_commits root (Some catalog) prior l = Ok tt.
Proof.
  revert prior. induction l as [|x l IH]; intros prior; [done|]. cbn [check_commits].
  rewrite !guard_Ok, !let_ok_iff, !guard_Ok. intros [Hn [Hp [Hg Hl]]] Hc. split; [|split; [done|split; [done|]]].
  - pose proof (Hc x ltac:(by left)) as Hx. unfold covered, commit_journal in Hx. intros Hbad. apply Hn.
    repeat (destruct Hbad as [Hbad|Hbad]; [tauto|]). destruct Hbad as [[Hj Hu]|Hbad]; [|tauto]. by rewrite Hx in Hu.
  - apply IH; [done|]. intros o Ho. apply Hc. by right.
Qed.

Lemma validate_root_covered s root catalog :
  validate_root s root (Some catalog) = Ok tt →
  cs_reference catalog = mc_catalog root ∧ ∀ o, o ∈ st_replay s → covered catalog root o.
Proof.
  unfold validate_root. rewrite let_ok_iff. intros [_ H]. revert H. cbv zeta. rewrite guard_Ok, guardb_Ok. intros (_ & Hr & H).
  split; [cbn in Hr; by apply bool_decide_eq_false, dec_stable in Hr|]. revert H.
  destruct (last (st_replay s)) as [newest|] eqn:El; [|apply last_None in El as ->; by intros _ o ?%elem_of_nil].
  rewrite guard_Ok. intros [_ H]. revert H. destruct (chronological s); [done|]. rewrite guard_Ok, let_ok_iff.
  intros (_ & _ & H). by eapply check_commits_covered.
Qed.
Lemma validate_root_catalog s root catalog :
  validate_root s root None = Ok tt → cs_reference catalog = mc_catalog root →
  (∀ o, o ∈ st_replay s → covered catalog root o) → validate_root s root (Some catalog) = Ok tt.
Proof.
  intros H Hr Hc. revert H. unfold validate_root. rewrite !let_ok_iff. intros [Hv H]. split; [done|]. revert H. cbv zeta.
  rewrite !guard_Ok, !guardb_Ok. intros (H1 & _ & H). split; [done|]. split; [cbn; rewrite bool_decide_eq_false; tauto|].
  revert H. destruct (last (st_replay s)) as [newest|] eqn:El; [|done]. rewrite !guard_Ok. intros [H3 H]. split.
  - intros Hbad. apply H3. destruct Hbad as [?|[?|[Hbad|?]]]; [tauto..| |tauto]. right; right; left. intros Hcov. apply Hbad.
    case_decide as Hj; [done|]. apply andb_True in Hcov as [Ha _]. apply andb_True. split; [done|].
    apply bool_decide_unpack in Ha as [_ Hlt]. apply last_Some_elem_of in El. apply Is_true_true. by apply (Hc newest).
  - revert H. destruct (chronological s) as [|first l]; [done|]. rewrite !guard_Ok, !let_ok_iff. intros (H4 & H5 & H6).
    split_and!; [done..|]. by apply check_commits_catalog.
Qed.

(** ** After a batch *)

Lemma push_outcome_in options o tiers x : x ∈ (push_outcome options o tiers).1 → x ∈ tiers.1 ∨ x = o.
Proof.
  destruct tiers as [replay guard]. unfold push_outcome. cbn [fst]. case_decide; cbn [fst].
  - destruct (replay ++ [o]) as [|promoted l] eqn:E; [by intros ?%elem_of_nil|]. cbn [fst]. intros Hx.
    assert (x ∈ replay ++ [o]) as [?|?%list_elem_of_singleton]%elem_of_app by (rewrite E; by right); auto.
  - intros [?|?%list_elem_of_singleton]%elem_of_app; auto.
Qed.
Lemma advance_loop_in s committed pending tiers p tiers' :
  advance_loop s committed pending tiers p = Ok tiers' → ∀ x, x ∈ tiers'.1 → x ∈ tiers.1 ∨ ro_committed x = committed.
Proof.
  revert tiers p. induction pending as [|e pending IH]; intros tiers p; [intros [= ->]; auto|].
  intros (_ & _ & _ & Hl)%advance_loop_cons x Hx. destruct (IH _ _ Hl x Hx) as [[?| ->]%push_outcome_in|?]; auto.
Qed.
Lemma advance_valid s old catalog reference pending next s' :
  validate_root s old (Some catalog) = Ok tt → advance s reference pending next = Ok s' →
  mc_catalog next = mc_catalog old → commit_journal next = commit_journal old →
  validate_root s' next (Some catalog) = Ok tt.
Proof.
  intros [Hr Hc]%validate_root_covered Ha Ecat Ej. apply advance_inv in Ha as (_ & _ & Hv & _ & _ & _ & p & Hl & _).
  apply validate_root_catalog; [done|by rewrite Hr|]. intros o Ho.
  destruct (advance_loop_in _ _ _ _ _ _ Hl o Ho) as [Hin|E]; [|unfold covered; rewrite E; lia].
  specialize (Hc o Hin). unfold covered in *. by rewrite Ej.
Qed.
