(* ===== verification/Commitment.v ===== *)
(** * Commits of the manifest store

    The invariant of an open handle over its directory, and what its registry
    operations, appends and barriers do to it while effects fail: an operation that
    answers leaves the invariant with its result committed, one that refuses before
    publishing changes nothing, and one that fails later stops the handle and leaves
    a directory that every crash reads back as the old or as the new root. *)

From S2P Require Import Prelude Bytes Identity Series Collection Registry Wire Layout Crc Commit Journal Generation Retry RetryCodec Recovery.
From S2P Require Import Active Scan Effects Crash Reopen Handle Disk Segment Manifest RegistryReplay RegistryCodec.
From S2P Require Import Directory Publish Roots Store Committed Custody RetryRoot.

(** ** Roots and recovery *)

Record root := mkRoot {
  r_manifest : ManifestRecord;
  r_registry : SeriesRegistry;
  r_retry : RetryStateSnapshot;
  r_catalog : GenerationCatalogSnapshot }.

Section commitment.
Context (store : StoreId) (options : RetryPersistenceOptions).

Definition holds_root (d : dir) (x : root) : Prop := roots store options d (r_manifest x) (r_registry x) (r_retry x) (r_catalog x).
Definition reads (now : entries) (x : root) : Prop :=
  reads_root store options now (r_manifest x) (r_registry x) (r_retry x) (r_catalog x).
(** Every crash leaves a directory that reads back as one of the roots. *)
Definition recovers (d : dir) (xs : list root) : Prop := ∀ d', crashed d d' → ∃ x, x ∈ xs ∧ reads (dr_now d') x.
Definition root_of (s : ManifestStore) : root := mkRoot (ms_current s) (ms_registry s) (ms_retry s) (ms_catalog s).

(** ** The invariant of an open handle *)

Record committed (s : ManifestStore) (d : dir) : Prop := {
  cm_custody : ms_write_state s = Writable;
  cm_standing : standing store (ms_slots s) (ms_current_slot s) (ms_current s) d;
  cm_root : holds_root d (root_of s);
  cm_others : ∀ m, m ∈ slot_list (ms_slots s) → ∃ x, r_manifest x = m ∧ holds_root d x;
  cm_registry : registry_ok (ms_registry s) }.
(** The journal stands at the committed cutoff, or has frames beyond it. *)
Definition aligned (s : ManifestStore) : Prop := durable_cutoff (ms_journal s) = mf_cutoff (ms_current s).

Lemma holds_root_reads d d' x slots k :
  holds_root d x → crashed d d' → now_stands (dr_now d') slots → select_current_manifest slots = Ok (Some (k, r_manifest x)) →
  (∀ m, m ∈ slot_list slots → retained store m) → reads (dr_now d') x.
Proof using Type.
  intros Hh Hc Hn Hs Hr. eapply roots_read; [exact Hh| |].
  - intros name P HP _ H. by apply (shows_crashed d d').
  - intros w Hq Hw. by eapply standing_reads.
Qed.
Lemma committed_recovers s d : committed s d → recovers d [root_of s].
Proof using Type.
  intros [_ Hst Hroot _ _] d' Hc. exists (root_of s). split; [by left|]. pose proof Hst as [_ Hsel Hr].
  eapply (holds_root_reads d); [done..| |exact Hsel|done]. by eapply standing_crashed.
Qed.
Lemma holds_root_kept slots d d' x :
  retained store (r_manifest x) → r_manifest x ∈ slot_list slots → keeps (safe slots) d d' → holds_root d x → holds_root d' x.
Proof using Type.
  intros Hr Hin Hk Hh. eapply roots_kept; [exact Hh|]. intros name P Hn. apply Hk. by apply (root_name_safe store slots (r_manifest x)).
Qed.

(** The names that the retained manifests and their roots occupy. *)
Definition held (slots : manifest_slots) (n : list byte) : Prop :=
  (∃ j, (j < 2)%nat ∧ n = manifest_file j) ∨ ∃ m, m ∈ slot_list slots ∧ root_name m n.
(** A directory that changed under no such name. *)
Lemma committed_same s d d' : committed s d → keeps (held (ms_slots s)) d d' → committed s d'.
Proof using Type.
  intros [Hw Hst Hroot Ho Hreg] Hk. destruct (standing_current _ _ _ _ _ Hst) as (_ & _ & Hin & _).
  split; try done.
  - eapply standing_kept; [exact Hst|exact Hk|]. intros j Hj. left. by exists j.
  - eapply roots_kept; [exact Hroot|]. intros name P Hn. apply Hk. right. by exists (ms_current s).
  - intros m Hm. destruct (Ho m Hm) as (x & <- & Hx). exists x. split; [done|].
    eapply roots_kept; [exact Hx|]. intros name P Hn. apply Hk. right. by exists (r_manifest x).
Qed.

(** ** The next root *)

(** What makes a root ready to be published after the current one. *)
Record follows (s : ManifestStore) (d : dir) (x : root) : Prop := {
  fw_succeeds : succeeds (ms_current s) (r_manifest x);
  fw_holds : holds_root d x;
  fw_registry : registry_ok (r_registry x);
  fw_catalog : r_catalog x = ms_catalog s }.

(** The handle after the adoption and the assignment of the parts that changed. *)
Definition advanced (s : ManifestStore) (x : root) : ManifestStore :=
  mkStore (ms_journal s) (r_registry x) (r_retry x) (ms_catalog s) (ms_recovery_report s)
    (set_slot (1 - ms_current_slot s) (r_manifest x) (ms_slots s)) (1 - ms_current_slot s) (r_manifest x) (ms_write_state s).

Lemma halted_recovers s x w st :
  committed s (w_dir w) → follows s (w_dir w) x → halted store s (r_manifest x) w st →
  recovers (w_dir st.2) [root_of s; x].
Proof using Type.
  intros [_ Hst Hroot _ _] [Hn Hx _ _] [_ Hk _ Hs] d' Hc. destruct (standing_current _ _ _ _ _ Hst) as (Hlt & Hm & _ & Hcur).
  pose proof Hst as [_ Hsel Hr]. set (slots' := set_slot (1 - ms_current_slot s) (r_manifest x) (ms_slots s)) in *.
  assert (ms_current s ∈ slot_list slots') as Hin.
  { apply (slot_at_list (ms_current_slot s)). unfold slots'. rewrite set_slot_at by lia. rewrite decide_False by lia. done. }
  destruct (Hs d' Hc) as [Hold|(Hnew & Hsel' & Hr')].
  - exists (root_of s). split; [by left|]. eapply (holds_root_reads (w_dir st.2)); [|done|exact Hold|exact Hsel|done].
    by eapply holds_root_kept.
  - assert (r_manifest x ∈ slot_list slots') as Hin'
      by (apply (slot_at_list (1 - ms_current_slot s)); unfold slots'; rewrite set_slot_at by lia; by rewrite decide_True).
    exists x. split; [by right; left|]. eapply (holds_root_reads (w_dir st.2)); [|done|exact Hnew|exact Hsel'|done].
    eapply holds_root_kept; [by apply Hr'|exact Hin'|exact Hk|exact Hx].
Qed.

Lemma adopted_committed s x w w' :
  committed s (w_dir w) → follows s (w_dir w) x →
  let k := (1 - ms_current_slot s)%nat in
  let slots' := set_slot k (r_manifest x) (ms_slots s) in
  standing store slots' k (r_manifest x) (w_dir w') → keeps (safe slots') (w_dir w) (w_dir w') →
  committed (advanced s x) (w_dir w').
Proof using Type.
  intros [Hw Hst Hroot _ _] [Hn Hx Hreg Hcat] k slots' Hst' Hk. destruct (standing_current _ _ _ _ _ Hst) as (Hlt & Hm & _ & Hcur).
  assert (∀ m, m ∈ slot_list slots' → m = ms_current s ∨ m = r_manifest x) as Hcases.
  { intros m (j & Hj & Hjm)%slot_list_at. unfold slots' in Hjm. rewrite set_slot_at in Hjm by lia. case_decide; [right; by injection Hjm|].
    left. replace j with (ms_current_slot s) in Hjm by lia. congruence. }
  pose proof (sd_retained _ _ _ _ _ Hst') as Hr.
  destruct (standing_current _ _ _ _ _ Hst') as (_ & _ & Hin & Hnext).
  assert (holds_root (w_dir w') x) as Hx' by by eapply holds_root_kept.
  split; cbn [advanced ms_write_state ms_slots ms_current_slot ms_current ms_journal ms_registry]; try done.
  - unfold root_of. cbn. rewrite <-Hcat. by destruct x.
  - intros m Hin'. destruct (Hcases m Hin') as [->| ->]; [|by exists x]. exists (root_of s). split; [done|].
    by eapply holds_root_kept.
Qed.

(** Publication of the root [x] that follows: the part both operations share. *)
Lemma adopt_root s x w :
  committed s (w_dir w) → follows s (w_dir w) x →
  let prepared := mkPreparedManifest (r_manifest x) (1 - ms_current_slot s) (encode_manifest (r_manifest x)) in
  outcome (publish_and_adopt_prepared_manifest prepared) (s, w)
    (λ c st, c = manifest_commit (r_manifest x) ∧ beside (w_disk w) (w_disk st.2) ∧
       st.1 = adopt_published_manifest (1 - ms_current_slot s) (r_manifest x)
                (set_slot (1 - ms_current_slot s) (r_manifest x) (ms_slots s)) s ∧
       committed (advanced s x) (w_dir st.2))
    (λ _ st, ms_write_state st.1 ≠ Writable ∧ beside (w_disk w) (w_disk st.2) ∧ recovers (w_dir st.2) [root_of s; x]).
Proof using Type.
  intros Hc Hf prepared. eapply outcome_weaken; [apply (adopt_outcome store s w (r_manifest x)); [apply Hc|apply Hf]| |].
  - intros c st (-> & -> & Hst & Hk & Hb). split_and!; [done..|]. by eapply adopted_committed.
  - intros e st Hh. split; [apply Hh|]. split; [apply Hh|]. by eapply halted_recovers.
Qed.

(** ** Publishing the artifacts of the next root *)

Lemma free_slot_spec used slot : free_slot used = Some slot → 0 ≤ slot < 3 ∧ slot ∉ used.
Proof using Type.
  unfold free_slot. intros H. destruct (find_some _ _ H) as [Hin Hu]. apply bool_decide_eq_true in Hu. split; [|done].
  cbn in Hin. lia.
Qed.
(** A free slot, and a staging file, are names apart. *)
Lemma held_apart slots n j other :
  (∀ m, m ∈ slot_list slots → retained store m) → held slots n → slot_names !! j = Some other → (2 ≤ j)%nat →
  (∀ m i, m ∈ slot_list slots → root_index m i → i ≠ Some j) → n ≠ other.
Proof using Type.
  intros Hr [(k & Hk & ->)|(m & Hm & Hn)] Ho Hj Hi; [|by eapply root_name_apart; eauto].
  eapply (stands_apart _ _ (Some k) j); [by apply manifest_file_at|done|]. intros [= ->]. lia.
Qed.
Lemma staging_apart slots n j other :
  (∀ m, m ∈ slot_list slots → retained store m) → held slots n → slot_names !! j = Some other → (14 ≤ j)%nat → n ≠ other.
Proof using Type.
  intros Hr Hn Ho Hj. eapply held_apart; [done..|lia|]. intros m i Hm [->|[->|[(c & E & ->)| ->]]] [= Ei];
    destruct (Hr m Hm) as [_ ? ? Hcat _ _]; try lia. specialize (Hcat _ E). lia.
Qed.
Lemma registry_slot_apart slots n slot :
  (∀ m, m ∈ slot_list slots → retained store m) → held slots n → 0 ≤ slot < 3 →
  slot ∉ ((λ m, rg_slot (mf_registry m)) <$> slot_list slots) → n ≠ nth (Z.to_nat slot) REGISTRY_SLOT_NAMES [].
Proof using Type.
  intros Hr Hn Hs Hu. eapply (held_apart slots n (2 + Z.to_nat slot)); [done..| |lia|].
  - by assert (slot = 0 ∨ slot = 1 ∨ slot = 2) as [->|[->| ->]] by lia.
  - intros m i Hm [->|[->|[(c & E & ->)| ->]]] [= Ei]; destruct (Hr m Hm) as [_ ? ? Hcat _ _]; try lia.
    apply Hu. apply list_elem_of_fmap. exists m. split; [lia|done].
Qed.
Lemma retry_slot_apart slots n slot :
  (∀ m, m ∈ slot_list slots → retained store m) → held slots n → 0 ≤ slot < 3 →
  slot ∉ ((λ m, rs_slot (ra_public (mf_retry m))) <$> slot_list slots) → n ≠ nth (Z.to_nat slot) RETRY_SLOT_NAMES [].
Proof using Type.
  intros Hr Hn Hs Hu. eapply (held_apart slots n (5 + Z.to_nat slot)); [done..| |lia|].
  - by assert (slot = 0 ∨ slot = 1 ∨ slot = 2) as [->|[->| ->]] by lia.
  - intros m i Hm [->|[->|[(c & E & ->)| ->]]] [= Ei]; destruct (Hr m Hm) as [_ ? ? Hcat _ _]; try lia.
    apply Hu. apply list_elem_of_fmap. exists m. split; [lia|done].
Qed.

Lemma publish_registry_slot slot generation after bytes w :
  0 ≤ slot < 3 →
  let staging := REGISTRY_STAGING_FILE_NAME in
  let target := nth (Z.to_nat slot) REGISTRY_SLOT_NAMES [] in
  let reference := mkRegistryReference slot generation (len bytes) (crc32c bytes) in
  let safe n := n ≠ staging ∧ n ≠ target in
  outcome (publish_prepared_registry_snapshot after (mkPreparedRegistry reference bytes)) w
    (λ _ w', keeps safe (w_dir w) (w_dir w') ∧ beside (w_disk w) (w_disk w') ∧ shows (w_dir w') target (exactly bytes) ∧
       ∃ registry, decode_registry_snapshot_at_slot bytes slot = Ok (mkDecodedRegistry reference registry) ∧
         snapshot registry = after)
    (λ _ w', keeps safe (w_dir w) (w_dir w') ∧ beside (w_disk w) (w_disk w')).
Proof using Type.
  intros Hs staging target reference safe. unfold publish_prepared_registry_snapshot. cbn [pr_reference pr_bytes rg_slot reference].
  fold reference. eapply outcome_weaken; [apply publish_outcome| |].
  - intros E. eapply (apart_ne [REGISTRY_STAGING_FILE_NAME] REGISTRY_SLOT_NAMES); [by vm_compute|by left| |exact E].
    apply nth_slot. cbn. lia.
  - intros _ w' [Hpub Hv]. destruct (published_keeps _ _ _ _ _ Hpub) as [Hk Ht]. split_and!; [done|by destruct Hpub|exact Ht|].
    revert Hv. destruct (decode_registry_snapshot_at_slot bytes slot) as [[r registry]|]; [|done]. rewrite guard_Ok.
    cbn [dr_reference dr_registry]. intros [Hn _]. exists registry. split; [|by not_refused]. repeat f_equal. by not_refused.
  - intros e w' Hd. split; [exact (disturbed_keeps _ _ _ _ _ _ Hd)|by destruct Hd].
Qed.
Lemma publish_registry_outcome s generation after p w :
  committed s (w_dir w) → prepare_registry_snapshot s generation after = Ok p →
  let slot := rg_slot (pr_reference p) in
  outcome (publish_prepared_registry_snapshot after p) w
    (λ _ w', keeps (held (ms_slots s)) (w_dir w) (w_dir w') ∧ beside (w_disk w) (w_disk w') ∧
       shows (w_dir w') (nth (Z.to_nat slot) REGISTRY_SLOT_NAMES []) (exactly (pr_bytes p)) ∧
       (rg_generation (pr_reference p) = generation ∧ rg_length (pr_reference p) = len (pr_bytes p) ∧
        rg_checksum (pr_reference p) = crc32c (pr_bytes p)) ∧
       ∃ registry, decode_registry_snapshot_at_slot (pr_bytes p) slot = Ok (mkDecodedRegistry (pr_reference p) registry) ∧
         snapshot registry = after)
    (λ _ w', keeps (held (ms_slots s)) (w_dir w) (w_dir w') ∧ beside (w_disk w) (w_disk w')).
Proof using Type.
  intros Hc Hp slot. pose proof (sd_retained _ _ _ _ _ (cm_standing _ _ Hc)) as Hr.
  unfold prepare_registry_snapshot in Hp. rewrite ok_or_Ok in Hp. destruct Hp as (free & Hfree & Hp). apply free_slot_spec in Hfree as [Hs Hu].
  destruct (encode_registry_snapshot generation after) as [bytes|]; [|done]. injection Hp as <-. cbn [pr_reference pr_bytes rg_slot] in *.
  assert (∀ n, held (ms_slots s) n → n ≠ REGISTRY_STAGING_FILE_NAME ∧ n ≠ nth (Z.to_nat free) REGISTRY_SLOT_NAMES []) as Hh
    by (intros n Hn; split; [by apply (staging_apart (ms_slots s) n 15); [..|lia]|by apply (registry_slot_apart (ms_slots s))]).
  eapply outcome_weaken; [by apply publish_registry_slot| |].
  - intros _ w' (Hk & Hb & Hsh & Hd). split_and!; [by eapply keeps_weaken|done..].
  - intros e w' [Hk Hb]. split; [by eapply keeps_weaken|done].
Qed.

(** ** Registry operations *)

Lemma snapshot_inj r r' : registry_ok r → registry_ok r' → snapshot r = snapshot r' → r = r'.
Proof using Type.
  intros H%restore_series_rebuilds H'%restore_series_rebuilds E. rewrite <-!snap_series_entries in *. rewrite E in H.
  assert (reg_store_id r = reg_store_id r' ∧ reg_limits r = reg_limits r') as [Es El]
    by (split; [by apply (f_equal snap_store_id) in E|by apply (f_equal snap_limits) in E]).
  rewrite Es, El in H. congruence.
Qed.
Lemma restored_same r r' : registry_ok r → restore_snapshot (snapshot r) = Ok r' → r' = r.
Proof using Type.
  intros Hr. unfold restore_snapshot. rewrite let_ok_iff, snap_series_entries. intros [_ H]. cbn [snap_store_id snap_limits snapshot] in H.
  rewrite restore_series_rebuilds in H by done. case_decide; [done|]. by injection H.
Qed.
Lemma decoded_registry_ok bytes slot d : decode_registry_snapshot_at_slot bytes slot = Ok d → registry_ok (dr_registry d).
Proof using Type.
  unfold decode_registry_snapshot_at_slot. rewrite guard_Ok. intros [_ H].
  destruct (decode_registry_snapshot bytes) as [d'|] eqn:E; [|done]. injection H as <-. cbn [dr_registry].
  by destruct (decode_registry_sound _ _ E) as [[] _].
Qed.

(** The same references, or the same, progress. *)
Lemma progresses_refl m : retry_reference_progresses (mf_retry m) (mf_retry m) = true ∧
  catalog_reference_progresses (mf_catalog m) (mf_catalog m) = true ∧ recovery_reference_progresses (mf_recovery m) (mf_recovery m) = true.
Proof using Type.
  unfold retry_reference_progresses, catalog_reference_progresses, recovery_reference_progresses. rewrite decide_True by done.
  split_and!; [by apply bool_decide_eq_true| |].
  - destruct (mf_catalog m); [|done]. rewrite decide_True by done. by apply bool_decide_eq_true.
  - destruct (mf_recovery m); [|done]. by rewrite bool_decide_true.
Qed.

(** The root that a registry operation publishes. *)
Definition registry_root (s : ManifestStore) (reference : RegistryReference) (registry : SeriesRegistry) : root :=
  let current := ms_current s in
  mkRoot (mkManifest (mf_generation current + 1) reference (durable_cutoff (ms_journal s)) (mf_retry current)
            (mf_recovery current) (mf_sequence_floor current) (mf_catalog current))
    registry (ms_retry s) (ms_catalog s).
Lemma registry_root_follows s d' reference bytes registry :
  aligned s → committed s d' → shows d' (nth (Z.to_nat (rg_slot reference)) REGISTRY_SLOT_NAMES []) (exactly bytes) →
  rg_generation reference = rg_generation (mf_registry (ms_current s)) + 1 → rg_length reference = len bytes →
  rg_checksum reference = crc32c bytes →
  decode_registry_snapshot_at_slot bytes (rg_slot reference) = Ok (mkDecodedRegistry reference registry) →
  reg_store_id registry = store → follows s d' (registry_root s reference registry).
Proof using Type.
  intros Hal Hc' Hs Hg Hl Hx Hd Hst. destruct (cm_root _ _ Hc') as [_ (b & Hb & [Tl Tx Td Tr]) Hcat Hcs Hsealed].
  cbn [root_of r_manifest r_retry r_catalog] in *. split; cbn [registry_root r_manifest r_registry r_retry r_catalog].
  - split; [done|]. exact (progresses_refl (ms_current s)).
  - split; cbn [mf_catalog]; try done.
    + exists bytes. split; [exact Hs|]. split; cbn [mf_registry]; done.
    + exists b. split; [exact Hb|]. split; cbn [mf_retry]; try done.
      unfold validates_root_with_catalog in *. apply Is_true_true. apply Is_true_true in Tr. revert Tr.
      destruct (validate_root _ _ _) as [[]|] eqn:E; [|done]. intros _. eapply validate_root_newer in E; [by rewrite E|..]; try done.
      * cbn. lia.
      * left. cbn. lia.
  - apply (decoded_registry_ok _ _ _ Hd).
  - done.
Qed.

Lemma next_generation_Ok g g' : next_generation g = Ok g' → g' = g + 1 ∧ g' ≤ u64_max.
Proof using Type. unfold next_generation, checked_add. case_decide; [|done]. intros [= <-]. done. Qed.
Lemma prepare_next_manifest s d m p :
  committed s d → mf_generation m = mf_generation (ms_current s) + 1 → prepare_manifest s m = Ok p →
  p = mkPreparedManifest m (1 - ms_current_slot s) (encode_manifest m).
Proof using Type.
  intros Hc Hg. destruct (standing_current _ _ _ _ _ (cm_standing _ _ Hc)) as (_ & _ & _ & [_ _ _ _ Hpos _]).
  unfold prepare_manifest, manifest_target. rewrite decide_False by lia. case_decide; [done|]. by intros [= <-].
Qed.
Lemma recovers_more d xs ys : recovers d xs → xs ⊆ ys → recovers d ys.
Proof using Type. intros H Hs d' Hc. destruct (H d' Hc) as (x & Hx & Hr). exists x. auto. Qed.
Lemma committed_store s d : committed s d → reg_store_id (ms_registry s) = store.
Proof using Type. intros Hc. destruct (cm_root _ _ Hc) as [(b & _ & []) _ _ _ _]. done. Qed.

Section operation.
Context {T : Type} (operation : SeriesRegistry → result ModelError T * SeriesRegistry).
Context (Hop : ∀ r a r', registry_ok r → operation r = (Ok a, r') → registry_ok r' ∧ reg_store_id r' = reg_store_id r).

(** A failed registry operation: refused, or stopped over one of two roots. *)
Definition registry_failed (s : ManifestStore) (w : world) (st : ManifestStore * world) : Prop :=
  st = (s, w) ∨ (ms_write_state st.1 ≠ Writable ∧ ∃ a reference registry, operation (ms_registry s) = (Ok a, registry) ∧
    recovers (w_dir st.2) [root_of s; registry_root s reference registry]).

(** The part after everything was prepared. *)
Lemma registry_publication s w a registry g p :
  committed s (w_dir w) → aligned s → operation (ms_registry s) = (Ok a, registry) → mf_generation (ms_current s) + 1 ≤ u64_max →
  g = rg_generation (mf_registry (ms_current s)) + 1 → prepare_registry_snapshot s g (snapshot registry) = Ok p →
  let x := registry_root s (pr_reference p) registry in
  let manifest := mkPreparedManifest (r_manifest x) (1 - ms_current_slot s) (encode_manifest (r_manifest x)) in
  outcome (_ ← recorded (world_effect (publish_prepared_registry_snapshot (snapshot registry) p));
           commit ← recorded (publish_and_adopt_prepared_manifest manifest);
           _ ← modify (with_registry registry);
           mret (a, commit)) (s, w)
    (λ ac st, committed st.1 (w_dir st.2) ∧ aligned st.1 ∧ (Ok a, registry) = (Ok ac.1, ms_registry st.1) :> result ModelError T * _ ∧
       ac.2 = commit st.1 ∧ ms_journal st.1 = ms_journal s ∧ ms_retry st.1 = ms_retry s ∧ beside (w_disk w) (w_disk st.2))
    (λ _ st, registry_failed s w st ∧ beside (w_disk w) (w_disk st.2)).
Proof using Hop.
  intros Hc Hal Ho Hmax Hg Hp x manifest. destruct (Hop _ _ _ (cm_registry _ _ Hc) Ho) as [Hok Hs].
  rewrite outcome_bind. apply outcome_recorded, outcome_world_effect. eapply outcome_weaken; [by apply publish_registry_outcome| |].
  - intros [] w1 (Hk & Hb & Hsh & (Rg & Rl & Rx) & r' & Hd & Hsn). cbn [fst snd].
    pose proof (committed_same s _ _ Hc Hk) as Hc1.
    assert (r' = registry) as -> by (apply snapshot_inj; [exact (decoded_registry_ok _ _ _ Hd)|done..]).
    assert (follows s (w_dir w1) x) as Hf.
    { eapply registry_root_follows; try done; [by rewrite Rg|]. rewrite Hs. by eapply committed_store. }
    rewrite outcome_bind. apply outcome_recorded. eapply outcome_weaken; [by apply adopt_root| |].
    + intros c [s2 w2] (-> & Hb2 & E & Hcom). cbn [fst snd] in *. subst s2.
      assert (beside (w_disk w) (w_disk w2)) by (by trans (w_disk w1)). split_and!; try done.
    + intros e [s2 w2] (Hw & Hb2 & Hr). cbn [fst snd] in *. split; [|by trans (w_disk w1)]. right. split; [apply terminal_stops|].
      by exists a, (pr_reference p), registry.
  - intros e w1 [Hk Hb]. cbn [fst snd]. split; [|done]. right. split; [apply terminal_stops|]. exists a, (pr_reference p), registry.
    split; [done|]. eapply recovers_more; [apply committed_recovers; by eapply committed_same|]. set_solver.
Qed.

Lemma apply_registry_outcome s w :
  committed s (w_dir w) → aligned s →
  outcome (apply_registry operation) (s, w)
    (λ ac st, committed st.1 (w_dir st.2) ∧ aligned st.1 ∧ operation (ms_registry s) = (Ok ac.1, ms_registry st.1) ∧ ac.2 = commit st.1 ∧
       ms_journal st.1 = ms_journal s ∧ ms_retry st.1 = ms_retry s ∧ beside (w_disk w) (w_disk st.2))
    (λ _ st, registry_failed s w st ∧ beside (w_disk w) (w_disk st.2)).
Proof using Hop.
  intros Hc Hal. unfold apply_registry. rewrite outcome_bind. unfold outcome at 1, this. cbn [fst].
  assert (registry_failed s w (s, w) ∧ beside (w_disk w) (w_disk (s, w).2)) as Hsame by (split; [by left|reflexivity]).
  apply outcome_lift_step; [intros _ _|done]. apply outcome_lift_step; [|done].
  intros candidate Hr. apply restored_same in Hr as ->; [|apply Hc].
  destruct (operation (ms_registry s)) as [answer registry] eqn:Ho. apply outcome_lift_step; [|done].
  intros a Ha. destruct answer as [a'|]; [|done]. injection Ha as ->.
  destruct (Hop _ _ _ (cm_registry _ _ Hc) Ho) as [Hok Hs]. case_decide as Hsn.
  { apply outcome_ret. cbn [fst snd]. apply snapshot_inj in Hsn; [|done|apply Hc]. rewrite Hsn. split_and!; try done. }
  apply outcome_lift_step; [|done]. intros g [-> _]%next_generation_Ok.
  apply outcome_lift_step; [|done]. intros mg [-> Hmax]%next_generation_Ok.
  apply outcome_lift_step; [|done]. intros p Hp. cbv zeta. apply outcome_lift_step; [|done].
  intros manifest Hm. eapply prepare_next_manifest in Hm; [|exact Hc|done]. subst manifest. by eapply registry_publication.
Qed.
End operation.
End commitment.
