(* ===== verification/Barrier.v ===== *)
(** * Appends and barriers of the manifest store

    The journal of an open handle beside its directory: an append changes the
    journal only, and a barrier synchronizes the journal, publishes the retry state
    of the batch and then the manifest whose cutoff covers it. *)

From S2P Require Import Prelude Bytes Identity Series Collection Registry Wire Layout Crc Fields Commit Journal Generation Retry RetryCodec Recovery.
From S2P Require Import Disk Active Scan Effects Crash Reopen Handle Segment Manifest RegistryReplay RegistryCodec.
From S2P Require Import Directory Publish Roots Store Committed Custody RetryRoot Commitment.

Section barrier.
Context (store : StoreId) (options : RetryPersistenceOptions).
Local Abbreviation committed := (committed store options).
Local Abbreviation recovers := (recovers store options).
Local Abbreviation follows := (follows store options).

(** ** Publishing the retry state *)

Lemma publish_retry_slot public state bytes w :
  0 ≤ rs_slot public < 3 → st_store_id state = store → st_options state = options →
  let staging := RETRY_STAGING_FILE_NAME in
  let target := nth (Z.to_nat (rs_slot public)) RETRY_SLOT_NAMES [] in
  let reference := mkRetryArtifact public (len bytes) (crc32c bytes) in
  let safe n := n ≠ staging ∧ n ≠ target in
  outcome (publish_prepared_retry_snapshot state (mkPreparedRetry reference bytes)) w
    (λ _ w', keeps safe (w_dir w) (w_dir w') ∧ beside (w_disk w) (w_disk w') ∧ shows (w_dir w') target (exactly bytes) ∧
       decode_retry_state_at_slot bytes (rs_slot public) store options = Ok (reference, state))
    (λ _ w', keeps safe (w_dir w) (w_dir w') ∧ beside (w_disk w) (w_disk w')).
Proof using Type.
  intros Hslot Hs Ho staging target reference safe. unfold publish_prepared_retry_snapshot. cbn [pt_reference pt_bytes ra_public reference].
  fold reference. eapply outcome_weaken; [apply publish_outcome| |].
  - intros E. eapply (apart_ne [RETRY_STAGING_FILE_NAME] RETRY_SLOT_NAMES); [by vm_compute|by left| |exact E].
    apply nth_slot. cbn. lia.
  - intros _ w' [Hpub Hv]. destruct (published_keeps _ _ _ _ _ Hpub) as [Hk Ht].
    split_and!; [done|by destruct Hpub|exact Ht|]. revert Hv. rewrite Hs, Ho.
    destruct (decode_retry_state_at_slot _ _ _ _) as [[r state']|]; [|done]. cbn [map_err]. rewrite guard_Ok. cbn [fst snd].
    intros [Hn _]. repeat f_equal; by not_refused.
  - intros e w' Hd. split; [exact (disturbed_keeps _ _ _ _ _ _ Hd)|by destruct Hd].
Qed.
Lemma publish_retry_outcome s d public state p w :
  committed s d → w_dir w = d → prepare_retry_snapshot s public state = Ok p → st_store_id state = store → st_options state = options →
  outcome (publish_prepared_retry_snapshot state p) w
    (λ _ w', keeps (held (ms_slots s)) (w_dir w) (w_dir w') ∧ beside (w_disk w) (w_disk w') ∧
       shows (w_dir w') (nth (Z.to_nat (rs_slot public)) RETRY_SLOT_NAMES []) (exactly (pt_bytes p)) ∧
       pt_reference p = mkRetryArtifact public (len (pt_bytes p)) (crc32c (pt_bytes p)) ∧
       (rs_slot public ∉ ((λ m, rs_slot (ra_public (mf_retry m))) <$> slot_list (ms_slots s))) ∧
       decode_retry_state_at_slot (pt_bytes p) (rs_slot public) store options = Ok (pt_reference p, state))
    (λ _ w', keeps (held (ms_slots s)) (w_dir w) (w_dir w') ∧ beside (w_disk w) (w_disk w')).
Proof using Type.
  intros Hc <- Hp Hs Ho. pose proof (sd_retained _ _ _ _ _ (cm_standing _ _ _ _ Hc)) as Hr.
  unfold prepare_retry_snapshot, select_retry_candidate_slot in Hp. rewrite guard_Ok, ok_or_Ok in Hp.
  destruct Hp as (_ & free & Hfree & Hp). apply free_slot_spec in Hfree as [Hb Hu]. rewrite guard_Ok in Hp. destruct Hp as [Hsel Hp].
  assert (free = rs_slot public) as -> by not_refused.
  destruct (encode_retry_state state) as [bytes|]; [|done]. injection Hp as <-. cbn [pt_reference pt_bytes] in *.
  assert (∀ n, held (ms_slots s) n → n ≠ RETRY_STAGING_FILE_NAME ∧ n ≠ nth (Z.to_nat (rs_slot public)) RETRY_SLOT_NAMES []) as Hh
    by (intros n Hn; split; [by apply (staging_apart store (ms_slots s) n 16); [..|lia]|by apply (retry_slot_apart store (ms_slots s))]).
  eapply outcome_weaken; [by apply publish_retry_slot| |].
  - intros _ w' (Hk & Hbs & Hsh & Hd). split_and!; [by eapply keeps_weaken|done..].
  - intros e w' [Hk Hbs]. split; [by eapply keeps_weaken|done].
Qed.

(** ** The root that a barrier publishes *)

Definition barrier_root (s : ManifestStore) (cutoff : DurableCutoff) (reference : RetryArtifactReference)
    (state : RetryStateSnapshot) : root :=
  let current := ms_current s in
  mkRoot (mkManifest (mf_generation current + 1) (mf_registry current) cutoff reference (mf_recovery current)
            (mf_sequence_floor current) (mf_catalog current))
    (ms_registry s) state (ms_catalog s).

Lemma barrier_root_follows s d cutoff pending public bytes state :
  committed s d →
  shows d (nth (Z.to_nat (rs_slot public)) RETRY_SLOT_NAMES []) (exactly bytes) →
  rs_generation public = rs_generation (ra_public (mf_retry (ms_current s))) + 1 → rs_generation public ≤ u64_max →
  rs_slot public ∉ ((λ m, rs_slot (ra_public (mf_retry m))) <$> slot_list (ms_slots s)) →
  journal_generation (cut_journal cutoff) = mf_journal (ms_current s) →
  let x := barrier_root s cutoff (mkRetryArtifact public (len bytes) (crc32c bytes)) state in
  advance (ms_retry s) public pending (manifest_commit (r_manifest x)) = Ok state →
  decode_retry_state_at_slot bytes (rs_slot public) store options = Ok (mkRetryArtifact public (len bytes) (crc32c bytes), state) →
  follows s d x.
Proof using Type.
  intros Hc Hsh Hg Hmax Hu Hj x Ha Hd. destruct (cm_root _ _ _ _ Hc) as [(b & Hb & Hreg) (b' & Hb' & [Tl Tx Td Tr]) Hcat Hcs Hsealed].
  destruct (standing_current _ _ _ _ _ (cm_standing _ _ _ _ Hc)) as (_ & _ & Hin & _).
  cbn [root_of r_manifest r_registry r_retry r_catalog] in *. destruct (progresses_refl (ms_current s)) as (_ & Pc & Pr).
  split; cbn [x barrier_root r_manifest r_registry r_retry r_catalog].
  - split_and!; [done| |exact Pc|exact Pr]. cbn [mf_retry]. unfold retry_reference_progresses. cbn [ra_public].
    rewrite decide_False by lia. apply bool_decide_eq_true. split; [unfold checked_add; rewrite decide_True by lia; by rewrite Hg|].
    intros E. apply Hu, list_elem_of_fmap. by exists (ms_current s).
  - split; cbn [mf_catalog]; try done.
    + exists b. split; [exact Hb|]. by destruct Hreg.
    + exists bytes. split; [exact Hsh|]. split; cbn [mf_retry ra_public ra_length ra_checksum]; try done.
      unfold validates_root_with_catalog in Tr |- *. destruct (validate_root (ms_retry s) _ _) as [[]|] eqn:E; [|done].
      eapply advance_valid in E; [by rewrite E|exact Ha|done|exact Hj].
  - apply Hc.
  - done.
Qed.

(** ** The prepared barrier *)

Lemma committed_retry s d : committed s d → st_store_id (ms_retry s) = store ∧ st_options (ms_retry s) = options.
Proof using Type.
  intros Hc. destruct (cm_root _ _ _ _ Hc) as [_ (b & _ & [_ _ Td _]) _ _ _]. cbn [root_of r_manifest r_retry] in Td.
  destruct (standing_current _ _ _ _ _ (cm_standing _ _ _ _ Hc)) as (_ & _ & _ & [_ _ Ht _ _ _]).
  apply decode_retry_sound in Td as (_ & ? & ? & _); [done|]. apply in_range_spec. unfold u8_max. lia.
Qed.
(** Everything a barrier prepares before it touches the journal. *)
Record prepared_barrier (s : ManifestStore) (cutoff : DurableCutoff) (pending : list PendingRetryOutcome)
    (plan : PendingCommitPlan) (public : RetryStateReference) : Prop := {
  pb_cutoff : pp_cutoff plan = cutoff;
  pb_publication : prepare_retry_snapshot s public (pp_retry plan) = Ok (pp_retry_publication plan);
  pb_generation : rs_generation public = rs_generation (ra_public (mf_retry (ms_current s))) + 1 ∧ rs_generation public ≤ u64_max;
  pb_journal : cut_journal cutoff = cut_journal (mf_cutoff (ms_current s));
  pb_state : st_store_id (pp_retry plan) = store ∧ st_options (pp_retry plan) = options;
  pb_advance : ∀ length checksum, advance (ms_retry s) public pending (manifest_commit
    (r_manifest (barrier_root s cutoff (mkRetryArtifact public length checksum) (pp_retry plan)))) = Ok (pp_retry plan);
  pb_manifest : pp_manifest plan =
    let m := r_manifest (barrier_root s cutoff (pt_reference (pp_retry_publication plan)) (pp_retry plan)) in
    mkPreparedManifest m (1 - ms_current_slot s) (encode_manifest m) }.
Lemma prepare_barrier s d cutoff pending plan :
  committed s d → prepare_synced_pending s cutoff pending = Ok plan → ∃ public, prepared_barrier s cutoff pending plan public.
Proof using Type.
  intros Hc. unfold prepare_synced_pending. rewrite let_ok_iff. intros [Hv H]. unfold validate_pending_retry in Hv.
  rewrite let_ok_iff in Hv. destruct Hv as [Hv _]. unfold validate_pending_retry_preflight in Hv. rewrite guard_Ok in Hv.
  destruct Hv as [Hv _]. destruct (next_generation (mf_generation _)) as [g|] eqn:Eg; [|done]. apply next_generation_Ok in Eg as [-> _].
  destruct (next_generation (rs_generation _)) as [rg|] eqn:Er; [|done]. apply next_generation_Ok in Er as [-> Hmax].
  destruct (select_retry_candidate_slot s) as [slot|]; [|done]. cbv zeta in H. rewrite map_err_Ok in H.
  destruct H as (candidate & Ha & H). set (public := mkRetryReference slot _) in *.
  destruct (prepare_retry_snapshot s public candidate) as [publication|] eqn:Ep; [|done].
  destruct (prepare_manifest s _) as [manifest|] eqn:Em; [|done]. injection H as <-.
  eapply prepare_next_manifest in Em; [|exact Hc|done]. pose proof (advance_inv _ _ _ _ _ Ha) as (_ & _ & _ & Es & Eo & _).
  destruct (committed_retry s d Hc) as [Hs Ho]. exists public. split; cbn [pp_cutoff pp_retry pp_retry_publication pp_manifest]; try done.
  - apply dec_stable. intros Hj. apply Hv. do 2 right. left. by intros ?.
  - by rewrite Es, Eo.
Qed.

(** Committing what was prepared, once the journal stands at the cutoff. *)
Lemma commit_outcome s w cutoff pending plan public :
  committed s (w_dir w) → prepared_barrier s cutoff pending plan public →
  let x := barrier_root s cutoff (pt_reference (pp_retry_publication plan)) (pp_retry plan) in
  outcome (recorded (commit_synced_pending plan)) (s, w)
    (λ ans st, ans = (manifest_commit (r_manifest x), pp_retry plan) ∧ st.1 = advanced s x ∧
       committed st.1 (w_dir st.2) ∧ beside (w_disk w) (w_disk st.2))
    (λ _ st, ms_write_state st.1 ≠ Writable ∧ beside (w_disk w) (w_disk st.2) ∧ recovers (w_dir st.2) [root_of s; x]).
Proof using Type.
  intros Hc [_ Hpub [Hg Hmax] Hj [Hs Ho] Ha Hm] x. apply outcome_recorded. unfold commit_synced_pending. rewrite outcome_bind.
  apply outcome_world_effect. eapply outcome_weaken; [by eapply publish_retry_outcome| |].
  - intros [] w1 (Hk & Hb & Hsh & Href & Hu & Hd). pose proof (committed_same _ _ s _ _ Hc Hk) as Hc1.
    assert (follows s (w_dir w1) x) as Hf.
    { unfold x. rewrite Href in Hd |- *. eapply barrier_root_follows; try done. unfold mf_journal. by rewrite Hj. }
    rewrite Hm, outcome_bind. cbv zeta. fold x. eapply outcome_weaken; [by apply adopt_root| |].
    + intros c [s2 w2] (-> & Hb2 & E & Hcom). cbn [fst snd] in *. subst s2. cbn [outcome modify mbind M_bind fst snd mret M_ret].
      assert (beside (w_disk w) (w_disk w2)) by (by trans (w_disk w1)). split_and!; done.
    + intros e [s2 w2] (Hw & Hb2 & Hr). cbn [fst snd] in *. split_and!; [apply terminal_stops|by trans (w_disk w1)|done].
  - intros e w1 [Hk Hb]. cbn [fst snd]. split_and!; [apply terminal_stops|done|].
    eapply recovers_more; [by eapply committed_recovers, committed_same|]. set_solver.
Qed.

(** ** The journal beside the directory *)

Section journal.
Context (i : JournalIdentity) (floor : Z) (limits : ActiveJournalLimits).
Context (Hi : wf i) (Hl : wf limits) (Hf : is_u64 floor).
Local Abbreviation live := (live i floor limits).
Local Abbreviation holds := (holds i floor limits).

Lemma recoverable_beside d d' H k c other next :
  beside d d' → recoverable i floor limits d H k c other next → recoverable i floor limits d' H k c other next.
Proof using Type.
  intros [Ef Ee _ _] [? ? [Hj Hk] HJ ? ? ? HS]. split; try done; rewrite ?Ef; try done.
  destruct Ee as [->| ->]; [done|]. destruct HJ as (f & Hf' & _), HS as (g & o & o' & Hg & _).
  split; apply elem_of_dom; by eexists.
Qed.
Lemma holds_beside d d' H k : beside d d' → holds d H k → holds d' H k.
Proof using Type. intros Hb (c & o & n & Hr). exists c, o, n. by eapply recoverable_beside. Qed.
Lemma openable_beside d d' : beside d d' → openable i d → openable i d'.
Proof using Type. intros [Ef _ _ _]. unfold openable. by rewrite Ef. Qed.
Lemma live_beside aj d d' H k : beside d d' → live aj d H k → live aj d' H k.
Proof using Type.
  intros Hb []. split; try done. destruct lv_ready as (other & Hr & Hd). exists other. split; [by eapply recoverable_beside|].
  unfold data_of, file_of in *. by rewrite (bs_files _ _ Hb).
Qed.

(** The cutoff after [c] of the records. *)
Definition covers_records (H : list DecodedAdmissionV1) (c : nat) (cutoff : DurableCutoff) : Prop :=
  (c ≤ length H)%nat ∧ cut_journal cutoff = i ∧ cut_append_sequence cutoff = floor + Z.of_nat c ∧
  cut_end_offset cutoff = end_of (take c H).
Lemma live_covers aj d H k : live aj d H k → covers_records H k (durable_cutoff aj).
Proof using Type. clear Hi Hl Hf. intros Hlv. destruct (live_good _ _ _ _ _ _ _ Hlv) as [_ Hk]. by destruct Hlv as [<- _ _ _ _ _ [_ _ _ Ha He]]. Qed.

Lemma outcome_journal {A} (m : Method A) s w Q R :
  outcome m (ms_journal s, w_disk w) (λ a st, Q a (with_journal st.1 s, mkWorld st.2 (w_dir w)))
    (λ e st, R (MseActive e) (record_active_error (with_journal st.1 s), mkWorld st.2 (w_dir w))) →
  outcome (journal_method m) (s, w) Q R.
Proof using Type. unfold outcome, journal_method. cbn [fst snd]. by destruct (m _) as [[a|e] [j d]]. Qed.
Lemma active_error_stops s : aj_write_state (ms_journal s) ≠ Writable → ms_write_state (record_active_error s) ≠ Writable.
Proof using Type. unfold record_active_error. by destruct (aj_write_state _). Qed.
Lemma committed_journal s d j : committed s d → committed (with_journal j s) d.
Proof using Type. by intros []. Qed.
Lemma prepared_journal s cutoff pending plan public j :
  prepared_barrier s cutoff pending plan public → prepared_barrier (with_journal j s) cutoff pending plan public.
Proof using Type. by intros []. Qed.

(** A barrier of the journal that is not needed is not announced either. *)
Lemma pending_current aj d H k cutoff :
  live aj d H k → pending_durable_cutoff aj = Ok cutoff → cutoff = durable_cutoff aj → k = length H.
Proof using Type.
  intros Hlv Hp ->. apply (live_synchronized i floor limits aj d H k Hlv). revert Hp. unfold pending_durable_cutoff.
  rewrite let_ok_iff. intros [_ Hp]. case_decide as Hs; [done|].
  destruct (pending_checkpoint_state _ aj) as [next|] eqn:E; [|done]. unfold pending_checkpoint_state in E.
  rewrite ok_or_Ok in E. destruct E as (g & Hg & [= <-]). apply checked_add_Some in Hg as [_ ->].
  injection Hp as E _ _. cbn in E. lia.
Qed.

(** ** Methods of the composed handle *)

(** An open handle: its directory commits to its root, whose cutoff its journal
    covers with the first [k] of the records [H]. *)
Record serving (s : ManifestStore) (w : world) (H : list DecodedAdmissionV1) (k : nat) : Prop := {
  sv_committed : committed s (w_dir w);
  sv_aligned : aligned s;
  sv_live : live (ms_journal s) (w_disk w) H k }.
(** What is left when a handle stopped: whichever of the roots a crash leaves, the
    journal's files hold the records it covers. *)
Definition left_with (w : world) (H : list DecodedAdmissionV1) (xs : list root) : Prop :=
  openable i (w_disk w) ∧ recovers (w_dir w) xs ∧
  ∃ k, holds (w_disk w) H k ∧ ∀ x, x ∈ xs → ∃ c, (c ≤ k)%nat ∧ covers_records H c (mf_cutoff (r_manifest x)).

Lemma serving_covers s w H k : serving s w H k → covers_records H k (mf_cutoff (ms_current s)).
Proof using Type. intros [_ Ha Hlv]. rewrite <-Ha. by eapply live_covers. Qed.
Lemma serving_left s w H k : serving s w H k → left_with w H [root_of s].
Proof using Type.
  intros Hs. pose proof (serving_covers _ _ _ _ Hs) as Hc. destruct Hs as [Hcm _ Hlv]. destruct (live_left _ _ _ _ _ _ _ Hlv) as [Hh Ho].
  split_and!; [done|by apply committed_recovers|]. exists k. split; [done|]. intros x ->%list_elem_of_singleton. by exists k.
Qed.

Lemma append_cutoff frame aj d :
  outcome (append frame) (aj, d) (λ _ st, durable_cutoff st.1 = durable_cutoff aj) (λ _ st, durable_cutoff st.1 = durable_cutoff aj).
Proof using Type.
  assert (∀ A (m : Op A) d' Q R, (∀ a d', Q a d') → (∀ e d', R e d') → outcome m d' Q R) as Hany
    by (intros A m d' Q R HQ HR; unfold outcome; destruct (m d') as [[a|e] d1]; auto).
  unfold append. apply outcome_self.
  repeat first [apply outcome_lift_step; [intros ? _|done] | apply outcome_refuse_step; [intros _|done]].
  apply outcome_bind, outcome_effect, Hany; [|done]. intros _ d1. apply outcome_bind, outcome_mutation, Hany; [|done].
  intros _ d2. apply outcome_bind. cbn [outcome set_self snd]. done.
Qed.

Lemma store_append_outcome s w H k frame p q :
  serving s w H k → into_frame p q = Ok frame →
  outcome (store_append frame) (s, w)
    (λ e st, serving st.1 st.2 (H ++ evidence frame) k ∧ root_of st.1 = root_of s ∧ e = end_of (H ++ evidence frame))
    (λ _ st, (st.1 = s ∧ serving s st.2 H k) ∨
             (ms_write_state st.1 ≠ Writable ∧ left_with st.2 (H ++ evidence frame) [root_of s])).
Proof using Hf.
  intros Hs Hfr. pose proof (serving_covers _ _ _ _ Hs) as (Hk & Hcov). pose proof Hs as [Hc Ha Hlv]. unfold store_append.
  rewrite outcome_bind. unfold outcome at 1, this. cbn [fst]. apply outcome_lift_step; [intros _ _|intros e _; by left].
  apply outcome_journal. eapply outcome_weaken; [eapply outcome_and; [by eapply append_outcome|apply append_cutoff]| |].
  - intros e [aj d] [[Hlv' ->] Hcut]. cbn [fst snd] in *. split_and!; [|done..]. split; [by apply committed_journal| |done].
    unfold aligned. cbn [with_journal ms_journal ms_current]. by rewrite Hcut, <-Ha.
  - intros e [aj d] [[[-> Hlv']|(Hw & Hh & Ho)] _]; cbn [fst snd] in *.
    + left. assert (record_active_error (with_journal (ms_journal s) s) = s) as ->; [|done].
      destruct Hlv' as [_ _ Hw _ _ _ _]. unfold record_active_error. cbn [with_journal ms_journal]. rewrite Hw. by destruct s.
    + right. split; [by apply active_error_stops|]. split_and!; [done|by apply committed_recovers|]. exists k. split; [done|].
      intros x ->%list_elem_of_singleton. exists k. split; [done|]. destruct Hcov as (C1 & C2 & C3).
      split_and!; [rewrite length_app; lia|done..|]. by rewrite take_app_le.
Qed.

(** The root a barrier publishes for the records of the journal. *)
Lemma store_sync_outcome s w H k pending :
  serving s w H k → sectors (w_disk w) →
  outcome (store_sync_pending pending) (s, w)
    (λ ans st, serving st.1 st.2 H (length H) ∧ ans = (commit st.1, ms_retry st.1) ∧ ms_registry st.1 = ms_registry s ∧
       mf_sequence_floor (ms_current st.1) = mf_sequence_floor (ms_current s))
    (λ _ st, st = (s, w) ∨ (ms_write_state st.1 ≠ Writable ∧ ∃ xs, left_with st.2 H (root_of s :: xs) ∧
       ∀ x, x ∈ xs → r_registry x = ms_registry s ∧ covers_records H (length H) (mf_cutoff (r_manifest x)))).
Proof using Hi Hl Hf.
  intros Hs Hsec. pose proof (serving_covers _ _ _ _ Hs) as Hcov. pose proof Hs as [Hc Ha Hlv]. unfold store_sync_pending.
  rewrite outcome_bind. unfold outcome at 1, this. cbn [fst]. apply outcome_lift_step; [intros _ _|intros e _; by left].
  apply outcome_refuse_step; [intros _|by left]. destruct (pending_durable_cutoff (ms_journal s)) as [cutoff|] eqn:Ep; [|by left].
  cbn [map_err]. rewrite outcome_bind. cbn [lift outcome]. case_decide as Hcut.
  { apply outcome_refuse_step; [intros _|by left]. unfold outcome, mret, M_ret. cbn [fst snd].
    rewrite <-(pending_current _ _ _ _ _ Hlv Ep); [done|]. by rewrite Hcut, <-Ha. }
  apply outcome_lift_step; [|intros e _; by left]. intros plan Hplan. destruct (prepare_barrier _ _ _ _ _ Hc Hplan) as (public & Hpb).
  rewrite outcome_bind. apply outcome_journal. eapply outcome_weaken; [by eapply (sync_outcome i floor limits Hi Hl Hf)| |].
  - intros c [aj d] (Hlv' & Ec & Ep'). cbn [fst snd] in *. rewrite Ep in Ep'. injection Ep' as <-.
    rewrite outcome_bind. apply outcome_recorded. unfold outcome, refuse_if. rewrite (pb_cutoff _ _ _ _ _ Hpb), decide_False by (intros E; by apply E).
    cbn [fst snd]. eapply outcome_weaken; [eapply commit_outcome; [by apply committed_journal|by apply prepared_journal]| |].
    + intros ans [s2 w2] (-> & -> & Hcom & Hb). cbn [fst snd] in *. split_and!; [|done..].
      assert (live aj (w_disk w2) H (length H)) as Hlv2 by by eapply live_beside.
      split; [done| |done]. unfold aligned. cbn. by rewrite Ec.
    + intros e [s2 w2] (Hw & Hb & Hr). cbn [fst snd] in *. right. split; [done|].
      assert (live aj (w_disk w2) H (length H)) as Hlv2 by by eapply live_beside.
      destruct (live_left _ _ _ _ _ _ _ Hlv2) as [Hh Ho]. pose proof (live_covers _ _ _ _ Hlv2) as Hnew. rewrite <-Ec in Hnew.
      eexists [_]. split; [split_and!; [done|exact Hr|exists (length H); split; [done|]]|].
      * intros x [->| ->%list_elem_of_singleton]%elem_of_cons; [exists k; split; [apply Hcov|done]|by exists (length H)].
      * by intros x ->%list_elem_of_singleton.
  - intros e [aj d] (_ & Hw & Ho & k' & Hk' & Hh). right. cbn [fst snd] in *. split; [by apply active_error_stops|]. exists [].
    split; [|by intros x []%not_elem_of_nil]. split_and!; [done|by apply committed_recovers|]. exists k'. split; [done|].
    intros x ->%list_elem_of_singleton. by exists k.
Qed.

End journal.
End barrier.
