(* ===== verification/Inventory.v ===== *)
(** * The inventory of a store directory

    [och-store/src/manifest.rs]: the bounded listing of the directory, the
    read-only preflight that recognizes an empty directory, an interrupted
    creation or a store of the current format, the checks of the inventory against
    a genesis and against a manifest, and the publication and the convergence of
    the format marker. *)

From Stdlib Require Import Strings.String.
From S2P Require Import Prelude Bytes Identity Series Registry Layout Crc Commit Journal Generation Retry RetryCodec Recovery.
From S2P Require Import Active Scan Effects Disk Segment Manifest RegistryReplay RegistryCodec Directory Publish Roots.

Definition MAX_INVENTORY_ENTRIES : Z := 91.

(** ** Configuration *)

Record ManifestStoreConfig := mkStoreConfig {
  sc_directory : list byte;
  sc_store_id : StoreId;
  sc_mode : ActiveJournalOpenMode;
  sc_journal_limits : ActiveJournalLimits;
  sc_registry : SeriesRegistryLimits;
  sc_retry : RetryPersistenceOptions }.
Definition store_config_new (directory : list byte) (store_id : StoreId) (mode : ActiveJournalOpenMode)
    (journal_limits : ActiveJournalLimits) (registry : SeriesRegistryLimits) (retry : RetryPersistenceOptions)
  : result ManifestStoreError ManifestStoreConfig :=
  let! _ := map_err MseActive (config_new directory store_id mode journal_limits) in
  if decide (max_series registry > MAX_PERSISTED_REGISTRY_SERIES ∨
             max_declaration_revisions registry > MAX_PERSISTED_REGISTRY_REVISIONS)
  then Err MseInvalidOptions
  else Ok (mkStoreConfig directory store_id mode journal_limits registry retry).

(** ** The listing *)

(** What the name of an entry says it is. *)
Inductive artifact : Set :=
| StoreFormatMarker | StoreFormatStaging | StoreLock | ManifestStaging | RegistryStaging | RetryStaging
| RecoveryStaging | RotationStaging | RegistrySlot | RetrySlot | CatalogSlot | RecoverySlot | IntentFile
| SealedJournal (generation : Z) | JournalFile (generation : Z) | CheckpointFile (generation : Z) | ManifestSlot.
#[export] Instance artifact_eq_dec : EqDecision artifact.
Proof. solve_decision. Defined.

Definition classify_name (name : list byte) : option artifact :=
  if decide (name = STORE_FORMAT_FILE_NAME) then Some StoreFormatMarker
  else if decide (name = STORE_FORMAT_STAGING_FILE_NAME) then Some StoreFormatStaging
  else if decide (name = STORE_LOCK_FILE_NAME) then Some StoreLock
  else if decide (name = MANIFEST_STAGING_FILE_NAME) then Some ManifestStaging
  else if decide (name = REGISTRY_STAGING_FILE_NAME) then Some RegistryStaging
  else if decide (name = RETRY_STAGING_FILE_NAME) then Some RetryStaging
  else if decide (name = RECOVERY_STAGING_FILE_NAME) then Some RecoveryStaging
  else if decide (name = GENERATION_CATALOG_STAGING_FILE_NAME ∨ name = SEALED_JOURNAL_STAGING_FILE_NAME)
  then Some RotationStaging
  else if decide (name ∈ REGISTRY_SLOT_NAMES) then Some RegistrySlot
  else if decide (name ∈ RETRY_SLOT_NAMES) then Some RetrySlot
  else if decide (name ∈ CATALOG_SLOT_NAMES) then Some CatalogSlot
  else if decide (name ∈ RECOVERY_SLOT_NAMES) then Some RecoverySlot
  else if decide (name = ROTATION_INTENT_FILE_NAME) then Some IntentFile
  else match parse_sealed_generation_name name with
  | Some generation => Some (SealedJournal generation)
  | None =>
    match parse_active_journal_generation_name name with
    | Some generation => Some (JournalFile generation)
    | None =>
      match parse_active_checkpoint_generation_name name with
      | Some generation => Some (CheckpointFile generation)
      | None =>
        if decide (name = ACTIVE_JOURNAL_FILE_NAME) then Some (JournalFile ACTIVE_JOURNAL_GENERATION)
        else if decide (name = ACTIVE_CHECKPOINT_FILE_NAME) then Some (CheckpointFile ACTIVE_JOURNAL_GENERATION)
        else if decide (name ∈ MANIFEST_SLOT_NAMES) then Some ManifestSlot
        else None
      end
    end
  end.

Record Inventory := mkInventory {
  iv_entries : Z;
  iv_store_format : bool;
  iv_store_format_staging : bool;
  iv_registry_staging : bool;
  iv_retry_staging : bool;
  iv_recovery_staging : bool;
  iv_rotation_staging : bool;
  iv_registry_slots : Z;
  iv_retry_slots : Z;
  iv_manifest_slots : Z;
  iv_catalog_slots : Z;
  iv_recovery_slots : Z;
  iv_rotation_intent : bool;
  iv_store_lock : bool;
  iv_active_journals : list Z;
  iv_active_checkpoints : list Z;
  iv_sealed_generations : list Z }.

Definition occurs (a : artifact) (found : list artifact) : bool := bool_decide (a ∈ found).
Definition occurrences (a : artifact) (found : list artifact) : Z := len (filter (a =.) found).
Definition journal_of (a : artifact) : option Z := match a with JournalFile g => Some g | _ => None end.
Definition checkpoint_of (a : artifact) : option Z := match a with CheckpointFile g => Some g | _ => None end.
Definition sealed_of (a : artifact) : option Z := match a with SealedJournal g => Some g | _ => None end.
(** [sort_unstable] of the generations of one kind. *)
Definition generations (kind : artifact → option Z) (found : list artifact) : list Z := merge_sort Z.le (omap kind found).
(** What the loop has counted once every entry was classified. *)
Definition inventory_of (found : list artifact) : Inventory :=
  mkInventory (len found) (occurs StoreFormatMarker found) (occurs StoreFormatStaging found)
    (occurs RegistryStaging found) (occurs RetryStaging found) (occurs RecoveryStaging found)
    (occurs RotationStaging found) (occurrences RegistrySlot found) (occurrences RetrySlot found)
    (occurrences ManifestSlot found) (occurrences CatalogSlot found) (occurrences RecoverySlot found)
    (occurs IntentFile found) (occurs StoreLock found) (generations journal_of found)
    (generations checkpoint_of found) (generations sealed_of found).

(** Inspecting the directory: nothing but a failure. *)
Definition dir_event : M world IoError () := dir_op (λ d, (Ok tt, d)) dir_same.
(** The loop over the entries; each of them may fail to be read or inspected. *)
Fixpoint classify_entries (names : list (list byte)) (count sealed : Z) : StoreOp (list artifact) :=
  match names with
  | [] => mret []
  | name :: names =>
    let count := count + 1 in
    _ ← refuse_if (count > MAX_INVENTORY_ENTRIES) MseInvalidInventory;
    _ ← mio MioReadInventory dir_event;
    _ ← mio MioReadInventory dir_event;
    found ← lift (ok_or (classify_name name) MseInvalidInventory);
    let sealed := if decide (is_Some (sealed_of found)) then sealed + 1 else sealed in
    _ ← refuse_if (sealed > MAX_SEALED_GENERATIONS) MseInvalidInventory;
    rest ← classify_entries names count sealed;
    mret (found :: rest)
  end.
(** The entries of both parts of the directory, in some order. *)
Definition entry_names (w : world) : list (list byte) := elements (dom (dk_files (w_disk w)) ∪ dom (dr_now (w_dir w))).
Definition inspect_inventory : StoreOp Inventory :=
  _ ← mio MioReadInventory dir_event;
  w ← get;
  found ← classify_entries (entry_names w) 0 0;
  mret (inventory_of found).

(** ** Checks of the inventory *)

Definition validate_genesis_inventory (inventory : Inventory) : result ManifestStoreError () :=
  let active_is_valid :=
    bool_decide (iv_active_journals inventory = [] ∧ iv_active_checkpoints inventory = []) ||
    bool_decide (iv_active_journals inventory = [ACTIVE_JOURNAL_GENERATION] ∧
                 (iv_active_checkpoints inventory = [] ∨ iv_active_checkpoints inventory = [ACTIVE_JOURNAL_GENERATION])) in
  if decide (¬ active_is_valid ∨ iv_sealed_generations inventory ≠ [] ∨ iv_catalog_slots inventory ≠ 0 ∨
             iv_recovery_slots inventory ≠ 0 ∨ iv_recovery_staging inventory ∨ iv_rotation_intent inventory ∨
             iv_rotation_staging inventory)
  then Err MseUnsupportedStoreFormat
  else Ok tt.

Definition validate_generation_inventory (inventory : Inventory) (current : ManifestRecord)
    (catalog : GenerationCatalogSnapshot) (intent : option RotationIntent) : result ManifestStoreError () :=
  let active := mf_journal current in
  let! other :=
    match intent with
    | None => Ok []
    | Some intent =>
      if decide (active = ri_source_generation intent) then
        Ok (if decide (ri_successor_generation intent ∈ iv_active_journals inventory ∨
                       ri_successor_generation intent ∈ iv_active_checkpoints inventory)
            then [ri_successor_generation intent] else [])
      else if decide (active = ri_successor_generation intent) then
        Ok (if decide (ri_source_generation intent ∈ iv_active_journals inventory)
            then [ri_source_generation intent] else [])
      else Err MseInvalidGeneration
    end in
  let allowed_active := merge_sort Z.le (active :: other) in
  if decide (iv_active_journals inventory ≠ allowed_active) then Err MseInvalidInventory
  else
    let allowed_checkpoints :=
      match intent with
      | Some intent =>
        if decide (active = ri_successor_generation intent) then
          (if decide (ri_source_generation intent ∈ iv_active_checkpoints inventory)
           then merge_sort Z.le [active; ri_source_generation intent] else [active])
        else allowed_active
      | None => allowed_active
      end in
    if decide (iv_active_checkpoints inventory ≠ allowed_checkpoints) then Err MseInvalidInventory
    else
      let allowed_sealed := (sg_journal_generation <$> cs_entries catalog) ++
        match intent with
        | Some intent =>
          if decide (active = ri_source_generation intent ∧ ri_source_generation intent ∈ iv_sealed_generations inventory)
          then [ri_source_generation intent] else []
        | None => []
        end in
      if decide (iv_sealed_generations inventory ≠ allowed_sealed) then Err MseInvalidInventory else Ok tt.

(** ** Preflight *)

Inductive FormatPreflight : Set := EmptyCreate | MarkerStaging | CurrentFormat.
#[export] Instance FormatPreflight_eq_dec : EqDecision FormatPreflight.
Proof. solve_decision. Defined.

(** An operation on the journal's part of the directory. *)
Definition on_disk {A} (m : M disk IoError A) : M world IoError A := λ w,
  let '(r, d) := m (w_disk w) in (r, mkWorld d (w_dir w)).

(** [bytes.len() != LEN || bytes[..8] != MAGIC || version || record length]. *)
Definition foreign_manifest (bytes : list byte) : bool :=
  bool_decide (len bytes ≠ MANIFEST_LEN ∨ slice 0 8 bytes ≠ MANIFEST_MAGIC ∨ u16_at 8 bytes ≠ MANIFEST_VERSION ∨
               u16_at 10 bytes ≠ MANIFEST_LEN).
Definition preflight_manifest_slot (name : list byte) (store_id : StoreId) : StoreOp (option ManifestRecord) :=
  bytes ← read_optional_bounded name MANIFEST_LEN;
  match bytes with
  | None => mret None
  | Some bytes =>
    _ ← refuse_if (foreign_manifest bytes) MseUnsupportedStoreFormat;
    record ← lift (decode_manifest bytes store_id);
    mret (Some record)
  end.
Definition header_of_store (store_id : StoreId) (header : list byte) : bool :=
  match header_decode header with Ok decoded => bool_decide (header_store_id decoded = store_id) | Err _ => false end.
Definition preflight_journal (store_id : StoreId) (generation : Z) : StoreOp () :=
  let name := active_journal_file_name generation in
  _ ← mio MioRead (on_disk (open_existing_file name));
  length ← mio MioMetadata (on_disk (file_len name));
  _ ← refuse_if (length < JOURNAL_V1_HEADER_LEN) MseUnsupportedStoreFormat;
  header ← mio MioRead (on_disk (read_exact name 0 JOURNAL_V1_HEADER_LEN));
  refuse_if (slice 0 8 header ≠ JOURNAL_V1_HEADER_MAGIC ∨ u16_at 8 header ≠ JOURNAL_V1_VERSION ∨
             ¬ header_of_store store_id header) MseUnsupportedStoreFormat.
Definition preflight_retry_error (error : RetryStateCodecError) : ManifestStoreError :=
  match error with
  | RetryOptionsMismatch => MseInvalidRetry
  | RetryStoreMismatch => MseStoreMismatch
  | RetryInvalid => MseUnsupportedStoreFormat
  end.
(** A staging file: any failure but that of the device is an interruption. *)
Definition preflight_staging (name : list byte) (maximum : Z) (accept : list byte → bool) : StoreOp () := λ w,
  match read_optional_bounded name maximum w with
  | (Ok (Some bytes), w) => if accept bytes then (Ok tt, w) else (Err MseInterruptedPublication, w)
  | (Ok None, w) => (Ok tt, w)
  | (Err (MseIo evidence), w) => (Err (MseIo evidence), w)
  | (Err _, w) => (Err MseInterruptedPublication, w)
  end.
Definition preflight_current_artifact_versions (c : ManifestStoreConfig) (inventory : Inventory) : StoreOp () :=
  first ← preflight_manifest_slot (nth 0 MANIFEST_SLOT_NAMES []) (sc_store_id c);
  second ← preflight_manifest_slot (nth 1 MANIFEST_SLOT_NAMES []) (sc_store_id c);
  _ ← lift (select_current_manifest (first, second));
  _ ← each (preflight_journal (sc_store_id c)) (iv_active_journals inventory);
  _ ← each_slot RETRY_SLOT_NAMES MAX_RETRY_STATE_BYTES 0 (λ slot bytes (_ : ()),
        _ ← refuse_if (len bytes < RETRY_HEADER_LEN + 4 ∨ slice 0 8 bytes ≠ RETRY_MAGIC ∨ u16_at 8 bytes ≠ RETRY_VERSION)
              MseUnsupportedStoreFormat;
        _ ← lift (map_err preflight_retry_error (decode_retry_state_at_slot bytes slot (sc_store_id c) (sc_retry c)));
        mret tt) tt;
  _ ← each_slot RECOVERY_SLOT_NAMES RECOVERY_STATE_LEN 0 (λ _ bytes (_ : ()),
        _ ← lift (map_err map_recovery_codec (decode_recovery_state bytes (sc_store_id c)));
        mret tt) tt;
  _ ← preflight_staging RECOVERY_STAGING_FILE_NAME RECOVERY_STATE_LEN
        (λ bytes, is_ok (decode_recovery_state bytes (sc_store_id c)));
  preflight_staging MANIFEST_STAGING_FILE_NAME MANIFEST_LEN (λ bytes, negb (foreign_manifest bytes)).

(** [.map_err(|_| UnsupportedStoreFormat)], and the same but for the device's errors. *)
Definition unsupported {A} (m : StoreOp A) : StoreOp A := map_err_m (λ _, MseUnsupportedStoreFormat) m.
Definition unsupported_but_io {A} (m : StoreOp A) : StoreOp A :=
  map_err_m (λ error, match error with MseIo evidence => MseIo evidence | _ => MseUnsupportedStoreFormat end) m.
Definition preflight_store_format (c : ManifestStoreConfig) : StoreOp FormatPreflight :=
  inventory ← unsupported_but_io inspect_inventory;
  if decide (iv_entries inventory = 0) then
    if decide (sc_mode c = CreateNew) then mret EmptyCreate else fail MseUnsupportedStoreFormat
  else
    _ ← refuse_if (¬ iv_store_lock inventory ∨ iv_store_format inventory = iv_store_format_staging inventory ∨
                   (¬ iv_store_format inventory ∧ iv_entries inventory ≠ 2)) MseUnsupportedStoreFormat;
    marker ← unsupported (read_required_bounded (if iv_store_format inventory then STORE_FORMAT_FILE_NAME
                                                 else STORE_FORMAT_STAGING_FILE_NAME) STORE_FORMAT_LEN);
    _ ← lift (decode_store_format_marker marker (sc_store_id c));
    if iv_store_format_staging inventory then mret MarkerStaging
    else
      _ ← preflight_current_artifact_versions c inventory;
      _ ← refuse_if (sc_mode c = CreateNew ∧ iv_manifest_slots inventory ≠ 0) MseInvalidInventory;
      mret CurrentFormat.

(** The records of a genesis encode, before anything is written. *)
Definition preflight_genesis_records (c : ManifestStoreConfig) : result ManifestStoreError () :=
  let! registry_bytes := encode_registry_snapshot 1 (snapshot (registry_new (sc_store_id c) (sc_registry c))) in
  let registry := mkRegistryReference 0 1 (len registry_bytes) (crc32c registry_bytes) in
  let retry_public := mkRetryReference 0 1 in
  let! retry_bytes := map_err map_retry_codec (encode_retry_state (empty_persisted (sc_store_id c) (sc_retry c) retry_public)) in
  let retry := mkRetryArtifact retry_public (len retry_bytes) (crc32c retry_bytes) in
  let manifest := mkManifest 1 registry (genesis_placeholder (sc_store_id c)) retry None 0 None in
  if decide (len (encode_manifest manifest) ≠ MANIFEST_LEN) then Err MseInvalidManifest else Ok tt.

(** ** The format marker *)

Definition publish_store_format_marker (store_id : StoreId) : StoreOp () :=
  publish_reusable_slot STORE_FORMAT_STAGING_FILE_NAME STORE_FORMAT_FILE_NAME (encode_store_format_marker store_id)
    STORE_FORMAT_LEN (λ candidate, decode_store_format_marker candidate store_id).

(** [Path::try_exists]. *)
Definition dir_exists (name : list byte) : M world IoError bool :=
  dir_op (λ d, (Ok (bool_decide (is_Some (dr_now d !! name))), d)) dir_same.
Definition converge_store_format_marker (store_id : StoreId) : StoreOp () :=
  exists_ ← mio MioMetadata (dir_exists STORE_FORMAT_FILE_NAME);
  _ ← refuse_if (Is_true exists_) MseUnsupportedStoreFormat;
  bytes ← unsupported (read_required_bounded STORE_FORMAT_STAGING_FILE_NAME STORE_FORMAT_LEN);
  _ ← lift (decode_store_format_marker bytes store_id);
  _ ← mio MioPublish (dir_rename STORE_FORMAT_STAGING_FILE_NAME STORE_FORMAT_FILE_NAME);
  mio MioSyncDirectory world_sync.

(** ** Lemmas: the listing *)

(** What the listing of some names answers when nothing fails. *)
Definition listed (names : list (list byte)) : list artifact := omap classify_name names.
Definition listable (names : list (list byte)) : Prop :=
  Forall (λ name, is_Some (classify_name name)) names ∧ len names ≤ MAX_INVENTORY_ENTRIES ∧
  len (omap sealed_of (listed names)) ≤ MAX_SEALED_GENERATIONS.

#[export] Instance listable_dec names : Decision (listable names).
Proof. unfold listable. apply _. Defined.

Lemma dir_event_quiet op w : quiet (w_disk w) → mio op dir_event w = (Ok tt, w).
Proof.
  intros Hq. unfold mio, map_err_m, dir_event, dir_op, io_op. rewrite Hq. by destruct w.
Qed.
Lemma classify_entries_quiet names w : ∀ count sealed,
  quiet (w_disk w) → count ≤ MAX_INVENTORY_ENTRIES → sealed ≤ MAX_SEALED_GENERATIONS →
  let fits := Forall (λ name, is_Some (classify_name name)) names ∧ count + len names ≤ MAX_INVENTORY_ENTRIES ∧
              sealed + len (omap sealed_of (listed names)) ≤ MAX_SEALED_GENERATIONS in
  (fits → classify_entries names count sealed w = (Ok (listed names), w)) ∧
  (¬ fits → classify_entries names count sealed w = (Err MseInvalidInventory, w)).
Proof.
  induction names as [|name names IH]; intros count sealed Hq Hc Hs fits; subst fits; cbn [classify_entries].
  { split; [done|]. intros []. split_and!; [by apply Forall_nil_2|by change (len []) with 0; rewrite Z.add_0_r..]. }
  unfold mbind, M_bind, refuse_if, mret, M_ret. pose proof (len_nonneg names). rewrite len_cons.
  change (listed (name :: names)) with (match classify_name name with Some a => a :: listed names | None => listed names end). case_decide as Hmax.
  { split; [intros (_ & ? & _); lia|done]. }
  cbv beta iota. rewrite !dir_event_quiet by done. cbv beta iota. unfold lift, ok_or. destruct (classify_name name) as [a|] eqn:Ea.
  2:{ split; [intros (Hf & _); apply Forall_cons in Hf as [[? Hf] _]; congruence|done]. }
  set (sealed' := if decide (is_Some (sealed_of a)) then sealed + 1 else sealed).
  assert (sealed' + len (omap sealed_of (listed names)) = sealed + len (omap sealed_of (a :: listed names)) ∧ sealed ≤ sealed') as [Es Hle].
  { unfold sealed'.
    change (omap sealed_of (a :: listed names)) with (match sealed_of a with Some g => g :: omap sealed_of (listed names) | None => omap sealed_of (listed names) end).
    destruct (sealed_of a) as [g|]; [rewrite decide_True by (by eexists); rewrite len_cons; lia|].
    rewrite decide_False by (by intros [? ?]). lia. }
  pose proof (len_nonneg (omap sealed_of (listed names))). case_decide as Hsm.
  { split; [intros (_ & _ & ?); lia|done]. }
  destruct (IH (count + 1) sealed' Hq ltac:(lia) ltac:(lia)) as [Hok Herr]. split.
  - intros (Hf & H1 & H2). apply Forall_cons in Hf as [_ Hf]. rewrite Hok by (split_and!; [done|lia|lia]). done.
  - intros Hn. rewrite Herr; [done|]. intros (Hf & H1 & H2). apply Hn. split_and!; [|lia|lia]. apply Forall_cons. by split.
Qed.

(** The inventory does not depend on the order of the listing. *)
#[export] Instance inventory_proper : Proper ((≡ₚ) ==> (=)) inventory_of.
Proof.
  intros l l' Hp. unfold inventory_of.
  assert (∀ kind, generations kind l = generations kind l') as Hg.
  { intros kind. unfold generations. apply (Sorted_unique Z.le); [apply Sorted_merge_sort, _..|]. by rewrite !merge_sort_Permutation, Hp. }
  assert (∀ a, occurs a l = occurs a l') as Ho by (intros a; unfold occurs; apply bool_decide_ext; by rewrite Hp).
  assert (∀ a, occurrences a l = occurrences a l') as Hc by (intros a; unfold occurrences, len; by rewrite Hp).
  assert (len l = len l') as Hlen by (unfold len; by rewrite Hp).
  by rewrite !Hg, !Ho, !Hc, Hlen.
Qed.

(** ** Properties *)

(** C16: The inventory of a directory is exact. When nothing fails, whatever the order
    in which the directory lists its entries, the inspection accepts exactly the
    listings of at most 91 known names with at most 64 sealed journals, changes
    nothing, and answers the inventory of those names. *)
Theorem inventory_exact w names (Hquiet : quiet (w_disk w)) (Hnames : names ≡ₚ entry_names w) :
  (listable names → inspect_inventory w = (Ok (inventory_of (listed names)), w)) ∧
  (¬ listable names → inspect_inventory w = (Err MseInvalidInventory, w)).
Proof.
  assert (listed names ≡ₚ listed (entry_names w)) as Hl by (unfold listed; by rewrite Hnames).
  destruct (classify_entries_quiet (entry_names w) w 0 0 Hquiet) as [Hok Herr]; [done..|].
  assert (listable names ↔ listable (entry_names w)) as He by (unfold listable, len; by rewrite Hl, Hnames).
  unfold inspect_inventory, mbind, M_bind, get. rewrite dir_event_quiet by done. split; intros H.
  - rewrite Hok by (by apply He). unfold mret, M_ret. by rewrite Hl.
  - by rewrite Herr by (intros ?; by apply H, He).
Qed.
Lemma inventory_exact_witness :
  let w := mkWorld (mkDisk {[ACTIVE_JOURNAL_FILE_NAME := mkFile [] []; ACTIVE_CHECKPOINT_FILE_NAME := mkFile [] []]} ∅ false [])
    (mkDir {[STORE_LOCK_FILE_NAME := settled []; nth 1 REGISTRY_SLOT_NAMES [] := settled []]} []) in
  inspect_inventory w = (Ok (inventory_of [StoreLock; RegistrySlot; JournalFile 1; CheckpointFile 1]), w).
Proof.
  intros w. assert (listable (entry_names w)) as H.
  { apply (bool_decide_unpack _). by vm_compute. }
  rewrite (proj1 (inventory_exact w (entry_names w) eq_refl (reflexivity _)) H). by vm_compute.
Defined.

(** A file that was not settled is torn, the others are kept. *)
Lemma torn_survives name bytes now :
  dir_survives (mkDir (<[name := mkSfile bytes false]> (settled <$> now)) []) (mkDir (<[name := settled []]> (settled <$> now)) []).
Proof.
  split; [done|]. intros n. eexists. split; [by left|]. cbn [dr_now].
  destruct (decide (n = name)) as [->|Hn]; [rewrite !lookup_insert_eq; constructor|].
  rewrite !lookup_insert_ne, lookup_fmap by done. destruct (now !! n); constructor.
Qed.
Definition marker_config : ManifestStoreConfig :=
  mkStoreConfig [] (sample_id 0) OpenExisting (mkActiveLimits 4096 65536 8) (mkLimits 2 4) (mkOptions 2 2).
Definition marker_interrupted : io_event := IoFailed 0 (mkIoError StorageFull None).
Definition marker_directory (markers : gmap (list byte) sfile) : dir := mkDir (markers ∪ {[STORE_LOCK_FILE_NAME := settled []]}) [].
(** The synchronization of the staging file fails, and ends the creation. *)
Definition marker_staged :=
  publish_store_format_marker (sample_id 0) (mkWorld (mkDisk ∅ ∅ false [IoDone; IoDone; marker_interrupted]) (marker_directory ∅)).
Definition marker_converged := converge_store_format_marker (sample_id 0) marker_staged.2.
Definition marker_left (marker : sfile) : dir := mkDir (<[STORE_FORMAT_FILE_NAME := marker]> (settled <$> {[STORE_LOCK_FILE_NAME := []]})) [].
Definition marker_torn : world := mkWorld (w_disk marker_converged.2) (marker_directory {[STORE_FORMAT_FILE_NAME := settled []]}).

(** C39: The marker of an interrupted creation is not settled by the open that
    completes it. The creation wrote the staging marker and failed to synchronize it;
    the next open recognizes it, renames it and succeeds; then power is lost: the
    directory may be left with a torn marker under its final name, and no later open
    recognizes it as a store. *)
Theorem marker_convergence_unsynchronized :
  is_ok marker_staged.1 = false ∧
  (preflight_store_format marker_config marker_staged.2).1 = Ok MarkerStaging ∧
  marker_converged.1 = Ok tt ∧
  dir_survives (w_dir marker_converged.2) (w_dir marker_torn) ∧
  (preflight_store_format marker_config marker_torn).1 = Err MseUnsupportedStoreFormat.
Proof.
  split; [vm_compute; reflexivity|]. split; [vm_compute; reflexivity|]. split; [vm_compute; reflexivity|].
  split; [|vm_compute; reflexivity].
  replace (w_dir marker_converged.2) with (marker_left (mkSfile (encode_store_format_marker (sample_id 0)) false)) by (vm_compute; reflexivity).
  replace (w_dir marker_torn) with (marker_left (settled [])) by (vm_compute; reflexivity). apply torn_survives.
Qed.
