(* ===== verification/Genesis.v ===== *)
(** * Creating a store

    [och-store/src/manifest.rs], [ManifestStore::initialize_genesis]: the active
    journal, the first registry snapshot, the first retry state and the first
    manifest of a store, or what an interrupted creation left of them; and what a
    creation leaves in a directory that showed no slot before, whatever fails. *)

From S2P Require Import Prelude Bytes Identity Series Collection Registry Admission Wire Layout Crc Commit Journal Generation Retry RetryCodec Recovery.
From S2P Require Import Active Scan Effects Crash Reopen Handle Restart Disk Segment Manifest RegistryReplay RegistryCodec.
From S2P Require Import Directory Publish Roots Store Committed Custody RetryRoot Commitment Barrier Inventory.

(** ** Genesis *)

(** A method of the journal's part, its error under [ManifestStoreError::Active]. *)
Definition journal_op {A} (m : Op A) : StoreOp A := λ w,
  let '(r, d) := m (w_disk w) in (map_err MseActive r, mkWorld d (w_dir w)).
Definition map_manifest_genesis_preflight (error : ActiveJournalError) : ManifestStoreError :=
  match error with Io _ | StoragePressure _ => MseActive error | _ => MseUnsupportedStoreFormat end.
Definition genesis_preflight (store_id : StoreId) : StoreOp () := λ w,
  let '(r, d) := preflight_manifest_genesis store_id (w_disk w) in
  (map_err map_manifest_genesis_preflight r, mkWorld d (w_dir w)).

Definition publish_registry_snapshot (s : ManifestStore) (generation : Z) (after : SeriesRegistrySnapshot)
  : StoreOp RegistryReference :=
  prepared ← lift (prepare_registry_snapshot s generation after);
  _ ← publish_prepared_registry_snapshot after prepared;
  mret (pr_reference prepared).
Definition publish_retry_snapshot (s : ManifestStore) (public : RetryStateReference) (state : RetryStateSnapshot)
  : StoreOp RetryArtifactReference :=
  prepared ← lift (prepare_retry_snapshot s public state);
  _ ← publish_prepared_retry_snapshot state prepared;
  mret (pt_reference prepared).
Definition publish_manifest (s : ManifestStore) (record : ManifestRecord) : StoreOp nat :=
  prepared ← lift (prepare_manifest s record);
  publish_prepared_manifest (ms_store_id s) prepared.

Definition genesis_journal (c : ManifestStoreConfig) (inventory : Inventory) : StoreOp ActiveJournal :=
  let strict_create := bool_decide (iv_active_journals inventory = []) in
  let mode := if strict_create then CreateNew else OpenExisting in
  active_config ← lift (map_err MseActive (config_new (sc_directory c) (sc_store_id c) mode (sc_journal_limits c)));
  active_config ← (if strict_create then mret (manifest_create active_config)
                   else _ ← genesis_preflight (sc_store_id c); mret (manifest_genesis active_config));
  journal_op (open active_config).
(** The handle while nothing is published. *)
Definition unpublished (c : ManifestStoreConfig) (journal : ActiveJournal) (slots : manifest_slots) : ManifestStore :=
  mkStore journal (registry_new (sc_store_id c) (sc_registry c)) (state_empty (sc_store_id c) (sc_retry c))
    (catalog_empty (sc_store_id c)) None slots 0
    (mkManifest 0 (mkRegistryReference 0 0 0 0) (genesis_placeholder (sc_store_id c))
       (mkRetryArtifact (mkRetryReference 0 0) 0 0) None 0 None) Writable.
Definition genesis_registry (s : ManifestStore) (inventory : Inventory) : StoreOp RegistryReference :=
  if decide (iv_registry_slots inventory = 0) then publish_registry_snapshot s 1 (snapshot (ms_registry s))
  else read_interrupted_genesis_registry (snapshot (ms_registry s)).
Definition genesis_retry (s : ManifestStore) (c : ManifestStoreConfig) (inventory : Inventory) : StoreOp RetryArtifactReference :=
  if decide (iv_retry_slots inventory = 0) then
    let reference := mkRetryReference 0 1 in
    publish_retry_snapshot s reference (empty_persisted (st_store_id (ms_retry s)) (st_options (ms_retry s)) reference)
  else read_interrupted_genesis_retry (sc_store_id c) (sc_retry c).
Definition initialize_genesis (c : ManifestStoreConfig) (inventory : Inventory) (slots : manifest_slots) : StoreOp ManifestStore :=
  _ ← lift (validate_genesis_inventory inventory);
  journal ← genesis_journal c inventory;
  _ ← refuse_if (aj_records journal ≠ [] ∨ durable_cutoff journal ≠ genesis_placeholder (sc_store_id c)) MseUnsupportedStoreFormat;
  let s := unpublished c journal slots in
  registry_reference ← genesis_registry s inventory;
  retry_reference ← genesis_retry s c inventory;
  let record := mkManifest 1 registry_reference (durable_cutoff journal) retry_reference None 0 None in
  retry ← read_referenced_retry record (sc_store_id c) (sc_retry c) (ms_catalog s);
  let s := with_retry retry s in
  slot ← publish_manifest s record;
  mret (adopt_published_manifest slot record (set_slot slot record slots) s).

(** ** What it leaves *)

Section genesis.
Context (c : ManifestStoreConfig).
Local Abbreviation store := (sc_store_id c).
Local Abbreviation options := (sc_retry c).
Local Abbreviation limits := (sc_journal_limits c).
Definition genesis_identity : JournalIdentity := mkJournalIdentity store ACTIVE_JOURNAL_GENERATION.
Context (Hs : wf store) (Hl : wf limits) (Hr : wf (sc_registry c)).
Local Abbreviation serving := (serving store options genesis_identity 0 limits).

(** The root of a new store. *)
Record genesis_root (x : root) : Prop := {
  gn_manifest : mf_generation (r_manifest x) = 1 ∧ mf_cutoff (r_manifest x) = genesis_placeholder store;
  gn_registry : r_registry x = registry_new store (sc_registry c);
  gn_retry : r_retry x = empty_persisted store options (mkRetryReference 0 1);
  gn_catalog : r_catalog x = catalog_empty store }.
(** A directory that never showed a manifest, and an inventory without artifacts. *)
Definition untouched (d : dir) : Prop := ∀ j, (j < 2)%nat → shows d (manifest_file j) (λ o, o = None).
Definition blank (inventory : Inventory) : Prop :=
  iv_active_journals inventory = [] ∧ iv_registry_slots inventory = 0 ∧ iv_retry_slots inventory = 0.
(** After a creation that failed: no manifest, or the new store. *)
Definition unborn (d : dir) : Prop := ∀ d', crashed d d' →
  now_stands (dr_now d') (None, None) ∨ ∃ x, genesis_root x ∧ reads store options (dr_now d') x.

Lemma untouched_unborn d : untouched d → unborn d.
Proof using Type.
  intros Hu d' Hc. left. intros j Hj. assert (slot_at j (None, None) = None) as -> by (by destruct j as [|[|j]]).
  change (slot_file None) with (@None sfile). apply (shows_crashed d d' _ (λ o, o = None) Hc); [|by apply Hu]. by intros f [=].
Qed.
Lemma untouched_kept d d' (safe : list byte → Prop) :
  untouched d → keeps safe d d' → (∀ j, (j < 2)%nat → safe (manifest_file j)) → untouched d'.
Proof using Type. intros Hu Hk Hsafe j Hj. apply Hk; auto. Qed.

Lemma read_retry_outcome m catalog w :
  0 ≤ rs_slot (ra_public (mf_retry m)) →
  outcome (read_referenced_retry m store options catalog) w
    (λ retry w', idle w w' ∧ holds_retry store options m retry catalog (dir_data (w_dir w) (retry_file m)))
    (λ _ w', idle w w').
Proof using Type.
  intros Hpos. unfold read_referenced_retry. rewrite outcome_bind. unfold outcome at 1, lift.
  destruct (slot_name _ _ _) as [name|] eqn:En; [|reflexivity].
  assert (name = retry_file m) as ->.
  { unfold slot_name in En. destruct (RETRY_SLOT_NAMES !! _) as [n|] eqn:Hn; [|done]. injection En as ->.
    symmetry. by apply nth_lookup_Some. }
  rewrite outcome_bind. apply outcome_read_required; [|done]. intros bytes w' Hi _ -> _.
  rewrite outcome_bind, outcome_refuse. split; [done|]. intros Hc. rewrite outcome_bind. unfold outcome at 1, lift.
  destruct (decode_retry_state_at_slot _ _ _ _) as [[reference retry]|] eqn:Ed; [|done]. cbn [map_err fst snd].
  rewrite outcome_bind, outcome_refuse. split; [done|]. intros Hv. apply outcome_ret. split; [done|].
  assert (reference = mf_retry m) as -> by (apply dec_stable; intros E; apply Hv; by left).
  split; [apply dec_stable; intros E; apply Hc; by left|apply dec_stable; intros E; apply Hc; by right|done|].
  destruct (validates_root_with_catalog retry (manifest_commit m) catalog) eqn:E; [done|]. exfalso. apply Hv. right. by intros Hx.
Qed.

Lemma genesis_journal_outcome inventory w :
  blank inventory →
  outcome (genesis_journal c inventory) w
    (λ aj w', live genesis_identity 0 limits aj (w_disk w') [] 0 ∧ w_dir w' = w_dir w)
    (λ _ w', w_dir w' = w_dir w).
Proof using Hs Hl.
  intros [Hb _]. unfold genesis_journal. rewrite bool_decide_true by done. cbv zeta iota.
  rewrite outcome_bind. unfold outcome at 1, lift. unfold config_new. case_decide; [done|]. cbn [map_err].
  rewrite outcome_bind. apply outcome_ret. unfold outcome, journal_op, open.
  cbn [ac_mode manifest_create with_policy ac_sequence_floor ac_limits config_identity ac_store_id ac_generation].
  assert (outcome (_ ← open_directory; create_new genesis_identity 0 limits) (w_disk w)
    (λ aj d', live genesis_identity 0 limits aj d' [] 0) (λ _ _, True)) as Hopen.
  { apply open_directory_step; [|done]. intros d' _. apply create_outcome; [|done|done]. apply andb_True. by split. }
  unfold outcome in Hopen. unfold config_identity. cbn [ac_store_id ac_generation]. fold genesis_identity.
  destruct ((_ ← open_directory; _) (w_disk w)) as [[aj|e] d']; done.
Qed.

Lemma manifest_file_apart staging target A :
  apart MANIFEST_SLOT_NAMES (staging :: A) = true → target ∈ A →
  ∀ j, (j < 2)%nat → manifest_file j ≠ staging ∧ manifest_file j ≠ target.
Proof using Type.
  intros Ha Ht j Hj. split; (eapply apart_ne; [exact Ha|by apply nth_slot|]); [by left|by right].
Qed.
Lemma genesis_registry_outcome journal inventory w :
  blank inventory → untouched (w_dir w) →
  outcome (genesis_registry (unpublished c journal (None, None)) inventory) w
    (λ reference w', untouched (w_dir w') ∧ beside (w_disk w) (w_disk w') ∧ ∃ bytes,
       shows (w_dir w') (nth 0 REGISTRY_SLOT_NAMES []) (exactly bytes) ∧
       reference = mkRegistryReference 0 1 (len bytes) (crc32c bytes) ∧
       decode_registry_snapshot_at_slot bytes 0 = Ok (mkDecodedRegistry reference (registry_new store (sc_registry c))))
    (λ _ w', untouched (w_dir w')).
Proof using Hs Hr.
  intros (_ & Hb & _) Hu. unfold genesis_registry, publish_registry_snapshot. rewrite decide_True by done.
  apply outcome_lift_step; [|done]. intros prepared Hp. unfold prepare_registry_snapshot in Hp.
  change (free_slot _) with (Some 0) in Hp. cbn [ok_or] in Hp. destruct (encode_registry_snapshot 1 _) as [bytes|]; [|done]. injection Hp as <-.
  assert (∀ j, (j < 2)%nat → manifest_file j ≠ REGISTRY_STAGING_FILE_NAME ∧ manifest_file j ≠ nth (Z.to_nat 0) REGISTRY_SLOT_NAMES []) as Hsafe
    by (apply (manifest_file_apart _ _ REGISTRY_SLOT_NAMES); [by vm_compute|by apply nth_slot; cbn; lia]).
  rewrite outcome_bind. eapply outcome_weaken; [by apply publish_registry_slot| |].
  - intros _ w' (Hk & Hbs & Hsh & registry & Hd & Hsn). apply outcome_ret. cbn [pr_reference].
    split_and!; [by eapply untouched_kept|done|]. exists bytes. split_and!; [exact Hsh|done|].
    rewrite Hd. repeat f_equal. apply snapshot_inj; [exact (decoded_registry_ok _ _ _ Hd)|by apply registry_ok_new|done].
  - intros e w' [Hk _]. by eapply untouched_kept.
Qed.
Lemma genesis_retry_outcome journal inventory w :
  blank inventory → untouched (w_dir w) →
  outcome (genesis_retry (unpublished c journal (None, None)) c inventory) w
    (λ reference w', untouched (w_dir w') ∧ beside (w_disk w) (w_disk w') ∧
       keeps (λ n, n ≠ RETRY_STAGING_FILE_NAME ∧ n ≠ nth 0 RETRY_SLOT_NAMES []) (w_dir w) (w_dir w') ∧ ∃ bytes,
       shows (w_dir w') (nth 0 RETRY_SLOT_NAMES []) (exactly bytes) ∧
       reference = mkRetryArtifact (mkRetryReference 0 1) (len bytes) (crc32c bytes) ∧
       decode_retry_state_at_slot bytes 0 store options = Ok (reference, empty_persisted store options (mkRetryReference 0 1)))
    (λ _ w', untouched (w_dir w')).
Proof using Type.
  intros (_ & _ & Hb) Hu. unfold genesis_retry, publish_retry_snapshot. rewrite decide_True by done. cbv zeta.
  apply outcome_lift_step; [|done]. intros prepared Hp. unfold prepare_retry_snapshot in Hp. rewrite guard_Ok in Hp.
  destruct Hp as [_ Hp]. change (select_retry_candidate_slot _) with (Ok 0 : result ManifestStoreError Z) in Hp. rewrite guard_Ok in Hp.
  destruct Hp as [_ Hp]. destruct (encode_retry_state _) as [bytes|]; [|done]. injection Hp as <-.
  assert (∀ j, (j < 2)%nat → manifest_file j ≠ RETRY_STAGING_FILE_NAME ∧ manifest_file j ≠ nth (Z.to_nat 0) RETRY_SLOT_NAMES []) as Hsafe
    by (apply (manifest_file_apart _ _ RETRY_SLOT_NAMES); [by vm_compute|by apply nth_slot; cbn; lia]).
  rewrite outcome_bind. eapply outcome_weaken; [by apply (publish_retry_slot store options)| |].
  - intros _ w' (Hk & Hbs & Hsh & Hd). apply outcome_ret. cbn [pt_reference].
    split_and!; [by eapply untouched_kept|done|exact Hk|]. by exists bytes.
  - intros e w' [Hk _]. by eapply untouched_kept.
Qed.

(** The first root, once its artifacts are in their slots. *)
Definition first_root (registry retry : Z * Z) : root :=
  mkRoot (mkManifest 1 (mkRegistryReference 0 1 registry.1 registry.2) (genesis_placeholder store)
            (mkRetryArtifact (mkRetryReference 0 1) retry.1 retry.2) None 0 None)
    (registry_new store (sc_registry c)) (empty_persisted store options (mkRetryReference 0 1)) (catalog_empty store).
Lemma first_root_genesis registry retry : genesis_root (first_root registry retry).
Proof using Type. by split. Qed.
Lemma first_root_holds d bytes bytes' :
  let x := first_root (len bytes, crc32c bytes) (len bytes', crc32c bytes') in
  shows d (nth 0 REGISTRY_SLOT_NAMES []) (exactly bytes) → shows d (nth 0 RETRY_SLOT_NAMES []) (exactly bytes') →
  decode_registry_snapshot_at_slot bytes 0 = Ok (mkDecodedRegistry (mf_registry (r_manifest x)) (r_registry x)) →
  holds_retry store options (r_manifest x) (r_retry x) (r_catalog x) bytes' →
  holds_root store options d x.
Proof using Type.
  intros x Hsh Hsh' Hd Ht. split; cbn [x first_root r_manifest mf_catalog r_catalog]; try done.
  - exists bytes. split; [exact Hsh|]. by split.
  - exists bytes'. split; [exact Hsh'|done].
  - by intros e []%not_elem_of_nil.
Qed.

(** Publishing the first manifest. *)
Lemma first_manifest_outcome journal x w :
  untouched (w_dir w) → genesis_root x → holds_root store options (w_dir w) x →
  let s := with_retry (r_retry x) (unpublished c journal (None, None)) in
  outcome (publish_manifest s (r_manifest x)) w
    (λ slot w', slot = 0%nat ∧ beside (w_disk w) (w_disk w') ∧
       standing store (Some (r_manifest x), None) 0 (r_manifest x) (w_dir w') ∧ holds_root store options (w_dir w') x)
    (λ _ w', unborn (w_dir w')).
Proof using Type.
  intros Hu Hx Hh s. pose proof (gn_manifest _ Hx) as [Hg _]. unfold publish_manifest. apply outcome_lift_step; [|by intros; apply untouched_unborn].
  intros p Hp. assert (p = mkPreparedManifest (r_manifest x) 0 (encode_manifest (r_manifest x))) as ->.
  { unfold prepare_manifest, manifest_target in Hp. rewrite decide_True in Hp by done. cbn [s with_retry unpublished ms_slots] in Hp.
    case_decide; [done|]. by injection Hp. }
  assert (∀ d', retained store (r_manifest x) → keeps (λ n, n ≠ MANIFEST_STAGING_FILE_NAME ∧ n ≠ manifest_file 0) (w_dir w) d' →
    holds_root store options d' x) as Hkept.
  { intros d' Hre Hk. eapply roots_kept; [exact Hh|]. intros name P Hn. apply Hk.
    destruct (root_name_safe store (Some (r_manifest x), None) (r_manifest x) name Hre ltac:(by left) Hn) as (H1 & H2 & _). split; [done|]. apply H1. lia. }
  change (ms_store_id s) with store. eapply outcome_weaken; [apply (publish_slot_outcome store (None, None) 0 (r_manifest x) w)| |].
  - lia.
  - intros j Hj. assert (slot_at j (None, None) = None) as -> by (by destruct j as [|[|j]]). by apply Hu.
  - by intros y []%not_elem_of_nil.
  - intros _. cbn. by rewrite decide_False by (intros E; by apply E).
  - intros slot w' (-> & Hk & Hb & Hst). cbn [set_slot fst snd] in Hst.
    destruct (standing_current _ _ _ _ _ Hst) as (_ & _ & _ & Hre). split_and!; [done..|]. by apply Hkept.
  - intros e w' (Hk & Hb & Hc) d' Hd'. destruct (Hc d' Hd') as [Hold|(Hnew & Hsel & Hre)]; [by left|right].
    exists x. split; [done|]. eapply (holds_root_reads store options (w_dir w')); [|exact Hd'|exact Hnew|exact Hsel|exact Hre].
    apply Hkept; [|done]. apply Hre. by left.
Qed.

Lemma genesis_outcome inventory w :
  blank inventory → untouched (w_dir w) →
  outcome (initialize_genesis c inventory (None, None)) w
    (λ s w', serving s w' [] 0 ∧ genesis_root (root_of s))
    (λ _ w', unborn (w_dir w')).
Proof using Hs Hl Hr.
  intros Hb Hu. pose proof (untouched_unborn _ Hu) as Hu'. unfold initialize_genesis. apply outcome_lift_step; [intros _ _|done].
  rewrite outcome_bind. eapply outcome_weaken; [by apply genesis_journal_outcome| |by intros e w1 ->].
  intros aj w1 [Hlv E1]. rewrite <-E1 in Hu, Hu'. apply outcome_refuse_step; [intros Hcut|done]. cbv zeta.
  assert (durable_cutoff aj = genesis_placeholder store) as Hc by (apply dec_stable; intros E; apply Hcut; by right).
  rewrite Hc. rewrite outcome_bind. eapply outcome_weaken; [by apply genesis_registry_outcome| |by intros; apply untouched_unborn].
  intros r w2 (Hu2 & Hb2 & bytes & Hsh & -> & Hd). rewrite outcome_bind.
  eapply outcome_weaken; [by apply genesis_retry_outcome| |by intros; apply untouched_unborn].
  intros r w3 (Hu3 & Hb3 & Hk & bytes' & Hsh' & -> & Hd').
  set (x := first_root (len bytes, crc32c bytes) (len bytes', crc32c bytes')). fold (r_manifest x). rewrite outcome_bind.
  eapply outcome_weaken; [apply (read_retry_outcome (r_manifest x)); cbn; lia| |by intros e w4 [_ ->]; apply untouched_unborn].
  intros retry w4 [[Ha4 E4] Ht]. change (retry_file (r_manifest x)) with (nth 0 RETRY_SLOT_NAMES []) in Ht.
  assert (dir_data (w_dir w3) (nth 0 RETRY_SLOT_NAMES []) = bytes') as Eb
    by (pose proof (shows_now _ _ _ Hsh') as En; unfold exactly in En; unfold dir_data; by rewrite En).
  rewrite Eb in Ht. assert (retry = r_retry x) as -> by (pose proof (ht_decodes _ _ _ _ _ _ Ht) as E; cbn in E; rewrite Hd' in E; by injection E).
  assert (holds_root store options (w_dir w4) x) as Hh.
  { rewrite E4. apply first_root_holds; [|done..]. apply Hk; [by split|done]. }
  rewrite <-E4 in Hu3. rewrite outcome_bind.
  eapply outcome_weaken; [apply (first_manifest_outcome aj x); [done|apply first_root_genesis|done]| |done].
  intros slot w5 (-> & Hb5 & Hst & Hh5). apply outcome_ret.
  assert (beside (w_disk w1) (w_disk w5)) as Hbs by (trans (w_disk w2); [done|]; trans (w_disk w3); [done|]; trans (w_disk w4); [by apply aged_beside|done]).
  split; [|exact (first_root_genesis (len bytes, crc32c bytes) (len bytes', crc32c bytes'))]. split.
  - split; try done. { intros m Hm. exists x. split; [|done]. cbn in Hm. by apply list_elem_of_singleton in Hm. } by apply registry_ok_new.
  - exact Hc.
  - by eapply live_beside.
Qed.
End genesis.
