(* ===== verification/Sealed.v ===== *)
(** * Sealed journals on disk

    [och-store/src/manifest.rs]: the streaming checksum of a journal file, the
    validation of a sealed journal frame by frame against the registry, the
    preparation and publication of a sealed copy, and the bridge that builds and
    queries the segment of a committed sealed generation. *)

From S2P Require Import Prelude Bytes Identity Series Registry Layout Crc Commit Journal Generation Retry Recovery.
From S2P Require Import Disk Active Scan Effects Segment SegmentWire SegmentHistory SegmentBuild SegmentParse SegmentWrite SegmentQuery.
From S2P Require Import Manifest RegistryReplay RegistryCodec Directory Publish Roots Store Committed Inventory.

(** ** Files of either part of the directory *)

(** What [File::open], [metadata().len()], [read_exact] at the cursor and
    [try_exists] do on one path. *)
Record reader := mkReader {
  rd_open : M world IoError ();
  rd_len : M world IoError Z;
  rd_at : Z → Z → M world IoError (list byte);
  rd_exists : M world IoError bool }.
Definition file_exists (name : list byte) : M disk IoError bool :=
  io_op (λ d, (Ok (bool_decide (is_Some (dk_files d !! name))), d)) unchanged.
Definition journal_reader (name : list byte) : reader :=
  mkReader (on_disk (open_existing_file name)) (on_disk (file_len name)) (λ position n, on_disk (read_exact name position n))
    (on_disk (file_exists name)).
Definition dir_read_at (name : list byte) (position n : Z) : M world IoError (list byte) :=
  dir_op (λ d, if decide (position + n ≤ len (dir_data d name)) then (Ok (slice position (position + n) (dir_data d name)), d)
               else (Err (mkIoError UnexpectedEof None), d)) dir_same.
Definition slot_reader (name : list byte) : reader :=
  mkReader (dir_open name) (dir_len name) (dir_read_at name) (dir_exists name).

(** ** The checksum of a file *)

Definition CHECKSUM_BUFFER_LEN : Z := 64 * 1024.
(** [while remaining > 0]; every turn reads at least one byte. *)
Fixpoint checksum_loop (path : reader) (room : nat) (position remaining : Z) (checksum : StreamingCrc32c) : StoreOp StreamingCrc32c :=
  if decide (remaining > 0) then
    match room with
    | O => fail MseInvalidGeneration
    | S room =>
      let count := Z.min remaining CHECKSUM_BUFFER_LEN in
      bytes ← mio MioRead (rd_at path position count);
      checksum_loop path room (position + count) (remaining - count) (stream_update checksum bytes)
    end
  else mret checksum.
Definition checksum_file_bounded (path : reader) (expected_length : Z) : StoreOp Z :=
  _ ← refuse_if (expected_length = 0 ∨ expected_length > MAX_ACTIVE_JOURNAL_BYTES) MseInvalidGeneration;
  _ ← mio MioRead (rd_open path);
  length ← mio MioMetadata (rd_len path);
  _ ← refuse_if (length ≠ expected_length) MseInvalidGeneration;
  checksum ← checksum_loop path (Z.to_nat (expected_length / CHECKSUM_BUFFER_LEN + 1)) 0 expected_length stream_new;
  mret (stream_finish checksum).

(** ** Validation *)

Definition generation_error {E A} (r : result E A) : result ManifestStoreError A := map_err (λ _, MseInvalidGeneration) r.
(** The declaration of a frame is retained by the registry. *)
Definition registered (registry : SeriesRegistry) (decoded : DecodedAdmissionV1) : bool :=
  let declaration := dec_declaration decoded in
  is_some_and (λ retained, declaration_matches retained declaration)
    (resolve registry (dd_series_id declaration) (dd_revision declaration)).
(** [while offset < expected.end_offset()]; [room] is what [count] leaves below the
    record limit. *)
Fixpoint sealed_loop (path : reader) (end_offset : Z) (store_id : StoreId) (limits : ActiveJournalLimits)
    (registry : SeriesRegistry) (room : nat) (offset : Z) (previous : option AppendSequenceV1) (checksum : StreamingCrc32c)
  : StoreOp (Z * option AppendSequenceV1 * StreamingCrc32c) :=
  if decide (offset < end_offset) then
    match room with
    | O => fail MseInvalidGeneration
    | S room =>
      prefix ← mio MioRead (rd_at path offset JOURNAL_V1_FRAME_PREFIX_LEN);
      decode ← lift (generation_error (decode_limits limits));
      frame_len ← lift (generation_error (frame_len_from_prefix_v1 prefix decode));
      rest ← mio MioRead (rd_at path (offset + JOURNAL_V1_FRAME_PREFIX_LEN) (frame_len - JOURNAL_V1_FRAME_PREFIX_LEN));
      let frame := prefix ++ rest in
      decoded ← lift (generation_error (decode_admission_frame_v1 frame decode previous));
      _ ← refuse_if (dec_store_id decoded ≠ store_id ∨ ¬ registered registry decoded) MseInvalidGeneration;
      sequence ← lift (generation_error (sequence_new (dec_append_sequence decoded)));
      offset ← lift (ok_or (checked_add u64_max offset frame_len) MseInvalidGeneration);
      _ ← refuse_if (offset > end_offset) MseInvalidGeneration;
      sealed_loop path end_offset store_id limits registry room offset (Some sequence) (stream_update checksum frame)
    end
  else mret (offset, previous, checksum).
Definition validate_sealed_journal (path : reader) (expected : SealedGeneration) (store_id : StoreId)
    (limits : ActiveJournalLimits) (registry : SeriesRegistry) : StoreOp () :=
  _ ← mio MioRead (rd_open path);
  length ← mio MioMetadata (rd_len path);
  _ ← refuse_if (length ≠ sg_artifact_length expected) MseInvalidGeneration;
  header_bytes ← mio MioRead (rd_at path 0 JOURNAL_V1_HEADER_LEN);
  header ← lift (generation_error (header_decode header_bytes));
  _ ← refuse_if (header_store_id header ≠ store_id) MseStoreMismatch;
  previous ← lift (generation_error (floor_sequence (sg_sequence_floor expected)));
  '(offset, previous, checksum) ← sealed_loop path (sg_end_offset expected) store_id limits registry
    (Z.to_nat (record_limit limits)) JOURNAL_V1_HEADER_LEN previous (stream_update stream_new header_bytes);
  refuse_if (offset ≠ sg_end_offset expected ∨ (sequence_get <$> previous) ≠ Some (sg_sequence_cutoff expected) ∨
             stream_finish checksum ≠ sg_artifact_checksum expected) MseInvalidGeneration.

(** ** Sealing *)

Definition prepare_sealed_generation (intent : RotationIntent) (sequence_floor : Z) (limits : ActiveJournalLimits)
    (registry : SeriesRegistry) : StoreOp SealedGeneration :=
  let source := journal_reader (active_journal_file_name (ri_source_generation intent)) in
  let target := sealed_journal_file_name (ri_source_generation intent) in
  present ← mio MioMetadata (dir_exists target);
  _ ← refuse_if (Is_true present) MseInvalidGeneration;
  checksum ← checksum_file_bounded source (ri_source_end_offset intent);
  let sealed := mkSealed (ri_source_generation intent) sequence_floor (ri_sequence_cutoff intent)
    (ri_source_end_offset intent) (ri_registry_generation intent) (ri_source_end_offset intent) checksum in
  _ ← validate_sealed_journal source sealed (ri_store_id intent) limits registry;
  mret sealed.

(** [write_all] at the end of a file that was created before. *)
Definition dir_append (name bytes : list byte) : M world IoError () :=
  dir_op (λ d, (Ok tt, rewrite_file name (mkSfile (dir_data d name ++ bytes) false) d))
         (λ written d, rewrite_file name (mkSfile (dir_data d name ++ take written bytes) false) d).
Fixpoint copy_loop (source : reader) (staging : list byte) (room : nat) (position remaining : Z)
    (checksum : StreamingCrc32c) : StoreOp StreamingCrc32c :=
  if decide (remaining > 0) then
    match room with
    | O => fail MseInvalidGeneration
    | S room =>
      let count := Z.min remaining CHECKSUM_BUFFER_LEN in
      bytes ← mio MioRead (rd_at source position count);
      _ ← mio MioWrite (dir_append staging bytes);
      copy_loop source staging room (position + count) (remaining - count) (stream_update checksum bytes)
    end
  else mret checksum.
Definition publish_sealed_generation (intent : RotationIntent) (expected : SealedGeneration) : StoreOp () :=
  let source := journal_reader (active_journal_file_name (ri_source_generation intent)) in
  let target := sealed_journal_file_name (ri_source_generation intent) in
  present ← mio MioMetadata (dir_exists target);
  _ ← refuse_if (Is_true present) MseInvalidGeneration;
  _ ← mio MioRead (rd_open source);
  length ← mio MioMetadata (rd_len source);
  _ ← refuse_if (length ≠ ri_source_end_offset intent) MseInvalidGeneration;
  _ ← create_staging SEALED_JOURNAL_STAGING_FILE_NAME;
  checksum ← copy_loop source SEALED_JOURNAL_STAGING_FILE_NAME
    (Z.to_nat (ri_source_end_offset intent / CHECKSUM_BUFFER_LEN + 1)) 0 (ri_source_end_offset intent) stream_new;
  _ ← mio MioSyncArtifact (dir_sync_file SEALED_JOURNAL_STAGING_FILE_NAME);
  _ ← refuse_if (stream_finish checksum ≠ sg_artifact_checksum expected) MseInvalidGeneration;
  staged ← checksum_file_bounded (slot_reader SEALED_JOURNAL_STAGING_FILE_NAME) (sg_artifact_length expected);
  _ ← refuse_if (staged ≠ sg_artifact_checksum expected) MseInvalidGeneration;
  _ ← mio MioPublish (dir_rename SEALED_JOURNAL_STAGING_FILE_NAME target);
  _ ← mio MioSyncDirectory world_sync;
  published ← checksum_file_bounded (slot_reader target) (sg_artifact_length expected);
  refuse_if (published ≠ sg_artifact_checksum expected) MseInvalidGeneration.

(** ** Segments of sealed generations *)

Definition map_segment_source_error (error : ManifestStoreError) : SegmentV1Error :=
  match error with
  | MseStoreMismatch => SegStoreMismatch
  | MseIo evidence | MseStoragePressure evidence => SegIo evidence
  | _ => SegInvalidSource
  end.
Inductive ManifestStoreSegmentQueryV1Error : Set :=
| QuerySegment (error : SegmentV1Error) | QueryAnswer (error : SegmentObservationQueryV1Error).
Definition segment_error (e : ManifestStoreSegmentQueryV1Error) : option SegmentV1Error :=
  match e with QuerySegment error => Some error | QueryAnswer _ => None end.
Definition query_error (e : ManifestStoreSegmentQueryV1Error) : option SegmentObservationQueryV1Error :=
  match e with QuerySegment _ => None | QueryAnswer error => Some error end.

(** The segment builder and parser may stop by a panic; so may these. *)
Abbreviation SegmentOp E := (M world (stop E)).
Definition segment_source {A} (m : StoreOp A) : SegmentOp SegmentV1Error A :=
  map_err_m (λ error, Refused (map_segment_source_error error)) m.
Definition build_segment_candidate_v1 (s : ManifestStore) (journal_generation : Z) : SegmentOp SegmentV1Error PreparedSegmentV1 :=
  sealed ← lift (some_or (List.find (λ entry, bool_decide (sg_journal_generation entry = journal_generation))
                            (cs_entries (ms_catalog s))) SegInvalidSource);
  let name := sealed_journal_file_name journal_generation in
  _ ← segment_source (validate_sealed_journal (slot_reader name) sealed (ms_store_id s) (aj_limits (ms_journal s))
                        (ms_registry s));
  bytes ← segment_source (read_required_bounded name MAX_ACTIVE_JOURNAL_BYTES);
  lift (build_segment_v1 (ms_store_id s) sealed bytes).
Definition stop_map {E F} (f : E → F) (e : stop E) : stop F := match e with Refused e => Refused (f e) | Panicked => Panicked end.
Definition query_sealed_generation_observations_v1 (s : ManifestStore) (journal_generation : Z)
    (query : SegmentObservationQueryV1) : SegmentOp ManifestStoreSegmentQueryV1Error SegmentObservationQueryResultV1 :=
  candidate ← map_err_m (stop_map QuerySegment) (build_segment_candidate_v1 s journal_generation);
  segment ← lift (map_err (stop_map QuerySegment) (parse_segment_v1 (ps_bytes candidate) (ms_store_id s)));
  lift (map_err (λ error, Refused (QueryAnswer error)) (query_observations_v1 segment query)).
