(* ===== verification/Rotation.v ===== *)
(** * Rotation of the active journal

    [och-store/src/manifest.rs]: [ManifestStore::rotate], which seals the durable
    active journal, creates its successor, publishes the catalog that names the
    sealed copy and commits all of it in one manifest; the rollback of a rotation
    that was not committed, and the cleanup of one that was. *)

From S2P Require Import Prelude Bytes Identity Series Registry Layout Crc Commit Journal Generation Retry RetryCodec Recovery.
From S2P Require Import Disk Active Segment Manifest RegistryReplay RegistryCodec Directory Publish Roots Store Inventory Genesis Sealed.

(** ** Removal *)

(** A path of the journal's part or of the slots' part of the directory. *)
Inductive place := JournalPart (name : list byte) | SlotPart (name : list byte).
(** A removal that reports a failure may still have happened. *)
Definition file_removed (name : list byte) (d : disk) : disk := with_files (delete name (dk_files d)) d.
Definition file_remove (name : list byte) : M disk IoError () :=
  io_op (λ d, match dk_files d !! name with
              | Some _ => (Ok tt, file_removed name d)
              | None => (Err (mkIoError NotFound None), d)
              end) (λ written d, match written with O => d | S _ => file_removed name d end).
Definition remove_place (p : place) : M world IoError () :=
  match p with JournalPart name => on_disk (file_remove name) | SlotPart name => dir_remove name end.
(** One path of the loop: removed, already absent, or a refusal. *)
Definition remove_if_present (p : place) : StoreOp () := λ w,
  match remove_place p w with
  | (Ok _, w) => (Ok tt, w)
  | (Err error, w) =>
    if decide (io_kind error = NotFound) then (Ok tt, w) else (Err (classify_manifest_io MioRemove error), w)
  end.
Definition remove_places (places : list place) : StoreOp () :=
  _ ← each remove_if_present places;
  mio MioSyncDirectory world_sync.

Definition cleanup_committed_rotation (source_generation : Z) : StoreOp () :=
  remove_places [JournalPart (active_journal_file_name source_generation);
                 JournalPart (active_checkpoint_file_name source_generation);
                 SlotPart ROTATION_INTENT_FILE_NAME; SlotPart SEALED_JOURNAL_STAGING_FILE_NAME].

(** ** Preparation *)

Definition publish_rotation_intent (intent : RotationIntent) : StoreOp () :=
  let bytes := encode_rotation_intent intent in
  _ ← create_staging ROTATION_INTENT_FILE_NAME;
  _ ← mio MioWrite (dir_write ROTATION_INTENT_FILE_NAME bytes);
  _ ← mio MioSyncArtifact (dir_sync_file ROTATION_INTENT_FILE_NAME);
  readback ← read_required_bounded ROTATION_INTENT_FILE_NAME (len bytes);
  decoded ← lift (map_err map_generation_codec (decode_rotation_intent readback (ri_store_id intent)));
  _ ← refuse_if (decoded ≠ intent) MseInvalidGeneration;
  mio MioSyncDirectory world_sync.

Record RotationPlan := mkRotationPlan {
  rq_intent : RotationIntent;
  rq_source_generation : Z;
  rq_sealed : SealedGeneration;
  rq_successor_config : ActiveJournalConfig;
  rq_catalog : PreparedCatalogPublication;
  rq_manifest : PreparedManifestPublication }.
(** [manifest_generation] of a configuration of one of the store's journals. *)
Definition journal_config (directory : list byte) (store_id : StoreId) (mode : ActiveJournalOpenMode)
    (limits : ActiveJournalLimits) (generation sequence_floor : Z) : result ManifestStoreError ActiveJournalConfig :=
  let! c := map_err MseActive (config_new directory store_id mode limits) in
  let c := match mode with CreateNew => manifest_create c | OpenExisting => manifest_existing c end in
  map_err MseActive (manifest_generation generation sequence_floor c).
(** The range that a rotation seals: all of the journal, and all of it committed. *)
Definition rotation_intent_of (s : ManifestStore) : result ManifestStoreError RotationIntent :=
  let inspection := Active.inspection (ms_journal s) in
  let source_cutoff := ins_durable_cutoff inspection in
  if decide (ins_active_records inspection = 0 ∨ source_cutoff ≠ mf_cutoff (ms_current s) ∨
             ins_last_append_sequence inspection ≠ cut_append_sequence source_cutoff ∨
             ins_active_bytes inspection ≠ cut_end_offset source_cutoff)
  then Err MseInvalidGeneration
  else if decide (len (cs_entries (ms_catalog s)) >= MAX_SEALED_GENERATIONS) then Err MseGenerationCatalogFull
  else
    let! successor_generation := next_generation (journal_generation (cut_journal source_cutoff)) in
    let! catalog_generation := match cs_reference (ms_catalog s) with
                               | Some reference => next_generation (cat_generation reference)
                               | None => Ok 1
                               end in
    Ok (mkIntent (journal_store_id (cut_journal source_cutoff)) (journal_generation (cut_journal source_cutoff))
          successor_generation (cut_append_sequence source_cutoff) (cut_end_offset source_cutoff)
          (rg_generation (mf_registry (ms_current s))) catalog_generation (cut_checkpoint_generation source_cutoff)).
Definition prepare_rotation (directory : list byte) (s : ManifestStore) : StoreOp RotationPlan :=
  let limits := aj_limits (ms_journal s) in
  let current := ms_current s in
  intent ← lift (rotation_intent_of s);
  catalog_slot ← lift (select_catalog_candidate_slot s);
  manifest_generation ← lift (next_generation (mf_generation current));
  sealed ← prepare_sealed_generation intent (mf_sequence_floor current) limits (ms_registry s);
  let provisional_reference := mkCatalogReference catalog_slot (ri_catalog_generation intent) 1 1 in
  provisional ← lift (map_err map_generation_codec (catalog_advance (ms_catalog s) provisional_reference sealed));
  catalog ← lift (prepare_catalog_snapshot s catalog_slot (ri_catalog_generation intent) provisional);
  successor_config ← lift (journal_config directory (ri_store_id intent) CreateNew limits
                             (ri_successor_generation intent) (ri_sequence_cutoff intent));
  let successor_cutoff := mkCutoff (mkJournalIdentity (ri_store_id intent) (ri_successor_generation intent)) 1
    (ri_sequence_cutoff intent) JOURNAL_V1_HEADER_LEN in
  let next := mkManifest manifest_generation (mf_registry current) successor_cutoff (mf_retry current) (mf_recovery current)
    (ri_sequence_cutoff intent) (cs_reference (pg_snapshot catalog)) in
  manifest ← lift (prepare_manifest s next);
  mret (mkRotationPlan intent (ri_source_generation intent) sealed successor_config catalog manifest).

(** ** Completion *)

Definition adopt_rotation (successor : ActiveJournal) (catalog : GenerationCatalogSnapshot) (slot : nat)
    (record : ManifestRecord) (s : ManifestStore) : ManifestStore :=
  mkStore successor (ms_registry s) (ms_retry s) catalog (ms_recovery_report s) (set_slot slot record (ms_slots s)) slot
    record (ms_write_state s).
Definition complete_rotation (plan : RotationPlan) : StoreMethod ManifestCommit :=
  _ ← world_effect (publish_sealed_generation (rq_intent plan) (rq_sealed plan));
  successor ← world_effect (journal_op (open (rq_successor_config plan)));
  _ ← refuse_if (durable_cutoff successor ≠ mf_cutoff (pm_record (rq_manifest plan))) MseInvalidGeneration;
  _ ← world_effect (publish_prepared_catalog_snapshot (rq_catalog plan));
  s ← this;
  slot ← world_effect (publish_prepared_manifest (ms_store_id s) (rq_manifest plan));
  _ ← modify (adopt_rotation successor (pg_snapshot (rq_catalog plan)) slot (pm_record (rq_manifest plan)));
  s ← this;
  _ ← world_effect (cleanup_committed_rotation (rq_source_generation plan));
  _ ← world_effect (remove_unreferenced_catalog_slots (ms_slots s));
  _ ← world_effect (remove_unreferenced_retry_slots (ms_slots s));
  _ ← world_effect (remove_unreferenced_recovery_slots (ms_slots s) (ms_store_id s));
  mret (commit s).
Definition rotate (directory : list byte) : StoreMethod ManifestCommit :=
  s ← this;
  _ ← lift (store_usable s);
  plan ← world_effect (prepare_rotation directory s);
  _ ← recorded (world_effect (publish_rotation_intent (rq_intent plan)));
  recorded (complete_rotation plan).

(** ** Rollback *)

(** The current manifest is the one the rotation started from. *)
Definition rolls_back (current : ManifestRecord) (intent : RotationIntent) : Prop :=
  mf_journal current = ri_source_generation intent ∧
  cut_append_sequence (mf_cutoff current) = ri_sequence_cutoff intent ∧
  cut_end_offset (mf_cutoff current) = ri_source_end_offset intent ∧
  cut_checkpoint_generation (mf_cutoff current) = ri_source_checkpoint_generation intent ∧
  rg_generation (mf_registry current) = ri_registry_generation intent ∧
  match mf_catalog current with Some reference => checked_add u64_max (cat_generation reference) 1 | None => Some 1 end =
    Some (ri_catalog_generation intent).
#[export] Instance rolls_back_dec current intent : Decision (rolls_back current intent).
Proof. unfold rolls_back. apply _. Defined.

(** The sealed copy under its final or its staging name; both agree. *)
Definition expected_entry (path : reader) (current : ManifestRecord) (intent : RotationIntent) : StoreOp SealedGeneration :=
  checksum ← checksum_file_bounded path (ri_source_end_offset intent);
  mret (mkSealed (ri_source_generation intent) (mf_sequence_floor current) (ri_sequence_cutoff intent)
          (ri_source_end_offset intent) (ri_registry_generation intent) (ri_source_end_offset intent) checksum).
Fixpoint sealed_copies (paths : list reader) (c : ManifestStoreConfig) (current : ManifestRecord) (intent : RotationIntent)
    (registry : SeriesRegistry) (sealed : option SealedGeneration) : StoreOp (option SealedGeneration) :=
  match paths with
  | [] => mret sealed
  | path :: paths =>
    present ← mio MioMetadata (rd_exists path);
    if (present : bool) then
      entry ← expected_entry path current intent;
      _ ← validate_sealed_journal path entry (sc_store_id c) (sc_journal_limits c) registry;
      _ ← refuse_if (is_some_and (λ prior, bool_decide (prior ≠ entry)) sealed) MseInvalidGeneration;
      sealed_copies paths c current intent registry (Some entry)
    else sealed_copies paths c current intent registry sealed
  end.
(** The successor, when the rotation created it: both files, and no record. *)
Definition successor_cutoff (c : ManifestStoreConfig) (intent : RotationIntent) : StoreOp (option DurableCutoff) :=
  journal ← mio MioMetadata (on_disk (file_exists (active_journal_file_name (ri_successor_generation intent))));
  checkpoint ← mio MioMetadata (on_disk (file_exists (active_checkpoint_file_name (ri_successor_generation intent))));
  if (journal || checkpoint : bool) then
    _ ← refuse_if (journal = false ∨ checkpoint = false) MseInvalidGeneration;
    successor_config ← lift (journal_config (sc_directory c) (sc_store_id c) OpenExisting (sc_journal_limits c)
                               (ri_successor_generation intent) (ri_sequence_cutoff intent));
    successor ← journal_op (open successor_config);
    _ ← refuse_if (len (aj_records successor) ≠ 0) MseInvalidGeneration;
    mret (Some (durable_cutoff successor))
  else mret None.
(** The new catalog under its slot or its staging name; both agree. *)
Definition appends_sealed (prior decoded : GenerationCatalogSnapshot) (sealed : option SealedGeneration) : bool :=
  bool_decide (is_Some sealed ∧ last (cs_entries decoded) = sealed ∧
               len (cs_entries prior) + 1 = len (cs_entries decoded) ∧
               take (length (cs_entries prior)) (cs_entries decoded) = cs_entries prior).
Fixpoint catalog_copies (names : list (list byte)) (c : ManifestStoreConfig) (intent : RotationIntent) (slot : Z)
    (prior : GenerationCatalogSnapshot) (sealed : option SealedGeneration) (found : option GenerationCatalogReference)
  : StoreOp (option GenerationCatalogReference) :=
  match names with
  | [] => mret found
  | name :: names =>
    present ← mio MioMetadata (dir_exists name);
    if (present : bool) then
      bytes ← read_required_bounded name MAX_GENERATION_CATALOG_BYTES;
      decoded ← lift (map_err map_generation_codec (decode_catalog bytes slot (sc_store_id c)));
      reference ← lift (ok_or (cs_reference decoded) MseInvalidGeneration);
      _ ← refuse_if (cat_generation reference ≠ ri_catalog_generation intent ∨ ¬ appends_sealed prior decoded sealed ∨
                     is_some_and (λ prior, bool_decide (prior ≠ reference)) found) MseInvalidGeneration;
      catalog_copies names c intent slot prior sealed (Some reference)
    else catalog_copies names c intent slot prior sealed found
  end.
(** The manifest that would have committed the rotation. *)
Definition staged_manifest (c : ManifestStoreConfig) (current : ManifestRecord) (intent : RotationIntent)
    (successor : option DurableCutoff) (catalog : option GenerationCatalogReference) : StoreOp () :=
  present ← mio MioMetadata (dir_exists MANIFEST_STAGING_FILE_NAME);
  if (present : bool) then
    bytes ← read_required_bounded MANIFEST_STAGING_FILE_NAME MANIFEST_LEN;
    decoded ← lift (decode_manifest bytes (sc_store_id c));
    refuse_if (Some (mf_cutoff decoded) ≠ successor ∨
               checked_add u64_max (mf_generation current) 1 ≠ Some (mf_generation decoded) ∨
               mf_registry decoded ≠ mf_registry current ∨ mf_retry decoded ≠ mf_retry current ∨
               mf_recovery decoded ≠ mf_recovery current ∨ mf_sequence_floor decoded ≠ ri_sequence_cutoff intent ∨
               mf_catalog decoded ≠ catalog) MseInvalidGeneration
  else mret tt.
Definition rollback_uncommitted_rotation (c : ManifestStoreConfig) (manifests : manifest_slots) (current : ManifestRecord)
    (intent : RotationIntent) : StoreOp () :=
  _ ← refuse_if (¬ rolls_back current intent) MseInvalidGeneration;
  registry_staging ← mio MioMetadata (dir_exists REGISTRY_STAGING_FILE_NAME);
  _ ← refuse_if (Is_true registry_staging) MseInvalidGeneration;
  retry_staging ← mio MioMetadata (dir_exists RETRY_STAGING_FILE_NAME);
  _ ← refuse_if (Is_true retry_staging) MseInvalidGeneration;
  prior_catalog ← read_catalog_or_empty (mf_catalog current) (sc_store_id c);
  inventory ← inspect_inventory;
  _ ← lift (validate_generation_inventory inventory current prior_catalog (Some intent));
  registry ← read_referenced_registry (mf_registry current) (sc_store_id c);
  source_config ← lift (journal_config (sc_directory c) (sc_store_id c) OpenExisting (sc_journal_limits c)
                          (ri_source_generation intent) (mf_sequence_floor current));
  source ← journal_op (open source_config);
  _ ← refuse_if (durable_cutoff source ≠ mf_cutoff current) MseInvalidGeneration;
  _ ← lift (validate_recovered_declarations registry (aj_records source));
  let sealed_final := sealed_journal_file_name (ri_source_generation intent) in
  sealed ← sealed_copies [slot_reader sealed_final; slot_reader SEALED_JOURNAL_STAGING_FILE_NAME] c current intent registry None;
  successor ← successor_cutoff c intent;
  slot ← lift (ok_or (free_slot (omap (λ m, cat_slot <$> mf_catalog m) (slot_list manifests))) MseInvalidGeneration);
  let catalog_final := nth (Z.to_nat slot) CATALOG_SLOT_NAMES [] in
  catalog ← catalog_copies [catalog_final; GENERATION_CATALOG_STAGING_FILE_NAME] c intent slot prior_catalog sealed None;
  _ ← staged_manifest c current intent successor catalog;
  remove_places [SlotPart MANIFEST_STAGING_FILE_NAME; SlotPart GENERATION_CATALOG_STAGING_FILE_NAME; SlotPart catalog_final;
                 SlotPart SEALED_JOURNAL_STAGING_FILE_NAME; SlotPart sealed_final;
                 JournalPart (active_journal_file_name (ri_successor_generation intent));
                 JournalPart (active_checkpoint_file_name (ri_successor_generation intent));
                 SlotPart ROTATION_INTENT_FILE_NAME].
