(* ===== verification/OpenStore.v ===== *)
(** * Opening a store

    [och-store/src/manifest.rs]: [ManifestStore::open] from the first preflight to
    the handle: the store lock, the format marker, the convergence of an interrupted
    rotation, the root-directed open of the journal, every check of the artifacts
    beside the root, and the convergence of an interrupted or a needed recovery. *)

From S2P Require Import Prelude Bytes Identity Series Registry Layout Crc Commit Journal Generation Retry RetryCodec Recovery.
From S2P Require Import Disk Active Segment Manifest RegistryReplay RegistryCodec Directory Publish Roots Store Inventory Genesis.
From S2P Require Import Sealed Rotation.

(** ** Recovery *)

Record PreparedRecoveryPublication := mkPreparedRecovery { px_artifact : RecoveryArtifact; px_bytes : list byte }.
Definition prepare_recovery_report (slot : Z) (report : RecoveryReport)
  : result ManifestStoreError PreparedRecoveryPublication :=
  if decide (slot >= 3) then Err MseInvalidManifest
  else
    let! bytes := map_err map_recovery_codec (encode_recovery_state report) in
    Ok (mkPreparedRecovery (mkRecoveryArtifact (mkRecoveryReference slot (crc32c bytes)) report) bytes).
Definition recovery_slot_name (reference : RecoveryReference) : list byte :=
  nth (Z.to_nat (rr_slot reference)) RECOVERY_SLOT_NAMES [].
Definition publish_prepared_recovery_report (prepared : PreparedRecoveryPublication) : StoreOp () :=
  let artifact := px_artifact prepared in
  let report := ra_report artifact in
  publish_reusable_slot RECOVERY_STAGING_FILE_NAME (recovery_slot_name (ra_reference artifact)) (px_bytes prepared)
    RECOVERY_STATE_LEN (λ candidate,
      let! decoded := map_err map_recovery_codec (decode_recovery_state candidate (rp_store_id report)) in
      if decide (decoded ≠ report ∨ crc32c candidate ≠ rr_checksum (ra_reference artifact))
      then Err MseInvalidManifest
      else Ok tt).

(** The staging file of an interrupted publication, synchronized and renamed. *)
Definition settle_staging (staging target : list byte) : StoreOp () :=
  _ ← mio MioOpenArtifact (dir_open staging);
  _ ← mio MioSyncArtifact (dir_sync_file staging);
  _ ← mio MioPublish (dir_rename staging target);
  mio MioSyncDirectory world_sync.
Definition converge_recovery_staging (artifact : RecoveryArtifact) (store_id : StoreId) : StoreOp () :=
  bytes ← read_required_bounded RECOVERY_STAGING_FILE_NAME RECOVERY_STATE_LEN;
  decoded ← lift (map_err map_recovery_codec (decode_recovery_state bytes store_id));
  _ ← refuse_if (decoded ≠ ra_report artifact ∨ crc32c bytes ≠ rr_checksum (ra_reference artifact)) MseInvalidManifest;
  settle_staging RECOVERY_STAGING_FILE_NAME (recovery_slot_name (ra_reference artifact)).
Definition converge_manifest_staging (target : nat) (expected : ManifestRecord) : StoreOp nat :=
  bytes ← read_required_bounded MANIFEST_STAGING_FILE_NAME MANIFEST_LEN;
  _ ← refuse_if (bytes ≠ encode_manifest expected) MseInvalidManifest;
  _ ← settle_staging MANIFEST_STAGING_FILE_NAME (nth target MANIFEST_SLOT_NAMES []);
  mret target.

Definition with_recovery_report (report : option RecoveryReport) (s : ManifestStore) : ManifestStore :=
  mkStore (ms_journal s) (ms_registry s) (ms_retry s) (ms_catalog s) report (ms_slots s) (ms_current_slot s) (ms_current s)
    (ms_write_state s).
(** A method of the journal, its error under [ManifestStoreError::Active]. *)
Definition journal_call {A} (m : Method A) : StoreMethod A := λ s,
  let '(r, (journal, d)) := m (ms_journal s.1, w_disk s.2) in
  (map_err MseActive r, (with_journal journal s.1, mkWorld d (w_dir s.2))).

(** The one report that no manifest names and that is not older than the latest. *)
Fixpoint recovery_candidate (referenced : list RecoveryReference) (latest : Z) (artifacts : list RecoveryArtifact)
    (candidate : option RecoveryArtifact) : result ManifestStoreError (option RecoveryArtifact) :=
  match artifacts with
  | [] => Ok candidate
  | artifact :: artifacts =>
    if decide (ra_reference artifact ∈ referenced ∨
               (latest > 0 ∧ rp_report_generation (ra_report artifact) < latest))
    then recovery_candidate referenced latest artifacts candidate
    else if decide (is_Some candidate) then Err MseInvalidManifest
    else recovery_candidate referenced latest artifacts (Some artifact)
  end.
(** An interrupted recovery, with whether it is still under its staging name. *)
Definition interrupted_recovery (staging : option RecoveryReport) (candidate : option RecoveryArtifact) (target_slot : Z)
  : result ManifestStoreError (option (RecoveryArtifact * bool)) :=
  match staging with
  | Some report =>
    let! bytes := map_err map_recovery_codec (encode_recovery_state report) in
    Ok (Some (mkRecoveryArtifact (mkRecoveryReference target_slot (crc32c bytes)) report, true))
  | None => Ok ((λ artifact, (artifact, false)) <$> candidate)
  end.
(** An interrupted recovery continues only from the root it was prepared for. *)
Definition check_interrupted (current : ManifestRecord) (target_slot expected_generation : Z)
    (plan : option ActiveRecoveryPlan) (intent : RecoveryArtifact) (from_staging : bool) : result ManifestStoreError () :=
  let report := ra_report intent in
  if decide (rr_slot (ra_reference intent) ≠ target_slot ∨ rp_report_generation report ≠ expected_generation)
  then Err MseInvalidManifest
  else
    let! committing := next_generation (mf_generation current) in
    if report_matches_source report current committing then
      match plan with
      | Some plan =>
        if decide (rp_original_journal_length report = plan_original_length plan ∧
                   rp_classification report = plan_classification plan)
        then Ok tt else Err MseInvalidManifest
      | None => if from_staging then Err MseInterruptedPublication else Ok tt
      end
    else Err MseInvalidManifest.
(** The report of what [plan] will remove. *)
Definition new_recovery (current : ManifestRecord) (target_slot expected_generation : Z) (plan : ActiveRecoveryPlan)
  : result ManifestStoreError PreparedRecoveryPublication :=
  let! report := map_err map_recovery_codec
    (report_new (mf_store_id current) expected_generation (mf_generation current) (manifest_checksum current)
       (mf_cutoff current) (mf_sequence_floor current) (plan_original_length plan) (plan_classification plan)) in
  prepare_recovery_report target_slot report.

(** How the report of a recovery gets into its slot. *)
Inductive recovery_source :=
| FromStaging (artifact : RecoveryArtifact) | FromSlot (artifact : RecoveryArtifact) | FromPlan (prepared : PreparedRecoveryPublication).
Definition source_artifact (source : recovery_source) : RecoveryArtifact :=
  match source with FromStaging artifact | FromSlot artifact => artifact | FromPlan prepared => px_artifact prepared end.
Definition publish_source (store_id : StoreId) (source : recovery_source) : StoreOp () :=
  match source with
  | FromStaging artifact => converge_recovery_staging artifact store_id
  | FromSlot _ => mret tt
  | FromPlan prepared => publish_prepared_recovery_report prepared
  end.
(** The journal, cut at the root or synchronized there. *)
Definition settle_journal (plan : option ActiveRecoveryPlan) (cutoff : DurableCutoff) : Method () :=
  match plan with Some plan => apply_recovery plan | None => synchronize_recovery_cutoff cutoff end.
Definition publish_next (staging : option ManifestRecord) (store_id : StoreId) (target : nat) (next : ManifestRecord)
    (prepared : PreparedManifestPublication) : StoreOp nat :=
  match staging with
  | Some _ => converge_manifest_staging target next
  | None => publish_prepared_manifest store_id prepared
  end.
(** The report, then the cut of the journal, then the manifest that names it. *)
Definition commit_recovery (inventory : RecoveryInventoryState) (plan : option ActiveRecoveryPlan) (source : recovery_source)
  : StoreMethod () :=
  s ← this;
  let current := ms_current s in
  let artifact := source_artifact source in
  _ ← refuse_if (is_Some plan ∧ is_Some (rv_manifest_staging inventory)) MseInvalidManifest;
  generation ← lift (next_generation (mf_generation current));
  let next := mkManifest generation (mf_registry current) (mf_cutoff current) (mf_retry current)
    (Some (ra_reference artifact)) (mf_sequence_floor current) (mf_catalog current) in
  prepared_manifest ← lift (prepare_manifest s next);
  _ ← refuse_if (is_some_and (λ staging, bool_decide (staging ≠ next)) (rv_manifest_staging inventory)) MseInvalidManifest;
  _ ← world_effect (publish_source (ms_store_id s) source);
  _ ← world_effect (mio MioSyncDirectory world_sync);
  _ ← journal_call (settle_journal plan (mf_cutoff current));
  slot ← world_effect (publish_next (rv_manifest_staging inventory) (ms_store_id s) (1 - ms_current_slot s) next prepared_manifest);
  let slots := set_slot slot next (ms_slots s) in
  _ ← modify (adopt_published_manifest slot next slots);
  _ ← modify (with_recovery_report (Some (ra_report artifact)));
  _ ← world_effect (remove_unreferenced_catalog_slots slots);
  _ ← world_effect (remove_unreferenced_retry_slots slots);
  world_effect (remove_unreferenced_recovery_slots slots (mf_store_id current)).
Definition converge_recovery (inventory : RecoveryInventoryState) (plan : option ActiveRecoveryPlan) : StoreMethod () :=
  s ← this;
  let current := ms_current s in
  let referenced := referenced_recoveries (ms_slots s) in
  target_slot ← lift (ok_or (free_slot (rr_slot <$> referenced)) MseInvalidManifest);
  let latest := from_option rp_report_generation 0 (ms_recovery_report s) in
  candidate ← lift (recovery_candidate referenced latest (omap id (rv_slots inventory)) None);
  _ ← refuse_if (is_Some (rv_staging inventory) ∧ is_Some candidate) MseInvalidManifest;
  expected_generation ← lift (next_generation latest);
  interrupted ← lift (interrupted_recovery (rv_staging inventory) candidate target_slot);
  match interrupted with
  | Some (artifact, from_staging) =>
    _ ← lift (check_interrupted current target_slot expected_generation plan artifact from_staging);
    commit_recovery inventory plan (if (from_staging : bool) then FromStaging artifact else FromSlot artifact)
  | None =>
    _ ← refuse_if (is_Some (rv_manifest_staging inventory)) MseInterruptedPublication;
    match plan with
    | None => world_effect (remove_unreferenced_recovery_slots (ms_slots s) (mf_store_id current))
    | Some recovery =>
      prepared ← lift (new_recovery current target_slot expected_generation recovery);
      commit_recovery inventory plan (FromPlan prepared)
    end
  end.

(** ** A committed root *)

Definition map_root_open (error : ManifestRootOpenError) : ManifestStoreError :=
  match error with RootMismatch => MseInvalidManifest | RootActive error => MseActive error end.
Definition open_root_journal (c : ActiveJournalConfig) (root : DurableCutoff)
  : StoreOp (ActiveJournal * option ActiveRecoveryPlan) := λ w,
  let '(r, d) := open_manifest_root c root (w_disk w) in (map_err map_root_open r, mkWorld d (w_dir w)).
Definition referenced_report (inventory : RecoveryInventoryState) (reference : option RecoveryReference)
  : result ManifestStoreError (option RecoveryReport) :=
  match reference with
  | None => Ok None
  | Some reference => let! report := referenced_recovery inventory reference in Ok (Some report)
  end.
(** Everything the open reads before it changes anything, and the handle. *)
Definition load_committed (c : ManifestStoreConfig) (slots : manifest_slots) (current_slot : nat) (current : ManifestRecord)
    (rotation_intent : option RotationIntent)
  : StoreOp (ManifestStore * RecoveryInventoryState * option ActiveRecoveryPlan) :=
  let store_id := sc_store_id c in
  active_config ← lift (journal_config (sc_directory c) store_id OpenExisting (sc_journal_limits c) (mf_journal current)
                          (mf_sequence_floor current));
  '(journal, recovery_plan) ← open_root_journal active_config (mf_cutoff current);
  registry ← read_referenced_registry (mf_registry current) store_id;
  _ ← validate_registry_inventory slots (mf_registry current) store_id;
  catalog ← read_catalog_or_empty (mf_catalog current) store_id;
  _ ← validate_catalog_inventory slots store_id;
  inventory ← inspect_inventory;
  _ ← lift (validate_generation_inventory inventory current catalog rotation_intent);
  recovery_inventory ← read_recovery_inventory store_id;
  _ ← lift (validate_recovery_manifest_progression slots recovery_inventory);
  _ ← lift (map_err (λ _, MseInvalidRegistry) (validate_recovered_declarations registry (aj_records journal)));
  retry ← read_referenced_retry current store_id (sc_retry c) catalog;
  _ ← validate_retry_inventory slots store_id (sc_retry c) (bool_decide (is_Some rotation_intent));
  _ ← lift (validate_recovery_report_coverage slots recovery_inventory current catalog journal);
  report ← lift (referenced_report recovery_inventory (mf_recovery current));
  mret (mkStore journal registry retry catalog report slots current_slot current Writable, recovery_inventory, recovery_plan).
Definition open_committed (c : ManifestStoreConfig) (slots : manifest_slots) (current_slot : nat) (current : ManifestRecord)
    (rotation_intent : option RotationIntent) : StoreOp ManifestStore := λ w,
  match load_committed c slots current_slot current rotation_intent w with
  | (Err error, w) => (Err error, w)
  | (Ok (s, recovery_inventory, recovery_plan), w) =>
    match converge_recovery recovery_inventory recovery_plan (s, w) with
    | (Err error, (_, w)) => (Err error, w)
    | (Ok _, (s, w)) =>
      (_ ← (if decide (is_Some (mf_recovery (ms_current s))) then mio MioSyncDirectory world_sync else mret tt);
       mret s) w
    end
  end.

(** ** The store *)

(** [open_directory]: the metadata, and the directory itself. *)
Definition open_store_directory : StoreOp () :=
  _ ← mio MioOpenDirectory dir_event;
  mio MioOpenDirectory dir_event.
(** The owner of the directory holds the locks of the store and of its journal. *)
Definition lock_store : StoreOp () := λ w,
  let '(r, d) := try_lock (w_disk w) in
  (map_err (λ error, match error with
                     | None => MseAlreadyOpen
                     | Some error => classify_manifest_io MioLockStore error
                     end) r, mkWorld d (w_dir w)).
(** The lock file, and the marker of a directory that has none. *)
Definition acquire_store (c : ManifestStoreConfig) (preflight : FormatPreflight) : StoreOp () :=
  _ ← (if decide (preflight = EmptyCreate) then mio MioCreateArtifact (dir_create STORE_LOCK_FILE_NAME)
       else mio MioOpenArtifact (dir_open STORE_LOCK_FILE_NAME));
  _ ← lock_store;
  match preflight with
  | EmptyCreate => _ ← mio MioSyncDirectory world_sync; publish_store_format_marker (sc_store_id c)
  | MarkerStaging => converge_store_format_marker (sc_store_id c)
  | CurrentFormat => mret tt
  end.
(** An interrupted rotation: rolled back, or its intent when it was committed. *)
Definition converge_rotation (c : ManifestStoreConfig) (inventory : Inventory) (slots : manifest_slots)
  : StoreOp (Inventory * manifest_slots * option RotationIntent) :=
  if iv_rotation_intent inventory then
    recovery_inventory ← read_recovery_inventory (sc_store_id c);
    _ ← lift (validate_recovery_manifest_progression slots recovery_inventory);
    _ ← lift (validate_no_pending_recovery slots recovery_inventory);
    selected ← lift (select_current_manifest slots);
    '(_, current) ← lift (ok_or selected MseInvalidGeneration);
    intent ← read_rotation_intent (sc_store_id c);
    if decide (mf_journal current = ri_source_generation intent) then
      _ ← rollback_uncommitted_rotation c slots current intent;
      inventory ← inspect_inventory;
      slots ← read_manifest_slots (sc_store_id c);
      mret (inventory, slots, None)
    else
      _ ← refuse_if (mf_journal current ≠ ri_successor_generation intent) MseInvalidGeneration;
      _ ← validate_committed_rotation_transition slots current intent (sc_store_id c);
      mret (inventory, slots, Some intent)
  else mret (inventory, slots, None).
Definition finish_open (committed_intent : option RotationIntent) (s : ManifestStore) : StoreOp ManifestStore :=
  _ ← match committed_intent with
      | Some intent =>
        _ ← cleanup_committed_rotation (ri_source_generation intent);
        remove_unreferenced_retry_slots (ms_slots s)
      | None => mret tt
      end;
  _ ← remove_unreferenced_catalog_slots (ms_slots s);
  _ ← remove_unreferenced_recovery_slots (ms_slots s) (ms_store_id s);
  mret s.
(** [ManifestStore::open]. *)
Definition store_open (c : ManifestStoreConfig) : StoreOp ManifestStore :=
  _ ← open_store_directory;
  preflight ← preflight_store_format c;
  _ ← lift (preflight_genesis_records c);
  _ ← acquire_store c preflight;
  repeated ← preflight_store_format c;
  _ ← refuse_if (repeated ≠ CurrentFormat) MseUnsupportedStoreFormat;
  inventory ← inspect_inventory;
  _ ← refuse_if ((iv_registry_staging inventory ∨ iv_retry_staging inventory ∨ iv_rotation_staging inventory) ∧
                 ¬ iv_rotation_intent inventory) MseInterruptedPublication;
  slots ← read_manifest_slots (sc_store_id c);
  '(inventory, slots, committed_intent) ← converge_rotation c inventory slots;
  selected ← lift (select_current_manifest slots);
  match selected with
  | Some (current_slot, current) =>
    _ ← refuse_if (sc_mode c ≠ OpenExisting) MseInvalidInventory;
    s ← open_committed c slots current_slot current committed_intent;
    finish_open committed_intent s
  | None => initialize_genesis c inventory slots
  end.
