(* ===== verification/Looks.v ===== *)
(** * Reading a settled directory

    Programs that only look at a world in which nothing fails: they leave it as it
    is, and what they answer is read off the entries. From a directory whose files
    are all settled, the manifests, registries, retry states and catalogs that an
    open reads are held there for good. *)

From S2P Require Import Prelude Bytes Identity Series Registry Layout Crc Commit Journal Generation Retry RetryCodec Recovery.
From S2P Require Import Active Scan Effects Disk Segment Manifest RegistryReplay RegistryCodec.
From S2P Require Import Directory Publish Roots Store Committed Custody Commitment Inventory.

(** ** Looking *)

(** The world is as it was and, if it answers, [P] holds of the answer. *)
Definition look {E A} (m : M world E A) (w : world) (P : A → Prop) : Prop :=
  outcome m w (λ a w', w' = w ∧ P a) (λ _ w', w' = w).
Section looks.
Context {E : Type}.

Lemma look_then {A B} (m : M world E A) (k : A → M world E B) w (P : A → Prop) Q (R : E → world → Prop) :
  look m w P → (∀ a, P a → outcome (k a) w Q R) → (∀ e, R e w) → outcome (m ≫= k) w Q R.
Proof.
  intros Hm Hk Hr. apply outcome_bind. eapply outcome_weaken; [exact Hm| |by intros e w' ->]. intros a w' [-> Ha]. by apply Hk.
Qed.
Lemma look_weaken {A} (m : M world E A) w (P P' : A → Prop) : look m w P → (∀ a, P a → P' a) → look m w P'.
Proof. intros Hm HP. eapply outcome_weaken; [exact Hm| |done]. intros a w' [-> ?]. auto. Qed.
Lemma look_bind {A B} (m : M world E A) (k : A → M world E B) w (P : A → Prop) (P' : B → Prop) :
  look m w P → (∀ a, P a → look (k a) w P') → look (m ≫= k) w P'.
Proof. intros. by eapply look_then. Qed.
Lemma look_ret {A} (a : A) w (P : A → Prop) : P a → look (mret a : M world E A) w P.
Proof. intros. by apply outcome_ret. Qed.
Lemma look_fail {A} (e : E) w (P : A → Prop) : look (fail e) w P.
Proof. by apply outcome_fail. Qed.
Lemma look_lift {A} (r : result E A) w : look (lift r) w (λ a, r = Ok a).
Proof. unfold look, outcome, lift. by destruct r. Qed.
Lemma look_refuse (P : Prop) `{Decision P} (e : E) w : look (refuse_if P e) w (λ _, ¬ P).
Proof. apply outcome_refuse. auto. Qed.
Lemma look_map_err {F A} (f : F → E) (m : M world F A) w P : look m w P → look (map_err_m f m) w P.
Proof. intros. by apply outcome_map_err. Qed.
Lemma look_dir {A} (f : IoError → E) (done : dir → result IoError A * dir) failed w :
  quiet (w_disk w) → (done (w_dir w)).2 = w_dir w → look (map_err_m f (dir_op done failed)) w (λ a, (done (w_dir w)).1 = Ok a).
Proof.
  unfold quiet, look, outcome, map_err_m, dir_op, io_op. intros ->. destruct (done (w_dir w)) as [r d]. cbn. intros ->.
  destruct w. by destruct r.
Qed.
Lemma look_quiet {A} (m : M world E A) w a : m w = (Ok a, w) → look m w (λ x, x = a).
Proof. unfold look, outcome. by intros ->. Qed.
Lemma look_any {A} (m : M world E A) w P : look m w P → look m w (λ _, True).
Proof. intros. by eapply look_weaken. Qed.
End looks.
#[export] Hint Resolve look_ret look_fail : och.

Lemma mapped_Ok {E F A} (f : E → F) (r : result E A) a : map_err f r = Ok a → r = Ok a.
Proof. destruct r; [by intros [= ->]|done]. Qed.
Lemma aged_quiet d d' : quiet d → aged d d' → d' = d.
Proof.
  destruct d as [fs es lk ev], d' as [fs' es' lk' ev']. unfold quiet. cbn. intros -> [E1 E2 E3 E4]. cbn in *. subst.
  by apply suffix_nil_inv in E4 as ->.
Qed.
Lemma look_disk {E A} (f : IoError → E) (m : M disk IoError A) w :
  quiet (w_disk w) → (m (w_disk w)).2 = w_disk w → look (map_err_m f (on_disk m)) w (λ _, True).
Proof.
  unfold look, outcome, map_err_m, on_disk. intros Hq. destruct (m (w_disk w)) as [r d]. cbn. intros ->. destruct w, r; done.
Qed.

(** ** Reading files *)

(** Every file is settled, and so are the entries. *)
Definition tidy (d : dir) : Prop := dr_past d = [] ∧ ∀ name f, dr_now d !! name = Some f → sf_settled f = true.
Lemma tidy_shows d name P : tidy d → P (dr_now d !! name) → shows d name P.
Proof. intros [Hp _] H m. rewrite Hp. by intros ->%list_elem_of_singleton. Qed.
Lemma survives_tidy d d' : dir_survives d d' → tidy d'.
Proof.
  intros [Hp Hs]. split; [done|]. intros name f Hf. destruct (Hs name) as (m & _ & Hx). rewrite Hf in Hx. by inversion Hx.
Qed.

Lemma world_eq w w' : w_disk w' = w_disk w → w_dir w' = w_dir w → w' = w.
Proof. destruct w, w'. cbn. congruence. Qed.

Section reading.
Context (w : world) (Hq : quiet (w_disk w)) (Ht : tidy (w_dir w)).
Local Abbreviation now := (dr_now (w_dir w)).

Lemma look_required name maximum : look (read_required_bounded name maximum) w (λ b, now !! name = Some (settled b)).
Proof using Hq Ht.
  eapply outcome_read_required; [|intros e w' [Ha Ed]; apply world_eq; [by apply aged_quiet|done]].
  intros bytes w' [Ha Ed] [f Hf] -> _. pose proof (aged_quiet _ _ Hq Ha) as Edk.
  split; [by apply world_eq|]. unfold dir_data. rewrite Hf. cbn [from_option].
  pose proof (proj2 Ht _ _ Hf). destruct f as [b s]. cbn in *. by subst s.
Qed.
Lemma look_optional name maximum : look (read_optional_bounded name maximum) w (λ o, now !! name = settled <$> o).
Proof using Hq Ht.
  pose proof (look_required name maximum) as H. unfold look, outcome, read_optional_bounded in *.
  destruct (read_required_bounded name maximum w) as [[b|e] w'] eqn:E; [by destruct H as [-> ->]|]. subst w'.
  destruct (now !! name) as [f|] eqn:Hf.
  - (* The file is there: the failure is not that it is missing. *)
    unfold read_required_bounded, mio, dir_open, dir_len, dir_read in E.
    rewrite (run_bind_Ok _ _ _ () w) in E by (apply dir_look_quiet; [done|by rewrite Hf]).
    rewrite (run_bind_Ok _ _ _ _ w) in E by (by apply dir_look_quiet).
    revert E. unfold refuse_if, mbind, M_bind. case_decide; [intros [= <-]; done|].
    cbn [mret M_ret]. unfold mret, M_ret. unfold map_err_m, dir_op, io_op. unfold quiet in Hq. rewrite Hq.
    rewrite decide_True by done. done.
  - unfold read_required_bounded, mio, dir_open in E.
    assert (map_err_m (classify_manifest_io MioRead) (dir_open name) w =
      (Err (classify_manifest_io MioRead (mkIoError NotFound None)), w)) as E1
      by (unfold map_err_m, dir_open, dir_op, io_op; unfold quiet in Hq; rewrite Hq, Hf; apply (f_equal (pair _)); by apply world_eq).
    rewrite (run_bind_Err _ _ _ _ _ E1) in E. injection E as <-. cbn. split; done.
Qed.

(** Loops whose body looks. *)
Lemma look_each {A} (body : A → StoreOp ()) l (P : A → Prop) :
  (∀ a, a ∈ l → look (body a) w (λ _, P a)) → look (each body l) w (λ _, ∀ a, a ∈ l → P a).
Proof using Type.
  induction l as [|a l IH]; intros Hb; cbn [each]; [apply look_ret; by intros ? ?%not_elem_of_nil|].
  eapply look_bind; [by apply Hb; left|]. intros [] Ha. eapply look_weaken; [apply IH; intros b ?; apply Hb; by right|].
  intros [] H b [Eb|Hin]%elem_of_cons; [by rewrite Eb|auto].
Qed.
Lemma look_each_slot {A} names maximum slot (body : Z → list byte → A → StoreOp A) acc :
  (∀ slot bytes acc, look (body slot bytes acc) w (λ _, True)) → look (each_slot names maximum slot body acc) w (λ _, True).
Proof using Hq Ht.
  intros Hb. revert slot acc. induction names as [|name names IH]; intros slot acc; cbn [each_slot]; [by apply look_ret|].
  eapply look_bind; [apply look_optional|]. intros [bytes|] _; [|apply IH]. eapply look_bind; [apply Hb|]. intros acc' _. apply IH.
Qed.

(** ** Roots *)

Context (store : StoreId) (options : RetryPersistenceOptions).

Lemma look_manifest_slot name :
  look (read_manifest_slot name store) w (λ o, now !! name = slot_file o ∧ ∀ m, o = Some m → retained store m).
Proof using Hq Ht.
  unfold read_manifest_slot. eapply look_bind; [apply look_optional|]. intros [bytes|] Hn; [|by apply look_ret].
  eapply look_bind; [apply look_lift|]. intros m Hm%retained_decoded. destruct Hm as [Hr ->]. apply look_ret. split; [done|].
  by intros ? [= <-].
Qed.
Lemma look_manifest_slots :
  look (read_manifest_slots store) w (λ slots, now_stands now slots ∧ ∀ m, m ∈ slot_list slots → retained store m).
Proof using Hq Ht.
  unfold read_manifest_slots. eapply look_bind; [apply look_manifest_slot|]. intros a [Ha Hra].
  eapply look_bind; [apply look_manifest_slot|]. intros b [Hb Hrb]. apply look_ret. split.
  - intros [|[|j]] Hj; [done..|lia].
  - intros m ([|[|j]] & Hj & Hm)%slot_list_at; [auto..|lia].
Qed.

Lemma slot_name_found names slot error name : slot_name names slot error = Ok name → name = nth (Z.to_nat slot) names [].
Proof using Type.
  unfold slot_name. destruct (names !! Z.to_nat slot) eqn:H; [intros [= ->]|done]. symmetry. by apply nth_lookup_Some.
Qed.
(** What is read of a manifest's artifacts. *)
Definition found_registry (m : ManifestRecord) (r : SeriesRegistry) : Prop :=
  ∃ bytes, now !! registry_file m = Some (settled bytes) ∧ holds_registry store m r bytes.
Definition found_retry (m : ManifestRecord) (catalog : GenerationCatalogSnapshot) (t : RetryStateSnapshot) : Prop :=
  ∃ bytes, now !! retry_file m = Some (settled bytes) ∧ holds_retry store options m t catalog bytes.
Definition found_catalog (reference : option GenerationCatalogReference) (catalog : GenerationCatalogSnapshot) : Prop :=
  match reference with
  | None => catalog = catalog_empty store
  | Some c => ∃ bytes, now !! catalog_file c = Some (settled bytes) ∧ holds_catalog store c catalog bytes
  end ∧ cs_store_id catalog = store ∧
  ∀ e, e ∈ cs_entries catalog → sealed_file store e (now !! sealed_journal_file_name (sg_journal_generation e)).

Lemma look_registry m : look (read_referenced_registry (mf_registry m) store) w (found_registry m).
Proof using Hq Ht.
  unfold read_referenced_registry. eapply look_bind; [apply look_lift|]. intros name ->%slot_name_found.
  eapply look_bind; [apply look_required|]. intros bytes Hb. eapply look_bind; [apply look_refuse|]. intros [] H1.
  eapply look_bind; [apply look_lift|]. intros d Hd. eapply look_bind; [apply look_refuse|]. intros [] H2.
  eapply look_bind; [apply look_refuse|]. intros [] H3. apply look_ret. exists bytes. split; [done|].
  assert (dr_reference d = mf_registry m) as E by not_refused. destruct d as [reference r]. cbn in *. subst reference.
  split; [not_refused|not_refused|done|not_refused].
Qed.
Lemma look_retry m catalog : look (read_referenced_retry m store options catalog) w (found_retry m catalog).
Proof using Hq Ht.
  unfold read_referenced_retry. eapply look_bind; [apply look_lift|]. intros name ->%slot_name_found.
  eapply look_bind; [apply look_required|]. intros bytes Hb. eapply look_bind; [apply look_refuse|]. intros [] H1.
  eapply look_bind; [apply look_lift|]. intros [reference t] Hd%mapped_Ok. eapply look_bind; [apply look_refuse|]. intros [] H2.
  apply look_ret. exists bytes. split; [done|]. cbn [fst snd] in *. assert (reference = mf_retry m) as -> by not_refused.
  split; [not_refused|not_refused|done|]. destruct (validates_root_with_catalog _ _ _); [done|]. destruct H2. right. by intros [].
Qed.
Lemma look_sealed e :
  look (validate_sealed_metadata store e) w (λ _, sealed_file store e (now !! sealed_journal_file_name (sg_journal_generation e))).
Proof using Hq Ht.
  unfold validate_sealed_metadata. set (name := sealed_journal_file_name (sg_journal_generation e)).
  eapply look_bind; [by apply look_dir; [|destruct (now !! name)]|]. cbv beta. intros [] Hn.
  destruct (now !! name) as [f|] eqn:Hf; [|done]. assert (sf_settled f = true) as Hs by by eapply Ht.
  destruct f as [bytes b]. cbn in Hs. subst b. assert (dir_data (w_dir w) name = bytes) as Hd by (unfold dir_data; by rewrite Hf).
  eapply look_bind; [by apply look_dir|]. intros n Hl. injection Hl as <-. rewrite Hd. eapply look_bind; [apply look_refuse|]. intros [] Hlen.
  eapply look_bind; [by apply look_dir; [|case_decide]|]. cbv beta. rewrite Hd. intros header Hh. case_decide; [|done]. injection Hh as <-.
  eapply look_bind; [apply look_lift|]. intros h Hh%mapped_Ok. eapply look_weaken; [apply look_refuse|]. intros [] Hst.
  exists bytes. split_and!; [done|not_refused|not_refused|lia|]. rewrite Hh. f_equal. destruct h as [x]. f_equal. apply dec_stable. naive_solver.
Qed.
Lemma look_catalog c : look (read_referenced_catalog c store) w (found_catalog (Some c)).
Proof using Hq Ht.
  unfold read_referenced_catalog. eapply look_bind; [apply look_lift|]. intros name ->%slot_name_found.
  eapply look_bind; [apply look_required|]. intros bytes Hb. eapply look_bind; [apply look_refuse|]. intros [] H1.
  eapply look_bind; [apply look_lift|]. intros catalog Hd%mapped_Ok. eapply look_bind; [apply look_refuse|]. intros [] H2.
  pose proof (decode_catalog_sound _ _ _ _ Hd) as (_ & Hcs & _).
  unfold validate_sealed_inventory_metadata. rewrite Hcs. eapply look_bind; [apply look_each; intros e _; apply look_sealed|].
  intros [] He. apply look_ret. split_and!; [|done|done]. exists bytes. split; [done|]. split; [not_refused|not_refused|done|not_refused].
Qed.
Lemma look_catalog_or_empty reference : look (read_catalog_or_empty reference store) w (found_catalog reference).
Proof using Hq Ht.
  destruct reference as [c|]; cbn [read_catalog_or_empty]; [apply look_catalog|]. apply look_ret. split_and!; [done..|].
  by intros e ?%not_elem_of_nil.
Qed.

(** What was read is held. *)
Lemma found_held m r t catalog :
  found_registry m r → found_retry m catalog t → found_catalog (mf_catalog m) catalog →
  holds_root store options (w_dir w) (mkRoot m r t catalog).
Proof using Ht.
  intros (b & Hb & Hg) (b' & Hb' & Hr) (Hc & Hst & He). split; cbn [r_manifest r_registry r_retry r_catalog]; [| | |done|].
  - exists b. split; [by apply tidy_shows|done].
  - exists b'. split; [by apply tidy_shows|done].
  - destruct (mf_catalog m); [|done]. destruct Hc as (b2 & H2 & Hc). exists b2. split; [by apply tidy_shows|done].
  - intros e Hin. apply tidy_shows; [done|by apply He].
Qed.
Lemma look_run {A} (m : StoreOp A) (P : A → Prop) a : look m w P → m w = (Ok a, w) → P a.
Proof using Type. unfold look, outcome. intros H E. rewrite E in H. by destruct H. Qed.
(** A root that the directory reads back is held there. *)
Lemma reads_held x : reads store options (dr_now (w_dir w)) x →
  holds_root store options (w_dir w) x ∧ ∃ slots k, standing store slots k (r_manifest x) (w_dir w).
Proof using Hq Ht.
  intros [Hm Hr Hc Hy]. specialize (Hm w Hq eq_refl). specialize (Hr w Hq eq_refl). specialize (Hc w Hq eq_refl). specialize (Hy w Hq eq_refl).
  destruct Hm as (slots & k & Hslots & Hsel). split.
  - pose proof (look_run _ _ _ (look_registry _) Hr). pose proof (look_run _ _ _ (look_retry _ _) Hy).
    pose proof (look_run _ _ _ (look_catalog_or_empty _) Hc). destruct x as [m r t catalog]. by apply found_held.
  - destruct (look_run _ _ _ look_manifest_slots Hslots) as [Hn Hre]. exists slots, k. split; [|done..].
    intros j Hj. apply tidy_shows; [done|by apply Hn].
Qed.
End reading.

(** ** Looking without a claim *)

Create HintDb looks discriminated.
#[export] Hint Constants Opaque : looks.
Definition looks {A} (m : StoreOp A) : Prop := ∀ w, quiet (w_disk w) → tidy (w_dir w) → look m w (λ _, True).
Lemma looks_bind {A B} (m : StoreOp A) (k : A → StoreOp B) : looks m → (∀ a, looks (k a)) → looks (m ≫= k).
Proof. intros Hm Hk w Hq Ht. eapply look_bind; [by apply Hm|]. intros a _. by apply Hk. Qed.
Lemma looks_ret {A} (a : A) : looks (mret a).
Proof. intros w _ _. by apply look_ret. Qed.
Lemma looks_fail {A} e : looks (fail e : StoreOp A).
Proof. intros w _ _. apply look_fail. Qed.
Lemma looks_lift {A} (r : result ManifestStoreError A) : looks (lift r).
Proof. intros w _ _. eapply look_any, look_lift. Qed.
Lemma looks_refuse P `{Decision P} e : looks (refuse_if P e).
Proof. intros w _ _. eapply look_any, look_refuse. Qed.
Lemma looks_get {A} (k : world → StoreOp A) : (∀ w, looks (k w)) → looks (get ≫= k).
Proof. intros Hk w Hq Ht. by apply (Hk w). Qed.
Lemma looks_map_err {A} f (m : StoreOp A) : looks m → looks (map_err_m f m).
Proof. intros Hm w Hq Ht. by apply look_map_err, Hm. Qed.
Lemma looks_dir {A} op (done : dir → result IoError A * dir) failed :
  (∀ d, (done d).2 = d) → looks (mio op (dir_op done failed)).
Proof. intros Hd w Hq _. by eapply look_any, look_dir. Qed.
Lemma looks_open op name : looks (mio op (dir_open name)).
Proof. apply looks_dir. intros d. by case_match. Qed.
Lemma looks_len op name : looks (mio op (dir_len name)).
Proof. by apply looks_dir. Qed.
Lemma looks_read op name n : looks (mio op (dir_read name n)).
Proof. apply looks_dir. intros d. by case_decide. Qed.
Lemma looks_exists op name : looks (mio op (dir_exists name)).
Proof. by apply looks_dir. Qed.
Lemma looks_event op : looks (mio op dir_event).
Proof. by apply looks_dir. Qed.
Lemma looks_disk {A} op (m : M disk IoError A) : (∀ d, quiet d → (m d).2 = d) → looks (mio op (on_disk m)).
Proof. intros Hm w Hq _. apply look_disk; auto. Qed.
Lemma looks_disk_open op name : looks (mio op (on_disk (open_existing_file name))).
Proof. apply looks_disk. intros d Hq. unfold open_existing_file, io_op. unfold quiet in Hq. rewrite Hq. by case_match. Qed.
Lemma looks_disk_len op name : looks (mio op (on_disk (file_len name))).
Proof. apply looks_disk. intros d Hq. unfold file_len, io_op. unfold quiet in Hq. by rewrite Hq. Qed.
Lemma looks_disk_read op name position n : looks (mio op (on_disk (read_exact name position n))).
Proof. apply looks_disk. intros d Hq. unfold read_exact, io_op. unfold quiet in Hq. rewrite Hq. by case_decide. Qed.
Lemma looks_required name maximum : looks (read_required_bounded name maximum).
Proof. intros w Hq Ht. by eapply look_any, look_required. Qed.
Lemma looks_optional name maximum : looks (read_optional_bounded name maximum).
Proof. intros w Hq Ht. by eapply look_any, look_optional. Qed.
Lemma looks_each {A} (body : A → StoreOp ()) l : (∀ a, looks (body a)) → looks (each body l).
Proof. intros Hb w Hq Ht. eapply look_any, look_each. intros a _. by apply Hb. Qed.
Lemma looks_each_slot {A} names maximum slot (body : Z → list byte → A → StoreOp A) acc :
  (∀ slot bytes acc, looks (body slot bytes acc)) → looks (each_slot names maximum slot body acc).
Proof. intros Hb w Hq Ht. apply look_each_slot; [done..|]. intros. by apply Hb. Qed.
#[export] Hint Resolve looks_ret looks_fail looks_lift looks_refuse looks_open looks_len looks_read looks_exists looks_event : looks.
#[export] Hint Resolve looks_disk_open looks_disk_len looks_disk_read looks_required looks_optional : looks.
Ltac looking := repeat lazymatch goal with
  | |- looks (get ≫= _) => apply looks_get; intros ?
  | |- looks (_ ≫= _) => apply looks_bind; [|intros ?]
  | |- looks (each _ _) => apply looks_each; intros ?
  | |- looks (each_slot _ _ _ _ _) => apply looks_each_slot; intros ???
  | |- looks (map_err_m _ _) => apply looks_map_err
  | |- looks (match _ with _ => _ end) => case_match
  | |- looks _ => solve [auto 1 with looks nocore]
  end.

(** The same in one world. *)
Ltac looking_here := lazymatch goal with |- look ?m _ _ => cut (looks m); [intros Hx; by apply Hx|cbv zeta; looking] end.

Lemma looks_classify_entries names count sealed : looks (classify_entries names count sealed).
Proof. revert count sealed. induction names as [|name names IH]; intros count sealed; cbn [classify_entries]; looking; apply IH. Qed.
Lemma looks_inspect_inventory : looks inspect_inventory.
Proof. unfold inspect_inventory. looking. apply looks_classify_entries. Qed.
#[export] Hint Resolve looks_inspect_inventory : looks.
Lemma looks_manifest_slot name store : looks (read_manifest_slot name store).
Proof. unfold read_manifest_slot. looking. Qed.
#[export] Hint Resolve looks_manifest_slot : looks.
Lemma looks_preflight_staging name maximum accept : looks (preflight_staging name maximum accept).
Proof.
  intros w Hq Ht. pose proof (look_optional w Hq Ht name maximum) as H. unfold look, outcome, preflight_staging in *.
  destruct (read_optional_bounded name maximum w) as [[[b|]|e] w']; [destruct H as [-> _]; by destruct (accept b)|by destruct H as [-> _]|].
  by destruct e.
Qed.
#[export] Hint Resolve looks_preflight_staging : looks.
Lemma looks_preflight_versions c inventory : looks (preflight_current_artifact_versions c inventory).
Proof. unfold preflight_current_artifact_versions, preflight_manifest_slot, preflight_journal. cbv zeta. looking. Qed.
#[export] Hint Resolve looks_preflight_versions : looks.
Lemma looks_preflight c : looks (preflight_store_format c).
Proof. unfold preflight_store_format, unsupported_but_io, unsupported. looking. Qed.
Lemma looks_recovery_slot name slot store : looks (read_recovery_slot name slot store).
Proof. unfold read_recovery_slot. looking. Qed.
#[export] Hint Resolve looks_recovery_slot : looks.
Lemma looks_recovery_slots names slot store : looks (read_recovery_slots names slot store).
Proof. revert slot. induction names as [|name names IH]; intros slot; cbn [read_recovery_slots]; looking; apply IH. Qed.
#[export] Hint Resolve looks_recovery_slots : looks.
Lemma looks_recovery_inventory store : looks (read_recovery_inventory store).
Proof. unfold read_recovery_inventory. looking. Qed.
Lemma looks_sealed_metadata store e : looks (validate_sealed_metadata store e).
Proof. unfold validate_sealed_metadata. cbv zeta. looking. Qed.
#[export] Hint Resolve looks_sealed_metadata looks_recovery_inventory : looks.
Lemma looks_referenced_catalog c store : looks (read_referenced_catalog c store).
Proof. unfold read_referenced_catalog, validate_sealed_inventory_metadata. looking. Qed.
#[export] Hint Resolve looks_referenced_catalog : looks.
Lemma looks_catalog_or_empty reference store : looks (read_catalog_or_empty reference store).
Proof. unfold read_catalog_or_empty. looking. Qed.
#[export] Hint Resolve looks_catalog_or_empty : looks.
Lemma looks_referenced_catalogs ms store : looks (referenced_catalogs ms store).
Proof. induction ms as [|m ms IH]; cbn [referenced_catalogs]; looking; apply IH. Qed.
#[export] Hint Resolve looks_referenced_catalogs : looks.
Lemma looks_catalog_inventory slots store : looks (validate_catalog_inventory slots store).
Proof. unfold validate_catalog_inventory, validate_sealed_inventory_metadata. cbv zeta. looking. Qed.
