(* ===== verification/Reload.v ===== *)
(** * Loading a committed root

    What [ManifestStore::open] has read when it builds its handle, in a settled
    directory and when nothing fails: a handle that is committed to the root of the
    directory and whose journal stands at the records that the root covers. *)

From S2P Require Import Prelude Bytes Identity Series Collection Registry Admission Wire Layout Crc Commit Journal Generation Retry RetryCodec Recovery.
From S2P Require Import Active Slots Scan Effects Crash Reopen Handle Restart Root Resume Disk Segment Manifest RegistryReplay RegistryCodec.
From S2P Require Import Directory Publish Roots Store Committed Custody RetryRoot Commitment Barrier Inventory Genesis Looks Sealed Rotation OpenStore.

(** ** The journal *)

Lemma journal_config_Ok directory store mode limits generation floor config :
  journal_config directory store mode limits generation floor = Ok config →
  config_identity config = mkJournalIdentity store generation ∧ ac_sequence_floor config = floor ∧ ac_limits config = limits ∧
  (generation = ACTIVE_JOURNAL_GENERATION → floor = 0).
Proof.
  unfold journal_config. destruct (config_new _ _ _ _) as [x|] eqn:Ex; [|done]. intros H%mapped_Ok.
  unfold config_new in Ex. rewrite guard_Ok in Ex. destruct Ex as [_ [= <-]]. unfold manifest_generation in H. rewrite guard_Ok in H.
  destruct H as [Hn [= <-]]. unfold config_identity. destruct mode; cbn; (split_and!; [done..|intros E; apply dec_stable; naive_solver]).
Qed.

Section reload.
Context (c : ManifestStoreConfig) (i : JournalIdentity) (floor : Z).
Local Abbreviation store := (sc_store_id c).
Local Abbreviation options := (sc_retry c).
Local Abbreviation limits := (sc_journal_limits c).
Context (Hi : wf i) (Hl : wf limits) (Hf : is_u64 floor).
Local Abbreviation committed := (committed store options).
Local Abbreviation holds_root := (holds_root store options).
Local Abbreviation recoverable := (recoverable i floor limits).
Local Abbreviation cut_at := (cut_at floor).

(** The handle that a root-directed open answers, and its plan. *)
Record at_records (H : list DecodedAdmissionV1) (k : nat) (ck : CheckpointState) (data : list byte) (root : DurableCutoff)
    (j : ActiveJournal) (plan : option ActiveRecoveryPlan) : Prop := {
  ac_at : ∃ config m, ac_limits config = limits ∧ (m ≤ k)%nat ∧ cut_at H m ck ∧ root = durable_cutoff_from_state i ck ∧
    j = resumed i config H m ck;
  ac_plan : plan = None → len data = cut_end_offset root }.
Lemma look_root_journal config root w H k ck other :
  quiet (w_disk w) → recoverable (w_disk w) H k ck other None →
  config_identity config = i → ac_sequence_floor config = floor → ac_limits config = limits →
  look (open_root_journal config root) w (λ p, at_records H k ck (data_of (w_disk w) (journal_name i)) root p.1 p.2).
Proof using Hi Hl Hf.
  intros Hq Hr Ei Ef El. pose proof (root_open_resumes i floor limits Hi Hl Hf config root (w_disk w) H k ck other Hr Ei Ef El) as H1.
  pose proof (root_open_reads config root (w_disk w)) as H2. rewrite Ei in H2. pose proof (outcome_and _ _ _ _ _ _ H1 H2) as H3.
  unfold look, outcome, open_root_journal in *. destruct (open_manifest_root config root (w_disk w)) as [[[j plan]|e] d'].
  2:{ apply world_eq; [|done]. by apply aged_quiet. }
  cbn [fst snd map_err] in *. destruct H3 as [(m & Hm & Hc & Hroot & ->) [Ha [_ _ _ _ _ Hp]]].
  split; [apply world_eq; [by apply aged_quiet|done]|]. split; [by exists config, m|]. by intros ->.
Qed.

(** ** The handle *)

(** The manifest names the journal that is meant. *)
Definition names_journal (m : ManifestRecord) : Prop :=
  i = mkJournalIdentity store (mf_journal m) ∧
  (mf_sequence_floor m = floor ∨ (mf_journal m = ACTIVE_JOURNAL_GENERATION ∧ floor = 0)).

Record loaded (H : list DecodedAdmissionV1) (k : nat) (ck : CheckpointState) (w : world) (slots : manifest_slots)
    (current_slot : nat) (current : ManifestRecord) (s : ManifestStore) (plan : option ActiveRecoveryPlan) : Prop := {
  ld_committed : committed s (w_dir w);
  ld_journal : at_records H k ck (data_of (w_disk w) (journal_name i)) (mf_cutoff current) (ms_journal s) plan;
  ld_current : ms_current s = current ∧ ms_slots s = slots ∧ ms_current_slot s = current_slot }.

Lemma referenced_report_any inventory reference w : look (lift (referenced_report inventory reference) : StoreOp _) w (λ _, True).
Proof using Type. eapply look_any, look_lift. Qed.
(** The roots of all retained manifests were read. *)
Section inventories.
Context (w : world) (Hq : quiet (w_disk w)) (Ht : tidy (w_dir w)).
Lemma look_registry_inventory slots reference :
  look (validate_registry_inventory slots reference store) w (λ _, ∀ m, m ∈ slot_list slots → ∃ r, found_registry w store m r).
Proof using Hq Ht.
  unfold validate_registry_inventory. eapply look_bind; [looking_here|]. intros [] _. apply look_each. intros m _. eapply look_bind; [by apply look_registry|]. intros r Hr. apply look_ret. by exists r.
Qed.
Lemma look_retry_inventory slots intent :
  look (validate_retry_inventory slots store options intent) w
    (λ _, ∀ m, m ∈ slot_list slots → ∃ catalog t, found_catalog w store (mf_catalog m) catalog ∧ found_retry w store options m catalog t).
Proof using Hq Ht.
  unfold validate_retry_inventory. cbv zeta. eapply look_bind; [looking_here|]. intros [] _. apply look_each. intros m _. eapply look_bind; [by apply look_catalog_or_empty|]. intros catalog Hc.
    eapply look_bind; [by apply look_retry|]. intros t Hr. apply look_ret. by exists catalog, t.
Qed.
Lemma look_recovery_inventory :
  look (read_recovery_inventory store) w (λ ri, ∀ x, rv_manifest_staging ri = Some x → retained store x).
Proof using Hq Ht.
  unfold read_recovery_inventory. eapply look_bind; [by apply looks_recovery_slots|]. intros slots _.
  eapply look_bind; [by apply looks_recovery_slot|]. intros staging _. eapply look_bind; [by apply look_manifest_slot|].
  intros o [_ Ho]. by apply look_ret.
Qed.
End inventories.

Lemma look_load w slots current_slot current intent H k ck other :
  quiet (w_disk w) → tidy (w_dir w) → standing store slots current_slot current (w_dir w) → names_journal current →
  recoverable (w_disk w) H k ck other None →
  look (load_committed c slots current_slot current intent) w
    (λ a, loaded H k ck w slots current_slot current a.1.1 a.2 ∧ ∀ x, rv_manifest_staging a.1.2 = Some x → retained store x).
Proof using Hi Hl Hf.
  intros Hq Ht Hst [Ei Hfl] Hr. unfold load_committed. eapply look_bind; [apply look_lift|].
  intros config (E1 & E2 & E3 & E4)%journal_config_Ok.
  assert (ac_sequence_floor config = floor) as Efl by (rewrite E2; destruct Hfl as [->|[E ->]]; auto).
  eapply look_bind; [eapply look_root_journal; [done|exact Hr|congruence|done|done]|]. intros [j plan] Hj.
  eapply look_bind; [by apply look_registry|]. intros registry Hreg.
  eapply look_bind; [by apply look_registry_inventory|]. intros [] Hregs.
  eapply look_bind; [by apply look_catalog_or_empty|]. intros catalog Hcat.
  eapply look_bind; [by apply looks_catalog_inventory|]. intros _ _. eapply look_bind; [by apply looks_inspect_inventory|]. intros inventory _.
  eapply look_bind; [eapply look_any, look_lift|]. intros _ _. eapply look_bind; [by apply look_recovery_inventory|]. intros ri Hri.
  do 2 (eapply look_bind; [eapply look_any, look_lift|]; intros _ _).
  eapply look_bind; [by apply look_retry|]. intros retry Hretry.
  eapply look_bind; [by apply look_retry_inventory|]. intros [] Hretries.
  eapply look_bind; [eapply look_any, look_lift|]. intros _ _. eapply look_bind; [eapply look_any, look_lift|]. intros report _.
  apply look_ret. cbn [fst snd]. split; [|done]. split; [|done|done].
  split; cbn [ms_write_state ms_slots ms_current_slot ms_current ms_registry]; [done|done| | |].
  - by apply found_held.
  - intros m Hm. destruct (Hregs m Hm) as [r Hr1], (Hretries m Hm) as (cat & t & Hc1 & Ht1).
    exists (mkRoot m r t cat). split; [done|]. by apply found_held.
  - destruct Hreg as (b & _ & [_ _ Hd _]). by apply decoded_registry_ok in Hd.
Qed.
End reload.
