(* ===== verification/Reopening.v ===== *)
(** * Reopening

    What [ManifestStore::open] does with a committed root after it has read it: the
    recovery it converges to keeps everything that the root holds, and the handle it
    answers serves the records that the root covers. *)

From S2P Require Import Prelude Bytes Identity Series Collection Registry Admission Wire Layout Crc Commit Journal Generation Retry RetryCodec Recovery.
From S2P Require Import Active Slots Scan Effects Crash Reopen Handle Restart Root Resume Disk Segment Manifest RegistryReplay RegistryCodec.
From S2P Require Import Directory Publish Roots Store Committed Custody RetryRoot Commitment Barrier Inventory Genesis Looks Sealed Rotation OpenStore Reload.

(** ** Steps that keep the root *)

Lemma beside_quiet d d' : beside d d' → quiet d → quiet d'.
Proof. unfold quiet. intros [_ _ _ H] E. rewrite E in H. by apply suffix_nil_inv in H. Qed.
(** The interrupted publication, settled; without its staging file, nothing. *)
Lemma settle_outcome staging target w :
  quiet (w_disk w) →
  outcome (settle_staging staging target) w
    (λ _ w', published staging target (dir_data (w_dir w) staging) w w') (λ _ w', w_dir w' = w_dir w).
Proof.
  intros Hq. unfold settle_staging. rewrite outcome_bind. unfold mio at 1, dir_open. apply outcome_dir_op; [|done].
  intros d1 r s H1. pose proof (aged_quiet _ _ Hq H1) as ->. destruct (dr_now (w_dir w) !! staging) as [f|] eqn:Hf; intros [= <- <-]; [|done].
  rewrite outcome_bind. unfold mio at 1, dir_sync_file. apply outcome_dir_op; [|done]. cbn [w_disk w_dir].
  intros d2 r s H2 [= <- <-]. pose proof (aged_quiet _ _ Hq H2) as ->.
  rewrite outcome_bind. unfold mio at 1, dir_rename. apply outcome_dir_op; [|done]. cbn [w_dir w_disk rewrite_file dr_now].
  intros d3 r s H3. pose proof (aged_quiet _ _ Hq H3) as ->.
  rewrite lookup_insert_eq. intros [= <- <-]. apply outcome_world_sync; [|done]. cbn [w_disk w_dir]. intros d4 H4.
  split; cbn [w_dir w_disk dr_now dr_past]; [|done|done].
  unfold renamed. cbn [rewrite_file dr_now]. rewrite lookup_insert_eq. cbn [relink dr_now]. by rewrite delete_insert_eq.
Qed.
Lemma synced_keeps safe d : keeps safe d (mkDir (dr_now d) []).
Proof. intros n P _ H. apply shows_synced. by apply shows_now. Qed.

Section reopening.
Context (c : ManifestStoreConfig) (i : JournalIdentity) (floor : Z).
Local Abbreviation store := (sc_store_id c).
Local Abbreviation options := (sc_retry c).
Local Abbreviation limits := (sc_journal_limits c).
Context (Hi : wf i) (Hl : wf limits) (Hf : is_u64 floor).
Local Abbreviation committed := (committed store options).
Local Abbreviation holds_root := (holds_root store options).
Local Abbreviation recoverable := (recoverable i floor limits).
Local Abbreviation serving := (serving store options i floor limits).
Local Abbreviation live := (live i floor limits).

Lemma committed_retained s d : committed s d → ∀ m, m ∈ slot_list (ms_slots s) → retained store m.
Proof using Type. intros Hc. apply (sd_retained _ _ _ _ _ (cm_standing _ _ _ _ Hc)). Qed.
(** The recovery files are none that a root names. *)
Lemma recovery_apart s d n other :
  committed s d → held (ms_slots s) n → other ∈ RECOVERY_STAGING_FILE_NAME :: RECOVERY_SLOT_NAMES → n ≠ other.
Proof using Type.
  intros Hc Hn. pose proof (committed_retained _ _ Hc) as Hr.
  assert (∀ k o, RECOVERY_SLOT_NAMES !! k = Some o → n ≠ o) as Hslot.
  { intros k o Ho. eapply (held_apart store (ms_slots s) n (11 + k)); [done..| |lia|].
    - by destruct k as [|[|[|k]]].
    - intros m x Hm [->|[->|[(y & E & ->)| ->]]] [= Ex]; destruct (Hr m Hm) as [_ ? ? Hcat _ _]; try lia.
      specialize (Hcat _ E). lia. }
  intros [->|(k & Hk)%list_elem_of_lookup_1]%elem_of_cons; [|by eapply Hslot].
  destruct Hn as [(j & Hj & ->)|(m & Hm & Hn)].
  - eapply (apart_ne MANIFEST_SLOT_NAMES [RECOVERY_STAGING_FILE_NAME]); [by vm_compute|by apply nth_slot|by left].
  - destruct (Hr m Hm) as [_ H1 H2 H3 _ _]. destruct Hn as [| |y Hy|g].
    + eapply (apart_ne REGISTRY_SLOT_NAMES [RECOVERY_STAGING_FILE_NAME]); [by vm_compute|apply nth_slot; cbn; lia|by left].
    + eapply (apart_ne RETRY_SLOT_NAMES [RECOVERY_STAGING_FILE_NAME]); [by vm_compute|apply nth_slot; cbn; lia|by left].
    + specialize (H3 y Hy). eapply (apart_ne CATALOG_SLOT_NAMES [RECOVERY_STAGING_FILE_NAME]); [by vm_compute|apply nth_slot; cbn; lia|by left].
    + apply not_eq_sym, (sealed_ne [RECOVERY_STAGING_FILE_NAME]); [by vm_compute|by left].
Qed.
Lemma committed_pruned gone s w w' :
  committed s (w_dir w) → pruned gone w w' → (∀ n, spared (ms_slots s) n → ¬ gone n) → committed s (w_dir w').
Proof using Type.
  intros Hc Hp Hg. pose proof (committed_retained _ _ Hc) as Hr. eapply committed_same; [exact Hc|].
  eapply keeps_weaken; [by apply pruned_keeps|]. intros n [(j & Hj & ->)|(m & Hm & Hn)]; apply Hg.
  - by apply manifest_file_spared.
  - destruct (retained_spared store (ms_slots s) m n (Hr m Hm) Hm Hn) as (? & ? & ?). by split_and!.
Qed.

(** The report gets into its slot, and the root stays. *)
Lemma recovery_name_in slot : 0 ≤ slot < 3 → nth (Z.to_nat slot) RECOVERY_SLOT_NAMES [] ∈ RECOVERY_STAGING_FILE_NAME :: RECOVERY_SLOT_NAMES.
Proof using Type. intros Hs. right. apply nth_slot. cbn. lia. Qed.
Lemma source_outcome source s w :
  quiet (w_disk w) → committed s (w_dir w) → 0 ≤ rr_slot (ra_reference (source_artifact source)) < 3 →
  outcome (publish_source store source) w (λ _ w', committed s (w_dir w') ∧ beside (w_disk w) (w_disk w'))
    (λ _ w', committed s (w_dir w')).
Proof using Type.
  intros Hq Hc Hslot. set (target := nth (Z.to_nat (rr_slot (ra_reference (source_artifact source)))) RECOVERY_SLOT_NAMES []).
  assert (target ∈ RECOVERY_SLOT_NAMES) as Htarget by (apply nth_slot; clear -Hslot; cbn; lia).
  assert (∀ w1, committed s (w_dir w1) → ∀ n, held (ms_slots s) n → n ≠ RECOVERY_STAGING_FILE_NAME ∧ n ≠ target) as Hfar
    by (intros w1 Hc1 n Hn; split; (eapply recovery_apart; [exact Hc1|exact Hn|]); [by left|by apply recovery_name_in]).
  assert (∀ bytes w1 w2, committed s (w_dir w1) → published RECOVERY_STAGING_FILE_NAME target bytes w1 w2 →
    committed s (w_dir w2) ∧ beside (w_disk w1) (w_disk w2)) as Hpub.
  { intros bytes w1 w2 Hc1 Hp. split; [|apply Hp]. destruct (published_keeps _ _ _ _ _ Hp) as [Hk _].
    eapply committed_same; [exact Hc1|]. eapply keeps_weaken; [exact Hk|]. by apply (Hfar w1). }
  destruct source as [artifact|artifact|prepared]; cbn [publish_source].
  - unfold converge_recovery_staging. rewrite outcome_bind. apply outcome_read_required; [|intros e w1 [_ E]; by rewrite E].
    intros bytes w1 [Ha E] _ _ _. pose proof (aged_quiet _ _ Hq Ha) as Ed. rewrite <-E in Hc. rewrite <-Ed in Hq |- *.
    rewrite outcome_bind. unfold outcome at 1, lift. destruct (map_err _ _); [|done]. apply outcome_refuse_step; [intros _|done].
    eapply outcome_weaken; [by apply settle_outcome|intros [] w2 Hp; by eapply Hpub|intros e w2 E2; by rewrite E2].
  - apply outcome_ret. by split.
  - unfold publish_prepared_recovery_report. eapply outcome_weaken; [apply publish_outcome| |].
    + eapply (apart_ne [RECOVERY_STAGING_FILE_NAME] RECOVERY_SLOT_NAMES); [by vm_compute|by left|exact Htarget].
    + intros [] w' [Hp _]. by eapply Hpub.
    + intros e w' Hd. eapply committed_same; [exact Hc|]. eapply keeps_weaken; [exact (disturbed_keeps _ _ _ _ _ _ Hd)|exact (Hfar w Hc)].
Qed.

(** ** The next manifest *)

(** The same root, with a manifest that names the report of a recovery. *)
Definition reported (x : root) (reference : RecoveryReference) : root :=
  let m := r_manifest x in
  mkRoot (mkManifest (mf_generation m + 1) (mf_registry m) (mf_cutoff m) (mf_retry m) (Some reference) (mf_sequence_floor m)
            (mf_catalog m)) (r_registry x) (r_retry x) (r_catalog x).
Definition recovered_root (s : ManifestStore) : RecoveryReference → root := reported (root_of s).
Lemma recovered_follows s d reference :
  committed s d → (∀ r, mf_recovery (ms_current s) = Some r → rr_slot r ≠ rr_slot reference) →
  follows store options s d (recovered_root s reference).
Proof using Type.
  intros Hc Hslot. pose proof (cm_root _ _ _ _ Hc) as [(b' & Hb' & [Gl Gx Gd Gs]) (b & Hb & [Tl Tx Td Tr]) Hcat Hcs Hsealed].
  destruct (progresses_refl (ms_current s)) as (P1 & P2 & _).
  split; cbn [recovered_root reported root_of r_manifest r_registry r_retry r_catalog] in *; [| |apply Hc|done].
  - split_and!; [done..|]. cbn [mf_recovery]. unfold recovery_reference_progresses. destruct (mf_recovery _) as [r|]; [|done].
    apply orb_true_iff. right. apply bool_decide_eq_true. by apply Hslot.
  - split; try done; [by exists b'|]. exists b. split; [exact Hb|]. split; cbn [mf_retry]; try done.
    unfold validates_root_with_catalog in *. apply Is_true_true. apply Is_true_true in Tr. revert Tr.
    destruct (validate_root _ _ _) as [[]|] eqn:E; [|done]. intros _. eapply validate_root_newer in E; [by rewrite E|..]; try done; cbn; [lia|by right].
Qed.

(** Every crash leaves the root, or the root with the report of a recovery. *)
Definition intact (x : root) (d : dir) : Prop :=
  ∃ ys, recovers store options d (x :: ys) ∧ ∀ y, y ∈ ys → ∃ reference, y = reported x reference.
Lemma recovers_intact x d : recovers store options d [x] → intact x d.
Proof using Type. intros H. exists []. split; [done|]. by intros y ?%not_elem_of_nil. Qed.
Lemma committed_intact s d : committed s d → intact (root_of s) d.
Proof using Type. intros Hc. by apply recovers_intact, committed_recovers. Qed.
Lemma standing_intact slots k x d : standing store slots k (r_manifest x) d → holds_root d x → intact x d.
Proof using Type.
  intros Hst Hx. apply recovers_intact. intros d' Hd. exists x. split; [by left|]. pose proof Hst as [_ Hsel Hr].
  eapply holds_root_reads; [exact Hx|exact Hd|by eapply standing_crashed|exact Hsel|exact Hr].
Qed.
Lemma reported_intact x reference d : recovers store options d [reported x reference] → intact x d.
Proof using Type.
  intros H. exists [reported x reference]. split; [eapply recovers_more; [exact H|by intros y Hy; right]|].
  intros y ->%list_elem_of_singleton. by exists reference.
Qed.

Lemma publish_next_outcome s w next staging :
  quiet (w_disk w) → committed s (w_dir w) → succeeds (ms_current s) next → (∀ x, staging = Some x → x = next ∧ retained store next) →
  let k := (1 - ms_current_slot s)%nat in
  let slots' := set_slot k next (ms_slots s) in
  outcome (publish_next staging store k next (mkPreparedManifest next k (encode_manifest next))) w
    (λ slot w', slot = k ∧ standing store slots' k next (w_dir w') ∧ keeps (safe slots') (w_dir w) (w_dir w') ∧
       beside (w_disk w) (w_disk w'))
    (λ e w', w_dir w' = w_dir w ∨ halted store s next w (with_custody StateFaulted s, w')).
Proof using Type.
  intros Hq Hc Hn Hst k slots'. pose proof (cm_standing _ _ _ _ Hc) as Hsd. destruct (standing_current _ _ _ _ _ Hsd) as (Hk & Hm & _ & Hcur).
  assert (∀ n, safe slots' n → n ≠ MANIFEST_STAGING_FILE_NAME ∧ n ≠ manifest_file k) as Hsafe
    by (intros n (Hj & Hs & _); split; [done|apply Hj; lia]).
  destruct staging as [x|]; cbn [publish_next].
  - destruct (Hst x eq_refl) as [-> Hre]. unfold converge_manifest_staging. rewrite outcome_bind. apply outcome_read_required; [|intros e w1 [_ E]; by left].
    intros bytes w1 [Ha E] _ Hb _. apply outcome_refuse_step; [|by left]. intros Hbytes. assert (bytes = encode_manifest next) as -> by not_refused.
    pose proof (aged_quiet _ _ Hq Ha) as Ed. rewrite <-Ed in Hq.
    rewrite outcome_bind. eapply outcome_weaken; [by apply settle_outcome| |intros e w2 E2; left; congruence]. intros [] w2 Hp. apply outcome_ret.
    rewrite E, <-Hb in Hp. destruct (published_keeps _ _ _ _ _ Hp) as [Hkeep Hsh]. rewrite E in Hkeep.
    split_and!; [done| |eapply keeps_weaken; [exact Hkeep|exact Hsafe]|trans (w_disk w1); [by apply aged_beside|apply Hp]].
    destruct Hsd as [Hslots Hsel Hr]. destruct Hre eqn:Ere. split.
    + intros j Hj. unfold slots'. rewrite set_slot_at by lia. case_decide as Hjk; [subst j; exact Hsh|]. apply Hkeep; [|by apply Hslots].
      split; [|eapply (stands_apart _ _ (Some j) k); [apply manifest_file_at; lia..|congruence]].
      eapply (apart_ne MANIFEST_SLOT_NAMES [MANIFEST_STAGING_FILE_NAME]); [by vm_compute|by apply nth_slot|by left].
    + apply (select_next _ _ (ms_current s)); [done..|lia].
    + intros y (j & Hj & Hy)%slot_list_at. unfold slots' in Hy. rewrite set_slot_at in Hy by lia. case_decide; [by injection Hy as <-|].
      by eapply Hr, slot_at_list.
  - eapply outcome_weaken; [by apply (publish_manifest_outcome store (ms_slots s) (ms_current_slot s) (ms_current s))| |].
    + intros slot w1 (-> & Hk1 & Hb1 & Hst1). split_and!; [done..| |done]. eapply keeps_weaken; [exact Hk1|exact Hsafe].
    + intros e w1 (Hk1 & Hb1 & Hcr). right. split; [done| |done|exact Hcr]. eapply keeps_weaken; [exact Hk1|exact Hsafe].
Qed.

(** ** The journal *)

Lemma outcome_journal_call {A} (m : Method A) s w (Q : A → ManifestStore * world → Prop) :
  outcome m (ms_journal s, w_disk w) (λ a st, Q a (with_journal st.1 s, mkWorld st.2 (w_dir w))) (λ _ _, True) →
  outcome (journal_call m) (s, w) Q (λ _ st, w_dir st.2 = w_dir w).
Proof using Type. unfold outcome, journal_call. cbn [fst snd]. by destruct (m _) as [[a|e] [j d]]. Qed.
Lemma settle_journal_outcome plan cutoff s w H k m ck other config :
  quiet (w_disk w) → recoverable (w_disk w) H k ck other None → cut_at floor H m ck → (m ≤ k)%nat → ac_limits config = limits →
  ms_journal s = resumed i config H m ck →
  outcome (journal_call (settle_journal plan cutoff)) (s, w)
    (λ _ st, st.1 = s ∧ w_dir st.2 = w_dir w ∧ quiet (w_disk st.2) ∧ live (ms_journal s) (w_disk st.2) (take m H) m)
    (λ _ st, w_dir st.2 = w_dir w).
Proof using Hi Hl.
  intros Hq Hr Hc Hm El Ej. assert (with_journal (ms_journal s) s = s) as Es by (by destruct s).
  assert (0 ≤ end_of (take m H)) as H0 by (pose proof (end_of_pos (take m H)); unfold JOURNAL_V1_HEADER_LEN in *; lia).
  apply outcome_journal_call. rewrite Ej. destruct plan as [plan|]; (eapply outcome_weaken; [| |done]).
  - by apply apply_recovery_quiet.
  - intros [] [j d] (-> & Ee & Hq' & Ef). cbn [fst snd w_dir w_disk] in *. rewrite <-Ej, Es, Ej. split_and!; [done..|].
    eapply cut_resumed_live; [done..| |exact Ee]. by apply Ef.
  - by apply synchronize_quiet.
  - intros [] [j d] (-> & Ee & Hq' & Elen & Eb & Ef). cbn [fst snd w_dir w_disk] in *. rewrite <-Ej, Es, Ej. split_and!; [done..|].
    eapply cut_resumed_live; [done..| |exact Ee]. rewrite Ef. cbn [aj_identity resumed aj_active_bytes] in *.
    rewrite take_ge; [done|]. rewrite Eb, <-Elen. unfold len. lia.
Qed.

(** ** Recovery *)

(** A removal after the commit. *)
Definition prunes (m : StoreOp ()) (gone : list byte → Prop) : Prop :=
  ∀ w, outcome m w (λ _ w', pruned gone w w') (λ _ w', pruned gone w w').
Lemma prunes_outcome m gone s w :
  prunes m gone → (∀ n, spared (ms_slots s) n → ¬ gone n) → committed s (w_dir w) →
  outcome m w (λ _ w', committed s (w_dir w') ∧ beside (w_disk w) (w_disk w')) (λ _ w', committed s (w_dir w')).
Proof using Type.
  intros Hm Hg Hc. eapply outcome_weaken; [apply Hm| |].
  - intros [] w' Hp. split; [eapply committed_pruned; [exact Hc|exact Hp|exact Hg]|by destruct Hp].
  - intros e w' Hp. eapply committed_pruned; [exact Hc|exact Hp|exact Hg].
Qed.
Lemma prune_step {B} (m : StoreOp ()) gone (k : () → StoreMethod B) s w Q (R : ManifestStoreError → ManifestStore * world → Prop) :
  prunes m gone → (∀ n, spared (ms_slots s) n → ¬ gone n) → committed s (w_dir w) →
  (∀ w', committed s (w_dir w') → beside (w_disk w) (w_disk w') → outcome (k tt) (s, w') Q R) →
  (∀ e w', committed s (w_dir w') → R e (s, w')) → outcome (world_effect m ≫= k) (s, w) Q R.
Proof using Type.
  intros Hm Hg Hc Hk Hr. apply outcome_bind, outcome_world_effect. eapply outcome_weaken; [by eapply prunes_outcome| |auto].
  intros [] w' [? ?]. by apply Hk.
Qed.
Lemma pruning_catalog slots : prunes (remove_unreferenced_catalog_slots slots) (unused CATALOG_SLOT_NAMES 0 (names_catalog_slot slots)).
Proof using Type. intros w. apply remove_unreferenced_outcome. Qed.
Lemma pruning_retry slots : prunes (remove_unreferenced_retry_slots slots) (unused RETRY_SLOT_NAMES 0 (names_retry_slot slots)).
Proof using Type. intros w. apply remove_unreferenced_outcome. Qed.
Lemma pruning_recovery slots id : prunes (remove_unreferenced_recovery_slots slots id)
  (unused RECOVERY_SLOT_NAMES 0 (λ slot, existsb (λ r, bool_decide (rr_slot r = slot)) (omap mf_recovery (slot_list slots)))).
Proof using Type. intros w. apply remove_recovery_outcome. Qed.

(** The handle serves the records that the root covers. *)
Definition resumes (s : ManifestStore) (x : root) (H : list DecodedAdmissionV1) (k : nat) (s' : ManifestStore) (w' : world) : Prop :=
  root_of s' = x ∧ ms_current s' = r_manifest x ∧ ∃ m, (m ≤ k)%nat ∧ cut_at floor H m (aj_checkpoint_state (ms_journal s)) ∧ serving s' w' (take m H) m.

Lemma commit_recovery_outcome ri plan source s w H k ck other data :
  quiet (w_disk w) → committed s (w_dir w) → recoverable (w_disk w) H k ck other None →
  at_records c i floor H k ck data (mf_cutoff (ms_current s)) (ms_journal s) plan →
  (∀ x, rv_manifest_staging ri = Some x → retained store x) → 0 ≤ rr_slot (ra_reference (source_artifact source)) < 3 →
  (∀ r, mf_recovery (ms_current s) = Some r → rr_slot r ≠ rr_slot (ra_reference (source_artifact source))) →
  outcome (commit_recovery ri plan source) (s, w)
    (λ _ st, resumes s (recovered_root s (ra_reference (source_artifact source))) H k st.1 st.2)
    (λ _ st, intact (root_of s) (w_dir st.2)).
Proof using Hi Hl.
  intros Hq Hc Hr [(config & m & El & Hm & Hcut & Hroot & Ej) _] Hst Hslot Hother.
  set (x := recovered_root s (ra_reference (source_artifact source))). unfold commit_recovery. pose proof (committed_intact _ _ Hc) as Hin.
  rewrite outcome_bind. unfold outcome at 1, this. cbn [fst]. apply outcome_refuse_step; [intros _|done].
  apply outcome_lift_step; [|done]. intros g [-> Hg]%next_generation_Ok. apply outcome_lift_step; [|done]. intros prepared Hp.
  apply (prepare_next_manifest store options s (w_dir w)) in Hp as ->; [|done..].
  change (mkManifest _ _ _ _ _ _ _) with (r_manifest x). apply outcome_refuse_step; [|done]. intros Hsame.
  assert (∀ y, rv_manifest_staging ri = Some y → y = r_manifest x ∧ retained store (r_manifest x)) as Hst'.
  { intros y Hy. rewrite Hy in Hsame. cbn [is_some_and] in Hsame. assert (y = r_manifest x) as <-; [|auto].
    apply dec_stable. intros Hne. apply Hsame. by apply bool_decide_pack. }
  destruct (standing_current _ _ _ _ _ (cm_standing _ _ _ _ Hc)) as (_ & _ & _ & Hcur).
  unfold ms_store_id. rewrite (re_store _ _ Hcur). rewrite outcome_bind. apply outcome_world_effect.
  eapply outcome_weaken; [by apply source_outcome| |intros e w1 Hc1; by apply committed_intact]. intros [] w1 [Hc1 Hb1].
  rewrite outcome_bind. apply outcome_world_effect, outcome_world_sync; [|intros e d2 _ _; by apply committed_intact]. intros d2 Hb2. set (w2 := mkWorld d2 _).
  assert (committed s (w_dir w2)) as Hc2 by (eapply committed_same; [exact Hc1|apply synced_keeps]).
  assert (beside (w_disk w) (w_disk w2)) as Hb02 by (by trans (w_disk w1)).
  assert (quiet (w_disk w2)) as Hq2 by by eapply beside_quiet.
  rewrite outcome_bind. eapply outcome_weaken; [eapply settle_journal_outcome; [done|eapply recoverable_beside; done|done..]| |intros e st ->; by apply committed_intact].
  intros [] [s3 w3] (E3 & Ed3 & Hq3 & Hlv). cbn [fst snd] in *. subst s3. rewrite <-Ed3 in Hc2.
  assert (follows store options s (w_dir w3) x) as Hfw by by apply recovered_follows.
  rewrite outcome_bind. apply outcome_world_effect. eapply outcome_weaken; [apply publish_next_outcome; [done|done|apply Hfw|done]| |].
  2:{ intros e w4 [E4|Hh]; cbn [snd]; [rewrite E4; by apply committed_intact|]. exists [x]. split; [exact (halted_recovers _ _ _ _ _ _ Hc2 Hfw Hh)|].
    intros y ->%list_elem_of_singleton. by eexists. }
  intros slot w4 (-> & Hst4 & Hk4 & Hb4). pose proof (adopted_committed _ _ _ _ _ _ Hc2 Hfw Hst4 Hk4) as Hc4.
  set (s4 := with_recovery_report (Some (ra_report (source_artifact source))) (advanced s x)).
  assert (committed s4 (w_dir w4)) as Hc4' by by destruct Hc4.
  rewrite outcome_bind. unfold outcome at 1, modify. rewrite outcome_bind. unfold outcome at 1, modify. cbn [fst snd].
  change (with_recovery_report _ (adopt_published_manifest _ _ _ _)) with s4.
  assert (root_of s4 = x) as E4 by (by destruct s). assert (∀ (e : ManifestStoreError) w', committed s4 (w_dir w') → intact (root_of s) (w_dir w')) as Hr4.
  { intros _ w' Hc'. apply committed_recovers in Hc'. rewrite E4 in Hc'. by eapply reported_intact. }
  eapply prune_step; [apply pruning_catalog|by intros n (? & _)|exact Hc4'| |exact Hr4]. intros w5 Hc5 Hb5.
  eapply prune_step; [apply pruning_retry|by intros n (_ & ? & _)|exact Hc5| |exact Hr4]. intros w6 Hc6 Hb6.
  apply outcome_world_effect. eapply outcome_weaken; [eapply prunes_outcome; [apply pruning_recovery|by intros n (_ & _ & ?)|exact Hc6]| |exact Hr4].
  intros [] w7 [Hc7 Hb7]. cbn [fst snd].
  split; [exact E4|]. split; [done|]. exists m. split_and!; [done|by rewrite Ej|]. split; [done| |].
  - unfold aligned. cbn [s4 with_recovery_report advanced ms_journal ms_current]. rewrite Ej. exact (eq_sym Hroot).
  - cbn [s4 with_recovery_report advanced ms_journal]. eapply live_beside; [|exact Hlv]. trans (w_disk w4); [done|].
    trans (w_disk w5); [done|]. by trans (w_disk w6).
Qed.

(** Whichever way an open converges, the handle resumes at the root it found, or at
    the same root with the report of the recovery. *)
Definition converged (s : ManifestStore) (H : list DecodedAdmissionV1) (k : nat) (st : ManifestStore * world) : Prop :=
  ∃ x, (x = root_of s ∨ ∃ reference, x = recovered_root s reference) ∧ resumes s x H k st.1 st.2.
Lemma converged_intact s y s' d :
  root_of s' = y → committed s' d → (y = root_of s ∨ ∃ reference, y = recovered_root s reference) → intact (root_of s) d.
Proof using Type.
  intros E Hc%committed_recovers Hy. rewrite E in Hc. destruct Hy as [->|[reference ->]]; [by apply recovers_intact|by eapply reported_intact].
Qed.
Lemma prepared_slot current slot g plan prepared :
  new_recovery current slot g plan = Ok prepared → rr_slot (ra_reference (px_artifact prepared)) = slot.
Proof using Type.
  unfold new_recovery. destruct (map_err _ _) as [report|]; [|done]. unfold prepare_recovery_report. rewrite guard_Ok.
  intros [_ H]. destruct (map_err _ _); [|done]. by injection H as <-.
Qed.
Lemma interrupted_slot current slot g plan artifact b :
  check_interrupted current slot g plan artifact b = Ok tt → rr_slot (ra_reference artifact) = slot.
Proof using Type. unfold check_interrupted. rewrite guard_Ok. intros [Hn _]. not_refused. Qed.
Lemma converge_recovery_outcome ri plan s w H k ck other slots current_slot current :
  quiet (w_disk w) → recoverable (w_disk w) H k ck other None → openable i (w_disk w) →
  loaded c i floor H k ck w slots current_slot current s plan → (∀ x, rv_manifest_staging ri = Some x → retained store x) →
  outcome (converge_recovery ri plan) (s, w) (λ _ st, converged s H k st) (λ _ st, intact (root_of s) (w_dir st.2)).
Proof using Hi Hl.
  intros Hq Hr Hop [Hc Hj (Ecur & _)] Hri. rewrite <-Ecur in Hj. unfold converge_recovery. pose proof (committed_intact _ _ Hc) as Hint.
  rewrite outcome_bind. unfold outcome at 1, this. cbn [fst]. apply outcome_lift_step; [|done]. intros target Hfree.
  assert (free_slot (rr_slot <$> referenced_recoveries (ms_slots s)) = Some target) as [Ht Hnot]%free_slot_spec
    by (destruct (free_slot _); [by injection Hfree as ->|done]).
  destruct (standing_current _ _ _ _ _ (cm_standing _ _ _ _ Hc)) as (_ & _ & Hin & _).
  assert (∀ reference, rr_slot reference = target → ∀ r, mf_recovery (ms_current s) = Some r → rr_slot r ≠ rr_slot reference) as Hother.
  { intros reference -> r Hrec E. apply Hnot. rewrite <-E. apply list_elem_of_fmap_2. unfold referenced_recoveries.
    apply list_elem_of_omap. by exists (ms_current s). }
  assert (∀ source, rr_slot (ra_reference (source_artifact source)) = target →
    outcome (commit_recovery ri plan source) (s, w) (λ _ st, converged s H k st) (λ _ st, intact (root_of s) (w_dir st.2))) as Hcommit.
  { intros source E. eapply outcome_weaken; [eapply commit_recovery_outcome; [done..|by rewrite E|by apply Hother]| |done].
    intros [] st Hres. eexists. split; [right; by eexists|exact Hres]. }
  apply outcome_lift_step; [|done]. intros candidate _. apply outcome_refuse_step; [intros _|done].
  apply outcome_lift_step; [|done]. intros g _. apply outcome_lift_step; [|done]. intros [[artifact b]|] _.
  - apply outcome_lift_step; [|done]. intros [] Hcheck%interrupted_slot. apply Hcommit. by destruct b.
  - apply outcome_refuse_step; [intros _|done]. destruct plan as [plan|].
    + apply outcome_lift_step; [|done]. intros prepared Hp%prepared_slot. by apply Hcommit.
    + destruct Hj as [(config & m & El & Hm & Hcut & Hroot & Ej) Hlen]. apply outcome_world_effect.
      eapply outcome_weaken; [eapply prunes_outcome; [apply pruning_recovery|by intros n (_ & _ & ?)|exact Hc]| |intros e w'; apply committed_intact].
      intros [] w' [Hc' Hb']. exists (root_of s). split; [by left|].
      split; [done|]. split; [done|]. cbn [fst snd]. exists m. split_and!; [done|by rewrite Ej|]. split.
      * exact Hc'.
      * unfold aligned. rewrite Ej. exact (eq_sym Hroot).
      * rewrite Ej. eapply live_beside; [exact Hb'|]. eapply resumed_live; [done..|]. rewrite (Hlen eq_refl), Hroot. by apply Hcut.
Qed.

(** ** The open *)

(** A directory holds one root for a manifest. *)
Lemma holds_root_unique d x y : holds_root d x → holds_root d y → r_manifest x = r_manifest y → x = y.
Proof using Type.
  destruct x as [m r t g], y as [m' r' t' g']. intros [(b & Hb & Hr) (b2 & Hb2 & Ht) Hc _ _] [(b' & Hb' & Hr') (b2' & Hb2' & Ht') Hc' _ _].
  cbn [r_manifest r_registry r_retry r_catalog] in *. intros <-.
  apply shows_now in Hb, Hb', Hb2, Hb2'. unfold exactly in *. rewrite Hb in Hb'. rewrite Hb2 in Hb2'. injection Hb' as <-. injection Hb2' as <-.
  destruct Hr as [_ _ Hd _], Hr' as [_ _ Hd' _]. rewrite Hd in Hd'. injection Hd' as <-.
  destruct Ht as [_ _ Hd2 _], Ht' as [_ _ Hd2' _]. rewrite Hd2 in Hd2'. injection Hd2' as <-.
  destruct (mf_catalog m) as [y|]; [|by subst]. destruct Hc as (b3 & H3 & [_ _ Hd3 _]), Hc' as (b3' & H3' & [_ _ Hd3' _]).
  apply shows_now in H3, H3'. unfold exactly in *. rewrite H3 in H3'. injection H3' as <-. rewrite Hd3 in Hd3'. by injection Hd3' as <-.
Qed.

Definition opened_with (x : root) (H : list DecodedAdmissionV1) (k : nat) (ck : CheckpointState) (s : ManifestStore) (w : world) : Prop :=
  (root_of s = x ∨ ∃ reference, root_of s = reported x reference) ∧
  ∃ m, (m ≤ k)%nat ∧ cut_at floor H m ck ∧ serving s w (take m H) m.
Lemma open_committed_outcome w x slots current_slot H k ck other :
  quiet (w_disk w) → tidy (w_dir w) → standing store slots current_slot (r_manifest x) (w_dir w) → holds_root (w_dir w) x →
  names_journal c i floor (r_manifest x) → recoverable (w_disk w) H k ck other None → openable i (w_disk w) →
  outcome (open_committed c slots current_slot (r_manifest x) None) w (λ s w', opened_with x H k ck s w')
    (λ _ w', intact x (w_dir w')).
Proof using Hi Hl Hf.
  intros Hq Ht Hst Hx Hn Hr Hop. pose proof (look_load c i floor Hi Hl Hf w slots current_slot (r_manifest x) None H k ck other Hq Ht Hst Hn Hr) as Hload.
  unfold outcome, open_committed, look in *. unfold outcome in Hload.
  destruct (load_committed _ _ _ _ _ _) as [[[[s ri] plan]|e] w1]; cbn [fst snd] in Hload; [|subst w1; by eapply standing_intact].
  destruct Hload as (-> & Hld & Hri). pose proof Hld as [Hc Hj (Ecur & _)].
  assert (root_of s = x) as Ex by (eapply holds_root_unique; [apply Hc|exact Hx|done]).
  pose proof (converge_recovery_outcome ri plan s w H k ck other slots current_slot (r_manifest x) Hq Hr Hop Hld Hri) as Hcv.
  unfold outcome in Hcv. destruct (converge_recovery ri plan (s, w)) as [[[]|e] [s2 w2]]; cbn [fst snd] in Hcv; [|by rewrite <-Ex].
  destruct Hcv as (y & Hy & (Ey & _ & m & Hm & Hcut & Hsv)). cbn [fst snd] in *.
  set (sync := if decide (is_Some (mf_recovery (ms_current s2))) then mio MioSyncDirectory world_sync else mret tt : StoreOp ()).
  assert (outcome sync w2 (λ _ w3, serving s2 w3 (take m H) m) (λ _ w3, w_dir w3 = w_dir w2)) as Hsync.
  { unfold sync. case_decide; [|by apply outcome_ret]. apply outcome_world_sync; [|done]. intros d' Hb. destruct Hsv as [Hc2 Ha2 Hl2].
    split; [eapply committed_same; [exact Hc2|apply synced_keeps]|done|by eapply live_beside]. }
  unfold outcome, mbind, M_bind in *. destruct (sync w2) as [[[]|e] w3]; cbn.
  2:{ cbn [fst snd] in Hsync. rewrite Hsync, <-Ex. eapply (converged_intact s y s2); [exact Ey|apply Hsv|exact Hy]. }
  split.
  - rewrite Ey. destruct Hy as [->|[reference ->]]; [left; done|right; exists reference]. by rewrite <-Ex.
  - destruct Hj as [(config & m' & _ & _ & _ & _ & Ej) _]. exists m. rewrite Ej in Hcut. by split_and!.
Qed.

(** *** Before the root is read *)

Definition markers : list (list byte) := [STORE_FORMAT_FILE_NAME; STORE_FORMAT_STAGING_FILE_NAME].
(** Only the markers may have changed. *)
Record acquired (w w' : world) : Prop := {
  aq_quiet : quiet (w_disk w');
  aq_tidy : tidy (w_dir w');
  aq_keeps : keeps (λ n, n ∉ markers) (w_dir w) (w_dir w');
  aq_disk : beside (w_disk w) (w_disk w') }.
Lemma acquired_same w : quiet (w_disk w) → tidy (w_dir w) → acquired w w.
Proof using Type. intros Hq Ht. split; [done|done|by intros n P _|reflexivity]. Qed.
Lemma converge_marker_outcome w :
  quiet (w_disk w) → tidy (w_dir w) → outcome (converge_store_format_marker store) w (λ _ w', acquired w w') (λ _ w', w_dir w' = w_dir w).
Proof using Type.
  intros Hq Ht. pose proof Ht as [Hp Hs]. unfold converge_store_format_marker. eapply look_then; [by apply looks_exists| |done]. intros e _.
  apply outcome_refuse_step; [intros _|done]. unfold unsupported. eapply look_then; [by apply look_map_err, look_required| |done].
  intros bytes Hb. apply outcome_lift_step; [intros _ _|done]. rewrite outcome_bind. unfold mio at 1, dir_rename.
  apply outcome_dir_op; [|done]. intros d r s Ha. rewrite Hb. intros [= <- <-].
  apply outcome_world_sync; [|intros ? ? _ []; cbn [w_disk]; by rewrite (aged_quiet _ _ Hq Ha)]. intros d' Hb'.
  cbn [w_disk w_dir] in *. assert (beside (w_disk w) d') as Hbe by (trans d; [by apply aged_beside|done]).
  set (now := dr_now (w_dir w)) in *.
  assert (dr_now (renamed STORE_FORMAT_STAGING_FILE_NAME STORE_FORMAT_FILE_NAME (w_dir w)) =
    <[STORE_FORMAT_FILE_NAME := settled bytes]> (delete STORE_FORMAT_STAGING_FILE_NAME now)) as En by (unfold renamed; fold now; by rewrite Hb).
  split; cbn [w_disk w_dir]; [by eapply beside_quiet| | |done].
  - split; [done|]. cbn [dr_now]. rewrite En. intros name f. destruct (decide (name = STORE_FORMAT_FILE_NAME)) as [->|Hne].
    + rewrite lookup_insert_eq. by intros [= <-].
    + rewrite lookup_insert_ne by done. rewrite lookup_delete_Some. intros [_ ?]. by eapply Hs.
  - intros n P Hn H. apply shows_synced. rewrite En. unfold markers in Hn. apply not_elem_of_cons in Hn as [H1 Hn].
    apply not_elem_of_cons in Hn as [H2 _]. rewrite lookup_insert_ne, lookup_delete_ne by done. by apply shows_now.
Qed.
Lemma lock_quiet w : quiet (w_disk w) → look lock_store w (λ _, True).
Proof using Type.
  intros Hq. unfold look, outcome, lock_store, try_lock, io_op. unfold quiet in Hq. rewrite Hq. cbn.
  destruct (dk_locked (w_disk w)); [by apply world_eq|]. split; [by apply world_eq|done].
Qed.
Lemma acquire_outcome w preflight :
  quiet (w_disk w) → tidy (w_dir w) → preflight ≠ EmptyCreate →
  outcome (acquire_store c preflight) w (λ _ w', acquired w w') (λ _ w', w_dir w' = w_dir w).
Proof using Type.
  intros Hq Ht Hp. unfold acquire_store. rewrite decide_False by done. eapply look_then; [by apply looks_open| |done]. intros _ _.
  eapply look_then; [by apply lock_quiet| |done]. intros _ _. destruct preflight; [done|by apply converge_marker_outcome|].
  apply outcome_ret. by apply acquired_same.
Qed.
Lemma look_preflight w : sc_mode c = OpenExisting → quiet (w_disk w) → tidy (w_dir w) → look (preflight_store_format c) w (λ p, p ≠ EmptyCreate).
Proof using Type.
  intros Hm Hq Ht. unfold preflight_store_format, unsupported_but_io. eapply look_bind; [by apply look_map_err, looks_inspect_inventory|].
  intros inventory _. case_decide; [rewrite Hm, decide_False by done; apply look_fail|].
  eapply look_bind; [eapply look_any, look_refuse|]. intros _ _. eapply look_bind; [by apply look_map_err, looks_required|]. intros marker _.
  eapply look_bind; [eapply look_any, look_lift|]. intros _ _. destruct (iv_store_format_staging inventory); [by apply look_ret|].
  eapply look_bind; [by apply looks_preflight_versions|]. intros _ _. eapply look_bind; [eapply look_any, look_refuse|]. intros _ _. by apply look_ret.
Qed.

(** No rotation was interrupted. *)
Definition unrotated (w : world) : Prop := ROTATION_INTENT_FILE_NAME ∉ entry_names w.
Lemma intent_name name : classify_name name = Some IntentFile → name = ROTATION_INTENT_FILE_NAME.
Proof using Type. unfold classify_name. repeat case_decide; repeat case_match; naive_solver. Qed.
Lemma look_inventory w : quiet (w_disk w) → unrotated w → look inspect_inventory w (λ inv, iv_rotation_intent inv = false).
Proof using Type.
  intros Hq Hu. destruct (classify_entries_quiet (entry_names w) w 0 0 Hq) as [Hok Herr]; [done..|].
  unfold look, outcome, inspect_inventory, mbind, M_bind, get. rewrite dir_event_quiet by done.
  destruct (decide (Forall (λ name, is_Some (classify_name name)) (entry_names w) ∧ 0 + len (entry_names w) ≤ MAX_INVENTORY_ENTRIES ∧
              0 + len (omap sealed_of (listed (entry_names w))) ≤ MAX_SEALED_GENERATIONS)) as [Hfit|Hfit]; [|by rewrite (Herr Hfit)].
  rewrite (Hok Hfit). cbn. split; [done|]. unfold occurs. apply bool_decide_eq_false. intros Hin. apply Hu.
  unfold listed in Hin. apply list_elem_of_omap in Hin as (name & Hname & Ha). by apply intent_name in Ha as <-.
Qed.
Lemma acquired_unrotated w w' : acquired w w' → tidy (w_dir w) → unrotated w → unrotated w'.
Proof using Type.
  intros [_ _ Hk Hb] Ht Hu Hin. apply Hu. unfold entry_names in *. rewrite elem_of_elements, elem_of_union in Hin |- *.
  rewrite (bs_files _ _ Hb) in Hin. destruct Hin as [Hin|Hin]; [by left|]. right. apply elem_of_dom in Hin as [f Hfile].
  apply elem_of_dom. destruct (dr_now (w_dir w) !! ROTATION_INTENT_FILE_NAME) as [f'|] eqn:E; [by eexists|].
  assert (shows (w_dir w') ROTATION_INTENT_FILE_NAME (λ o, o = None)) as Hsh.
  { apply Hk; [apply (bool_decide_unpack _); by vm_compute|]. by apply tidy_shows. }
  apply shows_now in Hsh. congruence.
Qed.
Lemma marker_safe slots n :
  (∀ x, x ∈ slot_list slots → retained store x) → held slots n → n ∉ markers.
Proof using Type.
  intros Hr Hn Hin. assert (∀ A, apart A markers = true → n ∉ A) as Hapart.
  { intros A HA Hx. by eapply (apart_ne A markers n n). }
  destruct Hn as [(j & Hj & ->)|(x & Hx & Hn)].
  - eapply (Hapart MANIFEST_SLOT_NAMES); [by vm_compute|by apply nth_slot].
  - destruct (Hr x Hx) as [_ H1 H2 H3 _ _]. destruct Hn as [| |y Hy|g].
    + eapply (Hapart REGISTRY_SLOT_NAMES); [by vm_compute|apply nth_slot; cbn; lia].
    + eapply (Hapart RETRY_SLOT_NAMES); [by vm_compute|apply nth_slot; cbn; lia].
    + specialize (H3 y Hy). eapply (Hapart CATALOG_SLOT_NAMES); [by vm_compute|apply nth_slot; cbn; lia].
    + revert Hin. intros Hin. eapply (sealed_ne markers); [by vm_compute|exact Hin|done].
Qed.

(** The pruning at the end. *)
Lemma finish_outcome x H k ck s w :
  opened_with x H k ck s w → outcome (finish_open None s) w (λ s' w', opened_with x H k ck s' w') (λ _ w', intact x (w_dir w')).
Proof using Type.
  intros [Hroot (m & Hm & Hcut & [Hc Ha Hv])]. assert (∀ d, committed s d → intact x d) as Hin.
  { intros d Hd%committed_recovers. destruct Hroot as [E|[reference E]]; rewrite E in Hd; [by apply recovers_intact|by eapply reported_intact]. }
  unfold finish_open. rewrite outcome_bind, outcome_ret, outcome_bind. eapply outcome_weaken; [eapply prunes_outcome; [apply pruning_catalog|by intros n (? & _)|exact Hc]| |auto].
  intros [] w1 [Hc1 Hb1]. rewrite outcome_bind. eapply outcome_weaken; [eapply prunes_outcome; [apply pruning_recovery|by intros n (_ & _ & ?)|exact Hc1]| |auto].
  intros [] w2 [Hc2 Hb2]. apply outcome_ret. split; [done|]. exists m. split_and!; [done..|]. split; [done..|].
  eapply live_beside; [by trans (w_disk w1)|done].
Qed.
Lemma looks_directory w : quiet (w_disk w) → tidy (w_dir w) → look open_store_directory w (λ _, True).
Proof using Type. intros Hq Ht. unfold open_store_directory. eapply look_bind; [by apply looks_event|]. intros _ _. by apply looks_event. Qed.

Lemma store_open_outcome w x H k ck other :
  sc_mode c = OpenExisting → quiet (w_disk w) → tidy (w_dir w) → unrotated w → reads store options (dr_now (w_dir w)) x →
  names_journal c i floor (r_manifest x) → recoverable (w_disk w) H k ck other None → openable i (w_disk w) →
  outcome (store_open c) w (λ s w', opened_with x H k ck s w') (λ _ w', intact x (w_dir w')).
Proof using Hi Hl Hf.
  intros Hmode Hq Ht Hu Hreads Hn Hr Hop. destruct (reads_held w Hq Ht store options x Hreads) as [Hx (slots & current_slot & Hst)].
  assert (∀ (e : ManifestStoreError) w', w_dir w' = w_dir w → intact x (w_dir w')) as Hw by (intros e w' ->; by eapply standing_intact).
  unfold store_open. eapply look_then; [by apply looks_directory| |intros e; by apply (Hw e)]. intros _ _.
  eapply look_then; [by apply look_preflight| |intros e; by apply (Hw e)]. intros preflight Hpre.
  eapply look_then; [eapply look_any, look_lift| |intros e; by apply (Hw e)]. intros _ _.
  rewrite outcome_bind. eapply outcome_weaken; [by apply acquire_outcome| |exact Hw]. intros [] w1 Haq.
  pose proof (acquired_unrotated _ _ Haq Ht Hu) as Hu1. destruct Haq as [Hq1 Ht1 Hk1 Hb1].
  assert (standing store slots current_slot (r_manifest x) (w_dir w1)) as Hst1.
  { eapply standing_kept; [exact Hst|exact Hk1|]. intros j Hj. eapply (marker_safe slots); [apply Hst|]. left. by exists j. }
  assert (holds_root (w_dir w1) x) as Hx1.
  { eapply roots_kept; [exact Hx|]. intros name P Hname. apply Hk1. eapply (marker_safe slots); [apply Hst|]. right.
    exists (r_manifest x). split; [|done]. by destruct (standing_current _ _ _ _ _ Hst) as (_ & _ & ? & _). }
  assert (∀ e : ManifestStoreError, intact x (w_dir w1)) as Hw1 by (intros _; by eapply standing_intact).
  eapply look_then; [by apply looks_preflight| |exact Hw1]. intros repeated _. apply outcome_refuse_step; [intros _|intros _; by eapply standing_intact].
  eapply look_then; [by apply look_inventory| |exact Hw1]. intros inventory Hintent. apply outcome_refuse_step; [intros _|intros _; by eapply standing_intact].
  eapply look_then; [| |exact Hw1].
  { apply look_quiet. destruct Hst1 as [Hs1 _ Hr1]. assert (∀ j, readable store (slot_at j slots)) as Hre
      by (intros j y Hy; eapply re_decodes, Hr1, slot_at_list, Hy).
    apply (read_slots_quiet store slots); [done|apply (shows_now _ _ _ (Hs1 0%nat ltac:(lia)))|apply (shows_now _ _ _ (Hs1 1%nat ltac:(lia)))|
      apply (Hre 0%nat)|apply (Hre 1%nat)]. }
  intros ? ->. unfold converge_rotation. rewrite Hintent. rewrite outcome_bind, outcome_ret. cbn beta iota.
  pose proof Hst1 as [_ Hsel _]. eapply look_then; [apply look_lift| |exact Hw1]. intros selected [= <-]%(eq_trans (eq_sym Hsel)). cbn beta iota.
  apply outcome_refuse_step; [intros _|intros _; by eapply standing_intact]. rewrite outcome_bind. eapply outcome_weaken.
  { eapply (open_committed_outcome w1 x slots current_slot H k ck other); try done; [by eapply recoverable_beside|by eapply openable_beside]. }
  2: done.
  intros s w2 Hopened. by apply finish_outcome.
Qed.
End reopening.
