(* ===== verification/StoreRuns.v ===== *)
(** * Runs of an open store

    A store that is created and then used through the operations of its handle,
    the composition of the registry operations, of appending and of the barrier,
    while any effect of any of them fails: what the handle holds, and what every
    crash leaves behind. *)

From S2P Require Import Prelude Bytes Identity Series Collection Registry Admission Wire Layout Crc Commit Journal Generation Retry RetryCodec Recovery.
From S2P Require Import Active Scan Effects Crash Reopen Handle Restart Disk Segment Manifest RegistryReplay RegistryCodec.
From S2P Require Import Directory Publish Roots Store Committed Custody RetryRoot Commitment Barrier Inventory Genesis.
From S2P Require Import Looks Sealed Rotation OpenStore Reload Reopening.

(** ** Runs *)

(** The environment of the next operations. *)
Definition disturb (events : list io_event) (w : world) : world := mkWorld (set_events events (w_disk w)) (w_dir w).
(** A registry operation, through the method that makes it. *)
Definition store_call (op : registry_op) : StoreMethod (registry_outcome * ManifestCommit) :=
  match op with
  | ORegister i b p e => '(d, commit) ← store_register i b p e; mret (Declared d, commit)
  | ORevise i n p e => '(d, commit) ← store_revise i n p e; mret (Declared d, commit)
  | ORetire i n e => '(t, commit) ← store_retire i n e; mret (Tombstoned t, commit)
  end.
Definition stopped (s : ManifestStore) : Prop := ms_write_state s ≠ Writable.
#[export] Instance stopped_dec s : Decision (stopped s).
Proof. unfold stopped. apply _. Defined.
(** The frame of an append that stopped the handle was written in part. *)
Definition frame_left (s s' : ManifestStore) (frame : PreparedFrameV1) : list DecodedAdmissionV1 :=
  if decide (¬ stopped s ∧ stopped s') then evidence frame else [].

Section runs.
Context (c : ManifestStoreConfig).
Local Abbreviation store := (sc_store_id c).
Local Abbreviation options := (sc_retry c).
Local Abbreviation limits := (sc_journal_limits c).
Local Abbreviation identity := (genesis_identity c).

(** The configuration that opens the store again. *)
Definition reopening : ManifestStoreConfig :=
  mkStoreConfig (sc_directory c) store OpenExisting limits (sc_registry c) options.

(** [H] are the admissions whose frames were written, at least partly; [ops] the
    registry operations that were acknowledged; and [n] the number of admissions that
    were acknowledged durable. After a power loss and an open that answers, both go
    on from what the open recovered: the operations may have gained the one that
    failed and stopped the handle. *)
Inductive store_run : ManifestStore → world → list DecodedAdmissionV1 → list registry_op → nat → Prop :=
| run_created inventory w s w' :
    blank inventory → untouched (w_dir w) → initialize_genesis c inventory (None, None) w = (Ok s, w') →
    store_run s w' [] [] 0
| run_called s w H ops n op events answer s' w' :
    store_run s w H ops n → wf op → store_call op (s, disturb events w) = (Ok answer, (s', w')) →
    store_run s' w' H (ops ++ [op]) n
| run_call_failed s w H ops n op events e s' w' :
    store_run s w H ops n → wf op → store_call op (s, disturb events w) = (Err e, (s', w')) →
    store_run s' w' H ops n
| run_appended s w H ops n events p q frame e s' w' :
    store_run s w H ops n → into_frame p q = Ok frame →
    store_append frame (s, disturb events w) = (Ok e, (s', w')) →
    store_run s' w' (H ++ evidence frame) ops n
| run_append_failed s w H ops n events p q frame e s' w' :
    store_run s w H ops n → into_frame p q = Ok frame →
    store_append frame (s, disturb events w) = (Err e, (s', w')) →
    store_run s' w' (H ++ frame_left s s' frame) ops n
| run_committed s w H ops n events pending answer s' w' :
    store_run s w H ops n → Forall sector_event events →
    store_sync_pending pending (s, disturb events w) = (Ok answer, (s', w')) →
    store_run s' w' H ops (length H)
| run_commit_failed s w H ops n events pending e s' w' :
    store_run s w H ops n → Forall sector_event events →
    store_sync_pending pending (s, disturb events w) = (Err e, (s', w')) →
    store_run s' w' H ops n
| run_reopened s w H ops n d' dj s' w' ops' :
    store_run s w H ops n → dir_survives (w_dir w) d' → power_loss identity (w_disk w) dj → unrotated (mkWorld dj d') →
    store_open reopening (mkWorld (set_events [] dj) d') = (Ok s', w') →
    (ops' = ops ∨ ∃ op, wf op ∧ ops' = ops ++ [op]) → ms_registry s' = Registry.run ops' (registry_new store (sc_registry c)) →
    store_run s' w' (rec_admission <$> aj_records (ms_journal s')) ops' (length (aj_records (ms_journal s'))).

(** ** What the methods keep *)

Context (Hs : wf store) (Hl : wf limits) (Hr : wf (sc_registry c)).
Local Abbreviation serving := (serving store options identity 0 limits).
Local Abbreviation left_with := (left_with store options identity 0 limits).
Local Abbreviation covers := (covers_records identity 0).
Local Abbreviation recovers := (recovers store options).
Definition empty_registry : SeriesRegistry := registry_new store (sc_registry c).

Lemma identity_wf : wf identity.
Proof using Hs. apply andb_True. by split. Qed.
Lemma floor_wf : is_u64 0.
Proof using Type. by vm_compute. Qed.

Lemma serving_events events s w H k : serving s w H k → serving s (disturb events w) H k.
Proof using Type. intros []. split; [done..|]. by eapply live_same; [apply set_events_same|]. Qed.
Lemma left_events events w H xs : left_with w H xs → left_with (disturb events w) H xs.
Proof using Type.
  intros (Ho & Hrec & k & (a & b & n & Hh) & Hx). split_and!; [by eapply openable_same; [apply set_events_same|]|done|].
  exists k. split; [|done]. exists a, b, n. by eapply recoverable_same; [apply set_events_same|].
Qed.

(** A registry operation keeps the registry's invariant and its store. *)
Lemma op_keeps op r a r' : wf op → registry_ok r → apply_op op r = (Ok a, r') → registry_ok r' ∧ reg_store_id r' = reg_store_id r.
Proof using Type.
  intros Hw Hok E. pose proof (apply_op_ok op r Hw Hok) as H. rewrite E in H. split; [done|].
  pose proof (apply_op_step op r Hw) as Hst. rewrite E in Hst. cbn [snd] in Hst. destruct Hst as [->|[]]; done.
Qed.

(** What a root that a crash may leave is, after a call that failed. *)
Definition attempted (H : list DecodedAdmissionV1) (registry : SeriesRegistry) (n : nat) (x : root) : Prop :=
  (∃ op, wf op ∧ r_registry x = (apply_op op registry).2 ∧ covers H n (mf_cutoff (r_manifest x))) ∨
  (r_registry x = registry ∧ covers H (length H) (mf_cutoff (r_manifest x))).

Section call.
Context {T : Type} (f : T → registry_outcome) (operation : SeriesRegistry → result ModelError T * SeriesRegistry) (op : registry_op).
Context (Hop : ∀ r, apply_op op r = Registry.outcome f (operation r)) (Hw : wf op).

Lemma call_outcome s w H k :
  serving s w H k →
  outcome ('(t, commit) ← apply_registry operation; mret (f t, commit)) (s, w)
    (λ ac st, serving st.1 st.2 H k ∧ apply_op op (ms_registry s) = (Ok ac.1, ms_registry st.1) ∧ ac.2 = Store.commit st.1)
    (λ _ st, st = (s, w) ∨ (stopped st.1 ∧ ∃ x, left_with st.2 H [root_of s; x] ∧
       r_registry x = (apply_op op (ms_registry s)).2 ∧ covers H k (mf_cutoff (r_manifest x)))).
Proof using Hw Hop.
  intros Hsv. pose proof (serving_covers _ _ _ _ _ _ _ _ _ Hsv) as Hcov. pose proof Hsv as [Hc Ha Hlv]. rewrite outcome_bind.
  eapply outcome_weaken; [apply (apply_registry_outcome store options operation)| |]; [|done..| |].
  - intros r a r' Hok E. apply (op_keeps op r (f a)); [done..|]. by rewrite Hop, E.
  - intros [t ac] [s' w'] (Hc' & Ha' & Ho & Hac & Hj & _ & Hb). apply outcome_ret. cbn [fst snd] in *.
    split_and!; [|by rewrite Hop, Ho|exact Hac]. split; [done..|]. rewrite Hj. by eapply live_beside.
  - intros e [s' w'] [[->|(Hst & a & reference & registry & Ho & Hrec)] Hb]; [by left|right]. cbn [fst snd] in *. split; [done|].
    exists (registry_root s reference registry). split_and!.
    + assert (live identity 0 limits (ms_journal s) (w_disk w') H k) as Hlv' by by eapply live_beside.
      destruct (live_left _ _ _ _ _ _ _ Hlv') as [Hh Hopen]. split_and!; [done..|]. exists k. split; [done|].
      intros x [->| ->%list_elem_of_singleton]%elem_of_cons; exists k; (split; [done|]); [done|]. cbn. by rewrite Ha.
    + cbn. by rewrite Hop, Ho.
    + cbn. by rewrite Ha.
Qed.
End call.
Lemma store_call_outcome op s w H k :
  wf op → serving s w H k →
  outcome (store_call op) (s, w)
    (λ ac st, serving st.1 st.2 H k ∧ apply_op op (ms_registry s) = (Ok ac.1, ms_registry st.1) ∧ ac.2 = Store.commit st.1)
    (λ _ st, st = (s, w) ∨ (stopped st.1 ∧ ∃ x, left_with st.2 H [root_of s; x] ∧
       r_registry x = (apply_op op (ms_registry s)).2 ∧ covers H k (mf_cutoff (r_manifest x)))).
Proof using Type. intros Hw Hsv. destruct op; by apply call_outcome. Qed.

(** A stopped handle answers nothing and changes nothing. *)
Lemma usable_stopped s : stopped s → ∃ e, store_usable s = Err e.
Proof using Type. unfold stopped, store_usable. destruct (ms_write_state s); [done|eauto..]. Qed.
Lemma stopped_refuses s w :
  stopped s → (∀ op, ∃ e, store_call op (s, w) = (Err e, (s, w))) ∧ (∀ frame, ∃ e, store_append frame (s, w) = (Err e, (s, w))) ∧
  (∀ pending, ∃ e, store_sync_pending pending (s, w) = (Err e, (s, w))).
Proof using Type.
  intros (e & He)%usable_stopped.
  assert (∀ T (m : SeriesRegistry → result ModelError T * SeriesRegistry), apply_registry m (s, w) = (Err e, (s, w))) as Hr'.
  { intros T m. unfold apply_registry, mbind, M_bind, this, lift. cbn [fst]. by rewrite He. }
  split_and!.
  - intros op. exists e. destruct op; unfold store_call, store_register, store_revise, store_retire, mbind, M_bind; by rewrite Hr'.
  - intros frame. exists e. unfold store_append, mbind, M_bind, this, lift, preflight_historical_declaration. cbn [fst]. by rewrite He.
  - intros pending. exists e. unfold store_sync_pending, mbind, M_bind, this, lift. cbn [fst]. by rewrite He.
Qed.

(** ** The invariant of a run *)

Definition store_inv (s : ManifestStore) (w : world) (H : list DecodedAdmissionV1) (registry : SeriesRegistry) (n : nat) : Prop :=
  (¬ stopped s ∧ serving s w H n ∧ ms_registry s = registry) ∨
  (stopped s ∧ ∃ x xs, left_with w H (x :: xs) ∧ r_registry x = registry ∧ covers H n (mf_cutoff (r_manifest x)) ∧
     ∀ y, y ∈ xs → attempted H registry n y).

Lemma serving_writable s w H k : serving s w H k → ¬ stopped s.
Proof using Type. intros [[Hw _ _ _ _] _ _]. intros Hst. by apply Hst. Qed.
Lemma serving_inv s w H k : serving s w H k → store_inv s w H (ms_registry s) k.
Proof using Type. intros Hsv. left. split_and!; [by eapply serving_writable|done..]. Qed.
Lemma inv_events events s w H registry n : store_inv s w H registry n → store_inv s (disturb events w) H registry n.
Proof using Type.
  intros [(Hst & Hsv & Er)|(Hst & x & xs & Hl' & Hx)]; [left|right].
  - split_and!; [done|by apply serving_events|done].
  - split; [done|]. exists x, xs. split; [by apply left_events|done].
Qed.

Lemma called_inv s w H registry n op answer s' w' :
  wf op → store_inv s w H registry n → store_call op (s, w) = (Ok answer, (s', w')) → store_inv s' w' H (apply_op op registry).2 n.
Proof using Type.
  intros Hw [(Hst & Hsv & <-)|(Hst & _)] E.
  - destruct (outcome_Ok _ _ _ _ _ _ (store_call_outcome op s w H n Hw Hsv) E) as (Hsv' & Ho & _). cbn [fst snd] in *.
    rewrite Ho. by apply serving_inv.
  - destruct (stopped_refuses s w Hst) as (Hc & _). destruct (Hc op) as [e E']. by rewrite E in E'.
Qed.
Lemma call_failed_inv s w H registry n op e s' w' :
  wf op → store_inv s w H registry n → store_call op (s, w) = (Err e, (s', w')) → store_inv s' w' H registry n.
Proof using Type.
  intros Hw Hi E. pose proof Hi as [(Hst & Hsv & <-)|(Hst & _)].
  - destruct (outcome_Err _ _ _ _ _ _ (store_call_outcome op s w H n Hw Hsv) E) as [[= -> ->]|(Hst' & x & Hl' & Er & Hc)]; [done|].
    right. split; [done|]. exists (root_of s), [x]. split_and!; [done..|by eapply serving_covers|].
    intros y ->%list_elem_of_singleton. left. by exists op.
  - destruct (stopped_refuses s w Hst) as (Hc & _). destruct (Hc op) as [e' E']. rewrite E in E'. by injection E' as -> -> ->.
Qed.
Lemma covers_more H K k cutoff : covers H k cutoff → covers (H ++ K) k cutoff.
Proof using Type. intros (Hk & ? & ? & He). split_and!; [rewrite length_app; lia|done..|]. by rewrite take_app_le. Qed.
Lemma appended_inv s w H registry n p q frame e s' w' :
  into_frame p q = Ok frame → store_inv s w H registry n → store_append frame (s, w) = (Ok e, (s', w')) →
  store_inv s' w' (H ++ evidence frame) registry n.
Proof using Type.
  intros Hfr [(Hst & Hsv & <-)|(Hst & _)] E.
  - destruct (outcome_Ok _ _ _ _ _ _ (store_append_outcome _ _ _ _ _ floor_wf s w H n frame p q Hsv Hfr) E) as (Hsv' & Er & _).
    cbn [fst snd] in *. injection Er as _ <- _ _. by apply serving_inv.
  - destruct (stopped_refuses s w Hst) as (_ & Hc & _). destruct (Hc frame) as [e' E']. by rewrite E in E'.
Qed.
Lemma append_failed_inv s w H registry n p q frame e s' w' :
  into_frame p q = Ok frame → store_inv s w H registry n → store_append frame (s, w) = (Err e, (s', w')) →
  store_inv s' w' (H ++ frame_left s s' frame) registry n.
Proof using Type.
  intros Hfr Hi E. unfold frame_left. pose proof Hi as [(Hst & Hsv & <-)|(Hst & _)].
  - destruct (outcome_Err _ _ _ _ _ _ (store_append_outcome _ _ _ _ _ floor_wf s w H n frame p q Hsv Hfr) E) as [[Es Hsv']|[Hst' Hl']];
      cbn [fst snd] in *.
    + subst s'. rewrite decide_False by tauto. rewrite app_nil_r. by apply serving_inv.
    + rewrite decide_True by done. right. split; [done|]. exists (root_of s), []. split_and!; [done..| |by intros y []%not_elem_of_nil].
      apply covers_more. by eapply serving_covers.
  - destruct (stopped_refuses s w Hst) as (_ & Hc & _). destruct (Hc frame) as [e' E']. rewrite E in E'. injection E' as -> -> ->.
    rewrite decide_False by tauto. by rewrite app_nil_r.
Qed.
Lemma committed_inv s w H registry n pending answer s' w' :
  sectors (w_disk w) → store_inv s w H registry n → store_sync_pending pending (s, w) = (Ok answer, (s', w')) →
  store_inv s' w' H registry (length H).
Proof using Hs Hl.
  intros Hsec [(Hst & Hsv & <-)|(Hst & _)] E.
  - destruct (outcome_Ok _ _ _ _ _ _ (store_sync_outcome _ _ _ _ _ identity_wf Hl floor_wf s w H n pending Hsv Hsec) E) as (Hsv' & _ & <- & _).
    by apply serving_inv.
  - destruct (stopped_refuses s w Hst) as (_ & _ & Hc). destruct (Hc pending) as [e' E']. by rewrite E in E'.
Qed.
Lemma commit_failed_inv s w H registry n pending e s' w' :
  sectors (w_disk w) → store_inv s w H registry n → store_sync_pending pending (s, w) = (Err e, (s', w')) →
  store_inv s' w' H registry n.
Proof using Hs Hl.
  intros Hsec Hi E. pose proof Hi as [(Hst & Hsv & <-)|(Hst & _)].
  - destruct (outcome_Err _ _ _ _ _ _ (store_sync_outcome _ _ _ _ _ identity_wf Hl floor_wf s w H n pending Hsv Hsec) E)
      as [[= -> ->]|(Hst' & xs & Hl' & Hx)]; [done|].
    right. split; [done|]. exists (root_of s), xs. split_and!; [done..|by eapply serving_covers|].
    intros y Hy. right. by apply Hx.
  - destruct (stopped_refuses s w Hst) as (_ & _ & Hc). destruct (Hc pending) as [e' E']. rewrite E in E'. by injection E' as -> -> ->.
Qed.

(** ** What a crash leaves *)

Lemma covers_unique H a b cutoff : covers H a cutoff → covers H b cutoff → a = b.
Proof using Type. intros (_ & _ & Ha & _) (_ & _ & Hb & _). lia. Qed.
(** Which root a crash left: the last acknowledged one, or that of the call that
    stopped the handle. *)
Definition left_over (s : ManifestStore) (H : list DecodedAdmissionV1) (registry : SeriesRegistry) (n : nat) (found : SeriesRegistry) (m : nat) : Prop :=
  (found = registry ∧ m = n) ∨
  (stopped s ∧ ((∃ op, wf op ∧ found = (apply_op op registry).2 ∧ m = n) ∨ (found = registry ∧ m = length H))).
Lemma inv_crash s w H registry n d' :
  store_inv s w H registry n → crashed (w_dir w) d' →
  ∃ x m k, reads store options (dr_now d') x ∧
    left_over s H registry n (r_registry x) m ∧ covers H m (mf_cutoff (r_manifest x)) ∧ (m ≤ k)%nat ∧ holds identity 0 limits (w_disk w) H k ∧ openable identity (w_disk w).
Proof using Type.
  intros [(Hst & Hsv & <-)|(Hst & x & xs & (Ho & Hrec & k & Hh & Hk) & Er & Hc & Hx)] Hcrash.
  - destruct (committed_recovers _ _ _ _ (sv_committed _ _ _ _ _ _ _ _ _ Hsv) d' Hcrash)
      as (x & ->%list_elem_of_singleton & Hreads).
    destruct (live_left _ _ _ _ _ _ _ (sv_live _ _ _ _ _ _ _ _ _ Hsv)) as [Hh Ho].
    exists (root_of s), n, n. split_and!; [done|by left|by eapply serving_covers|done..].
  - destruct (Hrec d' Hcrash) as (y & Hy & Hreads). destruct (Hk y Hy) as (m & Hmk & Hm). exists y, m, k.
    split_and!; [done| |done..]. apply elem_of_cons in Hy as [->|Hy]; [left; split; [done|by eapply covers_unique]|right].
    split; [done|]. destruct (Hx y Hy) as [(op & Hw & Ey & Hcy)|[Ey Hcy]]; [left; exists op|right]; split_and!; try done; by eapply covers_unique.
Qed.
(** Every crash reads back that root, up to the report that an open adds. *)
Definition stays (registry : SeriesRegistry) (cutoff : DurableCutoff) (d : dir) : Prop :=
  ∀ d', crashed d d' → ∃ x, reads store options (dr_now d') x ∧ r_registry x = registry ∧ mf_cutoff (r_manifest x) = cutoff.
Lemma intact_stays x d : intact reopening x d → stays (r_registry x) (mf_cutoff (r_manifest x)) d.
Proof using Type.
  intros (ys & Hrec & Hys) d' Hd. destruct (Hrec d' Hd) as (y & Hy & Hread). exists y. split; [exact Hread|].
  apply elem_of_cons in Hy as [->|Hy]; [done|]. by destruct (Hys y Hy) as [reference ->].
Qed.

(** What an open of such a directory serves. *)
Lemma inv_reopened s w H registry n d' dj :
  store_inv s w H registry n → dir_survives (w_dir w) d' → power_loss identity (w_disk w) dj → unrotated (mkWorld dj d') →
  outcome (store_open reopening) (mkWorld (set_events [] dj) d')
    (λ s' w', ∃ m, serving s' w' (take m H) m ∧ left_over s H registry n (ms_registry s') m)
    (λ _ w', ∃ found cutoff m, left_over s H registry n found m ∧ covers H m cutoff ∧ stays found cutoff (w_dir w')).
Proof using Hs Hl.
  intros Hinv Hd Hdj Hu. destruct (inv_crash s w H registry n d' Hinv (or_intror Hd)) as (x & m & k & Hx & Hcase & Hcov & Hm & (ck0 & o & nx & Hrec) & _).
  destruct (power_loss_recoverable identity 0 limits identity_wf _ _ _ _ _ _ _ Hrec Hdj) as ([Hsj _] & ck & o' & Hrec').
  pose proof Hcov as (Hlen & Hcj & Hseq & _).
  eapply outcome_weaken.
  - apply (store_open_outcome reopening identity 0 identity_wf Hl floor_wf (mkWorld (set_events [] dj) d') x H k ck o');
      [done|done|by eapply survives_tidy|exact Hu|exact Hx| | |].
    + split; [unfold mf_journal; rewrite Hcj; done|]. right. unfold mf_journal. by rewrite Hcj.
    + eapply recoverable_same; [apply set_events_same|exact Hrec'].
    + intros f Hf. by rewrite (Hsj f Hf).
  - intros s' w' [Hroot (m' & Hm' & _ & Hsv)].
    assert (ms_registry s' = r_registry x ∧ mf_cutoff (ms_current s') = mf_cutoff (r_manifest x)) as [Er Ecut].
    { destruct Hroot as [<-|[reference E]]; [done|]. split; [exact (f_equal r_registry E)|]. exact (f_equal (mf_cutoff ∘ r_manifest) E). }
    assert (m' = m) as ->.
    { pose proof (serving_covers _ _ _ _ _ _ _ _ _ Hsv) as (_ & _ & Hseq' & _). rewrite Ecut, Hseq in Hseq'. lia. }
    exists m. split; [exact Hsv|]. unfold left_over. rewrite Er. exact Hcase.
  - intros e w' Hin. exists (r_registry x), (mf_cutoff (r_manifest x)), m. split_and!; [exact Hcase|exact Hcov|by apply intact_stays].
Qed.

Lemma inv_length s w H registry n : store_inv s w H registry n → (n ≤ length H)%nat.
Proof using Type.
  intros [(_ & Hsv & _)|(_ & x & xs & _ & _ & Hc & _)]; [apply serving_covers in Hsv as Hc|]; apply Hc.
Qed.
(** The journal's files after the crash. *)
Lemma crash_open d dj H k m :
  openable identity d → holds identity 0 limits d H k → (m ≤ k)%nat → dj = d ∨ power_loss identity d dj → dk_locked dj = false →
  ∃ aj d'' recovered,
    Active.open (config (sc_directory c) identity 0 limits OpenExisting) (set_events [] dj) = (Ok aj, d'') ∧
    take m H `prefix_of` recovered ∧ recovered `prefix_of` H ∧ aj_records aj = placed JOURNAL_V1_HEADER_LEN recovered.
Proof using Hs Hl.
  intros Ho Hh Hm Hd Hlock.
  assert (run_inv identity 0 limits Down (set_events [] dj) H (take m H)) as (Hop & H' & k' & HH & Ha & Hh').
  { apply run_inv_events. assert (run_inv identity 0 limits Down d H (take m H)) as Hi.
    { split; [done|]. exists H, k. split_and!; [done|by apply (prefix_take_mono H _ m)|done]. }
    destruct Hd as [->|Hp]; [done|]. by apply (power_loss_keeps identity 0 limits identity_wf Down d dj). }
  pose proof (open_existing_outcome (sc_directory c) identity 0 limits identity_wf Hl floor_wf (set_events [] dj) H' k' Hh' Hop) as Ho'.
  unfold outcome in Ho'. destruct (Active.open _ _) as [[aj|e] d''].
  - destruct Ho' as (n & Hn & Hlv); [constructor|]. exists aj, d'', (take n H'). destruct Hlv as [_ _ _ _ Hrec _ _].
    split_and!; [done| |by trans H'; [apply prefix_take|]|done]. by apply (prefix_take_mono H' _ k'); [lia|].
  - destruct Ho' as ([Hq|Hlk] & _); [constructor|by destruct Hq|]. cbn in Hlk. congruence.
Qed.
Lemma store_run_inv s w H ops n : store_run s w H ops n → store_inv s w H (Registry.run ops empty_registry) n.
Proof using Hs Hl Hr.
  induction 1 as [inventory w s w' Hb Hu E|s w H ops n op events answer s' w' _ IH Hw E|s w H ops n op events e s' w' _ IH Hw E
    |s w H ops n events p q frame e s' w' _ IH Hf E|s w H ops n events p q frame e s' w' _ IH Hf E
    |s w H ops n events pending answer s' w' _ IH He E|s w H ops n events pending e s' w' _ IH He E
    |s w H ops n d' dj s' w' ops' _ IH Hd Hdj Hu E Hops Hreg];
    try apply (inv_events events) in IH.
  - destruct (outcome_Ok _ _ _ _ _ _ (genesis_outcome c Hs Hl Hr inventory w Hb Hu) E) as [Hsv Hg].
    pose proof (gn_registry _ _ Hg) as Er. cbn in Er |- *. unfold empty_registry. rewrite <-Er. by apply serving_inv.
  - unfold Registry.run. rewrite foldl_app. cbn [foldl]. by eapply called_inv.
  - by eapply call_failed_inv.
  - by eapply appended_inv.
  - by eapply append_failed_inv.
  - by eapply (committed_inv s (disturb events w)).
  - by eapply (commit_failed_inv s (disturb events w)).
  - destruct (outcome_Ok _ _ _ _ _ _ (inv_reopened s w H _ n d' dj IH Hd Hdj Hu) E) as (m & Hsv & _).
    pose proof (live_admissions _ _ _ _ _ _ _ (sv_live _ _ _ _ _ _ _ _ _ Hsv)) as Ea.
    rewrite <-(length_fmap rec_admission), Ea. unfold empty_registry. rewrite <-Hreg.
    replace (length (take m H)) with m; [by apply serving_inv|].
    destruct (serving_covers _ _ _ _ _ _ _ _ _ Hsv) as (Hm & _). rewrite length_take in *. lia.
Qed.
End runs.

(** ** Properties *)

(** C1: Crash atomicity of the store. Take any run: a store is created in a directory
    without slots and then used through registry operations, appends and barriers, any
    effect of which fails at any point (a checkpoint slot whole or not at all), and it
    may lose power and be opened again, undisturbed, any number of times. When the process dies, or
    power is lost with any unsettled file torn and any entry back at one since the last
    directory synchronization, the directory reads back one root. Its registry is the
    result of the acknowledged operations and its cutoff covers the admissions
    acknowledged durable; or, only if a call failed and stopped the handle, it is the
    root of that one call: one more registry operation, or all admissions. Whichever it
    is, the journal's files open to a prefix of the admissions that contains all that
    the root covers. *)
Theorem store_crash_safe c s w H ops n d' dj
    (Hs : wf (sc_store_id c)) (Hl : wf (sc_journal_limits c)) (Hr : wf (sc_registry c))
    (Hrun : store_run c s w H ops n) (Hcrash : crashed (w_dir w) d')
    (Hdisk : dj = w_disk w ∨ power_loss (genesis_identity c) (w_disk w) dj) (Hlock : dk_locked dj = false) :
  ∃ x m,
    reads (sc_store_id c) (sc_retry c) (dr_now d') x ∧
    ((r_registry x = Registry.run ops (empty_registry c) ∧ m = n) ∨
     (stopped s ∧ ((∃ op, wf op ∧ r_registry x = Registry.run (ops ++ [op]) (empty_registry c) ∧ m = n) ∨
                   (r_registry x = Registry.run ops (empty_registry c) ∧ m = length H)))) ∧
    cut_append_sequence (mf_cutoff (r_manifest x)) = Z.of_nat m ∧
    cut_end_offset (mf_cutoff (r_manifest x)) = end_of (take m H) ∧
    ∃ aj d'' recovered,
      Active.open (config (sc_directory c) (genesis_identity c) 0 (sc_journal_limits c) OpenExisting) (set_events [] dj) = (Ok aj, d'') ∧
      take m H `prefix_of` recovered ∧ recovered `prefix_of` H ∧ aj_records aj = placed JOURNAL_V1_HEADER_LEN recovered.
Proof.
  apply store_run_inv in Hrun; [|done..]. destruct (inv_crash c s w H _ n d' Hrun Hcrash) as (x & m & k & Hx & Hcase & Hc & Hm & Hh & Ho).
  exists x, m. destruct Hc as (Hlen & _ & Hseq & Hend). split_and!; [done| |lia|done|by eapply crash_open].
  destruct Hcase as [?|(Hst & [(op & Hw & Er & Em)|?])]; [by left|right..]; (split; [done|]); [left|by right].
  exists op. split_and!; [done| |done]. unfold Registry.run. by rewrite foldl_app.
Qed.

(** C2: An open after a power loss serves what the store promised. Take any run, and
    lose power: any unsettled file torn, any entry back at one since the last directory
    synchronization, the journal's files cut or torn as [power_loss] allows. When no
    rotation was interrupted and the environment is quiet, an open that answers has the
    registry of the acknowledged operations and serves exactly the admissions that were
    acknowledged durable; or, only if a call had failed and stopped the handle, the
    registry after that one call, or all the admissions. The handle is again in a run,
    so that all this holds of what follows. An open that refuses leaves a directory that
    every crash reads back to that registry and those admissions. *)
Theorem store_reopen_serves c s w H ops n d' dj
    (Hs : wf (sc_store_id c)) (Hl : wf (sc_journal_limits c)) (Hr : wf (sc_registry c))
    (Hrun : store_run c s w H ops n) (Hdir : dir_survives (w_dir w) d') (Hdisk : power_loss (genesis_identity c) (w_disk w) dj)
    (Hrotation : unrotated (mkWorld dj d')) :
  let promised ops' m :=
    (ops' = ops ∧ m = n) ∨
    (stopped s ∧ ((∃ op, wf op ∧ ops' = ops ++ [op] ∧ m = n) ∨ (ops' = ops ∧ m = length H))) in
  match store_open (reopening c) (mkWorld (set_events [] dj) d') with
  | (Ok s', w') => ∃ ops' m, promised ops' m ∧
      ms_registry s' = Registry.run ops' (empty_registry c) ∧
      aj_records (ms_journal s') = placed JOURNAL_V1_HEADER_LEN (take m H) ∧ (n ≤ m ≤ length H)%nat ∧
      store_run c s' w' (take m H) ops' m
  | (Err _, w') => ∃ ops' m, promised ops' m ∧
      ∀ d2, crashed (w_dir w') d2 →
      ∃ x, reads (sc_store_id c) (sc_retry c) (dr_now d2) x ∧ r_registry x = Registry.run ops' (empty_registry c) ∧
           cut_append_sequence (mf_cutoff (r_manifest x)) = Z.of_nat m ∧ cut_end_offset (mf_cutoff (r_manifest x)) = end_of (take m H)
  end.
Proof.
  intros promised. pose proof (store_run_inv c Hs Hl Hr _ _ _ _ _ Hrun) as Hinv. pose proof (inv_length _ _ _ _ _ _ Hinv) as Hn.
  pose proof (inv_reopened c Hs Hl s w H _ n d' dj Hinv Hdir Hdisk Hrotation) as Hopen. unfold outcome in Hopen.
  assert (∀ found m, left_over s H (Registry.run ops (empty_registry c)) n found m →
    ∃ ops', promised ops' m ∧ found = Registry.run ops' (empty_registry c) ∧ (ops' = ops ∨ ∃ op, wf op ∧ ops' = ops ++ [op]) ∧ (n ≤ m ≤ length H)%nat) as Hops.
  { intros found m [[-> ->]|(Hst & [(op & Hw & -> & ->)|[-> ->]])]; [exists ops|exists (ops ++ [op])|exists ops]; (split; [|split; [|split]]);
      unfold promised, Registry.run; rewrite ?foldl_app; eauto 8; lia. }
  destruct (store_open _ _) as [[s'|e] w'] eqn:E; cbn [fst snd] in Hopen.
  - destruct Hopen as (m & Hsv & (ops' & Hp & Er & Hcase & Hm)%Hops). exists ops', m. split_and!; [done..| |lia|lia|].
    + by destruct (sv_live _ _ _ _ _ _ _ _ _ Hsv).
    + pose proof (live_admissions _ _ _ _ _ _ _ (sv_live _ _ _ _ _ _ _ _ _ Hsv)) as Ea.
      pose proof (run_reopened c s w H ops n d' dj s' w' ops' Hrun Hdir Hdisk Hrotation E Hcase Er) as Hrun'.
      rewrite <-(length_fmap rec_admission), Ea in Hrun'. rewrite length_take_le in Hrun' by lia. exact Hrun'.
  - destruct Hopen as (found & cutoff & m & (ops' & Hp & -> & _)%Hops & (Hm & _ & Hseq & Hend) & Hstay). exists ops', m. split; [exact Hp|].
    intros d2 Hd2. destruct (Hstay d2 Hd2) as (x & Hx & Er & <-). exists x. split_and!; [done..|lia|done].
Qed.

(** A store that is created, declares a series, stores an admission of it durably, and
    fails while it revises the series. *)
Definition sample_store_config : ManifestStoreConfig :=
  mkStoreConfig [x2f] (sample_id 0) CreateNew sample_journal_limits (mkLimits 2 4) sample_options.
Definition sample_no_artifacts : Inventory := inventory_of [StoreLock; StoreFormatMarker].
Definition sample_new_world : world := mkWorld sample_empty
  (mkDir {[STORE_LOCK_FILE_NAME := settled []; STORE_FORMAT_FILE_NAME := settled (encode_store_format_marker (sample_id 0))]} []).
Definition sample_genesis := initialize_genesis sample_store_config sample_no_artifacts (None, None) sample_new_world.
Definition handle_of (answer : result ManifestStoreError ManifestStore * world) : ManifestStore * world :=
  (match answer.1 with
   | Ok s => s
   | Err _ => unpublished sample_store_config (opened (Err InvalidOptions)) (None, None)
   end, answer.2).
Definition next_state {A} (answer : result ManifestStoreError A * (ManifestStore * world)) : ManifestStore * world := answer.2.
Definition sample_op (n : nat) : registry_op := nth n sample_ops (ORetire (sample_id 1) FIRST (sample_decl_evidence 1)).
Definition sample_call (op : registry_op) (events : list io_event) (st : ManifestStore * world) := store_call op (st.1, disturb events st.2).
Definition sample_store_at (k : Z) (st : ManifestStore * world) := store_append (sample_frame_at k) (st.1, disturb [] st.2).
Definition sample_store := sample_store_at 1.
Definition sample_settle (st : ManifestStore * world) :=
  store_sync_pending [mkPending sample_retry 1 (28 + 829)] (st.1, disturb [] st.2).
Definition sample_registered := sample_call (sample_op 0) [] (handle_of sample_genesis).
Definition sample_revised := sample_call (sample_op 1) [] sample_registered.2.
Definition sample_stored := sample_store sample_revised.2.
Definition sample_settled := sample_settle sample_stored.2.
(** The rename of the next manifest happens, and reports a failure. *)
Definition sample_store_failing : list io_event := replicate 15 IoDone ++ [IoFailed 1 (mkIoError StorageFull None)].
Definition sample_stopped := sample_call (sample_op 2) sample_store_failing sample_settled.2.

Section answers.
Context {A : Type}.
Lemma store_answers (r : result ManifestStoreError A * (ManifestStore * world)) :
  is_ok r.1 = true → ∃ a, r = (Ok a, (r.2.1, r.2.2)).
Proof. destruct r as [[a|e] [s w]]; [by exists a|done]. Qed.
Lemma store_fails (r : result ManifestStoreError A * (ManifestStore * world)) :
  is_ok r.1 = false → ∃ e, r = (Err e, (r.2.1, r.2.2)).
Proof. destruct r as [[a|e] [s w]]; [done|by exists e]. Qed.
End answers.
Lemma handle_Ok r : is_ok r.1 = true → r = (Ok (handle_of r).1, (handle_of r).2).
Proof. by destruct r as [[s|e] w]. Qed.
Abbreviation sample_state_of st H ops n := (store_run sample_store_config st.1 st.2 H ops n).
Lemma sample_untouched : untouched (w_dir sample_new_world).
Proof.
  intros j Hj m [->|[]%elem_of_nil]%elem_of_cons. destruct j as [|[|j]]; [by apply (bool_decide_unpack _); vm_compute..|lia].
Qed.
Lemma sample_run_genesis : sample_state_of (handle_of sample_genesis) [] [] 0.
Proof.
  apply (run_created sample_store_config sample_no_artifacts sample_new_world); [by split_and!; vm_compute|exact sample_untouched|].
  apply handle_Ok. by vm_compute.
Qed.
Lemma sample_call_run st H ops n op events :
  sample_state_of st H ops n → wf op → is_ok (sample_call op events st).1 = true → sample_state_of (sample_call op events st).2 H (ops ++ [op]) n.
Proof. intros Hrun Hw [a E]%store_answers. exact (run_called _ _ _ _ _ _ op events a _ _ Hrun Hw E). Qed.
Lemma sample_call_stops st H ops n op events :
  sample_state_of st H ops n → wf op → is_ok (sample_call op events st).1 = false → sample_state_of (sample_call op events st).2 H ops n.
Proof. intros Hrun Hw [e E]%store_fails. exact (run_call_failed _ _ _ _ _ _ op events e _ _ Hrun Hw E). Qed.
Lemma sample_store_run st H ops n :
  sample_state_of st H ops n → is_ok (sample_store st).1 = true → sample_state_of (sample_store st).2 (H ++ evidence (sample_frame_at 1)) ops n.
Proof.
  intros Hrun [e E]%store_answers. exact (run_appended _ _ _ _ _ _ [] _ _ _ e _ _ Hrun (sample_prepared_frame 1 (or_introl eq_refl)) E).
Qed.
Lemma sample_store_again st H ops n :
  sample_state_of st H ops n → is_ok (sample_store_at 2 st).1 = true → sample_state_of (sample_store_at 2 st).2 (H ++ evidence (sample_frame_at 2)) ops n.
Proof.
  intros Hrun [e E]%store_answers. exact (run_appended _ _ _ _ _ _ [] _ _ _ e _ _ Hrun (sample_prepared_frame 2 (or_intror eq_refl)) E).
Qed.
Lemma sample_settle_run st H ops n :
  sample_state_of st H ops n → is_ok (sample_settle st).1 = true → sample_state_of (sample_settle st).2 H ops (length H).
Proof. intros Hrun [e E]%store_answers. exact (run_committed _ _ _ _ _ _ [] _ e _ _ Hrun (Forall_nil_2 _) E). Qed.
Definition sample_written : list DecodedAdmissionV1 := [] ++ evidence (sample_frame_at 1).
Definition sample_declaring : list registry_op := ([] ++ [sample_op 0]) ++ [sample_op 1].
Lemma sample_settled_run : sample_state_of sample_settled.2 sample_written sample_declaring (length sample_written).
Proof.
  unfold sample_settled. apply sample_settle_run with 0%nat; [|by vm_compute].
  unfold sample_stored, sample_written. apply sample_store_run; [|by vm_compute]. unfold sample_revised, sample_declaring.
  apply sample_call_run; [|by vm_compute..]. unfold sample_registered. apply sample_call_run; [exact sample_run_genesis|by vm_compute..].
Qed.
Lemma sample_store_runs : sample_state_of sample_stopped.2 sample_written sample_declaring (length sample_written).
Proof. unfold sample_stopped. apply sample_call_stops; [exact sample_settled_run|by vm_compute..]. Qed.

Lemma store_crash_safe_witness :
  ∃ x m,
    reads (sample_id 0) sample_options (dr_now (w_dir sample_stopped.2.2)) x ∧
    ((r_registry x = Registry.run sample_declaring (empty_registry sample_store_config) ∧ m = length sample_written) ∨
     (stopped sample_stopped.2.1 ∧
      ((∃ op, wf op ∧ r_registry x = Registry.run (sample_declaring ++ [op]) (empty_registry sample_store_config) ∧ m = length sample_written) ∨
       (r_registry x = Registry.run sample_declaring (empty_registry sample_store_config) ∧ m = length sample_written)))) ∧
    cut_append_sequence (mf_cutoff (r_manifest x)) = Z.of_nat m ∧
    cut_end_offset (mf_cutoff (r_manifest x)) = end_of (take m sample_written) ∧
    ∃ aj d'' recovered,
      Active.open (config [x2f] (genesis_identity sample_store_config) 0 sample_journal_limits OpenExisting)
        (set_events [] (w_disk sample_stopped.2.2)) = (Ok aj, d'') ∧
      take m sample_written `prefix_of` recovered ∧ recovered `prefix_of` sample_written ∧
      aj_records aj = placed JOURNAL_V1_HEADER_LEN recovered.
Proof.
  apply (store_crash_safe sample_store_config sample_stopped.2.1 sample_stopped.2.2 sample_written sample_declaring (length sample_written) (w_dir sample_stopped.2.2) (w_disk sample_stopped.2.2));
    [by vm_compute..|exact sample_store_runs|by left|by left|by vm_compute].
Defined.

(** A power loss that tears a frame that no barrier settled. *)
Definition sample_unsettled := sample_store_at 2 sample_settled.2.
Definition sample_lost_files : disk :=
  let d := w_disk sample_unsettled.2.2 in
  let name := journal_name (genesis_identity sample_store_config) in
  let bytes := take 1000 (data_of d name) in
  mkDisk (<[name := mkFile bytes bytes]> (dk_files d)) (dk_entries d) false [].
Definition sample_lost_dir : dir := mkDir (dr_now (w_dir sample_unsettled.2.2)) [].
(** Settled files that were shown together survive a power loss. *)
Lemma settled_survives d m :
  m ∈ dr_now d :: dr_past d → map_Forall (λ _ f, sf_settled f = true) m → dir_survives d (mkDir m []).
Proof.
  intros Hm Hf. split; [done|]. intros name. exists m. split; [exact Hm|]. cbn [dr_now]. destruct (m !! name) as [[b settled]|] eqn:E; [|constructor].
  pose proof (Hf _ _ E) as Hs. cbn in Hs. subst settled. constructor.
Qed.
Lemma sample_lost_survives : dir_survives (w_dir sample_unsettled.2.2) sample_lost_dir.
Proof. apply settled_survives; [by left|]. apply (bool_decide_unpack _). by vm_compute. Qed.
Lemma sample_lost_power : power_loss (genesis_identity sample_store_config) (w_disk sample_unsettled.2.2) sample_lost_files.
Proof.
  apply power_loss_cut.
  - left. split; [|unfold data_of; apply prefix_take]. apply (bool_decide_unpack _). by vm_compute.
  - split; apply (bool_decide_unpack _); by vm_compute.
Qed.
Lemma store_reopen_serves_witness :
  ∃ s' w', store_open (reopening sample_store_config) (mkWorld (set_events [] sample_lost_files) sample_lost_dir) = (Ok s', w') ∧
    ms_registry s' = Registry.run sample_declaring (empty_registry sample_store_config) ∧
    aj_records (ms_journal s') = placed JOURNAL_V1_HEADER_LEN sample_written.
Proof.
  pose proof (store_reopen_serves sample_store_config sample_unsettled.2.1 sample_unsettled.2.2
    (sample_written ++ evidence (sample_frame_at 2)) sample_declaring (length sample_written) sample_lost_dir sample_lost_files) as H.
  destruct (store_open _ _) as [[s'|e] w'] eqn:E.
  - exists s', w'. split; [done|].
    destruct H as (ops' & m & Hp & Er & Ea & _ & _);
      [by vm_compute..|by apply sample_store_again; [exact sample_settled_run|vm_compute]|exact sample_lost_survives|exact sample_lost_power|
       by apply (bool_decide_unpack _); vm_compute|].
    destruct Hp as [[-> ->]|[Hst _]]; [split; [exact Er|]|by destruct Hst; vm_compute].
    exact (eq_trans Ea (f_equal (placed JOURNAL_V1_HEADER_LEN) (take_app_length sample_written (evidence (sample_frame_at 2))))).
  - exfalso. apply (f_equal (λ r, is_ok r.1)) in E. revert E. clear. by vm_compute.
Defined.
