(* ===== verification/Worker.v ===== *)
(** * The store worker

    [och-runtime/src/store_worker.rs]: the one thread that owns the manifest store. It
    appends what the coordinator hands it, groups the appended frames, and at the
    group's bounds commits them with one barrier and completes them as one durable
    batch of the ingress; it serves registry operations and binds between them, rotates
    the journal, and stops the ingress whenever it returns with work outstanding. The
    channel and the clock are inputs: a message, a timeout or a disconnection, and the
    readings of the monotonic clock while it is handled. *)

From S2P Require Import Prelude Bytes Identity Bounded Value Collection Series Registry Admission Wire Layout Crc Commit Journal Generation Retry RetryCodec Recovery.
From S2P Require Import Latest Queue Ingress Disk Active Segment Manifest Directory Publish Roots Store Inventory Rotation OpenStore StoreRuns.

(** ** Options *)

(** Durations are nanoseconds. *)
Record GroupCommitPolicy := mkPolicy { gp_max_delay : Z; gp_max_records : Z; gp_max_bytes : Z; gp_rotation_age : Z }.
Inductive StoreOptionsError := OptionsStore (error : ManifestStoreError) | InvalidRelationships.
Definition policy_new (max_delay max_records max_bytes rotation_age : Z) : result StoreOptionsError GroupCommitPolicy :=
  if decide (max_delay = 0 ∨ max_records = 0 ∨ max_records > Z.of_nat MAX_OUTSTANDING_COMMANDS ∨ max_bytes = 0 ∨ rotation_age = 0)
  then Err InvalidRelationships
  else Ok (mkPolicy max_delay max_records max_bytes rotation_age).
#[export] Instance wf_policy : Wf GroupCommitPolicy := λ p,
  in_range 1 (Z.of_nat MAX_OUTSTANDING_COMMANDS) (gp_max_records p) && in_range 1 usize_max (gp_max_bytes p) &&
  bool_decide (0 < gp_max_delay p) && bool_decide (0 < gp_rotation_age p).

Record StoreOptions := mkStoreOptions {
  wo_directory : list byte;
  wo_store_id : StoreId;
  wo_mode : ActiveJournalOpenMode;
  wo_journal_limits : ActiveJournalLimits;
  wo_byte_limits : ByteReservationLimits;
  wo_group_commit : GroupCommitPolicy;
  wo_registry : SeriesRegistryLimits;
  wo_retry : RetryPersistenceOptions }.
Definition options_new (directory : list byte) (store_id : StoreId) (mode : ActiveJournalOpenMode)
    (journal_limits : ActiveJournalLimits) (byte_limits : ByteReservationLimits) (group_commit : GroupCommitPolicy)
    (registry : SeriesRegistryLimits) (retry : RetryPersistenceOptions) : result StoreOptionsError StoreOptions :=
  if decide (len directory = 0 ∨ len directory > MAX_STORE_DIRECTORY_BYTES) then Err (OptionsStore MseInvalidOptions)
  else
    let! _ := map_err OptionsStore (store_config_new directory store_id mode journal_limits registry retry) in
    if decide (gp_max_bytes group_commit > bl_total byte_limits) then Err InvalidRelationships
    else Ok (mkStoreOptions directory store_id mode journal_limits byte_limits group_commit registry retry).
Definition manifest_config (o : StoreOptions) : result ManifestStoreError ManifestStoreConfig :=
  store_config_new (wo_directory o) (wo_store_id o) (wo_mode o) (wo_journal_limits o) (wo_registry o) (wo_retry o).

(** ** Pressure and inspection *)

Inductive RuntimePressureSource : Set := FromActiveJournal | FromManifestStore.
Inductive RuntimePressureOperation := ActiveOperation (operation : StoreIoOperation) | ManifestOperation (operation : ManifestIoOperation).
Record RuntimePressureEvidence := mkPressure {
  pe_source : RuntimePressureSource;
  pe_operation : RuntimePressureOperation;
  pe_kind : ErrorKind;
  pe_raw_os_error : option Z }.
Definition from_active (e : StoreIoEvidence) : RuntimePressureEvidence :=
  mkPressure FromActiveJournal (ActiveOperation (ev_operation e)) (ev_kind e) (ev_raw_os_error e).
Definition from_manifest (e : ManifestIoEvidence) : RuntimePressureEvidence :=
  mkPressure FromManifestStore (ManifestOperation (mio_operation e)) (mio_kind e) (mio_raw_os_error e).
Definition project (error : ManifestStoreError) : option RuntimePressureEvidence :=
  match error with
  | MseStoragePressure evidence => Some (from_manifest evidence)
  | MseActive (StoragePressure evidence) => Some (from_active evidence)
  | _ => None
  end.

Inductive RuntimeHealth : Set :=
| Healthy | HealthRotationRequired | HealthStoragePressure | HealthFaulted | HealthStopped.
#[export] Instance RuntimeHealth_eq_dec : EqDecision RuntimeHealth.
Proof. solve_decision. Defined.
Record InspectionState := mkInspectionState {
  it_store : option ManifestStoreInspection;
  it_write_state : option StoreWriteState;
  it_pressure_evidence : option RuntimePressureEvidence;
  it_health : RuntimeHealth }.
Definition inspection_new : InspectionState := mkInspectionState None None None Healthy.
(** Pressure is sticky. *)
Definition next_health (health : RuntimeHealth) (it : InspectionState) : RuntimeHealth :=
  if decide (it_health it ≠ HealthStoragePressure) then health else it_health it.
Definition inspection_update (store : ManifestStoreInspection) (health : RuntimeHealth) (it : InspectionState) : InspectionState :=
  mkInspectionState (Some store) (Some (si_write_state store)) (it_pressure_evidence it) (next_health health it).
Definition inspection_update_store (store : ManifestStoreInspection) (it : InspectionState) : InspectionState :=
  mkInspectionState (Some store) (Some (si_write_state store)) (it_pressure_evidence it) (it_health it).
Definition set_health (health : RuntimeHealth) (it : InspectionState) : InspectionState :=
  mkInspectionState (it_store it) (it_write_state it) (it_pressure_evidence it) (next_health health it).
Definition non_pressure_health (error : ManifestStoreError) : RuntimeHealth :=
  match error with
  | MseGenerationCatalogFull | MseActive RotationRequired => HealthRotationRequired
  | _ => HealthFaulted
  end.
Definition store_terminal (store : ManifestStoreInspection) (error : ManifestStoreError) (it : InspectionState) : InspectionState :=
  match project error with
  | Some evidence =>
    match it_pressure_evidence it with
    | None => mkInspectionState (Some store) (Some (si_write_state store)) (Some evidence) HealthStoragePressure
    | Some _ => mkInspectionState (Some store) (Some (si_write_state store)) (it_pressure_evidence it) (it_health it)
    end
  | None => mkInspectionState (Some store) (Some (si_write_state store)) (it_pressure_evidence it)
              (next_health (non_pressure_health error) it)
  end.
Definition coordinator_fault (it : InspectionState) : InspectionState :=
  if decide (it_health it = Healthy)
  then mkInspectionState (it_store it) (it_write_state it) (it_pressure_evidence it) HealthFaulted
  else it.
Definition accepts_control (it : InspectionState) : bool := bool_decide (it_health it = Healthy).
Definition pressure_evidence (it : InspectionState) : option RuntimePressureEvidence :=
  if decide (it_health it = HealthStoragePressure) then it_pressure_evidence it else None.

Record RuntimeInspection := mkRuntimeInspection {
  ri_store : ActiveJournalInspection;
  ri_committed : ManifestCommit;
  ri_generations : GenerationInventory;
  ri_recovery : option RecoveryReport;
  ri_write_state : StoreWriteState;
  ri_pressure_evidence : option RuntimePressureEvidence;
  ri_pending_count : nat;
  ri_pending_bytes : Z;
  ri_health : RuntimeHealth }.
Definition inspection_snapshot (ingress : IngressShared) (fallback : ManifestStoreInspection) (it : InspectionState) : RuntimeInspection :=
  let store := default fallback (it_store it) in
  let '(pending_count, pending_bytes) := pending_counts ingress in
  mkRuntimeInspection (si_active store) (si_committed store) (si_generations store) (si_recovery store)
    (default (si_write_state store) (it_write_state it)) (it_pressure_evidence it) pending_count pending_bytes (it_health it).

(** ** The worker *)

Record PendingDurable := mkPendingDurable {
  pd_slot : nat;
  pd_bytes : Z;
  pd_qualification : RetryQualification;
  pd_append : AppendIdentity }.
(** The locals of [run_store_worker], with the objects it shares or drives. *)
Record worker := mkWorker {
  wk_options : StoreOptions;
  wk_store : ManifestStore;
  wk_world : world;
  wk_ingress : IngressShared;
  wk_inspection : InspectionState;
  wk_pending : list PendingDurable;
  wk_pending_since : option Z;
  wk_unpublished : option (nat * Z);
  wk_opened_at : Z }.
Definition with_store (s : ManifestStore) (w : world) (wk : worker) : worker :=
  mkWorker (wk_options wk) s w (wk_ingress wk) (wk_inspection wk) (wk_pending wk) (wk_pending_since wk)
    (wk_unpublished wk) (wk_opened_at wk).
Definition with_ingress (sh : IngressShared) (wk : worker) : worker :=
  mkWorker (wk_options wk) (wk_store wk) (wk_world wk) sh (wk_inspection wk) (wk_pending wk) (wk_pending_since wk)
    (wk_unpublished wk) (wk_opened_at wk).
Definition with_inspection (f : ManifestStoreInspection → InspectionState → InspectionState) (wk : worker) : worker :=
  mkWorker (wk_options wk) (wk_store wk) (wk_world wk) (wk_ingress wk) (f (store_inspection (wk_store wk)) (wk_inspection wk))
    (wk_pending wk) (wk_pending_since wk) (wk_unpublished wk) (wk_opened_at wk).
Definition with_pending (pending : list PendingDurable) (wk : worker) : worker :=
  mkWorker (wk_options wk) (wk_store wk) (wk_world wk) (wk_ingress wk) (wk_inspection wk) pending (wk_pending_since wk)
    (wk_unpublished wk) (wk_opened_at wk).
Definition with_pending_since (since : option Z) (wk : worker) : worker :=
  mkWorker (wk_options wk) (wk_store wk) (wk_world wk) (wk_ingress wk) (wk_inspection wk) (wk_pending wk) since
    (wk_unpublished wk) (wk_opened_at wk).
Definition with_unpublished (unpublished : option (nat * Z)) (wk : worker) : worker :=
  mkWorker (wk_options wk) (wk_store wk) (wk_world wk) (wk_ingress wk) (wk_inspection wk) (wk_pending wk)
    (wk_pending_since wk) unpublished (wk_opened_at wk).
Definition with_opened_at (now : Z) (wk : worker) : worker :=
  mkWorker (wk_options wk) (wk_store wk) (wk_world wk) (wk_ingress wk) (wk_inspection wk) (wk_pending wk)
    (wk_pending_since wk) (wk_unpublished wk) now.

Record AppendResult := mkAppendResult { ar_admission : CanonicalAdmission; ar_append : AppendIdentity }.
(** [delivered] is whether the receiver of the response is still there. *)
Inductive WorkerMessage :=
| MsgAppend (slot : nat) (prepared : PreparedAdmissionV1) (delivered : bool)
| MsgPublished (slot : nat) (priority : AdmissionPriority) (barrier : BarrierDemand) (frame_bytes : Z)
    (qualification : RetryQualification) (append : AppendIdentity)
| MsgBarrier
| MsgRegistry (operation : registry_op)
| MsgBind (envelope : CollectionEnvelope)
| MsgShutdown
| MsgAbort.
(** What is sent back before the loop goes on or returns. *)
Inductive reply :=
| NoReply
| AppendReply (r : result ManifestStoreError AppendResult)
| UnitReply (r : result ManifestStoreError ())
| RegistryReply (r : result ManifestStoreError (registry_outcome * ManifestCommit))
| BindReply (r : result ManifestStoreError DeclaredCollectionEnvelope).

(** An iteration of the loop: it goes on, or [run_store_worker] returns. *)
Abbreviation Step := (M worker reply).
Section effects.
Context {E : Type}.
Definition the_worker : M worker E worker := λ wk, (Ok wk, wk).
Definition change (f : worker → worker) : M worker E () := λ wk, (Ok tt, f wk).
Definition on_store {A} (m : StoreMethod A) : M worker E (result ManifestStoreError A) := λ wk,
  let '(r, (s, w)) := m (wk_store wk, wk_world wk) in (Ok r, with_store s w wk).
Definition on_ingress (f : IngressShared → IngressShared) : M worker E () := λ wk, (Ok tt, with_ingress (f (wk_ingress wk)) wk).
(** The result of a call that the caller inspects. *)
Definition attempt {F A} (m : M worker F A) : M worker E (result F A) := λ wk, let '(r, wk) := m wk in (Ok r, wk).
Definition stop_for_store_failure (error : ManifestStoreError) : M worker E () :=
  _ ← change (with_inspection (λ store, store_terminal store error));
  on_ingress Ingress.stop.
Definition fail_worker : M worker E () :=
  _ ← change (with_inspection (λ _, set_health HealthFaulted));
  on_ingress Ingress.stop.
End effects.

Definition pending_retry (e : PendingDurable) : PendingRetryOutcome :=
  mkPending (pd_qualification e) (app_append_sequence (pd_append e)) (app_end_offset (pd_append e)).
Definition batch_entry (e : PendingDurable) : DurableBatchEntry := mkBatchEntry (pd_slot e) (pd_qualification e) (pd_append e).
Definition flush_pending : M worker ManifestStoreError () :=
  wk ← the_worker;
  if decide (wk_pending wk = []) then mret tt
  else
    answer ← on_store (store_sync_pending (pending_retry <$> wk_pending wk));
    match answer with
    | Err error => _ ← stop_for_store_failure error; fail error
    | Ok (committed, retry) =>
      _ ← change (with_inspection inspection_update_store);
      wk ← the_worker;
      let '(completed, sh) := complete_durable_batch (batch_entry <$> wk_pending wk) committed retry (wk_ingress wk) in
      _ ← on_ingress (λ _, sh);
      if completed : bool then change (with_pending [])
      else _ ← fail_worker; fail (MseActive InvalidLayout)
    end.
Definition age_reached (wk : worker) (now : Z) : bool :=
  bool_decide (ins_active_records (si_active (store_inspection (wk_store wk))) > 0 ∧
               saturating_sub now (wk_opened_at wk) >= gp_rotation_age (wo_group_commit (wk_options wk))).
Definition rotation_required (wk : worker) (now : Z) : bool :=
  let active := si_active (store_inspection (wk_store wk)) in
  bool_decide (ins_active_bytes active >= active_bytes_limit (wo_journal_limits (wk_options wk)) ∨
               ins_active_records active >= record_limit (wo_journal_limits (wk_options wk))) || age_reached wk now.
(** The answer of the store, or a stop that reports its error. *)
Definition or_stop {A} (respond : ManifestStoreError → reply) (r : result ManifestStoreError A) : Step A :=
  match r with
  | Ok a => mret a
  | Err error => _ ← stop_for_store_failure error; fail (respond error)
  end.
Definition rotate_store (respond : ManifestStoreError → reply) (now : Z) : Step () :=
  wk ← the_worker;
  rotation ← on_store (rotate (wo_directory (wk_options wk)));
  _ ← or_stop respond rotation;
  _ ← change (with_opened_at now);
  change (with_inspection (λ store, inspection_update store Healthy)).
(** A message that must not arrive between an append and its publication. *)
Definition refuse_unpublished (respond : ManifestStoreError → reply) : Step () :=
  wk ← the_worker;
  if decide (is_Some (wk_unpublished wk)) then _ ← fail_worker; fail (respond (MseActive InvalidLayout)) else mret tt.

(** ** Messages *)

(** [now k] is the k-th reading of the clock in the iteration. *)
Section messages.
Context (now : nat → Z).

Definition handle_append (slot : nat) (prepared : PreparedAdmissionV1) (delivered : bool) : Step reply :=
  let respond error := AppendReply (Err error) in
  _ ← refuse_unpublished respond;
  let frame_len := prep_frame_len prepared in
  wk ← the_worker;
  sequence ← or_stop respond (store_next_append_sequence (wk_store wk));
  frame ← match into_frame prepared sequence with
          | Ok frame => mret frame
          | Err error => _ ← fail_worker; fail (respond (MseActive (JournalError (prepare_error error))))
          end;
  _ ← or_stop respond (preflight_historical_declaration (wk_store wk) (adm_declaration (frame_admission frame)));
  let age_rotation := age_reached wk (now 0%nat) in
  fit_rotation ← or_stop respond (requires_rotation (wk_store wk) frame_len);
  _ ← (if age_rotation || fit_rotation then
         flushed ← attempt flush_pending;
         _ ← match flushed with Ok _ => mret tt | Err error => fail (respond error) end;
         rotate_store respond (now 1%nat)
       else mret tt);
  appended ← on_store (store_append frame);
  end_offset ← or_stop respond appended;
  wk ← the_worker;
  let append := mkAppend (ins_journal (si_active (store_inspection (wk_store wk)))) (sequence_get sequence) end_offset in
  _ ← change (with_inspection inspection_update_store);
  _ ← change (with_unpublished (Some (slot, frame_len)));
  let answer := AppendReply (Ok (mkAppendResult (frame_admission frame) append)) in
  if delivered then mret answer else _ ← on_ingress Ingress.stop; fail answer.

Definition handle_published (slot : nat) (priority : AdmissionPriority) (barrier : BarrierDemand) (frame_bytes : Z)
    (qualification : RetryQualification) (append : AppendIdentity) : Step reply :=
  wk ← the_worker;
  _ ← change (with_unpublished None);
  _ ← (if decide (wk_unpublished wk ≠ Some (slot, frame_bytes)) then _ ← fail_worker; fail NoReply else mret tt);
  _ ← (if decide (wk_pending wk = []) then change (with_pending_since (Some (now 0%nat))) else mret tt);
  _ ← change (λ wk, with_pending (wk_pending wk ++ [mkPendingDurable slot frame_bytes qualification append]) wk);
  wk ← the_worker;
  let policy := wo_group_commit (wk_options wk) in
  let rotation_demand := rotation_required wk (now 1%nat) in
  let forced := bool_decide (priority = Protected) || match barrier with Immediate => true | Group => false end ||
    bool_decide (len (wk_pending wk) >= gp_max_records policy) || bool_decide (zsum pd_bytes (wk_pending wk) >= gp_max_bytes policy) ||
    rotation_demand in
  _ ← (if forced : bool then flushed ← attempt flush_pending; if is_ok flushed then mret tt else fail NoReply else mret tt);
  wk ← the_worker;
  _ ← (if rotation_demand && bool_decide (wk_pending wk = []) then rotate_store (λ _, NoReply) (now 2%nat) else mret tt);
  wk ← the_worker;
  _ ← (if decide (wk_pending wk = []) then change (with_pending_since None) else mret tt);
  mret NoReply.

Definition handle_barrier : Step reply :=
  _ ← refuse_unpublished (λ error, UnitReply (Err error));
  result ← attempt flush_pending;
  _ ← change (with_pending_since None);
  if is_ok result then mret (UnitReply result) else fail (UnitReply result).

(** A refusal of the model is an answer; any other error stops the worker. *)
Definition terminal {A} (r : result ManifestStoreError A) : option ManifestStoreError :=
  match r with Err (MseModel _) | Ok _ => None | Err error => Some error end.
Definition settle_control {A} (respond : result ManifestStoreError A → reply) (r : result ManifestStoreError A) : Step reply :=
  match terminal r with
  | Some error => _ ← stop_for_store_failure error; fail (respond r)
  | None => mret (respond r)
  end.
Definition handle_registry (operation : registry_op) : Step reply :=
  _ ← refuse_unpublished (λ error, RegistryReply (Err error));
  result ← on_store (store_call operation);
  _ ← (if is_ok result then change (with_inspection inspection_update_store) else mret tt);
  settle_control RegistryReply result.
Definition handle_bind (envelope : CollectionEnvelope) : Step reply :=
  _ ← refuse_unpublished (λ error, BindReply (Err error));
  wk ← the_worker;
  settle_control BindReply (store_bind (wk_store wk) envelope).

(** The loop returns after a shutdown. *)
Definition handle_shutdown : Step reply :=
  _ ← refuse_unpublished (λ error, UnitReply (Err error));
  result ← attempt flush_pending;
  _ ← (if is_ok result then change (with_inspection (λ store, inspection_update store HealthStopped)) else mret tt);
  fail (UnitReply result).

Definition handle_timeout : Step reply :=
  wk ← the_worker;
  _ ← (if decide (wk_pending wk ≠ []) then flushed ← attempt flush_pending; if is_ok flushed then mret tt else fail NoReply else mret tt);
  _ ← change (with_pending_since None);
  mret NoReply.

Inductive received := Message (m : WorkerMessage) | TimedOut | Disconnected.
(** One iteration of the loop, with the flag that is read at its top. *)
Definition serve (stopping : bool) (input : received) : Step reply :=
  if stopping then _ ← on_ingress Ingress.stop; fail NoReply
  else
    match input with
    | Message (MsgAppend slot prepared delivered) => handle_append slot prepared delivered
    | Message (MsgPublished slot priority barrier frame_bytes qualification append) =>
      handle_published slot priority barrier frame_bytes qualification append
    | Message MsgBarrier => handle_barrier
    | Message (MsgRegistry operation) => handle_registry operation
    | Message (MsgBind envelope) => handle_bind envelope
    | Message MsgShutdown => handle_shutdown
    | Message MsgAbort | Disconnected => _ ← on_ingress Ingress.stop; fail NoReply
    | TimedOut => handle_timeout
    end.
End messages.
(** How long the loop waits: for ever while a publication is outstanding. *)
Definition receive_timeout (wk : worker) (now : Z) : option Z :=
  match wk_unpublished wk with
  | Some _ => None
  | None => Some (match wk_pending_since wk with
                  | Some started => saturating_sub (gp_max_delay (wo_group_commit (wk_options wk))) (saturating_sub now started)
                  | None => gp_max_delay (wo_group_commit (wk_options wk))
                  end)
  end.

(** ** Starting *)

Record WorkerReady := mkReady {
  wr_inspection : ManifestStoreInspection;
  wr_recovered : list RecoveredAdmissionV1;
  wr_retry : RetryStateSnapshot }.
Definition worker_ready (s : ManifestStore) : WorkerReady :=
  mkReady (store_inspection s) (aj_records (ms_journal s)) (ms_retry s).
Definition worker_new (o : StoreOptions) (s : ManifestStore) (w : world) (sh : IngressShared) (it : InspectionState) (now : Z) : worker :=
  mkWorker o s w sh (inspection_update (store_inspection s) Healthy it) [] None None now.
(** Before the loop; [listening] is whether the receiver of the readiness is there. *)
Definition start_worker (o : StoreOptions) (w : world) (sh : IngressShared) (it : InspectionState) (now : Z) (listening : bool)
  : result ManifestStoreError WorkerReady * (option worker * (world * IngressShared)) :=
  match manifest_config o with
  | Err error => (Err error, (None, (w, Ingress.stop sh)))
  | Ok c =>
    match store_open c w with
    | (Err error, w) => (Err error, (None, (w, Ingress.stop sh)))
    | (Ok s, w) =>
      if listening then (Ok (worker_ready s), (Some (worker_new o s w sh it now), (w, sh)))
      else (Ok (worker_ready s), (None, (w, Ingress.stop sh)))
    end
  end.
