(* ===== verification/WorkerRuns.v ===== *)
(** * What the store worker guarantees

    The worker of [Worker] beside its ingress and over its store: when it returns,
    nobody waits for an answer any more; the group that waits for a barrier stays
    within the policy and has a running deadline; and a receipt that the worker made
    durable is covered by every root that a later crash leaves. *)

From S2P Require Import Prelude Bytes Identity Bounded Value Collection Series Registry Admission Wire Layout Crc Commit Journal Generation Retry RetryCodec Recovery.
From S2P Require Import Latest Queue Ingress Runtime Drain.
From S2P Require Import Disk Active Scan Effects Crash Reopen Handle Restart Segment Manifest RegistryReplay RegistryCodec.
From S2P Require Import Directory Publish Roots Store Committed Custody RetryRoot Commitment Barrier Inventory Genesis Rotation OpenStore StoreRuns Worker.

(** ** Rules *)

Section rules.
Context {E : Type}.
Lemma step_worker (wk : worker) Q (R : E → worker → Prop) : Q wk wk → outcome the_worker wk Q R.
Proof. done. Qed.
Lemma step_change f (wk : worker) Q (R : E → worker → Prop) : Q tt (f wk) → outcome (change f) wk Q R.
Proof. done. Qed.
Lemma step_store {A} (m : StoreMethod A) wk Q (R : E → worker → Prop) :
  outcome m (wk_store wk, wk_world wk) (λ a st, Q (Ok a) (with_store st.1 st.2 wk)) (λ e st, Q (Err e) (with_store st.1 st.2 wk)) →
  outcome (on_store m) wk Q R.
Proof. unfold outcome, on_store. by destruct (m _) as [[a|e] [s w]]. Qed.
Lemma step_attempt {F A} (m : M worker F A) wk Q (R : E → worker → Prop) :
  outcome m wk (λ a, Q (Ok a)) (λ e, Q (Err e)) → outcome (attempt m) wk Q R.
Proof. unfold outcome, attempt. by destruct (m wk) as [[a|e] wk']. Qed.
End rules.

(** ** The worker and the ingress *)

(** Nothing is outstanding, and everybody who waits is answered. *)
Definition fallen (sh : IngressShared) : Prop :=
  ingress_ok sh ∧ Runtime.stopped (sh_state sh) ∧ ∀ loc r, sh_receipts sh !! loc = Some r → Runtime.settled r.
Lemma stop_fallen sh : ingress_ok sh → fallen (Ingress.stop sh).
Proof.
  intros Hok. destruct (fail_stop_ok sh Hok) as [Hok' Hst]. split_and!; [by apply (ingress_ok_eq (fail_stop sh))|done|].
  by apply (proj2 (fail_stop_receipts sh)).
Qed.
(** An operation of the worker keeps the ingress well-formed, and fails only over a
    fallen one. *)
Definition ends {E A} (m : M worker E A) : Prop := ∀ wk,
  ingress_ok (wk_ingress wk) → outcome m wk (λ _ wk', ingress_ok (wk_ingress wk')) (λ _ wk', fallen (wk_ingress wk')).
Section ends.
Context {E : Type}.
Lemma ends_bind {A B} (m : M worker E A) (k : A → M worker E B) : ends m → (∀ a, ends (k a)) → ends (m ≫= k).
Proof. intros Hm Hk wk Hok. apply outcome_bind. eapply outcome_weaken; [by apply Hm|intros a wk' ?; by apply Hk|done]. Qed.
Lemma ends_ret {A} (a : A) : ends (mret a : M worker E A).
Proof. intros wk Hok. exact Hok. Qed.
Lemma ends_worker : ends (the_worker : M worker E worker).
Proof. intros wk Hok. exact Hok. Qed.
Lemma ends_change f : (∀ wk, wk_ingress (f wk) = wk_ingress wk) → ends (change f : M worker E ()).
Proof. intros Hf wk Hok. apply step_change. by rewrite Hf. Qed.
Lemma ends_store {A} (m : StoreMethod A) : ends (on_store m : M worker E _).
Proof. intros wk Hok. unfold outcome, on_store. by destruct (m _) as [r [s w]]. Qed.
(** A stop before a return; [r] is what the caller gets. *)
Lemma ends_failed {A} (f : worker → worker) (r : E) :
  (∀ wk, wk_ingress (f wk) = wk_ingress wk) → ends (_ ← (_ ← change f; on_ingress Ingress.stop); fail r : M worker E A).
Proof.
  intros Hf wk Hok. unfold outcome, mbind, M_bind, change, on_ingress, fail. cbn. rewrite Hf. by apply stop_fallen.
Qed.
Lemma ends_store_failure {A} error (r : E) : ends (_ ← stop_for_store_failure error; fail r : M worker E A).
Proof. by apply ends_failed. Qed.
Lemma ends_fail_worker {A} (r : E) : ends (_ ← fail_worker; fail r : M worker E A).
Proof. by apply ends_failed. Qed.
Lemma ends_stopped {A} (r : E) : ends (_ ← on_ingress Ingress.stop; fail r : M worker E A).
Proof. intros wk Hok. by apply stop_fallen. Qed.
End ends.
Lemma ends_or_stop {A} respond (r : result ManifestStoreError A) : ends (or_stop respond r).
Proof. destruct r; [apply ends_ret|apply ends_store_failure]. Qed.
(** A caller that gives up when the call failed. *)
Lemma ends_attempt {E F A B} (m : M worker F A) (k : result F A → M worker E B) :
  ends m → (∀ a, ends (k (Ok a))) →
  (∀ e wk, outcome (k (Err e)) wk (λ _ _, False) (λ _ wk', wk_ingress wk' = wk_ingress wk)) → ends (attempt m ≫= k).
Proof.
  intros Hm Hk He wk Hok. apply outcome_bind, step_attempt. eapply outcome_weaken; [by apply Hm|intros a wk' ?; by apply Hk|].
  intros e wk' Hf. eapply outcome_weaken; [apply He|done|]. by intros r w ->.
Qed.
Ltac ending_step := first
  [ apply ends_ret | apply ends_worker | apply ends_store | apply ends_or_stop | apply ends_store_failure | apply ends_fail_worker
  | apply ends_stopped | apply ends_change; [done] | apply ends_attempt; [|intros ?|done] | apply ends_bind; [|intros ?] | case_decide | case_match ].
Ltac ending := repeat ending_step.

Lemma flush_ends : ends flush_pending.
Proof.
  unfold flush_pending. apply ends_bind; [apply ends_worker|intros wk0]. case_decide; [apply ends_ret|].
  apply ends_bind; [apply ends_store|intros [[committed retry]|error]; [|apply ends_store_failure]].
  apply ends_bind; [by apply ends_change|intros _]. intros wk Hok. apply outcome_bind, step_worker.
  pose proof (durable_ok (batch_entry <$> wk_pending wk) committed retry _ Hok) as Hd.
  destruct (complete_durable_batch _ _ _ _) as [completed sh]. destruct Hd as [Hok' _].
  apply outcome_bind. unfold outcome at 1, on_ingress. destruct completed; [exact Hok'|]. by apply ends_fail_worker.
Qed.
Lemma rotate_ends respond now : ends (rotate_store respond now).
Proof. unfold rotate_store. ending. Qed.
Lemma refuse_ends respond : ends (refuse_unpublished respond).
Proof. unfold refuse_unpublished. ending. Qed.
Lemma settle_ends {A} (respond : result ManifestStoreError A → reply) r : ends (settle_control respond r).
Proof. unfold settle_control. ending. Qed.

Ltac apply_known := match goal with
  | |- ends flush_pending => apply flush_ends
  | |- ends (refuse_unpublished _) => apply refuse_ends
  | |- ends (rotate_store _ _) => apply rotate_ends
  | |- ends (settle_control _ _) => apply settle_ends
  end.

(** The reply of a shutdown that had nothing left to commit or committed it. *)
Definition shut_down (input : received) (answer : reply) (wk : worker) : Prop :=
  input = Message MsgShutdown ∧ answer = UnitReply (Ok tt) ∧ wk_pending wk = [] ∧ ingress_ok (wk_ingress wk).
Lemma flush_empties wk : outcome flush_pending wk (λ _ wk', wk_pending wk' = [] ∧ wk_unpublished wk' = wk_unpublished wk ∧
  wk_options wk' = wk_options wk ∧ wk_pending_since wk' = wk_pending_since wk) (λ _ _, True).
Proof.
  unfold flush_pending. apply outcome_bind, step_worker. case_decide; [by split_and!|].
  apply outcome_bind, step_store. unfold outcome at 1. destruct (store_sync_pending _ _) as [[[committed retry]|e] st]; [|exact I].
  apply outcome_bind, step_change, outcome_bind, step_worker. by destruct (complete_durable_batch _ _ _ _) as [[] sh].
Qed.
Lemma serve_ends now stopping input : input ≠ Message MsgShutdown → ends (serve now stopping input).
Proof.
  intros Hne. unfold serve. destruct stopping; [apply ends_stopped|]. destruct input as [[]| |]; try done; [..|apply ends_stopped];
    unfold handle_append, handle_published, handle_barrier, handle_registry, handle_bind, handle_timeout;
    repeat first [apply_known|ending_step].
Qed.
Lemma shutdown_ends now wk :
  ingress_ok (wk_ingress wk) →
  outcome (serve now false (Message MsgShutdown)) wk (λ _ _, False)
    (λ answer wk', fallen (wk_ingress wk') ∨ shut_down (Message MsgShutdown) answer wk').
Proof.
  intros Hok. cbn [serve handle_shutdown]. unfold handle_shutdown. apply outcome_bind.
  eapply outcome_weaken; [by apply refuse_ends| |by left]. intros [] wk1 Hok1. apply outcome_bind, step_attempt.
  eapply outcome_weaken; [apply outcome_and; [by apply flush_ends|apply flush_empties]| |].
  - intros [] wk2 (Hok2 & He & _). apply outcome_bind, step_change. right. by split_and!.
  - intros e wk2 [Hf _]. by left.
Qed.

(** The worker touches the ingress through the batch and the stop only. *)
Inductive ingress_step (sh : IngressShared) : IngressShared → Prop :=
| moved_stop : ingress_step sh (Ingress.stop sh)
| moved_batch entries committed retry : ingress_step sh (complete_durable_batch entries committed retry sh).2.
Definition moves {E A} (m : M worker E A) : Prop := ∀ wk,
  outcome m wk (λ _ wk', rtc ingress_step (wk_ingress wk) (wk_ingress wk')) (λ _ wk', rtc ingress_step (wk_ingress wk) (wk_ingress wk')).
Section moves.
Context {E : Type}.
Lemma moves_bind {A B} (m : M worker E A) (k : A → M worker E B) : moves m → (∀ a, moves (k a)) → moves (m ≫= k).
Proof.
  intros Hm Hk wk. apply outcome_bind. eapply outcome_weaken; [apply Hm| |done]. intros a wk1 H1.
  eapply outcome_weaken; [apply Hk|intros b wk2 H2; by trans (wk_ingress wk1)|intros e wk2 H2; by trans (wk_ingress wk1)].
Qed.
Lemma moves_ret {A} (a : A) : moves (mret a : M worker E A).
Proof. intros wk. apply rtc_refl. Qed.
Lemma moves_fail {A} (e : E) : moves (fail e : M worker E A).
Proof. intros wk. apply rtc_refl. Qed.
Lemma moves_worker : moves (the_worker : M worker E worker).
Proof. intros wk. apply rtc_refl. Qed.
Lemma moves_change f : (∀ wk, wk_ingress (f wk) = wk_ingress wk) → moves (change f : M worker E ()).
Proof. intros Hf wk. apply step_change. rewrite Hf. apply rtc_refl. Qed.
Lemma moves_store {A} (m : StoreMethod A) : moves (on_store m : M worker E _).
Proof. intros wk. unfold outcome, on_store. destruct (m _) as [r [s w]]. apply rtc_refl. Qed.
Lemma moves_stop : moves (on_ingress Ingress.stop : M worker E ()).
Proof. intros wk. apply rtc_once. constructor. Qed.
Lemma moves_attempt {F A} (m : M worker F A) : moves m → moves (attempt m : M worker E _).
Proof. intros Hm wk. apply step_attempt. exact (Hm wk). Qed.
End moves.
Ltac moving_step := first
  [ match goal with |- moves flush_pending => fail 2 | _ => idtac end;
    first [ apply moves_ret | apply moves_fail | apply moves_worker | apply moves_store | apply moves_stop | apply moves_change; [done]
          | apply moves_attempt | apply moves_bind; [|intros ?] | case_decide | case_match ] ].
Lemma flush_moves : moves flush_pending.
Proof.
  unfold flush_pending, fail_worker, stop_for_store_failure. apply moves_bind; [apply moves_worker|intros wk0]. case_decide; [apply moves_ret|].
  apply moves_bind; [apply moves_store|intros [[committed retry]|error]; [|repeat moving_step]].
  apply moves_bind; [by apply moves_change|intros _]. intros wk. apply outcome_bind, step_worker.
  destruct (complete_durable_batch _ _ _ _) as [completed sh] eqn:Eb. apply outcome_bind. unfold outcome at 1, on_ingress.
  assert (ingress_step (wk_ingress wk) sh) as Hs by (pose proof (moved_batch (wk_ingress wk) (batch_entry <$> wk_pending wk) committed retry) as Hb; by rewrite Eb in Hb).
  assert (moves (if completed then change (with_pending []) else _ ← (_ ← change (with_inspection (λ _, set_health HealthFaulted)); on_ingress Ingress.stop);
    fail (MseActive InvalidLayout) : M worker ManifestStoreError ())) as Hm by (repeat moving_step).
  eapply outcome_weaken; [apply Hm|intros [] wk' Hw; by eapply rtc_l|intros e wk' Hw; by eapply rtc_l].
Qed.
Lemma serve_moves now stopping input : moves (serve now stopping input).
Proof.
  unfold serve, handle_append, handle_published, handle_barrier, handle_registry, handle_bind, handle_shutdown, handle_timeout,
    rotate_store, refuse_unpublished, settle_control, or_stop, fail_worker, stop_for_store_failure.
  repeat first [apply flush_moves|moving_step].
Qed.

(** ** The group *)

(** The appended frames that wait for a barrier are fewer and smaller than the bounds of
    the policy, and a deadline runs for them. *)
Record grouped (wk : worker) : Prop := {
  gr_records : len (wk_pending wk) < gp_max_records (wo_group_commit (wk_options wk));
  gr_bytes : zsum pd_bytes (wk_pending wk) < gp_max_bytes (wo_group_commit (wk_options wk));
  gr_deadline : wk_pending wk ≠ [] → is_Some (wk_pending_since wk) }.
Lemma grouped_empty wk : wf (wo_group_commit (wk_options wk)) → wk_pending wk = [] → grouped wk.
Proof.
  intros Hw He. unfold wf, wf_policy, in_range in Hw. repeat apply andb_prop_elim in Hw as [Hw ?].
  split; rewrite He; [cbn|cbn|done]; unfold len in *; cbn; rewrite ?bool_decide_spec in *; repeat case_bool_decide; lia.
Qed.
(** Everything but a publication leaves the group alone or empties it. *)
Definition steady (wk wk' : worker) : Prop :=
  wk_options wk' = wk_options wk ∧
  ((wk_pending wk' = wk_pending wk ∧ wk_pending_since wk' = wk_pending_since wk) ∨ wk_pending wk' = []).
#[export] Instance steady_preorder : PreOrder steady.
Proof.
  split; [intros wk; split; [done|by left]|]. intros a b c [E1 H1] [E2 H2]. split; [congruence|].
  destruct H1 as [[P1 S1]|P1], H2 as [[P2 S2]|P2]; [left; split; congruence|right; congruence..].
Qed.
Lemma steady_grouped wk wk' : wf (wo_group_commit (wk_options wk)) → grouped wk → steady wk wk' → grouped wk'.
Proof.
  intros Hw [Hr Hb Hd] [Eo [[Ep Es]|Ep]]; [|apply grouped_empty; by rewrite ?Eo]. split; rewrite ?Ep, ?Es, ?Eo; done.
Qed.
Definition steadily {E A} (m : M worker E A) : Prop := ∀ wk, outcome m wk (λ _ wk', steady wk wk') (λ _ _, True).
Section steadily.
Context {E : Type}.
Lemma steadily_bind {A B} (m : M worker E A) (k : A → M worker E B) : steadily m → (∀ a, steadily (k a)) → steadily (m ≫= k).
Proof.
  intros Hm Hk wk. apply outcome_bind. eapply outcome_weaken; [apply Hm| |done]. intros a wk1 H1.
  eapply outcome_weaken; [apply Hk| |done]. intros b wk2 H2. by trans wk1.
Qed.
Lemma steadily_ret {A} (a : A) : steadily (mret a : M worker E A).
Proof. intros wk. exact (reflexivity wk). Qed.
Lemma steadily_fail {A} (e : E) : steadily (fail e : M worker E A).
Proof. by intros wk. Qed.
Lemma steadily_worker : steadily (the_worker : M worker E worker).
Proof. intros wk. exact (reflexivity wk). Qed.
Lemma steadily_change f : (∀ wk, steady wk (f wk)) → steadily (change f : M worker E ()).
Proof. intros Hf wk. apply Hf. Qed.
Lemma steadily_store {A} (m : StoreMethod A) : steadily (on_store m : M worker E _).
Proof. intros wk. unfold outcome, on_store. destruct (m _) as [r [s w]]. split; [done|by left]. Qed.
Lemma steadily_ingress f : steadily (on_ingress f : M worker E ()).
Proof. intros wk. split; [done|by left]. Qed.
Lemma steadily_attempt {F A B} (m : M worker F A) (k : result F A → M worker E B) :
  steadily m → (∀ a, steadily (k (Ok a))) → (∀ e wk, outcome (k (Err e)) wk (λ _ _, False) (λ _ _, True)) → steadily (attempt m ≫= k).
Proof.
  intros Hm Hk He wk. apply outcome_bind, step_attempt. eapply outcome_weaken; [apply Hm| |].
  - intros a wk1 H1. eapply outcome_weaken; [apply Hk| |done]. intros b wk2 H2. by trans wk1.
  - intros e wk1 _. eapply outcome_weaken; [apply He|done|done].
Qed.
End steadily.
Lemma flush_steadily : steadily flush_pending.
Proof. intros wk. eapply outcome_weaken; [apply flush_empties| |done]. intros [] wk' (Ep & _ & Eo & _). split; [done|by right]. Qed.
Ltac steadying_step := first
  [ match goal with |- steadily flush_pending => apply flush_steadily end
  | apply steadily_ret | apply steadily_fail | apply steadily_worker | apply steadily_store | apply steadily_ingress
  | apply steadily_change; intros ?; split; [done|by left] | apply steadily_attempt; [|intros ?|done] | apply steadily_bind; [|intros ?]
  | case_decide | case_match ].
Ltac steadying := repeat steadying_step.
Lemma or_stop_steadily {A} respond (r : result ManifestStoreError A) : steadily (or_stop respond r).
Proof. unfold or_stop, stop_for_store_failure. steadying. Qed.
Lemma refuse_steadily respond : steadily (refuse_unpublished respond).
Proof. unfold refuse_unpublished, fail_worker. steadying. Qed.
Lemma rotate_steadily respond now : steadily (rotate_store respond now).
Proof. unfold rotate_store, or_stop, stop_for_store_failure. steadying. Qed.

Lemma append_steadily now slot prepared delivered : steadily (handle_append now slot prepared delivered).
Proof.
  unfold handle_append, fail_worker.
  repeat first [apply or_stop_steadily|apply refuse_steadily|apply rotate_steadily|steadying_step].
Qed.
Lemma control_steadily {A} (respond : result ManifestStoreError A → reply) r : steadily (settle_control respond r).
Proof. unfold settle_control, stop_for_store_failure. steadying. Qed.
(** A deadline is given up together with the group. *)
Lemma barrier_steadily : steadily handle_barrier.
Proof.
  unfold handle_barrier. apply steadily_bind; [apply refuse_steadily|intros _]. intros wk. apply outcome_bind, step_attempt.
  eapply outcome_weaken; [apply flush_empties| |done]. intros [] wk' (Ep & _ & Eo & _). split; [done|by right].
Qed.
Lemma timeout_steadily : steadily handle_timeout.
Proof.
  intros wk. unfold handle_timeout. apply outcome_bind, step_worker, outcome_bind. case_decide as Hp.
  - apply outcome_bind, step_attempt. eapply outcome_weaken; [apply flush_empties| |done]. intros [] wk' (Ep & _ & Eo & _).
    split; [done|by right].
  - split; [done|right]. cbn. destruct (wk_pending wk); [done|by destruct Hp].
Qed.

Lemma zsum_snoc {A} (f : A → Z) l x : zsum f (l ++ [x]) = zsum f l + f x.
Proof. induction l as [|y l IH]; cbn [app zsum foldr]; [lia|]. fold (zsum f (l ++ [x])) (zsum f l). lia. Qed.
Lemma published_grouped now slot priority barrier frame_bytes qualification append wk :
  wf (wo_group_commit (wk_options wk)) → grouped wk →
  outcome (handle_published now slot priority barrier frame_bytes qualification append) wk
    (λ _ wk', grouped wk' ∧ wk_options wk' = wk_options wk ∧ (priority = Protected ∨ barrier = Immediate → wk_pending wk' = []))
    (λ _ _, True).
Proof.
  intros Hw Hg. unfold handle_published. apply outcome_bind, step_worker, outcome_bind, step_change, outcome_bind.
  case_decide; [done|]. apply outcome_ret, outcome_bind.
  set (wk1 := with_unpublished None wk). eapply (outcome_weaken _ _ (λ _ wk2, wk_options wk2 = wk_options wk ∧
    wk_pending wk2 = wk_pending wk ∧ is_Some (wk_pending_since wk2)) _ (λ _ _, True)); [|intros [] wk2 (Eo & Ep & Es)|done].
  { case_decide as Hp; [apply step_change; by split_and!; eauto|]. apply outcome_ret. split_and!; [done..|by apply (gr_deadline _ Hg)]. }
  apply outcome_bind, step_change, outcome_bind, step_worker.
  set (wk3 := with_pending _ wk2). set (entry := mkPendingDurable slot frame_bytes qualification append).
  set (demand := rotation_required wk3 (now 1%nat)). set (forced := _ || demand). apply outcome_bind.
  eapply (outcome_weaken _ _ (λ _ wk4, grouped wk4 ∧ wk_options wk4 = wk_options wk ∧ (forced = true → wk_pending wk4 = [])) _ (λ _ _, True));
    [|intros [] wk4 (Hg4 & Eo4 & Hf)|done].
  { destruct forced eqn:Ef.
    - apply outcome_bind, step_attempt. eapply outcome_weaken; [apply flush_empties| |done]. intros [] wk4 (Ep4 & _ & Eo4 & _). cbn.
      assert (wk_options wk4 = wk_options wk) as E by (rewrite Eo4; exact Eo). split_and!; [|done..]. apply grouped_empty; [by rewrite E|done].
    - apply outcome_ret. split_and!; [|exact Eo|done]. unfold forced in Ef. rewrite !orb_false_iff, !bool_decide_eq_false in Ef.
      destruct Ef as ((((_ & _) & Hn) & Hb) & _). split; [lia|lia|done]. }
  apply outcome_bind, step_worker, outcome_bind.
  eapply (outcome_weaken _ _ (λ _ wk5, grouped wk5 ∧ wk_options wk5 = wk_options wk ∧ (forced = true → wk_pending wk5 = [])) _ (λ _ _, True));
    [|intros [] wk5 (Hg5 & Eo5 & Hf5)|done].
  { destruct (demand && _) eqn:Ed; [|by apply outcome_ret]. apply andb_true_iff in Ed as [_ Ed%bool_decide_eq_true].
    eapply outcome_weaken; [apply rotate_steadily| |done]. intros [] wk5 [Eo5 Hp]. split_and!; [|by rewrite Eo5|].
    - eapply steady_grouped; [by rewrite Eo4|exact Hg4|by split].
    - intros _. by destruct Hp as [[-> _]|]. }
  assert (priority = Protected ∨ barrier = Immediate → forced = true) as Hforced.
  { unfold forced. intros [->| ->]; [done|]. by rewrite orb_true_r. }
  apply outcome_bind, step_worker, outcome_bind. case_decide as Hp5; [apply step_change|apply outcome_ret]; apply outcome_ret.
  - split_and!; [apply grouped_empty; [cbn; by rewrite Eo5|done]|done|auto].
  - auto.
Qed.

(** ** What a receipt may say *)

(** A validated retry state replays nothing beyond the root. *)
Lemma check_outcomes_within store reference p l :
  check_outcomes store reference p l = Ok tt → ∀ o, o ∈ l → ro_append_sequence o ≤ cut_append_sequence (mc_durable_cutoff (ro_committed o)).
Proof.
  revert p. induction l as [|x l IH]; intros p; [by intros _ o ?%elem_of_nil|]. cbn [check_outcomes]. cbv zeta.
  rewrite !guard_Ok, guardb_Ok, !guard_Ok. intros (_ & Hn & _ & _ & _ & Hl) o [->|Ho]%elem_of_cons; [|by eapply IH].
  apply Z.nlt_ge. intros Hlt. apply Hn. do 5 right. left. lia.
Qed.
Lemma check_commits_within root catalog prior l :
  check_commits root catalog prior l = Ok tt →
  ∀ o, o ∈ l → cut_append_sequence (mc_durable_cutoff (ro_committed o)) ≤ cut_append_sequence (mc_durable_cutoff root).
Proof.
  revert prior. induction l as [|x l IH]; intros prior; [by intros _ o ?%elem_of_nil|]. cbn [check_commits].
  rewrite guard_Ok, let_ok_iff, guard_Ok. intros [Hn [_ [_ Hl]]] o [->|Ho]%elem_of_cons; [|by eapply IH].
  apply Z.nlt_ge. intros Hlt. apply Hn. do 6 right. left. lia.
Qed.
Lemma validated_within s root catalog :
  validates_root_with_catalog s root catalog = true → ∀ o, o ∈ st_replay s → ro_append_sequence o ≤ cut_append_sequence (mc_durable_cutoff root).
Proof.
  unfold validates_root_with_catalog. destruct (validate_root _ _ _) as [[]|] eqn:E; [|done]. intros _. revert E.
  unfold validate_root. rewrite let_ok_iff. intros [Ev H].
  assert (∀ o, o ∈ st_replay s → ro_append_sequence o ≤ cut_append_sequence (mc_durable_cutoff (ro_committed o))) as Ho.
  { unfold validate_state in Ev. rewrite guard_Ok, guardb_Ok in Ev. destruct Ev as (_ & _ & Ev).
    destruct (check_guards _ _) as [previous|]; [|done]. destruct (check_outcomes _ _ _ _) as [[]|] eqn:Ec; [|done]. by eapply check_outcomes_within. }
  revert H. cbv zeta. rewrite guard_Ok, guardb_Ok. intros (_ & _ & H). revert H.
  destruct (last (st_replay s)) as [newest|] eqn:El; [|apply last_None in El as ->; by intros _ o ?%elem_of_nil].
  rewrite guard_Ok. intros [_ H]. revert H. destruct (chronological s); [done|]. rewrite guard_Ok, let_ok_iff.
  intros (_ & _ & H) o Hin. trans (cut_append_sequence (mc_durable_cutoff (ro_committed o))); [by apply Ho|by eapply check_commits_within].
Qed.
Lemma serving_replay store options i floor limits s w H k :
  serving store options i floor limits s w H k → ∀ o, o ∈ st_replay (ms_retry s) → ro_append_sequence o ≤ floor + Z.of_nat k.
Proof.
  intros Hsv o Ho. pose proof (serving_covers _ _ _ _ _ _ _ _ _ Hsv) as (_ & _ & <- & _).
  destruct (rt_retry _ _ _ _ _ _ _ (cm_root _ _ _ _ (sv_committed _ _ _ _ _ _ _ _ _ Hsv))) as (b & _ & [_ _ _ Hv]).
  exact (validated_within _ _ _ Hv o Ho).
Qed.

(** Receipts and the retry state speak of the first [n] admissions only. *)
Record within (n : nat) (sh : IngressShared) : Prop := {
  wi_durable : ∀ loc r d, sh_receipts sh !! loc = Some r → r_durable r = Some (Durable d) → app_append_sequence (dc_append d) ≤ Z.of_nat n;
  wi_replay : ∀ o, o ∈ st_replay (in_retry (sh_state sh)) → ro_append_sequence o ≤ Z.of_nat n }.
Lemma within_more n m sh : within n sh → (n ≤ m)%nat → within m sh.
Proof. intros [H1 H2] Hm. split; [intros loc r d Hr Hd; specialize (H1 _ _ _ Hr Hd); lia|intros o Ho; specialize (H2 _ Ho); lia]. Qed.
Lemma within_same n sh sh' :
  within n sh → sh_receipts sh' = sh_receipts sh → in_retry (sh_state sh') = in_retry (sh_state sh) → within n sh'.
Proof. intros [H1 H2] Er Et. split; by rewrite ?Er, ?Et. Qed.
Lemma within_update n f loc sh h' b :
  within n sh → (∀ r, r_durable (f r).2 = r_durable r ∨ r_durable (f r).2 = Some DurableStopped) →
  update_receipt f loc (sh_receipts sh) = (b, h') → within n (set_receipts h' sh).
Proof.
  intros [H1 H2] Hf. unfold update_receipt. destruct (sh_receipts sh !! loc) as [x|] eqn:Ex; [|by intros [= _ <-]; split].
  specialize (Hf x). destruct (f x) as [c x']. cbn in Hf. intros [= _ <-]. split; [|done]. cbn. intros j r d Hr Hd.
  apply list_lookup_insert_Some in Hr as [(-> & <- & _)|[_ Hr]]; [|by eapply H1].
  destruct Hf as [Hf|Hf]; rewrite Hf in Hd; [by eapply H1|done].
Qed.
Lemma within_fail_stop n sh : within n sh → within n (fail_stop sh).
Proof.
  intros [H1 H2]. split.
  - intros loc r d Hr Hd. destruct (fail_stop_durable sh loc r d Hr Hd) as (r' & Hr' & Hd'). by eapply H1.
  - unfold fail_stop, stop_all. by destruct (stop_slots _ _ _).
Qed.
Lemma within_stop n sh : within n sh → within n (Ingress.stop sh).
Proof. intros H%within_fail_stop. by eapply within_same. Qed.

(** What the coordinator and the submitters do to the ingress between messages. *)
Inductive coordinated (sh : IngressShared) : IngressShared → Prop :=
| co_check command : coordinated sh (submit_check command sh).2
| co_reserve command measured : coordinated sh (submit_reserve command measured sh).2
| co_finish command i t n : coordinated sh (submit_finish command i t n sh).2
| co_close : coordinated sh (close_admission sh)
| co_stop : coordinated sh (Ingress.stop sh)
| co_take : coordinated sh (take_next sh).2
| co_prepare i candidate : coordinated sh (prepare_publication i candidate sh).2
| co_handled i admission append prep : coordinated sh (complete_handled i admission append prep sh).2
| co_read : coordinated sh (read_latest sh).2
| co_poison : coordinated sh (mkShared (sh_store_id sh) true (sh_state sh) (sh_receipts sh) (sh_woken sh) (sh_permit sh) (sh_next_arc sh)).

Ltac still n := repeat (case_match || case_decide); cbn [fst snd];
  first [done|by apply within_fail_stop|by apply within_stop|by eapply within_same].
Lemma within_rollback n i sh : within n sh → within n (rollback_preparation i sh).
Proof.
  intros Hw. unfold rollback_preparation. destruct (sh_poisoned sh); [by apply within_stop|]. destruct (get_slot _ _) as [slot|]; [|done].
  destruct (update_receipt _ _ _) as [changed h] eqn:E. set (sh1 := set_state _ sh).
  assert (within n (set_receipts h sh1)) as H1.
  { eapply (within_update n resolve_stopped _ sh1); [by eapply within_same| |exact E]. intros [? [?|]]; [by left|by right]. }
  by destruct changed; eapply within_same.
Qed.
Lemma within_handled n i admission append prep sh : within n sh → within n (complete_handled i admission append prep sh).2.
Proof.
  intros Hw. unfold complete_handled. destruct (sh_poisoned sh); [by apply within_fail_stop|].
  destruct (get_slot _ _) as [slot|]; [|by apply within_fail_stop]. destruct (_ || _); [by apply within_fail_stop|]. set (sh1 := set_state _ sh).
  assert (within n sh1) as H1 by (by eapply within_same). cbn [sl_terminal].
  destruct (update_receipt _ _ _) as [[] h] eqn:E; cbn [snd]; [|by apply within_fail_stop].
  eapply (within_same n (set_receipts h sh1)); [|done..]. eapply (within_update n (resolve_handled append) _ sh1); [done| |exact E].
  intros [[?|] ?]; by left.
Qed.
Lemma within_reserve n command measured sh : within n sh → within n (submit_reserve command measured sh).2.
Proof.
  intros Hw. unfold submit_reserve. destruct (sh_poisoned sh); [by apply within_stop|]. destruct (in_closed _); [done|]. case_decide; [done|].
  destruct measured as [frame_len|]; [|done]. destruct (match_slots _ _); [done..|].
  destruct (state_classify _ _) as [o| | |] eqn:Ec; [|done..|].
  - pose proof (classify_replay_cases (st_replay (in_retry (sh_state sh))) (st_guard (in_retry (sh_state sh))) (adm_retry (cmd_admission command))) as Hc.
    unfold state_classify in Ec. rewrite Ec in Hc. destruct Hw as [H1 H2], Hc as [Hin _]. split; [|done]. cbn.
    intros loc r d [[_ Hr]|[_ <-]]%lookup_snoc_Some Hd; [by eapply H1|]. injection Hd as <-. by apply H2.
  - case_decide; [done|]. destruct (negb _); [done|]. destruct (first_empty _); [|done]. destruct Hw as [H1 H2]. split; [|done]. cbn.
    intros loc r d [[_ Hr]|[_ <-]]%lookup_snoc_Some Hd; [by eapply H1|done].
Qed.
Lemma coordinated_within n sh sh' : coordinated sh sh' → within n sh → within n sh'.
Proof.
  intros [command|command measured|command i t m| | | |i candidate|i admission append prep| |] Hw.
  - unfold submit_check. still n.
  - by apply within_reserve.
  - unfold submit_finish, submit_enqueue. cbv zeta. repeat (case_match || case_decide); cbn [snd];
      first [by apply within_rollback|by apply within_fail_stop|by eapply within_same].
  - unfold close_admission. destruct (sh_poisoned sh); [by apply within_stop|by eapply within_same].
  - by apply within_stop.
  - unfold take_next. still n.
  - unfold prepare_publication. still n.
  - by apply within_handled.
  - unfold read_latest. still n.
  - by eapply within_same.
Qed.

(** A batch makes durable what the commit covers. *)
Lemma batch_accepted entries committed retry sh sh' :
  complete_durable_batch entries committed retry sh = (true, sh') →
  ∀ e, e ∈ entries → batch_entry_ok (sh_state sh) (sh_receipts sh) (mc_durable_cutoff committed) e = true.
Proof.
  unfold complete_durable_batch. destruct (sh_poisoned sh); [done|]. case_decide; [done|]. destruct (negb (verifies_transition _ _ _ _)); [done|].
  destruct (forallb _ _) eqn:Hb; [|done]. intros _ e He. rewrite forallb_forall in Hb. by apply Hb, list_elem_of_In.
Qed.
Lemma update_receipt_length f loc h b h' : update_receipt f loc h = (b, h') → length h' = length h.
Proof.
  unfold update_receipt. destruct (h !! loc) as [r|]; [destruct (f r) as [c r']|]; intros E; injection E as _ <-; [apply length_insert|done].
Qed.
Lemma resolve_batch_length entries committed s h n : length (resolve_batch entries committed s h n).1.2 = length h.
Proof.
  revert s h n. induction entries as [|e entries IH]; intros s h n; [done|]. cbn [resolve_batch].
  destruct (get_slot s _) as [slot|]; [|done]. destruct (sl_append slot) as [append|]; [|done].
  destruct (update_receipt _ _ h) as [[] h'] eqn:E; apply update_receipt_length in E; [by rewrite IH|done].
Qed.
Lemma batch_length entries committed retry sh sh' :
  complete_durable_batch entries committed retry sh = (true, sh') → length (sh_receipts sh') = length (sh_receipts sh).
Proof.
  unfold complete_durable_batch. destruct (sh_poisoned sh); [done|]. case_decide; [done|]. destruct (negb _); [done|]. destruct (negb _); [done|].
  pose proof (resolve_batch_length entries committed (Ingress.with_retry retry (sh_state sh)) (sh_receipts sh) []) as Hl.
  destruct (resolve_batch _ _ _ _ _) as [[[[] s'] h'] n']; [|done]. by intros [= <-].
Qed.
Lemma within_batch n m entries committed retry sh b sh' :
  ingress_ok sh → within n sh → (n ≤ m)%nat → cut_append_sequence (mc_durable_cutoff committed) ≤ Z.of_nat m →
  (∀ o, o ∈ st_replay retry → ro_append_sequence o ≤ Z.of_nat m) →
  complete_durable_batch entries committed retry sh = (b, sh') → ingress_ok sh' ∧ within m sh'.
Proof.
  intros Hok Hw Hm Hcut Hretry E. pose proof (durable_ok entries committed retry sh Hok) as Hd. rewrite E in Hd.
  destruct Hd as (Hok' & _ & Hd). split; [done|]. destruct b.
  - destruct Hd as (_ & _ & _ & Er & _ & Haw & _ & Hrec). split; [|by rewrite Er]. intros loc r d Hr Hdur.
    destruct (decide (Exists (λ e, sl_terminal <$> get_slot (sh_state sh) (be_slot e) = Some loc) entries)) as [Hex|Hno].
    + apply Exists_exists in Hex as (e & He & Hslot). destruct (get_slot _ (be_slot e)) as [slot|] eqn:Hg; [|done].
      cbn in Hslot. injection Hslot as <-. specialize (Hrec e slot He Hg). rewrite Hr in Hrec. injection Hrec as ->.
      injection Hdur as <-. cbn. destruct (batch_entry_ok_spec _ _ _ _ (batch_accepted _ _ _ _ _ E e He)) as (? & _ & _ & _ & _ & _ & Hs & _). lia.
    + destruct (lookup_lt_is_Some_2 (sh_receipts sh) loc) as [r' Hr'];
        [rewrite <-(batch_length _ _ _ _ _ E); by eapply lookup_lt_Some|].
      assert (sh_receipts sh' !! loc = Some r') as Hsame.
      { apply (durable_elsewhere entries committed retry sh); [done..|]. intros e slot He Hg Hloc. apply Hno, Exists_exists.
        exists e. split; [done|]. rewrite Hg. cbn. by rewrite Hloc. }
      rewrite Hr in Hsame. injection Hsame as <-. pose proof (wi_durable _ _ Hw _ _ _ Hr' Hdur). lia.
  - destruct Hd as (_ & Erec & Er). eapply within_more; [|exact Hm]. destruct Hw as [H1 H2]. split; [|by rewrite Er].
    rewrite Erec. intros loc r d Hr Hdur. destruct (fail_stop_durable sh loc r d Hr Hdur) as (r' & Hr' & Hd'). by eapply H1.
Qed.

(** ** The worker and its store *)

Lemma disturb_self w : disturb (dk_events (w_disk w)) w = w.
Proof. by destruct w as [[] ?]. Qed.
Lemma disturb_again e e' w : disturb e (disturb e' w) = disturb e w.
Proof. done. Qed.

Section durability.
Context (c : ManifestStoreConfig).
Context (Hs : wf (sc_store_id c)) (Hl : wf (sc_journal_limits c)) (Hr : wf (sc_registry c)).

(** The handle of the worker is in a run, in an environment about to do [events], and
    the receipts speak of what that run has made durable. *)
Definition ready (events : list io_event) (wk : worker) : Prop := ∃ w H ops n,
  wk_world wk = disturb events w ∧ store_run c (wk_store wk) w H ops n ∧ within n (wk_ingress wk) ∧ ingress_ok (wk_ingress wk).
Definition backed (wk : worker) : Prop := ∃ events, ready events wk.
Lemma ready_core events wk wk' :
  wk_store wk' = wk_store wk → wk_world wk' = wk_world wk → wk_ingress wk' = wk_ingress wk → ready events wk → ready events wk'.
Proof using Type. unfold ready. by intros -> -> ->. Qed.
Lemma ready_stop events wk : ready events wk → ready events (with_ingress (Ingress.stop (wk_ingress wk)) wk).
Proof using Type.
  intros (w & H & ops & n & Ew & Hrun & Hw & Hok). exists w, H, ops, n. split_and!; [done..|by apply within_stop|by apply stop_fallen].
Qed.
Lemma ready_settle s w H ops n wk :
  wk_store wk = s → wk_world wk = w → store_run c s w H ops n → within n (wk_ingress wk) → ingress_ok (wk_ingress wk) → backed wk.
Proof using Type. intros <- <- Hrun Hw Hok. exists (dk_events (w_disk (wk_world wk))), (wk_world wk), H, ops, n. by rewrite disturb_self. Qed.

Lemma ready_append {E} events wk p q frame :
  into_frame p q = Ok frame → ready events wk → outcome (on_store (store_append frame)) wk (λ _, backed) (λ (_ : E) _, False).
Proof using Type.
  intros Hf (w & H & ops & n & Ew & Hrun & Hw & Hok). apply step_store. unfold outcome. rewrite Ew.
  destruct (store_append frame _) as [[e|e] [s' w']] eqn:E0.
  - eapply ready_settle; [done..|exact (run_appended _ _ _ _ _ _ _ _ _ _ _ _ _ Hrun Hf E0)|done|done].
  - eapply ready_settle; [done..|exact (run_append_failed _ _ _ _ _ _ _ _ _ _ _ _ _ Hrun Hf E0)|done|done].
Qed.
Lemma ready_call {E} events wk op :
  wf op → ready events wk → outcome (on_store (store_call op)) wk (λ _, backed) (λ (_ : E) _, False).
Proof using Type.
  intros Hop (w & H & ops & n & Ew & Hrun & Hw & Hok). apply step_store. unfold outcome. rewrite Ew.
  destruct (store_call op _) as [[e|e] [s' w']] eqn:E0.
  - eapply ready_settle; [done..|exact (run_called _ _ _ _ _ _ _ _ _ _ _ Hrun Hop E0)|done|done].
  - eapply ready_settle; [done..|exact (run_call_failed _ _ _ _ _ _ _ _ _ _ _ Hrun Hop E0)|done|done].
Qed.

(** What a barrier that answered has made durable. *)
Lemma sync_answers s w H ops n events pending committed retry s' w' :
  store_run c s w H ops n → Forall sector_event events →
  store_sync_pending pending (s, disturb events w) = (Ok (committed, retry), (s', w')) →
  (n ≤ length H)%nat ∧ cut_append_sequence (mc_durable_cutoff committed) = Z.of_nat (length H) ∧
  ∀ o, o ∈ st_replay retry → ro_append_sequence o ≤ Z.of_nat (length H).
Proof using Hs Hl Hr.
  intros Hrun Hev E. pose proof (store_run_inv c Hs Hl Hr _ _ _ _ _ Hrun) as Hinv. split; [by eapply inv_length|].
  apply (inv_events c events) in Hinv as [(_ & Hsv & _)|(Hst & _)].
  2:{ destruct (stopped_refuses s (disturb events w) Hst) as (_ & _ & Hno). destruct (Hno pending) as [e' E']. by rewrite E in E'. }
  destruct (outcome_Ok _ _ _ _ _ _ (store_sync_outcome _ _ _ _ _ (identity_wf c Hs) Hl floor_wf s (disturb events w) H n pending Hsv Hev) E)
    as (Hsv' & Eans & _). cbn [fst snd] in *. injection Eans as -> ->.
  pose proof (serving_covers _ _ _ _ _ _ _ _ _ Hsv') as (_ & _ & Hseq & _). split; [cbn in *; lia|].
  intros o Ho. pose proof (serving_replay _ _ _ _ _ _ _ _ _ Hsv' o Ho). lia.
Qed.
Lemma ready_flush events wk :
  Forall sector_event events → ready events wk → outcome flush_pending wk (λ _, backed) (λ _, backed).
Proof using Hs Hl Hr.
  intros Hev (w & H & ops & n & Ew & Hrun & Hw & Hok). unfold flush_pending. apply outcome_bind, step_worker.
  case_decide; [by exists events, w, H, ops, n|]. apply outcome_bind, step_store. unfold outcome at 1. rewrite Ew.
  destruct (store_sync_pending _ _) as [[[committed retry]|e] [s' w']] eqn:E; cbn [fst snd].
  - destruct (sync_answers _ _ _ _ _ _ _ _ _ _ _ Hrun Hev E) as (Hn & Hcut & Hre).
    pose proof (run_committed _ _ _ _ _ _ _ _ _ _ _ Hrun Hev E) as Hrun'.
    apply outcome_bind, step_change, outcome_bind, step_worker. cbn [with_inspection with_store wk_pending wk_ingress].
    destruct (complete_durable_batch _ _ _ _) as [completed sh] eqn:Eb.
    destruct (within_batch n (length H) _ _ _ _ _ _ Hok Hw Hn (Z.eq_le_incl _ _ Hcut) Hre Eb) as [Hok' Hw'].
    apply outcome_bind. unfold outcome at 1, on_ingress. destruct completed.
    + apply step_change. by eapply ready_settle.
    + unfold fail_worker, outcome, mbind, M_bind, change, on_ingress, fail. cbn [fst snd].
      eapply (ready_settle s' w'); [done..|exact Hrun'|by apply within_stop|by apply stop_fallen].
  - unfold stop_for_store_failure, outcome, mbind, M_bind, change, on_ingress, fail. cbn [fst snd].
    eapply (ready_settle s' w'); [done..|exact (run_commit_failed _ _ _ _ _ _ _ _ _ _ _ Hrun Hev E)|by apply within_stop|by apply stop_fallen].
Qed.

(** A rotation is demanded. *)
Definition rotates (now : nat → Z) (input : received) (wk : worker) : bool :=
  match input with
  | Message (MsgAppend _ prepared _) =>
    age_reached wk (now 0%nat) || match requires_rotation (wk_store wk) (prep_frame_len prepared) with Ok required => required | Err _ => false end
  | Message (MsgPublished _ _ _ _ _ _) => rotation_required wk (now 1%nat)
  | _ => false
  end.
Definition wf_input (input : received) : Prop := match input with Message (MsgRegistry operation) => wf operation | _ => True end.

Lemma backed_stop wk : backed wk → backed (with_ingress (Ingress.stop (wk_ingress wk)) wk).
Proof using Type. intros [events Hrd]. exists events. by apply ready_stop. Qed.
Lemma backed_core wk wk' :
  wk_store wk' = wk_store wk → wk_world wk' = wk_world wk → wk_ingress wk' = wk_ingress wk → backed wk → backed wk'.
Proof using Type. intros E1 E2 E3 [events Hrd]. exists events. by apply (ready_core events wk). Qed.
Section steps.
Context {A : Type} (wk : worker) (Q : reply → worker → Prop).
Abbreviation backs m := (outcome m wk Q (λ (_ : reply) wk', backed wk')).
Lemma backed_failure {B} error (r : reply) (Q' : B → worker → Prop) :
  backed wk → outcome (_ ← stop_for_store_failure error; fail r) wk Q' (λ _ wk', backed wk').
Proof using Type.
  intros Hb. unfold stop_for_store_failure, outcome, mbind, M_bind, change, on_ingress, fail. cbn [fst snd].
  apply backed_stop. by eapply backed_core, Hb.
Qed.
Lemma backed_fail {B} (r : reply) (Q' : B → worker → Prop) :
  backed wk → outcome (_ ← fail_worker; fail r) wk Q' (λ _ wk', backed wk').
Proof using Type.
  intros Hb. unfold fail_worker, outcome, mbind, M_bind, change, on_ingress, fail. cbn [fst snd]. apply backed_stop. by eapply backed_core, Hb.
Qed.
Lemma backed_or_stop respond (r : result ManifestStoreError A) (k : A → Step reply) :
  backed wk → (∀ a, r = Ok a → backs (k a)) → backs (or_stop respond r ≫= k).
Proof using Type. intros Hb Hk. destruct r as [a|e]; [by apply Hk|]. apply outcome_bind. by apply backed_failure. Qed.
Lemma backed_refuse respond (k : () → Step reply) : backed wk → backs (k tt) → backs (refuse_unpublished respond ≫= k).
Proof using Type.
  intros Hb Hk. apply outcome_bind. unfold refuse_unpublished. apply outcome_bind, step_worker. case_decide; [by apply backed_fail|].
  by apply outcome_ret.
Qed.
End steps.

Lemma append_backed events now slot prepared delivered wk :
  ready events wk → rotates now (Message (MsgAppend slot prepared delivered)) wk = false →
  outcome (handle_append now slot prepared delivered) wk (λ _, backed) (λ _, backed).
Proof using Type.
  intros Hrd Hrot. assert (backed wk) as Hb by by exists events. cbn [rotates] in Hrot. apply orb_false_iff in Hrot as [Hage Hfit].
  unfold handle_append. apply backed_refuse; [done|]. apply outcome_bind, step_worker. apply backed_or_stop; [done|]. intros sequence _.
  apply outcome_bind. destruct (into_frame prepared sequence) as [frame|e] eqn:Hf; [|by apply backed_fail]. apply outcome_ret.
  apply backed_or_stop; [done|]. intros [] _. apply backed_or_stop; [done|]. intros fit Efit. rewrite Efit in Hfit.
  rewrite Hage, Hfit. apply outcome_bind, outcome_ret, outcome_bind.
  eapply outcome_weaken; [by eapply ready_append| |by intros ? ? []]. intros appended wk1 Hb1.
  apply backed_or_stop; [done|]. intros end_offset _. apply outcome_bind, step_worker, outcome_bind, step_change, outcome_bind, step_change.
  destruct delivered; [apply outcome_ret; by eapply backed_core, Hb1|].
  unfold outcome, mbind, M_bind, on_ingress, fail. cbn [fst snd]. apply backed_stop. by eapply backed_core, Hb1.
Qed.
Lemma published_backed events now slot priority barrier n q a wk :
  Forall sector_event events → ready events wk → rotates now (Message (MsgPublished slot priority barrier n q a)) wk = false →
  outcome (handle_published now slot priority barrier n q a) wk (λ _, backed) (λ _, backed).
Proof using Hs Hl Hr.
  intros Hev Hrd Hrot. cbn [rotates] in Hrot. unfold handle_published. apply outcome_bind, step_worker, outcome_bind, step_change, outcome_bind.
  case_decide; [apply backed_fail; exists events; by eapply ready_core, Hrd|]. apply outcome_ret, outcome_bind.
  set (wk1 := with_unpublished None wk).
  eapply (outcome_weaken _ _ (λ _ wk2, ready events wk2 ∧ rotation_required wk2 (now 1%nat) = false) _ (λ _ _, False)); [| |done].
  { case_decide; [apply step_change|apply outcome_ret]; (split; [by eapply ready_core, Hrd|exact Hrot]). }
  intros [] wk2 [Hrd2 Hrot2]. apply outcome_bind, step_change, outcome_bind, step_worker. set (wk3 := with_pending _ wk2).
  assert (rotation_required wk3 (now 1%nat) = false) as -> by exact Hrot2. assert (ready events wk3) as Hrd3 by by eapply ready_core, Hrd2.
  apply outcome_bind. eapply (outcome_weaken _ _ (λ _, backed) _ (λ _, backed)); [| |done].
  { destruct (_ || false); [|apply outcome_ret; by exists events]. apply outcome_bind, step_attempt.
    by eapply outcome_weaken; [by eapply ready_flush| |]. }
  intros [] wk4 Hb4. apply outcome_bind, step_worker, outcome_bind. cbn [andb]. apply outcome_ret, outcome_bind, step_worker, outcome_bind.
  case_decide; [apply step_change|apply outcome_ret]; apply outcome_ret; [by eapply backed_core, Hb4|done].
Qed.
Lemma backed_settle {A} (respond : result ManifestStoreError A → reply) r wk :
  backed wk → outcome (settle_control respond r) wk (λ _, backed) (λ _, backed).
Proof using Type. intros Hb. unfold settle_control. destruct (terminal r); [by apply backed_failure|by apply outcome_ret]. Qed.
Lemma backed_flushing events wk (k : result ManifestStoreError () → Step reply) :
  Forall sector_event events → ready events wk → (∀ r wk', backed wk' → outcome (k r) wk' (λ _, backed) (λ _, backed)) →
  outcome (attempt flush_pending ≫= k) wk (λ _, backed) (λ _, backed).
Proof using Hs Hl Hr.
  intros Hev Hrd Hk. apply outcome_bind, step_attempt. eapply outcome_weaken; [by eapply ready_flush|..]; intros; by apply Hk.
Qed.
Lemma serve_backed events now stopping input wk :
  Forall sector_event events → wf_input input → ready events wk → rotates now input wk = false →
  outcome (serve now stopping input) wk (λ _, backed) (λ _, backed).
Proof using Hs Hl Hr.
  intros Hev Hin Hrd Hrot. assert (backed wk) as Hb by by exists events. destruct stopping; [by apply backed_stop|].
  destruct input as [[slot prepared delivered|slot priority barrier n q a| |operation|envelope| |]| |]; cbn [serve].
  - by eapply append_backed.
  - by eapply published_backed.
  - unfold handle_barrier. apply backed_refuse; [done|]. eapply backed_flushing; [done..|]. intros r wk' Hb'.
    apply outcome_bind, step_change. by destruct r; eapply (backed_core wk').
  - unfold handle_registry. apply backed_refuse; [done|]. apply outcome_bind. eapply outcome_weaken; [by eapply ready_call| |by intros ? ? []].
    intros r wk' Hb'. apply outcome_bind. destruct r; [apply step_change|apply outcome_ret]; apply backed_settle; [by eapply backed_core, Hb'|done].
  - unfold handle_bind. apply backed_refuse; [done|]. apply outcome_bind, step_worker. by apply backed_settle.
  - unfold handle_shutdown. apply backed_refuse; [done|]. eapply backed_flushing; [done..|]. intros r wk' Hb'.
    apply outcome_bind. destruct r; [apply step_change; by eapply (backed_core wk')|by apply outcome_ret].
  - by apply backed_stop.
  - unfold handle_timeout. apply outcome_bind, step_worker, outcome_bind. case_decide.
    + apply outcome_bind, step_attempt. eapply outcome_weaken; [by eapply ready_flush| |by auto].
      intros [] wk' Hb'. apply outcome_ret. apply outcome_bind, step_change, outcome_ret. by eapply backed_core, Hb'.
    + apply outcome_ret. apply outcome_bind, step_change, outcome_ret. by eapply backed_core, Hb.
  - by apply backed_stop.
Qed.

(** ** Runs of the worker *)

(** A worker over a handle of a run that is not stopped, with the ingress into which
    the coordinator installed the handle's retry state; then, in any order, messages
    that demand no rotation, handled while effects fail until the worker returns, and
    the steps of the runtime that the coordinator and the submitters make. *)
Inductive worker_run : bool → worker → list submitter → list (option PublishedObservation * PreparedPublication) → Prop :=
| worker_opened options s w H ops n sh it now byte_limits :
    store_run c s w H ops n → ¬ stopped s → wf byte_limits →
    install_opened_retry (ms_retry s) (shared_new (sc_store_id c) byte_limits (sc_retry c)) = (true, sh) →
    worker_run true (worker_new options s w sh it now) [] []
| worker_served wk submitters prepared events now stopping input answer wk' :
    worker_run true wk submitters prepared → Forall sector_event events → wf_input input →
    rotates now input (with_store (wk_store wk) (disturb events (wk_world wk)) wk) = false →
    serve now stopping input (with_store (wk_store wk) (disturb events (wk_world wk)) wk) = (answer, wk') →
    worker_run (is_ok answer) wk' submitters prepared
| worker_coordinated alive wk submitters prepared rt' :
    worker_run alive wk submitters prepared → rt_step (mkRuntime (wk_ingress wk) submitters prepared) rt' →
    coordinated (wk_ingress wk) (rt_shared rt') →
    worker_run alive (with_ingress (rt_shared rt') wk) (rt_submitters rt') (rt_prepared rt').

Lemma worker_run_reachable alive wk submitters prepared :
  worker_run alive wk submitters prepared →
  ∃ byte_limits, wf byte_limits ∧ rt_reachable (sc_store_id c) byte_limits (sc_retry c) (mkRuntime (wk_ingress wk) submitters prepared).
Proof using Type.
  induction 1 as [options s w H ops n sh it now bl _ _ Hbl Hin|wk sus ps events now stopping input answer wk' _ (bl & Hbl & IH) _ _ _ E
    |alive wk sus ps rt' _ (bl & Hbl & IH) Hstep _]; exists bl; (split; [done|]).
  - replace (mkRuntime _ [] []) with (on_shared (λ sh, (install_opened_retry (ms_retry s) sh).2) (mkRuntime (shared_new (sc_store_id c) bl (sc_retry c)) [] [])).
    2:{ unfold on_shared. cbn [rt_shared rt_submitters rt_prepared]. by rewrite Hin. }
    eapply rt_stepped; [apply rt_opened|constructor].
  - pose proof (serve_moves now stopping input (with_store (wk_store wk) (disturb events (wk_world wk)) wk)) as Hm.
    unfold outcome in Hm. rewrite E in Hm. assert (rtc ingress_step (wk_ingress wk) (wk_ingress wk')) as Hrtc by by destruct answer.
    clear -IH Hrtc. induction Hrtc as [sh|sh sh1 sh2 Hone _ IHr]; [done|]. apply IHr. eapply rt_stepped; [exact IH|].
    destruct Hone; [exact (step_stop (mkRuntime sh sus ps))|exact (step_durable (mkRuntime sh sus ps) entries committed retry)].
  - destruct rt'. by eapply rt_stepped.
Qed.
Lemma worker_run_ok alive wk submitters prepared : worker_run alive wk submitters prepared → ingress_ok (wk_ingress wk).
Proof using Type. intros (bl & Hbl & H)%worker_run_reachable. exact (ro_ingress _ _ (runtime_reachable_ok _ _ _ _ Hbl H)). Qed.
Lemma worker_run_backed alive wk submitters prepared : worker_run alive wk submitters prepared → backed wk.
Proof using Hs Hl Hr.
  assert (∀ wk events, backed wk → ready events (with_store (wk_store wk) (disturb events (wk_world wk)) wk)) as Hready.
  { intros wk0 events (e0 & w & H & ops & n & Ew & Hrun & Hw & Hok). exists w, H, ops, n. split_and!; [|done..].
    cbn. by rewrite Ew, disturb_again. }
  intros Hrun. pose proof (worker_run_ok _ _ _ _ Hrun) as Hok. revert Hok.
  induction Hrun as [options s w H ops n sh it now bl Hrun Hst Hbl Hin|wk sus ps events now stopping input answer wk' Hwk IH Hev Hwf Hrot E
    |alive wk sus ps rt' Hwk IH _ Hco]; intros Hok.
  - eapply (ready_settle s w); [done..|exact Hrun| |exact Hok]. pose proof (store_run_inv c Hs Hl Hr _ _ _ _ _ Hrun) as Hinv.
    destruct Hinv as [(_ & Hsv & _)|(Hst' & _)]; [|done]. unfold install_opened_retry in Hin. cbn in Hin. case_decide; [done|].
    injection Hin as <-. split; [by intros loc r d Hr0|]. intros o Ho. pose proof (serving_replay _ _ _ _ _ _ _ _ _ Hsv o Ho). lia.
  - pose proof (serve_backed events now stopping input _ Hev Hwf (Hready _ _ (IH (worker_run_ok _ _ _ _ Hwk))) Hrot) as Ho.
    unfold outcome in Ho. rewrite E in Ho. by destruct answer.
  - destruct (IH (worker_run_ok _ _ _ _ Hwk)) as (events & w & H & ops & n & Ew & Hrun & Hw & _).
    exists events, w, H, ops, n. split_and!; [done..| |done]. by eapply coordinated_within.
Qed.
End durability.

(** ** Properties *)

(** C?: A durable receipt survives. Let the worker run over a store, its handle from any
    run of the store's operations, beside any interleaving of submissions, publications
    and stops of the ingress, with effects failing anywhere and groups committed whenever
    the policy demands, and let no rotation be demanded. Then whatever crash follows,
    be it of the process or of the power: for every receipt that was resolved as durable,
    the root that a reader finds covers its append sequence, and the journal's files open
    to admissions that reach it. *)
Theorem durable_receipt_survives c alive wk submitters prepared loc r d d' dj
    (Hs : wf (sc_store_id c)) (Hl : wf (sc_journal_limits c)) (Hr : wf (sc_registry c))
    (Hrun : worker_run c alive wk submitters prepared)
    (Hreceipt : sh_receipts (wk_ingress wk) !! loc = Some r) (Hdurable : r_durable r = Some (Durable d))
    (Hcrash : crashed (w_dir (wk_world wk)) d')
    (Hdisk : dj = w_disk (wk_world wk) ∨ power_loss (genesis_identity c) (w_disk (wk_world wk)) dj) (Hlock : dk_locked dj = false) :
  ∃ x, reads (sc_store_id c) (sc_retry c) (dr_now d') x ∧
    app_append_sequence (dc_append d) ≤ cut_append_sequence (mf_cutoff (r_manifest x)) ∧
    ∃ aj d'' recovered,
      Active.open (config (sc_directory c) (genesis_identity c) 0 (sc_journal_limits c) OpenExisting) (set_events [] dj) = (Ok aj, d'') ∧
      aj_records aj = placed JOURNAL_V1_HEADER_LEN recovered ∧ app_append_sequence (dc_append d) ≤ len recovered.
Proof.
  destruct (worker_run_backed c Hs Hl Hr _ _ _ _ Hrun) as (events & w & H & ops & n & Ew & Hst & Hin & _).
  pose proof (inv_events c events _ _ _ _ _ (store_run_inv c Hs Hl Hr _ _ _ _ _ Hst)) as Hinv. rewrite <-Ew in Hinv.
  pose proof (inv_length c _ _ _ _ _ Hinv) as Hn. pose proof (wi_durable _ _ Hin _ _ _ Hreceipt Hdurable) as Hd.
  destruct (inv_crash c _ _ _ _ _ d' Hinv Hcrash) as (x & m & k & Hx & Hcase & (Hlen & _ & Hseq & _) & Hm & Hh & Ho).
  assert (n ≤ m)%nat as Hnm by (destruct Hcase as [[_ ->]|(_ & [(_ & _ & _ & ->)|[_ ->]])]; lia).
  exists x. split_and!; [exact Hx|lia|].
  destruct (crash_open c Hs Hl (w_disk (wk_world wk)) dj H k m Ho Hh Hm Hdisk Hlock) as (aj & d'' & recovered & E & Hp & _ & Hrec).
  exists aj, d'', recovered. split_and!; [exact E|exact Hrec|]. apply prefix_length in Hp. rewrite length_take_le in Hp by lia. unfold len. lia.
Qed.

(** C?: The store worker never returns with somebody waiting. Whatever message, timeout
    or disconnection it handles, whatever the store answers and whatever fails, the
    ingress stays well-formed; and when the worker returns, the ingress is stopped and
    every receipt is settled, except after a shutdown whose last group was committed. *)
Theorem worker_returns_settled now stopping input wk (Hok : ingress_ok (wk_ingress wk)) :
  match serve now stopping input wk with
  | (Ok _, wk') => ingress_ok (wk_ingress wk')
  | (Err answer, wk') =>
      (ingress_ok (wk_ingress wk') ∧ Runtime.stopped (sh_state (wk_ingress wk')) ∧
       ∀ loc r, sh_receipts (wk_ingress wk') !! loc = Some r → Runtime.settled r) ∨
      (input = Message MsgShutdown ∧ answer = UnitReply (Ok tt) ∧ wk_pending wk' = [] ∧ ingress_ok (wk_ingress wk'))
  end.
Proof.
  destruct stopping; [by left; apply stop_fallen|].
  assert (input = Message MsgShutdown ∨ input ≠ Message MsgShutdown) as [->|Hne] by (destruct input as [[]| |]; auto).
  - pose proof (shutdown_ends now wk Hok) as H. unfold outcome in H. by destruct (serve _ _ _ _) as [[a|e] wk'].
  - pose proof (serve_ends now false input Hne wk Hok) as H. unfold outcome in H. destruct (serve _ _ _ _) as [[a|e] wk']; [done|by left].
Qed.
Lemma worker_returns_settled_witness : True.
Proof. exact I. Defined.

(** C?: Group commit is bounded and timed. Under a valid policy, after every message
    that the worker survives, the frames that were appended and wait for a barrier are
    fewer than the policy's records and smaller than its bytes, and whenever there are
    any, the deadline of the group is running; a protected command, and one that
    demands an immediate barrier, is committed before the worker goes on. *)
Theorem group_commit_bounded now stopping input wk (Hw : wf (wo_group_commit (wk_options wk))) (Hg : grouped wk) :
  match serve now stopping input wk with
  | (Ok _, wk') =>
      wk_options wk' = wk_options wk ∧
      len (wk_pending wk') < gp_max_records (wo_group_commit (wk_options wk)) ∧
      zsum pd_bytes (wk_pending wk') < gp_max_bytes (wo_group_commit (wk_options wk)) ∧
      (wk_pending wk' ≠ [] → is_Some (wk_pending_since wk')) ∧
      (∀ slot priority barrier frame_bytes qualification append,
         input = Message (MsgPublished slot priority barrier frame_bytes qualification append) →
         priority = Protected ∨ barrier = Immediate → wk_pending wk' = [])
  | (Err _, _) => True
  end.
Proof.
  assert (∀ slot priority barrier n q a, input = Message (MsgPublished slot priority barrier n q a) → stopping = false →
    match serve now stopping input wk with
    | (Ok _, wk') => grouped wk' ∧ wk_options wk' = wk_options wk ∧ (priority = Protected ∨ barrier = Immediate → wk_pending wk' = [])
    | (Err _, _) => True
    end) as Hpub.
  { intros slot priority barrier n q a -> ->. pose proof (published_grouped now slot priority barrier n q a wk Hw Hg) as H. exact H. }
  destruct stopping; [done|]. assert (steadily (serve now false input) ∨ ∃ slot priority barrier frame_bytes qualification append,
    input = Message (MsgPublished slot priority barrier frame_bytes qualification append)) as H.
  { destruct input as [[]| |]; [left; apply append_steadily|right; by do 6 eexists|left..].
    - apply barrier_steadily.
    - cbn [serve]. unfold handle_registry. repeat first [apply refuse_steadily|apply control_steadily|steadying_step].
    - cbn [serve]. unfold handle_bind. repeat first [apply refuse_steadily|apply control_steadily|steadying_step].
    - cbn [serve]. intros wk0. apply (outcome_weaken _ _ (λ _ _, False) _ (λ _ _, True)); [|done|done]. unfold handle_shutdown. apply outcome_bind.
      eapply outcome_weaken; [apply refuse_steadily| |done]. intros [] wk1 _. apply outcome_bind, step_attempt.
      eapply outcome_weaken; [apply flush_empties|done|done].
    - cbn [serve]. steadying.
    - apply timeout_steadily.
    - cbn [serve]. steadying. }
  destruct H as [H|(slot & priority & barrier & n & q & a & Ei)].
  - specialize (H wk). unfold outcome in H. destruct (serve _ _ _ _) as [[r|r] wk']; [|done].
    destruct (steady_grouped _ _ Hw Hg H) as [H1 H2 H3]. destruct H as [Eo _]. rewrite Eo in H1, H2. split_and!; try done.
    intros slot priority barrier n q a Ei. by destruct (Hpub _ _ _ _ _ _ Ei eq_refl) as (_ & _ & ?).
  - specialize (Hpub _ _ _ _ _ _ Ei eq_refl). destruct (serve _ _ _ _) as [[r|r] wk']; [|done]. destruct Hpub as ([H1 H2 H3] & Eo & Hp).
    rewrite Eo in H1, H2. split_and!; try done. rewrite Ei. by intros ? ? ? ? ? ? [= <- <- <- <- <- <-].
Qed.
