(* ===== verification/Interrupted.v ===== *)
(** * Interrupted calls

    What an open makes of a call that was interrupted after its manifest took effect,
    on concrete runs: it does not synchronize a directory entry that the interrupted
    call left unsynchronized, and it refuses a retry slot that the call had yet to
    remove, or a frame that no barrier had settled. *)

From S2P Require Import Prelude Bytes Identity Series Registry Admission Layout Commit Journal Generation Retry RetryCodec Recovery.
From S2P Require Import Active Effects Crash Reopen Handle Restart Disk Manifest Directory Publish Roots Store Inventory OpenStore StoreRuns.

(** An open of what a run left, with and without a power loss that takes nothing. *)
Definition sample_open (w : world) : result ManifestStoreError ManifestStore * world :=
  store_open (reopening sample_store_config) (mkWorld (set_events [] (w_disk w)) (w_dir w)).
Definition undamaged (w : world) : world := mkWorld (w_disk w) (mkDir (dr_now (w_dir w)) []).
Definition cutoff_of (r : result ManifestStoreError ManifestStore * world) : result ManifestStoreError Z :=
  match r.1 with Ok s => Ok (cut_append_sequence (mf_cutoff (ms_current s))) | Err e => Err e end.
(** The manifest that the files of a directory select. *)
Definition selected_cutoff (w : world) : option Z :=
  match (read_manifest_slots (sc_store_id sample_store_config) w).1 with
  | Ok slots => match select_current_manifest slots with
                | Ok (Some (_, m)) => Some (cut_append_sequence (mf_cutoff m))
                | _ => None
                end
  | Err _ => None
  end.

(** ** An entry that is not synchronized *)

(** A barrier whose manifest was renamed, and whose directory synchronization failed. *)
Definition sample_half_barrier : ManifestStore * world :=
  (store_sync_pending [mkPending sample_retry 1 (28 + 829)]
     (sample_stored.2.1, disturb (replicate 19 IoDone ++ [IoFailed 0 (mkIoError StorageFull None)]) sample_stored.2.2)).2.
Definition sample_reopened := sample_open sample_half_barrier.2.
(** The directory when the manifest falls back to the entry before the renaming. *)
Definition sample_fallback : dir := mkDir (List.last (dr_past (w_dir sample_reopened.2)) ∅) [].

(** The open answers a store whose root covers the admission; it has synchronized
    nothing, and a power loss takes that root back to one that covers none. *)
Lemma reopened_root_unsynchronized :
  cutoff_of sample_reopened = Ok 1 ∧ dir_survives (w_dir sample_reopened.2) sample_fallback ∧
  selected_cutoff (mkWorld (w_disk sample_reopened.2) sample_fallback) = Some 0.
Proof.
  split_and!; [by vm_compute| |by vm_compute].
  apply settled_survives; [|by apply (bool_decide_unpack _); vm_compute].
  apply (bool_decide_unpack _). by vm_compute.
Qed.

(** ** A retry slot that is not removed *)

(** The third manifest after a barrier was committed, and the process stopped before
    it removed the retry slot that no manifest names any more. The root is committed,
    and every open refuses it. *)
Lemma interrupted_cleanup_refuses :
  selected_cutoff (undamaged sample_stopped.2.2) = Some 1 ∧ cutoff_of (sample_open (undamaged sample_stopped.2.2)) = Err MseInvalidRetry.
Proof. split; by vm_compute. Qed.

(** ** A frame beyond the root *)

(** A complete frame that no barrier settled, when it reached the disk, is refused. *)
Lemma unsettled_frame_refuses : cutoff_of (sample_open (undamaged sample_unsettled.2.2)) = Err (MseActive InvalidLayout).
Proof. by vm_compute. Qed.
